(* ===== verification/_CoqProject ===== *)
-Q . S2P
Prelude.v
BTree.v
Text.v
Numbers.v
Syntax.v
Lexer.v
LexerFacts.v
Parser.v
ParserFacts.v
Catalog.v
ScopedMap.v
Checker.v
CheckerFacts.v
Machine.v
Value.v
ValueFacts.v
Operators.v
OperatorFacts.v
Limits.v
Strings.v
Host.v
Render.v
RenderFacts.v
Sizing.v
Task.v
Runtime.v
Effects.v
Parallel.v
Builtins.v
Evaluator.v
Interpreter.v
EvalLogic.v
EffectFacts.v
EvaluatorFacts.v
EvaluatorSafety.v
InterpreterFacts.v
EgressState.v
EgressFacts.v
Supervise.v
Inbox.v
Vecs.v
Redaction.v
ServerBase.v
Evolution.v
StoreModel.v
StoreSessions.v
StoreQueues.v
StoreApprovals.v
StoreLogic.v
TurnFacts.v
SessionFacts.v
SessionSafety.v
WorkFacts.v
ApprovalFacts.v
StoreSafety.v
ApprovalSafety.v
StoreSample.v
Net.v
EgressConfig.v
EgressPolicy.v
PolicyFacts.v
EgressBroker.v
Io.v
EgressRuntime.v
EgressHost.v
EgressSafety.v
EgressBounds.v
PreviewFacts.v
EgressSample.v
Batch.v
Actors.v
Agents.v
AgentsPool.v
AgentsFacts.v
AgentsSafety.v
Subtree.v
AgentResources.v
AgentsSample.v
Core.v
CoreFacts.v
