(* ===== verification/Prelude.v ===== *)
(** * A verified model of TempestMiku's core

    TempestMiku runs cells of a small language, tm, on behalf of a language
    model: a cell is text that calls host capabilities (files, network, agents)
    only as far as a catalog grants them.  The crate [crates/tm-lang] is the part
    of the system every such cell goes through, and most of this development
    models it; paths without a crate are relative to [src/crates/tm-lang/src].
    The loop that
    asks the model, runs its cells and feeds the results back is [crates/tm-core].
    Further parts guard what cells set in motion and keep what they leave behind:
    the registry of host functions and their grants ([crates/tm-host]), the network
    boundary with its policy, secrets and budgets ([crates/tm-egress]), the
    actors a cell starts, with their registry, supervision and inboxes
    ([crates/tm-agents]), the redaction of
    what is stored ([crates/tm-memory]), and the store of the server with its
    sessions, turns, queues and approvals ([crates/tm-server]).

    ** The program and how its parts interact

    The agent loop sends the conversation to the model, streams its answer, and hands
    the code of its execute calls to a sandbox session, until it answers in prose.
    Text goes through [lex] (lexer.rs), [parse] (parser/), [check] (check/) under
    a [CapabilityCatalog] of grants (catalog.rs), and the accepted cell is evaluated
    (runtime/) over [Value]s (value.rs).  The checker calls the lexer and the
    parser again for the fragments of string interpolations.  The evaluator
    charges budgets (runtime/limits.rs) for every step, uses the pattern matching
    and the operators of runtime/operators.rs, and suspends at a host effect
    through the continuation machine of machine.rs.  The [Interpreter] owns what
    lives on between cells: it builds the catalog from the host registry, runs a
    cell, and keeps or rolls back its bindings; the host registry checks grants a
    second time when the effect is invoked.  The
    capability [http.request] is such a host function: it authorizes a request by
    the policy in force, has a person approve it unless it is a GET, claims its
    effect and reserves budget in the egress store, vets the addresses, sends, and
    settles afterwards.  The capabilities [agents.*] start actors on threads of their
    own or in waves, with part of the caller's grants, and record them in a registry
    that all sessions share; actors exchange messages through inboxes, and a
    supervisor decides what follows when one fails, which may cancel and restart
    others.  The server queues the messages of users
    as turns, keeps messages and events per session, hands out dreams, scheduled
    runs and approved effects to workers under leases, and redacts credentials
    before it stores anything.

    ** Files

    - [Prelude.v]: outcomes of Rust code ([Ok], [Err], a panic, or fuel that ran
      out), the state monad [M] over them, weakest preconditions [wp], the rules
      for loops, the hint database [tm] and the tactics [wp_step], [wp_steps],
      [inv_outcome].
    - [BTree.v]: [BTreeMap] and [BTreeSet] with [String] keys as sorted
      association lists.
    - [Text.v]: [char], UTF-8 and the character classes; [Strings.v]: the string
      methods the code calls, on chars and on bytes; [Numbers.v]: [i64] with checked arithmetic,
      decimal literals and [f64] as IEEE 754 binary64.
    - [Syntax.v]: span.rs, token.rs, ast.rs, diagnostic.rs.
    - [Lexer.v], [LexerFacts.v]: lexer.rs.  The lexer's offset into the text is
      the pair of the chars before and after it.
    - [Parser.v], [ParserFacts.v]: parser/mod.rs, parser/mechanics.rs,
      parser/patterns.rs.  The record [Parser] has the cursor and the counters of
      the struct; tokens, text and budget are section variables.
    - [Catalog.v]: catalog.rs.
    - [ScopedMap.v]: the map with lexical checkpoints of check/mod.rs.
    - [Checker.v], [CheckerFacts.v]: check/mod.rs, check/helpers.rs,
      check/patterns.rs, check/expressions.rs.  The state has the fields of the
      struct [Checker] and the counters of the shared [CheckContext].
    - [Machine.v]: machine.rs, as functions and as a step relation.
    - [Value.v], [ValueFacts.v]: value.rs.
    - [Operators.v], [OperatorFacts.v]: runtime/operators.rs and [RuntimeError].
    - [Limits.v]: the budgets of runtime/limits.rs and [RuntimeLimits] of
      runtime/mod.rs.  [Meter] has the counters of the evaluator they are about.
    - [Host.v]: tm-host's registry of host functions, session policy, capability
      grants and resource handlers, as far as the interpreter uses them.
    - [Render.v], [RenderFacts.v]: runtime/render.rs; [Sizing.v]:
      runtime/sizing.rs.
    - [Task.v]: futures.  A [Task] is a tree of accesses to the shared state,
      host requests and concurrent children; its runs are a step relation that may
      switch between children at every access.
    - [Runtime.v]: the data and the shared state of runtime/; [Effects.v]:
      runtime/effects.rs and the tracing approval policy; [Parallel.v]:
      runtime/parallel.rs; [Builtins.v]: runtime/builtins.rs; [Evaluator.v]:
      runtime/evaluator.rs; [Interpreter.v]: runtime/mod.rs and runtime/host.rs.
    - [EvalLogic.v]: a logic of invariants and postconditions for tasks;
      [EffectFacts.v], [EvaluatorFacts.v]: every step of the evaluator in it;
      [EvaluatorSafety.v], [InterpreterFacts.v]: the theorems about cells.
    - [EgressState.v], [EgressFacts.v]: tm-egress/src/state.rs, budget.rs and
      error.rs.  The trait [EgressStateStore] is a class, the in-memory store its
      instance; a call returns its answer and the store after it.
    - [Supervise.v]: tm-agents/src/supervise.rs.
    - [Inbox.v]: tm-agents/src/mailbox/inbox.rs and types.rs, and delivery and the
      message log of mailbox/messages.rs; concurrent calls are a step relation.
    - [Vecs.v]: vectors that are searched and updated in place; [ServerBase.v]:
      times, identifiers and errors of the server.
    - [Redaction.v]: tm-memory/src/redaction.rs; [Evolution.v]: evolution.rs of
      tm-host and of tm-server.
    - [StoreModel.v]: the records of tm-server/src/store/models/ and of
      tm-memory/src/dream.rs; [StoreSessions.v], [StoreQueues.v],
      [StoreApprovals.v]: tm-server/src/store/in_memory.rs and
      in_memory/approval_helpers.rs, as state transformers of the record [Inner]
      behind the lock.
    - [StoreLogic.v]: calls as steps and reachable states; [TurnFacts.v],
      [SessionFacts.v], [WorkFacts.v], [ApprovalFacts.v]: invariants of
      the tables; [SessionSafety.v], [StoreSafety.v], [ApprovalSafety.v]: the
      theorems; [StoreSample.v]: a concrete history.
    - [Net.v]: IP addresses as the standard library reads and classifies them, and
      tm-egress/src/resolver.rs.
    - [EgressConfig.v]: tm-host/src/egress.rs; [EgressPolicy.v], [PolicyFacts.v]:
      tm-egress/src/policy.rs.
    - [EgressBroker.v]: the state that the calls of
      tm-egress/src/runtime.rs share: the policy in force, its revocations and the
      secret handles.
    - [Io.v]: asynchronous functions as trees of questions to the world, their runs
      and a logic for them; [EgressRuntime.v], [EgressHost.v]: runtime.rs and host.rs
      of tm-egress as such trees.
    - [EgressSafety.v], [EgressBounds.v], [PreviewFacts.v]: the
      theorems about requests; [EgressBounds.v] follows a call with monitors of its
      budget and of its effect records.  [EgressSample.v]: a policy, two worlds and
      requests played in them.
    - [Batch.v]: batch.rs, and the dependencies between the cells of a
      batch of sandbox/session.rs.
    - [Actors.v]: tm-agents/src/actor.rs, executor.rs, mailbox.rs and mailbox/.  A
      method of the registry is the tree of the critical sections it enters;
      [Agents.v]: tm-agents/src/orchestrate/, the ten [agents.*] functions;
      [AgentsPool.v]: calls, workers and waves side by side on one registry, what a
      thread still owes the registry, and on whose behalf an actor acts.
    - [AgentsFacts.v]: what a caller can delegate, and the functions against the logic
      of [AgentsPool.v]; [AgentsSafety.v], [Subtree.v]: the invariant of the registry
      and the theorems; [AgentsSample.v]: a concrete history.
    - [AgentResources.v]: tm-agents/src/resources.rs.
    - [Core.v], [CoreFacts.v]: the files of tm-core/src: the loop, streams, fenced
      blocks and shaped results, and a run of it.

    Definitions have the names of the functions they translate; a trailing
    underscore avoids a Rocq keyword or a clash.  Every guard, early return and
    counter update of the code is in the definition.

    ** What the theorems show

    - Lexing: it always returns; a successful lex spells the text back token by
      token, with only white space and comments in between.
    - Parsing: it always returns, with a tree no higher than the depth budget
      whose spans start at char boundaries; infix operators group as the language
      reference tabulates.
    - Checking: it always returns; the authority row of an accepted cell has
      only granted capabilities and all those the tree mentions; the check of an
      expression leaves scopes, row context and nesting depth as it found them;
      a cell parsed under a depth budget is never rejected by the nesting guard
      under the same budget; accepted matches name every case of their scrutinee.
      The undo-log map refines a stack of snapshots; a name is permitted exactly
      when a grant covers it.
    - Evaluating: under every schedule and every answer of the host the
      evaluation of a cell ends and stays within its budgets; it panics only when
      [sort_by] gave the standard library keys that are not totally ordered and the
      library panicked on them; the
      value of a cell is a well-formed value; every request that reaches the host
      was granted by the policy and is a capability of the catalog, and a request
      the checker admitted is one the host registry admits.  A cell with an output
      leaves the interpreter with exactly the values of the names it committed; one
      that fails or panics leaves the bindings it had before, unless its commit was
      accepted already.  After an evaluation that did not panic no execution is
      active.
    - The agent loop: requests keep to the contract of the chat interface, code runs
      only when the turn just streamed asked for it, and a cancellation that was seen
      ends the run at once; a turn is assembled whatever the interleaving of its
      fragments, and fenced code runs only as the sole block of an answer.
    - Batches: the names a cell reads are its free names, those it writes the names
      its top-level forms bind, and a cell depends on the last writer of each name
      it reads.
    - Values: a continuation token is accepted at most once and only by the
      machine that issued it; a finished machine refuses every call; comparison
      and matching under budgets agree with plain recursive references; rendering
      under a budget and the retained-size accounting agree with plain references;
      integer arithmetic is exact or refused; operators accepted at precise types
      give values of the computed type.
    - Egress store: the counters of a session are what its reservations add up to,
      caps hold, retries change nothing, an effect is claimed once.
    - Egress policy: a configuration the host accepts is accepted by the runtime, which
      then enforces exactly its destinations and secrets; a
      request is authorized exactly when a destination of the policy admits it, at a
      segment boundary of one of its path prefixes; accepted addresses are public;
      handles are capped, and a revocation holds as long as its version is in force.
    - Requests: whatever the world answers, what is sent was authorized, granted,
      vetted, sent under an open reservation and, unless it is a GET, approved and
      claimed; the store is asked to finish every record that was created, with an
      outcome that is uncertain when no answer came, and a refusal of the store is
      what the call returns; every reservation is settled, within the bound on
      redirects; the secret of a request does not come back in a piece of its
      response, and a preview shows no credential.
    - Server store: at most one turn of a session runs, an ended session has no
      pending turn, and nothing that happened is lost or rewritten; a client that
      resumes gets exactly the events since; a lease that was lost is refused by
      every later call; work is recorded once per reason, fire and effect; an
      approval is decided once, and its effect waits for the answer.
    - Redaction and evolution: nothing is left under credential keys; an approved
      change is applied only under its digest and an allowed tier.
    - Actors: restarts are bounded and decided by the strategy; inboxes lose,
      duplicate and miscount no message bytes under any interleaving; a drain takes
      exactly the matching messages in order.  Every actor that is run acts for a call
      that was made, with grants the call holds, which permit no more unless the call
      holds a pattern of a pattern; a cancelled actor has its
      token tripped as soon as all threads rest, also when calls that wait are
      dropped; descendants and subtrees are found
      exactly, and the cancellation of a subtree cancels just its live actors.
    - Deviations, as lemmas: a local type that escapes its cell, an accepted match
      that falls through, sort keys whose order is not transitive, an unread counter
      that a race leaves too high, a mixed list typed as a list of decimals,
      integers that are not ordered, the undo log that grows in release builds, a
      documented prelude function that is unbound, a revocation that two
      replacements of the policy forget, a preview with more markers than nodes,
      a secret that overlaps the marker it is replaced by, a restarted actor that
      the report of its earlier run cancels, a session with more live actors than
      the cap, an actor that stays live after its call was dropped, a cancellation
      that is lost when its call is dropped between two locks, a caller that hands on
      more than it holds, a cell whose sort panics, and a result on
      which the search for references panics.

    ** Fuel

    A loop of the lexer consumes a char per iteration: its fuel is the length of
    the text plus one.  A recursive cycle of the parser passes through a function
    that counts [depth] against [max_depth], a loop consumes a token: the fuel is
    [max_depth + 1] and the number of tokens plus one.  The checker counts its
    nesting against [max_parse_depth], fragments included: the fuel is
    [max_parse_depth + 1].  The comparison loop pops a node per iteration and
    never visits more than the budget or the two values have.  The evaluator counts
    its nesting against the runtime depth: its fuel is one more.  The scan for
    interpolation fragments consumes a char per iteration, the walks over lexical
    scopes visit a scope at most once: their fuel is the length plus one and the
    number of scopes plus one or two.  A wait on an inbox
    has the number of iterations before its deadline as an argument.  The loop over
    redirects has the redirect cap plus one as its fuel.  The walks over the
    families of actors have one or two more than the recorded actors, for they
    visit an actor at most once; the rounds of 50 ms of a wait for a message are as
    many as its timeout holds, and two.  The search for references in a result goes
    forward by the length of a scheme at least: its fuel is the length of the text
    plus one.  The termination
    theorems show each of these enough: no run of the model ends in [OutOfFuel].

    ** Parameters and abstractions

    Code outside the repository is a parameter: the Unicode tables above ASCII
    ([UnicodeTables]), the decoder of JSON strings of serde_json ([JsonStr]), its
    [Number] type ([JsonNumber], with its documented behaviour in
    [JsonNumberLaws]) and its printer ([JsonText]), the case mapping and the float
    printing of the standard library ([StdText]), its sort ([KeySort]) and
    the sizes of Rust types ([Layout]).  [BuildProfile] says whether debug
    assertions are compiled in; theorems hold for both profiles unless they name
    one.  A host function is the plan of requests it answers with ([HostPlan]);
    theorems quantify over the plans.  The regex engine ([RegexEngine]), the text
    of identifiers ([UuidText]) and times ([Chrono]), SHA-256 ([Sha256]), the
    decoders of stored metadata ([MetadataCodec]), of request bodies ([JsonParse])
    and of arguments ([ArgsCodec]), the network masks of ipnet ([IpNetLib],
    [IpNetLaws]), the URLs of the crate url ([UrlLib], [UrlLaws]) and the headers
    and methods of the crate http ([HttpLib], [HttpLaws]) are parameters of the
    parts that use them.

    A call of the server store holds its lock while it works, so that one call is
    one step; a call that takes the lock twice is one step as well, since sessions
    never disappear in between.  [store_step] has every call that writes a table of
    the model; the bundles of skill and review proposals, and the exposures of skills,
    also write tables that are not modelled, and what they read there is an argument.
    New identifiers are arguments, assumed fresh where
    a theorem needs it; [epochs_have_room] says that no record is claimed as often
    as an i32 counts.  What a request asks of the shared state, the stores and the
    network is a [Query]; theorems quantify over the answers, which are only assumed
    to be results, and policies to be validated ones ([proper]); [EgressBroker.v] and
    [EgressFacts.v] show that of the stores.  The chunks of a response body are
    answered as one list; a deadline is an answer that does not come.

    The executor that runs an actor, the clock and the timers of [agents.*] are
    questions to the world as well, and so are the model, the session, the inbox, the
    sink and the token of the agent loop; the items of a stream are answered when it
    is opened, so that streams are finite.  Reading a [HashMap] in order of iteration is
    reading it in some fixed order.  [ActorText] has the case mapping, the debug
    text and the hash of the standard library, [JsonUnsigned] and [TextJson] numbers
    and texts of serde_json.

    A pointer [Rc] is the number of its allocation, so that two clones of one scope
    are one entry of the store.  Rust switches tasks only at an [await]; the model
    may switch at every access to the shared state, so that every run of the code is
    a run of the model.  The theorems about evaluations name the class
    [SaneRuntime]: limits below [usize::MAX], a release build and a sort that keeps
    what the standard library documents ([KeySortLaws]): its result is a permutation,
    and it does not panic and sorts when the keys are totally ordered.  The lists on
    which a sort panicked are recorded in the field [sort_panics] of the shared state,
    which the program does not have and nothing reads.  The messages of lexer, parser and checker diagnostics
    are the format strings of the code, without their arguments; the messages of
    runtime errors are rendered.  Counters are unbounded [N]; where the code
    saturates or checks, the width is written out.

    ** Not modelled

    The sandbox session around the interpreter (sandbox/), which races the cells of
    a batch on forks and drops the evaluations it no longer needs, the raw event
    hook of tm-agents, the linked folders and tools of tm-host, the drive, the
    artifact store and the client of tm-mcp; of the in-memory store the tables of
    memory, projects, skills and reviews, the listing of sessions and the metrics.
    The Postgres store, the HTTP API, the clients of model providers and wire protocols are mostly
    input and output. *)

From stdpp Require Import base tactics list strings numbers.
From Stdlib Require Import ZArith NArith Lia.

(** Nested induction through the containers of the syntax trees. *)
Scheme All for list.
Scheme All for option.
Scheme All for prod.

(** ** Outcomes of Rust code

    A call of the modelled code either returns [Ok], returns [Err], panics (an
    index out of range, a failed [expect]) or, in the model only, runs out of
    the fuel that bounds a loop or a recursion. *)

Inductive outcome (E A : Type) : Type :=
| Ok (a : A)
| Err (e : E)
| Panicked
| OutOfFuel.

Arguments Ok {E A} a.
Arguments Err {E A} e.
Arguments Panicked {E A}.
Arguments OutOfFuel {E A}.

#[global] Instance outcome_ret {E} : MRet (outcome E) := fun A a => Ok a.
#[global] Instance outcome_bind {E} : MBind (outcome E) := fun A B k m =>
  match m with
  | Ok a => k a
  | Err e => Err e
  | Panicked => Panicked
  | OutOfFuel => OutOfFuel
  end.

(** A run of the model that neither panicked nor ran out of fuel. *)
Definition returns {E A} (r : outcome E A) : Prop :=
  match r with
  | Ok _ | Err _ => True
  | Panicked | OutOfFuel => False
  end.

(** ** The state and error monad of [&mut self] methods returning [Result] *)

Definition M (E S A : Type) : Type := S -> outcome E (A * S).

#[global] Instance M_ret {E S} : MRet (M E S) := fun A a s => Ok (a, s).
#[global] Instance M_bind {E S} : MBind (M E S) := fun A B k m s =>
  match m s with
  | Ok (a, s') => k a s'
  | Err e => Err e
  | Panicked => Panicked
  | OutOfFuel => OutOfFuel
  end.

Section Operations.
Context {E S : Type}.

Definition get : M E S S := fun s => Ok (s, s).
Definition gets {A} (f : S -> A) : M E S A := fun s => Ok (f s, s).
Definition modify (f : S -> S) : M E S unit := fun s => Ok (tt, f s).
Definition fail {A} (e : E) : M E S A := fun _ => Err e.
Definition panic {A} : M E S A := fun _ => Panicked.
Definition out_of_fuel {A} : M E S A := fun _ => OutOfFuel.

(** A Rust [loop]: the body either continues with a new accumulator ([inl]) or
    breaks with a result ([inr]). *)
Fixpoint loop {A R} (fuel : nat) (body : A -> M E S (A + R)) (acc : A) : M E S R :=
  match fuel with
  | O => out_of_fuel
  | Datatypes.S fuel' =>
      r ← body acc;
      match r with
      | inl acc' => loop fuel' body acc'
      | inr result => mret result
      end
  end.

(** [for x in xs { body }] threading an accumulator. *)
Fixpoint for_each {X A} (body : A -> X -> M E S A) (acc : A) (xs : list X) : M E S A :=
  match xs with
  | [] => mret acc
  | x :: xs' => acc' ← body acc x; for_each body acc' xs'
  end.

(** ** Weakest preconditions

    [wp m Q X s]: started in [s], [m] does not panic and does not run out of
    fuel; a normal return satisfies [Q], an error satisfies [X]. *)
Definition wp {A} (m : M E S A) (Q : A -> S -> Prop) (X : E -> Prop) (s : S) : Prop :=
  match m s with
  | Ok (a, s') => Q a s'
  | Err e => X e
  | Panicked | OutOfFuel => False
  end.

Lemma wp_ret {A} (a : A) Q X s : Q a s -> wp (mret a) Q X s.
Proof. done. Qed.

Lemma wp_bind {A B} (m : M E S A) (k : A -> M E S B) Q X s :
  wp m (fun a s' => wp (k a) Q X s') X s -> wp (m ≫= k) Q X s.
Proof. unfold wp, mbind, M_bind. by destruct (m s) as [[a s']|e| |]. Qed.

Lemma wp_mono {A} (m : M E S A) (Q Q' : A -> S -> Prop) (X X' : E -> Prop) s :
  wp m Q X s -> (forall a s', Q a s' -> Q' a s') -> (forall e, X e -> X' e) -> wp m Q' X' s.
Proof. unfold wp. destruct (m s) as [[a s']|e| |]; naive_solver. Qed.

Lemma wp_get Q X s : Q s s -> wp get Q X s.
Proof. done. Qed.

Lemma wp_gets {A} (f : S -> A) Q X s : Q (f s) s -> wp (gets f) Q X s.
Proof. done. Qed.

Lemma wp_modify f Q X s : Q tt (f s) -> wp (modify f) Q X s.
Proof. done. Qed.

Lemma wp_fail {A} e (Q : A -> S -> Prop) (X : E -> Prop) s : X e -> wp (fail e) Q X s.
Proof. done. Qed.

Lemma wp_returns {A} (m : M E S A) Q X s : wp m Q X s -> returns (m s).
Proof. unfold wp, returns. by destruct (m s) as [[a s']|e| |]. Qed.

(** A run that ended normally satisfies the postcondition. *)
Lemma wp_ok {A} (m : M E S A) Q X s a s' : wp m Q X s -> m s = Ok (a, s') -> Q a s'.
Proof. unfold wp. intros H Hm. by rewrite Hm in H. Qed.

(** The loop rule: [I] is the invariant, [mu] a measure every continuing
    iteration decreases; enough fuel is more than the initial measure. *)
Lemma wp_loop {A R} (I : A -> S -> Prop) (mu : A -> S -> nat)
    (body : A -> M E S (A + R)) Q X fuel :
  (forall acc s, I acc s ->
     wp (body acc) (fun r s' =>
       match r with
       | inl acc' => I acc' s' /\ mu acc' s' < mu acc s
       | inr x => Q x s'
       end) X s) ->
  forall acc s, I acc s -> mu acc s < fuel -> wp (loop fuel body acc) Q X s.
Proof.
  intros Hbody. induction fuel as [|fuel IH]; intros acc s HI Hmu; [lia|].
  cbn [loop]. apply wp_bind. eapply wp_mono; [by apply Hbody| |done].
  intros [acc'|x] s'; [|done]. intros [HI' Hlt]. apply IH; [done|lia].
Qed.

Lemma wp_for_each {X A} (I : A -> list X -> S -> Prop)
    (body : A -> X -> M E S A) Err_ xs :
  (forall acc x rest s, I acc (x :: rest) s ->
     wp (body acc x) (fun acc' s' => I acc' rest s') Err_ s) ->
  forall acc s, I acc xs s -> wp (for_each body acc xs) (fun acc' s' => I acc' [] s') Err_ s.
Proof.
  intros Hbody. induction xs as [|x xs IH]; intros acc s HI; [done|].
  cbn [for_each]. apply wp_bind. eapply wp_mono; [by apply Hbody| |done].
  intros acc' s' HI'. by apply IH.
Qed.

(** The invariant speaks of the items already visited. *)
Lemma wp_for_each_prefix {X A} (I : A -> list X -> S -> Prop)
    (body : A -> X -> M E S A) Err_ xs (Q : A -> S -> Prop) acc s :
  (forall acc visited x s, In x xs -> I acc visited s ->
     wp (body acc x) (fun acc' s' => I acc' (visited ++ [x]) s') Err_ s) ->
  I acc [] s -> (forall acc' s', I acc' xs s' -> Q acc' s') ->
  wp (for_each body acc xs) Q Err_ s.
Proof.
  intros Hbody HI HQ.
  eapply (wp_mono _ (fun acc' s' => exists visited, xs = visited ++ [] /\ I acc' visited s'));
    [|intros acc' s' (visited & Hx & HI'); rewrite app_nil_r in Hx; subst; by apply HQ|done].
  apply (wp_for_each (fun acc rest s => exists visited, xs = visited ++ rest /\ I acc visited s));
    [|by exists []].
  intros acc' x rest s' (visited & Hx & HI'). eapply wp_mono; [apply Hbody; [|done]| |done].
  - rewrite Hx. apply in_or_app. right. by left.
  - intros acc'' s'' HI''. exists (visited ++ [x]). by rewrite <- app_assoc.
Qed.

(** A normal end of a [for] loop keeps what every iteration keeps. *)
Lemma for_each_inv {X A} (I : A -> list X -> Prop) (body : A -> X -> M E S A) xs acc s acc' s' :
  (forall acc visited x s acc' s', I acc visited -> body acc x s = Ok (acc', s') ->
     I acc' (visited ++ [x])) ->
  I acc [] -> for_each body acc xs s = Ok (acc', s') -> I acc' xs.
Proof.
  intros Hbody. assert (Hgen : forall xs visited acc s, I acc visited ->
    for_each body acc xs s = Ok (acc', s') -> I acc' (visited ++ xs)).
  { clear -Hbody. intros xs. induction xs as [|x xs IH]; intros visited acc s HI; cbn.
    - intros [= <- <-]. by rewrite app_nil_r.
    - unfold mbind, M_bind. destruct (body acc x s) as [[acc1 s1]|e| |] eqn:Eb; try done.
      intros Hrun. rewrite (cons_middle x), app_assoc. eapply IH; [|done]. by eapply Hbody. }
  intros HI Hrun. by apply (Hgen xs [] acc s).
Qed.

Lemma bind_ok {A B} (m : M E S A) (k : A -> M E S B) s b s' :
  (m ≫= k) s = Ok (b, s') -> exists a s1, m s = Ok (a, s1) /\ k a s1 = Ok (b, s').
Proof. unfold mbind, M_bind. destruct (m s) as [[a s1]|e| |]; try done. by exists a, s1. Qed.
End Operations.

#[global] Arguments loop : simpl never.

(** ** Machine integers

    [usize] and [u64] are [N]; [i64] is [Z] with its range written out. *)

Definition usize_max : N := (2 ^ 64 - 1)%N.

Definition saturating_add (a b : N) : N := N.min (a + b) usize_max.
Definition saturating_mul (a b : N) : N := N.min (a * b) usize_max.
Definition saturating_sub (a b : N) : N := (a - b)%N.
Definition checked_add_u64 (a b : N) : option N :=
  if (a + b <=? usize_max)%N then Some (a + b)%N else None.

Definition len {A} (l : list A) : N := N.of_nat (length l).

Lemma len_app {A} (l k : list A) : len (l ++ k) = (len l + len k)%N.
Proof. unfold len. rewrite length_app. lia. Qed.

Lemma len_cons {A} (x : A) l : len (x :: l) = (len l + 1)%N.
Proof. unfold len. cbn [length]. lia. Qed.

(** ** Tactics and hints *)

Create HintDb tm.
#[export] Hint Resolve wp_ret wp_get wp_gets wp_modify wp_fail : tm.

(** One step of symbolic execution of a monadic program. *)
Ltac wp_step :=
  lazymatch goal with
  | |- wp (mbind _ _) _ _ _ => apply wp_bind
  | |- wp (mret _) _ _ _ => apply wp_ret
  | |- wp get _ _ _ => apply wp_get
  | |- wp (gets _) _ _ _ => apply wp_gets
  | |- wp (modify _) _ _ _ => apply wp_modify
  | |- wp (fail _) _ _ _ => apply wp_fail
  end; cbn beta.

Ltac wp_steps := repeat wp_step.

(** Inversion of an equation [m ≫= k = Ok _] in the [outcome] monad. *)
Ltac inv_outcome :=
  repeat match goal with
  | H : Ok _ = Ok _ |- _ => injection H as H; subst
  | H : Ok _ = Err _ |- _ => discriminate H
  | H : Err _ = Ok _ |- _ => discriminate H
  | H : Panicked = Ok _ |- _ => discriminate H
  | H : OutOfFuel = Ok _ |- _ => discriminate H
  end.
