(* ===== verification/BTree.v ===== *)
(** * [BTreeMap<String, V>] and [BTreeSet<String>]

    Rust's ordered maps and sets keyed by [String], as association lists kept in
    strictly increasing key order.  The order is the byte order of the UTF-8
    encoding, which is [String.compare].  Iteration order is the list order, so
    the code that zips or folds two maps is modelled faithfully. *)

From stdpp Require Import base tactics list strings sorting.
From Stdlib Require Import Lia.
From S2P Require Import Prelude.

Definition str_lt (a b : string) : Prop := String.compare a b = Lt.

Lemma str_compare_refl a : String.compare a a = Eq.
Proof. induction a as [|x a IH]; cbn; [done|]. unfold Ascii.compare. by rewrite N.compare_refl. Qed.

Lemma ascii_compare_trans a b c :
  Ascii.compare a b = Lt -> Ascii.compare b c = Lt -> Ascii.compare a c = Lt.
Proof.
  unfold Ascii.compare. rewrite !N.compare_lt_iff. lia.
Qed.

Lemma str_lt_trans a b c : str_lt a b -> str_lt b c -> str_lt a c.
Proof.
  unfold str_lt. revert b c.
  induction a as [|x a IH]; intros [|y b] [|z c]; cbn; try done.
  intros H1 H2.
  destruct (Ascii.compare x y) eqn:Hxy; try done.
  - apply Ascii.compare_eq_iff in Hxy as ->.
    destruct (Ascii.compare y z); eauto.
  - destruct (Ascii.compare y z) eqn:Hyz; try done.
    + apply Ascii.compare_eq_iff in Hyz as ->. by rewrite Hxy.
    + by rewrite (ascii_compare_trans _ _ _ Hxy Hyz).
Qed.

Lemma str_lt_irrefl a : ~ str_lt a a.
Proof. unfold str_lt. by rewrite str_compare_refl. Qed.

Lemma str_compare_gt a b : String.compare a b = Gt -> str_lt b a.
Proof. unfold str_lt. intros H. by rewrite String.compare_antisym, H. Qed.

(** ** Maps *)

Section Maps.
Context {V : Type}.

Fixpoint bm_get (k : string) (m : list (string * V)) : option V :=
  match m with
  | [] => None
  | (k', v) :: m' => if String.eqb k k' then Some v else bm_get k m'
  end.

Fixpoint bm_insert (k : string) (v : V) (m : list (string * V)) : list (string * V) :=
  match m with
  | [] => [(k, v)]
  | (k', v') :: m' =>
      match String.compare k k' with
      | Lt => (k, v) :: m
      | Eq => (k, v) :: m'
      | Gt => (k', v') :: bm_insert k v m'
      end
  end.

Fixpoint bm_remove (k : string) (m : list (string * V)) : list (string * V) :=
  match m with
  | [] => []
  | (k', v') :: m' => if String.eqb k k' then m' else (k', v') :: bm_remove k m'
  end.

Definition bm_contains (k : string) (m : list (string * V)) : bool :=
  match bm_get k m with Some _ => true | None => false end.

Definition bm_keys (m : list (string * V)) : list string := m.*1.

Definition bm_extend (m : list (string * V)) (kvs : list (string * V)) : list (string * V) :=
  foldl (fun m '(k, v) => bm_insert k v m) m kvs.

Definition bm_from (kvs : list (string * V)) : list (string * V) := bm_extend [] kvs.

(** Representation invariant: strictly increasing keys. *)
Definition bm_wf (m : list (string * V)) : Prop := StronglySorted str_lt (m.*1).

Lemma bm_get_insert_eq k v m : bm_get k (bm_insert k v m) = Some v.
Proof.
  induction m as [|[k' v'] m IH]; cbn; [by rewrite String.eqb_refl|].
  destruct (String.compare k k') eqn:H; cbn; rewrite ?String.eqb_refl; [done|done|].
  destruct (String.eqb_spec k k') as [->|]; [|done].
  by rewrite str_compare_refl in H.
Qed.

Lemma bm_get_insert_ne k k' v m : k' <> k -> bm_get k' (bm_insert k v m) = bm_get k' m.
Proof.
  intros Hne. apply String.eqb_neq in Hne as Hb.
  induction m as [|[k1 v1] m IH]; cbn; [by rewrite Hb|].
  destruct (String.compare k k1) eqn:H; cbn; rewrite ?Hb; [|done|by rewrite IH].
  apply String.compare_eq_iff in H as <-. by rewrite Hb.
Qed.

Lemma bm_get_insert k k' v m :
  bm_get k' (bm_insert k v m) = if decide (k' = k) then Some v else bm_get k' m.
Proof.
  case_decide; [subst; apply bm_get_insert_eq|by apply bm_get_insert_ne].
Qed.

Lemma bm_get_remove_ne k k' m : k' <> k -> bm_get k' (bm_remove k m) = bm_get k' m.
Proof.
  intros Hne. apply String.eqb_neq in Hne as Hb.
  induction m as [|[k1 v1] m IH]; cbn; [done|].
  destruct (String.eqb_spec k k1) as [->|]; cbn; [by rewrite Hb|by rewrite IH].
Qed.

Lemma bm_get_In k v m : bm_get k m = Some v -> In (k, v) m.
Proof.
  induction m as [|[k1 v1] m IH]; cbn; [done|].
  destruct (String.eqb_spec k k1) as [->|]; [|by auto].
  intros [= ->]. by left.
Qed.

Lemma bm_get_None k m : bm_get k m = None <-> ~ In k (bm_keys m).
Proof.
  unfold bm_keys. induction m as [|[k1 v1] m IH]; cbn; [naive_solver|].
  destruct (String.eqb_spec k k1) as [->|]; naive_solver.
Qed.

Lemma bm_contains_true k m : bm_contains k m = true <-> In k (bm_keys m).
Proof.
  unfold bm_contains. destruct (bm_get k m) eqn:H.
  - split; [|done]. intros _. apply bm_get_In in H.
    unfold bm_keys. rewrite <- list_elem_of_In.
    apply list_elem_of_fmap. exists (k, v). rewrite list_elem_of_In. done.
  - apply bm_get_None in H. naive_solver.
Qed.

Lemma bm_remove_insert k v m : bm_get k m = None -> bm_remove k (bm_insert k v m) = m.
Proof.
  induction m as [|[k1 v1] m IH]; cbn; [by rewrite String.eqb_refl|].
  destruct (String.eqb_spec k k1) as [->|Hne]; [done|]. intros Hnone.
  destruct (String.compare k k1) eqn:H; cbn.
  - apply String.compare_eq_iff in H. done.
  - by rewrite String.eqb_refl.
  - apply String.eqb_neq in Hne as ->. by rewrite IH.
Qed.

Lemma bm_wf_cons k v m : bm_wf ((k, v) :: m) <-> bm_wf m /\ Forall (str_lt k) (m.*1).
Proof.
  unfold bm_wf. cbn. split.
  - intros H. by apply StronglySorted_inv in H.
  - intros []. by constructor.
Qed.

Lemma bm_keys_insert_In k v m x : In x (bm_keys (bm_insert k v m)) <-> x = k \/ In x (bm_keys m).
Proof.
  unfold bm_keys. induction m as [|[k1 v1] m IH]; cbn; [naive_solver|].
  destruct (String.compare k k1) eqn:H; cbn; [|naive_solver|].
  - apply String.compare_eq_iff in H as ->. naive_solver.
  - rewrite IH. naive_solver.
Qed.

Lemma bm_wf_insert k v m : bm_wf m -> bm_wf (bm_insert k v m).
Proof.
  induction m as [|[k1 v1] m IH]; cbn.
  - intros _. apply bm_wf_cons. by split; constructor.
  - intros [Hm Hall]%bm_wf_cons.
    destruct (String.compare k k1) eqn:H.
    + apply String.compare_eq_iff in H as ->. by apply bm_wf_cons.
    + apply bm_wf_cons. split; [by apply bm_wf_cons|]. cbn.
      constructor; [done|]. eapply Forall_impl; [done|].
      cbn. intros x ?. by eapply str_lt_trans.
    + apply bm_wf_cons. split; [by apply IH|].
      rewrite Forall_forall. intros x Hx.
      apply list_elem_of_In, bm_keys_insert_In in Hx as [->|Hx].
      * by apply str_compare_gt.
      * rewrite Forall_forall in Hall. apply Hall. by apply list_elem_of_In.
Qed.

Lemma bm_wf_remove k m : bm_wf m -> bm_wf (bm_remove k m).
Proof.
  induction m as [|[k1 v1] m IH]; cbn; [done|].
  intros [Hm Hall]%bm_wf_cons. destruct (String.eqb k k1); [done|].
  apply bm_wf_cons. split; [by apply IH|].
  clear IH Hm. induction m as [|[k2 v2] m IH]; cbn in *; [done|].
  apply Forall_cons_1 in Hall as [H1 H2].
  destruct (String.eqb k k2); cbn; [done|constructor; [done|by apply IH]].
Qed.

(** Writing the old value back undoes an overwrite: this is what makes an undo
    log over the map exact. *)
Lemma bm_insert_restore k v p m :
  bm_wf m -> bm_get k m = Some p -> bm_insert k p (bm_insert k v m) = m.
Proof.
  induction m as [|[k1 v1] m IH]; cbn; [done|].
  intros [Hm Hall]%bm_wf_cons.
  destruct (String.eqb_spec k k1) as [->|Hne].
  - intros [= ->]. rewrite str_compare_refl. cbn. by rewrite str_compare_refl.
  - intros Hget. destruct (String.compare k k1) eqn:H.
    + by apply String.compare_eq_iff in H.
    + exfalso. apply bm_get_In in Hget.
      assert (Hin : k ∈ m.*1).
      { apply list_elem_of_fmap. exists (k, p). by rewrite list_elem_of_In. }
      rewrite Forall_forall in Hall. apply Hall in Hin.
      apply (str_lt_irrefl k). by eapply str_lt_trans.
    + cbn. rewrite H. by rewrite IH.
Qed.

(** Ordered maps with the same entries are the same. *)
Lemma bm_get_below k m : Forall (str_lt k) (m.*1) -> bm_get k m = None.
Proof.
  intros Hm. apply bm_get_None. unfold bm_keys. rewrite List.Forall_forall in Hm.
  intros Hin. apply (str_lt_irrefl k). by apply Hm.
Qed.

Lemma below_trans k k' (m : list (string * V)) : str_lt k k' -> Forall (str_lt k') (m.*1) -> Forall (str_lt k) (m.*1).
Proof. intros Hk Hm. eapply Forall_impl; [exact Hm|]. intros x. by apply str_lt_trans. Qed.

Lemma bm_ext m1 : forall m2, bm_wf m1 -> bm_wf m2 -> (forall k, bm_get k m1 = bm_get k m2) -> m1 = m2.
Proof.
  induction m1 as [|[k1 v1] m1 IH]; intros [|[k2 v2] m2] Hw1 Hw2 He; [done|..].
  - specialize (He k2). cbn in He. by rewrite String.eqb_refl in He.
  - specialize (He k1). cbn in He. by rewrite String.eqb_refl in He.
  - apply bm_wf_cons in Hw1 as [Hw1 Ha1]. apply bm_wf_cons in Hw2 as [Hw2 Ha2].
    destruct (String.compare k1 k2) eqn:E.
    + apply String.compare_eq_iff in E as <-. pose proof (He k1) as H1. cbn in H1. rewrite String.eqb_refl in H1.
      injection H1 as <-. f_equal. apply IH; [done..|]. intros k. specialize (He k). cbn in He.
      destruct (String.eqb_spec k k1) as [Ek|]; [|done]. rewrite Ek. by rewrite !bm_get_below.
    + specialize (He k1). cbn in He. rewrite String.eqb_refl in He.
      destruct (String.eqb_spec k1 k2) as [->|]; [by apply str_lt_irrefl in E|].
      rewrite bm_get_below in He; [done|]. by eapply below_trans.
    + apply str_compare_gt in E. specialize (He k2). cbn in He. rewrite String.eqb_refl in He.
      destruct (String.eqb_spec k2 k1) as [->|]; [by apply str_lt_irrefl in E|].
      rewrite bm_get_below in He; [done|]. by eapply below_trans.
Qed.

Lemma bm_get_remove_eq k m : bm_wf m -> bm_get k (bm_remove k m) = None.
Proof.
  induction m as [|[k1 v1] m IH]; [done|]. intros [Hm Ha]%bm_wf_cons. cbn.
  destruct (String.eqb_spec k k1) as [->|Hne]; [by apply bm_get_below|].
  cbn. rewrite (proj2 (String.eqb_neq _ _) Hne). by apply IH.
Qed.

Lemma bm_wf_extend m kvs : bm_wf m -> bm_wf (bm_extend m kvs).
Proof.
  unfold bm_extend. revert m. induction kvs as [|[k v] kvs IH]; intros m Hm; cbn; [done|].
  by apply IH, bm_wf_insert.
Qed.

Lemma bm_wf_from kvs : bm_wf (bm_from kvs).
Proof. apply bm_wf_extend. constructor. Qed.

(** Collecting entries that are already in order changes nothing. *)
Lemma bm_insert_last k v m : Forall (fun x => str_lt x k) (m.*1) -> bm_insert k v m = m ++ [(k, v)].
Proof.
  induction m as [|[k1 v1] m IH]; cbn; [done|]. intros [Hk Hm]%Forall_cons_1.
  rewrite String.compare_antisym, Hk. cbn. by rewrite IH.
Qed.

Lemma bm_extend_app m kvs : bm_wf (m ++ kvs) -> bm_extend m kvs = m ++ kvs.
Proof.
  unfold bm_extend. revert m. induction kvs as [|[k v] kvs IH]; intros m Hwf; cbn; [by rewrite app_nil_r|].
  rewrite bm_insert_last.
  - rewrite IH, <- app_assoc; [done|]. by rewrite <- app_assoc.
  - clear IH. induction m as [|[k1 v1] m IH]; cbn in *; [constructor|].
    apply bm_wf_cons in Hwf as [Hwf Hall]. constructor; [|by apply IH].
    rewrite fmap_app, Forall_app in Hall. destruct Hall as [_ Hall]. by inversion Hall.
Qed.

Lemma bm_from_wf m : bm_wf m -> bm_from m = m.
Proof. apply (bm_extend_app []). Qed.
End Maps.

(** ** Sets *)

Fixpoint bs_insert (k : string) (s : list string) : list string :=
  match s with
  | [] => [k]
  | k' :: s' =>
      match String.compare k k' with
      | Lt => k :: s
      | Eq => s
      | Gt => k' :: bs_insert k s'
      end
  end.

Definition bs_contains (k : string) (s : list string) : bool := existsb (String.eqb k) s.
Definition bs_extend (s : list string) (ks : list string) : list string :=
  foldl (fun s k => bs_insert k s) s ks.
Definition bs_from (ks : list string) : list string := bs_extend [] ks.
Definition bs_retain (p : string -> bool) (s : list string) : list string := List.filter p s.
Definition bs_subset (a b : list string) : bool := forallb (fun k => bs_contains k b) a.

Lemma bs_contains_true k s : bs_contains k s = true <-> In k s.
Proof.
  unfold bs_contains. rewrite existsb_exists. split.
  - intros (x & Hx & ->%String.eqb_eq). done.
  - intros H. exists k. by rewrite String.eqb_refl.
Qed.

Lemma bs_insert_In k s x : In x (bs_insert k s) <-> x = k \/ In x s.
Proof.
  induction s as [|k1 s IH]; cbn; [naive_solver|].
  destruct (String.compare k k1) eqn:H; cbn; [|naive_solver|].
  - apply String.compare_eq_iff in H as ->. naive_solver.
  - rewrite IH. naive_solver.
Qed.

(** Ordered sets: no name twice. *)
Definition bs_wf (s : list string) : Prop := StronglySorted str_lt s.

Lemma bs_insert_wf k s : bs_wf s -> bs_wf (bs_insert k s).
Proof.
  unfold bs_wf. induction 1 as [|k1 s Hs IH Ha]; cbn; [by repeat constructor|].
  destruct (String.compare k k1) eqn:E.
  - by constructor.
  - constructor; [by constructor|]. constructor; [done|]. eapply Forall_impl; [exact Ha|].
    intros x. by apply str_lt_trans.
  - constructor; [done|]. apply str_compare_gt in E. rewrite List.Forall_forall in *.
    intros x [->|Hx]%bs_insert_In; auto.
Qed.

Lemma bs_wf_NoDup s : bs_wf s -> NoDup s.
Proof.
  induction 1 as [|k s Hs IH Ha]; constructor; [|done]. intros Hin.
  rewrite Forall_forall in Ha. by apply (str_lt_irrefl k), Ha.
Qed.

Lemma bs_extend_In s ks x : In x (bs_extend s ks) <-> In x s \/ In x ks.
Proof.
  unfold bs_extend. revert s. induction ks as [|k ks IH]; intros s; cbn; [naive_solver|].
  rewrite IH, bs_insert_In. naive_solver.
Qed.

Lemma bs_from_In ks x : In x (bs_from ks) <-> In x ks.
Proof. unfold bs_from. rewrite bs_extend_In. cbn. naive_solver. Qed.

Lemma bs_retain_In p s x : In x (bs_retain p s) <-> In x s /\ p x = true.
Proof. apply filter_In. Qed.

Lemma bs_subset_true a b : bs_subset a b = true <-> (forall x, In x a -> In x b).
Proof.
  unfold bs_subset. rewrite forallb_forall. by setoid_rewrite bs_contains_true.
Qed.

#[export] Hint Resolve bm_wf_insert bm_wf_remove bm_wf_extend bm_wf_from : tm.
Create Rewrite HintDb tm_sets.
#[export] Hint Rewrite @bs_insert_In @bs_extend_In @bs_from_In @bs_retain_In bs_contains_true : tm_sets.
