(* ===== verification/Text.v ===== *)
(** * Text: [char], UTF-8 and the character classes the lexer uses

    A Rust [char] is its scalar value ([N]).  A [String] is the byte string of
    its UTF-8 encoding (Stdlib [string]), so [s.len()] is [String.length] and
    the map order is the byte order.  Source text is the list of its chars; a
    byte offset at a char boundary is the encoded length of the chars before. *)

From stdpp Require Import base tactics list strings.
From Stdlib Require Import NArith Lia Ascii.
From S2P Require Import Prelude.

Definition char := N.

(** Scalar values: no surrogates, at most U+10FFFF. *)
Definition is_char (c : char) : bool :=
  ((c <? 0xD800) || ((0xE000 <=? c) && (c <=? 0x10FFFF)))%N.

(** [char::len_utf8]. *)
Definition len_utf8 (c : char) : N :=
  (if c <? 0x80 then 1
   else if c <? 0x800 then 2
   else if c <? 0x10000 then 3
   else 4)%N.

Fixpoint bytes_len (cs : list char) : N :=
  match cs with
  | [] => 0%N
  | c :: cs' => (len_utf8 c + bytes_len cs')%N
  end.

(** ** UTF-8 *)

Definition encode_char (c : char) : list ascii :=
  if (c <? 0x80)%N then [ascii_of_N c]
  else if (c <? 0x800)%N then
    [ascii_of_N (0xC0 + c / 0x40); ascii_of_N (0x80 + c mod 0x40)]
  else if (c <? 0x10000)%N then
    [ascii_of_N (0xE0 + c / 0x1000); ascii_of_N (0x80 + (c / 0x40) mod 0x40);
     ascii_of_N (0x80 + c mod 0x40)]
  else
    [ascii_of_N (0xF0 + c / 0x40000); ascii_of_N (0x80 + (c / 0x1000) mod 0x40);
     ascii_of_N (0x80 + (c / 0x40) mod 0x40); ascii_of_N (0x80 + c mod 0x40)].

(** Collecting chars into a [String]. *)
Definition of_chars (cs : list char) : string :=
  String.string_of_list_ascii (concat (map encode_char cs)).

(** [str::chars]: decoding by the length the leading byte announces. *)
Fixpoint decode (bs : list ascii) : list char :=
  match bs with
  | [] => []
  | b0 :: bs0 =>
      let n0 := N_of_ascii b0 in
      if (n0 <? 0x80)%N then n0 :: decode bs0
      else
        match bs0 with
        | [] => []
        | b1 :: bs1 =>
            let n1 := (N_of_ascii b1 mod 0x40)%N in
            if (n0 <? 0xE0)%N then ((n0 mod 0x20) * 0x40 + n1)%N :: decode bs1
            else
              match bs1 with
              | [] => []
              | b2 :: bs2 =>
                  let n2 := (N_of_ascii b2 mod 0x40)%N in
                  if (n0 <? 0xF0)%N then
                    ((n0 mod 0x10) * 0x1000 + n1 * 0x40 + n2)%N :: decode bs2
                  else
                    match bs2 with
                    | [] => []
                    | b3 :: bs3 =>
                        let n3 := (N_of_ascii b3 mod 0x40)%N in
                        ((n0 mod 0x08) * 0x40000 + n1 * 0x1000 + n2 * 0x40 + n3)%N
                        :: decode bs3
                    end
              end
        end
  end.

Definition chars (s : string) : list char := decode (String.list_ascii_of_string s).

(** [String::len]. *)
Definition str_len (s : string) : N := N.of_nat (String.length s).

(** A char literal of ASCII source text. *)
Definition chr (s : string) : char :=
  match s with
  | String a _ => N_of_ascii a
  | EmptyString => 0%N
  end.

#[global] Arguments chr : simpl never.
#[global] Arguments chars : simpl never.

(** ** Character classes

    The ASCII range and [White_Space] are written out.  The classification of
    the other code points is the Unicode table of the Rust standard library; it
    is the parameter [UnicodeTables], so the theorems hold for every version of
    the table. *)

Class UnicodeTables := {
  alphabetic_table : char -> bool;
  numeric_table : char -> bool;
  uppercase_table : char -> bool;
}.

Definition in_range (lo hi c : N) : bool := ((lo <=? c) && (c <=? hi))%N.

Definition is_ascii_digit (c : char) : bool := in_range 48 57 c.
Definition is_ascii_upper (c : char) : bool := in_range 65 90 c.
Definition is_ascii_lower (c : char) : bool := in_range 97 122 c.
Definition is_ascii_alphanumeric (c : char) : bool :=
  is_ascii_digit c || is_ascii_upper c || is_ascii_lower c.

(** [char::is_whitespace]: the Unicode [White_Space] property. *)
Definition is_whitespace (c : char) : bool :=
  in_range 9 13 c || (c =? 32)%N || (c =? 0x85)%N || (c =? 0xA0)%N || (c =? 0x1680)%N
  || in_range 0x2000 0x200A c || (c =? 0x2028)%N || (c =? 0x2029)%N || (c =? 0x202F)%N
  || (c =? 0x205F)%N || (c =? 0x3000)%N.

Section Classes.
Context `{UnicodeTables}.

Definition is_alphabetic (c : char) : bool :=
  if (c <? 0x80)%N then is_ascii_upper c || is_ascii_lower c else alphabetic_table c.
Definition is_numeric (c : char) : bool :=
  if (c <? 0x80)%N then is_ascii_digit c else numeric_table c.
Definition is_alphanumeric (c : char) : bool := is_alphabetic c || is_numeric c.
Definition is_uppercase (c : char) : bool :=
  if (c <? 0x80)%N then is_ascii_upper c else uppercase_table c.
End Classes.

(** ** Facts *)

Lemma len_utf8_pos c : (1 <= len_utf8 c)%N.
Proof. unfold len_utf8. repeat case_match; lia. Qed.

Lemma bytes_len_app a b : bytes_len (a ++ b) = (bytes_len a + bytes_len b)%N.
Proof. induction a as [|c a IH]; cbn; [done|]. rewrite IH. lia. Qed.

Lemma bytes_len_pos c cs : (0 < bytes_len (c :: cs))%N.
Proof. cbn. pose proof (len_utf8_pos c). lia. Qed.

Lemma N_ascii_small n : (n < 256)%N -> N_of_ascii (ascii_of_N n) = n.
Proof. apply N_ascii_embedding. Qed.

Lemma length_encode_char c : N.of_nat (length (encode_char c)) = len_utf8 c.
Proof. unfold encode_char, len_utf8. by repeat case_match. Qed.

Lemma length_string_of_list_ascii l : String.length (String.string_of_list_ascii l) = length l.
Proof. induction l as [|a l IH]; cbn; congruence. Qed.

(** The byte length of a collected string is the sum of the chars' lengths. *)
Lemma str_len_of_chars cs : str_len (of_chars cs) = bytes_len cs.
Proof.
  unfold str_len, of_chars. rewrite length_string_of_list_ascii.
  induction cs as [|c cs IH]; cbn; [done|].
  rewrite length_app, Nat2N.inj_add, length_encode_char, IH. done.
Qed.

Lemma mod_offset k q r : (r < k)%N -> ((k * q + r) mod k = r)%N.
Proof. intros Hr. rewrite N.mul_comm, N.add_comm, N.Div0.mod_add. by apply N.mod_small. Qed.

(** Decoding one announced sequence, by its length. *)
Lemma decode1 a bs : (a < 0x80)%N -> decode (ascii_of_N a :: bs) = a :: decode bs.
Proof.
  intros Ha. cbn [decode]. rewrite N_ascii_small by lia.
  by rewrite (proj2 (N.ltb_lt _ _) Ha).
Qed.

Ltac decode_seq :=
  cbn [decode]; rewrite !N_ascii_small by lia;
  repeat rewrite (proj2 (N.ltb_ge _ _)) by lia;
  rewrite ?(proj2 (N.ltb_lt _ _)) by lia;
  rewrite !mod_offset by lia.

Lemma decode2 a b bs : (a < 0x20)%N -> (b < 0x40)%N ->
  decode (ascii_of_N (0x20 * 6 + a) :: ascii_of_N (0x40 * 2 + b) :: bs)
  = (a * 0x40 + b)%N :: decode bs.
Proof. intros. by decode_seq. Qed.

Lemma decode3 a b c bs : (a < 0x10)%N -> (b < 0x40)%N -> (c < 0x40)%N ->
  decode (ascii_of_N (0x10 * 14 + a) :: ascii_of_N (0x40 * 2 + b)
          :: ascii_of_N (0x40 * 2 + c) :: bs)
  = (a * 0x1000 + b * 0x40 + c)%N :: decode bs.
Proof. intros. by decode_seq. Qed.

Lemma decode4 a b c d bs : (a < 0x08)%N -> (b < 0x40)%N -> (c < 0x40)%N -> (d < 0x40)%N ->
  decode (ascii_of_N (0x08 * 30 + a) :: ascii_of_N (0x40 * 2 + b)
          :: ascii_of_N (0x40 * 2 + c) :: ascii_of_N (0x40 * 2 + d) :: bs)
  = (a * 0x40000 + b * 0x1000 + c * 0x40 + d)%N :: decode bs.
Proof. intros. by decode_seq. Qed.

Lemma decode_encode_char c bs : is_char c = true -> decode (encode_char c ++ bs) = c :: decode bs.
Proof.
  unfold is_char, encode_char. intros Hc.
  rewrite orb_true_iff, andb_true_iff, N.ltb_lt, !N.leb_le in Hc.
  assert (Hmax : (c <= 0x10FFFF)%N) by lia. clear Hc.
  assert (E2 : (c / 0x1000 = c / 0x40 / 0x40)%N) by (by rewrite N.Div0.div_div).
  assert (E3 : (c / 0x40000 = c / 0x1000 / 0x40)%N) by (by rewrite N.Div0.div_div).
  rewrite E3, E2.
  pose proof (N.div_mod c 0x40 ltac:(done)) as D1.
  pose proof (N.mod_lt c 0x40 ltac:(done)) as M1.
  set (q1 := (c / 0x40)%N) in *. set (r1 := (c mod 0x40)%N) in *.
  pose proof (N.div_mod q1 0x40 ltac:(done)) as D2.
  pose proof (N.mod_lt q1 0x40 ltac:(done)) as M2.
  set (q2 := (q1 / 0x40)%N) in *. set (r2 := (q1 mod 0x40)%N) in *.
  pose proof (N.div_mod q2 0x40 ltac:(done)) as D3.
  pose proof (N.mod_lt q2 0x40 ltac:(done)) as M3.
  set (q3 := (q2 / 0x40)%N) in *. set (r3 := (q2 mod 0x40)%N) in *.
  clearbody q1 r1 q2 r2 q3 r3. clear E2 E3.
  destruct (N.ltb_spec c 0x80) as [H1|H1]; [|destruct (N.ltb_spec c 0x800) as [H2|H2];
    [|destruct (N.ltb_spec c 0x10000) as [H3|H3]]]; cbn [app].
  - by apply decode1.
  - etrans; [apply (decode2 q1 r1); lia|f_equal; lia].
  - etrans; [apply (decode3 q2 r2 r1); lia|f_equal; lia].
  - etrans; [apply (decode4 q3 r3 r2 r1); lia|f_equal; lia].
Qed.

(** Collecting chars and reading them back is the identity. *)
Lemma chars_of_chars cs : Forall (fun c => is_char c = true) cs -> chars (of_chars cs) = cs.
Proof.
  unfold chars, of_chars. rewrite String.list_ascii_of_string_of_list_ascii.
  induction 1 as [|c cs Hc _ IH]; cbn; [done|].
  by rewrite decode_encode_char, IH.
Qed.
