(* ===== verification/Numbers.v ===== *)
(** * Numbers: [i64] with checked arithmetic and [f64]

    [i64] is [Z] with its range written out.  [f64] is IEEE 754 binary64, as
    Stdlib's executable specification [SpecFloat] at precision 53 and maximal
    exponent 1024. *)

From stdpp Require Import base tactics list strings.
From Stdlib Require Import ZArith NArith Lia SpecFloat.
From S2P Require Import Prelude.

Definition i64_min : Z := (- 2 ^ 63)%Z.
Definition i64_max : Z := (2 ^ 63 - 1)%Z.
Definition is_i64 (z : Z) : bool := ((i64_min <=? z) && (z <=? i64_max))%Z.

Definition i64_checked (z : Z) : option Z := if is_i64 z then Some z else None.
Definition i64_checked_neg (a : Z) : option Z := i64_checked (- a).
Definition i64_checked_add (a b : Z) : option Z := i64_checked (a + b).
Definition i64_checked_sub (a b : Z) : option Z := i64_checked (a - b).
Definition i64_checked_mul (a b : Z) : option Z := i64_checked (a * b).

(** Division truncates towards zero; [None] on a zero divisor and on
    [i64::MIN / -1].  [checked_rem] is [None] in the same two cases. *)
Definition i64_checked_div (a b : Z) : option Z :=
  if (b =? 0)%Z then None else i64_checked (Z.quot a b).
Definition i64_checked_rem (a b : Z) : option Z :=
  if (b =? 0)%Z then None
  else if ((a =? i64_min) && (b =? -1))%Z then None
  else Some (Z.rem a b).

(** ** f64 *)

Definition f64 := spec_float.
Definition f64_prec : Z := 53.
Definition f64_emax : Z := 1024.

Definition f64_add (a b : f64) : f64 := SFadd f64_prec f64_emax a b.
Definition f64_sub (a b : f64) : f64 := SFsub f64_prec f64_emax a b.
Definition f64_mul (a b : f64) : f64 := SFmul f64_prec f64_emax a b.
Definition f64_div (a b : f64) : f64 := SFdiv f64_prec f64_emax a b.
Definition f64_neg (a : f64) : f64 := SFopp a.

(** The [%] operator: exact remainder with the sign of the dividend. *)
Definition f64_rem (a b : f64) : f64 :=
  match a, b with
  | S754_nan, _ | _, S754_nan => S754_nan
  | S754_infinity _, _ => S754_nan
  | _, S754_zero _ => S754_nan
  | S754_zero _, _ => a
  | _, S754_infinity _ => a
  | S754_finite sa ma ea, S754_finite _ mb eb =>
      let e := Z.min ea eb in
      let na := Z.shiftl (Zpos ma) (ea - e) in
      let nb := Z.shiftl (Zpos mb) (eb - e) in
      let r := (na mod nb)%Z in
      binary_normalize f64_prec f64_emax (if sa then - r else r) e sa
  end.

Definition f64_of_i64 (z : Z) : f64 := binary_normalize f64_prec f64_emax z 0 false.

Definition f64_eq (a b : f64) : bool := SFeqb a b.
Definition f64_lt (a b : f64) : bool := SFltb a b.
Definition f64_le (a b : f64) : bool := SFleb a b.

Definition f64_is_finite (a : f64) : bool :=
  match a with
  | S754_zero _ | S754_finite _ _ _ => true
  | S754_infinity _ | S754_nan => false
  end.

(** ** Reading digits *)

(** The value of a digit string, most significant digit first. *)
Fixpoint digits_value (acc : N) (ds : list N) : N :=
  match ds with
  | [] => acc
  | d :: ds' => digits_value (10 * acc + (d - 48)) ds'
  end.

(** [str::parse::<i64>] on a non-empty string of ASCII digits. *)
Definition parse_i64 (ds : list N) : option Z := i64_checked (Z.of_N (digits_value 0 ds)).

(** [str::parse::<f64>] on [ip . fp], both non-empty digit strings: the decimal
    [m / 10^k] correctly rounded (to nearest, ties to even).  Every such string
    is a valid [f64] literal, so the result is always [Some]. *)
Definition parse_f64 (ip fp : list N) : option f64 :=
  match digits_value 0 (ip ++ fp) with
  | N0 => Some (S754_zero false)
  | Npos m =>
      let '(q, e, l) :=
        SFdiv_core_binary f64_prec f64_emax (Zpos m) 0 (10 ^ Z.of_nat (length fp)) 0 in
      Some (binary_round_aux f64_prec f64_emax false q e l)
  end.

(** ** Facts *)

Lemma i64_checked_Some z r : i64_checked z = Some r <-> r = z /\ (i64_min <= z <= i64_max)%Z.
Proof.
  unfold i64_checked, is_i64. case_match eqn:H.
  - rewrite andb_true_iff, !Z.leb_le in H. naive_solver.
  - split; [done|]. intros [-> Hr]. rewrite andb_false_iff, !Z.leb_gt in H. lia.
Qed.

Lemma i64_checked_None z : i64_checked z = None <-> ~ (i64_min <= z <= i64_max)%Z.
Proof.
  unfold i64_checked, is_i64. case_match eqn:H.
  - rewrite andb_true_iff, !Z.leb_le in H. naive_solver.
  - rewrite andb_false_iff, !Z.leb_gt in H. split; [intros _; lia|done].
Qed.

(** The only quotient of two [i64]s that leaves the range is [MIN / -1]. *)
Lemma i64_quot_range a b :
  (i64_min <= a <= i64_max)%Z -> (b <> 0)%Z ->
  (i64_min <= Z.quot a b <= i64_max)%Z <-> ~ (a = i64_min /\ b = -1)%Z.
Proof.
  unfold i64_min, i64_max. intros Ha Hb. split.
  - intros Hq [-> ->]. vm_compute in Hq. by destruct Hq as [_ []].
  - intros Hne.
    destruct (decide (b = -1)%Z) as [->|H1].
    + change (-1)%Z with (- (1))%Z. rewrite Z.quot_opp_r, Z.quot_1_r by done. lia.
    + destruct (decide (b = 1)%Z) as [->|H2]; [rewrite Z.quot_1_r; lia|].
      assert (Hle : (Z.abs (Z.quot a b) <= Z.abs a / 2)%Z).
      { rewrite <- Z.quot_abs by done. rewrite Z.quot_div_nonneg by lia.
        apply Z.div_le_compat_l; lia. }
      assert (Z.abs a / 2 <= 2 ^ 62)%Z by (apply Z.div_le_upper_bound; lia).
      lia.
Qed.
