(* ===== verification/Syntax.v ===== *)
(** * Spans, tokens, syntax trees and diagnostics of the tm language

    The data of [span.rs], [token.rs], [ast.rs] and [diagnostic.rs]. *)

From stdpp Require Import base tactics list strings.
From Stdlib Require Import ZArith NArith Lia.
From S2P Require Import Prelude Text Numbers.

(** ** Spans *)

Record Span := mkSpan { start : N; stop : N }.

Definition merge (a b : Span) : Span := mkSpan (start a) (stop b).

Record Spanned (T : Type) := mkSpanned { node : T; span : Span }.
Scheme All for Spanned.
Arguments mkSpanned {T} node span.
Arguments node {T} _.
Arguments span {T} _.

(** ** Diagnostics

    [message] is the format string of the [format!] call; its arguments are not
    rendered. *)

Record Diagnostic := mkDiagnostic {
  code : string;
  message : string;
  dspan : Span;
  line : N;
  column : N;
}.

Definition newline : char := 10%N.

(** [&source[..n]]: [None] when [n] is not a char boundary, where Rust panics. *)
Fixpoint byte_prefix (source : list char) (n : N) : option (list char) :=
  if (n =? 0)%N then Some []
  else
    match source with
    | [] => None
    | c :: cs =>
        if (len_utf8 c <=? n)%N
        then (fun p => c :: p) <$> byte_prefix cs (n - len_utf8 c)
        else None
    end.

(** The text after the last newline ([prefix.rsplit('\n').next()]). *)
Fixpoint last_line_aux (acc cs : list char) : list char :=
  match cs with
  | [] => acc
  | c :: cs' => if (c =? newline)%N then last_line_aux [] cs' else last_line_aux (acc ++ [c]) cs'
  end.
Definition last_line (cs : list char) : list char := last_line_aux [] cs.

Definition diagnostic_new (code message : string) (span : Span) (source : list char)
    : option Diagnostic :=
  prefix ← byte_prefix source (N.min (start span) (bytes_len source));
  let line := (len (List.filter (N.eqb newline) prefix) + 1)%N in
  let column := (len (last_line prefix) + 1)%N in
  Some (mkDiagnostic code message span line column).

(** [return Err(Diagnostic::new(..))]. *)
Definition raise {S A} (source : list char) (code message : string) (span : Span)
    : M Diagnostic S A :=
  match diagnostic_new code message span source with
  | Some d => fail d
  | None => panic
  end.

(** ** Tokens *)

Inductive Token : Type :=
| TIdent (name : string)
| TUpper (name : string)
| TString (value : string)
| TInt (value : Z)
| TDecimal (value : f64)
| TUri (value : string)
| TAt | TLParen | TRParen | TLBrace | TRBrace | TLBracket | TRBracket
| TComma | TColon | TSemicolon | TDot | TEllipsis
| TEq | TEqEq | TNotEq | TLt | TLe | TGt | TGe
| TPlus | TMinus | TStar | TSlash | TPercent
| TPipe | TPipeGt | TArrow | TCons | TEof.

Abbreviation SpannedToken := (Spanned Token).

(** [std::mem::discriminant]. *)
Definition discriminant (t : Token) : N :=
  match t with
  | TIdent _ => 0 | TUpper _ => 1 | TString _ => 2 | TInt _ => 3 | TDecimal _ => 4
  | TUri _ => 5 | TAt => 6 | TLParen => 7 | TRParen => 8 | TLBrace => 9 | TRBrace => 10
  | TLBracket => 11 | TRBracket => 12 | TComma => 13 | TColon => 14 | TSemicolon => 15
  | TDot => 16 | TEllipsis => 17 | TEq => 18 | TEqEq => 19 | TNotEq => 20 | TLt => 21
  | TLe => 22 | TGt => 23 | TGe => 24 | TPlus => 25 | TMinus => 26 | TStar => 27
  | TSlash => 28 | TPercent => 29 | TPipe => 30 | TPipeGt => 31 | TArrow => 32
  | TCons => 33 | TEof => 34
  end%N.

(** ** Patterns, types and expressions *)

Inductive UnaryOp := Not | Negate.

Inductive BinaryOp :=
| Or | And | Equal | NotEqual | Less | LessEqual | Greater | GreaterEqual
| Cons | Add | Subtract | Multiply | Divide | Modulo.

#[global] Instance unary_op_eq_dec : EqDecision UnaryOp.
Proof. solve_decision. Defined.
#[global] Instance binary_op_eq_dec : EqDecision BinaryOp.
Proof. solve_decision. Defined.

Inductive PatternKind : Type :=
| PWildcard
| PBind (name : string)
| PString (value : string)
| PInt (value : Z)
| PBool (value : bool)
| PNull
| PConstructor (name : string) (payload : option (Spanned PatternKind))
| PList (values : list (Spanned PatternKind))
| PCons (head tail : Spanned PatternKind)
| PRecord (fields : list (string * Spanned PatternKind)) (rest : bool).

Abbreviation Pattern := (Spanned PatternKind).

Inductive TypeTerm : Type :=
| TTNamed (name : string)
| TTList (inner : TypeTerm)
| TTOption (inner : TypeTerm)
| TTRecord (fields : list (string * TypeTerm)).

Record VariantDecl := mkVariant { variant_name : string; payload : option TypeTerm }.
Record TypeDecl := mkTypeDecl { type_name : string; variants : list VariantDecl }.

Inductive ExprKind : Type :=
| EString (value : string)
| EInt (value : Z)
| EDecimal (value : f64)
| EBool (value : bool)
| ENull
| EUri (value : string)
| EName (name : string)
| EConstructor (name : string)
| ECapability (name : string)
| EList (values : list (Spanned ExprKind))
| ERecord (fields : list (string * Spanned ExprKind))
| ELambda (params : list Pattern) (body : Spanned ExprKind)
| EApply (function argument : Spanned ExprKind)
| EField (target : Spanned ExprKind) (field : string)
| EUnary (op : UnaryOp) (value : Spanned ExprKind)
| EBinary (op : BinaryOp) (left right : Spanned ExprKind)
| EPipe (value target : Spanned ExprKind)
| EIf (condition then_value else_value : Spanned ExprKind)
| EMatch (value : Spanned ExprKind) (arms : list MatchArm)
| EHandle (value : Spanned ExprKind) (arms : list MatchArm)
| EBlock (forms : list (Spanned FormKind))
with FormKind : Type :=
| FType (decl : TypeDecl)
| FLet (pattern : Pattern) (value : Spanned ExprKind)
| FFun (name : string) (params : list Pattern) (body : Spanned ExprKind)
| FExpr (expr : Spanned ExprKind)
with MatchArm : Type :=
| mkArm (arm_pattern : Pattern) (arm_value : Spanned ExprKind).

Abbreviation Expr := (Spanned ExprKind).
Abbreviation Form := (Spanned FormKind).

Definition arm_pattern (a : MatchArm) : Pattern := let 'mkArm p _ := a in p.
Definition arm_value (a : MatchArm) : Expr := let 'mkArm _ v := a in v.

Record Cell := mkCell { forms : list Form; cell_span : Span }.

(** ** The nesting height of a tree

    The measure the parser's depth budget is about: every composite expression
    is one above its highest child, a form is as high as its expression. *)

Definition max_list (l : list N) : N := foldr N.max 0%N l.

Fixpoint kind_height (k : ExprKind) : N :=
  match k with
  | EString _ | EInt _ | EDecimal _ | EBool _ | ENull | EUri _ | EName _
  | EConstructor _ | ECapability _ => 1
  | EList vs => max_list (List.map (fun e => kind_height (node e)) vs) + 1
  | ERecord fs => max_list (List.map (fun f => kind_height (node (snd f))) fs) + 1
  | ELambda _ b => kind_height (node b) + 1
  | EApply f a => N.max (kind_height (node f)) (kind_height (node a)) + 1
  | EField t _ => kind_height (node t) + 1
  | EUnary _ v => kind_height (node v) + 1
  | EBinary _ l r => N.max (kind_height (node l)) (kind_height (node r)) + 1
  | EPipe v t => N.max (kind_height (node v)) (kind_height (node t)) + 1
  | EIf c t e =>
      N.max (N.max (kind_height (node c)) (kind_height (node t))) (kind_height (node e)) + 1
  | EMatch v arms | EHandle v arms =>
      N.max (kind_height (node v)) (max_list (List.map arm_height arms)) + 1
  | EBlock fs => max_list (List.map (fun f => form_kind_height (node f)) fs) + 1
  end%N
with form_kind_height (f : FormKind) : N :=
  match f with
  | FType _ => 0
  | FLet _ v => kind_height (node v)
  | FFun _ _ b => kind_height (node b)
  | FExpr e => kind_height (node e)
  end%N
with arm_height (a : MatchArm) : N :=
  match a with mkArm _ v => kind_height (node v) end.

Definition expr_height (e : Expr) : N := kind_height (node e).
Definition form_height (f : Form) : N := form_kind_height (node f).

(** ** A predicate on every span of a tree *)

Section Spans.
Variable P : Span -> Prop.

Definition all_of {A} (Q : A -> Prop) (l : list A) : Prop := foldr (fun x acc => Q x /\ acc) True l.

Fixpoint pattern_kind_spans (k : PatternKind) : Prop :=
  match k with
  | PWildcard | PBind _ | PString _ | PInt _ | PBool _ | PNull => True
  | PConstructor _ None => True
  | PConstructor _ (Some p) => P (span p) /\ pattern_kind_spans (node p)
  | PList ps => all_of (fun p => P (span p) /\ pattern_kind_spans (node p)) ps
  | PCons h t =>
      (P (span h) /\ pattern_kind_spans (node h)) /\ (P (span t) /\ pattern_kind_spans (node t))
  | PRecord fs _ => all_of (fun f => P (span (snd f)) /\ pattern_kind_spans (node (snd f))) fs
  end.

Definition pattern_spans (p : Pattern) : Prop := P (span p) /\ pattern_kind_spans (node p).

Fixpoint kind_spans (k : ExprKind) : Prop :=
  match k with
  | EString _ | EInt _ | EDecimal _ | EBool _ | ENull | EUri _ | EName _
  | EConstructor _ | ECapability _ => True
  | EList vs => all_of (fun e => P (span e) /\ kind_spans (node e)) vs
  | ERecord fs => all_of (fun f => P (span (snd f)) /\ kind_spans (node (snd f))) fs
  | ELambda ps b => all_of pattern_spans ps /\ P (span b) /\ kind_spans (node b)
  | EApply a b | EBinary _ a b | EPipe a b =>
      (P (span a) /\ kind_spans (node a)) /\ (P (span b) /\ kind_spans (node b))
  | EField e _ | EUnary _ e => P (span e) /\ kind_spans (node e)
  | EIf a b c =>
      (P (span a) /\ kind_spans (node a)) /\ (P (span b) /\ kind_spans (node b))
      /\ (P (span c) /\ kind_spans (node c))
  | EMatch v arms | EHandle v arms => (P (span v) /\ kind_spans (node v)) /\ all_of arm_spans arms
  | EBlock fs => all_of (fun f => P (span f) /\ form_kind_spans (node f)) fs
  end
with form_kind_spans (f : FormKind) : Prop :=
  match f with
  | FType _ => True
  | FLet p v => pattern_spans p /\ P (span v) /\ kind_spans (node v)
  | FFun _ ps b => all_of pattern_spans ps /\ P (span b) /\ kind_spans (node b)
  | FExpr e => P (span e) /\ kind_spans (node e)
  end
with arm_spans (a : MatchArm) : Prop :=
  match a with mkArm p v => pattern_spans p /\ P (span v) /\ kind_spans (node v) end.

Definition expr_spans (e : Expr) : Prop := P (span e) /\ kind_spans (node e).
Definition form_spans (f : Form) : Prop := P (span f) /\ form_kind_spans (node f).
End Spans.

(** ** Facts *)

Lemma all_of_Forall {A} (Q : A -> Prop) l : all_of Q l <-> Forall Q l.
Proof. induction l as [|x l IH]; cbn; [by split|]. rewrite Forall_cons, IH. done. Qed.

(** Induction on a pattern with plain hypotheses for its sub-patterns. *)
Lemma pattern_induction (P : PatternKind -> Prop) :
  P PWildcard -> (forall n, P (PBind n)) -> (forall v, P (PString v)) -> (forall v, P (PInt v)) ->
  (forall v, P (PBool v)) -> P PNull ->
  (forall n, P (PConstructor n None)) ->
  (forall n p, P (node p) -> P (PConstructor n (Some p))) ->
  (forall ps, Forall (fun p => P (node p)) ps -> P (PList ps)) ->
  (forall h t, P (node h) -> P (node t) -> P (PCons h t)) ->
  (forall fs r, Forall (fun f => P (node f.2)) fs -> P (PRecord fs r)) ->
  forall k, P k.
Proof.
  intros Hw Hb Hs Hi Hbo Hn Hc0 Hc1 Hl Hc Hr k.
  induction k as [| | | | | |n p IH|ps IH|h IHh t IHt|fs IH r]; [done..| | | |]; auto.
  - destruct p as [p|]; [|done]. inversion IH as [? IHp|]; subst. inversion IHp; subst. by apply Hc1.
  - apply Hl. induction IH as [|p Hp ps _ IH']; [constructor|]; constructor; [by inversion Hp|done].
  - inversion IHh; inversion IHt; subst. by apply Hc.
  - apply Hr. induction IH as [|p Hp ps _ IH']; [constructor|]; constructor; [|done].
    inversion Hp as [? _ ? Hq]; subst. by inversion Hq.
Qed.

Lemma max_list_le l n : (max_list l <= n)%N <-> Forall (fun x => (x <= n)%N) l.
Proof.
  induction l as [|x l IH]; cbn; [split; [constructor|intros _; lia]|].
  fold (max_list l). rewrite Forall_cons, <- IH. lia.
Qed.

Lemma max_list_app l k : max_list (l ++ k) = N.max (max_list l) (max_list k).
Proof.
  induction l as [|x l IH]; cbn; [by rewrite N.max_0_l|].
  fold (max_list (l ++ k)) (max_list l). rewrite IH. lia.
Qed.

(** A char boundary of [source]: the places where slicing does not panic. *)
Definition boundary (source : list char) (n : N) : Prop :=
  exists before after, source = before ++ after /\ n = bytes_len before.

Lemma byte_prefix_app before after :
  byte_prefix (before ++ after) (bytes_len before) = Some before.
Proof.
  induction before as [|c cs IH]; cbn; [by destruct after|].
  pose proof (len_utf8_pos c).
  rewrite (proj2 (N.eqb_neq _ _)) by lia.
  rewrite (proj2 (N.leb_le _ _)) by lia.
  replace (len_utf8 c + bytes_len cs - len_utf8 c)%N with (bytes_len cs) by lia.
  by rewrite IH.
Qed.

Lemma boundary_zero source : boundary source 0.
Proof. by exists [], source. Qed.

Lemma boundary_end source : boundary source (bytes_len source).
Proof. exists source, []. by rewrite app_nil_r. Qed.

Lemma boundary_le source n : boundary source n -> (n <= bytes_len source)%N.
Proof. intros (b & a & -> & ->). rewrite bytes_len_app. lia. Qed.

(** At a boundary the diagnostic is built, and line and column are the number of
    newlines before it and of chars since the last one, both plus one. *)
Lemma diagnostic_new_boundary code message sp source :
  boundary source (start sp) ->
  exists before after,
    source = before ++ after /\ start sp = bytes_len before /\
    diagnostic_new code message sp source =
      Some (mkDiagnostic code message sp (len (List.filter (N.eqb newline) before) + 1)
              (len (last_line before) + 1)).
Proof.
  intros Hb. pose proof (boundary_le _ _ Hb) as Hle.
  destruct Hb as (b & a & -> & Hs). exists b, a. split_and!; [done..|].
  unfold diagnostic_new. rewrite N.min_l by done. by rewrite Hs, byte_prefix_app.
Qed.

(** A diagnostic other than the one of [CheckContext::enter_expr]. *)
Definition no_checker_nesting (d : Diagnostic) : Prop :=
  message d <> "checker nesting budget exceeded"%string.

Lemma wp_raise {S A} source code message sp (Q : A -> S -> Prop) (X : Diagnostic -> Prop) s :
  boundary source (start sp) ->
  (forall l c, X (mkDiagnostic code message sp l c)) ->
  wp (raise source code message sp) Q X s.
Proof.
  intros Hb HX. unfold raise.
  destruct (diagnostic_new_boundary code message sp source Hb) as (b & a & _ & _ & ->).
  apply HX.
Qed.
