(* ===== verification/Lexer.v ===== *)
(** * The lexer ([lexer.rs])

    [lex_bounded source max_tokens] turns source text into spanned tokens.  The
    lexer's [source] and [offset] are kept as the chars before the offset (last
    first) and the chars after it.  The JSON string decoder of [serde_json] is
    the parameter [JsonStr].  At the end concrete parameters, with which the model
    evaluates. *)

From stdpp Require Import base tactics list strings.
From Stdlib Require Import ZArith NArith Lia.
From S2P Require Import Prelude Text Numbers Syntax.

(** [serde_json::from_str::<String>] on the raw text of a JSON string. *)
Class JsonStr := json_from_str : list char -> option string.

Notation "c =c s" := (N.eqb c (chr s)) (at level 35, s at level 0).

Record Lexer := mkLexer {
  before : list char;
  rest : list char;
  offset : N;
}.

Fixpoint starts_with (prefix cs : list char) : bool :=
  match prefix, cs with
  | [], _ => true
  | p :: ps, c :: cs' => (p =? c)%N && starts_with ps cs'
  | _ :: _, [] => false
  end.

(** The chars up to the first one satisfying [p]. *)
Fixpoint until (p : char -> bool) (cs : list char) : list char :=
  match cs with
  | [] => []
  | c :: cs' => if p c then [] else c :: until p cs'
  end.

(** [raw.replace("\\#", "\\\\#")]. *)
Fixpoint escape_hash (raw : list char) : list char :=
  match raw with
  | [] => []
  | c :: raw' =>
      match raw' with
      | d :: raw'' =>
          if ((c =c "\") && (d =c "#"))%bool then c :: c :: d :: escape_hash raw''
          else c :: escape_hash raw'
      | [] => [c]
      end
  end.

(** [hyphenated_scheme_suffix_bytes], the loop over [rest.chars()]. *)
Fixpoint scheme_suffix (cs : list char) (bytes : N) : option N :=
  match cs with
  | [] => None
  | ch :: cs' =>
      if ch =c ":" then Some bytes
      else if negb (is_ascii_alphanumeric ch || ch =c "_" || ch =c "-") then None
      else scheme_suffix cs' (bytes + len_utf8 ch)
  end.

Section Lexer.
Context `{UnicodeTables} `{JsonStr}.
Variable source : list char.
Variable max_tokens : N.

Definition L := M Diagnostic Lexer.

Definition is_ident_start (ch : char) : bool := (ch =c "_") || is_alphabetic ch.
Definition is_ident_continue (ch : char) : bool := (ch =c "_") || is_alphanumeric ch.

(** Moving the offset over the chars [p] at the front of [rest]. *)
Definition advance (p : list char) (s : Lexer) : Lexer :=
  mkLexer (rev p ++ before s) (drop (length p) (rest s)) (offset s + bytes_len p).

Definition peek (s : Lexer) : option char := head (rest s).

Definition bump : L (option char) :=
  c ← gets peek;
  match c with
  | None => mret None
  | Some ch => modify (advance [ch]);; mret (Some ch)
  end.

(** [self.offset += n]. *)
Definition skip_bytes (n : N) : L unit :=
  r ← gets rest;
  match byte_prefix r n with
  | Some p => modify (advance p)
  | None => panic
  end.

Definition lex_fuel : nat := S (length source).

(** [while let Some(ch) = self.peek() { if p(ch) { text.push(ch); self.bump(); } else { break } }] *)
Definition take_while (p : char -> bool) (text : list char) : L (list char) :=
  loop lex_fuel (fun text =>
    c ← gets peek;
    match c with
    | Some ch => if p ch then bump;; mret (inl (text ++ [ch])) else mret (inr text)
    | None => mret (inr text)
    end) text.

Definition skip_space : L unit := take_while is_whitespace [];; mret tt.

Definition legacy_separator_here (s : Lexer) : bool :=
  if negb (starts_with (chars "---") (rest s)) then false
  else
    let line_before := until (N.eqb newline) (before s) in
    if negb (forallb is_whitespace line_before) then false
    else
      let tail := drop 3 (rest s) in
      let line := until (N.eqb newline) tail in
      forallb is_whitespace line
      || starts_with (chars "--") (drop (length (until (fun c => negb (is_whitespace c)) line)) line).

Definition push_token (tokens : list SpannedToken) (token : SpannedToken) : L (list SpannedToken) :=
  if (max_tokens <=? len tokens)%N then
    raise source "TM1007" "syntax budget exceeded: more than {} tokens" (span token)
  else mret (token :: tokens).

Definition string_ (start : N) : L SpannedToken :=
  loop lex_fuel (fun '(raw, escaped) =>
    c ← bump;
    match c with
    | None =>
        o ← gets offset;
        raise source "TM1003" "unterminated string" (mkSpan start o)
    | Some ch =>
        let raw := raw ++ [ch] in
        if (ch =? 34)%N && negb escaped then
          o ← gets offset;
          match json_from_str (escape_hash raw) with
          | Some value => mret (inr (mkSpanned (TString value) (mkSpan start o)))
          | None => raise source "TM1002" "{error}" (mkSpan start o)
          end
        else
          let escaped := (ch =c "\") && negb escaped in
          let escaped := if negb (ch =c "\") then false else escaped in
          mret (inl (raw, escaped))
    end) ([34%N], false).

Definition number_or_uri (start : N) (first : char) : L Token :=
  text ← take_while is_ascii_digit [first];
  s ← get;
  if match peek s with Some c => c =c "." | None => false end
     && match rest s !! 1%nat with Some c => is_ascii_digit c | None => false end
  then
    bump;;
    frac ← take_while is_ascii_digit [];
    match parse_f64 text frac with
    | Some v => mret (TDecimal v)
    | None => o ← gets offset; raise source "TM1004" "invalid decimal" (mkSpan start o)
    end
  else
    match parse_i64 text with
    | Some v => mret (TInt v)
    | None => o ← gets offset; raise source "TM1005" "invalid integer" (mkSpan start o)
    end.

Definition hyphenated_scheme_suffix_bytes (s : Lexer) : option N :=
  if negb (starts_with (chars "-") (rest s)) then None else scheme_suffix (rest s) 0.

Definition uri_continue (ch : char) : bool :=
  negb (is_whitespace ch || ch =c "," || ch =c ";" || ch =c ")" || ch =c "]" || ch =c "}").

Definition ident_or_uri (first : char) (record_field_position : bool) : L Token :=
  text ← take_while is_ident_continue [first];
  suffix ← gets hyphenated_scheme_suffix_bytes;
  text ← match (if record_field_position then None else suffix) with
         | Some bytes =>
             r ← gets rest;
             match byte_prefix r bytes with
             | Some p => modify (advance p);; mret (text ++ p)
             | None => panic
             end
         | None => mret text
         end;
  next ← gets peek;
  if negb record_field_position && match next with Some c => c =c ":" | None => false end then
    bump;;
    text ← take_while uri_continue (text ++ [chr ":"]);
    mret (TUri (of_chars text))
  else if is_uppercase first then mret (TUpper (of_chars text))
  else mret (TIdent (of_chars text)).

(** An operator that is [long] when the rest starts with [more], else [short]. *)
Definition longest (more : string) (long short : Token) : L Token :=
  r ← gets rest;
  if starts_with (chars more) r then skip_bytes (str_len more);; mret long else mret short.

(** The [match self.bump()] of [run]. *)
Definition scan_token (start : N) (ch : char) (record_field_position : bool) : L Token :=
  if ch =c "(" then mret TLParen
  else if ch =c ")" then mret TRParen
  else if ch =c "{" then mret TLBrace
  else if ch =c "}" then mret TRBrace
  else if ch =c "[" then mret TLBracket
  else if ch =c "]" then mret TRBracket
  else if ch =c "," then mret TComma
  else if ch =c ";" then mret TSemicolon
  else if ch =c "@" then mret TAt
  else if ch =c "+" then mret TPlus
  else if ch =c "*" then mret TStar
  else if ch =c "/" then mret TSlash
  else if ch =c "%" then mret TPercent
  else if ch =c "." then longest ".." TEllipsis TDot
  else if ch =c ":" then longest ":" TCons TColon
  else if ch =c "|" then longest ">" TPipeGt TPipe
  else if ch =c "=" then longest "=" TEqEq TEq
  else
    r ← gets rest;
    if (ch =c "!") && starts_with (chars "=") r then skip_bytes 1;; mret TNotEq
    else if ch =c "<" then longest "=" TLe TLt
    else if ch =c ">" then longest "=" TGe TGt
    else if ch =c "-" then longest ">" TArrow TMinus
    else if is_ascii_digit ch then number_or_uri start ch
    else if is_ident_start ch then ident_or_uri ch record_field_position
    else
      o ← gets offset;
      raise source "TM1001" "unsupported character {ch:?}" (mkSpan start o).

(** The open delimiters after [token]; the top of the stack is the head. *)
Definition update_delimiters (delimiters : list char) (token : Token) : list char :=
  let pop c := match delimiters with
               | d :: ds => if (d =? c)%N then ds else delimiters
               | [] => []
               end in
  match token with
  | TLParen => chr "(" :: delimiters
  | TLBrace => chr "{" :: delimiters
  | TLBracket => chr "[" :: delimiters
  | TRParen => pop (chr "(")
  | TRBrace => pop (chr "{")
  | TRBracket => pop (chr "[")
  | _ => delimiters
  end.

Definition in_record_field_position (delimiters : list char) (tokens : list SpannedToken) : bool :=
  match delimiters with d :: _ => d =c "{" | [] => false end
  && match tokens with
     | t :: _ => match node t with TLBrace | TComma => true | _ => false end
     | [] => false
     end.

(** One iteration of [run]; the tokens are kept last first. *)
Definition run_step (acc : list SpannedToken * list char)
    : L ((list SpannedToken * list char) + list SpannedToken) :=
  let '(tokens, delimiters) := acc in
  o ← gets offset;
  if (bytes_len source <=? o)%N then mret (inr tokens)
  else
    skip_space;;
    s ← get;
    if (bytes_len source <=? offset s)%N then mret (inr tokens)
    else if legacy_separator_here s then
      raise source "TM1006"
        "legacy `---` separator was removed; separate cell forms with `;`"
        (mkSpan (offset s) (offset s + 3))
    else if starts_with (chars "--") (rest s) then
      modify (advance (until (N.eqb newline) (rest s)));;
      mret (inl (tokens, delimiters))
    else
      let start := offset s in
      if match peek s with Some c => (c =? 34)%N | None => false end then
        bump;;
        token ← string_ start;
        tokens ← push_token tokens token;
        mret (inl (tokens, delimiters))
      else
        let record_field_position := in_record_field_position delimiters tokens in
        c ← bump;
        match c with
        | None => panic
        | Some ch =>
            token ← scan_token start ch record_field_position;
            let delimiters := update_delimiters delimiters token in
            o ← gets offset;
            tokens ← push_token tokens (mkSpanned token (mkSpan start o));
            mret (inl (tokens, delimiters))
        end.

Definition finish (tokens : list SpannedToken) : L (list SpannedToken) :=
  let eof := mkSpanned TEof (mkSpan (bytes_len source) (bytes_len source)) in
  tokens ← push_token tokens eof;
  mret (rev tokens).

Definition run : L (list SpannedToken) :=
  tokens ← loop lex_fuel run_step ([], []);
  finish tokens.

Definition lex_bounded : outcome Diagnostic (list SpannedToken) :=
  '(tokens, _) ← run (mkLexer [] source 0);
  Ok tokens.
End Lexer.

Definition lex `{UnicodeTables} `{JsonStr} (source : list char) :=
  lex_bounded source usize_max.

(** ** Concrete parameters for evaluating the model

    Tables without any non-ASCII letter, and the decoder of JSON strings
    restricted to strings without escapes (any other string is rejected). *)

Definition ascii_tables : UnicodeTables :=
  {| alphabetic_table := fun _ => false; numeric_table := fun _ => false;
     uppercase_table := fun _ => false |}.

Definition plain_json : JsonStr := fun raw =>
  match raw with
  | q :: body =>
      if (q =? 34)%N && negb (existsb (fun c => (c =? 92)%N) body)
      then Some (of_chars (removelast body)) else None
  | [] => None
  end.
