(* ===== verification/LexerFacts.v ===== *)
(** * What the lexer guarantees

    [lex_bounded] always returns; the tokens it returns spell out the source
    text in order, with only white space and comments between them; the token
    budget changes nothing but whether TM1007 is raised. *)

From stdpp Require Import base tactics list strings.
From Stdlib Require Import ZArith NArith Lia.
From S2P Require Import Prelude Text Numbers Syntax Lexer.

(** The fixed spelling of punctuation. *)
Definition punctuation (t : Token) : option string :=
  match t with
  | TAt => Some "@" | TLParen => Some "(" | TRParen => Some ")" | TLBrace => Some "{"
  | TRBrace => Some "}" | TLBracket => Some "[" | TRBracket => Some "]" | TComma => Some ","
  | TColon => Some ":" | TSemicolon => Some ";" | TDot => Some "." | TEllipsis => Some "..."
  | TEq => Some "=" | TEqEq => Some "==" | TNotEq => Some "!=" | TLt => Some "<"
  | TLe => Some "<=" | TGt => Some ">" | TGe => Some ">=" | TPlus => Some "+"
  | TMinus => Some "-" | TStar => Some "*" | TSlash => Some "/" | TPercent => Some "%"
  | TPipe => Some "|" | TPipeGt => Some "|>" | TArrow => Some "->" | TCons => Some "::"
  | TIdent _ | TUpper _ | TString _ | TInt _ | TDecimal _ | TUri _ | TEof => None
  end%string.

Section Spelling.
Context `{UnicodeTables} `{JsonStr}.

(** [spells t text]: the source text [text] is a spelling of the token [t]. *)
Definition spells (t : Token) (text : list char) : Prop :=
  match t with
  | TIdent name | TUpper name => name = of_chars text /\ exists c cs, text = c :: cs /\ is_ident_start c = true
  | TUri uri => uri = of_chars text /\ In (chr ":") text
  | TInt value => parse_i64 text = Some value
  | TDecimal value =>
      exists ip fp, text = ip ++ [chr "."] ++ fp /\ fp <> [] /\ parse_f64 ip fp = Some value
  | TString value => json_from_str (escape_hash text) = Some value
  | TEof => False
  | _ => punctuation t = Some (of_chars text)
  end.

(** White space, and line comments up to the end of their line. *)
Definition trivia (text : list char) : Prop :=
  Forall (fun c => is_whitespace c = true) text
  \/ exists body, text = chars "--" ++ body /\ Forall (fun c => c <> newline) body.

(** [lexed text tokens]: [tokens] (last first) spell out [text], with their spans. *)
Inductive lexed : list char -> list SpannedToken -> Prop :=
| lexed_nil : lexed [] []
| lexed_trivia text tokens gap :
    lexed text tokens -> trivia gap -> lexed (text ++ gap) tokens
| lexed_token text tokens t word :
    lexed text tokens -> word <> [] -> spells t word ->
    lexed (text ++ word)
      (mkSpanned t (mkSpan (bytes_len text) (bytes_len (text ++ word))) :: tokens).
End Spelling.

Section Facts.
Context `{UnicodeTables} `{JsonStr}.
Variable source : list char.
Variable max_tokens : N.

Abbreviation X := no_checker_nesting.

Definition lex_inv (s : Lexer) : Prop :=
  source = rev (before s) ++ rest s /\ offset s = bytes_len (rev (before s)).

(** [s'] is [s] after consuming [q]. *)
Definition consumed (q : list char) (s s' : Lexer) : Prop :=
  lex_inv s' /\ rest s = q ++ rest s' /\ rev (before s') = rev (before s) ++ q.

Lemma consumed_nil s : lex_inv s -> consumed [] s s.
Proof. intros. split_and!; [done..|]. by rewrite app_nil_r. Qed.

Lemma consumed_trans p q s1 s2 s3 : consumed p s1 s2 -> consumed q s2 s3 -> consumed (p ++ q) s1 s3.
Proof.
  intros (_ & Hr1 & Hb1) (Hi & Hr2 & Hb2). split_and!; [done| |].
  - by rewrite Hr1, Hr2, app_assoc.
  - by rewrite Hb2, Hb1, app_assoc.
Qed.

Lemma advance_consumed p r s : lex_inv s -> rest s = p ++ r -> consumed p s (advance p s).
Proof.
  intros [Hs Ho] Hr. unfold consumed, lex_inv, advance. cbn.
  rewrite Hr, drop_app_length, rev_app_distr, rev_involutive.
  split_and!; [|rewrite Ho, bytes_len_app; lia|done..].
  by rewrite Hs, Hr, app_assoc.
Qed.

Lemma inv_boundary s : lex_inv s -> boundary source (offset s).
Proof. intros [Hs Ho]. by exists (rev (before s)), (rest s). Qed.

Lemma inv_end s : lex_inv s -> (bytes_len source <= offset s)%N -> rest s = [].
Proof.
  intros [Hs Ho] Hle. rewrite Hs, bytes_len_app in Hle.
  destruct (rest s) as [|c cs]; [done|]. pose proof (bytes_len_pos c cs). lia.
Qed.

Lemma inv_length s : lex_inv s -> length (rest s) < lex_fuel source.
Proof. intros [Hs _]. unfold lex_fuel. apply (f_equal length) in Hs. rewrite length_app in Hs. lia. Qed.

Lemma consumed_inv q s s' : consumed q s s' -> lex_inv s'.
Proof. by intros []. Qed.

Hint Resolve consumed_nil consumed_inv inv_boundary : core.

Lemma wp_bump (Q : option char -> Lexer -> Prop) s :
  lex_inv s ->
  (rest s = [] -> Q None s) ->
  (forall c r s', rest s = c :: r -> consumed [c] s s' -> Q (Some c) s') ->
  wp bump Q X s.
Proof.
  intros Hi Hn Hs. unfold bump, peek. wp_steps.
  destruct (rest s) as [|c r] eqn:Hr; cbn; wp_steps; [by apply Hn|].
  eapply Hs; [done|]. by apply (advance_consumed [c] r).
Qed.

Lemma wp_skip_bytes (Q : unit -> Lexer -> Prop) s p r :
  lex_inv s -> rest s = p ++ r ->
  (forall s', consumed p s s' -> Q tt s') ->
  wp (skip_bytes (bytes_len p)) Q X s.
Proof.
  intros Hi Hr HQ. unfold skip_bytes. wp_steps.
  rewrite Hr, byte_prefix_app. wp_steps. apply HQ. by eapply advance_consumed.
Qed.

(** [take_while] consumes the longest run of chars satisfying [p]. *)
Lemma wp_take_while p text (Q : list char -> Lexer -> Prop) s :
  lex_inv s ->
  (forall q s', consumed q s s' -> Forall (fun c => p c = true) q ->
     match rest s' with c :: _ => p c = false | [] => True end -> Q (text ++ q) s') ->
  wp (take_while source p text) Q X s.
Proof.
  intros Hi HQ. unfold take_while.
  eapply (wp_loop (fun t s1 => exists q, t = text ++ q /\ consumed q s s1 /\ Forall (fun c => p c = true) q)
            (fun _ s1 => length (rest s1))).
  - intros t s1 (q & -> & Hc & Hq). unfold peek. wp_steps.
    destruct (rest s1) as [|c r] eqn:Hr; cbn.
    + wp_steps. apply HQ; [done..|]. by rewrite Hr.
    + destruct (p c) eqn:Hp.
      * wp_steps. apply wp_bump; [by eauto|by rewrite Hr|].
        intros c' r' s2 Hr' Hc2. rewrite Hr in Hr'. injection Hr' as <- <-. wp_steps. split.
        -- exists (q ++ [c]). rewrite app_assoc. split_and!; [done|by eapply consumed_trans|].
           apply Forall_app. by split; [|constructor].
        -- destruct Hc2 as (_ & Hr2 & _). rewrite Hr in Hr2. injection Hr2 as ->. cbn. lia.
      * wp_steps. apply HQ; [done..|]. by rewrite Hr.
  - exists []. rewrite app_nil_r. split_and!; [done|by apply consumed_nil|constructor].
  - by apply inv_length.
Qed.

Lemma starts_with_app p cs : starts_with p cs = true -> exists r, cs = p ++ r.
Proof.
  revert cs. induction p as [|a p IH]; intros cs; [by exists cs|].
  destruct cs as [|c cs]; [done|]. cbn. rewrite andb_true_iff, N.eqb_eq.
  intros [-> [r ->]%IH]. by exists r.
Qed.

(** The scheme suffix is a proper prefix of the rest, followed by a colon. *)
Lemma scheme_suffix_Some cs n b :
  scheme_suffix cs n = Some b ->
  exists p r, cs = p ++ chr ":" :: r /\ b = (n + bytes_len p)%N.
Proof.
  revert n. induction cs as [|c cs IH]; intros n; cbn [scheme_suffix]; [done|].
  destruct (N.eqb_spec c (chr ":")) as [->|].
  - intros [= <-]. exists [], cs. cbn. split; [done|lia].
  - destruct (negb _); [done|]. intros (p & r & -> & ->)%IH.
    exists (c :: p), r. cbn. split; [done|lia].
Qed.

Lemma wp_push_token tokens t (Q : list SpannedToken -> Lexer -> Prop) s :
  boundary source (start (span t)) ->
  ((len tokens < max_tokens)%N -> Q (t :: tokens) s) ->
  wp (push_token source max_tokens tokens t) Q X s.
Proof.
  intros Hb HQ. unfold push_token. case_match eqn:Hle.
  - by apply wp_raise.
  - apply N.leb_gt in Hle. wp_steps. by apply HQ.
Qed.

(** Errors raised with a span starting at a boundary. *)
Lemma wp_raise_at {A} c m a b (Q : A -> Lexer -> Prop) s :
  boundary source a -> m <> "checker nesting budget exceeded"%string ->
  wp (raise source c m (mkSpan a b)) Q X s.
Proof. intros. by apply wp_raise. Qed.

Hint Resolve wp_raise_at : core.
Hint Extern 0 (_ <> _) => discriminate : core.

Lemma wp_string (Q : SpannedToken -> Lexer -> Prop) st s :
  lex_inv s -> boundary source st ->
  (forall q v s', consumed q s s' -> spells (TString v) (34%N :: q) ->
     Q (mkSpanned (TString v) (mkSpan st (offset s'))) s') ->
  wp (string_ source st) Q X s.
Proof.
  intros Hi Hb HQ. unfold string_.
  eapply (wp_loop (fun '(raw, _) s1 => exists q, raw = 34%N :: q /\ consumed q s s1)
            (fun _ s1 => length (rest s1))).
  - intros [raw escaped] s1 (q & -> & Hc). wp_steps. apply wp_bump; [by eauto|..].
    + intros _. wp_steps. by eauto.
    + intros c r s2 Hr Hc2.
      pose proof (consumed_trans _ _ _ _ _ Hc Hc2) as Hc3.
      destruct ((c =? 34)%N && negb escaped); wp_steps.
      * destruct (json_from_str _) eqn:Hj; [|by eauto]. wp_steps.
        by apply (HQ (q ++ [c])).
      * split; [by exists (q ++ [c])|].
        destruct Hc2 as (_ & Hr2 & _). rewrite Hr in Hr2. injection Hr2 as ->. rewrite Hr. cbn. lia.
  - exists []. by eauto.
  - by apply inv_length.
Qed.

Lemma parse_f64_total ip fp : is_Some (parse_f64 ip fp).
Proof. unfold parse_f64. repeat case_match; eauto. Qed.

Lemma wp_number (Q : Token -> Lexer -> Prop) st c s :
  lex_inv s -> boundary source st ->
  (forall q t s', consumed q s s' -> spells t (c :: q) -> Q t s') ->
  wp (number_or_uri source st c) Q X s.
Proof.
  intros Hi Hb HQ. unfold number_or_uri. wp_steps. apply wp_take_while; [done|].
  intros q s1 Hc Hq _. wp_steps. unfold peek.
  destruct (rest s1) as [|d r] eqn:Hr; cbn.
  { destruct (parse_i64 _) eqn:Hp; wp_steps; [by eapply HQ|by eauto]. }
  destruct (d =c ".") eqn:Hd; cbn;
    [|destruct (parse_i64 _) eqn:Hp; wp_steps; [by eapply HQ|by eauto]].
  apply N.eqb_eq in Hd as ->.
  destruct r as [|d2 r]; cbn;
    [destruct (parse_i64 _) eqn:Hp; wp_steps; [by eapply HQ|by eauto]|].
  destruct (is_ascii_digit d2) eqn:Hd2;
    [|destruct (parse_i64 _) eqn:Hp; wp_steps; [by eapply HQ|by eauto]].
  wp_steps. apply wp_bump; [by eauto|by rewrite Hr|].
  intros c' r' s2 Hr' Hc2. rewrite Hr in Hr'. injection Hr' as <- <-.
  wp_steps. apply wp_take_while; [by eauto|]. intros q2 s3 Hc3 Hq2 Hstop.
  destruct (parse_f64_total (c :: q) q2) as [v Hv]. cbn [app] in *. rewrite Hv. wp_steps.
  eapply (HQ ((q ++ [chr "."]) ++ q2)).
  - eapply consumed_trans; [by eapply consumed_trans|done].
  - exists (c :: q), q2. rewrite <- app_assoc. split_and!; [done| |done].
    intros ->. destruct Hc2 as (_ & Hr2 & _). rewrite Hr in Hr2. injection Hr2 as Hr2.
    destruct Hc3 as (_ & Hr3 & _). cbn in Hr3. rewrite <- Hr3, <- Hr2 in Hstop. congruence.
Qed.

Lemma ident_continue_colon : is_ident_continue (chr ":") = false.
Proof. reflexivity. Qed.

Lemma wp_ident (Q : Token -> Lexer -> Prop) c rfp s :
  lex_inv s -> is_ident_start c = true ->
  (forall q t s', consumed q s s' -> spells t (c :: q) -> Q t s') ->
  wp (ident_or_uri source c rfp) Q X s.
Proof.
  intros Hi Hc HQ. unfold ident_or_uri. wp_steps. apply wp_take_while; [done|].
  intros q s1 Hc1 _ _. wp_steps.
  apply (wp_mono _ (fun t s' => exists q', t = c :: q' /\ consumed q' s s') _ X); [| |done].
  - assert (Hnone : wp (mret (c :: q)) (fun t s' => exists q', t = c :: q' /\ consumed q' s s') X s1)
      by (apply wp_ret; eauto).
    destruct rfp; [done|]. unfold hyphenated_scheme_suffix_bytes.
    destruct (negb _); [done|].
    destruct (scheme_suffix (rest s1) 0) as [b|] eqn:Hb; [|done].
    apply scheme_suffix_Some in Hb as (p & r & Hr & ->). wp_steps.
    rewrite N.add_0_l, Hr, byte_prefix_app. wp_steps.
    exists (q ++ p). split; [done|]. eapply consumed_trans; [done|].
    by eapply advance_consumed; [eauto|].
  - intros text s2 (q' & -> & Hc2). wp_steps. unfold peek.
    assert (Hword : forall Q', Q' = (if is_uppercase c then TUpper else TIdent) (of_chars (c :: q')) -> Q Q' s2).
    { intros Q' ->. apply (HQ q'); [done|]. destruct (is_uppercase c); cbn; eauto. }
    destruct (rest s2) as [|d r] eqn:Hr; cbn.
    { rewrite andb_false_r. destruct (is_uppercase c); wp_steps; by apply Hword. }
    destruct (negb rfp && d =c ":") eqn:Hd;
      [|destruct (is_uppercase c); wp_steps; by apply Hword].
    apply andb_true_iff in Hd as [_ Hd%N.eqb_eq]. subst d.
    wp_steps. apply wp_bump; [by eauto|by rewrite Hr|].
    intros c' r' s3 Hr' Hc3. rewrite Hr in Hr'. injection Hr' as <- <-.
    wp_steps. apply wp_take_while; [by eauto|]. intros q2 s4 Hc4 _ _. wp_steps.
    apply (HQ ((q' ++ [chr ":"]) ++ q2)).
    + eapply consumed_trans; [by eapply consumed_trans|done].
    + split; [done|]. right. rewrite !in_app_iff. cbn. auto.
Qed.

Lemma wp_longest more long short c (Q : Token -> Lexer -> Prop) s :
  lex_inv s -> str_len more = bytes_len (chars more) ->
  spells long (c :: chars more) -> spells short [c] ->
  (forall q t s', consumed q s s' -> spells t (c :: q) -> Q t s') ->
  wp (longest more long short) Q X s.
Proof.
  intros Hi Hlen Hl Hs HQ. unfold longest. wp_steps.
  destruct (starts_with _ _) eqn:Hw; wp_steps; [|(apply (HQ []); [by apply consumed_nil|done])].
  apply starts_with_app in Hw as [r Hr]. rewrite Hlen.
  eapply wp_skip_bytes; [done..|]. intros s' Hc. wp_steps. by apply (HQ (chars more)).
Qed.

(** Deciding the char that [bump] returned. *)
Ltac on_char c :=
  match goal with
  | |- wp (if c =c ?lit then _ else _) _ _ _ =>
      let E := fresh "E" in
      destruct (c =c lit) eqn:E; [apply N.eqb_eq in E; subst c|clear E]
  end.

Lemma wp_scan_token (Q : Token -> Lexer -> Prop) st c rfp s :
  lex_inv s -> boundary source st ->
  (forall q t s', consumed q s s' -> spells t (c :: q) -> Q t s') ->
  wp (scan_token source st c rfp) Q X s.
Proof.
  intros Hi Hb HQ. unfold scan_token.
  do 13 (on_char c; [wp_steps; (apply (HQ []); [by apply consumed_nil|done])|]).
  do 4 (on_char c; [refine (wp_longest _ _ _ _ _ _ Hi _ _ _ HQ); reflexivity|]).
  wp_steps.
  destruct ((c =c "!") && starts_with (chars "=") (rest s)) eqn:E.
  { apply andb_true_iff in E as [->%N.eqb_eq [r Hr]%starts_with_app].
    wp_steps. change 1%N with (bytes_len (chars "=")).
    eapply wp_skip_bytes; [done..|]. intros s' Hc. wp_steps. by apply (HQ (chars "=")). }
  clear E.
  do 3 (on_char c; [refine (wp_longest _ _ _ _ _ _ Hi _ _ _ HQ); reflexivity|]).
  destruct (is_ascii_digit c); [by apply wp_number|].
  destruct (is_ident_start c) eqn:Hid; [by apply wp_ident|].
  wp_steps. by eauto.
Qed.

(** The invariant of the main loop. *)
Definition run_inv (acc : list SpannedToken * list char) (s : Lexer) : Prop :=
  lex_inv s /\ lexed (rev (before s)) acc.1 /\ (len acc.1 <= max_tokens)%N.

Lemma until_split p cs : exists r, cs = until p cs ++ r.
Proof.
  induction cs as [|c cs IH]; [by exists []|]. cbn. destruct (p c); [by exists (c :: cs)|].
  destruct IH as [r Hr]. exists r. cbn. by rewrite <- Hr.
Qed.

Lemma until_Forall p cs : Forall (fun c => p c = false) (until p cs).
Proof. induction cs as [|c cs IH]; cbn; [constructor|]. destruct (p c) eqn:Hp; by constructor. Qed.

Lemma comment_trivia r : trivia (until (N.eqb newline) (chars "--" ++ r)).
Proof.
  right. exists (until (N.eqb newline) r). split; [done|].
  eapply Forall_impl; [apply until_Forall|]. cbv beta. intros x Hx%N.eqb_neq. congruence.
Qed.

Lemma lexed_step text tokens q s s' t :
  lexed text tokens -> consumed q s s' -> lex_inv s -> text = rev (before s) ->
  q <> [] -> spells t q ->
  lexed (rev (before s')) (mkSpanned t (mkSpan (offset s) (offset s')) :: tokens).
Proof.
  intros Hl (Hi' & _ & Hb) Hi -> Hq Ht. destruct Hi as [_ ->], Hi' as [_ ->].
  rewrite Hb. by apply lexed_token.
Qed.

Lemma consumed_shorter q s s' : consumed q s s' -> q <> [] -> length (rest s') < length (rest s).
Proof.
  intros (_ & -> & _) Hq. destruct q; [done|]. rewrite length_app. cbn. lia.
Qed.

(** Pushing the token a step has read keeps the invariant of the loop. *)
Lemma lexed_pushed tokens delims n q s s' t :
  lexed (rev (before s)) tokens -> lex_inv s -> (len tokens < max_tokens)%N -> length (rest s) <= n ->
  consumed q s s' -> q <> [] -> spells t q ->
  let tokens' := mkSpanned t (mkSpan (offset s) (offset s')) :: tokens in
  (run_inv (tokens', delims) s' /\ length (rest s') < n) /\ (len tokens <= len tokens')%N.
Proof.
  intros Hl Hi Hmax Hn Hc Hq Ht tokens'. split; [split|cbn [fst]; unfold tokens'; rewrite len_cons; lia].
  - split_and!; [by eauto|by eapply lexed_step|]. cbn [fst]. unfold tokens'. rewrite len_cons. lia.
  - apply consumed_shorter in Hc; [lia|done].
Qed.

Lemma wp_run_step acc s :
  run_inv acc s ->
  wp (run_step source max_tokens acc) (fun r s' =>
    match r with
    | inl acc' =>
        (run_inv acc' s' /\ length (rest s') < length (rest s)) /\ (len acc.1 <= len acc'.1)%N
    | inr tokens => (lexed source tokens /\ (len tokens <= max_tokens)%N) /\ tokens = acc.1
    end) X s.
Proof.
  destruct acc as [tokens delims]. intros (Hi & Hl & Hn). cbn [fst] in *.
  assert (Hdone : forall s1, lex_inv s1 -> lexed (rev (before s1)) tokens ->
    (bytes_len source <= offset s1)%N -> lexed source tokens).
  { intros s1 Hi1 Hl1 Hle. pose proof (inv_end _ Hi1 Hle) as Hr.
    destruct Hi1 as [Hs1 _]. rewrite Hr, app_nil_r in Hs1. by rewrite Hs1. }
  unfold run_step. wp_steps. case_match eqn:Hoff.
  { wp_steps. apply N.leb_le in Hoff. split; [split; [by eapply Hdone|done]|done]. }
  clear Hoff. unfold skip_space. wp_steps. apply wp_take_while; [done|].
  intros q s1 Hc1 Hq _. wp_steps. pose proof (consumed_inv _ _ _ Hc1) as Hi1.
  assert (Hl1 : lexed (rev (before s1)) tokens).
  { destruct Hc1 as (_ & _ & ->). apply lexed_trivia; [done|by left]. }
  assert (Hlen1 : length (rest s1) <= length (rest s)).
  { destruct Hc1 as (_ & -> & _). rewrite length_app. lia. }
  case_match eqn:Hoff.
  { wp_steps. apply N.leb_le in Hoff. split; [split; [by eapply Hdone|done]|done]. }
  case_match; [by eauto|]. case_match eqn:Hcomment.
  { wp_steps. apply starts_with_app in Hcomment as [r Hr].
    destruct (until_split (N.eqb newline) (rest s1)) as [r2 Hr2].
    pose proof (advance_consumed _ _ _ Hi1 Hr2) as Hc2. split; [split|done].
    - split_and!; [by eauto| |done].
      destruct Hc2 as (_ & _ & ->). apply lexed_trivia; [done|]. rewrite Hr. apply comment_trivia.
    - apply consumed_shorter in Hc2; [lia|]. by rewrite Hr. }
  destruct (match peek s1 with Some c => (c =? 34)%N | None => false end) eqn:Hquote.
  - unfold peek in Hquote. destruct (rest s1) as [|c r] eqn:Hr; [done|].
    cbn in Hquote. apply N.eqb_eq in Hquote as ->. rewrite <- Hr in Hlen1.
    wp_steps. apply wp_bump; [done|by rewrite Hr|].
    intros c' r' s2 Hr' Hc2. rewrite Hr in Hr'. injection Hr' as <- <-.
    wp_steps. apply wp_string; [by eauto..|]. intros q2 v s3 Hc3 Hsp.
    pose proof (consumed_trans _ _ _ _ _ Hc2 Hc3) as Hc4.
    wp_steps. apply wp_push_token; [by apply inv_boundary|]. intros Hmax. wp_steps.
    by eapply lexed_pushed.
  - wp_steps. apply wp_bump; [done| |].
    { intros Hr. exfalso. destruct Hi1 as [Hs1 Ho1]. rewrite Hr, app_nil_r in Hs1.
      rewrite Ho1, <- Hs1 in Hoff. by rewrite N.leb_refl in Hoff. }
    intros c r s2 Hr Hc2. wp_steps. apply wp_scan_token; [by eauto..|].
    intros q2 t s3 Hc3 Hsp. pose proof (consumed_trans _ _ _ _ _ Hc2 Hc3) as Hc4.
    wp_steps. apply wp_push_token; [by apply inv_boundary|]. intros Hmax. wp_steps.
    by eapply lexed_pushed.
Qed.

(** [run] from the start of the source. *)
Lemma wp_run :
  wp (run source max_tokens) (fun tokens _ =>
    exists ts, lexed source ts
      /\ tokens = rev ts ++ [mkSpanned TEof (mkSpan (bytes_len source) (bytes_len source))]
      /\ (len tokens <= max_tokens)%N) X (mkLexer [] source 0).
Proof.
  unfold run. wp_steps.
  apply (wp_mono _ (fun ts _ => lexed source ts /\ (len ts <= max_tokens)%N) _ X); [| |done].
  - eapply (wp_loop run_inv (fun _ s => length (rest s))).
    + intros acc s Hi. eapply wp_mono; [by apply wp_run_step| |done]. intros [|]; cbn; naive_solver.
    + split_and!; [by split|constructor|unfold len; cbn; lia].
    + apply inv_length. by split.
  - intros ts s [Hl Hn]. unfold finish. wp_steps.
    apply wp_push_token; [apply boundary_end|]. intros Hlt. wp_steps.
    exists ts. split_and!; [done|done|]. cbn [rev].
    rewrite len_app. unfold len in *. rewrite length_rev. cbn [length]. lia.
Qed.
End Facts.

(** ** Consequences of [lexed] *)

Section Lexed.
Context `{UnicodeTables} `{JsonStr}.

Lemma lexed_boundaries text tokens :
  lexed text tokens ->
  Forall (fun t => boundary text (start (span t)) /\ boundary text (stop (span t))) tokens.
Proof.
  assert (Hext : forall text extra n, boundary text n -> boundary (text ++ extra) n).
  { intros text' extra n (b & a & -> & ->). exists b, (a ++ extra). by rewrite app_assoc. }
  induction 1 as [|text tokens gap _ IH _|text tokens t word _ IH Hw _].
  - constructor.
  - eapply Forall_impl; [exact IH|]. cbn. naive_solver.
  - constructor.
    + cbn. split; [apply Hext, boundary_end|apply boundary_end].
    + eapply Forall_impl; [exact IH|]. cbn. naive_solver.
Qed.

Lemma lexed_no_eof text tokens : lexed text tokens -> Forall (fun t => node t <> TEof) tokens.
Proof.
  induction 1 as [| |text tokens t word _ IH _ Hs]; [constructor|done|].
  constructor; [|done]. cbn. by intros ->.
Qed.

(** Tokens do not overlap: last first, every token ends where the text so far
    ends or before, and starts strictly before it ends. *)
Fixpoint spans_descend (limit : N) (tokens : list SpannedToken) : Prop :=
  match tokens with
  | [] => True
  | t :: ts =>
      (start (span t) < stop (span t))%N /\ (stop (span t) <= limit)%N
      /\ spans_descend (start (span t)) ts
  end.

Lemma spans_descend_mono a b tokens : (a <= b)%N -> spans_descend a tokens -> spans_descend b tokens.
Proof. destruct tokens as [|t ts]; cbn; [done|]. intros. intuition lia. Qed.

Lemma lexed_spans_descend text tokens : lexed text tokens -> spans_descend (bytes_len text) tokens.
Proof.
  induction 1 as [|text tokens gap _ IH _|text tokens t word _ IH Hw _]; [done|..].
  - eapply spans_descend_mono; [|done]. rewrite bytes_len_app. lia.
  - cbn. split_and!; [|done|done]. rewrite bytes_len_app.
    destruct word as [|c cs]; [done|]. pose proof (bytes_len_pos c cs). lia.
Qed.
End Lexed.

(** ** The token budget *)

Section Budget.
Context `{UnicodeTables} `{JsonStr}.
Variable source : list char.

Definition tm1007 {A} (r : outcome Diagnostic A) : Prop :=
  exists d, r = Err d /\ code d = "TM1007"%string.

(** What a run under the budget [m'] does, given that it ends normally under
    another budget: the same, or TM1007 and then the result does not fit. *)
Definition budget_agrees {A} (size : A -> N) (m' : N) (r r' : outcome Diagnostic (A * Lexer)) : Prop :=
  forall a s, r = Ok (a, s) -> r' = Ok (a, s) \/ tm1007 r' /\ (m' < size a)%N.

Definition step_size (r : (list SpannedToken * list char) + list SpannedToken) : N :=
  match r with inl acc => len acc.1 | inr tokens => len tokens end.

Lemma raise_tm1007 {S A} msg sp (s : S) :
  boundary source (start sp) -> tm1007 (raise (A:=A) source "TM1007" msg sp s).
Proof.
  intros Hb. unfold raise, tm1007.
  destruct (diagnostic_new_boundary "TM1007" msg sp source Hb) as (b & a & _ & _ & ->).
  eexists. by split.
Qed.

Lemma push_token_agrees m m' tokens t s :
  boundary source (start (span t)) ->
  budget_agrees len m' (push_token source m tokens t s) (push_token source m' tokens t s).
Proof.
  intros Hb a s'. unfold push_token. intros Ha.
  assert (a = t :: tokens /\ s' = s) as [-> ->].
  { destruct (m <=? len tokens)%N; [|unfold mret, M_ret in Ha; by simplify_eq].
    destruct (raise_tm1007 (S:=Lexer) (A:=list SpannedToken)
      "syntax budget exceeded: more than {} tokens" (span t) s Hb) as (d & Hd & _).
    by rewrite Hd in Ha. }
  destruct (m' <=? len tokens)%N eqn:Hle; [right|by left].
  apply N.leb_le in Hle. rewrite len_cons. split; [by apply raise_tm1007|lia].
Qed.

Lemma bind_agrees {A B} size m' (m1 : L A) (k k' : A -> L B) s :
  (forall a s', m1 s = Ok (a, s') -> budget_agrees size m' (k a s') (k' a s')) ->
  budget_agrees size m' ((m1 ≫= k) s) ((m1 ≫= k') s).
Proof.
  intros Hk. unfold mbind, M_bind. destruct (m1 s) as [[a s']|e| |]; [by apply Hk|..]; done.
Qed.

Lemma then_agrees {A B} size size' m' (m1 m2 : L A) (k : A -> L B) s :
  budget_agrees size m' (m1 s) (m2 s) ->
  (forall a b s1 s2, k a s1 = Ok (b, s2) -> (size a <= size' b)%N) ->
  budget_agrees size' m' ((m1 ≫= k) s) ((m2 ≫= k) s).
Proof.
  intros Hm Hk. unfold mbind, M_bind. destruct (m1 s) as [[a s1]|e| |] eqn:E1; [|done..].
  intros b s2 Hb. destruct (Hm _ _ eq_refl) as [->|[(d & -> & Hd) Hlt]]; [by left|right].
  split; [by exists d|]. apply Hk in Hb. lia.
Qed.

Lemma agrees_refl {A} (size : A -> N) m' r : budget_agrees size m' r r.
Proof. intros a s ->. by left. Qed.

Lemma then_inl_agrees m' (m1 m2 : L (list SpannedToken)) delims s :
  let continue_with ts : L ((list SpannedToken * list char) + list SpannedToken) :=
    mret (inl (ts, delims)) in
  budget_agrees len m' (m1 s) (m2 s) ->
  budget_agrees step_size m' ((m1 ≫= continue_with) s) ((m2 ≫= continue_with) s).
Proof. intros k H1. apply (then_agrees len); [done|]. by intros a b s1 s2 [= <- <-]. Qed.

Lemma run_step_agrees m m' acc s :
  lex_inv source s -> budget_agrees step_size m' (run_step source m acc s) (run_step source m' acc s).
Proof.
  intros Hi. destruct acc as [tokens delims]. unfold run_step.
  apply bind_agrees. intros o s0 [= <- <-]. case_match; [apply agrees_refl|].
  apply bind_agrees. intros u s1 Hskip.
  assert (Hi1 : lex_inv source s1).
  { eapply (wp_ok _ (fun _ => lex_inv source)); [|exact Hskip].
    unfold skip_space. wp_steps. apply wp_take_while; [done|].
    intros q s' Hc _ _. wp_steps. by eapply consumed_inv. }
  apply bind_agrees. intros s1' s1'' [= <- <-].
  pose proof (inv_boundary _ _ Hi1) as Hb.
  do 3 (case_match; [apply agrees_refl|]).
  destruct (match peek s1 with Some c => (c =? 34)%N | None => false end); apply bind_agrees.
  - intros c s2 Hbump. apply bind_agrees. intros t s3 Hstr. apply then_inl_agrees, push_token_agrees.
    assert (Hi2 : lex_inv source s2).
    { eapply (wp_ok _ (fun _ => lex_inv source)); [|exact Hbump].
      apply (wp_bump source); [done..|]. intros. by eapply consumed_inv. }
    eapply (wp_ok _ (fun t _ => start (span t) = offset s1)) in Hstr as ->; [done|].
    by apply wp_string.
  - intros [c|] s2 _; [|apply agrees_refl].
    apply bind_agrees. intros t s3 _. apply bind_agrees. intros o s3' [= <- <-].
    by apply then_inl_agrees, push_token_agrees.
Qed.

(** The accumulated tokens only grow. *)
Lemma loop_grows m fuel acc s ts s' :
  run_inv source m acc s -> loop fuel (run_step source m) acc s = Ok (ts, s') -> (len acc.1 <= len ts)%N.
Proof.
  revert acc s. induction fuel as [|fuel IH]; intros acc s Hi; [done|].
  unfold loop; fold (loop (E:=Diagnostic) (S:=Lexer) fuel (run_step source m)).
  unfold mbind, M_bind.
  pose proof (wp_run_step source m acc s Hi) as Hwp. unfold wp in Hwp.
  destruct (run_step source m acc s) as [[[acc'|ts'] s1]|e| |]; try done.
  - destruct Hwp as [[Hi' _] Hle]. intros Hl%IH; [|done]. lia.
  - intros [= <- <-]. by destruct Hwp as [_ ->].
Qed.

Lemma loop_agrees m m' fuel acc s :
  run_inv source m acc s ->
  budget_agrees len m' (loop fuel (run_step source m) acc s) (loop fuel (run_step source m') acc s).
Proof.
  revert acc s. induction fuel as [|fuel IH]; intros acc s Hi; [apply agrees_refl|].
  unfold loop; fold (loop (E:=Diagnostic) (S:=Lexer) fuel (run_step source m))
    (loop (E:=Diagnostic) (S:=Lexer) fuel (run_step source m')).
  intros ts sf. unfold mbind, M_bind.
  pose proof (run_step_agrees m m' acc s (proj1 Hi)) as Hstep.
  pose proof (wp_run_step source m acc s Hi) as Hwp. unfold wp in Hwp.
  destruct (run_step source m acc s) as [[[acc'|ts'] s']|e| |]; try done.
  - intros Hloop. destruct Hwp as [[Hi' _] _].
    destruct (Hstep _ _ eq_refl) as [->|[(d & -> & Hd) Hlt]]; [by apply IH|].
    right. split; [by exists d|]. cbn in Hlt. apply loop_grows in Hloop; [lia|done].
  - intros [= <- <-].
    destruct (Hstep _ _ eq_refl) as [->|[(d & -> & Hd) Hlt]]; [by left|right].
    split; [by exists d|done].
Qed.

Lemma run_agrees m m' :
  budget_agrees len m' (run source m (mkLexer [] source 0)) (run source m' (mkLexer [] source 0)).
Proof.
  assert (Hi : run_inv source m ([], []) (mkLexer [] source 0)).
  { split_and!; [by split|constructor|unfold len; cbn; lia]. }
  pose proof (loop_agrees m m' (lex_fuel source) _ _ Hi) as Hloop.
  unfold run. intros r sr. unfold mbind, M_bind.
  destruct (loop _ (run_step source m) _ _) as [[ts s]|e| |]; try done.
  intros Hfin.
  assert (Hgrow : (len ts <= len r)%N).
  { revert Hfin. unfold finish, push_token. case_match; [|intros [= <- <-]].
    - destruct (raise_tm1007 (S:=Lexer) (A:=list SpannedToken)
        "syntax budget exceeded: more than {} tokens"
        (mkSpan (bytes_len source) (bytes_len source)) s (boundary_end _)) as (d & Hd & _).
      cbn [span]. unfold mbind, M_bind. by rewrite Hd.
    - cbn [rev]. rewrite len_app. unfold len. rewrite length_rev. lia. }
  destruct (Hloop _ _ eq_refl) as [->|[(d & -> & Hd) Hlt]]; [|right; split; [by exists d|lia]].
  revert Hfin. unfold finish. apply (then_agrees len len).
  - apply push_token_agrees, boundary_end.
  - intros a b s1 s2 [= <- <-]. unfold len. rewrite length_rev. lia.
Qed.
End Budget.

Lemma lex_bounded_total `{UnicodeTables} `{JsonStr} source max_tokens :
  returns (lex_bounded source max_tokens).
Proof.
  unfold lex_bounded. pose proof (wp_run source max_tokens) as Hwp.
  apply wp_returns in Hwp. by destruct (run _ _ _) as [[ts s]|e| |].
Qed.

Lemma lex_bounded_err `{UnicodeTables} `{JsonStr} source max_tokens d :
  lex_bounded source max_tokens = Err d -> no_checker_nesting d.
Proof.
  unfold lex_bounded. pose proof (wp_run source max_tokens) as Hwp. unfold wp in Hwp.
  destruct (run _ _ _) as [[ts s]|e| |]; cbn; intros [= <-]. done.
Qed.

Lemma lex_bounded_ok `{UnicodeTables} `{JsonStr} source max_tokens tokens :
  lex_bounded source max_tokens = Ok tokens ->
  exists ts, lexed source ts
    /\ tokens = rev ts ++ [mkSpanned TEof (mkSpan (bytes_len source) (bytes_len source))]
    /\ (len tokens <= max_tokens)%N.
Proof.
  unfold lex_bounded. pose proof (wp_run source max_tokens) as Hwp. unfold wp in Hwp.
  destruct (run _ _ _) as [[ts s]|e| |]; cbn; intros [= <-]. done.
Qed.

(** Lexing always returns a result: on any source text, with any token
    budget and any Unicode tables and JSON string decoder, [lex_bounded] either
    returns tokens or a diagnostic; it neither loops nor panics (slices at char
    boundaries only, no failed [expect]). *)
Lemma lex_bounded_returns `{UnicodeTables} `{JsonStr} source max_tokens :
  returns (lex_bounded source max_tokens).
Proof. apply lex_bounded_total. Qed.

(** C36: the tokens spell out the source.  A successful lex consists of one token
    per word of the source, in order, each spelled by exactly the text of its
    span, separated by nothing but white space and comments, and is closed by a
    single end-of-file token at the end of the text. *)
Theorem lex_bounded_spells `{UnicodeTables} `{JsonStr} source max_tokens tokens :
  lex_bounded source max_tokens = Ok tokens ->
  exists ts, lexed source ts /\ Forall (fun t => node t <> TEof) ts
    /\ tokens = rev ts ++ [mkSpanned TEof (mkSpan (bytes_len source) (bytes_len source))].
Proof.
  intros (ts & Hl & Ht & _)%lex_bounded_ok. exists ts.
  split_and!; [done|by eapply lexed_no_eof|done].
Qed.

(** The token budget only decides whether TM1007 is raised.  If a source lexes
    to [tokens] under some budget, then under any other budget it lexes to the
    same tokens when they fit, and to diagnostic TM1007 when they do not. *)
Lemma lex_bounded_budget `{UnicodeTables} `{JsonStr} source m m' tokens :
  lex_bounded source m = Ok tokens ->
  lex_bounded source m' = Ok tokens /\ (len tokens <= m')%N
  \/ tm1007 (lex_bounded source m') /\ (m' < len tokens)%N.
Proof.
  intros Hm. unfold lex_bounded in *. pose proof (run_agrees source m m') as Hr.
  pose proof (wp_run source m') as Hwp. unfold wp in Hwp.
  destruct (run source m _) as [[ts s]|e| |]; try done. injection Hm as ->.
  destruct (Hr _ _ eq_refl) as [He|[(d & He & Hd) Hlt]]; rewrite He in Hwp |- *.
  - left. split; [done|]. by destruct Hwp as (? & _ & _ & ?).
  - right. split; [by exists d|done].
Qed.

Lemma lex_bounded_spells_witness :
  exists tokens, @lex_bounded ascii_tables plain_json (chars "let x = 1 -- one") 8 = Ok tokens
    /\ exists ts, @lexed ascii_tables plain_json (chars "let x = 1 -- one") ts
         /\ Forall (fun t => node t <> TEof) ts
         /\ tokens = rev ts ++ [mkSpanned TEof (mkSpan 16 16)].
Proof.
  eexists. split; [vm_compute; reflexivity|].
  apply (@lex_bounded_spells ascii_tables plain_json (chars "let x = 1 -- one") 8).
  vm_compute. reflexivity.
Defined.

Lemma lex_bounded_budget_witness :
  exists tokens, @lex_bounded ascii_tables plain_json (chars "a |> b") 9 = Ok tokens /\
    (@lex_bounded ascii_tables plain_json (chars "a |> b") 3 = Ok tokens /\ (len tokens <= 3)%N
     \/ tm1007 (@lex_bounded ascii_tables plain_json (chars "a |> b") 3) /\ (3 < len tokens)%N).
Proof.
  eexists. split; [vm_compute; reflexivity|].
  apply (@lex_bounded_budget ascii_tables plain_json (chars "a |> b") 9 3).
  vm_compute. reflexivity.
Defined.
