(* ===== verification/Parser.v ===== *)
(** * The parser ([parser/mod.rs], [parser/mechanics.rs], [parser/patterns.rs])

    A recursive-descent parser with binding powers.  Every recursive cycle of
    the code goes through a function that checks and increments [depth]
    ([parse_bp], [pattern], [pattern_atom], [type_term]), so the recursion is
    bounded by [max_depth]: the fuel is [max_depth + 1].  Every loop consumes a
    token per iteration: the fuel of a loop is the number of tokens plus one. *)

From stdpp Require Import base tactics list strings.
From Stdlib Require Import ZArith NArith Lia.
From S2P Require Import Prelude Text Numbers Syntax Lexer.

Record Parser := mkParser {
  cursor : nat;
  stop_before_lbrace : bool;
  depth : N;
  last_expr_depth : N;
  last_form_expr_depth : N;
}.

Definition set_cursor c p :=
  mkParser c (stop_before_lbrace p) (depth p) (last_expr_depth p) (last_form_expr_depth p).
Definition set_stop b p :=
  mkParser (cursor p) b (depth p) (last_expr_depth p) (last_form_expr_depth p).
Definition set_depth d p :=
  mkParser (cursor p) (stop_before_lbrace p) d (last_expr_depth p) (last_form_expr_depth p).
Definition set_last_expr_depth d p :=
  mkParser (cursor p) (stop_before_lbrace p) (depth p) d (last_form_expr_depth p).
Definition set_last_form_expr_depth d p :=
  mkParser (cursor p) (stop_before_lbrace p) (depth p) (last_expr_depth p) d.

Inductive Infix :=
| InfixPipe
| InfixBinary (op : BinaryOp).

Definition PM := M Diagnostic Parser.

Section Parser.
Variable source : list char.
Variable tokens : list SpannedToken.
Variable max_depth : N.

Definition loop_fuel : nat := S (length tokens).
Definition depth_fuel : nat := S (N.to_nat max_depth).

(** ** Mechanics *)

Definition current : PM SpannedToken :=
  s ← get;
  match tokens !! cursor s with
  | Some t => mret t
  | None => panic
  end.

Definition span_ : PM Span := t ← current; mret (span t).

Definition previous_span : PM Span :=
  s ← get;
  match tokens !! Nat.pred (cursor s) with
  | Some t => mret (span t)
  | None => panic
  end.

Definition error {A} (code message : string) : PM A :=
  sp ← span_;
  raise source code message sp.

Definition at_ (token : Token) : PM bool :=
  t ← current;
  mret (discriminant (node t) =? discriminant token)%N.

Definition bump_ : PM SpannedToken :=
  t ← current;
  eof ← at_ TEof;
  (if negb eof then s ← get; modify (set_cursor (S (cursor s))) else mret tt);;
  mret t.

Definition take_ (token : Token) : PM (option Span) :=
  here ← at_ token;
  if here : bool then t ← bump_; mret (Some (span t)) else mret None.

Definition took (token : Token) : PM bool :=
  r ← take_ token;
  mret (match r with Some _ => true | None => false end).

Definition expect (token : Token) : PM Span :=
  r ← take_ token;
  match r with
  | Some sp => mret sp
  | None => error "TM2014" "expected {expected}"
  end.

Definition keyword (word : string) : PM bool :=
  t ← current;
  mret (match node t with TIdent name => String.eqb name word | _ => false end).

Definition upper_is (value : string) : PM bool :=
  t ← current;
  mret (match node t with TUpper name => String.eqb name value | _ => false end).

Definition expect_keyword (word : string) : PM unit :=
  here ← keyword word;
  if here : bool then bump_;; mret tt else error "TM2011" "expected {keyword}".

Definition lower_name : PM string :=
  t ← bump_;
  match node t with
  | TIdent name => mret name
  | _ => error "TM2012" "expected {expected}"
  end.

Definition upper_name : PM string :=
  t ← bump_;
  match node t with
  | TUpper name => mret name
  | _ => error "TM2013" "expected {expected}"
  end.

Definition infix_of (t : Token) : option (N * N * Infix) :=
  match t with
  | TPipeGt => Some (1, 2, InfixPipe)
  | TIdent name =>
      if String.eqb name "or" then Some (3, 4, InfixBinary Or)
      else if String.eqb name "and" then Some (5, 6, InfixBinary And)
      else None
  | TEqEq => Some (7, 8, InfixBinary Equal)
  | TNotEq => Some (7, 8, InfixBinary NotEqual)
  | TLt => Some (7, 8, InfixBinary Less)
  | TLe => Some (7, 8, InfixBinary LessEqual)
  | TGt => Some (7, 8, InfixBinary Greater)
  | TGe => Some (7, 8, InfixBinary GreaterEqual)
  | TCons => Some (9, 9, InfixBinary Cons)
  | TPlus => Some (11, 12, InfixBinary Add)
  | TMinus => Some (11, 12, InfixBinary Subtract)
  | TStar => Some (13, 14, InfixBinary Multiply)
  | TSlash => Some (13, 14, InfixBinary Divide)
  | TPercent => Some (13, 14, InfixBinary Modulo)
  | _ => None
  end%N.

Definition infix_binding : PM (option (N * N * Infix)) :=
  t ← current;
  mret (infix_of (node t)).

Definition peek_is_named_function : PM bool :=
  s ← get;
  mret (match tokens !! (cursor s + 1)%nat with
        | Some t => match node t with TIdent _ => true | _ => false end
        | None => false
        end
        && negb (match tokens !! (cursor s + 2)%nat with
                 | Some t => match node t with TArrow => true | _ => false end
                 | None => false
                 end)).

Definition is_stop_word (name : string) : bool :=
  existsb (String.eqb name) ["then"; "else"; "with"; "error"; "and"; "or"]%string.

Definition starts_atom : PM bool :=
  s ← get;
  lbrace ← at_ TLBrace;
  if stop_before_lbrace s && lbrace then mret false
  else
    t ← current;
    mret (match node t with
          | TIdent name => negb (is_stop_word name)
          | TString _ | TInt _ | TDecimal _ | TUri _ | TUpper _
          | TAt | TLParen | TLBracket | TLBrace => true
          | _ => false
          end).

Definition starts_pattern : PM bool :=
  t ← current;
  mret (match node t with
        | TIdent _ | TUpper _ | TString _ | TInt _ | TLParen | TLBracket | TLBrace => true
        | _ => false
        end).

Definition starts_type_term : PM bool :=
  t ← current;
  mret (match node t with TUpper _ | TIdent _ | TLParen => true | _ => false end).

Definition parent_expr_depth (child_depth : N) : PM N :=
  let d := saturating_add child_depth 1 in
  if (max_depth <? d)%N then error "TM2021" "parser nesting budget exceeded" else mret d.

(** The depth guard shared by the recursive entry points. *)
Definition nested {A} (inner : PM A) : PM A :=
  s ← get;
  if (max_depth <=? depth s)%N then error "TM2021" "parser nesting budget exceeded"
  else
    modify (fun s => set_depth (depth s + 1) s);;
    result ← inner;
    modify (fun s => set_depth (depth s - 1) s);;
    mret result.

(** [loop { items.push(item()?); if self.take(Comma).is_none() { break } }], the
    items last first. *)
Definition comma_separated {A} (item : list A -> PM (list A)) (acc : list A) : PM (list A) :=
  loop loop_fuel (fun acc =>
    acc ← item acc;
    more ← took TComma;
    mret (if more : bool then inl acc else inr acc)) acc.

(** [while !self.at(stop) { items.push(item()?) }]. *)
Definition until_token {A} (stop : Token) (item : PM A) : PM (list A) :=
  acc ← loop loop_fuel (fun acc =>
    done ← at_ stop;
    if done : bool then mret (inr acc)
    else x ← item; mret (inl (x :: acc))) [];
  mret (rev acc).

(** ** Types *)

Section Types.
Variable type_term_rec : PM TypeTerm.

Definition type_atom : PM TypeTerm :=
  paren ← took TLParen;
  if paren : bool then
    term ← type_term_rec;
    expect TRParen;;
    mret term
  else
    t ← bump_;
    match node t with
    | TUpper name | TIdent name => mret (TTNamed name)
    | _ => error "TM2005" "expected type term"
    end.

Definition type_term_inner : PM TypeTerm :=
  list1 ← keyword "List";
  list2 ← upper_is "List";
  if list1 || list2 then bump_;; term ← type_atom; mret (TTList term)
  else
    option1 ← keyword "Option";
    option2 ← upper_is "Option";
    if option1 || option2 then bump_;; term ← type_atom; mret (TTOption term)
    else type_atom.
End Types.

Fixpoint type_term (fuel : nat) : PM TypeTerm := fun s =>
  match fuel with
  | O => OutOfFuel
  | S fuel' => nested (type_term_inner (type_term fuel')) s
  end.

Definition schema_fields : PM (list (string * TypeTerm)) :=
  expect TLBrace;;
  empty ← at_ TRBrace;
  fields ← (if empty : bool then mret []
            else comma_separated (fun acc =>
              name ← lower_name;
              expect TColon;;
              term ← type_term depth_fuel;
              mret ((name, term) :: acc)) []);
  expect TRBrace;;
  mret (rev fields).

Definition type_decl : PM TypeDecl :=
  expect_keyword "type";;
  name ← upper_name;
  expect TEq;;
  expect TPipe;;
  variants ← loop loop_fuel (fun acc =>
    variant ← upper_name;
    lbrace ← at_ TLBrace;
    payload ← (if lbrace : bool then fields ← schema_fields; mret (Some (TTRecord fields))
               else
                 term_here ← starts_type_term;
                 if term_here : bool then term ← type_term depth_fuel; mret (Some term)
                 else mret None);
    let acc := mkVariant variant payload :: acc in
    more ← took TPipe;
    mret (if more : bool then inl acc else inr acc)) [];
  mret (mkTypeDecl name (rev variants)).

(** ** Patterns *)

Section Patterns.
Variable pattern_rec pattern_atom_rec : PM Pattern.

Definition pattern_inner : PM Pattern :=
  left ← pattern_atom_rec;
  cons ← took TCons;
  if cons : bool then
    right ← pattern_rec;
    mret (mkSpanned (PCons left right) (merge (span left) (span right)))
  else mret left.

(** One iteration of the record-pattern loop: the fields so far (last first),
    and [Some rest] when the loop breaks. *)
Definition record_pattern_step (fields : list (string * Pattern))
    : PM (list (string * Pattern) + list (string * Pattern) * bool) :=
  dots ← took TEllipsis;
  if dots : bool then mret (inr (fields, true))
  else
    name ← lower_name;
    colon ← took TColon;
    value ← (if colon : bool then pattern_rec
             else sp ← previous_span; mret (mkSpanned (PBind name) sp));
    let fields := (name, value) :: fields in
    more ← took TComma;
    if negb more then mret (inr (fields, false))
    else
      dots ← took TEllipsis;
      mret (if dots : bool then inr (fields, true) else inl fields).

Definition pattern_atom_inner : PM Pattern :=
  token ← bump_;
  match node token with
  | TIdent name =>
      mret (mkSpanned
        (if String.eqb name "_" then PWildcard
         else if String.eqb name "true" then PBool true
         else if String.eqb name "false" then PBool false
         else if String.eqb name "null" then PNull
         else PBind name) (span token))
  | TString value => mret (mkSpanned (PString value) (span token))
  | TInt value => mret (mkSpanned (PInt value) (span token))
  | TUpper name =>
      more ← starts_pattern;
      payload ← (if more : bool then p ← pattern_atom_rec; mret (Some p) else mret None);
      mret (mkSpanned (PConstructor name payload) (span token))
  | TLParen =>
      value ← pattern_rec;
      expect TRParen;;
      sp ← previous_span;
      mret (mkSpanned (node value) (merge (span token) sp))
  | TLBracket =>
      empty ← at_ TRBracket;
      values ← (if empty : bool then mret []
                else comma_separated (fun acc => p ← pattern_rec; mret (p :: acc)) []);
      expect TRBracket;;
      sp ← previous_span;
      mret (mkSpanned (PList (rev values)) (merge (span token) sp))
  | TLBrace =>
      empty ← at_ TRBrace;
      fields_rest ← (if empty : bool then mret ([], false)
                     else loop loop_fuel record_pattern_step []);
      expect TRBrace;;
      sp ← previous_span;
      mret (mkSpanned (PRecord (rev fields_rest.1) fields_rest.2) (merge (span token) sp))
  | _ => raise source "TM2010" "expected pattern" (span token)
  end.
End Patterns.

Fixpoint pattern (fuel : nat) : PM Pattern := fun s =>
  match fuel with
  | O => OutOfFuel
  | S fuel' => nested (pattern_inner (pattern fuel') (pattern_atom fuel')) s
  end
with pattern_atom (fuel : nat) : PM Pattern := fun s =>
  match fuel with
  | O => OutOfFuel
  | S fuel' => nested (pattern_atom_inner (pattern fuel') (pattern_atom fuel')) s
  end.

Definition pattern_ : PM Pattern := pattern depth_fuel.

(** ** Expressions and forms *)

Definition expr_depth_now : PM N := gets last_expr_depth.
Definition set_expr_depth (d : N) : PM unit := modify (set_last_expr_depth d).

(** [self.last_expr_depth = self.parent_expr_depth(child)?]. *)
Definition close_expr (child_depth : N) : PM unit :=
  d ← parent_expr_depth child_depth;
  set_expr_depth d.

Section Expressions.
Variable parse_bp_rec : N -> PM Expr.

Definition expr_rec : PM Expr := parse_bp_rec 0.

Definition form (in_block : bool) : PM Form :=
  first ← span_;
  is_type ← keyword "type";
  is_let ← keyword "let";
  is_fun ← keyword "fun";
  named ← peek_is_named_function;
  node_depth ←
    (if is_type : bool then decl ← type_decl; mret (FType decl, 0%N)
     else if is_let : bool then
       bump_;;
       p ← pattern_;
       expect TEq;;
       value ← expr_rec;
       d ← expr_depth_now;
       mret (FLet p value, d)
     else if is_fun && named then
       bump_;;
       name ← lower_name;
       params ← until_token TEq pattern_;
       if bool_decide (params = []) then
         error "TM2003" "named function requires at least one parameter"
       else
         bump_;;
         body ← expr_rec;
         d ← expr_depth_now;
         mret (FFun name params body, d)
     else
       e ← expr_rec;
       d ← expr_depth_now;
       mret (FExpr e, d));
  semi ← at_ TSemicolon;
  eof ← at_ TEof;
  if negb in_block && negb semi && negb eof then
    error "TM2004" "top-level forms must be separated by `;`"
  else
    modify (set_last_form_expr_depth node_depth.2);;
    last ← previous_span;
    mret (mkSpanned node_depth.1 (mkSpan (start first) (stop last))).

Definition if_expr : PM Expr :=
  t ← bump_;
  condition ← expr_rec;
  condition_depth ← expr_depth_now;
  expect_keyword "then";;
  then_value ← expr_rec;
  then_depth ← expr_depth_now;
  expect_keyword "else";;
  else_value ← expr_rec;
  else_depth ← expr_depth_now;
  close_expr (N.max (N.max condition_depth then_depth) else_depth);;
  mret (mkSpanned (EIf condition then_value else_value) (merge (span t) (span else_value))).

Definition match_expr (handle : bool) : PM Expr :=
  t ← bump_;
  modify (set_stop true);;
  value ← expr_rec;
  value_depth ← expr_depth_now;
  modify (set_stop false);;
  (if handle then expect_keyword "with";; expect_keyword "error" else mret tt);;
  expect TLBrace;;
  arms_depth ← loop loop_fuel (fun '(arms, child_depth) =>
    close ← at_ TRBrace;
    if close : bool then mret (inr (rev arms, child_depth))
    else
      expect TPipe;;
      p ← pattern_;
      expect TArrow;;
      arm ← expr_rec;
      d ← expr_depth_now;
      mret (inl (mkArm p arm :: arms, N.max child_depth d))) ([], value_depth);
  expect TRBrace;;
  if bool_decide (length arms_depth.1 = 0) then error "TM2007" "match requires at least one arm"
  else
    last ← previous_span;
    close_expr arms_depth.2;;
    mret (mkSpanned (if handle then EHandle value arms_depth.1 else EMatch value arms_depth.1)
            (merge (span t) last)).

Definition block : PM Expr :=
  t ← bump_;
  expect TLBrace;;
  empty ← at_ TRBrace;
  forms_depth ←
    (if empty : bool then mret ([], 0%N)
     else loop loop_fuel (fun '(forms, child_depth) =>
       f ← form true;
       d ← gets last_form_expr_depth;
       let acc := (f :: forms, N.max child_depth d) in
       semi ← took TSemicolon;
       if negb semi then mret (inr acc)
       else
         close ← at_ TRBrace;
         mret (if close : bool then inr acc else inl acc)) ([], 0%N));
  expect TRBrace;;
  if bool_decide (length forms_depth.1 = 0) then error "TM2008" "do block cannot be empty"
  else
    close_expr forms_depth.2;;
    last ← previous_span;
    mret (mkSpanned (EBlock (rev forms_depth.1)) (merge (span t) last)).

Definition lambda : PM Expr :=
  t ← bump_;
  params ← until_token TArrow pattern_;
  if bool_decide (params = []) then error "TM2009" "lambda requires at least one parameter"
  else
    bump_;;
    body ← expr_rec;
    body_depth ← expr_depth_now;
    close_expr body_depth;;
    mret (mkSpanned (ELambda params body) (merge (span t) (span body))).

Definition capability (first : N) : PM Expr :=
  name ← lower_name;
  parts ← loop loop_fuel (fun parts =>
    dot ← took TDot;
    if dot : bool then segment ← lower_name; mret (inl (segment :: parts))
    else mret (inr (rev parts))) [name];
  set_expr_depth 1;;
  last ← previous_span;
  mret (mkSpanned (ECapability (String.concat "." parts)) (mkSpan first (stop last))).

Definition list_ (first : N) : PM Expr :=
  empty ← at_ TRBracket;
  values_depth ←
    (if empty : bool then mret ([], 0%N)
     else loop loop_fuel (fun '(values, child_depth) =>
       v ← expr_rec;
       d ← expr_depth_now;
       let acc := (v :: values, N.max child_depth d) in
       more ← took TComma;
       mret (if more : bool then inl acc else inr acc)) ([], 0%N));
  expect TRBracket;;
  close_expr values_depth.2;;
  last ← previous_span;
  mret (mkSpanned (EList (rev values_depth.1)) (mkSpan first (stop last))).

Definition record (first : N) : PM Expr :=
  empty ← at_ TRBrace;
  fields_depth ←
    (if empty : bool then mret ([], 0%N)
     else loop loop_fuel (fun '(fields, child_depth) =>
       name ← lower_name;
       colon ← took TColon;
       value_depth ←
         (if colon : bool then v ← expr_rec; d ← expr_depth_now; mret (v, N.max child_depth d)
          else sp ← previous_span; mret (mkSpanned (EName name) sp, N.max child_depth 1));
       let acc := ((name, value_depth.1) :: fields, value_depth.2) in
       more ← took TComma;
       mret (if more : bool then inl acc else inr acc)) ([], 0%N));
  expect TRBrace;;
  close_expr fields_depth.2;;
  last ← previous_span;
  mret (mkSpanned (ERecord (rev fields_depth.1)) (mkSpan first (stop last))).

(** [Token::LParen]: the flag is cleared inside the parentheses. *)
Definition paren (first : Span) : PM Expr :=
  saved ← gets stop_before_lbrace;
  modify (set_stop false);;
  value ← expr_rec;
  modify (set_stop saved);;
  d ← expr_depth_now;
  expect TRParen;;
  set_expr_depth d;;
  last ← previous_span;
  mret (mkSpanned (node value) (merge first last)).

Definition atom : PM Expr :=
  first ← span_;
  is_if ← keyword "if";
  is_match ← keyword "match";
  is_handle ← keyword "handle";
  is_do ← keyword "do";
  is_fun ← keyword "fun";
  if is_if : bool then if_expr
  else if is_match : bool then match_expr false
  else if is_handle : bool then match_expr true
  else if is_do : bool then block
  else if is_fun : bool then lambda
  else
    token ← bump_;
    let leaf k := set_expr_depth 1;; mret (mkSpanned k (span token)) in
    match node token with
    | TString value => leaf (EString value)
    | TInt value => leaf (EInt value)
    | TDecimal value => leaf (EDecimal value)
    | TUri value => leaf (EUri value)
    | TIdent name =>
        leaf (if String.eqb name "true" then EBool true
              else if String.eqb name "false" then EBool false
              else if String.eqb name "null" then ENull
              else EName name)
    | TUpper name => leaf (EConstructor name)
    | TAt => capability (start first)
    | TLParen => paren first
    | TLBracket => list_ (start first)
    | TLBrace => record (start first)
    | _ => raise source "TM2006" "expected expression" (span token)
    end.

(** The operand before any infix operator. *)
Definition prefix : PM Expr :=
  is_not ← keyword "not";
  if is_not : bool then
    t ← bump_;
    value ← parse_bp_rec 80;
    d ← expr_depth_now;
    close_expr d;;
    mret (mkSpanned (EUnary Not value) (merge (span t) (span value)))
  else
    minus ← took TMinus;
    if minus : bool then
      sp ← previous_span;
      value ← parse_bp_rec 80;
      d ← expr_depth_now;
      close_expr d;;
      mret (mkSpanned (EUnary Negate value) (merge sp (span value)))
    else atom.

Definition infix_node (op : Infix) (left right : Expr) : ExprKind :=
  match op with
  | InfixPipe => EPipe left right
  | InfixBinary op => EBinary op left right
  end.

(** One iteration of the postfix and infix loop. *)
Definition infix_step (min_bp : N) (acc : Expr * N) : PM (Expr * N + Expr * N) :=
  let '(lhs, left_depth) := acc in
  dot ← at_ TDot;
  if dot && (min_bp <=? 100)%N then
    bump_;;
    field ← lower_name;
    last ← previous_span;
    d ← parent_expr_depth left_depth;
    mret (inl (mkSpanned (EField lhs field) (merge (span lhs) last), d))
  else
    applied ← starts_atom;
    if applied && (min_bp <=? 90)%N then
      argument ← parse_bp_rec 91;
      argument_depth ← expr_depth_now;
      d ← parent_expr_depth (N.max left_depth argument_depth);
      mret (inl (mkSpanned (EApply lhs argument) (merge (span lhs) (span argument)), d))
    else
      binding ← infix_binding;
      match binding with
      | None => mret (inr acc)
      | Some (left_bp, right_bp, op) =>
          if (left_bp <? min_bp)%N then mret (inr acc)
          else
            bump_;;
            right ← parse_bp_rec right_bp;
            right_depth ← expr_depth_now;
            d ← parent_expr_depth (N.max left_depth right_depth);
            mret (inl (mkSpanned (infix_node op lhs right) (merge (span lhs) (span right)), d))
      end.

Definition parse_bp_inner (min_bp : N) : PM Expr :=
  left ← prefix;
  left_depth ← expr_depth_now;
  result ← loop loop_fuel (infix_step min_bp) (left, left_depth);
  set_expr_depth result.2;;
  mret result.1.
End Expressions.

Fixpoint parse_bp (fuel : nat) (min_bp : N) : PM Expr := fun s =>
  match fuel with
  | O => OutOfFuel
  | S fuel' => nested (parse_bp_inner (parse_bp fuel') min_bp) s
  end.

Definition expr : PM Expr := parse_bp depth_fuel 0.

Definition cell : PM Cell :=
  first ← span_;
  empty ← at_ TEof;
  if empty : bool then error "TM2001" "empty cell is unsupported"
  else
    forms ← loop loop_fuel (fun forms =>
      f ← form (parse_bp depth_fuel) false;
      let forms := f :: forms in
      semi ← took TSemicolon;
      if negb semi then mret (inr forms)
      else
        eof ← at_ TEof;
        if eof : bool then mret (inr forms)
        else
          again ← at_ TSemicolon;
          if again : bool then error "TM2002" "empty cell form is unsupported"
          else mret (inl forms)) [];
    expect TEof;;
    last ← previous_span;
    mret (mkCell (rev forms) (mkSpan (start first) (stop last))).
End Parser.

Definition DEFAULT_MAX_SOURCE_BYTES : N := (256 * 1024)%N.
Definition DEFAULT_MAX_SYNTAX_NODES : N := 100000%N.
Definition DEFAULT_MAX_PARSE_DEPTH : N := 256%N.

Definition initial_parser : Parser := mkParser 0 false 0 0 0.

Section Parse.
Context `{UnicodeTables} `{JsonStr}.

Definition parse_bounded (source : list char) (max_source_bytes max_syntax_nodes max_depth : N)
    : outcome Diagnostic Cell :=
  if (max_source_bytes <? bytes_len source)%N then
    '(c, _) ← raise source "TM2019" "source budget exceeded: {} bytes exceeds {max_source_bytes}"
                (mkSpan 0 (bytes_len source)) tt;
    Ok c
  else
    tokens ← lex_bounded source max_syntax_nodes;
    '(c, _) ← cell source tokens max_depth initial_parser;
    Ok c.

Definition parse (source : list char) : outcome Diagnostic Cell :=
  parse_bounded source DEFAULT_MAX_SOURCE_BYTES DEFAULT_MAX_SYNTAX_NODES DEFAULT_MAX_PARSE_DEPTH.
End Parse.
