(* ===== verification/ParserFacts.v ===== *)
(** * What the parser guarantees

    One weakest-precondition specification per function of the parser: it
    neither panics nor runs out of fuel, consumes tokens, restores [depth],
    leaves in [last_expr_depth] exactly the height of the tree it built, keeps
    that height within [max_depth], and starts every span of the tree at a char
    boundary of the source. *)

From stdpp Require Import base tactics list strings.
From Stdlib Require Import ZArith NArith Lia.
From S2P Require Import Prelude Text Numbers Syntax Lexer LexerFacts Parser.

Lemma max_list_map_rev {A} (f : A -> N) l : max_list (List.map f (rev l)) = max_list (List.map f l).
Proof.
  induction l as [|x l IH]; cbn; [done|]. rewrite List.map_app, max_list_app, IH. cbn.
  fold (max_list (List.map f l)). lia.
Qed.

Lemma all_of_rev {A} (Q : A -> Prop) l : all_of Q (rev l) <-> all_of Q l.
Proof. rewrite !all_of_Forall. split; intros H; [rewrite <- (rev_involutive l)|]; by apply Forall_rev. Qed.

Lemma discriminant_eof t : discriminant t = discriminant TEof -> t = TEof.
Proof. by destruct t. Qed.

Section Facts.
Variable source : list char.
Variable tokens : list SpannedToken.
Variable max_depth : N.

(** What the lexer provides. *)
Record tokens_ok : Prop := {
  tokens_last : exists ts eof, tokens = ts ++ [eof] /\ node eof = TEof;
  tokens_spans : Forall (fun t => boundary source (start (span t))) tokens;
}.

Hypothesis Hok : tokens_ok.
Hypothesis Hmax : (max_depth < usize_max)%N.

Abbreviation X := no_checker_nesting.
Abbreviation P := (fun sp => boundary source (start sp)).
Abbreviation left s := (length tokens - cursor s).

Definition pinv (s : Parser) : Prop := cursor s < length tokens.

(** [s'] is [s] with some tokens consumed and the depth fields unchanged. *)
Definition moved (s s' : Parser) : Prop :=
  pinv s' /\ cursor s <= cursor s' /\ depth s' = depth s
  /\ last_expr_depth s' = last_expr_depth s.

(** [s'] is [s] with at least one token consumed. *)
Definition advanced (s s' : Parser) : Prop :=
  pinv s' /\ cursor s < cursor s' /\ depth s' = depth s.

Lemma moved_refl s : pinv s -> moved s s.
Proof. intros. unfold moved. intuition lia. Qed.

Lemma lookup_pinv s : pinv s -> exists t, tokens !! cursor s = Some t /\ P (span t).
Proof.
  intros Hs. destruct (lookup_lt_is_Some_2 tokens (cursor s) Hs) as [t Ht].
  exists t. split; [done|]. eapply (Forall_lookup_1 _ _ _ _ (tokens_spans Hok) Ht).
Qed.

Lemma wp_current (Q : SpannedToken -> Parser -> Prop) s :
  pinv s -> (forall t, tokens !! cursor s = Some t -> P (span t) -> Q t s) ->
  wp (current tokens) Q X s.
Proof.
  intros Hs HQ. destruct (lookup_pinv s Hs) as (t & Ht & Hp).
  unfold current. wp_steps. rewrite Ht. wp_steps. by apply HQ.
Qed.

Lemma wp_span (Q : Span -> Parser -> Prop) s :
  pinv s -> (forall sp, P sp -> Q sp s) -> wp (span_ tokens) Q X s.
Proof. intros Hs HQ. unfold span_. wp_steps. apply wp_current; [done|]. intros t _ Hp. wp_steps. by apply HQ. Qed.

Lemma wp_previous_span (Q : Span -> Parser -> Prop) s :
  pinv s -> (forall sp, P sp -> Q sp s) -> wp (previous_span tokens) Q X s.
Proof.
  intros Hs HQ. unfold previous_span. wp_steps.
  destruct (lookup_lt_is_Some_2 tokens (Nat.pred (cursor s))) as [t Ht]; [unfold pinv in Hs; lia|].
  rewrite Ht. wp_steps. apply HQ. apply (Forall_lookup_1 _ _ _ _ (tokens_spans Hok) Ht).
Qed.

Lemma wp_error {A} c m (Q : A -> Parser -> Prop) s :
  pinv s -> m <> "checker nesting budget exceeded"%string -> wp (error source tokens c m) Q X s.
Proof.
  intros Hs Hm. unfold error. wp_steps. apply wp_span; [done|]. intros sp Hp. by apply wp_raise.
Qed.

Lemma wp_at token (Q : bool -> Parser -> Prop) s :
  pinv s ->
  (forall t, tokens !! cursor s = Some t -> P (span t) ->
     Q (discriminant (node t) =? discriminant token)%N s) ->
  wp (at_ tokens token) Q X s.
Proof.
  intros Hs HQ. unfold at_. wp_steps. apply wp_current; [done|]. intros t Ht Hp. wp_steps. by apply HQ.
Qed.

Lemma wp_at_bool token (Q : bool -> Parser -> Prop) s :
  pinv s -> (forall b, Q b s) -> wp (at_ tokens token) Q X s.
Proof. intros Hs HQ. apply wp_at; auto. Qed.

(** [bump] stays inside the token list, and moves unless at the end of file. *)
Lemma wp_bump_ (Q : SpannedToken -> Parser -> Prop) s :
  pinv s ->
  (forall t s', tokens !! cursor s = Some t -> P (span t) -> moved s s' ->
     last_form_expr_depth s' = last_form_expr_depth s ->
     (node t <> TEof -> cursor s < cursor s') -> Q t s') ->
  wp (bump_ tokens) Q X s.
Proof.
  intros Hs HQ. unfold bump_. wp_steps. apply wp_current; [done|]. intros t Ht Hp.
  wp_steps. apply wp_at; [done|]. intros t' Ht' _. simplify_eq.
  destruct (discriminant (node t) =? discriminant TEof)%N eqn:Heof; wp_steps.
  - apply N.eqb_eq, discriminant_eof in Heof.
    apply HQ; [done|done|by apply moved_refl|done|done].
  - apply N.eqb_neq in Heof. apply HQ; [done|done| |done|intros _; cbn; lia].
    destruct (tokens_last Hok) as (ts & eof & Hts & He).
    unfold moved, pinv in *. cbn. split_and!; [|lia|done..].
    rewrite Hts, length_app in Hs |- *. cbn in *.
    destruct (decide (cursor s = length ts)) as [Hc|]; [|lia].
    exfalso. apply Heof. rewrite Hts, Hc, list_lookup_middle in Ht by done.
    injection Ht as <-. by rewrite He.
Qed.

Lemma wp_take token (Q : option Span -> Parser -> Prop) s :
  pinv s ->
  (Q None s) ->
  (forall (t : SpannedToken) s', P (span t) -> moved s s' ->
     last_form_expr_depth s' = last_form_expr_depth s ->
     (token <> TEof -> cursor s < cursor s') -> Q (Some (span t)) s') ->
  wp (take_ tokens token) Q X s.
Proof.
  intros Hs Hn Hsome. unfold take_. wp_steps. apply wp_at; [done|]. intros t Ht Hp.
  destruct (_ =? _)%N eqn:E; [|by wp_steps].
  apply N.eqb_eq in E. wp_steps. apply wp_bump_; [done|].
  intros t' s' Ht' Hp' Hm Hf Hlt. wp_steps. simplify_eq.
  apply Hsome; [done..|]. intros Hne. apply Hlt. intros He. rewrite He in E.
  by apply Hne, discriminant_eof.
Qed.

Lemma wp_took token (Q : bool -> Parser -> Prop) s :
  pinv s -> token <> TEof ->
  Q false s ->
  (forall s', moved s s' -> cursor s < cursor s' ->
     last_form_expr_depth s' = last_form_expr_depth s -> Q true s') ->
  wp (took tokens token) Q X s.
Proof.
  intros Hs Hne Hf Ht. unfold took. wp_steps. apply wp_take; [done|by wp_steps|].
  intros t s' _ Hm Hfd Hlt. wp_steps. by apply Ht; auto.
Qed.

Lemma wp_expect token (Q : Span -> Parser -> Prop) s :
  pinv s ->
  (forall sp s', moved s s' -> (token <> TEof -> cursor s < cursor s') ->
     last_form_expr_depth s' = last_form_expr_depth s -> Q sp s') ->
  wp (expect source tokens token) Q X s.
Proof.
  intros Hs HQ. unfold expect. wp_steps. apply wp_take; [done|by apply wp_error|].
  intros t s' _ Hm Hf Hlt. wp_steps. by apply HQ.
Qed.

Lemma wp_keyword word (Q : bool -> Parser -> Prop) s :
  pinv s ->
  (forall b, (b = true -> exists t, tokens !! cursor s = Some t /\ node t = TIdent word) -> Q b s) ->
  wp (keyword tokens word) Q X s.
Proof.
  intros Hs HQ. unfold keyword. wp_steps. apply wp_current; [done|]. intros t Ht _. wp_steps.
  apply HQ. destruct (node t) eqn:E; try done.
  intros ->%String.eqb_eq. eauto.
Qed.

Lemma wp_upper_is word (Q : bool -> Parser -> Prop) s :
  pinv s ->
  (forall b, (b = true -> exists t, tokens !! cursor s = Some t /\ node t = TUpper word) -> Q b s) ->
  wp (upper_is tokens word) Q X s.
Proof.
  intros Hs HQ. unfold upper_is. wp_steps. apply wp_current; [done|]. intros t Ht _. wp_steps.
  apply HQ. destruct (node t) eqn:E; try done.
  intros ->%String.eqb_eq. eauto.
Qed.

Lemma wp_expect_keyword word (Q : unit -> Parser -> Prop) s :
  pinv s -> (forall s', moved s s' -> cursor s < cursor s' -> Q tt s') ->
  wp (expect_keyword source tokens word) Q X s.
Proof.
  intros Hs HQ. unfold expect_keyword. wp_steps. apply wp_keyword; [done|].
  intros [|] Hb; [|by apply wp_error]. destruct Hb as (t & Ht & Hn); [done|].
  wp_steps. apply wp_bump_; [done|]. intros t' s' Ht' _ Hm _ Hlt. wp_steps.
  simplify_eq. apply HQ; [done|]. apply Hlt. congruence.
Qed.

Lemma wp_lower_name (Q : string -> Parser -> Prop) s :
  pinv s ->
  (forall n s', moved s s' -> cursor s < cursor s' ->
     last_form_expr_depth s' = last_form_expr_depth s -> Q n s') ->
  wp (lower_name source tokens) Q X s.
Proof.
  intros Hs HQ. unfold lower_name. wp_steps. apply wp_bump_; [done|].
  intros t s' _ _ Hm Hf Hlt. destruct (node t) eqn:E; try (apply wp_error; [apply Hm|done]).
  wp_steps. apply HQ; [done|by apply Hlt|done].
Qed.

Lemma wp_upper_name (Q : string -> Parser -> Prop) s :
  pinv s -> (forall n s', moved s s' -> cursor s < cursor s' -> Q n s') ->
  wp (upper_name source tokens) Q X s.
Proof.
  intros Hs HQ. unfold upper_name. wp_steps. apply wp_bump_; [done|].
  intros t s' _ _ Hm Hf Hlt. destruct (node t) eqn:E; try (apply wp_error; [apply Hm|done]).
  wp_steps. apply HQ; [done|by apply Hlt].
Qed.

Lemma wp_parent d (Q : N -> Parser -> Prop) s :
  pinv s -> ((d + 1 <= max_depth)%N -> Q (d + 1)%N s) ->
  wp (parent_expr_depth source tokens max_depth d) Q X s.
Proof.
  intros Hs HQ. unfold parent_expr_depth, saturating_add.
  destruct (N.ltb_spec max_depth (N.min (d + 1) usize_max)); [by apply wp_error|].
  wp_steps. rewrite N.min_l in * by lia. by apply HQ.
Qed.

Lemma wp_close_expr d (Q : unit -> Parser -> Prop) s :
  pinv s ->
  (forall s', pinv s' -> cursor s' = cursor s -> depth s' = depth s ->
     last_expr_depth s' = (d + 1)%N -> (d + 1 <= max_depth)%N -> Q tt s') ->
  wp (close_expr source tokens max_depth d) Q X s.
Proof.
  intros Hs HQ. unfold close_expr, set_expr_depth. wp_steps. apply wp_parent; [done|].
  intros Hd. wp_steps. by apply HQ.
Qed.

(** The depth guard: inside, [depth] is one higher and at most [max_depth]. *)
Lemma wp_nested {A} (inner : PM A) (Q : A -> Parser -> Prop) s :
  pinv s ->
  ((depth s < max_depth)%N ->
   wp inner (fun a s' => depth s' = (depth s + 1)%N /\ Q a (set_depth (depth s) s')) X
      (set_depth (depth s + 1) s)) ->
  wp (nested source tokens max_depth inner) Q X s.
Proof.
  intros Hs Hin. unfold nested. wp_steps.
  destruct (N.leb_spec max_depth (depth s)); [by apply wp_error|]. wp_steps.
  eapply wp_mono; [by apply Hin| |done]. intros a s' [Hd HQ]. wp_steps.
  rewrite Hd. by replace (depth s + 1 - 1)%N with (depth s) by lia.
Qed.

Lemma moved_trans s1 s2 s3 : moved s1 s2 -> moved s2 s3 -> moved s1 s3.
Proof. unfold moved. intuition (try lia); congruence. Qed.

(** Arithmetic on cursors and depths. *)
Ltac plia :=
  unfold advanced, moved, pinv in *; destruct_and?; cbn [cursor depth set_depth set_cursor
    set_stop set_last_expr_depth set_last_form_expr_depth last_expr_depth last_form_expr_depth] in *;
  split_and?; solve [done | lia].

(** ** Loops *)

Lemma wp_comma_separated {A} (item : list A -> PM (list A)) (I : list A -> Prop) Q acc s :
  pinv s -> I acc ->
  (forall acc s1, I acc -> pinv s1 -> cursor s <= cursor s1 -> depth s1 = depth s ->
     wp (item acc) (fun acc' s' => I acc' /\ advanced s1 s') X s1) ->
  (forall acc' s', I acc' -> advanced s s' -> Q acc' s') ->
  wp (comma_separated tokens item acc) Q X s.
Proof.
  intros Hs HI Hitem HQ. unfold comma_separated.
  eapply (wp_loop (fun a s1 => I a /\ pinv s1 /\ cursor s <= cursor s1 /\ depth s1 = depth s)
            (fun _ s1 => left s1)).
  - intros a s1 (Ha & H1 & H2 & H3). wp_steps.
    eapply wp_mono; [by apply Hitem| |done]. intros a' s2 [Ha' Hadv]. wp_steps.
    apply wp_took; [plia|done|wp_steps; apply HQ; [done|plia]|].
    intros s3 Hm Hlt _. wp_steps. split_and!; [done|plia..].
  - split_and!; [done..|lia|done].
  - unfold loop_fuel. lia.
Qed.

Lemma wp_until_token {A} stop_at (item : PM A) (R : A -> Prop) Q s :
  pinv s ->
  (forall s1, pinv s1 -> cursor s <= cursor s1 -> depth s1 = depth s ->
     wp item (fun x s' => R x /\ advanced s1 s') X s1) ->
  (forall l s', Forall R l -> pinv s' -> cursor s <= cursor s' -> depth s' = depth s -> Q l s') ->
  wp (until_token tokens stop_at item) Q X s.
Proof.
  intros Hs Hitem HQ. unfold until_token. wp_steps.
  eapply (wp_loop (fun a s1 => Forall R a /\ pinv s1 /\ cursor s <= cursor s1 /\ depth s1 = depth s)
            (fun _ s1 => left s1)).
  - intros a s1 (Ha & H1 & H2 & H3). wp_steps. apply wp_at_bool; [done|]. intros [|]; wp_steps.
    + apply HQ; [by apply Forall_rev|done..].
    + eapply wp_mono; [by apply Hitem| |done]. intros x s2 [Hx Hadv]. wp_steps.
      split_and!; [by constructor|plia..].
  - split_and!; [constructor|done|lia|done].
  - unfold loop_fuel. lia.
Qed.

(** Enough recursion fuel for the remaining depth. *)
Definition fits (fuel : nat) (s : Parser) : Prop := N.to_nat (max_depth - depth s) < fuel.

Lemma fits_depth_fuel s : fits (depth_fuel max_depth) s.
Proof. unfold fits, depth_fuel. lia. Qed.

(** ** Types *)

Lemma wp_type_atom rec s :
  pinv s ->
  (forall s1, pinv s1 -> depth s1 = depth s -> wp rec (fun _ s' => advanced s1 s') X s1) ->
  wp (type_atom source tokens rec) (fun _ s' => advanced s s') X s.
Proof.
  intros Hs Hrec. unfold type_atom. wp_steps. apply wp_took; [done..| |].
  - wp_steps. apply wp_bump_; [done|]. intros t s' _ _ Hm _ Hlt.
    destruct (node t) eqn:E; try (apply wp_error; [plia|done]); wp_steps; specialize (Hlt ltac:(done)); plia.
  - intros s1 Hm Hlt _. wp_steps. eapply wp_mono; [apply Hrec; plia| |done].
    intros a s2 Hadv. wp_steps. apply wp_expect; [plia|]. intros sp s3 Hm3 Hlt3 _. wp_steps.
    specialize (Hlt3 ltac:(done)). plia.
Qed.

(** Skipping a keyword token before a type atom. *)
Lemma wp_keyword_type_atom rec (k : TypeTerm -> TypeTerm) s :
  pinv s ->
  (forall s1, pinv s1 -> depth s1 = depth s -> wp rec (fun _ s' => advanced s1 s') X s1) ->
  wp (bump_ tokens;; term ← type_atom source tokens rec; mret (k term))
     (fun _ s' => advanced s s') X s.
Proof.
  intros Hs Hrec. wp_steps. apply wp_bump_; [done|]. intros t s1 _ _ Hm _ Hlt.
  wp_steps. eapply wp_mono; [apply wp_type_atom; [plia|]| |done].
  - intros s2 H2 Hd2. apply Hrec; plia.
  - intros a s2 Hadv. wp_steps. plia.
Qed.

Lemma wp_type_term_inner rec s :
  pinv s ->
  (forall s1, pinv s1 -> depth s1 = depth s -> wp rec (fun _ s' => advanced s1 s') X s1) ->
  wp (type_term_inner source tokens rec) (fun _ s' => advanced s s') X s.
Proof.
  intros Hs Hrec. unfold type_term_inner. wp_steps. apply wp_keyword; [done|]. intros b1 _.
  wp_steps. apply wp_upper_is; [done|]. intros b2 _.
  destruct (b1 || b2); [by apply wp_keyword_type_atom|].
  wp_steps. apply wp_keyword; [done|]. intros b3 _. wp_steps. apply wp_upper_is; [done|]. intros b4 _.
  destruct (b3 || b4); [by apply wp_keyword_type_atom|by apply wp_type_atom].
Qed.

Lemma wp_type_term fuel s :
  pinv s -> fits fuel s ->
  wp (type_term source tokens max_depth fuel) (fun _ s' => advanced s s') X s.
Proof.
  revert s. induction fuel as [|fuel IH]; intros s Hs Hf; [unfold fits in Hf; lia|].
  change (wp (nested source tokens max_depth
    (type_term_inner source tokens (type_term source tokens max_depth fuel)))
    (fun _ s' => advanced s s') X s).
  apply wp_nested; [done|]. intros Hd.
  eapply wp_mono; [apply wp_type_term_inner; [plia|]| |done].
  - intros s1 H1 Hd1. apply IH; [done|]. unfold fits in *. cbn in Hd1. lia.
  - intros a s' Hadv. plia.
Qed.

(** A closing delimiter at the end of a construct. *)
Ltac expect_last :=
  apply wp_expect; [plia|]; intros ? ? ? ? _; wp_steps; plia.

Lemma wp_schema_fields s :
  pinv s -> wp (schema_fields source tokens max_depth) (fun _ s' => advanced s s') X s.
Proof.
  intros Hs. unfold schema_fields. wp_steps. apply wp_expect; [done|]. intros sp s1 Hm1 Hlt1 _.
  specialize (Hlt1 ltac:(done)). wp_steps. apply wp_at_bool; [plia|].
  intros [|]; wp_steps; [by expect_last|].
  apply (wp_comma_separated _ (fun _ => True)); [plia|done| |intros; wp_steps; by expect_last].
  intros acc s2 _ H2 Hc2 Hd2. wp_steps. apply wp_lower_name; [done|]. intros n s3 Hm3 Hlt3 _.
  wp_steps. apply wp_expect; [plia|]. intros sp' s4 Hm4 Hlt4 _. wp_steps.
  eapply wp_mono; [apply wp_type_term; [plia|apply fits_depth_fuel]| |done].
  intros t s5 Hadv. wp_steps. plia.
Qed.

(** The separator that decides whether a loop goes on. *)
Ltac continue_or_stop :=
  apply wp_took; [plia|done|wp_steps; plia|]; intros ? ? ? _; wp_steps; plia.

Lemma wp_type_decl s :
  pinv s -> wp (type_decl source tokens max_depth) (fun _ s' => advanced s s') X s.
Proof.
  intros Hs. unfold type_decl. wp_steps. apply wp_expect_keyword; [done|]. intros s1 Hm1 Hlt1.
  wp_steps. apply wp_upper_name; [plia|]. intros n s2 Hm2 _.
  wp_steps. apply wp_expect; [plia|]. intros sp s3 Hm3 _ _.
  wp_steps. apply wp_expect; [plia|]. intros sp' s4 Hm4 _ _.
  wp_steps.
  eapply (wp_loop (fun _ s' => advanced s s') (fun _ s' => left s')); [|plia|unfold loop_fuel; lia].
  intros acc s5 Hadv. wp_steps. apply wp_upper_name; [plia|]. intros v s6 Hm6 Hlt6.
  wp_steps. apply wp_at_bool; [plia|].
  intros [|]; wp_steps.
  - eapply wp_mono; [apply wp_schema_fields; plia| |done]. intros f s7 Hadv7. wp_steps.
    by continue_or_stop.
  - unfold starts_type_term. wp_steps. apply wp_current; [plia|]. intros t _ _. wp_steps.
    match goal with |- wp (if ?b then _ else _) _ _ _ => destruct b end; wp_steps.
    + eapply wp_mono; [apply wp_type_term; [plia|apply fits_depth_fuel]| |done].
      intros f s7 Hadv7. wp_steps. by continue_or_stop.
    + by continue_or_stop.
Qed.

(** ** Patterns *)

Definition pattern_post (s : Parser) (p : Pattern) (s' : Parser) : Prop :=
  advanced s s' /\ pattern_spans P p.

Abbreviation field_spans := (fun f : string * Pattern => pattern_spans P f.2).

Section PatternBodies.
Variables (pattern_rec pattern_atom_rec : PM Pattern) (d : N).
Hypothesis Hpat : forall s, pinv s -> depth s = d -> wp pattern_rec (pattern_post s) X s.
Hypothesis Hatom : forall s, pinv s -> depth s = d -> wp pattern_atom_rec (pattern_post s) X s.

Lemma wp_pattern_inner s :
  pinv s -> depth s = d ->
  wp (pattern_inner tokens pattern_rec pattern_atom_rec) (pattern_post s) X s.
Proof.
  intros Hs Hd. unfold pattern_inner. wp_steps. eapply wp_mono; [by apply Hatom| |done].
  intros l s1 [Hadv1 Hl]. wp_steps. apply wp_took; [plia|done|wp_steps; split; [plia|done]|].
  intros s2 Hm2 Hlt2 _. wp_steps. eapply wp_mono; [apply Hpat; plia| |done].
  intros r s3 [Hadv3 Hr]. wp_steps. split; [plia|]. split; [apply Hl|]. by split.
Qed.

Lemma wp_record_pattern_step fields s :
  pinv s -> depth s = d -> Forall field_spans fields ->
  wp (record_pattern_step source tokens pattern_rec fields) (fun r s' =>
    match r with
    | inl fields' => Forall field_spans fields' /\ advanced s s'
    | inr (fields', _) => Forall field_spans fields' /\ pinv s' /\ cursor s <= cursor s' /\ depth s' = d
    end) X s.
Proof.
  intros Hs Hd HF. unfold record_pattern_step. wp_steps.
  apply wp_took; [done..| |]; [|intros s1 Hm1 Hlt1 _; wp_steps; split_and!; [done|plia..]].
  wp_steps. apply wp_lower_name; [done|]. intros n s1 Hm1 Hlt1 _.
  assert (Hrest : forall v s2, pattern_spans P v -> advanced s s2 ->
    wp (more ← took tokens TComma;
        if negb more then mret (inr ((n, v) :: fields, false))
        else dots ← took tokens TEllipsis;
             mret (if dots : bool then inr ((n, v) :: fields, true) else inl ((n, v) :: fields)))
      (fun r s' =>
        match r with
        | inl fields' => Forall field_spans fields' /\ advanced s s'
        | inr (fields', _) => Forall field_spans fields' /\ pinv s' /\ cursor s <= cursor s' /\ depth s' = d
        end) X s2).
  { intros v s2 Hv Hadv2. assert (Forall field_spans ((n, v) :: fields)) by by constructor.
    apply wp_bind, wp_took; [plia|done|wp_steps; split_and!; [done|plia..]|].
    intros s3 Hm3 Hlt3 _. cbn [negb]. wp_steps.
    apply wp_took; [plia|done|wp_steps; split; [done|plia]|].
    intros s4 Hm4 Hlt4 _. wp_steps. split_and!; [done|plia..]. }
  apply wp_bind, wp_took; [plia|done| |].
  - apply wp_bind, wp_bind, wp_previous_span; [plia|]. intros sp Hsp. apply wp_ret, Hrest; [by split|plia].
  - intros s2 Hm2 Hlt2 _. apply wp_bind. eapply wp_mono; [apply Hpat; plia| |done].
    intros v s3 [Hadv3 Hv]. apply Hrest; [done|plia].
Qed.

Lemma wp_finish_pattern close (t : SpannedToken) k s s1 :
  advanced s s1 -> P (span t) -> pattern_kind_spans P k ->
  wp (expect source tokens close;; sp ← previous_span tokens; mret (mkSpanned k (merge (span t) sp)))
    (pattern_post s) X s1.
Proof.
  intros Hadv Ht Hk. wp_step. apply wp_expect; [plia|]. intros _ s2 Hm2 _ _. wp_step.
  apply wp_previous_span; [plia|]. intros sp Hsp. wp_step. split; [plia|by split].
Qed.

Lemma wp_pattern_atom_inner s :
  pinv s -> depth s = d ->
  wp (pattern_atom_inner source tokens pattern_rec pattern_atom_rec) (pattern_post s) X s.
Proof.
  intros Hs Hd. unfold pattern_atom_inner. wp_step. apply wp_bump_; [done|].
  intros t s1 _ Hp Hm1 _ Hlt1.
  destruct (node t) eqn:E; try (by apply wp_raise); specialize (Hlt1 ltac:(done)).
  - wp_step. split; [plia|]. split; [done|]. cbn [node]. by repeat case_match.
  - unfold starts_pattern. wp_steps. apply wp_current; [plia|]. intros t' _ _. wp_steps.
    match goal with |- wp (if ?b then _ else _) _ _ _ => destruct b end; wp_steps.
    + eapply wp_mono; [apply Hatom; plia| |done]. intros q s2 [Hadv2 Hq]. wp_steps.
      split; [plia|]. by split.
    + split; [plia|]. by split.
  - wp_step. split; [plia|by split].
  - wp_step. split; [plia|by split].
  - wp_step. eapply wp_mono; [apply Hpat; plia| |done]. intros v s2 [Hadv2 [_ Hv]].
    by apply wp_finish_pattern; [plia|..].
  - wp_step. apply wp_at_bool; [plia|]. intros [|]; wp_step.
    + by apply wp_ret, wp_finish_pattern; [plia|..].
    + eapply (wp_loop (fun fs s2 => Forall field_spans fs /\ advanced s s2) (fun _ s2 => left s2)).
      * intros fs s2 [HF Hadv2]. eapply wp_mono; [apply wp_record_pattern_step; [plia|plia|done]| |done].
        intros [fs'|[fs' b]] s3; cbn; [intros []; split_and!; [done|plia..]|].
        intros (HF' & Hpost). apply wp_finish_pattern; [plia|done|].
        cbn. by apply all_of_rev, all_of_Forall.
      * split; [constructor|plia].
      * unfold loop_fuel. lia.
  - wp_step. apply wp_at_bool; [plia|]. intros [|]; wp_step.
    + by apply wp_ret, wp_finish_pattern; [plia|..].
    + apply (wp_comma_separated _ (Forall (pattern_spans P))); [plia|constructor|..].
      * intros ps s2 HF H2 Hc2 Hd2. wp_step. eapply wp_mono; [apply Hpat; plia| |done].
        intros q s3 [Hadv3 Hq]. wp_step. split; [by constructor|plia].
      * intros ps s2 HF Hadv2. apply wp_finish_pattern; [plia|done|].
        cbn. by apply all_of_rev, all_of_Forall.
Qed.
End PatternBodies.

Lemma wp_patterns fuel :
  (forall s, pinv s -> fits fuel s ->
     wp (pattern source tokens max_depth fuel) (pattern_post s) X s)
  /\ (forall s, pinv s -> fits fuel s ->
     wp (pattern_atom source tokens max_depth fuel) (pattern_post s) X s).
Proof.
  induction fuel as [|fuel [IHp IHa]]; [split; intros s Hs Hf; unfold fits in Hf; lia|].
  assert (Hguard : forall inner s, pinv s -> fits (S fuel) s ->
    ((forall s1, pinv s1 -> depth s1 = (depth s + 1)%N ->
        wp (pattern source tokens max_depth fuel) (pattern_post s1) X s1) ->
     (forall s1, pinv s1 -> depth s1 = (depth s + 1)%N ->
        wp (pattern_atom source tokens max_depth fuel) (pattern_post s1) X s1) ->
     wp inner (pattern_post (set_depth (depth s + 1) s)) X (set_depth (depth s + 1) s)) ->
    wp (nested source tokens max_depth inner) (pattern_post s) X s).
  { intros inner s Hs Hf Hin. apply wp_nested; [done|]. intros Hd.
    eapply wp_mono; [apply Hin| |done].
    - intros s1 H1 Hd1. apply IHp; [done|]. unfold fits in *. lia.
    - intros s1 H1 Hd1. apply IHa; [done|]. unfold fits in *. lia.
    - intros p s' [Hadv Hp]. split; [plia|]. split; [plia|done]. }
  split; intros s Hs Hf.
  - apply (Hguard (pattern_inner _ _ _) s Hs Hf). intros H1 H2.
    by apply (wp_pattern_inner _ _ (depth s + 1)%N).
  - apply (Hguard (pattern_atom_inner _ _ _ _) s Hs Hf). intros H1 H2.
    by apply (wp_pattern_atom_inner _ _ (depth s + 1)%N).
Qed.

Lemma wp_pattern s : pinv s -> wp (pattern_ source tokens max_depth) (pattern_post s) X s.
Proof. intros Hs. apply wp_patterns; [done|apply fits_depth_fuel]. Qed.

(** ** Expressions and forms *)

Definition expr_post (s : Parser) (e : Expr) (s' : Parser) : Prop :=
  advanced s s' /\ last_expr_depth s' = expr_height e /\ (expr_height e <= max_depth)%N
  /\ expr_spans P e.

Definition form_post (s : Parser) (f : Form) (s' : Parser) : Prop :=
  advanced s s' /\ last_form_expr_depth s' = form_height f /\ (form_height f <= max_depth)%N
  /\ form_spans P f.

Section ExprBodies.
Variables (parse_bp_rec : N -> PM Expr) (d : N).
Hypothesis Hrec : forall bp s, pinv s -> depth s = d -> wp (parse_bp_rec bp) (expr_post s) X s.

Lemma wp_expr_rec (Q : Expr -> Parser -> Prop) s :
  pinv s -> depth s = d ->
  (forall e s', advanced s s' -> last_expr_depth s' = expr_height e ->
     (expr_height e <= max_depth)%N -> expr_spans P e -> Q e s') ->
  wp (expr_rec parse_bp_rec) Q X s.
Proof.
  intros Hs Hd HQ. eapply wp_mono; [by apply Hrec| |done]. intros e s' (? & ? & ? & ?). by apply HQ.
Qed.

(** The end of a composite expression: the height budget, then the span. *)
Lemma wp_finish_expr child (k : ExprKind) sp s s1 :
  advanced s s1 -> kind_height k = (child + 1)%N -> kind_spans P k -> P sp ->
  wp (close_expr source tokens max_depth child;; mret (mkSpanned k sp)) (expr_post s) X s1.
Proof.
  intros Hadv Hh Hk Hsp. wp_step. apply wp_close_expr; [plia|]. intros s2 H2 Hc2 Hd2 Hl2 Hle.
  wp_step. unfold expr_post, expr_height. cbn [node]. rewrite Hh. split_and!; [plia|done|done|by split].
Qed.

(** The same, with the span closed by the previous token. *)
Lemma wp_finish_expr_prev child (k : ExprKind) (first : N) s s1 :
  advanced s s1 -> kind_height k = (child + 1)%N -> kind_spans P k -> boundary source first ->
  wp (close_expr source tokens max_depth child;; last ← previous_span tokens;
      mret (mkSpanned k (mkSpan first (stop last)))) (expr_post s) X s1.
Proof.
  intros Hadv Hh Hk Hsp. wp_step. apply wp_close_expr; [plia|]. intros s2 H2 Hc2 Hd2 Hl2 Hle.
  wp_step. apply wp_previous_span; [done|]. intros sp _. wp_step.
  unfold expr_post, expr_height. cbn [node]. rewrite Hh. split_and!; [plia|done|done|by split].
Qed.

Lemma wp_finish_form (in_block : bool) (k : FormKind) dp (first : Span) s s1 :
  advanced s s1 -> dp = form_kind_height k -> (dp <= max_depth)%N -> form_kind_spans P k -> P first ->
  wp (semi ← at_ tokens TSemicolon; eof ← at_ tokens TEof;
      if negb in_block && negb semi && negb eof then
        error source tokens "TM2004" "top-level forms must be separated by `;`"
      else
        modify (set_last_form_expr_depth (k, dp).2);;
        last ← previous_span tokens;
        mret (mkSpanned (k, dp).1 (mkSpan (start first) (stop last)))) (form_post s) X s1.
Proof.
  intros Hadv -> Hle Hk Hf. wp_step. apply wp_at_bool; [plia|]. intros b1.
  wp_step. apply wp_at_bool; [plia|]. intros b2. case_match; [apply wp_error; [plia|done]|].
  wp_steps. apply wp_previous_span; [plia|]. intros sp Hsp. wp_step.
  unfold form_post, form_height. cbn. split_and!; [plia|done|done|by split].
Qed.

Lemma wp_form in_block s :
  pinv s -> depth s = d -> wp (form source tokens max_depth parse_bp_rec in_block) (form_post s) X s.
Proof.
  intros Hs Hd. unfold form. wp_step. apply wp_span; [done|]. intros first Hfirst.
  wp_step. apply wp_keyword; [done|]. intros is_type _.
  wp_step. apply wp_keyword; [done|]. intros is_let Hlet.
  wp_step. apply wp_keyword; [done|]. intros is_fun _.
  wp_step. unfold peek_is_named_function. wp_steps.
  destruct is_type.
  { wp_step. eapply wp_mono; [by apply wp_type_decl| |done]. intros decl s1 Hadv1. wp_step.
    by apply (wp_finish_form _ (FType decl)); [..|lia| |]. }
  destruct is_let.
  { wp_step. apply wp_bump_; [done|]. intros t s1 _ _ Hm1 _ _.
    wp_step. eapply wp_mono; [apply wp_pattern; plia| |done]. intros p s2 [Hadv2 Hp].
    wp_step. apply wp_expect; [plia|]. intros _ s3 Hm3 _ _.
    wp_step. apply wp_expr_rec; [plia..|]. intros e s4 Hadv4 Hl4 Hle4 He.
    unfold expr_depth_now. do 3 wp_step. rewrite Hl4. by apply (wp_finish_form _ (FLet p e)); [plia|..]. }
  destruct (is_fun && _).
  { wp_step. apply wp_bump_; [done|]. intros t s1 _ _ Hm1 _ _.
    wp_step. apply wp_lower_name; [plia|]. intros n s2 Hm2 Hlt2 _.
    wp_step. apply (wp_until_token _ _ (pattern_spans P)); [plia| |].
    { intros s3 H3 Hc3 Hd3. eapply wp_mono; [by apply wp_pattern| |done]. intros p s4 []; done. }
    intros ps s3 Hps H3 Hc3 Hd3. case_bool_decide; [by apply wp_error|].
    wp_step. apply wp_bump_; [done|]. intros t' s4 _ _ Hm4 _ _.
    wp_step. apply wp_expr_rec; [plia..|]. intros e s5 Hadv5 Hl5 Hle5 He.
    unfold expr_depth_now. do 3 wp_step. rewrite Hl5.
    apply (wp_finish_form _ (FFun n ps e)); [plia|done|done| |done].
    split; [by apply all_of_Forall|done]. }
  wp_step. apply wp_expr_rec; [done..|]. intros e s1 Hadv1 Hl1 Hle1 He.
  unfold expr_depth_now. do 3 wp_step. rewrite Hl1. by apply (wp_finish_form _ (FExpr e)).
Qed.

Lemma wp_if_expr s :
  pinv s -> depth s = d -> wp (if_expr source tokens max_depth parse_bp_rec) (expr_post s) X s.
Proof.
  intros Hs Hd. unfold if_expr, expr_depth_now. wp_step. apply wp_bump_; [done|].
  intros t s1 _ Ht Hm1 _ _.
  wp_step. apply wp_expr_rec; [plia..|]. intros c s2 Hadv2 Hl2 Hle2 Hc. wp_step. wp_step.
  wp_step. apply wp_expect_keyword; [plia|]. intros s3 Hm3 _.
  wp_step. apply wp_expr_rec; [plia..|]. intros e1 s4 Hadv4 Hl4 Hle4 He1. wp_step. wp_step.
  wp_step. apply wp_expect_keyword; [plia|]. intros s5 Hm5 _.
  wp_step. apply wp_expr_rec; [plia..|]. intros e2 s6 Hadv6 Hl6 Hle6 He2. wp_step. wp_step.
  rewrite Hl2, Hl4, Hl6. apply wp_finish_expr; [plia|done|exact (conj Hc (conj He1 He2))|done].
Qed.

Lemma wp_match_expr handle s :
  pinv s -> depth s = d -> wp (match_expr source tokens max_depth parse_bp_rec handle) (expr_post s) X s.
Proof.
  intros Hs Hd. unfold match_expr, expr_depth_now. wp_step. apply wp_bump_; [done|].
  intros t s1 _ Ht Hm1 _ _. wp_steps.
  apply wp_expr_rec; [plia..|]. intros v s2 Hadv2 Hl2 Hle2 Hv. wp_step. wp_step. wp_step. wp_step. wp_step.
  apply (wp_mono _ (fun _ s' => advanced s s') _ X); [| |done].
  { destruct handle; [|wp_steps; plia]. wp_step. apply wp_expect_keyword; [plia|].
    intros s3 Hm3 _. apply wp_expect_keyword; [plia|]. intros s4 Hm4 _. plia. }
  intros _ s3 Hadv3. wp_step. apply wp_expect; [plia|]. intros _ s4 Hm4 _ _. wp_step.
  eapply (wp_loop (fun '(arms, cd) s' => Forall (arm_spans P) arms /\ advanced s s'
             /\ cd = N.max (expr_height v) (max_list (List.map arm_height arms)))
            (fun _ s' => left s')); [| |unfold loop_fuel; lia].
  - intros [arms cd] s5 (HF & Hadv5 & Hcd). wp_step. apply wp_at_bool; [plia|].
    intros [|].
    + wp_step. wp_step. apply wp_expect; [plia|]. intros _ s6 Hm6 _ _. cbn [fst snd].
      case_bool_decide; [apply wp_error; [plia|done]|]. wp_step. apply wp_previous_span; [plia|].
      intros sp _. apply wp_finish_expr; [plia| | |done].
      * rewrite Hcd. destruct handle; cbn; by rewrite max_list_map_rev.
      * assert (all_of (arm_spans P) (rev arms)) by by apply all_of_rev, all_of_Forall.
        by destruct handle.
    + wp_step. apply wp_expect; [plia|]. intros _ s6 Hm6 _ _.
      wp_step. eapply wp_mono; [apply wp_pattern; plia| |done]. intros p s7 [Hadv7 Hp].
      wp_step. apply wp_expect; [plia|]. intros _ s8 Hm8 _ _.
      wp_step. apply wp_expr_rec; [plia..|]. intros a s9 Hadv9 Hl9 Hle9 Ha. wp_steps.
      split; [|plia]. split_and!; [by constructor|plia|]. cbn.
      fold (max_list (List.map arm_height arms)). rewrite Hcd, Hl9. unfold expr_height. lia.
  - split_and!; [constructor|plia|]. cbn. rewrite Hl2. lia.
Qed.

Lemma wp_block s :
  pinv s -> depth s = d -> wp (block source tokens max_depth parse_bp_rec) (expr_post s) X s.
Proof.
  intros Hs Hd. unfold block. wp_step. apply wp_bump_; [done|]. intros t s1 _ Ht Hm1 _ _.
  wp_step. apply wp_expect; [plia|]. intros _ s2 Hm2 Hlt2 _. specialize (Hlt2 ltac:(done)).
  wp_step. apply wp_at_bool; [plia|].
  assert (Hend : forall fs cd s3, Forall (form_spans P) fs -> advanced s s3 ->
    cd = max_list (List.map form_height fs) ->
    wp (expect source tokens TRBrace;;
        if bool_decide (length (fs, cd).1 = 0)
        then error source tokens "TM2008" "do block cannot be empty"
        else close_expr source tokens max_depth (fs, cd).2;;
             last ← previous_span tokens;
             mret (mkSpanned (EBlock (rev (fs, cd).1)) (merge (span t) last)))
       (expr_post s) X s3).
  { intros fs cd s3 HF Hadv3 ->. wp_step. apply wp_expect; [plia|]. intros _ s4 Hm4 _ _.
    case_bool_decide; [apply wp_error; [plia|done]|]. apply wp_finish_expr_prev; [plia| | |done].
    - cbn. by rewrite max_list_map_rev.
    - cbn. by apply all_of_rev, all_of_Forall. }
  intros [|]; wp_step; [apply wp_ret; apply Hend; [constructor|plia|done]|].
  eapply (wp_loop (fun '(fs, cd) s' => Forall (form_spans P) fs /\ advanced s s'
             /\ cd = max_list (List.map form_height fs)) (fun _ s' => left s'));
    [|split_and!; [constructor|plia|done]|unfold loop_fuel; lia].
  intros [fs cd] s3 (HF & Hadv3 & Hcd). wp_step. eapply wp_mono; [apply wp_form; plia| |done].
  intros f s4 (Hadv4 & Hl4 & Hle4 & Hf). wp_step. wp_step.
  assert (Hcd' : N.max cd (last_form_expr_depth s4) = max_list (List.map form_height (f :: fs))).
  { cbn. fold (max_list (List.map form_height fs)). rewrite Hcd, Hl4. lia. }
  wp_step. apply wp_took; [plia|done|cbn [negb]; wp_step; apply Hend; [by constructor|plia|done]|].
  intros s5 Hm5 Hlt5 _. cbn [negb]. wp_step. apply wp_at_bool; [plia|]. intros [|]; wp_step.
  - apply Hend; [by constructor|plia|done].
  - split; [|plia]. split_and!; [by constructor|plia|done].
Qed.

Lemma wp_lambda s :
  pinv s -> depth s = d -> wp (lambda source tokens max_depth parse_bp_rec) (expr_post s) X s.
Proof.
  intros Hs Hd. unfold lambda, expr_depth_now. wp_step. apply wp_bump_; [done|].
  intros t s1 _ Ht Hm1 _ _.
  wp_step. apply (wp_until_token _ _ (pattern_spans P)); [plia| |].
  { intros s2 H2 Hc2 Hd2. eapply wp_mono; [by apply wp_pattern| |done]. intros p s3 []; done. }
  intros ps s2 Hps H2 Hc2 Hd2. case_bool_decide; [by apply wp_error|].
  wp_step. apply wp_bump_; [done|]. intros t' s3 _ _ Hm3 _ _.
  wp_step. apply wp_expr_rec; [plia..|]. intros e s4 Hadv4 Hl4 Hle4 He. wp_step. wp_step. rewrite Hl4.
  apply wp_finish_expr; [plia|done| |done]. split; [by apply all_of_Forall|done].
Qed.

Hypothesis Hpos : (1 <= max_depth)%N.

Lemma wp_capability first s :
  pinv s -> depth s = d -> boundary source first ->
  wp (capability source tokens first) (expr_post s) X s.
Proof.
  intros Hs Hd Hf. unfold capability. wp_step. apply wp_lower_name; [done|]. intros n s1 Hm1 Hlt1 _.
  wp_step.
  eapply (wp_loop (fun _ s' => advanced s s') (fun _ s' => left s')); [|plia|unfold loop_fuel; lia].
  intros parts s2 Hadv2. wp_step. apply wp_took; [plia|done| |].
  - unfold set_expr_depth. wp_step. wp_step. wp_step. wp_step. apply wp_previous_span; [plia|].
    intros sp _. wp_step. unfold expr_post, expr_height. cbn. split_and!; [plia|done|done|by split].
  - intros s3 Hm3 Hlt3 _. wp_step. apply wp_lower_name; [plia|]. intros n' s4 Hm4 Hlt4 _. wp_step. plia.
Qed.

Lemma wp_list first s :
  pinv s -> depth s = d -> boundary source first ->
  wp (list_ source tokens max_depth parse_bp_rec first) (expr_post s) X s.
Proof.
  intros Hs Hd Hf. unfold list_, expr_depth_now. wp_step. apply wp_at_bool; [done|].
  assert (Hend : forall vs cd s3, Forall (expr_spans P) vs -> pinv s3 -> cursor s <= cursor s3 ->
    depth s3 = d -> cd = max_list (List.map expr_height vs) ->
    wp (expect source tokens TRBracket;;
        close_expr source tokens max_depth (vs, cd).2;;
        last ← previous_span tokens;
        mret (mkSpanned (EList (rev (vs, cd).1)) (mkSpan first (stop last)))) (expr_post s) X s3).
  { intros vs cd s3 HF H3 Hc3 Hd3 ->. wp_step. apply wp_expect; [plia|]. intros _ s4 Hm4 Hlt4 _.
    specialize (Hlt4 ltac:(done)). apply wp_finish_expr_prev; [plia| | |done].
    - cbn. by rewrite max_list_map_rev.
    - cbn. by apply all_of_rev, all_of_Forall. }
  intros [|]; wp_step; [apply wp_ret; apply Hend; [constructor|plia..|done]|].
  eapply (wp_loop (fun '(vs, cd) s' => Forall (expr_spans P) vs /\ pinv s' /\ cursor s <= cursor s'
             /\ depth s' = d /\ cd = max_list (List.map expr_height vs)) (fun _ s' => left s'));
    [|split_and!; [constructor|plia..|done]|unfold loop_fuel; lia].
  intros [vs cd] s3 (HF & H3 & Hc3 & Hd3 & Hcd). wp_step. apply wp_expr_rec; [done..|].
  intros e s4 Hadv4 Hl4 Hle4 He. wp_step. wp_step. wp_step.
  assert (Hcd' : N.max cd (last_expr_depth s4) = max_list (List.map expr_height (e :: vs))).
  { cbn. fold (max_list (List.map expr_height vs)). rewrite Hcd, Hl4. lia. }
  apply wp_took; [plia|done|wp_step; apply Hend; [by constructor|plia..|done]|].
  intros s5 Hm5 Hlt5 _. wp_step. split; [|plia]. split_and!; [by constructor|plia..|done].
Qed.

Abbreviation expr_field_spans := (fun f : string * Expr => expr_spans P f.2).
Abbreviation field_height := (fun f : string * Expr => expr_height f.2).

Lemma wp_record first s :
  pinv s -> depth s = d -> boundary source first ->
  wp (record source tokens max_depth parse_bp_rec first) (expr_post s) X s.
Proof.
  intros Hs Hd Hf. unfold record, expr_depth_now. wp_step. apply wp_at_bool; [done|].
  assert (Hend : forall fs cd s3, Forall expr_field_spans fs -> pinv s3 -> cursor s <= cursor s3 ->
    depth s3 = d -> cd = max_list (List.map field_height fs) ->
    wp (expect source tokens TRBrace;;
        close_expr source tokens max_depth (fs, cd).2;;
        last ← previous_span tokens;
        mret (mkSpanned (ERecord (rev (fs, cd).1)) (mkSpan first (stop last)))) (expr_post s) X s3).
  { intros fs cd s3 HF H3 Hc3 Hd3 ->. wp_step. apply wp_expect; [plia|]. intros _ s4 Hm4 Hlt4 _.
    specialize (Hlt4 ltac:(done)). apply wp_finish_expr_prev; [plia| | |done].
    - cbn. by rewrite max_list_map_rev.
    - cbn. by apply all_of_rev, all_of_Forall. }
  intros [|]; wp_step; [apply wp_ret; apply Hend; [constructor|plia..|done]|].
  eapply (wp_loop (fun '(fs, cd) s' => Forall expr_field_spans fs /\ pinv s' /\ cursor s <= cursor s'
             /\ depth s' = d /\ cd = max_list (List.map field_height fs)) (fun _ s' => left s'));
    [|split_and!; [constructor|plia..|done]|unfold loop_fuel; lia].
  intros [fs cd] s3 (HF & H3 & Hc3 & Hd3 & Hcd). wp_step. apply wp_lower_name; [done|].
  intros n s4 Hm4 Hlt4 _. wp_step.
  apply (wp_mono _ (fun b s' => advanced s3 s') _ X); [apply wp_took; intros; plia| |done].
  intros colon s5 Hadv5. wp_step.
  apply (wp_mono _ (fun vd s' => advanced s3 s' /\ expr_spans P vd.1 /\
           vd.2 = N.max cd (expr_height vd.1)) _ X); [| |done].
  - destruct colon; wp_step.
    + apply wp_expr_rec; [plia..|]. intros e s6 Hadv6 Hl6 Hle6 He. wp_steps.
      split_and!; [plia|done|]. cbn. by rewrite Hl6.
    + apply wp_previous_span; [plia|]. intros sp Hsp. wp_steps. split_and!; [plia|by split|done].
  - intros [v vd] s6 (Hadv6 & Hv & Hvd). cbn [fst snd] in *. wp_step.
    assert (Hcd' : vd = max_list (List.map field_height ((n, v) :: fs))).
    { cbn. fold (max_list (List.map field_height fs)). rewrite Hvd, Hcd. lia. }
    apply wp_took; [plia|done|wp_step; apply Hend; [by constructor|plia..|done]|].
    intros s7 Hm7 Hlt7 _. wp_step. split; [|plia]. split_and!; [by constructor|plia..|done].
Qed.

Lemma wp_paren first s :
  pinv s -> depth s = d -> P first -> wp (paren source tokens parse_bp_rec first) (expr_post s) X s.
Proof.
  intros Hs Hd Hf. unfold paren, expr_depth_now, set_expr_depth.
  do 5 wp_step. apply wp_expr_rec; [plia..|]. intros e s1 Hadv1 Hl1 Hle1 He.
  do 5 wp_step. apply wp_expect; [plia|]. intros _ s2 Hm2 _ _. do 3 wp_step.
  apply wp_previous_span; [plia|]. intros sp Hsp. wp_step.
  unfold expr_post, expr_height in *. cbn [node last_expr_depth set_last_expr_depth set_stop].
  split_and!; [plia|done|done|]. split; [done|apply He].
Qed.

Lemma wp_leaf k (t : SpannedToken) s s1 :
  advanced s s1 -> P (span t) -> kind_height k = 1%N -> kind_spans P k ->
  wp (set_expr_depth 1;; mret (mkSpanned k (span t))) (expr_post s) X s1.
Proof.
  intros Hadv Ht Hh Hk. unfold set_expr_depth. wp_steps. unfold expr_post, expr_height. cbn [node].
  rewrite Hh. split_and!; [plia|done|done|by split].
Qed.

Lemma expr_post_after s s1 e s' : advanced s s1 -> expr_post s1 e s' -> expr_post s e s'.
Proof. intros Hadv (? & ?). split; [plia|done]. Qed.

Lemma wp_atom s :
  pinv s -> depth s = d -> wp (atom source tokens max_depth parse_bp_rec) (expr_post s) X s.
Proof.
  intros Hs Hd. unfold atom. wp_step. apply wp_span; [done|]. intros first Hf.
  do 5 (wp_step; apply wp_keyword; [done|]; intros ? _).
  do 5 (case_match; [first [by apply wp_if_expr|by apply wp_match_expr|by apply wp_block|by apply wp_lambda]|]).
  wp_step. apply wp_bump_; [done|]. intros t s1 _ Ht Hm1 _ Hlt1.
  destruct (node t) eqn:E; try (by apply wp_raise); specialize (Hlt1 ltac:(done));
    assert (Hadv1 : advanced s s1) by plia;
    try (by apply wp_leaf);
    try (apply wp_leaf; [done|done|by repeat case_match..]);
    try (eapply wp_mono; [|intros e s' He; by eapply expr_post_after|done]).
  - apply wp_capability; [plia|plia|done].
  - apply wp_paren; [plia|plia|done].
  - apply wp_record; [plia|plia|done].
  - apply wp_list; [plia|plia|done].
Qed.

Lemma wp_prefix s :
  pinv s -> depth s = d -> wp (prefix source tokens max_depth parse_bp_rec) (expr_post s) X s.
Proof.
  intros Hs Hd. unfold prefix, expr_depth_now. wp_step. apply wp_keyword; [done|].
  intros [|] _.
  - wp_step. apply wp_bump_; [done|]. intros t s1 _ Ht Hm1 _ _.
    wp_step. eapply wp_mono; [apply Hrec; plia| |done]. intros e s2 (Hadv2 & Hl2 & Hle2 & He).
    do 2 wp_step. rewrite Hl2. by apply wp_finish_expr; [plia|..].
  - wp_step. apply wp_took; [done..|by apply wp_atom|]. intros s1 Hm1 Hlt1 _.
    wp_step. apply wp_previous_span; [plia|]. intros sp Hsp.
    wp_step. eapply wp_mono; [apply Hrec; plia| |done]. intros e s2 (Hadv2 & Hl2 & Hle2 & He).
    do 2 wp_step. rewrite Hl2. by apply wp_finish_expr; [plia|..].
Qed.

(** The loop of [parse_bp_inner] keeps [left_depth] the height of [left]. *)
Definition infix_inv (s : Parser) (acc : Expr * N) (s' : Parser) : Prop :=
  advanced s s' /\ acc.2 = expr_height acc.1 /\ (acc.2 <= max_depth)%N /\ expr_spans P acc.1.

Lemma wp_infix_step min_bp s acc s1 :
  infix_inv s acc s1 -> depth s = d ->
  wp (infix_step source tokens max_depth parse_bp_rec min_bp acc) (fun r s' =>
    match r with
    | inl acc' => infix_inv s acc' s' /\ left s' < left s1
    | inr acc' => infix_inv s acc' s'
    end) X s1.
Proof.
  destruct acc as [l ld]. intros (Hadv1 & Hld & Hle & Hl) Hd. cbn [fst snd] in *.
  unfold infix_step, expr_depth_now. wp_step. apply wp_at; [plia|]. intros t Ht Hp.
  case_match.
  { wp_step. apply wp_bump_; [plia|]. intros t1 s2 _ _ Hm2 _ _.
    wp_step. apply wp_lower_name; [plia|]. intros n s3 Hm3 Hlt3 _.
    wp_step. apply wp_previous_span; [plia|]. intros sp Hsp.
    wp_step. apply wp_parent; [plia|]. intros Hle3. wp_step.
    split; [|plia]. split; [plia|]. cbn [fst snd]. rewrite Hld in *. split_and!; [done|done|].
    split; [apply Hl|exact Hl]. }
  wp_step. unfold starts_atom. wp_step. wp_step. wp_step. apply wp_at_bool; [plia|]. intros lb.
  apply (wp_mono _ (fun _ s' => s' = s1) _ X); [| |done].
  { case_match; [by wp_step|]. wp_step. apply wp_current; [plia|]. intros. by wp_step. }
  intros applied ? ->. case_match.
  { wp_step. eapply wp_mono; [apply Hrec; plia| |done]. intros e s2 (Hadv2 & Hl2 & Hle2 & He).
    do 3 wp_step. apply wp_parent; [plia|]. intros Hle3. wp_step.
    split; [|plia]. split; [plia|]. cbn [fst snd]. rewrite Hld, Hl2 in *. split_and!; [done|done|].
    split; [apply Hl|split; [exact Hl|exact He]]. }
  wp_step. unfold infix_binding. wp_step. apply wp_current; [plia|]. intros t' Ht' _. wp_step.
  assert (t' = t) as -> by congruence.
  destruct (infix_of (node t)) as [[[lbp rbp] op]|] eqn:Hop; [|by wp_step].
  case_match; [by wp_step|]. wp_step. apply wp_bump_; [plia|].
  intros t1 s2 Ht1 _ Hm2 _ Hlt2. assert (t1 = t) as -> by congruence.
  assert (Hne : node t <> TEof) by (intros He; by rewrite He in Hop).
  specialize (Hlt2 Hne). wp_step. eapply wp_mono; [apply Hrec; plia| |done].
  intros e s3 (Hadv3 & Hl3 & Hle3 & He). do 3 wp_step. apply wp_parent; [plia|]. intros Hle4. wp_step.
  split; [|plia]. split; [plia|]. cbn [fst snd]. rewrite Hld, Hl3 in *.
  split_and!; [by destruct op|done|].
  split; [apply Hl|]. by destruct op.
Qed.

Lemma wp_parse_bp_inner min_bp s :
  pinv s -> depth s = d ->
  wp (parse_bp_inner source tokens max_depth parse_bp_rec min_bp) (expr_post s) X s.
Proof.
  intros Hs Hd. unfold parse_bp_inner, expr_depth_now, set_expr_depth. wp_step.
  eapply wp_mono; [by apply wp_prefix| |done]. intros e s1 (Hadv1 & Hl1 & Hle1 & He). do 3 wp_step.
  eapply (wp_loop (infix_inv s) (fun _ s' => left s')).
  - intros acc s2 Hacc. eapply wp_mono; [by apply (wp_infix_step min_bp s)| |done].
    intros [acc'|[e' d']] s3; [done|]. intros (Hadv3 & Hd3 & Hle3 & He3). cbn [fst snd] in *.
    wp_steps. split_and!; [plia|done|lia|done].
  - split_and!; [done|done|cbn; by rewrite Hl1|done].
  - unfold loop_fuel. lia.
Qed.
End ExprBodies.

Lemma wp_parse_bp fuel bp s :
  pinv s -> fits fuel s -> wp (parse_bp source tokens max_depth fuel bp) (expr_post s) X s.
Proof.
  revert bp s. induction fuel as [|fuel IH]; intros bp s Hs Hf; [unfold fits in Hf; lia|].
  change (wp (nested source tokens max_depth (parse_bp_inner source tokens max_depth
    (parse_bp source tokens max_depth fuel) bp)) (expr_post s) X s).
  apply wp_nested; [done|]. intros Hd.
  eapply wp_mono; [apply (wp_parse_bp_inner _ (depth s + 1)%N); [|lia|plia|done]| |done].
  - intros bp' s1 H1 Hd1. apply IH; [done|]. unfold fits in *. lia.
  - intros e s' (Hadv & Hl & Hle & He). split; [plia|]. unfold expr_post. split_and!; [plia|plia|done|done].
Qed.

(** ** Cells *)

Definition cell_ok (c : Cell) : Prop :=
  Forall (fun f => (form_height f <= max_depth)%N /\ form_spans P f) (forms c) /\ forms c <> [].

Lemma wp_top_form s :
  pinv s ->
  wp (form source tokens max_depth (parse_bp source tokens max_depth (depth_fuel max_depth)) false)
     (form_post s) X s.
Proof.
  intros Hs. eapply (wp_form _ (depth s)); [|done|done].
  intros bp s1 H1 _. apply wp_parse_bp; [done|apply fits_depth_fuel].
Qed.

Abbreviation form_ok := (fun f => (form_height f <= max_depth)%N /\ form_spans P f).

Lemma wp_cell s : pinv s -> wp (cell source tokens max_depth) (fun c _ => cell_ok c) X s.
Proof.
  intros Hs. unfold cell. wp_step. apply wp_span; [done|]. intros first Hf.
  wp_step. apply wp_at_bool; [done|]. intros [|]; [by apply wp_error|]. wp_step.
  assert (Hend : forall fs s1, Forall form_ok fs -> fs <> [] -> pinv s1 ->
    wp (expect source tokens TEof;; last ← previous_span tokens;
        mret (mkCell (rev fs) (mkSpan (start first) (stop last)))) (fun c _ => cell_ok c) X s1).
  { intros fs s1 HF Hne H1. wp_step. apply wp_expect; [done|]. intros _ s2 Hm2 _ _.
    wp_step. apply wp_previous_span; [plia|]. intros sp _. wp_step.
    split; cbn; [by apply Forall_rev|]. intros Hr. apply Hne.
    by rewrite <- (rev_involutive fs), Hr. }
  eapply (wp_loop (fun fs s1 => Forall form_ok fs /\ pinv s1) (fun _ s' => left s'));
    [|by split|unfold loop_fuel; lia].
  intros fs s1 [HF H1]. wp_step. eapply wp_mono; [by apply wp_top_form| |done].
  intros f s2 (Hadv2 & _ & Hle & Hsp). assert (HF' : Forall form_ok (f :: fs)) by by constructor.
  wp_step. apply wp_took; [plia|done|cbn [negb]; wp_step; apply Hend; [done..|plia]|].
  intros s3 Hm3 Hlt3 _. cbn [negb]. wp_step. apply wp_at_bool; [plia|].
  intros [|]; wp_step; [apply Hend; [done..|plia]|]. apply wp_at_bool; [plia|].
  intros [|]; [apply wp_error; [plia|done]|]. wp_step. split; [split; [done|plia]|plia].
Qed.
End Facts.

(** ** The entry points *)

Section Parse.
Context `{UnicodeTables} `{JsonStr}.

Lemma lexed_tokens_ok source max_tokens tokens :
  lex_bounded source max_tokens = Ok tokens -> tokens_ok source tokens.
Proof.
  intros (ts & Hl & -> & _)%lex_bounded_ok. split; [by eauto|].
  apply Forall_app. split.
  - apply Forall_rev. eapply Forall_impl; [by apply lexed_boundaries|]. by intros t [].
  - constructor; [|constructor]. apply boundary_end.
Qed.

(** The whole contract of [parse_bounded]: it returns, and an accepted cell is
    well formed for its source and depth budget. *)
Lemma parse_bounded_spec source max_source_bytes max_syntax_nodes max_depth :
  (max_depth < usize_max)%N ->
  match parse_bounded source max_source_bytes max_syntax_nodes max_depth with
  | Ok c => cell_ok source max_depth c
  | Err d => no_checker_nesting d
  | Panicked | OutOfFuel => False
  end.
Proof.
  intros Hmax. unfold parse_bounded. destruct (max_source_bytes <? bytes_len source)%N.
  - pose proof (wp_raise (S:=()) (A:=Cell) source "TM2019"
      "source budget exceeded: {} bytes exceeds {max_source_bytes}" (mkSpan 0 (bytes_len source))
      (fun _ _ => False) no_checker_nesting tt (boundary_zero source) ltac:(done)) as Hwp.
    unfold wp in Hwp. destruct (raise _ _ _ _ _) as [[c u]|e| |]; cbn in *; done.
  - pose proof (lex_bounded_total source max_syntax_nodes) as Hlex.
    destruct (lex_bounded source max_syntax_nodes) as [tokens|e| |] eqn:E; [|by eapply lex_bounded_err|done..]. cbn.
    pose proof (lexed_tokens_ok _ _ _ E) as Hok.
    assert (Hp : pinv tokens initial_parser).
    { destruct (tokens_last _ _ Hok) as (ts & eof & -> & _). unfold pinv. rewrite length_app. cbn. lia. }
    pose proof (wp_cell source tokens max_depth Hok Hmax initial_parser Hp) as Hwp. unfold wp in Hwp.
    by destruct (cell _ _ _ _) as [[c s]|e| |].
Qed.
End Parse.

(** C35: parsing always returns a result.  For any source text and any budgets
    (the depth budget below the largest [usize]) [parse_bounded] returns a cell
    or a diagnostic: its recursion is bounded by the depth budget, every loop
    consumes tokens, no token index is out of range, no [expect] fails and
    every diagnostic slices the source at a char boundary. *)
Theorem parse_bounded_returns `{UnicodeTables} `{JsonStr}
    source max_source_bytes max_syntax_nodes max_depth :
  (max_depth < usize_max)%N ->
  returns (parse_bounded source max_source_bytes max_syntax_nodes max_depth).
Proof.
  intros Hmax. pose proof (parse_bounded_spec source max_source_bytes max_syntax_nodes max_depth Hmax).
  by destruct (parse_bounded _ _ _ _).
Qed.

(** the nesting budget bounds the tree.  Every form of an accepted cell has a
    height of at most [max_depth] (so consumers that recurse over the tree
    recurse at most that deep), the cell is not empty, and every span of the
    tree starts at a char boundary of the source. *)
Lemma parse_bounded_height `{UnicodeTables} `{JsonStr}
    source max_source_bytes max_syntax_nodes max_depth c :
  (max_depth < usize_max)%N ->
  parse_bounded source max_source_bytes max_syntax_nodes max_depth = Ok c ->
  forms c <> [] /\
  Forall (fun f => (form_height f <= max_depth)%N /\
                   form_spans (fun sp => boundary source (start sp)) f) (forms c).
Proof.
  intros Hmax Hc.
  pose proof (parse_bounded_spec source max_source_bytes max_syntax_nodes max_depth Hmax) as Hs.
  rewrite Hc in Hs. by destruct Hs.
Qed.

Lemma parse_bounded_returns_witness :
  (5 < usize_max)%N
  /\ returns (@parse_bounded ascii_tables plain_json (chars "f (g (h 1))") 100 100 5).
Proof.
  split; [vm_compute; reflexivity|].
  apply (@parse_bounded_returns ascii_tables plain_json (chars "f (g (h 1))") 100 100 5).
  vm_compute. reflexivity.
Defined.

Lemma parse_bounded_height_witness :
  exists c, @parse_bounded ascii_tables plain_json (chars "let x = [1, 2 + 3]; f x") 100 100 8 = Ok c
    /\ forms c <> []
    /\ Forall (fun f => (form_height f <= 8)%N /\
         form_spans (fun sp => boundary (chars "let x = [1, 2 + 3]; f x") (start sp)) f) (forms c).
Proof.
  eexists. split; [vm_compute; reflexivity|].
  apply (@parse_bounded_height ascii_tables plain_json (chars "let x = [1, 2 + 3]; f x") 100 100 8);
    vm_compute; reflexivity.
Defined.

(** ** Precedence *)

(** The infix operators as they are written. *)
Definition infix_texts : list (string * Infix) :=
  [("|>", InfixPipe); ("or", InfixBinary Or); ("and", InfixBinary And);
   ("==", InfixBinary Equal); ("!=", InfixBinary NotEqual); ("<", InfixBinary Less);
   ("<=", InfixBinary LessEqual); (">", InfixBinary Greater); (">=", InfixBinary GreaterEqual);
   ("::", InfixBinary Cons); ("+", InfixBinary Add); ("-", InfixBinary Subtract);
   ("*", InfixBinary Multiply); ("/", InfixBinary Divide); ("%", InfixBinary Modulo)]%string.

(** The level of an operator in the language reference, from lowest to highest. *)
Definition level (op : Infix) : nat :=
  match op with
  | InfixPipe => 1
  | InfixBinary Or => 2
  | InfixBinary And => 3
  | InfixBinary (Equal | NotEqual | Less | LessEqual | Greater | GreaterEqual) => 4
  | InfixBinary Cons => 5
  | InfixBinary (Add | Subtract) => 6
  | InfixBinary (Multiply | Divide | Modulo) => 7
  end.

Inductive shape := Leaf (name : string) | Node (op : Infix) (left right : shape).

#[global] Instance infix_eq_dec : EqDecision Infix.
Proof. solve_decision. Defined.
#[global] Instance shape_eq_dec : EqDecision shape.
Proof. solve_decision. Defined.

Fixpoint shape_of (k : ExprKind) : option shape :=
  match k with
  | EName name => Some (Leaf name)
  | EBinary op l r =>
      l ← shape_of (node l); r ← shape_of (node r); Some (Node (InfixBinary op) l r)
  | EPipe l r => l ← shape_of (node l); r ← shape_of (node r); Some (Node InfixPipe l r)
  | _ => None
  end.

Definition cell_shape (r : outcome Diagnostic Cell) : option shape :=
  match r with
  | Ok c => match List.map node (forms c) with [FExpr e] => shape_of (node e) | _ => None end
  | _ => None
  end.

(** [a op1 b op2 c] groups to the left when the first operator binds tighter, or
    as tightly and is not [::]. *)
Definition grouped (op1 op2 : Infix) : shape :=
  if (level op2 <? level op1) || ((level op1 =? level op2) && negb (level op1 =? 5))
  then Node op2 (Node op1 (Leaf "a") (Leaf "b")) (Leaf "c")
  else Node op1 (Leaf "a") (Node op2 (Leaf "b") (Leaf "c")).

Definition two_operators (t1 t2 : string) : list char :=
  chars ("a " ++ t1 ++ " b " ++ t2 ++ " c").

(** operators group by the documented levels.  For every pair of infix
    operators, [a op1 b op2 c] parses to the tree the precedence table of the
    language reference prescribes ([::] to the right, all other operators of
    one level to the left). *)
Lemma infix_precedence :
  let _ := ascii_tables in let _ := plain_json in
  forall t1 op1 t2 op2, In (t1, op1) infix_texts -> In (t2, op2) infix_texts ->
  cell_shape (parse (two_operators t1 t2)) = Some (grouped op1 op2).
Proof.
  cbv zeta. intros t1 op1 t2 op2 H1 H2.
  assert (Hall : forallb (fun x => forallb (fun y => bool_decide
    (cell_shape (@parse ascii_tables plain_json (two_operators x.1 y.1)) = Some (grouped x.2 y.2)))
    infix_texts) infix_texts = true) by (vm_compute; reflexivity).
  rewrite forallb_forall in Hall. specialize (Hall _ H1). rewrite forallb_forall in Hall.
  specialize (Hall _ H2). by apply bool_decide_eq_true in Hall.
Qed.

Lemma infix_precedence_witness :
  In ("+"%string, InfixBinary Add) infix_texts /\ In ("*"%string, InfixBinary Multiply) infix_texts /\
  cell_shape (@parse ascii_tables plain_json (two_operators "+" "*"))
    = Some (grouped (InfixBinary Add) (InfixBinary Multiply)).
Proof.
  assert (H1 : In ("+"%string, InfixBinary Add) infix_texts) by (cbn; tauto).
  assert (H2 : In ("*"%string, InfixBinary Multiply) infix_texts) by (cbn; tauto).
  split; [exact H1|]. split; [exact H2|].
  apply (infix_precedence "+" (InfixBinary Add) "*" (InfixBinary Multiply) H1 H2).
Defined.
