(* ===== verification/Catalog.v ===== *)
(** * Value types and the capability catalog ([catalog.rs]) *)

From stdpp Require Import base tactics list strings.
From Stdlib Require Import ZArith NArith Lia.
From S2P Require Import Prelude BTree.

Inductive ValueType : Type :=
| TyAny
| TyNever
| TyNull
| TyBool
| TyInt
| TyDecimal
| TyString
| TyUri
| TyList (item : ValueType)
| TyRecord (fields : list (string * ValueType))
| TyFunction (argument result : ValueType)
| TyLocal (name : string).

(** The derived [PartialEq]. *)
Fixpoint ty_eqb (a b : ValueType) : bool :=
  match a, b with
  | TyAny, TyAny | TyNever, TyNever | TyNull, TyNull | TyBool, TyBool | TyInt, TyInt
  | TyDecimal, TyDecimal | TyString, TyString | TyUri, TyUri => true
  | TyList x, TyList y => ty_eqb x y
  | TyRecord xs, TyRecord ys =>
      (fix fields_eqb xs ys :=
         match xs, ys with
         | [], [] => true
         | (k, x) :: xs', (l, y) :: ys' => String.eqb k l && ty_eqb x y && fields_eqb xs' ys'
         | _, _ => false
         end) xs ys
  | TyFunction x1 x2, TyFunction y1 y2 => ty_eqb x1 y1 && ty_eqb x2 y2
  | TyLocal x, TyLocal y => String.eqb x y
  | _, _ => false
  end.

Lemma ty_eqb_eq a b : ty_eqb a b = true <-> a = b.
Proof.
  revert b. induction a as [| | | | | | | |a IH|fs IH|a1 IH1 a2 IH2|n]; intros b;
    destruct b as [| | | | | | | |b|gs|b1 b2|m]; cbn; try done.
  - rewrite IH. naive_solver.
  - revert gs. induction IH as [|f Hf fs _ IHfs]; intros gs.
    + by destruct gs as [|[]].
    + destruct f as [k x], gs as [|[l y] gs]; [done|].
      inversion Hf as [? _ ? Hx]; subst.
      rewrite !andb_true_iff, String.eqb_eq, Hx. specialize (IHfs gs). cbn in IHfs.
      rewrite IHfs. naive_solver.
  - rewrite andb_true_iff, IH1, IH2. naive_solver.
  - rewrite String.eqb_eq. naive_solver.
Qed.

#[global] Instance value_type_eq_dec : EqDecision ValueType.
Proof.
  intros a b. destruct (ty_eqb a b) eqn:E.
  - left. by apply ty_eqb_eq.
  - right. intros H%ty_eqb_eq. congruence.
Defined.

Record EffectSignature := mkSignature {
  sig_name : string;
  sig_args : ValueType;
  sig_result : ValueType;
  sig_errors : list string;
  sig_approval : string;
  sig_resumable : bool;
  sig_sensitive : bool;
}.

Definition signature_new (name : string) (args result : ValueType) : EffectSignature :=
  mkSignature name args result [] "none" false false.

Record CapabilityCatalog := mkCatalog {
  effects : list (string * EffectSignature);
  schemes : list string;
  grants : list string;
}.

Definition catalog_new : CapabilityCatalog := mkCatalog [] [] [].
Definition register (sig : EffectSignature) (c : CapabilityCatalog) : CapabilityCatalog :=
  mkCatalog (bm_insert (sig_name sig) sig (effects c)) (schemes c) (grants c).
Definition allow (name : string) (c : CapabilityCatalog) : CapabilityCatalog :=
  mkCatalog (effects c) (schemes c) (bs_insert name (grants c)).
Definition scheme (name : string) (c : CapabilityCatalog) : CapabilityCatalog :=
  mkCatalog (effects c) (bs_insert name (schemes c)) (grants c).

Definition effect_ (c : CapabilityCatalog) (name : string) : option EffectSignature :=
  bm_get name (effects c).
Definition has_scheme (c : CapabilityCatalog) (name : string) : bool := bs_contains name (schemes c).

(** [str::strip_suffix]. *)
Definition strip_suffix (suffix s : string) : option string :=
  let n := (String.length s - String.length suffix)%nat in
  if (String.length suffix <=? String.length s)%nat && String.eqb (String.substring n (String.length suffix) s) suffix
  then Some (String.substring 0 n s)
  else None.

(** The grant test of [permits], for one grant. *)
Definition grant_permits (grant name : string) : bool :=
  String.eqb grant name
  || match strip_suffix ".*" grant with
     | Some prefix => String.eqb name prefix || String.prefix (prefix ++ ".") name
     | None => false
     end.

Definition permits (c : CapabilityCatalog) (name : string) : bool :=
  existsb (fun grant => grant_permits grant name) (grants c).

(** ** What a grant permits *)

Lemma string_app_cons x (a b : string) : (String x a ++ b)%string = String x (a ++ b).
Proof. reflexivity. Qed.

Lemma prefix_spec a b : String.prefix a b = true <-> exists r, b = (a ++ r)%string.
Proof.
  revert b. induction a as [|x a IH]; intros b.
  - split; [intros _; by exists b|intros _; by destruct b].
  - destruct b as [|y b]; [split; [done|]; by intros [r [=]]|].
    cbn [String.prefix]. destruct (Ascii.ascii_dec x y) as [->|Hne].
    + rewrite IH. split; intros [r Hr]; exists r; [by subst|by injection Hr].
    + split; [done|]. intros [r [= <- _]]. done.
Qed.

Lemma substring_app_l a b : String.substring 0 (String.length a) (a ++ b) = a.
Proof.
  induction a as [|x a IH]; [by destruct b|]. rewrite string_app_cons. cbn. by rewrite IH.
Qed.

Lemma substring_all a : String.substring 0 (String.length a) a = a.
Proof. induction a as [|x a IH]; cbn; [done|]. by rewrite IH. Qed.

Lemma substring_app_r a b : String.substring (String.length a) (String.length b) (a ++ b) = b.
Proof.
  induction a as [|x a IH]; [apply substring_all|]. by rewrite string_app_cons.
Qed.

Lemma substring_split n m s :
  (n + m = String.length s)%nat -> s = (String.substring 0 n s ++ String.substring n m s)%string.
Proof.
  revert n. induction s as [|x s IH]; intros n; cbn.
  - intros H. assert (n = 0) as -> by lia. assert (m = 0) as -> by lia. done.
  - destruct n as [|n]; cbn; intros Hl.
    + assert (m = S (String.length s)) as -> by lia. by rewrite substring_all.
    + rewrite string_app_cons. f_equal. apply IH. lia.
Qed.

Lemma string_length_app (a b : string) :
  String.length (a ++ b) = (String.length a + String.length b)%nat.
Proof. induction a as [|x a IH]; [done|]. rewrite string_app_cons. cbn. by rewrite IH. Qed.

Lemma strip_suffix_spec suffix s p :
  strip_suffix suffix s = Some p <-> s = (p ++ suffix)%string.
Proof.
  unfold strip_suffix. split.
  - case_match eqn:E; [|done]. intros [= <-].
    apply andb_true_iff in E as [Hl%Nat.leb_le Hs%String.eqb_eq].
    rewrite <- Hs at 2. apply substring_split. lia.
  - intros ->. rewrite string_length_app.
    replace (String.length p + String.length suffix - String.length suffix)%nat
      with (String.length p) by lia.
    rewrite substring_app_r, substring_app_l, String.eqb_refl.
    rewrite (proj2 (Nat.leb_le _ _)) by lia. done.
Qed.

(** What one grant covers: itself, or, for a grant [p.*], the name [p] and every
    name below it ([p] followed by a dot and anything). *)
Definition covers (grant name : string) : Prop :=
  grant = name
  \/ exists p, grant = (p ++ ".*")%string /\ (name = p \/ exists rest, name = (p ++ "." ++ rest)%string).

Lemma string_app_assoc (a b c : string) : ((a ++ b) ++ c)%string = (a ++ b ++ c)%string.
Proof. induction a as [|x a IH]; [done|]. by rewrite !string_app_cons, IH. Qed.

Lemma grant_permits_covers grant name : grant_permits grant name = true <-> covers grant name.
Proof.
  unfold grant_permits, covers. rewrite orb_true_iff, String.eqb_eq.
  assert (Hprefix : forall p, String.prefix (p ++ ".") name = true
    <-> exists rest, name = (p ++ "." ++ rest)%string).
  { intros p. rewrite prefix_spec. by setoid_rewrite string_app_assoc. }
  destruct (strip_suffix ".*" grant) as [p|] eqn:E.
  - apply strip_suffix_spec in E. rewrite orb_true_iff, String.eqb_eq, Hprefix.
    split; intros [H|H]; [by left|right; by exists p|by left|right].
    destruct H as (p' & Hg & H). enough (p' = p) as -> by done.
    rewrite Hg in E. symmetry in E. apply strip_suffix_spec in E.
    assert (strip_suffix ".*" (p ++ ".*") = Some p) as E' by by apply strip_suffix_spec.
    congruence.
  - split; intros [H|H]; [by left|done|by left|].
    destruct H as (p & Hg & _). apply strip_suffix_spec in Hg. congruence.
Qed.

Lemma permits_covers c name :
  permits c name = true <-> exists grant, In grant (grants c) /\ covers grant name.
Proof. unfold permits. rewrite existsb_exists. by setoid_rewrite grant_permits_covers. Qed.

(** exactly the covered names are granted.  A name is permitted by the catalog
    if and only if some grant is that name, or is [p.*] for a prefix [p] of whole
    segments: [p] itself or [p] followed by a dot. *)
Lemma permits_iff_covered c name :
  permits c name = true <-> exists grant, In grant (grants c) /\ covers grant name.
Proof.
  apply permits_covers.
Qed.
