(* ===== verification/ScopedMap.v ===== *)
(** * [ScopedMap]: a map with lexical checkpoints ([check/mod.rs])

    An ordered map, the undo log of the mutations made while a checkpoint is
    active, and the stack of checkpoints.  [debug_assert_eq!(self.scopes.pop(),
    Some(checkpoint))] evaluates its arguments only when debug assertions are
    compiled in, so in a release build the stack is never popped: the build
    profile is the parameter [BuildProfile]. *)

From stdpp Require Import base tactics list strings.
From Stdlib Require Import Lia.
From S2P Require Import Prelude BTree.

(** Whether the crate is compiled with debug assertions. *)
Class BuildProfile := debug_assertions : bool.

Record ScopedMap (V : Type) := mkScoped {
  values : list (string * V);
  undo : list (string * option V);
  scopes : list nat;
}.
Arguments mkScoped {V} values undo scopes.
Arguments values {V} _.
Arguments undo {V} _.
Arguments scopes {V} _.

Section ScopedMap.
Context {V : Type} `{BuildProfile}.

Definition sm_new (values : list (string * V)) : ScopedMap V := mkScoped values [] [].

(** [begin_scope]: the checkpoint and the new map. *)
Definition begin_scope (m : ScopedMap V) : nat * ScopedMap V :=
  let checkpoint := length (undo m) in
  (checkpoint, mkScoped (values m) (undo m) (checkpoint :: scopes m)).

Definition restore (entry : string * option V) (vs : list (string * V)) : list (string * V) :=
  match entry.2 with
  | Some previous => bm_insert entry.1 previous vs
  | None => bm_remove entry.1 vs
  end.

(** [while self.undo.len() > checkpoint { pop and restore }]. *)
Fixpoint unwind_to (checkpoint : nat) (log : list (string * option V)) (vs : list (string * V))
    : list (string * option V) * list (string * V) :=
  match log with
  | [] => ([], vs)
  | entry :: log' =>
      if (checkpoint <? length log)%nat then unwind_to checkpoint log' (restore entry vs)
      else (log, vs)
  end.

(** [rollback_scope]; [None] when the debug assertion fails. *)
Definition rollback_scope (checkpoint : nat) (m : ScopedMap V) : option (ScopedMap V) :=
  popped ← (if debug_assertions then
              match scopes m with
              | c :: cs => if (c =? checkpoint)%nat then Some cs else None
              | [] => None
              end
            else Some (scopes m));
  let '(log, vs) := unwind_to checkpoint (undo m) (values m) in
  Some (mkScoped vs log popped).

Definition sm_insert (name : string) (value : V) (m : ScopedMap V) : ScopedMap V :=
  let previous := bm_get name (values m) in
  let vs := bm_insert name value (values m) in
  match scopes m with
  | [] => mkScoped vs (undo m) []
  | _ => mkScoped vs ((name, previous) :: undo m) (scopes m)
  end.

Definition sm_extend (kvs : list (string * V)) (m : ScopedMap V) : ScopedMap V :=
  foldl (fun m '(k, v) => sm_insert k v m) m kvs.

Definition sm_contains (name : string) (m : ScopedMap V) : bool := bm_contains name (values m).
Definition sm_get (name : string) (m : ScopedMap V) : option V := bm_get name (values m).
Definition sm_keys (m : ScopedMap V) : list string := bm_keys (values m).
End ScopedMap.

(** ** The specification: a stack of snapshots *)

Inductive scope_op (V : Type) : Type :=
| OpInsert (name : string) (value : V)
| OpBegin
| OpEnd.
Arguments OpInsert {V} name value.
Arguments OpBegin {V}.
Arguments OpEnd {V}.

Section Refinement.
Context {V : Type} `{BuildProfile}.

(** The client keeps the checkpoints of its open scopes (on the call stack of
    [with_scope]) and ends the innermost one. *)
Definition impl_step (st : ScopedMap V * list nat) (op : scope_op V) : option (ScopedMap V * list nat) :=
  let '(m, open) := st in
  match op, open with
  | OpInsert k v, _ => Some (sm_insert k v m, open)
  | OpBegin, _ => let '(c, m') := begin_scope m in Some (m', c :: open)
  | OpEnd, c :: cs => m' ← rollback_scope c m; Some (m', cs)
  | OpEnd, [] => Some st
  end.

Fixpoint impl_run (ops : list (scope_op V)) (st : ScopedMap V * list nat)
    : option (ScopedMap V * list nat) :=
  match ops with
  | [] => Some st
  | op :: ops' => st' ← impl_step st op; impl_run ops' st'
  end.

(** Reference: entering a scope saves the whole map, leaving it restores it. *)
Definition spec_step (st : list (string * V) * list (list (string * V))) (op : scope_op V)
    : list (string * V) * list (list (string * V)) :=
  let '(vs, saved) := st in
  match op, saved with
  | OpInsert k v, _ => (bm_insert k v vs, saved)
  | OpBegin, _ => (vs, vs :: saved)
  | OpEnd, s :: ss => (s, ss)
  | OpEnd, [] => st
  end.

Definition spec_run (ops : list (scope_op V)) (vs : list (string * V))
    : list (string * V) * list (list (string * V)) := foldl spec_step (vs, []) ops.

(** ** Undoing exactly *)

Lemma restore_insert k (v : V) vs : bm_wf vs -> restore (k, bm_get k vs) (bm_insert k v vs) = vs.
Proof.
  intros Hwf. unfold restore. cbn. destruct (bm_get k vs) eqn:E.
  - by apply bm_insert_restore.
  - by apply bm_remove_insert.
Qed.

Fixpoint unwind (log : list (string * option V)) (vs : list (string * V)) : list (string * V) :=
  match log with
  | [] => vs
  | entry :: log' => unwind log' (restore entry vs)
  end.

Lemma unwind_to_app recent old vs :
  unwind_to (length old) (recent ++ old) vs = (old, unwind recent vs).
Proof.
  revert vs. induction recent as [|e recent IH]; intros vs; cbn [app unwind].
  - destruct old as [|e old]; [done|]. cbn [unwind_to].
    by rewrite (proj2 (Nat.ltb_ge _ _)) by done.
  - cbn [unwind_to]. rewrite (proj2 (Nat.ltb_lt _ _)); [apply IH|].
    cbn. rewrite length_app. lia.
Qed.

(** The undo log is cut at the open checkpoints into the deltas between the
    saved maps. *)
Inductive linked : list (string * option V) -> list (string * V) -> list nat
    -> list (list (string * V)) -> Prop :=
| linked_top log vs : linked log vs [] []
| linked_scope recent old vs saved cs ss :
    unwind recent vs = saved -> bm_wf saved -> linked old saved cs ss ->
    linked (recent ++ old) vs (length old :: cs) (saved :: ss).

Definition stack_ok (m : ScopedMap V) (open : list nat) : Prop :=
  if debug_assertions then scopes m = open else (open <> [] -> scopes m <> []).

Definition sim (st : ScopedMap V * list nat) (ref : list (string * V) * list (list (string * V))) : Prop :=
  values st.1 = ref.1 /\ bm_wf ref.1 /\ stack_ok st.1 st.2
  /\ linked (undo st.1) (values st.1) st.2 ref.2.

Lemma linked_insert log vs open saved k v :
  bm_wf vs -> linked log vs open saved -> open <> [] ->
  linked ((k, bm_get k vs) :: log) (bm_insert k v vs) open saved.
Proof.
  intros Hwf Hl Hne. destruct Hl as [|recent old vs saved cs ss Hu Hs Hl]; [done|].
  change ((k, bm_get k vs) :: recent ++ old) with (((k, bm_get k vs) :: recent) ++ old).
  constructor; [|done|done]. cbn. by rewrite restore_insert.
Qed.

Lemma linked_forget log vs vs' : linked log vs [] [] -> linked log vs' [] [].
Proof. constructor. Qed.

Lemma sim_step st ref op :
  sim st ref -> exists st', impl_step st op = Some st' /\ sim st' (spec_step ref op).
Proof.
  destruct st as [m open], ref as [vs saved]. intros (Hv & Hwf & Hst & Hl). cbn [fst snd] in *.
  destruct op as [k v| |]; cbn.
  - eexists. split; [done|]. unfold sm_insert, sim, stack_ok in *. rewrite Hv in *.
    destruct (scopes m) as [|c cs] eqn:E; cbn [fst snd values undo scopes].
    + assert (open = []) as -> by (destruct debug_assertions; [done|destruct open; naive_solver]).
      inversion Hl; subst. split_and!; [done|by apply bm_wf_insert|by destruct debug_assertions|constructor].
    + split_and!; [done|by apply bm_wf_insert|done|].
      destruct open as [|o os]; [inversion Hl; subst; constructor|]. by apply linked_insert.
  - eexists. split; [done|]. unfold sim, stack_ok in *. cbn [fst snd values undo scopes].
    split_and!; [done|done|destruct debug_assertions; [congruence|done]|].
    apply (linked_scope []); [done|done|congruence].
  - inversion Hl as [|recent old ? s cs ss Hu Hs Hold Hlog]; subst; [by eexists|].
    unfold rollback_scope, stack_ok in *.
    assert (Hpop : exists popped, (if debug_assertions then
        match scopes m with c :: cs => if (c =? length old)%nat then Some cs else None | [] => None end
      else Some (scopes m)) = Some popped /\ if debug_assertions then popped = cs else popped = scopes m).
    { destruct debug_assertions; [|by eexists]. rewrite Hst, Nat.eqb_refl. by eexists. }
    destruct Hpop as (popped & -> & Hpop). cbn.
    rewrite <- Hlog, unwind_to_app. eexists. split; [done|].
    unfold sim, stack_ok. cbn [fst snd values undo scopes]. split_and!; [done|done| |done].
    destruct debug_assertions; [done|]. intros _. rewrite Hpop. by apply Hst.
Qed.

Lemma sim_run ops st ref :
  sim st ref -> exists st', impl_run ops st = Some st' /\ sim st' (foldl spec_step ref ops).
Proof.
  revert st ref. induction ops as [|op ops IH]; intros st ref Hsim; cbn; [by eexists|].
  destruct (sim_step _ _ op Hsim) as (st' & -> & Hsim'). cbn. by apply IH.
Qed.

Lemma sim_new (vs : list (string * V)) : bm_wf vs -> sim (sm_new vs, []) (vs, []).
Proof.
  intros Hwf. split_and!; [done|done| |constructor]. unfold stack_ok. by destruct debug_assertions.
Qed.
End Refinement.

(** ** What a client's code does to the map between two points

    [sm_kept]: the map is as it was.  [sm_grows]: inside a scope, the new entries
    of the undo log lead back to the old values. *)
Section Between.
Context {V : Type} `{BuildProfile}.

Definition scopes_kept (m m' : ScopedMap V) : Prop :=
  if debug_assertions then scopes m' = scopes m else (scopes m <> [] -> scopes m' <> []).

Definition sm_kept (m m' : ScopedMap V) : Prop :=
  values m' = values m /\ undo m' = undo m /\ scopes_kept m m'.

Definition sm_grows (m m' : ScopedMap V) : Prop :=
  bm_wf (values m') /\ scopes_kept m m' /\
  (scopes m <> [] -> exists recent, undo m' = recent ++ undo m /\ unwind recent (values m') = values m).

Lemma scopes_kept_refl m : scopes_kept m m.
Proof. unfold scopes_kept. by destruct debug_assertions. Qed.

Lemma scopes_kept_trans m1 m2 m3 : scopes_kept m1 m2 -> scopes_kept m2 m3 -> scopes_kept m1 m3.
Proof. unfold scopes_kept. destruct debug_assertions; [congruence|naive_solver]. Qed.

Lemma scopes_kept_ne m m' : scopes_kept m m' -> scopes m <> [] -> scopes m' <> [].
Proof. unfold scopes_kept. destruct debug_assertions; [congruence|done]. Qed.

Lemma sm_kept_refl m : sm_kept m m.
Proof. split_and!; [done..|apply scopes_kept_refl]. Qed.

Lemma sm_kept_trans m1 m2 m3 : sm_kept m1 m2 -> sm_kept m2 m3 -> sm_kept m1 m3.
Proof.
  intros (? & ? & ?) (? & ? & ?). split_and!; [congruence..|by eapply scopes_kept_trans].
Qed.

Lemma unwind_app (recent old : list (string * option V)) vs :
  unwind (recent ++ old) vs = unwind old (unwind recent vs).
Proof. revert vs. induction recent as [|e recent IH]; intros vs; cbn; [done|apply IH]. Qed.

Lemma sm_grows_refl m : bm_wf (values m) -> sm_grows m m.
Proof. intros. split_and!; [done|apply scopes_kept_refl|]. intros _. by exists []. Qed.

Lemma sm_grows_trans m1 m2 m3 : sm_grows m1 m2 -> sm_grows m2 m3 -> sm_grows m1 m3.
Proof.
  intros (Hw1 & Hs1 & Hu1) (Hw2 & Hs2 & Hu2). split_and!; [done|by eapply scopes_kept_trans|].
  intros Hne. destruct (Hu1 Hne) as (r1 & E1 & U1).
  destruct (Hu2 (scopes_kept_ne _ _ Hs1 Hne)) as (r2 & E2 & U2).
  exists (r2 ++ r1). rewrite E2, E1, app_assoc. split; [done|]. by rewrite unwind_app, U2.
Qed.

Lemma sm_kept_grows m m' : bm_wf (values m) -> sm_kept m m' -> sm_grows m m'.
Proof.
  intros Hwf (Hv & Hu & Hs). split_and!; [by rewrite Hv|done|]. intros _. exists [].
  by rewrite Hu.
Qed.

Lemma sm_grows_insert k v m : bm_wf (values m) -> sm_grows m (sm_insert k v m).
Proof.
  intros Hwf. unfold sm_grows, scopes_kept, sm_insert.
  destruct (scopes m) as [|c cs] eqn:E; cbn; split_and!;
    [by apply bm_wf_insert|by destruct debug_assertions|done
    |by apply bm_wf_insert|by destruct debug_assertions|].
  intros _. exists [(k, bm_get k (values m))]. split; [done|]. by apply restore_insert.
Qed.

Lemma sm_grows_extend kvs m : bm_wf (values m) -> sm_grows m (sm_extend kvs m).
Proof.
  unfold sm_extend. revert m. induction kvs as [|[k v] kvs IH]; intros m Hwf; cbn; [by apply sm_grows_refl|].
  pose proof (sm_grows_insert k v m Hwf) as Hg. eapply sm_grows_trans; [done|]. apply IH, Hg.
Qed.

(** A scope around code that only grows the map leaves it as it was, and the
    assertion of [rollback_scope] holds. *)
Lemma rollback_kept m m' :
  sm_grows (begin_scope m).2 m' ->
  exists m'', rollback_scope (begin_scope m).1 m' = Some m'' /\ sm_kept m m''.
Proof.
  intros (_ & Hs & Hu). destruct Hu as (recent & Hundo & Hback); [done|].
  unfold scopes_kept in Hs. cbn [begin_scope fst snd scopes undo values] in *.
  unfold rollback_scope, sm_kept, scopes_kept.
  rewrite Hundo, unwind_to_app. destruct debug_assertions; cbn.
  - rewrite Hs, Nat.eqb_refl. cbn. eexists. by split.
  - eexists. split; [done|]. split_and!; [done..|]. intros _. by apply Hs.
Qed.
End Between.

(** C38: the scoped map refines a stack of snapshots, in debug and in release
    builds.  Starting from any well-formed map, any sequence of inserts, scope
    entries and scope exits runs without a failed assertion, and the map then
    holds exactly what saving the whole map at every entry and restoring it at
    every exit would hold. *)
Theorem scoped_map_refines_snapshots {V} `{BuildProfile} (ops : list (scope_op V)) vs :
  bm_wf vs ->
  exists m open, impl_run ops (sm_new vs, []) = Some (m, open)
    /\ values m = (spec_run ops vs).1 /\ length open = length (spec_run ops vs).2.
Proof.
  intros Hwf. destruct (sim_run ops _ _ (sim_new vs Hwf)) as ([m open] & Hrun & Hv & _ & _ & Hl).
  exists m, open. split_and!; [done|done|]. cbn in Hl. unfold spec_run.
  clear -Hl. induction Hl; cbn; congruence.
Qed.

Lemma scoped_map_refines_snapshots_witness :
  let ops := [OpInsert "x" 1; OpBegin; OpInsert "x" 2; OpInsert "y" 3; OpBegin; OpInsert "y" 4; OpEnd; OpEnd] in
  exists m open, @impl_run nat false ops (sm_new [], []) = Some (m, open)
    /\ values m = (spec_run ops []).1 /\ length open = length (spec_run ops []).2.
Proof. intros ops. apply (@scoped_map_refines_snapshots nat false ops []). constructor. Defined.

(** The undo log of a release build keeps growing.  After one scope has been
    entered and left, a debug build records nothing for a top-level insert,
    while a release build records every one of them: [n] inserts leave a log of
    [n] entries, contrary to the comment on [ScopedMap]. *)
Lemma scoped_map_top_level_history n (vs : list (string * nat)) :
  let ops := OpBegin :: OpEnd :: repeat (OpInsert "x" 0) n in
  (exists m, @impl_run nat true ops (sm_new vs, []) = Some (m, []) /\ undo m = [])
  /\ (exists m, @impl_run nat false ops (sm_new vs, []) = Some (m, []) /\ length (undo m) = n).
Proof.
  intros ops. unfold ops. cbn. split.
  - assert (H : forall n vs, exists m, @impl_run nat true (repeat (OpInsert "x" 0) n) (mkScoped vs [] [], [])
      = Some (m, []) /\ undo m = []).
    { clear. intros n. induction n as [|n IH]; intros vs; cbn; [by eexists|apply IH]. }
    apply H.
  - assert (H : forall n vs log, exists m, @impl_run nat false (repeat (OpInsert "x" 0) n)
      (mkScoped vs log [0], []) = Some (m, []) /\ length (undo m) = length log + n).
    { clear. intros n. induction n as [|n IH]; intros vs log; cbn.
      - eexists. split; [done|]. cbn. lia.
      - destruct (IH (bm_insert "x" 0 vs) (("x", bm_get "x" vs) :: log)) as (m & Hm & Hl).
        exists m. split; [done|]. rewrite Hl. cbn. lia. }
    apply (H n vs []).
Qed.
