(* ===== verification/Checker.v ===== *)
(** * The checker ([check/mod.rs], [check/helpers.rs], [check/patterns.rs],
    [check/expressions.rs])

    Infers a value type and three effect rows for every form of a cell.  All
    recursion of the code goes through [Checker::expr], which counts the nesting
    in [check_depth] against [max_parse_depth], fragments of string
    interpolations included: the fuel is [max_parse_depth + 1].  The shared
    [CheckContext] counters are fields of the state; a nested checker gets them
    and hands them back. *)

From stdpp Require Import base tactics list strings.
From Stdlib Require Import ZArith NArith Lia.
From S2P Require Import Prelude BTree Text Numbers Syntax Lexer Parser Catalog ScopedMap.

Definition MAX_FUNCTION_ARITY : N := 256.

(** ** Effect rows and facts *)

Record EffectRows := mkRows {
  authority : list string;
  errors : list string;
  presentation : list string;
}.

Definition no_effects : EffectRows := mkRows [] [] [].

Definition union_ (a b : EffectRows) : EffectRows :=
  mkRows (bs_extend (authority a) (authority b)) (bs_extend (errors a) (errors b))
    (bs_extend (presentation a) (presentation b)).

Record CheckedCell := mkChecked {
  result_type : ValueType;
  cell_effects : EffectRows;
  bindings : list (string * ValueType);
}.

Record Fact := mkFact { ty : ValueType; fact_effects : EffectRows }.

Definition pure_ (t : ValueType) : Fact := mkFact t no_effects.

(** ** Helpers on types *)

Fixpoint contains_local (t : ValueType) : bool :=
  match t with
  | TyLocal _ => true
  | TyList inner => contains_local inner
  | TyRecord fields => existsb (fun f => contains_local (snd f)) fields
  | TyFunction a b => contains_local a || contains_local b
  | _ => false
  end.

Definition numeric (t : ValueType) : bool :=
  match t with TyInt | TyDecimal | TyAny => true | _ => false end.

Definition numeric_compatible (expected actual : ValueType) : bool :=
  numeric expected && numeric actual.

Definition unify (a b : ValueType) : ValueType :=
  if ty_eqb a TyNever then b
  else if ty_eqb b TyNever || ty_eqb a b then a
  else if numeric a && numeric b then TyDecimal
  else TyAny.

Fixpoint type_from_term (term : TypeTerm) : ValueType :=
  match term with
  | TTNamed name =>
      if String.eqb name "String" || String.eqb name "Path" then TyString
      else if String.eqb name "Int" then TyInt
      else if String.eqb name "Decimal" then TyDecimal
      else if String.eqb name "Bool" then TyBool
      else TyLocal name
  | TTList inner => TyList (type_from_term inner)
  | TTOption _ => TyAny
  | TTRecord fields =>
      TyRecord (bm_from (List.map (fun f => (fst f, type_from_term (snd f))) fields))
  end.

Definition prelude_types : list (string * ValueType) :=
  let a := TyAny in
  let list_ := TyList a in
  let unary result := TyFunction a result in
  let binary result := TyFunction a (unary result) in
  bm_from [
    ("print", unary TyNull); ("display", binary TyNull); ("length", unary TyInt);
    ("sum", unary a); ("lines", unary list_); ("split", binary list_);
    ("contains", binary TyBool); ("map", binary list_); ("flatmap", binary list_);
    ("filter", binary list_); ("take", binary list_); ("merge", binary a);
    ("table", unary a); ("where", binary a); ("select", binary a);
    ("sort_by", TyFunction a (binary a)); ("group_by", binary a); ("aggregate", binary a);
    ("par", unary a); ("help", unary a); ("rethrow", unary TyNever); ("asc", a); ("desc", a)
  ]%string.

(** ** Interpolations *)

Inductive Interpolation :=
| IName (name : string)
| IExpression (source : list char).

(** The text up to the brace that closes [depth] open ones, and what follows it. *)
Fixpoint until_close (depth : nat) (cs : list char) : option (list char * list char) :=
  match cs with
  | [] => None
  | c :: cs' =>
      let depth := if c =c "{" then S depth else if c =c "}" then Nat.pred depth else depth in
      match depth with
      | O => Some ([], cs')
      | _ => '(inside, after) ← until_close depth cs'; Some (c :: inside, after)
      end
  end.

Section Checker.
Context `{UnicodeTables} `{JsonStr} `{BuildProfile}.

Definition name_char (c : char) : bool := (c =c "_") || is_alphanumeric c.

Fixpoint interpolations_from (fuel : nat) (cs : list char) : list Interpolation :=
  match fuel with
  | O => []
  | S fuel' =>
      match cs with
      | [] => []
      | c :: cs' =>
          if c =c "\" then interpolations_from fuel' (drop 1 cs')
          else if negb (c =c "#") then interpolations_from fuel' cs'
          else
            match cs' with
            | d :: body =>
                if d =c "{" then
                  match until_close 1 body with
                  | Some (inside, after) => IExpression inside :: interpolations_from fuel' after
                  | None => []
                  end
                else
                  let name := until (fun c => negb (name_char c)) cs' in
                  match name with
                  | [] => interpolations_from fuel' cs'
                  | _ => IName (of_chars name) :: interpolations_from fuel' (drop (length name) cs')
                  end
            | [] => []
            end
      end
  end.

Definition interpolations (source : string) : list Interpolation :=
  interpolations_from (length (chars source)) (chars source).

(** ** State *)

Record Checker := mkChecker {
  env : ScopedMap ValueType;
  local_types : ScopedMap (list (string * option ValueType));
  constructors : ScopedMap (string * option ValueType);
  row_context : bool;
  rethrow_errors : option (list string);
  remaining_fragment_bytes : N;
  remaining_fragment_tokens : N;
  check_depth : N;
}.

Definition set_env e s := mkChecker e (local_types s) (constructors s) (row_context s)
  (rethrow_errors s) (remaining_fragment_bytes s) (remaining_fragment_tokens s) (check_depth s).
Definition set_maps e t c s := mkChecker e t c (row_context s)
  (rethrow_errors s) (remaining_fragment_bytes s) (remaining_fragment_tokens s) (check_depth s).
Definition set_row_context b s := mkChecker (env s) (local_types s) (constructors s) b
  (rethrow_errors s) (remaining_fragment_bytes s) (remaining_fragment_tokens s) (check_depth s).
Definition set_rethrow_errors r s := mkChecker (env s) (local_types s) (constructors s) (row_context s)
  r (remaining_fragment_bytes s) (remaining_fragment_tokens s) (check_depth s).
Definition set_context bytes tokens depth s := mkChecker (env s) (local_types s) (constructors s)
  (row_context s) (rethrow_errors s) bytes tokens depth.

Definition CM := M Diagnostic Checker.

Variable catalog : CapabilityCatalog.
Variable max_fragment_tokens : N.
Variable max_parse_depth : N.

Definition throw {A} (source : list char) (code message : string) (span : Span)
    : outcome Diagnostic A :=
  match diagnostic_new code message span source with
  | Some d => Err d
  | None => Panicked
  end.

(** A fallible computation that does not touch the checker. *)
Definition lift {A} (r : outcome Diagnostic A) : CM A := fun s =>
  match r with
  | Ok a => Ok (a, s)
  | Err e => Err e
  | Panicked => Panicked
  | OutOfFuel => OutOfFuel
  end.

(** ** Context *)

Definition enter_expr (source : list char) (e : Expr) : CM unit :=
  s ← get;
  if (max_parse_depth <=? check_depth s)%N then
    raise source "TM2021" "checker nesting budget exceeded" (span e)
  else
    modify (fun s => set_context (remaining_fragment_bytes s) (remaining_fragment_tokens s)
                       (check_depth s + 1) s).

(** With debug assertions the depth must not be zero. *)
Definition exit_expr : CM unit :=
  s ← get;
  if debug_assertions && (check_depth s =? 0)%N then panic
  else
    modify (fun s => set_context (remaining_fragment_bytes s) (remaining_fragment_tokens s)
                       (saturating_sub (check_depth s) 1) s).

Definition parse_interpolation (source : list char) : CM Cell :=
  s ← get;
  if (remaining_fragment_bytes s <? bytes_len source)%N then
    raise source "TM2019" "interpolation check source budget exceeded" (mkSpan 0 (bytes_len source))
  else if (max_parse_depth <=? check_depth s)%N then
    raise source "TM2021" "interpolation check nesting budget exceeded" (mkSpan 0 (bytes_len source))
  else
    tokens ← lift (lex_bounded source (N.min max_fragment_tokens (remaining_fragment_tokens s)));
    let token_count := len tokens in
    if (remaining_fragment_tokens s <? token_count)%N then panic
    else
      modify (set_context (remaining_fragment_bytes s - bytes_len source)
                (remaining_fragment_tokens s - token_count) (check_depth s));;
      lift (parse_bounded source (bytes_len source) token_count (max_parse_depth - check_depth s)).

(** ** Scopes

    An error ends the check and its checker is dropped, so the restoring steps
    that the code also runs on the way out of an error are not observable. *)

Definition with_scope {A} (body : CM A) : CM A :=
  s ← get;
  let '(ce, e) := begin_scope (env s) in
  let '(ct, t) := begin_scope (local_types s) in
  let '(cc, c) := begin_scope (constructors s) in
  modify (set_maps e t c);;
  result ← body;
  s ← get;
  match rollback_scope cc (constructors s), rollback_scope ct (local_types s),
        rollback_scope ce (env s) with
  | Some c, Some t, Some e => modify (set_maps e t c);; mret result
  | _, _, _ => panic
  end.

Definition env_insert (name : string) (t : ValueType) : CM unit :=
  modify (fun s => set_env (sm_insert name t (env s)) s).

Definition env_insert_all (kvs : list (string * ValueType)) : CM unit :=
  modify (fun s => set_env (sm_extend kvs (env s)) s).

Definition env_insert_names (names : list string) : CM unit :=
  env_insert_all (List.map (fun name => (name, TyAny)) names).

(** ** Patterns *)

(** [pattern_names::walk]. *)
Fixpoint names_walk (source : list char) (sp : Span) (k : PatternKind) (names : list string)
    : outcome Diagnostic (list string) :=
  match k with
  | PBind name =>
      if bs_contains name names then throw source "TM3018" "duplicate pattern binding {name}" sp
      else Ok (bs_insert name names)
  | PConstructor _ (Some p) => names_walk source (span p) (node p) names
  | PList ps =>
      (fix go ps names :=
         match ps with
         | [] => Ok names
         | p :: ps' => names ← names_walk source (span p) (node p) names; go ps' names
         end) ps names
  | PCons h t =>
      names ← names_walk source (span h) (node h) names;
      names_walk source (span t) (node t) names
  | PRecord fields _ =>
      (fix go fields seen names :=
         match fields with
         | [] => Ok names
         | (name, p) :: fields' =>
             if bs_contains name seen then throw source "TM3019" "duplicate pattern field {name}" sp
             else
               names ← names_walk source (span p) (node p) names;
               go fields' (bs_insert name seen) names
         end) fields [] names
  | _ => Ok names
  end.

Definition pattern_names (source : list char) (p : Pattern) : outcome Diagnostic (list string) :=
  names_walk source (span p) (node p) [].

Definition mismatch {A} (source : list char) (sp : Span) : outcome Diagnostic A :=
  throw source "TM3022" "pattern cannot match {expected:?}: {}" sp.

Definition list_element (expected : ValueType) : option ValueType :=
  match expected with
  | TyAny => Some TyAny
  | TyList element => Some element
  | _ => None
  end.

(** [check_pattern::walk]; [ctors] are the checker's constructors. *)
Fixpoint check_walk (source : list char) (ctors : list (string * (string * option ValueType)))
    (sp : Span) (k : PatternKind) (expected : ValueType) : outcome Diagnostic unit :=
  match k with
  | PWildcard | PBind _ => Ok tt
  | PString _ => match expected with TyAny | TyString => Ok tt | _ => mismatch source sp end
  | PInt _ => match expected with TyAny | TyInt => Ok tt | _ => mismatch source sp end
  | PBool _ => match expected with TyAny | TyBool => Ok tt | _ => mismatch source sp end
  | PNull => match expected with TyAny | TyNull => Ok tt | _ => mismatch source sp end
  | PConstructor name payload =>
      if ty_eqb expected TyAny then
        match payload with
        | Some p => check_walk source ctors (span p) (node p) TyAny
        | None => Ok tt
        end
      else
        match bm_get name ctors with
        | None => mismatch source sp
        | Some (owner, payload_type) =>
            if negb (ty_eqb expected (TyLocal owner)) then mismatch source sp
            else
              match payload, payload_type with
              | Some p, Some t => check_walk source ctors (span p) (node p) t
              | None, None => Ok tt
              | _, _ => mismatch source sp
              end
        end
  | PList ps =>
      match list_element expected with
      | None => mismatch source sp
      | Some element =>
          (fix go ps :=
             match ps with
             | [] => Ok tt
             | p :: ps' => check_walk source ctors (span p) (node p) element;; go ps'
             end) ps
      end
  | PCons h t =>
      match list_element expected with
      | None => mismatch source sp
      | Some element =>
          check_walk source ctors (span h) (node h) element;;
          check_walk source ctors (span t) (node t) expected
      end
  | PRecord fields rest =>
      match expected with
      | TyAny =>
          (fix go fields :=
             match fields with
             | [] => Ok tt
             | (_, p) :: fields' => check_walk source ctors (span p) (node p) TyAny;; go fields'
             end) fields
      | TyRecord expected_fields =>
          if negb rest && negb (length fields =? length expected_fields)%nat then mismatch source sp
          else
            (fix go fields :=
               match fields with
               | [] => Ok tt
               | (name, p) :: fields' =>
                   match bm_get name expected_fields with
                   | None => mismatch source (span p)
                   | Some t => check_walk source ctors (span p) (node p) t;; go fields'
                   end
               end) fields
      | _ => mismatch source sp
      end
  end.

Definition check_pattern (source : list char) (p : Pattern) (expected : ValueType) : CM unit :=
  lift (pattern_names source p);;
  s ← get;
  lift (check_walk source (values (constructors s)) (span p) (node p) expected).

(** [pattern_bindings::walk]. *)
Fixpoint bindings_walk (ctors : list (string * (string * option ValueType)))
    (k : PatternKind) (expected : ValueType) (bs : list (string * ValueType))
    : list (string * ValueType) :=
  let element := match expected with TyList element => element | _ => TyAny end in
  match k with
  | PBind name => bm_insert name expected bs
  | PConstructor name (Some p) =>
      let payload_type := match bm_get name ctors with
                          | Some (_, Some t) => t
                          | _ => TyAny
                          end in
      bindings_walk ctors (node p) payload_type bs
  | PList ps =>
      (fix go ps bs :=
         match ps with
         | [] => bs
         | p :: ps' => go ps' (bindings_walk ctors (node p) element bs)
         end) ps bs
  | PCons h t => bindings_walk ctors (node t) expected (bindings_walk ctors (node h) element bs)
  | PRecord fields _ =>
      (fix go fields bs :=
         match fields with
         | [] => bs
         | (name, p) :: fields' =>
             let field_type := match expected with
                               | TyRecord expected_fields => default TyAny (bm_get name expected_fields)
                               | _ => TyAny
                               end in
             go fields' (bindings_walk ctors (node p) field_type bs)
         end) fields bs
  | _ => bs
  end.

Definition pattern_bindings (source : list char) (p : Pattern) (expected : ValueType)
    : CM (list (string * ValueType)) :=
  check_pattern source p expected;;
  s ← get;
  mret (bindings_walk (values (constructors s)) (node p) expected []).

(** ** Assignability *)

Definition ensure_assignable (source : list char) (e : Expr) (expected actual : ValueType)
    : outcome Diagnostic unit :=
  if ty_eqb expected TyAny || ty_eqb actual TyAny || ty_eqb expected actual
     || numeric_compatible expected actual
  then Ok tt
  else throw source "TM3016" "expected {expected:?}, found {actual:?}" (span e).

Fixpoint apply_last_type (source : list char) (e : Expr) (target piped : ValueType)
    : outcome Diagnostic ValueType :=
  match target with
  | TyFunction argument result =>
      match result with
      | TyFunction _ _ =>
          r ← apply_last_type source e result piped;
          Ok (TyFunction argument r)
      | _ => ensure_assignable source e argument piped;; Ok result
      end
  | TyAny => Ok TyAny
  | _ => throw source "TM3017" "pipeline target is not callable: {other:?}" (span e)
  end.

Definition ensure_function_arity (source : list char) (arity : nat) (sp : Span)
    : outcome Diagnostic unit :=
  if (MAX_FUNCTION_ARITY <? N.of_nat arity)%N then
    throw source "TM3023"
      "function arity budget exceeded: {arity} parameters exceeds {MAX_FUNCTION_ARITY}" sp
  else Ok tt.

(** [for _ in params.iter().rev() { ty = Function(Any, ty) }]. *)
Definition curry (arity : nat) (t : ValueType) : ValueType := Nat.iter arity (TyFunction TyAny) t.

Definition insert_params (source : list char) (params : list Pattern) : CM unit :=
  for_each (fun _ p => names ← lift (pattern_names source p); env_insert_names names) tt params.

(** ** Types *)

Fixpoint declare_variants (source : list char) (sp : Span)
    (ctors : list (string * (string * option ValueType))) (vs : list VariantDecl)
    (acc : list (string * option ValueType)) : outcome Diagnostic (list (string * option ValueType)) :=
  match vs with
  | [] => Ok acc
  | v :: vs' =>
      if bm_contains (variant_name v) acc || bm_contains (variant_name v) ctors then
        throw source "TM3004" "duplicate constructor {}" sp
      else
        declare_variants source sp ctors vs'
          (bm_insert (variant_name v) (type_from_term <$> payload v) acc)
  end.

Definition declare_type (source : list char) (decl : TypeDecl) (f : Form) : CM unit :=
  s ← get;
  if sm_contains (type_name decl) (local_types s) then
    raise source "TM3003" "duplicate local type {}" (span f)
  else
    variants ← lift (declare_variants source (span f) (values (constructors s)) (variants decl) []);
    let entries := List.map (fun v => (fst v, (type_name decl, snd v))) variants in
    modify (fun s => set_maps (env s)
      (sm_insert (type_name decl) variants (local_types s))
      (sm_extend entries (constructors s)) s).

(** ** Expressions *)

Section Expressions.
Variable rec : list char -> Expr -> CM Fact.

Definition form_ (source : list char) (f : Form) (persistent : bool) : CM Fact :=
  match node f with
  | FType decl => declare_type source decl f;; mret (pure_ TyNull)
  | FLet p value =>
      fact ← rec source value;
      check_pattern source p (ty fact);;
      (if negb persistent then
         bs ← pattern_bindings source p (ty fact);
         env_insert_all bs
       else mret tt);;
      mret fact
  | FFun name params body =>
      lift (ensure_function_arity source (length params) (span f));;
      body ← with_scope (env_insert name TyAny;; insert_params source params;; rec source body);
      mret (mkFact (curry (length params) (ty body)) (fact_effects body))
  | FExpr e => rec source e
  end.

(** One iteration of the loop of [cell]. *)
Definition cell_form (source : list char) (acc : CheckedCell) (f : Form) : CM CheckedCell :=
  fact ← form_ source f true;
  let t := ty fact in
  let effects := union_ (cell_effects acc) (fact_effects fact) in
  match node f with
  | FLet p _ =>
      bs ← pattern_bindings source p t;
      if contains_local t then
        raise source "TM3001" "local sum type cannot escape in a persistent binding" (span f)
      else
        env_insert_all bs;;
        mret (mkChecked t effects (bm_extend (bindings acc) bs))
  | FFun name _ _ =>
      if contains_local t then
        raise source "TM3002" "local sum type cannot escape in a persistent function" (span f)
      else
        env_insert name t;;
        mret (mkChecked t effects (bm_insert name t (bindings acc)))
  | _ => mret (mkChecked t effects (bindings acc))
  end.

Definition cell_ (source : list char) (c : Cell) : CM CheckedCell :=
  for_each (cell_form source) (mkChecked TyNull no_effects []) (forms c).

(** [Checker::with_context]: a fresh checker sharing the counters. *)
Definition with_context (bytes tokens depth : N) : Checker :=
  mkChecker (sm_new prelude_types) (sm_new []) (sm_new []) false None bytes tokens depth.

Definition is_single_expr (c : Cell) : bool :=
  match forms c with
  | [f] => match node f with FExpr _ => true | _ => false end
  | _ => false
  end.

Definition interpolation (source : list char) (e : Expr) (effects : EffectRows) (i : Interpolation)
    : CM EffectRows :=
  match i with
  | IName name =>
      s ← get;
      if negb (sm_contains name (env s)) && negb (row_context s) then
        raise source "TM3020" "unbound interpolation name {name}" (span e)
      else mret effects
  | IExpression fragment =>
      cell ← parse_interpolation fragment;
      if negb (is_single_expr cell) then
        raise source "TM3021" "interpolation must contain one expression" (span e)
      else
        s ← get;
        let nested := with_context (remaining_fragment_bytes s) (remaining_fragment_tokens s)
                        (check_depth s) in
        let nested := set_env (sm_extend (List.map (fun name => (name, TyAny)) (sm_keys (env s)))
                                 (env nested)) nested in
        match cell_ fragment cell nested with
        | Ok (checked, nested) =>
            modify (set_context (remaining_fragment_bytes nested) (remaining_fragment_tokens nested)
                      (check_depth nested));;
            mret (union_ effects (cell_effects checked))
        | Err d => fail d
        | Panicked => panic
        | OutOfFuel => out_of_fuel
        end
  end.

Definition string_expr (source : list char) (e : Expr) (value : string) : CM Fact :=
  effects ← for_each (interpolation source e) no_effects (interpolations value);
  mret (mkFact TyString effects).

(** [uri.split(':').next()]. *)
Definition uri_scheme (uri : string) : string := of_chars (until (N.eqb (chr ":")) (chars uri)).

Definition uri_expr (source : list char) (e : Expr) (uri : string) : CM Fact :=
  if negb (has_scheme catalog (uri_scheme uri)) then
    raise source "TM3005" "unknown resource scheme {scheme}" (span e)
  else mret (pure_ TyUri).

Definition name_effects (name : string) (rethrow : option (list string)) : EffectRows :=
  if String.eqb name "display" then mkRows [] [] ["display"%string]
  else if String.eqb name "print" then mkRows [] ["ResourceLimitError"%string] []
  else if String.eqb name "rethrow" then
    mkRows [] (bs_extend [] (default ["Rethrown"%string] rethrow)) []
  else no_effects.

Definition name_expr (source : list char) (e : Expr) (name : string) : CM Fact :=
  s ← get;
  match sm_get name (env s) with
  | Some t => mret (mkFact t (name_effects name (rethrow_errors s)))
  | None =>
      if row_context s then mret (mkFact TyAny (name_effects name (rethrow_errors s)))
      else raise source "TM3006" "unbound name {name}" (span e)
  end.

Definition constructor_expr (source : list char) (e : Expr) (name : string) : CM Fact :=
  s ← get;
  match sm_get name (constructors s) with
  | None =>
      if String.eqb name "Some" || String.eqb name "None" then mret (pure_ TyAny)
      else raise source "TM3007" "unknown constructor {name}" (span e)
  | Some (local, payload) =>
      let result := TyLocal local in
      mret (pure_ (match payload with
                   | Some t => TyFunction t result
                   | None => result
                   end))
  end.

Definition capability_expr (source : list char) (e : Expr) (name : string) : CM Fact :=
  match effect_ catalog name with
  | None => raise source "TM3008" "unknown capability {name}" (span e)
  | Some signature =>
      if negb (permits catalog name) then
        raise source "TM3009" "ungranted capability {name}" (span e)
      else
        mret (mkFact (TyFunction (sig_args signature) (sig_result signature))
                (mkRows [name] (bs_extend [] (sig_errors signature)) []))
  end.

Definition list_expr (source : list char) (vs : list Expr) : CM Fact :=
  acc ← for_each (fun '(item, effects) value =>
    fact ← rec source value;
    mret (Some (match item with Some item => unify item (ty fact) | None => ty fact end),
          union_ effects (fact_effects fact))) (None, no_effects) vs;
  mret (mkFact (TyList (default TyAny acc.1)) acc.2).

Definition record_expr (source : list char) (fields : list (string * Expr)) : CM Fact :=
  acc ← for_each (fun '(map, effects) '(name, value) =>
    if bm_contains name map then
      raise source "TM3010" "duplicate record field {name}" (span (value : Expr))
    else
      fact ← rec source value;
      mret (bm_insert name (ty fact) map, union_ effects (fact_effects fact)))
    ([], no_effects) fields;
  mret (mkFact (TyRecord acc.1) acc.2).

Definition lambda_expr (source : list char) (e : Expr) (params : list Pattern) (body : Expr) : CM Fact :=
  lift (ensure_function_arity source (length params) (span e));;
  body ← with_scope (insert_params source params;; rec source body);
  mret (mkFact (curry (length params) (ty body)) (fact_effects body)).

Definition is_row_function (function : Expr) : bool :=
  match node function with
  | EName name =>
      existsb (String.eqb name) ["where"; "select"; "sort_by"; "group_by"; "aggregate"]%string
  | _ => false
  end.

Definition apply_expr (source : list char) (e function argument : Expr) : CM Fact :=
  let row_argument := is_row_function function in
  function ← rec source function;
  previous_row_context ← gets row_context;
  modify (set_row_context (previous_row_context || row_argument));;
  argument ← rec source argument;
  modify (set_row_context previous_row_context);;
  t ← match ty function with
      | TyFunction expected result =>
          lift (ensure_assignable source e expected (ty argument));; mret result
      | TyAny => mret TyAny
      | _ => raise source "TM3011" "cannot apply {other:?}" (span e)
      end;
  mret (mkFact t (union_ (fact_effects function) (fact_effects argument))).

Definition field_expr (source : list char) (e target : Expr) (field : string) : CM Fact :=
  target ← rec source target;
  t ← match ty target with
      | TyRecord fields =>
          match bm_get field fields with
          | Some t => mret t
          | None => raise source "TM3012" "record has no field {field}" (span e)
          end
      | TyAny => mret TyAny
      | _ => raise source "TM3013" "field access requires a record" (span e)
      end;
  mret (mkFact t (fact_effects target)).

Definition unary_expr (source : list char) (e : Expr) (op : UnaryOp) (value : Expr) : CM Fact :=
  fact ← rec source value;
  let expected := match op with Not => TyBool | Negate => TyDecimal end in
  (if negb (numeric_compatible expected (ty fact)) then
     lift (ensure_assignable source e expected (ty fact))
   else mret tt);;
  mret (mkFact (match op with Not => TyBool | Negate => ty fact end) (fact_effects fact)).

Definition binary_type (source : list char) (e : Expr) (op : BinaryOp) (l r : ValueType)
    : outcome Diagnostic ValueType :=
  match op with
  | Or | And =>
      ensure_assignable source e TyBool l;;
      ensure_assignable source e TyBool r;;
      Ok TyBool
  | Equal | NotEqual => Ok TyBool
  | Less | LessEqual | Greater | GreaterEqual =>
      if negb (numeric l) || negb (numeric r) then
        throw source "TM3014" "ordered comparison requires numbers and cannot be chained" (span e)
      else Ok TyBool
  | Cons =>
      match r with
      | TyList item => Ok (TyList (unify l item))
      | TyAny => Ok (TyList TyAny)
      | _ => throw source "TM3014" "cons tail must be a list" (span e)
      end
  | Add | Subtract | Multiply | Divide | Modulo =>
      if bool_decide (op = Add) && ty_eqb l TyString && ty_eqb r TyString then Ok TyString
      else if negb (numeric l) || negb (numeric r) then
        throw source "TM3014" "numeric operator requires numbers" (span e)
      else Ok (unify l r)
  end.

Definition binary (source : list char) (e : Expr) (op : BinaryOp) (l r : Expr) : CM Fact :=
  lf ← rec source l;
  rf ← rec source r;
  t ← lift (binary_type source e op (ty lf) (ty rf));
  let effects := union_ (fact_effects lf) (fact_effects rf) in
  let effects := match op with
                 | Divide | Modulo =>
                     mkRows (authority effects) (bs_insert "DivisionByZero" (errors effects))
                       (presentation effects)
                 | _ => effects
                 end in
  mret (mkFact t effects).

Definition pipe_expr (source : list char) (e value target : Expr) : CM Fact :=
  piped ← rec source value;
  target ← rec source target;
  t ← lift (apply_last_type source e (ty target) (ty piped));
  mret (mkFact t (union_ (fact_effects piped) (fact_effects target))).

Definition if_ (source : list char) (e condition then_value else_value : Expr) : CM Fact :=
  condition ← rec source condition;
  lift (ensure_assignable source e TyBool (ty condition));;
  yes ← rec source then_value;
  no ← rec source else_value;
  mret (mkFact (unify (ty yes) (ty no))
          (union_ (union_ (fact_effects condition) (fact_effects yes)) (fact_effects no))).

(** What an arm contributes to exhaustiveness: a catch-all, or a covered name. *)
Definition arm_coverage (k : PatternKind) (acc : bool * list string) : bool * list string :=
  let '(catch_all, covered) := acc in
  match k with
  | PWildcard | PBind _ => (true, covered)
  | PConstructor name _ => (catch_all, bs_insert name covered)
  | PBool value => (catch_all, bs_insert (if value then "true" else "false")%string covered)
  | _ => acc
  end.

Definition expected_cases (t : ValueType) (types : ScopedMap (list (string * option ValueType)))
    : list string :=
  match t with
  | TyBool => bs_from ["true"; "false"]%string
  | TyLocal name => match sm_get name types with Some variants => bm_keys variants | None => [] end
  | _ => []
  end.

Definition match_ (source : list char) (e value : Expr) (arms : list MatchArm) : CM Fact :=
  value ← rec source value;
  acc ← for_each (fun (acc : ValueType * EffectRows * (bool * list string)) arm =>
    let '(t, effects, coverage) := acc in
    check_pattern source (arm_pattern arm) (ty value);;
    let coverage := arm_coverage (node (arm_pattern arm)) coverage in
    fact ← with_scope (bs ← pattern_bindings source (arm_pattern arm) (ty value);
                       env_insert_all bs;;
                       rec source (arm_value arm));
    mret (unify t (ty fact), union_ effects (fact_effects fact), coverage))
    (TyNever, fact_effects value, (false, [])) arms;
  let '(t, effects, (catch_all, covered)) := acc in
  s ← get;
  let expected := if catch_all : bool then [] else expected_cases (ty value) (local_types s) in
  if negb (bool_decide (expected = [])) && negb (bs_subset expected covered) then
    raise source "TM3015" "non-exhaustive match; missing {:?}" (span e)
  else mret (mkFact t effects).

Definition handle_ (source : list char) (value : Expr) (arms : list MatchArm) : CM Fact :=
  fact ← rec source value;
  let original_errors := errors (fact_effects fact) in
  acc ← for_each (fun (acc : ValueType * EffectRows * (bool * list string)) arm =>
    let '(t, arm_effects, (catches_all, handled)) := acc in
    check_pattern source (arm_pattern arm) TyAny;;
    let '(rethrow, catches_all, handled) :=
      match node (arm_pattern arm) with
      | PWildcard | PBind _ => (original_errors, true, handled)
      | PConstructor name _ => ([name], catches_all, bs_insert name handled)
      | _ => ([], catches_all, handled)
      end in
    old_rethrow_errors ← gets rethrow_errors;
    modify (set_rethrow_errors (Some rethrow));;
    arm_fact ← with_scope (names ← lift (pattern_names source (arm_pattern arm));
                           env_insert_names names;;
                           rec source (arm_value arm));
    modify (set_rethrow_errors old_rethrow_errors);;
    mret (unify t (ty arm_fact), union_ arm_effects (fact_effects arm_fact), (catches_all, handled)))
    (ty fact, no_effects, (false, [])) arms;
  let '(t, arm_effects, (catches_all, handled)) := acc in
  let kept := if catches_all : bool then []
              else bs_retain (fun error => negb (bs_contains error handled)) original_errors in
  let effects := mkRows (authority (fact_effects fact)) kept (presentation (fact_effects fact)) in
  mret (mkFact t (union_ effects arm_effects)).

Definition block_ (source : list char) (fs : list Form) : CM Fact :=
  with_scope (for_each (fun fact f =>
    next ← form_ source f false;
    mret (mkFact (ty next) (union_ (fact_effects fact) (fact_effects next)))) (pure_ TyNull) fs).

Definition expr_inner (source : list char) (e : Expr) : CM Fact :=
  match node e with
  | EString value => string_expr source e value
  | EInt _ => mret (pure_ TyInt)
  | EDecimal _ => mret (pure_ TyDecimal)
  | EBool _ => mret (pure_ TyBool)
  | ENull => mret (pure_ TyNull)
  | EUri uri => uri_expr source e uri
  | EName name => name_expr source e name
  | EConstructor name => constructor_expr source e name
  | ECapability name => capability_expr source e name
  | EList vs => list_expr source vs
  | ERecord fields => record_expr source fields
  | ELambda params body => lambda_expr source e params body
  | EApply function argument => apply_expr source e function argument
  | EField target field => field_expr source e target field
  | EUnary op value => unary_expr source e op value
  | EBinary op l r => binary source e op l r
  | EPipe value target => pipe_expr source e value target
  | EIf c t f => if_ source e c t f
  | EMatch value arms => match_ source e value arms
  | EHandle value arms => handle_ source value arms
  | EBlock fs => block_ source fs
  end.
End Expressions.

Fixpoint check_expr (fuel : nat) (source : list char) (e : Expr) : CM Fact := fun s =>
  match fuel with
  | O => OutOfFuel
  | S fuel' =>
      (enter_expr source e;;
       result ← expr_inner (check_expr fuel') source e;
       exit_expr;;
       mret result) s
  end.

Definition check_fuel : nat := S (N.to_nat max_parse_depth).
End Checker.

(** ** Entry points *)

Section Check.
Context `{UnicodeTables} `{JsonStr} `{BuildProfile}.

Definition new_bounded (max_source_bytes : N) : Checker :=
  with_context max_source_bytes (saturating_mul max_source_bytes 2) 0.

Definition check_with_bindings_bounded (source : list char) (c : Cell) (catalog : CapabilityCatalog)
    (names : list string) (max_source_bytes max_syntax_nodes max_parse_depth : N)
    : outcome Diagnostic CheckedCell :=
  let s := new_bounded max_source_bytes in
  let s := set_env (sm_extend (List.map (fun name => (name, TyAny)) names) (env s)) s in
  '(checked, _) ← cell_ (check_expr catalog max_syntax_nodes max_parse_depth
                           (check_fuel max_parse_depth)) source c s;
  Ok checked.

Definition check_bounded (source : list char) (c : Cell) (catalog : CapabilityCatalog)
    (max_source_bytes max_syntax_nodes max_parse_depth : N) : outcome Diagnostic CheckedCell :=
  check_with_bindings_bounded source c catalog [] max_source_bytes max_syntax_nodes max_parse_depth.

Definition check_with_bindings (source : list char) (c : Cell) (catalog : CapabilityCatalog)
    (names : list string) : outcome Diagnostic CheckedCell :=
  check_with_bindings_bounded source c catalog names
    DEFAULT_MAX_SOURCE_BYTES DEFAULT_MAX_SYNTAX_NODES DEFAULT_MAX_PARSE_DEPTH.

Definition check (source : list char) (c : Cell) (catalog : CapabilityCatalog)
    : outcome Diagnostic CheckedCell :=
  check_bounded source c catalog
    DEFAULT_MAX_SOURCE_BYTES DEFAULT_MAX_SYNTAX_NODES DEFAULT_MAX_PARSE_DEPTH.
End Check.
