(* ===== verification/CheckerFacts.v ===== *)
(** * Correctness of the checker

    One specification of [Checker::expr], proved by induction on the fuel and
    carried through every operation with weakest preconditions: the check
    returns, leaves the checker's scopes, row context, rethrow row and nesting
    depth as they were, stays within the nesting budget on a tree that fits it,
    and collects in the authority row exactly granted capabilities, all those
    the tree mentions among them. *)

From stdpp Require Import base tactics list strings.
From Stdlib Require Import ZArith NArith Lia.
From S2P Require Import Prelude BTree Text Numbers Syntax Lexer LexerFacts Parser ParserFacts.
From S2P Require Import Catalog ScopedMap Checker Lexer.

(** ** The capabilities a tree mentions *)

Fixpoint kind_caps (k : ExprKind) : list string :=
  match k with
  | EString _ | EInt _ | EDecimal _ | EBool _ | ENull | EUri _ | EName _ | EConstructor _ => []
  | ECapability name => [name]
  | EList vs => concat (List.map (fun e => kind_caps (node e)) vs)
  | ERecord fs => concat (List.map (fun f => kind_caps (node (snd f))) fs)
  | ELambda _ b => kind_caps (node b)
  | EApply a b | EBinary _ a b | EPipe a b => kind_caps (node a) ++ kind_caps (node b)
  | EField e _ | EUnary _ e => kind_caps (node e)
  | EIf a b c => kind_caps (node a) ++ kind_caps (node b) ++ kind_caps (node c)
  | EMatch v arms | EHandle v arms => kind_caps (node v) ++ concat (List.map arm_caps arms)
  | EBlock fs => concat (List.map (fun f => form_kind_caps (node f)) fs)
  end
with form_kind_caps (f : FormKind) : list string :=
  match f with
  | FType _ => []
  | FLet _ v => kind_caps (node v)
  | FFun _ _ b => kind_caps (node b)
  | FExpr e => kind_caps (node e)
  end
with arm_caps (a : MatchArm) : list string :=
  match a with mkArm _ v => kind_caps (node v) end.

Definition expr_caps (e : Expr) : list string := kind_caps (node e).
Definition form_caps (f : Form) : list string := form_kind_caps (node f).

(** A name the catalog knows and permits. *)
Definition granted (catalog : CapabilityCatalog) (name : string) : Prop :=
  is_Some (effect_ catalog name) /\ permits catalog name = true.

(** ** Fallible computations without state *)

Definition ok_or {E A} (r : outcome E A) (Q : A -> Prop) (X : E -> Prop) : Prop :=
  match r with
  | Ok a => Q a
  | Err e => X e
  | Panicked | OutOfFuel => False
  end.

Lemma ok_or_bind {E A B} (r : outcome E A) (k : A -> outcome E B) Q X :
  ok_or r (fun a => ok_or (k a) Q X) X -> ok_or (r ≫= k) Q X.
Proof. by destruct r. Qed.

Lemma ok_or_mono {E A} (r : outcome E A) (Q Q' : A -> Prop) (X X' : E -> Prop) :
  ok_or r Q X -> (forall a, Q a -> Q' a) -> (forall e, X e -> X' e) -> ok_or r Q' X'.
Proof. destruct r; cbn; auto. Qed.

Lemma wp_lift {A} (r : outcome Diagnostic A) (Q : A -> Checker -> Prop) X s :
  ok_or r (fun a => Q a s) X -> wp (lift r) Q X s.
Proof. unfold wp, lift. by destruct r. Qed.

Lemma ok_or_throw {A} source c m sp (Q : A -> Prop) :
  boundary source (start sp) -> m <> "checker nesting budget exceeded"%string ->
  ok_or (throw source c m sp) Q no_checker_nesting.
Proof.
  intros Hb Hm. unfold throw.
  destruct (diagnostic_new_boundary c m sp source Hb) as (b & a & _ & _ & ->). exact Hm.
Qed.

#[export] Hint Resolve ok_or_throw : tm.

Section Pure.
Variable source : list char.
Abbreviation P := (fun sp => boundary source (start sp)).
Abbreviation X := no_checker_nesting.

Lemma all_cons {A} (Q : A -> Prop) x l : all_of Q (x :: l) -> Q x /\ all_of Q l.
Proof. done. Qed.

Lemma names_walk_ok k : forall sp names,
  P sp -> pattern_kind_spans P k -> ok_or (names_walk source sp k names) (fun _ => True) X.
Proof.
  induction k as [| | | | | | |n p IH|ps IH|h t IHh IHt|fs r IH] using pattern_induction;
    intros sp names Hsp Hk; cbn in *; try done.
  - case_match; [by apply ok_or_throw|done].
  - destruct Hk. by apply IH.
  - revert names. induction IH as [|p ps Hp _ IH']; intros names; [done|].
    apply all_cons in Hk as [[? ?] ?]. apply ok_or_bind.
    eapply ok_or_mono; [by apply Hp| |done]. intros names' _. by apply IH'.
  - destruct Hk as [[? ?] [? ?]]. apply ok_or_bind.
    eapply ok_or_mono; [by apply IHh| |done]. intros names' _. by apply IHt.
  - generalize (@nil string) as seen. revert names.
    induction IH as [|[n p] fs Hp _ IH']; intros names seen; [done|].
    apply all_cons in Hk as [[? ?] ?]. case_match; [by apply ok_or_throw|]. apply ok_or_bind.
    eapply ok_or_mono; [by apply Hp| |done]. intros names' _. by apply IH'.
Qed.

Lemma pattern_names_ok p : pattern_spans P p -> ok_or (pattern_names source p) (fun _ => True) X.
Proof. intros [? ?]. by apply names_walk_ok. Qed.

Lemma mismatch_ok {A} sp (Q : A -> Prop) : P sp -> ok_or (mismatch source sp) Q X.
Proof. intros. by apply ok_or_throw. Qed.

Hint Resolve mismatch_ok : core.

Lemma check_walk_ok ctors k : forall sp expected,
  P sp -> pattern_kind_spans P k -> ok_or (check_walk source ctors sp k expected) (fun _ => True) X.
Proof.
  induction k as [| | | | | |n|n p IH|ps IH|h t IHh IHt|fs r IH] using pattern_induction;
    intros sp expected Hsp Hk; cbn in *; try done; try (by destruct expected; auto).
  - repeat case_match; auto; done.
  - destruct Hk. repeat case_match; auto.
  - destruct (list_element expected) as [el|]; [|by auto].
    induction IH as [|p ps Hp _ IH']; [done|].
    apply all_cons in Hk as [[? ?] ?]. apply ok_or_bind.
    eapply ok_or_mono; [by apply Hp| |done]. intros _ _. by apply IH'.
  - destruct Hk as [[? ?] [? ?]]. destruct (list_element expected) as [el|]; [|by auto].
    apply ok_or_bind. eapply ok_or_mono; [by apply IHh| |done]. intros _ _. by apply IHt.
  - destruct expected as [| | | | | | | | |fields| |]; auto.
    + induction IH as [|[n p] fs Hp _ IH']; [done|].
      apply all_cons in Hk as [[? ?] ?]. apply ok_or_bind.
      eapply ok_or_mono; [by apply Hp| |done]. intros _ _. by apply IH'.
    + case_match; [by auto|].
      clear -IH Hk Hsp. induction IH as [|[n p] fs Hp _ IH']; [done|].
      apply all_cons in Hk as [[? ?] ?]. case_match; [|by auto]. apply ok_or_bind.
      eapply ok_or_mono; [by apply Hp| |done]. intros _ _. by apply IH'.
Qed.

Lemma ensure_assignable_ok e t u (Q : unit -> Prop) :
  P (span e) -> Q tt -> ok_or (ensure_assignable source e t u) Q X.
Proof. intros. unfold ensure_assignable. case_match; [done|by apply ok_or_throw]. Qed.

Lemma apply_last_type_ok e t u :
  P (span e) -> ok_or (apply_last_type source e t u) (fun _ => True) X.
Proof.
  intros Hp. induction t as [| | | | | | | | | |a IHa b IHb|]; try (by apply ok_or_throw); [done|].
  cbn [apply_last_type]. destruct b; try (apply ok_or_bind, ensure_assignable_ok; done).
  apply ok_or_bind. by eapply ok_or_mono; [apply IHb|..].
Qed.

Lemma ensure_function_arity_ok n sp (Q : unit -> Prop) :
  P sp -> Q tt -> ok_or (ensure_function_arity source n sp) Q X.
Proof. intros. unfold ensure_function_arity. case_match; [by apply ok_or_throw|done]. Qed.

Lemma binary_type_ok e op l r :
  P (span e) -> ok_or (binary_type source e op l r) (fun _ => True) X.
Proof.
  intros Hp. destruct op; cbn; repeat (apply ok_or_bind, ensure_assignable_ok; [done|]);
    try done; repeat case_match; try done; by apply ok_or_throw.
Qed.

Lemma declare_variants_ok sp ctors vs acc :
  P sp -> ok_or (declare_variants source sp ctors vs acc) (fun _ => True) X.
Proof.
  intros Hp. revert acc. induction vs as [|v vs IH]; intros acc; cbn; [done|].
  case_match; [by apply ok_or_throw|apply IH].
Qed.
End Pure.

(** ** The state between two points *)

Section Frames.
Context `{BuildProfile}.

Definition cinv (s : Checker) : Prop :=
  bm_wf (values (env s)) /\ bm_wf (values (local_types s)) /\ bm_wf (values (constructors s)).

(** Everything but the maps: restored, budgets only spent. *)
Definition steady (s s' : Checker) : Prop :=
  row_context s' = row_context s /\ rethrow_errors s' = rethrow_errors s
  /\ check_depth s' = check_depth s
  /\ (remaining_fragment_bytes s' <= remaining_fragment_bytes s)%N
  /\ (remaining_fragment_tokens s' <= remaining_fragment_tokens s)%N.

Definition kept (s s' : Checker) : Prop :=
  sm_kept (env s) (env s') /\ sm_kept (local_types s) (local_types s')
  /\ sm_kept (constructors s) (constructors s') /\ steady s s'.

Definition grown (s s' : Checker) : Prop :=
  sm_grows (env s) (env s') /\ sm_grows (local_types s) (local_types s')
  /\ sm_grows (constructors s) (constructors s') /\ steady s s'.

Lemma steady_refl s : steady s s.
Proof. unfold steady. split_and!; done || lia. Qed.

Lemma steady_trans s1 s2 s3 : steady s1 s2 -> steady s2 s3 -> steady s1 s3.
Proof. unfold steady. intros (? & ? & ? & ? & ?) (? & ? & ? & ? & ?). split_and!; try congruence; lia. Qed.

Lemma kept_refl s : kept s s.
Proof. split_and!; auto using sm_kept_refl, steady_refl. Qed.

Lemma kept_trans s1 s2 s3 : kept s1 s2 -> kept s2 s3 -> kept s1 s3.
Proof.
  intros (? & ? & ? & ?) (? & ? & ? & ?). split_and!; eauto using sm_kept_trans, steady_trans.
Qed.

Lemma grown_refl s : cinv s -> grown s s.
Proof. intros (? & ? & ?). split_and!; auto using sm_grows_refl, steady_refl. Qed.

Lemma grown_trans s1 s2 s3 : grown s1 s2 -> grown s2 s3 -> grown s1 s3.
Proof.
  intros (? & ? & ? & ?) (? & ? & ? & ?). split_and!; eauto using sm_grows_trans, steady_trans.
Qed.

Lemma kept_grown s s' : cinv s -> kept s s' -> grown s s'.
Proof. intros (? & ? & ?) (? & ? & ? & ?). split_and!; auto using sm_kept_grows. Qed.

Lemma grown_cinv s s' : grown s s' -> cinv s'.
Proof. intros (He & Ht & Hc & _). split_and!; [apply He|apply Ht|apply Hc]. Qed.

Lemma kept_cinv s s' : cinv s -> kept s s' -> cinv s'.
Proof. intros Hs Hk. eapply grown_cinv, kept_grown; eauto. Qed.

Lemma kept_depth s s' : kept s s' -> check_depth s' = check_depth s.
Proof. intros (_ & _ & _ & _ & _ & ? & _). done. Qed.

Lemma grown_depth s s' : grown s s' -> check_depth s' = check_depth s.
Proof. intros (_ & _ & _ & _ & _ & ? & _). done. Qed.

Lemma grown_env_extend kvs s : cinv s -> grown s (set_env (sm_extend kvs (env s)) s).
Proof.
  intros (He & Ht & Hc). split_and!; cbn; auto using sm_grows_extend, sm_grows_refl.
  unfold steady. cbn. split_and!; done || lia.
Qed.

Lemma grown_env_insert k v s : cinv s -> grown s (set_env (sm_insert k v (env s)) s).
Proof. intros Hs. exact (grown_env_extend [(k, v)] s Hs). Qed.

(** A scope around code that grows the state. *)
Lemma wp_with_scope {A} (body : CM A) (Q : A -> Checker -> Prop) X s :
  cinv s ->
  (forall s1, cinv s1 -> steady s s1 ->
     wp body (fun a s2 => grown s1 s2 /\ forall s3, kept s s3 -> Q a s3) X s1) ->
  wp (with_scope body) Q X s.
Proof.
  intros Hs Hbody. unfold with_scope. wp_step. wp_step. cbn [begin_scope].
  wp_step. wp_step. wp_step.
  set (s1 := set_maps _ _ _ s). assert (H1 : cinv s1) by by destruct Hs as (? & ? & ?).
  assert (Hst : steady s s1) by (unfold steady; cbn; split_and!; done || lia).
  eapply wp_mono; [by apply Hbody| |done]. intros a s2 [(He & Ht & Hc & Hsteady) HQ].
  wp_step. wp_step.
  destruct (rollback_kept (constructors s) _ Hc) as (c & Ec & Kc).
  destruct (rollback_kept (local_types s) _ Ht) as (t & Et & Kt).
  destruct (rollback_kept (env s) _ He) as (e & Ee & Ke).
  cbn [begin_scope fst] in *. rewrite Ec, Et, Ee. wp_steps. apply HQ. by split_and!.
Qed.
End Frames.

(** ** Authority *)

Definition auth (catalog : CapabilityCatalog) (caps : list string) (rows : EffectRows) : Prop :=
  Forall (granted catalog) (authority rows) /\ forall x, In x caps -> In x (authority rows).

Section Authority.
Variable catalog : CapabilityCatalog.

Lemma auth_none : auth catalog [] no_effects.
Proof. by split. Qed.

Lemma auth_union l k a b : auth catalog l a -> auth catalog k b -> auth catalog (l ++ k) (union_ a b).
Proof.
  intros [Ga La] [Gb Lb]. split; cbn.
  - apply List.Forall_forall. intros x [Hx|Hx]%bs_extend_In; [by eapply List.Forall_forall in Ga|].
    by eapply List.Forall_forall in Gb.
  - intros x [Hx|Hx]%in_app_or; apply bs_extend_In; eauto.
Qed.

Lemma auth_same l a b : authority b = authority a -> auth catalog l a -> auth catalog l b.
Proof. unfold auth. by intros ->. Qed.

Lemma auth_snoc {X} (caps : X -> list string) visited x a b :
  auth catalog (concat (List.map caps visited)) a -> auth catalog (caps x) b ->
  auth catalog (concat (List.map caps (visited ++ [x]))) (union_ a b).
Proof.
  intros Ha Hb. rewrite List.map_app, concat_app. cbn. rewrite app_nil_r. by apply auth_union.
Qed.
End Authority.

(** ** The operations of the checker, around [expr] *)

Section Expr.
Context `{UnicodeTables} `{JsonStr} `{BuildProfile}.
Variable catalog : CapabilityCatalog.
Variable max_fragment_tokens max_parse_depth : N.
Hypothesis Hmax : (max_parse_depth < usize_max)%N.

Abbreviation P := (fun source sp => boundary source (start sp)).

(** Errors of an operation on a tree of height [h] at depth [d]: not the nesting
    error if the tree fits. *)
Definition fit_error (d h : N) (e : Diagnostic) : Prop :=
  (h + d <= max_parse_depth)%N -> no_checker_nesting e.

Definition expr_spec (check : list char -> Expr -> CM Fact) (d : N) : Prop :=
  forall source e s, expr_spans (P source) e -> cinv s -> check_depth s = d ->
    wp (check source e)
      (fun f s' => kept s s' /\ auth catalog (expr_caps e) (fact_effects f))
      (fit_error d (expr_height e)) s.

Lemma fit_error_mono d h h' e : (h <= h')%N -> fit_error d h e -> fit_error d h' e.
Proof. unfold fit_error. intros Hle He Hf. apply He. lia. Qed.

Lemma fit_error_any d h e : no_checker_nesting e -> fit_error d h e.
Proof. unfold fit_error. auto. Qed.

Variable rec : list char -> Expr -> CM Fact.
Variable D : N.
Hypothesis Hrec : expr_spec rec D.

Lemma wp_rec h source e (Q : Fact -> Checker -> Prop) s :
  expr_spans (P source) e -> cinv s -> check_depth s = D -> (expr_height e <= h)%N ->
  (forall f s', kept s s' -> cinv s' -> check_depth s' = D ->
     auth catalog (expr_caps e) (fact_effects f) -> Q f s') ->
  wp (rec source e) Q (fit_error D h) s.
Proof.
  intros He Hs Hd Hh HQ. eapply wp_mono; [by apply Hrec| |intros d; by apply fit_error_mono].
  intros f s' [Hk Ha]. apply HQ; [done|by eapply kept_cinv| |done].
  by rewrite (kept_depth _ _ Hk).
Qed.

Lemma wp_lift_ok {A} h (r : outcome Diagnostic A) (Q : A -> Checker -> Prop) s :
  ok_or r (fun _ => True) no_checker_nesting -> (forall a, Q a s) ->
  wp (lift r) Q (fit_error D h) s.
Proof. intros Hr HQ. apply wp_lift. eapply ok_or_mono; [done|by auto|by auto using fit_error_any]. Qed.

Lemma wp_raise_fit {A} h source c m sp (Q : A -> Checker -> Prop) s :
  P source sp -> m <> "checker nesting budget exceeded"%string ->
  wp (raise source c m sp) Q (fit_error D h) s.
Proof. intros Hp Hm. apply wp_raise; [done|]. intros l c' _. exact Hm. Qed.

Lemma wp_check_pattern h source p t (Q : unit -> Checker -> Prop) s :
  pattern_spans (P source) p -> Q tt s -> wp (check_pattern source p t) Q (fit_error D h) s.
Proof.
  intros Hp HQ. unfold check_pattern. wp_step. apply wp_lift_ok; [by apply pattern_names_ok|].
  intros _. wp_steps. destruct Hp. apply wp_lift_ok; [by apply check_walk_ok|]. by intros [].
Qed.

Lemma wp_pattern_bindings h source p t (Q : list (string * ValueType) -> Checker -> Prop) s :
  pattern_spans (P source) p -> (forall bs, Q bs s) ->
  wp (pattern_bindings source p t) Q (fit_error D h) s.
Proof. intros Hp HQ. unfold pattern_bindings. wp_step. apply wp_check_pattern; [done|]. wp_steps. apply HQ. Qed.

Lemma wp_insert_params h source ps (Q : unit -> Checker -> Prop) s :
  all_of (pattern_spans (P source)) ps -> cinv s ->
  (forall s', grown s s' -> Q tt s') ->
  wp (insert_params source ps) Q (fit_error D h) s.
Proof.
  intros Hps Hs HQ. unfold insert_params. apply all_of_Forall in Hps.
  apply (wp_for_each_prefix (fun _ _ s1 => grown s s1)); [|by apply grown_refl|by intros []].
  intros _ _ p s1 Hin Hg. wp_step.
  apply wp_lift_ok; [apply pattern_names_ok; by eapply List.Forall_forall in Hps|].
  intros names. unfold env_insert_names, env_insert_all. wp_steps.
  eapply grown_trans; [done|]. apply grown_env_extend. by eapply grown_cinv.
Qed.

Lemma wp_declare_type h source decl f (Q : unit -> Checker -> Prop) s :
  P source (span f) -> cinv s -> (forall s', grown s s' -> Q tt s') ->
  wp (declare_type source decl f) Q (fit_error D h) s.
Proof.
  intros Hp Hs HQ. unfold declare_type. wp_steps. case_match; [by apply wp_raise_fit|]. wp_step.
  apply wp_lift_ok; [by apply declare_variants_ok|]. intros vs. wp_steps. apply HQ.
  destruct Hs as (? & ? & ?).
  split_and!; cbn; auto using sm_grows_refl, sm_grows_insert, sm_grows_extend.
  unfold steady. cbn. split_and!; done || lia.
Qed.

(** *** Forms and cells *)

Lemma wp_check_form source f persistent s :
  form_spans (P source) f -> cinv s -> check_depth s = D ->
  wp (form_ rec source f persistent)
    (fun fact s' => grown s s' /\ auth catalog (form_caps f) (fact_effects fact))
    (fit_error D (form_height f)) s.
Proof.
  intros [Hsp Hk] Hs Hd. unfold form_, form_caps, form_height.
  destruct (node f) as [decl|p v|name ps b|e]; cbn [form_kind_spans form_kind_caps form_kind_height] in *.
  - wp_step. apply wp_declare_type; [done..|]. intros s' Hg. wp_step. split; [done|apply auth_none].
  - destruct Hk as [Hp Hv]. wp_step. apply wp_rec; [done..|]. intros fact s1 K1 I1 D1 A1.
    wp_step. apply wp_check_pattern; [done|]. wp_step. destruct persistent; cbn [negb].
    + wp_steps. split; [by apply kept_grown|done].
    + wp_step. apply wp_pattern_bindings; [done|]. intros bs. unfold env_insert_all. wp_steps.
      split; [|done]. eapply grown_trans; [by apply kept_grown|by apply grown_env_extend].
  - destruct Hk as [Hps Hb]. wp_step.
    apply wp_lift_ok; [by apply ensure_function_arity_ok|]. intros _. wp_step.
    apply wp_with_scope; [done|]. intros s1 I1 (_ & _ & D1 & _). unfold env_insert. wp_steps.
    apply wp_insert_params; [done|by eapply grown_cinv, grown_env_insert|]. intros s2 G2.
    pose proof (grown_trans _ _ _ (grown_env_insert name TyAny s1 I1) G2) as G1.
    apply wp_rec; [done|by eapply grown_cinv|by rewrite (grown_depth _ _ G1), D1|done|].
    intros fact s3 K3 I3 D3 A3. split.
    + eapply grown_trans; [done|]. apply kept_grown; [by eapply grown_cinv|done].
    + intros s4 K4. wp_step. split; [by apply kept_grown|done].
  - apply wp_rec; [done..|]. intros fact s1 K1 I1 D1 A1. split; [by apply kept_grown|done].
Qed.

Definition cell_state (s : Checker) (acc : CheckedCell) (visited : list Form) (s' : Checker) : Prop :=
  grown s s' /\ auth catalog (concat (List.map form_caps visited)) (cell_effects acc).

Lemma wp_cell_form source f acc visited h s0 s :
  form_spans (P source) f -> (form_height f <= h)%N -> check_depth s0 = D ->
  cell_state s0 acc visited s ->
  wp (cell_form rec source acc f) (fun acc' s' => cell_state s0 acc' (visited ++ [f]) s')
    (fit_error D h) s.
Proof.
  intros Hf Hh Hd [Hg Ha]. pose proof (grown_cinv _ _ Hg) as Hs. unfold cell_form. wp_step.
  eapply wp_mono; [apply wp_check_form; [done..|by rewrite (grown_depth _ _ Hg)]
    | |intros d; by apply fit_error_mono].
  intros fact s1 [G1 A1]. pose proof (grown_trans _ _ _ Hg G1) as G2.
  pose proof (auth_snoc catalog form_caps visited f _ _ Ha A1) as A2.
  pose proof (grown_cinv _ _ G1) as I1.
  destruct Hf as [Hsp Hk]. destruct (node f) as [decl|p v|name ps b|e]; cbn [form_kind_spans] in Hk.
  - wp_step. by split.
  - wp_step. apply wp_pattern_bindings; [by destruct Hk|]. intros bs.
    case_match; [by apply wp_raise_fit|]. unfold env_insert_all. wp_steps. split; [|done].
    eapply grown_trans; [done|by apply grown_env_extend].
  - case_match; [by apply wp_raise_fit|]. unfold env_insert. wp_steps. split; [|done].
    eapply grown_trans; [done|by apply grown_env_insert].
  - wp_step. by split.
Qed.

Lemma wp_check_cell source c h s :
  Forall (fun f => (form_height f <= h)%N /\ form_spans (P source) f) (forms c) ->
  cinv s -> check_depth s = D ->
  wp (cell_ rec source c) (fun checked s' => cell_state s checked (forms c) s') (fit_error D h) s.
Proof.
  intros Hfs Hs Hd. unfold cell_.
  apply (wp_for_each_prefix (fun acc visited s1 => cell_state s acc visited s1)); [| |done].
  - intros acc visited f s1 Hin HI. eapply List.Forall_forall in Hfs as [? ?]; [|done].
    by apply wp_cell_form.
  - split; [by apply grown_refl|apply auth_none].
Qed.

(** *** Interpolated fragments *)

Lemma wp_parse_interpolation h fragment (Q : Cell -> Checker -> Prop) s :
  check_depth s = D ->
  (forall c s', Forall (fun f => (form_height f <= max_parse_depth - D)%N
                   /\ form_spans (P fragment) f) (forms c) ->
     (D <= max_parse_depth)%N -> kept s s' -> Q c s') ->
  wp (parse_interpolation max_fragment_tokens max_parse_depth fragment) Q (fit_error D h) s.
Proof.
  intros Hd HQ. unfold parse_interpolation. wp_steps. pose proof (boundary_zero fragment).
  case_match; [by apply wp_raise_fit|].
  destruct (N.leb_spec max_parse_depth (check_depth s)) as [Hle|Hlt]; [by apply wp_raise_fit|].
  wp_step. apply wp_lift.
  destruct (lex_bounded fragment _) as [tokens|d| |] eqn:El;
    [|by apply fit_error_any; eapply lex_bounded_err|
     by pose proof (lex_bounded_total fragment (N.min max_fragment_tokens (remaining_fragment_tokens s))) as Ht;
       rewrite El in Ht..].
  apply lex_bounded_ok in El as (_ & _ & _ & Hlen). cbn [ok_or].
  destruct (N.ltb_spec (remaining_fragment_tokens s) (len tokens)); [lia|]. wp_steps.
  apply wp_lift.
  pose proof (parse_bounded_spec fragment (bytes_len fragment) (len tokens)
                (max_parse_depth - check_depth s) ltac:(lia)) as Hp.
  destruct (parse_bounded _ _ _ _) as [c|d| |]; [|by apply fit_error_any|done..]. cbn [ok_or].
  destruct Hp as [Hfs _]. apply HQ; [rewrite <- Hd; exact Hfs|lia|].
  unfold kept, steady. cbn. split_and!; auto using sm_kept_refl; lia.
Qed.

(** Running a nested checker inside an operation. *)
Lemma wp_check_nested {A B} (m : CM A) (k : A -> Checker -> CM B) (Q : B -> Checker -> Prop) X nested s :
  wp m (fun a n => wp (k a n) Q X s) X nested ->
  wp (match m nested with
      | Ok (a, n) => k a n
      | Err d => fail d
      | Panicked => panic
      | OutOfFuel => out_of_fuel
      end) Q X s.
Proof. unfold wp at 1. by destruct (m nested) as [[a n]|d| |]. Qed.

Lemma prelude_types_wf : bm_wf prelude_types.
Proof. apply bm_wf_from. Qed.

Lemma wp_interpolation h source e effects i s0 s :
  P source (span e) -> cinv s -> check_depth s = D -> kept s0 s -> auth catalog [] effects ->
  wp (interpolation max_fragment_tokens max_parse_depth rec source e effects i)
    (fun effects' s' => kept s0 s' /\ auth catalog [] effects') (fit_error D h) s.
Proof.
  intros He Hs Hd Hk Ha. unfold interpolation. destruct i as [name|fragment].
  - wp_steps. case_match; [by apply wp_raise_fit|]. by wp_steps.
  - wp_step. apply wp_parse_interpolation; [done|]. intros c s1 Hfs Hle K1.
    case_match; [by apply wp_raise_fit|]. wp_steps. cbv zeta.
    set (fresh := with_context (remaining_fragment_bytes s1) (remaining_fragment_tokens s1)
      (check_depth s1)).
    assert (If : cinv fresh) by (split_and!; [apply prelude_types_wf|constructor..]).
    pose proof (grown_env_extend (List.map (fun name => (name, TyAny)) (sm_keys (env s1))) fresh If) as Gf.
    apply wp_check_nested. eapply wp_mono.
    + apply wp_check_cell; [exact Hfs|by eapply grown_cinv|].
      rewrite (grown_depth _ _ Gf). cbn. by rewrite (kept_depth _ _ K1).
    + intros checked n [Gn An]. pose proof (grown_trans _ _ _ Gf Gn) as (_ & _ & _ & Hst).
      wp_steps. split.
      * eapply kept_trans; [done|]. eapply kept_trans; [done|].
        destruct Hst as (_ & _ & Hdn & Hbn & Htn). cbn in *.
        unfold kept, steady. cbn. split_and!; auto using sm_kept_refl.
      * destruct (auth_union catalog [] _ _ _ Ha An) as [Hg _]. by split.
    + intros d Hf. apply fit_error_any, Hf. lia.
Qed.

(** What [expr_inner] guarantees on a tree whose children have height [h]. *)
Definition inner_spec (h : N) (caps : list string) (m : CM Fact) (s : Checker) : Prop :=
  wp m (fun f s' => kept s s' /\ auth catalog caps (fact_effects f)) (fit_error D h) s.

Lemma inner_pure h t s : inner_spec h [] (mret (pure_ t)) s.
Proof. unfold inner_spec. wp_step. split; [apply kept_refl|apply auth_none]. Qed.

Lemma wp_string_expr source e v s :
  P source (span e) -> cinv s -> check_depth s = D ->
  inner_spec 0 [] (string_expr max_fragment_tokens max_parse_depth rec source e v) s.
Proof.
  intros He Hs Hd. unfold inner_spec, string_expr. wp_step.
  apply (wp_for_each_prefix (fun effects _ s1 => kept s s1 /\ auth catalog [] effects)).
  - intros effects _ i s1 _ [K1 A1].
    apply wp_interpolation; [done|by eapply kept_cinv|by rewrite (kept_depth _ _ K1)|done..].
  - split; [apply kept_refl|apply auth_none].
  - intros effects s1 [K1 A1]. by wp_step.
Qed.

Lemma wp_leaves source e s k :
  node e = k -> P source (span e) -> cinv s -> check_depth s = D ->
  match k with
  | EUri uri => inner_spec 0 [] (uri_expr catalog source e uri) s
  | EName name => inner_spec 0 [] (name_expr source e name) s
  | EConstructor name => inner_spec 0 [] (constructor_expr source e name) s
  | ECapability name => inner_spec 0 [name] (capability_expr catalog source e name) s
  | _ => True
  end.
Proof.
  intros Hn He Hs Hd. pose proof (kept_refl s) as K. unfold inner_spec.
  destruct k as [| | | | |uri|name|name|name| | | | | | | | | | | |]; try done.
  - unfold uri_expr. case_match; [by apply wp_raise_fit|]. wp_steps. split; [done|apply auth_none].
  - unfold name_expr. wp_steps.
    assert (forall r, auth catalog [] (name_effects name r)) by
      (intros r; unfold name_effects; repeat case_match; by split).
    repeat case_match; try by apply wp_raise_fit. all: wp_steps; cbn; auto.
  - unfold constructor_expr. wp_steps.
    repeat case_match; try by apply wp_raise_fit. all: wp_steps; split; [done|apply auth_none].
  - unfold capability_expr. destruct (effect_ catalog name) as [sig|] eqn:E; [|by apply wp_raise_fit].
    destruct (permits catalog name) eqn:Ep; cbn [negb]; [|by apply wp_raise_fit]. wp_steps.
    split; [done|]. split; [|done]. constructor; [|done]. split; [rewrite E; by eexists|done].
Qed.

(** *** Composite expressions

    [child h source e]: [e] is a well-placed sub-expression of height at most [h]. *)
Definition child (h : N) (source : list char) (e : Expr) : Prop :=
  (expr_height e <= h)%N /\ expr_spans (P source) e.

Lemma wp_child h source e (Q : Fact -> Checker -> Prop) s0 s :
  child h source e -> cinv s -> check_depth s = D -> kept s0 s ->
  (forall f s', kept s0 s' -> cinv s' -> check_depth s' = D ->
     auth catalog (expr_caps e) (fact_effects f) -> Q f s') ->
  wp (rec source e) Q (fit_error D h) s.
Proof.
  intros [Hh He] Hs Hd Hk HQ. apply wp_rec; [done..|]. intros f s' Hk'.
  apply HQ. by eapply kept_trans.
Qed.

Ltac child_step K I E A := wp_step; eapply wp_child; [done..|]; intros ? ? K I E A.

Lemma wp_list_expr h source vs s :
  Forall (child h source) vs -> cinv s -> check_depth s = D ->
  inner_spec h (concat (List.map expr_caps vs)) (list_expr rec source vs) s.
Proof.
  intros Hvs Hs Hd. unfold inner_spec, list_expr. wp_step.
  apply (wp_for_each_prefix (fun acc visited s1 => kept s s1 /\
    auth catalog (concat (List.map expr_caps visited)) acc.2)).
  - intros [item effects] visited e s1 Hin [K1 A1]. eapply List.Forall_forall in Hvs; [|done].
    wp_step. eapply wp_child; [done|by eapply kept_cinv|by rewrite (kept_depth _ _ K1)|done|].
    intros f s2 K2 I2 D2 A2. wp_step. split; [done|]. by apply auth_snoc.
  - split; [apply kept_refl|apply auth_none].
  - intros acc s1 [K1 A1]. by wp_step.
Qed.

Lemma wp_record_expr h source fs s :
  Forall (fun f => child h source f.2) fs -> cinv s -> check_depth s = D ->
  inner_spec h (concat (List.map (fun f => expr_caps f.2) fs)) (record_expr rec source fs) s.
Proof.
  intros Hvs Hs Hd. unfold inner_spec, record_expr. wp_step.
  apply (wp_for_each_prefix (fun acc visited s1 => kept s s1 /\
    auth catalog (concat (List.map (fun f => expr_caps f.2) visited)) acc.2)).
  - intros [map effects] visited [name e] s1 Hin [K1 A1]. eapply List.Forall_forall in Hvs; [|done].
    case_match; [apply wp_raise_fit; [|done]; by destruct Hvs as [_ [? _]]|].
    wp_step. eapply wp_child; [done|by eapply kept_cinv|by rewrite (kept_depth _ _ K1)|done|].
    intros f s2 K2 I2 D2 A2. wp_step. split; [done|]. cbn [snd].
    by apply (auth_snoc catalog (fun f : string * Expr => expr_caps f.2) visited (name, e)).
  - split; [apply kept_refl|apply auth_none].
  - intros acc s1 [K1 A1]. by wp_step.
Qed.

Lemma wp_lambda_expr h source e ps b s :
  P source (span e) -> all_of (pattern_spans (P source)) ps -> child h source b ->
  cinv s -> check_depth s = D ->
  inner_spec h (expr_caps b) (lambda_expr rec source e ps b) s.
Proof.
  intros He Hps Hb Hs Hd. unfold inner_spec, lambda_expr. wp_step.
  apply wp_lift_ok; [by apply ensure_function_arity_ok|]. intros _. wp_step.
  apply wp_with_scope; [done|]. intros s1 I1 (_ & _ & D1 & _). wp_step.
  apply wp_insert_params; [done..|]. intros s2 G2.
  eapply wp_child; [done|by eapply grown_cinv|by rewrite (grown_depth _ _ G2), D1|apply kept_refl|].
  intros f s3 K3 I3 D3 A3. split.
  - eapply grown_trans; [done|]. apply kept_grown; [by eapply grown_cinv|done].
  - intros s4 K4. by wp_step.
Qed.

Lemma kept_row_context b s s' :
  kept (set_row_context b s) s' -> kept s (set_row_context (row_context s) s').
Proof. intros (? & ? & ? & ? & ? & ? & ? & ?). by split_and!. Qed.

Lemma kept_rethrow r s s' :
  kept (set_rethrow_errors r s) s' -> kept s (set_rethrow_errors (rethrow_errors s) s').
Proof. intros (? & ? & ? & ? & ? & ? & ? & ?). by split_and!. Qed.

Lemma wp_apply_expr h source e f a s :
  P source (span e) -> child h source f -> child h source a -> cinv s -> check_depth s = D ->
  inner_spec h (expr_caps f ++ expr_caps a) (apply_expr rec source e f a) s.
Proof.
  intros He Hf Ha Hs Hd. unfold inner_spec, apply_expr. pose proof (kept_refl s) as K.
  child_step K1 I1 D1 A1. wp_steps. eapply wp_child; [done|exact I1|exact D1|apply kept_refl|].
  intros fa s2 K2%kept_row_context I2 D2 A2. wp_steps.
  pose proof (kept_trans _ _ _ K1 K2) as K3. pose proof (auth_union _ _ _ _ _ A1 A2) as A3.
  case_match; try by apply wp_raise_fit.
  - wp_steps. by split.
  - wp_step. apply wp_lift_ok; [by apply ensure_assignable_ok|]. intros _. wp_steps. by split.
Qed.

Lemma wp_field_expr h source e t field s :
  P source (span e) -> child h source t -> cinv s -> check_depth s = D ->
  inner_spec h (expr_caps t) (field_expr rec source e t field) s.
Proof.
  intros He Ht Hs Hd. unfold inner_spec, field_expr. pose proof (kept_refl s) as K.
  child_step K1 I1 D1 A1. wp_step.
  repeat case_match; try (by apply wp_raise_fit); wp_steps; by split.
Qed.

Lemma wp_unary_expr h source e op v s :
  P source (span e) -> child h source v -> cinv s -> check_depth s = D ->
  inner_spec h (expr_caps v) (unary_expr rec source e op v) s.
Proof.
  intros He Hv Hs Hd. unfold inner_spec, unary_expr. pose proof (kept_refl s) as K.
  child_step K1 I1 D1 A1. cbv zeta. wp_step. destruct (negb _).
  - apply wp_lift_ok; [by apply ensure_assignable_ok|]. intros _. wp_steps. by split.
  - wp_steps. by split.
Qed.

Lemma wp_binary h source e op l r s :
  P source (span e) -> child h source l -> child h source r -> cinv s -> check_depth s = D ->
  inner_spec h (expr_caps l ++ expr_caps r) (binary rec source e op l r) s.
Proof.
  intros He Hl Hr Hs Hd. unfold inner_spec, binary. pose proof (kept_refl s) as K.
  child_step K1 I1 D1 A1. child_step K2 I2 D2 A2. wp_step.
  apply wp_lift_ok; [by apply binary_type_ok|]. intros t. wp_step. split; [done|].
  cbn [fact_effects]. pose proof (auth_union _ _ _ _ _ A1 A2) as A3. destruct op; exact A3.
Qed.

Lemma wp_pipe_expr h source e v t s :
  P source (span e) -> child h source v -> child h source t -> cinv s -> check_depth s = D ->
  inner_spec h (expr_caps v ++ expr_caps t) (pipe_expr rec source e v t) s.
Proof.
  intros He Hl Hr Hs Hd. unfold inner_spec, pipe_expr. pose proof (kept_refl s) as K.
  child_step K1 I1 D1 A1. child_step K2 I2 D2 A2. wp_step.
  apply wp_lift_ok; [by apply apply_last_type_ok|]. intros ty. wp_step.
  split; [done|]. by apply auth_union.
Qed.

Lemma wp_if h source e c t f s :
  P source (span e) -> child h source c -> child h source t -> child h source f ->
  cinv s -> check_depth s = D ->
  inner_spec h (expr_caps c ++ expr_caps t ++ expr_caps f) (if_ rec source e c t f) s.
Proof.
  intros He Hc Ht Hf Hs Hd. unfold inner_spec, if_. pose proof (kept_refl s) as K.
  child_step K1 I1 D1 A1. wp_step. apply wp_lift_ok; [by apply ensure_assignable_ok|]. intros _.
  child_step K2 I2 D2 A2. child_step K3 I3 D3 A3. wp_step. split; [done|].
  rewrite (assoc_L (++)). by repeat apply auth_union.
Qed.

(** *** Arms and blocks *)

Definition arm_child (h : N) (source : list char) (a : MatchArm) : Prop :=
  pattern_spans (P source) (arm_pattern a) /\ child h source (arm_value a).

Lemma wp_match h source e v arms s :
  P source (span e) -> child h source v -> Forall (arm_child h source) arms ->
  cinv s -> check_depth s = D ->
  inner_spec h (expr_caps v ++ concat (List.map arm_caps arms)) (match_ rec source e v arms) s.
Proof.
  intros He Hv Harms Hs Hd. unfold inner_spec, match_. pose proof (kept_refl s) as K.
  wp_step. eapply wp_child; [done..|]. intros fact s1 K1 I1 D1 A1. wp_step.
  apply (wp_for_each_prefix (fun acc visited s2 => kept s s2 /\
    auth catalog (expr_caps v ++ concat (List.map arm_caps visited)) acc.1.2)).
  - intros [[t effects] coverage] visited [p a] s2 Hin [K2 A2].
    eapply List.Forall_forall in Harms as [Hp Ha]; [|done]. cbn [arm_pattern arm_value] in *.
    wp_step. apply wp_check_pattern; [done|]. cbv zeta. wp_step.
    apply wp_with_scope; [exact (kept_cinv _ _ Hs K2)|].
    intros s3 I3 (_ & _ & D3 & _). wp_step. apply wp_pattern_bindings; [done|]. intros bs.
    unfold env_insert_all. wp_steps. pose proof (grown_env_extend bs s3 I3) as G3.
    eapply wp_child; [done|by eapply grown_cinv| |apply kept_refl|].
    { rewrite (grown_depth _ _ G3), D3. by rewrite (kept_depth _ _ K2). }
    intros f s4 K4 I4 D4 A4. split.
    + eapply grown_trans; [done|]. apply kept_grown; [by eapply grown_cinv|done].
    + intros s5 K5. wp_step. split; [by eapply kept_trans|]. cbn [fst snd].
      rewrite List.map_app, concat_app, (assoc_L (++)). cbn. rewrite app_nil_r. by apply auth_union.
  - split; [done|]. cbn. by rewrite app_nil_r.
  - intros [[t effects] [catch_all covered]] s2 [K2 A2]. cbn [fst snd] in *. wp_steps.
    case_match; [by apply wp_raise_fit|]. by wp_step.
Qed.

Lemma wp_handle h source v arms s :
  child h source v -> Forall (arm_child h source) arms -> cinv s -> check_depth s = D ->
  inner_spec h (expr_caps v ++ concat (List.map arm_caps arms)) (handle_ rec source v arms) s.
Proof.
  intros Hv Harms Hs Hd. unfold inner_spec, handle_. pose proof (kept_refl s) as K.
  wp_step. eapply wp_child; [done..|]. intros fact s1 K1 I1 D1 A1. cbv zeta. wp_step.
  apply (wp_for_each_prefix (fun acc visited s2 => kept s s2 /\
    auth catalog (concat (List.map arm_caps visited)) acc.1.2)).
  - intros [[t effects] [catches_all handled]] visited [p a] s2 Hin [K2 A2].
    eapply List.Forall_forall in Harms as [Hp Ha]; [|done]. cbn [arm_pattern arm_value] in *.
    wp_step. apply wp_check_pattern; [done|].
    destruct (match node p with PWildcard | PBind _ => _ | PConstructor _ _ => _ | _ => _ end)
      as [[rethrow catches_all'] handled'].
    wp_steps. apply wp_with_scope; [exact (kept_cinv _ _ Hs K2)|].
    intros s3 I3 (_ & _ & D3 & _). wp_step. apply wp_lift_ok; [by apply pattern_names_ok|].
    intros names. unfold env_insert_names, env_insert_all. wp_steps.
    pose proof (grown_env_extend (List.map (fun name => (name, TyAny)) names) s3 I3) as G3.
    eapply wp_child; [done|by eapply grown_cinv| |apply kept_refl|].
    { rewrite (grown_depth _ _ G3), D3. cbn. by rewrite (kept_depth _ _ K2). }
    intros f s4 K4 I4 D4 A4. split.
    + eapply grown_trans; [done|]. apply kept_grown; [by eapply grown_cinv|done].
    + intros s5 K5%kept_rethrow. wp_steps. split; [by eapply kept_trans|]. by apply auth_snoc.
  - split; [done|apply auth_none].
  - intros [[t effects] [catches_all handled]] s2 [K2 A2]. cbn [fst snd] in *. wp_step.
    split; [done|]. apply auth_union; [|done]. by eapply auth_same.
Qed.

Lemma wp_check_block h source fs s :
  Forall (fun f => (form_height f <= h)%N /\ form_spans (P source) f) fs ->
  cinv s -> check_depth s = D ->
  inner_spec h (concat (List.map form_caps fs)) (block_ rec source fs) s.
Proof.
  intros Hfs Hs Hd. unfold inner_spec, block_. apply wp_with_scope; [done|].
  intros s1 I1 (_ & _ & D1 & _).
  apply (wp_for_each_prefix (fun fact visited s2 => grown s1 s2 /\
    auth catalog (concat (List.map form_caps visited)) (fact_effects fact))).
  - intros fact visited f s2 Hin [G2 A2]. eapply List.Forall_forall in Hfs as [Hh Hf]; [|done].
    wp_step. eapply wp_mono; [apply wp_check_form; [done|by eapply grown_cinv|]
      | |intros d; by apply fit_error_mono].
    { rewrite (grown_depth _ _ G2). by rewrite D1. }
    intros fact' s3 [G3 A3]. wp_step. split; [by eapply grown_trans|]. by apply auth_snoc.
  - split; [by apply grown_refl|apply auth_none].
  - intros fact s2 [G2 A2]. by split.
Qed.

(** *** [expr_inner] *)

Lemma children_of {A} (f : A -> Expr) h source l :
  (max_list (List.map (fun x => kind_height (node (f x))) l) <= h)%N ->
  all_of (fun x => P source (span (f x)) /\ kind_spans (P source) (node (f x))) l ->
  Forall (fun x => child h source (f x)) l.
Proof.
  rewrite max_list_le, all_of_Forall, !List.Forall_forall. intros Hh Hs x Hin. split.
  - apply Hh. by apply (in_map (fun x => kind_height (node (f x)))).
  - by apply Hs.
Qed.

Lemma arms_of h source arms :
  (max_list (List.map arm_height arms) <= h)%N -> all_of (arm_spans (P source)) arms ->
  Forall (arm_child h source) arms.
Proof.
  rewrite max_list_le, all_of_Forall, !List.Forall_forall. intros Hh Hs [p v] Hin.
  specialize (Hh _ (in_map arm_height _ _ Hin)). specialize (Hs _ Hin). cbn in *.
  destruct Hs as [? ?]. by split; [|split].
Qed.

Lemma forms_of h source fs :
  (max_list (List.map (fun f => form_kind_height (node f)) fs) <= h)%N ->
  all_of (fun f => P source (span f) /\ form_kind_spans (P source) (node f)) fs ->
  Forall (fun f => (form_height f <= h)%N /\ form_spans (P source) f) fs.
Proof.
  rewrite max_list_le, all_of_Forall, !List.Forall_forall. intros Hh Hs f Hin. split.
  - apply Hh. by apply (in_map (fun f => form_kind_height (node f))).
  - by apply Hs.
Qed.

Lemma inner_weaken h h' caps m s : (h <= h')%N -> inner_spec h caps m s -> inner_spec h' caps m s.
Proof. intros Hle Hm. eapply wp_mono; [exact Hm|done|]. intros d. by apply fit_error_mono. Qed.

Lemma wp_expr_inner source e s :
  expr_spans (P source) e -> cinv s -> check_depth s = D ->
  inner_spec (expr_height e - 1) (expr_caps e)
    (expr_inner catalog max_fragment_tokens max_parse_depth rec source e) s.
Proof.
  intros [He Hk] Hs Hd. unfold expr_inner, expr_height, expr_caps.
  pose proof (fun k Hn => wp_leaves source e s k Hn He Hs Hd) as Hleaf. specialize (Hleaf _ eq_refl).
  destruct (node e) as [v| | | | |u|n|n|n|vs|fs|ps b|f a|t n|op v|op l r|v t|c t f|v arms|v arms|fs];
    cbn [kind_spans kind_height kind_caps] in *; try apply inner_pure;
    try (eapply inner_weaken; [|exact Hleaf]; lia).
  - eapply inner_weaken; [|by apply wp_string_expr]. lia.
  - apply wp_list_expr; [|done..]. apply (children_of (fun e => e)); [lia|done].
  - apply wp_record_expr; [|done..]. apply (children_of snd); [lia|done].
  - destruct Hk as [? ?]. apply wp_lambda_expr; try done. split; [unfold expr_height; lia|done].
  - destruct Hk. apply wp_apply_expr; try done; (split; [unfold expr_height; lia|done]).
  - apply wp_field_expr; try done. split; [unfold expr_height; lia|done].
  - apply wp_unary_expr; try done. split; [unfold expr_height; lia|done].
  - destruct Hk. apply wp_binary; try done; (split; [unfold expr_height; lia|done]).
  - destruct Hk. apply wp_pipe_expr; try done; (split; [unfold expr_height; lia|done]).
  - destruct Hk as (? & ? & ?). apply wp_if; try done; (split; [unfold expr_height; lia|done]).
  - destruct Hk. apply wp_match; try done; [split; [unfold expr_height; lia|done]|].
    apply arms_of; [lia|done].
  - destruct Hk. apply wp_handle; try done; [split; [unfold expr_height; lia|done]|].
    apply arms_of; [lia|done].
  - apply wp_check_block; try done. apply forms_of; [lia|done].
Qed.
End Expr.

(** ** [Checker::expr] and the entry points *)

Section Entry.
Context `{UnicodeTables} `{JsonStr} `{BuildProfile}.

Lemma expr_height_pos e : (1 <= expr_height e)%N.
Proof. unfold expr_height. destruct (node e); cbn; lia. Qed.

Lemma wp_check_expr catalog tokens depth n :
  (depth < usize_max)%N ->
  forall d, (d <= depth)%N -> (depth < N.of_nat n + d)%N ->
  expr_spec catalog depth (check_expr catalog tokens depth n) d.
Proof.
  intros Hmax. induction n as [|n IH]; intros d Hle Hfuel source e s He Hs Hd; [lia|].
  change (wp (enter_expr depth source e;;
    result ← expr_inner catalog tokens depth (check_expr catalog tokens depth n) source e;
    exit_expr;; mret result) (fun f s' => kept s s' /\ auth catalog (expr_caps e) (fact_effects f))
    (fit_error depth d (expr_height e)) s).
  pose proof (expr_height_pos e) as Hh. wp_step. unfold enter_expr. wp_steps.
  destruct (N.leb_spec depth (check_depth s)) as [Hge|Hlt].
  { apply wp_raise; [apply He|]. intros l c Hfit. lia. }
  wp_steps. set (s1 := set_context _ _ _ s).
  assert (D1 : check_depth s1 = (d + 1)%N) by (cbn; lia).
  eapply wp_mono; [apply (wp_expr_inner _ _ _ Hmax _ (d + 1)%N)| |].
  - apply IH; lia.
  - done.
  - exact Hs.
  - done.
  - intros f s2 [K A]. pose proof (kept_depth _ _ K) as D2. wp_step. unfold exit_expr. wp_step. wp_step.
    rewrite (proj2 (N.eqb_neq (check_depth s2) 0)) by lia. rewrite andb_false_r. wp_steps.
    split; [|done]. destruct K as (? & ? & ? & ? & ? & ? & ? & ?). unfold kept, steady. cbn in *.
    unfold saturating_sub. split_and!; try done; lia.
  - intros x Hx Hfit. apply Hx. lia.
Qed.

Lemma check_bounded_spec source c catalog names bytes tokens depth :
  (depth < usize_max)%N ->
  Forall (form_spans (fun sp => boundary source (start sp))) (forms c) ->
  ok_or (check_with_bindings_bounded source c catalog names bytes tokens depth)
    (fun checked => auth catalog (concat (List.map form_caps (forms c))) (cell_effects checked))
    (fun d => Forall (fun f => (form_height f <= depth)%N) (forms c) -> no_checker_nesting d).
Proof.
  intros Hmax Hfs. unfold check_with_bindings_bounded. cbv zeta.
  set (s := set_env _ _). set (rec := check_expr _ _ _ _).
  assert (Hs : cinv (new_bounded bytes)) by (split_and!; [apply prelude_types_wf|constructor..]).
  pose proof (wp_check_cell catalog depth Hmax rec 0
    (wp_check_expr catalog tokens depth (check_fuel depth) Hmax 0 ltac:(lia) ltac:(unfold check_fuel; lia))
    source c (max_list (List.map form_height (forms c))) s) as Hwp.
  assert (Hpre : Forall (fun f => (form_height f <= max_list (List.map form_height (forms c)))%N
    /\ form_spans (fun sp => boundary source (start sp)) f) (forms c)).
  { apply List.Forall_forall. intros f Hin. split; [|by eapply List.Forall_forall in Hfs].
    pose proof (proj1 (max_list_le _ _) (N.le_refl (max_list (List.map form_height (forms c))))) as Hall.
    eapply List.Forall_forall in Hall; [done|by apply in_map]. }
  specialize (Hwp Hpre ltac:(by eapply grown_cinv, grown_env_extend) eq_refl).
  unfold wp in Hwp. destruct (cell_ rec source c s) as [[checked s']|d| |]; cbn; try done.
  - by destruct Hwp as [_ ?].
  - intros Hall. apply Hwp. rewrite N.add_0_r. apply max_list_le.
    apply List.Forall_forall. intros n (f & <- & Hin)%in_map_iff.
    by eapply List.Forall_forall in Hall.
Qed.

Lemma parsed_spans source b n depth c :
  (depth < usize_max)%N -> parse_bounded source b n depth = Ok c ->
  Forall (fun f => (form_height f <= depth)%N) (forms c)
  /\ Forall (form_spans (fun sp => boundary source (start sp))) (forms c).
Proof.
  intros Hmax Hc. pose proof (parse_bounded_spec source b n depth Hmax) as Hs. rewrite Hc in Hs.
  destruct Hs as [Hs _]. split; (eapply Forall_impl; [exact Hs|]); by intros f [].
Qed.
End Entry.

(** C6: checking a parsed cell always returns a result.  For every cell that
    [parse_bounded] accepts, whatever the budgets of the check, the catalog and
    the names already bound, the checker returns a checked cell or a
    diagnostic: the recursion through sub-expressions and through fragments of
    interpolated strings ends, the fragment budgets are never underflowed, the
    assertions of [rollback_scope] and [exit_expr] hold, and every diagnostic
    slices the text it is about at a char boundary. *)
Theorem check_returns `{UnicodeTables} `{JsonStr} `{BuildProfile}
    source b n parse_depth c catalog names bytes tokens depth :
  (parse_depth < usize_max)%N -> (depth < usize_max)%N ->
  parse_bounded source b n parse_depth = Ok c ->
  returns (check_with_bindings_bounded source c catalog names bytes tokens depth).
Proof.
  intros Hp Hd Hc. destruct (parsed_spans _ _ _ _ _ Hp Hc) as [_ Hs].
  pose proof (check_bounded_spec source c catalog names bytes tokens depth Hd Hs) as Hr.
  by destruct (check_with_bindings_bounded _ _ _ _ _ _ _).
Qed.

(** the parser's depth budget is the checker's.  A cell parsed under a depth
    budget is never rejected by the checker's own nesting guard under the same
    budget, nested interpolation fragments included: they are parsed with what
    is left of it. *)
Lemma check_never_nests_too_deep `{UnicodeTables} `{JsonStr} `{BuildProfile}
    source b n depth c catalog names bytes tokens d :
  (depth < usize_max)%N ->
  parse_bounded source b n depth = Ok c ->
  check_with_bindings_bounded source c catalog names bytes tokens depth = Err d ->
  message d <> "checker nesting budget exceeded"%string.
Proof.
  intros Hd Hc He. destruct (parsed_spans _ _ _ _ _ Hd Hc) as [Hh Hs].
  pose proof (check_bounded_spec source c catalog names bytes tokens depth Hd Hs) as Hr.
  rewrite He in Hr. by apply Hr.
Qed.

(** C1: no ambient authority.  The authority row of an accepted cell holds only
    capabilities that the catalog knows and permits, and every capability the
    cell mentions anywhere in its tree is in the row. *)
Theorem check_authority `{UnicodeTables} `{JsonStr} `{BuildProfile}
    source b n parse_depth c catalog names bytes tokens depth checked :
  (parse_depth < usize_max)%N -> (depth < usize_max)%N ->
  parse_bounded source b n parse_depth = Ok c ->
  check_with_bindings_bounded source c catalog names bytes tokens depth = Ok checked ->
  (forall name, In name (authority (cell_effects checked)) ->
     is_Some (effect_ catalog name) /\ permits catalog name = true)
  /\ (forall name f, In f (forms c) -> In name (form_caps f) ->
        In name (authority (cell_effects checked))).
Proof.
  intros Hp Hd Hc Hok. destruct (parsed_spans _ _ _ _ _ Hp Hc) as [_ Hs].
  pose proof (check_bounded_spec source c catalog names bytes tokens depth Hd Hs) as Hr.
  rewrite Hok in Hr. destruct Hr as [Hg Hl]. split.
  - intros name Hin. by eapply List.Forall_forall in Hg.
  - intros name f Hf Hin. apply Hl. apply in_concat. exists (form_caps f). split; [by apply in_map|done].
Qed.

(** checking an expression leaves no trace.  A successful check of a
    well-placed expression restores the environment, the local types and the
    constructors (values and undo log), the row context, the rethrow row and
    the nesting depth; only the fragment budgets shrink. *)
Lemma check_expr_frame `{UnicodeTables} `{JsonStr} `{BuildProfile}
    catalog tokens depth source e s f s' :
  (depth < usize_max)%N -> (check_depth s <= depth)%N -> cinv s ->
  expr_spans (fun sp => boundary source (start sp)) e ->
  check_expr catalog tokens depth (check_fuel depth) source e s = Ok (f, s') -> kept s s'.
Proof.
  intros Hd Hs Hi He Hrun.
  eapply (wp_ok _ _ _ _ _ _ (wp_check_expr catalog tokens depth (check_fuel depth) Hd (check_depth s) Hs
    ltac:(unfold check_fuel; lia) source e s He Hi eq_refl) Hrun).
Qed.

(** ** Exhaustiveness *)

(** An arm takes a case (a constructor name, or [true] or [false]). *)
Definition arm_takes (case : string) (a : MatchArm) : Prop :=
  match node (arm_pattern a) with
  | PWildcard | PBind _ => True
  | PConstructor name _ => name = case
  | PBool value => (if value then "true" else "false")%string = case
  | _ => False
  end.

Definition covers_seen (coverage : bool * list string) (visited : list MatchArm) : Prop :=
  (coverage.1 = true -> exists a, In a visited /\ forall case, arm_takes case a)
  /\ (forall case, In case coverage.2 -> exists a, In a visited /\ arm_takes case a).

Lemma covers_seen_step coverage visited a :
  covers_seen coverage visited ->
  covers_seen (arm_coverage (node (arm_pattern a)) coverage) (visited ++ [a]).
Proof.
  destruct coverage as [catch_all covered]. intros [Hall Hseen]. cbn [fst snd] in *.
  assert (Hlast : In a (visited ++ [a])) by (apply in_or_app; right; by left).
  assert (Hall' : catch_all = true -> exists a', In a' (visited ++ [a]) /\ forall case, arm_takes case a').
  { intros Hc. destruct (Hall Hc) as (a' & ? & ?). exists a'. split; [by apply in_or_app; left|done]. }
  assert (Hseen' : forall case, In case covered -> exists a', In a' (visited ++ [a]) /\ arm_takes case a').
  { intros case Hc. destruct (Hseen case Hc) as (a' & ? & ?). exists a'. split; [by apply in_or_app; left|done]. }
  unfold covers_seen, arm_coverage.
  destruct (node (arm_pattern a)) eqn:E; cbn [fst snd]; (split; [try done|try done]);
    try (intros _; exists a; split; [done|]; intros case; unfold arm_takes; by rewrite E);
    intros case [->|Hc]%bs_insert_In; try (by apply Hseen'); exists a; (split; [done|]);
    unfold arm_takes; by rewrite E.
Qed.

Lemma match_covers `{UnicodeTables} `{JsonStr} `{BuildProfile} rec source e v arms s f s' :
  match_ rec source e v arms s = Ok (f, s') ->
  exists fv s1, rec source v s = Ok (fv, s1) /\
    forall case, In case (expected_cases (ty fv) (local_types s')) ->
      exists a, In a arms /\ arm_takes case a.
Proof.
  unfold match_. intros (fv & s1 & Hv & Hrun)%bind_ok. exists fv, s1. split; [done|].
  apply bind_ok in Hrun as ([[t effects] coverage] & s2 & Hloop & Hrun).
  assert (Hc : covers_seen coverage arms).
  { eapply (for_each_inv (fun acc visited => covers_seen acc.2 visited)) in Hloop; [exact Hloop| |].
    - intros [[t' effects'] coverage'] visited a s3 acc' s4 HI Hbody.
      apply bind_ok in Hbody as (_ & s5 & _ & Hbody). cbv zeta in Hbody.
      apply bind_ok in Hbody as (fact & s6 & _ & Hbody). injection Hbody as <- _.
      by apply covers_seen_step.
    - by split. }
  destruct coverage as [catch_all covered]. destruct Hc as [Hall Hseen]. cbn [fst snd] in *.
  apply bind_ok in Hrun as (s3 & s4 & [= <- <-] & Hrun). intros case Hin.
  destruct catch_all.
  - destruct Hall as (a & ? & ?); [done|]. by exists a.
  - case_match eqn:Hb; [unfold raise in Hrun; by case_match|]. injection Hrun as _ <-.
    apply Hseen. apply andb_false_iff in Hb as [Hb|Hb]; apply negb_false_iff in Hb.
    + apply bool_decide_eq_true in Hb. rewrite Hb in Hin. done.
    + by apply (proj1 (bs_subset_true _ _) Hb).
Qed.

(** Every arm of an accepted match passed [check_pattern]. *)
Lemma match_checks `{UnicodeTables} `{JsonStr} `{BuildProfile} rec source e v arms s f s' fv s1 :
  match_ rec source e v arms s = Ok (f, s') -> rec source v s = Ok (fv, s1) ->
  Forall (fun a => exists s2 r, check_pattern source (arm_pattern a) (ty fv) s2 = Ok r) arms.
Proof.
  unfold match_. intros (fv' & s1' & Hv' & Hrun)%bind_ok Hv. rewrite Hv in Hv'. injection Hv' as <- <-.
  apply bind_ok in Hrun as ([[t effects] coverage] & s2 & Hloop & _).
  eapply (for_each_inv (fun acc visited => Forall (fun a => exists s2 r,
    check_pattern source (arm_pattern a) (ty fv) s2 = Ok r) visited)) in Hloop; [exact Hloop| |constructor].
  intros [[t' effects'] coverage'] visited a s3 acc' s4 HI Hbody.
  apply bind_ok in Hbody as (u & s5 & Hc & _). apply Forall_app. split; [done|].
  constructor; [|constructor]. by eexists _, _.
Qed.

(** an accepted match is exhaustive in its cases.  When the checker accepts a
    match, every case of the scrutinee's type ([true] and [false], or every
    constructor of its local sum type) is taken by some arm: a wildcard, a
    binding, or a pattern for that very case. *)
Lemma match_exhaustive `{UnicodeTables} `{JsonStr} `{BuildProfile} rec source e v arms s f s' :
  match_ rec source e v arms s = Ok (f, s') ->
  exists fv s1, rec source v s = Ok (fv, s1) /\
    forall case, In case (expected_cases (ty fv) (local_types s')) ->
      exists a, In a arms /\ arm_takes case a.
Proof. apply match_covers. Qed.

(** ** Unification *)

Lemma ty_eqb_refl t : ty_eqb t t = true.
Proof. by apply ty_eqb_eq. Qed.

Lemma ty_eqb_sym a b : ty_eqb a b = ty_eqb b a.
Proof.
  destruct (ty_eqb a b) eqn:E; symmetry.
  - apply ty_eqb_eq in E as ->. apply ty_eqb_refl.
  - destruct (ty_eqb b a) eqn:E'; [|done]. apply ty_eqb_eq in E' as ->. by rewrite ty_eqb_refl in E.
Qed.

Lemma unify_sym a b : unify a b = unify b a.
Proof.
  unfold unify. rewrite (ty_eqb_sym a b), (andb_comm (numeric a)).
  destruct (ty_eqb a TyNever) eqn:Ea, (ty_eqb b TyNever) eqn:Eb; cbn; try done.
  - apply ty_eqb_eq in Ea, Eb. congruence.
  - destruct (ty_eqb b a) eqn:E; [|done]. by apply ty_eqb_eq in E.
Qed.

(** Unification is a symmetric join for assignability.  The type of an [if] or
    [match] does not depend on the order of two branches, and a value of either
    branch's type can be assigned where the unified type is expected (a branch
    of type [Never] produces no value). *)
Lemma unify_joins a b source e :
  unify a b = unify b a
  /\ (a <> TyNever -> ensure_assignable source e (unify a b) a = Ok tt)
  /\ (b <> TyNever -> ensure_assignable source e (unify a b) b = Ok tt).
Proof.
  assert (Hl : forall a b, a <> TyNever -> ensure_assignable source e (unify a b) a = Ok tt).
  { clear. intros a b Ha. unfold ensure_assignable, unify.
    destruct (ty_eqb a TyNever) eqn:Ea; [by apply ty_eqb_eq in Ea|].
    destruct (ty_eqb b TyNever || ty_eqb a b); [by rewrite ty_eqb_refl, !orb_true_r|].
    destruct (numeric a) eqn:Na; cbn; [|done]. destruct (numeric b); cbn; [|done].
    unfold numeric_compatible. rewrite Na. by rewrite !orb_true_r. }
  split_and!; [apply unify_sym|apply Hl|]. rewrite unify_sym. apply Hl.
Qed.

(** a local sum type can escape its cell.  The escape test looks at the type
    of the bound value, not at the types of the names the pattern binds: in this
    cell the value has type [Any], the payload of [Hit] has the local type [U],
    and the accepted cell has a persistent binding of a local type. *)
Lemma local_type_escapes (profile : BuildProfile) :
  let _ := ascii_tables in let _ := plain_json in
  let source := chars "type U = | C; type T = | Hit U; let Hit x = sum [1]" in
  exists checked,
    (c ← parse source; check source c catalog_new) = Ok checked
    /\ bindings checked = [("x"%string, TyLocal "U")] /\ contains_local (TyLocal "U") = true.
Proof.
  cbv zeta. destruct profile; eexists; (split; [vm_compute; reflexivity|by split]).
Qed.

(** A list of mixed types is typed as numbers.  [Any] counts as numeric in
    [unify], so adding a number to a list of type [Any] makes it a list of
    decimals: the cell below is accepted with that type, and a pattern for the
    string it holds is then rejected. *)
Lemma mixed_list_is_decimal (profile : BuildProfile) :
  let _ := ascii_tables in let _ := plain_json in
  let run text := let source := chars text in c ← parse source; check source c catalog_new in
  (exists checked, run "let xs = [null, true, 1]"%string = Ok checked
     /\ bindings checked = [("xs"%string, TyList TyDecimal)])
  /\ (exists d, run "match [null, true, 1] { | [null, _, _] -> 1 | _ -> 2 }"%string = Err d
        /\ code d = "TM3022"%string).
Proof.
  cbv zeta. destruct profile; (split; [eexists; split; [vm_compute; reflexivity|done]|]);
    (eexists; split; [vm_compute; reflexivity|done]).
Qed.

(** Documented names the prelude does not have.  The language reference names
    the prelude function [concat] for lists; a cell that uses it is rejected as
    an unbound name. *)
Lemma concat_is_unbound (profile : BuildProfile) :
  let _ := ascii_tables in let _ := plain_json in
  let source := chars "concat [1] [2]" in
  exists d, (c ← parse source; check source c catalog_new) = Err d
    /\ code d = "TM3006"%string /\ bm_get "concat" prelude_types = None.
Proof.
  cbv zeta. destruct profile; eexists; (split; [vm_compute; reflexivity|]); split; vm_compute; reflexivity.
Qed.

(** ** Witnesses *)

Definition sample_catalog : CapabilityCatalog :=
  allow "fs.*" (register (signature_new "fs.read" TyAny TyString) catalog_new).

Definition sample_cell : list char := chars "let x = @fs.read {path: 1}; if true then x else do { x }".

Lemma check_returns_witness :
  let _ := ascii_tables in let _ := plain_json in
  exists c, parse_bounded sample_cell 100 100 8 = Ok c
    /\ returns (@check_with_bindings_bounded _ _ true sample_cell c sample_catalog [] 100 100 3).
Proof.
  cbv zeta. eexists. split; [vm_compute; reflexivity|].
  apply (@check_returns ascii_tables plain_json true sample_cell 100 100 8);
    (vm_compute; reflexivity).
Defined.

Lemma check_never_nests_too_deep_witness :
  let _ := ascii_tables in let _ := plain_json in
  exists c d, parse_bounded (chars "@fs.write 1") 100 100 3 = Ok c
    /\ @check_with_bindings_bounded _ _ false (chars "@fs.write 1") c sample_catalog [] 100 100 3 = Err d
    /\ message d <> "checker nesting budget exceeded"%string.
Proof.
  cbv zeta. do 2 eexists. split; [vm_compute; reflexivity|]. split; [vm_compute; reflexivity|].
  refine (@check_never_nests_too_deep ascii_tables plain_json false (chars "@fs.write 1") 100 100 3
    _ sample_catalog [] 100 100 _ _ _ _).
  - vm_compute. reflexivity.
  - vm_compute. reflexivity.
  - vm_compute. reflexivity.
Defined.

Lemma check_authority_witness :
  let _ := ascii_tables in let _ := plain_json in
  exists c checked, parse_bounded sample_cell 100 100 8 = Ok c
    /\ @check_with_bindings_bounded _ _ true sample_cell c sample_catalog [] 100 100 8 = Ok checked
    /\ (forall name, In name (authority (cell_effects checked)) ->
          is_Some (effect_ sample_catalog name) /\ permits sample_catalog name = true)
    /\ (forall name f, In f (forms c) -> In name (form_caps f) ->
          In name (authority (cell_effects checked))).
Proof.
  cbv zeta. do 2 eexists. split; [vm_compute; reflexivity|]. split; [vm_compute; reflexivity|].
  refine (@check_authority ascii_tables plain_json true sample_cell 100 100 8
    _ sample_catalog [] 100 100 8 _ _ _ _ _).
  - vm_compute. reflexivity.
  - vm_compute. reflexivity.
  - vm_compute. reflexivity.
  - vm_compute. reflexivity.
Defined.

Definition placed {A} (k : A) : Spanned A := mkSpanned k (mkSpan 0 0).
Definition sample_scrutinee : Expr := placed (EBool true).
Definition sample_arms : list MatchArm :=
  [mkArm (placed (PBool true)) (placed (EInt 1)); mkArm (placed (PBool false)) (placed (EInt 2))].
Definition sample_match : Expr := placed (EMatch sample_scrutinee sample_arms).

Lemma unify_joins_witness :
  unify TyInt TyDecimal = unify TyDecimal TyInt
  /\ ensure_assignable [] (placed ENull) (unify TyInt TyDecimal) TyInt = Ok tt
  /\ ensure_assignable [] (placed ENull) (unify TyInt TyDecimal) TyDecimal = Ok tt.
Proof.
  destruct (unify_joins TyInt TyDecimal [] (placed ENull)) as (Hs & Ha & Hb).
  split; [exact Hs|]. split; [apply Ha|apply Hb]; discriminate.
Defined.

Lemma check_expr_frame_witness :
  exists f s', @check_expr ascii_tables plain_json true catalog_new 10 5 (check_fuel 5) [] sample_match
                 (new_bounded 10) = Ok (f, s')
    /\ @kept true (new_bounded 10) s'.
Proof.
  do 2 eexists. split; [vm_compute; reflexivity|].
  eapply (@check_expr_frame ascii_tables plain_json true catalog_new 10 5 [] sample_match (new_bounded 10)).
  - vm_compute. reflexivity.
  - vm_compute. discriminate.
  - split_and!; [apply prelude_types_wf|constructor..].
  - pose proof (boundary_zero []). cbn. split_and!; done.
  - vm_compute. reflexivity.
Defined.

Lemma match_exhaustive_witness :
  let rec := @check_expr ascii_tables plain_json true catalog_new 10 5 5 in
  exists f s',
    @match_ true rec [] sample_match sample_scrutinee sample_arms (new_bounded 10) = Ok (f, s')
    /\ exists fv s1, rec [] sample_scrutinee (new_bounded 10) = Ok (fv, s1) /\
       forall case, In case (expected_cases (ty fv) (local_types s')) ->
         exists a, In a sample_arms /\ arm_takes case a.
Proof.
  cbv zeta. do 2 eexists. split; [vm_compute; reflexivity|].
  eapply (@match_exhaustive ascii_tables plain_json true
    (@check_expr ascii_tables plain_json true catalog_new 10 5 5) [] sample_match).
  vm_compute. reflexivity.
Defined.
