(* ===== verification/Machine.v ===== *)
(** * The effect continuation machine ([machine.rs])

    A suspended host effect is resumed through a one-shot token.  Every method
    takes the machine and returns its answer with the machine after the call; a
    refused call leaves the machine as it was.  The generation is a [u64]:
    [generation += 1] panics on overflow when debug assertions are compiled in
    and wraps otherwise. *)

From stdpp Require Import base tactics list strings.
From Stdlib Require Import NArith Lia.
From S2P Require Import Prelude ScopedMap.

Inductive EffectState := Running | Suspended | Completed | Failed | Cancelled.

#[global] Instance effect_state_eq_dec : EqDecision EffectState.
Proof. solve_decision. Defined.

Record ResumeToken := mkToken {
  token_cell_id : string;
  token_node_id : string;
  token_origin : string;
  token_generation : N;
}.

#[global] Instance resume_token_eq_dec : EqDecision ResumeToken.
Proof. solve_decision. Defined.

Record EffectMachine := mkMachine {
  cell_id : string;
  node_id : string;
  origin : string;
  generation : N;
  state : EffectState;
}.

Inductive EffectMachineError :=
| InvalidState (operation : string) (from : EffectState)
| StaleContinuation.

Section Machine.
Context `{BuildProfile}.

Definition machine_new (cell_id node_id origin : string) : EffectMachine :=
  mkMachine cell_id node_id origin 0 Running.

Definition set_state (st : EffectState) (m : EffectMachine) : EffectMachine :=
  mkMachine (cell_id m) (node_id m) (origin m) (generation m) st.

Definition invalid (operation : string) (m : EffectMachine) : EffectMachineError :=
  InvalidState operation (state m).

(** [self.generation += 1] on a [u64]. *)
Definition next_generation (g : N) : option N :=
  if (g <? usize_max)%N then Some (g + 1)%N
  else if debug_assertions then None else Some 0%N.

Definition suspend (m : EffectMachine) : outcome EffectMachineError ResumeToken * EffectMachine :=
  if bool_decide (state m <> Running) then (Err (invalid "suspend" m), m)
  else
    match next_generation (generation m) with
    | None => (Panicked, m)
    | Some g =>
        (Ok (mkToken (cell_id m) (node_id m) (origin m) g),
         mkMachine (cell_id m) (node_id m) (origin m) g Suspended)
    end.

Definition resume (token : ResumeToken) (m : EffectMachine)
    : outcome EffectMachineError unit * EffectMachine :=
  if bool_decide (state m <> Suspended) then (Err (invalid "resume" m), m)
  else if negb (String.eqb (token_cell_id token) (cell_id m))
       || negb (String.eqb (token_node_id token) (node_id m))
       || negb (String.eqb (token_origin token) (origin m))
       || negb (token_generation token =? generation m)%N
  then (Err StaleContinuation, m)
  else (Ok tt, set_state Running m).

Definition terminal (operation : string) (next : EffectState) (m : EffectMachine)
    : outcome EffectMachineError unit * EffectMachine :=
  if negb (bool_decide (state m = Running) || bool_decide (state m = Suspended))
  then (Err (invalid operation m), m)
  else (Ok tt, set_state next m).

Definition complete : EffectMachine -> outcome EffectMachineError unit * EffectMachine :=
  terminal "complete" Completed.
Definition fail_ : EffectMachine -> outcome EffectMachineError unit * EffectMachine :=
  terminal "fail" Failed.
Definition cancel : EffectMachine -> outcome EffectMachineError unit * EffectMachine :=
  terminal "cancel" Cancelled.

(** ** Runs of the machine *)

Inductive command := CSuspend | CResume (token : ResumeToken) | CComplete | CFail | CCancel.

(** What a call answered: a token, plain success, or a refusal. *)
Inductive answer := Issued (token : ResumeToken) | Done | Refused (e : EffectMachineError) | Crashed.

Definition unit_answer (r : outcome EffectMachineError unit * EffectMachine) : answer * EffectMachine :=
  (match r.1 with Ok _ => Done | Err e => Refused e | Panicked | OutOfFuel => Crashed end, r.2).

Definition machine_step (c : command) (m : EffectMachine) : answer * EffectMachine :=
  match c with
  | CSuspend =>
      let r := suspend m in
      (match r.1 with Ok t => Issued t | Err e => Refused e | Panicked | OutOfFuel => Crashed end, r.2)
  | CResume t => unit_answer (resume t m)
  | CComplete => unit_answer (complete m)
  | CFail => unit_answer (fail_ m)
  | CCancel => unit_answer (cancel m)
  end.

Fixpoint machine_run (cs : list command) (m : EffectMachine) : list (command * answer) * EffectMachine :=
  match cs with
  | [] => ([], m)
  | c :: cs' =>
      let '(a, m1) := machine_step c m in
      let '(trace, m2) := machine_run cs' m1 in
      ((c, a) :: trace, m2)
  end.

(** The step relation: one call and its answer. *)
Inductive machine_steps : EffectMachine -> list (command * answer) -> EffectMachine -> Prop :=
| steps_nil m : machine_steps m [] m
| steps_cons m c a m1 trace m2 :
    machine_step c m = (a, m1) -> machine_steps m1 trace m2 ->
    machine_steps m ((c, a) :: trace) m2.

Lemma machine_run_steps cs m : machine_steps m (machine_run cs m).1 (machine_run cs m).2.
Proof.
  revert m. induction cs as [|c cs IH]; intros m; cbn; [constructor|].
  destruct (machine_step c m) as [a m1] eqn:E. specialize (IH m1).
  destruct (machine_run cs m1) as [trace m2]. by econstructor.
Qed.

(** ** Tokens *)

Definition issued (x : command * answer) : option ResumeToken :=
  match x with (CSuspend, Issued t) => Some t | _ => None end.
Definition accepted (x : command * answer) : option ResumeToken :=
  match x with (CResume t, Done) => Some t | _ => None end.
Definition ended (x : command * answer) : bool :=
  match x with (CComplete, Done) | (CFail, Done) | (CCancel, Done) => true | _ => false end.

Definition is_terminal (st : EffectState) : Prop := st = Completed \/ st = Failed \/ st = Cancelled.

(** The token the machine answers to. *)
Definition current_token (m : EffectMachine) : ResumeToken :=
  mkToken (cell_id m) (node_id m) (origin m) (generation m).

Lemma resume_spec t m :
  resume t m = if decide (state m = Suspended /\ t = current_token m)
               then (Ok tt, set_state Running m)
               else (Err (if decide (state m = Suspended) then StaleContinuation
                          else InvalidState "resume" (state m)), m).
Proof.
  unfold resume, current_token, invalid. case_bool_decide as Hs.
  - rewrite decide_False by naive_solver. by rewrite decide_False.
  - rewrite (decide_True (P := state m = Suspended)) by done.
    destruct t as [c n o g]; cbn.
    destruct (String.eqb_spec c (cell_id m)), (String.eqb_spec n (node_id m)),
      (String.eqb_spec o (origin m)), (N.eqb_spec g (generation m)); cbn;
      first [rewrite decide_True by (split; congruence) | rewrite decide_False by naive_solver]; done.
Qed.

(** Every call preserves the identity of the machine; its state and generation
    change only as listed. *)
Lemma machine_step_cases c m a m1 :
  machine_step c m = (a, m1) ->
  (m1 = m /\ issued (c, a) = None /\ accepted (c, a) = None /\ ended (c, a) = false)
  \/ (exists g, state m = Running /\ next_generation (generation m) = Some g
        /\ m1 = mkMachine (cell_id m) (node_id m) (origin m) g Suspended
        /\ issued (c, a) = Some (current_token m1) /\ accepted (c, a) = None /\ ended (c, a) = false)
  \/ (state m = Suspended /\ m1 = set_state Running m
        /\ issued (c, a) = None /\ accepted (c, a) = Some (current_token m) /\ ended (c, a) = false)
  \/ (exists st, (state m = Running \/ state m = Suspended) /\ is_terminal st /\ m1 = set_state st m
        /\ issued (c, a) = None /\ accepted (c, a) = None /\ ended (c, a) = true).
Proof.
  destruct c as [|t| | |]; cbn.
  - unfold suspend. case_bool_decide as Hs; [intros [= <- <-]; by left|].
    destruct (next_generation (generation m)) as [g|] eqn:E; intros [= <- <-]; [|by left].
    right; left. by exists g.
  - rewrite resume_spec. case_decide as Hd; cbn; intros [= <- <-]; [|by left].
    destruct Hd as [Hs ->]. right; right; left. done.
  - unfold complete, terminal, is_terminal. repeat case_bool_decide; cbn; intros [= <- <-];
      first [by left | right; right; right; exists Completed; split_and!; naive_solver].
  - unfold fail_, terminal, is_terminal. repeat case_bool_decide; cbn; intros [= <- <-];
      first [by left | right; right; right; exists Failed; split_and!; naive_solver].
  - unfold cancel, terminal, is_terminal. repeat case_bool_decide; cbn; intros [= <- <-];
      first [by left | right; right; right; exists Cancelled; split_and!; naive_solver].
Qed.

(** A refusal because of the state. *)
Definition refused_in (st : EffectState) (x : command * answer) : Prop :=
  exists operation, x.2 = Refused (InvalidState operation st).

Lemma machine_step_terminal c m :
  is_terminal (state m) -> exists operation, machine_step c m = (Refused (InvalidState operation (state m)), m).
Proof.
  intros Ht. destruct c; cbn; unfold suspend, resume, complete, fail_, cancel, terminal, invalid;
    destruct Ht as [Hs|[Hs|Hs]]; rewrite Hs; cbn; by eexists.
Qed.

Lemma machine_steps_terminal m trace m' :
  machine_steps m trace m' -> is_terminal (state m) -> m' = m /\ Forall (refused_in (state m)) trace.
Proof.
  induction 1 as [m|m c a m1 trace m2 Hstep _ IH]; intros Ht; [by split|].
  destruct (machine_step_terminal c m Ht) as [op Hc]. rewrite Hstep in Hc. injection Hc as -> ->.
  destruct (IH Ht) as [-> HF]. split; [done|]. constructor; [by eexists|done].
Qed.

Lemma machine_steps_app m t1 t2 m' :
  machine_steps m (t1 ++ t2) m' -> exists m1, machine_steps m t1 m1 /\ machine_steps m1 t2 m'.
Proof.
  revert m. induction t1 as [|x t1 IH]; intros m Hs; [exists m; split; [constructor|done]|].
  cbn in Hs. inversion Hs as [|? c a m1 ? ? Hstep Hrest]; subst.
  destruct (IH _ Hrest) as (m2 & ? & ?). exists m2. split; [by econstructor|done].
Qed.

(** The tokens accepted from here on are not older than the current generation. *)
Definition not_before (m : EffectMachine) (t : ResumeToken) : Prop :=
  if decide (state m = Suspended) then (generation m <= token_generation t)%N
  else (generation m < token_generation t)%N.

Lemma accepted_fresh m trace m' :
  machine_steps m trace m' -> (generation m + len trace <= usize_max)%N ->
  NoDup (omap accepted trace) /\ Forall (not_before m) (omap accepted trace).
Proof.
  induction 1 as [m|m c a m1 trace m2 Hstep _ IH]; intros Hb; [by split; constructor|].
  rewrite len_cons in Hb. unfold not_before in *.
  destruct (machine_step_cases c m a m1 Hstep)
    as [(-> & _ & Ha & _)|[(g & Hs & Hg & -> & _ & Ha & _)
       |[(Hs & -> & _ & Ha & _)|(st & Hs & Ht & -> & _ & Ha & _)]]];
    cbn [omap list_omap]; rewrite Ha.
  - apply IH. lia.
  - unfold next_generation in Hg. rewrite (proj2 (N.ltb_lt _ _)) in Hg by lia.
    injection Hg as <-. cbn in IH. destruct IH as [Hn HF]; [lia|]. split; [done|].
    eapply Forall_impl; [exact HF|]. intros t. rewrite Hs, !decide_True, decide_False by done. lia.
  - cbn in IH. destruct IH as [Hn HF]; [lia|]. rewrite Hs. split; constructor; auto.
    + intros Hin. eapply Forall_forall in HF; [|exact Hin]. rewrite decide_False in HF by done.
      cbn in HF. lia.
    + rewrite decide_True by done. cbn. lia.
    + eapply Forall_impl; [exact HF|]. intros t. rewrite decide_True, decide_False by done. lia.
  - cbn [state set_state generation] in IH. destruct IH as [Hn HF]; [lia|]. split; [done|].
    eapply Forall_impl; [exact HF|]. intros t. cbn beta.
    rewrite (decide_False (P := st = Suspended)) by (destruct Ht as [->|[->| ->]]; done).
    clear HF. intros Hlt. case_decide; lia.
Qed.

Lemma accepted_issued m pre t post m' :
  machine_steps m (pre ++ (CResume t, Done) :: post) m' ->
  t ∈ omap issued pre \/ (state m = Suspended /\ t = current_token m).
Proof.
  revert m. induction pre as [|x pre IH]; intros m Hs; cbn in Hs.
  - inversion Hs as [|? c a m1 ? ? Hstep Hrest]; subst. right.
    destruct (machine_step_cases _ _ _ _ Hstep)
      as [(_ & _ & Ha & _)|[(g & _ & _ & _ & _ & Ha & _)|[(Hst & _ & _ & Ha & _)|(st & _ & _ & _ & _ & Ha & _)]]];
      try discriminate Ha. injection Ha as ->. done.
  - inversion Hs as [|? c a m1 ? ? Hstep Hrest]; subst. destruct (IH _ Hrest) as [Hin|[Hst ->]].
    + left. cbn [omap list_omap]. case_match; [by right|done].
    + destruct (machine_step_cases _ _ _ _ Hstep)
        as [(-> & _)|[(g & _ & _ & Hm & Hi & _)|[(_ & -> & _)|(st & _ & Ht & -> & _)]]].
      * by right.
      * left. cbn [omap list_omap]. rewrite Hi. by left.
      * done.
      * cbn in Hst. subst st. by destruct Ht as [?|[?|?]].
Qed.
End Machine.

(** continuations are one-shot.  In every run of a fresh machine (of fewer than
    2^64 calls) each successful resume presents a token that an earlier suspend
    of this very machine issued, and no token is accepted twice. *)
Lemma resume_one_shot `{BuildProfile} cell node origin cs :
  (len cs < usize_max)%N ->
  let trace := (machine_run cs (machine_new cell node origin)).1 in
  NoDup (omap accepted trace) /\
  forall pre t post, trace = pre ++ (CResume t, Done) :: post -> t ∈ omap issued pre.
Proof.
  intros Hlen trace. pose proof (machine_run_steps cs (machine_new cell node origin)) as Hs.
  assert (Hl : len trace = len cs).
  { unfold trace, len. f_equal. generalize (machine_new cell node origin) as m. clear.
    induction cs as [|c cs IH]; intros m; cbn; [done|]. destruct (machine_step c m) as [a m1].
    specialize (IH m1). destruct (machine_run cs m1). cbn in *. by rewrite IH. }
  split.
  - eapply accepted_fresh; [exact Hs|]. cbn. fold trace. lia.
  - intros pre t post Ht. fold trace in Hs. rewrite Ht in Hs.
    destruct (accepted_issued _ _ _ _ _ Hs) as [Hin|[[=] _]]. done.
Qed.

Lemma resume_one_shot_witness :
  let t := mkToken "c" "n" "o" 1 in
  let cs := [CSuspend; CResume t; CSuspend; CResume t; CCancel] in
  (len cs < usize_max)%N /\
  let trace := (@machine_run true cs (machine_new "c" "n" "o")).1 in
  NoDup (omap accepted trace) /\
  forall pre t post, trace = pre ++ (CResume t, Done) :: post -> t ∈ omap issued pre.
Proof.
  intros t cs. split; [vm_compute; reflexivity|].
  apply (@resume_one_shot true "c" "n" "o" cs). vm_compute. reflexivity.
Defined.

(** ending is final.  Once a call of complete, fail or cancel has succeeded,
    the machine never changes again and every later call, whatever token it
    presents, is refused with [InvalidState]; so at most one ending succeeds. *)
Lemma machine_ends_once `{BuildProfile} m pre x post m' :
  machine_steps m (pre ++ x :: post) m' -> ended x = true ->
  is_terminal (state m') /\ Forall (refused_in (state m')) post.
Proof.
  intros (m1 & _ & Hs)%machine_steps_app He. inversion Hs as [|? c a m2 ? ? Hstep Hrest]; subst.
  assert (Ht : is_terminal (state m2)).
  { destruct (machine_step_cases c m1 a m2 Hstep)
      as [(_ & _ & _ & E)|[(g & _ & _ & _ & _ & _ & E)|[(_ & _ & _ & _ & E)|(st & _ & Ht & -> & _)]]];
      [congruence..|done]. }
  destruct (machine_steps_terminal _ _ _ Hrest Ht) as [-> HF]. by split.
Qed.

Lemma machine_ends_once_witness :
  let m := machine_new "c" "n" "o" in
  let m' := set_state Cancelled m in
  @machine_steps true m ([] ++ (CCancel, Done) :: [(CComplete, Refused (InvalidState "complete" Cancelled))]) m'
  /\ is_terminal (state m')
  /\ Forall (refused_in (state m')) [(CComplete, Refused (InvalidState "complete" Cancelled))].
Proof.
  intros m m'. assert (Hs : @machine_steps true m
    ([] ++ (CCancel, Done) :: [(CComplete, Refused (InvalidState "complete" Cancelled))]) m')
    by exact (@machine_run_steps true [CCancel; CComplete] m).
  split; [exact Hs|]. apply (@machine_ends_once true m [] (CCancel, Done) _ m' Hs). reflexivity.
Defined.
