(* ===== verification/Value.v ===== *)
(** * Runtime values and their JSON image ([value.rs])

    [serde_json::Number] is not part of the program: it is the class
    [JsonNumber], with its documented behaviour in [JsonNumberLaws].  A
    [serde_json::Map] is an ordered map like [BTreeMap].  A callable is behind an
    [Rc]: its contents are shared read-only, and [rc] numbers the allocation, which
    is what [Rc::as_ptr] tells apart; equality and JSON ignore it. *)

From stdpp Require Import base tactics list strings.
From Stdlib Require Import ZArith NArith Lia SpecFloat.
From S2P Require Import Prelude BTree Numbers Syntax.

Inductive Value : Type :=
| VNull
| VBool (b : bool)
| VInt (z : Z)
| VDecimal (f : f64)
| VString (s : string)
| VUri (s : string)
| VList (vs : list Value)
| VRecord (fields : list (string * Value))
| VTagged (name : string) (tag_payload : option Value)
| VCallable (rc : N) (c : Callable)
with Callable : Type :=
| CBuiltin (name : string) (args : list Value) (arity : N)
| CBuiltinDataLast (name : string) (args : list Value) (data : Value) (arity : N)
| CUser (params : list Pattern) (body : Expr) (captured : list (string * Value)) (args : list Value)
| CRow (body : Expr) (captured : list (string * Value))
| CCapability (name : string)
| CConstructor (name : string).

Definition Environment := list (string * Value).

(** ** JSON *)

Class JsonNumber := {
  num : Type;
  number_from_i64 : Z -> num;
  number_from_f64 : f64 -> option num;
  number_as_i64 : num -> option Z;
  number_as_f64 : num -> option f64;
  number_eqb : num -> num -> bool;
}.

(** What [serde_json] documents: a float that is not finite is not a JSON number,
    converting back gives the number converted, a float is not an integer, and
    equality is symmetric and exact on integers. *)
Class JsonNumberLaws `{JsonNumber} := {
  from_f64_finite f : is_Some (number_from_f64 f) <-> f64_is_finite f = true;
  as_i64_from_i64 z : (i64_min <= z <= i64_max)%Z -> number_as_i64 (number_from_i64 z) = Some z;
  as_i64_from_f64 f n : number_from_f64 f = Some n -> number_as_i64 n = None;
  as_f64_from_f64 f n : number_from_f64 f = Some n -> number_as_f64 n = Some f;
  eqb_from_i64 a b : number_eqb (number_from_i64 a) (number_from_i64 b) = Z.eqb a b;
  number_eqb_sym a b : number_eqb a b = number_eqb b a;
}.

Section Json.
Context `{JsonNumber}.

Inductive Json : Type :=
| JNull
| JBool (b : bool)
| JNumber (n : num)
| JString (s : string)
| JArray (js : list Json)
| JObject (fields : list (string * Json)).

(** The derived [PartialEq] of [serde_json::Value]. *)
Fixpoint json_eqb (a b : Json) : bool :=
  match a, b with
  | JNull, JNull => true
  | JBool x, JBool y => Bool.eqb x y
  | JNumber x, JNumber y => number_eqb x y
  | JString x, JString y => String.eqb x y
  | JArray xs, JArray ys =>
      (fix go xs ys :=
         match xs, ys with
         | [], [] => true
         | x :: xs', y :: ys' => json_eqb x y && go xs' ys'
         | _, _ => false
         end) xs ys
  | JObject xs, JObject ys =>
      (fix go xs ys :=
         match xs, ys with
         | [], [] => true
         | (k, x) :: xs', (l, y) :: ys' => String.eqb k l && json_eqb x y && go xs' ys'
         | _, _ => false
         end) xs ys
  | _, _ => false
  end.

Definition function_text : string := "<function>".

Fixpoint to_json (v : Value) : Json :=
  match v with
  | VNull => JNull
  | VBool b => JBool b
  | VInt z => JNumber (number_from_i64 z)
  | VDecimal f => match number_from_f64 f with Some n => JNumber n | None => JNull end
  | VString s | VUri s => JString s
  | VList vs => JArray (List.map to_json vs)
  | VRecord fields => JObject (bm_from (List.map (fun f => (fst f, to_json (snd f))) fields))
  | VTagged name payload =>
      let map := bm_insert "tag" (JString name) [] in
      JObject (match payload with
               | Some p => bm_insert "value" (to_json p) map
               | None => map
               end)
  | VCallable _ _ => JString function_text
  end.

Fixpoint from_json (j : Json) : Value :=
  match j with
  | JNull => VNull
  | JBool b => VBool b
  | JNumber n =>
      match number_as_i64 n with
      | Some z => VInt z
      | None => VDecimal (default (S754_zero false) (number_as_f64 n))
      end
  | JString s => VString s
  | JArray js => VList (List.map from_json js)
  | JObject fields => VRecord (bm_from (List.map (fun f => (fst f, from_json (snd f))) fields))
  end.

Definition kind (v : Value) : string :=
  match v with
  | VNull => "null"
  | VBool _ => "bool"
  | VInt _ => "int"
  | VDecimal _ => "decimal"
  | VString _ => "string"
  | VUri _ => "uri"
  | VList _ => "list"
  | VRecord _ => "record"
  | VTagged _ _ => "constructor"
  | VCallable _ _ => "function"
  end.

(** ** Equality without building JSON *)

Definition string_view (v : Value) : option string :=
  match v with
  | VString s | VUri s => Some s
  | VCallable _ _ => Some function_text
  | _ => None
  end.

(** [visit]: counts one more node, [None] past the budget. *)
Definition visit (max_nodes visits : N) : option N :=
  visits ← checked_add_u64 visits 1;
  if (max_nodes <? visits)%N then None else Some visits.

Definition number_option_eqb (a b : option num) : bool :=
  match a, b with
  | Some x, Some y => number_eqb x y
  | None, None => true
  | _, _ => false
  end.

(** One comparison: the pairs still to be compared (the next one first), or a
    difference; with the visits counted so far.  [None]: out of budget. *)
Definition compare_nodes (max_nodes : N) (left right : Value) (visits : N)
    : option (option (list (Value * Value)) * N) :=
  let same := Some (Some [], visits) in
  let differ := Some (None, visits) in
  let when b := if b : bool then same else differ in
  let tagged name (payload : option Value) record :=
    let expected_len := saturating_add (match payload with Some _ => 1 | None => 0 end) 1 in
    if negb (len record =? expected_len)%N then differ
    else
      match bm_get "tag" record with
      | None => differ
      | Some tag =>
          visits ← visit max_nodes visits;
          if negb (bool_decide (string_view tag = Some name)) then Some (None, visits)
          else
            match payload, bm_get "value" record with
            | Some payload, Some value => Some (Some [(payload, value)], visits)
            | None, None => Some (Some [], visits)
            | _, _ => Some (None, visits)
            end
      end in
  match string_view left, string_view right with
  | Some l, Some r => when (String.eqb l r)
  | _, _ =>
      match left, right with
      | VNull, VNull => same
      | VNull, VDecimal f | VDecimal f, VNull => when (negb (f64_is_finite f))
      | VBool l, VBool r => when (Bool.eqb l r)
      | VInt l, VInt r => when (Z.eqb l r)
      | VDecimal l, VDecimal r => when (number_option_eqb (number_from_f64 l) (number_from_f64 r))
      | VInt l, VDecimal r | VDecimal r, VInt l =>
          when (number_option_eqb (Some (number_from_i64 l)) (number_from_f64 r))
      | VList l, VList r =>
          if negb (length l =? length r)%nat then differ else Some (Some (combine l r), visits)
      | VRecord l, VRecord r =>
          if negb (length l =? length r)%nat then differ
          else if negb (forallb (fun p => String.eqb (fst (fst p)) (fst (snd p))) (combine l r))
          then differ
          else Some (Some (combine (l.*2) (r.*2)), visits)
      | VTagged ln lp, VTagged rn rp =>
          if negb (String.eqb ln rn) then differ
          else
            match lp, rp with
            | Some l, Some r => Some (Some [(l, r)], visits)
            | None, None => same
            | _, _ => differ
            end
      | VTagged name payload, VRecord record | VRecord record, VTagged name payload =>
          tagged name payload record
      | _, _ => differ
      end
  end.

(** The [while let Some(..) = pending.pop()] loop; the top of the stack is the
    head of the list. *)
Fixpoint compare_loop (fuel : nat) (max_nodes : N) (pending : list (Value * Value)) (visits : N)
    : outcome unit (bool * N) :=
  match fuel with
  | O => OutOfFuel
  | S fuel' =>
      match pending with
      | [] => Ok (true, visits)
      | (l, r) :: pending' =>
          match (visits ← visit max_nodes visits; compare_nodes max_nodes l r visits) with
          | None => Err tt
          | Some (None, visits) => Ok (false, visits)
          | Some (Some more, visits) => compare_loop fuel' max_nodes (more ++ pending') visits
          end
      end
  end.

(** The number of nodes of a value; the fuel of the loop. *)
Fixpoint value_nodes (v : Value) : nat :=
  match v with
  | VList vs => S (list_sum (List.map value_nodes vs))
  | VRecord fields => S (list_sum (List.map (fun f => value_nodes (snd f)) fields))
  | VTagged _ (Some p) => S (S (value_nodes p))
  | VTagged _ None => 2
  | _ => 1
  end.

Definition json_semantic_eq_bounded (left right : Value) (max_nodes : N) : outcome unit (bool * N) :=
  compare_loop (S (value_nodes left + value_nodes right)) max_nodes [(left, right)] 0.

(** [impl PartialEq for Value]. *)
Definition value_eqb (left right : Value) : bool :=
  match json_semantic_eq_bounded left right usize_max with
  | Ok (equal, _) => equal
  | _ => false
  end.
End Json.
