(* ===== verification/ValueFacts.v ===== *)
(** * Values and JSON: equality and round trips

    The iterative, budgeted comparison of values decides equality of their JSON
    images; a value that crosses the JSON boundary keeps its image. *)

From stdpp Require Import base tactics list strings.
From Stdlib Require Import ZArith NArith Lia SpecFloat.
From S2P Require Import Prelude BTree Numbers Syntax Value.

(** ** Induction on a value, callables being leaves *)

Section Induction.
Variable P : Value -> Prop.
Hypothesis Hnull : P VNull.
Hypothesis Hbool : forall b, P (VBool b).
Hypothesis Hint : forall z, P (VInt z).
Hypothesis Hdecimal : forall f, P (VDecimal f).
Hypothesis Hstring : forall s, P (VString s).
Hypothesis Huri : forall s, P (VUri s).
Hypothesis Hlist : forall vs, Forall P vs -> P (VList vs).
Hypothesis Hrecord : forall fs, Forall (fun f => P f.2) fs -> P (VRecord fs).
Hypothesis Hbare : forall n, P (VTagged n None).
Hypothesis Htagged : forall n v, P v -> P (VTagged n (Some v)).
Hypothesis Hcallable : forall rc c, P (VCallable rc c).

Fixpoint value_induction (v : Value) : P v :=
  match v with
  | VNull => Hnull
  | VBool b => Hbool b
  | VInt z => Hint z
  | VDecimal f => Hdecimal f
  | VString s => Hstring s
  | VUri s => Huri s
  | VList vs => Hlist vs ((fix go vs : Forall P vs :=
      match vs with
      | [] => Forall_nil_2 _
      | v :: vs' => Forall_cons_2 _ _ _ (value_induction v) (go vs')
      end) vs)
  | VRecord fs => Hrecord fs ((fix go fs : Forall (fun f => P f.2) fs :=
      match fs with
      | [] => Forall_nil_2 _
      | f :: fs' => Forall_cons_2 (fun f => P f.2) f fs' (value_induction f.2) (go fs')
      end) fs)
  | VTagged n None => Hbare n
  | VTagged n (Some v) => Htagged n v (value_induction v)
  | VCallable rc c => Hcallable rc c
  end.
End Induction.

(** The invariant of the Rust types: records are [BTreeMap]s, integers are [i64]s. *)
Fixpoint value_wf (v : Value) : Prop :=
  match v with
  | VInt z => (i64_min <= z <= i64_max)%Z
  | VList vs => all_of value_wf vs
  | VRecord fs => bm_wf fs /\ all_of (fun f => value_wf (snd f)) fs
  | VTagged _ (Some p) => value_wf p
  | _ => True
  end.

Lemma bm_wf_map {V W} (g : V -> W) (m : list (string * V)) :
  bm_wf (List.map (fun f => (f.1, g f.2)) m) <-> bm_wf m.
Proof.
  unfold bm_wf. enough ((List.map (fun f => (f.1, g f.2)) m).*1 = m.*1) as -> by done.
  induction m as [|[k v] m IH]; cbn; [done|]. by rewrite IH.
Qed.

Section Facts.
Context `{JsonNumberLaws}.

Lemma to_json_record fs :
  bm_wf fs -> to_json (VRecord fs) = JObject (List.map (fun f => (f.1, to_json f.2)) fs).
Proof. intros Hwf. cbn. by rewrite bm_from_wf; [|apply bm_wf_map]. Qed.

(** *** Symmetry of JSON equality *)

Section JsonInduction.
Variable P : Json -> Prop.
Hypothesis Hnull : P JNull.
Hypothesis Hbool : forall b, P (JBool b).
Hypothesis Hnumber : forall n, P (JNumber n).
Hypothesis Hstring : forall s, P (JString s).
Hypothesis Harray : forall js, Forall P js -> P (JArray js).
Hypothesis Hobject : forall fs, Forall (fun f => P f.2) fs -> P (JObject fs).

Fixpoint json_induction (j : Json) : P j :=
  match j with
  | JNull => Hnull
  | JBool b => Hbool b
  | JNumber n => Hnumber n
  | JString s => Hstring s
  | JArray js => Harray js ((fix go js : Forall P js :=
      match js with
      | [] => Forall_nil_2 _
      | j :: js' => Forall_cons_2 _ _ _ (json_induction j) (go js')
      end) js)
  | JObject fs => Hobject fs ((fix go fs : Forall (fun f => P f.2) fs :=
      match fs with
      | [] => Forall_nil_2 _
      | f :: fs' => Forall_cons_2 (fun f => P f.2) f fs' (json_induction f.2) (go fs')
      end) fs)
  end.
End JsonInduction.

Lemma json_eqb_sym a b : json_eqb a b = json_eqb b a.
Proof.
  revert b. induction a as [|x|x|x|xs IH|xs IH] using json_induction; intros b;
    destruct b as [|y|y|y|ys|ys]; try done; cbn.
  - by destruct x, y.
  - apply number_eqb_sym.
  - apply String.eqb_sym.
  - revert ys. induction IH as [|x xs Hx _ IH]; intros [|y ys]; [done..|]. by rewrite Hx, IH.
  - revert ys. induction IH as [|[k x] xs Hx _ IH]; intros [|[l y] ys]; [done..|].
    cbn in Hx. by rewrite Hx, IH, String.eqb_sym.
Qed.

(** *** One comparison *)

Abbreviation jeq := (fun p : Value * Value => json_eqb (to_json p.1) (to_json p.2)).
Abbreviation pair_wf := (fun p : Value * Value => value_wf p.1 /\ value_wf p.2).

Definition pairs_nodes (ps : list (Value * Value)) : nat :=
  list_sum (List.map (fun p => value_nodes p.1 + value_nodes p.2) ps).

(** What [compare_nodes] may answer for a pair of values. *)
Definition right_answer (l r : Value) (answer : option (list (Value * Value))) : Prop :=
  match answer with
  | None => json_eqb (to_json l) (to_json r) = false
  | Some ps =>
      json_eqb (to_json l) (to_json r) = forallb jeq ps
      /\ Forall pair_wf ps /\ pairs_nodes ps < value_nodes l + value_nodes r
  end.

Lemma list_sum_cons x l : list_sum (x :: l) = x + list_sum l.
Proof. reflexivity. Qed.

Lemma value_nodes_pos v : 1 <= value_nodes v.
Proof. destruct v as [| | | | | | | |n [p|]|]; cbn; lia. Qed.

Lemma right_when (b : bool) l r :
  json_eqb (to_json l) (to_json r) = b ->
  right_answer l r (if b then Some [] else None).
Proof.
  intros Hb. unfold right_answer. destruct b; [|done]. rewrite Hb. split_and!; [done|constructor|].
  pose proof (value_nodes_pos l). cbn. lia.
Qed.

Lemma string_view_json v s : string_view v = Some s <-> to_json v = JString s.
Proof.
  destruct v as [| | |f| | | | | |]; cbn; try naive_solver.
  destruct (number_from_f64 f); naive_solver.
Qed.

Lemma string_view_eqb name v :
  json_eqb (JString name) (to_json v) = bool_decide (string_view v = Some name).
Proof.
  destruct (string_view v) as [s|] eqn:E.
  - pose proof E as E'. apply string_view_json in E' as ->. cbn.
    destruct (String.eqb_spec name s); case_bool_decide; congruence.
  - rewrite bool_decide_eq_false_2 by done.
    destruct (to_json v) eqn:Ej; try done. apply string_view_json in Ej. congruence.
Qed.

Lemma pairs_of_lists l r :
  length l = length r -> all_of value_wf l -> all_of value_wf r ->
  json_eqb (JArray (List.map to_json l)) (JArray (List.map to_json r)) = forallb jeq (combine l r)
  /\ Forall pair_wf (combine l r)
  /\ pairs_nodes (combine l r) = list_sum (List.map value_nodes l) + list_sum (List.map value_nodes r).
Proof.
  revert r. induction l as [|x l IH]; intros [|y r] Hlen Hl Hr; try done.
  destruct Hl as [Hx Hl], Hr as [Hy Hr]. injection Hlen as Hlen.
  destruct (IH r Hlen Hl Hr) as (E & HF & Hn). split_and!; [|by constructor|].
  - cbn in E |- *. by rewrite E.
  - unfold pairs_nodes in *. cbn [combine List.map fst snd]. rewrite !list_sum_cons, Hn. lia.
Qed.

Lemma pairs_of_records l r :
  length l = length r ->
  all_of (fun f => value_wf (snd f)) l -> all_of (fun f => value_wf (snd f)) r ->
  let names := forallb (fun p => String.eqb (fst (fst p)) (fst (snd p))) (combine l r) in
  json_eqb (JObject (List.map (fun f => (f.1, to_json f.2)) l))
           (JObject (List.map (fun f => (f.1, to_json f.2)) r))
    = names && forallb jeq (combine (l.*2) (r.*2))
  /\ Forall pair_wf (combine (l.*2) (r.*2))
  /\ pairs_nodes (combine (l.*2) (r.*2))
     = list_sum (List.map (fun f => value_nodes f.2) l) + list_sum (List.map (fun f => value_nodes f.2) r).
Proof.
  revert r. induction l as [|[k x] l IH]; intros [|[k' y] r] Hlen Hl Hr; try done.
  destruct Hl as [Hx Hl], Hr as [Hy Hr]. injection Hlen as Hlen.
  destruct (IH r Hlen Hl Hr) as (E & HF & Hn). split_and!; [|by constructor|].
  - cbn in E |- *. rewrite E. destruct (String.eqb k k'); cbn; [|done].
    destruct (json_eqb (to_json x) (to_json y)); cbn; [done|]. by rewrite andb_false_r.
  - unfold pairs_nodes in *. cbn [combine List.map fst snd fmap list_fmap].
    rewrite !list_sum_cons. cbn [fst snd] in *. rewrite Hn. lia.
Qed.

Lemma to_json_tagged name payload :
  to_json (VTagged name payload) =
  JObject (("tag"%string, JString name)
           :: match payload with Some p => [("value"%string, to_json p)] | None => [] end).
Proof. by destruct payload. Qed.

Lemma json_eqb_object k (x : Json) xs l y ys :
  json_eqb (JObject ((k, x) :: xs)) (JObject ((l, y) :: ys)) =
  String.eqb k l && json_eqb x y && json_eqb (JObject xs) (JObject ys).
Proof. reflexivity. Qed.

(** A constructor value against the record that looks like its JSON image. *)
Lemma tagged_json name payload record :
  bm_wf record ->
  json_eqb (to_json (VTagged name payload)) (to_json (VRecord record)) =
  match bm_get "tag" record with
  | Some tag =>
      (len record =? match payload with Some _ => 2 | None => 1 end)%N
      && bool_decide (string_view tag = Some name)
      && match payload, bm_get "value" record with
         | Some p, Some v => json_eqb (to_json p) (to_json v)
         | None, None => true
         | _, _ => false
         end
  | None => false
  end.
Proof.
  intros Hwf. rewrite to_json_record, to_json_tagged by done.
  destruct record as [|[k1 v1] record]; [by destruct payload|].
  cbn [List.map fst snd bm_get]. rewrite json_eqb_object, string_view_eqb.
  destruct (String.eqb_spec "tag" k1) as [<-|H1].
  - change (String.eqb "value" "tag") with false.
    destruct payload as [p|], record as [|[k2 v2] record]; try (cbn; by rewrite ?andb_true_r, ?andb_false_r).
    + cbn [List.map fst snd bm_get]. rewrite json_eqb_object.
      destruct record as [|f record].
      * destruct (String.eqb "value" k2); cbn; by rewrite ?andb_true_r, ?andb_false_r.
      * rewrite (proj2 (N.eqb_neq (len _) 2)) by (rewrite !len_cons; lia).
        change (json_eqb (JObject []) (JObject _)) with false. by rewrite !andb_false_r.
    + rewrite (proj2 (N.eqb_neq (len _) 1)) by (rewrite !len_cons; lia).
      change (json_eqb (JObject []) (JObject _)) with false. by rewrite !andb_false_r.
  - cbn [andb]. destruct (bm_get "tag" record) as [tag|] eqn:Etag; [|done]. symmetry.
    destruct payload as [p|].
    + destruct record as [|[k2 v2] [|f record]]; [done| |].
      * cbn -[String.eqb] in Etag |- *. destruct (String.eqb_spec "tag" k2) as [<-|]; [|done].
        apply bm_wf_cons in Hwf as [_ Hk]. apply Forall_inv in Hk. cbn in Hk.
        destruct (String.eqb_spec "value" k1) as [<-|H3]; [discriminate Hk|].
        change (String.eqb "value" "tag") with false. by rewrite andb_false_r.
      * rewrite (proj2 (N.eqb_neq (len _) 2)) by (rewrite !len_cons; lia). done.
    + destruct record as [|f record]; [done|].
      rewrite (proj2 (N.eqb_neq (len _) 1)) by (rewrite !len_cons; lia). done.
Qed.

Lemma from_f64_None f : number_from_f64 f = None <-> f64_is_finite f = false.
Proof.
  pose proof (from_f64_finite f) as Hf.
  destruct (number_from_f64 f) as [n|], (f64_is_finite f); naive_solver.
Qed.

Lemma record_nodes (k : string) v record :
  In (k, v) record -> value_nodes v <= list_sum (List.map (fun f => value_nodes f.2) record).
Proof.
  induction record as [|f record IH]; [done|]. cbn [List.map]. rewrite list_sum_cons.
  intros [->|Hin]; cbn; [lia|]. specialize (IH Hin). lia.
Qed.

Lemma tagged_right max_nodes name payload record visits answer visits' l r :
  value_wf (VTagged name payload) -> value_wf (VRecord record) ->
  (l = VTagged name payload /\ r = VRecord record) \/ (l = VRecord record /\ r = VTagged name payload) ->
  (if negb (len record =? saturating_add (match payload with Some _ => 1 | None => 0 end) 1)%N
   then Some (None, visits)
   else
     match bm_get "tag" record with
     | None => Some (None, visits)
     | Some tag =>
         visits ← visit max_nodes visits;
         if negb (bool_decide (string_view tag = Some name)) then Some (None, visits)
         else
           match payload, bm_get "value" record with
           | Some payload, Some value => Some (Some [(payload, value)], visits)
           | None, None => Some (Some [], visits)
           | _, _ => Some (None, visits)
           end
     end) = Some (answer, visits') ->
  right_answer l r answer.
Proof.
  intros Hp [Hwf Hr] Hlr Hc.
  assert (Heq : json_eqb (to_json l) (to_json r) = json_eqb (to_json (VTagged name payload)) (to_json (VRecord record)))
    by (destruct Hlr as [[-> ->]|[-> ->]]; [done|apply json_eqb_sym]).
  assert (Hn : value_nodes l + value_nodes r = value_nodes (VTagged name payload) + value_nodes (VRecord record))
    by (destruct Hlr as [[-> ->]|[-> ->]]; [done|apply Nat.add_comm]).
  rewrite tagged_json in Heq by done. unfold right_answer. rewrite Heq, Hn.
  replace (saturating_add match payload with Some _ => 1 | None => 0 end 1)%N
    with (match payload with Some _ => 2 | None => 1 end)%N in Hc by by destruct payload.
  destruct (len record =? _)%N; cbn [negb andb] in *; [|injection Hc as <- _; by repeat case_match].
  destruct (bm_get "tag" record) as [tag|] eqn:Etag; [|injection Hc as <- _; done].
  destruct (visit max_nodes visits) as [v|]; cbn in Hc; [|done].
  destruct (bool_decide _); cbn [negb andb] in *; [|injection Hc as <- _; done].
  destruct payload as [p|], (bm_get "value" record) as [value|] eqn:Ev; injection Hc as <- _; try done.
  - cbn [forallb fst snd]. split_and!; [by rewrite andb_true_r| |].
    + constructor; [|constructor]. split; [done|]. apply bm_get_In in Ev.
      apply all_of_Forall in Hr. eapply List.Forall_forall in Hr; [|exact Ev]. done.
    + apply bm_get_In in Ev. cbn [value_nodes pairs_nodes List.map list_sum]. unfold pairs_nodes.
      cbn [List.map fst snd]. rewrite list_sum_cons. cbn [list_sum foldr].
      pose proof (record_nodes _ _ _ Ev).
      unfold list_sum in *. cbn in *. lia.
  - cbn. split_and!; [done|constructor|]. unfold pairs_nodes. cbn. lia.
Qed.

Lemma json_eqb_list_length ls rs :
  length ls <> length rs -> json_eqb (to_json (VList ls)) (to_json (VList rs)) = false.
Proof.
  revert rs. cbn. induction ls as [|x ls IH]; intros [|y rs] Hlen; try done. cbn in *.
  rewrite IH by congruence. apply andb_false_r.
Qed.

Lemma json_eqb_record_length lfs rfs :
  bm_wf lfs -> bm_wf rfs -> length lfs <> length rfs ->
  json_eqb (to_json (VRecord lfs)) (to_json (VRecord rfs)) = false.
Proof.
  intros Wl Wr Hlen. rewrite !to_json_record by done. clear -Hlen. cbn. revert rfs Hlen.
  induction lfs as [|[k x] lfs IH]; intros [|[k' y] rfs] Hlen; try done. cbn in *.
  rewrite IH by congruence. apply andb_false_r.
Qed.

Lemma same_kind_tagged ln lp rn rp visits answer (visits' : N) :
  value_wf (VTagged ln lp) -> value_wf (VTagged rn rp) ->
  (if negb (String.eqb ln rn) then Some (None, visits)
   else
     match lp, rp with
     | Some l, Some r => Some (Some [(l, r)], visits)
     | None, None => Some (Some [], visits)
     | _, _ => Some (None, visits)
     end) = Some (answer, visits') ->
  right_answer (VTagged ln lp) (VTagged rn rp) answer.
Proof.
  intros Hl Hr. unfold right_answer. rewrite !to_json_tagged, json_eqb_object. cbn [json_eqb].
  destruct (String.eqb_spec ln rn) as [<-|Hne]; cbn [negb].
  - destruct lp as [pl|], rp as [pr|]; intros [= <- <-]; rewrite ?String.eqb_refl; cbn; try done.
    + rewrite !andb_true_r. split_and!; [done|by constructor|]. unfold pairs_nodes. cbn. lia.
    + split_and!; [done|constructor|]. unfold pairs_nodes. cbn. lia.
  - intros [= <- <-]. by rewrite andb_false_r.
Qed.

Lemma compare_nodes_right max_nodes l r visits answer visits' :
  value_wf l -> value_wf r -> compare_nodes max_nodes l r visits = Some (answer, visits') ->
  right_answer l r answer.
Proof.
  intros Hl Hr. unfold compare_nodes.
  assert (Hw : forall b, json_eqb (to_json l) (to_json r) = b ->
    (if b then Some (Some [], visits) else Some (None, visits)) = Some (answer, visits') ->
    right_answer l r answer).
  { intros b Hb Hc. pose proof (right_when b l r Hb). by destruct b; injection Hc as <- _. }
  destruct (string_view l) as [sl|] eqn:El, (string_view r) as [sr|] eqn:Er.
  { apply Hw. apply string_view_json in El as ->. by apply string_view_json in Er as ->. }
  all: destruct l as [|bl|zl|fl|?|?|ls|lfs|ln lp|?], r as [|br|zr|fr|?|?|rs|rfs|rn rp|?];
    cbn in El, Er; try discriminate; clear El Er.
  all: lazy beta iota zeta.
  all: try lazymatch goal with
    | |- Some (None, _) = _ -> _ =>
        apply (Hw false); clear; cbn [to_json];
        repeat lazymatch goal with |- context [number_from_f64 ?f] => destruct (number_from_f64 f) end; done
    end.
  - by apply (Hw true).
  - apply Hw. cbn. pose proof (from_f64_None fr) as Hn.
    destruct (number_from_f64 fr), (f64_is_finite fr); naive_solver.
  - by apply Hw.
  - apply Hw. apply eqb_from_i64.
  - apply Hw. cbn. by destruct (number_from_f64 fr).
  - apply Hw. cbn. pose proof (from_f64_None fl) as Hn.
    destruct (number_from_f64 fl), (f64_is_finite fl); naive_solver.
  - apply Hw. cbn. destruct (number_from_f64 fl); [apply number_eqb_sym|done].
  - apply Hw. cbn. by destruct (number_from_f64 fl), (number_from_f64 fr).
  - destruct (Nat.eqb_spec (length ls) (length rs)) as [Hlen|Hlen]; cbn [negb]; intros [= <- <-].
    + destruct (pairs_of_lists ls rs Hlen Hl Hr) as (E & HF & Hn).
      split_and!; [exact E|done|]. rewrite Hn. cbn [value_nodes]. lia.
    + by apply json_eqb_list_length.
  - destruct Hl as [Wl Hl], Hr as [Wr Hr].
    destruct (Nat.eqb_spec (length lfs) (length rfs)) as [Hlen|Hlen]; cbn [negb].
    + destruct (pairs_of_records lfs rfs Hlen Hl Hr) as (E & HF & Hn).
      unfold right_answer. rewrite !to_json_record by done. cbv zeta in E.
      destruct (forallb _ (combine lfs rfs)); cbn [negb andb] in *; intros [= <- <-]; [|exact E].
      split_and!; [exact E|done|]. rewrite Hn. cbn [value_nodes]. lia.
    + intros [= <- <-]. by apply json_eqb_record_length.
  - eapply tagged_right; [exact Hr|exact Hl|by right; split].
  - eapply tagged_right; [exact Hl|exact Hr|by left; split].
  - by apply same_kind_tagged.
Qed.

(** *** Visits *)

Lemma visit_Some max_nodes visits v :
  visit max_nodes visits = Some v <-> v = (visits + 1)%N /\ (v <= max_nodes)%N /\ (v <= usize_max)%N.
Proof.
  unfold visit, checked_add_u64. destruct (N.leb_spec (visits + 1) usize_max) as [Hu|Hu]; cbn.
  - destruct (N.ltb_spec max_nodes (visits + 1)); split; try done; [|intros [= <-]|]; naive_solver lia.
  - split; [done|]. intros (-> & _ & ?). lia.
Qed.

(** Only the constructor-against-record case depends on the budget. *)
Definition budget_shape (l r : Value) : Prop :=
  (exists answer, forall max_nodes visits, compare_nodes max_nodes l r visits = Some (answer, visits))
  \/ (3 <= value_nodes l + value_nodes r /\ exists answer,
        (forall max_nodes visits, compare_nodes max_nodes l r visits =
           (visits ← visit max_nodes visits; Some (answer, visits)))
        /\ match answer with
           | Some ps => pairs_nodes ps + 2 <= value_nodes l + value_nodes r
           | None => True
           end).

Lemma tagged_shape name payload record l r :
  (l = VTagged name payload /\ r = VRecord record) \/ (l = VRecord record /\ r = VTagged name payload) ->
  budget_shape l r.
Proof.
  intros Hlr. unfold budget_shape.
  assert (Hn : value_nodes l + value_nodes r = value_nodes (VTagged name payload) + value_nodes (VRecord record))
    by (destruct Hlr as [[-> ->]|[-> ->]]; [done|apply Nat.add_comm]).
  assert (H3 : 3 <= value_nodes (VTagged name payload) + value_nodes (VRecord record))
    by (destruct payload; cbn; lia).
  rewrite Hn. clear Hn. destruct (len record =? saturating_add (match payload with Some _ => 1 | None => 0 end) 1)%N eqn:El;
    [|left; exists None; intros; destruct Hlr as [[-> ->]|[-> ->]]; unfold compare_nodes; cbn [string_view]; by rewrite El].
  destruct (bm_get "tag" record) as [tag|] eqn:Et;
    [|left; exists None; intros; destruct Hlr as [[-> ->]|[-> ->]]; unfold compare_nodes; cbn [string_view]; by rewrite El, Et].
  right. split; [done|].
  exists (if bool_decide (string_view tag = Some name) then
            match payload, bm_get "value" record with
            | Some payload, Some value => Some [(payload, value)]
            | None, None => Some []
            | _, _ => None
            end
          else None). split.
  - intros. destruct Hlr as [[-> ->]|[-> ->]]; unfold compare_nodes; cbn [string_view]; rewrite El, Et; cbn [negb];
      destruct (visit max_nodes visits); cbn; try done; destruct (bool_decide _); cbn; try done;
      by destruct payload, (bm_get "value" record).
  - destruct (bool_decide _); [|done].
    destruct payload as [p|], (bm_get "value" record) as [value|] eqn:Ev; try done;
      unfold pairs_nodes; [|cbn; lia].
    apply bm_get_In, record_nodes in Ev. cbn in *. lia.
Qed.

Lemma compare_nodes_shape l r : budget_shape l r.
Proof.
  assert (Hw : forall b : bool, (forall max_nodes visits, compare_nodes max_nodes l r visits =
    if b then Some (Some [], visits) else Some (None, visits)) -> budget_shape l r).
  { intros b Hb. left. exists (if b then Some [] else None). intros. rewrite Hb. by destruct b. }
  destruct l as [|bl|zl|fl|?|?|ls|lfs|ln lp|?], r as [|br|zr|fr|?|?|rs|rfs|rn rp|?];
    try (by apply (tagged_shape rn rp lfs); right);
    try (by apply (tagged_shape ln lp rfs); left);
    try (by eapply Hw; intros; unfold compare_nodes; cbn [string_view]; reflexivity);
    try (by left; exists None; intros; reflexivity).
  - by apply (Hw true).
  - left. exists (if length ls =? length rs then Some (combine ls rs) else None). intros.
    unfold compare_nodes. cbn [string_view]. by destruct (_ =? _).
  - left. eexists (if length lfs =? length rfs then _ else None). intros.
    unfold compare_nodes. cbn [string_view]. destruct (_ =? _); cbn [negb]; [|done].
    instantiate (1 := if forallb (fun p => String.eqb p.1.1 p.2.1) (combine lfs rfs) then _ else None).
    destruct (forallb _ _); cbn [negb]; [|done]. reflexivity.
  - left. exists (if String.eqb ln rn then match lp, rp with
      | Some l, Some r => Some [(l, r)] | None, None => Some [] | _, _ => None end else None). intros.
    unfold compare_nodes. cbn [string_view]. destruct (String.eqb ln rn); cbn [negb]; [|done].
    by destruct lp, rp.
Qed.

(** *** The loop *)

Lemma pairs_nodes_app ps qs : pairs_nodes (ps ++ qs) = pairs_nodes ps + pairs_nodes qs.
Proof. unfold pairs_nodes. rewrite List.map_app. apply list_sum_app. Qed.

Lemma pairs_nodes_cons l r ps :
  pairs_nodes ((l, r) :: ps) = value_nodes l + value_nodes r + pairs_nodes ps.
Proof. reflexivity. Qed.

(** The loop decides pointwise JSON equality of the pending pairs, unless the
    budget stops it. *)
Lemma compare_loop_spec fuel max_nodes pending visits :
  Forall pair_wf pending -> pairs_nodes pending < fuel ->
  match compare_loop fuel max_nodes pending visits with
  | Ok (equal, _) => equal = forallb jeq pending
  | Err _ => True
  | Panicked | OutOfFuel => False
  end.
Proof.
  revert pending visits. induction fuel as [|fuel IH]; intros pending visits Hwf Hf; [lia|].
  destruct pending as [|[l r] pending]; [done|]. cbn [compare_loop].
  apply Forall_cons_1 in Hwf as [[Hl Hr] Hwf]. cbn [fst snd] in Hl, Hr. rewrite pairs_nodes_cons in Hf.
  destruct (visit max_nodes visits) as [v|]; cbn; [|done].
  destruct (compare_nodes max_nodes l r v) as [[[more|] v']|] eqn:Ec; [| |done];
    apply (compare_nodes_right _ _ _ _ _ _ Hl Hr) in Ec; cbn in Ec.
  - destruct Ec as (-> & HF & Hn). rewrite <- forallb_app. apply IH; [by apply Forall_app|].
    rewrite pairs_nodes_app. lia.
  - by rewrite Ec.
Qed.

(** A visit under another budget: counted or refused. *)
Lemma visit_cases m visits :
  (visits + 1 <= usize_max)%N ->
  (visit m visits = Some (visits + 1)%N /\ (visits + 1 <= m)%N) \/ (visit m visits = None /\ (m < visits + 1)%N).
Proof.
  intros Hu. destruct (decide (visits + 1 <= m)%N) as [Hle|Hgt]; [left; split; [by apply visit_Some|done]|].
  right. split; [|lia]. destruct (visit m visits) as [v|] eqn:E; [|done]. apply visit_Some in E. lia.
Qed.

(** What follows the comparison of one pair, under another budget. *)
Lemma after_node fuel max_nodes answer pending visits equal n :
  (forall more, answer = Some more ->
     compare_loop fuel max_nodes (more ++ pending) visits = Ok (equal, n) ->
     (visits <= n)%N /\ forall m, (visits <= m)%N ->
       compare_loop fuel m (more ++ pending) visits = if (n <=? m)%N then Ok (equal, n) else Err tt) ->
  match answer with
  | Some more => compare_loop fuel max_nodes (more ++ pending) visits
  | None => Ok (false, visits)
  end = Ok (equal, n) ->
  (visits <= n)%N /\ forall m, (visits <= m)%N ->
    match answer with
    | Some more => compare_loop fuel m (more ++ pending) visits
    | None => Ok (false, visits)
    end = if (n <=? m)%N then Ok (equal, n) else Err tt.
Proof.
  destruct answer as [more|]; intros IH; [by apply IH|]. intros [= <- <-].
  split; [lia|]. intros m Hm. by rewrite (proj2 (N.leb_le _ _) Hm).
Qed.

(** A budget changes nothing but whether the comparison is cut short. *)
Lemma compare_loop_budget fuel max_nodes pending visits equal n :
  compare_loop fuel max_nodes pending visits = Ok (equal, n) ->
  (visits <= n)%N /\
  forall max_nodes', (visits <= max_nodes')%N ->
    compare_loop fuel max_nodes' pending visits = if (n <=? max_nodes')%N then Ok (equal, n) else Err tt.
Proof.
  revert pending visits. induction fuel as [|fuel IH]; intros pending visits; [done|].
  destruct pending as [|[l r] pending]; cbn [compare_loop].
  { intros [= <- <-]. split; [lia|]. intros m Hm. by rewrite (proj2 (N.leb_le _ _) Hm). }
  destruct (visit max_nodes visits) as [v|] eqn:Ev; cbn; [|done].
  apply visit_Some in Ev as (-> & Hmax & Hu).
  destruct (compare_nodes_shape l r) as [[answer Hc]|[_ (answer & Hc & _)]]; rewrite Hc.
  - intros Hrun. destruct (after_node fuel max_nodes answer pending (visits + 1) equal n) as [Hn Hafter];
      [by intros more _; apply IH|by destruct answer|].
    split; [lia|]. intros m Hm. destruct (visit_cases m visits Hu) as [[-> Hle]|[-> Hgt]]; cbn.
    + rewrite Hc. rewrite <- (Hafter m Hle). by destruct answer.
    + by rewrite (proj2 (N.leb_gt _ _)) by lia.
  - destruct (visit max_nodes (visits + 1)) as [v|] eqn:Ev; cbn; [|done].
    apply visit_Some in Ev as (-> & Hmax2 & Hu2). intros Hrun.
    destruct (after_node fuel max_nodes answer pending (visits + 1 + 1) equal n) as [Hn Hafter];
      [by intros more _; apply IH|by destruct answer|].
    split; [lia|]. intros m Hm. destruct (visit_cases m visits Hu) as [[-> Hle]|[-> Hgt]]; cbn.
    + rewrite Hc. destruct (visit_cases m (visits + 1) Hu2) as [[-> Hle2]|[-> Hgt2]]; cbn.
      * rewrite <- (Hafter m Hle2). by destruct answer.
      * by rewrite (proj2 (N.leb_gt _ _)) by lia.
    + by rewrite (proj2 (N.leb_gt _ _)) by lia.
Qed.

(** A budget of all the nodes is enough. *)
Lemma compare_loop_enough fuel max_nodes pending visits :
  (visits + N.of_nat (pairs_nodes pending) <= max_nodes)%N -> (max_nodes <= usize_max)%N ->
  Forall pair_wf pending ->
  compare_loop fuel max_nodes pending visits <> Err tt.
Proof.
  revert pending visits. induction fuel as [|fuel IH]; intros pending visits Hb Hu Hwf; [done|].
  destruct pending as [|[l r] pending]; [done|]. cbn [compare_loop].
  apply Forall_cons_1 in Hwf as [[Hl Hr] Hwf]. cbn [fst snd] in Hl, Hr. rewrite pairs_nodes_cons in Hb.
  pose proof (value_nodes_pos l). pose proof (value_nodes_pos r).
  rewrite (proj2 (visit_Some max_nodes visits (visits + 1)%N)) by lia. cbn.
  destruct (compare_nodes_shape l r) as [[answer Hc]|[H3 (answer & Hc & Hn)]]; rewrite Hc.
  - destruct answer as [more|]; [|done].
    pose proof (Hc max_nodes (visits + 1)%N) as Ec. apply (compare_nodes_right _ _ _ _ _ _ Hl Hr) in Ec as (_ & HF & Hn).
    apply IH; [|done|by apply Forall_app]. rewrite pairs_nodes_app. lia.
  - rewrite (proj2 (visit_Some max_nodes (visits + 1) (visits + 1 + 1)%N)) by lia. cbn.
    destruct answer as [more|]; [|done].
    pose proof (Hc max_nodes (visits + 1)%N) as Ec.
    rewrite (proj2 (visit_Some max_nodes (visits + 1) (visits + 1 + 1)%N)) in Ec by lia.
    apply (compare_nodes_right _ _ _ _ _ _ Hl Hr) in Ec as (_ & HF & _).
    apply IH; [|done|by apply Forall_app]. rewrite pairs_nodes_app. lia.
Qed.
End Facts.

(** The visits of an answered comparison: at least one. *)
Lemma eq_bounded_correct `{JsonNumberLaws} l r max_nodes :
  value_wf l -> value_wf r ->
  match json_semantic_eq_bounded l r max_nodes with
  | Ok (equal, visits) => equal = json_eqb (to_json l) (to_json r) /\ (0 < visits)%N
  | Err _ => True
  | Panicked | OutOfFuel => False
  end.
Proof.
  intros Hl Hr. unfold json_semantic_eq_bounded.
  assert (Hwf : Forall (fun p => value_wf p.1 /\ value_wf p.2) [(l, r)]) by by constructor.
  pose proof (compare_loop_spec (S (value_nodes l + value_nodes r)) max_nodes [(l, r)] 0 Hwf) as Hs.
  rewrite pairs_nodes_cons in Hs. specialize (Hs ltac:(cbn; lia)).
  destruct (compare_loop _ _ _ _) as [[equal n]|[]| |] eqn:E; [|done..].
  split; [cbn in Hs; by rewrite andb_true_r in Hs|].
  pose proof (compare_loop_budget _ _ _ _ _ _ E) as [_ Hb]. specialize (Hb 0%N (N.le_refl 0)).
  destruct (N.leb_spec n 0) as [Hn|Hn]; [|lia].
  cbn in Hb. by destruct (visit 0 0) as [v|] eqn:Ev; [apply visit_Some in Ev; lia|].
Qed.

(** the budgeted comparison decides JSON equality.  For values as the runtime
    builds them, [json_semantic_eq_bounded] always returns; when it answers, the
    answer is whether the JSON images of the two values are equal, and it does
    answer when the budget covers the nodes of both values. *)
Lemma json_semantic_eq_decides `{JsonNumberLaws} l r max_nodes :
  value_wf l -> value_wf r -> (max_nodes <= usize_max)%N ->
  match json_semantic_eq_bounded l r max_nodes with
  | Ok (equal, _) => equal = json_eqb (to_json l) (to_json r)
  | Err _ => (max_nodes < N.of_nat (value_nodes l + value_nodes r))%N
  | Panicked | OutOfFuel => False
  end.
Proof.
  intros Hl Hr Hu. pose proof (eq_bounded_correct l r max_nodes Hl Hr) as Hs. revert Hs.
  assert (Hwf : Forall (fun p => value_wf p.1 /\ value_wf p.2) [(l, r)]) by by constructor.
  pose proof (compare_loop_enough (S (value_nodes l + value_nodes r)) max_nodes [(l, r)] 0) as He.
  rewrite pairs_nodes_cons in He. unfold json_semantic_eq_bounded.
  destruct (compare_loop _ _ _ _) as [[equal n]|[]| |]; [by intros []| |done..]. intros _.
  destruct (decide (max_nodes < N.of_nat (value_nodes l + value_nodes r)))%N; [done|]. exfalso.
  apply He; [cbn; lia|done..].
Qed.

(** The budget of a comparison only cuts it short.  If a comparison answers
    after [n] visits under some budget, then under any budget it gives the same
    answer and the same count if the budget is at least [n], and no answer
    otherwise. *)
Lemma json_semantic_eq_budget `{JsonNumberLaws} l r max_nodes equal n :
  json_semantic_eq_bounded l r max_nodes = Ok (equal, n) ->
  forall max_nodes', json_semantic_eq_bounded l r max_nodes' =
    if (n <=? max_nodes')%N then Ok (equal, n) else Err tt.
Proof. intros Hrun m. eapply compare_loop_budget in Hrun as [_ Hm]. apply Hm. lia. Qed.

(** ** Round trips *)

Section RoundTrip.
Context `{JsonNumberLaws}.

Lemma map_ext_Forall {A B} (f g : A -> B) l : Forall (fun x => f x = g x) l -> List.map f l = List.map g l.
Proof. induction 1; cbn; congruence. Qed.

Lemma from_to_record fs :
  bm_wf fs -> Forall (fun f => to_json (from_json (to_json f.2)) = to_json f.2) fs ->
  to_json (from_json (to_json (VRecord fs))) = to_json (VRecord fs).
Proof.
  intros Hwf HF. rewrite to_json_record by done. cbn [from_json].
  rewrite bm_from_wf by (rewrite (bm_wf_map from_json), (bm_wf_map to_json); done).
  rewrite List.map_map. cbn [fst snd].
  rewrite to_json_record; [|by apply (bm_wf_map (fun v => from_json (to_json v)))].
  f_equal. rewrite List.map_map. cbn [fst snd]. apply map_ext_Forall.
  eapply Forall_impl; [exact HF|]. intros f ->. done.
Qed.

Lemma to_json_again v : value_wf v -> to_json (from_json (to_json v)) = to_json v.
Proof.
  induction v as [| |z|f| | |vs IH|fs IH|n|n v IH|c] using value_induction; intros Hwf; try done.
  - cbn in *. by rewrite as_i64_from_i64.
  - cbn. destruct (number_from_f64 f) as [n|] eqn:E; [|done]. cbn.
    rewrite (as_i64_from_f64 f), (as_f64_from_f64 f) by done. cbn. by rewrite E.
  - cbn in *. f_equal. rewrite !List.map_map. apply map_ext_Forall. apply all_of_Forall in Hwf.
    rewrite List.Forall_forall in *. auto.
  - destruct Hwf as [Hwf Hall]. apply from_to_record; [done|]. apply all_of_Forall in Hall.
    rewrite List.Forall_forall in *. auto.
  - rewrite to_json_tagged. cbn [from_json List.map fst snd].
    rewrite bm_from_wf by (repeat constructor). cbn. by rewrite IH.
Qed.

(** The values that JSON represents exactly. *)
Fixpoint plain (v : Value) : Prop :=
  match v with
  | VNull | VBool _ | VInt _ | VString _ => True
  | VDecimal f => f64_is_finite f = true
  | VList vs => all_of plain vs
  | VRecord fs => all_of (fun f => plain (snd f)) fs
  | VUri _ | VTagged _ _ | VCallable _ _ => False
  end.

Lemma from_to_plain v : value_wf v -> plain v -> from_json (to_json v) = v.
Proof.
  induction v as [| |z|f| | |vs IH|fs IH|n|n v IH|c] using value_induction; intros Hwf Hp; try done.
  - cbn in *. by rewrite as_i64_from_i64.
  - cbn in *. apply from_f64_finite in Hp as [n E]. rewrite E. cbn.
    by rewrite (as_i64_from_f64 f), (as_f64_from_f64 f).
  - cbn in *. f_equal. rewrite List.map_map. rewrite <- (List.map_id vs) at 2. apply map_ext_Forall.
    apply all_of_Forall in Hwf, Hp. rewrite List.Forall_forall in *. auto.
  - destruct Hwf as [Hwf Hall]. cbn in Hp. rewrite to_json_record by done. cbn [from_json].
    rewrite bm_from_wf by (rewrite (bm_wf_map from_json), (bm_wf_map to_json); done).
    f_equal. rewrite List.map_map. cbn [fst snd]. rewrite <- (List.map_id fs) at 2. apply map_ext_Forall.
    apply all_of_Forall in Hall, Hp. rewrite List.Forall_forall in *. intros [k v] Hin. cbn.
    f_equal. apply (IH (k, v)); [done|by apply (Hall (k, v))|by apply (Hp (k, v))].
Qed.
End RoundTrip.

(** C40: JSON round trips.  A value read back from its JSON image has the same
    image (so it compares equal to the original), and plain data (no URIs,
    constructors, functions or non-finite decimals) is read back unchanged. *)
Theorem json_round_trip `{JsonNumberLaws} v :
  value_wf v ->
  to_json (from_json (to_json v)) = to_json v /\ (plain v -> from_json (to_json v) = v).
Proof. intros Hwf. split; [by apply to_json_again|by apply from_to_plain]. Qed.

(** ** A concrete number type, and witnesses *)

Definition sample_numbers : JsonNumber := {|
  num := Z + f64;
  number_from_i64 := inl;
  number_from_f64 f := if f64_is_finite f then Some (inr f) else None;
  number_as_i64 n := match n with inl z => Some z | inr _ => None end;
  number_as_f64 n := match n with inl z => Some (f64_of_i64 z) | inr f => Some f end;
  number_eqb a b := match a, b with
                    | inl x, inl y => Z.eqb x y
                    | inr x, inr y => f64_eq x y
                    | _, _ => false
                    end;
|}.

Lemma f64_eq_sym a b : f64_eq a b = f64_eq b a.
Proof.
  unfold f64_eq, SFeqb. destruct a as [[]|[]| |[] ma ea], b as [[]|[]| |[] mb eb]; try done; cbn.
  all: rewrite (Z.compare_antisym eb ea); destruct (eb ?= ea)%Z; cbn; try done.
  all: change (Pos.compare_cont Eq mb ma) with (mb ?= ma)%positive;
    change (Pos.compare_cont Eq ma mb) with (ma ?= mb)%positive.
  all: rewrite (Pos.compare_antisym ma mb); by destruct (ma ?= mb)%positive.
Qed.

Lemma sample_numbers_laws : @JsonNumberLaws sample_numbers.
Proof.
  split; cbn; try done.
  - intros f. destruct (f64_is_finite f); naive_solver.
  - intros f n. destruct (f64_is_finite f); naive_solver.
  - intros f n. destruct (f64_is_finite f); naive_solver.
  - intros [x|x] [y|y]; try done; [apply Z.eqb_sym|apply f64_eq_sym].
Qed.

Definition sample_value : Value :=
  VList [VInt 1; VTagged "Some" (Some (VString "a")); VRecord [("k"%string, VDecimal S754_nan)]].

Lemma json_semantic_eq_decides_witness :
  value_wf sample_value /\
  match @json_semantic_eq_bounded sample_numbers sample_value sample_value 20 with
  | Ok (equal, _) => equal = @json_eqb sample_numbers (@to_json sample_numbers sample_value)
                               (@to_json sample_numbers sample_value)
  | Err _ => (20 < N.of_nat (value_nodes sample_value + value_nodes sample_value))%N
  | Panicked | OutOfFuel => False
  end.
Proof.
  assert (Hwf : value_wf sample_value)
    by (cbn; split_and!; try done; unfold i64_min, i64_max; [lia..|repeat constructor]).
  split; [exact Hwf|].
  apply (@json_semantic_eq_decides sample_numbers sample_numbers_laws sample_value sample_value 20 Hwf Hwf).
  vm_compute. discriminate.
Defined.

Lemma json_semantic_eq_budget_witness :
  @json_semantic_eq_bounded sample_numbers sample_value sample_value 20 = Ok (true, 6%N) /\
  @json_semantic_eq_bounded sample_numbers sample_value sample_value 5 =
    if (6 <=? 5)%N then Ok (true, 6%N) else Err tt.
Proof.
  split; [vm_compute; reflexivity|].
  apply (@json_semantic_eq_budget sample_numbers sample_numbers_laws sample_value sample_value 20 true 6).
  vm_compute. reflexivity.
Defined.

Lemma json_round_trip_witness :
  value_wf sample_value /\
  @to_json sample_numbers (@from_json sample_numbers (@to_json sample_numbers sample_value))
    = @to_json sample_numbers sample_value.
Proof.
  assert (Hwf : value_wf sample_value)
    by (cbn; split_and!; try done; unfold i64_min, i64_max; [lia..|repeat constructor]).
  split; [exact Hwf|]. apply (@json_round_trip sample_numbers sample_numbers_laws sample_value Hwf).
Defined.
