(* ===== verification/Operators.v ===== *)
(** * Operators and pattern matching of the runtime ([runtime/operators.rs], and
    [RuntimeError] of [runtime/mod.rs])

    A runtime error carries its message, because a cell that handles the error
    can read it. *)

From stdpp Require Import base tactics list strings.
From Stdlib Require Import ZArith NArith Lia SpecFloat.
From S2P Require Import Prelude BTree Numbers Syntax Value.

Section Operators.
Context `{JsonNumber}.

Inductive RuntimeError : Type :=
| REDiagnostic (d : Diagnostic)
| REEffect (name message : string) (payload : option Json)
| REType (message : string)
| RELimit (message : string)
| REPersistence (message : string)
| RECancelled.

Local Abbreviation RuntimeResult := (outcome RuntimeError).

Definition error_name (e : RuntimeError) : string :=
  match e with
  | REEffect name _ _ => name
  | REType _ => "TypeError"
  | RELimit _ => "ResourceLimitError"
  | REPersistence _ => "RuntimePersistenceError"
  | RECancelled => "CancellationError"
  | REDiagnostic _ => "DiagnosticError"
  end.

(** Called with [And] and [Or] only. *)
Definition logical_name (op : BinaryOp) : string :=
  match op with
  | And => "and"
  | Or => "or"
  | _ => ""
  end.

Definition prelude_functions : list (string * N) :=
  [("print", 1); ("display", 2); ("length", 1); ("lines", 1); ("split", 2); ("contains", 2);
   ("take", 2); ("merge", 2); ("map", 2); ("flatmap", 2); ("filter", 2); ("where", 2);
   ("select", 2); ("sort_by", 3); ("group_by", 2); ("aggregate", 2); ("sum", 1); ("table", 1);
   ("par", 1); ("help", 1); ("rethrow", 1)]%string%N.

(** The runtime prelude; [rc] numbers the first of its allocations. *)
Definition prelude (rc : N) : Environment :=
  bm_from (imap (fun i '(name, arity) => (name, VCallable (rc + N.of_nat i) (CBuiltin name [] arity)))
             prelude_functions
    ++ [("asc", VString "asc"); ("desc", VString "desc")]%string).

Definition list_call_args (args : list Value) (name : string) : RuntimeResult (Value * list Value) :=
  match args with
  | (VCallable _ _ as function) :: VList values :: _ => Ok (function, values)
  | _ => Err (REType (name ++ " requires function and list"))
  end.

(** ** Pattern matching with a visit count *)

Section Match.
Variable max_visits max_depth : N.

(** The environment being filled and the visits counted. *)
Definition Matching := (Environment * N)%type.

Definition count_visit (visits : N) : bool * N :=
  if (max_visits <=? visits)%N then (false, saturating_add visits 1) else (true, (visits + 1)%N).

(** The guards at the head of [walk] and [walk_list]. *)
Definition guarded (depth : N) (body : Matching -> bool * Matching) (m : Matching) : bool * Matching :=
  let '(env, visits) := m in
  if (max_depth <=? depth)%N then (false, (env, saturating_add max_visits 1))
  else
    match count_visit visits with
    | (false, visits) => (false, (env, visits))
    | (true, visits) => body (env, visits)
    end.

(** [a && b]. *)
Definition and_then (a : bool * Matching) (b : Matching -> bool * Matching) : bool * Matching :=
  if a.1 then b a.2 else a.

Definition when (b : bool) (m : Matching) : bool * Matching := (b, m).

(** [walk] and [walk_list]; on a cons pattern [walk] calls [walk_list] with the
    same pattern, which is written out here ([guarded (depth + 1)]). *)
Fixpoint walk (k : PatternKind) (v : Value) (depth : N) : Matching -> bool * Matching :=
  guarded depth (fun m =>
    match k, v with
    | PWildcard, _ => (true, m)
    | PBind name, v => (true, (bm_insert name v m.1, m.2))
    | PString a, VString b => when (String.eqb a b) m
    | PInt a, VInt b => when (Z.eqb a b) m
    | PBool a, VBool b => when (Bool.eqb a b) m
    | PNull, VNull => (true, m)
    | PConstructor name payload, VTagged actual value =>
        if String.eqb name actual then
          match payload, value with
          | None, None => (true, m)
          | Some p, Some v => walk (node p) v (depth + 1) m
          | _, _ => (false, m)
          end
        else (false, m)
    | PList ps, VList vs =>
        if (length ps =? length vs)%nat then
          (fix go ps vs m :=
             match ps, vs with
             | p :: ps', v :: vs' => and_then (walk (node p) v (depth + 1) m) (go ps' vs')
             | _, _ => (true, m)
             end) ps vs m
        else (false, m)
    | PCons h t, VList vs =>
        guarded (depth + 1) (fun m =>
          match vs with
          | v :: vs' =>
              and_then (walk (node h) v (depth + 2) m) (walk_list (node t) vs' (depth + 2))
          | [] => (false, m)
          end) m
    | PRecord fields rest, VRecord values =>
        if rest || (length fields =? length values)%nat then
          (fix go fields m :=
             match fields with
             | (name, p) :: fields' =>
                 match bm_get name values with
                 | Some v => and_then (walk (node p) v (depth + 1) m) (go fields')
                 | None => (false, m)
                 end
             | [] => (true, m)
             end) fields m
        else (false, m)
    | _, _ => (false, m)
    end)
with walk_list (k : PatternKind) (vs : list Value) (depth : N) : Matching -> bool * Matching :=
  guarded depth (fun m =>
    match k with
    | PWildcard => (true, m)
    | PBind name =>
        let next := saturating_add m.2 (len vs) in
        if (max_visits <? next)%N then (false, (m.1, saturating_add max_visits 1))
        else (true, (bm_insert name (VList vs) m.1, next))
    | PList ps =>
        if (length ps =? length vs)%nat then
          (fix go ps vs m :=
             match ps, vs with
             | p :: ps', v :: vs' => and_then (walk (node p) v (depth + 1) m) (go ps' vs')
             | _, _ => (true, m)
             end) ps vs m
        else (false, m)
    | PCons h t =>
        match vs with
        | v :: vs' => and_then (walk (node h) v (depth + 1) m) (walk_list (node t) vs' (depth + 1))
        | [] => (false, m)
        end
    | _ => (false, m)
    end).

Definition match_pattern_counted (p : Pattern) (v : Value) : option Environment * N :=
  let '(matched, (env, visits)) := walk (node p) v 0 ([], 0%N) in
  (if matched then Some env else None, visits).
End Match.

(** ** Operators *)

Definition unary (op : UnaryOp) (v : Value) : RuntimeResult Value :=
  match op, v with
  | Not, VBool b => Ok (VBool (negb b))
  | Negate, VInt z =>
      match i64_checked_neg z with
      | Some z => Ok (VInt z)
      | None => Err (REType "integer overflow in negation")
      end
  | Negate, VDecimal f => Ok (VDecimal (f64_neg f))
  | _, _ => Err (REType ("invalid unary operand " ++ kind v))
  end.

Definition is_numeric_zero (v : Value) : bool :=
  match v with
  | VInt z => Z.eqb z 0
  | VDecimal f => f64_eq f (S754_zero false)
  | _ => false
  end.

Definition number (v : Value) : option f64 :=
  match v with
  | VInt z => Some (f64_of_i64 z)
  | VDecimal f => Some f
  | _ => None
  end.

Definition numbers (l r : Value) : RuntimeResult (f64 * f64) :=
  match number l, number r with
  | Some a, Some b => Ok (a, b)
  | _, _ => Err (REType "expected number")
  end.

Definition overflow (operation : string) : string := ("integer overflow in " ++ operation)%string.

Definition numeric_binary (l r : Value) (ints : Z -> Z -> option Z) (decimals : f64 -> f64 -> f64)
    (operation : string) : RuntimeResult Value :=
  match l, r with
  | VInt a, VInt b =>
      match ints a b with
      | Some z => Ok (VInt z)
      | None => Err (REType (overflow operation))
      end
  | _, _ =>
      '(a, b) ← numbers l r;
      Ok (VDecimal (decimals a b))
  end.

Definition division_by_zero (message operation : string) : RuntimeError :=
  REEffect "DivisionByZero" message (Some (JObject [("operation"%string, JString operation)])).

Definition binary_value (op : BinaryOp) (l r : Value) : RuntimeResult Value :=
  match op with
  | Equal => Ok (VBool (value_eqb l r))
  | NotEqual => Ok (VBool (negb (value_eqb l r)))
  | And =>
      match l, r with
      | VBool a, VBool b => Ok (VBool (a && b))
      | _, _ => Err (REType (logical_name op ++ " requires boolean operands; found " ++ kind l ++ " and " ++ kind r))
      end
  | Or =>
      match l, r with
      | VBool a, VBool b => Ok (VBool (a || b))
      | _, _ => Err (REType (logical_name op ++ " requires boolean operands; found " ++ kind l ++ " and " ++ kind r))
      end
  | Cons =>
      match r with
      | VList vs => Ok (VList (l :: vs))
      | _ => Err (REType ":: tail must be a list")
      end
  | Add =>
      match l, r with
      | VString a, VString b => Ok (VString (a ++ b))
      | _, _ => numeric_binary l r i64_checked_add f64_add "addition"
      end
  | Subtract => numeric_binary l r i64_checked_sub f64_sub "subtraction"
  | Multiply => numeric_binary l r i64_checked_mul f64_mul "multiplication"
  | Divide =>
      if is_numeric_zero r then Err (division_by_zero "division by zero" "division")
      else numeric_binary l r i64_checked_div f64_div "division"
  | Modulo =>
      if is_numeric_zero r then Err (division_by_zero "modulo by zero" "modulo")
      else numeric_binary l r i64_checked_rem f64_rem "modulo"
  | Less => '(a, b) ← numbers l r; Ok (VBool (f64_lt a b))
  | LessEqual => '(a, b) ← numbers l r; Ok (VBool (f64_le a b))
  | Greater => '(a, b) ← numbers l r; Ok (VBool (f64_lt b a))
  | GreaterEqual => '(a, b) ← numbers l r; Ok (VBool (f64_le b a))
  end.

(** The arguments a host effect receives. *)
Definition normalize_effect_args (name : string) (argument : Value) : Json :=
  match argument with
  | VString path | VUri path =>
      if String.eqb name "fs.read" then JObject [("path"%string, JString path)] else to_json argument
  | _ => to_json argument
  end.
End Operators.

Abbreviation RuntimeResult := (outcome RuntimeError).
