(* ===== verification/OperatorFacts.v ===== *)
(** * Correctness of pattern matching and operators

    Matching with visit and depth budgets against a plain recursive definition;
    arithmetic stays in range; accepted operators do not go wrong. *)

From stdpp Require Import base tactics list strings.
From Stdlib Require Import ZArith NArith Lia SpecFloat.
From S2P Require Import Prelude BTree Text Numbers Syntax Lexer Parser Value ValueFacts Operators.
From S2P Require Import Catalog ScopedMap Checker CheckerFacts.

(** ** The reference: matching without budgets *)

Fixpoint match_ref (k : PatternKind) (v : Value) (env : Environment) : option Environment :=
  match k, v with
  | PWildcard, _ => Some env
  | PBind name, v => Some (bm_insert name v env)
  | PString a, VString b => if String.eqb a b then Some env else None
  | PInt a, VInt b => if Z.eqb a b then Some env else None
  | PBool a, VBool b => if Bool.eqb a b then Some env else None
  | PNull, VNull => Some env
  | PConstructor name None, VTagged actual None => if String.eqb name actual then Some env else None
  | PConstructor name (Some p), VTagged actual (Some v) =>
      if String.eqb name actual then match_ref (node p) v env else None
  | PList ps, VList vs =>
      (fix go ps vs env :=
         match ps, vs with
         | [], [] => Some env
         | p :: ps', v :: vs' => env ← match_ref (node p) v env; go ps' vs' env
         | _, _ => None
         end) ps vs env
  | PCons h t, VList (v :: vs) =>
      env ← match_ref (node h) v env;
      match_ref (node t) (VList vs) env
  | PRecord fields rest, VRecord values =>
      if rest || (length fields =? length values)%nat then
        (fix go fields env :=
           match fields with
           | [] => Some env
           | (name, p) :: fields' =>
               v ← bm_get name values;
               env ← match_ref (node p) v env;
               go fields' env
           end) fields env
      else None
  | _, _ => None
  end.

Section Matching.
Variable max_visits max_depth : N.
Hypothesis Hmax : (max_visits < usize_max)%N.

(** What a step of matching may answer, given the reference: the reference's
    answer within the budget, or a failure with the budget exceeded; visits are
    never given back. *)
Definition agrees (start : N) (reference : option Environment) (r : bool * (Environment * N)) : Prop :=
  (start <= r.2.2)%N /\
  match r with
  | (true, (env, visits)) => (visits <= max_visits)%N /\ reference = Some env
  | (false, (_, visits)) => (visits <= max_visits)%N /\ reference = None \/ visits = (max_visits + 1)%N
  end.

Definition follows (walk : Environment * N -> bool * (Environment * N))
    (reference : Environment -> option Environment) : Prop :=
  forall env visits, (visits <= max_visits)%N -> agrees visits (reference env) (walk (env, visits)).

Lemma sat_over : saturating_add max_visits 1 = (max_visits + 1)%N.
Proof. unfold saturating_add. lia. Qed.

(** The same, with at least one visit counted: what a guard adds. *)
Definition counted (walk : Environment * N -> bool * (Environment * N))
    (reference : Environment -> option Environment) : Prop :=
  forall env visits, (visits <= max_visits)%N -> agrees (visits + 1) (reference env) (walk (env, visits)).

Lemma counted_follows w reference : counted w reference -> follows w reference.
Proof. intros Hw env visits Hv. destruct (Hw env visits Hv) as [Hs Hm]. split; [lia|done]. Qed.

Lemma guarded_counted depth body reference :
  follows body reference -> counted (guarded max_visits max_depth depth body) reference.
Proof.
  intros Hb env visits Hv. unfold guarded, count_visit. destruct (max_depth <=? depth)%N.
  - rewrite sat_over. split; cbn; [lia|by right].
  - destruct (N.leb_spec max_visits visits) as [Hge|Hlt]; [|apply Hb; lia].
    unfold saturating_add. split; cbn; [lia|right; lia].
Qed.

Lemma follows_and_then walk1 reference1 walk2 reference2 :
  follows walk1 reference1 -> follows walk2 reference2 ->
  follows (fun m => and_then (walk1 m) walk2) (fun env => env ← reference1 env; reference2 env).
Proof.
  intros H1 H2 env visits Hv. specialize (H1 env visits Hv). unfold and_then.
  destruct (walk1 (env, visits)) as [[|] [env1 v1]]; destruct H1 as [Hs H1]; cbn in *.
  - destruct H1 as [Hv1 ->]. cbn. destruct (H2 env1 v1 Hv1) as [Hs2 Hm]. split; [lia|done].
  - split; [done|]. destruct H1 as [[Hv1 ->]|Hv1]; [by left|by right].
Qed.

Lemma follows_none : follows (fun m => (false, m)) (fun _ => None).
Proof. intros env visits Hv. split; [cbn; lia|by left]. Qed.

Lemma follows_some : follows (fun m => (true, m)) Some.
Proof. intros env visits Hv. split; [cbn; lia|done]. Qed.

Lemma follows_when (b : bool) : follows (when b) (fun env => if b then Some env else None).
Proof. destruct b; [apply follows_some|apply follows_none]. Qed.

Lemma follows_values ps :
  Forall (fun p => forall v depth, follows (walk max_visits max_depth (node p) v depth) (match_ref (node p) v)) ps ->
  forall vs depth, length ps = length vs ->
  follows
    ((fix go ps vs m :=
        match ps, vs with
        | p :: ps', v :: vs' => and_then (walk max_visits max_depth (node p) v depth m) (go ps' vs')
        | _, _ => (true, m)
        end) ps vs)
    ((fix go (ps : list Pattern) (vs : list Value) env :=
        match ps, vs with
        | [], [] => Some env
        | p :: ps', v :: vs' => env ← match_ref (node p) v env; go ps' vs' env
        | _, _ => None
        end) ps vs).
Proof.
  induction 1 as [|p ps Hp _ IH]; intros [|v vs] depth Hlen; try done.
  apply (follows_and_then _ (match_ref (node p) v)); [apply Hp|apply IH; by injection Hlen].
Qed.

Lemma values_length_ne ps vs env :
  length ps <> length vs ->
  (fix go (ps : list Pattern) (vs : list Value) env :=
     match ps, vs with
     | [], [] => Some env
     | p :: ps', v :: vs' => env ← match_ref (node p) v env; go ps' vs' env
     | _, _ => None
     end) ps vs env = None.
Proof.
  revert vs env. induction ps as [|p ps IH]; intros [|v vs] env Hne; try done.
  destruct (match_ref (node p) v env); [|done]. cbn. apply IH. cbn in Hne. congruence.
Qed.

Lemma follows_list ps :
  Forall (fun p => forall v depth, follows (walk max_visits max_depth (node p) v depth) (match_ref (node p) v)) ps ->
  forall vs depth,
  follows (fun m => if length ps =? length vs then
    (fix go ps vs m :=
        match ps, vs with
        | p :: ps', v :: vs' => and_then (walk max_visits max_depth (node p) v depth m) (go ps' vs')
        | _, _ => (true, m)
        end) ps vs m else (false, m)) (match_ref (PList ps) (VList vs)).
Proof.
  intros HF vs depth. destruct (Nat.eqb_spec (length ps) (length vs)) as [Hlen|Hne].
  - by apply follows_values.
  - intros env visits Hv. split; [cbn; lia|]. left. split; [done|]. by apply values_length_ne.
Qed.

Lemma follows_ext w r r' : (forall env, r env = r' env) -> follows w r -> follows w r'.
Proof. intros He Hw env visits Hv. rewrite <- He. by apply Hw. Qed.

Lemma walk_follows k :
  (forall v depth, counted (walk max_visits max_depth k v depth) (match_ref k v))
  /\ (forall vs depth, counted (walk_list max_visits max_depth k vs depth) (match_ref k (VList vs))).
Proof.
  induction k as [|n|s|z|b| |n|n p IH|ps IH|h t IHh IHt|fs r IH] using pattern_induction;
    (split; [intros v depth|intros vs depth]); apply guarded_counted;
    try (by apply follows_some); try (by apply follows_none).
  - intros env visits Hv. split; [cbn; lia|by split].
  - intros env visits Hv. unfold agrees. cbn. unfold saturating_add.
    destruct (N.ltb_spec max_visits (N.min (visits + len vs) usize_max)); cbn; [split; [lia|right; lia]|].
    split; [lia|by split].
  - destruct v; first [apply follows_when|apply follows_none].
  - destruct v; first [apply follows_when|apply follows_none].
  - destruct v; first [apply follows_when|apply follows_none].
  - destruct v; first [apply follows_some|apply follows_none].
  - destruct v as [| | | | | | | |m [q|]|]; try apply follows_none; cbn.
    + destruct (String.eqb n m); apply follows_none.
    + destruct (String.eqb n m); [apply follows_some|apply follows_none].
  - destruct v as [| | | | | | | |m [q|]|]; try apply follows_none; cbn.
    + destruct (String.eqb n m); [apply counted_follows, IH|apply follows_none].
    + destruct (String.eqb n m); apply follows_none.
  - destruct v as [| | | | | |vs| | |]; try apply follows_none.
    apply follows_list. eapply Forall_impl; [exact IH|]. intros p [Hp _] v0 depth0. apply counted_follows, Hp.
  - apply follows_list. eapply Forall_impl; [exact IH|]. intros p [Hp _] v0 depth0. apply counted_follows, Hp.
  - destruct v as [| | | | | |vs| | |]; try apply follows_none. apply counted_follows, guarded_counted.
    destruct vs as [|v vs]; [apply follows_none|]. apply follows_and_then; apply counted_follows; [apply IHh|apply IHt].
  - destruct vs as [|v vs]; [apply follows_none|]. apply follows_and_then; apply counted_follows; [apply IHh|apply IHt].
  - destruct v as [| | | | | | |values| |]; try apply follows_none. cbn.
    destruct (r || _); [|apply follows_none]. clear r.
    induction IH as [|[n p] fs [Hp _] _ IHfs]; [apply follows_some|].
    destruct (bm_get n values) as [v|]; [|apply follows_none]. cbn.
    apply (follows_and_then _ (match_ref (node p) v)); [apply counted_follows, Hp|exact IHfs].
Qed.
End Matching.

(** ** Enough budget *)

Fixpoint pattern_nodes (k : PatternKind) : nat :=
  match k with
  | PConstructor _ (Some p) => S (pattern_nodes (node p))
  | PList ps => S (list_sum (List.map (fun p => pattern_nodes (node p)) ps))
  | PCons h t => S (pattern_nodes (node h) + pattern_nodes (node t))
  | PRecord fs _ => S (list_sum (List.map (fun f => pattern_nodes (node (snd f))) fs))
  | _ => 1
  end.

Fixpoint pattern_height (k : PatternKind) : nat :=
  match k with
  | PConstructor _ (Some p) => S (pattern_height (node p))
  | PList ps => S (list_max (List.map (fun p => pattern_height (node p)) ps))
  | PCons h t => S (Nat.max (pattern_height (node h)) (pattern_height (node t)))
  | PRecord fs _ => S (list_max (List.map (fun f => pattern_height (node (snd f))) fs))
  | _ => 1
  end.

Definition values_nodes (vs : list Value) : nat := list_sum (List.map value_nodes vs).

Lemma len_values vs : (len vs <= N.of_nat (values_nodes vs))%N.
Proof.
  unfold values_nodes. induction vs as [|v vs IH]; [done|]. cbn [List.map].
  rewrite len_cons, list_sum_cons. pose proof (value_nodes_pos v). lia.
Qed.

Section Enough.
Variable max_visits max_depth : N.
Hypothesis Hmax : (max_visits < usize_max)%N.
Variable W : nat.

(** At most [c] visits, given that many are left. *)
Definition costs (walk : Environment * N -> bool * (Environment * N)) (c : nat) : Prop :=
  forall env visits, (visits + N.of_nat c <= max_visits)%N ->
    ((walk (env, visits)).2.2 <= visits + N.of_nat c)%N.

Lemma costs_mono w c c' : costs w c -> c <= c' -> costs w c'.
Proof. intros Hw Hle env visits Hv. specialize (Hw env visits ltac:(lia)). lia. Qed.

Lemma costs_guarded depth body c :
  (depth < max_depth)%N -> costs body c -> costs (guarded max_visits max_depth depth body) (S c).
Proof.
  intros Hd Hb env visits Hv. unfold guarded, count_visit.
  rewrite (proj2 (N.leb_gt _ _)) by done. rewrite (proj2 (N.leb_gt _ _)) by lia.
  specialize (Hb env (visits + 1)%N ltac:(lia)). lia.
Qed.

Lemma costs_and_then w1 c1 w2 c2 :
  costs w1 c1 -> costs w2 c2 -> costs (fun m => and_then (w1 m) w2) (c1 + c2).
Proof.
  intros H1 H2 env visits Hv. unfold and_then. specialize (H1 env visits ltac:(lia)).
  destruct (w1 (env, visits)) as [[|] [env1 v1]]; cbn in *; [|lia].
  specialize (H2 env1 v1 ltac:(lia)). lia.
Qed.

Lemma costs_free b c : costs (fun m => (b, m)) c.
Proof. intros env visits Hv. cbn. lia. Qed.

Abbreviation walk_cheap := (fun k => forall v depth, value_nodes v <= W ->
  (depth + 2 * N.of_nat (pattern_height k) <= max_depth)%N ->
  costs (walk max_visits max_depth k v depth) (pattern_nodes k * (W + 2))).

Lemma costs_values ps depth :
  Forall (fun p => walk_cheap (node p)) ps ->
  (depth + 2 * N.of_nat (list_max (List.map (fun p => pattern_height (node p)) ps)) <= max_depth)%N ->
  forall vs, values_nodes vs <= W ->
  costs (fun m => if length ps =? length vs then
    (fix go ps vs m :=
        match ps, vs with
        | p :: ps', v :: vs' => and_then (walk max_visits max_depth (node p) v depth m) (go ps' vs')
        | _, _ => (true, m)
        end) ps vs m else (false, m))
    (list_sum (List.map (fun p => pattern_nodes (node p)) ps) * (W + 2)).
Proof.
  intros HF Hd vs Hvs. destruct (Nat.eqb_spec (length ps) (length vs)) as [_|_]; [|apply costs_free].
  revert vs Hvs. induction HF as [|p ps Hp _ IH]; intros vs Hvs; [apply costs_free|].
  destruct vs as [|v vs]; [apply costs_free|]. cbn [List.map] in *.
  unfold values_nodes in *. cbn [List.map] in Hvs. rewrite list_sum_cons in *.
  cbn [list_max fold_right] in Hd.
  assert (Hm : list_max (pattern_height (node p) :: List.map (fun p => pattern_height (node p)) ps)
    = Nat.max (pattern_height (node p)) (list_max (List.map (fun p => pattern_height (node p)) ps))) by done.
  rewrite Nat.mul_add_distr_r. apply costs_and_then; [apply Hp; unfold list_max in *; lia|].
  apply IH; unfold list_max in *; lia.
Qed.

Lemma costs_fields fs values depth :
  Forall (fun f => walk_cheap (node f.2)) fs ->
  (depth + 2 * N.of_nat (list_max (List.map (fun f => pattern_height (node f.2)) fs)) <= max_depth)%N ->
  list_sum (List.map (fun f : string * Value => value_nodes f.2) values) <= W ->
  costs
    ((fix go fields m :=
        match fields with
        | (name, p) :: fields' =>
            match bm_get name values with
            | Some v => and_then (walk max_visits max_depth (node p) v depth m) (go fields')
            | None => (false, m)
            end
        | [] => (true, m)
        end) fs)
    (list_sum (List.map (fun f => pattern_nodes (node f.2)) fs) * (W + 2)).
Proof.
  intros HF Hd HW. induction HF as [|[n p] fs Hp _ IH]; [apply costs_free|].
  cbn [List.map snd] in *. rewrite list_sum_cons. cbn [list_max fold_right] in Hd.
  destruct (bm_get n values) as [v|] eqn:E; [|apply costs_free].
  apply bm_get_In, record_nodes in E. rewrite Nat.mul_add_distr_r.
  apply costs_and_then; [apply Hp; unfold list_max in *; lia|]. apply IH. unfold list_max in *. lia.
Qed.

Lemma costs_still w c : (forall env visits, (w (env, visits)).2.2 = visits) -> costs w c.
Proof. intros Hw env visits Hv. rewrite Hw. lia. Qed.

(** A guarded body of cost [c] in a budget of at least [S c]. *)
Lemma costs_node depth body c total :
  (depth < max_depth)%N -> costs body c -> S c <= total ->
  costs (guarded max_visits max_depth depth body) total.
Proof. intros Hd Hb Hle. eapply costs_mono; [by apply costs_guarded|done]. Qed.

Lemma walk_costs k :
  walk_cheap k /\
  (forall vs depth, values_nodes vs <= W ->
     (depth + 2 * N.of_nat (pattern_height k) <= max_depth)%N ->
     costs (walk_list max_visits max_depth k vs depth) (pattern_nodes k * (W + 2))).
Proof.
  induction k as [|n|s|z|b| |n|n p [IH _]|ps IH|h t [IHh _] [IHt IHt']|fs r IH] using pattern_induction;
    (split; [intros v depth Hv Hd|intros vs depth Hv Hd]); cbn [pattern_nodes pattern_height] in *.
  all: try (apply (costs_node _ _ W); [lia|apply costs_still; intros; by try destruct v|lia]).
  - apply (costs_node _ _ W); [lia| |lia]. intros env visits Hvis. cbn. pose proof (len_values vs).
    unfold saturating_add. rewrite (proj2 (N.ltb_ge _ _)) by lia. cbn. lia.
  - apply (costs_node _ _ W); [lia|apply costs_still; intros|lia].
    destruct v as [| | | | | | | |m [q|]|]; try done; cbn; by destruct (String.eqb n m).
  - apply (costs_node _ _ (pattern_nodes (node p) * (W + 2))); [lia| |lia].
    destruct v as [| | | | | | | |m [q|]|]; try apply costs_free.
    + destruct (String.eqb n m); [apply IH; cbn in Hv; lia|apply costs_free].
    + destruct (String.eqb n m); apply costs_free.
  - apply (costs_node _ _ (list_sum (List.map (fun p => pattern_nodes (node p)) ps) * (W + 2))); [lia| |lia].
    destruct v as [| | | | | |vs| | |]; try apply costs_free.
    apply costs_values; [|lia|unfold values_nodes; cbn in Hv; lia].
    eapply Forall_impl; [exact IH|]. by intros p [].
  - apply (costs_node _ _ (list_sum (List.map (fun p => pattern_nodes (node p)) ps) * (W + 2))); [lia| |lia].
    apply costs_values; [|lia|done]. eapply Forall_impl; [exact IH|]. by intros p [].
  - apply (costs_node _ _ (S ((pattern_nodes (node h) + pattern_nodes (node t)) * (W + 2)))); [lia| |lia].
    destruct v as [| | | | | |vs| | |]; try apply costs_free. apply costs_guarded; [lia|].
    destruct vs as [|v vs]; [apply costs_free|].
    assert (Hn : value_nodes (VList (v :: vs)) = S (value_nodes v + values_nodes vs)) by reflexivity.
    rewrite Nat.mul_add_distr_r. apply costs_and_then; [apply IHh; lia|apply IHt'; lia].
  - apply (costs_node _ _ ((pattern_nodes (node h) + pattern_nodes (node t)) * (W + 2))); [lia| |lia].
    destruct vs as [|v vs]; [apply costs_free|].
    assert (Hn : values_nodes (v :: vs) = value_nodes v + values_nodes vs) by reflexivity.
    rewrite Nat.mul_add_distr_r. apply costs_and_then; [apply IHh; lia|apply IHt'; lia].
  - apply (costs_node _ _ (list_sum (List.map (fun f => pattern_nodes (node f.2)) fs) * (W + 2))); [lia| |lia].
    destruct v as [| | | | | | |values| |]; try apply costs_free.
    destruct (r || _); [|apply costs_free].
    apply costs_fields; [|lia|cbn in Hv; lia]. eapply Forall_impl; [exact IH|]. by intros p [].
Qed.
End Enough.

(** The answer and the count of [match_pattern_counted]. *)
Lemma counted_correct p v max_visits max_depth :
  (max_visits < usize_max)%N ->
  let '(bindings, visits) := match_pattern_counted max_visits max_depth p v in
  ((visits <= max_visits)%N /\ bindings = match_ref (node p) v [] /\ (0 < visits)%N)
  \/ (visits = (max_visits + 1)%N /\ bindings = None).
Proof.
  intros Hmax. unfold match_pattern_counted.
  pose proof (proj1 (walk_follows max_visits max_depth Hmax (node p)) v 0%N [] 0%N ltac:(lia)) as Hw.
  destruct (walk _ _ _ _ _ _) as [[|] [env visits]]; destruct Hw as [Hs Hw]; cbn in Hs, Hw.
  - left. destruct Hw as [Hv ->]. split_and!; [done|done|lia].
  - destruct Hw as [[Hv ->]|Hv]; [left; split_and!; [done|done|lia]|by right].
Qed.

(** matching computes the reference within its budgets.  Whenever the visits
    counted by [match_pattern_counted] do not exceed the budget, its answer is
    that of plain recursive matching, bindings included; otherwise it answers
    no match and reports exactly one visit more than the budget, which the
    caller turns into a resource error. *)
Lemma match_pattern_counted_correct p v max_visits max_depth :
  (max_visits < usize_max)%N ->
  let '(bindings, visits) := match_pattern_counted max_visits max_depth p v in
  ((visits <= max_visits)%N /\ bindings = match_ref (node p) v [])
  \/ (visits = (max_visits + 1)%N /\ bindings = None).
Proof.
  intros Hmax. pose proof (counted_correct p v max_visits max_depth Hmax) as Hc.
  destruct (match_pattern_counted _ _ _ _). naive_solver.
Qed.

Lemma match_pattern_counted_correct_witness :
  let p := mkSpanned (PCons (mkSpanned (PBind "x") (mkSpan 0 1)) (mkSpanned (PBind "xs") (mkSpan 5 7))) (mkSpan 0 7) in
  let '(bindings, visits) := match_pattern_counted 10 10 p (VList [VInt 1; VInt 2]) in
  ((visits <= 10)%N /\ bindings = match_ref (node p) (VList [VInt 1; VInt 2]) [])
  \/ (visits = (10 + 1)%N /\ bindings = None).
Proof.
  intros p. apply (match_pattern_counted_correct p (VList [VInt 1; VInt 2]) 10 10).
  vm_compute. reflexivity.
Defined.

(** A budget proportional to the pattern suffices.  With a depth budget of
    twice the height of the pattern and a visit budget of the pattern's nodes
    times (the value's nodes plus two), matching is never cut short and answers
    as the reference does. *)
Lemma match_pattern_counted_enough p v max_visits max_depth :
  (max_visits < usize_max)%N ->
  (2 * N.of_nat (pattern_height (node p)) <= max_depth)%N ->
  (N.of_nat (pattern_nodes (node p) * (value_nodes v + 2)) <= max_visits)%N ->
  (match_pattern_counted max_visits max_depth p v).1 = match_ref (node p) v []
  /\ ((match_pattern_counted max_visits max_depth p v).2
        <= N.of_nat (pattern_nodes (node p) * (value_nodes v + 2)))%N.
Proof.
  intros Hmax Hd Hv. unfold match_pattern_counted.
  pose proof (proj1 (walk_follows max_visits max_depth Hmax (node p)) v 0%N [] 0%N ltac:(lia)) as Hw.
  pose proof (proj1 (walk_costs max_visits max_depth Hmax (value_nodes v) (node p)) v 0%N
    ltac:(done) ltac:(lia) [] 0%N ltac:(lia)) as Hc.
  destruct (walk _ _ _ _ _ _) as [[|] [env visits]]; destruct Hw as [_ Hw]; cbn [fst snd] in *.
  - destruct Hw as [_ ->]. split; [done|lia].
  - destruct Hw as [[_ ->]|Hw]; [split; [done|lia]|lia].
Qed.

Lemma match_pattern_counted_enough_witness :
  let p := mkSpanned (PList [mkSpanned (PBind "x") (mkSpan 1 2); mkSpanned PWildcard (mkSpan 3 4)]) (mkSpan 0 5) in
  let v := VList [VInt 1; VInt 2] in
  (match_pattern_counted 20 4 p v).1 = match_ref (node p) v []
  /\ ((match_pattern_counted 20 4 p v).2 <= N.of_nat (pattern_nodes (node p) * (value_nodes v + 2)))%N.
Proof.
  intros p v. apply (match_pattern_counted_enough p v 20 4).
  - vm_compute. reflexivity.
  - vm_compute. discriminate.
  - vm_compute. discriminate.
Defined.

(** ** From accepted matches to matching *)

Lemma arm_takes_bool (b : bool) a :
  arm_takes (if b then "true" else "false")%string a ->
  (forall name payload, node (arm_pattern a) <> PConstructor name payload) ->
  is_Some (match_ref (node (arm_pattern a)) (VBool b) []).
Proof.
  unfold arm_takes. destruct (node (arm_pattern a)) as [|n|s|z|c| |n p|ps|h t|fs r] eqn:E; try done;
    intros Ht Hc; [eexists; reflexivity..| |by destruct (Hc n p)].
  cbn. destruct b, c; try done; eexists; reflexivity.
Qed.

(** No constructor pattern is accepted for a boolean. *)
Lemma check_pattern_bool source p s r name payload :
  check_pattern source p TyBool s = Ok r -> node p <> PConstructor name payload.
Proof.
  unfold check_pattern. intros Hrun Hn. destruct r as [u s'].
  apply bind_ok in Hrun as (? & s1 & _ & Hrun). apply bind_ok in Hrun as (s2 & s3 & [= <- <-] & Hrun).
  unfold lift in Hrun. rewrite Hn in Hrun. cbn in Hrun.
  destruct (bm_get name (values (constructors s1))) as [[owner t]|]; cbn in Hrun;
    unfold mismatch, throw in Hrun; by destruct (diagnostic_new _ _ _ _).
Qed.

(** An accepted boolean match cannot fall through.  If the checker accepts a
    match whose scrutinee has type [Bool], then for both booleans some arm's
    pattern matches at run time. *)
Lemma bool_match_total `{UnicodeTables} `{JsonStr} `{BuildProfile} rec source e v arms s f s' fv s1 :
  match_ rec source e v arms s = Ok (f, s') ->
  rec source v s = Ok (fv, s1) -> ty fv = TyBool ->
  forall b, exists a, In a arms /\ is_Some (match_ref (node (arm_pattern a)) (VBool b) []).
Proof.
  intros Hrun Hv Hty b. destruct (match_covers _ _ _ _ _ _ _ _ Hrun) as (fv' & s1' & Hv' & Hcover).
  rewrite Hv in Hv'. injection Hv' as <- <-. rewrite Hty in Hcover.
  destruct (Hcover (if b then "true" else "false")%string) as (a & Hin & Ha);
    [apply bs_from_In; destruct b; cbn; auto|].
  exists a. split; [done|]. apply arm_takes_bool; [done|]. intros name payload.
  pose proof (match_checks _ _ _ _ _ _ _ _ _ _ Hrun Hv) as Hall.
  eapply List.Forall_forall in Hall as (s2 & r & Hc); [|done]. rewrite Hty in Hc.
  by eapply check_pattern_bool.
Qed.

Lemma bool_match_total_witness :
  let rec := @check_expr ascii_tables plain_json true catalog_new 10 5 5 in
  exists f s' fv s1,
    @match_ true rec [] sample_match sample_scrutinee sample_arms (new_bounded 10) = Ok (f, s')
    /\ rec [] sample_scrutinee (new_bounded 10) = Ok (fv, s1) /\ ty fv = TyBool
    /\ forall b, exists a, In a sample_arms /\ is_Some (match_ref (node (arm_pattern a)) (VBool b) []).
Proof.
  cbv zeta. do 4 eexists.
  split; [vm_compute; reflexivity|]. split; [vm_compute; reflexivity|]. split; [reflexivity|].
  refine (@bool_match_total ascii_tables plain_json true
    (@check_expr ascii_tables plain_json true catalog_new 10 5 5) [] sample_match sample_scrutinee
    sample_arms (new_bounded 10) _ _ _ _ _ _ _).
  - vm_compute. reflexivity.
  - vm_compute. reflexivity.
  - reflexivity.
Defined.

(** a match over a sum type can fall through.  A constructor pattern counts as
    covering its constructor whatever its payload pattern is: the checker
    accepts this cell, whose only arm does not match the value. *)
Lemma constructor_match_falls_through (profile : BuildProfile) :
  let _ := ascii_tables in let _ := plain_json in
  let source := chars "type T = | Hit Int; match Hit 2 { | Hit 1 -> true }" in
  exists c checked, parse source = Ok c /\ check source c catalog_new = Ok checked
    /\ exists ty_form v arms, List.map node (forms c) = [FType ty_form; FExpr v]
    /\ node v = EMatch (mkSpanned (EApply (mkSpanned (EConstructor "Hit") (mkSpan 26 29))
                                          (mkSpanned (EInt 2) (mkSpan 30 31))) (mkSpan 26 31)) arms
    /\ Forall (fun a => match_ref (node (arm_pattern a)) (VTagged "Hit" (Some (VInt 2))) [] = None) arms.
Proof.
  cbv zeta. destruct profile; do 2 eexists; (split; [vm_compute; reflexivity|]);
    (split; [vm_compute; reflexivity|]); do 3 eexists; (split; [reflexivity|]); (split; [reflexivity|]);
    repeat constructor.
Qed.

(** ** Integer arithmetic *)

(** The exact result of an integer operator, and whether it exists. *)
Definition exact (op : BinaryOp) (a b : Z) : option Z :=
  match op with
  | Add => Some (a + b)%Z
  | Subtract => Some (a - b)%Z
  | Multiply => Some (a * b)%Z
  | Divide => Some (Z.quot a b)
  | Modulo => Some (Z.rem a b)
  | _ => None
  end.

Lemma rem_range a b : (i64_min <= b <= i64_max)%Z -> b <> 0%Z -> (i64_min <= Z.rem a b <= i64_max)%Z.
Proof.
  intros Hb H0. pose proof (Z.rem_bound_abs a b H0). unfold i64_min, i64_max in *. lia.
Qed.

(** integer arithmetic is exact or refused.  On [i64] operands every arithmetic
    operator returns the exact mathematical result (division truncating towards
    zero) when it is an [i64]; a zero divisor raises the documented
    DivisionByZero effect and a result out of range a TypeError; nothing wraps.
    The one exception is the remainder of the smallest integer by -1, refused
    although its exact result is 0. *)
Lemma integer_arithmetic_exact `{JsonNumber} op a b z :
  (i64_min <= a <= i64_max)%Z -> (i64_min <= b <= i64_max)%Z -> exact op a b = Some z ->
  binary_value op (VInt a) (VInt b) =
    if bool_decide (b = 0%Z /\ (op = Divide \/ op = Modulo)) then
      Err (if bool_decide (op = Divide) then division_by_zero "division by zero" "division"
           else division_by_zero "modulo by zero" "modulo")
    else if is_i64 z && negb (bool_decide (op = Modulo /\ a = i64_min /\ b = (-1)%Z))
    then Ok (VInt z)
    else Err (REType (overflow match op with
                               | Add => "addition"
                               | Subtract => "subtraction"
                               | Multiply => "multiplication"
                               | Divide => "division"
                               | _ => "modulo"
                               end)).
Proof.
  intros Ha Hb He.
  assert (Hno : forall o, o <> Divide -> o <> Modulo ->
    bool_decide (b = 0%Z /\ (o = Divide \/ o = Modulo)) = false)
    by (intros o ? ?; apply bool_decide_eq_false; naive_solver).
  assert (Hmod : forall o, o <> Modulo -> bool_decide (o = Modulo /\ a = i64_min /\ b = (-1)%Z) = false)
    by (intros o ?; apply bool_decide_eq_false; naive_solver).
  destruct op; cbn in He; try done; injection He as <-; cbn [binary_value numeric_binary].
  - rewrite Hno, Hmod, andb_true_r by done. unfold i64_checked_add, i64_checked. by destruct (is_i64 _).
  - rewrite Hno, Hmod, andb_true_r by done. unfold i64_checked_sub, i64_checked. by destruct (is_i64 _).
  - rewrite Hno, Hmod, andb_true_r by done. unfold i64_checked_mul, i64_checked. by destruct (is_i64 _).
  - cbn [is_numeric_zero]. destruct (Z.eqb_spec b 0) as [->|H0].
    + by rewrite bool_decide_eq_true_2 by auto.
    + rewrite bool_decide_eq_false_2 by naive_solver. rewrite Hmod, andb_true_r by done.
      unfold i64_checked_div, i64_checked. rewrite (proj2 (Z.eqb_neq _ _) H0). by destruct (is_i64 _).
  - cbn [is_numeric_zero]. destruct (Z.eqb_spec b 0) as [->|H0].
    + by rewrite bool_decide_eq_true_2 by auto.
    + rewrite (bool_decide_eq_false_2 (b = 0%Z /\ _)) by naive_solver.
      unfold i64_checked_rem. rewrite (proj2 (Z.eqb_neq _ _) H0).
      assert (is_i64 (Z.rem a b) = true) as ->.
      { unfold is_i64. pose proof (rem_range a b Hb H0). rewrite andb_true_iff, !Z.leb_le. done. }
      case_bool_decide as Hm.
      * destruct Hm as (_ & -> & ->). done.
      * destruct (Z.eqb_spec a i64_min), (Z.eqb_spec b (-1)); cbn; try done. naive_solver.
Qed.

Lemma integer_arithmetic_exact_witness :
  let _ := sample_numbers in
  (i64_min <= i64_max <= i64_max)%Z /\
  binary_value Add (VInt i64_max) (VInt 1) = Err (REType (overflow "addition")).
Proof.
  cbv zeta. split; [vm_compute; split; discriminate|].
  apply (@integer_arithmetic_exact sample_numbers Add i64_max 1 (i64_max + 1));
    first [vm_compute; split; discriminate | reflexivity].
Defined.

(** Integer comparisons go through [f64].  Two different integers beyond 2^53
    can be neither less, nor greater, nor equal. *)
Lemma integer_order_not_total `{JsonNumberLaws} :
  let a := VInt (2 ^ 53) in let b := VInt (2 ^ 53 + 1) in
  binary_value Less a b = Ok (VBool false)
  /\ binary_value Greater a b = Ok (VBool false)
  /\ binary_value Equal a b = Ok (VBool false).
Proof. split_and!; [vm_compute; reflexivity..|]. vm_compute. done. Qed.

Lemma integer_order_not_total_witness :
  @binary_value sample_numbers Less (VInt (2 ^ 53)) (VInt (2 ^ 53 + 1)) = Ok (VBool false).
Proof. apply (proj1 (@integer_order_not_total sample_numbers sample_numbers_laws)). Defined.

(** ** Accepted operators do not go wrong *)

(** The values of a type; an integer is also a decimal for the checker. *)
Fixpoint has_type (t : ValueType) (v : Value) : Prop :=
  match t with
  | TyAny => True
  | TyNever => False
  | TyNull => v = VNull
  | TyBool => exists b, v = VBool b
  | TyInt => exists z, v = VInt z
  | TyDecimal => is_Some (number v)
  | TyString => exists s, v = VString s
  | TyUri => exists s, v = VUri s
  | TyList item => exists vs, v = VList vs /\ Forall (has_type item) vs
  | TyRecord fields =>
      exists vs, v = VRecord vs /\
        all_of (fun f => exists x, bm_get (fst f) vs = Some x /\ has_type (snd f) x) fields
  | TyFunction _ _ => exists rc c, v = VCallable rc c
  | TyLocal _ => exists name payload, v = VTagged name payload
  end.

(** Neither [Any] nor a list of it. *)
Fixpoint no_any (t : ValueType) : bool :=
  match t with
  | TyAny => false
  | TyList item => no_any item
  | _ => true
  end.

Lemma has_type_unify a b v : no_any a = true -> no_any b = true -> has_type a v -> has_type (unify a b) v.
Proof.
  intros Ha Hb Hv. unfold unify.
  destruct (ty_eqb a TyNever) eqn:E; [apply ty_eqb_eq in E as ->; done|].
  destruct (ty_eqb b TyNever || ty_eqb a b); [done|].
  destruct (numeric a) eqn:Na; cbn; [|done]. destruct (numeric b); cbn; [|done].
  destruct a; try done. destruct Hv as [z ->]. by eexists.
Qed.

Lemma numeric_value t v :
  numeric t = true -> no_any t = true -> has_type t v ->
  (exists z, v = VInt z) \/ (t = TyDecimal /\ exists f, v = VDecimal f).
Proof.
  destruct t; try done; intros _ _ Hv; [by left|]. destruct Hv as [x Hx].
  destruct v; try discriminate Hx; [left|right]; eauto.
Qed.

Lemma throw_not_ok {A} source c m sp (a : A) : throw source c m sp <> Ok a.
Proof. unfold throw. by destruct (diagnostic_new c m sp source). Qed.

Lemma assignable_bool source e t v :
  ensure_assignable source e TyBool t = Ok tt -> no_any t = true -> has_type t v -> exists b, v = VBool b.
Proof.
  unfold ensure_assignable. cbn. destruct t; cbn; intros Hok Hn Hv; try done;
    by apply throw_not_ok in Hok.
Qed.

(** The outcomes an accepted operator may have. *)
Definition safe_result `{JsonNumber} (op : BinaryOp) (t : ValueType) (r : RuntimeResult Value) : Prop :=
  match r with
  | Ok v => has_type t v
  | Err (REEffect name _ _) => name = "DivisionByZero"%string /\ (op = Divide \/ op = Modulo)
  | Err (REType m) => exists operation, m = overflow operation
  | _ => False
  end.

Lemma numeric_binary_safe `{JsonNumber} op tl tr l r ints decimals name :
  numeric tl = true -> numeric tr = true -> no_any tl = true -> no_any tr = true ->
  has_type tl l -> has_type tr r ->
  safe_result op (unify tl tr) (numeric_binary l r ints decimals name).
Proof.
  intros Nl Nr Al Ar Hl Hr.
  destruct (numeric_value tl l Nl Al Hl) as [[x ->]|[-> [x ->]]], (numeric_value tr r Nr Ar Hr) as [[y ->]|[-> [y ->]]].
  - cbn. destruct (ints x y) as [z|]; [|by eexists].
    destruct tl; try done; destruct tr; try done; cbn; by eexists.
  - cbn. destruct tl; try done; by eexists.
  - cbn. destruct tr; try done; by eexists.
  - cbn. by eexists.
Qed.

Lemma numbers_safe `{JsonNumber} tl tr l r :
  numeric tl = true -> numeric tr = true -> no_any tl = true -> no_any tr = true ->
  has_type tl l -> has_type tr r -> exists a b, numbers l r = Ok (a, b).
Proof.
  intros Nl Nr Al Ar Hl Hr.
  destruct (numeric_value tl l Nl Al Hl) as [[x ->]|[-> [x ->]]], (numeric_value tr r Nr Ar Hr) as [[y ->]|[-> [y ->]]];
    by do 2 eexists.
Qed.

Lemma ok_bind {E A B} (m : outcome E A) (k : A -> outcome E B) b :
  m ≫= k = Ok b -> exists a, m = Ok a /\ k a = Ok b.
Proof. destruct m; try done. by eexists. Qed.

(** The numeric test of the checker's operators. *)
Lemma checked_numbers source c m sp tl tr (t u : ValueType) :
  (if negb (numeric tl) || negb (numeric tr) then throw source c m sp else Ok u) = Ok t ->
  numeric tl = true /\ numeric tr = true /\ t = u.
Proof.
  destruct (numeric tl), (numeric tr); cbn; intros Hok; try (by apply throw_not_ok in Hok).
  by injection Hok as <-.
Qed.

(** C7: accepted operators do not go wrong.  If the checker accepts a binary
    operator at two operand types neither of which is [Any] or a list of [Any],
    then on values
    of these types the runtime returns a value of the type the checker
    computed, raises DivisionByZero (only for division and modulo, as the error
    row says), or reports integer overflow; never another type error. *)
Theorem operators_safe `{JsonNumber} source e op tl tr t l r :
  binary_type source e op tl tr = Ok t ->
  no_any tl = true -> no_any tr = true -> has_type tl l -> has_type tr r ->
  safe_result op t (binary_value op l r).
Proof.
  intros Hty Al Ar Hl Hr. destruct op; cbn [binary_type] in Hty.
  1,2: apply ok_bind in Hty as ([] & H1 & Hty); apply ok_bind in Hty as ([] & H2 & [= <-]);
    destruct (assignable_bool _ _ _ _ H1 Al Hl) as [x ->], (assignable_bool _ _ _ _ H2 Ar Hr) as [y ->];
    by eexists.
  1,2: injection Hty as <-; by eexists.
  1-4: destruct (checked_numbers _ _ _ _ _ _ _ _ Hty) as (Nl & Nr & ->);
    destruct (numbers_safe tl tr l r Nl Nr Al Ar Hl Hr) as (a & b & Hn); cbn; rewrite Hn; by eexists.
  - destruct tr; try (by apply throw_not_ok in Hty); [done|]. injection Hty as <-.
    destruct Hr as (vs & -> & HF). cbn. exists (l :: vs). split; [done|]. constructor.
    + by apply has_type_unify.
    + eapply Forall_impl; [exact HF|]. intros v Hv. rewrite unify_sym. by apply has_type_unify.
  - case_bool_decide; [|done]. cbn [andb] in Hty. destruct (ty_eqb tl TyString && ty_eqb tr TyString) eqn:Es.
    + apply andb_true_iff in Es as [->%ty_eqb_eq ->%ty_eqb_eq]. injection Hty as <-.
      destruct Hl as [x ->], Hr as [y ->]. by eexists.
    + destruct (checked_numbers _ _ _ _ _ _ _ _ Hty) as (Nl & Nr & ->).
      pose proof (numeric_binary_safe Add tl tr l r i64_checked_add f64_add "addition" Nl Nr Al Ar Hl Hr) as Hs.
      destruct (numeric_value tl l Nl Al Hl) as [[x ->]|[_ [x ->]]]; exact Hs.
  - destruct (checked_numbers _ _ _ _ _ _ _ _ Hty) as (Nl & Nr & ->). by apply numeric_binary_safe.
  - destruct (checked_numbers _ _ _ _ _ _ _ _ Hty) as (Nl & Nr & ->). by apply numeric_binary_safe.
  - destruct (checked_numbers _ _ _ _ _ _ _ _ Hty) as (Nl & Nr & ->). cbn [binary_value].
    destruct (is_numeric_zero r); [by cbn; auto|by apply numeric_binary_safe].
  - destruct (checked_numbers _ _ _ _ _ _ _ _ Hty) as (Nl & Nr & ->). cbn [binary_value].
    destruct (is_numeric_zero r); [by cbn; auto|by apply numeric_binary_safe].
Qed.

Lemma operators_safe_witness :
  let _ := sample_numbers in
  binary_type [] (placed ENull) Divide TyInt TyDecimal = Ok TyDecimal
  /\ safe_result Divide TyDecimal (binary_value Divide (VInt 1) (VDecimal (S754_zero true))).
Proof.
  cbv zeta. split; [reflexivity|].
  apply (@operators_safe sample_numbers [] (placed ENull) Divide TyInt TyDecimal TyDecimal (VInt 1)
    (VDecimal (S754_zero true))); [reflexivity..| |]; by eexists.
Defined.
