(* ===== verification/Limits.v ===== *)
(** * The evaluator's budgets ([runtime/limits.rs], [RuntimeLimits] of
    [runtime/mod.rs])

    The counters of the evaluator that its budgets are about: work steps, output
    bytes, the printed text and the nesting depth.  They survive an error (a
    handled error does not give work back), so an operation returns its answer
    together with the counters. *)

From stdpp Require Import base tactics list strings.
From Stdlib Require Import ZArith NArith Lia.
From S2P Require Import Prelude BTree Text Numbers Syntax Lexer Value ValueFacts Operators.
From S2P Require Import CheckerFacts OperatorFacts.

Definition MAX_SAFE_RUNTIME_DEPTH : N := 128.

Record RuntimeLimits := mkLimits {
  limit_steps : N;
  print_bytes : N;
  preview_bytes : N;
  source_bytes : N;
  syntax_nodes : N;
  parse_depth : N;
  runtime_depth : N;
  value_bytes : N;
  environment_bytes : N;
  parallelism : N;
}.

Definition limits_default : RuntimeLimits :=
  mkLimits 100000 (8 * 1024) 1024 (256 * 1024) 100000 256 MAX_SAFE_RUNTIME_DEPTH
    (4 * 1024 * 1024) (16 * 1024 * 1024) 8.

Record Meter := mkMeter {
  steps : N;
  stdout : string;
  output_used : N;
  depth : N;
}.

Section Limits.
Context `{JsonNumber}.
Variable limits : RuntimeLimits.
Variable output_bytes : N.

(** A method of the evaluator: the answer and the counters after the call. *)
Definition Metered A := Meter -> RuntimeResult A * Meter.

Definition refuse {A} (message : string) : Metered A := fun m => (Err (RELimit message), m).

(** [steps.fetch_update(.., |used| used.checked_add(units).filter(|next| *next <= limits.steps))]. *)
Definition charge_work (units : N) : Metered unit := fun m =>
  match checked_add_u64 (steps m) units with
  | Some next =>
      if (next <=? limit_steps limits)%N
      then (Ok tt, mkMeter next (stdout m) (output_used m) (depth m))
      else refuse "step budget exceeded" m
  | None => refuse "step budget exceeded" m
  end.

Definition step : Metered unit := charge_work 1.

Definition enter_runtime_depth : Metered unit := fun m =>
  if (runtime_depth limits <=? depth m)%N then refuse "runtime nesting budget exceeded" m
  else (Ok tt, mkMeter (steps m) (stdout m) (output_used m) (depth m + 1)).

Definition leave_runtime_depth (m : Meter) : Meter :=
  mkMeter (steps m) (stdout m) (output_used m) (saturating_sub (depth m) 1).

Definition remaining_steps (m : Meter) : N :=
  saturating_sub (limit_steps limits) (N.min (steps m) (limit_steps limits)).

Definition values_equal (l r : Value) : Metered bool := fun m =>
  match json_semantic_eq_bounded l r (remaining_steps m) with
  | Ok (equal, visits) =>
      match charge_work visits m with
      | (Ok _, m) => (Ok equal, m)
      | (Err e, m) => (Err e, m)
      | (Panicked, m) => (Panicked, m)
      | (OutOfFuel, m) => (OutOfFuel, m)
      end
  | Err _ => refuse "step budget exceeded" m
  | Panicked => (Panicked, m)
  | OutOfFuel => (OutOfFuel, m)
  end.

Definition match_pattern (p : Pattern) (v : Value) : Metered (option Environment) := fun m =>
  let remaining := remaining_steps m in
  let '(bindings, visits) := match_pattern_counted remaining (runtime_depth limits) p v in
  if (remaining <? visits)%N then refuse "step budget exceeded" m
  else
    match charge_work visits m with
    | (Ok _, m) => (Ok bindings, m)
    | (Err e, m) => (Err e, m)
    | (Panicked, m) => (Panicked, m)
    | (OutOfFuel, m) => (OutOfFuel, m)
    end.

Definition reserve_output (bytes : N) : Metered unit := fun m =>
  match checked_add_u64 (output_used m) bytes with
  | Some next =>
      if (next <=? output_bytes)%N
      then (Ok tt, mkMeter (steps m) (stdout m) next (depth m))
      else refuse "output budget exceeded" m
  | None => refuse "output budget exceeded" m
  end.

Definition remaining_output (m : Meter) : N :=
  saturating_sub output_bytes (N.min (output_used m) output_bytes).

Definition push_stdout (text : string) : Metered unit := fun m =>
  let bytes := saturating_add (str_len text) 1 in
  let next := saturating_add (str_len (stdout m)) bytes in
  if (print_bytes limits <? next)%N then refuse "print/output budget exceeded" m
  else
    match reserve_output bytes m with
    | (Ok _, m) =>
        (Ok tt, mkMeter (steps m) (stdout m ++ text ++ of_chars [newline]) (output_used m) (depth m))
    | (_, m) => refuse "print/output budget exceeded" m
    end.

(** [push_interpolation]: the new text, or a refusal. *)
Definition push_interpolation (output value : string) : RuntimeResult string :=
  if (value_bytes limits <? saturating_add (str_len output) (str_len value))%N
  then Err (RELimit "intermediate value budget exceeded")
  else Ok (output ++ value)%string.
End Limits.

(** ** Facts *)

Lemma str_len_app a b : str_len (a ++ b) = (str_len a + str_len b)%N.
Proof.
  unfold str_len. induction a as [|c a IH]; [done|].
  change ((String c a ++ b)%string) with (String c (a ++ b)). cbn [String.length]. lia.
Qed.

Section Facts.
Context `{JsonNumber}.
Variable limits : RuntimeLimits.
Variable output_bytes : N.

Definition within (m : Meter) : Prop :=
  (steps m <= limit_steps limits)%N /\ (output_used m <= output_bytes)%N
  /\ (str_len (stdout m) <= print_bytes limits)%N /\ (depth m <= runtime_depth limits)%N.

Lemma charge_work_spec units m :
  charge_work limits units m =
    if (steps m + units <=? N.min (limit_steps limits) usize_max)%N
    then (Ok tt, mkMeter (steps m + units) (stdout m) (output_used m) (depth m))
    else (Err (RELimit "step budget exceeded"), m).
Proof.
  unfold charge_work, checked_add_u64, refuse.
  destruct (N.leb_spec (steps m + units) usize_max); cbn;
    destruct (N.leb_spec (steps m + units) (N.min (limit_steps limits) usize_max));
    destruct (N.leb_spec (steps m + units) (limit_steps limits)); try done; lia.
Qed.

Lemma reserve_output_spec bytes m :
  reserve_output output_bytes bytes m =
    if (output_used m + bytes <=? N.min output_bytes usize_max)%N
    then (Ok tt, mkMeter (steps m) (stdout m) (output_used m + bytes) (depth m))
    else (Err (RELimit "output budget exceeded"), m).
Proof.
  unfold reserve_output, checked_add_u64, refuse.
  destruct (N.leb_spec (output_used m + bytes) usize_max); cbn;
    destruct (N.leb_spec (output_used m + bytes) (N.min output_bytes usize_max));
    destruct (N.leb_spec (output_used m + bytes) output_bytes); try done; lia.
Qed.

Lemma push_stdout_spec text m :
  within m -> (print_bytes limits < usize_max)%N ->
  push_stdout limits output_bytes text m =
    if (str_len (stdout m) + str_len text + 1 <=? print_bytes limits)%N
       && (output_used m + (str_len text + 1) <=? N.min output_bytes usize_max)%N
    then (Ok tt, mkMeter (steps m) (stdout m ++ text ++ of_chars [newline])
                   (output_used m + (str_len text + 1)) (depth m))
    else (Err (RELimit "print/output budget exceeded"), m).
Proof.
  intros (_ & _ & Hp & _) Hmax. unfold push_stdout, saturating_add, refuse.
  destruct (N.leb_spec (str_len (stdout m) + str_len text + 1) (print_bytes limits)) as [Hle|Hgt]; cbn [andb].
  - rewrite (proj2 (N.ltb_ge _ _)) by lia. rewrite reserve_output_spec.
    rewrite (N.min_l (str_len text + 1) usize_max) by lia. by destruct (_ <=? _)%N.
  - by rewrite (proj2 (N.ltb_lt _ _)) by lia.
Qed.

(** The operations on the counters, as the evaluator issues them. *)
Inductive meter_op :=
| MStep (units : N)
| MEqual (l r : Value)
| MMatch (p : Pattern) (v : Value)
| MReserve (bytes : N)
| MPrint (text : string)
| MEnter
| MLeave.

Definition run_op (op : meter_op) (m : Meter) : option RuntimeError * Meter :=
  let answer {A} (r : RuntimeResult A * Meter) :=
    (match r.1 with Err e => Some e | _ => None end, r.2) in
  match op with
  | MStep units => answer (charge_work limits units m)
  | MEqual l r => answer (values_equal limits l r m)
  | MMatch p v => answer (match_pattern limits p v m)
  | MReserve bytes => answer (reserve_output output_bytes bytes m)
  | MPrint text => answer (push_stdout limits output_bytes text m)
  | MEnter => answer (enter_runtime_depth limits m)
  | MLeave => (None, leave_runtime_depth m)
  end.

(** What an operation may do: grow the counters within their limits, or, when it
    fails, nothing. *)
Definition metered (m : Meter) (r : option RuntimeError * Meter) : Prop :=
  within r.2 /\ (steps m <= steps r.2)%N /\ (output_used m <= output_used r.2)%N
  /\ (exists text, stdout r.2 = (stdout m ++ text)%string)
  /\ match r.1 with Some e => r.2 = m /\ error_name e = "ResourceLimitError"%string | None => True end.

Lemma string_app_nil_r s : (s ++ "")%string = s.
Proof. induction s as [|c s IH]; [done|]. change (String c (s ++ "") = String c s). by rewrite IH. Qed.

Lemma metered_same m e : within m -> error_name e = "ResourceLimitError"%string -> metered m (Some e, m).
Proof. intros Hw He. split_and!; cbn; try done. exists ""%string. by rewrite string_app_nil_r. Qed.

Lemma metered_none m m' :
  within m' -> (steps m <= steps m')%N -> (output_used m <= output_used m')%N ->
  (exists text, stdout m' = (stdout m ++ text)%string) -> metered m (None, m').
Proof. done. Qed.

Lemma within_steps m n :
  within m -> (n <= limit_steps limits)%N -> within (mkMeter n (stdout m) (output_used m) (depth m)).
Proof. intros (? & ? & ? & ?) Hn. by split_and!. Qed.

Lemma metered_charge units m :
  within m ->
  metered m (match charge_work limits units m with
             | (Ok _, m) => (None, m)
             | (Err e, m) => (Some e, m)
             | (_, m) => (None, m)
             end).
Proof.
  intros Hw. rewrite charge_work_spec. destruct (N.leb_spec (steps m + units) (N.min (limit_steps limits) usize_max)).
  - apply metered_none; cbn; [apply within_steps; [done|lia]|lia|lia|]. exists ""%string. by rewrite string_app_nil_r.
  - by apply metered_same.
Qed.

Lemma metered_still m : within m -> metered m (None, m).
Proof. intros Hw. apply metered_none; [done|lia|lia|]. exists ""%string. by rewrite string_app_nil_r. Qed.

Lemma run_op_metered op m :
  within m -> (print_bytes limits < usize_max)%N -> metered m (run_op op m).
Proof.
  intros Hw Hp. destruct op as [units|l r|p v|bytes|text| |]; unfold run_op; cbv zeta.
  - pose proof (metered_charge units m Hw) as Hm. by destruct (charge_work limits units m) as [[]].
  - unfold values_equal. destruct (json_semantic_eq_bounded l r _) as [[equal visits]|[]| |].
    + pose proof (metered_charge visits m Hw) as Hm. by destruct (charge_work limits visits m) as [[]].
    + by apply metered_same.
    + by apply metered_still.
    + by apply metered_still.
  - unfold match_pattern. destruct (match_pattern_counted _ _ p v) as [bindings visits].
    destruct (_ <? visits)%N; [by apply metered_same|].
    pose proof (metered_charge visits m Hw) as Hm. by destruct (charge_work limits visits m) as [[]].
  - rewrite reserve_output_spec.
    destruct (N.leb_spec (output_used m + bytes) (N.min output_bytes usize_max)); [|by apply metered_same].
    destruct Hw as (? & ? & ? & ?). apply metered_none; cbn; [split_and!; cbn; try done; lia|lia|lia|].
    exists ""%string. by rewrite string_app_nil_r.
  - rewrite push_stdout_spec by done.
    destruct (N.leb_spec (str_len (stdout m) + str_len text + 1) (print_bytes limits)); [|by apply metered_same].
    destruct (N.leb_spec (output_used m + (str_len text + 1)) (N.min output_bytes usize_max)); [|by apply metered_same].
    destruct Hw as (? & ? & ? & ?). apply metered_none; cbn; [|lia|lia|by eexists].
    split_and!; cbn [steps output_used stdout depth]; try done; [lia|].
    rewrite !str_len_app. unfold str_len in *. cbn [String.length]. lia.
  - unfold enter_runtime_depth. destruct (N.leb_spec (runtime_depth limits) (depth m)); [by apply metered_same|].
    destruct Hw as (? & ? & ? & ?). apply metered_none; cbn; [split_and!; cbn; try done; lia|lia|lia|].
    exists ""%string. by rewrite string_app_nil_r.
  - destruct Hw as (? & ? & ? & ?). unfold leave_runtime_depth, saturating_sub.
    apply metered_none; cbn; [split_and!; cbn; try done; lia|lia|lia|].
    exists ""%string. by rewrite string_app_nil_r.
Qed.

Definition run_ops (ops : list meter_op) (m : Meter) : Meter := foldl (fun m op => (run_op op m).2) m ops.

Lemma run_ops_within ops m :
  within m -> (print_bytes limits < usize_max)%N ->
  within (run_ops ops m) /\ (steps m <= steps (run_ops ops m))%N.
Proof.
  intros Hw Hp. unfold run_ops. revert m Hw. induction ops as [|op ops IH]; intros m Hw; cbn; [split; [done|lia]|].
  destruct (run_op_metered op m Hw Hp) as (Hw' & Hs & _). destruct (IH _ Hw') as [Hf Hs']. split; [done|lia].
Qed.
End Facts.

(** Budgets hold at every point.  From counters within their limits, any
    sequence of the evaluator's metered operations keeps work, output, printed
    text and depth within their limits; work and output never decrease, printed
    text is only appended to, and an operation that is refused changes nothing
    and reports a resource error. *)
Lemma budgets_hold `{JsonNumber} limits output_bytes pre op post m :
  within limits output_bytes m -> (print_bytes limits < usize_max)%N ->
  let before := run_ops limits output_bytes pre m in
  metered limits output_bytes before (run_op limits output_bytes op before)
  /\ within limits output_bytes (run_ops limits output_bytes (pre ++ op :: post) m)
  /\ (steps m <= steps (run_ops limits output_bytes (pre ++ op :: post) m))%N.
Proof.
  intros Hw Hp before. destruct (run_ops_within limits output_bytes pre m Hw Hp) as [Hb _].
  split; [by apply run_op_metered|]. by apply run_ops_within.
Qed.

Lemma budgets_hold_witness :
  let m := mkMeter 0 "" 0 0 in
  within limits_default 100 m /\ (print_bytes limits_default < usize_max)%N /\
  metered limits_default 100 m (@run_op sample_numbers limits_default 100 (MPrint "hi") m).
Proof.
  intros m. assert (Hw : within limits_default 100 m) by (split_and!; vm_compute; discriminate).
  split; [exact Hw|]. split; [reflexivity|].
  apply (@budgets_hold sample_numbers limits_default 100 [] (MPrint "hi") [] m Hw). reflexivity.
Defined.

(** Metered matching and equality answer as their references.  When the
    evaluator's [match_pattern] returns bindings they are those of plain
    recursive matching, and when [values_equal] returns an answer it is equality
    of the JSON images; both charge at least one step, and otherwise fail with a
    resource error. *)
Lemma metered_answers `{JsonNumberLaws} limits m p l r :
  (limit_steps limits < usize_max)%N -> value_wf l -> value_wf r ->
  match match_pattern limits p l m with
  | (Ok bindings, m') => bindings = match_ref (node p) l [] /\ (steps m < steps m')%N
  | (Err e, m') => e = RELimit "step budget exceeded" /\ m' = m
  | _ => False
  end
  /\ match values_equal limits l r m with
     | (Ok equal, m') => equal = json_eqb (to_json l) (to_json r) /\ (steps m < steps m')%N
     | (Err e, m') => e = RELimit "step budget exceeded" /\ m' = m
     | _ => False
     end.
Proof.
  intros Hmax Hl Hr. assert (Hrem : (remaining_steps limits m < usize_max)%N)
    by (unfold remaining_steps, saturating_sub; lia). split.
  - unfold match_pattern.
    pose proof (counted_correct p l (remaining_steps limits m) (runtime_depth limits) Hrem) as Hc.
    destruct (match_pattern_counted _ _ p l) as [bindings visits].
    destruct (N.ltb_spec (remaining_steps limits m) visits); [done|].
    rewrite charge_work_spec. destruct (_ <=? _)%N; [|done]. cbn.
    destruct Hc as [(_ & -> & Hpos)|[Hv _]]; [split; [done|lia]|lia].
  - unfold values_equal.
    pose proof (eq_bounded_correct l r (remaining_steps limits m) Hl Hr) as Hc.
    destruct (json_semantic_eq_bounded l r _) as [[equal visits]|[]| |]; [|done..].
    rewrite charge_work_spec. destruct (_ <=? _)%N; [|done]. cbn. destruct Hc as [-> Hpos]. split; [done|lia].
Qed.

Lemma metered_answers_witness :
  let _ := sample_numbers in
  let p := placed (PCons (placed (PBind "x")) (placed PWildcard)) in
  let l := VList [VInt 1] in let m := mkMeter 0 "" 0 0 in
  match match_pattern limits_default p l m with
  | (Ok bindings, m') => bindings = match_ref (node p) l [] /\ (steps m < steps m')%N
  | (Err e, m') => e = RELimit "step budget exceeded" /\ m' = m
  | _ => False
  end.
Proof.
  intros N p l m. assert (Hl : value_wf l) by (cbn; split; [vm_compute; split; discriminate|done]).
  apply (@metered_answers sample_numbers sample_numbers_laws limits_default m p l l); [reflexivity|exact Hl..].
Defined.
