(* ===== verification/Strings.v ===== *)
(** * Operations of [str] and of the formatter that the runtime uses

    Strings are byte strings ([Text.v]); positions are byte offsets.  Texts that
    the code only inspects by bytes or by whole substrings are split on bytes.  The
    second half has the operations on ASCII and on substrings. *)

From stdpp Require Import base tactics list strings pretty.
From Stdlib Require Import ZArith NArith Lia Ascii.
From S2P Require Import Prelude Text.

(** [Iterator::take] with a [usize] count. *)
Fixpoint take_n {A} (n : N) (l : list A) : list A :=
  match l with
  | [] => []
  | x :: l' => if (n =? 0)%N then [] else x :: take_n (n - 1) l'
  end.

(** [{}] of [i64] and of the unsigned integers. *)
Definition display_int (z : Z) : string := pretty z.
Definition display_u64 (n : N) : string := pretty n.

(** [&s[..n]], [&s[n..]]. *)
Definition str_take (n : N) (s : string) : string := String.substring 0 (N.to_nat n) s.
Definition str_drop (n : N) (s : string) : string :=
  String.substring (N.to_nat n) (String.length s - N.to_nat n) s.

Definition is_empty (s : string) : bool := String.eqb s "".

(** [str::contains]. *)
Definition str_contains (needle s : string) : bool :=
  match String.index 0 needle s with Some _ => true | None => false end.

(** [str::split_once]: the part before the first occurrence. *)
Definition split_once_before (pat s : string) : option string :=
  n ← String.index 0 pat s; Some (String.substring 0 n s).

(** ** Char boundaries *)

Definition is_continuation (a : ascii) : bool := in_range 0x80 0xBF (N_of_ascii a).

(** [str::is_char_boundary]. *)
Definition is_char_boundary (s : string) (n : N) : bool :=
  (n =? 0)%N || (n =? str_len s)%N
  || match String.get (N.to_nat n) s with Some a => negb (is_continuation a) | None => false end.

(** [while !s.is_char_boundary(end) { end -= 1; }]. *)
Fixpoint floor_from (s : string) (n : nat) : nat :=
  match n with
  | O => O
  | S n' => if is_char_boundary s (N.of_nat n) then n else floor_from s n'
  end.
Definition floor_char_boundary (s : string) (n : N) : N :=
  N.of_nat (floor_from s (N.to_nat (N.min n (str_len s)))).

(** [Utf8Error::valid_up_to], or the whole length: the bytes before the first
    ill-formed sequence. *)
Fixpoint valid_up_to (bs : list ascii) : nat :=
  match bs with
  | [] => O
  | b0 :: r0 =>
      let n0 := N_of_ascii b0 in
      if (n0 <? 0x80)%N then S (valid_up_to r0)
      else
        match r0 with
        | [] => O
        | b1 :: r1 =>
            let n1 := N_of_ascii b1 in
            if in_range 0xC2 0xDF n0 then
              if is_continuation b1 then 2 + valid_up_to r1 else O
            else
              match r1 with
              | [] => O
              | b2 :: r2 =>
                  if in_range 0xE0 0xEF n0 then
                    if in_range (if n0 =? 0xE0 then 0xA0 else 0x80)%N
                         (if n0 =? 0xED then 0x9F else 0xBF)%N n1 && is_continuation b2
                    then 3 + valid_up_to r2 else O
                  else
                    match r2 with
                    | [] => O
                    | b3 :: r3 =>
                        if in_range 0xF0 0xF4 n0
                           && in_range (if n0 =? 0xF0 then 0x90 else 0x80)%N
                                (if n0 =? 0xF4 then 0x8F else 0xBF)%N n1
                           && is_continuation b2 && is_continuation b3
                        then 4 + valid_up_to r3 else O
                    end
              end
        end
  end%nat.

Definition valid_prefix (s : string) : string :=
  String.substring 0 (valid_up_to (String.list_ascii_of_string s)) s.

(** ** Splitting *)

(** The pieces of a byte string between line feeds: at least one. *)
Fixpoint split_newlines (s : string) : list string :=
  match s with
  | EmptyString => [""%string]
  | String a s' =>
      if Ascii.eqb a "010" then ""%string :: split_newlines s'
      else
        match split_newlines s' with
        | p :: ps => String a p :: ps
        | [] => [String a ""]
        end
  end.

(** Without a final carriage return. *)
Fixpoint strip_cr (s : string) : string :=
  match s with
  | EmptyString => ""
  | String a EmptyString => if Ascii.eqb a "013" then "" else s
  | String a s' => String a (strip_cr s')
  end.

(** [str::lines]: a line ends with a line feed, with or without a carriage return
    before it; what follows the last line feed is a line when it is not empty. *)
Definition lines (s : string) : list string :=
  match List.rev (split_newlines s) with
  | last :: before =>
      List.map strip_cr (List.rev before) ++ (if is_empty last then [] else [last])
  | [] => []
  end.

(** [str::split] with a string that is not empty: [fuel] bytes at most. *)
Fixpoint split_from (fuel : nat) (delimiter s : string) : list string :=
  match fuel with
  | O => [s]
  | S fuel' =>
      match String.index 0 delimiter s with
      | None => [s]
      | Some n =>
          let next := (n + String.length delimiter)%nat in
          String.substring 0 n s
          :: split_from fuel' delimiter (String.substring next (String.length s - next) s)
      end
  end.

(** An empty delimiter separates all chars, and matches at both ends. *)
Definition split (delimiter s : string) : list string :=
  if is_empty delimiter
  then (""%string :: List.map (fun c => of_chars [c]) (chars s)) ++ [""%string]
  else split_from (S (String.length s)) delimiter s.

(** ** Facts *)

Lemma take_n_take {A} n (l : list A) : take_n n l = take (N.to_nat n) l.
Proof.
  revert n. induction l as [|x l IH]; intros n; [by rewrite take_nil|]. cbn. destruct (N.eqb_spec n 0) as [->|Hn]; [done|].
  rewrite IH. replace (N.to_nat n) with (S (N.to_nat (n - 1))) by lia. done.
Qed.

Lemma take_n_all {A} n (l : list A) : (len l <= n)%N -> take_n n l = l.
Proof.
  revert n. induction l as [|x l IH]; intros n; [done|]. rewrite len_cons. intros Hn. cbn.
  rewrite (proj2 (N.eqb_neq _ _)) by lia. f_equal. apply IH. lia.
Qed.

Lemma floor_from_le s n : (floor_from s n <= n)%nat.
Proof. induction n as [|n IH]; cbn; [done|]. case_match; lia. Qed.

Lemma floor_char_boundary_le s n : (floor_char_boundary s n <= N.min n (str_len s))%N.
Proof. unfold floor_char_boundary. pose proof (floor_from_le s (N.to_nat (N.min n (str_len s)))). lia. Qed.

Lemma floor_char_boundary_is s n : is_char_boundary s (floor_char_boundary s n) = true.
Proof.
  unfold floor_char_boundary. induction (N.to_nat (N.min n (str_len s))) as [|m IH]; cbn [floor_from]; [done|].
  by destruct (is_char_boundary s (N.of_nat (S m))) eqn:E.
Qed.

Lemma length_substring n m s :
  String.length (String.substring n m s) = Nat.min m (String.length s - n).
Proof.
  revert n m. induction s as [|a s IH]; intros n m; [by destruct n, m; cbn; lia|].
  destruct n as [|n]; [destruct m as [|m]; cbn; [done|]; rewrite IH; lia|]. cbn. apply IH.
Qed.

Lemma str_len_take n s : str_len (str_take n s) = N.min n (str_len s).
Proof. unfold str_len, str_take. rewrite length_substring. lia. Qed.

Lemma substring_prefix n s : exists rest, s = (String.substring 0 n s ++ rest)%string.
Proof.
  revert n. induction s as [|a s IH]; intros [|n]; cbn; [by exists ""%string..|by eexists|].
  destruct (IH n) as [rest Hs]. exists rest. by rewrite Hs at 1.
Qed.

Lemma valid_up_to_le bs : (valid_up_to bs <= length bs)%nat.
Proof.
  revert bs. fix IH 1. intros [|b0 r0]; cbn; [lia|]. destruct (_ <? _)%N.
  - specialize (IH r0). lia.
  - destruct r0 as [|b1 r1]; cbn; [lia|]. destruct (in_range 0xC2 0xDF _).
    + destruct (is_continuation b1); [|lia]. specialize (IH r1). lia.
    + destruct r1 as [|b2 r2]; cbn; [lia|]. destruct (in_range 0xE0 0xEF _).
      * destruct (_ && _); [|lia]. specialize (IH r2). lia.
      * destruct r2 as [|b3 r3]; cbn; [lia|]. destruct (_ && _); [|lia]. specialize (IH r3). lia.
Qed.

(** ** ASCII and substring operations on byte strings

    What the egress boundary uses of [str]: case folding of ASCII letters, tests on
    the bytes, splitting at an ASCII char, counting and replacing the occurrences of
    a text.  ASCII chars are single bytes of UTF-8, so a test for one is a test on
    bytes. *)

(** [u8::to_ascii_lowercase], [u8::to_ascii_uppercase]. *)
Definition byte_lower (a : ascii) : ascii :=
  if is_ascii_upper (N_of_ascii a) then ascii_of_N (N_of_ascii a + 32) else a.
Definition byte_upper (a : ascii) : ascii :=
  if is_ascii_lower (N_of_ascii a) then ascii_of_N (N_of_ascii a - 32) else a.

Fixpoint str_map (f : ascii -> ascii) (s : string) : string :=
  match s with
  | EmptyString => EmptyString
  | String a s' => String (f a) (str_map f s')
  end.

Definition lower : string -> string := str_map byte_lower.
Definition upper : string -> string := str_map byte_upper.

(** [str::eq_ignore_ascii_case]. *)
Definition eq_ignore_ascii_case (s t : string) : bool := String.eqb (lower s) (lower t).

Definition any_byte (p : ascii -> bool) (s : string) : bool := existsb p (String.list_ascii_of_string s).
Definition all_bytes (p : ascii -> bool) (s : string) : bool := forallb p (String.list_ascii_of_string s).

(** [matches!(byte, b'..' | ..)]. *)
Definition one_of (set : string) (a : ascii) : bool := existsb (Ascii.eqb a) (String.list_ascii_of_string set).

Definition alphanumeric (a : ascii) : bool := is_ascii_alphanumeric (N_of_ascii a).
Definition uppercase (a : ascii) : bool := is_ascii_upper (N_of_ascii a).
Definition lowercase (a : ascii) : bool := is_ascii_lower (N_of_ascii a).
Definition digit (a : ascii) : bool := is_ascii_digit (N_of_ascii a).

(** The control chars that matter to headers. *)
Definition cr : ascii := "013".
Definition lf : ascii := "010".
Definition nul : ascii := "000".
Definition is_line_break (a : ascii) : bool := Ascii.eqb a cr || Ascii.eqb a lf.

(** [char::is_control]. *)
Definition is_control_char (c : char) : bool := in_range 0 31 c || in_range 127 159 c.

(** The first chars of a text. *)
Definition take_chars (n : N) (s : string) : string := of_chars (take_n n (chars s)).

(** [str::split] at an ASCII char. *)
Fixpoint split_at (sep : ascii) (s : string) : list string :=
  match s with
  | EmptyString => [""%string]
  | String a s' =>
      if Ascii.eqb a sep then ""%string :: split_at sep s'
      else
        match split_at sep s' with
        | p :: ps => String a p :: ps
        | [] => [String a ""]
        end
  end.

(** [str::strip_prefix]. *)
Fixpoint strip_prefix (prefix s : string) : option string :=
  match prefix, s with
  | EmptyString, _ => Some s
  | String a prefix', String b s' => if Ascii.eqb a b then strip_prefix prefix' s' else None
  | String _ _, EmptyString => None
  end.

Definition starts_with (prefix s : string) : bool := String.prefix prefix s.

Fixpoint ends_with_byte (a : ascii) (s : string) : bool :=
  match s with
  | EmptyString => false
  | String b EmptyString => Ascii.eqb b a
  | String _ s' => ends_with_byte a s'
  end.

(** ** Occurrences of a text

    [str::matches] and [str::replace] go from left to right and do not overlap; a
    match found leaves [skip] further bytes to pass over. *)
Fixpoint is_prefix (pat l : list ascii) : bool :=
  match pat, l with
  | [], _ => true
  | a :: pat', b :: l' => Ascii.eqb a b && is_prefix pat' l'
  | _ :: _, [] => false
  end.

Fixpoint match_count (pat : list ascii) (skip : nat) (l : list ascii) : N :=
  match l with
  | [] => 0
  | _ :: l' =>
      match skip with
      | S skip' => match_count pat skip' l'
      | O => if is_prefix pat l then (match_count pat (length pat - 1) l' + 1)%N else match_count pat 0 l'
      end
  end.

Fixpoint replace_all (pat by_ : list ascii) (skip : nat) (l : list ascii) : list ascii :=
  match l with
  | [] => []
  | a :: l' =>
      match skip with
      | S skip' => replace_all pat by_ skip' l'
      | O => if is_prefix pat l then by_ ++ replace_all pat by_ (length pat - 1) l' else a :: replace_all pat by_ 0 l'
      end
  end.

Definition count_matches (pat s : string) : N :=
  match_count (String.list_ascii_of_string pat) 0 (String.list_ascii_of_string s).

Definition replace (pat by_ s : string) : string :=
  String.string_of_list_ascii
    (replace_all (String.list_ascii_of_string pat) (String.list_ascii_of_string by_) 0
       (String.list_ascii_of_string s)).
