(* ===== verification/Host.v ===== *)
(** * The host boundary ([tm-host/src/foundation]: error.rs, capability.rs,
    registry.rs, [parse_scheme] of resource.rs) and [catalog_from_registry]
    (runtime/sizing.rs)

    A host function is code behind the trait [HostFn].  What it does is a finite
    interaction, [HostPlan]: it asks for approvals, emits events and consults the
    world outside through the context it is given, and returns.  The registry
    decides whether a call reaches the function at all. *)

From stdpp Require Import base tactics list strings.
From Stdlib Require Import ZArith NArith Lia.
From S2P Require Import Prelude BTree Text Strings Value ValueFacts Catalog.

(** Case folding and [{:?}] escapes follow the Unicode tables of the standard
    library; the parser of URLs is the crate [url]. *)
Class StdText := {
  to_lowercase : string -> string;
  debug_strings : list string -> string;
  url_scheme : string -> option string;
}.

Class StdTextLaws `{StdText} := {
  to_lowercase_empty : to_lowercase "" = ""%string;
}.

(** ** Errors *)

Inductive HostError : Type :=
| CapabilityDenied (capability : string)
| ApprovalDenied (action : string)
| ApprovalTimeout (action : string)
| UnknownScheme (scheme : string) (registered : list string)
| NotFound (target : string)
| InvalidArgs (reason : string)
| InvalidPath (path : string)
| NotImplemented (feature : string)
| QuotaExceeded (quota : string)
| Timeout_ (operation : string)
| OutputTruncated (target : string)
| HostCall (reason : string).

(** [tm_host::Result]. *)
Definition HostResult (A : Type) : Type := A + HostError.

Definition sdk_name (e : HostError) : string :=
  match e with
  | CapabilityDenied _ | UnknownScheme _ _ => "CapabilityDeniedError"
  | ApprovalDenied _ => "ApprovalDeniedError"
  | ApprovalTimeout _ => "ApprovalTimeoutError"
  | NotFound _ => "NotFoundError"
  | InvalidArgs _ => "InvalidArgsError"
  | InvalidPath _ => "InvalidPathError"
  | NotImplemented _ => "NotImplementedError"
  | QuotaExceeded _ => "QuotaExceededError"
  | Timeout_ _ => "TimeoutError"
  | OutputTruncated _ => "OutputTruncatedError"
  | HostCall _ => "HostCallError"
  end.

Section Host.
Context `{StdText} `{JsonNumber}.

(** The derived [Display]. *)
Definition display_host_error (e : HostError) : string :=
  match e with
  | CapabilityDenied c => "capability denied: " ++ c
  | ApprovalDenied a => "approval denied: " ++ a
  | ApprovalTimeout a => "approval timed out: " ++ a
  | UnknownScheme s registered =>
      "unknown resource scheme: " ++ s ++ "; registered: " ++ debug_strings registered
  | NotFound t => "not found: " ++ t
  | InvalidArgs r => "invalid args: " ++ r
  | InvalidPath p => "invalid path: " ++ p
  | NotImplemented f => "not implemented: " ++ f
  | QuotaExceeded q => "quota exceeded: " ++ q
  | Timeout_ o => "timeout: " ++ o
  | OutputTruncated t => "output truncated: " ++ t
  | HostCall r => "host call error: " ++ r
  end.

(** [json!] objects. *)
Definition json_object (fields : list (string * Json)) : Json := JObject (bm_from fields).
Definition json_option (o : option string) : Json := from_option JString JNull o.
Definition json_usize (n : N) : Json := JNumber (number_from_i64 (Z.of_N n)).

Record HostErrorPayload := mkPayload {
  payload_name : string;
  payload_message : string;
  payload_capability : option string;
  payload_path : option string;
  payload_uri : option string;
  payload_retryable : bool;
  payload_details : Json;
}.

Definition to_payload (e : HostError) : HostErrorPayload :=
  let detail k v := json_object [(k, JString v)]%string in
  let make := mkPayload (sdk_name e) (display_host_error e) in
  match e with
  | CapabilityDenied c => make (Some c) None None false (detail "capability" c)
  | ApprovalDenied a => make None None None false (detail "action" a)
  | ApprovalTimeout a => make None None None true (detail "action" a)
  | UnknownScheme s registered =>
      make None None (Some (s ++ "://")) false
        (json_object [("scheme", JString s); ("registered", JArray (List.map JString registered))])
  | NotFound t => make None None None false (detail "target" t)
  | InvalidArgs r => make None None None false (detail "reason" r)
  | InvalidPath p => make None (Some p) None false (detail "path" p)
  | NotImplemented f => make None None None false (detail "feature" f)
  | QuotaExceeded q => make None None None true (detail "quota" q)
  | Timeout_ o => make None None None true (detail "operation" o)
  | OutputTruncated t => make None None None false (detail "target" t)
  | HostCall r => make None None None false (detail "reason" r)
  end%string.

(** [serde_json::to_value] of the payload. *)
Definition payload_to_json (p : HostErrorPayload) : Json :=
  json_object
    [("name", JString (payload_name p)); ("message", JString (payload_message p));
     ("capability", json_option (payload_capability p)); ("path", json_option (payload_path p));
     ("uri", json_option (payload_uri p)); ("retryable", JBool (payload_retryable p));
     ("details", payload_details p)]%string.

(** ** Documentation of tools *)

Record ToolExample := mkExample { ex_title : option string; ex_code : string; ex_notes : option string }.
Record ToolErrorDoc := mkErrorDoc { err_name : string; err_when : string; err_retryable : bool }.
Record GrantDoc := mkGrantDoc { grant_kind : string; grant_description : string }.

Record ToolDocs := mkDocs {
  doc_name : string;
  doc_namespace : string;
  doc_summary : string;
  doc_description : option string;
  doc_signature : string;
  doc_args_schema : Json;
  doc_result_schema : option Json;
  doc_examples : list ToolExample;
  doc_errors : list ToolErrorDoc;
  doc_grants : list GrantDoc;
  doc_sensitive : bool;
  doc_approval : string;
  doc_since : string;
  doc_stability : string;
}.

Definition docs_to_json (d : ToolDocs) : Json :=
  json_object
    [("name", JString (doc_name d)); ("namespace", JString (doc_namespace d));
     ("summary", JString (doc_summary d)); ("description", json_option (doc_description d));
     ("signature", JString (doc_signature d)); ("argsSchema", doc_args_schema d);
     ("resultSchema", default JNull (doc_result_schema d));
     ("examples", JArray (List.map (fun e => json_object
        [("title", json_option (ex_title e)); ("code", JString (ex_code e));
         ("notes", json_option (ex_notes e))]) (doc_examples d)));
     ("errors", JArray (List.map (fun e => json_object
        [("name", JString (err_name e)); ("when", JString (err_when e));
         ("retryable", JBool (err_retryable e))]) (doc_errors d)));
     ("grants", JArray (List.map (fun g => json_object
        [("kind", JString (grant_kind g)); ("description", JString (grant_description g))])
        (doc_grants d)));
     ("sensitive", JBool (doc_sensitive d)); ("approval", JString (doc_approval d));
     ("since", JString (doc_since d)); ("stability", JString (doc_stability d))]%string.

Record ToolSummary := mkSummary {
  tool_name : string;
  tool_namespace : string;
  tool_summary : string;
  tool_sensitive : bool;
  tool_granted : bool;
}.

(** ** Grants *)

Record CapabilityGrants := mkGrants { allowed : list string }.

Definition grants_default : CapabilityGrants := mkGrants [].
Definition grants_allow (name : string) (g : CapabilityGrants) : CapabilityGrants :=
  mkGrants (bs_insert name (allowed g)).
Definition allow_many (names : list string) (g : CapabilityGrants) : CapabilityGrants :=
  mkGrants (bs_extend (allowed g) names).
Definition host_permits (g : CapabilityGrants) (name : string) : bool :=
  existsb (fun granted =>
    match strip_suffix ".*" granted with
    | Some prefix => String.eqb name prefix || String.prefix (prefix ++ ".") name
    | None => String.eqb granted name
    end) (allowed g).

(** ** The context of a call

    The policy that answers approval requests and the event sink are the
    requests of a [HostPlan]. *)

Record MemoryAuthority := mkAuthority { auth_subject : string; auth_scope : string }.

Record InvocationCtx := mkCtx {
  ctx_grants : CapabilityGrants;
  approval_timeout : N;
  session_id : string;
  actor_id : option string;
  project_id : option string;
  memory_authority : option MemoryAuthority;
}.

Definition ctx_with_approvals (g : CapabilityGrants) (timeout : N) : InvocationCtx :=
  mkCtx g timeout "" None None None.
Definition ctx_new (g : CapabilityGrants) : InvocationCtx := ctx_with_approvals g 60.
Definition with_session_id (id : string) (c : InvocationCtx) : InvocationCtx :=
  mkCtx (ctx_grants c) (approval_timeout c) id (actor_id c) (project_id c) (memory_authority c).
Definition with_actor_id (id : option string) (c : InvocationCtx) : InvocationCtx :=
  mkCtx (ctx_grants c) (approval_timeout c) (session_id c) id (project_id c) (memory_authority c).
Definition with_project_id (id : string) (c : InvocationCtx) : InvocationCtx :=
  mkCtx (ctx_grants c) (approval_timeout c) (session_id c) (actor_id c) (Some id) (memory_authority c).
Definition with_memory_authority (subject scope : string) (c : InvocationCtx) : InvocationCtx :=
  mkCtx (ctx_grants c) (approval_timeout c) (session_id c) (actor_id c) (project_id c)
    (Some (mkAuthority subject scope)).

Definition require_linked_alias (alias : string) (c : InvocationCtx) : HostResult unit :=
  match project_id c with
  | None =>
      if is_empty (session_id c) || String.eqb (session_id c) "default" then inl tt
      else inr (CapabilityDenied "linked resources require a server-authoritative project")
  | Some project =>
      if String.eqb project alias then inl tt
      else inr (CapabilityDenied ("linked alias " ++ alias ++ " is outside authorized project " ++ project))
  end.

(** ** What a host function does *)

Inductive ApprovalDecision := Approved | Denied.

#[global] Instance approval_decision_eq_dec : EqDecision ApprovalDecision.
Proof. solve_decision. Defined.

Inductive HostPlan : Type :=
| HReturn (result : HostResult Json)
| HApproval (action : string) (timeout : N) (k : HostResult ApprovalDecision -> HostPlan)
| HEvent (event : string) (payload : Json) (k : HostResult unit -> HostPlan)
| HOutside (request : Json) (k : Json -> HostPlan).

(** [ctx.require_approval(action).await?] followed by the rest. *)
Definition require_approval (c : InvocationCtx) (action : string) (k : HostPlan) : HostPlan :=
  HApproval action (approval_timeout c) (fun decision =>
    match decision with
    | inl Approved => k
    | inl Denied => HReturn (inr (ApprovalDenied action))
    | inr e => HReturn (inr e)
    end).

(** [DefaultDenyApprovalPolicy]. *)
Definition default_deny (action : string) (timeout : N) : HostResult ApprovalDecision :=
  inr (ApprovalTimeout action).

Record HostFn := mkHostFn {
  fn_docs : ToolDocs;
  fn_call : Json -> InvocationCtx -> HostPlan;
}.

Definition fn_name (f : HostFn) : string := doc_name (fn_docs f).

(** ** The registry of functions *)

Record HostRegistry := mkRegistry { functions : list (string * HostFn) }.

Definition host_registry_new : HostRegistry := mkRegistry [].
Definition host_register (f : HostFn) (r : HostRegistry) : HostRegistry :=
  mkRegistry (bm_insert (fn_name f) f (functions r)).
Definition host_contains (name : string) (r : HostRegistry) : bool := bm_contains name (functions r).

Definition host_search (query : string) (namespace : option string) (limit : N) (c : InvocationCtx)
    (r : HostRegistry) : list ToolSummary :=
  let needle := to_lowercase query in
  let limit := N.max limit 1 in
  take_n limit
    (omap (fun f =>
       let docs := fn_docs f in
       if match namespace with
          | Some namespace => negb (String.eqb (doc_namespace docs) namespace)
          | None => false
          end then None
       else
         let haystack :=
           to_lowercase (doc_name docs ++ " " ++ doc_namespace docs ++ " " ++ doc_summary docs) in
         if is_empty needle || str_contains needle haystack
         then Some (mkSummary (doc_name docs) (doc_namespace docs) (doc_summary docs)
                      (doc_sensitive docs) (host_permits (ctx_grants c) (doc_name docs)))
         else None)
     (functions r).*2).

Definition host_docs (name : string) (r : HostRegistry) : HostResult ToolDocs :=
  match bm_get name (functions r) with
  | Some f => inl (fn_docs f)
  | None => inr (NotFound ("tool " ++ name))
  end.

Definition invoke (name : string) (args : Json) (c : InvocationCtx) (r : HostRegistry) : HostPlan :=
  if negb (host_permits (ctx_grants c) name) then HReturn (inr (CapabilityDenied name))
  else
    match bm_get name (functions r) with
    | Some f => fn_call f args c
    | None => HReturn (inr (CapabilityDenied name))
    end.

(** ** Resources *)

Record ResourceEntry := mkEntry {
  entry_uri : string;
  entry_name : string;
  entry_kind : string;
  entry_title : option string;
  entry_size_bytes : option N;
  entry_modified_at : option string;
}.

(** A handler: its scheme, the capability it needs and the plans of its reads
    (with a selector) and lists; the content and the entries are JSON here. *)
Record ResourceHandler := mkHandler {
  handler_scheme : string;
  handler_capability : string;
  handler_read : string -> option string -> InvocationCtx -> HostPlan;
  handler_preview : string -> InvocationCtx -> HostPlan;
  handler_list : string -> InvocationCtx -> HostPlan;
}.

Record ResourceRegistry := mkResources { handlers : list (string * ResourceHandler) }.

Definition resources_new : ResourceRegistry := mkResources [].
Definition resource_register (h : ResourceHandler) (r : ResourceRegistry) : ResourceRegistry :=
  mkResources (bm_insert (handler_scheme h) h (handlers r)).
Definition resource_schemes (r : ResourceRegistry) : list string := bm_keys (handlers r).
Definition capabilities (r : ResourceRegistry) : list (string * string) :=
  List.map (fun '(scheme, h) => (scheme, handler_capability h)) (handlers r).

Definition parse_scheme (uri : string) : HostResult string :=
  match url_scheme uri with
  | Some scheme => inl scheme
  | None =>
      match split_once_before "://" uri with
      | Some scheme => inl scheme
      | None => inr (InvalidArgs ("missing URI scheme in " ++ uri))
      end
  end.

Definition handler_for (uri : string) (c : InvocationCtx) (r : ResourceRegistry)
    : HostResult ResourceHandler :=
  match parse_scheme uri with
  | inr e => inr e
  | inl scheme =>
      match bm_get scheme (handlers r) with
      | None => inr (UnknownScheme scheme (resource_schemes r))
      | Some h =>
          if negb (host_permits (ctx_grants c) (handler_capability h))
          then inr (CapabilityDenied (handler_capability h))
          else inl h
      end
  end.

Definition resource_read (uri : string) (selector : option string) (c : InvocationCtx)
    (r : ResourceRegistry) : HostPlan :=
  match handler_for uri c r with
  | inr e => HReturn (inr e)
  | inl h => handler_read h uri selector c
  end.

Definition resource_preview (uri : string) (c : InvocationCtx) (r : ResourceRegistry) : HostPlan :=
  match handler_for uri c r with
  | inr e => HReturn (inr e)
  | inl h => handler_preview h uri c
  end.

(** Without a URI the schemes themselves are listed. *)
Definition resource_list (uri : option string) (c : InvocationCtx) (r : ResourceRegistry)
    : list ResourceEntry + HostPlan :=
  match (uri ← uri; if is_empty uri then None else Some uri) with
  | None =>
      inl (List.map (fun scheme => mkEntry (scheme ++ "://") scheme "scheme" None None None)
             (bm_keys (handlers r)))
  | Some uri =>
      inr (match handler_for uri c r with
           | inr e => HReturn (inr e)
           | inl h => handler_list h uri c
           end)
  end.

(** ** The catalog of the checker, from the registry *)

Definition catalog_step (c : InvocationCtx) (r : HostRegistry) (catalog : CapabilityCatalog)
    (tool : ToolSummary) : CapabilityCatalog :=
  if negb (tool_granted tool) then catalog
  else
    match host_docs (tool_name tool) r with
    | inl docs =>
        let signature :=
          mkSignature (tool_name tool) TyAny TyAny (bs_from (List.map err_name (doc_errors docs)))
            (doc_approval docs) (negb (String.eqb (doc_approval docs) "none")) (doc_sensitive docs) in
        allow (tool_name tool) (register signature catalog)
    | inr _ => catalog
    end.

Definition catalog_from_registry (r : HostRegistry) (c : InvocationCtx) (uris : list string)
    : CapabilityCatalog :=
  let catalog := foldl (fun catalog s => scheme s catalog) catalog_new uris in
  foldl (catalog_step c r) catalog (host_search "" None usize_max c r).
End Host.

(** ** Facts *)

Section Facts.
Context `{StdText} `{JsonNumber}.

(** Functions are registered under their own names. *)
Definition registry_wf (r : HostRegistry) : Prop :=
  bm_wf (functions r) /\ Forall (fun e => fn_name e.2 = e.1) (functions r).

Lemma Forall_bm_insert {V} (P : string * V -> Prop) k v m :
  P (k, v) -> Forall P m -> Forall P (bm_insert k v m).
Proof.
  intros Hk. induction 1 as [|[k' v'] m Hx Hm IH]; cbn; [by repeat constructor|].
  destruct (String.compare k k'); by repeat constructor.
Qed.

Lemma host_register_wf f r : registry_wf r -> registry_wf (host_register f r).
Proof. intros [Hw Hn]. split; [by apply bm_wf_insert|by apply Forall_bm_insert]. Qed.

Lemma registry_get_name r name f :
  registry_wf r -> bm_get name (functions r) = Some f -> fn_name f = name.
Proof. intros [_ Hn] Hg%bm_get_In. rewrite List.Forall_forall in Hn. apply (Hn _ Hg). Qed.

Lemma bm_get_wf {V} k (v : V) m : bm_wf m -> In (k, v) m -> bm_get k m = Some v.
Proof.
  induction m as [|[k' v'] m IH]; cbn; [done|]. rewrite bm_wf_cons. intros [Hm Hlt] [[= -> ->]|Hin].
  - by rewrite String.eqb_refl.
  - destruct (String.eqb_spec k k') as [->|]; [|by apply IH]. exfalso.
    rewrite List.Forall_forall in Hlt. apply (in_map fst) in Hin. by eapply str_lt_irrefl, Hlt.
Qed.

Lemma registry_get_self r f :
  registry_wf r -> In f (functions r).*2 -> bm_get (fn_name f) (functions r) = Some f.
Proof.
  intros [Hw Hn] ((k & f') & <- & Hin)%in_map_iff. rewrite List.Forall_forall in Hn.
  apply bm_get_wf; [done|]. by rewrite (Hn _ Hin).
Qed.

(** The test of the host agrees with the one the checker applies to a grant. *)
Lemma host_permits_one granted name :
  match strip_suffix ".*" granted with
  | Some prefix => String.eqb name prefix || String.prefix (prefix ++ ".") name
  | None => String.eqb granted name
  end = grant_permits granted name.
Proof.
  unfold grant_permits. destruct (strip_suffix ".*" granted) as [p|] eqn:E; [|by rewrite orb_false_r].
  destruct (String.eqb_spec granted name) as [->|]; [|done]. cbn.
  apply strip_suffix_spec in E as ->. apply orb_true_iff. right. apply prefix_spec.
  exists "*"%string. by rewrite string_app_assoc.
Qed.

Lemma host_permits_permits g effects_ schemes_ name :
  host_permits g name = permits (mkCatalog effects_ schemes_ (allowed g)) name.
Proof.
  unfold host_permits, permits. cbn. induction (allowed g) as [|x l IH]; cbn; [done|].
  by rewrite host_permits_one, IH.
Qed.

(** The grants and the effects of a catalog built from tools. *)
Definition catalog_inv (c : InvocationCtx) (r : HostRegistry) (seen : list string)
    (catalog : CapabilityCatalog) : Prop :=
  forall name,
    (is_Some (effect_ catalog name) <-> In name seen /\ host_permits (ctx_grants c) name = true)
    /\ (In name (grants catalog) <-> In name seen /\ host_permits (ctx_grants c) name = true).

Lemma catalog_step_inv c r seen catalog tool :
  tool_granted tool = host_permits (ctx_grants c) (tool_name tool) ->
  is_Some (bm_get (tool_name tool) (functions r)) ->
  catalog_inv c r seen catalog ->
  catalog_inv c r (seen ++ [tool_name tool]) (catalog_step c r catalog tool).
Proof.
  intros Hg [f Hf] HI name. destruct (HI name) as [HE HG]. unfold catalog_step, host_docs.
  rewrite Hf, Hg, in_app_iff. cbn [In]. destruct (host_permits _ (tool_name tool)) eqn:Hp; cbn [negb].
  - unfold effect_, register, allow. cbn [effects grants sig_name]. rewrite bm_get_insert, bs_insert_In, HG.
    split; [|naive_solver]. case_decide; [subst; split; [|by eexists]; naive_solver|].
    unfold effect_ in HE. rewrite HE. naive_solver.
  - rewrite HE, HG. split; (split; [tauto|]); (intros [[?|[<-|[]]] ?]; [done|congruence]).
Qed.

Lemma catalog_fold_inv c r tools : forall seen catalog,
  Forall (fun t => tool_granted t = host_permits (ctx_grants c) (tool_name t)
                   /\ is_Some (bm_get (tool_name t) (functions r))) tools ->
  catalog_inv c r seen catalog ->
  catalog_inv c r (seen ++ List.map tool_name tools) (foldl (catalog_step c r) catalog tools).
Proof.
  induction tools as [|t tools IH]; intros seen catalog HF HI; cbn; [by rewrite app_nil_r|].
  inversion HF as [|? ? [Hg Hf] HF']; subst.
  rewrite (cons_middle (tool_name t)), app_assoc. apply IH; [done|]. by apply catalog_step_inv.
Qed.

Lemma schemes_fold uris : forall catalog,
  effects (foldl (fun catalog s => scheme s catalog) catalog uris) = effects catalog
  /\ grants (foldl (fun catalog s => scheme s catalog) catalog uris) = grants catalog.
Proof. induction uris as [|u uris IH]; intros catalog; cbn; [done|]. by rewrite !(proj1 (IH _)), !(proj2 (IH _)). Qed.

(** Without a query the search lists every function. *)
Lemma search_all `{!StdTextLaws} c r :
  (len (functions r) <= usize_max)%N ->
  host_search "" None usize_max c r =
    List.map (fun f => mkSummary (fn_name f) (doc_namespace (fn_docs f)) (doc_summary (fn_docs f))
                (doc_sensitive (fn_docs f)) (host_permits (ctx_grants c) (fn_name f))) ((functions r).*2).
Proof.
  intros Hl. unfold host_search. rewrite to_lowercase_empty. cbn [is_empty String.eqb orb].
  assert (He : forall l : list HostFn, omap (fun f =>
      Some (mkSummary (doc_name (fn_docs f)) (doc_namespace (fn_docs f)) (doc_summary (fn_docs f))
        (doc_sensitive (fn_docs f)) (host_permits (ctx_grants c) (doc_name (fn_docs f))))) l
    = List.map (fun f => mkSummary (fn_name f) (doc_namespace (fn_docs f)) (doc_summary (fn_docs f))
                (doc_sensitive (fn_docs f)) (host_permits (ctx_grants c) (fn_name f))) l)
    by (induction l as [|f l IH]; [done|]; cbn; f_equal; apply IH).
  rewrite He. apply take_n_all. unfold len in *. rewrite length_map, length_fmap. lia.
Qed.
End Facts.

Lemma catalog_admits `{StdTextLaws} `{JsonNumber} r c uris name :
  registry_wf r -> (len (functions r) <= usize_max)%N ->
  let catalog := catalog_from_registry r c uris in
  is_Some (effect_ catalog name) /\ permits catalog name = true
  <-> is_Some (bm_get name (functions r)) /\ host_permits (ctx_grants c) name = true.
Proof.
  intros Hwf Hlen catalog. set (tools := host_search "" None usize_max c r).
  assert (Ht : forall f, In f (functions r).*2 -> bm_get (fn_name f) (functions r) = Some f)
    by (intros f; by apply registry_get_self).
  assert (HI : catalog_inv c r ([] ++ List.map tool_name tools) catalog).
  { unfold catalog, catalog_from_registry. apply catalog_fold_inv.
    - unfold tools. rewrite search_all by done. rewrite List.Forall_map, List.Forall_forall.
      intros f Hf. split; [done|]. cbn. rewrite (Ht f Hf). by eexists.
    - intros n. unfold effect_. rewrite (proj1 (schemes_fold uris _)), (proj2 (schemes_fold uris _)).
      cbn. split; (split; [|tauto]); [by intros [? ?]|done]. }
  assert (Hin : In name (List.map tool_name tools) <-> is_Some (bm_get name (functions r))).
  { unfold tools. rewrite search_all, List.map_map, in_map_iff by done. split.
    - intros (f & <- & Hf). cbn. rewrite (Ht f Hf). by eexists.
    - intros [f Hf]. exists f. split; [by eapply registry_get_name|].
      apply bm_get_In in Hf. by apply (in_map snd) in Hf. }
  destruct (HI name) as [HE HG]. cbn [app] in HE, HG. rewrite HE, Hin. split; [tauto|].
  intros Had. split; [done|]. apply permits_covers. exists name. rewrite HG, Hin. split; [done|by left].
Qed.

(** the checker and the host enforce the same authority.  For a registry of
    functions under their own names, the catalog built from it knows and permits
    a capability exactly when the host would let a call of it through: the
    function is registered and the grants of the context permit its name; any
    other call is answered with [CapabilityDenied] at once. *)
Lemma catalog_matches_host `{StdTextLaws} `{JsonNumber} r c uris name :
  registry_wf r -> (len (functions r) <= usize_max)%N ->
  let catalog := catalog_from_registry r c uris in
  let admitted := is_Some (bm_get name (functions r)) /\ host_permits (ctx_grants c) name = true in
  (is_Some (effect_ catalog name) /\ permits catalog name = true <-> admitted)
  /\ (~ admitted -> forall args, invoke name args c r = HReturn (inr (CapabilityDenied name))).
Proof.
  intros Hwf Hlen catalog admitted. split; [by apply catalog_admits|].
  intros Hno args. unfold invoke, admitted in *. destruct (host_permits _ name); [|done]. cbn.
  destruct (bm_get name (functions r)); [|done]. by destruct Hno.
Qed.

Section Witness.
#[local] Instance plain_text : StdText :=
  {| to_lowercase := id; debug_strings := fun _ => ""%string; url_scheme := fun _ => None |}.

#[local] Instance plain_text_laws : StdTextLaws.
Proof. by split. Qed.

Definition sample_fn (name : string) : @HostFn sample_numbers :=
  mkHostFn (mkDocs name "fs" "" None "" JNull None [] [] [] false "none" "" "")
    (fun args _ => HReturn (inl args)).

Definition sample_registry : @HostRegistry sample_numbers :=
  host_register (sample_fn "fs.read") (host_register (sample_fn "fs.write") host_registry_new).

Lemma catalog_matches_host_witness :
  let c := ctx_new (grants_allow "fs.read" grants_default) in
  registry_wf sample_registry /\ (len (functions sample_registry) <= usize_max)%N /\
  let catalog := catalog_from_registry sample_registry c [] in
  (is_Some (effect_ catalog "fs.read") /\ permits catalog "fs.read" = true)
  /\ invoke "fs.write" JNull c sample_registry = HReturn (inr (CapabilityDenied "fs.write")).
Proof.
  intros c. assert (Hw : registry_wf sample_registry)
    by (do 2 apply host_register_wf; repeat constructor).
  split; [exact Hw|]. split; [vm_compute; discriminate|]. intros catalog. split.
  - apply (catalog_matches_host sample_registry c [] "fs.read" Hw); [vm_compute; discriminate|].
    split; [by eexists|reflexivity].
  - apply (catalog_matches_host sample_registry c [] "fs.write" Hw); [vm_compute; discriminate|].
    intros [_ Hp]. discriminate Hp.
Defined.
End Witness.
