(* ===== verification/Render.v ===== *)
(** * Rendering under byte budgets ([runtime/render.rs], [bounded] of
    [runtime/host.rs])

    [serde_json]'s compact serializer is the parameter [JsonText].  It hands its
    output to the writer in pieces; the writers below keep a prefix of what they
    are given and fail at the first piece that does not fit, so what they keep
    does not depend on where the pieces end, and a serialized value is written as
    one piece here. *)

From stdpp Require Import base tactics list strings.
From Stdlib Require Import ZArith NArith Lia SpecFloat.
From S2P Require Import Prelude BTree Text Strings Numbers Syntax Value Operators Host.

Class JsonText `{JsonNumber} := { json_text : Json -> string }.

(** [serde_json::from_str]. *)
Class TextJson `{JsonNumber} := json_of_text : string -> option Json.

(** The texts of the parts, with a separator between them. *)
Fixpoint join (separator : string) (parts : list string) : string :=
  match parts with
  | [] => ""
  | [p] => p
  | p :: parts' => p ++ separator ++ join separator parts'
  end.

(** The compact format: what [serde_json] documents of it. *)
Class JsonTextLaws `{JsonText} := {
  text_null : json_text JNull = "null"%string;
  text_bool b : json_text (JBool b) = if b then "true"%string else "false"%string;
  text_int z : (i64_min <= z <= i64_max)%Z -> json_text (JNumber (number_from_i64 z)) = display_int z;
  text_function : json_text (JString function_text) = (of_chars [34] ++ function_text ++ of_chars [34])%string%N;
  text_tag : json_text (JString "tag") = (of_chars [34] ++ "tag" ++ of_chars [34])%string%N;
  text_value : json_text (JString "value") = (of_chars [34] ++ "value" ++ of_chars [34])%string%N;
  text_array js : json_text (JArray js) = ("[" ++ join "," (List.map json_text js) ++ "]")%string;
  text_object fs :
    json_text (JObject fs) =
      ("{" ++ join "," (List.map (fun f => json_text (JString f.1) ++ ":" ++ json_text f.2) fs) ++ "}")%string;
  text_utf8 j : valid_prefix (json_text j) = json_text j;
}.

(** ** Display under a bound *)

Record BoundedDisplay := mkBounded { bd_text : string; bd_max_bytes : N }.

(** [write_str]: whether it succeeded, and the writer. *)
Definition write_str (value : string) (w : BoundedDisplay) : bool * BoundedDisplay :=
  let remaining := saturating_sub (bd_max_bytes w) (str_len (bd_text w)) in
  if (str_len value <=? remaining)%N then (true, mkBounded (bd_text w ++ value) (bd_max_bytes w))
  else
    let end_ := floor_char_boundary value (N.min remaining (str_len value)) in
    (false, mkBounded (bd_text w ++ str_take end_ value) (bd_max_bytes w)).

Definition bounded_display (text : string) (max_bytes : N) : string :=
  bd_text (write_str text (mkBounded "" max_bytes)).2.

Definition bounded (value : string) (bytes : N) : string :=
  if (str_len value <=? bytes)%N then value
  else
    let marker := if (3 <=? bytes)%N then "..."%string else ""%string in
    let end_ := floor_char_boundary value (N.min (saturating_sub bytes (str_len marker)) (str_len value)) in
    (str_take end_ value ++ marker)%string.

Definition display_diagnostic (d : Diagnostic) : string :=
  code d ++ " at " ++ display_u64 (line d) ++ ":" ++ display_u64 (column d) ++ ": " ++ message d.

Section Render.
Context `{JsonText}.

(** The derived [Display] of a runtime error. *)
Definition display_runtime_error (e : RuntimeError) : string :=
  match e with
  | REDiagnostic d => display_diagnostic d
  | REEffect name message _ => name ++ ": " ++ message
  | REType message => "TypeError: " ++ message
  | RELimit message => "ResourceLimitError: " ++ message
  | REPersistence message => "RuntimePersistenceError: " ++ message
  | RECancelled => "CancellationError: cell cancelled"
  end.

(** ** A writer with a budget

    [retaining] is whether the byte buffer has any capacity. *)

Record BudgetWriter := mkWriter {
  bytes : string;
  written : N;
  limit : N;
  exceeded : bool;
  retaining : bool;
}.

Definition writer_new (limit : N) (retain : bool) : BudgetWriter :=
  mkWriter "" 0 limit false (retain && (0 <? limit)%N).

Definition writer_finish (w : BudgetWriter) : N * string * bool :=
  (written w, valid_prefix (bytes w), exceeded w).

(** An operation on the writer: whether it succeeded. *)
Definition Writing := BudgetWriter -> bool * BudgetWriter.

Definition write_all (piece : string) : Writing := fun w =>
  if is_empty piece then (true, w)
  else
    let remaining := saturating_sub (limit w) (written w) in
    let bytes' :=
      if negb (is_empty (bytes w)) || retaining w
      then (bytes w ++ str_take (N.min (str_len piece) remaining) piece)%string else bytes w in
    let written' := saturating_add (written w) (str_len piece) in
    if (remaining <? str_len piece)%N
    then (false, mkWriter bytes' written' (limit w) true (retaining w))
    else (true, mkWriter bytes' written' (limit w) (exceeded w) (retaining w)).

(** [first?; second]. *)
Definition then_write (first second : Writing) : Writing := fun w =>
  let '(ok, w) := first w in if ok then second w else (false, w).

Definition write_nothing : Writing := fun w => (true, w).
Definition write_failure : Writing := fun w => (false, w).

Definition json_encoded_len_bounded (value : Json) (limit : N) : option N :=
  let '(ok, w) := write_all (json_text value) (writer_new limit false) in
  let '(written, _, exceeded) := writer_finish w in
  if ok && negb exceeded then Some written else None.

Definition json_string_encoded_len_bounded (value : string) (limit : N) : option N :=
  json_encoded_len_bounded (JString value) limit.

Definition json_preview_bounded (value : Json) (limit : N) : string :=
  let '(ok, w) := write_all (json_text value) (writer_new limit true) in
  let '(_, rendered, exceeded) := writer_finish w in
  if negb ok || exceeded then
    if (3 <=? limit)%N then
      let end_ := floor_char_boundary rendered (N.min (saturating_sub limit 3) (str_len rendered)) in
      (str_take end_ rendered ++ "...")%string
    else
      str_take (floor_char_boundary rendered (N.min limit (str_len rendered))) rendered
  else rendered.

(** ** Values *)

Section Write.
Variable max_depth : N.

(** [for (index, item) in ..]: a comma before every item but the first. *)
Definition write_items {X} (write : X -> Writing) : list X -> Writing :=
  (fix go (first : bool) items : Writing :=
     match items with
     | [] => write_nothing
     | x :: items' =>
         then_write (if first then write_nothing else write_all ",")
           (then_write (write x) (go false items'))
     end) true.

Definition quoted (s : string) : string := (of_chars [34] ++ s ++ of_chars [34])%string%N.

Fixpoint write_value_json (v : Value) (depth : N) : Writing :=
  if (max_depth <=? depth)%N then write_failure
  else
    match v with
    | VNull => write_all "null"
    | VBool b => write_all (if b then "true" else "false")
    | VInt z => write_all (display_int z)
    | VDecimal f =>
        match number_from_f64 f with
        | Some n => write_all (json_text (JNumber n))
        | None => write_all "null"
        end
    | VString s | VUri s => write_all (json_text (JString s))
    | VList vs =>
        then_write (write_all "[")
          (then_write (write_items (fun v => write_value_json v (depth + 1)) vs) (write_all "]"))
    | VRecord fields =>
        then_write (write_all "{")
          (then_write
             (write_items (fun f =>
                then_write (write_all (json_text (JString (fst f))))
                  (then_write (write_all ":") (write_value_json (snd f) (depth + 1)))) fields)
             (write_all "}"))
    | VTagged name payload =>
        then_write (write_all ("{" ++ quoted "tag" ++ ":"))
          (then_write (write_all (json_text (JString name)))
             (then_write
                match payload with
                | Some p =>
                    then_write (write_all ("," ++ quoted "value" ++ ":")) (write_value_json p (depth + 1))
                | None => write_nothing
                end
                (write_all "}")))
    | VCallable _ _ => write_all (quoted function_text)
    end.
End Write.

Definition value_json_bounded (value : Value) (limit : N) (retain : bool) (max_depth : N)
    : option (N * string) :=
  let '(ok, w) := write_value_json max_depth value 0 (writer_new limit retain) in
  let '(written, rendered, exceeded) := writer_finish w in
  if ok && negb exceeded then Some (written, rendered) else None.

Definition render_value_bounded (value : Value) (limit max_depth : N) : RuntimeResult string :=
  match value with
  | VString s | VUri s =>
      if (str_len s <=? limit)%N then Ok s else Err (RELimit "intermediate value budget exceeded")
  | _ =>
      match value_json_bounded value limit true max_depth with
      | Some (_, rendered) => Ok rendered
      | None => Err (RELimit "intermediate value budget exceeded")
      end
  end.
End Render.

(** ** The order of sort keys *)

Definition bool_compare (a b : bool) : comparison :=
  match a, b with
  | false, true => Lt
  | true, false => Gt
  | _, _ => Eq
  end.

(** [left.cmp(right).then_with(|| ..)]. *)
Definition then_with (c d : comparison) : comparison :=
  match c with Eq => d | _ => c end.

(** [left.partial_cmp(right).unwrap_or(Equal)]. *)
Definition f64_compare (a b : f64) : comparison := default Eq (SFcompare a b).

(** Zip, compare, and take the first difference; otherwise compare the lengths. *)
Definition compare_lists {X} (cmp : X -> X -> comparison) : list X -> list X -> comparison :=
  fix go xs ys :=
    match xs, ys with
    | x :: xs', y :: ys' => then_with (cmp x y) (go xs' ys')
    | [], [] => Eq
    | [], _ => Lt
    | _, [] => Gt
    end.

Definition rank (v : Value) : N :=
  match v with
  | VNull => 0
  | VBool _ => 1
  | VInt _ | VDecimal _ => 2
  | VString _ => 3
  | VUri _ => 4
  | VList _ => 5
  | VRecord _ => 6
  | VTagged _ _ => 7
  | VCallable _ _ => 8
  end.

(** [compare_values]; [compare_sort_keys] compares what is nested. *)
Definition compare_values_with (compare_sort_keys : Value -> Value -> comparison)
    (left right : Value) : comparison :=
  match left, right with
  | VNull, VNull => Eq
  | VBool l, VBool r => bool_compare l r
  | VString l, VString r | VUri l, VUri r => String.compare l r
  | VList l, VList r => compare_lists compare_sort_keys l r
  | VRecord l, VRecord r =>
      compare_lists (fun f g => then_with (String.compare (fst f) (fst g)) (compare_sort_keys (snd f) (snd g))) l r
  | VTagged ln lp, VTagged rn rp =>
      then_with (String.compare ln rn)
        match lp, rp with
        | Some l, Some r => compare_sort_keys l r
        | Some _, None => Gt
        | None, Some _ => Lt
        | None, None => Eq
        end
  | _, _ => N.compare (rank left) (rank right)
  end.

Fixpoint compare_sort_keys (left right : Value) : comparison :=
  match left, right with
  | VInt l, VInt r => Z.compare l r
  | VInt l, VDecimal r => f64_compare (f64_of_i64 l) r
  | VDecimal l, VInt r => f64_compare l (f64_of_i64 r)
  | VDecimal l, VDecimal r => f64_compare l r
  | VInt _, _ | VDecimal _, _ => Lt
  | _, VInt _ | _, VDecimal _ => Gt
  | _, _ => compare_values_with compare_sort_keys left right
  end.

Definition compare_values : Value -> Value -> comparison := compare_values_with compare_sort_keys.
