(* ===== verification/RenderFacts.v ===== *)
(** * Rendering: the budgeted writer renders the JSON image or refuses

    A value is written node by node, with a byte budget and a nesting budget and
    without building its JSON image.  What comes out is the compact text of the
    image, exactly when the text and the nesting fit. *)

From stdpp Require Import base tactics list strings pretty.
From Stdlib Require Import ZArith NArith Lia SpecFloat Ascii.
From S2P Require Import Prelude BTree Text Strings Numbers Syntax Value ValueFacts Operators Limits Host Render.

Section Writes.
Context `{JsonText}.

(** A writer in use: within its budget, and empty unless it retains. *)
Definition clean (w : BudgetWriter) : Prop :=
  exceeded w = false /\ (written w <= limit w)%N /\ (limit w <= usize_max)%N
  /\ (retaining w = false -> bytes w = ""%string).

Definition grow (text : string) (w : BudgetWriter) : BudgetWriter :=
  mkWriter (if retaining w then bytes w ++ text else bytes w)%string (written w + str_len text)
    (limit w) false (retaining w).

(** [m] writes the text, or fails because it does not fit; [None]: it fails. *)
Definition Writes (m : Writing) (text : option string) : Prop :=
  forall w, clean w ->
    match text with
    | Some t => if (written w + str_len t <=? limit w)%N then m w = (true, grow t w) else (m w).1 = false
    | None => (m w).1 = false
    end.

Definition opt_app (a b : option string) : option string :=
  a' ← a; b' ← b; Some (a' ++ b')%string.

Lemma grow_clean t w : clean w -> (written w + str_len t <= limit w)%N -> clean (grow t w).
Proof. intros (? & ? & ? & Hb) Hl. split_and!; cbn; try done. intros Hr. rewrite Hr. by apply Hb. Qed.

Lemma str_take_all s n : (str_len s <= n)%N -> str_take n s = s.
Proof.
  unfold str_len, str_take. intros Hn. assert (Hn' : String.length s <= N.to_nat n) by lia. revert Hn'.
  generalize (N.to_nat n) as k. clear. induction s as [|a s IH]; intros [|k]; cbn; try (done || lia).
  intros Hk. f_equal. apply IH. lia.
Qed.

Lemma Writes_all p : Writes (write_all p) (Some p).
Proof.
  intros w (He & Hw & Hl & Hb). unfold write_all, is_empty. destruct (String.eqb_spec p "") as [->|Hp].
  - cbn. destruct w as [b n l e r]; cbn in *. rewrite (proj2 (N.leb_le _ _)) by (unfold str_len; cbn; lia).
    unfold grow. cbn. f_equal. rewrite He. f_equal; [|unfold str_len; cbn; lia].
    destruct r; [by rewrite string_app_nil_r|done].
  - assert (Hret : negb (String.eqb (bytes w) "") || retaining w = retaining w).
    { destruct (retaining w); [apply orb_true_r|]. by rewrite Hb. }
    rewrite Hret. unfold saturating_sub, saturating_add.
    destruct (N.leb_spec (written w + str_len p) (limit w)) as [Hfit|Hno].
    + rewrite (proj2 (N.ltb_ge _ _)) by lia. unfold grow. rewrite He. do 2 f_equal; [|lia].
      by rewrite N.min_l, str_take_all by lia.
    + by rewrite (proj2 (N.ltb_lt _ _)) by lia.
Qed.

Lemma grow_grow a b w : grow b (grow a w) = grow (a ++ b) w.
Proof.
  unfold grow. cbn. rewrite str_len_app. f_equal; [|lia].
  destruct (retaining w); [by rewrite Catalog.string_app_assoc|done].
Qed.

Lemma Writes_then m1 m2 t1 t2 :
  Writes m1 t1 -> Writes m2 t2 -> Writes (then_write m1 m2) (opt_app t1 t2).
Proof.
  intros H1 H2 w Hc. specialize (H1 w Hc). unfold then_write. destruct t1 as [a|]; cbn.
  - destruct (N.leb_spec (written w + str_len a) (limit w)) as [Hfit|Hno].
    + rewrite H1. specialize (H2 (grow a w) (grow_clean _ _ Hc Hfit)). destruct t2 as [b|]; cbn; [|done].
      cbn in H2. rewrite str_len_app, N.add_assoc. destruct (_ <=? _)%N; [by rewrite H2, grow_grow|done].
    + destruct (m1 w) as [ok w1]. cbn in H1. subst ok. destruct t2 as [b|]; cbn; [|done].
      rewrite str_len_app, (proj2 (N.leb_gt _ _)) by lia. done.
  - destruct (m1 w) as [ok w1]. cbn in H1. by subst ok.
Qed.

Lemma Writes_nothing : Writes write_nothing (Some ""%string).
Proof. apply (Writes_all ""). Qed.

Lemma Writes_failure : Writes write_failure None.
Proof. by intros w _. Qed.

(** The items of a list, with their separators. *)
Fixpoint opt_join (parts : list (option string)) : option string :=
  match parts with
  | [] => Some ""%string
  | [p] => p
  | p :: parts' => opt_app p (opt_app (Some ","%string) (opt_join parts'))
  end.

Lemma opt_app_nil_r t : opt_app t (Some ""%string) = t.
Proof. destruct t as [t|]; cbn; [by rewrite string_app_nil_r|done]. Qed.

Lemma opt_app_nil_l t : opt_app (Some ""%string) t = t.
Proof. by destruct t. Qed.

Lemma opt_app_assoc a b c : opt_app a (opt_app b c) = opt_app (opt_app a b) c.
Proof. destruct a, b, c; cbn; try done. by rewrite Catalog.string_app_assoc. Qed.

Lemma Writes_items {X} (write : X -> Writing) (text : X -> option string) xs :
  Forall (fun x => Writes (write x) (text x)) xs ->
  Writes (write_items write xs) (opt_join (List.map text xs)).
Proof.
  unfold write_items. destruct xs as [|x xs]; [intros _; apply Writes_nothing|].
  rewrite <- (opt_app_nil_l (opt_join _)).
  assert (Hgen : forall xs x m t, Writes m t -> Writes (write x) (text x) ->
    Forall (fun x => Writes (write x) (text x)) xs ->
    Writes (then_write m (then_write (write x)
      ((fix go (first : bool) items : Writing :=
         match items with
         | [] => write_nothing
         | x :: items' =>
             then_write (if first then write_nothing else write_all ",")
               (then_write (write x) (go false items'))
         end) false xs))) (opt_app t (opt_join (List.map text (x :: xs))))).
  { clear. induction xs as [|y ys IH]; intros x m t Hm Hx HF; apply Writes_then; try done.
    - cbn [List.map opt_join]. rewrite <- (opt_app_nil_r (text x)).
      apply Writes_then; [done|apply Writes_nothing].
    - cbn [List.map opt_join]. inversion HF; subst. apply Writes_then; [done|].
      apply IH; [apply Writes_all|done..]. }
  inversion 1; subst. apply (Hgen xs x); [apply Writes_nothing|done..].
Qed.
End Writes.

(** ** The nesting of a value *)

Fixpoint value_height (v : Value) : N :=
  match v with
  | VList vs => 1 + max_list (List.map value_height vs)
  | VRecord fields => 1 + max_list (List.map (fun f => value_height (snd f)) fields)
  | VTagged _ (Some p) => 1 + value_height p
  | _ => 1
  end.

Section Exact.
Context `{JsonTextLaws}.
Variable max_depth : N.

(** The text of a value whose nesting fits. *)
Definition fits (height depth : N) (text : string) : option string :=
  if (depth + height <=? max_depth)%N then Some text else None.

Lemma opt_join_fits {X} (height : X -> N) (text : X -> string) depth xs :
  (depth <= max_depth)%N ->
  opt_join (List.map (fun x => fits (height x) depth (text x)) xs)
  = fits (max_list (List.map height xs)) depth (join "," (List.map text xs)).
Proof.
  intros Hd. induction xs as [|x [|y ys] IH].
  - unfold fits. cbn. by rewrite (proj2 (N.leb_le _ _)) by lia.
  - unfold fits. cbn. by rewrite N.max_0_r.
  - change (opt_join _) with (opt_app (fits (height x) depth (text x))
      (opt_app (Some ","%string) (opt_join (List.map (fun x => fits (height x) depth (text x)) (y :: ys))))).
    rewrite IH. set (rest := y :: ys). change (max_list (List.map height (x :: rest)))
      with (N.max (height x) (max_list (List.map height rest))).
    change (join "," (List.map text (x :: rest))) with (text x ++ "," ++ join "," (List.map text rest))%string.
    generalize (max_list (List.map height rest)) as h, (join "," (List.map text rest)) as t. intros h t.
    unfold fits. destruct (N.leb_spec (depth + height x) max_depth);
      destruct (N.leb_spec (depth + h) max_depth);
      destruct (N.leb_spec (depth + N.max (height x) h) max_depth); try done; lia.
Qed.

(** A bracketed body that is one deeper. *)
Lemma fits_wrap a body b height depth :
  (depth < max_depth)%N ->
  opt_app (Some a) (opt_app (fits height (depth + 1) body) (Some b)) = fits (1 + height) depth (a ++ body ++ b).
Proof.
  intros Hd. unfold fits. replace (depth + 1 + height)%N with (depth + (1 + height))%N by lia.
  by destruct (_ <=? _)%N.
Qed.

Lemma fits_leaf depth text : (depth < max_depth)%N -> fits 1 depth text = Some text.
Proof. intros Hd. unfold fits. by rewrite (proj2 (N.leb_le _ _)) by lia. Qed.

Lemma fits_deep height depth text : (max_depth <= depth)%N -> (1 <= height)%N -> fits height depth text = None.
Proof. intros Hd Hh. unfold fits. by rewrite (proj2 (N.leb_gt _ _)) by lia. Qed.

Lemma value_height_pos v : (1 <= value_height v)%N.
Proof. destruct v as [| | | | | | | |? [|]|]; cbn; lia. Qed.

(** Below its guard, [write_value_json] writes [body]. *)
Lemma Writes_guard v depth (m : Writing) text :
  ((depth < max_depth)%N -> Writes m (fits (value_height v) depth text)) ->
  Writes (if (max_depth <=? depth)%N then write_failure else m) (fits (value_height v) depth text).
Proof.
  intros Hm. destruct (N.leb_spec max_depth depth) as [Hd|Hd]; [|by apply Hm].
  rewrite fits_deep by (apply value_height_pos || done). apply Writes_failure.
Qed.

Lemma Writes_leaf v depth text :
  value_height v = 1%N -> (depth < max_depth)%N ->
  Writes (write_all text) (fits (value_height v) depth text).
Proof. intros -> Hd. rewrite fits_leaf by done. apply Writes_all. Qed.

Lemma write_value_json_writes v : value_wf v -> forall depth,
  Writes (write_value_json max_depth v depth) (fits (value_height v) depth (json_text (to_json v))).
Proof.
  induction v as [|b|z|f|s|s|vs IH|fs IH|n|n v IH|rc c] using value_induction; intros Hwf depth;
    cbn [write_value_json]; apply Writes_guard; intros Hd; cbn [to_json].
  - rewrite text_null. by apply Writes_leaf.
  - rewrite text_bool. by apply Writes_leaf.
  - rewrite text_int by done. by apply Writes_leaf.
  - destruct (number_from_f64 f); [|rewrite text_null]; by apply Writes_leaf.
  - by apply Writes_leaf.
  - by apply Writes_leaf.
  - rewrite text_array, List.map_map. cbn [value_height]. rewrite <- fits_wrap by done.
    apply Writes_then; [apply Writes_all|]. apply Writes_then; [|apply Writes_all].
    rewrite <- opt_join_fits by lia. apply Writes_items. cbn in Hwf. apply all_of_Forall in Hwf.
    eapply Forall_impl; [apply Forall_and; split; [exact IH|exact Hwf]|]. intros v [Hv Hvw]. by apply Hv.
  - destruct Hwf as [Hb Hwf]. rewrite bm_from_wf by by apply bm_wf_map.
    rewrite text_object, List.map_map. cbn [value_height fst snd]. rewrite <- fits_wrap by done.
    apply Writes_then; [apply Writes_all|]. apply Writes_then; [|apply Writes_all].
    rewrite <- opt_join_fits by lia. apply Writes_items. apply all_of_Forall in Hwf.
    eapply Forall_impl; [apply Forall_and; split; [exact IH|exact Hwf]|]. intros [k v] [Hv Hvw]. cbn in *.
    assert (E : fits (value_height v) (depth + 1) (json_text (JString k) ++ ":" ++ json_text (to_json v))
      = opt_app (Some (json_text (JString k)))
          (opt_app (Some ":"%string) (fits (value_height v) (depth + 1) (json_text (to_json v)))))
      by (unfold fits; by destruct (_ <=? _)%N).
    rewrite E. repeat apply Writes_then; try apply Writes_all. by apply Hv.
  - change (bm_insert "tag" (JString n) []) with [("tag"%string, JString n)].
    rewrite text_object. cbn [List.map join fst snd]. rewrite text_tag. cbn [value_height].
    rewrite fits_leaf by done.
    assert (E : Some ("{" ++ (quoted "tag" ++ ":" ++ json_text (JString n)) ++ "}")%string
      = opt_app (Some ("{" ++ quoted "tag" ++ ":")%string)
          (opt_app (Some (json_text (JString n))) (opt_app (Some ""%string) (Some "}"%string)))).
    { cbn. by rewrite !Catalog.string_app_assoc. }
    change (of_chars [34] ++ "tag" ++ of_chars [34])%string%N with (quoted "tag"). rewrite E.
    repeat apply Writes_then; (apply Writes_all || apply Writes_nothing).
  - change (bm_insert "value" _ _) with [("tag"%string, JString n); ("value"%string, to_json v)].
    rewrite text_object. cbn [List.map join fst snd]. rewrite text_tag, text_value. cbn [value_height].
    change (of_chars [34] ++ "tag" ++ of_chars [34])%string%N with (quoted "tag").
    change (of_chars [34] ++ "value" ++ of_chars [34])%string%N with (quoted "value").
    assert (E : fits (1 + value_height v) depth ("{" ++ ((quoted "tag" ++ ":" ++ json_text (JString n)) ++ ","
        ++ quoted "value" ++ ":" ++ json_text (to_json v)) ++ "}")%string
      = opt_app (Some ("{" ++ quoted "tag" ++ ":")%string)
          (opt_app (Some (json_text (JString n)))
            (opt_app (opt_app (Some ("," ++ quoted "value" ++ ":")%string)
                        (fits (value_height v) (depth + 1) (json_text (to_json v)))) (Some "}"%string)))).
    { unfold fits. replace (depth + 1 + value_height v)%N with (depth + (1 + value_height v))%N by lia.
      destruct (_ <=? _)%N; cbn; [by rewrite !Catalog.string_app_assoc|done]. }
    rewrite E. repeat apply Writes_then; try apply Writes_all. by apply IH.
  - rewrite text_function. by apply Writes_leaf.
Qed.
End Exact.

Lemma json_encoded_len_bounded_spec `{JsonText} j n :
  (n <= usize_max)%N ->
  json_encoded_len_bounded j n = if (str_len (json_text j) <=? n)%N then Some (str_len (json_text j)) else None.
Proof.
  intros Hn. unfold json_encoded_len_bounded.
  assert (Hc : clean (writer_new n false)) by (split_and!; cbn; (done || lia)).
  pose proof (Writes_all (json_text j) _ Hc) as Hw. cbn in Hw. rewrite N.add_0_l in Hw. destruct (_ <=? n)%N.
  - rewrite Hw. done.
  - destruct (write_all _ _) as [ok w]. cbn in Hw. by subst ok.
Qed.

(** rendering is exact.  Written node by node under a byte budget and a
    nesting budget, a value gives the compact text of its JSON image and that
    text's length, exactly when the text fits the byte budget and the nesting of
    the value fits the nesting budget; otherwise nothing. *)
Lemma value_json_bounded_exact `{JsonTextLaws} v n retain max_depth :
  value_wf v -> (n <= usize_max)%N ->
  let text := json_text (to_json v) in
  value_json_bounded v n retain max_depth =
    if (value_height v <=? max_depth)%N && (str_len text <=? n)%N
    then Some (str_len text, if retain && (0 <? n)%N then text else ""%string) else None.
Proof.
  intros Hwf Hn text. unfold value_json_bounded.
  assert (Hc : clean (writer_new n retain)) by (split_and!; cbn; (done || lia)).
  pose proof (write_value_json_writes max_depth v Hwf 0 _ Hc) as Hw.
  unfold fits in Hw. rewrite N.add_0_l in Hw. destruct (value_height v <=? max_depth)%N; cbn in Hw |- *.
  - rewrite N.add_0_l in Hw. fold text in Hw. destruct (str_len text <=? n)%N.
    + rewrite Hw. cbn. destruct (retain && _); cbn; [|done]. f_equal. f_equal. apply text_utf8.
    + destruct (write_value_json _ _ _ _) as [ok w]. cbn in Hw. by subst ok.
  - destruct (write_value_json _ _ _ _) as [ok w]. cbn in Hw. by subst ok.
Qed.

(** ** The order of sort keys *)

(** How a comparison of [x] with [y] and of [y] with [z] determines that of [x]
    with [z]. *)
Definition composes (xy yz xz : comparison) : Prop :=
  match xy, yz with
  | Eq, o | o, Eq => xz = o
  | Lt, Lt => xz = Lt
  | Gt, Gt => xz = Gt
  | _, _ => True
  end.

Lemma composes_then a b c d e f :
  composes a b c -> composes d e f -> composes (then_with a d) (then_with b e) (then_with c f).
Proof. destruct a, b, c, d, e, f; cbn; done. Qed.

Lemma composes_Z x y z : composes (Z.compare x y) (Z.compare y z) (Z.compare x z).
Proof. destruct (Z.compare_spec x y), (Z.compare_spec y z), (Z.compare_spec x z); cbn; (done || lia). Qed.

Lemma composes_N x y z : composes (N.compare x y) (N.compare y z) (N.compare x z).
Proof. destruct (N.compare_spec x y), (N.compare_spec y z), (N.compare_spec x z); cbn; (done || lia). Qed.

Lemma composes_string x y z : composes (String.compare x y) (String.compare y z) (String.compare x z).
Proof.
  destruct (String.compare x y) eqn:E1; cbn.
  - apply String.compare_eq_iff in E1 as ->. by destruct (String.compare y z).
  - destruct (String.compare y z) eqn:E2; cbn; [by apply String.compare_eq_iff in E2 as <-| |done].
    by eapply str_lt_trans.
  - destruct (String.compare y z) eqn:E2; cbn; [by apply String.compare_eq_iff in E2 as <-|done|].
    apply str_compare_gt in E1, E2. rewrite String.compare_antisym. by rewrite (str_lt_trans _ _ _ E2 E1).
Qed.

Lemma composes_lists {X} (cmp : X -> X -> comparison) (P : X -> Prop) xs :
  Forall (fun x => forall y z, P y -> P z -> composes (cmp x y) (cmp y z) (cmp x z)) xs ->
  forall ys zs, Forall P ys -> Forall P zs ->
  composes (compare_lists cmp xs ys) (compare_lists cmp ys zs) (compare_lists cmp xs zs).
Proof.
  induction 1 as [|x xs Hx _ IH]; intros [|y ys] [|z zs] Hy Hz; try done.
  - cbn. by destruct (then_with _ _).
  - cbn. by destruct (then_with _ _).
  - inversion Hy; subst. inversion Hz; subst. cbn. apply composes_then; [by apply Hx|by apply IH].
Qed.

Lemma opp_lists {X} (cmp : X -> X -> comparison) xs :
  Forall (fun x => forall y, cmp y x = CompOpp (cmp x y)) xs ->
  forall ys, compare_lists cmp ys xs = CompOpp (compare_lists cmp xs ys).
Proof.
  induction 1 as [|x xs Hx _ IH]; intros [|y ys]; try done. cbn. rewrite Hx, IH. by destruct (cmp x y).
Qed.

(** Values without decimals, functions being leaves. *)
Fixpoint decimal_free (v : Value) : Prop :=
  match v with
  | VDecimal _ => False
  | VList vs => all_of decimal_free vs
  | VRecord fs => all_of (fun f => decimal_free (snd f)) fs
  | VTagged _ (Some p) => decimal_free p
  | _ => True
  end.

Lemma f64_compare_opp a b : f64_compare b a = CompOpp (f64_compare a b).
Proof.
  unfold f64_compare, SFcompare. destruct a as [[]|[]| |[] ma ea], b as [[]|[]| |[] mb eb]; try done; cbn.
  all: rewrite (Z.compare_antisym ea eb); destruct (ea ?= eb)%Z; cbn; try done.
  all: change (Pos.compare_cont Eq mb ma) with (mb ?= ma)%positive;
    change (Pos.compare_cont Eq ma mb) with (ma ?= mb)%positive.
  all: rewrite (Pos.compare_antisym ma mb); by destruct (ma ?= mb)%positive.
Qed.

Lemma compare_sort_keys_opp l : forall r, compare_sort_keys r l = CompOpp (compare_sort_keys l r).
Proof.
  induction l as [|b|z|f|s|s|vs IH|fs IH|n|n v IH|rc c] using value_induction; intros r;
    destruct r as [|b'|z'|f'|s'|s'|vs'|fs'|n' [v'|]|rc' c']; cbn; try done.
  - by destruct b, b'.
  - apply Z.compare_antisym.
  - apply f64_compare_opp.
  - apply f64_compare_opp.
  - apply f64_compare_opp.
  - apply String.compare_antisym.
  - apply String.compare_antisym.
  - by apply opp_lists.
  - apply opp_lists. eapply Forall_impl; [exact IH|]. intros [k v] Hv [k' v']. cbn in *.
    rewrite Hv, (String.compare_antisym k' k). by destruct (String.compare k k').
  - rewrite (String.compare_antisym n' n). by destruct (String.compare n n').
  - rewrite (String.compare_antisym n' n). by destruct (String.compare n n').
  - rewrite (String.compare_antisym n' n), IH. by destruct (String.compare n n').
  - rewrite (String.compare_antisym n' n). by destruct (String.compare n n').
Qed.

(** Values of different kinds compare by this rank. *)
Definition key_rank (v : Value) : N :=
  match v with VInt _ | VDecimal _ => 0 | _ => 1 + rank v end.

Lemma compare_kinds l r :
  key_rank l <> key_rank r -> compare_sort_keys l r = N.compare (key_rank l) (key_rank r).
Proof. destruct l, r; cbn; try done; intros []; done. Qed.


Lemma composes_refl_kind x y z :
  decimal_free x -> decimal_free y -> decimal_free z ->
  (key_rank x = key_rank y -> key_rank y = key_rank z ->
     composes (compare_sort_keys x y) (compare_sort_keys y z) (compare_sort_keys x z)) ->
  composes (compare_sort_keys x y) (compare_sort_keys y z) (compare_sort_keys x z).
Proof.
  intros Hx Hy Hz Hsame.
  destruct (decide (key_rank x = key_rank y)) as [Exy|Nxy], (decide (key_rank y = key_rank z)) as [Eyz|Nyz];
    [by apply Hsame| | |].
  - rewrite (compare_kinds y z), (compare_kinds x z), Exy by congruence.
    destruct (compare_sort_keys x y); destruct (N.compare_spec (key_rank y) (key_rank z)); cbn; (done || congruence).
  - rewrite (compare_kinds x y), (compare_kinds x z), <- Eyz by congruence.
    destruct (compare_sort_keys y z); destruct (N.compare_spec (key_rank x) (key_rank y)); cbn; (done || congruence).
  - rewrite (compare_kinds x y), (compare_kinds y z) by done.
    destruct (decide (key_rank x = key_rank z)) as [Exz|Nxz]; [|rewrite compare_kinds by done; apply composes_N].
    rewrite Exz, (N.compare_antisym (key_rank y) (key_rank z)).
    destruct (N.compare_spec (key_rank y) (key_rank z)); cbn; (done || congruence).
Qed.

Lemma compare_sort_keys_composes x : decimal_free x -> forall y z, decimal_free y -> decimal_free z ->
  composes (compare_sort_keys x y) (compare_sort_keys y z) (compare_sort_keys x z).
Proof.
  induction x as [|b|i|f|s|s|vs IH|fs IH|n|n v IH|rc c] using value_induction; intros Hx y z Hy Hz;
    apply composes_refl_kind; try done; intros Exy Eyz.
  all: destruct y as [|b'|i'|f'|s'|s'|vs'|fs'|n' [v'|]|rc' c'] eqn:Ey; try discriminate Exy; try done;
    destruct z as [|b''|i''|f''|s''|s''|vs''|fs''|n'' [v''|]|rc'' c''] eqn:Ez; try discriminate Eyz; try done; cbn.
  all: try (apply composes_then; [apply composes_string|];
    first [done | by apply IH | by repeat destruct (compare_sort_keys _ _)]).
  - by destruct b, b', b''.
  - apply composes_Z.
  - apply composes_string.
  - apply composes_string.
  - apply (composes_lists _ decimal_free); [|by apply all_of_Forall..].
    apply all_of_Forall in Hx. eapply Forall_impl; [apply Forall_and; split; [exact IH|exact Hx]|].
    intros v [Hv Hd]. by apply Hv.
  - apply (composes_lists _ (fun f => decimal_free (snd f))); [|by apply all_of_Forall..].
    apply all_of_Forall in Hx. eapply Forall_impl; [apply Forall_and; split; [exact IH|exact Hx]|].
    intros f [Hv Hd] g h Hg Hh. apply composes_then; [apply composes_string|by apply Hv].
Qed.

(** The order of sort keys.  Comparing in the other direction gives the
    opposite answer for all values, and on values without decimals the comparison
    is a total preorder: equal keys are interchangeable and the order is
    transitive. *)
Lemma sort_keys_order x y z :
  compare_sort_keys y x = CompOpp (compare_sort_keys x y)
  /\ (decimal_free x -> decimal_free y -> decimal_free z ->
      composes (compare_sort_keys x y) (compare_sort_keys y z) (compare_sort_keys x z)).
Proof. split; [apply compare_sort_keys_opp|]. intros. by apply compare_sort_keys_composes. Qed.

(** mixed keys have no consistent order.  With decimals among the keys the
    comparison is not transitive: two integers that differ both equal the same
    decimal.  [sort_by] is called with this comparison although the standard
    library asks for a total order (and may panic without one). *)
Lemma sort_keys_not_transitive :
  exists x y z, compare_sort_keys x y = Eq /\ compare_sort_keys y z = Eq /\ compare_sort_keys x z = Gt
    /\ (exists a b f, x = VInt a /\ y = VDecimal f /\ z = VInt b /\ f64_is_finite f = true).
Proof.
  exists (VInt (2 ^ 53 + 1)), (VDecimal (f64_of_i64 (2 ^ 53))), (VInt (2 ^ 53)).
  split_and!; [vm_compute; reflexivity..|]. by repeat eexists.
Qed.

(** ** A concrete serializer, and a witness *)

Definition is_ascii (s : string) : Prop :=
  Forall (fun a => (N_of_ascii a < 0x80)%N) (String.list_ascii_of_string s).

Lemma is_ascii_app a b : is_ascii a -> is_ascii b -> is_ascii (a ++ b).
Proof.
  unfold is_ascii. intros Ha Hb. enough (E : String.list_ascii_of_string (a ++ b)
    = String.list_ascii_of_string a ++ String.list_ascii_of_string b) by (rewrite E; by apply Forall_app).
  clear. induction a as [|x a IH]; [done|]. rewrite Catalog.string_app_cons. cbn. by rewrite IH.
Qed.

Lemma is_ascii_join parts : Forall is_ascii parts -> is_ascii (join "," parts).
Proof.
  induction 1 as [|p [|q parts] Hp _ IH]; [constructor|done|].
  change (join "," _) with (p ++ "," ++ join "," (q :: parts))%string.
  repeat apply is_ascii_app; [done|repeat constructor|done].
Qed.

Lemma valid_ascii s : is_ascii s -> valid_prefix s = s.
Proof.
  unfold valid_prefix, is_ascii. intros Ha.
  assert (Hv : valid_up_to (String.list_ascii_of_string s) = String.length s).
  { induction s as [|a s IH]; [done|]. cbn in Ha. inversion Ha as [|? ? Hx Hs]; subst. cbn [String.list_ascii_of_string valid_up_to].
    rewrite (proj2 (N.ltb_lt _ _) Hx). cbn [String.length]. f_equal. by apply IH. }
  rewrite Hv. apply Catalog.substring_all.
Qed.

Lemma pretty_go_ascii n : forall s, is_ascii s -> is_ascii (pretty_N_go n s).
Proof.
  induction (N.lt_wf_0 n) as [n _ IH]. intros s Hs. destruct (decide (n = 0%N)) as [->|Hn]; [done|].
  rewrite pretty_N_go_step by lia. apply IH; [apply N.div_lt; lia|]. constructor; [|done].
  unfold pretty_N_char. by repeat case_match.
Qed.

Lemma display_u64_ascii n : is_ascii (display_u64 n).
Proof.
  unfold display_u64, pretty, pretty_N. destruct (decide (n = 0%N)); [repeat constructor|].
  apply pretty_go_ascii. constructor.
Qed.

Lemma display_int_ascii z : is_ascii (display_int z).
Proof.
  destruct z as [|p|p]; [repeat constructor|apply (display_u64_ascii (Npos p))|].
  apply (is_ascii_app "-"); [repeat constructor|apply (display_u64_ascii (Npos p))].
Qed.

(** ASCII text only; other bytes are left out. *)
Fixpoint keep_ascii (s : string) : string :=
  match s with
  | EmptyString => EmptyString
  | String a s' => if (N_of_ascii a <? 0x80)%N then String a (keep_ascii s') else keep_ascii s'
  end.

Fixpoint sample_json_text (j : @Json sample_numbers) : string :=
  match j with
  | JNull => "null"
  | JBool b => if b then "true" else "false"
  | JNumber (inl z) => display_int z
  | JNumber (inr _) => "0.0"
  | JString s => quoted (keep_ascii s)
  | JArray js => "[" ++ join "," (List.map sample_json_text js) ++ "]"
  | JObject fs =>
      "{" ++ join "," (List.map (fun f => quoted (keep_ascii (fst f)) ++ ":" ++ sample_json_text (snd f)) fs) ++ "}"
  end%string.

Definition sample_text : @JsonText sample_numbers := {| json_text := sample_json_text |}.

Lemma keep_ascii_ascii s : is_ascii (keep_ascii s).
Proof.
  induction s as [|a s IH]; cbn; [constructor|]. destruct (N.ltb_spec (N_of_ascii a) 0x80); [by constructor|done].
Qed.

Lemma quoted_ascii s : is_ascii s -> is_ascii (quoted s).
Proof. intros Hs. repeat apply is_ascii_app; first [done | repeat constructor]. Qed.

Fixpoint sample_json_text_ascii (j : @Json sample_numbers) : is_ascii (sample_json_text j).
Proof.
  destruct j as [|[]|[z|f]|s|js|fs]; cbn [sample_json_text]; [repeat constructor..|apply display_int_ascii| | | |].
  - repeat constructor.
  - apply quoted_ascii, keep_ascii_ascii.
  - repeat apply is_ascii_app; [repeat constructor| |repeat constructor]. apply is_ascii_join.
    induction js as [|j js IH]; constructor; [apply sample_json_text_ascii|apply IH].
  - repeat apply is_ascii_app; [repeat constructor| |repeat constructor]. apply is_ascii_join.
    induction fs as [|[k j] fs IH]; constructor; [|apply IH].
    apply is_ascii_app; [apply quoted_ascii, keep_ascii_ascii|].
    apply (is_ascii_app ":"); [repeat constructor|apply sample_json_text_ascii].
Qed.

Lemma sample_text_laws : @JsonTextLaws sample_numbers sample_text.
Proof. split; try done. intros j. apply valid_ascii, sample_json_text_ascii. Qed.

Lemma value_json_bounded_exact_witness :
  let v := VList [VInt (-7); VRecord [("k"%string, VNull)]] in
  value_wf v /\ (64 <= usize_max)%N /\
  @value_json_bounded sample_numbers sample_text v 64 true 128
    = (let text := @json_text _ sample_text (@to_json sample_numbers v) in Some (str_len text, text))
  /\ @value_json_bounded sample_numbers sample_text v 64 true 2 = None.
Proof.
  intros v. assert (Hw : value_wf v) by (cbn; repeat split; first [done | lia | repeat constructor]).
  assert (Hu : (64 <= usize_max)%N) by (vm_compute; discriminate).
  split; [exact Hw|]. split; [exact Hu|]. split.
  - exact (@value_json_bounded_exact sample_numbers sample_text sample_text_laws v 64 true 128 Hw Hu).
  - exact (@value_json_bounded_exact sample_numbers sample_text sample_text_laws v 64 true 2 Hw Hu).
Defined.
