(* ===== verification/Sizing.v ===== *)
(** * Retained sizes ([runtime/sizing.rs], [MAP_SLOT_OVERHEAD] of
    [runtime/operators.rs])

    A method of [RetainedSizer] walks a structure and answers whether the walk
    stayed within the byte limit and the nesting limit; it adds bytes, enters a
    nesting level and leaves it, or visits an allocation at most once, and stops at
    the first refusal.  A [Cost] is such a walk, [run_cost] executes it on the
    fields of the struct.  What the compiler and the allocator decide, the sizes of
    types and the capacities of strings and vectors, is the parameter [Layout]. *)

From stdpp Require Import base tactics list strings.
From Stdlib Require Import ZArith NArith Lia SpecFloat.
From S2P Require Import Prelude BTree Text Strings Numbers Syntax Value ValueFacts Operators Render RenderFacts.

Class Layout := {
  size_of_usize : N;
  size_of_String : N;
  size_of_Value : N;
  size_of_Environment : N;
  size_of_Callable : N;
  size_of_Pattern : N;
  size_of_field_Pattern : N;
  size_of_TypeTerm : N;
  size_of_field_TypeTerm : N;
  size_of_VariantDecl : N;
  size_of_Expr : N;
  size_of_field_Expr : N;
  size_of_MatchArm : N;
  size_of_Form : N;
  size_of_JsonValue : N;
  string_capacity : string -> N;
  vec_capacity : N -> N;
}.

(** ** Walks *)

Inductive Cost : Type :=
| Free
| Refuse
| Add (bytes : N)
| Both (first second : Cost)
| Nest (inner : Cost)
| Once (pointer : N) (inner : Cost).

(** [iter().all(..)]. *)
Definition each {X} (cost : X -> Cost) : list X -> Cost :=
  fix go xs :=
    match xs with
    | [] => Free
    | x :: xs' => Both (cost x) (go xs')
    end.

(** [is_none_or(..)]. *)
Definition if_some {X} (cost : X -> Cost) (o : option X) : Cost :=
  match o with
  | Some x => cost x
  | None => Free
  end.

Record RetainedSizer := mkSizer {
  size : N;
  sizer_depth : N;
  callables : list N;
}.

Definition sizer_new : RetainedSizer := mkSizer 0 0 [].

Section Run.
Variable limit max_depth : N.

Definition sizer_add (bytes : N) (s : RetainedSizer) : bool * RetainedSizer :=
  let size := saturating_add (size s) bytes in
  ((size <=? limit)%N, mkSizer size (sizer_depth s) (callables s)).

Definition enter_depth (s : RetainedSizer) : bool * RetainedSizer :=
  if (max_depth <=? sizer_depth s)%N then (false, s)
  else (true, mkSizer (size s) (sizer_depth s + 1) (callables s)).

Definition leave_depth (s : RetainedSizer) : RetainedSizer :=
  mkSizer (size s) (saturating_sub (sizer_depth s) 1) (callables s).

Fixpoint run_cost (c : Cost) (s : RetainedSizer) : bool * RetainedSizer :=
  match c with
  | Free => (true, s)
  | Refuse => (false, s)
  | Add bytes => sizer_add bytes s
  | Both first second =>
      let '(ok, s) := run_cost first s in
      if ok then run_cost second s else (false, s)
  | Nest inner =>
      let '(ok, s) := enter_depth s in
      if ok then let '(within, s) := run_cost inner s in (within, leave_depth s) else (false, s)
  | Once pointer inner =>
      if existsb (N.eqb pointer) (callables s) then (true, s)
      else run_cost inner (mkSizer (size s) (sizer_depth s) (pointer :: callables s))
  end.

(** The size, or one more than the limit. *)
Definition measure_cost (c : Cost) : N :=
  let '(ok, s) := run_cost c sizer_new in
  if ok then size s else saturating_add limit 1.
End Run.

(** ** The walks of the sizer *)

Section Walks.
Context `{Layout}.

Definition MAP_SLOT_OVERHEAD : N := size_of_String + 3 * size_of_usize.

(** [self.add(vec.capacity().saturating_mul(size_of::<T>()))]. *)
Definition add_vec {X} (xs : list X) (item : N) : Cost := Add (saturating_mul (vec_capacity (len xs)) item).
Definition add_string (s : string) : Cost := Add (string_capacity s).

Fixpoint pattern_kind_heap (k : PatternKind) : Cost :=
  Nest match k with
  | PWildcard | PInt _ | PBool _ | PNull => Free
  | PBind value | PString value => add_string value
  | PConstructor name payload =>
      Both (add_string name) (if_some (fun p => Both (Add size_of_Pattern) (pattern_kind_heap (node p))) payload)
  | PList values => Both (add_vec values size_of_Pattern) (each (fun p => pattern_kind_heap (node p)) values)
  | PCons head tail =>
      Both (Add (saturating_mul 2 size_of_Pattern))
        (Both (pattern_kind_heap (node head)) (pattern_kind_heap (node tail)))
  | PRecord fields _ =>
      Both (add_vec fields size_of_field_Pattern)
        (each (fun f => Both (add_string (fst f)) (pattern_kind_heap (node (snd f)))) fields)
  end.

Definition pattern_heap (p : Pattern) : Cost := pattern_kind_heap (node p).

Fixpoint type_term_heap (t : TypeTerm) : Cost :=
  Nest match t with
  | TTNamed name => add_string name
  | TTList value | TTOption value => Both (Add size_of_TypeTerm) (type_term_heap value)
  | TTRecord fields =>
      Both (add_vec fields size_of_field_TypeTerm)
        (each (fun f => Both (add_string (fst f)) (type_term_heap (snd f))) fields)
  end.

Definition type_decl_heap (d : TypeDecl) : Cost :=
  Nest (Both (add_string (type_name d))
    (Both (add_vec (variants d) size_of_VariantDecl)
      (each (fun v => Both (add_string (variant_name v)) (if_some type_term_heap (payload v))) (variants d)))).

(** [expr_heap], [form_heap] and [match_arm_heap]; [boxed_expr_heap] is the
    local [boxed]. *)
Fixpoint expr_kind_heap (k : ExprKind) : Cost :=
  let boxed e := Both (Add size_of_Expr) (expr_kind_heap (node e)) in
  Nest match k with
  | EString value | EUri value | EName value | EConstructor value | ECapability value => add_string value
  | EInt _ | EDecimal _ | EBool _ | ENull => Free
  | EList values => Both (add_vec values size_of_Expr) (each (fun e => expr_kind_heap (node e)) values)
  | ERecord fields =>
      Both (add_vec fields size_of_field_Expr)
        (each (fun f => Both (add_string (fst f)) (expr_kind_heap (node (snd f)))) fields)
  | ELambda params body =>
      Both (add_vec params size_of_Pattern) (Both (each pattern_heap params) (boxed body))
  | EApply function argument => Both (boxed function) (boxed argument)
  | EField target field => Both (boxed target) (add_string field)
  | EUnary _ value => boxed value
  | EBinary _ l r | EPipe l r => Both (boxed l) (boxed r)
  | EIf condition then_value else_value =>
      Both (boxed condition) (Both (boxed then_value) (boxed else_value))
  | EMatch value arms | EHandle value arms =>
      Both (boxed value) (Both (add_vec arms size_of_MatchArm) (each match_arm_heap arms))
  | EBlock forms => Both (add_vec forms size_of_Form) (each (fun f => form_kind_heap (node f)) forms)
  end
with form_kind_heap (k : FormKind) : Cost :=
  Nest match k with
  | FType decl => type_decl_heap decl
  | FLet pattern value => Both (pattern_heap pattern) (expr_kind_heap (node value))
  | FFun name params body =>
      Both (add_string name)
        (Both (add_vec params size_of_Pattern)
          (Both (each pattern_heap params) (expr_kind_heap (node body))))
  | FExpr expr => expr_kind_heap (node expr)
  end
with match_arm_heap (a : MatchArm) : Cost :=
  match a with mkArm pattern value => Both (pattern_heap pattern) (expr_kind_heap (node value)) end.

Definition expr_heap (e : Expr) : Cost := expr_kind_heap (node e).

(** [entry], with the walk of the value. *)
Definition entry_cost (name : string) (value : Cost) : Cost :=
  Both (Add (saturating_add MAP_SLOT_OVERHEAD (str_len name))) value.

(** [environment]. *)
Definition environment_cost (entries : Cost) : Cost := Nest (Both (Add size_of_Environment) entries).

Fixpoint value_cost (v : Value) : Cost :=
  Nest (Both (Add size_of_Value)
    match v with
    | VNull | VBool _ | VInt _ | VDecimal _ => Free
    | VString s | VUri s => add_string s
    | VList values =>
        Both (Add (saturating_mul (saturating_sub (vec_capacity (len values)) (len values)) size_of_Value))
          (each value_cost values)
    | VRecord fields =>
        Both (Add size_of_Environment) (each (fun f => entry_cost (fst f) (value_cost (snd f))) fields)
    | VTagged name payload =>
        Both (add_string name) (if_some (fun p => Both (Add size_of_Value) (value_cost p)) payload)
    | VCallable rc c => Nest (Once rc (callable_cost c))
    end)
with callable_cost (c : Callable) : Cost :=
  Both (Add (saturating_add size_of_Callable (2 * size_of_usize)))
    match c with
    | CBuiltin name args _ => Both (add_string name) (each value_cost args)
    | CBuiltinDataLast name args data _ =>
        Both (add_string name) (Both (each value_cost args) (value_cost data))
    | CUser params body captured args =>
        Both (add_vec params size_of_Pattern)
          (Both (each pattern_heap params)
            (Both (expr_heap body)
              (Both (environment_cost (each (fun f => entry_cost (fst f) (value_cost (snd f))) captured))
                (each value_cost args))))
    | CRow body captured =>
        Both (expr_heap body)
          (environment_cost (each (fun f => entry_cost (fst f) (value_cost (snd f))) captured))
    | CCapability name | CConstructor name => add_string name
    end.

Definition sizer_entry (f : string * Value) : Cost := entry_cost (fst f) (value_cost (snd f)).

Definition value_size_bounded (v : Value) (limit max_depth : N) : N :=
  measure_cost limit max_depth (value_cost v).

Definition environment_size_bounded (env : Environment) (limit max_depth : N) : N :=
  measure_cost limit max_depth (environment_cost (each sizer_entry env)).

Definition merged_environment_size_bounded (base overlay : Environment) (committed : list string)
    (limit max_depth : N) : N :=
  measure_cost limit max_depth
    (Both (Add size_of_Environment)
      (Both (each sizer_entry (List.filter (fun f => negb (bs_contains (fst f) committed)) base))
        (each (fun name =>
           match bm_get name overlay with
           | Some value => sizer_entry (name, value)
           | None => Refuse
           end) committed))).

(** The local [value_heap] of [environment_clone_size_bounded]. *)
Fixpoint value_heap (v : Value) : Cost :=
  Nest match v with
  | VNull | VBool _ | VInt _ | VDecimal _ => Free
  | VString s | VUri s => Add (str_len s)
  | VList values => Both (Add (saturating_mul (len values) size_of_Value)) (each value_heap values)
  | VRecord fields =>
      each (fun f => Both (Add (saturating_add MAP_SLOT_OVERHEAD (str_len (fst f)))) (value_heap (snd f))) fields
  | VTagged name payload =>
      Both (Add (str_len name)) (if_some (fun p => Both (Add size_of_Value) (value_heap p)) payload)
  | VCallable _ _ => Free
  end.

Definition environment_clone_size_bounded (env : Environment) (limit max_depth : N) : N :=
  measure_cost limit max_depth
    (each (fun f => Both (Add (saturating_add MAP_SLOT_OVERHEAD (str_len (fst f)))) (value_heap (snd f))) env).

Section Json.
Context `{JsonNumber}.

(** The local [walk] of [json_value_size_bounded]. *)
Fixpoint json_walk (j : Json) : Cost :=
  Nest (Both (Add size_of_JsonValue)
    match j with
    | JNull | JBool _ | JNumber _ => Free
    | JString s => add_string s
    | JArray values => each json_walk values
    | JObject fields =>
        each (fun f => Both (Add (saturating_add MAP_SLOT_OVERHEAD (str_len (fst f)))) (json_walk (snd f))) fields
    end).

Definition json_value_size_bounded (j : Json) (limit max_depth : N) : N :=
  measure_cost limit max_depth (json_walk j).
End Json.
End Walks.

(** ** Group keys *)

(** [f64::to_bits]. *)
Definition f64_to_bits (f : f64) : N :=
  match f with
  | S754_zero s => if s then 2 ^ 63 else 0
  | S754_infinity s => (if s then 2 ^ 63 else 0) + 0x7FF0000000000000
  | S754_nan => 0x7FF8000000000000
  | S754_finite s m e =>
      (if s then 2 ^ 63 else 0)
      + (if (Npos m <? 2 ^ 52)%N then Npos m
         else Z.to_N (e + 1075) * 2 ^ 52 + (Npos m - 2 ^ 52))
  end%N.

Definition hex_digit (n : N) : string :=
  String.substring (N.to_nat n) 1 "0123456789abcdef".

(** The last [digits] hexadecimal digits: [{:016x}] for 16 of them. *)
Fixpoint hex_digits (digits : nat) (n : N) : string :=
  match digits with
  | O => ""
  | S d => hex_digits d (n / 16) ++ hex_digit (n mod 16)
  end%string.

Section GroupKey.
Context `{JsonText}.
Variable max_depth : N.

(** A step of [append]: it writes or fails with an error. *)
Definition Appending := BudgetWriter -> RuntimeResult unit * BudgetWriter.

Definition key_error : RuntimeError := RELimit "group key value budget exceeded".

Definition write_key (piece : string) : Appending := fun w =>
  let '(ok, w) := write_all piece w in (if ok then Ok tt else Err key_error, w).

(** [first?; second]. *)
Definition then_append (first second : Appending) : Appending := fun w =>
  let '(r, w) := first w in match r with Ok _ => second w | _ => (r, w) end.

Definition append_each {X} (append : X -> Appending) : list X -> Appending :=
  fix go xs :=
    match xs with
    | [] => fun w => (Ok tt, w)
    | x :: xs' => then_append (append x) (go xs')
    end.

Fixpoint append_key (v : Value) (depth : N) : Appending :=
  if (max_depth <=? depth)%N then fun w => (Err (RELimit "group key nesting budget exceeded"), w)
  else
    match v with
    | VNull => write_key "n"
    | VBool b => write_key (if b then "b1" else "b0")
    | VInt z => write_key ("i" ++ display_int z)
    | VDecimal f => write_key ("d" ++ hex_digits 16 (f64_to_bits f))
    | VString s => then_append (write_key "s") (write_key (json_text (JString s)))
    | VUri s => then_append (write_key "u") (write_key (json_text (JString s)))
    | VList values =>
        then_append (write_key "l[")
          (then_append
             (append_each (fun v => then_append (append_key v (depth + 1)) (write_key ";")) values)
             (write_key "]"))
    | VRecord fields =>
        then_append (write_key "r{")
          (then_append
             (append_each (fun f =>
                then_append (write_key (json_text (JString (fst f))))
                  (then_append (write_key ":")
                    (then_append (append_key (snd f) (depth + 1)) (write_key ";")))) fields)
             (write_key "}"))
    | VTagged name payload =>
        then_append (write_key "t")
          (then_append (write_key (json_text (JString name)))
             match payload with
             | Some p => then_append (write_key ":") (append_key p (depth + 1))
             | None => fun w => (Ok tt, w)
             end)
    | VCallable _ _ => fun w => (Err (REType "group_by key cannot be a function"), w)
    end.

Definition group_key (v : Value) (limit : N) : RuntimeResult string :=
  let '(r, w) := append_key v 0 (writer_new limit true) in
  r ≫= fun _ =>
  let '(_, key, exceeded) := writer_finish w in
  if exceeded then Err key_error else Ok key.
End GroupKey.

(** ** The size of a structure, without limits

    The bytes of a walk, how deep it nests and the allocations seen after it;
    [None] when it refuses. *)

Fixpoint weigh (c : Cost) (seen : list N) : option (N * N * list N) :=
  match c with
  | Free => Some (0, 0, seen)
  | Refuse => None
  | Add bytes => Some (bytes, 0, seen)
  | Both first second =>
      '(w1, d1, seen) ← weigh first seen;
      '(w2, d2, seen) ← weigh second seen;
      Some (w1 + w2, N.max d1 d2, seen)
  | Nest inner => '(w, d, seen) ← weigh inner seen; Some (w, d + 1, seen)
  | Once pointer inner =>
      if existsb (N.eqb pointer) seen then Some (0, 0, seen) else weigh inner (pointer :: seen)
  end%N.

Lemma run_cost_exact limit max_depth c : (limit < usize_max)%N -> forall s,
  (size s <= limit)%N -> (sizer_depth s <= max_depth)%N ->
  match weigh c (callables s) with
  | Some (w, d, seen) =>
      if (size s + w <=? limit)%N && (sizer_depth s + d <=? max_depth)%N
      then run_cost limit max_depth c s = (true, mkSizer (size s + w) (sizer_depth s) seen)
      else (run_cost limit max_depth c s).1 = false
  | None => (run_cost limit max_depth c s).1 = false
  end.
Proof.
  intros Hl. induction c as [| |bytes|a IHa b IHb|c IH|p c IH]; intros s Hs Hd; cbn [weigh run_cost].
  - destruct s; cbn in *. rewrite !(proj2 (N.leb_le _ _)) by lia. cbn. by rewrite N.add_0_r.
  - done.
  - unfold sizer_add, saturating_add. cbn.
    rewrite (proj2 (N.leb_le (sizer_depth s + 0) _)) by lia. rewrite andb_true_r.
    destruct (N.leb_spec (size s + bytes) limit).
    + by rewrite N.min_l, (proj2 (N.leb_le _ _)) by lia.
    + cbn. apply N.leb_gt. lia.
  - specialize (IHa s Hs Hd). destruct (weigh a (callables s)) as [[[w1 d1] seen1]|] eqn:Ea; cbn [mbind option_bind];
      [|destruct (run_cost _ _ a s); cbn in IHa; by subst].
    destruct (N.leb_spec (size s + w1) limit) as [H1|H1], (N.leb_spec (sizer_depth s + d1) max_depth) as [H2|H2];
      cbn [andb] in IHa.
    + rewrite IHa. specialize (IHb (mkSizer (size s + w1) (sizer_depth s) seen1)). cbn in IHb.
      specialize (IHb H1 Hd). destruct (weigh b seen1) as [[[w2 d2] seen2]|]; cbn [mbind option_bind]; [|done].
      destruct (N.leb_spec (size s + w1 + w2) limit), (N.leb_spec (sizer_depth s + d2) max_depth);
        destruct (N.leb_spec (size s + (w1 + w2)) limit), (N.leb_spec (sizer_depth s + N.max d1 d2) max_depth);
        cbn [andb] in *; try lia; try done. rewrite IHb. do 2 f_equal. lia.
    + destruct (run_cost _ _ a s); cbn in IHa; subst. destruct (weigh b seen1) as [[[w2 d2] seen2]|]; cbn [mbind option_bind]; [|done].
      by rewrite (proj2 (N.leb_gt (sizer_depth s + N.max d1 d2) _)), andb_false_r by lia.
    + destruct (run_cost _ _ a s); cbn in IHa; subst. destruct (weigh b seen1) as [[[w2 d2] seen2]|]; cbn [mbind option_bind]; [|done].
      by rewrite (proj2 (N.leb_gt (size s + (w1 + w2)) _)) by lia.
    + destruct (run_cost _ _ a s); cbn in IHa; subst. destruct (weigh b seen1) as [[[w2 d2] seen2]|]; cbn [mbind option_bind]; [|done].
      by rewrite (proj2 (N.leb_gt (size s + (w1 + w2)) _)) by lia.
  - unfold enter_depth. destruct (N.leb_spec max_depth (sizer_depth s)) as [Hfull|Hroom].
    + destruct (weigh c (callables s)) as [[[w d] seen]|]; cbn [mbind option_bind]; [|done].
      by rewrite (proj2 (N.leb_gt (sizer_depth s + (d + 1)) _)), andb_false_r by lia.
    + specialize (IH (mkSizer (size s) (sizer_depth s + 1) (callables s)) Hs). cbn [size sizer_depth callables] in IH.
      specialize (IH ltac:(lia)). destruct (weigh c (callables s)) as [[[w d] seen]|]; cbn [mbind option_bind];
        [|destruct (run_cost _ _ c _); cbn in IH; by subst].
      replace (sizer_depth s + 1 + d)%N with (sizer_depth s + (d + 1))%N in IH by lia.
      destruct (_ && _).
      * rewrite IH. unfold leave_depth, saturating_sub. cbn. do 2 f_equal. lia.
      * destruct (run_cost _ _ c _); cbn in IH; by subst.
  - destruct (existsb (N.eqb p) (callables s)) eqn:Ep.
    + destruct s; cbn in *. rewrite !(proj2 (N.leb_le _ _)) by lia. cbn. by rewrite N.add_0_r.
    + apply (IH (mkSizer (size s) (sizer_depth s) (p :: callables s))); done.
Qed.

(** The answer a walk has to give: its bytes when they and its nesting fit. *)
Definition bounded_size (limit max_depth : N) (c : Cost) : N :=
  match weigh c [] with
  | Some (w, d, _) => if (w <=? limit)%N && (d <=? max_depth)%N then w else (limit + 1)%N
  | None => (limit + 1)%N
  end.

Lemma measure_cost_exact limit max_depth c :
  (limit < usize_max)%N -> measure_cost limit max_depth c = bounded_size limit max_depth c.
Proof.
  intros Hl. pose proof (run_cost_exact limit max_depth c Hl sizer_new ltac:(cbn; lia) ltac:(cbn; lia)) as Hr.
  unfold measure_cost, bounded_size, saturating_add. rewrite N.min_l by lia. cbn [size sizer_depth callables sizer_new] in Hr.
  destruct (weigh c []) as [[[w d] seen]|].
  - rewrite !N.add_0_l in Hr. destruct (_ && _); [by rewrite Hr|]. destruct (run_cost _ _ _ _). cbn in Hr. by subst.
  - destruct (run_cost _ _ _ _). cbn in Hr. by subst.
Qed.

Lemma weigh_both a b seen w d seen' :
  weigh (Both a b) seen = Some (w, d, seen') ->
  exists w1 d1 seen1 w2 d2, weigh a seen = Some (w1, d1, seen1) /\ weigh b seen1 = Some (w2, d2, seen')
    /\ w = (w1 + w2)%N /\ d = N.max d1 d2.
Proof.
  cbn. intros ([[w1 d1] s1] & E1 & ([[w2 d2] s2] & E2 & [= <- <- <-])%bind_Some)%bind_Some. by repeat eexists.
Qed.

Lemma weigh_nest c seen w d seen' :
  weigh (Nest c) seen = Some (w, d, seen') -> exists d0, weigh c seen = Some (w, d0, seen') /\ d = (d0 + 1)%N.
Proof. cbn. intros ([[w1 d1] s1] & E1 & [= <- <- <-])%bind_Some. by exists d1. Qed.

Lemma weigh_each {X} (cost : X -> Cost) (h : X -> N) xs :
  Forall (fun x => forall seen w d seen', weigh (cost x) seen = Some (w, d, seen') -> (h x <= d)%N) xs ->
  forall seen w d seen', weigh (each cost xs) seen = Some (w, d, seen') -> (max_list (List.map h xs) <= d)%N.
Proof.
  induction 1 as [|x xs Hx _ IH]; intros seen w d seen'; cbn [each List.map max_list foldr]; [lia|].
  intros (w1 & d1 & s1 & w2 & d2 & E1 & E2 & _ & ->)%weigh_both. specialize (Hx _ _ _ _ E1). specialize (IH _ _ _ _ E2).
  unfold max_list in IH. lia.
Qed.

(** The walk of a value nests at least as deep as the value. *)
Lemma weigh_value_height `{Layout} v : forall seen w d seen',
  weigh (value_cost v) seen = Some (w, d, seen') -> (value_height v <= d)%N.
Proof.
  induction v as [|b|i|f|s|s|vs IH|fs IH|n|n v IH|rc c] using value_induction; intros seen w d seen';
    cbn [value_cost]; intros (d0 & (w1 & d1 & s1 & w2 & d2 & _ & E & _ & ->)%weigh_both & ->)%weigh_nest;
    cbn [value_height]; try lia.
  - apply weigh_both in E as (? & ? & ? & ? & d3 & _ & E & _ & ->). eapply (weigh_each _ value_height) in E; [lia|done].
  - apply weigh_both in E as (? & ? & ? & ? & d3 & _ & E & _ & ->).
    eapply (weigh_each _ (fun f => value_height (snd f))) in E; [lia|].
    eapply Forall_impl; [exact IH|]. intros f Hf seen1 w3 d4 seen2.
    intros (? & ? & ? & ? & ? & _ & E2 & _ & ->)%weigh_both. specialize (Hf _ _ _ _ E2). lia.
  - apply weigh_both in E as (? & ? & ? & ? & d3 & _ & E & _ & ->).
    apply weigh_both in E as (? & ? & ? & ? & ? & _ & E & _ & ->). specialize (IH _ _ _ _ E). lia.
Qed.

(** budgeted sizes are the sizes.  Stopping early, saturating and counting
    shared callables once, the sizer answers the unbounded weight of a value, of
    an environment, of its deep copy and of a JSON value when the weight and the
    nesting fit, and one more than the limit otherwise; so an accepted value nests
    no deeper than the limit. *)
Lemma retained_sizes_exact `{Layout} `{JsonNumber} limit max_depth v env j :
  (limit < usize_max)%N ->
  value_size_bounded v limit max_depth = bounded_size limit max_depth (value_cost v)
  /\ environment_size_bounded env limit max_depth
       = bounded_size limit max_depth (environment_cost (each sizer_entry env))
  /\ environment_clone_size_bounded env limit max_depth
       = bounded_size limit max_depth
           (each (fun f => Both (Add (saturating_add MAP_SLOT_OVERHEAD (str_len f.1))) (value_heap f.2)) env)
  /\ json_value_size_bounded j limit max_depth = bounded_size limit max_depth (json_walk j)
  /\ ((value_size_bounded v limit max_depth <= limit)%N -> (value_height v <= max_depth)%N).
Proof.
  intros Hl. unfold value_size_bounded. rewrite (measure_cost_exact limit max_depth (value_cost v)) by done.
  split_and!; try (by apply measure_cost_exact); [done|].
  unfold bounded_size. destruct (weigh (value_cost v) []) as [[[w d] seen]|] eqn:E; [|lia].
  apply weigh_value_height in E. destruct (N.leb_spec w limit), (N.leb_spec d max_depth); cbn; lia.
Qed.

Definition sample_layout : Layout := {|
  size_of_usize := 8; size_of_String := 24; size_of_Value := 32; size_of_Environment := 24;
  size_of_Callable := 120; size_of_Pattern := 72; size_of_field_Pattern := 96; size_of_TypeTerm := 32;
  size_of_field_TypeTerm := 56; size_of_VariantDecl := 56; size_of_Expr := 96; size_of_field_Expr := 120;
  size_of_MatchArm := 168; size_of_Form := 136; size_of_JsonValue := 32;
  string_capacity := str_len; vec_capacity := id |}.

Lemma retained_sizes_exact_witness :
  (1024 < usize_max)%N /\
  let v := VList [VCallable 7 (CCapability "fs.read"); VCallable 7 (CCapability "fs.read")] in
  @value_size_bounded sample_layout v 1024 8 = bounded_size 1024 8 (@value_cost sample_layout v)
  /\ @value_size_bounded sample_layout v 1024 8 = (3 * 32 + 120 + 16 + 7)%N.
Proof.
  split; [reflexivity|]. intros v. split; [|vm_compute; reflexivity].
  apply (@retained_sizes_exact sample_layout sample_numbers 1024 8 v [] JNull). reflexivity.
Defined.
