(* ===== verification/Task.v ===== *)
(** * Asynchronous evaluation

    The evaluator is a tree of futures on one thread.  A [task] is what a future
    still has to do: return, touch the state shared through [Arc]s (one lock or one
    atomic operation at a time), await the world outside, or run child futures
    through a [FuturesUnordered].  The children of [Par] advance only while their
    parent awaits the next result; their results are handled one at a time, and an
    error drops the children that are left.

    [tstep] interleaves the children at every access of the shared state.  The code
    interleaves them only at awaits, so every run of the code is a run here. *)

From stdpp Require Import base tactics list strings.
From Stdlib Require Import ZArith NArith Lia Relations RelationClasses.
From S2P Require Import Prelude BTree Text Numbers Syntax Machine Value Operators Limits Host.

(** ** The shared state *)

Section State.
Context `{JsonNumber}.

(** What the evaluation asks of the world: the event sink, the approval policy on
    behalf of a capability, whatever a host function needs, and a turn of the
    scheduler. *)
Inductive Op : Type :=
| OpEmit (event : string) (payload : Json)
| OpHostEvent (capability event : string) (payload : Json)
| OpApproval (capability action : string) (timeout : N)
| OpOutside (capability : string) (request : Json)
| OpYield.

Definition answer_of (o : Op) : Type :=
  match o with
  | OpEmit _ _ | OpHostEvent _ _ _ => HostResult unit
  | OpApproval _ _ _ => HostResult ApprovalDecision
  | OpOutside _ _ => Json
  | OpYield => unit
  end.

Record Exchange := mkExchange { asked : Op; answered : answer_of asked }.

(** The machine of an effect is shared with its perform call: an address. *)
Record ActiveEffect := mkActiveEffect {
  effect_scope_id : option string;
  effect_machine : nat;
  effect_terminal : option Json;
}.

Record ActiveScope := mkActiveScope {
  scope_total : option N;
  scope_completed : N;
  parent_node_id : option string;
  scope_terminal : option Json;
}.

Record ActiveExecution := mkActive {
  active_cell_id : string;
  active_effects : list (string * ActiveEffect);
  active_scopes : list (string * ActiveScope);
  cell_terminal : option Json;
  cell_started : bool;
}.

(** Behind [Arc]s: the counters of a cell, the execution other parts of the
    interpreter can cancel, the effect machines by address and the next number of
    an [Rc] allocation.  [history] has all exchanges so far, the latest first, and
    [sort_panics] the keyed lists of the running cell on which the sort of the
    standard library panicked: the code keeps neither, statements refer to them. *)
Record Shared := mkShared {
  sh_steps : N;
  sh_stdout : string;
  sh_output_used : N;
  node_counter : N;
  active : option ActiveExecution;
  terminal_selected : bool;
  machines : list EffectMachine;
  next_rc : N;
  history : list Exchange;
  sort_panics : list (list (Value * Value));
}.

Definition record_exchange (o : Op) (a : answer_of o) (s : Shared) : Shared :=
  mkShared (sh_steps s) (sh_stdout s) (sh_output_used s) (node_counter s) (active s)
    (terminal_selected s) (machines s) (next_rc s) (mkExchange o a :: history s)
    (sort_panics s).

(** ** Tasks *)

(** The key of a parallel branch: a field name or an index. *)
Inductive PKey := KField (name : string) | KIndex (index : N).

(** The locals of the loop that collects parallel results. *)
Record ParState := mkPar {
  par_completed : N;
  par_allocated : N;
  par_output : list (PKey * Value);
}.

Inductive task (A : Type) : Type :=
| Ret (a : A)
| Sync (f : Shared -> Shared) (k : Shared -> task A)
| Await (o : Op) (k : answer_of o -> task A)
| Par (st : ParState) (handling : option (task (RuntimeResult ParState)))
    (running waiting : list (PKey * task (RuntimeResult Value)))
    (handle : ParState -> PKey -> Value -> task (RuntimeResult ParState))
    (k : RuntimeResult ParState -> task A).

Arguments Ret {A} a.
Arguments Sync {A} f k.
Arguments Await {A} o k.
Arguments Par {A} st handling running waiting handle k.

Fixpoint task_bind {A B} (t : task A) (k : A -> task B) : task B :=
  match t with
  | Ret a => k a
  | Sync f k' => Sync f (fun s => task_bind (k' s) k)
  | Await o k' => Await o (fun a => task_bind (k' a) k)
  | Par st h running waiting handle k' =>
      Par st h running waiting handle (fun r => task_bind (k' r) k)
  end.

(** A result that is not a value, at another type. *)
Definition no_value {A B} (r : RuntimeResult A) : RuntimeResult B :=
  match r with
  | Ok _ => Panicked
  | Err e => Err e
  | Panicked => Panicked
  | OutOfFuel => OutOfFuel
  end.

Definition is_ok {A} (r : RuntimeResult A) : bool := match r with Ok _ => true | _ => false end.

(** One more branch is started for one that finished. *)
Definition refill (running waiting : list (PKey * task (RuntimeResult Value)))
    : list (PKey * task (RuntimeResult Value)) * list (PKey * task (RuntimeResult Value)) :=
  match waiting with
  | [] => (running, [])
  | c :: waiting' => (running ++ [c], waiting')
  end.

Inductive tstep (A : Type) : task A * Shared -> task A * Shared -> Prop :=
| step_sync f k s : tstep A (Sync f k, s) (k s, f s)
| step_await o k a s : tstep A (Await o k, s) (k a, record_exchange o a s)
| step_child st pre key t t' post waiting handle k s s' :
    tstep (RuntimeResult Value) (t, s) (t', s') ->
    tstep A (Par st None (pre ++ (key, t) :: post) waiting handle k, s)
           (Par st None (pre ++ (key, t') :: post) waiting handle k, s')
| step_joined st pre key v post waiting handle k s :
    tstep A (Par st None (pre ++ (key, Ret (Ok v)) :: post) waiting handle k, s)
           (Par st (Some (handle st key v)) (pre ++ post) waiting handle k, s)
| step_failed st pre key r post waiting handle k s :
    is_ok r = false ->
    tstep A (Par st None (pre ++ (key, Ret r) :: post) waiting handle k, s) (k (no_value r), s)
| step_handling st h h' running waiting handle k s s' :
    tstep (RuntimeResult ParState) (h, s) (h', s') ->
    tstep A (Par st (Some h) running waiting handle k, s) (Par st (Some h') running waiting handle k, s')
| step_handled st st' running waiting handle k s :
    tstep A (Par st (Some (Ret (Ok st'))) running waiting handle k, s)
           (Par st' None (refill running waiting).1 (refill running waiting).2 handle k, s)
| step_unhandled st r running waiting handle k s :
    is_ok r = false ->
    tstep A (Par st (Some (Ret r)) running waiting handle k, s) (k r, s)
| step_drained st waiting handle k s :
    tstep A (Par st None [] waiting handle k, s) (k (Ok st), s).

(** Runs: the reflexive transitive closure. *)
Inductive steps_to {A} : task A * Shared -> task A * Shared -> Prop :=
| steps_refl c : steps_to c c
| steps_step c1 c2 c3 : tstep A c1 c2 -> steps_to c2 c3 -> steps_to c1 c3.

Lemma steps_trans {A} (c1 c2 c3 : task A * Shared) : steps_to c1 c2 -> steps_to c2 c3 -> steps_to c1 c3.
Proof. induction 1; [done|]. intros. econstructor; [done|auto]. Qed.

(** ** The schedule that runs one branch after the other *)

Section Run.
Variable oracle : forall o : Op, answer_of o.

Fixpoint run_task {A} (t : task A) (s : Shared) : A * Shared :=
  match t with
  | Ret a => (a, s)
  | Sync f k => run_task (k s) (f s)
  | Await o k => run_task (k (oracle o)) (record_exchange o (oracle o) s)
  | Par st h running waiting handle k =>
      let branches :=
        fix go (l : list (PKey * task (RuntimeResult Value)))
            (rest : ParState -> Shared -> A * Shared) (st : ParState) (s : Shared) : A * Shared :=
          match l with
          | [] => rest st s
          | (key, c) :: l' =>
              let '(r, s) := run_task c s in
              match r with
              | Ok v =>
                  let '(r, s) := run_task (handle st key v) s in
                  match r with
                  | Ok st => go l' rest st s
                  | _ => run_task (k r) s
                  end
              | _ => run_task (k (no_value r)) s
              end
          end in
      let start st s :=
        branches running (branches waiting (fun st s => run_task (k (Ok st)) s)) st s in
      match h with
      | None => match running with [] => run_task (k (Ok st)) s | _ :: _ => start st s end
      | Some h =>
          let '(r, s) := run_task h s in
          match r with
          | Ok st => start st s
          | _ => run_task (k r) s
          end
      end
  end.
End Run.
End State.

Arguments Ret {H A} a.
Arguments Sync {H A} f k.
Arguments Await {H A} o k.
Arguments Par {H A} st handling running waiting handle k.

(** ** Induction on tasks *)

Section Induction.
Context `{JsonNumber}.
Variable P : forall A, task A -> Prop.
Hypothesis Hret : forall A a, P A (Ret a).
Hypothesis Hsync : forall A f k, (forall s, P A (k s)) -> P A (Sync f k).
Hypothesis Hawait : forall A o k, (forall a, P A (k a)) -> P A (Await o k).
Hypothesis Hpar : forall A st h running waiting handle k,
  from_option (P _) True h ->
  Forall (fun c => P _ c.2) running -> Forall (fun c => P _ c.2) waiting ->
  (forall st key v, P _ (handle st key v)) -> (forall r, P A (k r)) ->
  P A (Par st h running waiting handle k).

Fixpoint task_induction {A} (t : task A) : P A t :=
  match t with
  | Ret a => Hret A a
  | Sync f k => Hsync A f k (fun s => task_induction (k s))
  | Await o k => Hawait A o k (fun a => task_induction (k a))
  | Par st h running waiting handle k =>
      let all := fix go l : Forall (fun c => P _ c.2) l :=
        match l with
        | [] => Forall_nil_2 _
        | c :: l' => Forall_cons_2 (fun c => P _ c.2) c l' (task_induction c.2) (go l')
        end in
      Hpar A st h running waiting handle k
        (match h with Some t => task_induction t | None => I end)
        (all running) (all waiting)
        (fun st key v => task_induction (handle st key v)) (fun r => task_induction (k r))
  end.
End Induction.

(** ** Every schedule ends *)

Section Termination.
Context `{JsonNumber}.

(** The steps of a task that is not a [Par]. *)
Lemma step_cases {A} (c c' : task A * Shared) :
  tstep A c c' ->
  match c with
  | (Ret _, _) => False
  | (Sync f k, s) => c' = (k s, f s)
  | (Await o k, s) => exists a, c' = (k a, record_exchange o a s)
  | (Par _ _ _ _ _ _, _) => True
  end.
Proof. destruct 1; eauto. Qed.

(** One step of a task, whatever the shared state. *)
Definition advances {A} (t' t : task A) : Prop := exists s s', tstep A (t, s) (t', s').

(** One branch of a list advances. *)
Inductive advance_one : list (PKey * task (RuntimeResult Value))
    -> list (PKey * task (RuntimeResult Value)) -> Prop :=
| advance_at pre key t t' post :
    advances t' t -> advance_one (pre ++ (key, t') :: post) (pre ++ (key, t) :: post).

Lemma advance_one_nil l : ~ advance_one l [].
Proof. intros Ha. inversion Ha as [pre ? ? ? ? ? Hl]. by destruct pre. Qed.

Lemma advance_one_cons l' key t l :
  advance_one l' ((key, t) :: l) ->
  (exists t', advances t' t /\ l' = (key, t') :: l) \/ (exists l1, advance_one l1 l /\ l' = (key, t) :: l1).
Proof.
  intros Ha. inversion Ha as [pre key0 t0 t' post Hadv Hl1 Hl2]; subst.
  destruct pre as [|c pre]; cbn in *; [injection Hl2 as -> -> ->; left; by exists t'|].
  injection Hl2 as -> <-. right. eexists. split; [by constructor|done].
Qed.

Lemma Acc_branches l : Forall (fun c => Acc advances c.2) l -> Acc advance_one l.
Proof.
  induction 1 as [|[key t] l Ht _ IH]; [constructor; by intros ? ?%advance_one_nil|].
  cbn in Ht. revert l IH. induction Ht as [t _ IHt]. intros l Hl.
  induction Hl as [l Hl IHl]. constructor. intros l' [(t' & Hadv & ->)|(l1 & Hadv & ->)]%advance_one_cons.
  - apply IHt; [done|]. by constructor.
  - by apply IHl.
Qed.

Lemma Forall_advance l' l :
  advance_one l' l -> Forall (fun c => Acc advances c.2) l -> Forall (fun c => Acc advances c.2) l'.
Proof.
  intros [pre key t t' post Hadv]. rewrite !Forall_app, !Forall_cons. cbn. intros (Hpre & Ht & Hpost).
  split; [exact Hpre|]. split; [exact (Acc_inv Ht Hadv)|exact Hpost].
Qed.

(** The steps of a [Par]. *)
Lemma par_idle_inv {A} t' st running waiting handle (k : _ -> task A) :
  advances t' (Par st None running waiting handle k) ->
  (exists running', advance_one running' running /\ t' = Par st None running' waiting handle k)
  \/ (exists pre key v post, running = pre ++ (key, Ret (Ok v)) :: post
        /\ t' = Par st (Some (handle st key v)) (pre ++ post) waiting handle k)
  \/ (exists r, t' = k r).
Proof.
  intros (s & s' & Hs). inversion Hs; subst.
  - left. eexists. split; [|done]. constructor. by do 2 eexists.
  - right. left. by do 4 eexists.
  - right. right. by eexists.
  - right. right. by eexists.
Qed.

Lemma par_busy_inv {A} t' st h running waiting handle (k : _ -> task A) :
  advances t' (Par st (Some h) running waiting handle k) ->
  (exists h', advances h' h /\ t' = Par st (Some h') running waiting handle k)
  \/ (exists st', t' = Par st' None (refill running waiting).1 (refill running waiting).2 handle k)
  \/ (exists r, t' = k r).
Proof.
  intros (s & s' & Hs). inversion Hs; subst.
  - left. eexists. split; [by do 2 eexists|done].
  - right. left. by eexists.
  - right. right. by eexists.
Qed.

Lemma refill_spec running waiting :
  (refill running waiting).1 ++ (refill running waiting).2 = running ++ waiting.
Proof. destruct waiting as [|c waiting]; cbn; [by rewrite !app_nil_r|]. by rewrite <- app_assoc. Qed.

Lemma Acc_par {A} handle (k : _ -> task A) :
  (forall st key v, Acc advances (handle st key v)) -> (forall r, Acc advances (k r)) ->
  forall n st running waiting, length (running ++ waiting) = n ->
  Forall (fun c => Acc advances c.2) (running ++ waiting) ->
  Acc advances (Par st None running waiting handle k)
  /\ forall h, Acc advances h -> Acc advances (Par st (Some h) running waiting handle k).
Proof.
  intros Hh Hk n. induction (lt_wf n) as [n _ IHn].
  assert (Hidle : forall running, Acc advance_one running -> forall waiting st, length (running ++ waiting) = n ->
    Forall (fun c => Acc advances c.2) (running ++ waiting) ->
    Acc advances (Par st None running waiting handle k)).
  { induction 1 as [running _ IHr]. intros waiting st Hlen HF. constructor.
    intros t' [(running' & Hadv & ->)|[(pre & key & v & post & -> & ->)|(r & ->)]]%par_idle_inv; [| |apply Hk].
    - apply IHr; [exact Hadv| |].
      + destruct Hadv. rewrite !length_app in *. exact Hlen.
      + apply Forall_app in HF as [HF1 HF2]. apply Forall_app. split; [|exact HF2]. by eapply Forall_advance.
    - rewrite <- app_assoc in HF. apply Forall_app in HF as [HF1 HF2]. apply Forall_cons in HF2 as [_ HF2].
      eapply (IHn (length ((pre ++ post) ++ waiting)));
        [|reflexivity|rewrite <- app_assoc; apply Forall_app; split; [exact HF1|exact HF2]|apply Hh].
      rewrite <- Hlen, !length_app. apply Nat.add_lt_mono_r, Nat.add_lt_mono_l, Nat.lt_succ_diag_r. }
  intros st running waiting Hlen HF. split.
  - apply Hidle; [|exact Hlen|exact HF]. apply Acc_branches. by apply Forall_app in HF as [HF _].
  - intros h Hacc. induction Hacc as [h _ IHh]. constructor.
    intros t' [(h' & Hadv & ->)|[(st' & ->)|(r & ->)]]%par_busy_inv; [by apply IHh| |apply Hk].
    assert (HF' : Forall (fun c => Acc advances c.2) ((refill running waiting).1 ++ (refill running waiting).2))
      by (by rewrite refill_spec).
    apply Hidle; [|by rewrite refill_spec|exact HF']. apply Acc_branches. by apply Forall_app in HF' as [HF' _].
Qed.

Lemma advances_wf {A} (t : task A) : Acc advances t.
Proof.
  revert A t. apply (@task_induction _ (fun A t => Acc advances t)).
  - intros A a. constructor. by intros t' (s & s' & Hs%step_cases).
  - intros A f k IH. constructor. intros t' (s & s' & [= -> ->]%step_cases). apply IH.
  - intros A o k IH. constructor. intros t' (s & s' & (a & [= -> ->])%step_cases). apply IH.
  - intros A st h running waiting handle k IHh IHr IHw IHhandle IHk.
    destruct (Acc_par handle k IHhandle IHk _ st running waiting eq_refl) as [Hidle Hbusy].
    + apply Forall_app. by split.
    + destruct h as [h|]; [by apply Hbusy|exact Hidle].
Qed.
(** A task that has not returned can go on. *)
Definition some_answer (o : Op) : answer_of o :=
  match o with
  | OpEmit _ _ | OpHostEvent _ _ _ => inl tt
  | OpApproval _ _ _ => inl Denied
  | OpOutside _ _ => JNull
  | OpYield => tt
  end.

Lemma task_progress {A} (t : task A) s : (exists a, t = Ret a) \/ exists c, tstep A (t, s) c.
Proof.
  revert A t s. apply (@task_induction _ (fun A t => forall s, (exists a, t = Ret a) \/ exists c, tstep A (t, s) c)).
  - intros A a s. left. by exists a.
  - intros A f k _ s. right. eexists. constructor.
  - intros A o k _ s. right. eexists. apply (step_await A o k (some_answer o)).
  - intros A st h running waiting handle k IHh IHr _ _ _ s. right. destruct h as [h|].
    + destruct (IHh s) as [[[st'|e| |] ->]|[[h' s'] Hs]]; eexists;
        first [apply step_handled | by apply step_unhandled | by apply step_handling].
    + destruct IHr as [|[key t] running Ht _]; [eexists; apply step_drained|].
      destruct (Ht s) as [[[v|e| |] Hr]|[[t' s'] Hs]]; cbn in *; try subst t; eexists;
        first [apply (step_joined A st []) | by apply (step_failed A st []) | by apply (step_child A st [])].
Qed.
End Termination.

(** On every schedule, whatever is answered, a result is reached, and it
    satisfies [Q]. *)
Inductive ends `{JsonNumber} {A} (Q : A -> Shared -> Prop) : task A * Shared -> Prop :=
| ends_ret a s : Q a s -> ends Q (Ret a, s)
| ends_step t s :
    (exists c, tstep A (t, s) c) -> (forall c, tstep A (t, s) c -> ends Q c) -> ends Q (t, s).

(** ** A logic for tasks

    [R] relates the shared state before and after any number of steps of any part
    of the evaluation.  [safe Q t s]: from [s] on, every access of [t] respects [R],
    whatever the other parts do in between within [R], and a result satisfies [Q].
    The branches of a [Par] have their own postconditions, which stay true. *)

Section Logic.
Context `{JsonNumber}.
Variable R : Shared -> Shared -> Prop.
Variable child_post : RuntimeResult Value -> Shared -> Prop.
Variable par_post : RuntimeResult ParState -> Shared -> Prop.

Definition stably (P : Shared -> Prop) (s : Shared) : Prop := forall s', R s s' -> P s'.

Fixpoint safe {A} (Q : A -> Shared -> Prop) (t : task A) (s : Shared) : Prop :=
  match t with
  | Ret a => Q a s
  | Sync f k => R s (f s) /\ stably (safe Q (k s)) (f s)
  | Await o k => forall a, R s (record_exchange o a s) /\ stably (safe Q (k a)) (record_exchange o a s)
  | Par st h running waiting handle k =>
      let all := fix go l :=
        match l with
        | [] => True
        | c :: l' => stably (safe child_post (snd c)) s /\ go l'
        end in
      match h with
      | Some h => stably (safe par_post h) s
      | None => stably (par_post (Ok st)) s
      end
      /\ all running /\ all waiting
      /\ (forall st key v,
            stably (fun s' => par_post (Ok st) s' -> child_post (Ok v) s' -> safe par_post (handle st key v) s') s)
      /\ (forall r, stably (fun s' => par_post r s' -> safe Q (k r) s') s)
  end.

Context `{!PreOrder R}.
Hypothesis lost_child : forall r s, is_ok r = false -> child_post r s -> par_post (no_value r) s.
Hypothesis child_stable : forall r s s', R s s' -> child_post r s -> child_post r s'.

Definition branches_safe (l : list (PKey * task (RuntimeResult Value))) (s : Shared) : Prop :=
  Forall (fun c => stably (safe child_post c.2) s) l.

Lemma safe_par {A} (Q : A -> Shared -> Prop) st h running waiting handle k s :
  safe Q (Par st h running waiting handle k) s <->
  match h with
  | Some h => stably (safe par_post h) s
  | None => stably (par_post (Ok st)) s
  end
  /\ branches_safe running s /\ branches_safe waiting s
  /\ (forall st key v,
        stably (fun s' => par_post (Ok st) s' -> child_post (Ok v) s' -> safe par_post (handle st key v) s') s)
  /\ (forall r, stably (fun s' => par_post r s' -> safe Q (k r) s') s).
Proof.
  cbn. assert (Hall : forall l, (fix go l :=
    match l with
    | [] => True
    | c :: l' => stably (safe child_post (snd c)) s /\ go l'
    end) l <-> branches_safe l s).
  { unfold branches_safe. induction l as [|c l IH]; [split; [constructor|done]|]. by rewrite Forall_cons, IH. }
  by rewrite !Hall.
Qed.

Lemma stably_later (P : Shared -> Prop) s s' : R s s' -> stably P s -> stably P s'.
Proof. intros HR HP s'' HR'. apply HP. by etrans. Qed.

Lemma stably_now (P : Shared -> Prop) s : stably P s -> P s.
Proof. intros HP. apply HP. reflexivity. Qed.

Lemma branches_later l s s' : R s s' -> branches_safe l s -> branches_safe l s'.
Proof. intros HR HF. eapply Forall_impl; [exact HF|]. intros c. by apply stably_later. Qed.

(** One step keeps a safe task safe. *)
Lemma safe_step {A} (Q : A -> Shared -> Prop) t s t' s' :
  tstep A (t, s) (t', s') -> safe Q t s -> R s s' /\ stably (safe Q t') s'.
Proof.
  remember (t, s) as c eqn:Ec. remember (t', s') as c' eqn:Ec'. intros Hs. revert Q t s t' s' Ec Ec'.
  induction Hs as [A f k s0|A o k a s0|A st pre key u u' post waiting handle k s0 s1 Hs IH
    |A st pre key v post waiting handle k s0|A st pre key r post waiting handle k s0 Hr
    |A st h h' running waiting handle k s0 s1 Hs IH|A st st' running waiting handle k s0
    |A st r running waiting handle k s0 Hr|A st waiting handle k s0];
    intros Q t s t' s' [= <- <-] [= <- <-].
  - done.
  - intros Hsafe. exact (Hsafe a).
  - rewrite !safe_par. intros (Hst & Hrun & Hwait & Hhandle & Hk).
    unfold branches_safe in Hrun. rewrite Forall_app, Forall_cons in Hrun. destruct Hrun as (Hpre & Hu & Hpost).
    destruct (IH _ u s0 u' s1 eq_refl eq_refl (stably_now _ _ Hu)) as [HR Hu']. split; [done|].
    intros s'' HR'. assert (HR'' : R s0 s'') by by etrans. rewrite safe_par. split_and!.
    + by eapply stably_later.
    + unfold branches_safe. rewrite Forall_app, Forall_cons. split_and!.
      * exact (branches_later _ _ _ HR'' Hpre).
      * exact (stably_later _ _ _ HR' Hu').
      * exact (branches_later _ _ _ HR'' Hpost).
    + exact (branches_later _ _ _ HR'' Hwait).
    + intros st0 key0 v0. eapply stably_later; [exact HR''|]. apply Hhandle.
    + intros r. eapply stably_later; [exact HR''|]. apply Hk.
  - rewrite safe_par. intros (Hst & Hrun & Hwait & Hhandle & Hk). split; [reflexivity|].
    unfold branches_safe in Hrun. rewrite Forall_app, Forall_cons in Hrun. destruct Hrun as (Hpre & Hu & Hpost).
    apply stably_now in Hu. intros s'' HR. rewrite safe_par. split_and!.
    + intros s3 HR3. assert (HR03 : R s0 s3) by by etrans. apply Hhandle; [done|by apply Hst|].
      eapply child_stable; [exact HR03|exact Hu].
    + eapply branches_later; [exact HR|]. by apply Forall_app.
    + by eapply branches_later.
    + intros st0 key0 v0. eapply stably_later; [exact HR|]. apply Hhandle.
    + intros r. eapply stably_later; [exact HR|]. apply Hk.
  - rewrite safe_par. intros (Hst & Hrun & Hwait & Hhandle & Hk). split; [reflexivity|].
    unfold branches_safe in Hrun. rewrite Forall_app, Forall_cons in Hrun. destruct Hrun as (Hpre & Hu & Hpost).
    intros s'' HR. apply Hk; [done|]. apply lost_child; [done|]. exact (Hu _ HR).
  - rewrite safe_par. intros (Hst & Hrun & Hwait & Hhandle & Hk).
    destruct (IH _ h s0 h' s1 eq_refl eq_refl (stably_now _ _ Hst)) as [HR Hh']. split; [done|].
    intros s'' HR'. assert (HR'' : R s0 s'') by by etrans. rewrite safe_par. split_and!.
    + exact (stably_later _ _ _ HR' Hh').
    + exact (branches_later _ _ _ HR'' Hrun).
    + exact (branches_later _ _ _ HR'' Hwait).
    + intros st0 key0 v0. eapply stably_later; [exact HR''|]. apply Hhandle.
    + intros r. eapply stably_later; [exact HR''|]. apply Hk.
  - rewrite safe_par. intros (Hst & Hrun & Hwait & Hhandle & Hk). split; [reflexivity|].
    intros s'' HR. rewrite safe_par.
    assert (Hall : branches_safe ((refill running waiting).1 ++ (refill running waiting).2) s'').
    { rewrite refill_spec. apply Forall_app. split; by eapply branches_later. }
    apply Forall_app in Hall as [Hall1 Hall2]. split_and!; try done.
    + eapply stably_later; [exact HR|exact Hst].
    + intros st0 key0 v0. eapply stably_later; [exact HR|]. apply Hhandle.
    + intros r0. eapply stably_later; [exact HR|]. apply Hk.
  - rewrite safe_par. intros (Hst & Hrun & Hwait & Hhandle & Hk). split; [reflexivity|].
    intros s'' HR. apply Hk; [done|]. exact (Hst _ HR).
  - rewrite safe_par. intros (Hst & Hrun & Hwait & Hhandle & Hk). split; [reflexivity|].
    intros s'' HR. apply Hk; [done|]. by apply Hst.
Qed.

(** A safe task ends on every schedule, with its postcondition. *)
Lemma safe_ends {A} (Q : A -> Shared -> Prop) t s : safe Q t s -> ends Q (t, s).
Proof.
  revert s. induction (advances_wf t) as [t _ IH]. intros s Hsafe.
  destruct (task_progress t s) as [[a ->]|Hgo]; [by constructor|]. constructor; [done|].
  intros [t' s'] Hs. destruct (safe_step Q _ _ _ _ Hs Hsafe) as [HR Hsafe'].
  apply IH; [by do 2 eexists|]. by apply stably_now.
Qed.

(** On the way there, the shared state stays within [R]. *)
Lemma safe_steps {A} (Q : A -> Shared -> Prop) t s t' s' :
  steps_to (t, s) (t', s') -> safe Q t s -> R s s' /\ safe Q t' s'.
Proof.
  remember (t, s) as c eqn:Ec. remember (t', s') as c' eqn:Ec'. intros Hs. revert t s Ec.
  induction Hs as [c|c1 [t2 s2] c3 Hs _ IH]; intros t s ->.
  - injection Ec' as -> ->. split; [reflexivity|done].
  - intros Hsafe. destruct (safe_step Q _ _ _ _ Hs Hsafe) as [HR Hsafe'].
    destruct (IH Ec' _ _ eq_refl (stably_now _ _ Hsafe')) as [HR' Hend]. split; [by etrans|done].
Qed.

(** ** Rules *)

Lemma safe_mono {A} (Q Q' : A -> Shared -> Prop) t s :
  (forall a s', R s s' -> Q a s' -> Q' a s') -> safe Q t s -> safe Q' t s.
Proof.
  intros HQ. revert s HQ. induction t as [A a|A f k IH|A o k IH|A st h _ running _ waiting _ handle _ k IH]; intros s HQ.
  - apply HQ. reflexivity.
  - intros [HR Hs]. split; [done|]. intros s' HR'. eapply IH; [|by apply Hs].
    intros a s'' HR''. apply HQ. etrans; [exact HR|]. by etrans.
  - intros Hs a. destruct (Hs a) as [HR Hs']. split; [done|]. intros s' HR'. eapply IH; [|by apply Hs'].
    intros b s'' HR''. apply HQ. etrans; [exact HR|]. by etrans.
  - rewrite !safe_par. intros (Hst & Hrun & Hwait & Hhandle & Hk). split_and!; try done.
    intros r s' HR Hr. eapply IH; [|by apply Hk]. intros a s'' HR'. apply HQ. by etrans.
Qed.

Lemma safe_bind {A B} (Q : B -> Shared -> Prop) (t : task A) (k : A -> task B) s :
  safe (fun a s' => safe Q (k a) s') t s -> safe Q (task_bind t k) s.
Proof.
  revert s. induction t as [A a|A f k' IH|A o k' IH|A st h _ running _ waiting _ handle _ k' IH]; intros s; cbn [task_bind].
  - done.
  - intros [HR Hs]. split; [done|]. intros s' HR'. by apply IH, Hs.
  - intros Hs a. destruct (Hs a) as [HR Hs']. split; [done|]. intros s' HR'. by apply IH, Hs'.
  - rewrite !safe_par. intros (Hst & Hrun & Hwait & Hhandle & Hk). split_and!; try done.
    intros r s' HR Hr. by apply IH, Hk.
Qed.
End Logic.

(** ** The sequential schedule is a schedule *)

Section Sequential.
Context `{JsonNumber}.
Variable oracle : forall o : Op, answer_of o.

Definition result_of {A} (r : A * Shared) : task A * Shared := (Ret r.1, r.2).

Lemma child_steps {A} st pre key post waiting handle (k : _ -> task A) c c' :
  steps_to c c' ->
  steps_to (Par st None (pre ++ (key, c.1) :: post) waiting handle k, c.2)
           (Par st None (pre ++ (key, c'.1) :: post) waiting handle k, c'.2).
Proof.
  induction 1 as [c|[t1 s1] [t2 s2] c3 Hs _ IH]; [constructor|]. econstructor; [|exact IH]. by constructor.
Qed.

Lemma handler_steps {A} st running waiting handle (k : _ -> task A) c c' :
  steps_to c c' ->
  steps_to (Par st (Some c.1) running waiting handle k, c.2) (Par st (Some c'.1) running waiting handle k, c'.2).
Proof.
  induction 1 as [c|[t1 s1] [t2 s2] c3 Hs _ IH]; [constructor|]. econstructor; [|exact IH]. by constructor.
Qed.

(** The branches of [run_task], one after the other. *)
Definition run_branches {A} handle (k : RuntimeResult ParState -> task A) :=
  fix go (l : list (PKey * task (RuntimeResult Value)))
      (rest : ParState -> Shared -> A * Shared) (st : ParState) (s : Shared) : A * Shared :=
    match l with
    | [] => rest st s
    | (key, c) :: l' =>
        let '(r, s) := run_task oracle c s in
        match r with
        | Ok v =>
            let '(r, s) := run_task oracle (handle st key v) s in
            match r with
            | Ok st => go l' rest st s
            | _ => run_task oracle (k r) s
            end
        | _ => run_task oracle (k (no_value r)) s
        end
    end.

Lemma run_branches_app {A} handle (k : _ -> task A) l l' rest st s :
  run_branches handle k (l ++ l') rest st s = run_branches handle k l (run_branches handle k l' rest) st s.
Proof.
  revert st s. induction l as [|[key c] l IH]; intros st s; [done|]. cbn.
  destruct (run_task oracle c s) as [[v|e| |] s1]; try done.
  destruct (run_task oracle (handle st key v) s1) as [[st'|e| |] s2]; done.
Qed.

Definition runs {A} (t : task A) : Prop := forall s, steps_to (t, s) (result_of (run_task oracle t s)).

Lemma branches_run {A} handle (k : _ -> task A) :
  (forall st key v, runs (handle st key v)) -> (forall r, runs (k r)) ->
  forall n running waiting st s, length (running ++ waiting) = n ->
  (running = [] -> waiting = []) ->
  Forall (fun c => runs c.2) (running ++ waiting) ->
  steps_to (Par st None running waiting handle k, s)
    (result_of (run_branches handle k (running ++ waiting) (fun st s => run_task oracle (k (Ok st)) s) st s)).
Proof.
  intros Hh Hk n. induction n as [|n IH]; intros running waiting st s Hlen Hne HF.
  - destruct running, waiting; try discriminate Hlen. cbn.
    econstructor; [apply step_drained|]. apply Hk.
  - destruct running as [|[key c] running]; [by rewrite (Hne eq_refl) in Hlen|]. cbn [app run_branches] in *.
    apply Forall_cons in HF as [Hc HF]. cbn in Hc.
    eapply steps_trans; [apply (child_steps st [] key running waiting handle k _ _ (Hc s))|].
    destruct (run_task oracle c s) as [[v|e| |] s1]; cbn [result_of fst snd app];
      try (econstructor; [by apply (step_failed _ st [])|]; apply Hk).
    econstructor; [apply (step_joined _ st [])|]. cbn [app].
    eapply steps_trans; [apply (handler_steps st running waiting handle k _ _ (Hh st key v s1))|].
    destruct (run_task oracle (handle st key v) s1) as [[st'|e| |] s2]; cbn [result_of fst snd];
      try (econstructor; [by apply step_unhandled|]; apply Hk).
    econstructor; [apply step_handled|]. rewrite <- (refill_spec running waiting).
    apply IH.
    + rewrite refill_spec. by injection Hlen.
    + destruct waiting; cbn; [done|]. by destruct running.
    + by rewrite refill_spec.
Qed.

Lemma run_task_steps {A} (t : task A) : runs t.
Proof.
  revert A t. apply (@task_induction _ (fun A t => runs t)).
  - intros A a s. constructor.
  - intros A f k IH s. econstructor; [constructor|]. apply IH.
  - intros A o k IH s. econstructor; [apply (step_await _ o k (oracle o))|]. apply IH.
  - intros A st h running waiting handle k IHh IHr IHw IHhandle IHk s.
    assert (Hb : forall running waiting st s, (running = [] -> waiting = []) ->
      Forall (fun c => runs c.2) (running ++ waiting) ->
      steps_to (Par st None running waiting handle k, s) (result_of (run_branches handle k running
        (run_branches handle k waiting (fun st s => run_task oracle (k (Ok st)) s)) st s))).
    { intros. rewrite <- run_branches_app. by eapply branches_run. }
    destruct h as [h|].
    + eapply steps_trans; [apply (handler_steps st running waiting handle k _ _ (IHh s))|]. cbn.
      destruct (run_task oracle h s) as [[st'|e| |] s2]; cbn [result_of fst snd];
        try (econstructor; [by apply step_unhandled|]; apply IHk).
      econstructor; [apply step_handled|].
      assert (E : run_branches handle k running
          (run_branches handle k waiting (fun st s => run_task oracle (k (Ok st)) s)) st' s2
        = run_branches handle k (refill running waiting).1 (run_branches handle k (refill running waiting).2
            (fun st s => run_task oracle (k (Ok st)) s)) st' s2)
        by (by rewrite <- !run_branches_app, refill_spec).
      change (steps_to (Par st' None (refill running waiting).1 (refill running waiting).2 handle k, s2)
        (result_of (run_branches handle k running
          (run_branches handle k waiting (fun st s => run_task oracle (k (Ok st)) s)) st' s2))).
      rewrite E. apply Hb.
      * destruct waiting; cbn; [done|]. by destruct running.
      * rewrite refill_spec. by apply Forall_app.
    + destruct running as [|c running].
      * econstructor; [apply step_drained|]. apply IHk.
      * apply Hb; [done|]. by apply Forall_app.
Qed.
End Sequential.
