(* ===== verification/Runtime.v ===== *)
(** * The evaluator: its state, its budgets and its errors
    ([runtime/evaluator.rs] the struct, [runtime/limits.rs] what needs sizes and
    rendering, [runtime/host.rs], [emit] and the terminal events of
    [runtime/effects.rs])

    The struct [Evaluator] has fields shared with its forks behind [Arc]s
    ([Task.Shared]), fields that are fixed for a cell ([Setup]) and fields of its
    own ([Local]).  A method is a function from the own fields to a task that
    returns its result and the own fields after it: they keep their changes when a
    method fails. *)

From stdpp Require Import base tactics list strings.
From Stdlib Require Import ZArith NArith Lia.
From S2P Require Import Prelude BTree Text Strings Numbers Syntax Lexer Machine Catalog Value Operators Limits Host Render Sizing Task.

Section Methods.
Context `{StdText} `{JsonText} `{Layout}.

Record Setup := mkSetup {
  catalog : CapabilityCatalog;
  registry : HostRegistry;
  invocation : InvocationCtx;
  limits : RuntimeLimits;
  output_bytes : N;
  cell_id_ : string;
  sensitive_cell : bool;
}.

Record Local := mkLocal {
  env : Environment;
  constructors : list (string * bool);
  committed : list string;
  scope_id : option string;
  current_error : option RuntimeError;
  local_depth : N;
}.

Definition set_env (e : Environment) (l : Local) : Local :=
  mkLocal e (constructors l) (committed l) (scope_id l) (current_error l) (local_depth l).
Definition set_constructors (c : list (string * bool)) (l : Local) : Local :=
  mkLocal (env l) c (committed l) (scope_id l) (current_error l) (local_depth l).
Definition set_committed (c : list string) (l : Local) : Local :=
  mkLocal (env l) (constructors l) c (scope_id l) (current_error l) (local_depth l).
Definition set_current_error (e : option RuntimeError) (l : Local) : Local :=
  mkLocal (env l) (constructors l) (committed l) (scope_id l) e (local_depth l).
Definition set_depth (d : N) (l : Local) : Local :=
  mkLocal (env l) (constructors l) (committed l) (scope_id l) (current_error l) d.

(** ** Methods

    Generic in the fields [L] of the object. *)

Definition TM (L A : Type) : Type := L -> task (RuntimeResult A * L).

#[global] Instance tm_ret {L} : MRet (TM L) := fun A a l => Ret (Ok a, l).
#[global] Instance tm_bind {L} : MBind (TM L) := fun A B k m l =>
  task_bind (m l) (fun r =>
    match r with
    | (Ok a, l') => k a l'
    | (Err e, l') => Ret (Err e, l')
    | (Panicked, l') => Ret (Panicked, l')
    | (OutOfFuel, l') => Ret (OutOfFuel, l')
    end).

Local Abbreviation EM := (TM Local).

Section Generic.
Context {L : Type}.

Definition raise {A} (e : RuntimeError) : TM L A := fun l => Ret (Err e, l).
Definition lift_result {A} (r : RuntimeResult A) : TM L A := fun l => Ret (r, l).
Definition get_local {A} (f : L -> A) : TM L A := fun l => Ret (Ok (f l), l).
Definition modify_local (f : L -> L) : TM L unit := fun l => Ret (Ok tt, f l).

(** [let result = m.await;]: the result as a value, to be returned later. *)
Definition attempt {A} (m : TM L A) : TM L (RuntimeResult A) := fun l =>
  task_bind (m l) (fun '(r, l') => Ret (Ok r, l')).

(** One access of the shared state. *)
Definition access {A} (f : Shared -> A * Shared) : TM L A := fun l =>
  Sync (fun s => (f s).2) (fun s => Ret (Ok (f s).1, l)).

Definition await (o : Op) : TM L (answer_of o) := fun l => Await o (fun a => Ret (Ok a, l)).

(** [for x in xs] with an accumulator. *)
Fixpoint for_em {X A} (body : A -> X -> TM L A) (acc : A) (xs : list X) : TM L A :=
  match xs with
  | [] => mret acc
  | x :: xs' => acc' ← body acc x; for_em body acc' xs'
  end.
End Generic.

(** ** Budgets *)

Definition meter_of (s : Shared) (d : N) : Meter :=
  mkMeter (sh_steps s) (sh_stdout s) (sh_output_used s) d.

Definition put_meter (m : Meter) (s : Shared) : Shared :=
  mkShared (steps m) (stdout m) (output_used m) (node_counter s) (active s) (terminal_selected s)
    (machines s) (next_rc s) (history s) (sort_panics s).

(** A metered operation of [Limits.v], on the shared counters and the own depth. *)
Definition metered_op {A} (op : Metered A) : EM A := fun l =>
  Sync (fun s => put_meter (op (meter_of s (local_depth l))).2 s)
    (fun s => let '(r, m) := op (meter_of s (local_depth l)) in Ret (r, set_depth (depth m) l)).

Variable cfg : Setup.

Definition em_step : EM unit := metered_op (step (limits cfg)).
Definition em_charge_work (units : N) : EM unit := metered_op (charge_work (limits cfg) units).
Definition em_enter_depth : EM unit := metered_op (enter_runtime_depth (limits cfg)).
Definition em_leave_depth : EM unit := modify_local (fun l => set_depth (saturating_sub (local_depth l) 1) l).
Definition em_values_equal (l r : Value) : EM bool := metered_op (values_equal (limits cfg) l r).
Definition em_match_pattern (p : Pattern) (v : Value) : EM (option Environment) :=
  metered_op (match_pattern (limits cfg) p v).
Definition em_push_stdout (text : string) : EM unit :=
  metered_op (push_stdout (limits cfg) (output_bytes cfg) text).
Definition em_reserve_output (bytes : N) : EM unit := metered_op (reserve_output (output_bytes cfg) bytes).

(** [reserve_preview] *)
Definition reserve_preview (preview : string) : Metered unit := fun m =>
  match json_string_encoded_len_bounded preview (remaining_output (output_bytes cfg) m) with
  | None => refuse "output budget exceeded" m
  | Some bytes => reserve_output (output_bytes cfg) bytes m
  end.
Definition em_reserve_preview (preview : string) : EM unit := metered_op (reserve_preview preview).

Definition em_remaining_output : EM N :=
  access (fun s => (remaining_output (output_bytes cfg) (meter_of s 0), s)).

(** [tokio::task::yield_now().await]. *)
Definition yield_now : EM unit := await OpYield.

(** [cooperate]: the iterations counted after the call. *)
Definition cooperate (iterations : N) : EM N :=
  em_charge_work 1;;
  let iterations := saturating_add iterations 1 in
  if (iterations mod 256 =? 0)%N then yield_now;; mret iterations else mret iterations.

Definition ensure_value (v : Value) : RuntimeResult unit :=
  let size := value_size_bounded v (value_bytes (limits cfg)) (runtime_depth (limits cfg)) in
  if (value_bytes (limits cfg) <? size)%N then Err (RELimit "intermediate value budget exceeded") else Ok tt.

Definition ensure_capture (binding_name_bytes : N) : EM unit := fun l =>
  let limit := environment_bytes (limits cfg) in
  let refused := Ret (Err (RELimit "persistent environment budget exceeded"), l) in
  let retained := environment_size_bounded (env l) limit (runtime_depth (limits cfg)) in
  if (limit <? retained)%N then refused
  else
    let remaining := saturating_sub limit retained in
    let clone_cost := environment_clone_size_bounded (env l) remaining (runtime_depth (limits cfg)) in
    let projected :=
      saturating_add (saturating_add (saturating_add (saturating_add retained clone_cost)
        binding_name_bytes) size_of_Callable) size_of_Value in
    if (limit <? projected)%N then refused else Ret (Ok tt, l).

(** [add_value_size]: the bytes allocated after it. *)
Definition add_value_size (allocated : N) (v : Value) (metadata_bytes : N) : RuntimeResult N :=
  let remaining := saturating_sub (value_bytes (limits cfg)) allocated in
  let bytes := value_size_bounded v remaining (runtime_depth (limits cfg)) in
  let next := saturating_add (saturating_add allocated metadata_bytes) bytes in
  if (value_bytes (limits cfg) <? next)%N then Err (RELimit "intermediate value budget exceeded") else Ok next.

(** ** Errors *)

Definition MAX_HOST_ERROR_BYTES : N := 64 * 1024.

Definition host_error_bytes (e : HostError) : N :=
  match e with
  | UnknownScheme scheme registered =>
      foldl (fun bytes value => saturating_add bytes (str_len value)) (str_len scheme) registered
  | CapabilityDenied v | ApprovalDenied v | ApprovalTimeout v | NotFound v | InvalidArgs v
  | InvalidPath v | NotImplemented v | QuotaExceeded v | Timeout_ v | OutputTruncated v | HostCall v =>
      str_len v
  end.

Definition host_error (e : HostError) : RuntimeError :=
  let message := bounded_display (display_host_error e) MAX_HOST_ERROR_BYTES in
  let payload :=
    if (host_error_bytes e <=? MAX_HOST_ERROR_BYTES)%N then payload_to_json (to_payload e)
    else json_object [("name", JString (sdk_name e)); ("message", JString message);
                      ("detailsTruncated", JBool true)]%string in
  REEffect (sdk_name e) message (Some payload).

Definition runtime_event_error (e : HostError) : RuntimeError :=
  REPersistence (bounded_display (display_host_error e) (64 * 1024)).

(** What a handler gets to see of an error. *)
Definition runtime_error_payload (e : RuntimeError) (max_bytes max_depth : N) : Value :=
  let message := VRecord [("message"%string, VString (bounded_display (display_runtime_error e) max_bytes))] in
  match e with
  | REEffect _ _ (Some payload) =>
      if (json_value_size_bounded payload max_bytes max_depth <=? max_bytes)%N
         && match json_encoded_len_bounded payload max_bytes with Some _ => true | None => false end
      then from_json payload else message
  | _ => message
  end.

Definition rethrow_text (v : Value) (preview_bytes max_depth : N) : string :=
  match render_value_bounded v preview_bytes max_depth with
  | Ok text => text
  | _ => "[rethrow payload exceeded budget]"
  end.

Definition rethrow_error (v : Value) (preview_bytes max_depth : N) : RuntimeError :=
  match v with
  | VTagged name payload =>
      let message :=
        match payload with
        | Some (VRecord fields as p) =>
            match bm_get "message" fields with
            | Some (VString message) => bounded message preview_bytes
            | _ => rethrow_text p preview_bytes max_depth
            end
        | Some p => rethrow_text p preview_bytes max_depth
        | None => bounded name preview_bytes
        end in
      let payload :=
        p ← payload;
        if (value_size_bounded p preview_bytes max_depth <=? preview_bytes)%N
        then _ ← value_json_bounded p preview_bytes false max_depth; Some (to_json p) else None in
      REEffect name message payload
  | _ => REEffect "Rethrown" (rethrow_text v preview_bytes max_depth) None
  end.

(** ** Events *)

Definition emit {L} (event : string) (payload : Json) : TM L unit :=
  a ← await (OpEmit event payload);
  match a with
  | inl _ => mret tt
  | inr e => raise (runtime_event_error e)
  end.

(** [if let Some(active) = self.active.lock().as_mut() { .. }]. *)
Definition on_active {L} (f : ActiveExecution -> ActiveExecution) : TM L unit :=
  access (fun s =>
    (tt, mkShared (sh_steps s) (sh_stdout s) (sh_output_used s) (node_counter s) (f <$> active s)
           (terminal_selected s) (machines s) (next_rc s) (history s) (sort_panics s))).

Definition set_active {L} (a : option ActiveExecution) : TM L unit :=
  access (fun s =>
    (tt, mkShared (sh_steps s) (sh_stdout s) (sh_output_used s) (node_counter s) a
           (terminal_selected s) (machines s) (next_rc s) (history s) (sort_panics s))).

Definition store_terminal_selected {L} (b : bool) : TM L unit :=
  access (fun s =>
    (tt, mkShared (sh_steps s) (sh_stdout s) (sh_output_used s) (node_counter s) (active s) b
           (machines s) (next_rc s) (history s) (sort_panics s))).

Definition set_effects (es : list (string * ActiveEffect)) (a : ActiveExecution) : ActiveExecution :=
  mkActive (active_cell_id a) es (active_scopes a) (cell_terminal a) (cell_started a).
Definition set_scopes (ss : list (string * ActiveScope)) (a : ActiveExecution) : ActiveExecution :=
  mkActive (active_cell_id a) (active_effects a) ss (cell_terminal a) (cell_started a).
Definition set_cell_terminal (t : option Json) (a : ActiveExecution) : ActiveExecution :=
  mkActive (active_cell_id a) (active_effects a) (active_scopes a) t (cell_started a).
Definition set_cell_started (a : ActiveExecution) : ActiveExecution :=
  mkActive (active_cell_id a) (active_effects a) (active_scopes a) (cell_terminal a) true.

Definition emit_cell_terminal (payload : Json) : EM unit :=
  store_terminal_selected true;;
  on_active (set_cell_terminal (Some payload));;
  result ← attempt (emit "cell_result" payload);
  set_active None;;
  lift_result result.

Definition terminal_error (payload : Json) (error : RuntimeError) : EM RuntimeError :=
  result ← attempt (emit_cell_terminal payload);
  match result with
  | Ok _ => mret error
  | Err persistence => mret persistence
  | Panicked => lift_result Panicked
  | OutOfFuel => lift_result OutOfFuel
  end.

(** [self.node_counter.fetch_add(1) + 1]. *)
Definition next_node : EM N :=
  access (fun s =>
    ((node_counter s + 1)%N,
     mkShared (sh_steps s) (sh_stdout s) (sh_output_used s) (node_counter s + 1) (active s)
       (terminal_selected s) (machines s) (next_rc s) (history s) (sort_panics s))).

(** [Value::Callable(Rc::new(callable))]. *)
Definition new_callable (c : Callable) : EM Value :=
  access (fun s =>
    (VCallable (next_rc s) c,
     mkShared (sh_steps s) (sh_stdout s) (sh_output_used s) (node_counter s) (active s)
       (terminal_selected s) (machines s) (next_rc s + 1) (history s) (sort_panics s))).

(** [Arc::new(Mutex::new(machine))]: its address. *)
Definition new_machine (m : EffectMachine) : EM nat :=
  access (fun s =>
    (length (machines s),
     mkShared (sh_steps s) (sh_stdout s) (sh_output_used s) (node_counter s) (active s)
       (terminal_selected s) (machines s ++ [m]) (next_rc s) (history s) (sort_panics s))).

(** [machine.lock().operation()]; an address always has a machine. *)
Definition machine_op {L A} (address : nat)
    (operation : EffectMachine -> outcome EffectMachineError A * EffectMachine)
    : TM L (outcome EffectMachineError A) :=
  access (fun s =>
    match machines s !! address with
    | None => (Panicked, s)
    | Some m =>
        let '(r, m') := operation m in
        (r, mkShared (sh_steps s) (sh_stdout s) (sh_output_used s) (node_counter s) (active s)
              (terminal_selected s) (<[address := m']> (machines s)) (next_rc s) (history s) (sort_panics s))
    end).

Definition display_state (st : EffectState) : string :=
  match st with
  | Running => "Running"
  | Suspended => "Suspended"
  | Completed => "Completed"
  | Failed => "Failed"
  | Cancelled => "Cancelled"
  end.

Definition display_machine_error (e : EffectMachineError) : string :=
  match e with
  | InvalidState operation from => "effect transition " ++ operation ++ " is invalid from " ++ display_state from
  | StaleContinuation => "stale or foreign effect continuation"
  end.
End Methods.

Abbreviation EM := (TM Local).

(** The shared text of payloads whose content is withheld. *)
Definition redacted : string := "[redacted]".
