(* ===== verification/Effects.v ===== *)
(** * Host effects and string interpolation ([runtime/effects.rs],
    [TracingApproval] of [runtime/host.rs])

    [perform] calls a host function.  The function runs as its [HostPlan]; an
    approval it asks for goes through the tracing policy, which suspends the
    effect's machine around the request and reports both to the event sink. *)

From stdpp Require Import base tactics list strings.
From Stdlib Require Import ZArith NArith Lia.
From S2P Require Import Prelude BTree Text Strings Numbers Syntax Lexer Parser ScopedMap Machine Catalog Value Operators Limits Host Render Sizing Task Runtime.

Section Effects.
Context `{UnicodeTables} `{JsonStr} `{StdText} `{JsonText} `{Layout} `{BuildProfile}.
Variable cfg : Setup.

Abbreviation cell := (JString (cell_id_ cfg)).

(** ** Approvals under trace *)

(** The event sink has failed: the text of the failure. *)
Definition EventFailure := option string.

(** A step of the tracing policy: a result of the host, and the failure so far. *)
Abbreviation traced A := (EM (outcome HostError A * EventFailure)).

(** [?] on a traced result. *)
Definition traced_bind {A B} (m : traced A) (k : A -> EventFailure -> traced B) : traced B :=
  r ← m;
  match r with
  | (Ok a, failure) => k a failure
  | (Err e, failure) => mret (Err e, failure)
  | (Panicked, failure) => mret (Panicked, failure)
  | (OutOfFuel, failure) => mret (OutOfFuel, failure)
  end.

Definition machine_result {A} (r : outcome EffectMachineError A) : outcome HostError A :=
  match r with
  | Ok a => Ok a
  | Err e => Err (HostCall (display_machine_error e))
  | Panicked => Panicked
  | OutOfFuel => OutOfFuel
  end.

Definition emit_runtime_event (event : string) (payload : Json) (failure : EventFailure) : traced unit :=
  a ← await (OpEmit event payload);
  match a with
  | inl _ => mret (Ok tt, failure)
  | inr e => mret (Err e, Some (bounded_display (display_host_error e) (64 * 1024)))
  end.

Section Tracing.
Variable name node_id : string.
Variable machine : nat.
Variable sensitive : bool.
Variable parent : option string.

Definition node_fields : list (string * Json) :=
  [("cellId", cell); ("nodeId", JString node_id); ("parentNodeId", json_option parent)]%string.

Definition output_refused {A} (failure : EventFailure) : traced A :=
  mret (Err (HostCall "effect/output budget exceeded"), failure).

(** [TracingApproval::request]. *)
Definition tracing_request (action : string) (timeout : N) (failure : EventFailure)
    : traced ApprovalDecision :=
  traced_bind (r ← machine_op machine suspend; mret (machine_result r, failure)) (fun token failure =>
  let action_preview := if sensitive then redacted else bounded action (preview_bytes (limits cfg)) in
  reserved ← attempt (em_reserve_preview cfg action_preview);
  match reserved with
  | Ok _ =>
      traced_bind
        (emit_runtime_event "effect_suspended"
           (json_object (node_fields ++ [("action"%string, JString action_preview)])) failure)
        (fun _ failure =>
      decision ← await (OpApproval name action timeout);
      match decision with
      | inl decision =>
          traced_bind (r ← machine_op machine (resume token); mret (machine_result r, failure))
            (fun _ failure =>
          let decision_name := match decision with Approved => "approved" | Denied => "denied" end%string in
          traced_bind
            (emit_runtime_event "effect_resumed"
               (json_object (node_fields ++ [("decision"%string, JString decision_name)])) failure)
            (fun _ failure => mret (Ok decision, failure)))
      | inr error =>
          traced_bind (r ← machine_op machine fail_; mret (machine_result r, failure))
            (fun _ failure => mret (Err error, failure))
      end)
  | Err _ => output_refused failure
  | Panicked => mret (Panicked, failure)
  | OutOfFuel => mret (OutOfFuel, failure)
  end).

(** The host function runs. *)
Fixpoint run_plan (plan : HostPlan) (failure : EventFailure) : traced Json :=
  match plan with
  | HReturn (inl value) => mret (Ok value, failure)
  | HReturn (inr error) => mret (Err error, failure)
  | HApproval action timeout k =>
      r ← tracing_request action timeout failure;
      match r.1 with
      | Ok decision => run_plan (k (inl decision)) r.2
      | Err error => run_plan (k (inr error)) r.2
      | Panicked => mret (Panicked, r.2)
      | OutOfFuel => mret (OutOfFuel, r.2)
      end
  | HEvent event payload k => a ← await (OpHostEvent name event payload); run_plan (k a) failure
  | HOutside request k => a ← await (OpOutside name request); run_plan (k a) failure
  end.
End Tracing.

(** ** Performing an effect *)

Definition clear_active_effect (node_id : string) : EM unit :=
  on_active (fun a => set_effects (bm_remove node_id (active_effects a)) a).

Definition emit_effect_terminal (node_id : string) (payload : Json) : EM unit :=
  on_active (fun a =>
    match bm_get node_id (active_effects a) with
    | Some e =>
        set_effects (bm_insert node_id (mkActiveEffect (effect_scope_id e) (effect_machine e) (Some payload))
                       (active_effects a)) a
    | None => a
    end);;
  emit "effect_result" payload;;
  clear_active_effect node_id.

Definition json_fits (j : Json) : bool :=
  (json_value_size_bounded j (value_bytes (limits cfg)) (runtime_depth (limits cfg))
     <=? value_bytes (limits cfg))%N
  && match json_encoded_len_bounded j (value_bytes (limits cfg)) with Some _ => true | None => false end.

(** [map_err(|_| error)] of a budget operation. *)
Definition or_limit {A} (m : EM A) (message : string) : EM A :=
  r ← attempt m;
  match r with
  | Err _ => raise (RELimit message)
  | _ => lift_result r
  end.

Definition perform (name : string) (argument : Value) : EM Value :=
  node_index ← next_node;
  let node_id := (cell_id_ cfg ++ "-node-" ++ display_u64 node_index)%string in
  let args := normalize_effect_args name argument in
  if negb (json_fits args) then raise (RELimit "effect argument value budget exceeded")
  else
  let sensitive := match effect_ (catalog cfg) name with Some _ => true | None => false end in
  let preview := if sensitive then redacted else json_preview_bounded args (preview_bytes (limits cfg)) in
  or_limit (em_reserve_preview cfg preview) "effect/output budget exceeded";;
  scope ← get_local scope_id;
  let fields := node_fields node_id scope in
  machine ← new_machine (machine_new (cell_id_ cfg) node_id (session_id (invocation cfg)));
  on_active (fun a => set_effects (bm_insert node_id (mkActiveEffect scope machine None) (active_effects a)) a);;
  started ← attempt (emit "effect_start"
    (json_object (fields ++ [("capability", JString name); ("argsPreview", JString preview)]%string)));
  match started with
  | Err error => clear_active_effect node_id;; raise error
  | Panicked => lift_result Panicked
  | OutOfFuel => lift_result OutOfFuel
  | Ok _ =>
  outcome ← run_plan name node_id machine sensitive scope
               (invoke name args (invocation cfg) (registry cfg)) None;
  let '(invoked, failure) := outcome in
  let failed error := json_object (fields ++ [("status", JString "failed"); ("error", JString error)]%string) in
  match failure with
  | Some error => machine_op machine fail_;; raise (REPersistence error)
  | None =>
  match invoked with
  | Panicked => lift_result Panicked
  | OutOfFuel => lift_result OutOfFuel
  | Ok value =>
      if negb (json_fits value) then
        machine_op machine fail_;;
        emit_effect_terminal node_id (failed redacted);;
        raise (RELimit "effect result value budget exceeded")
      else
      let result_preview :=
        if sensitive then redacted else json_preview_bounded value (preview_bytes (limits cfg)) in
      reserved ← attempt (em_reserve_preview cfg result_preview);
      match reserved with
      | Err _ =>
          machine_op machine fail_;;
          emit_effect_terminal node_id (failed redacted);;
          raise (RELimit "effect/output budget exceeded")
      | Panicked => lift_result Panicked
      | OutOfFuel => lift_result OutOfFuel
      | Ok _ =>
          completed ← machine_op machine complete;
          match completed with
          | Err error => raise (REEffect "EffectStateError" (display_machine_error error) None)
          | Panicked => lift_result Panicked
          | OutOfFuel => lift_result OutOfFuel
          | Ok _ =>
              emit_effect_terminal node_id
                (json_object (fields ++ [("status", JString "completed");
                                         ("resultPreview", JString result_preview)]%string));;
              let value := from_json value in
              lift_result (ensure_value cfg value);;
              mret value
          end
      end
  | Err error =>
      machine_op machine fail_;;
      let error_preview :=
        if sensitive then redacted
        else bounded_display (display_host_error error) (preview_bytes (limits cfg)) in
      reserved ← attempt (em_reserve_preview cfg error_preview);
      match reserved with
      | Err _ =>
          emit_effect_terminal node_id (failed redacted);;
          raise (RELimit "effect/output budget exceeded")
      | Panicked => lift_result Panicked
      | OutOfFuel => lift_result OutOfFuel
      | Ok _ =>
          emit_effect_terminal node_id (failed error_preview);;
          raise (host_error error)
      end
  end end end.

(** ** Interpolation *)

(** The text of a fragment up to its closing brace, and what follows; [depth]
    counts the open braces. *)
Fixpoint fragment_of (depth : nat) (cs : list char) : option (list char * list char) :=
  match cs with
  | [] => None
  | c :: cs' =>
      if (c =? chr "}")%N then
        match depth with
        | S (S d) => '(inside, after) ← fragment_of (S d) cs'; Some (c :: inside, after)
        | _ => Some ([], cs')
        end
      else
        '(inside, after) ← fragment_of (if (c =? chr "{")%N then S depth else depth) cs';
        Some (c :: inside, after)
  end.

(** The longest name at the head of the text, and what follows. *)
Fixpoint name_of (cs : list char) : list char * list char :=
  match cs with
  | c :: cs' =>
      if (c =? chr "_")%N || is_alphanumeric c
      then let '(name, after) := name_of cs' in (c :: name, after) else ([], cs)
  | [] => ([], [])
  end.

Definition diagnostic_result {A} (r : outcome Diagnostic A) : RuntimeResult A :=
  match r with
  | Ok a => Ok a
  | Err d => Err (REDiagnostic d)
  | Panicked => Panicked
  | OutOfFuel => OutOfFuel
  end.

Section Interpolate.
(** The evaluation of an expression. *)
Variable expr : Expr -> EM Value.

Definition render_into (output : string) (v : Value) : RuntimeResult string :=
  rendered ← render_value_bounded v (saturating_sub (value_bytes (limits cfg)) (str_len output))
               (runtime_depth (limits cfg));
  push_interpolation (limits cfg) output rendered.

(** The [while] loop; the chars not yet read, at most [fuel] of them. *)
Fixpoint interpolate_from (fuel : nat) (output : string) (cs : list char) : EM string :=
  match fuel with
  | O => lift_result OutOfFuel
  | S fuel' =>
      match cs with
      | [] => mret output
      | c :: rest =>
          if (c =? chr "\")%N && match rest with d :: _ => (d =? chr "#")%N | [] => false end then
            interpolate_from fuel' (output ++ "#") (drop 1 rest)
          else if negb (c =? chr "#")%N then interpolate_from fuel' (output ++ of_chars [c]) rest
          else
            match rest with
            | d :: inside =>
                if (d =? chr "{")%N then
                  match fragment_of 1 inside with
                  | None => raise (REType "unterminated string interpolation")
                  | Some (fragment, after) =>
                      parsed ← lift_result (diagnostic_result (parse_bounded fragment
                        (source_bytes (limits cfg)) (syntax_nodes (limits cfg)) (parse_depth (limits cfg))));
                      match forms parsed with
                      | [f] =>
                          match node f with
                          | FExpr e =>
                              value ← expr e;
                              output ← lift_result (render_into output value);
                              interpolate_from fuel' output after
                          | _ => raise (REType "interpolation must contain one expression")
                          end
                      | _ => raise (REType "interpolation must contain one expression")
                      end
                  end
                else
                  let '(name, after) := name_of rest in
                  match name with
                  | [] => interpolate_from fuel' (output ++ "#") rest
                  | _ =>
                      e ← get_local env;
                      match bm_get (of_chars name) e with
                      | None => raise (REType ("unbound interpolation name " ++ of_chars name))
                      | Some value =>
                          output ← lift_result (render_into output value);
                          interpolate_from fuel' output after
                      end
                  end
            | [] => interpolate_from fuel' (output ++ "#") rest
            end
      end
  end.

Definition interpolate (source : string) : EM string :=
  interpolate_from (S (length (chars source))) "" (chars source).
End Interpolate.
End Effects.
