(* ===== verification/Parallel.v ===== *)
(** * Parallel scopes ([runtime/parallel.rs])

    A scope runs its branches as children of one [Par]; a branch is a fork of the
    evaluator.  When a branch fails the others are dropped, and the effects and the
    nested scopes they leave behind are reported as cancelled, the deepest first,
    before the scope itself ends. *)

From stdpp Require Import base tactics list strings.
From Stdlib Require Import ZArith NArith Lia.
From S2P Require Import Prelude BTree Text Strings Numbers Syntax Lexer Machine Catalog Value Operators Limits Host Render Sizing Task Runtime ScopedMap Effects.

(** [slice::sort_by] with a total order: stable, by insertion. *)
Fixpoint insert_by {X} (cmp : X -> X -> comparison) (x : X) (l : list X) : list X :=
  match l with
  | [] => [x]
  | y :: l' => match cmp x y with Gt => y :: insert_by cmp x l' | _ => x :: l end
  end.
Definition sort_by {X} (cmp : X -> X -> comparison) (l : list X) : list X :=
  foldr (insert_by cmp) [] l.

Definition key_compare (a b : PKey) : comparison :=
  match a, b with
  | KField x, KField y => String.compare x y
  | KIndex x, KIndex y => N.compare x y
  | KField _, KIndex _ => Lt
  | KIndex _, KField _ => Gt
  end.

(** ** The subtree of a scope *)

(** One pass over the scopes: the depths found so far, and whether one is new. *)
Definition discover_pass {X} (parent : X -> option string) (scopes : list (string * X))
    (depths : list (string * N)) : list (string * N) * bool :=
  foldl (fun '(depths, changed) '(node, child) =>
    if bm_contains node depths then (depths, changed)
    else
      match (p ← parent child; bm_get p depths) with
      | None => (depths, changed)
      | Some parent_depth => (bm_insert node (saturating_add parent_depth 1) depths, true)
      end) (depths, false) scopes.

(** The loop; a pass that changes anything finds a scope. *)
Fixpoint discover {X} (fuel : nat) (parent : X -> option string) (scopes : list (string * X))
    (depths : list (string * N)) : option (list (string * N)) :=
  match fuel with
  | O => None
  | S fuel' =>
      let '(depths, changed) := discover_pass parent scopes depths in
      if changed then discover fuel' parent scopes depths else Some depths
  end.

Section Parallel.
Context `{UnicodeTables} `{JsonStr} `{StdText} `{JsonText} `{Layout} `{BuildProfile}.
Variable cfg : Setup.

Definition scope_fields (node : string) (parent : option string) : list (string * Json) :=
  [("cellId", JString (cell_id_ cfg)); ("nodeId", JString node); ("parentNodeId", json_option parent)]%string.

Definition fork_child (scope : string) (l : Local) : Local :=
  mkLocal (env l) (constructors l) [] (Some scope) (current_error l) (local_depth l).

Definition start_scope (kind : string) (total : option N) : EM string :=
  index ← next_node;
  let node := (cell_id_ cfg ++ "-scope-" ++ display_u64 index)%string in
  parent ← get_local scope_id;
  on_active (fun a => set_scopes (bm_insert node (mkActiveScope total 0 parent None) (active_scopes a)) a);;
  started ← attempt (emit "scope_start"
    (json_object (scope_fields node parent
       ++ [("kind", JString kind); ("total", from_option json_usize JNull total)]%string)));
  match started with
  | Err error =>
      on_active (fun a => set_scopes (bm_remove node (active_scopes a)) a);;
      raise error
  | Ok _ => mret node
  | Panicked => lift_result Panicked
  | OutOfFuel => lift_result OutOfFuel
  end.

Definition finish_scope (node : string) (error : option RuntimeError) (cancelled_siblings : N) : EM unit :=
  parent ← get_local scope_id;
  let fields := scope_fields node parent in
  payload ←
    match error with
    | Some error =>
        let error_preview :=
          if sensitive_cell cfg then redacted
          else bounded_display (display_runtime_error error) (preview_bytes (limits cfg)) in
        reserved ← attempt (em_reserve_preview cfg error_preview);
        match reserved with
        | Ok _ =>
            mret (json_object (fields ++ [("status", JString "failed"); ("error", JString error_preview);
                                          ("cancelledSiblings", json_usize cancelled_siblings)]%string))
        | Err _ =>
            mret (json_object (fields ++ [("status", JString "failed"); ("errorTruncated", JBool true);
                                          ("cancelledSiblings", json_usize cancelled_siblings)]%string))
        | Panicked => lift_result Panicked
        | OutOfFuel => lift_result OutOfFuel
        end
    | None => mret (json_object (fields ++ [("status", JString "completed")]%string))
    end;
  on_active (fun a =>
    match bm_get node (active_scopes a) with
    | Some s =>
        set_scopes (bm_insert node (mkActiveScope (scope_total s) (scope_completed s) (parent_node_id s)
                      (Some payload)) (active_scopes a)) a
    | None => a
    end);;
  emit "scope_result" payload;;
  on_active (fun a => set_scopes (bm_remove node (active_scopes a)) a).

(** ** Cancelling what a failed scope leaves *)

(** The deepest first, then by name. *)
Definition descendant_compare (a b : string * ActiveScope * N) : comparison :=
  then_with (N.compare b.2 a.2) (String.compare a.1.1 b.1.1).

Record Cancellation := mkCancellation {
  cancel_effects : list (string * ActiveEffect);
  cancel_scopes : list (string * ActiveScope * N);
  cancelled_siblings : N;
}.

(** The part under the lock: what is to be reported, and the execution without it.
    [None]: the loop has not finished. *)
Definition take_scope (scope : string) (a : ActiveExecution) : option (Cancellation * ActiveExecution) :=
  let siblings :=
    match bm_get scope (active_scopes a) with
    | Some s =>
        match scope_total s with
        | Some total => saturating_sub (saturating_sub total (scope_completed s)) 1
        | None => 0%N
        end
    | None => 0%N
    end in
  depths ← discover (S (length (active_scopes a))) parent_node_id (active_scopes a) [(scope, 0%N)];
  let below (e : string * ActiveEffect) :=
    match effect_scope_id e.2 with Some s => bm_contains s depths | None => false end in
  let effects := List.filter below (active_effects a) in
  let remaining_effects := List.fold_left (fun es e => bm_remove (fst e) es) effects (active_effects a) in
  let descendants :=
    omap (fun '(node, depth) =>
      if String.eqb node scope then None
      else s ← bm_get node (active_scopes a); Some (node, s, depth)) depths in
  let remaining_scopes := List.fold_left (fun ss d => bm_remove (fst (fst d)) ss) descendants (active_scopes a) in
  Some (mkCancellation effects (sort_by descendant_compare descendants) siblings,
        set_scopes remaining_scopes (set_effects remaining_effects a)).

(** The payload of a cancelled effect: its terminal if it has one. *)
Definition cancel_effect {L} (status : string) (fields : list (string * Json)) (effect : ActiveEffect) : TM L Json :=
  match effect_terminal effect with
  | Some terminal => mret terminal
  | None =>
      machine_op (effect_machine effect) cancel;;
      mret (json_object (fields ++ [("status", JString status); ("error", JString redacted)]%string))
  end.

Definition cancel_scope_effects (scope : string) : EM N :=
  taken ← access (fun s =>
    match active s with
    | None => (Some None, s)
    | Some a =>
        match take_scope scope a with
        | None => (None, s)
        | Some (c, a') =>
            (Some (Some c),
             mkShared (sh_steps s) (sh_stdout s) (sh_output_used s) (node_counter s) (Some a')
               (terminal_selected s) (machines s) (next_rc s) (history s) (sort_panics s))
        end
    end);
  match taken with
  | None => lift_result OutOfFuel
  | Some None => mret 0%N
  | Some (Some c) =>
      for_em (fun _ '(node_id, effect) =>
        payload ← cancel_effect "cancelled" (scope_fields node_id (effect_scope_id effect)) effect;
        emit "effect_result" payload) tt (cancel_effects c);;
      for_em (fun _ '(node_id, child, _) =>
        let payload :=
          default (json_object (scope_fields node_id (parent_node_id child)
            ++ [("status", JString "cancelled"); ("error", JString redacted)]%string)) (scope_terminal child) in
        emit "scope_result" payload) tt (cancel_scopes c);;
      mret (cancelled_siblings c)
  end.

(** ** Running branches *)

(** A branch on a fork; the fork is dropped with its result. *)
Definition branch (scope : string) (l : Local) (m : EM Value) : task (RuntimeResult Value) :=
  task_bind (m (fork_child scope l)) (fun r => Ret r.1).

(** What the loop does with a value. *)
Definition collect (scope : string) (total : N) (l : Local) (st : ParState) (key : PKey) (v : Value)
    : task (RuntimeResult ParState) :=
  task_bind
    ((let completed := (par_completed st + 1)%N in
      allocated ← lift_result (add_value_size cfg (par_allocated st) v 0);
      on_active (fun a =>
        match bm_get scope (active_scopes a) with
        | Some s =>
            set_scopes (bm_insert scope (mkActiveScope (scope_total s) completed (parent_node_id s)
                          (scope_terminal s)) (active_scopes a)) a
        | None => a
        end);;
      emit "scope_progress"
        (json_object (scope_fields scope (scope_id l)
           ++ [("completed", json_usize completed); ("total", json_usize total)]%string));;
      mret (mkPar completed allocated (par_output st ++ [(key, v)]))) l)
    (fun r => Ret r.1).

Definition run_parallel (work : list (PKey * EM Value)) (scope : string) : EM (list (PKey * Value)) := fun l =>
  match work with
  | [] => Ret (Ok [], l)
  | _ =>
      let total := len work in
      let width := N.to_nat (N.min (N.max (parallelism (limits cfg)) 1) total) in
      let branches := List.map (fun '(key, m) => (key, branch scope l m)) work in
      Par (mkPar 0 0 []) None (take width branches) (drop width branches) (collect scope total l)
        (fun r =>
           match r with
           | Ok st => Ret (Ok (sort_by (fun a b => key_compare a.1 b.1) (par_output st)), l)
           | _ => Ret (no_value r, l)
           end)
  end.

(** The end of a scope: on an error the rest is cancelled first. *)
Definition end_scope (node : string) (result : RuntimeResult Value) : EM Value :=
  match result with
  | Ok _ => finish_scope node None 0;; lift_result result
  | Err error =>
      cancelled ← cancel_scope_effects node;
      finish_scope node (Some error) cancelled;;
      lift_result result
  | _ => lift_result result
  end.

Definition field_of (o : PKey * Value) : option (string * Value) :=
  match o with (KField name, v) => Some (name, v) | _ => None end.

Definition parallel_expr (expr : Expr -> EM Value) (e : Expr) : EM Value :=
  let total := match node e with ERecord fields => len fields | _ => 1%N end in
  scope ← start_scope "par" (Some total);
  result ←
    match node e with
    | ERecord fields =>
        attempt
          (values ← run_parallel (List.map (fun '(name, e) => (KField name, expr e)) fields) scope;
           mret (VRecord (bm_from (omap field_of values))))
    | _ => attempt (fun l => task_bind (branch scope l (expr e)) (fun r => Ret (r, l)))
    end;
  end_scope scope result.

Definition parallel (v : Value) : EM Value :=
  scope ← start_scope "par" None;
  finish_scope scope None 0;;
  mret v.

Definition parallel_map (apply : Value -> Value -> EM Value) (args : list Value) : EM Value :=
  '(function, values) ← lift_result (list_call_args args "par map");
  scope ← start_scope "par_map" (Some (len values));
  result ← attempt
    (outputs ← run_parallel (imap (fun i v => (KIndex (N.of_nat i), apply function v)) values) scope;
     mret (VList outputs.*2));
  end_scope scope result.
End Parallel.
