(* ===== verification/Builtins.v ===== *)
(** * The functions of the prelude ([runtime/builtins.rs])

    One definition per arm of the [match] on the name; [builtin] finds the arm.
    Indexing the arguments out of range panics.  [slice::sort_by] with the
    comparison of sort keys is the parameter [KeySort]: the comparison is not
    always a total order, and then the standard library leaves the order open and
    may panic ([None]). *)

From stdpp Require Import base tactics list strings.
From Stdlib Require Import ZArith NArith Lia Permutation.
From S2P Require Import Prelude BTree Text Strings Numbers Syntax Lexer ScopedMap Machine Catalog Value Operators Limits Host Render RenderFacts Sizing Task Runtime Effects Parallel.

Class KeySort := { sort_keyed : list (Value * Value) -> option (list (Value * Value)) }.

Definition keyed_compare (a b : Value * Value) : comparison := compare_sort_keys a.1 b.1.

(** The keys of the list are totally ordered by the comparison. *)
Definition keys_ordered (l : list (Value * Value)) : Prop :=
  forall a b c, In a l -> In b l -> In c l ->
    composes (keyed_compare a b) (keyed_compare b c) (keyed_compare a c).

(** What the standard library promises of a stable sort. *)
Class KeySortLaws `{KeySort} := {
  sort_keyed_perm l l' : sort_keyed l = Some l' -> Permutation l l';
  sort_keyed_ordered l : keys_ordered l -> sort_keyed l = Some (sort_by keyed_compare l);
}.

Section Builtins.
Context `{UnicodeTables} `{JsonStr} `{StdText} `{JsonText} `{Layout} `{BuildProfile} `{KeySort}.
Variable cfg : Setup.
(** The application of a callable. *)
Variable apply : Value -> Value -> EM Value.

(** [args[i]]. *)
Definition arg (args : list Value) (i : nat) : EM Value :=
  match args !! i with
  | Some v => mret v
  | None => lift_result Panicked
  end.

Definition type_error {A} (message : string) : EM A := raise (REType message).
Definition render_limit (v : Value) (limit : N) : RuntimeResult string :=
  render_value_bounded v limit (runtime_depth (limits cfg)).

Definition builtin_print (args : list Value) : EM Value :=
  v ← arg args 0;
  remaining ← em_remaining_output cfg;
  text ← lift_result (render_limit v (N.min (value_bytes (limits cfg)) remaining));
  em_push_stdout cfg text;;
  mret VNull.

Definition display_error : RuntimeError := RELimit "display/output budget exceeded".

(** The payload of a display event. *)
Definition display_payload (spec value : Value) : EM Json :=
  if sensitive_cell cfg then
    mret (json_object [("cellId", JString (cell_id_ cfg)); ("spec", JString redacted);
                       ("value", JString redacted)]%string)
  else
    remaining ← em_remaining_output cfg;
    match value_json_bounded spec remaining false (runtime_depth (limits cfg)) with
    | None => raise display_error
    | Some (spec_bytes, _) =>
        match value_json_bounded value (saturating_sub remaining spec_bytes) false
                (runtime_depth (limits cfg)) with
        | None => raise display_error
        | Some (value_bytes, _) =>
            let control_bytes := saturating_add (str_len (cell_id_ cfg)) 32 in
            let total := saturating_add (saturating_add spec_bytes value_bytes) control_bytes in
            if (remaining <? total)%N then raise display_error
            else mret (json_object [("cellId", JString (cell_id_ cfg)); ("spec", to_json spec);
                                    ("value", to_json value)]%string)
        end
    end.

Definition builtin_display (args : list Value) : EM Value :=
  payload ←
    (if sensitive_cell cfg then display_payload VNull VNull
     else spec ← arg args 0; value ← arg args 1; display_payload spec value);
  remaining ← em_remaining_output cfg;
  match json_encoded_len_bounded payload remaining with
  | None => raise display_error
  | Some payload_bytes =>
      or_limit (em_reserve_output cfg payload_bytes) "display/output budget exceeded";;
      emit "display" payload;;
      arg args 1
  end.

Definition builtin_length (args : list Value) : EM Value :=
  v ← arg args 0;
  match v with
  | VList vs => mret (VInt (Z.of_nat (length vs)))
  | VString s => mret (VInt (Z.of_nat (length (chars s))))
  | VRecord fields => mret (VInt (Z.of_nat (length fields)))
  | other => type_error ("length on " ++ kind other)
  end.

(** The locals of the loops that build a list: the result, the bytes allocated
    and the iterations. *)
Definition Building := (list Value * N * N)%type.
Definition build_nothing : Building := ([], 0%N, 0%N).

Definition build_push (b : Building) (v : Value) : EM Building :=
  let '(result, allocated, iterations) := b in
  allocated ← lift_result (add_value_size cfg allocated v 0);
  mret (result ++ [v], allocated, iterations).

Definition build_cooperate (b : Building) : EM Building :=
  let '(result, allocated, iterations) := b in
  iterations ← cooperate cfg iterations;
  mret (result, allocated, iterations).

Definition built (b : Building) : Value := VList b.1.1.

(** The strings of an iterator, as values. *)
Definition build_strings (parts : list string) : EM Value :=
  b ← for_em (fun b part => b ← build_cooperate b; build_push b (VString part)) build_nothing parts;
  mret (built b).

Definition builtin_lines (args : list Value) : EM Value :=
  v ← arg args 0;
  match v with
  | VString s => build_strings (lines s)
  | other => type_error ("lines on " ++ kind other)
  end.

Definition builtin_split (args : list Value) : EM Value :=
  d ← arg args 0; v ← arg args 1;
  match d, v with
  | VString delimiter, VString value => build_strings (split delimiter value)
  | _, _ => type_error "split requires strings"
  end.

Definition builtin_contains (args : list Value) : EM Value :=
  n ← arg args 0; v ← arg args 1;
  match n, v with
  | VString needle, VString value => mret (VBool (str_contains needle value))
  | _, _ => type_error "contains requires strings"
  end.

Definition builtin_take (args : list Value) : EM Value :=
  n ← arg args 0; v ← arg args 1;
  match n, v with
  | VInt count, VList values => mret (VList (take_n (Z.to_N (Z.max count 0)) values))
  | _, _ => type_error "take requires count and list"
  end.

Definition builtin_merge (args : list Value) : EM Value :=
  u ← arg args 0; b ← arg args 1;
  match u, b with
  | VRecord update, VRecord base =>
      '(result, _) ← for_em (fun '(result, allocated) '(name, value) =>
        allocated ← lift_result (add_value_size cfg allocated value (str_len name));
        mret (bm_insert name value result, allocated)) ([], 0%N) (base ++ update);
      mret (VRecord result)
  | _, _ => type_error "merge requires records"
  end.

(** [map], [select] and [aggregate]. *)
Definition builtin_map (name : string) (args : list Value) : EM Value :=
  '(function, values) ← lift_result (list_call_args args name);
  b ← for_em (fun b value =>
    b ← build_cooperate b;
    value ← apply function value;
    build_push b value) build_nothing values;
  mret (built b).

Definition builtin_flatmap (args : list Value) : EM Value :=
  '(function, values) ← lift_result (list_call_args args "flatmap");
  b ← for_em (fun b value =>
    b ← build_cooperate b;
    r ← apply function value;
    match r with
    | VList items => for_em (fun b item => b ← build_cooperate b; build_push b item) b items
    | other => type_error ("flatmap returned " ++ kind other)
    end) build_nothing values;
  mret (built b).

(** [filter] and [where]. *)
Definition builtin_filter (name : string) (args : list Value) : EM Value :=
  '(function, values) ← lift_result (list_call_args args name);
  b ← for_em (fun b value =>
    b ← build_cooperate b;
    r ← apply function value;
    match r with
    | VBool true => build_push b value
    | _ => mret b
    end) build_nothing values;
  mret (built b).

(** The list whose sort panicked, for the statements about panics. *)
Definition note_sort_panic (keyed : list (Value * Value)) : EM unit :=
  access (fun s =>
    (tt, mkShared (sh_steps s) (sh_stdout s) (sh_output_used s) (node_counter s) (active s)
           (terminal_selected s) (machines s) (next_rc s) (history s) (keyed :: sort_panics s))).

Definition builtin_sort_by (args : list Value) : EM Value :=
  function ← arg args 0;
  direction ← arg args 1;
  let descending := match direction with VString d => String.eqb d "desc" | _ => false end in
  items ← arg args 2;
  match items with
  | VList values =>
      '(keyed, _, _) ← for_em (fun '(keyed, allocated, iterations) value =>
        iterations ← cooperate cfg iterations;
        key ← apply function value;
        allocated ← lift_result (add_value_size cfg allocated key 0);
        allocated ← lift_result (add_value_size cfg allocated value 0);
        mret (keyed ++ [(key, value)], allocated, iterations)) ([], 0%N, 0%N) values;
      let sort_work := saturating_mul (N.log2 (N.max (len keyed) 1) + 1) (len keyed) in
      em_charge_work cfg sort_work;;
      yield_now;;
      match sort_keyed keyed with
      | None => note_sort_panic keyed;; lift_result Panicked
      | Some sorted => mret (VList (if descending then rev sorted.*2 else sorted.*2))
      end
  | _ => type_error "sort_by requires a list"
  end.

Definition builtin_group_by (args : list Value) : EM Value :=
  '(function, values) ← lift_result (list_call_args args "group_by");
  '(groups, _, _) ← for_em (fun '(groups, allocated, iterations) value =>
    iterations ← cooperate cfg iterations;
    key ← apply function value;
    group ← lift_result (group_key (runtime_depth (limits cfg)) key
                           (saturating_sub (value_bytes (limits cfg)) allocated));
    allocated ←
      (if bm_contains group groups then mret allocated
       else lift_result (add_value_size cfg allocated key (str_len group)));
    allocated ← lift_result (add_value_size cfg allocated value 0);
    let '(first_key, rows) := default (key, []) (bm_get group groups) in
    mret (bm_insert group (first_key, rows ++ [value]) groups, allocated, iterations))
    ([], 0%N, 0%N) values;
  mret (VList (List.map (fun '(_, (key, rows)) =>
    VRecord (bm_from [("key"%string, key); ("rows"%string, VList rows)])) groups)).

(** [try_fold] with [checked_add]. *)
Definition sum_ints (values : list Value) : option Z :=
  foldl (fun total value =>
    total ← total; match value with VInt z => i64_checked_add total z | _ => None end) (Some 0%Z) values.

Fixpoint sum_decimals (total : f64) (values : list Value) : RuntimeResult f64 :=
  match values with
  | [] => Ok total
  | VInt z :: values' => sum_decimals (f64_add total (f64_of_i64 z)) values'
  | VDecimal f :: values' => sum_decimals (f64_add total f) values'
  | other :: _ => Err (REType ("sum on " ++ kind other))
  end.

Definition builtin_sum (args : list Value) : EM Value :=
  v ← arg args 0;
  match v with
  | VList values =>
      em_charge_work cfg (saturating_mul (len values) 2);;
      yield_now;;
      if forallb (fun v => match v with VInt _ => true | _ => false end) values then
        match sum_ints values with
        | Some total => mret (VInt total)
        | None => type_error "integer overflow in sum"
        end
      else
        total ← lift_result (sum_decimals (SpecFloat.S754_zero false) values);
        mret (VDecimal total)
  | other => type_error ("sum on " ++ kind other)
  end.

Definition builtin_help (args : list Value) : EM Value :=
  v ← arg args 0;
  let text := render ← lift_result (render_limit v (value_bytes (limits cfg))); mret (VString render) in
  match v with
  | VCallable _ (CCapability name) =>
      match host_docs name (registry cfg) with
      | inr e => raise (host_error e)
      | inl docs =>
          let docs := docs_to_json docs in
          if (value_bytes (limits cfg)
                <? json_value_size_bounded docs (value_bytes (limits cfg)) (runtime_depth (limits cfg)))%N
          then raise (RELimit "capability docs value budget exceeded")
          else mret (from_json docs)
      end
  | _ => text
  end.

Definition builtin_rethrow (args : list Value) : EM Value :=
  current ← get_local current_error;
  match current with
  | Some e => raise e
  | None =>
      v ← arg args 0;
      raise (rethrow_error v (preview_bytes (limits cfg)) (runtime_depth (limits cfg)))
  end.

Definition builtin_arms : list (string * (list Value -> EM Value)) :=
  [("print", builtin_print);
   ("display", builtin_display);
   ("length", builtin_length);
   ("lines", builtin_lines);
   ("split", builtin_split);
   ("contains", builtin_contains);
   ("take", builtin_take);
   ("merge", builtin_merge);
   ("map", builtin_map "map");
   ("flatmap", builtin_flatmap);
   ("filter", builtin_filter "filter");
   ("where", builtin_filter "where");
   ("select", builtin_map "select");
   ("aggregate", builtin_map "aggregate");
   ("sort_by", builtin_sort_by);
   ("group_by", builtin_group_by);
   ("sum", builtin_sum);
   ("table", fun args => arg args 0);
   ("par_map", parallel_map cfg apply);
   ("par", fun args => v ← arg args 0; parallel cfg v);
   ("help", builtin_help);
   ("rethrow", builtin_rethrow)]%string.

Definition builtin (name : string) (args : list Value) : EM Value :=
  value ←
    match bm_get name builtin_arms with
    | Some arm => arm args
    | None => type_error ("unsupported prelude function " ++ name)
    end;
  lift_result (ensure_value cfg value);;
  mret value.
End Builtins.
