(* ===== verification/Evaluator.v ===== *)
(** * The evaluator ([runtime/evaluator.rs])

    [expr] and [apply] call each other through forms, prelude functions,
    interpolations and parallel branches; each enters a nesting level first, so a
    call chain has at most [runtime_depth] of them.  The definitions below take the
    recursive calls as an argument; [evaluate] ties the knot with one unit of fuel
    per nesting level. *)

From stdpp Require Import base tactics list strings.
From Stdlib Require Import ZArith NArith Lia.
From S2P Require Import Prelude BTree Text Strings Numbers Syntax Lexer Parser ScopedMap Machine Catalog Value Operators Limits Host Render Sizing Task Runtime Effects Parallel Builtins.

(** A recursive call. *)
Inductive Call := CallExpr (e : Expr) | CallApply (function argument : Value).

Section Evaluator.
Context `{UnicodeTables} `{JsonStr} `{StdText} `{JsonText} `{Layout} `{BuildProfile} `{KeySort}.
Variable cfg : Setup.

(** [self.enter_runtime_depth()?; let r = body.await; self.leave_runtime_depth(); r]. *)
Definition deeper {A} (body : EM A) : EM A :=
  em_enter_depth cfg;;
  result ← attempt body;
  em_leave_depth;;
  lift_result result.

(** [let old = self.env.clone(); .. let result = body.await; self.env = old; result]. *)
Definition with_env {A} (change : Environment -> Environment) (body : EM A) : EM A :=
  old ← get_local env;
  modify_local (set_env (change old));;
  result ← attempt body;
  modify_local (set_env old);;
  lift_result result.

(** [entry(name).or_insert(value)]. *)
Definition or_insert {V} (name : string) (v : V) (m : list (string * V)) : list (string * V) :=
  match bm_get name m with
  | Some _ => m
  | None => bm_insert name v m
  end.

Definition row_function (name : string) : bool :=
  existsb (String.eqb name) ["where"; "select"; "sort_by"; "group_by"; "aggregate"]%string.

(** [columns.entry(name).or_default().push(value)], for every field of every row. *)
Definition columns_of (rows : list Value) : list (string * list Value) :=
  foldl (fun columns row =>
    match row with
    | VRecord fields =>
        foldl (fun columns '(name, value) =>
          bm_insert name (default [] (bm_get name columns) ++ [value]) columns) columns fields
    | _ => columns
    end) [] rows.

(** The environment of a row function: the captured one, the row and its fields,
    and for a group also its size and its columns. *)
Definition row_env (argument : Value) (captured : Environment) : Environment :=
  match argument with
  | VRecord fields =>
      let e := bm_insert "row" argument captured in
      let e := foldl (fun e '(name, value) => or_insert name value e) e fields in
      match bm_get "rows" fields with
      | Some (VList rows) =>
          let e := or_insert "count" (VInt (Z.of_nat (length rows))) e in
          foldl (fun e '(name, values) => or_insert name (VList values) e) e (columns_of rows)
      | _ => e
      end
  | _ => bm_insert "row" argument captured
  end.

(** The environment of a function: the captured one, with the callables of the
    caller's under the names it does not have. *)
Definition call_env (captured old : Environment) : Environment :=
  foldl (fun e '(name, value) =>
    match value with VCallable _ _ => or_insert name value e | _ => e end) captured old.

Section Open.
Variable rec : Call -> EM Value.

Definition rec_expr (e : Expr) : EM Value := rec (CallExpr e).
Definition rec_apply (function argument : Value) : EM Value := rec (CallApply function argument).

(** [self.env.insert(name, value); if persistent { self.committed.insert(name); }]. *)
Definition bind_name (persistent : bool) (name : string) (v : Value) : EM unit :=
  modify_local (fun l => set_env (bm_insert name v (env l)) l);;
  if persistent then modify_local (fun l => set_committed (bs_insert name (committed l)) l) else mret tt.

Definition form (f : Form) (persistent : bool) : EM Value :=
  em_step cfg;;
  match node f with
  | FType decl =>
      for_em (fun _ variant =>
        let has_payload := match payload variant with Some _ => true | None => false end in
        modify_local (fun l => set_constructors (bm_insert (variant_name variant) has_payload (constructors l)) l);;
        value ← (if has_payload then new_callable (CConstructor (variant_name variant))
                 else mret (VTagged (variant_name variant) None));
        modify_local (fun l => set_env (bm_insert (variant_name variant) value (env l)) l)) tt (variants decl);;
      mret VNull
  | FLet pattern value =>
      value ← rec_expr value;
      matched ← em_match_pattern cfg pattern value;
      match matched with
      | None => raise (REType "let pattern did not match")
      | Some bindings =>
          for_em (fun _ '(name, value) => bind_name persistent name value) tt bindings;;
          mret value
      end
  | FFun name params body =>
      ensure_capture cfg (str_len name);;
      captured ← get_local env;
      function ← new_callable (CUser params body captured []);
      bind_name persistent name function;;
      mret function
  | FExpr e => rec_expr e
  end.

(** [for form in forms { value = self.form(form, persistent).await?; }]. *)
Definition form_sequence (fs : list Form) (persistent : bool) : EM Value :=
  for_em (fun _ f => form f persistent) VNull fs.

Definition apply_last (function argument : Value) : EM Value :=
  match function with
  | VCallable _ (CBuiltin name args arity) =>
      if (len args + 1 <? arity)%N then new_callable (CBuiltinDataLast name args argument arity)
      else rec_apply function argument
  | _ => rec_apply function argument
  end.

(** The arms of a match: the first whose pattern matches. *)
Fixpoint match_arms (v : Value) (arms : list MatchArm) (otherwise : EM Value)
    (found : Environment -> Expr -> EM Value) : EM Value :=
  match arms with
  | [] => otherwise
  | arm :: arms' =>
      matched ← em_match_pattern cfg (arm_pattern arm) v;
      match matched with
      | Some bindings => found bindings (arm_value arm)
      | None => match_arms v arms' otherwise found
      end
  end.

Definition expr_kind (k : ExprKind) : EM Value :=
  match k with
  | EString source => text ← interpolate cfg rec_expr source; mret (VString text)
  | EInt z => mret (VInt z)
  | EDecimal f => mret (VDecimal f)
  | EBool b => mret (VBool b)
  | ENull => mret VNull
  | EUri s => mret (VUri s)
  | EName name =>
      e ← get_local env;
      match bm_get name e with
      | Some v => mret v
      | None => raise (REType ("unbound name " ++ name))
      end
  | EConstructor name =>
      e ← get_local env;
      match bm_get name e with
      | Some v => mret v
      | None =>
          if String.eqb name "None" then mret (VTagged name None) else new_callable (CConstructor name)
      end
  | ECapability name => new_callable (CCapability name)
  | EList values =>
      '(output, _) ← for_em (fun '(output, allocated) e =>
        value ← rec_expr e;
        allocated ← lift_result (add_value_size cfg allocated value 0);
        mret (output ++ [value], allocated)) ([], 0%N) values;
      mret (VList output)
  | ERecord fields =>
      '(output, _) ← for_em (fun '(output, allocated) '(name, e) =>
        value ← rec_expr e;
        allocated ← lift_result (add_value_size cfg allocated value (str_len name));
        mret (bm_insert name value output, allocated)) ([], 0%N) fields;
      mret (VRecord output)
  | ELambda params body =>
      ensure_capture cfg 0;;
      captured ← get_local env;
      new_callable (CUser params body captured [])
  | EApply function argument =>
      let is_par :=
        match node function, node argument with
        | EName name, ERecord _ => String.eqb name "par"
        | _, _ => false
        end in
      if is_par then parallel_expr cfg rec_expr argument
      else
        let row_argument := match node function with EName name => row_function name | _ => false end in
        f ← rec_expr function;
        a ← (if row_argument then
               ensure_capture cfg 0;;
               captured ← get_local env;
               new_callable (CRow argument captured)
             else rec_expr argument);
        rec_apply f a
  | EField target field =>
      v ← rec_expr target;
      match v with
      | VRecord fields =>
          match bm_get field fields with
          | Some v => mret v
          | None => raise (REType ("missing field " ++ field))
          end
      | other => raise (REType ("field access on " ++ kind other))
      end
  | EUnary op e => v ← rec_expr e; lift_result (unary op v)
  | EBinary op l r =>
      left ← rec_expr l;
      let go_on :=
        right ← rec_expr r;
        match op with
        | Equal => b ← em_values_equal cfg left right; mret (VBool b)
        | NotEqual => b ← em_values_equal cfg left right; mret (VBool (negb b))
        | _ => lift_result (binary_value op left right)
        end in
      match op, left with
      | And, VBool false | Or, VBool true => mret left
      | And, VBool _ | Or, VBool _ => go_on
      | And, other | Or, other =>
          raise (REType (logical_name op ++ " requires boolean operands; found " ++ kind other))
      | _, _ => go_on
      end
  | EPipe value target =>
      v ← rec_expr value;
      t ← rec_expr target;
      apply_last t v
  | EIf condition then_value else_value =>
      c ← rec_expr condition;
      match c with
      | VBool true => rec_expr then_value
      | VBool false => rec_expr else_value
      | other => raise (REType ("if condition is " ++ kind other))
      end
  | EMatch value arms =>
      v ← rec_expr value;
      match_arms v arms (raise (REType "non-exhaustive match reached runtime"))
        (fun bindings body => with_env (fun old => bm_extend old bindings) (rec_expr body))
  | EHandle value arms =>
      result ← attempt (rec_expr value);
      match result with
      | Err (REPersistence _) | Ok _ | Panicked | OutOfFuel => lift_result result
      | Err error =>
          let tagged :=
            VTagged (error_name error)
              (Some (runtime_error_payload error (value_bytes (limits cfg)) (runtime_depth (limits cfg)))) in
          match_arms tagged arms (raise error) (fun bindings body =>
            old_error ← get_local current_error;
            modify_local (set_current_error (Some error));;
            result ← attempt (with_env (fun old => bm_extend old bindings) (rec_expr body));
            modify_local (set_current_error old_error);;
            lift_result result)
      end
  | EBlock fs =>
      old_constructors ← get_local constructors;
      result ← attempt (with_env (fun old => old) (form_sequence fs false));
      modify_local (set_constructors old_constructors);;
      lift_result result
  end.

Definition expr_body (e : Expr) : EM Value :=
  deeper
    (em_step cfg;;
     value ← expr_kind (node e);
     lift_result (ensure_value cfg value);;
     mret value).

(** [for (pattern, value) in params.iter().zip(args)]. *)
Definition bind_params (params : list Pattern) (args : list Value) : EM unit :=
  for_em (fun _ '(pattern, value) =>
    matched ← em_match_pattern cfg pattern value;
    match matched with
    | None => raise (REType "function pattern did not match")
    | Some bindings => modify_local (fun l => set_env (bm_extend (env l) bindings) l)
    end) tt (combine params args).

Definition is_unapplied_map (v : Value) : bool :=
  match v with
  | VCallable _ (CBuiltin name [] _) => String.eqb name "map"
  | _ => false
  end.

Definition apply_callable (c : Callable) (argument : Value) : EM Value :=
  match c with
  | CCapability name => perform cfg name argument
  | CConstructor name => mret (VTagged name (Some argument))
  | CBuiltin name args arity =>
      if String.eqb name "par" && match args with [] => true | _ => false end then
        if is_unapplied_map argument then new_callable (CBuiltin "par_map" [] 2)
        else parallel cfg argument
      else
        let args := args ++ [argument] in
        if (len args <? arity)%N then new_callable (CBuiltin name args arity)
        else builtin cfg rec_apply name args
  | CBuiltinDataLast name args data arity =>
      let args := args ++ [argument] in
      if (len args + 1 <? arity)%N then new_callable (CBuiltinDataLast name args data arity)
      else builtin cfg rec_apply name (args ++ [data])
  | CUser params body captured args =>
      let args := args ++ [argument] in
      if (length args <? length params)%nat then new_callable (CUser params body captured args)
      else with_env (call_env captured) (bind_params params args;; rec_expr body)
  | CRow body captured => with_env (fun _ => row_env argument captured) (rec_expr body)
  end.

Definition apply_body (function argument : Value) : EM Value :=
  deeper
    match function with
    | VCallable _ c => apply_callable c argument
    | _ => raise (REType (kind function ++ " is not callable"))
    end.
End Open.

(** ** The knot *)

Fixpoint evaluate (fuel : nat) (call : Call) : EM Value :=
  match fuel with
  | O => lift_result OutOfFuel
  | S fuel' =>
      match call with
      | CallExpr e => expr_body (evaluate fuel') e
      | CallApply function argument => apply_body (evaluate fuel') function argument
      end
  end.

Definition fuel_of (l : Local) : nat :=
  S (N.to_nat (saturating_sub (runtime_depth (limits cfg)) (local_depth l))).

Definition expr (e : Expr) : EM Value := fun l => evaluate (fuel_of l) (CallExpr e) l.
Definition apply (function argument : Value) : EM Value := fun l =>
  evaluate (fuel_of l) (CallApply function argument) l.

(** [cell]. *)
Definition eval_cell (c : Cell) : EM Value := fun l =>
  form_sequence (evaluate (fuel_of l)) (forms c) true l.
End Evaluator.
