(* ===== verification/Interpreter.v ===== *)
(** * The interpreter ([runtime/mod.rs])

    The persistent side of evaluation: the environment cells build on, the cell
    counter, and the protocol of a cell: validate, start, evaluate, commit, end,
    with its events.  The execution a cancellation acts on is in [Task.Shared]. *)

From stdpp Require Import base tactics list strings.
From Stdlib Require Import ZArith NArith Lia.
From S2P Require Import Prelude BTree Text Strings Numbers Syntax Lexer Parser ScopedMap Checker Machine Catalog Value Operators Limits Host Render Sizing Task Runtime Effects Parallel Builtins Evaluator.

(** ** The depth of a scope among the active ones *)

Section Interpreter.
Context `{UnicodeTables} `{JsonStr} `{StdText} `{JsonText} `{Layout} `{BuildProfile} `{KeySort}.

(** The [while let] loop; [None] when it has not finished within the fuel. *)
Fixpoint scope_depth_from (fuel : nat) (current : option string) (visited : list string) (depth : N)
    (scopes : list (string * ActiveScope)) : option N :=
  match fuel with
  | O => None
  | S fuel' =>
      match current with
      | None => Some depth
      | Some node =>
          if bs_contains node visited then Some depth
          else
            match bm_get node scopes with
            | None => Some depth
            | Some s =>
                scope_depth_from fuel' (parent_node_id s) (bs_insert node visited) (saturating_add depth 1) scopes
            end
      end
  end.

Definition active_scope_depth (node : string) (scopes : list (string * ActiveScope)) : option N :=
  scope_depth_from (S (S (length scopes))) (Some node) [] 0 scopes.

(** The deepest first, then by name. *)
Definition scope_compare (scopes : list (string * ActiveScope)) (a b : string * ActiveScope) : comparison :=
  then_with (N.compare (default 0%N (active_scope_depth b.1 scopes)) (default 0%N (active_scope_depth a.1 scopes)))
    (String.compare a.1 b.1).

(** ** State *)

Record Interpreter := mkInterpreter {
  i_env : Environment;
  i_catalog : CapabilityCatalog;
  i_registry : HostRegistry;
  i_invocation : InvocationCtx;
  i_limits : RuntimeLimits;
  cell_counter : N;
}.

Record RuntimeOutput := mkOutput {
  out_stdout : string;
  out_value : Value;
  out_committed : list string;
}.

Definition set_i_env (e : Environment) (i : Interpreter) : Interpreter :=
  mkInterpreter e (i_catalog i) (i_registry i) (i_invocation i) (i_limits i) (cell_counter i).
Definition set_cell_counter (n : N) (i : Interpreter) : Interpreter :=
  mkInterpreter (i_env i) (i_catalog i) (i_registry i) (i_invocation i) (i_limits i) n.

Definition set_runtime_depth (d : N) (l : RuntimeLimits) : RuntimeLimits :=
  mkLimits (limit_steps l) (print_bytes l) (preview_bytes l) (source_bytes l) (syntax_nodes l)
    (parse_depth l) d (value_bytes l) (environment_bytes l) (parallelism l).

(** [rc] numbers the allocations of the prelude. *)
Definition interpreter_new (c : CapabilityCatalog) (r : HostRegistry) (ctx : InvocationCtx)
    (l : RuntimeLimits) (rc : N) : Interpreter :=
  mkInterpreter (prelude rc) c r ctx
    (set_runtime_depth (N.min (runtime_depth l) MAX_SAFE_RUNTIME_DEPTH) l) 0.

Abbreviation IM := (TM Interpreter).

Definition reset : IM unit :=
  rc ← access (fun s =>
    (next_rc s, mkShared (sh_steps s) (sh_stdout s) (sh_output_used s) (node_counter s) (active s)
                  (terminal_selected s) (machines s) (next_rc s + len prelude_functions) (history s) (sort_panics s)));
  modify_local (fun i => set_cell_counter 0 (set_i_env (prelude rc) i));;
  set_active None.

(** A fork has an execution of its own. *)
Definition fork_for_parallel (offset : N) (i : Interpreter) (s : Shared) : Interpreter * Shared :=
  (set_cell_counter (cell_counter i + offset) i,
   mkShared (sh_steps s) (sh_stdout s) (sh_output_used s) (node_counter s) None false (machines s)
     (next_rc s) (history s) (sort_panics s)).

Definition finish_parallel_batch (count : N) : IM unit :=
  modify_local (fun i => set_cell_counter (cell_counter i + count) i).

Definition merge_committed_from (fork : Interpreter) (committed : list string) : IM unit :=
  modify_local (fun i =>
    set_i_env (foldl (fun e name =>
      match bm_get name (i_env fork) with Some v => bm_insert name v e | None => e end) (i_env i) committed) i).

Definition abandon_active_eval : IM unit := set_active None;; store_terminal_selected true.

(** ** Events of cells that are not evaluated *)

Definition cell_fields (cell_id : string) : list (string * Json) := [("cellId"%string, JString cell_id)].

Definition start_payload (cell_id : string) : Json :=
  json_object (cell_fields cell_id ++ [("sourcePreview", JString redacted)]%string).

Definition terminal_payload (cell_id status error : string) : Json :=
  json_object (cell_fields cell_id ++ [("status", JString status); ("error", JString error)]%string).

Definition next_cell : IM string :=
  modify_local (fun i => set_cell_counter (cell_counter i + 1) i);;
  n ← get_local cell_counter;
  mret ("cell-" ++ display_u64 n)%string.

Definition take_active : IM (option ActiveExecution) :=
  access (fun s =>
    (active s, mkShared (sh_steps s) (sh_stdout s) (sh_output_used s) (node_counter s) None
                 (terminal_selected s) (machines s) (next_rc s) (history s) (sort_panics s))).

Definition cancel_active_eval (status : string) : IM unit :=
  taken ← take_active;
  match taken with
  | None => mret tt
  | Some a =>
      store_terminal_selected true;;
      (if cell_started a then mret tt else emit "cell_start" (start_payload (active_cell_id a)));;
      for_em (fun _ '(node_id, effect) =>
        payload ← cancel_effect status
          [("cellId", JString (active_cell_id a)); ("nodeId", JString node_id);
           ("parentNodeId", json_option (effect_scope_id effect))]%string effect;
        emit "effect_result" payload) tt (active_effects a);;
      for_em (fun _ '(node_id, scope) =>
        emit "scope_result"
          (default (json_object
             [("cellId", JString (active_cell_id a)); ("nodeId", JString node_id);
              ("parentNodeId", json_option (parent_node_id scope)); ("status", JString status);
              ("error", JString redacted)]%string) (scope_terminal scope)))
        tt (sort_by (scope_compare (active_scopes a)) (active_scopes a));;
      emit "cell_result" (default (terminal_payload (active_cell_id a) status redacted) (cell_terminal a))
  end.

Definition emit_immediate_terminal (status : string) : IM unit :=
  cell_id ← next_cell;
  store_terminal_selected true;;
  emit "cell_start" (start_payload cell_id);;
  emit "cell_result" (terminal_payload cell_id status redacted).

Definition emit_dependency_failure : IM unit :=
  cell_id ← next_cell;
  emit "cell_start" (start_payload cell_id);;
  emit "cell_result" (terminal_payload cell_id "failed" "[redacted dependency error]").

Definition emit_validation_failure (cell_id phase : string) : IM unit :=
  result ← attempt
    (emit "cell_start" (start_payload cell_id);;
     on_active set_cell_started;;
     let terminal := terminal_payload cell_id "failed" ("[redacted " ++ phase ++ " error]") in
     on_active (set_cell_terminal (Some terminal));;
     store_terminal_selected true;;
     emit "cell_result" terminal);
  set_active None;;
  lift_result result.

(** ** Evaluating a cell *)

(** A method of the evaluator, with its result and its fields. *)
Definition on_evaluator {A} (m : EM A) (l : Local) : IM (RuntimeResult A * Local) := fun i =>
  task_bind (m l) (fun r => Ret (Ok r, i)).

(** New counters behind new [Arc]s. *)
Definition new_counters : IM unit :=
  access (fun s => (tt, mkShared 0 "" 0 0 (active s) (terminal_selected s) (machines s) (next_rc s) (history s) [])).

(** The committed values go into the environment; what was there before. *)
Definition install (names : list string) (from e : Environment) : Environment * list (string * option Value) :=
  foldl (fun '(e, previous) name =>
    match bm_get name from with
    | Some v => (bm_insert name v e, previous ++ [(name, bm_get name e)])
    | None => (e, previous)
    end) (e, []) names.

Definition rollback (previous : list (string * option Value)) (e : Environment) : Environment :=
  foldl (fun e '(name, p) => match p with Some v => bm_insert name v e | None => bm_remove name e end) e previous.

(** [return Err(evaluator.terminal_error(payload, error).await)]. *)
Definition end_with_error {A} (payload : Json) (error : RuntimeError) (l : Local) : IM A :=
  r ← on_evaluator (terminal_error payload error) l;
  match r.1 with
  | Ok e | Err e => raise e
  | Panicked => lift_result Panicked
  | OutOfFuel => lift_result OutOfFuel
  end.

(** The end of an evaluated cell with a value. *)
Definition commit_cell (cfg : Setup) (value : Value) (l : Local) : IM RuntimeOutput :=
  i ← get_local id;
  let failed := terminal_payload (cell_id_ cfg) "failed" redacted in
  if (environment_bytes (i_limits i)
        <? merged_environment_size_bounded (i_env i) (env l) (committed l) (environment_bytes (i_limits i))
             (runtime_depth (i_limits i)))%N
  then end_with_error failed (RELimit "persistent environment budget exceeded") l
  else
  remaining ← on_evaluator (em_remaining_output cfg) l;
  match remaining.1 with
  | Err e => raise e
  | Panicked => lift_result Panicked
  | OutOfFuel => lift_result OutOfFuel
  | Ok remaining =>
  match value_json_bounded value remaining true (runtime_depth (i_limits i)) with
  | None => end_with_error failed (RELimit "result/output budget exceeded") l
  | Some (rendered_len, rendered) =>
  reserved ← on_evaluator (em_reserve_output cfg rendered_len) l;
  match reserved.1 with
  | Err error => end_with_error failed error l
  | Panicked => lift_result Panicked
  | OutOfFuel => lift_result OutOfFuel
  | Ok _ =>
  store_terminal_selected true;;
  let '(e, previous) := install (committed l) (env l) (i_env i) in
  modify_local (set_i_env e);;
  emitted ← on_evaluator (emit "binding_committed"
    (json_object (cell_fields (cell_id_ cfg)
       ++ [("bindingCount", json_usize (len (committed l))); ("namesRedacted", JBool true)]%string))) l;
  match emitted.1 with
  | Err error =>
      modify_local (fun i => set_i_env (rollback previous (i_env i)) i);;
      end_with_error failed error l
  | Panicked => lift_result Panicked
  | OutOfFuel => lift_result OutOfFuel
  | Ok _ =>
  let result_preview := if sensitive_cell cfg then redacted else bounded rendered (preview_bytes (i_limits i)) in
  reserved ← on_evaluator (em_reserve_preview cfg result_preview) l;
  let completed fields :=
    json_object (cell_fields (cell_id_ cfg) ++ [("status", JString "completed")]%string ++ fields) in
  result_payload ←
    match reserved.1 with
    | Ok _ => mret (completed [("resultPreview", JString result_preview)]%string)
    | Err _ => mret (completed [("previewTruncated", JBool true)]%string)
    | Panicked => lift_result Panicked
    | OutOfFuel => lift_result OutOfFuel
    end;
  ended ← on_evaluator (emit_cell_terminal result_payload) l;
  lift_result ended.1;;
  stdout ← access (fun s => (sh_stdout s, s));
  mret (mkOutput stdout value (committed l))
  end end end end.

(** The end of an evaluated cell with an error. *)
Definition fail_cell (cfg : Setup) (error : RuntimeError) (l : Local) : IM RuntimeOutput :=
  let error_preview :=
    if sensitive_cell cfg then redacted
    else bounded_display (display_runtime_error error) (preview_bytes (limits cfg)) in
  reserved ← on_evaluator (em_reserve_preview cfg error_preview) l;
  terminal ←
    match reserved.1 with
    | Ok _ => mret (terminal_payload (cell_id_ cfg) "failed" error_preview)
    | Err _ =>
        mret (json_object (cell_fields (cell_id_ cfg)
                ++ [("status", JString "failed"); ("errorTruncated", JBool true)]%string))
    | Panicked => lift_result Panicked
    | OutOfFuel => lift_result OutOfFuel
    end;
  end_with_error terminal error l.

(** From a checked cell on. *)
Definition run_cell (cfg : Setup) (c : Cell) : IM RuntimeOutput :=
  new_counters;;
  e ← get_local i_env;
  let l := mkLocal e [] [] None None 0 in
  let source_preview := redacted in
  reserved ← on_evaluator (em_reserve_preview cfg source_preview) l;
  payload ←
    match reserved.1 with
    | Ok _ => mret (start_payload (cell_id_ cfg))
    | Err _ => mret (json_object (cell_fields (cell_id_ cfg) ++ [("sourcePreviewTruncated", JBool true)]%string))
    | Panicked => lift_result Panicked
    | OutOfFuel => lift_result OutOfFuel
    end;
  started ← on_evaluator (emit "cell_start" payload) l;
  match started.1 with
  | Err error => set_active None;; raise error
  | Panicked => lift_result Panicked
  | OutOfFuel => lift_result OutOfFuel
  | Ok _ =>
      on_active set_cell_started;;
      result ← on_evaluator (eval_cell cfg c) l;
      match result.1 with
      | Ok value => commit_cell cfg value result.2
      | Err error => fail_cell cfg error result.2
      | Panicked => lift_result Panicked
      | OutOfFuel => lift_result OutOfFuel
      end
  end.

(** A rejected cell. *)
Definition reject_cell {A} (cell_id phase : string) (d : Diagnostic) : IM A :=
  emit_validation_failure cell_id phase;;
  raise (REDiagnostic d).

Definition eval (source : list char) (output_bytes : N) : IM RuntimeOutput :=
  pending ← access (fun s => (match active s with Some _ => true | None => false end, s));
  (if pending : bool then cancel_active_eval "failed" else mret tt);;
  cell_id ← next_cell;
  set_active (Some (mkActive cell_id [] [] None false));;
  store_terminal_selected false;;
  i ← get_local id;
  let l := i_limits i in
  match parse_bounded source (source_bytes l) (syntax_nodes l) (parse_depth l) with
  | Err d => reject_cell cell_id "parse" d
  | Panicked => lift_result Panicked
  | OutOfFuel => lift_result OutOfFuel
  | Ok c =>
      match check_with_bindings_bounded source c (i_catalog i) (bm_keys (i_env i)) (source_bytes l)
              (syntax_nodes l) (parse_depth l) with
      | Err d => reject_cell cell_id "check" d
      | Panicked => lift_result Panicked
      | OutOfFuel => lift_result OutOfFuel
      | Ok _ =>
          run_cell (mkSetup (i_catalog i) (i_registry i) (i_invocation i) l output_bytes cell_id true) c
      end
  end.
End Interpreter.
