(* ===== verification/EvalLogic.v ===== *)
(** * Reasoning about methods of the evaluator

    [leaves F P m l s]: started with own fields [l] in the shared state [s], the
    method [m] respects the discipline [respects] of the shared state at every
    access and under every interleaving; it does not run out of fuel, it panics
    only when the sort of the standard library did, on keys that are not totally
    ordered, its own fields satisfy [F] when it is done, and a value it returns
    satisfies [P].  [keeps] is the case where the own fields are unchanged. *)

From stdpp Require Import base tactics list strings.
From Stdlib Require Import ZArith NArith Lia RelationClasses.
From S2P Require Import Prelude BTree Text Strings Numbers Syntax Lexer ScopedMap Machine Catalog Value Operators OperatorFacts Limits Host Render RenderFacts Sizing Task Runtime Effects Parallel Builtins.

(** ** Well-formed values

    A prelude function that still waits for arguments waits for enough of them:
    the arm of the function indexes its arguments without looking. *)

Definition needed_args : list (string * N) := ("par_map"%string, 2%N) :: prelude_functions.

Definition arity_ok (name : string) (arity : N) : Prop :=
  forall n, bm_get name needed_args = Some n -> (n <= arity)%N.

Fixpoint rt_wf (v : Value) : Prop :=
  match v with
  | VList vs => all_of rt_wf vs
  | VRecord fs => all_of (fun f => rt_wf (snd f)) fs
  | VTagged _ (Some p) => rt_wf p
  | VCallable _ c => callable_wf c
  | _ => True
  end
with callable_wf (c : Callable) : Prop :=
  match c with
  | CBuiltin name args arity => all_of rt_wf args /\ (len args < arity)%N /\ arity_ok name arity
  | CBuiltinDataLast name args data arity =>
      all_of rt_wf args /\ rt_wf data /\ (len args + 1 < arity)%N /\ arity_ok name arity
  | CUser _ _ captured args => all_of (fun f => rt_wf (snd f)) captured /\ all_of rt_wf args
  | CRow _ captured => all_of (fun f => rt_wf (snd f)) captured
  | CCapability _ | CConstructor _ => True
  end.

Definition env_wf (e : Environment) : Prop := Forall (fun f => rt_wf f.2) e.

(** ** The discipline of the shared state *)

(** A result that is a value or an error. *)
Definition total {E A} (P : A -> Prop) (r : outcome E A) : Prop :=
  match r with
  | Ok a => P a
  | Err _ => True
  | Panicked | OutOfFuel => False
  end.

(** The sort panicked on a list of the running cell whose keys are not totally
    ordered by their comparison. *)
Definition sort_panicked `{JsonNumber} `{KeySort} (s : Shared) : Prop :=
  exists keyed, In keyed (sort_panics s) /\ sort_keyed keyed = None /\ ~ keys_ordered keyed.

(** A result in the state [s]: a value, an error, or a panic of the sort. *)
Definition concludes `{JsonNumber} `{KeySort} {E A} (P : A -> Prop) (s : Shared) (r : outcome E A) : Prop :=
  match r with
  | Ok a => P a
  | Err _ => True
  | Panicked => sort_panicked s
  | OutOfFuel => False
  end.

Lemma total_concludes `{JsonNumber} `{KeySort} {E A} (P : A -> Prop) s (r : outcome E A) : total P r -> concludes P s r.
Proof. by destruct r. Qed.

Section Logic.
Context `{StdText} `{JsonText} `{Layout} `{KeySort}.
Variable cfg : Setup.

(** A host function acts only when the host admits calls of it. *)
Definition admitted (capability : string) : Prop :=
  host_permits (ctx_grants (invocation cfg)) capability = true
  /\ is_Some (bm_get capability (functions (registry cfg))).

Definition allowed_exchange (e : Exchange) : Prop :=
  match asked e with
  | OpHostEvent c _ _ | OpApproval c _ _ | OpOutside c _ => admitted c
  | OpEmit _ _ | OpYield => True
  end.

Definition disciplined (s : Shared) : Prop :=
  (sh_steps s <= limit_steps (limits cfg))%N /\ (sh_output_used s <= output_bytes cfg)%N
  /\ (str_len (sh_stdout s) <= print_bytes (limits cfg))%N /\ Forall allowed_exchange (history s).

(** What any part of an evaluation may do to a disciplined state. *)
Definition respects (s s' : Shared) : Prop :=
  ((length (machines s) <= length (machines s'))%nat /\ incl (sort_panics s) (sort_panics s')) /\
  (disciplined s ->
  disciplined s' /\ (sh_steps s <= sh_steps s')%N /\ (sh_output_used s <= sh_output_used s')%N
  /\ (exists text, sh_stdout s' = (sh_stdout s ++ text)%string)
  /\ (exists news, history s' = news ++ history s)).

#[global] Instance respects_preorder : PreOrder respects.
Proof.
  split.
  - intros s. split; [split; [done|apply incl_refl]|]. intros Hs. split_and!; try done; [by exists ""%string; rewrite string_app_nil_r|by exists []].
  - intros s1 s2 s3 [[L12 I12] H12] [[L23 I23] H23]. split; [split; [lia|by eapply incl_tran]|]. intros Hs.
    destruct (H12 Hs) as (Hd & ? & ? & [t Et] & [n En]).
    destruct (H23 Hd) as (? & ? & ? & [t' Et'] & [n' En']). split_and!; try done; try lia.
    + exists (t ++ t')%string. by rewrite Et', Et, string_app_assoc.
    + exists (n' ++ n). by rewrite En', En, app_assoc.
Qed.

Definition branch_post (r : RuntimeResult Value) (s : Shared) : Prop := concludes rt_wf s r.
Definition collect_post (r : RuntimeResult ParState) (s : Shared) : Prop :=
  concludes (fun st => Forall (fun o => rt_wf o.2) (par_output st)) s r.

Lemma sort_panicked_later s s' : respects s s' -> sort_panicked s -> sort_panicked s'.
Proof. intros [[_ HI] _] (keyed & Hin & Hk). exists keyed. split; [by apply HI|done]. Qed.

Lemma concludes_later {E A} (P : A -> Prop) s s' (r : outcome E A) :
  respects s s' -> concludes P s r -> concludes P s' r.
Proof. intros HR. destruct r; try done. by apply sort_panicked_later. Qed.

Lemma lost_branch r s : is_ok r = false -> branch_post r s -> collect_post (no_value r) s.
Proof. by destruct r. Qed.

Lemma branch_later r s s' : respects s s' -> branch_post r s -> branch_post r s'.
Proof. apply concludes_later. Qed.

Abbreviation safe_task := (safe respects branch_post collect_post).

Section Methods.
Context {L : Type}.

Definition leaves {A} (F : L -> Prop) (P : A -> Shared -> Prop) (m : TM L A) (l : L) (s : Shared) : Prop :=
  disciplined s ->
  safe_task (fun r s' => disciplined s' /\ F r.2 /\ concludes (fun a => P a s') s' r.1) (m l) s.

Definition keeps {A} (P : A -> Shared -> Prop) (m : TM L A) (l : L) (s : Shared) : Prop :=
  leaves (eq l) P m l s.

(** ** Rules *)

Lemma leaves_ret {A} F (P : A -> Shared -> Prop) a l s : F l -> P a s -> leaves F P (mret a) l s.
Proof. by intros HF HP Hs. Qed.

Lemma leaves_raise {A} F (P : A -> Shared -> Prop) e l s : F l -> leaves F P (raise e) l s.
Proof. by intros HF Hs. Qed.

Lemma leaves_lift {A} F (P : A -> Shared -> Prop) r l s :
  F l -> concludes (fun a => P a s) s r -> leaves F P (lift_result r) l s.
Proof. by intros HF HP Hs. Qed.

Lemma leaves_get {A} F (P : A -> Shared -> Prop) f l s : F l -> P (f l) s -> leaves F P (get_local f) l s.
Proof. by intros HF HP Hs. Qed.

Lemma leaves_modify F (P : unit -> Shared -> Prop) f l s : F (f l) -> P tt s -> leaves F P (modify_local f) l s.
Proof. by intros HF HP Hs. Qed.

Lemma leaves_bind {A B} F1 F2 (P1 : A -> Shared -> Prop) (P2 : B -> Shared -> Prop) (m : TM L A) k l s :
  leaves F1 P1 m l s ->
  (forall l1, F1 l1 -> F2 l1) ->
  (forall a l1 s1, F1 l1 -> P1 a s1 -> respects s s1 -> leaves F2 P2 (k a) l1 s1) ->
  leaves F2 P2 (m ≫= k) l s.
Proof.
  intros Hm HF Hk Hs. apply safe_bind. eapply safe_mono; [apply _| |exact (Hm Hs)].
  intros [r l1] s1 HR (Hs1 & Hl1 & Hr). cbn in *. destruct r as [a|e| |]; try done.
  - by apply Hk.
  - cbn. split_and!; auto.
  - cbn. split_and!; auto.
Qed.

Lemma leaves_weaken {A} F F' (P P' : A -> Shared -> Prop) (m : TM L A) l s :
  leaves F P m l s -> (forall l', F l' -> F' l') -> (forall a s', respects s s' -> P a s' -> P' a s') ->
  leaves F' P' m l s.
Proof.
  intros Hm HF HP Hs. eapply safe_mono; [apply _| |exact (Hm Hs)].
  intros [r l1] s1 HR (Hs1 & Hl1 & Hr). cbn in *. split_and!; auto. destruct r; cbn in *; auto.
Qed.

Lemma leaves_attempt {A} F (P : A -> Shared -> Prop) (m : TM L A) l s :
  leaves F P m l s -> leaves F (fun r s' => concludes (fun a => P a s') s' r) (attempt m) l s.
Proof.
  intros Hm Hs. apply safe_bind. eapply safe_mono; [apply _| |exact (Hm Hs)].
  intros [r l1] s1 HR (Hs1 & Hl1 & Hr). by cbn in *.
Qed.

Lemma leaves_access {A} F (P : A -> Shared -> Prop) f l s :
  F l -> (disciplined s -> respects s (f s).2 /\ forall s', respects (f s).2 s' -> P (f s).1 s') ->
  leaves F P (access f) l s.
Proof.
  intros HF Hf Hs. destruct (Hf Hs) as [HR HP]. split; [done|]. intros s' HR'. cbn. split_and!; auto.
  apply HR'. by apply HR.
Qed.

Lemma leaves_await F o l s (P : answer_of o -> Shared -> Prop) :
  F l -> (forall a, allowed_exchange (mkExchange o a)) -> (forall a s', P a s') -> leaves F P (await o) l s.
Proof.
  intros HF Ha HP Hs a. assert (HR : respects s (record_exchange o a s)).
  { split; [split; [done|apply incl_refl]|]. intros (D1 & D2 & D3 & D4). split_and!; try (cbn; lia).
    - split_and!; cbn; try done. constructor; [apply Ha|done].
    - exists ""%string. cbn. by rewrite string_app_nil_r.
    - by exists [mkExchange o a]. }
  split; [done|]. intros s' HR'. cbn. split_and!; auto. apply HR'. by apply HR.
Qed.

Lemma leaves_for {X A} F (J : A -> Prop) (body : A -> X -> TM L A) xs : forall acc l s,
  (forall acc x l1 s1, In x xs -> J acc -> F l1 -> respects s s1 -> leaves F (fun a _ => J a) (body acc x) l1 s1) ->
  J acc -> F l -> leaves F (fun a _ => J a) (for_em body acc xs) l s.
Proof.
  induction xs as [|x xs IH]; intros acc l s Hbody HJ HF; cbn [for_em]; [by apply leaves_ret|].
  eapply leaves_bind; [apply (Hbody acc x); [by left|done..|reflexivity]|done|].
  intros a l1 s1 Hl1 Ha HR. apply IH; [|done..].
  intros acc' x' l2 s2 Hin HJ' Hl2 HR2. apply Hbody; [by right|done..|by etrans].
Qed.

(** Sequences whose first part does not fail. *)
Lemma leaves_attempt_bind {A B} F1 F2 (P1 : A -> Shared -> Prop) (P2 : B -> Shared -> Prop) (m : TM L A) k l s :
  leaves F1 P1 m l s ->
  (forall r l1 s1, F1 l1 -> concludes (fun a => P1 a s1) s1 r -> respects s s1 -> leaves F2 P2 (k r) l1 s1) ->
  leaves F2 P2 (attempt m ≫= k) l s.
Proof.
  intros Hm Hk Hs. apply safe_bind, safe_bind. eapply safe_mono; [apply _| |exact (Hm Hs)].
  intros [r l1] s1 HR (Hs1 & Hl1 & Hr). cbn in *. by apply Hk.
Qed.

Lemma leaves_get_bind {A B} F (P : B -> Shared -> Prop) (f : L -> A) k l s :
  leaves F P (k (f l)) l s -> leaves F P (get_local f ≫= k) l s.
Proof. done. Qed.

Lemma leaves_modify_bind {B} F (P : B -> Shared -> Prop) f k l s :
  leaves F P (k tt) (f l) s -> leaves F P (modify_local f ≫= k) l s.
Proof. done. Qed.

(** ** The same, for methods that keep their fields *)

Lemma keeps_bind {A B} (P1 : A -> Shared -> Prop) (P2 : B -> Shared -> Prop) (m : TM L A) k l s :
  keeps P1 m l s -> (forall a s1, P1 a s1 -> respects s s1 -> keeps P2 (k a) l s1) -> keeps P2 (m ≫= k) l s.
Proof. intros Hm Hk. eapply leaves_bind; [exact Hm|done|]. intros a l1 s1 <-. apply Hk. Qed.

Lemma keeps_attempt_bind {A B} (P1 : A -> Shared -> Prop) (P2 : B -> Shared -> Prop) (m : TM L A) k l s :
  keeps P1 m l s ->
  (forall r s1, concludes (fun a => P1 a s1) s1 r -> respects s s1 -> keeps P2 (k r) l s1) ->
  keeps P2 (attempt m ≫= k) l s.
Proof. intros Hm Hk. eapply leaves_attempt_bind; [exact Hm|]. intros r l1 s1 <-. apply Hk. Qed.

Lemma keeps_get_bind {A B} (P : B -> Shared -> Prop) (f : L -> A) k l s :
  keeps P (k (f l)) l s -> keeps P (get_local f ≫= k) l s.
Proof. done. Qed.

Lemma keeps_ret {A} (P : A -> Shared -> Prop) a l s : P a s -> keeps P (mret a) l s.
Proof. intros. by apply leaves_ret. Qed.

Lemma keeps_raise {A} (P : A -> Shared -> Prop) e l s : keeps P (raise e) l s.
Proof. by apply leaves_raise. Qed.

Lemma keeps_lift {A} (P : A -> Shared -> Prop) r l s : total (fun a => P a s) r -> keeps P (lift_result r) l s.
Proof. intros. apply leaves_lift; [done|]. by apply total_concludes. Qed.

Lemma keeps_conclude {A} (P : A -> Shared -> Prop) r l s :
  concludes (fun a => P a s) s r -> keeps P (lift_result r) l s.
Proof. intros. by apply leaves_lift. Qed.

Lemma keeps_panic {A} (P : A -> Shared -> Prop) l s : sort_panicked s -> keeps P (lift_result Panicked) l s.
Proof. intros. by apply keeps_conclude. Qed.

Lemma keeps_get {A} (P : A -> Shared -> Prop) f l s : P (f l) s -> keeps P (get_local f) l s.
Proof. intros. by apply leaves_get. Qed.

Lemma keeps_attempt {A} (P : A -> Shared -> Prop) (m : TM L A) l s :
  keeps P m l s -> keeps (fun r s' => concludes (fun a => P a s') s' r) (attempt m) l s.
Proof. apply leaves_attempt. Qed.

Lemma keeps_weaken {A} (P P' : A -> Shared -> Prop) (m : TM L A) l s :
  keeps P m l s -> (forall a s', respects s s' -> P a s' -> P' a s') -> keeps P' m l s.
Proof. intros. by eapply leaves_weaken. Qed.

Lemma keeps_for {X A} (J : A -> Prop) (body : A -> X -> TM L A) xs acc l s :
  (forall acc x s1, In x xs -> J acc -> respects s s1 -> keeps (fun a _ => J a) (body acc x) l s1) ->
  J acc -> keeps (fun a _ => J a) (for_em body acc xs) l s.
Proof.
  intros Hbody HJ. apply leaves_for; [|done..]. intros acc' x l1 s1 Hin HJ' <- HR. by apply Hbody.
Qed.

(** An access that leaves the counters and the history alone. *)
Definition untouched (s s' : Shared) : Prop :=
  sh_steps s' = sh_steps s /\ sh_output_used s' = sh_output_used s /\ sh_stdout s' = sh_stdout s
  /\ history s' = history s /\ (length (machines s) <= length (machines s'))%nat
  /\ sort_panics s' = sort_panics s.

Lemma untouched_respects s s' : untouched s s' -> respects s s'.
Proof.
  intros (E1 & E2 & E3 & E4 & E5 & E6). split; [split; [done|rewrite E6; apply incl_refl]|]. intros (D1 & D2 & D3 & D4). unfold disciplined. rewrite E1, E2, E3, E4.
  split_and!; try done; [by exists ""%string; rewrite string_app_nil_r|by exists []].
Qed.

Lemma keeps_access {A} (P : A -> Shared -> Prop) f l s :
  untouched s (f s).2 -> (forall s', respects (f s).2 s' -> P (f s).1 s') -> keeps P (access f) l s.
Proof. intros Hu HP. apply leaves_access; [done|]. intros _. split; [by apply untouched_respects|done]. Qed.

Lemma keeps_await o l s (P : answer_of o -> Shared -> Prop) :
  (forall a, allowed_exchange (mkExchange o a)) -> (forall a s', P a s') -> keeps P (await o) l s.
Proof. intros. by apply leaves_await. Qed.

Lemma keeps_emit event payload l s (P : unit -> Shared -> Prop) :
  (forall s', P tt s') -> keeps P (emit event payload) l s.
Proof.
  intros HP. eapply keeps_bind; [apply (keeps_await _ _ _ (fun _ _ => True)); done|].
  intros [[]|e] s1 _ _; [by apply keeps_ret|apply keeps_raise].
Qed.

Lemma keeps_on_active f l s : keeps (fun _ _ => True) (on_active f) l s.
Proof. by apply keeps_access. Qed.

Lemma keeps_set_active a l s : keeps (fun _ _ => True) (set_active a) l s.
Proof. by apply keeps_access. Qed.

Lemma keeps_store b l s : keeps (fun _ _ => True) (store_terminal_selected b) l s.
Proof. by apply keeps_access. Qed.

(** An operation of a machine at a known address. *)
Lemma keeps_machine_op {A} address operation l s (P : outcome EffectMachineError A -> Shared -> Prop) :
  (address < length (machines s))%nat ->
  (forall m s', P (operation m).1 s') -> keeps P (machine_op address operation) l s.
Proof.
  intros Ha HP. unfold machine_op. apply keeps_access.
  - destruct (machines s !! address) as [m|]; [|by split_and!].
    destruct (operation m) as [r m']. split_and!; cbn; try done. by rewrite length_insert.
  - intros s' _. destruct (lookup_lt_is_Some_2 _ _ Ha) as [m ->]. specialize (HP m).
    destruct (operation m) as [r m']. apply HP.
Qed.

(** The answer of a cancellation is not looked at. *)
Lemma keeps_machine_any {A} address operation l s :
  keeps (fun _ _ => True) (@machine_op _ L A address operation) l s.
Proof.
  unfold machine_op. apply keeps_access; [|done].
  destruct (machines s !! address) as [m|]; [|by split_and!].
  destruct (operation m) as [r m']. split_and!; cbn; try done. by rewrite length_insert.
Qed.
End Methods.

(** ** The budgets of the evaluator *)

(** Own fields between two steps. *)
Definition local_ok (l : Local) : Prop :=
  env_wf (env l) /\ (local_depth l <= runtime_depth (limits cfg))%N.

(** A metered operation that keeps the depth. *)
Definition fair {A} (P : A -> Prop) (op : Metered A) : Prop :=
  forall m, within (limits cfg) (output_bytes cfg) m ->
    let '(r, m') := op m in
    within (limits cfg) (output_bytes cfg) m' /\ (steps m <= steps m')%N
    /\ (output_used m <= output_used m')%N /\ (exists text, stdout m' = (stdout m ++ text)%string)
    /\ depth m' = depth m /\ total P r.

Lemma set_depth_same l : set_depth (local_depth l) l = l.
Proof. by destruct l. Qed.

(** It does not panic. *)
Lemma metered_safe {A} (P : A -> Prop) op l s :
  fair P op -> local_ok l -> disciplined s ->
  safe_task (fun r s' => disciplined s' /\ l = r.2 /\ total P r.1) (metered_op op l) s.
Proof.
  intros Hop [_ Hd] Hs. pose proof (Hop (meter_of s (local_depth l))) as Hm. unfold metered_op.
  destruct (op (meter_of s (local_depth l))) as [r m'] eqn:E. destruct Hs as (D1 & D2 & D3 & D4).
  destruct Hm as ((W1 & W2 & W3 & W4) & M1 & M2 & [text M3] & M4 & Hr); [by split_and!|].
  assert (HR : respects s (put_meter m' s)).
  { split; [split; [done|apply incl_refl]|]. intros _. split_and!; try done; [by exists text|by exists []]. }
  split; [by rewrite E|]. rewrite E. intros s' HR'. cbn in M4 |- *. rewrite M4, set_depth_same. split_and!; try done.
  apply HR'. by apply HR.
Qed.

Lemma keeps_metered {A} (P : A -> Prop) op l s :
  fair P op -> local_ok l -> keeps (fun a _ => P a) (metered_op op) l s.
Proof.
  intros Hop Hl Hs. eapply safe_mono; [apply _| |by apply (metered_safe P)].
  intros [r l1] s1 _ (Hs1 & Hl1 & Hr). split_and!; try done. by apply total_concludes.
Qed.

Lemma keeps_attempt_metered {A B} (P : A -> Prop) (P2 : B -> Shared -> Prop) op k l s :
  fair P op -> local_ok l ->
  (forall r s1, total P r -> respects s s1 -> keeps P2 (k r) l s1) ->
  keeps P2 (attempt (metered_op op) ≫= k) l s.
Proof.
  intros Hop Hl Hk Hs. apply safe_bind, safe_bind. eapply safe_mono; [apply _| |by apply (metered_safe P)].
  intros [r l1] s1 HR (Hs1 & Hl1 & Hr). cbn in *. subst l1. by apply Hk.
Qed.
End Logic.
