(* ===== verification/EffectFacts.v ===== *)
(** * Budgets, events and host effects keep the discipline

    The parts of the evaluator that do not recurse: the metered operations, the
    comparison and matching of values, events, and [perform] with whatever plan the
    host runs.  Each keeps the own fields and the discipline of [EvalLogic.v]; the
    values it returns are well formed. *)

From stdpp Require Import base tactics list strings.
From Stdlib Require Import ZArith NArith Lia RelationClasses Permutation.
From S2P Require Import Prelude BTree Text Strings Numbers Syntax Lexer Parser ParserFacts ScopedMap Machine Catalog Value ValueFacts Operators OperatorFacts Limits Host Render Sizing Task Runtime Effects Parallel Builtins Evaluator EvalLogic.

(** ** Well-formed values *)

Lemma env_wf_get k e v : env_wf e -> bm_get k e = Some v -> rt_wf v.
Proof. unfold env_wf. rewrite List.Forall_forall. intros He Hg%bm_get_In. apply (He _ Hg). Qed.

Lemma env_wf_insert k v e : env_wf e -> rt_wf v -> env_wf (bm_insert k v e).
Proof. intros He Hv. by apply Forall_bm_insert. Qed.

Lemma env_wf_extend kvs : forall e, env_wf e -> env_wf kvs -> env_wf (bm_extend e kvs).
Proof.
  unfold bm_extend. induction kvs as [|[k v] kvs IH]; intros e He Hk; [done|]. cbn.
  inversion Hk; subst. apply IH; [by apply env_wf_insert|done].
Qed.

Lemma env_wf_or_insert k v e : env_wf e -> rt_wf v -> env_wf (or_insert k v e).
Proof. intros He Hv. unfold or_insert. case_match; [done|by apply env_wf_insert]. Qed.

Lemma rt_wf_list vs : rt_wf (VList vs) <-> Forall rt_wf vs.
Proof. apply all_of_Forall. Qed.

Lemma rt_wf_record fs : rt_wf (VRecord fs) <-> env_wf fs.
Proof. apply all_of_Forall. Qed.

(** JSON has no callables. *)
Fixpoint from_json_wf `{JsonNumber} (j : Json) : rt_wf (from_json j).
Proof.
  destruct j as [|b|n|s|js|fs]; cbn [from_json]; try done.
  - by destruct (number_as_i64 n).
  - apply rt_wf_list. induction js as [|j js IH]; constructor; [apply from_json_wf|apply IH].
  - apply rt_wf_record. apply env_wf_extend; [constructor|].
    induction fs as [|f fs IH]; constructor; [apply from_json_wf|apply IH].
Qed.

(** What a pattern binds is part of the value. *)
Lemma match_ref_wf k : forall v e e', rt_wf v -> env_wf e -> match_ref k v e = Some e' -> env_wf e'.
Proof.
  induction k as [|n|s|z|b| |n|n p IH|ps IH|h t IHh IHt|fs r IH] using pattern_induction;
    intros v e e' Hv He; cbn [match_ref].
  - by intros [= <-].
  - intros [= <-]. by apply env_wf_insert.
  - destruct v; try done. by case_match; intros [= <-].
  - destruct v; try done. by case_match; intros [= <-].
  - destruct v; try done. by case_match; intros [= <-].
  - destruct v; try done. by intros [= <-].
  - destruct v as [| | | | | | | |m [q|]|]; try done. by case_match; intros [= <-].
  - destruct v as [| | | | | | | |m [q|]|]; try done. case_match; [|done]. by apply IH.
  - destruct v as [| | | | | |vs| | |]; try done. apply rt_wf_list in Hv.
    revert vs e e' Hv He. induction IH as [|p ps Hp _ IHps]; intros [|v vs] e e' Hv He; try done; cbn.
    + by intros [= <-].
    + inversion Hv; subst. intros (e1 & E1 & E2)%bind_Some. eapply IHps; [done| |exact E2]. by eapply Hp.
  - destruct v as [| | | | | |[|v vs]| | |]; try done. apply rt_wf_list in Hv. inversion Hv; subst.
    intros (e1 & E1 & E2)%bind_Some. eapply IHt; [|by eapply IHh|exact E2]. by apply rt_wf_list.
  - destruct v as [| | | | | | |values| |]; try done. destruct (r || _); [|done]. apply rt_wf_record in Hv.
    revert e e' He. clear r. induction IH as [|[n p] fs Hp _ IHfs]; intros e e' He; [by intros [= <-]|]. cbn.
    intros (v & Ev & (e1 & E1 & E2)%bind_Some)%bind_Some. eapply IHfs; [|exact E2].
    eapply Hp; [exact (env_wf_get _ _ _ Hv Ev)|exact He|exact E1].
Qed.

Lemma unary_wf `{JsonNumber} op v : total rt_wf (unary op v).
Proof. destruct op, v; cbn; try done. by destruct (i64_checked_neg z). Qed.

Lemma numeric_binary_wf `{JsonNumber} l r ints decimals name : total rt_wf (numeric_binary l r ints decimals name).
Proof.
  unfold numeric_binary, numbers. destruct l; cbn; try done; destruct r; cbn; try done. by destruct (ints _ _).
Qed.

Lemma binary_wf `{JsonNumber} op l r : rt_wf l -> rt_wf r -> total rt_wf (binary_value op l r).
Proof.
  intros Hl Hr. destruct op; cbn [binary_value]; try done;
    first [ apply numeric_binary_wf
          | by destruct l, r
          | unfold numbers; by destruct (number l), (number r)
          | case_match; [done|apply numeric_binary_wf]
          | destruct l, r; try apply numeric_binary_wf; done
          | destruct r; try done; by split ].
Qed.

Lemma env_wf_fold {X} (f : Environment -> X -> Environment) (P : X -> Prop) xs : forall e,
  (forall e x, P x -> env_wf e -> env_wf (f e x)) -> Forall P xs -> env_wf e -> env_wf (foldl f e xs).
Proof.
  induction xs as [|x xs IH]; intros e Hf HP He; [done|]. inversion HP; subst. cbn. apply IH; auto.
Qed.

Lemma call_env_wf captured old : env_wf captured -> env_wf old -> env_wf (call_env captured old).
Proof.
  intros Hc Ho. apply (env_wf_fold _ (fun f => rt_wf f.2)); [|exact Ho|exact Hc].
  intros e [k v] Hv He. destruct v; try done. by apply env_wf_or_insert.
Qed.

Lemma columns_wf rows : Forall rt_wf rows -> Forall (fun c => Forall rt_wf c.2) (columns_of rows).
Proof.
  unfold columns_of. intros Hr. assert (Hgen : forall acc : list (string * list Value),
    Forall (fun c => Forall rt_wf c.2) acc ->
    Forall (fun c => Forall rt_wf c.2) (foldl (fun columns row =>
      match row with
      | VRecord fields => foldl (fun columns '(name, value) =>
          bm_insert name (default [] (bm_get name columns) ++ [value]) columns) columns fields
      | _ => columns
      end) acc rows)); [|by apply Hgen].
  induction Hr as [|row rows Hrow _ IH]; intros acc Hacc; [done|]. cbn. apply IH. destruct row; try done.
  apply rt_wf_record in Hrow. revert acc Hacc.
  induction Hrow as [|[k v] fields Hv _ IHf]; intros acc Hacc; [done|]. cbn. apply IHf.
  apply Forall_bm_insert; [|done]. cbn. apply Forall_app. split; [|by constructor].
  destruct (bm_get k acc) as [vs|] eqn:E; [|constructor]. apply bm_get_In in E.
  rewrite List.Forall_forall in Hacc. apply (Hacc _ E).
Qed.

Lemma row_env_wf argument captured : rt_wf argument -> env_wf captured -> env_wf (row_env argument captured).
Proof.
  intros Ha Hc. unfold row_env. destruct argument as [| | | | | | |fields| |]; try by apply env_wf_insert.
  set (e := foldl _ _ _). assert (He : env_wf e).
  { apply (env_wf_fold _ (fun f => rt_wf f.2)); [|by apply rt_wf_record|by apply env_wf_insert].
    intros e0 [k v] Hv He0. by apply env_wf_or_insert. }
  destruct (bm_get "rows" fields) as [[| | | | | |rows| | |]|] eqn:E; try done.
  apply rt_wf_record in Ha. pose proof (env_wf_get _ _ _ Ha E) as Hrows. apply rt_wf_list in Hrows.
  apply (env_wf_fold _ (fun c => Forall rt_wf c.2)); [|by apply columns_wf|by apply env_wf_or_insert].
  intros e0 [k vs] Hvs He0. apply env_wf_or_insert; [done|]. by apply rt_wf_list.
Qed.

Lemma list_call_args_wf `{JsonNumber} args name :
  Forall rt_wf args -> total (fun r => rt_wf r.1 /\ Forall rt_wf r.2) (list_call_args args name).
Proof.
  intros Ha. destruct args as [|[] [|[] args]]; try done. cbn. inversion Ha as [|? ? H1 H2]; subst.
  inversion H2 as [|? ? H3 _]; subst. split; [done|]. by apply rt_wf_list.
Qed.

Lemma prelude_wf rc : env_wf (prelude rc).
Proof.
  unfold prelude. apply env_wf_extend; [constructor|]. apply Forall_app. split; [|by repeat constructor].
  cbn [imap prelude_functions]. repeat constructor; cbn; try lia; vm_compute; intros n [= <-]; discriminate.
Qed.

(** ** Comparison ends for all values *)

Lemma pairs_combine (ls rs : list Value) :
  pairs_nodes (combine ls rs) <= list_sum (List.map value_nodes ls) + list_sum (List.map value_nodes rs).
Proof.
  revert rs. induction ls as [|l ls IH]; intros [|r rs]; try (cbn; lia).
  cbn [combine List.map]. rewrite pairs_nodes_cons. specialize (IH rs).
  change (list_sum (?x :: ?l)) with (x + list_sum l). lia.
Qed.

Lemma bm_get_nodes k fs v : bm_get k fs = Some v ->
  value_nodes v <= list_sum (List.map (fun f => value_nodes (snd f)) fs).
Proof.
  induction fs as [|[k' v'] fs IH]; [done|]. cbn [bm_get List.map snd].
  change (list_sum (?x :: ?l)) with (x + list_sum l).
  destruct (String.eqb k k'); [intros [= ->]; lia|]. intros Hg%IH. lia.
Qed.

Lemma nodes_values fs : list_sum (List.map value_nodes (fs.*2)) = list_sum (List.map (fun f : string * Value => value_nodes (snd f)) fs).
Proof. exact (f_equal list_sum (List.map_map snd value_nodes fs)). Qed.

Lemma compare_nodes_smaller `{JsonNumber} max_nodes l r visits more visits' :
  compare_nodes max_nodes l r visits = Some (Some more, visits') ->
  pairs_nodes more < value_nodes l + value_nodes r.
Proof.
  unfold compare_nodes.
  assert (Hempty : forall l r, pairs_nodes [] < value_nodes l + value_nodes r)
    by (intros a b; pose proof (value_nodes_pos a); cbn; lia).
  destruct l as [|lb|lz|lf|ls|ls|ls|ls|ln [lp|]|lrc lc], r as [|rb|rz|rf|rs|rs|rs|rs|rn [rp|]|rrc rc];
    cbn [string_view]; repeat (case_match; try done);
    intros E; simplify_eq; try apply Hempty.
  all: try (apply bind_Some in E as (w & _ & E); repeat (case_match; try done); simplify_eq; try apply Hempty;
    match goal with Hv : bm_get "value" _ = Some _ |- _ => apply bm_get_nodes in Hv end;
    rewrite pairs_nodes_cons; change (pairs_nodes []) with 0; cbn [value_nodes]; lia).
  - pose proof (pairs_combine ls rs). cbn [value_nodes]. lia.
  - pose proof (pairs_combine ls.*2 rs.*2) as Hp. rewrite !nodes_values in Hp. cbn [value_nodes]. lia.
  - rewrite pairs_nodes_cons. change (pairs_nodes []) with 0. cbn [value_nodes]. lia.
Qed.

Lemma compare_loop_returns `{JsonNumber} fuel max_nodes : forall pending visits,
  pairs_nodes pending < fuel -> returns (compare_loop fuel max_nodes pending visits).
Proof.
  induction fuel as [|fuel IH]; intros pending visits Hf; [lia|]. cbn [compare_loop].
  destruct pending as [|[l r] pending]; [done|]. rewrite pairs_nodes_cons in Hf.
  destruct (visit max_nodes visits) as [v|]; cbn; [|done].
  destruct (compare_nodes max_nodes l r v) as [[[more|] v']|] eqn:Ec; [|done..].
  apply compare_nodes_smaller in Ec. apply IH. rewrite pairs_nodes_app. lia.
Qed.

(** ** The operations the methods are made of *)

(** Limits that are not at the end of the machine's range, a release build, and a
    sort that does what the standard library promises of it. *)
Class SaneRuntime `{UnicodeTables} `{JsonStr} `{StdText} `{JsonText} `{Layout} `{BuildProfile}
    `{KeySort} (cfg : Setup) : Prop := {
  sane_steps : (limit_steps (limits cfg) < usize_max)%N;
  sane_print : (print_bytes (limits cfg) < usize_max)%N;
  sane_parse : (parse_depth (limits cfg) < usize_max)%N;
  sane_release : debug_assertions = false;
  sane_sort :: KeySortLaws;
}.

Section Facts.
Context `{UnicodeTables} `{JsonStr} `{StdText} `{JsonText} `{Layout} `{BuildProfile} `{KeySort}.
Variable cfg : Setup.
Context `{!SaneRuntime cfg}.

Abbreviation keeps := (keeps cfg).
Abbreviation leaves := (leaves cfg).
Abbreviation respects := (respects cfg).
Abbreviation local_ok := (local_ok cfg).

Lemma within_after m n text used :
  within (limits cfg) (output_bytes cfg) m -> (n <= limit_steps (limits cfg))%N ->
  (str_len (stdout m ++ text) <= print_bytes (limits cfg))%N -> (used <= output_bytes cfg)%N ->
  within (limits cfg) (output_bytes cfg) (mkMeter n (stdout m ++ text) used (depth m)).
Proof. intros (? & ? & ? & ?) ? ? ?. by split_and!. Qed.

Lemma fair_charge units : fair cfg (fun _ => True) (charge_work (limits cfg) units).
Proof.
  intros m Hw. rewrite charge_work_spec. destruct (N.leb_spec (steps m + units) (N.min (limit_steps (limits cfg)) usize_max)); cbn.
  - split_and!; try done; try lia; [by apply within_steps; [|lia]|]. exists ""%string. by rewrite string_app_nil_r.
  - split_and!; try done; try lia. exists ""%string. by rewrite string_app_nil_r.
Qed.

Lemma fair_reserve bytes : fair cfg (fun _ => True) (reserve_output (output_bytes cfg) bytes).
Proof.
  intros m Hw. rewrite reserve_output_spec.
  destruct (N.leb_spec (output_used m + bytes) (N.min (output_bytes cfg) usize_max)); cbn.
  - destruct Hw as (? & ? & ? & ?). split_and!; cbn; try done; try lia; [split_and!; cbn; (done || lia)|].
    exists ""%string. by rewrite string_app_nil_r.
  - split_and!; try done; try lia. exists ""%string. by rewrite string_app_nil_r.
Qed.

(** A refused operation. *)
Lemma fair_refused {A} (P : A -> Prop) message m :
  within (limits cfg) (output_bytes cfg) m ->
  let '(r, m') := @refuse _ A message m in
  within (limits cfg) (output_bytes cfg) m' /\ (steps m <= steps m')%N
  /\ (output_used m <= output_used m')%N /\ (exists text, stdout m' = (stdout m ++ text)%string)
  /\ depth m' = depth m /\ total P r.
Proof. intros Hw. cbn. split_and!; try done; try lia. exists ""%string. by rewrite string_app_nil_r. Qed.

Lemma fair_preview preview : fair cfg (fun _ => True) (reserve_preview cfg preview).
Proof.
  intros m Hw. unfold reserve_preview. destruct (json_string_encoded_len_bounded _ _) as [bytes|].
  - by apply fair_reserve.
  - by apply fair_refused.
Qed.

Lemma fair_push text : fair cfg (fun _ => True) (push_stdout (limits cfg) (output_bytes cfg) text).
Proof.
  intros m Hw. pose proof (run_op_metered (limits cfg) (output_bytes cfg) (MPrint text) m Hw sane_print) as Hm.
  rewrite push_stdout_spec by (done || apply sane_print). cbn in Hm. rewrite push_stdout_spec in Hm by (done || apply sane_print).
  destruct (_ && _); destruct Hm as (H1' & H2' & H3' & H4' & _); cbn in *; by split_and!.
Qed.

(** A charge, with a value computed beforehand. *)
Lemma fair_charged {A} (P : A -> Prop) units (a : A) m :
  P a -> within (limits cfg) (output_bytes cfg) m ->
  let '(r, m') := match charge_work (limits cfg) units m with
                  | (Ok _, m) => (Ok a, m)
                  | (Err e, m) => (Err e, m)
                  | (Panicked, m) => (Panicked, m)
                  | (OutOfFuel, m) => (OutOfFuel, m)
                  end in
  within (limits cfg) (output_bytes cfg) m' /\ (steps m <= steps m')%N
  /\ (output_used m <= output_used m')%N /\ (exists text, stdout m' = (stdout m ++ text)%string)
  /\ depth m' = depth m /\ total P r.
Proof.
  intros Ha Hw. pose proof (fair_charge units m Hw) as Hc. destruct (charge_work (limits cfg) units m) as [r m'].
  destruct Hc as (? & ? & ? & ? & ? & Hr). by destruct r; split_and!.
Qed.

Lemma fair_equal l r : fair cfg (fun _ => True) (values_equal (limits cfg) l r).
Proof.
  intros m Hw. unfold values_equal. pose proof (compare_loop_returns (S (value_nodes l + value_nodes r))
    (remaining_steps (limits cfg) m) [(l, r)] 0) as Hr.
  rewrite pairs_nodes_cons in Hr. specialize (Hr ltac:(change (pairs_nodes []) with 0; lia)).
  unfold json_semantic_eq_bounded. destruct (compare_loop _ _ _ _) as [[equal visits]|[]| |]; try done.
  - by apply fair_charged.
  - by apply fair_refused.
Qed.

Lemma fair_match p v :
  rt_wf v -> fair cfg (fun o => forall b, o = Some b -> env_wf b) (match_pattern (limits cfg) p v).
Proof.
  intros Hv m Hw. unfold match_pattern. set (n := remaining_steps (limits cfg) m).
  assert (Hn : (n < usize_max)%N) by (unfold n, remaining_steps, saturating_sub; pose proof sane_steps; lia).
  pose proof (counted_correct p v n (runtime_depth (limits cfg)) Hn) as Hc.
  destruct (match_pattern_counted n _ p v) as [bindings visits]. destruct (n <? visits)%N; [by apply fair_refused|].
  apply fair_charged; [|done]. intros b ->. destruct Hc as [(_ & E & _)|[_ E]]; [|done].
  symmetry in E. eapply match_ref_wf; [exact Hv| |exact E]. constructor.
Qed.
(** Nothing is claimed of the result. *)
Abbreviation done_ := (fun _ _ => True).

Lemma k_step (l : Local) s : local_ok l -> keeps done_ (em_step cfg) l s.
Proof. intros. by apply keeps_metered; [apply fair_charge|]. Qed.

Lemma k_charge units (l : Local) s : local_ok l -> keeps done_ (em_charge_work cfg units) l s.
Proof. intros. by apply keeps_metered; [apply fair_charge|]. Qed.

Lemma k_equal v w (l : Local) s : local_ok l -> keeps done_ (em_values_equal cfg v w) l s.
Proof. intros. by apply (keeps_metered cfg (fun _ => True)); [apply fair_equal|]. Qed.

Lemma k_match p v (l : Local) s :
  local_ok l -> rt_wf v -> keeps (fun o _ => forall b, o = Some b -> env_wf b) (em_match_pattern cfg p v) l s.
Proof.
  intros Hl Hv. by apply (keeps_metered cfg (fun o => forall b, o = Some b -> env_wf b)); [apply fair_match|].
Qed.

Lemma k_push text (l : Local) s : local_ok l -> keeps done_ (em_push_stdout cfg text) l s.
Proof. intros. by apply keeps_metered; [apply fair_push|]. Qed.

Lemma k_reserve bytes (l : Local) s : local_ok l -> keeps done_ (em_reserve_output cfg bytes) l s.
Proof. intros. by apply keeps_metered; [apply fair_reserve|]. Qed.

Lemma k_preview preview (l : Local) s : local_ok l -> keeps done_ (em_reserve_preview cfg preview) l s.
Proof. intros. by apply keeps_metered; [apply fair_preview|]. Qed.

Lemma k_attempt_preview {B} preview (P : B -> Shared -> Prop) k (l : Local) s :
  local_ok l -> (forall r s1, total (fun _ => True) r -> respects s s1 -> keeps P (k r) l s1) ->
  keeps P (attempt (em_reserve_preview cfg preview) ≫= k) l s.
Proof. intros. by eapply keeps_attempt_metered; [apply fair_preview|..]. Qed.

Lemma k_remaining (l : Local) s : keeps done_ (em_remaining_output cfg) l s.
Proof. by apply keeps_access. Qed.

Lemma k_yield (l : Local) s : keeps done_ yield_now l s.
Proof. by apply keeps_await. Qed.

Lemma k_cooperate n (l : Local) s : local_ok l -> keeps done_ (cooperate cfg n) l s.
Proof.
  intros Hl. unfold cooperate. eapply keeps_bind; [by apply k_charge|]. intros _ s1 _ _.
  case_match; [|by apply keeps_ret]. eapply keeps_bind; [apply k_yield|]. intros _ s2 _ _. by apply keeps_ret.
Qed.

Lemma k_capture bytes (l : Local) s : keeps done_ (ensure_capture cfg bytes) l s.
Proof. unfold ensure_capture. intros Hs. by repeat case_match. Qed.

Lemma total_ensure v : total (fun _ => True) (ensure_value cfg v).
Proof. unfold ensure_value. by case_match. Qed.

Lemma total_add_size allocated v bytes : total (fun _ => True) (add_value_size cfg allocated v bytes).
Proof. unfold add_value_size. by case_match. Qed.

(** A value that passes a last check. *)
Lemma k_ensured v (l : Local) s : rt_wf v -> keeps (fun v _ => rt_wf v) (lift_result (ensure_value cfg v);; mret v) l s.
Proof.
  intros Hv. eapply keeps_bind; [apply (keeps_lift _ done_), total_ensure|]. intros _ s1 _ _. by apply keeps_ret.
Qed.

Lemma k_new_callable c (l : Local) s : callable_wf c -> keeps (fun v _ => rt_wf v) (new_callable c) l s.
Proof. intros Hc. by apply keeps_access. Qed.

Lemma k_next_node (l : Local) s : keeps done_ next_node l s.
Proof. by apply keeps_access. Qed.

(** The address of a machine stays valid. *)
Lemma respects_address s s' a :
  respects s s' -> (a < length (machines s))%nat -> (a < length (machines s'))%nat.
Proof. intros [Hm _] Ha. lia. Qed.

Lemma k_or_limit {A} (P : A -> Shared -> Prop) (m : EM A) message (l : Local) s :
  keeps P m l s -> keeps P (or_limit m message) l s.
Proof.
  intros Hm. unfold or_limit. eapply keeps_attempt_bind; [exact Hm|]. intros r s1 Hr _.
  by destruct r.
Qed.

(** ** Events with a machine *)

Lemma k_clear node (l : Local) s : keeps done_ (clear_active_effect node) l s.
Proof. apply keeps_on_active. Qed.

Lemma k_effect_terminal node payload (l : Local) s : keeps done_ (emit_effect_terminal node payload) l s.
Proof.
  unfold emit_effect_terminal. eapply keeps_bind; [apply keeps_on_active|]. intros _ s1 _ _.
  eapply keeps_bind; [by apply (keeps_emit _ _ _ _ _ done_)|]. intros _ s2 _ _. apply k_clear.
Qed.

(** What the tracing policy and a host function leave: a result of the host. *)
Definition hosted {A} (r : outcome HostError A * EventFailure) (_ : Shared) : Prop := returns r.1.

Lemma k_traced_bind {A B} (m : EM (outcome HostError A * EventFailure)) (k : A -> EventFailure -> EM (outcome HostError B * EventFailure)) (l : Local) s :
  keeps hosted m l s ->
  (forall a failure s1, respects s s1 -> keeps hosted (k a failure) l s1) ->
  keeps hosted (traced_bind m k) l s.
Proof.
  intros Hm Hk. eapply keeps_bind; [exact Hm|]. intros [r failure] s1 Hr HR.
  destruct r; try done. by apply Hk.
Qed.

Lemma suspend_returns m : returns (suspend m).1.
Proof.
  unfold suspend, next_generation. case_bool_decide; [done|].
  rewrite sane_release. destruct (generation m <? usize_max)%N; done.
Qed.

Lemma resume_returns token m : returns (resume token m).1.
Proof. unfold resume. by repeat case_match. Qed.

Lemma terminal_returns operation st m : returns (terminal operation st m).1.
Proof. unfold terminal. by repeat case_match. Qed.

(** Any operation of a machine that returns. *)
Lemma k_machine {A} address (operation : EffectMachine -> outcome EffectMachineError A * EffectMachine) (l : Local) s :
  (address < length (machines s))%nat -> (forall m, returns (operation m).1) ->
  keeps (fun r _ => returns r) (@machine_op _ Local A address operation) l s.
Proof. intros Ha Hop. apply keeps_machine_op; [done|]. intros m s'. apply Hop. Qed.

Lemma k_machine_traced {A} address (operation : EffectMachine -> outcome EffectMachineError A * EffectMachine) failure (l : Local) s :
  (address < length (machines s))%nat -> (forall m, returns (operation m).1) ->
  keeps hosted (r ← machine_op address operation; mret (machine_result r, failure)) l s.
Proof.
  intros Ha Hop. eapply keeps_bind; [by apply k_machine|]. intros r s1 Hr _. apply keeps_ret. by destruct r.
Qed.

Lemma k_runtime_event event payload failure (l : Local) s : keeps hosted (emit_runtime_event event payload failure) l s.
Proof.
  unfold emit_runtime_event. eapply keeps_bind; [by apply (keeps_await _ _ _ _ done_)|].
  intros [[]|e] s1 _ _; by apply keeps_ret.
Qed.
Lemma k_request name node address sensitive parent action timeout failure (l : Local) s :
  admitted cfg name -> local_ok l -> (address < length (machines s))%nat ->
  keeps hosted (tracing_request cfg name node address sensitive parent action timeout failure) l s.
Proof.
  intros Hname Hl Ha. unfold tracing_request.
  apply k_traced_bind; [apply k_machine_traced; [done|apply suspend_returns]|]. intros token f1 s1 HR1.
  apply k_attempt_preview; [done|]. intros r s2 Hr HR2. destruct r; try done.
  apply k_traced_bind; [apply k_runtime_event|]. intros _ f3 s3 HR3.
  assert (Ha3 : (address < length (machines s3))%nat)
    by (eapply respects_address; [|exact Ha]; etrans; [exact HR1|]; by etrans).
  eapply keeps_bind; [by apply (keeps_await _ _ _ _ done_)|]. intros [decision|error] s4 _ HR4.
  - apply k_traced_bind; [apply k_machine_traced; [by eapply respects_address|apply resume_returns]|].
    intros _ f5 s5 HR5. apply k_traced_bind; [apply k_runtime_event|]. intros _ f6 s6 HR6. by apply keeps_ret.
  - apply k_traced_bind; [apply k_machine_traced; [by eapply respects_address|apply terminal_returns]|].
    intros _ f5 s5 HR5. by apply keeps_ret.
Qed.

Lemma k_plan name node address sensitive parent plan : forall failure (l : Local) s,
  admitted cfg name \/ (exists r, plan = HReturn r) -> local_ok l -> (address < length (machines s))%nat ->
  keeps hosted (run_plan cfg name node address sensitive parent plan failure) l s.
Proof.
  induction plan as [[v|e]|action timeout k IH|event payload k IH|request k IH]; intros failure l s Hname Hl Ha;
    cbn [run_plan]; try (by apply keeps_ret); destruct Hname as [Hname|[r Hr]]; try discriminate Hr.
  - eapply keeps_bind; [by apply k_request|]. intros [r f1] s1 Hr HR. cbn in *.
    destruct r; try done; (apply IH; [by left|done|by eapply respects_address]).
  - eapply keeps_bind; [by apply (keeps_await _ _ _ _ done_)|]. intros a s1 _ HR.
    apply IH; [by left|done|by eapply respects_address].
  - eapply keeps_bind; [by apply (keeps_await _ _ _ _ done_)|]. intros a s1 _ HR.
    apply IH; [by left|done|by eapply respects_address].
Qed.

(** The host lets a call through or answers at once. *)
Lemma invoke_admitted name args : admitted cfg name \/ exists r, invoke name args (invocation cfg) (registry cfg) = HReturn r.
Proof.
  unfold invoke, admitted. destruct (host_permits _ name); [|right; by eexists].
  destruct (bm_get name _) as [f|]; [left; by split; [|eexists]|right; by eexists].
Qed.

(** After an operation of the machine whose answer does not matter. *)
Lemma k_machine_then {A B} (P : B -> Shared -> Prop) address
    (operation : EffectMachine -> outcome EffectMachineError A * EffectMachine) (k : EM B) (l : Local) s :
  (forall s1, respects s s1 -> keeps P k l s1) -> keeps P (machine_op address operation;; k) l s.
Proof. intros Hk. eapply keeps_bind; [apply keeps_machine_any|]. intros _ s1 _ HR. by apply Hk. Qed.

(** A terminal event, then an error. *)
Lemma k_terminal_raise {A} (P : A -> Shared -> Prop) node payload e (l : Local) s :
  keeps P (emit_effect_terminal node payload;; raise e) l s.
Proof. eapply keeps_bind; [apply k_effect_terminal|]. intros _ s1 _ _. apply keeps_raise. Qed.

Lemma k_perform name argument (l : Local) s :
  local_ok l -> keeps (fun v _ => rt_wf v) (perform cfg name argument) l s.
Proof.
  intros Hl. unfold perform. eapply keeps_bind; [apply k_next_node|]. intros index s1 _ _.
  destruct (negb (json_fits cfg _)); [apply keeps_raise|].
  eapply keeps_bind; [apply k_or_limit; by apply k_preview|]. intros _ s2 _ _. apply keeps_get_bind.
  eapply keeps_bind; [apply (keeps_access _ (fun a s' => (a < length (machines s'))%nat))|].
  { split_and!; cbn; try done. rewrite length_app. lia. }
  { intros s' [Hm _]. cbn in Hm |- *. rewrite length_app in Hm. cbn in Hm. lia. }
  intros address s3 Ha _. eapply keeps_bind; [apply keeps_on_active|]. intros _ s4 _ HR4.
  eapply keeps_attempt_bind; [by apply (keeps_emit _ _ _ _ _ done_)|]. intros started s5 Hst HR5.
  destruct started; try done; [|eapply keeps_bind; [apply k_clear|]; intros _ s6 _ _; apply keeps_raise].
  assert (Ha5 : (address < length (machines s5))%nat) by (eapply respects_address; [|exact Ha]; by etrans).
  eapply keeps_bind; [apply k_plan; [apply invoke_admitted|done..]|]. intros [invoked failure] s6 Hinv HR6.
  destruct failure as [error|]; [apply k_machine_then; intros; apply keeps_raise|].
  destruct invoked as [value|error| |]; try done.
  - destruct (negb (json_fits cfg value)); [apply k_machine_then; intros; apply k_terminal_raise|].
    apply k_attempt_preview; [done|]. intros reserved s7 Hres HR7.
    destruct reserved; try done; [|apply k_machine_then; intros; apply k_terminal_raise].
    eapply keeps_bind.
    { apply k_machine; [|apply terminal_returns]. eapply respects_address; [|exact Ha5]. by etrans. }
    intros completed s8 Hc _. destruct completed; try done.
    eapply keeps_bind; [apply k_effect_terminal|]. intros _ s9 _ _. apply k_ensured, from_json_wf.
  - apply k_machine_then. intros s7 HR7. apply k_attempt_preview; [done|].
    intros reserved s8 Hres HR8. destruct reserved; try done; apply k_terminal_raise.
Qed.

(** ** Interpolation *)

Lemma fragment_shorter cs : forall depth inside after,
  fragment_of depth cs = Some (inside, after) -> length after < length cs.
Proof.
  induction cs as [|c cs IH]; intros depth inside after; [done|]. cbn. case_match.
  - destruct depth as [|[|d]]; [intros [= _ <-]; lia..|].
    intros ([i a] & E & [= _ <-])%bind_Some. apply IH in E. lia.
  - intros ([i a] & E & [= _ <-])%bind_Some. apply IH in E. lia.
Qed.

Lemma name_shorter cs : length (name_of cs).2 <= length cs.
Proof.
  induction cs as [|c cs IH]; [done|]. cbn. destruct (_ || _); [|done]. destruct (name_of cs). cbn in *. lia.
Qed.

Lemma total_render_into output v : total (fun _ => True) (render_into cfg output v).
Proof.
  unfold render_into, render_value_bounded, push_interpolation.
  destruct v; cbn; repeat (case_match; cbn; try done).
Qed.

End Facts.
