(* ===== verification/EvaluatorFacts.v ===== *)
(** * Evaluation is safe and ends under every schedule

    One induction over the nesting budget shows, for every expression and every
    application: own fields restored, well-formed results, no panic, no missing
    fuel, and only disciplined accesses of the shared state. *)

From stdpp Require Import base tactics list strings.
From Stdlib Require Import ZArith NArith Lia RelationClasses Permutation.
From S2P Require Import Prelude BTree Text Strings Numbers Syntax Lexer Parser ParserFacts ScopedMap Machine Catalog Value ValueFacts Operators OperatorFacts Limits Host Render Sizing Task Runtime Effects Parallel Builtins Evaluator EvalLogic EffectFacts.

(** ** Sorting *)

Lemma insert_by_perm {X} cmp (x : X) l : Permutation (insert_by cmp x l) (x :: l).
Proof.
  induction l as [|y l IH]; [done|]. cbn. case_match; try done. rewrite IH. apply perm_swap.
Qed.

Lemma sort_by_perm {X} cmp (l : list X) : Permutation (sort_by cmp l) l.
Proof. induction l as [|x l IH]; [done|]. cbn. rewrite insert_by_perm. by constructor. Qed.

(** ** The subtree of a scope is found *)

Section Discover.
Context {X : Type} (parent : X -> option string).

Definition undiscovered (scopes : list (string * X)) (depths : list (string * N)) : nat :=
  length (List.filter (fun c => negb (bm_contains c.1 depths)) scopes).

Lemma undiscovered_le scopes d1 d2 :
  (forall n, bm_contains n d1 = true -> bm_contains n d2 = true) ->
  undiscovered scopes d2 <= undiscovered scopes d1.
Proof.
  intros Hd. induction scopes as [|[n c] scopes IH]; [done|]. unfold undiscovered in *. cbn.
  specialize (Hd n). destruct (bm_contains n d1), (bm_contains n d2); cbn; lia.
Qed.

Lemma undiscovered_lt scopes d1 d2 n c :
  (forall n, bm_contains n d1 = true -> bm_contains n d2 = true) -> In (n, c) scopes ->
  bm_contains n d1 = false -> bm_contains n d2 = true -> undiscovered scopes d2 < undiscovered scopes d1.
Proof.
  intros Hd Hin H1 H2. induction scopes as [|[n' c'] scopes IH]; [done|].
  pose proof (undiscovered_le scopes d1 d2 Hd) as Hle. unfold undiscovered in *. cbn.
  destruct Hin as [[= -> ->]|Hin]; [rewrite H1, H2; cbn; lia|]. specialize (IH Hin). pose proof (Hd n') as Hn.
  destruct (bm_contains n' d1), (bm_contains n' d2); cbn; lia.
Qed.

Lemma bm_contains_insert {V} k k' (v : V) m : bm_contains k m = true -> bm_contains k (bm_insert k' v m) = true.
Proof. rewrite !bm_contains_true, bm_keys_insert_In. auto. Qed.

(** A pass only adds scopes, and says so. *)
Lemma discover_pass_adds scopes depths :
  let '(depths', changed) := discover_pass parent scopes depths in
  (forall n, bm_contains n depths = true -> bm_contains n depths' = true) /\
  (changed = true -> undiscovered scopes depths' < undiscovered scopes depths).
Proof.
  unfold discover_pass. assert (Hgen : forall l acc changed, (forall c, In c l -> In c scopes) ->
    (forall n, bm_contains n depths = true -> bm_contains n acc = true) ->
    (changed = true -> undiscovered scopes acc < undiscovered scopes depths) ->
    let '(depths', changed') := foldl (fun '(depths, changed) '(node, child) =>
      if bm_contains node depths then (depths, changed)
      else match (p ← parent child; bm_get p depths) with
           | None => (depths, changed)
           | Some parent_depth => (bm_insert node (saturating_add parent_depth 1) depths, true)
           end) (acc, changed) l in
    (forall n, bm_contains n depths = true -> bm_contains n depths' = true) /\
    (changed' = true -> undiscovered scopes depths' < undiscovered scopes depths)).
  { induction l as [|[n c] l IH]; intros acc changed Hl Ha Hc; [done|]. cbn [foldl].
    destruct (bm_contains n acc) eqn:En; [apply IH; [intros; apply Hl; by right|done..]|].
    destruct (_ ≫= _) as [d|]; [|apply IH; [intros; apply Hl; by right|done..]].
    apply IH; [intros; apply Hl; by right|intros; by apply bm_contains_insert, Ha|intros _].
    apply Nat.lt_le_trans with (undiscovered scopes acc); [|by apply undiscovered_le].
    apply undiscovered_lt with n c; [intros; by apply bm_contains_insert|apply Hl; by left|done|].
    apply bm_contains_true, bm_keys_insert_In. by left. }
  by apply Hgen.
Qed.

Lemma discover_finishes fuel : forall scopes depths,
  undiscovered scopes depths < fuel -> is_Some (discover fuel parent scopes depths).
Proof.
  induction fuel as [|fuel IH]; intros scopes depths Hf; [lia|]. cbn [discover].
  pose proof (discover_pass_adds scopes depths) as Hp. destruct (discover_pass _ _ _) as [depths' []]; [|done].
  apply IH. destruct Hp as [_ Hp]. specialize (Hp eq_refl). lia.
Qed.
End Discover.

Lemma take_scope_finishes `{JsonNumber} scope a : is_Some (take_scope scope a).
Proof.
  unfold take_scope. destruct (discover_finishes parent_node_id (S (length (active_scopes a)))
    (active_scopes a) [(scope, 0%N)]) as [depths ->]; [|by eexists].
  unfold undiscovered. pose proof (List.filter_length_le (fun c => negb (bm_contains c.1 [(scope, 0%N)])) (active_scopes a)).
  lia.
Qed.

(** ** The key of a group is a text or an error *)

Section GroupKeys.
Context `{JsonText}.

Definition appends (a : Appending) : Prop := forall w, total (fun _ => True) (a w).1.

Lemma appends_key piece : appends (write_key piece).
Proof. intros w. unfold write_key. destruct (write_all piece w) as [[] w']; done. Qed.

Lemma appends_then first second : appends first -> appends second -> appends (then_append first second).
Proof. intros Hf Hs w. unfold then_append. specialize (Hf w). destruct (first w) as [[]]; cbn in *; [apply Hs|done..]. Qed.

Lemma appends_each {X} (f : X -> Appending) xs : Forall (fun x => appends (f x)) xs -> appends (append_each f xs).
Proof. induction 1; [by intros w|]. by apply appends_then. Qed.

#[local] Hint Resolve appends_key appends_then : core.

Fixpoint append_key_appends max_depth (v : Value) : forall depth, appends (append_key max_depth v depth).
Proof.
  intros depth. destruct v as [| | | | | |vs|fs|n [p|]|]; cbn [append_key]; destruct (max_depth <=? depth)%N;
    try (by intros w); auto.
  - apply appends_then; [auto|]. apply appends_then; [|auto]. apply appends_each.
    induction vs as [|v vs IH]; constructor; [auto|apply IH].
  - apply appends_then; [auto|]. apply appends_then; [|auto]. apply appends_each.
    induction fs as [|f fs IH]; constructor; [auto 6|apply IH].
  - apply appends_then; [auto|]. by apply appends_then; [auto|intros w].
Qed.

Lemma total_group_key max_depth v n : total (fun _ => True) (group_key max_depth v n).
Proof.
  unfold group_key. pose proof (append_key_appends max_depth v 0 (writer_new n true)) as Ha.
  destruct (append_key _ _ _ _) as [[] w]; cbn in *; try exact Ha.
  by destruct (exceeded w).
Qed.
End GroupKeys.

Section Facts.
Context `{UnicodeTables} `{JsonStr} `{StdText} `{JsonText} `{Layout} `{BuildProfile} `{KeySort}.
Variable cfg : Setup.
Context `{!SaneRuntime cfg}.

Abbreviation keeps := (keeps cfg).
Abbreviation leaves := (leaves cfg).
Abbreviation respects := (respects cfg).
Abbreviation local_ok := (local_ok cfg).
Abbreviation done_ := (fun _ _ => True).

Section Recursion.
(** The recursive calls at hand, for own fields that satisfy [ok]. *)
Variable rec : Call -> EM Value.
Variable ok : Local -> Prop.
Hypothesis ok_local : forall l, ok l -> local_ok l.
Hypothesis ok_change : forall l l', ok l -> env_wf (env l') -> local_depth l' = local_depth l -> ok l'.
Hypothesis rec_expr_keeps : forall e l s, ok l -> keeps (fun v _ => rt_wf v) (rec_expr rec e) l s.
Hypothesis rec_apply_keeps : forall f a l s,
  ok l -> rt_wf f -> rt_wf a -> keeps (fun v _ => rt_wf v) (rec_apply rec f a) l s.

Lemma k_interpolate_from fuel : forall output cs (l : Local) s,
  ok l -> length cs < fuel -> keeps done_ (interpolate_from cfg (rec_expr rec) fuel output cs) l s.
Proof.
  induction fuel as [|fuel IH]; intros output cs l s Hl Hf; [lia|]. cbn [interpolate_from].
  destruct cs as [|c rest]; [by apply keeps_ret|]. cbn in Hf.
  destruct (_ && _); [apply IH; [done|]; rewrite length_drop; lia|].
  destruct (negb _); [apply IH; [done|lia]|].
  destruct rest as [|d inside]; [apply IH; [done|lia]|]. destruct (d =? chr "{")%N.
  - destruct (fragment_of 1 inside) as [[fragment after]|] eqn:E; [|apply keeps_raise].
    apply fragment_shorter in E. eapply keeps_bind; [apply (keeps_lift _ done_)|].
    { pose proof (parse_bounded_spec fragment (source_bytes (limits cfg)) (syntax_nodes (limits cfg))
        (parse_depth (limits cfg)) sane_parse). by destruct (parse_bounded _ _ _ _). }
    intros parsed s1 _ _. destruct (forms parsed) as [|f [|]]; try apply keeps_raise.
    destruct (node f); try apply keeps_raise.
    eapply keeps_bind; [by apply rec_expr_keeps|]. intros v s2 _ _.
    eapply keeps_bind; [apply (keeps_lift _ done_), total_render_into|]. intros output' s3 _ _.
    apply IH; [done|cbn in Hf; lia].
  - pose proof (name_shorter (d :: inside)) as Hn. destruct (name_of (d :: inside)) as [name after] eqn:En. cbn in Hn.
    destruct name as [|n name]; [apply IH; [done|cbn in *; lia]|]. apply keeps_get_bind.
    destruct (bm_get _ _) as [v|]; [|apply keeps_raise].
    eapply keeps_bind; [apply (keeps_lift _ done_), total_render_into|]. intros output' s3 _ _.
    apply IH; [done|]. cbn in Hn, Hf. assert (Hlt : length after <= length inside); [|lia].
    cbn in En. destruct (_ || _); [|done]. pose proof (name_shorter inside) as Hi.
    destruct (name_of inside). by simplify_eq.
Qed.

Lemma k_interpolate source (l : Local) s : ok l -> keeps done_ (interpolate cfg (rec_expr rec) source) l s.
Proof. intros. by apply k_interpolate_from; [|lia]. Qed.

(** ** Parallel scopes *)

Lemma k_start_scope kind total (l : Local) s : keeps done_ (start_scope cfg kind total) l s.
Proof.
  unfold start_scope. eapply keeps_bind; [apply k_next_node|]. intros index s1 _ _. apply keeps_get_bind.
  eapply keeps_bind; [apply keeps_on_active|]. intros _ s2 _ _.
  eapply keeps_attempt_bind; [by apply (keeps_emit _ _ _ _ _ done_)|]. intros started s3 Hst _.
  destruct started; try done. eapply keeps_bind; [apply keeps_on_active|]. intros _ s4 _ _. apply keeps_raise.
Qed.

Lemma k_finish_scope node error n (l : Local) s : local_ok l -> keeps done_ (finish_scope cfg node error n) l s.
Proof.
  intros Hl. unfold finish_scope. apply keeps_get_bind. eapply keeps_bind.
  - destruct error as [error|]; [|by apply (keeps_ret _ done_)].
    apply k_attempt_preview; [done|]. intros r s1 Hr _.
    destruct r; try done; by apply (keeps_ret _ done_).
  - intros payload s1 _ _. eapply keeps_bind; [apply keeps_on_active|]. intros _ s2 _ _.
    eapply keeps_bind; [by apply (keeps_emit _ _ _ _ _ done_)|]. intros _ s3 _ _. apply keeps_on_active.
Qed.

Lemma k_emit_each {X} (body : X -> EM unit) xs (l : Local) s :
  (forall x s, keeps done_ (body x) l s) -> keeps done_ (for_em (fun _ x => body x) tt xs) l s.
Proof. intros Hb. by apply (keeps_for cfg (fun _ => True)). Qed.

Lemma k_cancel_scope scope (l : Local) s : keeps done_ (cancel_scope_effects cfg scope) l s.
Proof.
  unfold cancel_scope_effects. eapply keeps_bind.
  - apply (keeps_access _ (fun r _ => is_Some r)).
    + destruct (active s) as [a|]; [|by split_and!]. destruct (take_scope scope a) as [[c a']|]; by split_and!.
    + intros s' _. destruct (active s) as [a|]; [|by eexists].
      destruct (take_scope_finishes scope a) as [[c a'] ->]. by eexists.
  - intros taken s1 [c ->] _. destruct c as [c|]; [|by apply keeps_ret].
    eapply keeps_bind; [apply (keeps_for cfg (fun _ => True)); [|done]|].
    { intros _ [node effect] s2 _ _ _. eapply (keeps_bind _ done_).
      - unfold cancel_effect. destruct (effect_terminal effect); [by apply keeps_ret|].
        eapply keeps_bind; [apply keeps_machine_any|]. intros _ s3 _ _. by apply keeps_ret.
      - intros payload s3 _ _. by apply (keeps_emit _ _ _ _ _ done_). }
    intros _ s2 _ _. eapply keeps_bind; [apply (keeps_for cfg (fun _ => True)); [|done]|].
    { intros _ [[node child] d] s3 _ _ _. by apply (keeps_emit _ _ _ _ _ done_). }
    intros _ s3 _ _. by apply keeps_ret.
Qed.

(** A branch runs on a fork, whose fields are dropped. *)
Lemma branch_safe scope (l : Local) m s :
  ok l -> (forall l s, ok l -> keeps (fun v _ => rt_wf v) m l s) -> disciplined cfg s ->
  safe respects branch_post collect_post branch_post (branch scope l m) s.
Proof.
  intros Hl Hm Hs. unfold branch. apply safe_bind.
  assert (Hf : ok (fork_child scope l)) by (eapply ok_change; [exact Hl|apply (ok_local _ Hl)|done]).
  eapply safe_mono; [apply _| |exact (Hm _ s Hf Hs)]. intros [r l1] s1 _ (_ & _ & Hr). exact Hr.
Qed.

Lemma collect_safe scope total (l : Local) st key v s :
  collect_post (Ok st) s -> branch_post (Ok v) s -> disciplined cfg s ->
  safe respects branch_post collect_post collect_post (collect cfg scope total l st key v) s.
Proof.
  intros Hst Hv Hs. unfold collect. apply safe_bind.
  assert (Hk : keeps (fun st s => collect_post (Ok st) s)
    (allocated ← lift_result (add_value_size cfg (par_allocated st) v 0);
      on_active (fun a =>
        match bm_get scope (active_scopes a) with
        | Some s =>
            set_scopes (bm_insert scope (mkActiveScope (scope_total s) (par_completed st + 1) (parent_node_id s)
                          (scope_terminal s)) (active_scopes a)) a
        | None => a
        end);;
      emit "scope_progress"
        (json_object (scope_fields cfg scope (scope_id l)
           ++ [("completed", json_usize (par_completed st + 1)); ("total", json_usize total)]%string));;
      mret (mkPar (par_completed st + 1) allocated (par_output st ++ [(key, v)]))) l s).
  { eapply keeps_bind; [apply (keeps_lift _ done_), total_add_size|]. intros allocated s1 _ _.
    eapply keeps_bind; [apply keeps_on_active|]. intros _ s2 _ _.
    eapply keeps_bind; [by apply (keeps_emit _ _ _ _ _ done_)|]. intros _ s3 _ _. apply keeps_ret.
    apply Forall_app. by split; [|constructor]. }
  eapply safe_mono; [apply _| |exact (Hk Hs)]. intros [r l1] s1 _ (_ & _ & Hr). by destruct r.
Qed.

Lemma k_run_parallel work scope (l : Local) s :
  ok l -> Forall (fun w => forall l s, ok l -> keeps (fun v _ => rt_wf v) w.2 l s) work ->
  keeps (fun out _ => Forall (fun o => rt_wf o.2) out) (run_parallel cfg work scope) l s.
Proof.
  intros Hl Hw. unfold run_parallel. destruct work as [|w work]; [by apply (keeps_ret _ (fun out _ => Forall (fun o => rt_wf o.2) out) [])|].
  set (all := w :: work) in *. clearbody all. intros Hs.
  assert (Hnext : forall s', respects s s' -> disciplined cfg s') by (intros s' [_ HR]; by apply HR).
  assert (Hbranches : Forall (fun c => stably respects (safe respects branch_post collect_post branch_post c.2) s)
    (List.map (fun '(key, m) => (key, branch scope l m)) all)).
  { clear -Hw Hl ok_local ok_change Hnext. induction Hw as [|[key m] work Hm _ IH]; cbn [List.map]; constructor; [|exact IH].
    intros s' HR. apply branch_safe; [exact Hl|exact Hm|by apply Hnext]. }
  apply safe_par. split_and!.
  - intros s' _. constructor.
  - by apply Forall_take.
  - by apply Forall_drop.
  - intros st key v s' HR Hst Hv. apply collect_safe; auto.
  - intros r s' HR Hr. destruct r as [st|e| |]; try done; cbn; split_and!; auto.
    by rewrite sort_by_perm.
Qed.

Lemma k_end_scope node r (l : Local) s :
  local_ok l -> concludes rt_wf s r -> keeps (fun v _ => rt_wf v) (end_scope cfg node r) l s.
Proof.
  intros Hl Hr. destruct r as [v|e| |]; try done; cbn.
  - eapply keeps_bind; [by apply k_finish_scope|]. intros _ s1 _ _. by apply keeps_lift.
  - eapply keeps_bind; [apply k_cancel_scope|]. intros n s1 _ _.
    eapply keeps_bind; [by apply k_finish_scope|]. intros _ s2 _ _. by apply keeps_lift.
Qed.

Lemma fields_wf out : Forall (fun o => rt_wf o.2) out -> env_wf (bm_from (omap field_of out)).
Proof.
  intros Ho. apply env_wf_extend; [constructor|]. induction Ho as [|[[name|i] v] out Hv _ IH]; cbn; [constructor|..|done].
  by constructor.
Qed.

Lemma k_parallel_expr e (l : Local) s :
  ok l -> keeps (fun v _ => rt_wf v) (parallel_expr cfg (rec_expr rec) e) l s.
Proof.
  intros Hl. unfold parallel_expr. eapply keeps_bind; [apply k_start_scope|]. intros scope s1 _ _.
  eapply (keeps_bind _ (fun r s => concludes rt_wf s r)); [|intros r s2 Hr _; apply k_end_scope; auto].
  assert (Hsingle : keeps (fun r s => concludes rt_wf s r)
    (attempt (fun l => task_bind (branch scope l (rec_expr rec e)) (fun r => Ret (r, l)))) l s1).
  { apply (keeps_attempt _ (fun v _ => rt_wf v)). intros Hs. apply safe_bind.
    unfold branch. apply safe_bind.
    assert (Hf : ok (fork_child scope l)) by (eapply ok_change; [exact Hl|apply (ok_local _ Hl)|done]).
    eapply safe_mono; [apply _| |exact (rec_expr_keeps e _ s1 Hf Hs)].
    intros [r l1] s2 _ (Hs2 & _ & Hr). cbn. by split_and!. }
  destruct (node e); try exact Hsingle.
  apply (keeps_attempt _ (fun v _ => rt_wf v)). eapply keeps_bind.
  - apply k_run_parallel; [done|]. apply List.Forall_forall. intros [key m] ([name e'] & [= <- <-] & _)%in_map_iff.
    cbn. intros l' s' Hl'. by apply rec_expr_keeps.
  - intros out s2 Hout _. apply keeps_ret. apply rt_wf_record. by apply fields_wf.
Qed.

Lemma k_parallel v (l : Local) s : local_ok l -> rt_wf v -> keeps (fun v _ => rt_wf v) (parallel cfg v) l s.
Proof.
  intros Hl Hv. unfold parallel. eapply keeps_bind; [apply k_start_scope|]. intros scope s1 _ _.
  eapply keeps_bind; [by apply k_finish_scope|]. intros _ s2 _ _. by apply keeps_ret.
Qed.

Lemma k_list_call {A} (P : A -> Shared -> Prop) args name (k : Value * list Value -> EM A) (l : Local) s :
  Forall rt_wf args ->
  (forall f vs, rt_wf f -> Forall rt_wf vs -> keeps P (k (f, vs)) l s) ->
  keeps P (r ← lift_result (list_call_args args name); k r) l s.
Proof.
  intros Ha Hk. pose proof (list_call_args_wf args name Ha) as Hr.
  destruct (list_call_args args name) as [[f vs]|e| |]; try done. destruct Hr. by apply Hk.
Qed.

Lemma k_parallel_map args (l : Local) s :
  ok l -> Forall rt_wf args -> keeps (fun v _ => rt_wf v) (parallel_map cfg (rec_apply rec) args) l s.
Proof.
  intros Hl Ha. unfold parallel_map. apply k_list_call; [done|]. intros f vs Hf Hvs.
  eapply keeps_bind; [apply k_start_scope|]. intros scope s1 _ _.
  eapply (keeps_bind _ (fun r s => concludes rt_wf s r)); [|intros r s2 Hr _; apply k_end_scope; auto].
  apply (keeps_attempt _ (fun v _ => rt_wf v)). eapply keeps_bind.
  - apply k_run_parallel; [done|]. apply List.Forall_forall. intros [key m] Hin.
    apply list_elem_of_In, list_elem_of_lookup in Hin as [i Hi]. rewrite list_lookup_imap in Hi.
    destruct (vs !! i) as [v|] eqn:Ev; [|done]. injection Hi as <- <-. cbn. intros l' s' Hl'.
    apply rec_apply_keeps; [done..|]. by eapply Forall_lookup_1.
  - intros out s2 Hout _. apply keeps_ret. apply rt_wf_list. by apply Forall_fmap.
Qed.

(** ** The functions of the prelude *)

Abbreviation valued := (fun v _ => rt_wf v).

Lemma k_arg args i (l : Local) s :
  Forall rt_wf args -> (i < length args)%nat -> keeps valued (arg args i) l s.
Proof.
  intros Ha Hi. unfold arg. destruct (lookup_lt_is_Some_2 _ _ Hi) as [v E]. rewrite E.
  apply keeps_ret. by eapply Forall_lookup_1.
Qed.

(** Takes the next argument. *)
Ltac next_arg v Hv :=
  let t := fresh "t" in
  eapply keeps_bind; [apply k_arg; [assumption|lia]|]; intros v t Hv _; cbn beta in Hv.

Lemma k_print args (l : Local) s : local_ok l -> Forall rt_wf args -> 1 <= length args -> keeps valued (builtin_print cfg args) l s.
Proof.
  intros Hl Ha Hn. unfold builtin_print. next_arg v Hv. eapply keeps_bind; [apply k_remaining|]. intros n s2 _ _.
  eapply keeps_bind; [apply (keeps_lift _ done_)|].
  { unfold render_limit, render_value_bounded. destruct v; cbn; repeat (case_match; cbn; try done). }
  intros text s3 _ _. eapply keeps_bind; [by apply k_push|]. intros _ s4 _ _. by apply keeps_ret.
Qed.

Lemma k_display_payload spec value (l : Local) s : keeps done_ (display_payload cfg spec value) l s.
Proof.
  unfold display_payload. case_match; [by apply keeps_ret|]. eapply keeps_bind; [apply k_remaining|].
  intros n s1 _ _. repeat (case_match; try apply keeps_raise). by apply keeps_ret.
Qed.

Lemma k_display args (l : Local) s : local_ok l -> Forall rt_wf args -> 2 <= length args -> keeps valued (builtin_display cfg args) l s.
Proof.
  intros Hl Ha Hn. unfold builtin_display. eapply (keeps_bind _ done_).
  { case_match; [apply k_display_payload|]. next_arg spec Hs. next_arg v Hv. apply k_display_payload. }
  intros payload s1 _ _. eapply keeps_bind; [apply k_remaining|]. intros n s2 _ _.
  case_match; [|apply keeps_raise]. eapply keeps_bind; [apply k_or_limit; by apply k_reserve|]. intros _ s3 _ _.
  eapply keeps_bind; [by apply (keeps_emit _ _ _ _ _ done_)|]. intros _ s4 _ _. apply k_arg; [done|lia].
Qed.

Lemma k_length args (l : Local) s : Forall rt_wf args -> 1 <= length args -> keeps valued (builtin_length args) l s.
Proof. intros Ha Hn. unfold builtin_length. next_arg v Hv. by destruct v; try apply keeps_raise; apply keeps_ret. Qed.

Abbreviation builds := (fun (b : Building) (_ : Shared) => Forall rt_wf b.1.1).

Lemma k_push_value b v (l : Local) s : Forall rt_wf b.1.1 -> rt_wf v -> keeps builds (build_push cfg b v) l s.
Proof.
  intros Hb Hv. destruct b as [[r a] i]. eapply keeps_bind; [apply (keeps_lift _ done_), total_add_size|].
  intros a' s1 _ _. apply keeps_ret. apply Forall_app. by split; [|constructor].
Qed.

Lemma k_build_cooperate b (l : Local) s : local_ok l -> Forall rt_wf b.1.1 -> keeps builds (build_cooperate cfg b) l s.
Proof.
  intros Hl Hb. destruct b as [[r a] i]. eapply keeps_bind; [by apply k_cooperate|]. intros i' s1 _ _. by apply keeps_ret.
Qed.

(** The loops that build a list. *)
Lemma k_build {X} (body : Building -> X -> EM Building) xs b0 (l : Local) s :
  local_ok l -> Forall rt_wf b0.1.1 ->
  (forall b x s1, In x xs -> Forall rt_wf b.1.1 -> keeps builds (body b x) l s1) ->
  keeps builds (for_em (fun b x => b ← build_cooperate cfg b; body b x) b0 xs) l s.
Proof.
  intros Hl Hb0 Hb. apply (keeps_for cfg (fun b : Building => Forall rt_wf b.1.1)); [|done].
  intros b x s1 Hin HJ _. eapply keeps_bind; [by apply k_build_cooperate|]. intros b' s2 Hb' _. by apply Hb.
Qed.

Lemma k_built m (l : Local) s : keeps builds m l s -> keeps valued (b ← m; mret (built b)) l s.
Proof. intros Hm. eapply keeps_bind; [exact Hm|]. intros b s1 Hb _. apply keeps_ret. by apply rt_wf_list. Qed.

Lemma k_strings parts (l : Local) s : local_ok l -> keeps valued (build_strings cfg parts) l s.
Proof. intros Hl. apply k_built, k_build; [done|constructor|]. intros. by apply k_push_value. Qed.

Lemma k_lines args (l : Local) s : local_ok l -> Forall rt_wf args -> 1 <= length args -> keeps valued (builtin_lines cfg args) l s.
Proof. intros Hl Ha Hn. unfold builtin_lines. next_arg v Hv. destruct v; try apply keeps_raise. by apply k_strings. Qed.

Lemma k_split args (l : Local) s : local_ok l -> Forall rt_wf args -> 2 <= length args -> keeps valued (builtin_split cfg args) l s.
Proof.
  intros Hl Ha Hn. unfold builtin_split. next_arg d Hd. next_arg v Hv.
  destruct d; try apply keeps_raise. destruct v; try apply keeps_raise. by apply k_strings.
Qed.

Lemma k_contains args (l : Local) s : Forall rt_wf args -> 2 <= length args -> keeps valued (builtin_contains args) l s.
Proof.
  intros Ha Hn. unfold builtin_contains. next_arg d Hd. next_arg v Hv.
  destruct d; try apply keeps_raise. destruct v; try apply keeps_raise. by apply keeps_ret.
Qed.

Lemma k_take args (l : Local) s : Forall rt_wf args -> 2 <= length args -> keeps valued (builtin_take args) l s.
Proof.
  intros Ha Hn. unfold builtin_take. next_arg d Hd. next_arg v Hv.
  destruct d; try apply keeps_raise. destruct v; try apply keeps_raise. apply keeps_ret, rt_wf_list.
  apply rt_wf_list in Hv. rewrite take_n_take. by apply Forall_take.
Qed.

Lemma k_merge args (l : Local) s : Forall rt_wf args -> 2 <= length args -> keeps valued (builtin_merge cfg args) l s.
Proof.
  intros Ha Hn. unfold builtin_merge. next_arg u Hu. next_arg b Hb.
  destruct u as [| | | | | | |update| |]; try apply keeps_raise.
  destruct b as [| | | | | | |base| |]; try apply keeps_raise.
  apply rt_wf_record in Hu, Hb. eapply keeps_bind.
  - apply (keeps_for cfg (fun r : Environment * N => env_wf r.1)); [|constructor].
    intros [r a] [name v] s1 Hin Hr _. eapply keeps_bind; [apply (keeps_lift _ done_), total_add_size|].
    intros a' s2 _ _. apply keeps_ret. apply env_wf_insert; [done|].
    assert (Hall : env_wf (base ++ update)) by (by apply Forall_app). unfold env_wf in Hall. rewrite List.Forall_forall in Hall.
    apply (Hall _ Hin).
  - intros [r a] s1 Hr _. apply keeps_ret. by apply rt_wf_record.
Qed.

Lemma k_map name args (l : Local) s : ok l -> Forall rt_wf args -> keeps valued (builtin_map cfg (rec_apply rec) name args) l s.
Proof.
  intros Hl Ha. unfold builtin_map. apply k_list_call; [done|]. intros f vs Hf Hvs.
  apply k_built, k_build; [auto|constructor|]. intros b v s1 Hin Hb. rewrite List.Forall_forall in Hvs.
  eapply keeps_bind; [apply rec_apply_keeps; auto|]. intros v' s2 Hv' _. by apply k_push_value.
Qed.

Lemma k_flatmap args (l : Local) s : ok l -> Forall rt_wf args -> keeps valued (builtin_flatmap cfg (rec_apply rec) args) l s.
Proof.
  intros Hl Ha. unfold builtin_flatmap. apply k_list_call; [done|]. intros f vs Hf Hvs.
  apply k_built, k_build; [auto|constructor|]. intros b v s1 Hin Hb. rewrite List.Forall_forall in Hvs.
  eapply keeps_bind; [apply rec_apply_keeps; auto|]. intros v' s2 Hv' _.
  destruct v'; try apply keeps_raise. apply rt_wf_list in Hv'. rewrite List.Forall_forall in Hv'.
  apply k_build; [auto|done|]. intros b' w s3 Hw Hb'. apply k_push_value; auto.
Qed.

Lemma k_filter name args (l : Local) s : ok l -> Forall rt_wf args -> keeps valued (builtin_filter cfg (rec_apply rec) name args) l s.
Proof.
  intros Hl Ha. unfold builtin_filter. apply k_list_call; [done|]. intros f vs Hf Hvs.
  apply k_built, k_build; [auto|constructor|]. intros b v s1 Hin Hb. rewrite List.Forall_forall in Hvs.
  eapply keeps_bind; [apply rec_apply_keeps; auto|]. intros v' s2 Hv' _.
  destruct v' as [|[]| | | | | | | |]; try (by apply keeps_ret). apply k_push_value; auto.
Qed.

(** The only panic: a sort of keys that are not totally ordered. *)
Lemma k_sort_panic {A} keyed (P : A -> Shared -> Prop) (l : Local) s :
  sort_keyed keyed = None -> keeps P (note_sort_panic keyed;; lift_result Panicked) l s.
Proof.
  intros Hnone. eapply keeps_bind; [apply (leaves_access _ _ (fun _ s' => In keyed (sort_panics s'))); [done|]|].
  - intros _. cbn. split.
    + split; [split; [done|by intros x Hx; right]|]. intros Hs. split_and!; try done; [|by exists []].
      by exists ""%string; rewrite string_app_nil_r.
    + intros s' [[_ HI] _]. apply HI. by left.
  - intros [] s1 Hin _. apply keeps_panic. exists keyed. split_and!; try done.
    intros Ho. by rewrite (sort_keyed_ordered _ Ho) in Hnone.
Qed.

Lemma k_sort_by args (l : Local) s :
  ok l -> Forall rt_wf args -> 3 <= length args -> keeps valued (builtin_sort_by cfg (rec_apply rec) args) l s.
Proof.
  intros Hl Ha Hn. unfold builtin_sort_by. next_arg f Hf. next_arg d Hd. next_arg items Hi.
  destruct items as [| | | | | |vs| | |]; try apply keeps_raise. apply rt_wf_list in Hi. rewrite List.Forall_forall in Hi.
  eapply keeps_bind; [apply (keeps_for cfg (fun st : list (Value * Value) * N * N => Forall (fun p => rt_wf p.2) st.1.1)); [|constructor]|].
  { intros [[keyed a] i] v s1 Hin Hk _. eapply keeps_bind; [apply k_cooperate; auto|]. intros i' s2 _ _.
    eapply keeps_bind; [apply rec_apply_keeps; auto|]. intros key s3 _ _.
    eapply keeps_bind; [apply (keeps_lift _ done_), total_add_size|]. intros a' s4 _ _.
    eapply keeps_bind; [apply (keeps_lift _ done_), total_add_size|]. intros a'' s5 _ _.
    apply keeps_ret. apply Forall_app. split; [done|]. constructor; [by apply Hi|constructor]. }
  intros [[keyed a] i] s1 Hk _. eapply keeps_bind; [apply k_charge; auto|]. intros _ s2 _ _.
  eapply keeps_bind; [apply k_yield|]. intros _ s3 _ _. cbn in Hk.
  destruct (sort_keyed keyed) as [sorted|] eqn:Es; [|by apply k_sort_panic]. apply keeps_ret, rt_wf_list.
  rewrite (sort_keyed_perm _ _ Es) in Hk. case_match; [apply Forall_rev|]; by apply Forall_fmap.
Qed.

Lemma k_group_by args (l : Local) s : ok l -> Forall rt_wf args -> keeps valued (builtin_group_by cfg (rec_apply rec) args) l s.
Proof.
  intros Hl Ha. unfold builtin_group_by. apply k_list_call; [done|]. intros f vs Hf Hvs. rewrite List.Forall_forall in Hvs.
  set (grouped := fun g : string * (Value * list Value) => rt_wf g.2.1 /\ Forall rt_wf g.2.2).
  eapply keeps_bind; [apply (keeps_for cfg (fun st : list (string * (Value * list Value)) * N * N => Forall grouped st.1.1)); [|constructor]|].
  { intros [[groups a] i] v s1 Hin Hg _. eapply keeps_bind; [apply k_cooperate; auto|]. intros i' s2 _ _.
    eapply keeps_bind; [apply rec_apply_keeps; auto|]. intros key s3 Hkey _.
    eapply keeps_bind; [apply (keeps_lift _ done_), total_group_key|]. intros group s4 _ _.
    eapply (keeps_bind _ done_); [case_match; [by apply keeps_ret|apply keeps_lift, total_add_size]|]. intros a' s5 _ _.
    eapply keeps_bind; [apply (keeps_lift _ done_), total_add_size|]. intros a'' s6 _ _. cbn in Hg.
    assert (Hold : grouped (group, default (key, []) (bm_get group groups))).
    { destruct (bm_get group groups) as [g|] eqn:E; [|by split]. apply bm_get_In in E.
      rewrite List.Forall_forall in Hg. apply (Hg _ E). }
    destruct (default _ _) as [first rows]. destruct Hold as [Hfirst Hrows].
    apply keeps_ret, Forall_bm_insert; [|done]. split; [done|]. apply Forall_app. split; [done|].
    constructor; [by apply Hvs|constructor]. }
  intros [[groups a] i] s1 Hg _. apply keeps_ret, rt_wf_list. cbn in Hg. apply List.Forall_map.
  eapply Forall_impl; [exact Hg|]. intros [k [key rows]] [Hk Hr]. apply rt_wf_record.
  apply env_wf_extend; [constructor|]. repeat constructor; [done|]. by apply rt_wf_list.
Qed.

Lemma k_sum args (l : Local) s : local_ok l -> Forall rt_wf args -> 1 <= length args -> keeps valued (builtin_sum cfg args) l s.
Proof.
  intros Hl Ha Hn. unfold builtin_sum. next_arg v Hv. destruct v as [| | | | | |vs| | |]; try apply keeps_raise.
  eapply keeps_bind; [by apply k_charge|]. intros _ s2 _ _. eapply keeps_bind; [apply k_yield|]. intros _ s3 _ _.
  case_match; [case_match; [by apply keeps_ret|apply keeps_raise]|].
  eapply keeps_bind; [apply (keeps_lift _ done_)|intros; by apply keeps_ret].
  clear. generalize (SpecFloat.S754_zero false). induction vs as [|v vs IH]; intros f; [done|]. by destruct v; try apply IH.
Qed.

Lemma k_help args (l : Local) s : Forall rt_wf args -> 1 <= length args -> keeps valued (builtin_help cfg args) l s.
Proof.
  intros Ha Hn. unfold builtin_help. next_arg v Hv.
  assert (Htext : forall s, keeps valued (render ← lift_result (render_limit cfg v (value_bytes (limits cfg))); mret (VString render)) l s).
  { intros s'. eapply keeps_bind; [apply (keeps_lift _ done_)|intros; by apply keeps_ret].
    unfold render_limit, render_value_bounded. destruct v; cbn; repeat (case_match; cbn; try done). }
  destruct v as [| | | | | | | | |rc []]; try apply Htext. case_match; [|apply keeps_raise].
  case_match; [apply keeps_raise|]. apply keeps_ret, from_json_wf.
Qed.

Lemma k_rethrow args (l : Local) s : Forall rt_wf args -> 1 <= length args -> keeps valued (builtin_rethrow cfg args) l s.
Proof.
  intros Ha Hn. unfold builtin_rethrow. apply keeps_get_bind. case_match; [apply keeps_raise|].
  next_arg v Hv. apply keeps_raise.
Qed.

(** Enough arguments for the function called [name]. *)
Definition enough (name : string) (args : list Value) : Prop :=
  forall n, bm_get name needed_args = Some n -> (n <= len args)%N.

Definition arm_keeps (arm : string * (list Value -> EM Value)) : Prop :=
  forall args l s, ok l -> Forall rt_wf args -> enough arm.1 args -> keeps valued (arm.2 args) l s.

Lemma enough_length name args n : enough name args -> bm_get name needed_args = Some (N.of_nat n) -> n <= length args.
Proof. intros He Hn. specialize (He _ Hn). unfold len in He. lia. Qed.

Lemma arms_keep : Forall arm_keeps (builtin_arms cfg (rec_apply rec)).
Proof.
  unfold builtin_arms. repeat apply List.Forall_cons; try apply List.Forall_nil; intros args l s Hl Ha He; cbn [fst snd] in *;
    pose proof (ok_local _ Hl) as Hll.
  - apply k_print; auto. by apply (enough_length _ _ 1 He).
  - apply k_display; auto. by apply (enough_length _ _ 2 He).
  - apply k_length; auto. by apply (enough_length _ _ 1 He).
  - apply k_lines; auto. by apply (enough_length _ _ 1 He).
  - apply k_split; auto. by apply (enough_length _ _ 2 He).
  - apply k_contains; auto. by apply (enough_length _ _ 2 He).
  - apply k_take; auto. by apply (enough_length _ _ 2 He).
  - apply k_merge; auto. by apply (enough_length _ _ 2 He).
  - by apply k_map.
  - by apply k_flatmap.
  - by apply k_filter.
  - by apply k_filter.
  - by apply k_map.
  - by apply k_map.
  - apply k_sort_by; auto. by apply (enough_length _ _ 3 He).
  - by apply k_group_by.
  - apply k_sum; auto. by apply (enough_length _ _ 1 He).
  - apply k_arg; auto. by apply (enough_length _ _ 1 He).
  - by apply k_parallel_map.
  - assert (1 <= length args) by (by apply (enough_length _ _ 1 He)). next_arg v Hv. by apply k_parallel.
  - apply k_help; auto. by apply (enough_length _ _ 1 He).
  - apply k_rethrow; auto. by apply (enough_length _ _ 1 He).
Qed.

Lemma k_builtin name args (l : Local) s :
  ok l -> Forall rt_wf args -> enough name args -> keeps valued (builtin cfg (rec_apply rec) name args) l s.
Proof.
  intros Hl Ha He. unfold builtin. eapply (keeps_bind _ valued); [|intros v s1 Hv _; by apply k_ensured].
  destruct (bm_get name _) as [arm|] eqn:E; [|apply keeps_raise]. apply bm_get_In in E.
  pose proof arms_keep as Hall. rewrite List.Forall_forall in Hall. by apply (Hall _ E).
Qed.

(** ** Sequences of methods that keep, and methods that change *)

Lemma keeps_leaves {A} F (P : A -> Shared -> Prop) (m : EM A) l s : keeps P m l s -> F l -> leaves F P m l s.
Proof. intros Hm HF. eapply leaves_weaken; [exact Hm|by intros l' <-|done]. Qed.

Lemma keeps_leaves_bind {A B} F (P1 : A -> Shared -> Prop) (P2 : B -> Shared -> Prop) (m : EM A) k l s :
  keeps P1 m l s -> F l -> (forall a s1, P1 a s1 -> respects s s1 -> leaves F P2 (k a) l s1) -> leaves F P2 (m ≫= k) l s.
Proof. intros Hm HF Hk. eapply leaves_bind; [exact Hm|by intros l' <-|]. intros a l1 s1 <-. apply Hk. Qed.

Lemma enter_bind {A} F (P : A -> Shared -> Prop) k (l : Local) s :
  F l -> ((local_depth l < runtime_depth (limits cfg))%N ->
          forall s1, leaves F P (k tt) (set_depth (local_depth l + 1) l) s1) ->
  leaves F P (em_enter_depth cfg ≫= k) l s.
Proof.
  intros HF Hk Hs. unfold em_enter_depth, metered_op, enter_runtime_depth, mbind, tm_bind. cbn [task_bind depth meter_of].
  assert (HR : forall d, respects s (put_meter (mkMeter (sh_steps s) (sh_stdout s) (sh_output_used s) d) s))
    by (intros d; by apply untouched_respects).
  destruct (N.leb_spec (runtime_depth (limits cfg)) (local_depth l)) as [Hle|Hlt]; cbn.
  - split; [apply (HR (local_depth l))|]. intros s' HR'. cbn. rewrite set_depth_same. split_and!; try done.
    apply HR'. by apply (HR (local_depth l)).
  - split; [apply (HR (local_depth l + 1)%N)|]. intros s' HR'. apply Hk; [done|]. apply HR'. by apply (HR (local_depth l + 1)%N).
Qed.

Lemma k_deeper {A} (P : A -> Shared -> Prop) body (l : Local) s :
  ((local_depth l < runtime_depth (limits cfg))%N -> forall s1, keeps P body (set_depth (local_depth l + 1) l) s1) ->
  keeps P (deeper cfg body) l s.
Proof.
  intros Hb. unfold deeper. apply enter_bind; [done|]. intros Hlt s1.
  eapply leaves_attempt_bind; [by apply Hb|]. intros r l1 s2 <- Hr _. apply leaves_modify_bind.
  apply leaves_lift; [|done]. destruct l. unfold set_depth, saturating_sub. cbn. f_equal. lia.
Qed.

Lemma leaves_with_env {A} F1 F2 (P : A -> Shared -> Prop) change body (l : Local) s :
  leaves F1 P body (set_env (change (env l)) l) s -> (forall l1, F1 l1 -> F2 (set_env (env l) l1)) ->
  leaves F2 P (with_env change body) l s.
Proof.
  intros Hb HF. unfold with_env. apply leaves_get_bind, leaves_modify_bind.
  eapply leaves_attempt_bind; [exact Hb|]. intros r l1 s1 Hl1 Hr _. apply leaves_modify_bind. apply leaves_lift; auto.
Qed.

Lemma k_with_env {A} (P : A -> Shared -> Prop) change body (l : Local) s :
  keeps P body (set_env (change (env l)) l) s -> keeps P (with_env change body) l s.
Proof. intros Hb. eapply leaves_with_env; [exact Hb|]. intros l1 <-. by destruct l. Qed.

(** ** Forms *)

(** The names to commit are a set, and all of them are bound. *)
Definition commits (l : Local) : Prop :=
  bs_wf (committed l) /\ forall n, In n (committed l) -> is_Some (bm_get n (env l)).

Lemma commits_env l name v : commits l -> commits (set_env (bm_insert name v (env l)) l).
Proof.
  intros [Hwf Hb]. split; [done|]. intros n Hn. cbn. destruct (String.eqb_spec n name) as [->|Hne].
  - rewrite bm_get_insert_eq. by eexists.
  - rewrite bm_get_insert_ne by done. by apply Hb.
Qed.

Lemma commits_name l name : commits l -> is_Some (bm_get name (env l)) -> commits (set_committed (bs_insert name (committed l)) l).
Proof.
  intros [Hwf Hb] Hname. split; [by apply bs_insert_wf|]. cbn. intros n [->|Hn]%bs_insert_In; [done|by apply Hb].
Qed.

(** The fields around a sequence of forms: the environment and the constructors
    change, the names to commit only at the top level of a cell. *)
Definition framed (persistent : bool) (l l' : Local) : Prop :=
  env_wf (env l') /\ (if persistent then commits l -> commits l' else committed l' = committed l)
  /\ scope_id l' = scope_id l
  /\ current_error l' = current_error l /\ local_depth l' = local_depth l.

Lemma framed_refl p l : env_wf (env l) -> framed p l l.
Proof. intros. unfold framed. by destruct p; split_and!. Qed.

Lemma framed_env p l l' name v : framed p l l' -> rt_wf v -> framed p l (set_env (bm_insert name v (env l')) l').
Proof.
  intros (? & Hc & ? & ? & ?) Hv. unfold framed. split_and!; try done; [by apply env_wf_insert|].
  destruct p; [intros; apply commits_env; auto|done].
Qed.

Lemma framed_env_same p l : env_wf (env l) -> framed p l (set_env (env l) l).
Proof. destruct l. apply framed_refl. Qed.

Lemma framed_ok p l l' : ok l -> framed p l l' -> ok l'.
Proof. intros Hl (? & ? & ? & ? & ?). by eapply ok_change. Qed.

Lemma lv_bind_name p name v l l' s :
  framed p l l' -> rt_wf v -> leaves (framed p l) done_ (bind_name p name v) l' s.
Proof.
  intros Hf Hv. unfold bind_name. apply leaves_modify_bind. apply (framed_env _ _ _ name v) in Hf; [|done].
  destruct p; [|by apply leaves_ret]. apply leaves_modify; [|done].
  destruct Hf as (? & Hn & ? & ? & ?). unfold framed. split_and!; try done. intros Hc. apply commits_name; [auto|].
  cbn. rewrite bm_get_insert_eq. by eexists.
Qed.

Lemma lv_form f p l l' s :
  ok l -> framed p l l' -> leaves (framed p l) valued (form cfg rec f p) l' s.
Proof.
  intros Hl Hf. pose proof (framed_ok _ _ _ Hl Hf) as Hl'. unfold form.
  eapply keeps_leaves_bind; [apply k_step; auto|done|]. intros _ s1 _ _.
  destruct (node f) as [decl|pattern value|name params body|e].
  - eapply leaves_bind; [|done|intros; by apply leaves_ret].
    apply (leaves_for cfg (framed p l) (fun _ => True)); [|done..]. intros _ variant l1 s2 _ _ Hl1 _.
    apply leaves_modify_bind. set (l2 := set_constructors _ _).
    assert (Hl2 : framed p l l2) by (destruct Hl1 as (? & ? & ? & ? & ?); by unfold framed; split_and!). clearbody l2.
    eapply (keeps_leaves_bind _ valued); [case_match; [by apply k_new_callable|by apply keeps_ret]|done|].
    intros v s3 Hv _. apply leaves_modify; [by apply framed_env|done].
  - eapply keeps_leaves_bind; [by apply rec_expr_keeps|done|]. intros v s2 Hv _.
    eapply keeps_leaves_bind; [apply k_match; auto|done|]. intros matched s3 Hm _.
    destruct matched as [bindings|]; [|by apply leaves_raise]. specialize (Hm _ eq_refl).
    unfold env_wf in Hm. rewrite List.Forall_forall in Hm.
    eapply leaves_bind; [|done|intros; by apply leaves_ret].
    apply (leaves_for cfg (framed p l) (fun _ => True)); [|done..]. intros _ [name w] l1 s4 Hin _ Hl1 _.
    apply lv_bind_name; [done|]. apply (Hm _ Hin).
  - eapply keeps_leaves_bind; [apply k_capture|done|]. intros _ s2 _ _. apply leaves_get_bind.
    eapply keeps_leaves_bind; [apply k_new_callable|done|].
    { split; [|exact I]. apply all_of_Forall. apply Hf. }
    intros v s3 Hv _. eapply leaves_bind; [by apply lv_bind_name|done|]. intros _ l1 s4 Hl1 _ _. by apply leaves_ret.
  - apply keeps_leaves; [by apply rec_expr_keeps|done].
Qed.

Lemma lv_forms fs p l l' s :
  ok l -> framed p l l' -> leaves (framed p l) valued (form_sequence cfg rec fs p) l' s.
Proof.
  intros Hl Hf. apply (leaves_for cfg (framed p l) rt_wf); [|done..]. intros _ f l1 s1 _ _ Hl1 _. by apply lv_form.
Qed.

(** ** Expressions *)

Lemma k_match_arms v arms otherwise found (l : Local) s :
  local_ok l -> rt_wf v -> (forall s, keeps valued otherwise l s) ->
  (forall bindings body s, env_wf bindings -> keeps valued (found bindings body) l s) ->
  keeps valued (match_arms cfg v arms otherwise found) l s.
Proof.
  intros Hl Hv Ho Hf. revert s. induction arms as [|arm arms IH]; intros s; [apply Ho|]. cbn [match_arms].
  eapply keeps_bind; [by apply k_match|]. intros [bindings|] s1 Hm _; [by apply Hf, Hm|apply IH].
Qed.

Lemma ok_env l e : ok l -> env_wf e -> ok (set_env e l).
Proof. intros Hl He. by eapply ok_change. Qed.

Lemma ok_env_wf l : ok l -> env_wf (env l).
Proof. intros Hl. apply (ok_local _ Hl). Qed.

#[local] Hint Resolve ok_local ok_env ok_env_wf env_wf_extend : core.

(** An arm with its bindings. *)
Lemma k_arm bindings body (l : Local) s :
  ok l -> env_wf bindings -> keeps valued (with_env (fun old => bm_extend old bindings) (rec_expr rec body)) l s.
Proof. intros Hl Hb. apply k_with_env, rec_expr_keeps. auto. Qed.

Lemma error_payload_wf e n d : rt_wf (runtime_error_payload e n d).
Proof.
  unfold runtime_error_payload. destruct e as [|n' m [p|]| | | |]; try (by repeat constructor).
  case_match; [apply from_json_wf|by repeat constructor].
Qed.

Lemma k_apply_last f v (l : Local) s :
  ok l -> rt_wf f -> rt_wf v -> keeps valued (apply_last rec f v) l s.
Proof.
  intros Hl Hf Hv. unfold apply_last. destruct f as [| | | | | | | | |rc []]; try by apply rec_apply_keeps.
  destruct (N.ltb_spec (len args + 1) arity) as [Hlt|]; [|by apply rec_apply_keeps].
  apply k_new_callable. by destruct Hf as (? & ? & ?); split_and!.
Qed.

Lemma k_capturing c bytes (l : Local) s :
  (env_wf (env l) -> callable_wf (c (env l))) -> ok l ->
  keeps valued (ensure_capture cfg bytes;; captured ← get_local env; new_callable (c captured)) l s.
Proof.
  intros Hc Hl. eapply keeps_bind; [apply k_capture|]. intros _ s1 _ _. apply keeps_get_bind, k_new_callable. auto.
Qed.

Lemma k_elements values (l : Local) s :
  ok l ->
  keeps (fun r _ => Forall rt_wf r.1)
    (for_em (fun '(output, allocated) e =>
        value ← rec_expr rec e;
        allocated ← lift_result (add_value_size cfg allocated value 0);
        mret (output ++ [value], allocated)) ([], 0%N) values) l s.
Proof.
  intros Hl. apply (keeps_for cfg (fun r : list Value * N => Forall rt_wf r.1)); [|constructor].
  intros [output a] e s1 _ Ho _. eapply keeps_bind; [by apply rec_expr_keeps|]. intros v s2 Hv _.
  eapply keeps_bind; [apply (keeps_lift _ done_), total_add_size|]. intros a' s3 _ _. apply keeps_ret.
  apply Forall_app. by split; [|constructor].
Qed.

Lemma k_fields fields (l : Local) s :
  ok l ->
  keeps (fun r _ => env_wf r.1)
    (for_em (fun '(output, allocated) '(name, e) =>
        value ← rec_expr rec e;
        allocated ← lift_result (add_value_size cfg allocated value (str_len name));
        mret (bm_insert name value output, allocated)) ([], 0%N) fields) l s.
Proof.
  intros Hl. apply (keeps_for cfg (fun r : Environment * N => env_wf r.1)); [|constructor].
  intros [output a] [name e] s1 _ Ho _. eapply keeps_bind; [by apply rec_expr_keeps|]. intros v s2 Hv _.
  eapply keeps_bind; [apply (keeps_lift _ done_), total_add_size|]. intros a' s3 _ _. apply keeps_ret.
  by apply env_wf_insert.
Qed.

Lemma k_binary op left_ right_ (l : Local) s :
  ok l -> keeps valued (expr_kind cfg rec (EBinary op left_ right_)) l s.
Proof.
  intros Hl. cbn [expr_kind]. eapply keeps_bind; [by apply rec_expr_keeps|]. intros lv s1 Hlv _. cbv zeta.
  set (go_on := mbind _ (rec_expr rec right_)). assert (Hgo : keeps valued go_on l s1).
  { eapply keeps_bind; [by apply rec_expr_keeps|]. intros rv s2 Hrv _.
    pose proof (binary_wf op lv rv Hlv Hrv) as Hb.
    destruct op; try (by apply keeps_lift);
      (eapply keeps_bind; [apply k_equal; auto|]; intros b s3 _ _; by apply keeps_ret). }
  clearbody go_on. destruct op; try exact Hgo; destruct lv as [|[]| | | | | | | |]; try exact Hgo;
    first [by apply keeps_ret | apply keeps_raise].
Qed.

Lemma k_handle value arms (l : Local) s : ok l -> keeps valued (expr_kind cfg rec (EHandle value arms)) l s.
Proof.
  intros Hl. cbn [expr_kind]. eapply keeps_attempt_bind; [by apply rec_expr_keeps|]. intros r s1 Hr _.
  destruct r as [v|e| |]; try done.
  assert (Harms : keeps valued (match_arms cfg (VTagged (error_name e)
    (Some (runtime_error_payload e (value_bytes (limits cfg)) (runtime_depth (limits cfg))))) arms (raise e)
    (fun bindings body =>
      old_error ← get_local current_error;
      modify_local (set_current_error (Some e));;
      result ← attempt (with_env (fun old => bm_extend old bindings) (rec_expr rec body));
      modify_local (set_current_error old_error);;
      lift_result result)) l s1).
  { apply k_match_arms; [auto|apply error_payload_wf|intros; apply keeps_raise|]. intros bindings body s2 Hb.
    apply leaves_get_bind, leaves_modify_bind.
    eapply leaves_attempt_bind; [apply k_arm; [eapply ok_change; [exact Hl|exact (ok_env_wf _ Hl)|done]|done]|].
    intros r l1 s3 <- Hr' _. apply leaves_modify_bind. apply leaves_lift; [by destruct l|done]. }
  by destruct e.
Qed.

Lemma k_block fs (l : Local) s : ok l -> keeps valued (expr_kind cfg rec (EBlock fs)) l s.
Proof.
  intros Hl. cbn [expr_kind]. apply leaves_get_bind.
  eapply (leaves_attempt_bind _ (fun l1 => set_constructors (constructors l) l1 = l)).
  - eapply leaves_with_env; [apply (lv_forms fs false l)|]; [done| |].
    + apply framed_env_same. auto.
    + intros l1 (_ & Hc & Hs & He & Hd). destruct l, l1. cbn in *. by rewrite Hc, Hs, He, Hd by done.
  - intros r l1 s1 Hl1 Hr _. apply leaves_modify_bind. by apply leaves_lift.
Qed.

Lemma k_apply_expr function argument (l : Local) s :
  ok l -> keeps valued (expr_kind cfg rec (EApply function argument)) l s.
Proof.
  intros Hl. cbn [expr_kind]. cbv zeta. match goal with |- keeps _ (if ?b then _ else _) _ _ => destruct b end;
    [by apply k_parallel_expr|].
  eapply keeps_bind; [by apply rec_expr_keeps|]. intros f s1 Hf _.
  eapply (keeps_bind _ valued); [|intros a s2 Ha _; by apply rec_apply_keeps].
  match goal with |- keeps _ (if ?b then _ else _) _ _ => destruct b end; [|by apply rec_expr_keeps].
  apply (k_capturing (CRow argument)); [|done]. intros He. by apply all_of_Forall.
Qed.

Lemma k_expr_kind k (l : Local) s : ok l -> keeps valued (expr_kind cfg rec k) l s.
Proof.
  intros Hl. pose proof (ok_env_wf _ Hl) as He.
  destruct k; try (by apply keeps_ret); try (by apply k_binary); try (by apply k_handle);
    try (by apply k_block); try (by apply k_apply_expr); cbn [expr_kind].
  - eapply keeps_bind; [by apply k_interpolate|]. intros text s1 _ _. by apply keeps_ret.
  - apply keeps_get_bind. destruct (bm_get name (env l)) eqn:E; [|apply keeps_raise].
    apply keeps_ret. by eapply env_wf_get.
  - apply keeps_get_bind. destruct (bm_get name (env l)) eqn:E; [apply keeps_ret; by eapply env_wf_get|].
    case_match; [by apply keeps_ret|by apply k_new_callable].
  - by apply k_new_callable.
  - eapply keeps_bind; [by apply k_elements|]. intros [output a] s1 Ho _. apply keeps_ret. by apply rt_wf_list.
  - eapply keeps_bind; [by apply k_fields|]. intros [output a] s1 Ho _. apply keeps_ret. by apply rt_wf_record.
  - apply (k_capturing (fun captured => CUser params body captured [])); [|done]. intros _. split; [by apply all_of_Forall|exact I].
  - eapply keeps_bind; [by apply rec_expr_keeps|]. intros v s1 Hv _. destruct v; try apply keeps_raise.
    apply rt_wf_record in Hv. case_match; [|apply keeps_raise]. apply keeps_ret. by eapply env_wf_get.
  - eapply keeps_bind; [by apply rec_expr_keeps|]. intros v s1 Hv _. apply keeps_lift, unary_wf.
  - eapply keeps_bind; [by apply rec_expr_keeps|]. intros v s1 Hv _.
    eapply keeps_bind; [by apply rec_expr_keeps|]. intros t s2 Ht _. by apply k_apply_last.
  - eapply keeps_bind; [by apply rec_expr_keeps|]. intros v s1 Hv _.
    destruct v as [|[]| | | | | | | |]; try apply keeps_raise; by apply rec_expr_keeps.
  - eapply keeps_bind; [by apply rec_expr_keeps|]. intros v s1 Hv _.
    apply k_match_arms; [auto|done|intros; apply keeps_raise|]. intros. by apply k_arm.
Qed.

(** ** Applications *)

Lemma lv_bind_params params args (l : Local) s :
  ok l -> Forall rt_wf args ->
  leaves (fun l' => exists e, env_wf e /\ l' = set_env e l) done_ (bind_params cfg params args) l s.
Proof.
  intros Hl Ha. unfold bind_params.
  apply (leaves_for cfg (fun l' => exists e, env_wf e /\ l' = set_env e l) (fun _ => True)); [|done|].
  - intros _ [pattern v] l1 s1 Hin _ (e & He & ->) _. apply in_combine_r in Hin. rewrite List.Forall_forall in Ha.
    eapply keeps_leaves_bind; [apply k_match; auto|by exists e|]. intros [bindings|] s2 Hm _.
    + apply leaves_modify; [|done]. exists (bm_extend e bindings). split; [|by destruct l]. auto.
    + apply leaves_raise. by exists e.
  - exists (env l). split; [auto|by destruct l].
Qed.

Lemma arity_enough name arity args : arity_ok name arity -> (arity <= len args)%N -> enough name args.
Proof. intros Ha Hl n Hn. specialize (Ha n Hn). lia. Qed.

Lemma k_apply_callable c argument (l : Local) s :
  ok l -> callable_wf c -> rt_wf argument -> keeps valued (apply_callable cfg rec c argument) l s.
Proof.
  intros Hl Hc Ha.
  destruct c as [name args arity|name args data arity|params body captured args|body captured|name|name]; cbn [apply_callable].
  - destruct Hc as (Hargs & Hlt & Hok). apply all_of_Forall in Hargs.
    assert (Hall : Forall rt_wf (args ++ [argument])) by (apply Forall_app; by split; [|constructor]).
    destruct (_ && _).
    + case_match; [|by apply k_parallel; auto]. apply k_new_callable. split_and!; [exact I|reflexivity|].
      vm_compute. by intros n [= <-].
    + destruct (N.ltb_spec (len (args ++ [argument])) arity) as [Hlt'|Hge].
      * apply k_new_callable. split_and!; [by apply all_of_Forall|done..].
      * apply k_builtin; [done..|]. by eapply arity_enough.
  - destruct Hc as (Hargs & Hdata & Hlt & Hok). apply all_of_Forall in Hargs.
    assert (Hall : Forall rt_wf (args ++ [argument])) by (apply Forall_app; by split; [|constructor]).
    destruct (N.ltb_spec (len (args ++ [argument]) + 1) arity) as [Hlt'|Hge].
    + apply k_new_callable. split_and!; [by apply all_of_Forall|done..].
    + apply k_builtin; [done|apply Forall_app; by split; [|constructor]|]. eapply arity_enough; [done|].
      unfold len in *. rewrite !length_app in *. cbn in *. lia.
  - destruct Hc as [Hcap Hargs]. apply all_of_Forall in Hcap, Hargs.
    assert (Hall : Forall rt_wf (args ++ [argument])) by (apply Forall_app; by split; [|constructor]).
    destruct (_ <? _); [apply k_new_callable; split; by apply all_of_Forall|].
    assert (Hcall : ok (set_env (call_env captured (env l)) l)) by (apply ok_env; [done|]; apply call_env_wf; auto).
    eapply leaves_with_env; [eapply leaves_bind; [by apply lv_bind_params|done|]|].
    + intros _ l1 s1 (e & He & ->) _ _. apply keeps_leaves; [|by exists e]. apply rec_expr_keeps. auto.
    + intros l1 (e & He & ->). by destruct l.
  - apply all_of_Forall in Hc. apply k_with_env, rec_expr_keeps, ok_env; [done|]. by apply row_env_wf.
  - apply k_perform; [exact _|]. by apply ok_local.
  - by apply keeps_ret.
Qed.
End Recursion.

(** ** The knot *)

(** Enough fuel for the nesting levels that are left. *)
Definition fuelled (fuel : nat) (l : Local) : Prop :=
  local_ok l /\ (runtime_depth (limits cfg) < N.of_nat fuel + local_depth l)%N.

Lemma fuelled_change fuel l l' : fuelled fuel l -> env_wf (env l') -> local_depth l' = local_depth l -> fuelled fuel l'.
Proof. intros [[_ Hd] Hf] He E. unfold fuelled, EvalLogic.local_ok. by rewrite E. Qed.

Lemma fuelled_deeper fuel l :
  fuelled (S fuel) l -> (local_depth l < runtime_depth (limits cfg))%N -> fuelled fuel (set_depth (local_depth l + 1) l).
Proof. intros [[He Hd] Hf] Hlt. split; [split; [done|]|]; cbn; lia. Qed.

Definition call_wf (c : Call) : Prop :=
  match c with CallExpr _ => True | CallApply f a => rt_wf f /\ rt_wf a end.

(** What every part of an evaluation does. *)
Lemma evaluate_keeps fuel : forall c l s,
  fuelled fuel l -> call_wf c -> keeps (fun v _ => rt_wf v) (evaluate cfg fuel c) l s.
Proof.
  induction fuel as [|fuel IH]; intros c l s Hl Hc; [destruct Hl as [[_ ?] ?]; lia|].
  assert (Hrec : forall e l s, fuelled fuel l -> keeps (fun v _ => rt_wf v) (rec_expr (evaluate cfg fuel) e) l s)
    by (intros; by apply IH).
  assert (Happ : forall f a l s, fuelled fuel l -> rt_wf f -> rt_wf a ->
    keeps (fun v _ => rt_wf v) (rec_apply (evaluate cfg fuel) f a) l s) by (intros; by apply IH).
  assert (Hok : forall l, fuelled fuel l -> local_ok l) by (by intros ? []).
  cbn [evaluate]. destruct c as [e|f a]; apply k_deeper; intros Hlt s1;
    pose proof (fuelled_deeper _ _ Hl Hlt) as Hd; clear Hl; revert Hd; generalize (set_depth (local_depth l + 1) l); clear l Hlt; intros l Hl.
  - eapply keeps_bind; [apply k_step; auto|]. intros _ s2 _ _.
    eapply keeps_bind; [eapply k_expr_kind; [exact Hok|apply fuelled_change|done..]|]. intros v s3 Hv _. by apply k_ensured.
  - destruct Hc as [Hf Ha]. destruct f; try apply keeps_raise.
    eapply k_apply_callable; [exact Hok|apply fuelled_change|done..].
Qed.

Lemma fuel_enough l : local_ok l -> fuelled (fuel_of cfg l) l.
Proof. intros Hl. split; [done|]. destruct Hl. unfold fuel_of, saturating_sub. lia. Qed.

Lemma expr_keeps e l s : local_ok l -> keeps (fun v _ => rt_wf v) (expr cfg e) l s.
Proof. intros Hl. apply evaluate_keeps; [by apply fuel_enough|done]. Qed.

Lemma apply_keeps f a l s : local_ok l -> rt_wf f -> rt_wf a -> keeps (fun v _ => rt_wf v) (apply cfg f a) l s.
Proof. intros Hl Hf Ha. apply evaluate_keeps; [by apply fuel_enough|done]. Qed.

Lemma eval_cell_leaves c l s :
  local_ok l -> leaves (framed true l) (fun v _ => rt_wf v) (eval_cell cfg c) l s.
Proof.
  intros Hl. pose proof (fuel_enough l Hl) as Hf.
  assert (Hforms : forall fuel, fuelled fuel l ->
    leaves (framed true l) (fun v _ => rt_wf v) (form_sequence cfg (evaluate cfg fuel) (forms c) true) l s).
  { intros fuel Hfuel. apply (lv_forms (evaluate cfg fuel) (fuelled fuel)).
    - by intros ? [].
    - apply fuelled_change.
    - intros. by apply evaluate_keeps.
    - done.
    - apply framed_refl. apply Hl. }
  intros Hs. exact (Hforms _ Hf Hs).
Qed.
End Facts.
