(* ===== verification/EvaluatorSafety.v ===== *)
(** * What holds of every evaluation

    The theorems about [eval_cell], [expr] and [apply]: on every interleaving of
    parallel branches, and whatever the event sink, the approval policy and the
    host functions answer. *)

From stdpp Require Import base tactics list strings.
From Stdlib Require Import ZArith NArith Lia RelationClasses Permutation.
From S2P Require Import Prelude BTree Text Strings Numbers Syntax Lexer Parser ParserFacts ScopedMap Checker CheckerFacts Machine Catalog Value ValueFacts Operators OperatorFacts Limits Host Render RenderFacts Sizing Task Runtime Effects Parallel Builtins Evaluator EvalLogic EffectFacts EvaluatorFacts.

(** A value that is well formed, or an error. *)
Definition answers `{JsonNumber} {A} (r : RuntimeResult Value * A) : Prop :=
  (exists v, r.1 = Ok v /\ rt_wf v) \/ (exists e, r.1 = Err e).

(** Or a panic: the sort of the standard library was given a list, recorded in the
    state at the end, whose keys are not totally ordered. *)
Definition answers_or_panics `{JsonNumber} `{KeySort} {A} (r : RuntimeResult Value * A) (s : Shared) : Prop :=
  answers r \/ (r.1 = Panicked /\ sort_panicked s).

Lemma concludes_answers `{JsonNumber} `{KeySort} {A} (r : RuntimeResult Value * A) s :
  concludes rt_wf s r.1 -> answers_or_panics r s.
Proof. destruct r as [[v|e| |] l]; cbn; try done; [left; left|left; right|right]; by eauto. Qed.

(** Keys without decimals are totally ordered: a sort that panicked met a decimal. *)
Lemma sort_panic_decimals `{JsonNumber} `{KeySort} s :
  sort_panicked s ->
  exists keyed, In keyed (sort_panics s) /\ ~ Forall (fun p => decimal_free p.1) keyed.
Proof.
  intros (keyed & Hin & _ & Hno). exists keyed. split; [done|]. intros Hfree. apply Hno.
  rewrite List.Forall_forall in Hfree. intros a b c Ha Hb Hc. apply compare_sort_keys_composes; by apply Hfree.
Qed.

Section Safety.
Context `{UnicodeTables} `{JsonStr} `{StdText} `{JsonText} `{Layout} `{BuildProfile} `{KeySort}.
Variable cfg : Setup.
Context `{!SaneRuntime cfg}.

Lemma leaves_ends {A} F (P : A -> Shared -> Prop) (m : EM A) l s (Q : RuntimeResult A * Local -> Shared -> Prop) :
  leaves cfg F P m l s -> disciplined cfg s ->
  (forall r l' s', respects cfg s s' -> disciplined cfg s' -> F l' -> concludes (fun a => P a s') s' r -> Q (r, l') s') ->
  ends Q (m l, s).
Proof.
  intros Hm Hs HQ. apply (safe_ends (respects cfg) branch_post collect_post lost_branch (branch_later cfg)). eapply safe_mono; [apply _| |exact (Hm Hs)].
  intros [r l'] s' HR (Hs' & HF & Hr). by apply HQ.
Qed.

(** C2: a cell always comes to an end.  From any disciplined state, on every
    schedule of its parallel branches and whatever is answered from outside, the
    evaluation of a cell can always go on until it has a result, it does so after
    finitely many steps, and the result is a value or an error, with one exception:
    it panics when [sort_by] gave the standard library a list whose keys are not
    totally ordered by their comparison and the library panicked on that list, which
    the state at the end has.  Nothing else panics: no argument of a prelude function
    is missing, no machine is gone and no loop is cut short.  [SaneRuntime]: a release
    build, limits below the largest machine integer, and a sort that permutes, and
    sorts what is totally ordered. *)
Theorem cell_evaluation_ends c l s :
  local_ok cfg l -> disciplined cfg s -> sort_panics s = [] ->
  ends (fun r s' => answers_or_panics r s') (eval_cell cfg c l, s).
Proof.
  intros Hl Hs _. eapply leaves_ends; [by apply eval_cell_leaves|done|]. intros r l' s' _ _ _ Hr. by apply concludes_answers.
Qed.

(** C5: evaluation is type safe and restores its fields.  An expression, and a
    well-formed function applied to a well-formed value, end with a well-formed
    value or an error, or with the panic of a sort whose keys are not totally
    ordered; the environment, the constructors, the names to commit, the
    scope, the error being handled and the nesting depth are what they were before,
    on success and on failure.  [SaneRuntime] as for C2. *)
Theorem evaluation_type_safe l s :
  local_ok cfg l -> disciplined cfg s -> sort_panics s = [] ->
  (forall e, ends (fun r s' => r.2 = l /\ answers_or_panics r s') (expr cfg e l, s))
  /\ (forall f a, rt_wf f -> rt_wf a ->
        ends (fun r s' => r.2 = l /\ answers_or_panics r s') (apply cfg f a l, s)).
Proof.
  intros Hl Hs _. split.
  - intros e. eapply leaves_ends; [exact (expr_keeps cfg e l s Hl)|done|].
    intros r l' s' _ _ <- Hr. split; [done|by apply concludes_answers].
  - intros f a Hf Ha. eapply leaves_ends; [exact (apply_keeps cfg f a l s Hl Hf Ha)|done|].
    intros r l' s' _ _ <- Hr. split; [done|by apply concludes_answers].
Qed.

Lemma cell_steps c l s t' s' :
  local_ok cfg l -> disciplined cfg s -> steps_to (eval_cell cfg c l, s) (t', s') -> respects cfg s s'.
Proof.
  intros Hl Hs Hr. eapply (safe_steps (respects cfg) branch_post collect_post lost_branch (branch_later cfg)); [exact Hr|].
  exact (eval_cell_leaves cfg c l s Hl Hs).
Qed.

(** C34: no schedule exceeds a budget.  At every moment of every run of a cell,
    the steps, the output bytes and the printed bytes of all branches together are
    within their limits; they never shrink, and what was printed stays. *)
Theorem evaluation_within_budgets c l s t' s' :
  local_ok cfg l -> disciplined cfg s -> steps_to (eval_cell cfg c l, s) (t', s') ->
  (sh_steps s <= sh_steps s' <= limit_steps (limits cfg))%N
  /\ (sh_output_used s <= sh_output_used s' <= output_bytes cfg)%N
  /\ (str_len (sh_stdout s') <= print_bytes (limits cfg))%N
  /\ (exists text, sh_stdout s' = (sh_stdout s ++ text)%string).
Proof.
  intros Hl Hs Hr. destruct (cell_steps _ _ _ _ _ Hl Hs Hr) as [_ HR].
  destruct (HR Hs) as ((? & ? & ? & _) & ? & ? & ? & _). by split_and!.
Qed.

(** C3: only admitted capabilities act.  At every moment of every run of a cell,
    whatever was asked of the outside world on behalf of a capability (a request
    of a host function, one of its events, an approval) was asked for a function
    that is registered with the host and that the grants of the invocation permit. *)
Theorem effects_admitted c l s t' s' :
  local_ok cfg l -> disciplined cfg s -> steps_to (eval_cell cfg c l, s) (t', s') ->
  exists news, history s' = news ++ history s /\ Forall (allowed_exchange cfg) news.
Proof.
  intros Hl Hs Hr. destruct (cell_steps _ _ _ _ _ Hl Hs Hr) as [_ HR].
  destruct (HR Hs) as ((_ & _ & _ & Hall) & _ & _ & _ & news & E). exists news. split; [done|].
  rewrite E in Hall. by apply Forall_app in Hall as [? _].
Qed.
End Safety.

(** what the checker accepts the host admits.  Every capability mentioned in
    a cell that was checked against the catalog of the registry and the context is
    registered there and granted: a call of it reaches the function. *)
Lemma checked_capabilities_admitted
    `{UnicodeTables} `{JsonStr} `{BuildProfile} `{JsonNumber} `{StdTextLaws}
    source b n depth c r ctx uris names bytes tokens checked f name args :
  (depth < usize_max)%N -> registry_wf r -> (len (functions r) <= usize_max)%N ->
  parse_bounded source b n depth = Ok c ->
  check_with_bindings_bounded source c (catalog_from_registry r ctx uris) names bytes tokens depth = Ok checked ->
  In f (forms c) -> In name (form_caps f) ->
  exists fn, bm_get name (functions r) = Some fn /\ invoke name args ctx r = fn_call fn args ctx.
Proof.
  intros Hd Hwf Hlen Hc Hok Hf Hin. destruct (parsed_spans _ _ _ _ _ Hd Hc) as [_ Hs].
  pose proof (check_bounded_spec source c (catalog_from_registry r ctx uris) names bytes tokens depth Hd Hs) as Hr.
  rewrite Hok in Hr. destruct Hr as [Hg Hl].
  assert (Hrow : In name (authority (cell_effects checked))).
  { apply Hl. apply in_concat. exists (form_caps f). split; [by apply in_map|done]. }
  eapply List.Forall_forall in Hg; [|exact Hrow].
  apply catalog_admits in Hg as [[fn E] Hp]; [|done..]. exists fn. split; [done|]. unfold invoke. by rewrite Hp, E.
Qed.

(** ** Witnesses *)

Section Witness.
#[local] Existing Instances ascii_tables plain_json sample_numbers sample_text sample_layout plain_text plain_text_laws.
#[local] Instance release_build : BuildProfile := false.
#[local] Instance insertion : KeySort := {| sort_keyed := fun l => Some (sort_by keyed_compare l) |}.

(** A function that asks a service outside. *)
Definition remote_fn : HostFn :=
  mkHostFn (fn_docs (sample_fn "fs.read")) (fun args _ => HOutside args (fun answer => HReturn (inl answer))).

Definition remote_registry : HostRegistry := host_register remote_fn sample_registry.

Definition sample_grants : CapabilityGrants := grants_allow "fs.read" grants_default.

Definition sample_setup : Setup :=
  mkSetup (catalog_from_registry remote_registry (ctx_new sample_grants) []) remote_registry
    (ctx_new sample_grants) limits_default 10000 "cell-1" true.

Definition sample_local : Local := mkLocal (prelude 0) [] [] None None 0.
Definition sample_shared : Shared := mkShared 0 "" 0 0 None false [] 100 [] [].

#[local] Instance sample_sane : SaneRuntime sample_setup.
Proof.
  split; try reflexivity. split; [|reflexivity]. intros l l' [= <-]. symmetry. apply sort_by_perm.
Qed.

Lemma sample_local_ok : local_ok sample_setup sample_local.
Proof. split; [apply prelude_wf|by vm_compute]. Qed.

Lemma sample_disciplined : disciplined sample_setup sample_shared.
Proof. unfold disciplined. split_and!; [vm_compute; discriminate..|constructor]. Qed.

(** Two branches, one of them with an effect, and printed text. *)
Definition sample_source : list char :=
  chars "let r = par {a: @fs.read {path: 1}, b: 2}; print r.b; r".

Definition sample_parsed : Cell :=
  match parse_bounded sample_source 1000 1000 100 with Ok c => c | _ => mkCell [] (mkSpan 0 0) end.

Definition sample_run : RuntimeResult Value * Local * Shared :=
  run_task some_answer (eval_cell sample_setup sample_parsed sample_local) sample_shared.

Lemma sample_run_steps :
  steps_to (eval_cell sample_setup sample_parsed sample_local, sample_shared)
    (Ret sample_run.1, sample_run.2).
Proof.
  unfold sample_run. exact (run_task_steps some_answer (eval_cell sample_setup sample_parsed sample_local) sample_shared).
Qed.

Lemma cell_evaluation_ends_witness :
  local_ok sample_setup sample_local /\ disciplined sample_setup sample_shared
  /\ sort_panics sample_shared = []
  /\ ends (fun r s' => answers_or_panics r s') (eval_cell sample_setup sample_parsed sample_local, sample_shared).
Proof.
  split; [exact sample_local_ok|]. split; [exact sample_disciplined|]. split; [reflexivity|].
  exact (cell_evaluation_ends sample_setup _ _ _ sample_local_ok sample_disciplined eq_refl).
Defined.

Lemma evaluation_type_safe_witness :
  let f := VCallable 0 (CBuiltin "length" [] 1) in
  rt_wf f /\ ends (fun r s' => r.2 = sample_local /\ answers_or_panics r s')
               (apply sample_setup f (VString "abc") sample_local, sample_shared).
Proof.
  intros f. assert (Hf : rt_wf f).
  { split; [exact I|]. split; [reflexivity|]. intros n. vm_compute. intros [= <-]. discriminate. }
  split; [exact Hf|].
  exact (proj2 (evaluation_type_safe sample_setup _ _ sample_local_ok sample_disciplined eq_refl) f (VString "abc") Hf I).
Defined.

Lemma evaluation_within_budgets_witness :
  steps_to (eval_cell sample_setup sample_parsed sample_local, sample_shared) (Ret sample_run.1, sample_run.2)
  /\ (sh_steps sample_run.2 <= limit_steps limits_default)%N /\ sh_stdout sample_run.2 <> ""%string.
Proof.
  split; [exact sample_run_steps|]. split.
  - exact (proj2 (proj1 (evaluation_within_budgets sample_setup _ _ _ _ _ sample_local_ok sample_disciplined
      sample_run_steps))).
  - vm_compute. discriminate.
Defined.

(** Exchanges on behalf of a capability. *)
Definition on_behalf (e : Exchange) : bool :=
  match asked e with OpOutside _ _ | OpApproval _ _ _ | OpHostEvent _ _ _ => true | _ => false end.

Lemma effects_admitted_witness :
  steps_to (eval_cell sample_setup sample_parsed sample_local, sample_shared) (Ret sample_run.1, sample_run.2)
  /\ (exists news, history sample_run.2 = news ++ [] /\ Forall (allowed_exchange sample_setup) news)
  /\ existsb on_behalf (history sample_run.2) = true.
Proof.
  split; [exact sample_run_steps|]. split.
  - exact (effects_admitted sample_setup _ _ _ _ _ sample_local_ok sample_disciplined sample_run_steps).
  - vm_compute. reflexivity.
Defined.

Lemma checked_capabilities_admitted_witness :
  let source := chars "@fs.read 1" in
  exists c f fn, parse_bounded source 100 100 8 = Ok c /\ In f (forms c) /\ In "fs.read"%string (form_caps f)
    /\ bm_get "fs.read" (functions remote_registry) = Some fn
    /\ invoke "fs.read" JNull (ctx_new sample_grants) remote_registry = fn_call fn JNull (ctx_new sample_grants).
Proof.
  intros source. do 3 eexists. split; [vm_compute; reflexivity|]. split; [by left|]. split; [by left|].
  split; [reflexivity|].
  eassert (Ha : exists fn, bm_get "fs.read" (functions remote_registry) = Some fn /\
    invoke "fs.read" JNull (ctx_new sample_grants) remote_registry = fn_call fn JNull (ctx_new sample_grants)).
  { eapply (checked_capabilities_admitted source 100 100 8 _ remote_registry (ctx_new sample_grants) [] [] 100 100).
    - vm_compute. reflexivity.
    - do 3 apply host_register_wf. repeat constructor.
    - vm_compute. discriminate.
    - vm_compute. reflexivity.
    - vm_compute. reflexivity.
    - by left.
    - by left. }
  destruct Ha as (fn & E & Hi). injection E as <-. exact Hi.
Defined.
(** ** The panic happens

    A sort that keeps the promises of the standard library and panics whenever it
    may: two integers that equal the same decimal, and not each other, bring the
    evaluation down. *)

Definition composes_b (xy yz xz : comparison) : bool :=
  match xy, yz with
  | Eq, o | o, Eq => bool_decide (xz = o)
  | Lt, Lt => bool_decide (xz = Lt)
  | Gt, Gt => bool_decide (xz = Gt)
  | _, _ => true
  end.

Definition keys_ordered_b (l : list (Value * Value)) : bool :=
  forallb (fun a => forallb (fun b => forallb (fun c =>
    composes_b (keyed_compare a b) (keyed_compare b c) (keyed_compare a c)) l) l) l.

Lemma keys_ordered_true l : keys_ordered l -> keys_ordered_b l = true.
Proof.
  intros Ho. apply forallb_forall. intros a Ha. apply forallb_forall. intros b Hb. apply forallb_forall. intros c Hc.
  specialize (Ho a b c Ha Hb Hc). unfold composes, composes_b in *.
  by destruct (keyed_compare a b), (keyed_compare b c); try (apply bool_decide_eq_true_2).
Qed.

Definition strict_sort : KeySort :=
  {| sort_keyed := fun l => if keys_ordered_b l then Some (sort_by keyed_compare l) else None |}.

Lemma strict_sort_laws : @KeySortLaws strict_sort.
Proof.
  split; cbn.
  - intros l l'. case_match; [|done]. intros [= <-]. symmetry. apply sort_by_perm.
  - intros l ->%keys_ordered_true. done.
Qed.

Definition mixed_keys : list Value := [VInt (2 ^ 53 + 1); VDecimal (f64_of_i64 (2 ^ 53)); VInt (2 ^ 53)].

(** [sort_by table "asc" mixed_keys]; [table] is the identity. *)
Definition panicking_run : RuntimeResult Value * Local * Shared :=
  run_task some_answer
    (@apply _ _ _ _ _ _ _ strict_sort sample_setup
       (VCallable 0 (CBuiltin "sort_by" [VCallable 1 (CBuiltin "table" [] 1); VString "asc"] 3))
       (VList mixed_keys) sample_local) sample_shared.

Example sort_by_panics : (match panicking_run.1.1 with Panicked => true | _ => false end) = true.
Proof. vm_compute. reflexivity. Qed.
End Witness.
