(* ===== verification/InterpreterFacts.v ===== *)
(** * A cell is a transaction

    The interpreter runs alone, so its methods are followed exactly: [iwp m Q i s]
    says that [m] ends on every schedule and that [Q] holds of its result, its
    fields and the shared state then.  Evaluation comes in through what
    [EvaluatorFacts.v] shows of it. *)

From stdpp Require Import base tactics list strings.
From Stdlib Require Import ZArith NArith Lia RelationClasses Permutation.
From S2P Require Import Prelude BTree Text Strings Numbers Syntax Lexer Parser ParserFacts ScopedMap Checker CheckerFacts Machine Catalog Value ValueFacts Operators OperatorFacts Limits Host Render RenderFacts Sizing Task Runtime Effects Parallel Builtins Evaluator Interpreter EvalLogic EffectFacts EvaluatorFacts EvaluatorSafety.

(** ** Sequences of tasks *)

Lemma bind_step `{JsonNumber} {A B} (t : task A) (k : A -> task B) s c :
  tstep B (task_bind t k, s) c ->
  (exists a, t = Ret a) \/ exists t' s', tstep A (t, s) (t', s') /\ c = (task_bind t' k, s').
Proof.
  intros Hs. destruct t as [a|f k'|o k'|st h running waiting handle k']; [left; by eexists|right..]; cbn [task_bind] in Hs.
  - apply step_cases in Hs as ->. do 2 eexists. split; [constructor|done].
  - apply step_cases in Hs as [a ->]. do 2 eexists. split; [apply (step_await _ o k' a)|done].
  - inversion Hs; subst; do 2 eexists; (split; [by constructor|done]).
Qed.

Lemma ends_bind `{JsonNumber} {A B} (Q1 : A -> Shared -> Prop) (Q : B -> Shared -> Prop) t (k : A -> task B) s :
  ends Q1 (t, s) -> (forall a s', Q1 a s' -> ends Q (k a, s')) -> ends Q (task_bind t k, s).
Proof.
  intros Ht Hk. remember (t, s) as c eqn:E. revert t s E.
  induction Ht as [a s Ha|t s Hgo _ IH]; intros t0 s0 [= <- <-]; [by apply Hk|].
  destruct (task_progress (task_bind t k) s) as [[b Hb]|Hnext].
  - destruct t as [a| | |]; try discriminate Hb. destruct Hgo as [c Hc]. by apply step_cases in Hc.
  - constructor; [done|]. intros c [[a ->]|(t' & s' & Hs & ->)]%bind_step.
    + destruct Hgo as [c' Hc]. by apply step_cases in Hc.
    + by eapply IH.
Qed.

Lemma ends_mono `{JsonNumber} {A} (Q Q' : A -> Shared -> Prop) c :
  ends Q c -> (forall a s, Q a s -> Q' a s) -> ends Q' c.
Proof.
  intros He HQ. induction He as [a s Ha|t s Hgo _ IH]; [constructor; auto|]. constructor; auto.
Qed.

(** The end of a run is reached by a run. *)
Lemma ends_reached `{JsonNumber} {A} (Q : A -> Shared -> Prop) c :
  ends Q c -> ends (fun a s' => Q a s' /\ steps_to c (Ret a, s')) c.
Proof.
  intros He. assert (Hall : forall c0, steps_to c0 c -> ends (fun a s' => Q a s' /\ steps_to c0 (Ret a, s')) c);
    [|apply Hall; constructor].
  induction He as [a s Ha|t s Hgo _ IH]; intros c0 H0; [by constructor|]. constructor; [done|].
  intros c Hc. apply IH; [done|]. eapply steps_trans; [exact H0|]. econstructor; [exact Hc|constructor].
Qed.

Section Wp.
Context `{JsonNumber} {L : Type}.

Definition iwp {A} (m : TM L A) (Q : RuntimeResult A -> L -> Shared -> Prop) (l : L) (s : Shared) : Prop :=
  ends (fun r s' => Q r.1 r.2 s') (m l, s).

Lemma iwp_mono {A} (m : TM L A) (Q Q' : RuntimeResult A -> L -> Shared -> Prop) l s :
  iwp m Q l s -> (forall r l' s', Q r l' s' -> Q' r l' s') -> iwp m Q' l s.
Proof. intros Hm HQ. eapply ends_mono; [exact Hm|]. intros [r l'] s'. apply HQ. Qed.

Lemma iwp_ret {A} (a : A) Q l s : Q (Ok a) l s -> iwp (mret a) Q l s.
Proof. by constructor. Qed.

Lemma iwp_raise {A} e (Q : RuntimeResult A -> L -> Shared -> Prop) l s : Q (Err e) l s -> iwp (raise e) Q l s.
Proof. by constructor. Qed.

Lemma iwp_lift {A} r (Q : RuntimeResult A -> L -> Shared -> Prop) l s : Q r l s -> iwp (lift_result r) Q l s.
Proof. by constructor. Qed.

Lemma iwp_bind {A B} (m : TM L A) (k : A -> TM L B) Q l s :
  iwp m (fun r l' s' => match r with
                        | Ok a => iwp (k a) Q l' s'
                        | Err e => Q (Err e) l' s'
                        | Panicked => Q Panicked l' s'
                        | OutOfFuel => Q OutOfFuel l' s'
                        end) l s ->
  iwp (m ≫= k) Q l s.
Proof.
  intros Hm. eapply ends_bind; [exact Hm|]. intros [[a|e| |] l'] s' Hr; cbn in *; [exact Hr|by constructor..].
Qed.

Lemma iwp_attempt {A} (m : TM L A) Q l s :
  iwp m (fun r l' s' => Q (Ok r) l' s') l s -> iwp (attempt m) Q l s.
Proof. intros Hm. eapply ends_bind; [exact Hm|]. intros [r l'] s' Hr. by constructor. Qed.

Lemma ends_sync {A} f (k : Shared -> task A) Q s : ends Q (k s, f s) -> ends Q (Sync f k, s).
Proof. intros Hk. apply ends_step; [eexists; constructor|]. by intros c ->%step_cases. Qed.

Lemma iwp_access {A} (f : Shared -> A * Shared) Q l s : Q (Ok (f s).1) l (f s).2 -> iwp (access f) Q l s.
Proof. intros HQ. apply ends_sync. by constructor. Qed.

Lemma iwp_await o Q l s : (forall a, Q (Ok a) l (record_exchange o a s)) -> iwp (await o) Q l s.
Proof.
  intros HQ. apply ends_step; [eexists; apply (step_await _ o _ (some_answer o))|].
  intros c [a ->]%step_cases. apply ends_ret. apply HQ.
Qed.

Lemma iwp_modify f (Q : RuntimeResult unit -> L -> Shared -> Prop) l s : Q (Ok tt) (f l) s -> iwp (modify_local f) Q l s.
Proof. by constructor. Qed.

Lemma iwp_get {A} (f : L -> A) Q l s : Q (Ok (f l)) l s -> iwp (get_local f) Q l s.
Proof. by constructor. Qed.

Lemma iwp_emit `{StdText} event payload (Q : RuntimeResult unit -> L -> Shared -> Prop) l s :
  (forall a, Q (match a with inl _ => Ok tt | inr e => Err (runtime_event_error e) end) l
               (record_exchange (OpEmit event payload) a s)) ->
  iwp (emit event payload) Q l s.
Proof.
  intros HQ. apply iwp_bind, (iwp_await (OpEmit event payload)). intros [[]|e]; [apply iwp_ret|apply iwp_raise].
  - apply (HQ (inl tt)).
  - apply (HQ (inr e)).
Qed.

(** A loop that emits. *)
Lemma iwp_for {X A} (I : Shared -> Prop) (body : A -> X -> TM L A) l xs : forall acc s,
  (forall acc x s, I s -> iwp (body acc x) (fun r l' s' => l' = l /\ I s' /\ total (fun _ => True) r) l s) ->
  I s -> iwp (for_em body acc xs) (fun r l' s' => l' = l /\ I s' /\ total (fun _ => True) r) l s.
Proof.
  induction xs as [|x xs IH]; intros acc s Hb Hs; cbn [for_em]; [by apply iwp_ret|].
  apply iwp_bind. eapply iwp_mono; [by apply Hb|]. intros r l' s' (-> & Hs' & Hr). destruct r; try done. by apply IH.
Qed.
End Wp.

(** ** Commit and rollback *)

Lemma install_step names from e previous :
  foldl (fun '(e, previous) name =>
    match bm_get name from with
    | Some v => (bm_insert name v e, previous ++ [(name, bm_get name e)])
    | None => (e, previous)
    end) (e, previous) names
  = ((install names from e).1, previous ++ (install names from e).2).
Proof.
  unfold install. revert e previous. induction names as [|n names IH]; intros e previous; cbn; [by rewrite app_nil_r|].
  destruct (bm_get n from) as [v|]; [|by apply IH]. rewrite IH, (IH _ [_]). cbn. by rewrite <- app_assoc.
Qed.

Lemma install_cons n names from e :
  install (n :: names) from e =
  match bm_get n from with
  | Some v => ((install names from (bm_insert n v e)).1, (n, bm_get n e) :: (install names from (bm_insert n v e)).2)
  | None => install names from e
  end.
Proof. unfold install at 1. cbn. destruct (bm_get n from) as [v|]; [apply install_step|done]. Qed.

Lemma install_wf names from : forall e, bm_wf e -> bm_wf (install names from e).1.
Proof.
  induction names as [|n names IH]; intros e He; [done|]. rewrite install_cons.
  destruct (bm_get n from); cbn; [apply IH; by apply bm_wf_insert|by apply IH].
Qed.

Lemma install_env_wf names from : env_wf from -> forall e, env_wf e -> env_wf (install names from e).1.
Proof.
  intros Hf. induction names as [|n names IH]; intros e He; [done|]. rewrite install_cons.
  destruct (bm_get n from) as [v|] eqn:E; cbn; [|by apply IH]. apply IH. apply env_wf_insert; [done|].
  exact (env_wf_get _ _ _ Hf E).
Qed.

Lemma not_contained n names : n ∉ names -> bs_contains n names = false.
Proof.
  rewrite list_elem_of_In, <- bs_contains_true. by destruct (bs_contains n names).
Qed.

(** What is written, and only that. *)
Lemma install_get names from k : forall e, NoDup names ->
  bm_get k (install names from e).1 =
  match bs_contains k names, bm_get k from with true, Some v => Some v | _, _ => bm_get k e end.
Proof.
  induction names as [|n names IH]; intros e Hd; [done|]. apply NoDup_cons in Hd as [Hn%not_contained Hd].
  rewrite install_cons. change (bs_contains k (n :: names)) with (String.eqb k n || bs_contains k names).
  destruct (String.eqb_spec k n) as [->|Hne]; cbn [orb].
  - destruct (bm_get n from) as [v|] eqn:E; cbn [fst]; rewrite IH, Hn by done; [by rewrite bm_get_insert_eq|done].
  - destruct (bm_get n from) as [v|] eqn:E; cbn [fst]; rewrite IH by done; [by rewrite bm_get_insert_ne|done].
Qed.

(** What was there before, once per name. *)
Lemma previous_get names from k : forall e, NoDup names ->
  bm_get k (install names from e).2 =
  match bs_contains k names, bm_get k from with true, Some _ => Some (bm_get k e) | _, _ => None end.
Proof.
  induction names as [|n names IH]; intros e Hd; [done|]. apply NoDup_cons in Hd as [Hn%not_contained Hd].
  rewrite install_cons. change (bs_contains k (n :: names)) with (String.eqb k n || bs_contains k names).
  destruct (bm_get n from) as [v|] eqn:E; cbn [snd bm_get]; destruct (String.eqb_spec k n) as [->|Hne]; cbn [orb];
    try (rewrite IH by done); try done.
  - by rewrite E.
  - by rewrite bm_get_insert_ne.
  - by rewrite Hn, E.
Qed.

Lemma previous_NoDup names from : forall e, NoDup names -> NoDup (install names from e).2.*1.
Proof.
  induction names as [|n names IH]; intros e Hd; [constructor|]. apply NoDup_cons in Hd as [Hn Hd].
  rewrite install_cons. destruct (bm_get n from) as [v|]; [|by apply IH]. cbn. constructor; [|by apply IH].
  rewrite list_elem_of_In in *. intros Hin. apply Hn. clear -Hin. revert Hin. generalize (bm_insert n v e).
  induction names as [|m names IH]; intros e'; [done|]. rewrite install_cons.
  destruct (bm_get m from); cbn; [intros [->|Hin]; [by left|right; by eapply IH]|intros Hin; right; by eapply IH].
Qed.

Lemma rollback_wf previous : forall e, bm_wf e -> bm_wf (rollback previous e).
Proof.
  unfold rollback. induction previous as [|[n p] previous IH]; intros e He; [done|]. cbn. apply IH.
  destruct p; auto using bm_wf_insert, bm_wf_remove.
Qed.

Lemma rollback_get previous k : forall e, NoDup previous.*1 -> bm_wf e ->
  bm_get k (rollback previous e) = default (bm_get k e) (bm_get k previous).
Proof.
  induction previous as [|[n p] previous IH]; intros e Hd He; [done|]. apply NoDup_cons in Hd as [Hn Hd].
  rewrite list_elem_of_In in Hn.
  change (rollback ((n, p) :: previous) e)
    with (rollback previous (match p with Some v => bm_insert n v e | None => bm_remove n e end)).
  rewrite IH; [|done|destruct p; auto using bm_wf_insert, bm_wf_remove]. cbn [bm_get].
  destruct (String.eqb_spec k n) as [->|Hne].
  - rewrite (proj2 (bm_get_None n previous)) by done. cbn.
    destruct p; [apply bm_get_insert_eq|by apply bm_get_remove_eq].
  - f_equal. destruct p; [by apply bm_get_insert_ne|by apply bm_get_remove_ne].
Qed.

(** Rolling back restores the environment exactly. *)
Lemma rollback_install names from e : NoDup names -> bm_wf e ->
  rollback (install names from e).2 (install names from e).1 = e.
Proof.
  intros Hd He. pose proof (install_wf names from e He) as Hw.
  apply bm_ext; [by apply rollback_wf|done|]. intros k.
  rewrite rollback_get, previous_get, install_get by (done || by apply previous_NoDup).
  by destruct (bs_contains k names), (bm_get k from).
Qed.

(** ** What the methods of the interpreter do *)

Section Cells.
Context `{UnicodeTables} `{JsonStr} `{StdText} `{JsonText} `{Layout} `{BuildProfile} `{KeySort}.

(** The setup of a cell of an interpreter. *)
Definition cell_setup (i : Interpreter) (output : N) (cell_id : string) : Setup :=
  mkSetup (i_catalog i) (i_registry i) (i_invocation i) (i_limits i) output cell_id true.

Section Fixed.
Variable cfg : Setup.

(** More was exchanged, all of it allowed. *)
Definition grows (s s' : Shared) : Prop :=
  exists news, history s' = news ++ history s /\ Forall (allowed_exchange cfg) news.

#[global] Instance grows_preorder : PreOrder grows.
Proof.
  split.
  - intros s. exists []. by split; [|constructor].
  - intros s1 s2 s3 (n1 & E1 & F1) (n2 & E2 & F2). exists (n2 ++ n1). rewrite E2, E1, app_assoc.
    split; [done|]. by apply Forall_app.
Qed.

Lemma grows_same s s' : history s' = history s -> grows s s'.
Proof. intros E. exists []. by split; [|constructor]. Qed.

Lemma grows_emit event payload a s : grows s (record_exchange (OpEmit event payload) a s).
Proof. exists [mkExchange (OpEmit event payload) a]. split; [done|]. by repeat constructor. Qed.

Lemma respects_grows s s' : respects cfg s s' -> disciplined cfg s -> grows s s'.
Proof.
  intros [_ HR] Hs. destruct (HR Hs) as ((_ & _ & _ & Hall) & _ & _ & _ & news & E). exists news. split; [done|].
  rewrite E in Hall. by apply Forall_app in Hall as [? _].
Qed.

(** The sink took note of new bindings. *)
Definition commit_noted (s s' : Shared) : Prop :=
  exists news payload, history s' = news ++ history s
    /\ In (mkExchange (OpEmit "binding_committed" payload) (inl tt)) news.

Lemma commit_noted_around s0 s1 s2 s3 : grows s0 s1 -> commit_noted s1 s2 -> grows s2 s3 -> commit_noted s0 s3.
Proof.
  intros (n1 & E1 & _) (n2 & p & E2 & Hin) (n3 & E3 & _). exists (n3 ++ n2 ++ n1), p.
  rewrite E3, E2, E1, !app_assoc. split; [done|]. apply in_or_app. left. apply in_or_app. by right.
Qed.

(** A method that changes no field, within what is allowed, and leaves the
    execution as [P] says. *)
Definition calm {L A} (P : option ActiveExecution -> Prop) (m : TM L A) (l : L) (s : Shared) : Prop :=
  iwp m (fun r l' s' => l' = l /\ grows s s' /\ P (active s') /\ total (fun _ => True) r) l s.

Lemma calm_bind {L A B} (P1 P2 : option ActiveExecution -> Prop) (m : TM L A) (k : A -> TM L B) l s :
  calm P1 m l s -> (forall a, P1 a -> P2 a) -> (forall a s', grows s s' -> P1 (active s') -> calm P2 (k a) l s') ->
  calm P2 (m ≫= k) l s.
Proof.
  intros Hm HP Hk. apply iwp_bind. eapply iwp_mono; [exact Hm|]. intros r l' s' (-> & Hg & Ha & Hr).
  destruct r as [a|e| |]; try done.
  - eapply iwp_mono; [by apply Hk|]. intros r l' s'' (-> & Hg' & Ha' & Hr'). split_and!; try done. by etrans.
  - split_and!; auto.
Qed.

Lemma calm_emit {L} (P : option ActiveExecution -> Prop) event payload (l : L) s :
  P (active s) -> calm P (emit event payload) l s.
Proof. intros HP. apply iwp_emit. intros a. split_and!; try done; [apply grows_emit|by destruct a]. Qed.

Lemma calm_access {L A} (P : option ActiveExecution -> Prop) (f : Shared -> A * Shared) (l : L) s :
  history (f s).2 = history s -> P (active (f s).2) -> calm P (access f) l s.
Proof. intros Hh HP. apply iwp_access. split_and!; try done. by apply grows_same. Qed.

Lemma calm_ret {L A} (P : option ActiveExecution -> Prop) (a : A) (l : L) s : P (active s) -> calm P (mret a) l s.
Proof. intros HP. apply iwp_ret. split_and!; try done. Qed.

Lemma calm_for {L X A} (P : option ActiveExecution -> Prop) (body : A -> X -> TM L A) xs acc (l : L) s :
  (forall acc x s, P (active s) -> calm P (body acc x) l s) -> P (active s) -> calm P (for_em body acc xs) l s.
Proof.
  intros Hb HP. eapply iwp_mono; [apply (iwp_for (fun s' => grows s s' /\ P (active s')))|].
  - intros acc' x s' [Hg HP']. eapply iwp_mono; [by apply Hb|]. intros r l' s'' (-> & Hg' & HP'' & Hr).
    split_and!; try done. by etrans.
  - split; [reflexivity|done].
  - intros r l' s' (-> & [Hg HP'] & Hr). by split_and!.
Qed.

Abbreviation idle := (fun a : option ActiveExecution => a = None).

Lemma calm_cancel_effect {L} P status fields effect (l : L) s : P (active s) -> calm P (cancel_effect status fields effect) l s.
Proof.
  intros HP. unfold cancel_effect. case_match; [by apply calm_ret|].
  eapply (calm_bind P); [|done|intros; by apply calm_ret].
  by apply calm_access; (destruct (machines s !! _) as [m|]; [destruct (cancel m)|]).
Qed.

Lemma calm_cancel_active status i s : calm idle (cancel_active_eval status) i s.
Proof.
  unfold cancel_active_eval. eapply (calm_bind idle); [by apply calm_access|done|]. intros [a|] s1 _ E1; [|by apply calm_ret].
  eapply (calm_bind idle); [by apply calm_access|done|]. intros _ s2 _ E2.
  eapply (calm_bind idle); [case_match; [by apply calm_ret|by apply calm_emit]|done|]. intros _ s3 _ E3.
  eapply (calm_bind idle); [apply calm_for; [|done]|done|].
  { intros _ [node effect] s' E. eapply (calm_bind idle); [by apply calm_cancel_effect|done|].
    intros payload s'' _ E'. by apply calm_emit. }
  intros _ s4 _ E4. eapply (calm_bind idle); [apply calm_for; [|done]|done|].
  { intros _ [node scope] s' E. by apply calm_emit. }
  intros _ s5 _ E5. by apply calm_emit.
Qed.

Abbreviation any := (fun _ : option ActiveExecution => True).

(** [attempt], the execution ended, then the result. *)
Lemma calm_then_idle {L A} (m : TM L A) (l : L) s :
  calm any m l s -> calm idle (r ← attempt m; set_active None;; lift_result r) l s.
Proof.
  intros Hm. apply iwp_bind, iwp_attempt. eapply iwp_mono; [exact Hm|]. intros r l' s' (-> & Hg & _ & Hr).
  apply iwp_bind, iwp_access, iwp_lift. split_and!; try done.
Qed.

Lemma calm_validation_failure cell_id phase i s : calm idle (emit_validation_failure cell_id phase) i s.
Proof.
  apply calm_then_idle. eapply (calm_bind any); [by apply calm_emit|done|]. intros _ s1 _ _.
  eapply (calm_bind any); [by apply calm_access|done|]. intros _ s2 _ _.
  eapply (calm_bind any); [by apply calm_access|done|]. intros _ s3 _ _.
  eapply (calm_bind any); [by apply calm_access|done|]. intros _ s4 _ _. by apply calm_emit.
Qed.

Lemma calm_access_bind {L A B} P (f : Shared -> A * Shared) (k : A -> TM L B) (l : L) s :
  history (f s).2 = history s -> calm P (k (f s).1) l (f s).2 -> calm P (access f ≫= k) l s.
Proof.
  intros Hh Hk. apply iwp_bind, iwp_access. eapply iwp_mono; [exact Hk|]. intros r l' s' (-> & Hg & HP & Hr).
  split_and!; try done. etrans; [by apply grows_same|exact Hg].
Qed.

Lemma calm_cell_terminal payload (l : Local) s : calm idle (emit_cell_terminal payload) l s.
Proof.
  unfold emit_cell_terminal. apply calm_access_bind; [done|]. apply calm_access_bind; [done|].
  apply calm_then_idle. by apply calm_emit.
Qed.

Lemma iwp_on_evaluator {A} (m : EM A) l (Q : RuntimeResult (RuntimeResult A * Local) -> Interpreter -> Shared -> Prop) i s :
  iwp m (fun r l' s' => Q (Ok (r, l')) i s') l s -> iwp (on_evaluator m l) Q i s.
Proof. intros Hm. eapply ends_bind; [exact Hm|]. intros [r l'] s' HQ. by constructor. Qed.

(** A cell that ends with an error. *)
Lemma w_end_with_error {A} payload error l i s :
  iwp (end_with_error payload error l : TM Interpreter A)
    (fun r i' s' => i' = i /\ grows s s' /\ active s' = None /\ exists e, r = Err e) i s.
Proof.
  unfold end_with_error. apply iwp_bind, iwp_on_evaluator. unfold terminal_error. apply iwp_bind, iwp_attempt.
  eapply iwp_mono; [apply calm_cell_terminal|]. intros r l' s' (-> & Hg & Ha & Hr).
  destruct r as [[]|e| |]; try done; apply iwp_ret; cbn; apply iwp_raise; split_and!; try done; by eexists.
Qed.

(** A method of the evaluator that keeps the discipline. *)
Lemma w_leaves {A} F (P : A -> Shared -> Prop) (m : EM A) l (Q : _ -> Interpreter -> Shared -> Prop) i s :
  leaves cfg F P m l s -> disciplined cfg s ->
  (forall r l' s', grows s s' -> disciplined cfg s' -> F l' -> concludes (fun a => P a s') s' r ->
     steps_to (m l, s) (Ret (r, l'), s') -> Q (Ok (r, l')) i s') ->
  iwp (on_evaluator m l) Q i s.
Proof.
  intros Hm Hs HQ. apply iwp_on_evaluator. eapply ends_mono; [apply ends_reached, (leaves_ends cfg F P m l s
    (fun r s' => respects cfg s s' /\ disciplined cfg s' /\ F r.2 /\ concludes (fun a => P a s') s' r.1)); [exact Hm|exact Hs|]|].
  - intros r l' s' HR Hs' HF Hr. by split_and!.
  - intros [r l'] s' [(HR & Hs' & HF & Hr) Hrun]. apply HQ; try done. by apply respects_grows.
Qed.

(** A metered operation, which does not panic. *)
Lemma w_metered {A} (P : A -> Prop) op l (Q : _ -> Interpreter -> Shared -> Prop) i s :
  fair cfg P op -> local_ok cfg l -> disciplined cfg s ->
  (forall r s', grows s s' -> disciplined cfg s' -> total P r -> Q (Ok (r, l)) i s') ->
  iwp (on_evaluator (metered_op op) l) Q i s.
Proof.
  intros Hop Hl Hs HQ. apply iwp_on_evaluator.
  apply (safe_ends (respects cfg) branch_post collect_post lost_branch (branch_later cfg)).
  eapply safe_mono; [apply _| |by apply (metered_safe cfg P)].
  intros [r l'] s' HR (Hs' & Hl' & Hr). cbn in *. subst l'. apply HQ; try done. by apply respects_grows.
Qed.

(** The fields a cell starts with. *)
Definition start_local (e : Environment) : Local := mkLocal e [] [] None None 0.

(** Between [s] and [s'] the forms of [c] were evaluated from the environment [e]
    on, with the value [value] and the fields [l] at the end. *)
Definition forms_evaluated (c : Cell) (e : Environment) (s : Shared) (value : Value) (l : Local) (s' : Shared) : Prop :=
  exists s1 s2, grows s s1 /\ steps_to (eval_cell cfg c (start_local e), s1) (Ret (Ok value, l), s2) /\ grows s2 s'.

(** What they bound is installed, and the sink took note of it. *)
Definition committed_from (c : Cell) (i : Interpreter) (s : Shared) (value : Value) (names : list string)
    (i' : Interpreter) (s' : Shared) : Prop :=
  commit_noted s s' /\ exists l, forms_evaluated c (i_env i) s value l s' /\ env_wf (env l) /\ commits l
    /\ names = committed l /\ i' = set_i_env (install names (env l) (i_env i)).1 i.

(** How an evaluated cell ends. *)
Definition settled (c : Cell) (i : Interpreter) (s : Shared) (r : RuntimeResult RuntimeOutput) (i' : Interpreter)
    (s' : Shared) : Prop :=
  grows s s' /\
  match r with
  | Ok out => active s' = None /\ committed_from c i s (out_value out) (out_committed out) i' s'
  | Err _ => active s' = None /\ (i' = i \/ exists value names, committed_from c i s value names i' s')
  | Panicked => i' = i /\ sort_panicked s'
  | OutOfFuel => False
  end.

Lemma evaluated_around c e s0 s value l s' s'' :
  grows s0 s -> forms_evaluated c e s value l s' -> grows s' s'' -> forms_evaluated c e s0 value l s''.
Proof. intros G0 (s1 & s2 & G1 & Hrun & G2) G3. exists s1, s2. split_and!; [by etrans|done|by etrans]. Qed.

Lemma committed_later c i s0 s value names i' s' :
  grows s0 s -> committed_from c i s value names i' s' -> committed_from c i s0 value names i' s'.
Proof.
  intros Hg (Hn & l & He & Hrest). split; [by eapply commit_noted_around|]. exists l. split; [|done].
  by eapply evaluated_around.
Qed.

Lemma settled_later c i s0 s r i' s' : grows s0 s -> settled c i s r i' s' -> settled c i s0 r i' s'.
Proof.
  intros Hg (Hg' & Hr). split; [by etrans|]. destruct r as [out|e| |]; try done.
  - destruct Hr as [? ?]. split; [done|]. by eapply committed_later.
  - destruct Hr as [? [?|(value & names & ?)]]; (split; [done|]); [by left|]. right. exists value, names.
    by eapply committed_later.
Qed.

Lemma settled_error c payload error l i s : iwp (end_with_error payload error l) (settled c i s) i s.
Proof.
  eapply iwp_mono; [apply w_end_with_error|]. intros r i' s' (-> & Hg & Ha & e & ->).
  split; [done|]. split; [done|by left].
Qed.

Lemma settled_iwp c (m : TM Interpreter RuntimeOutput) i s0 s :
  grows s0 s -> iwp m (settled c i s) i s -> iwp m (settled c i s0) i s.
Proof. intros Hg Hm. eapply iwp_mono; [exact Hm|]. intros r i' s'. by apply settled_later. Qed.

Context `{!SaneRuntime cfg}.

Lemma k_set_i_env_id e i : set_i_env (i_env i) (set_i_env e i) = i.
Proof. by destruct i. Qed.

(** After the bindings are noted. *)
Lemma w_finish_cell c payload value l i e s0 s :
  grows s0 s -> commit_noted s0 s -> forms_evaluated c (i_env i) s0 value l s -> env_wf (env l) -> commits l ->
  e = (install (committed l) (env l) (i_env i)).1 ->
  iwp (ended ← on_evaluator (emit_cell_terminal payload) l;
       lift_result ended.1;;
       stdout ← access (fun s => (sh_stdout s, s));
       mret (mkOutput stdout value (committed l))) (settled c i s0) (set_i_env e i) s.
Proof.
  intros Hg Hn He Hwf Hc ->. apply iwp_bind, iwp_on_evaluator. eapply iwp_mono; [apply calm_cell_terminal|].
  intros r l' s' (-> & G & A & Hr).
  assert (Hcommit : committed_from c i s0 value (committed l)
    (set_i_env (install (committed l) (env l) (i_env i)).1 i) s').
  { split; [by eapply (commit_noted_around s0 s0); [reflexivity|..]|]. exists l. split_and!; try done.
    by eapply evaluated_around; [reflexivity|..]. }
  assert (G' : grows s0 s') by (by etrans).
  apply iwp_bind, iwp_lift. destruct r as [[]|error| |]; try done.
  - apply iwp_bind, iwp_access, iwp_ret. by split_and!.
  - split_and!; try done. right. by exists value, (committed l).
Qed.

Lemma w_commit_cell c value l i s0 s :
  grows s0 s -> forms_evaluated c (i_env i) s0 value l s ->
  local_ok cfg l -> commits l -> bm_wf (i_env i) -> disciplined cfg s ->
  iwp (commit_cell cfg value l) (settled c i s0) i s.
Proof.
  intros G0 He Hl Hc Hi Hs. assert (Hwf : env_wf (env l)) by apply Hl. unfold commit_cell. apply iwp_bind, iwp_get. unfold id.
  match goal with |- iwp (if ?b then _ else _) _ _ _ => destruct b end; [by eapply settled_iwp; [|apply settled_error]|].
  apply iwp_bind, iwp_on_evaluator, iwp_access. cbn [fst snd].
  destruct (value_json_bounded _ _ _ _) as [[rendered_len rendered]|]; [|by eapply settled_iwp; [|apply settled_error]].
  apply iwp_bind. eapply w_metered; [apply fair_reserve|done..|]. intros r s2 G2 D2 Hr2. cbn [fst snd].
  assert (G02 : grows s0 s2) by by etrans.
  destruct r as [[]|e| |]; try done; [|eapply settled_iwp; [exact G02|apply settled_error]].
  apply iwp_bind, iwp_access. cbn [fst snd]. set (s3 := mkShared _ _ _ _ _ _ _ _ _ _).
  assert (G3 : grows s s3) by exact G2. assert (D3 : disciplined cfg s3) by exact D2. clearbody s3.
  assert (Hd : NoDup (committed l)) by (by apply bs_wf_NoDup, Hc).
  pose proof (rollback_install (committed l) (env l) (i_env i) Hd Hi) as Hback.
  destruct (install (committed l) (env l) (i_env i)) as [e previous] eqn:Einst. cbn [fst snd] in Hback.
  apply iwp_bind, iwp_modify. apply iwp_bind, iwp_on_evaluator, iwp_emit. intros a. cbn [fst snd].
  match goal with |- context [record_exchange (OpEmit _ ?p) a s3] => set (payload := p) end.
  assert (G4 : grows s (record_exchange (OpEmit "binding_committed" payload) a s3)) by (etrans; [exact G3|apply grows_emit]).
  destruct a as [[]|error]; cbv iota.
  - assert (Hnoted : commit_noted s (record_exchange (OpEmit "binding_committed" payload) (inl tt) s3)).
    { apply (commit_noted_around _ s3 (record_exchange (OpEmit "binding_committed" payload) (inl tt) s3)); [done| |reflexivity].
      exists [mkExchange (OpEmit "binding_committed" payload) (inl tt)], payload. split; [done|by left]. }
    assert (D4 : disciplined cfg (record_exchange (OpEmit "binding_committed" payload) (inl tt) s3)).
    { destruct D3 as (? & ? & ? & ?). split_and!; try done. by constructor. }
    clear Hback. revert G4 Hnoted D4. generalize (record_exchange (OpEmit "binding_committed" payload) (inl tt) s3).
    clear s3 G3 D3. intros s4 G4 Hnoted D4.
    apply iwp_bind. eapply w_metered; [apply fair_preview|done..|]. intros r s5 G5 D5 Hr5. cbn [fst snd].
    assert (Hn5 : commit_noted s0 s5) by (eapply commit_noted_around; [exact G0|exact Hnoted|exact G5]).
    assert (He5 : forms_evaluated c (i_env i) s0 value l s5)
      by (eapply evaluated_around; [reflexivity|exact He|by etrans]).
    assert (G05 : grows s0 s5) by (etrans; [exact G0|by etrans]).
    destruct r as [[]|e5| |]; try done; apply iwp_bind, iwp_ret;
      (apply w_finish_cell; [done..|by rewrite Einst]).
  - apply iwp_bind, iwp_modify. cbn [i_env set_i_env]. rewrite Hback, k_set_i_env_id.
    eapply settled_iwp; [etrans; [exact G0|exact G4]|apply settled_error].
Qed.

Lemma w_fail_cell c error l i s :
  local_ok cfg l -> disciplined cfg s -> iwp (fail_cell cfg error l) (settled c i s) i s.
Proof.
  intros Hl Hs. unfold fail_cell. apply iwp_bind. eapply w_metered; [apply fair_preview|done..|].
  intros r s1 G1 D1 Hr. cbn [fst snd].
  destruct r as [[]|e| |]; try done; apply iwp_bind, iwp_ret; (eapply settled_iwp; [exact G1|apply settled_error]).
Qed.

(** An interpreter between two cells. *)
Definition interpreter_ok (i : Interpreter) : Prop := env_wf (i_env i) /\ bm_wf (i_env i).

Lemma disciplined_start s :
  Forall (allowed_exchange cfg) (history s) ->
  disciplined cfg (mkShared 0 "" 0 0 (active s) (terminal_selected s) (machines s) (next_rc s) (history s) []).
Proof. intros Hh. split_and!; [apply N.le_0_l..|exact Hh]. Qed.

(** From the start event on. *)
Lemma w_started c payload i s :
  interpreter_ok i -> disciplined cfg s ->
  let l := start_local (i_env i) in
  iwp (started ← on_evaluator (emit "cell_start" payload) l;
       match started.1 with
       | Err error => set_active None;; raise error
       | Panicked => lift_result Panicked
       | OutOfFuel => lift_result OutOfFuel
       | Ok _ =>
           on_active set_cell_started;;
           result ← on_evaluator (eval_cell cfg c) l;
           match result.1 with
           | Ok value => commit_cell cfg value result.2
           | Err error => fail_cell cfg error result.2
           | Panicked => lift_result Panicked
           | OutOfFuel => lift_result OutOfFuel
           end
       end) (settled c i s) i s.
Proof.
  intros [Hi Hw] D1 l. assert (Hl : local_ok cfg l) by (split; [done|apply N.le_0_l]). apply iwp_bind, iwp_on_evaluator, iwp_emit. intros a. cbn [fst snd].
  pose proof (grows_emit "cell_start" payload a s) as G2. destruct a as [[]|error]; cbv iota.
  - assert (D2 : disciplined cfg (record_exchange (OpEmit "cell_start" payload) (inl tt) s)).
    { destruct D1 as (? & ? & ? & ?). split_and!; try done. by constructor. }
    apply iwp_bind, iwp_access. cbn [fst snd]. apply settled_iwp; [exact G2|].
    set (s3 := mkShared _ _ _ _ _ _ _ _ _ _). assert (D3 : disciplined cfg s3) by exact D2. clearbody s3.
    apply iwp_bind. eapply w_leaves; [by apply eval_cell_leaves|done|].
    intros r l' s4 G4 D4 (He & Hc & _ & _ & Hd) Hr Hrun. cbn [fst snd].
    assert (Hl' : local_ok cfg l') by (split; [done|rewrite Hd; apply Hl]).
    destruct r as [value|error| |]; try done; [|by apply settled_iwp; [|apply w_fail_cell]|by apply iwp_lift].
    apply w_commit_cell; try done; [by exists s3, s4|]. apply Hc. by split; [constructor|].
  - apply iwp_bind, iwp_access, iwp_raise. split_and!; try done. by left.
Qed.

Lemma w_run_cell c i s :
  interpreter_ok i -> Forall (allowed_exchange cfg) (history s) -> iwp (run_cell cfg c) (settled c i s) i s.
Proof.
  intros Hi Hh. unfold run_cell. apply iwp_bind, iwp_access. cbn [fst snd].
  pose proof (disciplined_start s Hh) as Hs. set (s0 := mkShared _ _ _ _ _ _ _ _ _ _) in *.
  apply settled_iwp; [by apply grows_same|]. clearbody s0. clear s Hh.
  apply iwp_bind, iwp_get. set (l := mkLocal _ _ _ _ _ _).
  assert (Hl : local_ok cfg l) by (split; [apply Hi|apply N.le_0_l]).
  apply iwp_bind. eapply w_metered; [apply fair_preview|done..|]. intros r s1 G1 D1 Hr. cbn [fst snd].
  apply settled_iwp; [done|]. destruct r as [[]|e| |]; try done; apply iwp_bind, iwp_ret; by apply w_started.
Qed.
End Fixed.

(** ** Cells *)

Lemma sane_any_cell i output cell_id : SaneRuntime (cell_setup i output "") -> SaneRuntime (cell_setup i output cell_id).
Proof. intros []. by constructor. Qed.

(** The name of the next cell. *)
Definition next_cell_id (i : Interpreter) : string := ("cell-" ++ display_u64 (cell_counter i + 1))%string.

(** Between [s] and [s'] the cell [source] was evaluated on the environment of the
    interpreter, with the value [value] and the fields [l] at the end. *)
Definition cell_evaluated (i : Interpreter) (output : N) (source : list char) (s : Shared) (value : Value) (l : Local)
    (s' : Shared) : Prop :=
  exists c, parse_bounded source (source_bytes (i_limits i)) (syntax_nodes (i_limits i)) (parse_depth (i_limits i)) = Ok c
    /\ forms_evaluated (cell_setup i output (next_cell_id i)) c (i_env i) s value l s'.

(** The environment got the values of exactly the names the cell is to commit. *)
Definition bindings_installed (i : Interpreter) (l : Local) (i' : Interpreter) : Prop :=
  (forall k, In k (committed l) -> exists v, bm_get k (env l) = Some v /\ bm_get k (i_env i') = Some v)
  /\ (forall k, ~ In k (committed l) -> bm_get k (i_env i') = bm_get k (i_env i)).

(** What [eval] does, all in one. *)
Definition evaluated (i : Interpreter) (output : N) (source : list char) (s : Shared)
    (r : RuntimeResult RuntimeOutput) (i' : Interpreter) (s' : Shared) : Prop :=
  grows (cell_setup i output "") s s'
  /\ i_catalog i' = i_catalog i /\ i_registry i' = i_registry i /\ i_invocation i' = i_invocation i
  /\ i_limits i' = i_limits i /\ interpreter_ok i'
  /\ let commits_to value names :=
       commit_noted s s' /\ exists l, cell_evaluated i output source s value l s' /\ names = committed l
         /\ bindings_installed i l i' in
     match r with
     | Ok out => active s' = None /\ commits_to (out_value out) (out_committed out)
     | Err _ => active s' = None /\ (i_env i' = i_env i \/ exists value names, commits_to value names)
     | Panicked => i_env i' = i_env i /\ sort_panicked s'
     | OutOfFuel => False
     end.

Lemma w_reject i output source cell_id phase d n s0 s :
  interpreter_ok i -> grows (cell_setup i output "") s0 s ->
  iwp (reject_cell cell_id phase d) (evaluated i output source s0) (set_cell_counter n i) s.
Proof.
  intros Hi Hg. unfold reject_cell. apply iwp_bind.
  eapply iwp_mono; [apply (calm_validation_failure (cell_setup i output ""))|].
  intros r i' s' (-> & G & A & Hr).
  assert (Hend : forall e, evaluated i output source s0 (Err e) (set_cell_counter n i) s').
  { intros e. unfold evaluated. split_and!; try done; [by etrans|by apply Hi..|by left]. }
  destruct r as [[]|e| |]; try done. by apply iwp_raise.
Qed.

Lemma install_bindings i l : env_wf (env l) -> commits l -> interpreter_ok i ->
  let i' := set_i_env (install (committed l) (env l) (i_env i)).1 i in
  interpreter_ok i' /\ bindings_installed i l i'.
Proof.
  intros Hwf [Hset Hb] Hi i'. pose proof (bs_wf_NoDup _ Hset) as Hd. split.
  - split; [apply install_env_wf; [done|apply Hi]|apply install_wf, Hi].
  - split; intros k Hk; cbn; rewrite install_get by done.
    + destruct (Hb k Hk) as [v Ev]. exists v. apply bs_contains_true in Hk. by rewrite Hk, Ev.
    + rewrite not_contained; [done|]. by rewrite list_elem_of_In.
Qed.

Lemma settled_evaluated i output source c s0 s r i' s' :
  let i1 := set_cell_counter (cell_counter i + 1) i in
  interpreter_ok i ->
  parse_bounded source (source_bytes (i_limits i)) (syntax_nodes (i_limits i)) (parse_depth (i_limits i)) = Ok c ->
  grows (cell_setup i output "") s0 s ->
  settled (cell_setup i output (next_cell_id i)) c i1 s r i' s' -> evaluated i output source s0 r i' s'.
Proof.
  intros i1 Hi Hparse Hg [G Hr].
  assert (G' : grows (cell_setup i output "") s0 s') by (etrans; [exact Hg|exact G]).
  assert (Hcommits : forall value names, committed_from (cell_setup i output (next_cell_id i)) c i1 s value names i' s' ->
    (i_catalog i' = i_catalog i /\ i_registry i' = i_registry i /\ i_invocation i' = i_invocation i
     /\ i_limits i' = i_limits i /\ interpreter_ok i')
    /\ commit_noted s0 s' /\ exists l, cell_evaluated i output source s0 value l s' /\ names = committed l
         /\ bindings_installed i l i').
  { intros value names Hc. apply (committed_later _ _ _ s0) in Hc; [|exact Hg].
    destruct Hc as (Hn & l & He & Hwf & Hl & -> & ->). destruct (install_bindings i1 l Hwf Hl Hi) as [Hok Hb].
    split; [by repeat (split; [done|])|]. split; [done|]. exists l. split; [by exists c|]. by split. }
  unfold evaluated. destruct r as [out|e| |]; try done.
  - destruct Hr as [Ha Hc]. destruct (Hcommits _ _ Hc) as [(? & ? & ? & ? & ?) ?]. by repeat (split; [done|]).
  - destruct Hr as [Ha [->|(value & names & Hc)]]; [by repeat (split; [done|]); left|].
    destruct (Hcommits _ _ Hc) as [(? & ? & ? & ? & ?) ?]. repeat (split; [done|]). right. by exists value, names.
  - destruct Hr as [-> Hp]. by repeat (split; [done|]).
Qed.

Lemma w_eval i output source s :
  SaneRuntime (cell_setup i output "") -> interpreter_ok i ->
  Forall (allowed_exchange (cell_setup i output "")) (history s) ->
  iwp (eval source output) (evaluated i output source s) i s.
Proof.
  intros Hsane Hi Hh. unfold eval. apply iwp_bind, iwp_access. cbn [fst snd]. apply iwp_bind.
  set (cfg := cell_setup i output "") in *.
  assert (Hc : calm cfg (fun a => a = None)
    (if match active s with Some _ => true | None => false end then cancel_active_eval "failed" else mret tt) i s).
  { destruct (active s) eqn:Ea; [apply calm_cancel_active|by apply calm_ret]. }
  eapply iwp_mono; [exact Hc|]. intros r i1 s1 (-> & G1 & A1 & Hr1). destruct r as [[]|e| |]; try done.
  2: { unfold evaluated. split_and!; try done. by left. }
  unfold next_cell. apply iwp_bind, iwp_bind, iwp_modify, iwp_bind, iwp_get, iwp_ret.
  change ("cell-" ++ _)%string with (next_cell_id i). set (cell_id := next_cell_id i).
  apply iwp_bind, iwp_access. apply iwp_bind, iwp_access. apply iwp_bind, iwp_get. cbn [fst snd]. unfold id.
  set (i1 := set_cell_counter _ _). set (s2 := mkShared _ _ _ _ _ _ _ _ _ _).
  assert (G2 : grows cfg s s2) by exact G1. clearbody s2.
  assert (Hdepth : (parse_depth (i_limits i) < usize_max)%N) by (clear -Hsane; by destruct Hsane).
  pose proof (parse_bounded_spec source (source_bytes (i_limits i)) (syntax_nodes (i_limits i)) (parse_depth (i_limits i))
    Hdepth) as Hp.
  change (i_limits i1) with (i_limits i).
  destruct (parse_bounded source _ _ _) as [c|d| |] eqn:Ec; try done; [|by apply w_reject].
  change (i_catalog i1) with (i_catalog i). change (i_env i1) with (i_env i).
  destruct (parsed_spans _ _ _ _ _ Hdepth Ec) as [_ Hsp].
  pose proof (check_bounded_spec source c (i_catalog i) (bm_keys (i_env i)) (source_bytes (i_limits i))
    (syntax_nodes (i_limits i)) (parse_depth (i_limits i)) Hdepth Hsp) as Hchk.
  destruct (check_with_bindings_bounded source c _ _ _ _ _) as [checked|d| |]; try done; [|by apply w_reject].
  pose proof (sane_any_cell i output cell_id Hsane) as Hsane'.
  eapply iwp_mono; [apply (w_run_cell (cell_setup i output cell_id) c i1 s2)|].
  - exact Hi.
  - destruct G2 as (news & -> & Hnews). apply Forall_app. by split.
  - intros r i' s' Hr. by eapply settled_evaluated.
Qed.

Lemma interpreter_new_ok c r ctx l rc : interpreter_ok (interpreter_new c r ctx l rc).
Proof. split; [apply prelude_wf|exact (bm_wf_from _)]. Qed.

(** C33: the interpreter settles after every cell.  Whatever the source text,
    whatever execution an earlier cell left behind and whatever is answered from
    outside, [eval] ends on every schedule, with an output or an error, and then no
    execution is active any more; or it panics, and then a sort of the running cell
    was given keys that are not totally ordered, the sort of the standard library
    panicked on them, and the environment is the one before.  In either case the environment is
    well formed, the catalog, the registry, the grants and the limits are untouched,
    and every request made on behalf of a capability was admitted by the host.
    [SaneRuntime]: a release build, limits below the largest machine integer, and a
    sort that permutes, and sorts what is totally ordered. *)
Theorem eval_settles i output source s :
  SaneRuntime (cell_setup i output "") -> interpreter_ok i ->
  Forall (allowed_exchange (cell_setup i output "")) (history s) ->
  ends (fun r s' =>
    ((((exists out, r.1 = Ok out) \/ (exists e, r.1 = Err e)) /\ active s' = None)
     \/ (r.1 = Panicked /\ sort_panicked s' /\ i_env r.2 = i_env i))
    /\ interpreter_ok r.2
    /\ i_catalog r.2 = i_catalog i /\ i_registry r.2 = i_registry i
    /\ i_invocation r.2 = i_invocation i /\ i_limits r.2 = i_limits i
    /\ exists news, history s' = news ++ history s /\ Forall (allowed_exchange (cell_setup i output "")) news)
    (eval source output i, s).
Proof.
  intros Hsane Hi Hh. eapply ends_mono; [exact (w_eval i output source s Hsane Hi Hh)|].
  intros [r i'] s' (G & E1 & E2 & E3 & E4 & Hok & Hr). cbn [fst snd] in *.
  split; [|by repeat (split; [done|])]. destruct r as [out|e| |]; try done.
  - left. split; [left; by eexists|apply Hr].
  - left. split; [right; by eexists|apply Hr].
  - right. by destruct Hr.
Qed.

(** C4: a cell commits its bindings or leaves none.  After a cell with an output, the
    forms of the source were evaluated on the environment before it; each name the
    output lists as committed now has the value it had at the end of that
    evaluation, every other name has the value it had before the cell, and the event
    sink has accepted the commit.  After a cell that failed, for whatever reason, the
    environment is the one before it, unless the sink had accepted the commit
    already, and then (the failure is that of the terminal event) the same bindings
    are installed: a rejected commit is rolled back exactly.  A panic of the sort
    leaves the environment as it was.  [SaneRuntime] as for C33. *)
Theorem eval_transactional i output source s :
  SaneRuntime (cell_setup i output "") -> interpreter_ok i ->
  Forall (allowed_exchange (cell_setup i output "")) (history s) ->
  ends (fun r s' =>
    match r.1 with
    | Ok out =>
        commit_noted s s'
        /\ exists l, cell_evaluated i output source s (out_value out) l s' /\ out_committed out = committed l
             /\ bindings_installed i l r.2
    | Err _ =>
        i_env r.2 = i_env i
        \/ (commit_noted s s' /\ exists value l, cell_evaluated i output source s value l s'
              /\ bindings_installed i l r.2)
    | Panicked => i_env r.2 = i_env i /\ sort_panicked s'
    | OutOfFuel => False
    end)
    (eval source output i, s).
Proof.
  intros Hsane Hi Hh. eapply ends_mono; [exact (w_eval i output source s Hsane Hi Hh)|].
  intros [r i'] s' (_ & _ & _ & _ & _ & _ & Hr). cbn [fst snd] in *. destruct r as [out|e| |]; try done.
  - by destruct Hr as [_ ?].
  - destruct Hr as [_ [E|(value & names & Hn & l & He & _ & Hb)]]; [by left|]. right. split; [done|]. by exists value, l.
Qed.
End Cells.

(** ** Witnesses *)

Section Witness.
#[local] Existing Instances ascii_tables plain_json sample_numbers sample_text sample_layout plain_text release_build insertion.

Definition sample_interpreter : Interpreter :=
  interpreter_new (catalog_from_registry remote_registry (ctx_new sample_grants) []) remote_registry
    (ctx_new sample_grants) limits_default 0.

Lemma sample_interpreter_sane : SaneRuntime (cell_setup sample_interpreter 10000 "").
Proof. destruct sample_sane. by constructor. Qed.

Lemma sample_interpreter_ok : interpreter_ok sample_interpreter.
Proof. apply interpreter_new_ok. Qed.

Definition sample_eval : RuntimeResult RuntimeOutput * Interpreter * Shared :=
  run_task some_answer (eval sample_source 10000 sample_interpreter) sample_shared.

(** What holds at the end of every schedule holds at the end of this one. *)
Lemma ends_run {A} (Q : A -> Shared -> Prop) oracle t s :
  ends Q (t, s) -> Q (run_task oracle t s).1 (run_task oracle t s).2.
Proof.
  intros He. pose proof (run_task_steps oracle t s) as Hr. unfold result_of in Hr. revert Hr.
  generalize (run_task oracle t s).1 (run_task oracle t s).2. intros a s'.
  remember (t, s) as c eqn:E. remember (Ret a, s') as c' eqn:E'. intros Hr. revert t s E He.
  induction Hr as [c|c1 c2 c3 Hs _ IH]; intros t s -> He.
  - injection E' as -> ->. inversion He as [b s0 HQ|t0 s0 [c Hc] _]; subst; [done|]. by apply step_cases in Hc.
  - destruct c2 as [t2 s2]. apply (IH E' t2 s2 eq_refl).
    inversion He as [b s0 HQ|t0 s0 Hgo Hall]; subst; [by apply step_cases in Hs|by apply Hall].
Qed.

Lemma eval_settles_witness :
  interpreter_ok sample_interpreter /\ active sample_eval.2 = None
  /\ (match sample_eval.1.1 with Ok out => out_committed out | _ => [] end) = ["r"%string].
Proof.
  split; [exact sample_interpreter_ok|]. split.
  - pose proof (ends_run _ some_answer _ _ (eval_settles sample_interpreter 10000 sample_source sample_shared
      sample_interpreter_sane sample_interpreter_ok (List.Forall_nil _))) as [Hr _].
    assert (Hok : is_ok sample_eval.1.1 = true) by (vm_compute; reflexivity).
    revert Hok Hr. unfold sample_eval.
    generalize (run_task some_answer (eval sample_source 10000 sample_interpreter) sample_shared).
    intros ran Hok [[_ Ha]|[Hp _]]; [exact Ha|]. rewrite Hp in Hok. discriminate Hok.
  - vm_compute. reflexivity.
Defined.

(** A sink that refuses the commit. *)
Definition refusing (o : Op) : answer_of o :=
  match o with
  | OpEmit event payload => if String.eqb event "binding_committed" then inr (HostCall "disk full") else inl tt
  | o => some_answer o
  end.

Definition refused_eval : RuntimeResult RuntimeOutput * Interpreter * Shared :=
  run_task refusing (eval sample_source 10000 sample_interpreter) sample_shared.

Definition noted (e : Exchange) : bool :=
  match e with
  | mkExchange (OpEmit event _) (inl _) => String.eqb event "binding_committed"
  | _ => false
  end.

Lemma eval_transactional_witness :
  (* the commit is accepted *)
  (exists l, committed l = ["r"%string] /\ bindings_installed sample_interpreter l sample_eval.1.2
     /\ is_Some (bm_get "r" (i_env sample_eval.1.2)))
  (* the commit is refused *)
  /\ existsb noted (history refused_eval.2) = false /\ i_env refused_eval.1.2 = i_env sample_interpreter.
Proof.
  split.
  - pose proof (ends_run _ some_answer _ _ (eval_transactional sample_interpreter 10000 sample_source sample_shared
      sample_interpreter_sane sample_interpreter_ok (List.Forall_nil _))) as Hr.
    assert (Hout : (match sample_eval.1.1 with Ok out => Some (out_committed out) | _ => None end) = Some ["r"%string])
      by (vm_compute; reflexivity).
    revert Hout Hr. unfold sample_eval.
    generalize (run_task some_answer (eval sample_source 10000 sample_interpreter) sample_shared).
    intros ran Hout Hr. destruct (ran.1.1) as [out|e| |]; try discriminate Hout. injection Hout as Hout.
    destruct Hr as (_ & l & _ & E & Hb). exists l. rewrite Hout in E. split; [done|]. split; [exact Hb|].
    destruct (proj1 Hb "r"%string) as (v & _ & Ev); [rewrite <- E; by left|]. by exists v.
  - assert (Hnone : existsb noted (history refused_eval.2) = false) by (vm_compute; reflexivity).
    assert (Herr : match refused_eval.1.1 with Err _ => true | _ => false end = true) by (vm_compute; reflexivity).
    split; [exact Hnone|].
    pose proof (ends_run _ refusing _ _ (eval_transactional sample_interpreter 10000 sample_source sample_shared
      sample_interpreter_sane sample_interpreter_ok (List.Forall_nil _))) as Hr.
    revert Hnone Herr Hr. unfold refused_eval.
    generalize (run_task refusing (eval sample_source 10000 sample_interpreter) sample_shared).
    intros refused Hnone Herr Hr. destruct (refused.1.1) as [out|e| |]; try discriminate Herr.
    destruct Hr as [E|((news & payload & E & Hin) & _)]; [exact E|].
    rewrite E, existsb_app in Hnone. apply orb_false_iff in Hnone as [Hnone _].
    assert (Ht : existsb noted news = true) by (apply existsb_exists; eexists; split; [exact Hin|reflexivity]).
    rewrite Ht in Hnone. discriminate Hnone.
Defined.
End Witness.
