(* ===== verification/EgressState.v ===== *)
(** * Durable state of the egress boundary ([tm-egress/src/state.rs],
    [tm-egress/src/budget.rs])

    Mutating requests are claimed and finished under an effect id; every request
    reserves budget before it is sent and settles it afterwards.  The trait
    [EgressStateStore] is a class, the in-memory implementation an instance.  A
    call returns its answer together with the store after it, also when it
    fails: some failing calls leave a trace.  Locks serialise the calls. *)

From stdpp Require Import base tactics gmap strings.
From Stdlib Require Import NArith Lia.
From S2P Require Import Prelude.

Inductive EgressError :=
| Disabled
| InvalidConfig (message : string)
| InvalidRequest (message : string)
| Denied (message : string)
| Revoked (message : string)
| Budget (message : string)
| Timeout
| Dns
| Transport
| NonUtf8
| InvalidSecretHandle
| SecretUnavailable
| Audit
| Durability (message : string).

Definition error_code (e : EgressError) : string :=
  match e with
  | Disabled => "disabled"
  | InvalidConfig _ => "invalid_config"
  | InvalidRequest _ => "invalid_request"
  | Denied _ => "denied"
  | Revoked _ => "revoked"
  | Budget _ => "budget_exceeded"
  | Timeout => "timeout"
  | Dns => "dns_failed"
  | Transport => "transport_failed"
  | NonUtf8 => "non_utf8_response"
  | InvalidSecretHandle => "invalid_secret_handle"
  | SecretUnavailable => "secret_unavailable"
  | Audit => "audit_failed"
  | Durability _ => "durability_failed"
  end.

Definition EgressResult := outcome EgressError.

(** ** Mutations *)

Record EgressMutationIntent := mkIntent {
  effect_id : string;
  intent_session_id : string;
  effect_scope_id : string;
  session_digest : string;
  actor_digest : string;
  intent_destination_id : string;
  destination_version : N;
  target_digest : string;
  request_digest : string;
  intent_request_bytes : N;
}.

#[global] Instance intent_eq_dec : EqDecision EgressMutationIntent.
Proof. solve_decision. Defined.

Definition same_effect_identity (a b : EgressMutationIntent) : bool := bool_decide (a = b).

Inductive EgressMutationStatus := Started | Succeeded | MutationFailed | Uncertain.

#[global] Instance mutation_status_eq_dec : EqDecision EgressMutationStatus.
Proof. solve_decision. Defined.

Definition status_is_terminal (s : EgressMutationStatus) : bool :=
  match s with Started => false | _ => true end.

Record EgressMutationRecord := mkMutation {
  intent : EgressMutationIntent;
  status : EgressMutationStatus;
  result_digest : option string;
  result_bytes : option N;
  record_error_code : option string;
  error_digest : option string;
}.

#[global] Instance mutation_eq_dec : EqDecision EgressMutationRecord.
Proof. solve_decision. Defined.

Definition mutation_started (i : EgressMutationIntent) : EgressMutationRecord :=
  mkMutation i Started None None None None.

Record EgressMutationClaim := mkClaim {
  claim_record : EgressMutationRecord;
  created : bool;
}.

(** ** Budgets *)

Record EgressUsageLimits := mkUsageLimits {
  max_requests : N;
  max_request_bytes : N;
  max_response_bytes : N;
  max_time_ms : N;
}.

Record EgressUsage := mkUsage {
  requests : N;
  request_bytes : N;
  response_bytes : N;
  response_reserved : N;
  time_ms : N;
  time_reserved_ms : N;
}.

Definition usage_default : EgressUsage := mkUsage 0 0 0 0 0 0.

Definition validate_reservation (u : EgressUsage) (limits : EgressUsageLimits)
    (request response time : N) : EgressResult unit :=
  if (max_requests limits <=? requests u)%N then Err (Budget "session request cap")
  else if (max_request_bytes limits <? saturating_add (request_bytes u) request)%N
  then Err (Budget "session request-byte cap")
  else if (max_response_bytes limits
           <? saturating_add (saturating_add (response_bytes u) (response_reserved u)) response)%N
  then Err (Budget "session response-byte cap")
  else if (max_time_ms limits
           <? saturating_add (saturating_add (time_ms u) (time_reserved_ms u)) time)%N
  then Err (Budget "session time cap")
  else Ok tt.

Record EgressBudgetRequest := mkBudgetRequest {
  req_reservation_id : string;
  req_session_id : string;
  req_destination_id : string;
  req_request_bytes : N;
  req_response_reserved : N;
  req_time_reserved_ms : N;
  session_limits : EgressUsageLimits;
  destination_limits : EgressUsageLimits;
}.

Record EgressBudgetReservation := mkReservation {
  reservation_id : string;
  res_session_id : string;
  res_destination_id : string;
  res_response_reserved : N;
  res_time_reserved_ms : N;
}.

#[global] Instance reservation_eq_dec : EqDecision EgressBudgetReservation.
Proof. solve_decision. Defined.

Record ReservationRecord := mkRecord {
  reservation : EgressBudgetReservation;
  rec_request_bytes : N;
  settled : bool;
  rec_response_bytes : N;
  rec_elapsed_ms : N;
}.

Record SessionUsage := mkSession {
  total : EgressUsage;
  destinations : gmap string EgressUsage;
  reservations : gmap string ReservationRecord;
}.

Definition session_default : SessionUsage := mkSession usage_default ∅ ∅.

(** [BudgetBook]: the sessions under its lock. *)
Abbreviation BudgetBook := (gmap string SessionUsage).

Definition reserve_usage (u : EgressUsage) (request response time : N) : EgressUsage :=
  mkUsage (saturating_add (requests u) 1) (saturating_add (request_bytes u) request)
    (response_bytes u) (saturating_add (response_reserved u) response)
    (time_ms u) (saturating_add (time_reserved_ms u) time).

Definition settle_usage (u : EgressUsage) (reserved time_reserved response elapsed : N) : EgressUsage :=
  mkUsage (requests u) (request_bytes u)
    (saturating_add (response_bytes u) response) (saturating_sub (response_reserved u) reserved)
    (saturating_add (time_ms u) (N.min elapsed time_reserved))
    (saturating_sub (time_reserved_ms u) time_reserved).

(** Whether a request repeats a reservation: the fields [reserve] compares. *)
Definition same_reservation (existing : ReservationRecord) (request : EgressBudgetRequest) : bool :=
  String.eqb (res_session_id (reservation existing)) (req_session_id request)
  && String.eqb (res_destination_id (reservation existing)) (req_destination_id request)
  && (res_response_reserved (reservation existing) =? req_response_reserved request)%N
  && (res_time_reserved_ms (reservation existing) =? req_time_reserved_ms request)%N
  && (rec_request_bytes existing =? req_request_bytes request)%N.

(** The session's entry is created before anything is checked. *)
Definition reserve (request : EgressBudgetRequest) (book : BudgetBook)
    : EgressResult EgressBudgetReservation * BudgetBook :=
  let usage := default session_default (book !! req_session_id request) in
  let book := <[req_session_id request := usage]> book in
  match reservations usage !! req_reservation_id request with
  | Some existing =>
      if same_reservation existing request then (Ok (reservation existing), book)
      else (Err (Durability "egress budget reservation id collision"), book)
  | None =>
      let destination_usage := default usage_default (destinations usage !! req_destination_id request) in
      let bytes := req_request_bytes request in
      let response := req_response_reserved request in
      let time := req_time_reserved_ms request in
      match validate_reservation (total usage) (session_limits request) bytes response time;;
            validate_reservation destination_usage (destination_limits request) bytes response time with
      | Ok _ =>
          let reservation := mkReservation (req_reservation_id request) (req_session_id request)
                               (req_destination_id request) response time in
          let usage := mkSession
            (reserve_usage (total usage) bytes response time)
            (<[req_destination_id request := reserve_usage destination_usage bytes response time]>
               (destinations usage))
            (<[reservation_id reservation := mkRecord reservation bytes false 0 0]> (reservations usage)) in
          (Ok reservation, <[req_session_id request := usage]> book)
      | Err e => (Err e, book)
      | Panicked => (Panicked, book)
      | OutOfFuel => (OutOfFuel, book)
      end
  end.

Definition settle (res : EgressBudgetReservation) (response elapsed : N) (book : BudgetBook)
    : EgressResult unit * BudgetBook :=
  match book !! res_session_id res with
  | None => (Err (Durability "egress budget session reservation is missing"), book)
  | Some session =>
      match reservations session !! reservation_id res with
      | None => (Err (Durability "egress budget reservation is missing"), book)
      | Some record =>
          if negb (bool_decide (reservation record = res)) then
            (Err (Durability "egress budget settlement collision"), book)
          else if settled record then
            if (rec_response_bytes record =? response)%N && (rec_elapsed_ms record =? elapsed)%N
            then (Ok tt, book)
            else (Err (Durability "egress budget reservation already settled differently"), book)
          else
            let settle_one u :=
              settle_usage u (res_response_reserved res) (res_time_reserved_ms res) response elapsed in
            let total := settle_one (total session) in
            match destinations session !! res_destination_id res with
            | None =>
                (Err (Durability "egress destination usage is missing"),
                 <[res_session_id res := mkSession total (destinations session) (reservations session)]> book)
            | Some destination =>
                (Ok tt,
                 <[res_session_id res :=
                     mkSession total
                       (<[res_destination_id res := settle_one destination]> (destinations session))
                       (<[reservation_id res :=
                            mkRecord (reservation record) (rec_request_bytes record) true response elapsed]>
                          (reservations session))]> book)
            end
      end
  end.

Definition budget_clear_session (session_id : string) (book : BudgetBook) : BudgetBook :=
  delete session_id book.

(** ** The store *)

Class EgressStateStore (Store : Type) := {
  begin_mutation : EgressMutationIntent -> Store -> EgressResult EgressMutationClaim * Store;
  finish_mutation : string -> EgressMutationStatus -> option string -> option N -> option string ->
    option string -> Store -> EgressResult EgressMutationRecord * Store;
  reserve_budget : EgressBudgetRequest -> Store -> EgressResult EgressBudgetReservation * Store;
  settle_budget : EgressBudgetReservation -> N -> N -> Store -> EgressResult unit * Store;
  clear_session : string -> Store -> EgressResult unit * Store;
}.

Record VolatileEgressStateStore := mkStore {
  effects : gmap string EgressMutationRecord;
  budgets : BudgetBook;
}.

Definition store_default : VolatileEgressStateStore := mkStore ∅ ∅.

Definition volatile_begin (i : EgressMutationIntent) (st : VolatileEgressStateStore)
    : EgressResult EgressMutationClaim * VolatileEgressStateStore :=
  match effects st !! effect_id i with
  | Some existing =>
      if negb (same_effect_identity (intent existing) i)
      then (Err (Durability "egress mutation effect id collision"), st)
      else (Ok (mkClaim existing false), st)
  | None =>
      let record := mutation_started i in
      (Ok (mkClaim record true), mkStore (<[effect_id i := record]> (effects st)) (budgets st))
  end.

Definition volatile_finish (id : string) (outcome : EgressMutationStatus)
    (digest : option string) (bytes : option N) (code err_digest : option string)
    (st : VolatileEgressStateStore) : EgressResult EgressMutationRecord * VolatileEgressStateStore :=
  if negb (status_is_terminal outcome) then
    (Err (Durability "egress mutation terminal status required"), st)
  else
    match effects st !! id with
    | None => (Err (Durability "egress mutation effect was not persisted"), st)
    | Some record =>
        let requested := mkMutation (intent record) outcome digest bytes code err_digest in
        if status_is_terminal (status record) then
          if bool_decide (record = requested) then (Ok record, st)
          else (Err (Durability "egress mutation already has a different terminal state"), st)
        else (Ok requested, mkStore (<[id := requested]> (effects st)) (budgets st))
    end.

Definition on_budgets {A} (op : BudgetBook -> A * BudgetBook) (st : VolatileEgressStateStore)
    : A * VolatileEgressStateStore :=
  let '(answer, book) := op (budgets st) in (answer, mkStore (effects st) book).

#[global] Instance volatile_store : EgressStateStore VolatileEgressStateStore := {
  begin_mutation := volatile_begin;
  finish_mutation := volatile_finish;
  reserve_budget request := on_budgets (reserve request);
  settle_budget res response elapsed := on_budgets (settle res response elapsed);
  clear_session id := on_budgets (fun book => (Ok tt, budget_clear_session id book));
}.
