(* ===== verification/EgressFacts.v ===== *)
(** * What the egress store guarantees

    The counters of a session balance with its reservations, budgets hold,
    retries charge nothing, and a mutation is claimed and finished once. *)

From stdpp Require Import base tactics gmap strings list.
From Stdlib Require Import NArith Lia.
From S2P Require Import Prelude EgressState.

(** ** Runs of a store *)

Inductive store_command :=
| CBegin (i : EgressMutationIntent)
| CFinish (id : string) (outcome : EgressMutationStatus) (digest : option string) (bytes : option N)
    (code err_digest : option string)
| CReserve (request : EgressBudgetRequest)
| CSettle (res : EgressBudgetReservation) (response elapsed : N)
| CClear (session_id : string).

Inductive store_answer :=
| AClaim (r : EgressResult EgressMutationClaim)
| AFinish (r : EgressResult EgressMutationRecord)
| AReserve (r : EgressResult EgressBudgetReservation)
| AUnit (r : EgressResult unit).

Section Runs.
Context {Store : Type} `{EgressStateStore Store}.

Definition store_step (c : store_command) (st : Store) : store_answer * Store :=
  match c with
  | CBegin i => prod_map AClaim id (begin_mutation i st)
  | CFinish e outcome digest bytes code err_digest =>
      prod_map AFinish id (finish_mutation e outcome digest bytes code err_digest st)
  | CReserve request => prod_map AReserve id (reserve_budget request st)
  | CSettle res response elapsed => prod_map AUnit id (settle_budget res response elapsed st)
  | CClear session_id => prod_map AUnit id (clear_session session_id st)
  end.

Fixpoint store_run (cs : list store_command) (st : Store) : list (store_command * store_answer) * Store :=
  match cs with
  | [] => ([], st)
  | c :: cs =>
      let '(a, st) := store_step c st in
      let '(trace, st) := store_run cs st in
      ((c, a) :: trace, st)
  end.

Lemma store_run_cons c cs st :
  store_run (c :: cs) st =
    ((c, (store_step c st).1) :: (store_run cs (store_step c st).2).1, (store_run cs (store_step c st).2).2).
Proof. cbn. destruct (store_step c st) as [a st']. cbn. by destruct (store_run cs st'). Qed.

(** An invariant of the steps the commands allow is an invariant of the run. *)
Lemma store_run_inv (Inv : Store -> Prop) (Allowed : store_command -> Prop) :
  (forall c st, Allowed c -> Inv st -> Inv (store_step c st).2) ->
  forall cs st, Forall Allowed cs -> Inv st -> Inv (store_run cs st).2.
Proof.
  intros Hstep cs. induction cs as [|c cs IH]; intros st Hall Hi; [done|].
  apply Forall_cons_1 in Hall as [Hc Hcs]. rewrite store_run_cons. cbn. by apply IH, Hstep.
Qed.
End Runs.

(** ** The ledger: what the reservations of a session add up to *)

Definition usage_add (u v : EgressUsage) : EgressUsage :=
  mkUsage (requests u + requests v) (request_bytes u + request_bytes v)
    (response_bytes u + response_bytes v) (response_reserved u + response_reserved v)
    (time_ms u + time_ms v) (time_reserved_ms u + time_reserved_ms v).

(** What one reservation stands for: an open one holds its reserve, a settled one
    the response and the time that were used, at most the time reserved. *)
Definition charge (r : ReservationRecord) : EgressUsage :=
  let res := reservation r in
  if settled r then
    mkUsage 1 (rec_request_bytes r) (rec_response_bytes r) 0
      (N.min (rec_elapsed_ms r) (res_time_reserved_ms res)) 0
  else mkUsage 1 (rec_request_bytes r) 0 (res_response_reserved res) 0 (res_time_reserved_ms res).

Definition charge_if (p : ReservationRecord -> bool) (r : ReservationRecord) : EgressUsage :=
  if p r then charge r else usage_default.

Definition ledger (p : ReservationRecord -> bool) (rs : gmap string ReservationRecord) : EgressUsage :=
  map_fold (fun _ r => usage_add (charge_if p r)) usage_default rs.

Definition to_destination (d : string) (r : ReservationRecord) : bool :=
  bool_decide (res_destination_id (reservation r) = d).

Lemma usage_add_comm u v : usage_add u v = usage_add v u.
Proof. unfold usage_add. f_equal; lia. Qed.

Lemma usage_add_assoc u v w : usage_add u (usage_add v w) = usage_add (usage_add u v) w.
Proof. unfold usage_add. cbn. f_equal; lia. Qed.

Lemma usage_add_default u : usage_add usage_default u = u.
Proof. by destruct u. Qed.

Lemma ledger_insert p rs i r :
  ledger p (<[i:=r]> rs) = usage_add (charge_if p r) (ledger p (delete i rs)).
Proof.
  unfold ledger. rewrite <- insert_delete_eq.
  rewrite map_fold_insert_L; [done| |apply lookup_delete_eq].
  intros. by rewrite !usage_add_assoc, (usage_add_comm (charge_if p z1)).
Qed.

Lemma ledger_lookup p rs i r :
  rs !! i = Some r -> ledger p rs = usage_add (charge_if p r) (ledger p (delete i rs)).
Proof. intros Hi. rewrite <- ledger_insert. by rewrite insert_id. Qed.

Lemma ledger_fresh p rs i r :
  rs !! i = None -> ledger p (<[i:=r]> rs) = usage_add (charge_if p r) (ledger p rs).
Proof. intros Hi. rewrite ledger_insert. by rewrite delete_id. Qed.

(** ** Counters *)

Section Counters.
#[local] Open Scope N_scope.

(** A counter agrees with a sum of charges; the response bytes, which the caller
    reports, saturate. *)
Definition booked (u sum : EgressUsage) : Prop :=
  requests u = requests sum /\ request_bytes u = request_bytes sum
  /\ response_bytes u = N.min (response_bytes sum) usize_max
  /\ response_reserved u = response_reserved sum
  /\ time_ms u = time_ms sum /\ time_reserved_ms u = time_reserved_ms sum
  /\ time_ms u + time_reserved_ms u <= usize_max.

(** A cap of [u64::MAX] would let the saturating sums lose count. *)
Definition sane (l : EgressUsageLimits) : Prop :=
  max_requests l < usize_max /\ max_request_bytes l < usize_max
  /\ max_response_bytes l < usize_max /\ max_time_ms l < usize_max.

Definition held (l : EgressUsageLimits) (u : EgressUsage) : Prop :=
  requests u <= max_requests l /\ request_bytes u <= max_request_bytes l
  /\ response_bytes u + response_reserved u <= max_response_bytes l
  /\ time_ms u + time_reserved_ms u <= max_time_ms l.

Lemma validate_spec u l request response time x :
  validate_reservation u l request response time = Ok x -> sane l ->
  requests u < max_requests l /\ request_bytes u + request <= max_request_bytes l
  /\ response_bytes u + response_reserved u + response <= max_response_bytes l
  /\ time_ms u + time_reserved_ms u + time <= max_time_ms l.
Proof.
  unfold validate_reservation, sane, saturating_add. intros Hv Hs.
  repeat case_match; simplify_eq/=; rewrite ?N.leb_gt, ?N.ltb_ge in *; lia.
Qed.

Definition open_charge (request response time : N) : EgressUsage := mkUsage 1 request 0 response 0 time.

Lemma reserve_booked u sum l request response time x :
  validate_reservation u l request response time = Ok x -> sane l -> booked u sum ->
  booked (reserve_usage u request response time) (usage_add (open_charge request response time) sum).
Proof.
  intros Hv Hl (H1 & H2 & H3 & H4 & H5 & H6 & H7). apply validate_spec in Hv; [|done].
  unfold sane in Hl. unfold booked, reserve_usage, usage_add, saturating_add. cbn. lia.
Qed.

Lemma reserve_held u l request response time x :
  validate_reservation u l request response time = Ok x -> sane l ->
  held l (reserve_usage u request response time).
Proof.
  intros Hv Hl. apply validate_spec in Hv; [|done].
  unfold held, reserve_usage, saturating_add. cbn. unfold sane in Hl. lia.
Qed.

Definition closed_charge (request time response elapsed : N) : EgressUsage :=
  mkUsage 1 request response 0 (N.min elapsed time) 0.

Lemma settle_booked u rest request reserved time response elapsed :
  booked u (usage_add (open_charge request reserved time) rest) ->
  booked (settle_usage u reserved time response elapsed)
    (usage_add (closed_charge request time response elapsed) rest).
Proof.
  intros (H1 & H2 & H3 & H4 & H5 & H6 & H7).
  unfold booked, settle_usage, usage_add, saturating_add, saturating_sub in *. cbn in *. lia.
Qed.

Lemma settle_held l u rest request reserved time response elapsed :
  booked u (usage_add (open_charge request reserved time) rest) -> response <= reserved -> held l u ->
  held l (settle_usage u reserved time response elapsed).
Proof.
  intros (_ & _ & _ & H4 & _ & H6 & H7) Hr.
  unfold held, settle_usage, usage_add, saturating_add, saturating_sub in *. cbn in *. lia.
Qed.
End Counters.

(** ** Sessions *)

(** The session after an accepted reservation. *)
Definition reserved_session (q : EgressBudgetRequest) (s : SessionUsage) : SessionUsage :=
  let bytes := req_request_bytes q in
  let response := req_response_reserved q in
  let time := req_time_reserved_ms q in
  let res := mkReservation (req_reservation_id q) (req_session_id q) (req_destination_id q) response time in
  mkSession (reserve_usage (total s) bytes response time)
    (<[req_destination_id q :=
         reserve_usage (default usage_default (destinations s !! req_destination_id q)) bytes response time]>
       (destinations s))
    (<[req_reservation_id q := mkRecord res bytes false 0 0]> (reservations s)).

Definition reservable (q : EgressBudgetRequest) (s : SessionUsage) : Prop :=
  reservations s !! req_reservation_id q = None
  /\ validate_reservation (total s) (session_limits q) (req_request_bytes q) (req_response_reserved q)
       (req_time_reserved_ms q) = Ok tt
  /\ validate_reservation (default usage_default (destinations s !! req_destination_id q))
       (destination_limits q) (req_request_bytes q) (req_response_reserved q) (req_time_reserved_ms q) = Ok tt.

Lemma reserve_cases q book :
  let s := default session_default (book !! req_session_id q) in
  (reserve q book).2 = <[req_session_id q := s]> book
  \/ (reservable q s
      /\ reserve q book =
           (Ok (mkReservation (req_reservation_id q) (req_session_id q) (req_destination_id q)
                  (req_response_reserved q) (req_time_reserved_ms q)),
            <[req_session_id q := reserved_session q s]> book)).
Proof.
  intros s. unfold reserve. fold s.
  destruct (reservations s !! req_reservation_id q) as [r|] eqn:Er.
  { left. by destruct (same_reservation r q). }
  destruct (validate_reservation (total s) _ _ _ _) as [[]| | |] eqn:Ev; cbn; try by left.
  destruct (validate_reservation (default _ _) _ _ _ _) as [[]| | |] eqn:Ev'; try by left.
  right. split; [done|]. unfold reserved_session. f_equal. apply insert_insert_eq.
Qed.

(** The session after a reservation is settled. *)
Definition settled_session (r : ReservationRecord) (response elapsed : N) (u : EgressUsage)
    (s : SessionUsage) : SessionUsage :=
  let res := reservation r in
  let settle_one u :=
    settle_usage u (res_response_reserved res) (res_time_reserved_ms res) response elapsed in
  mkSession (settle_one (total s)) (<[res_destination_id res := settle_one u]> (destinations s))
    (<[reservation_id res := mkRecord res (rec_request_bytes r) true response elapsed]> (reservations s)).

Lemma settle_cases res response elapsed book :
  (settle res response elapsed book).2 = book
  \/ exists s r,
       book !! res_session_id res = Some s /\ reservations s !! reservation_id res = Some r
       /\ reservation r = res /\ settled r = false
       /\ ((destinations s !! res_destination_id res = None
            /\ exists t, (settle res response elapsed book).2 =
                 <[res_session_id res := mkSession t (destinations s) (reservations s)]> book)
           \/ exists u, destinations s !! res_destination_id res = Some u
              /\ settle res response elapsed book =
                   (Ok tt, <[res_session_id res := settled_session r response elapsed u s]> book)).
Proof.
  unfold settle. destruct (book !! res_session_id res) as [s|] eqn:Es; [|by left].
  destruct (reservations s !! reservation_id res) as [r|] eqn:Er; [|by left].
  case_bool_decide as Hres; [|by left]. cbn.
  destruct (settled r) eqn:Hset; [left; by case_match|]. right. exists s, r.
  split_and!; [done..|]. destruct (destinations s !! _) as [u|] eqn:Ed; [right|left; split; [done|by eexists]].
  exists u. split; [done|]. unfold settled_session. by rewrite Hres.
Qed.

(** The counters of a session agree with its reservations, which are filed under
    their own ids. *)
Record balanced (session_id : string) (s : SessionUsage) : Prop := {
  total_booked : booked (total s) (ledger (fun _ => true) (reservations s));
  destination_booked d :
    booked (default usage_default (destinations s !! d)) (ledger (to_destination d) (reservations s));
  filed i r : reservations s !! i = Some r ->
    reservation_id (reservation r) = i /\ res_session_id (reservation r) = session_id
    /\ is_Some (destinations s !! res_destination_id (reservation r));
}.

Lemma booked_default : booked usage_default usage_default.
Proof. by vm_compute. Qed.

Lemma balanced_default session_id : balanced session_id session_default.
Proof. split; [apply booked_default|intros d; apply booked_default|done]. Qed.

Lemma reserved_balanced q s :
  sane (session_limits q) -> sane (destination_limits q) -> reservable q s ->
  balanced (req_session_id q) s -> balanced (req_session_id q) (reserved_session q s).
Proof.
  intros Hl Hd (Hnew & Hv & Hv') [Ht Hdest Hfile]. split.
  - cbn. rewrite ledger_fresh by done. by eapply reserve_booked.
  - intros d. cbn. rewrite ledger_fresh by done. unfold charge_if, to_destination at 1. cbn.
    case_bool_decide as Heq; [subst d|].
    + rewrite lookup_insert_eq. by eapply reserve_booked.
    + rewrite lookup_insert_ne, usage_add_default by done. apply Hdest.
  - intros i r. cbn. destruct (decide (i = req_reservation_id q)) as [->|Hne].
    + rewrite lookup_insert_eq. intros [= <-]. cbn. by rewrite lookup_insert_eq.
    + rewrite lookup_insert_ne by done. intros Hi. destruct (Hfile i r Hi) as (? & ? & ?).
      split_and!; [done..|]. by apply lookup_insert_is_Some'; right.
Qed.

(** The ledger with one open reservation settled. *)
Lemma ledger_settle (p : ReservationRecord -> bool) rs i r response elapsed u :
  rs !! i = Some r -> settled r = false -> (forall a b c, p (mkRecord (reservation r) a b c elapsed) = p r) ->
  p r = true -> booked u (ledger p rs) ->
  exists rest,
    booked u (usage_add (open_charge (rec_request_bytes r) (res_response_reserved (reservation r))
                           (res_time_reserved_ms (reservation r))) rest)
    /\ ledger p (<[i := mkRecord (reservation r) (rec_request_bytes r) true response elapsed]> rs) =
         usage_add (closed_charge (rec_request_bytes r) (res_time_reserved_ms (reservation r)) response elapsed)
           rest.
Proof.
  intros Hi Hopen Hp Hpr Hb. exists (ledger p (delete i rs)).
  rewrite (ledger_lookup _ _ _ _ Hi) in Hb. rewrite ledger_insert. unfold charge_if in *.
  rewrite Hp, Hpr in *. unfold charge in Hb. rewrite Hopen in Hb. by split.
Qed.

Lemma settled_balanced session_id s i r response elapsed u :
  balanced session_id s -> reservations s !! i = Some r -> settled r = false ->
  destinations s !! res_destination_id (reservation r) = Some u ->
  balanced session_id (settled_session r response elapsed u s).
Proof.
  intros [Ht Hdest Hfile] Hi Hopen Hu. destruct (Hfile i r Hi) as (Hid & _ & _). rewrite <- Hid in Hi. split.
  - cbn. destruct (ledger_settle (fun _ => true) _ _ _ response elapsed _ Hi Hopen (fun _ _ _ => eq_refl) eq_refl Ht)
      as (rest & Hb & ->). by apply settle_booked.
  - intros d. cbn. destruct (decide (res_destination_id (reservation r) = d)) as [<-|Hne].
    + rewrite lookup_insert_eq. cbn. specialize (Hdest (res_destination_id (reservation r))).
      rewrite Hu in Hdest. cbn in Hdest.
      edestruct (ledger_settle (to_destination (res_destination_id (reservation r))) _ _ _ response elapsed u
                   Hi Hopen) as (rest & Hb & ->); [done| |exact Hdest|by apply settle_booked].
      by apply bool_decide_eq_true.
    + rewrite lookup_insert_ne, ledger_insert by done. specialize (Hdest d).
      rewrite (ledger_lookup _ _ _ _ Hi) in Hdest. unfold charge_if, to_destination in *. cbn.
      by rewrite bool_decide_eq_false_2 in * by done.
  - intros j r'. cbn. destruct (decide (j = reservation_id (reservation r))) as [->|Hne].
    + rewrite lookup_insert_eq. intros [= <-]. cbn. rewrite lookup_insert_eq.
      destruct (Hfile _ _ Hi) as (? & ? & ?). by split_and!.
    + rewrite lookup_insert_ne by done. intros Hj. destruct (Hfile j r' Hj) as (? & ? & ?).
      split_and!; [done..|]. by apply lookup_insert_is_Some'; right.
Qed.

(** ** Books *)

(** A property of sessions that the accepted operations preserve holds of every
    session of the store. *)
Lemma sessions_step (P : string -> SessionUsage -> Prop) (Allowed : store_command -> Prop) :
  (forall sid, P sid session_default) -> (forall sid s, P sid s -> balanced sid s) ->
  (forall q s, Allowed (CReserve q) -> reservable q s -> P (req_session_id q) s ->
     P (req_session_id q) (reserved_session q s)) ->
  (forall res response elapsed s r u, Allowed (CSettle res response elapsed) -> P (res_session_id res) s ->
     reservations s !! reservation_id res = Some r -> reservation r = res -> settled r = false ->
     destinations s !! res_destination_id (reservation r) = Some u ->
     P (res_session_id res) (settled_session r response elapsed u s)) ->
  forall c (st : VolatileEgressStateStore), Allowed c ->
    map_Forall P (budgets st) -> map_Forall P (budgets (store_step c st).2).
Proof.
  intros Hnew Hbal Hres Hset c st Hc Hst. destruct c as [i|id outcome ? ? ? ?|q|res response elapsed|sid]; cbn.
  - unfold volatile_begin. by repeat case_match.
  - unfold volatile_finish. by repeat case_match.
  - assert (Hs : P (req_session_id q) (default session_default (budgets st !! req_session_id q))).
    { destruct (budgets st !! _) as [s|] eqn:Es; [by apply Hst|apply Hnew]. }
    unfold on_budgets. destruct (reserve_cases q (budgets st)) as [E|[Hr E]];
      destruct (reserve q (budgets st)) as [a book']; simplify_eq/=; apply map_Forall_insert_2; auto.
  - unfold on_budgets. destruct (settle_cases res response elapsed (budgets st))
      as [E|(s & r & Es & Er & Eres & Eopen & [[Ed _]|(u & Ed & E)])].
    + by destruct (settle res response elapsed (budgets st)) as [a book']; simplify_eq/=.
    + apply Hst, Hbal in Es. apply (filed _ _ Es) in Er as (_ & _ & Hd).
      rewrite Eres, Ed in Hd. by destruct Hd.
    + rewrite E. apply map_Forall_insert_2; [|done]. eapply Hset; try done; [by apply Hst|by rewrite Eres].
  - by apply map_Forall_delete.
Qed.

Definition sane_command (c : store_command) : Prop :=
  match c with CReserve q => sane (session_limits q) /\ sane (destination_limits q) | _ => True end.

Lemma balanced_step c (st : VolatileEgressStateStore) :
  sane_command c -> map_Forall balanced (budgets st) -> map_Forall balanced (budgets (store_step c st).2).
Proof.
  apply sessions_step; [apply balanced_default|done| |].
  - intros q s [Hl Hd]. by apply reserved_balanced.
  - intros. by eapply settled_balanced.
Qed.

(** The caps the callers of a store use, per session and per destination. *)
Section Caps.
Context (caps : string -> EgressUsageLimits) (destination_caps : string -> string -> EgressUsageLimits).

(** Requests carry the configured caps; a response is cut at what was reserved. *)
Definition obeys (c : store_command) : Prop :=
  match c with
  | CReserve q =>
      session_limits q = caps (req_session_id q)
      /\ destination_limits q = destination_caps (req_session_id q) (req_destination_id q)
      /\ sane (session_limits q) /\ sane (destination_limits q)
  | CSettle res response _ => (response <= res_response_reserved res)%N
  | _ => True
  end.

Definition within_caps (sid : string) (s : SessionUsage) : Prop :=
  balanced sid s /\ held (caps sid) (total s)
  /\ forall d, held (destination_caps sid d) (default usage_default (destinations s !! d)).

Lemma held_default l : held l usage_default.
Proof. unfold held. cbn. lia. Qed.

Lemma reserved_within q s :
  obeys (CReserve q) -> reservable q s -> within_caps (req_session_id q) s ->
  within_caps (req_session_id q) (reserved_session q s).
Proof.
  intros (El & Ed & Hl & Hd) Hr (Hb & Ht & Hh). split_and!; [by apply reserved_balanced| |];
    destruct Hr as (_ & Hv & Hv').
  - rewrite <- El. by eapply reserve_held.
  - intros d. cbn. destruct (decide (d = req_destination_id q)) as [->|Hne].
    + rewrite lookup_insert_eq, <- Ed. by eapply reserve_held.
    + by rewrite lookup_insert_ne.
Qed.

Lemma settled_within res response elapsed s r u :
  obeys (CSettle res response elapsed) -> within_caps (res_session_id res) s ->
  reservations s !! reservation_id res = Some r -> reservation r = res -> settled r = false ->
  destinations s !! res_destination_id (reservation r) = Some u ->
  within_caps (res_session_id res) (settled_session r response elapsed u s).
Proof.
  intros Ho (Hb & Ht & Hh) Hr Hres Hopen Hu. cbn in Ho. rewrite <- Hres in Ho.
  split_and!; [by eapply settled_balanced| |]; destruct Hb as [Bt Bd _].
  - destruct (ledger_settle (fun _ => true) _ _ _ response elapsed _ Hr Hopen (fun _ _ _ => eq_refl) eq_refl Bt)
      as (rest & Hb & _). by eapply settle_held.
  - intros d. cbn. specialize (Bd d). specialize (Hh d).
    destruct (decide (res_destination_id (reservation r) = d)) as [<-|Hne]; [|by rewrite lookup_insert_ne].
    rewrite lookup_insert_eq. rewrite Hu in Bd, Hh. cbn in Bd, Hh |- *.
    edestruct (ledger_settle (to_destination (res_destination_id (reservation r))) _ _ _ response elapsed u
                 Hr Hopen) as (rest & Hb & _); [done|by apply bool_decide_eq_true|exact Bd|by eapply settle_held].
Qed.

Lemma within_step c (st : VolatileEgressStateStore) :
  obeys c -> map_Forall within_caps (budgets st) -> map_Forall within_caps (budgets (store_step c st).2).
Proof.
  apply sessions_step; [|by intros ? ? []|apply reserved_within|apply settled_within].
  intros sid. split_and!; [apply balanced_default|apply held_default|intros d; apply held_default].
Qed.
End Caps.

(** accounts balance.  In every run with caps below [u64::MAX], the counters of
    a session and of each of its destinations are what its reservations add up to:
    requests and request bytes of all, reserved bytes and time of the open ones,
    response bytes (saturating) and time of the settled ones. *)
Lemma egress_accounts_balance cs sid s :
  Forall sane_command cs -> budgets (store_run cs store_default).2 !! sid = Some s ->
  booked (total s) (ledger (fun _ => true) (reservations s))
  /\ forall d, booked (default usage_default (destinations s !! d)) (ledger (to_destination d) (reservations s)).
Proof.
  intros Hall Hs.
  pose proof (store_run_inv (fun st => map_Forall balanced (budgets st)) _ balanced_step cs store_default Hall
                (map_Forall_empty _)) as Hb.
  apply Hb in Hs as [Ht Hd _]. by split.
Qed.

(** budgets hold.  When every reservation of a session carries the configured
    caps and no settlement reports more response bytes than it reserved, no run
    takes a session or a destination above a cap, what is reserved included. *)
Lemma egress_budgets_hold caps destination_caps cs sid s :
  Forall (obeys caps destination_caps) cs -> budgets (store_run cs store_default).2 !! sid = Some s ->
  held (caps sid) (total s)
  /\ forall d, held (destination_caps sid d) (default usage_default (destinations s !! d)).
Proof.
  intros Hall Hs.
  pose proof (store_run_inv (fun st => map_Forall (within_caps caps destination_caps) (budgets st)) _
                (within_step caps destination_caps) cs store_default Hall (map_Forall_empty _)) as Hb.
  by apply Hb in Hs as (_ & Ht & Hd).
Qed.

(** ** Retries *)

Definition has_record (sid i : string) (r : ReservationRecord) (st : VolatileEgressStateStore) : Prop :=
  exists s, budgets st !! sid = Some s /\ reservations s !! i = Some r.

(** A reservation on record stays on record until its session is cleared, and is
    final once settled. *)
Definition succeeds (r r' : ReservationRecord) : Prop :=
  reservation r' = reservation r /\ rec_request_bytes r' = rec_request_bytes r /\ (settled r = true -> r' = r).

Lemma has_record_insert sid i r book st s' sid' :
  has_record sid i r (mkStore st book) ->
  (sid' = sid -> forall s, book !! sid = Some s -> reservations s !! i = Some r ->
     exists r', reservations s' !! i = Some r' /\ succeeds r r') ->
  exists r', has_record sid i r' (mkStore st (<[sid' := s']> book)) /\ succeeds r r'.
Proof.
  intros (s & Hs & Hr) Hk. cbn in Hs. destruct (decide (sid' = sid)) as [->|Hne].
  - destruct (Hk eq_refl s Hs Hr) as (r' & Hr' & Hsucc). exists r'. split; [|done].
    exists s'. split; [apply lookup_insert_eq|done].
  - exists r. split; [|done]. exists s. split; [|done]. cbn. by rewrite lookup_insert_ne.
Qed.

Lemma record_kept c st sid i r :
  c <> CClear sid -> has_record sid i r st ->
  exists r', has_record sid i r' (store_step c st).2 /\ succeeds r r'.
Proof.
  intros Hc Hr. destruct c as [m|id outcome ? ? ? ?|q|res response elapsed|sid']; cbn.
  - exists r. split; [|done]. unfold volatile_begin. by repeat case_match.
  - exists r. split; [|done]. unfold volatile_finish. by repeat case_match.
  - unfold on_budgets. destruct st as [effs book]; cbn in *.
    destruct (reserve_cases q book) as [E|[Hres E]]; destruct (reserve q book) as [a book']; simplify_eq/=;
      (eapply has_record_insert; [done|]); intros <- s Hs Hi; exists r; (split; [|done]); rewrite Hs in *; [done|].
    cbn in Hres |- *. rewrite lookup_insert_ne; [done|]. intros <-. destruct Hres as [Hnone _]. congruence.
  - unfold on_budgets. destruct st as [effs book]; cbn in *.
    destruct (settle_cases res response elapsed book) as [E|(s & r0 & Es & Er & Eres & Eopen & [[_ [t E]]|(u & _ & E)])];
      destruct (settle res response elapsed book) as [a book']; simplify_eq/=; [by exists r|..];
      (eapply has_record_insert; [done|]); intros <- s' Hs Hi; rewrite Es in Hs; simplify_eq/=; [by exists r|].
    destruct (decide (reservation_id (reservation r0) = i)) as [<-|Hne].
    + rewrite lookup_insert_eq. eexists. split; [done|]. rewrite Er in Hi. simplify_eq/=.
      split_and!; [done..|]. intros Hset. congruence.
    + exists r. rewrite lookup_insert_ne by done. by split.
  - destruct Hr as (s & Hs & Hi). exists r. split; [|done]. exists s. split; [|done].
    cbn. unfold budget_clear_session. rewrite lookup_delete_ne; [done|congruence].
Qed.

Lemma record_survives cs st sid i r :
  Forall (fun c => c <> CClear sid) cs -> has_record sid i r st ->
  exists r', has_record sid i r' (store_run cs st).2 /\ succeeds r r'.
Proof.
  revert st r. induction cs as [|c cs IH]; intros st r Hall Hr; [by exists r|].
  apply Forall_cons_1 in Hall as [Hc Hcs]. rewrite store_run_cons. cbn.
  destruct (record_kept c st sid i r Hc Hr) as (r1 & Hr1 & E1 & E2 & E3).
  destruct (IH _ _ Hcs Hr1) as (r2 & Hr2 & F1 & F2 & F3). exists r2. split; [done|].
  split_and!; [congruence..|]. intros Hset. specialize (E3 Hset). subst r1. by apply F3.
Qed.

(** What an accepted call leaves on record. *)
Lemma reserve_leaves q st res st' :
  reserve_budget q st = (Ok res, st') ->
  exists r, has_record (req_session_id q) (req_reservation_id q) r st'
            /\ reservation r = res /\ same_reservation r q = true.
Proof.
  destruct st as [effs book]. cbn. unfold on_budgets, reserve. cbn.
  set (s := default session_default (book !! req_session_id q)).
  destruct (reservations s !! req_reservation_id q) as [r|] eqn:Er.
  - destruct (same_reservation r q) eqn:Esame; intros [= <- <-]. exists r. split_and!; [|done..].
    exists s. split; [apply lookup_insert_eq|done].
  - repeat case_match; intros; simplify_eq/=. eexists. split_and!.
    + eexists. split; [apply lookup_insert_eq|]. apply lookup_insert_eq.
    + done.
    + unfold same_reservation. cbn. by rewrite !String.eqb_refl, !N.eqb_refl.
Qed.

Lemma reserve_again q r (st : VolatileEgressStateStore) :
  has_record (req_session_id q) (req_reservation_id q) r st -> same_reservation r q = true ->
  reserve_budget q st = (Ok (reservation r), st).
Proof.
  destruct st as [effs book]. intros (s & Hs & Hr) Hsame. cbn in *. unfold on_budgets, reserve. cbn.
  rewrite Hs. cbn. rewrite Hr, Hsame. repeat f_equal. by apply insert_id.
Qed.

Lemma settle_leaves res response elapsed (st st' : VolatileEgressStateStore) :
  settle_budget res response elapsed st = (Ok tt, st') ->
  exists r, has_record (res_session_id res) (reservation_id res) r st'
            /\ reservation r = res /\ settled r = true
            /\ rec_response_bytes r = response /\ rec_elapsed_ms r = elapsed.
Proof.
  destruct st as [effs book]. cbn. unfold on_budgets, settle. cbn.
  destruct (book !! res_session_id res) as [s|] eqn:Es; [|done].
  destruct (reservations s !! reservation_id res) as [r|] eqn:Er; [|done].
  case_bool_decide as Hres; [|done]. cbn. destruct (settled r) eqn:Hset.
  - destruct (_ && _) eqn:E; [|done]. apply andb_true_iff in E as [E1%N.eqb_eq E2%N.eqb_eq].
    intros [= <-]. exists r. split_and!; [|done..]. by exists s.
  - destruct (destinations s !! _) as [u|]; [|done]. intros [= <-]. eexists.
    split_and!; [eexists; split; apply lookup_insert_eq|done..].
Qed.

Lemma settle_again res response elapsed r (st : VolatileEgressStateStore) :
  has_record (res_session_id res) (reservation_id res) r st -> reservation r = res -> settled r = true ->
  rec_response_bytes r = response -> rec_elapsed_ms r = elapsed ->
  settle_budget res response elapsed st = (Ok tt, st).
Proof.
  destruct st as [effs book]. intros (s & Hs & Hr) Hres Hset <- <-. cbn in *. unfold on_budgets, settle. cbn.
  rewrite Hs, Hr. rewrite bool_decide_eq_true_2 by done. cbn. by rewrite Hset, !N.eqb_refl.
Qed.

(** retries are free.  After an accepted reservation or settlement, however many
    calls are made in between, repeating it gives the same answer and changes
    nothing, as long as the session is not cleared. *)
Lemma egress_retries_are_free cs sid (st : VolatileEgressStateStore) :
  Forall (fun c => c <> CClear sid) cs ->
  (forall q res st', req_session_id q = sid -> reserve_budget q st = (Ok res, st') ->
     let later := (store_run cs st').2 in reserve_budget q later = (Ok res, later))
  /\ (forall res response elapsed st', res_session_id res = sid ->
        settle_budget res response elapsed st = (Ok tt, st') ->
        let later := (store_run cs st').2 in settle_budget res response elapsed later = (Ok tt, later)).
Proof.
  intros Hall. split.
  - intros q res st' <- (r & Hr & Hres & Hsame)%reserve_leaves.
    destruct (record_survives cs st' _ _ r Hall Hr) as (r' & Hr' & E1 & E2 & _).
    cbv zeta. rewrite <- Hres, <- E1. apply reserve_again; [done|].
    unfold same_reservation in *. by rewrite E1, E2.
  - intros res response elapsed st' <- (r & Hr & Hres & Hset & E3 & E4)%settle_leaves.
    destruct (record_survives cs st' _ _ r Hall Hr) as (r' & Hr' & _ & _ & E). rewrite (E Hset) in Hr'.
    by eapply settle_again.
Qed.

(** ** Mutations *)

(** The effect a call claimed, and the record a call finished an effect with. *)
Definition claimed (x : store_command * store_answer) : option string :=
  match x with
  | (CBegin i, AClaim (Ok c)) => if created c then Some (effect_id i) else None
  | _ => None
  end.

Definition finished (x : store_command * store_answer) : option (string * EgressMutationRecord) :=
  match x with
  | (CFinish id _ _ _ _ _, AFinish (Ok r)) => Some (id, r)
  | _ => None
  end.

(** What one step does to the records of mutations. *)
Lemma effects_step c (st : VolatileEgressStateStore) :
  let '(a, st') := store_step c st in
  (forall id r, effects st !! id = Some r -> status_is_terminal (status r) = true ->
     effects st' !! id = Some r)
  /\ (forall id, is_Some (effects st !! id) -> is_Some (effects st' !! id))
  /\ (forall id, claimed (c, a) = Some id -> effects st !! id = None /\ is_Some (effects st' !! id))
  /\ (forall id r, finished (c, a) = Some (id, r) ->
        effects st' !! id = Some r /\ status_is_terminal (status r) = true).
Proof.
  destruct c as [m|e outcome ? ? ? ?|q|res response elapsed|sid]; cbn.
  3-5: unfold on_budgets; repeat (case_match; simplify_eq/=); by split_and!.
  - unfold volatile_begin. destruct (effects st !! effect_id m) as [r|] eqn:Er.
    { by destruct (negb _). }
    cbn. split_and!; [..|done].
    + intros id r Hr _. rewrite lookup_insert_ne; [done|congruence].
    + intros id Hid. by apply lookup_insert_is_Some'; right.
    + intros id [= <-]. split; [done|]. by rewrite lookup_insert_eq.
  - unfold volatile_finish. destruct (status_is_terminal outcome) eqn:Eo; [|done]. cbn.
    destruct (effects st !! e) as [r|] eqn:Er; [|done]. destruct (status_is_terminal (status r)) eqn:Es.
    { case_bool_decide; [|done]. split_and!; [done..|]. intros ? ? [= <- <-]. done. }
    cbn. split_and!; [..|done|].
    + intros id r' Hr' Ht. rewrite lookup_insert_ne; [done|congruence].
    + intros id Hid. by apply lookup_insert_is_Some'; right.
    + intros id r' [= <- <-]. by rewrite lookup_insert_eq.
Qed.

(** In a run from any store: nothing present is claimed, nothing is claimed twice,
    and a final record is the answer of every finish. *)
Lemma effects_run cs (st : VolatileEgressStateStore) :
  let trace := (store_run cs st).1 in
  (forall id, is_Some (effects st !! id) -> id ∉ omap claimed trace)
  /\ NoDup (omap claimed trace)
  /\ (forall id r, effects st !! id = Some r -> status_is_terminal (status r) = true ->
        forall r', (id, r') ∈ omap finished trace -> r' = r)
  /\ (forall id r r', (id, r) ∈ omap finished trace -> (id, r') ∈ omap finished trace -> r = r').
Proof.
  cbv zeta. revert st. induction cs as [|c cs IH]; intros st.
  { cbn. split_and!; intros; try set_solver. constructor. }
  rewrite store_run_cons. pose proof (effects_step c st) as Hstep.
  destruct (store_step c st) as [a st']. destruct Hstep as (Hkeep & Hdom & Hclaim & Hfin).
  destruct (IH st') as (I1 & I2 & I3 & I4). cbn -[claimed finished].
  set (rest := (store_run cs st').1) in *. split_and!.
  - intros id Hid. destruct (claimed (c, a)) as [id'|] eqn:E; [|by apply I1, Hdom].
    destruct (Hclaim id' eq_refl) as [Hnone _]. apply not_elem_of_cons.
    split; [intros ->; rewrite Hnone in Hid; by destruct Hid|by apply I1, Hdom].
  - destruct (claimed (c, a)) as [id'|] eqn:E; [|done]. constructor; [|done].
    by apply I1, (Hclaim id' eq_refl).
  - intros id r Hr Ht r'. pose proof (Hkeep id r Hr Ht) as Hr2.
    destruct (finished (c, a)) as [[id' r2]|] eqn:E; [|by apply I3].
    intros [[= -> ->]|Hin]%elem_of_cons; [|by eapply I3].
    destruct (Hfin id' r2 eq_refl) as [Hf _]. congruence.
  - intros id r r'. destruct (finished (c, a)) as [[id' r2]|] eqn:E; [|by apply I4].
    destruct (Hfin id' r2 eq_refl) as [Hf Ht].
    intros [E1|H1]%elem_of_cons [E2|H2]%elem_of_cons; simplify_eq; [done|..|by eapply I4].
    + symmetry. by eapply I3.
    + by eapply I3.
Qed.

(** a mutation happens once.  In any run of a new store each effect id is
    claimed as new at most once, so at most one caller sends the request, and all
    calls that finish an effect answer with the same record. *)
Lemma egress_mutation_once cs :
  let trace := (store_run cs store_default).1 in
  NoDup (omap claimed trace)
  /\ (forall id r r', (id, r) ∈ omap finished trace -> (id, r') ∈ omap finished trace -> r = r').
Proof. pose proof (effects_run cs store_default) as (_ & Hc & _ & Hf). by split. Qed.

(** ** A sample run: a reservation, its settlement and a mutation *)

Definition sample_limits : EgressUsageLimits := mkUsageLimits 4 100 1000 5000.

Definition sample_request : EgressBudgetRequest :=
  mkBudgetRequest "r1" "session" "docs" 10 500 1000 sample_limits sample_limits.

Definition sample_reservation : EgressBudgetReservation := mkReservation "r1" "session" "docs" 500 1000.

Definition sample_commands : list store_command :=
  [CReserve sample_request; CSettle sample_reservation 400 50].

Definition sample_intent : EgressMutationIntent :=
  mkIntent "e1" "session" "scope" "" "" "docs" 1 "" "" 10.

Definition sample_mutations : list store_command :=
  [CBegin sample_intent; CBegin sample_intent; CFinish "e1" Succeeded (Some "ok"%string) None None None;
   CFinish "e1" Succeeded (Some "ok"%string) None None None].

Lemma egress_accounts_balance_witness :
  exists s, budgets (store_run sample_commands store_default).2 !! "session"%string = Some s
            /\ booked (total s) (ledger (fun _ => true) (reservations s)).
Proof.
  destruct (budgets (store_run sample_commands store_default).2 !! "session"%string) as [s|] eqn:E.
  - exists s. split; [reflexivity|]. apply (egress_accounts_balance sample_commands "session" s); [|exact E].
    repeat constructor.
  - exfalso. vm_compute in E. discriminate E.
Defined.

Lemma egress_budgets_hold_witness :
  exists s, budgets (store_run sample_commands store_default).2 !! "session"%string = Some s
            /\ held sample_limits (total s).
Proof.
  destruct (budgets (store_run sample_commands store_default).2 !! "session"%string) as [s|] eqn:E.
  - exists s. split; [reflexivity|].
    apply (egress_budgets_hold (fun _ => sample_limits) (fun _ _ => sample_limits) sample_commands "session" s);
      [|exact E]. repeat constructor. vm_compute. discriminate.
  - exfalso. vm_compute in E. discriminate E.
Defined.

Lemma egress_retries_are_free_witness :
  let st' := (reserve_budget sample_request store_default).2 in
  let later := (store_run [CSettle sample_reservation 400 50] st').2 in
  reserve_budget sample_request later = (Ok sample_reservation, later).
Proof.
  cbv zeta. apply (egress_retries_are_free [CSettle sample_reservation 400 50] "session" store_default).
  - repeat constructor. discriminate.
  - reflexivity.
  - vm_compute. reflexivity.
Defined.

Lemma egress_mutation_once_witness :
  omap claimed (store_run sample_mutations store_default).1 = ["e1"%string]
  /\ forall r r', (("e1"%string, r) ∈ omap finished (store_run sample_mutations store_default).1) ->
       (("e1"%string, r') ∈ omap finished (store_run sample_mutations store_default).1) -> r = r'.
Proof.
  split; [vm_compute; reflexivity|]. intros r r' H1 H2.
  exact (proj2 (egress_mutation_once sample_mutations) "e1"%string r r' H1 H2).
Defined.
