(* ===== verification/Supervise.v ===== *)
(** * Supervision of actors ([tm-agents/src/supervise.rs])

    A supervisor keeps its children in spawn order and the restart attempts of
    each, and answers the failure of a child with a decision.  [max_restarts] and
    the attempts are [u32]; an attempt is only counted below [max_restarts], so
    [*attempts += 1] cannot overflow.  An [ActorId] is its string. *)

From stdpp Require Import base tactics gmap strings list.
From Stdlib Require Import NArith Lia.
From S2P Require Import Prelude.

Abbreviation ActorId := string.

Inductive RestartStrategy := OneForOne | OneForAll | RestForOne.

Inductive FailureReason :=
| Crash (message : string)
| TimedOut
| ApprovalDenied
| QuotaExhausted
| ReasonCancelled
| DepthExceeded.

Definition is_restartable (reason : FailureReason) : bool :=
  match reason with Crash _ | TimedOut => true | _ => false end.

Record SupervisionPolicy := mkPolicy { strategy : RestartStrategy; max_restarts : N }.

Definition policy_default : SupervisionPolicy := mkPolicy OneForOne 3.

Inductive SupervisionAction :=
| Cancel (actor : ActorId)
| RestartActor (actor : ActorId)
| Escalate (actor : ActorId) (reason : FailureReason).

Record SupervisionDecision := mkDecision {
  failed_actor_id : ActorId;
  decision_reason : FailureReason;
  decision_strategy : RestartStrategy;
  restart_attempt : option N;
  actions : list SupervisionAction;
}.

Record Supervisor := mkSupervisor {
  policy : SupervisionPolicy;
  children : list ActorId;
  attempts : gmap ActorId N;
}.

Definition supervisor_new (p : SupervisionPolicy) : Supervisor := mkSupervisor p [] ∅.

Definition track (id : ActorId) (s : Supervisor) : Supervisor :=
  if bool_decide (id ∈ children s) then s
  else mkSupervisor (policy s) (children s ++ [id]) (attempts s).

Definition restart_attempts (id : ActorId) (s : Supervisor) : N := default 0%N (attempts s !! id).

Definition record_success (id : ActorId) (s : Supervisor) : Supervisor :=
  mkSupervisor (policy s) (children s) (delete id (attempts s)).

(** [iter().position(|id| id == failed_actor_id)] *)
Fixpoint position (id : ActorId) (ids : list ActorId) : option nat :=
  match ids with
  | [] => None
  | x :: ids => if String.eqb x id then Some 0 else S <$> position id ids
  end.

Definition cancel_targets (failed_index : nat) (s : Supervisor) : list ActorId :=
  match strategy (policy s) with
  | OneForOne => []
  | OneForAll =>
      (List.filter (fun p => negb (fst p =? failed_index)%nat)
         (combine (seq 0 (length (children s))) (children s))).*2
  | RestForOne => drop (failed_index + 1) (children s)
  end.

(** [OneForOne] indexes the children; an index out of range would panic. *)
Definition restart_targets (failed_index : nat) (s : Supervisor) : option (list ActorId) :=
  match strategy (policy s) with
  | OneForOne => id ← children s !! failed_index; Some [id]
  | OneForAll => Some (children s)
  | RestForOne => Some (drop failed_index (children s))
  end.

(** The decision and the supervisor after the call; [None] is a panic. *)
Definition record_failure (failed : ActorId) (reason : FailureReason) (s : Supervisor)
    : option (SupervisionDecision * Supervisor) :=
  let decide_ := mkDecision failed reason (strategy (policy s)) in
  let escalate := Escalate failed reason in
  match position failed (children s) with
  | None => Some (decide_ None [escalate], s)
  | Some failed_index =>
      match reason with
      | ReasonCancelled => Some (decide_ None [], s)
      | _ =>
          if negb (is_restartable reason) then Some (decide_ None [escalate], s)
          else
            let cancels := Cancel <$> cancel_targets failed_index s in
            if (max_restarts (policy s) <=? restart_attempts failed s)%N
            then Some (decide_ None (cancels ++ [escalate]), s)
            else
              let n := (restart_attempts failed s + 1)%N in
              let s' := mkSupervisor (policy s) (children s) (<[failed := n]> (attempts s)) in
              targets ← restart_targets failed_index s';
              Some (decide_ (Some n) (cancels ++ (RestartActor <$> targets)), s')
      end
  end.

(** ** What a decision is

    In terms of the children spawned before and after the failed one. *)

(** The siblings a restart takes down first, and all it restarts. *)
Definition siblings (st : RestartStrategy) (older younger : list ActorId) : list ActorId :=
  match st with OneForOne => [] | OneForAll => older ++ younger | RestForOne => younger end.

Definition group (st : RestartStrategy) (older : list ActorId) (failed : ActorId) (younger : list ActorId)
    : list ActorId :=
  match st with
  | OneForOne => [failed]
  | OneForAll => older ++ failed :: younger
  | RestForOne => failed :: younger
  end.

Lemma position_split older failed younger :
  failed ∉ older -> position failed (older ++ failed :: younger) = Some (length older).
Proof.
  induction older as [|x older IH]; intros Hn; cbn; [by rewrite String.eqb_refl|].
  apply not_elem_of_cons in Hn as [Hne Hn]. rewrite (proj2 (String.eqb_neq x failed)) by congruence.
  by rewrite IH.
Qed.

Lemma position_None failed ids : position failed ids = None <-> failed ∉ ids.
Proof.
  induction ids as [|x ids IH]; cbn; [split; [intros _; apply not_elem_of_nil|done]|].
  rewrite not_elem_of_cons. destruct (String.eqb_spec x failed) as [->|Hne]; [naive_solver|].
  destruct (position failed ids); naive_solver.
Qed.

(** Dropping one index of an enumeration drops that element. *)
Lemma filter_later k n (l : list ActorId) :
  k < n -> (List.filter (fun p => negb (fst p =? k)%nat) (combine (seq n (length l)) l)).*2 = l.
Proof.
  revert n. induction l as [|y l IH]; intros n Hn; [done|]. cbn.
  rewrite (proj2 (Nat.eqb_neq n k)) by lia. cbn. f_equal. apply IH. lia.
Qed.

Lemma filter_enumerate (older younger : list ActorId) failed k start :
  k = start + length older ->
  (List.filter (fun p => negb (fst p =? k)%nat)
     (combine (seq start (length (older ++ failed :: younger))) (older ++ failed :: younger))).*2
  = older ++ younger.
Proof.
  revert start. induction older as [|x older IH]; intros start Hk; cbn in Hk |- *.
  - rewrite (proj2 (Nat.eqb_eq start k)) by lia. cbn. apply filter_later. lia.
  - rewrite (proj2 (Nat.eqb_neq start k)) by lia. cbn. f_equal. apply IH. lia.
Qed.

Lemma cancel_targets_split older failed younger s :
  children s = older ++ failed :: younger ->
  cancel_targets (length older) s = siblings (strategy (policy s)) older younger.
Proof.
  intros E. unfold cancel_targets, siblings. rewrite E. destruct (strategy (policy s)); [done| |].
  - by apply filter_enumerate.
  - rewrite drop_app_ge by lia. by replace (length older + 1 - length older) with 1 by lia.
Qed.

Lemma restart_targets_split older failed younger s :
  children s = older ++ failed :: younger ->
  restart_targets (length older) s = Some (group (strategy (policy s)) older failed younger).
Proof.
  intros E. unfold restart_targets, group. rewrite E. destruct (strategy (policy s)); [|done|].
  - by rewrite list_lookup_middle.
  - by rewrite drop_app_length.
Qed.

Definition decision_spec (older : list ActorId) (failed : ActorId) (younger : list ActorId)
    (reason : FailureReason) (s : Supervisor) : SupervisionDecision * Supervisor :=
  let st := strategy (policy s) in
  let decide_ := mkDecision failed reason st in
  let n := restart_attempts failed s in
  let cancels := Cancel <$> siblings st older younger in
  match reason with
  | ReasonCancelled => (decide_ None [], s)
  | Crash _ | TimedOut =>
      if (n <? max_restarts (policy s))%N then
        (decide_ (Some (n + 1)%N) (cancels ++ (RestartActor <$> group st older failed younger)),
         mkSupervisor (policy s) (children s) (<[failed := (n + 1)%N]> (attempts s)))
      else (decide_ None (cancels ++ [Escalate failed reason]), s)
  | _ => (decide_ None [Escalate failed reason], s)
  end.

Lemma record_failure_spec older failed younger reason s :
  children s = older ++ failed :: younger -> failed ∉ older ->
  record_failure failed reason s = Some (decision_spec older failed younger reason s).
Proof.
  intros E Hn. unfold record_failure, decision_spec. rewrite E at 1. rewrite position_split by done.
  rewrite (cancel_targets_split _ _ _ _ E), N.ltb_antisym.
  destruct reason; cbn; try done; destruct (max_restarts (policy s) <=? restart_attempts failed s)%N; cbn; try done;
    by rewrite (restart_targets_split older failed younger).
Qed.

Lemma record_failure_unknown failed reason s :
  failed ∉ children s ->
  record_failure failed reason s =
    Some (mkDecision failed reason (strategy (policy s)) None [Escalate failed reason], s).
Proof. intros Hn%position_None. unfold record_failure. by rewrite Hn. Qed.

(** ** Runs *)

Inductive supervisor_event :=
| Tracked (id : ActorId)
| Succeeded_ (id : ActorId)
| FailedWith (id : ActorId) (reason : FailureReason).

Fixpoint supervise (evs : list supervisor_event) (s : Supervisor)
    : option (list SupervisionDecision * Supervisor) :=
  match evs with
  | [] => Some ([], s)
  | Tracked id :: evs => supervise evs (track id s)
  | Succeeded_ id :: evs => supervise evs (record_success id s)
  | FailedWith id reason :: evs =>
      '(d, s) ← record_failure id reason s;
      '(ds, s) ← supervise evs s;
      Some (d :: ds, s)
  end.

Definition restarts (a : ActorId) (d : SupervisionDecision) : bool :=
  bool_decide (failed_actor_id d = a) && bool_decide (is_Some (restart_attempt d)).

(** One failure: it is decided, children and policy stay, and a restart of [a]
    uses up one of the attempts [a] has left. *)
Lemma record_failure_step a failed reason s :
  exists d s', record_failure failed reason s = Some (d, s')
    /\ policy s' = policy s /\ children s' = children s
    /\ (if restarts a d then restart_attempts a s' = restart_attempts a s + 1
          /\ restart_attempts a s < max_restarts (policy s)
        else restart_attempts a s' = restart_attempts a s)%N.
Proof.
  destruct (decide (failed ∈ children s)) as [Hin|Hout].
  2: { rewrite record_failure_unknown by done. do 2 eexists. split; [done|]. split_and!; [done..|].
       unfold restarts. cbn. by rewrite andb_false_r. }
  apply list_elem_of_split_l in Hin as (older & younger & E & Hn).
  rewrite (record_failure_spec older failed younger) by done. unfold decision_spec.
  destruct reason; try (do 2 eexists; split; [done|]; split_and!; [done..|];
    unfold restarts; cbn; by rewrite andb_false_r).
  all: destruct (N.ltb_spec (restart_attempts failed s) (max_restarts (policy s))) as [Hlt|Hge];
    do 2 (eexists); (split; [done|]); split_and!; try done; unfold restarts; cbn; rewrite ?andb_false_r; try done.
  all: rewrite ?andb_true_r; case_bool_decide as Ha;
    unfold restart_attempts in *; cbn; [subst; by rewrite lookup_insert_eq|by rewrite lookup_insert_ne].
Qed.

Lemma supervise_bounded a evs s :
  (forall id, Succeeded_ id ∈ evs -> id <> a) ->
  exists ds s', supervise evs s = Some (ds, s') /\ policy s' = policy s
    /\ (len (List.filter (restarts a) ds) + restart_attempts a s <= N.max (restart_attempts a s) (max_restarts (policy s)))%N.
Proof.
  revert s. induction evs as [|ev evs IH]; intros s Hev.
  { exists [], s. split_and!; [done..|]. unfold len. cbn. lia. }
  assert (Hev' : forall id, Succeeded_ id ∈ evs -> id <> a).
  { intros id Hid. apply Hev. by apply elem_of_cons; right. }
  destruct ev as [id|id|id reason]; cbn.
  - destruct (IH (track id s) Hev') as (ds & s' & -> & Hp & Hc). exists ds, s'.
    unfold track in *. by case_bool_decide.
  - destruct (IH (record_success id s) Hev') as (ds & s' & -> & Hp & Hc). exists ds, s'.
    split_and!; [done..|]. unfold restart_attempts, record_success in *. cbn in Hc.
    rewrite lookup_delete_ne in Hc; [done|]. apply Hev. by apply elem_of_cons; left.
  - destruct (record_failure_step a id reason s) as (d & s1 & -> & Hp1 & _ & Hd). cbn.
    destruct (IH s1 Hev') as (ds & s' & -> & Hp & Hc). cbn. exists (d :: ds), s'.
    rewrite Hp1 in *. split_and!; [done..|]. cbn. unfold len in *.
    destruct (restarts a d); cbn [length]; [|by rewrite Hd in Hc]. destruct Hd as [Hd1 Hd2]. lia.
Qed.

Lemma supervise_total evs s :
  exists ds s', supervise evs s = Some (ds, s') /\ policy s' = policy s.
Proof.
  revert s. induction evs as [|[id|id|id reason] evs IH]; intros s; cbn; [by exists [], s|..].
  - destruct (IH (track id s)) as (ds & s' & -> & Hp). exists ds, s'. unfold track in Hp.
    by case_bool_decide.
  - destruct (IH (record_success id s)) as (ds & s' & -> & Hp). by exists ds, s'.
  - destruct (record_failure_step id id reason s) as (d & s1 & -> & Hp1 & _). cbn.
    destruct (IH s1) as (ds & s' & -> & Hp). exists (d :: ds), s'. cbn. split; [done|congruence].
Qed.

Lemma supervise_children evs s ds s' :
  NoDup (children s) -> supervise evs s = Some (ds, s') -> NoDup (children s').
Proof.
  revert s ds. induction evs as [|[id|id|id reason] evs IH]; intros s ds Hn; cbn.
  - by intros [= _ <-].
  - apply IH. unfold track. case_bool_decide as Hin; [done|]. cbn. apply NoDup_app.
    split_and!; [done| |apply NoDup_singleton]. intros x Hx ->%list_elem_of_singleton. done.
  - by apply IH.
  - destruct (record_failure_step id id reason s) as (d & s1 & -> & _ & Hc & _). cbn.
    destruct (supervise evs s1) as [[ds1 s2]|] eqn:E; [|done]. cbn. intros [= _ <-].
    eapply IH; [|exact E]. by rewrite Hc.
Qed.

(** restarts are bounded.  Supervision of any sequence of events goes on without a
    panic; and whatever went before, as long as the child [a] does not succeed, at
    most [max_restarts] failures of [a] are answered by a restart. *)
Lemma restarts_bounded a p before later :
  (forall id, Succeeded_ id ∈ later -> id <> a) ->
  exists history s decisions s',
    supervise before (supervisor_new p) = Some (history, s) /\ supervise later s = Some (decisions, s')
    /\ (len (List.filter (restarts a) decisions) <= max_restarts p)%N.
Proof.
  intros Hlater. destruct (supervise_total before (supervisor_new p)) as (history & s & Hs & Hp).
  destruct (supervise_bounded a later s Hlater) as (decisions & s' & Hd & _ & Hc).
  exists history, s, decisions, s'. split_and!; [done..|]. rewrite Hp in Hc. cbn in Hc. lia.
Qed.

Lemma restarts_bounded_witness :
  exists history s decisions s',
    supervise [Tracked "A"; Tracked "B"] (supervisor_new (mkPolicy OneForAll 1)) = Some (history, s)
    /\ supervise [FailedWith "A" TimedOut; FailedWith "A" TimedOut; Succeeded_ "B"] s = Some (decisions, s')
    /\ (len (List.filter (restarts "A") decisions) <= 1)%N.
Proof.
  apply (restarts_bounded "A" (mkPolicy OneForAll 1) [Tracked "A"; Tracked "B"]
           [FailedWith "A" TimedOut; FailedWith "A" TimedOut; Succeeded_ "B"]).
  intros id Hid. repeat (apply elem_of_cons in Hid as [Hid|Hid]; [try discriminate Hid; congruence|]).
  by apply not_elem_of_nil in Hid.
Defined.

(** what a supervisor decides.  A restartable failure of a child below its
    restart limit cancels the siblings the strategy names, then restarts the
    group in spawn order and counts one attempt; at the limit the siblings are
    cancelled and the failure escalates; other failures escalate, and a
    cancellation asks for nothing. *)
Lemma supervision_decides before p s history older failed younger reason :
  supervise before (supervisor_new p) = Some (history, s) -> children s = older ++ failed :: younger ->
  record_failure failed reason s = Some (decision_spec older failed younger reason s).
Proof.
  intros Hrun E. apply record_failure_spec; [done|].
  assert (Hnd : NoDup (children s)) by (eapply supervise_children; [|exact Hrun]; constructor).
  rewrite E in Hnd. apply NoDup_app in Hnd as (_ & Hd & _). intros Hin. apply (Hd _ Hin). by left.
Qed.

Lemma supervision_decides_witness :
  exists history s,
    supervise [Tracked "A"; Tracked "B"; Tracked "C"] (supervisor_new (mkPolicy RestForOne 1)) = Some (history, s)
    /\ record_failure "B" TimedOut s = Some (decision_spec ["A"%string] "B" ["C"%string] TimedOut s).
Proof.
  eexists _, _. split; [vm_compute; reflexivity|].
  apply (supervision_decides [Tracked "A"; Tracked "B"; Tracked "C"] (mkPolicy RestForOne 1) _ []);
    vm_compute; reflexivity.
Defined.
