(* ===== verification/Inbox.v ===== *)
(** * Inboxes of actors ([tm-agents/src/mailbox/inbox.rs], [mailbox/types.rs], and
    the delivery of [mailbox/messages.rs])

    A bounded channel, the backlog of messages a selective receive set aside, and
    two atomic counters.  The functions below run one call by itself; [inbox_step]
    interleaves concurrent calls at the granularity of the atomic operations.
    Instants are [Z]. *)

From stdpp Require Import base tactics strings list.
From Stdlib Require Import ZArith NArith Lia.
From S2P Require Import Prelude Text.

Definition MAX_INBOX_MESSAGES : nat := 64.
Definition MAX_INBOX_BYTES : N := 64 * 1024.
Definition MAX_ACTOR_MESSAGE_BYTES : N := 4 * 1024.

Record ActorMessage := mkMessage {
  from : string;
  to : string;
  text : string;
  reply_to : option string;
  sent_at : Z;
}.

Definition validate_message (m : ActorMessage) : bool := (str_len (text m) <=? MAX_ACTOR_MESSAGE_BYTES)%N.

Definition message_bytes (m : ActorMessage) : N :=
  saturating_add
    (saturating_add (saturating_add (str_len (text m)) (str_len (from m))) (str_len (to m)))
    (match reply_to m with Some actor => str_len actor | None => 0%N end).

Inductive Receipt := Delivered | Unreachable | Backpressured.

Record ActorInbox := mkInbox {
  channel : list ActorMessage;
  backlog : list ActorMessage;
  unread : N;
  retained_bytes : N;
  last_activity : option Z;
}.

Definition inbox_new : ActorInbox := mkInbox [] [] 0 0 None.

Definition touch (at_ : Z) (b : ActorInbox) : ActorInbox :=
  mkInbox (channel b) (backlog b) (unread b) (retained_bytes b) (Some at_).

Definition set_queues (c q : list ActorMessage) (b : ActorInbox) : ActorInbox :=
  mkInbox c q (unread b) (retained_bytes b) (last_activity b).

(** [fetch_add] wraps. *)
Definition mark_delivered_to_inbox (b : ActorInbox) : ActorInbox :=
  mkInbox (channel b) (backlog b) ((unread b + 1) mod 2 ^ 64) (retained_bytes b) (last_activity b).

Definition set_retained (n : N) (b : ActorInbox) : ActorInbox :=
  mkInbox (channel b) (backlog b) (unread b) n (last_activity b).

Definition try_reserve (bytes : N) (b : ActorInbox) : bool * ActorInbox :=
  match checked_add_u64 (retained_bytes b) bytes with
  | Some next => if (next <=? MAX_INBOX_BYTES)%N then (true, set_retained next b) else (false, b)
  | None => (false, b)
  end.

Definition release (bytes : N) (b : ActorInbox) : ActorInbox :=
  set_retained (saturating_sub (retained_bytes b) bytes) b.

Definition mark_taken_by_actor (b : ActorInbox) : ActorInbox :=
  mkInbox (channel b) (backlog b) (saturating_sub (unread b) 1) (retained_bytes b) (last_activity b).

Definition mark_message_taken (m : ActorMessage) (b : ActorInbox) : ActorInbox :=
  release (message_bytes m) (mark_taken_by_actor b).

Definition message_matches_from (sender : option string) (m : ActorMessage) : bool :=
  match sender with Some s => String.eqb (from m) s | None => true end.

(** [mpsc::Sender::try_send]: the receiver lives as long as the inbox, so the
    channel is never closed. *)
Definition try_send (m : ActorMessage) (b : ActorInbox) : option ActorInbox :=
  if (length (channel b) <? MAX_INBOX_MESSAGES)%nat
  then Some (set_queues (channel b ++ [m]) (backlog b) b) else None.

(** The log of messages: the session, the message and its size, oldest first. *)
Definition MAX_MESSAGES : N := 1000.
Definition MAX_MESSAGE_LOG_BYTES : N := 512 * 1024.

Record LoggedMessage := mkLogged {
  logged_session_id : string;
  logged_message : ActorMessage;
  logged_bytes : N;
}.

Record MessageLog := mkLog { entries : list LoggedMessage; log_bytes : N }.

(** The [while] loop of [record_message_for_session]: the oldest entries go. *)
Fixpoint evict (bytes : N) (es : list LoggedMessage) (total : N) : MessageLog :=
  match es with
  | [] => mkLog [] total
  | oldest :: rest =>
      if (MAX_MESSAGES <=? len es)%N || (MAX_MESSAGE_LOG_BYTES <? saturating_add total bytes)%N
      then evict bytes rest (saturating_sub total (logged_bytes oldest))
      else mkLog es total
  end.

Definition record_message (session_id : string) (m : ActorMessage) (log : MessageLog)
    : outcome string unit * MessageLog :=
  if negb (validate_message m) then (Err "{field} must be at most {max_bytes} UTF-8 bytes, got {}"%string, log)
  else
    let bytes := saturating_add (message_bytes m) (str_len session_id) in
    let log := evict bytes (entries log) (log_bytes log) in
    if (MAX_MESSAGE_LOG_BYTES <? bytes)%N then (Err "message exceeds aggregate log budget"%string, log)
    else (Ok tt, mkLog (entries log ++ [mkLogged session_id m bytes]) (saturating_add (log_bytes log) bytes)).

(** The part of [send_message_for_session] that concerns the inbox. *)
Definition deliver (m : ActorMessage) (b : ActorInbox) : Receipt * ActorInbox :=
  match try_reserve (message_bytes m) b with
  | (false, b) => (Backpressured, b)
  | (true, b) =>
      match try_send m b with
      | Some b => (Delivered, touch (sent_at m) (mark_delivered_to_inbox b))
      | None => (Backpressured, release (message_bytes m) b)
      end
  end.

(** [send_message_for_session] on the inbox of the recipient, which is reachable
    when it is [Root] or a live actor; a message the log refuses is delivered all
    the same. *)
Definition send_message (session_id : string) (reachable : bool) (m : ActorMessage)
    (b : ActorInbox) (log : MessageLog) : outcome string Receipt * ActorInbox * MessageLog :=
  if negb (validate_message m) then (Err "{field} must be at most {max_bytes} UTF-8 bytes, got {}"%string, b, log)
  else if negb reachable then (Ok Unreachable, b, log)
  else
    match deliver m b with
    | (Delivered, b) => (Ok Delivered, b, (record_message session_id m log).2)
    | (receipt, b) => (Ok receipt, b, log)
    end.

(** The first loop of [drain]; [retained] is the rebuilt backlog. *)
Fixpoint drain_backlog (sender : option string) (pending retained drained : list ActorMessage) (b : ActorInbox)
    : list ActorMessage * ActorInbox :=
  match pending with
  | [] => (drained, set_queues (channel b) retained b)
  | m :: pending =>
      if message_matches_from sender m
      then drain_backlog sender pending retained (drained ++ [m]) (mark_message_taken m b)
      else drain_backlog sender pending (retained ++ [m]) drained b
  end.

(** The [try_recv] loop of [drain]. *)
Fixpoint drain_channel (sender : option string) (pending drained : list ActorMessage) (b : ActorInbox)
    : list ActorMessage * ActorInbox :=
  match pending with
  | [] => (drained, b)
  | m :: pending =>
      let b := set_queues pending (backlog b) b in
      if message_matches_from sender m
      then drain_channel sender pending (drained ++ [m]) (mark_message_taken m b)
      else drain_channel sender pending drained (set_queues (channel b) (backlog b ++ [m]) b)
  end.

Definition drain (sender : option string) (b : ActorInbox) : list ActorMessage * ActorInbox :=
  let '(drained, b) := drain_backlog sender (backlog b) [] [] b in
  drain_channel sender (channel b) drained b.

(** [position] and [remove]. *)
Fixpoint take_first (sender : option string) (ms : list ActorMessage)
    : option (ActorMessage * list ActorMessage) :=
  match ms with
  | [] => None
  | m :: ms =>
      if message_matches_from sender m then Some (m, ms)
      else '(found, ms) ← take_first sender ms; Some (found, m :: ms)
  end.

Definition take_matching_backlog (sender : option string) (b : ActorInbox)
    : option ActorMessage * ActorInbox :=
  match take_first sender (backlog b) with
  | None => (None, b)
  | Some (m, rest) => (Some m, mark_message_taken m (set_queues (channel b) rest b))
  end.

(** The loop of [wait]: [ticks] is the number of iterations before the deadline;
    on an empty channel [recv] times out. *)
Fixpoint wait_loop (ticks : nat) (sender : option string) (b : ActorInbox) : option ActorMessage * ActorInbox :=
  match ticks, channel b with
  | O, _ | _, [] => (None, b)
  | S ticks, m :: rest =>
      let b := set_queues rest (backlog b) b in
      if message_matches_from sender m then (Some m, mark_message_taken m b)
      else wait_loop ticks sender (set_queues (channel b) (backlog b ++ [m]) b)
  end.

Definition wait (ticks : nat) (sender : option string) (b : ActorInbox) : option ActorMessage * ActorInbox :=
  match take_matching_backlog sender b with
  | (Some m, b) => (Some m, b)
  | (None, b) => wait_loop ticks sender b
  end.

(** ** The log *)

Fixpoint N_sum (ns : list N) : N := match ns with [] => 0 | n :: ns => n + N_sum ns end.

Lemma N_sum_app l k : N_sum (l ++ k) = (N_sum l + N_sum k)%N.
Proof. induction l as [|n l IH]; cbn; [done|]. rewrite IH. lia. Qed.

Definition log_total (es : list LoggedMessage) : N := N_sum (logged_bytes <$> es).

Definition log_exact (log : MessageLog) : Prop :=
  log_bytes log = log_total (entries log) /\ (log_bytes log <= MAX_MESSAGE_LOG_BYTES)%N
  /\ (len (entries log) <= MAX_MESSAGES)%N.

(** Eviction drops the oldest entries, as few as needed, and makes room. *)
Lemma evict_spec bytes es total :
  total = log_total es -> (bytes <= MAX_MESSAGE_LOG_BYTES)%N -> (total <= MAX_MESSAGE_LOG_BYTES)%N ->
  let log := evict bytes es total in
  (exists old, es = old ++ entries log) /\ log_bytes log = log_total (entries log)
  /\ (log_bytes log + bytes <= MAX_MESSAGE_LOG_BYTES)%N /\ (len (entries log) < MAX_MESSAGES)%N.
Proof.
  revert total. induction es as [|e es IH]; intros total Ht Hb Hmax; cbn.
  { split_and!; [by exists []|done| |done]. subst. cbn. lia. }
  destruct ((MAX_MESSAGES <=? _)%N || _) eqn:E.
  - specialize (IH (saturating_sub total (logged_bytes e))). cbv zeta in IH.
    destruct IH as ((old & Hold) & Hrest); [subst; unfold saturating_sub, log_total; cbn; lia|done|
      unfold saturating_sub; lia|].
    split; [|done]. exists (e :: old). cbn. by rewrite <- Hold.
  - apply orb_false_iff in E as [E1%N.leb_gt E2%N.ltb_ge]. unfold saturating_add in E2.
    assert (MAX_MESSAGE_LOG_BYTES < usize_max)%N by done.
    split_and!; [by exists []|done|cbn; lia|done].
Qed.

(** Recording keeps the log within its bounds, whatever the answer. *)
Lemma record_message_bounded session_id m log :
  log_exact log -> log_exact (record_message session_id m log).2.
Proof.
  intros (Ht & Hb & Hn). unfold record_message. destruct (negb (validate_message m)); [done|]. cbv zeta.
  set (bytes := saturating_add (message_bytes m) (str_len session_id)).
  destruct (N.ltb_spec MAX_MESSAGE_LOG_BYTES bytes) as [Hbig|Hfit]; cbn.
  - clearbody bytes. revert Ht Hb. generalize (log_bytes log) as total. revert Hn.
    induction (entries log) as [|e es IH]; intros Hn total Ht Hb; cbn; [by subst|].
    replace (MAX_MESSAGE_LOG_BYTES <? saturating_add total bytes)%N with true.
    + rewrite orb_true_r. unfold len in *. cbn [length] in Hn.
      apply IH; [lia|subst; unfold saturating_sub, log_total; cbn; lia|unfold saturating_sub; lia].
    + symmetry. apply N.ltb_lt. unfold saturating_add. assert (MAX_MESSAGE_LOG_BYTES < usize_max)%N by done. lia.
  - destruct (evict_spec bytes (entries log) (log_bytes log) Ht Hfit Hb) as (_ & Hl & Hroom & Hlen).
    split_and!; cbn; unfold saturating_add; assert (MAX_MESSAGE_LOG_BYTES < usize_max)%N by done.
    + rewrite N.min_l by lia. unfold log_total in *. rewrite fmap_app, N_sum_app. cbn. lia.
    + lia.
    + unfold len in *. rewrite length_app. cbn. lia.
Qed.

(** ** One call at a time *)

Definition queued (b : ActorInbox) : list ActorMessage := backlog b ++ channel b.

Fixpoint total_bytes (ms : list ActorMessage) : N :=
  match ms with [] => 0 | m :: ms => message_bytes m + total_bytes ms end.

(** The counters agree with the queues. *)
Definition exact (b : ActorInbox) : Prop :=
  unread b = len (queued b) /\ retained_bytes b = total_bytes (queued b)
  /\ (retained_bytes b <= MAX_INBOX_BYTES)%N /\ (len (queued b) < 2 ^ 64)%N.

Lemma total_bytes_app l k : total_bytes (l ++ k) = (total_bytes l + total_bytes k)%N.
Proof. induction l as [|m l IH]; cbn; [done|]. rewrite IH. lia. Qed.

Lemma total_bytes_perm l k : l ≡ₚ k -> total_bytes l = total_bytes k.
Proof. induction 1; cbn; lia. Qed.

(** Counters that agree with [ms]; [drain] and [wait] take messages out of it. *)
Definition counts (ms : list ActorMessage) (b : ActorInbox) : Prop :=
  unread b = len ms /\ retained_bytes b = total_bytes ms.

Lemma counts_take l m k b : counts (l ++ m :: k) b -> counts (l ++ k) (mark_message_taken m b).
Proof.
  unfold counts, mark_message_taken, release. cbn. unfold saturating_sub. rewrite !total_bytes_app. cbn.
  unfold len. rewrite !length_app. cbn. intros [-> ->]. lia.
Qed.

Lemma drain_backlog_spec sender pending retained drained b :
  counts (retained ++ pending ++ channel b) b ->
  let '(ms, b') := drain_backlog sender pending retained drained b in
  ms = drained ++ List.filter (message_matches_from sender) pending
  /\ backlog b' = retained ++ List.filter (fun m => negb (message_matches_from sender m)) pending
  /\ channel b' = channel b /\ counts (queued b') b'.
Proof.
  revert retained drained b. induction pending as [|m pending IH]; intros retained drained b Hc; cbn.
  { rewrite !app_nil_r. by split_and!. }
  destruct (message_matches_from sender m); cbn.
  - specialize (IH retained (drained ++ [m]) (mark_message_taken m b)).
    destruct (drain_backlog _ _ _ _ _) as [ms b']. destruct IH as (-> & -> & -> & Hq).
    { cbn. by apply counts_take. }
    by rewrite <- app_assoc.
  - specialize (IH (retained ++ [m]) drained b). destruct (drain_backlog _ _ _ _ _) as [ms b'].
    destruct IH as (-> & -> & -> & Hq); [by rewrite <- app_assoc|]. by rewrite <- app_assoc.
Qed.

Lemma drain_channel_spec sender pending drained b :
  channel b = pending -> counts (queued b) b ->
  let '(ms, b') := drain_channel sender pending drained b in
  ms = drained ++ List.filter (message_matches_from sender) pending
  /\ backlog b' = backlog b ++ List.filter (fun m => negb (message_matches_from sender m)) pending
  /\ channel b' = [] /\ counts (queued b') b'.
Proof.
  revert drained b. induction pending as [|m pending IH]; intros drained b Ech Hc; cbn.
  { rewrite !app_nil_r. by split_and!. }
  unfold queued in Hc. rewrite Ech in Hc. destruct (message_matches_from sender m); cbn.
  - specialize (IH (drained ++ [m]) (mark_message_taken m (set_queues pending (backlog b) b)) eq_refl).
    destruct (drain_channel _ _ _ _) as [ms b']. destruct IH as (-> & -> & -> & Hq).
    { apply counts_take. done. }
    by rewrite <- app_assoc.
  - match goal with |- context [drain_channel _ _ _ ?b0] => specialize (IH drained b0 eq_refl) end.
    destruct (drain_channel _ _ _ _) as [ms b']. cbn in IH. destruct IH as (-> & -> & -> & Hq).
    { unfold queued. cbn. by rewrite <- app_assoc. }
    by rewrite <- app_assoc.
Qed.

(** drain takes exactly the matching messages.  On an inbox whose counters are
    exact, [drain] returns the messages from the sender asked for, backlog first
    and each in order of arrival, keeps all others in order, and leaves the
    counters exact. *)
Lemma drain_takes_matching sender b :
  exact b ->
  let '(ms, b') := drain sender b in
  ms = List.filter (message_matches_from sender) (queued b)
  /\ queued b' = List.filter (fun m => negb (message_matches_from sender m)) (queued b) /\ exact b'.
Proof.
  intros (Hu & Hr & Hmax & Hlen). unfold drain.
  pose proof (drain_backlog_spec sender (backlog b) [] [] b) as H1. cbn in H1. specialize (H1 (conj Hu Hr)).
  destruct (drain_backlog _ _ _ _ _) as [ms1 b1]. destruct H1 as (-> & Hb1 & Hc1 & Hq1).
  pose proof (drain_channel_spec sender (channel b1) (List.filter (message_matches_from sender) (backlog b)) b1
                eq_refl Hq1) as H2.
  destruct (drain_channel _ _ _ _) as [ms2 b2]. destruct H2 as (-> & Hb2 & Hc2 & Hu2 & Hr2).
  assert (Eq : queued b2 = List.filter (fun m => negb (message_matches_from sender m)) (queued b)).
  { unfold queued. by rewrite Hb2, Hb1, Hc1, Hc2, app_nil_r, List.filter_app. }
  rewrite Hc1. unfold queued at 1. rewrite List.filter_app. split_and!; [done..|].
  unfold exact. rewrite Hu2, Hr2, Eq. split_and!; [done..| |].
  - etrans; [|exact Hmax]. rewrite Hr. clear. induction (queued b) as [|m l IH]; cbn; [lia|].
    destruct (negb _); cbn; lia.
  - eapply N.le_lt_trans; [|exact Hlen]. unfold len. pose proof (List.filter_length_le
      (fun m => negb (message_matches_from sender m)) (queued b)). lia.
Qed.

Definition sample_message (sender : string) : ActorMessage := mkMessage sender "Root" "done" None 0.

Lemma drain_takes_matching_witness :
  let b := (deliver (sample_message "B") (deliver (sample_message "A") inbox_new).2).2 in
  exact b /\ let '(ms, b') := drain (Some "B"%string) b in
    ms = [sample_message "B"] /\ queued b' = [sample_message "A"] /\ exact b'.
Proof.
  cbv zeta. set (b := (deliver (sample_message "B") (deliver (sample_message "A") inbox_new).2).2).
  assert (Hb : exact b) by (repeat split; vm_compute; discriminate || reflexivity).
  split; [exact Hb|]. exact (drain_takes_matching (Some "B"%string) b Hb).
Defined.

(** ** Concurrent calls

    What the calls in progress have left to do.  A sender reserves, sends, then
    counts the message or gives the reserve back; a receiver takes a message out
    of a queue, then sets it aside or uncounts it, releases it and hands it to
    the actor.  [touch] only writes [last_activity], which nothing here reads, so it
    is part of the step before it.  A receiver that scans the backlog holds its lock, so taking the
    messages one at a time, in any order, covers what it can do. *)
Inductive task :=
| ReserveFor (m : ActorMessage)
| SendIt (m : ActorMessage)
| MarkDelivered (m : ActorMessage)
| GiveBack (m : ActorMessage)
| SetAside (m : ActorMessage)
| MarkTaken (m : ActorMessage)
| ReleaseTaken (m : ActorMessage).

(** The inbox, the tasks, and as history the messages the channel accepted and
    the messages handed to the actor. *)
Record world := mkWorld {
  box : ActorInbox;
  tasks : list task;
  accepted_messages : list ActorMessage;
  handed : list ActorMessage;
}.

(** What one atomic operation of a task makes of the inbox, of the task and of the
    two histories. *)
Definition run_task (t : task) (w : ActorInbox) : ActorInbox * list task * list ActorMessage * list ActorMessage :=
  match t with
  | ReserveFor m =>
      let '(ok, b) := try_reserve (message_bytes m) w in
      (b, if ok : bool then [SendIt m] else [], [], [])
  | SendIt m =>
      match try_send m w with
      | Some b => (b, [MarkDelivered m], [m], [])
      | None => (w, [GiveBack m], [], [])
      end
  | MarkDelivered m => (touch (sent_at m) (mark_delivered_to_inbox w), [], [], [])
  | GiveBack m => (release (message_bytes m) w, [], [], [])
  | SetAside m => (set_queues (channel w) (backlog w ++ [m]) w, [], [], [])
  | MarkTaken m => (mark_taken_by_actor w, [ReleaseTaken m], [], [])
  | ReleaseTaken m => (release (message_bytes m) w, [], [], [m])
  end.

Inductive inbox_step : world -> world -> Prop :=
| step_send b ts acc h m :
    inbox_step (mkWorld b ts acc h) (mkWorld b (ReserveFor m :: ts) acc h)
| step_task b b' ts1 t ts2 new acc h acc' h' :
    run_task t b = (b', new, acc', h') ->
    inbox_step (mkWorld b (ts1 ++ t :: ts2) acc h) (mkWorld b' (ts1 ++ new ++ ts2) (acc ++ acc') (h ++ h'))
| step_receive b ts acc h sender m rest :
    channel b = m :: rest ->
    inbox_step (mkWorld b ts acc h)
      (mkWorld (set_queues rest (backlog b) b)
         ((if message_matches_from sender m then MarkTaken m else SetAside m) :: ts) acc h)
| step_backlog b ts acc h q1 m q2 :
    backlog b = q1 ++ m :: q2 ->
    inbox_step (mkWorld b ts acc h)
      (mkWorld (set_queues (channel b) (q1 ++ q2) b) (MarkTaken m :: ts) acc h).

Inductive inbox_reachable : world -> Prop :=
| reach_new : inbox_reachable (mkWorld inbox_new [] [] [])
| reach_step w w' : inbox_reachable w -> inbox_step w w' -> inbox_reachable w'.

(** The message whose bytes a task answers for, and the one it holds outside the
    queues. *)
Definition charged (t : task) : list ActorMessage :=
  match t with
  | ReserveFor _ | MarkDelivered _ => []
  | SendIt m | GiveBack m | SetAside m | MarkTaken m | ReleaseTaken m => [m]
  end.

Definition holding (t : task) : list ActorMessage :=
  match t with SetAside m | MarkTaken m | ReleaseTaken m => [m] | _ => [] end.

Definition conserved (w : world) : Prop :=
  retained_bytes (box w) = (total_bytes (queued (box w)) + total_bytes (concat (charged <$> tasks w)))%N
  /\ (retained_bytes (box w) <= MAX_INBOX_BYTES)%N
  /\ length (channel (box w)) <= MAX_INBOX_MESSAGES
  /\ accepted_messages w ≡ₚ queued (box w) ++ concat (holding <$> tasks w) ++ handed w.

Lemma try_reserve_spec bytes b :
  try_reserve bytes b =
    if (retained_bytes b + bytes <=? MAX_INBOX_BYTES)%N
    then (true, set_retained (retained_bytes b + bytes) b) else (false, b).
Proof.
  unfold try_reserve, checked_add_u64.
  destruct (N.leb_spec (retained_bytes b + bytes) usize_max) as [|Hbig]; [done|].
  destruct (N.leb_spec (retained_bytes b + bytes) MAX_INBOX_BYTES) as [Hle|]; [|done].
  assert (MAX_INBOX_BYTES < usize_max)%N by done. lia.
Qed.

Lemma conserved_task b b' ts1 t ts2 new acc h acc' h' :
  run_task t b = (b', new, acc', h') ->
  conserved (mkWorld b (ts1 ++ t :: ts2) acc h) ->
  conserved (mkWorld b' (ts1 ++ new ++ ts2) (acc ++ acc') (h ++ h')).
Proof.
  unfold conserved, queued. cbn [box tasks accepted_messages handed].
  rewrite !fmap_app, !concat_app. cbn [fmap list_fmap concat]. rewrite !total_bytes_app.
  intros Hrun (Hr & Hmax & Hlen & Hperm).
  destruct t as [m|m|m|m|m|m|m]; cbn [run_task] in Hrun.
  - rewrite try_reserve_spec in Hrun. cbn in Hr, Hperm.
    destruct (N.leb_spec (retained_bytes b + message_bytes m) MAX_INBOX_BYTES);
      simplify_eq/=; rewrite !app_nil_r in *; split_and!; try done; try lia.
  - unfold try_send in Hrun. cbn in Hr, Hperm.
    destruct (Nat.ltb_spec (length (channel b)) MAX_INBOX_MESSAGES); simplify_eq/=.
    + rewrite !total_bytes_app, !length_app, !app_nil_r. cbn.
      split_and!; [lia|lia|lia|]. rewrite Hperm. solve_Permutation.
    + rewrite !app_nil_r. split_and!; try done; lia.
  - simplify_eq/=. rewrite !app_nil_r. by split_and!.
  - simplify_eq/=. unfold saturating_sub. rewrite !app_nil_r. split_and!; try done; lia.
  - simplify_eq/=. rewrite !total_bytes_app, !app_nil_r. cbn. split_and!; [lia|lia|lia|].
    rewrite Hperm. solve_Permutation.
  - simplify_eq/=. rewrite !app_nil_r. by split_and!.
  - simplify_eq/=. unfold saturating_sub. rewrite !app_nil_r. split_and!; [lia|lia|lia|].
    rewrite Hperm. solve_Permutation.
Qed.

Lemma conserved_reachable w : inbox_reachable w -> conserved w.
Proof.
  induction 1 as [|w w' _ IH Hstep]; [split_and!; [done|done|cbn; lia|done]|].
  destruct Hstep as [b ts acc h m|b b' ts1 t ts2 new acc h acc' h' Hrun|b ts acc h sender m rest Hch
    |b ts acc h q1 m q2 Hq].
  - done.
  - by eapply conserved_task.
  - destruct IH as (Hr & Hmax & Hlen & Hperm). unfold conserved, queued in *. cbn in *.
    rewrite Hch, !total_bytes_app in *. cbn in *.
    destruct (message_matches_from sender m); cbn; (split_and!; [lia|lia|lia|]);
      rewrite Hperm; solve_Permutation.
  - destruct IH as (Hr & Hmax & Hlen & Hperm). unfold conserved, queued in *. cbn in *.
    rewrite Hq, !total_bytes_app in *. cbn in *. split_and!; [lia|lia|lia|]. rewrite Hperm. solve_Permutation.
Qed.

(** C37: inboxes conserve messages and bytes.  However the calls of senders and
    receivers interleave, every accepted message is queued, held by exactly one
    call or was handed over once; the retained bytes are those of the queued
    messages and of the messages calls answer for, and stay within the cap; the
    channel stays within its capacity. *)
Theorem inbox_conserves w :
  inbox_reachable w ->
  accepted_messages w ≡ₚ queued (box w) ++ concat (holding <$> tasks w) ++ handed w
  /\ retained_bytes (box w) = (total_bytes (queued (box w)) + total_bytes (concat (charged <$> tasks w)))%N
  /\ (retained_bytes (box w) <= MAX_INBOX_BYTES)%N
  /\ length (channel (box w)) <= MAX_INBOX_MESSAGES.
Proof. intros (Hr & Hmax & Hlen & Hperm)%conserved_reachable. by split_and!. Qed.

(** Building runs. *)
Lemma reach_task b ts1 t ts2 acc h b' new acc' h' w' :
  inbox_reachable (mkWorld b (ts1 ++ t :: ts2) acc h) -> run_task t b = (b', new, acc', h') ->
  w' = mkWorld b' (ts1 ++ new ++ ts2) (acc ++ acc') (h ++ h') -> inbox_reachable w'.
Proof. intros Hw Hrun ->. eapply reach_step; [exact Hw|]. by apply step_task. Qed.

Lemma reach_receive b ts acc h sender m rest w' :
  inbox_reachable (mkWorld b ts acc h) -> channel b = m :: rest ->
  w' = mkWorld (set_queues rest (backlog b) b)
         ((if message_matches_from sender m then MarkTaken m else SetAside m) :: ts) acc h ->
  inbox_reachable w'.
Proof. intros Hw Hch ->. eapply reach_step; [exact Hw|]. by apply step_receive. Qed.

(** A message is sent and received, and the receiver counts it as taken before the
    sender has counted it as delivered. *)
Lemma overtaken :
  let m := sample_message "A" in
  inbox_reachable (mkWorld (mkInbox [] [] 1 0 (Some 0%Z)) [] [m] [m]).
Proof.
  intros m.
  assert (H1 : inbox_reachable (mkWorld inbox_new [ReserveFor m] [] [])).
  { eapply reach_step; [apply reach_new|apply step_send]. }
  assert (H2 : inbox_reachable (mkWorld (mkInbox [] [] 0 (message_bytes m) None) [SendIt m] [] [])).
  { by eapply (reach_task _ [] _ []); [exact H1|vm_compute; reflexivity|]. }
  assert (H3 : inbox_reachable (mkWorld (mkInbox [m] [] 0 (message_bytes m) None) [MarkDelivered m] [m] [])).
  { by eapply (reach_task _ [] _ []); [exact H2|vm_compute; reflexivity|]. }
  assert (H4 : inbox_reachable
    (mkWorld (mkInbox [] [] 0 (message_bytes m) None) [MarkTaken m; MarkDelivered m] [m] [])).
  { by eapply (reach_receive _ _ _ _ None m []); [exact H3|..]. }
  assert (H5 : inbox_reachable
    (mkWorld (mkInbox [] [] 0 (message_bytes m) None) [ReleaseTaken m; MarkDelivered m] [m] [])).
  { by eapply (reach_task _ [] _ [MarkDelivered m]); [exact H4|vm_compute; reflexivity|]. }
  assert (H6 : inbox_reachable (mkWorld (mkInbox [] [] 0 0 None) [MarkDelivered m] [m] [m])).
  { by eapply (reach_task _ [] _ [MarkDelivered m]); [exact H5|vm_compute; reflexivity|]. }
  by eapply (reach_task _ [] _ []); [exact H6|vm_compute; reflexivity|].
Qed.

Lemma inbox_conserves_witness :
  let m := sample_message "A" in
  let w := mkWorld (mkInbox [] [] 1 0 (Some 0%Z)) [] [m] [m] in
  accepted_messages w ≡ₚ queued (box w) ++ concat (holding <$> tasks w) ++ handed w.
Proof.
  cbv zeta. apply (inbox_conserves (mkWorld (mkInbox [] [] 1 0 (Some 0%Z)) [] [sample_message "A"] [sample_message "A"])).
  exact overtaken.
Defined.

(** the unread counter can stay too high.  There is an interleaving after which
    no call is in progress, the inbox is empty and its only message was handed
    over, and the counter still says one unread message. *)
Lemma unread_overcounts :
  exists w, inbox_reachable w /\ tasks w = [] /\ queued (box w) = []
    /\ handed w = accepted_messages w /\ unread (box w) = 1%N.
Proof. eexists. split; [exact overtaken|]. done. Qed.
