(* ===== verification/Vecs.v ===== *)
(** * Vectors searched and updated by predicates

    The in-memory store keeps its tables in [Vec]s and finds records with
    [iter().find], [iter().position], [iter_mut().find] and
    [enumerate().filter().min_by].  Here are these operations and the facts about
    them that the tables' invariants need. *)

From stdpp Require Import base tactics list.
From Stdlib Require Import NArith ZArith Lia.
From S2P Require Import Prelude.

Section Vec.
Context {A : Type}.
Implicit Types (l : list A) (p : A -> bool) (f : A -> A).

(** [iter().find] and, with the position, [iter().position]. *)
Fixpoint find_at p l : option (nat * A) :=
  match l with
  | [] => None
  | x :: l' =>
      if p x then Some (O, x)
      else match find_at p l' with Some (i, y) => Some (S i, y) | None => None end
  end.

Definition find_first p l : option A := snd <$> find_at p l.

(** [for x in &mut l { if p(x) { *x = f(x) } }]. *)
Definition update_where p f l : list A := List.map (fun x => if p x then f x else x) l.

(** [iter().enumerate().filter(p).min_by(lt)]: the first of the least elements;
    [lt y x]: [y] is less than [x]. *)
Fixpoint min_at (lt : A -> A -> bool) p l : option (nat * A) :=
  match l with
  | [] => None
  | x :: l' =>
      let rest := match min_at lt p l' with Some (i, y) => Some (S i, y) | None => None end in
      if p x then
        match rest with
        | Some (i, y) => if lt y x then Some (i, y) else Some (O, x)
        | None => Some (O, x)
        end
      else rest
  end.

(** [iter().filter(p).count()]. *)
Definition count_where p l : nat := length (List.filter p l).

(** ** Facts *)

Lemma forallb_Forall p l : forallb p l = true <-> Forall (fun x => p x = true) l.
Proof. rewrite forallb_forall, List.Forall_forall. done. Qed.

Lemma find_at_Some p l i x :
  find_at p l = Some (i, x) -> l !! i = Some x /\ p x = true /\ forall j y, l !! j = Some y -> j < i -> p y = false.
Proof.
  revert i. induction l as [|y l IH]; intros i Hf; cbn in Hf; [done|].
  destruct (p y) eqn:Hy; simplify_eq.
  - split_and!; [done|done|]. intros. lia.
  - destruct (find_at p l) as [[k z]|]; simplify_eq. destruct (IH k eq_refl) as (Hl & Hp & Hb).
    split_and!; [done|done|]. intros [|j] w Hj Hlt; cbn in Hj; simplify_eq; [done|]. eapply Hb; [done|lia].
Qed.

Lemma find_at_None p l : find_at p l = None <-> Forall (fun x => p x = false) l.
Proof.
  induction l as [|y l IH]; cbn; [by split|]. destruct (p y) eqn:Hy.
  - split; [done|]. intros [? ?]%Forall_cons. congruence.
  - rewrite Forall_cons, <-IH. destruct (find_at p l) as [[? ?]|]; naive_solver.
Qed.

Lemma find_first_Some p l x : find_first p l = Some x -> x ∈ l /\ p x = true.
Proof.
  unfold find_first. destruct (find_at p l) as [[i y]|] eqn:Hf; [|done]. intros [= ->].
  apply find_at_Some in Hf as (Hl & Hp & _). split; [by eapply list_elem_of_lookup_2|done].
Qed.

Lemma find_first_None p l : find_first p l = None <-> Forall (fun x => p x = false) l.
Proof. unfold find_first. rewrite <-find_at_None. by destruct (find_at p l). Qed.

Lemma existsb_false_Forall p l : existsb p l = false <-> Forall (fun x => p x = false) l.
Proof.
  induction l as [|y l IH]; cbn; [by split|]. rewrite orb_false_iff, Forall_cons, IH. done.
Qed.

Lemma existsb_elem p l : existsb p l = true <-> exists x, x ∈ l /\ p x = true.
Proof. rewrite existsb_exists. by setoid_rewrite list_elem_of_In. Qed.

Lemma min_at_None lt p l : min_at lt p l = None <-> Forall (fun x => p x = false) l.
Proof.
  induction l as [|y l IH]; cbn; [by split|]. rewrite Forall_cons, <-IH.
  destruct (min_at lt p l) as [[? ?]|], (p y); repeat case_match; naive_solver.
Qed.

(** The record a minimum search picks satisfies the filter, and no other record
    that does is smaller. *)
Lemma min_at_Some lt p l i x :
  (forall a b c, lt a b = false -> lt b c = false -> lt a c = false) ->
  (forall a b, lt a b = true -> lt b a = false) ->
  min_at lt p l = Some (i, x) ->
  l !! i = Some x /\ p x = true /\ forall y, y ∈ l -> p y = true -> lt y x = false.
Proof.
  intros Htrans Hasym.
  assert (Hirr : forall a, lt a a = false).
  { intros a. destruct (lt a a) eqn:E; [|done]. by rewrite (Hasym _ _ E) in E. }
  revert i x. induction l as [|y l IH]; intros i x Hm; cbn in Hm; [done|].
  destruct (min_at lt p l) as [[k z]|] eqn:Hrest.
  - destruct (IH k z eq_refl) as (Hl & Hp & Hmin).
    destruct (p y) eqn:Hy; [destruct (lt z y) eqn:Hzy|]; simplify_eq; split_and!; try done;
      intros w [->|Hw]%elem_of_cons Hpw; eauto; congruence.
  - assert (Hnone : Forall (fun w => p w = false) l) by (by apply min_at_None in Hrest).
    destruct (p y) eqn:Hy; simplify_eq. split_and!; [done|done|].
    intros w [->|Hw]%elem_of_cons Hpw; [done|].
    rewrite Forall_forall in Hnone. by rewrite Hnone in Hpw.
Qed.

(** Whatever the order, the record picked is one of those filtered. *)
Lemma min_at_lookup lt p l i x : min_at lt p l = Some (i, x) -> l !! i = Some x /\ p x = true.
Proof.
  revert i x. induction l as [|y l IH]; intros i x Hm; cbn in Hm; [done|].
  destruct (min_at lt p l) as [[k z]|]; [specialize (IH _ _ eq_refl)|]; repeat case_match; naive_solver.
Qed.
End Vec.

(** ** Keys of records *)
Section Keys.
Context {A K : Type} (key : A -> K).

(** Keys are kept by updates that do not touch them. *)
Lemma keys_insert l i x y :
  l !! i = Some x -> key y = key x -> List.map key (<[i := y]> l) = List.map key l.
Proof.
  intros Hi Hk. change (key <$> <[i := y]> l = key <$> l). rewrite list_fmap_insert, Hk.
  apply list_insert_id. by rewrite list_lookup_fmap, Hi.
Qed.

Lemma keys_where p f l :
  (forall x, key (f x) = key x) -> List.map key (update_where p f l) = List.map key l.
Proof. intros Hk. unfold update_where. rewrite List.map_map. apply map_ext. intros x. by destruct (p x). Qed.

Lemma keys_push l x :
  NoDup (List.map key l) -> Forall (fun y => key y <> key x) l -> NoDup (List.map key (l ++ [x])).
Proof.
  intros Hnd Hf. rewrite List.map_app. apply NoDup_app. split_and!; [done| |apply NoDup_singleton].
  intros k (y & -> & Hy)%list_elem_of_fmap. rewrite Forall_forall in Hf. cbn.
  rewrite list_elem_of_singleton. by apply Hf.
Qed.

Lemma keys_filter (p : A -> bool) l : NoDup (List.map key l) -> NoDup (List.map key (List.filter p l)).
Proof.
  induction l as [|x l IH]; cbn; [done|]. intros [Hx Hnd]%NoDup_cons.
  destruct (p x); cbn; [|auto]. apply NoDup_cons. split; [|auto].
  rewrite list_elem_of_fmap. intros (y & Hk & Hy). destruct Hx. apply list_elem_of_fmap. exists y. split; [done|].
  apply list_elem_of_In in Hy. apply filter_In in Hy as [Hy _]. by apply list_elem_of_In.
Qed.

Lemma keys_inj l i j x y :
  NoDup (List.map key l) -> l !! i = Some x -> l !! j = Some y -> key x = key y -> i = j.
Proof.
  intros Hnd Hi Hj Hk. apply (NoDup_lookup _ i j (key x) Hnd); rewrite list_lookup_fmap; rewrite ?Hi, ?Hj; cbn; congruence.
Qed.
End Keys.
