(* ===== verification/Redaction.v ===== *)
(** * Redaction of secrets before anything is persisted ([tm-memory/src/redaction.rs])

    The patterns are those of the code; matching them is the crate [regex], the
    parameter [RegexEngine].  JSON payloads are rewritten in place by the code and
    returned here together with the number of redactions. *)

From stdpp Require Import base tactics list strings.
From Stdlib Require Import NArith Lia Ascii.
From S2P Require Import Prelude BTree Text Strings Value ValueFacts Vecs.

(** [Regex::is_match], [Regex::find_iter(..).count()] and [Regex::replace_all] of
    the compiled pattern. *)
Class RegexEngine := {
  is_match : string -> string -> bool;
  find_count : string -> string -> N;
  replace_all : string -> string -> string -> string;
}.

(** The crate documents that a text matches exactly when the search finds
    something. *)
Class RegexLaws `{RegexEngine} := {
  find_count_none pattern text : find_count pattern text = 0%N <-> is_match pattern text = false;
}.

Record Redaction := mkRedaction { redaction_kind : string; redaction_count : N }.

Record RedactionReport := mkReport { report_text : string; redactions : list Redaction }.

(** The double quote of a raw string literal. *)
Definition dquote : string := String "034" "".

Definition REDACTION_RULES : list (string * string * string) := [
  ("private_key",
   "(?s)-----BEGIN [A-Z ]*PRIVATE KEY-----.*?-----END [A-Z ]*PRIVATE KEY-----",
   "[REDACTED_PRIVATE_KEY]");
  ("authorization_header",
   "(?im)^(authorization|x-api-key|api-key|x-tempestmiku-bootstrap)\s*:\s*.+$",
   "$1: [REDACTED_SECRET]");
  ("tempestmiku_device_token",
   "\btmk_dev_[A-Fa-f0-9]{64}\b",
   "[REDACTED_DEVICE_TOKEN]");
  ("tempestmiku_pairing_link",
   "tempestmiku://pair\?[^\s" +:+ dquote +:+ "'<>]*",
   "[REDACTED_PAIRING_LINK]");
  ("pairing_code",
   "(?i)\b(code|pairing[_-]?code)\s*[:=]\s*['\" +:+ dquote +:+ "]?[a-f0-9]{64}",
   "$1=[REDACTED_PAIRING_CODE]");
  ("bearer_token",
   "(?i)\bbearer\s+[A-Za-z0-9._~+/-]{12,}=*",
   "Bearer [REDACTED_TOKEN]");
  ("uri_userinfo",
   "(?i)\b(postgres(?:ql)?|https?)://[^/\s:@]+:[^@\s/]+@",
   "$1://[REDACTED_CREDENTIAL]@");
  ("api_secret_assignment",
   "(?i)\b(api[_-]?key|token|password|secret)\s*[:=]\s*['" +:+ dquote +:+ "]?[^'" +:+ dquote +:+ "\s]{6,}",
   "$1=[REDACTED_SECRET]");
  ("provider_token",
   "\b(sk-[A-Za-z0-9_-]{12,}|gh[pousr]_[A-Za-z0-9_]{12,}|xox[baprs]-[A-Za-z0-9-]{12,}|hf_[A-Za-z0-9]{12,}|AIza[A-Za-z0-9_-]{20,}|AKIA[A-Z0-9]{16})\b",
   "[REDACTED_TOKEN]");
  ("email",
   "\b[A-Za-z0-9._%+-]+@[A-Za-z0-9.-]+\.[A-Za-z]{2,}\b",
   "[REDACTED_EMAIL]")]%string.

(** ** Texts *)

Section Redact.
Context `{RegexEngine} `{JsonNumber}.

Definition contains_sensitive_data (input : string) : bool :=
  existsb (fun '(_, regex, _) => is_match regex input) REDACTION_RULES.

(** One round of the loop over the rules. *)
Definition apply_rule (report : RedactionReport) (rule : string * string * string) : RedactionReport :=
  let '(kind, regex, replacement) := rule in
  let text := report_text report in
  let count := find_count regex text in
  if (0 <? count)%N
  then mkReport (replace_all regex text replacement)
         (redactions report ++ [mkRedaction kind count])
  else report.

Definition redact_dream_text (input : string) : RedactionReport :=
  fold_left apply_rule REDACTION_RULES (mkReport input []).

(** ** JSON payloads *)

(** [char::to_lowercase] of an ASCII char. *)
Definition ascii_to_lowercase (c : char) : char := if is_ascii_upper c then (c + 32)%N else c.

Definition is_secret_key (key : string) : bool :=
  let normalized := of_chars (List.map ascii_to_lowercase (List.filter is_ascii_alphanumeric (chars key))) in
  existsb (String.eqb normalized)
    ["apikey"; "accesstoken"; "authtoken"; "authorization"; "bearertoken"; "bootstrapsecret";
     "clientsecret"; "cookie"; "credential"; "credentials"; "devicetoken"; "pairingcode";
     "password"; "passphrase"; "providercredential"; "refreshtoken"; "secret"; "setcookie";
     "token"]%string.

Definition is_null (value : Json) : bool := match value with JNull => true | _ => false end.

Definition key_is_secret (key : option string) : bool :=
  match key with Some k => is_secret_key k | None => false end.

Definition redacted_secret : Json := JString "[REDACTED_SECRET]".

Definition sum_counts (counts : list N) : N := fold_left N.add counts 0%N.

Fixpoint redact_json_value_at_key (value : Json) (key : option string) : Json * N :=
  if key_is_secret key && negb (is_null value) then (redacted_secret, 1%N)
  else
    match value with
    | JString text =>
        let report := redact_dream_text text in
        (JString (report_text report), sum_counts (List.map redaction_count (redactions report)))
    | JArray items =>
        let rs := List.map (fun item => redact_json_value_at_key item None) items in
        (JArray rs.*1, sum_counts rs.*2)
    | JObject object =>
        let rs := List.map (fun '(k, item) => (k, redact_json_value_at_key item (Some k))) object in
        (JObject (List.map (fun '(k, r) => (k, fst r)) rs), sum_counts (List.map (fun '(_, r) => snd r) rs))
    | JNull | JBool _ | JNumber _ => (value, 0%N)
    end.

Definition redact_json_value (value : Json) : Json * N := redact_json_value_at_key value None.

(** ** What redaction leaves

    [hidden key value]: below [value], found under [key], nothing but null and the
    marker is left under a credential key. *)
Fixpoint hidden (value : Json) (key : option string) : bool :=
  if key_is_secret key then
    match value with JNull => true | JString text => String.eqb text "[REDACTED_SECRET]" | _ => false end
  else
    match value with
    | JArray items => forallb (fun item => hidden item None) items
    | JObject object => forallb (fun '(k, item) => hidden item (Some k)) object
    | _ => true
    end.

(** No detector fires on any text of the payload. *)
Fixpoint unsuspicious (value : Json) (key : option string) : bool :=
  (negb (key_is_secret key) || is_null value)
  && match value with
     | JString text => negb (contains_sensitive_data text)
     | JArray items => forallb (fun item => unsuspicious item None) items
     | JObject object => forallb (fun '(k, item) => unsuspicious item (Some k)) object
     | _ => true
     end.
End Redact.

#[global] Arguments contains_sensitive_data : simpl never.
#[global] Arguments redact_dream_text : simpl never.

(** ** Facts *)

Section RedactFacts.
Context `{RegexEngine} `{!RegexLaws} `{JsonNumber}.

Lemma apply_rule_idle rule text found :
  is_match rule.1.2 text = false -> apply_rule (mkReport text found) rule = mkReport text found.
Proof. destruct rule as [[kind regex] replacement]; cbn. intros ->%find_count_none. done. Qed.

(** A text without a detection stays as it is. *)
Lemma redact_clean text : contains_sensitive_data text = false -> redact_dream_text text = mkReport text [].
Proof.
  unfold contains_sensitive_data, redact_dream_text. generalize REDACTION_RULES as rules.
  induction rules as [|[[kind regex] replacement] rules IH]; [done|].
  cbn [existsb fold_left]. intros [? ?]%orb_false_iff. rewrite apply_rule_idle by done. by apply IH.
Qed.

Lemma sum_counts_zero counts : Forall (fun n => n = 0%N) counts -> sum_counts counts = 0%N.
Proof. unfold sum_counts. induction 1 as [|n l -> _ IH]; [done|]. apply IH. Qed.

(** The loops over items and members, as lemmas about lists. *)
Lemma redact_items items :
  Forall (fun item => redact_json_value_at_key item None = (item, 0%N)) items ->
  List.map (fun item => redact_json_value_at_key item None) items = List.map (fun item => (item, 0%N)) items.
Proof. by intros ?; apply map_ext_Forall. Qed.

Lemma redact_members object :
  Forall (fun '(k, item) => redact_json_value_at_key item (Some k) = (item, 0%N)) object ->
  List.map (fun '(k, item) => (k, redact_json_value_at_key item (Some k))) object
  = List.map (fun '(k, item) => (k, (item, 0%N))) object.
Proof. intros Ho. apply map_ext_Forall. eapply Forall_impl; [exact Ho|]. by intros [k item] ->. Qed.

Lemma redact_hides_at value : forall key, hidden (fst (redact_json_value_at_key value key)) key = true.
Proof.
  induction value as [|b|n|text|items IH|object IH] using json_induction; intros key; cbn [redact_json_value_at_key];
    destruct (key_is_secret key) eqn:Hk; cbn [andb is_null negb fst]; unfold redacted_secret; cbn [hidden]; rewrite ?Hk; try done.
  - apply forallb_Forall. rewrite List.map_map, Forall_map.
    eapply Forall_impl; [exact IH|]. intros item Hi. apply Hi.
  - apply forallb_Forall. rewrite List.map_map, Forall_map.
    eapply Forall_impl; [exact IH|]. intros [k item] Hi. apply Hi.
Qed.

Lemma redact_unsuspicious_at value : forall key,
  unsuspicious value key = true -> redact_json_value_at_key value key = (value, 0%N).
Proof.
  induction value as [|b|n|text|items IH|object IH] using json_induction; intros key Hu;
    cbn [redact_json_value_at_key unsuspicious is_null negb] in *;
    apply andb_prop in Hu as [Hk Hu]; destruct (key_is_secret key); try done; cbn [andb].
  - apply negb_true_iff in Hu. by rewrite redact_clean.
  - apply forallb_Forall in Hu. rewrite redact_items.
    + rewrite !List.map_map, List.map_id. f_equal. apply sum_counts_zero, Forall_map. by apply Forall_true.
    + eapply Forall_impl; [exact (proj2 (Forall_and _ _) (conj IH Hu))|]. naive_solver.
  - apply forallb_Forall in Hu. rewrite redact_members.
    + rewrite !List.map_map. f_equal.
      * f_equal. rewrite <-(List.map_id object) at 2. apply map_ext. by intros [k item].
      * apply sum_counts_zero, Forall_map, Forall_true. by intros [k item].
    + eapply Forall_impl; [exact (proj2 (Forall_and _ _) (conj IH Hu))|]. intros [k item]; cbn. naive_solver.
Qed.

(** C32: Redaction hides what it names and leaves the rest.  After a payload has been
    redacted, nothing but null and the marker is left under a key that names a
    credential, at any depth, and a payload in which no key names a credential and no
    detector fires on a text comes back as it was, with a count of zero. *)
Theorem redaction_hides value :
  hidden (fst (redact_json_value value)) None = true
  /\ (unsuspicious value None = true -> redact_json_value value = (value, 0%N)).
Proof. split; [apply redact_hides_at|apply redact_unsuspicious_at]. Qed.
End RedactFacts.

(** Later files do not unfold the patterns. *)
#[global] Opaque contains_sensitive_data redact_dream_text.
