(* ===== verification/ServerBase.v ===== *)
(** * What the server's modules share

    [ServerError] (tm-server/src/error.rs), identifiers and times, and the monad of
    the store: a call on the locked tables answers and leaves the tables as they
    are afterwards, also when it fails. *)

From stdpp Require Import base tactics list strings gmap.
From Stdlib Require Import NArith ZArith Lia.
From S2P Require Import Prelude BTree Text Strings Value.

Inductive ServerError :=
| SNotFound (message : string)
| SUnauthorized
| SForbidden
| SPolicy (message : string)
| SInvalidRequest (message : string)
| SConflict (message : string)
| SStore (message : string)
| SBackend (message : string).

#[global] Instance server_error_eq_dec : EqDecision ServerError.
Proof. solve_decision. Defined.

Definition ServerResult := outcome ServerError.

(** A [Uuid] is its 128-bit number, whose order is that of the bytes; its text and
    the parser of the text are the crate [uuid]. *)
Abbreviation Uuid := N (only parsing).

Class UuidText := {
  uuid_text : Uuid -> string;
  uuid_parse : string -> option Uuid;
  uuid_parse_error : string -> string;
}.

Class UuidTextLaws `{UuidText} := {
  uuid_parse_text u : uuid_parse (uuid_text u) = Some u;
}.

(** A [DateTime<Utc>] and a [Duration] are numbers of nanoseconds.  The crate
    [chrono] panics where a difference leaves its range ([None]); it also renders
    times, and counts whole seconds between them. *)
Abbreviation DateTime := Z (only parsing).
Abbreviation Duration := Z (only parsing).

Class Chrono := {
  datetime_sub : DateTime -> Duration -> option DateTime;
  seconds_since : DateTime -> DateTime -> Z;
  datetime_text : DateTime -> string;
}.

(** Where it does not panic, a difference is the difference. *)
Class ChronoLaws `{Chrono} := {
  datetime_sub_exact t d t' : datetime_sub t d = Some t' -> t' = (t - d)%Z;
}.

(** SHA-256 of a byte string, in lower-case hexadecimal. *)
Class Sha256 := sha256_hex : string -> string.

(** ** Strings *)

Fixpoint trim_start_chars (cs : list char) : list char :=
  match cs with
  | [] => []
  | c :: cs' => if is_whitespace c then trim_start_chars cs' else cs
  end.

(** [str::trim]. *)
Definition trim (s : string) : string :=
  of_chars (List.rev (trim_start_chars (List.rev (trim_start_chars (chars s))))).

(** [str::split_whitespace] of the chars read so far, and the words before. *)
Fixpoint words (word : list char) (cs : list char) : list (list char) :=
  match cs with
  | [] => match word with [] => [] | _ => [word] end
  | c :: cs' =>
      if is_whitespace c
      then match word with [] => words [] cs' | _ => word :: words [] cs' end
      else words (word ++ [c]) cs'
  end.

Definition split_whitespace (s : string) : list string := List.map of_chars (words [] (chars s)).

(** ** JSON access *)

Section JsonAccess.
Context `{JsonNumber}.

(** [Value::get] with a string, [Value::as_str], [Value::is_array]. *)
Definition json_get (key : string) (value : Json) : option Json :=
  match value with JObject fields => bm_get key fields | _ => None end.

Definition json_as_str (value : Json) : option string :=
  match value with JString s => Some s | _ => None end.

Definition json_is_array (value : Json) : bool :=
  match value with JArray _ => true | _ => false end.

(** [get(key).and_then(Value::as_str)]. *)
Definition json_get_str (key : string) (value : Json) : option string :=
  json_get key value ≫= json_as_str.

(** [json!({ .. })]. *)
Definition json_object (fields : list (string * Json)) : Json := JObject (bm_from fields).
End JsonAccess.

(** ** Machine integers

    [x + y] of a signed type with [w] bits: a build with overflow checks panics
    ([None]), one without wraps around. *)
Definition wrap_signed (w : Z) (z : Z) : Z := ((z + 2 ^ (w - 1)) mod 2 ^ w - 2 ^ (w - 1))%Z.

Definition in_signed (w : Z) (z : Z) : bool := ((- 2 ^ (w - 1) <=? z) && (z <? 2 ^ (w - 1)))%Z.

(** ** Calls on the tables *)

Section Tx.
Context {Tables : Type}.

Definition Tx (A : Type) : Type := Tables -> ServerResult A * Tables.

Definition tx_ret {A} (a : A) : Tx A := fun s => (Ok a, s).
Definition tx_bind {A B} (m : Tx A) (k : A -> Tx B) : Tx B := fun s =>
  match m s with
  | (Ok a, s') => k a s'
  | (Err e, s') => (Err e, s')
  | (Panicked, s') => (Panicked, s')
  | (OutOfFuel, s') => (OutOfFuel, s')
  end.

#[global] Instance tx_mret : MRet Tx := fun A => tx_ret.
#[global] Instance tx_mbind : MBind Tx := fun A B k m => tx_bind m k.

Definition reads {A} (f : Tables -> A) : Tx A := fun s => (Ok (f s), s).
Definition writes (f : Tables -> Tables) : Tx unit := fun s => (Ok tt, f s).
Definition refuse {A} (e : ServerError) : Tx A := fun s => (Err e, s).
Definition crash {A} : Tx A := fun s => (Panicked, s).

(** [if !b { return Err(e) }]. *)
Definition ensure (b : bool) (e : ServerError) : Tx unit := if b then mret tt else refuse e.

(** [option.ok_or_else(|| e)?]. *)
Definition or_refuse {A} (o : option A) (e : ServerError) : Tx A :=
  match o with Some a => mret a | None => refuse e end.

(** A computation that does not touch the tables. *)
Definition lift {A} (r : ServerResult A) : Tx A := fun s => (r, s).

(** [option.unwrap()]. *)
Definition unwrap {A} (o : option A) : Tx A :=
  match o with Some a => mret a | None => crash end.
End Tx.
#[global] Arguments Tx Tables A : clear implicits.
