(* ===== verification/Evolution.v ===== *)
(** * The self-evolution policy ([tm-host/src/evolution.rs],
    [tm-server/src/evolution.rs])

    Changes an agent proposes to its own memory, skills, persona and modes carry
    metadata in the payload of an approval effect.  The tier configured by the owner
    decides which targets can be proposed and applied; what was approved is verified
    again when it is applied.  The derived deserializer of the metadata is generated
    code, the parameter [MetadataCodec]. *)

From stdpp Require Import base tactics list strings.
From Stdlib Require Import NArith ZArith Lia Ascii.
From S2P Require Import Prelude BTree Text Strings Value ValueFacts Render Vecs Redaction ServerBase.

(** ** Tiers, targets and decisions *)

Inductive SelfEvolutionTier := Off | Conservative | Moderate.

Definition tier_as_str (tier : SelfEvolutionTier) : string :=
  match tier with Off => "off" | Conservative => "conservative" | Moderate => "moderate" end.

Inductive SelfEvolutionTierParseError := UnsupportedAggressive_ | UnknownTier (value : string).

Definition tier_from_str (value : string) : SelfEvolutionTierParseError + SelfEvolutionTier :=
  if String.eqb value "off" then inr Off
  else if String.eqb value "conservative" then inr Conservative
  else if String.eqb value "moderate" then inr Moderate
  else if String.eqb value "aggressive" then inl UnsupportedAggressive_
  else inl (UnknownTier value).

Inductive EvolutionTargetClass :=
| ProfileFact | ScopedMemory | SkillProposal | PersonaProposal | ModeProposal.

Definition class_as_str (class : EvolutionTargetClass) : string :=
  match class with
  | ProfileFact => "profile_fact"
  | ScopedMemory => "scoped_memory"
  | SkillProposal => "skill_proposal"
  | PersonaProposal => "persona_proposal"
  | ModeProposal => "mode_proposal"
  end.

Inductive EvolutionPolicyOutcome := Allowed | ApprovalRequired | Denied.

Inductive EvolutionPolicyReason :=
| DisabledTier | InsufficientTier | UnsupportedAggressive | UnknownTarget
| ReasonApprovalRequired | StaleApproval | InvalidPayload.

#[global] Instance tier_eq_dec : EqDecision SelfEvolutionTier. Proof. solve_decision. Defined.
#[global] Instance class_eq_dec : EqDecision EvolutionTargetClass. Proof. solve_decision. Defined.
#[global] Instance outcome_eq_dec : EqDecision EvolutionPolicyOutcome. Proof. solve_decision. Defined.
#[global] Instance reason_eq_dec : EqDecision EvolutionPolicyReason. Proof. solve_decision. Defined.

Definition reason_code (reason : EvolutionPolicyReason) : string :=
  match reason with
  | DisabledTier => "evolution_disabled"
  | InsufficientTier => "evolution_insufficient_tier"
  | UnsupportedAggressive => "evolution_aggressive_unsupported"
  | UnknownTarget => "evolution_unknown_target"
  | ReasonApprovalRequired => "evolution_approval_required"
  | StaleApproval => "evolution_stale_approval"
  | InvalidPayload => "evolution_invalid_payload"
  end.

Record EvolutionPolicyDecision := mkDecision {
  decision_outcome : EvolutionPolicyOutcome;
  decision_reason : option EvolutionPolicyReason;
}.

#[global] Instance decision_eq_dec : EqDecision EvolutionPolicyDecision. Proof. solve_decision. Defined.

Definition decision_allowed : EvolutionPolicyDecision := mkDecision Allowed None.
Definition decision_approval_required : EvolutionPolicyDecision :=
  mkDecision ApprovalRequired (Some ReasonApprovalRequired).
Definition decision_denied (reason : EvolutionPolicyReason) : EvolutionPolicyDecision :=
  mkDecision Denied (Some reason).

Definition decide_evolution_target (tier : SelfEvolutionTier) (target : EvolutionTargetClass)
    : EvolutionPolicyDecision :=
  match tier, target with
  | Off, _ => decision_denied DisabledTier
  | (Conservative | Moderate), (ProfileFact | ScopedMemory | SkillProposal) => decision_allowed
  | Moderate, (PersonaProposal | ModeProposal) => decision_approval_required
  | Conservative, (PersonaProposal | ModeProposal) => decision_denied InsufficientTier
  end.

(** ** Identifiers and digests *)

Inductive EvolutionWireError :=
| InvalidActorId | InvalidTargetId | InvalidDigest | InvalidResourceUri
| EmptyField (field : string) | FieldTooLarge (field : string) (max_bytes : N).

Definition wire_error_text (e : EvolutionWireError) : string :=
  match e with
  | InvalidActorId => "invalid evolution actor id"
  | InvalidTargetId => "invalid evolution target id"
  | InvalidDigest => "evolution digest must be sha256 followed by 64 hexadecimal characters"
  | InvalidResourceUri => "evolution resource uri must use memory, artifact, or blob sha256"
  | EmptyField field => field +:+ " must not be empty"
  | FieldTooLarge field max_bytes => field +:+ " exceeds " +:+ display_u64 max_bytes +:+ " bytes"
  end%string.

Definition WireResult (A : Type) : Type := EvolutionWireError + A.

Definition validate_bounded_text (field value : string) (max_bytes : N) : WireResult unit :=
  if is_empty value then inl (EmptyField field)
  else if (max_bytes <? str_len value)%N then inl (FieldTooLarge field max_bytes)
  else inr tt.

(** [char::is_control]: the general category Cc. *)
Definition is_control (c : char) : bool := in_range 0 31 c || in_range 127 159 c.

Definition EvolutionTargetId_new (value : string) : WireResult string :=
  match validate_bounded_text "target id" value 128 with
  | inl e => inl e
  | inr _ =>
      if String.eqb value "." || String.eqb value ".." || str_contains "/" value
         || str_contains "\" value || str_contains ":" value || existsb is_control (chars value)
      then inl InvalidTargetId
      else inr value
  end.

Definition EvolutionActorId_new (value : string) : WireResult string :=
  match validate_bounded_text "actor id" value 128 with
  | inl e => inl e
  | inr _ => if existsb is_control (chars value) then inl InvalidActorId else inr value
  end.

Definition is_ascii_hexdigit (a : ascii) : bool :=
  let n := N_of_ascii a in in_range 48 57 n || in_range 65 70 n || in_range 97 102 n.

Definition to_ascii_lowercase (a : ascii) : ascii :=
  let n := N_of_ascii a in if in_range 65 90 n then ascii_of_N (n + 32) else a.

Definition EvolutionDigest_new (value : string) : WireResult string :=
  if String.prefix "sha256:" value then
    let hex := String.list_ascii_of_string (str_drop 7 value) in
    if negb (length hex =? 64)%nat || negb (forallb is_ascii_hexdigit hex) then inl InvalidDigest
    else inr ("sha256:" +:+ String.string_of_list_ascii (List.map to_ascii_lowercase hex))%string
  else inl InvalidDigest.

(** ** Records *)

Record EvolutionTarget := mkTarget { target_class : EvolutionTargetClass; target_id : string }.

Record EvolutionOrigin := mkOrigin {
  origin_actor_id : string;
  origin_session_id : Uuid;
  origin_dream_id : option Uuid;
}.

Inductive EvolutionAuditStatus :=
| AuditAttempted | AuditDenied | AuditAwaitingApproval | AuditApproved | AuditTimedOut
| AuditSuperseded | AuditFailed | AuditApplied.

Record EvolutionAuditRecord := mkAudit {
  audit_version : N;
  audit_id : Uuid;
  audit_proposal_id : Uuid;
  audit_origin : EvolutionOrigin;
  audit_target : EvolutionTarget;
  audit_content_digest : string;
  audit_configured_tier : SelfEvolutionTier;
  audit_decision : EvolutionPolicyDecision;
  audit_approval_id : option Uuid;
  audit_effect_id : option Uuid;
  audit_status : EvolutionAuditStatus;
  audit_created_at : DateTime;
  audit_updated_at : DateTime;
  audit_error_code : option EvolutionPolicyReason;
}.

Record EvolutionEffectMetadata := mkMetadata {
  meta_version : N;
  meta_configured_tier : SelfEvolutionTier;
  meta_decision : EvolutionPolicyDecision;
  meta_origin : EvolutionOrigin;
  meta_target : EvolutionTarget;
  meta_content_digest : string;
}.

Definition EVOLUTION_WIRE_VERSION : N := 1.

(** [serde_json::from_value::<EvolutionEffectMetadata>], with the text of its error. *)
Class MetadataCodec `{JsonNumber} := metadata_from_value : Json -> string + EvolutionEffectMetadata.

(** ** Proposals *)

Definition policy_error (reason : EvolutionPolicyReason) (detail : string) : ServerError :=
  SPolicy (reason_code reason +:+ ": " +:+ detail).

Definition invalid_payload (detail : string) : ServerError := policy_error InvalidPayload detail.

Definition ensure_evolution_proposal_reachable (tier : SelfEvolutionTier) (target : EvolutionTargetClass)
    : ServerResult EvolutionPolicyDecision :=
  let decision := decide_evolution_target tier target in
  match decision_outcome decision with
  | Denied =>
      Err (policy_error (default InsufficientTier (decision_reason decision))
             ("tier " +:+ tier_as_str tier +:+ " cannot propose target " +:+ class_as_str target))
  | _ => Ok decision
  end.

Definition wire {A} (prefix : string) (r : WireResult A) : ServerResult A :=
  match r with
  | inl e => Err (invalid_payload (prefix +:+ wire_error_text e))
  | inr a => Ok a
  end.

Section Evolution.
Context `{RegexEngine} `{JsonNumber} `{!JsonText} `{Sha256} `{UuidText} `{!MetadataCodec}.

(** The keys of a [serde_json] map are sorted, so that sorting its entries before
    they are inserted again changes nothing. *)
Fixpoint canonicalize_json (value : Json) : Json :=
  match value with
  | JArray values => JArray (List.map canonicalize_json values)
  | JObject map => JObject (bm_from (List.map (fun '(k, v) => (k, canonicalize_json v)) map))
  | JNull | JBool _ | JNumber _ | JString _ => value
  end.

(** The content is the JSON value [serde_json::to_value] makes of the candidate. *)
Definition evolution_content_digest (content : Json) : ServerResult string :=
  let value := canonicalize_json (fst (redact_json_value content)) in
  wire "candidate digest failed: " (EvolutionDigest_new ("sha256:" +:+ sha256_hex (json_text value))).

Definition evolution_effect_metadata (tier : SelfEvolutionTier) (class : EvolutionTargetClass)
    (target actor : string) (session_id : Uuid) (dream_id : option Uuid) (content : Json)
    : ServerResult EvolutionEffectMetadata :=
  decision ← ensure_evolution_proposal_reachable tier class;
  target ← wire "invalid target id: " (EvolutionTargetId_new target);
  actor ← wire "invalid actor id: " (EvolutionActorId_new actor);
  digest ← evolution_content_digest content;
  mret (mkMetadata EVOLUTION_WIRE_VERSION tier decision (mkOrigin actor session_id dream_id)
          (mkTarget class target) digest).

(** ** Audit *)

Definition read_metadata (value : Json) : ServerResult EvolutionEffectMetadata :=
  match metadata_from_value value with
  | inl error => Err (invalid_payload ("invalid evolution metadata: " +:+ error))
  | inr metadata =>
      if negb (meta_version metadata =? EVOLUTION_WIRE_VERSION)%N
      then Err (invalid_payload ("unsupported evolution effect version " +:+ display_u64 (meta_version metadata)))
      else Ok metadata
  end.

(** [id] is the new identifier of the record. *)
Definition evolution_audit_record (id : Uuid) (payload : Json) (approval_id effect_id : Uuid)
    (status : EvolutionAuditStatus) (occurred_at : DateTime) (error_code : option EvolutionPolicyReason)
    : ServerResult (option EvolutionAuditRecord) :=
  match json_get "evolution" payload with
  | None => Ok None
  | Some value =>
      metadata ← read_metadata value;
      match uuid_parse (target_id (meta_target metadata)) with
      | None =>
          Err (invalid_payload ("target id is not a proposal UUID: "
                                  +:+ uuid_parse_error (target_id (meta_target metadata))))
      | Some proposal_id =>
          Ok (Some (mkAudit (meta_version metadata) id proposal_id (meta_origin metadata)
                      (meta_target metadata) (meta_content_digest metadata)
                      (meta_configured_tier metadata) (meta_decision metadata)
                      (Some approval_id) (Some effect_id) status occurred_at occurred_at error_code))
      end
  end.

Definition denied_evolution_audit_record (id : Uuid) (tier : SelfEvolutionTier)
    (class : EvolutionTargetClass) (target actor : string) (session_id : Uuid)
    (dream_id : option Uuid) (content : Json) (occurred_at : DateTime)
    : ServerResult EvolutionAuditRecord :=
  target ← wire "invalid target id: " (EvolutionTargetId_new target);
  match uuid_parse target with
  | None => Err (invalid_payload ("target id is not a proposal UUID: " +:+ uuid_parse_error target))
  | Some proposal_id =>
      actor ← wire "invalid actor id: " (EvolutionActorId_new actor);
      let decision := decide_evolution_target tier class in
      match decision_outcome decision with
      | Denied =>
          digest ← evolution_content_digest content;
          mret (mkAudit EVOLUTION_WIRE_VERSION id proposal_id (mkOrigin actor session_id dream_id)
                  (mkTarget class target) digest tier decision None None AuditDenied
                  occurred_at occurred_at (decision_reason decision))
      | _ =>
          Err (invalid_payload ("tier " +:+ tier_as_str tier +:+ " does not deny target " +:+ class_as_str class))
      end
  end.

Definition evolution_policy_error_code (error : string) : option EvolutionPolicyReason :=
  find_first (fun reason => str_contains (reason_code reason) error)
    [DisabledTier; InsufficientTier; UnsupportedAggressive; UnknownTarget; ReasonApprovalRequired;
     StaleApproval; InvalidPayload].

Definition audit_status_from_approval (status : string) : ServerResult EvolutionAuditStatus :=
  if String.eqb status "approved" then Ok AuditApproved
  else if String.eqb status "denied" then Ok AuditDenied
  else if String.eqb status "timed_out" then Ok AuditTimedOut
  else if String.eqb status "cancelled" then Ok AuditSuperseded
  else Err (invalid_payload ("unsupported approval audit status " +:+ status)).

(** ** Verification before an approved change is applied *)

Definition verify_evolution_effect (current_tier : SelfEvolutionTier) (payload : Json)
    (expected_class : EvolutionTargetClass) (expected_id expected_digest : string) (review_only : bool)
    : ServerResult unit :=
  match json_get "evolution" payload with
  | None => Err (invalid_payload "effect is missing evolution metadata")
  | Some value =>
      metadata ← read_metadata value;
      if negb (bool_decide (target_class (meta_target metadata) = expected_class))
         || negb (String.eqb (target_id (meta_target metadata)) expected_id)
      then Err (invalid_payload ("effect target does not match payload-derived "
                                   +:+ class_as_str expected_class +:+ ":" +:+ expected_id))
      else if negb (String.eqb (meta_content_digest metadata) expected_digest)
      then Err (invalid_payload "effect content digest does not match payload-derived candidate")
      else
        match decision_outcome (decide_evolution_target (meta_configured_tier metadata) expected_class) with
        | Denied =>
            Err (invalid_payload ("effect was created under tier "
                                    +:+ tier_as_str (meta_configured_tier metadata)
                                    +:+ " without target authority"))
        | _ =>
            let current := decide_evolution_target current_tier expected_class in
            if negb (bool_decide (decision_outcome current = Allowed))
               && negb (review_only && bool_decide (decision_outcome current = ApprovalRequired))
            then Err (policy_error (default InsufficientTier (decision_reason current))
                        ("tier " +:+ tier_as_str current_tier +:+ " cannot apply target "
                           +:+ class_as_str expected_class))
            else Ok tt
        end
  end.

Definition verify_approved_evolution_effect (tier : SelfEvolutionTier) (payload : Json)
    (class : EvolutionTargetClass) (id digest : string) : ServerResult unit :=
  verify_evolution_effect tier payload class id digest false.

Definition verify_approved_review_effect (tier : SelfEvolutionTier) (payload : Json)
    (class : EvolutionTargetClass) (id digest : string) : ServerResult unit :=
  verify_evolution_effect tier payload class id digest true.
End Evolution.

(** ** What the policy grants

    Memory and skills can change under every tier but [Off]; the persona and the
    modes only under [Moderate], and only through a review. *)
Definition may_propose (tier : SelfEvolutionTier) (class : EvolutionTargetClass) : bool :=
  match class with
  | ProfileFact | ScopedMemory | SkillProposal => negb (bool_decide (tier = Off))
  | PersonaProposal | ModeProposal => bool_decide (tier = Moderate)
  end.

Definition may_apply (tier : SelfEvolutionTier) (class : EvolutionTargetClass) (review_only : bool) : bool :=
  match class with
  | ProfileFact | ScopedMemory | SkillProposal => negb (bool_decide (tier = Off))
  | PersonaProposal | ModeProposal => review_only && bool_decide (tier = Moderate)
  end.

Section EvolutionFacts.
Context `{RegexEngine} `{JsonNumber} `{!JsonText} `{Sha256} `{UuidText} `{!MetadataCodec}.

Lemma read_metadata_ok value metadata :
  read_metadata value = Ok metadata <->
  metadata_from_value value = inr metadata /\ meta_version metadata = EVOLUTION_WIRE_VERSION.
Proof.
  unfold read_metadata. destruct (metadata_from_value value) as [error|m]; [naive_solver|].
  destruct (N.eqb_spec (meta_version m) EVOLUTION_WIRE_VERSION); naive_solver.
Qed.

(** Whether the audit of a payload succeeds. *)
Definition auditable (payload : Json) : Prop :=
  match json_get "evolution" payload with
  | None => True
  | Some value =>
      exists metadata, read_metadata value = Ok metadata
        /\ is_Some (uuid_parse (target_id (meta_target metadata)))
  end.

(** The audit of a payload depends on nothing but the metadata in it. *)
Lemma audit_succeeds payload :
  auditable payload <->
  forall id approval effect status at_ code,
    exists entry, evolution_audit_record id payload approval effect status at_ code = Ok entry.
Proof.
  unfold auditable, evolution_audit_record. split.
  - intros Ha id approval effect status at_ code. destruct (json_get "evolution" payload) as [value|]; [|by eexists].
    destruct Ha as (metadata & -> & proposal & Hp). cbn. rewrite Hp. by eexists.
  - intros Hall. destruct (Hall 0%N 0%N 0%N AuditApplied 0%Z None) as [entry He].
    destruct (json_get "evolution" payload) as [value|]; [|done].
    destruct (read_metadata value) as [metadata| | |]; cbn in He; try done.
    exists metadata. split; [done|]. by destruct (uuid_parse _); [eexists|].
Qed.

Lemma audit_ok_auditable id payload approval effect status at_ code entry :
  evolution_audit_record id payload approval effect status at_ code = Ok entry -> auditable payload.
Proof.
  unfold auditable, evolution_audit_record. destruct (json_get "evolution" payload) as [value|]; [|done].
  destruct (read_metadata value) as [metadata| | |]; cbn; try done.
  destruct (uuid_parse _) eqn:Hp; [|done]. intros _. exists metadata. split; [done|]. by rewrite Hp.
Qed.

(** A change that was approved passes the check before it is applied exactly
    when the metadata in the payload is of this version and names the target and the
    content that are about to be applied, the tier under which it was created could
    propose the target, and the tier in force now lets it be applied: nothing under
    [Off], persona and modes only by review under [Moderate]. *)
Lemma approved_effect_verified tier payload class id digest review_only :
  verify_evolution_effect tier payload class id digest review_only = Ok tt <->
  exists value metadata,
    json_get "evolution" payload = Some value
    /\ metadata_from_value value = inr metadata
    /\ meta_version metadata = EVOLUTION_WIRE_VERSION
    /\ meta_target metadata = mkTarget class id
    /\ meta_content_digest metadata = digest
    /\ may_propose (meta_configured_tier metadata) class = true
    /\ may_apply tier class review_only = true.
Proof.
  unfold verify_evolution_effect. destruct (json_get "evolution" payload) as [value|]; [|naive_solver].
  destruct (read_metadata value) as [metadata|e| |] eqn:Hr; cbn;
    [|split; [done|]; intros (? & m & [= <-] & Hm & Hv & _);
      by rewrite (proj2 (read_metadata_ok _ _) (conj Hm Hv)) in Hr..].
  apply read_metadata_ok in Hr as [Hm Hv].
  destruct metadata as [version creation decision origin [tclass tid] mdigest]; cbn in *.
  transitivity (tclass = class /\ tid = id /\ mdigest = digest
                /\ may_propose creation class = true /\ may_apply tier class review_only = true);
    [|split; [naive_solver|]; intros (? & m & [= <-] & Hm' & Hrest); rewrite Hm' in Hm; naive_solver].
  case_bool_decide as Hc; cbn; [|naive_solver].
  destruct (String.eqb_spec tid id) as [->|]; cbn; [|naive_solver].
  destruct (String.eqb_spec mdigest digest) as [->|]; cbn; [|naive_solver]. subst tclass.
  by destruct creation, class, tier, review_only; cbn; naive_solver.
Qed.
End EvolutionFacts.
