(* ===== verification/StoreModel.v ===== *)
(** * The tables of the server's store ([tm-server/src/store/models],
    [tm-memory/src/dream.rs], [Inner] of store/in_memory.rs)

    Records have the fields of the structs, with the name of the struct in front
    where several structs have a field of that name.  A status is a string where
    the code keeps a string.  [Inner] has the tables of the operations modelled;
    those of memory records, projects, pools, skills and evolution reviews are left
    out, and no operation here reads them. *)

From coqutil Require Import Datatypes.RecordSetters.
From stdpp Require Import base tactics list strings gmap.
From Stdlib Require Import NArith ZArith Lia.
From S2P Require Import Prelude BTree Text Strings Value Vecs Redaction ServerBase Evolution.

(** ** Sessions *)

Inductive MemoryPolicy := Global | Project.

Definition MemoryPolicy_as_str (p : MemoryPolicy) : string :=
  match p with Global => "global" | Project => "project" end.

Definition MemoryPolicy_from_str (value : string) : ServerResult MemoryPolicy :=
  if String.eqb value "global" then Ok Global
  else if String.eqb value "project" then Ok Project
  else Err (SStore ("unknown memory policy " +:+ value)).

(** [tm_modes::AssetStatus]; a mode id is its string. *)
Inductive AssetStatus := Loaded (path : string) | Degraded (warning : string).

Record ModeState := mkModeState {
  state_mode : string;
  router_reason : option string;
  lock_source : option string;
  override_source : option string;
  state_updated_at : DateTime;
}.

Definition ModeState_new (mode : string) (updated_at : DateTime) : ModeState :=
  mkModeState mode None None None updated_at.

Record SessionRecord := mkSessionRecord {
  session_id : Uuid;
  session_created_at : DateTime;
  session_updated_at : DateTime;
  session_status : string;
  session_mode : string;
  mode_state : ModeState;
  persona_status : AssetStatus;
  owner_subject : string;
  project_id : option string;
  memory_policy : MemoryPolicy;
}.

Definition memory_scope (s : SessionRecord) : string :=
  match memory_policy s with
  | Global => "global"
  | Project => "project:" +:+ default "" (project_id s)
  end.

Record NewSession := mkNewSession { new_mode : string; new_persona_status : AssetStatus }.

(** ** Messages and turns *)

Record MessageRecord := mkMessage {
  message_session_id : Uuid;
  message_seq : Z;
  message_role : string;
  message_content : string;
  message_turn_id : option Uuid;
  message_created_at : DateTime;
}.

Record SessionTurnRecord := mkTurn {
  turn_id : Uuid;
  turn_session_id : Uuid;
  client_message_id : string;
  turn_content : string;
  content_hash : string;
  turn_status : string;
  turn_created_at : DateTime;
  turn_updated_at : DateTime;
  turn_started_at : option DateTime;
  turn_completed_at : option DateTime;
  turn_worker_id : option Uuid;
  turn_error : option string;
}.

(** ** Dreams *)

Inductive DreamReason := SessionEnded | ManualReflect | Scheduled.

Definition DreamReason_as_str (r : DreamReason) : string :=
  match r with
  | SessionEnded => "session_ended"
  | ManualReflect => "manual_reflect"
  | Scheduled => "scheduled"
  end.

Inductive DreamStatus := DreamQueued | DreamRunning | DreamCompleted | DreamFailed.

#[global] Instance dream_status_eq_dec : EqDecision DreamStatus. Proof. solve_decision. Defined.

Definition DreamStatus_as_str (s : DreamStatus) : string :=
  match s with
  | DreamQueued => "queued"
  | DreamRunning => "running"
  | DreamCompleted => "completed"
  | DreamFailed => "failed"
  end.

Record DreamQueueRecord := mkDream {
  dream_id : Uuid;
  dream_session_id : Uuid;
  dream_subject : string;
  dream_scope : string;
  dream_reason : DreamReason;
  dream_status : DreamStatus;
  dream_dedupe_key : string;
  dream_source_event_seq : option Z;
  dream_attempts : Z;
  dream_enqueued_at : DateTime;
  dream_available_at : DateTime;
  dream_locked_at : option DateTime;
  dream_lease_owner : option Uuid;
  dream_lease_epoch : Z;
  dream_heartbeat_at : option DateTime;
  dream_completed_at : option DateTime;
  dream_error_at : option DateTime;
  dream_last_error : option string;
}.

Record DreamLease := mkDreamLease {
  lease_dream : DreamQueueRecord;
  dream_owner_id : Uuid;
  dream_epoch : Z;
}.

Record NewDreamQueueRecord := mkNewDream {
  new_session_id : Uuid;
  new_subject : string;
  new_scope : string;
  new_reason : DreamReason;
  new_dedupe_key : string;
  new_source_event_seq : option Z;
  new_available_at : DateTime;
}.

Fixpoint join_words (ws : list string) : string :=
  match ws with
  | [] => ""
  | [w] => w
  | w :: ws' => w +:+ " " +:+ join_words ws'
  end.

Definition clean_or_default (value fallback : string) : string :=
  let cleaned := join_words (split_whitespace value) in
  if is_empty cleaned then fallback else cleaned.

Definition session_end `{UuidText} (session_id : Uuid) (subject scope : string)
    (source_event_seq : option Z) (now : DateTime) : NewDreamQueueRecord :=
  mkNewDream session_id (clean_or_default subject "brian") (clean_or_default scope "global") SessionEnded
    ("dream:" +:+ DreamReason_as_str SessionEnded +:+ ":" +:+ uuid_text session_id)
    source_event_seq now.

(** ** Scheduled jobs *)

Record CronJobRecord := mkCronJob {
  job_id : string;
  job_name : string;
  job_schedule : string;
  job_enabled : bool;
  job_cron_mode : string;
  job_max_turns : Z;
  job_script_timeout_seconds : Z;
  job_next_run_at : option DateTime;
  job_updated_at : DateTime;
}.

Record NewCronJobRecord := mkNewCronJob {
  new_job_id : string;
  new_job_name : string;
  new_job_schedule : string;
  new_job_enabled : bool;
  new_job_cron_mode : string;
  new_job_max_turns : Z;
  new_job_script_timeout_seconds : Z;
  new_job_next_run_at : option DateTime;
}.

Section Records.
Context `{JsonNumber}.

(** ** Events *)

Record SessionEventOutputRefs := mkOutputRefs {
  refs_actor_id : option string;
  refs_artifact_uri : option string;
  refs_history_uri : option string;
}.

Definition payload_string (payload : Json) (snake_key camel_key : string) : option string :=
  (match json_get snake_key payload with
   | Some v => Some v
   | None => json_get camel_key payload
   end) ≫= json_as_str.

Definition from_payload (event_type : string) (payload : Json) : SessionEventOutputRefs :=
  if negb (String.eqb event_type "actor_completed" || String.eqb event_type "actor_resources_linked")
  then mkOutputRefs None None None
  else
    let artifact_uri := payload_string payload "artifact_uri" "artifactUri" in
    let history_uri := payload_string payload "history_uri" "historyUri" in
    match artifact_uri, history_uri with
    | None, None => mkOutputRefs None None None
    | _, _ => mkOutputRefs (payload_string payload "actor_id" "actorId") artifact_uri history_uri
    end.

Record SessionEvent := mkEvent {
  event_session_id : Uuid;
  event_seq : Z;
  event_type : string;
  event_payload : Json;
  event_actor_id : option string;
  event_artifact_uri : option string;
  event_history_uri : option string;
  event_turn_id : option Uuid;
  event_created_at : DateTime;
}.

Definition SessionEvent_new `{RegexEngine} (session_id : Uuid) (seq : Z) (event_type : string)
    (payload : Json) (created_at : DateTime) : SessionEvent :=
  let payload := fst (redact_json_value payload) in
  let refs := from_payload event_type payload in
  mkEvent session_id seq event_type payload (refs_actor_id refs) (refs_artifact_uri refs)
    (refs_history_uri refs) None created_at.

(** ** Runs of scheduled jobs *)

Record CronRunRecord := mkCronRun {
  run_id : Uuid;
  run_job_id : string;
  run_scheduled_for : DateTime;
  run_status : string;
  run_session_id : option Uuid;
  run_started_at : DateTime;
  run_completed_at : option DateTime;
  run_attempts : Z;
  run_available_at : DateTime;
  run_locked_at : option DateTime;
  run_lease_owner : option Uuid;
  run_lease_epoch : Z;
  run_last_error : option string;
  run_result_json : Json;
}.

Record NewCronRunRecord := mkNewCronRun {
  new_run_job_id : string;
  new_run_scheduled_for : DateTime;
  new_run_status : string;
  new_run_session_id : option Uuid;
  new_run_result_json : Json;
}.

Record CronLease := mkCronLease {
  lease_run : CronRunRecord;
  cron_owner_id : Uuid;
  cron_epoch : Z;
}.

(** ** Approvals and their effects *)

Record ApprovalRequestRecord := mkApproval {
  approval_id : Uuid;
  approval_session_id : Uuid;
  approval_turn_id : option Uuid;
  requester_id : Uuid;
  approval_origin : string;
  approval_action : string;
  scope_json : Json;
  options_json : Json;
  approval_status : string;
  resumable : bool;
  approval_created_at : DateTime;
  expires_at : DateTime;
  heartbeat_at : DateTime;
  resolved_at : option DateTime;
  selected_option_id : option string;
  resolution_json : option Json;
  request_event_seq : option Z;
  resolution_event_seq : option Z;
  resolution_version : Z;
}.

Record NewApprovalRequest := mkNewApproval {
  req_id : Uuid;
  req_session_id : Uuid;
  req_turn_id : option Uuid;
  req_requester_id : Uuid;
  req_origin : string;
  req_action : string;
  req_scope_json : Json;
  req_options_json : Json;
  req_effect_type : string;
  req_effect_payload_json : Json;
  req_resumable : bool;
  req_created_at : DateTime;
  req_expires_at : DateTime;
}.

Record NewApprovalResolution := mkResolution {
  res_status : string;
  res_selected_option_id : option string;
  res_resolution_json : Json;
  res_resolved_at : DateTime;
}.

Record ApprovalEffectRecord := mkEffect {
  effect_id : Uuid;
  effect_approval_id : Uuid;
  effect_session_id : Uuid;
  effect_type : string;
  effect_payload : Json;
  effect_status : string;
  effect_attempts : Z;
  effect_available_at : DateTime;
  effect_locked_at : option DateTime;
  effect_lease_owner : option Uuid;
  effect_lease_epoch : Z;
  effect_applied_at : option DateTime;
  effect_error_at : option DateTime;
  effect_last_error : option string;
  effect_created_at : DateTime;
  effect_updated_at : DateTime;
}.

Record ApprovalEffectLease := mkEffectLease {
  lease_effect : ApprovalEffectRecord;
  effect_owner_id : Uuid;
  effect_epoch : Z;
}.

Record EvolutionAuditEntry := mkAuditEntry {
  idempotency_key : string;
  audit_record : EvolutionAuditRecord;
}.

(** ** The tables *)

Record Inner := mkInner {
  configured_owner_subject : option string;
  sessions : gmap Uuid SessionRecord;
  events : gmap Uuid (list SessionEvent);
  messages : gmap Uuid (list MessageRecord);
  turns : list SessionTurnRecord;
  approval_requests : list ApprovalRequestRecord;
  approval_effects : list ApprovalEffectRecord;
  evolution_audits : list EvolutionAuditEntry;
  dream_queue : list DreamQueueRecord;
  cron_jobs : list CronJobRecord;
  cron_runs : list CronRunRecord;
}.

Definition inner_default : Inner := mkInner None ∅ ∅ ∅ [] [] [] [] [] [] [].

End Records.

(** Calls on the tables. *)
Abbreviation Call := (Tx Inner).

(** ** What is checked before anything is persisted *)

Section Persistence.
Context `{RegexEngine} `{JsonNumber} `{Sha256}.

Definition turn_content_hash (content : string) : string := sha256_hex content.

Definition redact_persisted_text (content : string) : string := report_text (redact_dream_text content).

Definition redact_persisted_json (payload : Json) : Json := fst (redact_json_value payload).

Fixpoint reject_sensitive_persistence_fields (fields : list (string * string)) : ServerResult unit :=
  match fields with
  | [] => Ok tt
  | (field, value) :: fields' =>
      if contains_sensitive_data value
      then Err (SInvalidRequest (field +:+ " contains sensitive data"))
      else reject_sensitive_persistence_fields fields'
  end.

Definition validate_persistence_identifier (field value : string) : ServerResult unit :=
  reject_sensitive_persistence_fields [(field, value)].

Definition sanitize_cron_job_persistence (job : NewCronJobRecord) : ServerResult NewCronJobRecord :=
  reject_sensitive_persistence_fields
    [("cron job id", new_job_id job); ("cron schedule", new_job_schedule job);
     ("cron mode", new_job_cron_mode job)]%string;;
  mret (mkNewCronJob (new_job_id job) (redact_persisted_text (new_job_name job)) (new_job_schedule job)
          (new_job_enabled job) (new_job_cron_mode job) (new_job_max_turns job)
          (new_job_script_timeout_seconds job) (new_job_next_run_at job)).

Definition sanitize_cron_run_persistence (run : NewCronRunRecord) : ServerResult NewCronRunRecord :=
  reject_sensitive_persistence_fields
    [("cron run job id", new_run_job_id run); ("cron run status", new_run_status run)]%string;;
  mret (mkNewCronRun (new_run_job_id run) (new_run_scheduled_for run) (new_run_status run)
          (new_run_session_id run) (redact_persisted_json (new_run_result_json run))).

Definition sanitize_approval_request_persistence (request : NewApprovalRequest)
    : ServerResult NewApprovalRequest :=
  validate_persistence_identifier "approval origin" (req_origin request);;
  validate_persistence_identifier "approval effect type" (req_effect_type request);;
  let request := mkNewApproval (req_id request) (req_session_id request) (req_turn_id request)
    (req_requester_id request) (req_origin request) (redact_persisted_text (req_action request))
    (redact_persisted_json (req_scope_json request)) (redact_persisted_json (req_options_json request))
    (req_effect_type request) (redact_persisted_json (req_effect_payload_json request))
    (req_resumable request) (req_created_at request) (req_expires_at request) in
  if is_empty (trim (req_origin request)) || is_empty (trim (req_action request))
  then Err (SInvalidRequest "approval origin and action must not be empty")
  else if negb (json_is_array (req_options_json request))
  then Err (SInvalidRequest "approval options must be an array")
  else if is_empty (trim (req_effect_type request))
  then Err (SInvalidRequest "approval effect type must not be empty")
  else if (req_expires_at request <=? req_created_at request)%Z
  then Err (SInvalidRequest "approval expiry must be after creation")
  else Ok request.
End Persistence.
