(* ===== verification/StoreSessions.v ===== *)
(** * Sessions, messages, events and turns ([store/in_memory.rs], lines 159-908)

    One definition per method of the trait [Store].  Every method holds the lock of
    the tables while it runs; those that look up the session in a critical section of
    their own first are one call here, since a session is never removed.  The clock and
    new identifiers are arguments. *)

From coqutil Require Import Datatypes.RecordSetters.
From stdpp Require Import base tactics list strings gmap sorting.
From Stdlib Require Import NArith ZArith Lia.
From S2P Require Import Prelude BTree Text Strings Value Vecs Redaction ServerBase Evolution StoreModel.
Import DoubleBraceUpdate.

Section Sessions.
Context `{RegexEngine} `{JsonNumber} `{Sha256} `{UuidText} `{Chrono}.

Definition session_missing (session_id : Uuid) : ServerError :=
  SNotFound ("session " +:+ uuid_text session_id).
Definition session_has_ended (session_id : Uuid) : ServerError :=
  SConflict ("session " +:+ uuid_text session_id +:+ " has ended").
Definition session_busy (session_id : Uuid) : ServerError :=
  SConflict ("session " +:+ uuid_text session_id +:+ " has queued or running turns").
Definition turn_missing (id : Uuid) : ServerError := SNotFound ("turn " +:+ uuid_text id).
Definition turn_not_owned (id worker : Uuid) : ServerError :=
  SConflict ("turn " +:+ uuid_text id +:+ " is not owned by worker " +:+ uuid_text worker).

(** ** Sessions *)

Definition create_session (new : NewSession) (id : Uuid) (now : DateTime) : Call SessionRecord :=
  configured ← reads configured_owner_subject;
  let session := mkSessionRecord id now now "open" (new_mode new) (ModeState_new (new_mode new) now)
                   (new_persona_status new) (default "brian" configured) None Global in
  writes (fun i => i {{ sessions ::= <[id := session]> }});;
  mret session.

Definition owner_subject_ : Call string := reads (fun i => default "brian" (configured_owner_subject i)).

(** The sessions in the order of their identifiers: [BTreeMap::values]. *)
Definition key_le (a b : Uuid * SessionRecord) : Prop := (a.1 <= b.1)%N.
#[global] Instance key_le_dec : RelDecision key_le.
Proof. unfold key_le. intros a b. apply _. Defined.

Definition session_values (m : gmap Uuid SessionRecord) : list SessionRecord :=
  (merge_sort key_le (map_to_list m)).*2.

Definition owner_conflicts (owner : string) (i : Inner) : bool :=
  let values := session_values (sessions i) in
  match configured_owner_subject i with
  | Some configured =>
      negb (String.eqb configured owner)
      || existsb (fun s => negb (String.eqb (owner_subject s) owner)) values
  | None =>
      existsb (fun s => negb (String.eqb (owner_subject s) "owner" || String.eqb (owner_subject s) "brian")
                        && negb (String.eqb (owner_subject s) owner)) values
  end.

Definition configure_owner_subject (owner : string) (now : DateTime) : Call nat :=
  let owner := trim owner in
  ensure (negb (is_empty owner)) (SInvalidRequest "owner subject must not be empty");;
  lift (validate_persistence_identifier "owner subject" owner);;
  conflict ← reads (owner_conflicts owner);
  ensure (negb conflict) (SConflict "server is already configured for a different owner subject");;
  updated ← reads (fun i =>
    count_where (fun s => negb (String.eqb (owner_subject s) owner)) (session_values (sessions i)));
  writes (fun i => i {{ configured_owner_subject := Some owner;
    sessions ::= fmap (fun s =>
      if negb (String.eqb (owner_subject s) owner)
      then s {{ owner_subject := owner; session_updated_at := now }} else s) }});;
  mret updated.

Definition get_session (session_id : Uuid) : Call SessionRecord :=
  session ← reads (fun i => sessions i !! session_id);
  or_refuse session (session_missing session_id).

(** [inner.sessions.get_mut(&session_id)] followed by an update. *)
Definition update_session (session_id : Uuid) (f : SessionRecord -> SessionRecord) : Call unit :=
  writes (fun i => i {{ sessions ::= alter f session_id }}).

(** [if let Some(session) = .. { session.updated_at = now }]. *)
Definition touch_session (session_id : Uuid) (now : DateTime) : Call unit :=
  update_session session_id (fun s => s {{ session_updated_at := now }}).

Definition set_session_memory_context (session_id : Uuid) (project : option string)
    (policy : MemoryPolicy) (now : DateTime) : Call SessionRecord :=
  match project with
  | Some p => lift (validate_persistence_identifier "project id" p)
  | None => mret tt
  end;;
  session ← get_session session_id;
  ensure (negb (String.eqb (session_status session) "ended")) (session_has_ended session_id);;
  update_session session_id (fun s =>
    s {{ project_id := project; memory_policy := policy; session_updated_at := now }});;
  get_session session_id.

(** A turn that is not over. *)
Definition is_pending (status : string) : bool := String.eqb status "queued" || String.eqb status "running".

Definition session_has_pending (session_id : Uuid) (i : Inner) : bool :=
  existsb (fun t => (turn_session_id t =? session_id)%N && is_pending (turn_status t)) (turns i).

Definition end_session (session_id : Uuid) (now : DateTime) : Call SessionRecord :=
  get_session session_id;;
  pending ← reads (session_has_pending session_id);
  ensure (negb pending) (session_busy session_id);;
  update_session session_id (fun s => s {{ session_status := "ended"; session_updated_at := now }});;
  get_session session_id.

Definition set_mode_state (session_id : Uuid) (state : ModeState) (now : DateTime) : Call SessionRecord :=
  get_session session_id;;
  update_session session_id (fun s =>
    s {{ session_mode := state_mode state; mode_state := state; session_updated_at := now }});;
  get_session session_id.

(** ** Messages and events *)

Definition messages_of (session_id : Uuid) (i : Inner) : list MessageRecord :=
  default [] (messages i !! session_id).
Definition events_of (session_id : Uuid) (i : Inner) : list SessionEvent :=
  default [] (events i !! session_id).

(** [entry(session_id).or_default()] and [push]. *)
Definition set_messages (session_id : Uuid) (ms : list MessageRecord) : Call unit :=
  writes (fun i => i {{ messages ::= <[session_id := ms]> }}).
Definition set_events (session_id : Uuid) (es : list SessionEvent) : Call unit :=
  writes (fun i => i {{ events ::= <[session_id := es]> }}).

(** The sequence number of the next entry: [len() as i64 + 1]. *)
Definition next_seq {A} (l : list A) : Z := Z.of_nat (length l) + 1.

Definition turn_in_session (id session_id : Uuid) (i : Inner) : bool :=
  existsb (fun t => (turn_id t =? id)%N && (turn_session_id t =? session_id)%N) (turns i).

Definition check_turn (turn : option Uuid) (session_id : Uuid) : Call unit :=
  match turn with
  | Some id => known ← reads (turn_in_session id session_id); ensure known (turn_missing id)
  | None => mret tt
  end.

Definition has_message (turn : Uuid) (role : string) (ms : list MessageRecord) : bool :=
  existsb (fun m => bool_decide (message_turn_id m = Some turn) && String.eqb (message_role m) role) ms.

Definition session_messages (session_id : Uuid) : Call (list MessageRecord) :=
  get_session session_id;;
  reads (messages_of session_id).

Definition append_message_for_turn (session_id : Uuid) (role content : string) (turn : option Uuid)
    (now : DateTime) : Call MessageRecord :=
  lift (validate_persistence_identifier "message role" role);;
  get_session session_id;;
  match turn with
  | Some id =>
      check_turn turn session_id;;
      taken ← reads (fun i => has_message id role (messages_of session_id i));
      ensure (negb taken)
        (SConflict ("turn " +:+ uuid_text id +:+ " already has a " +:+ role +:+ " message"))
  | None => mret tt
  end;;
  ms ← reads (messages_of session_id);
  let message := mkMessage session_id (next_seq ms) role (redact_persisted_text content) turn now in
  set_messages session_id (ms ++ [message]);;
  touch_session session_id now;;
  mret message.

Definition append_message (session_id : Uuid) (role content : string) (now : DateTime) : Call MessageRecord :=
  append_message_for_turn session_id role content None now.

Definition append_event_for_turn (session_id : Uuid) (type : string) (payload : Json)
    (turn : option Uuid) (now : DateTime) : Call SessionEvent :=
  lift (validate_persistence_identifier "event type" type);;
  get_session session_id;;
  check_turn turn session_id;;
  es ← reads (events_of session_id);
  let event := (SessionEvent_new session_id (next_seq es) type payload now) {{ event_turn_id := turn }} in
  set_events session_id (es ++ [event]);;
  touch_session session_id now;;
  mret event.

Definition append_event (session_id : Uuid) (type : string) (payload : Json) (now : DateTime)
    : Call SessionEvent :=
  append_event_for_turn session_id type payload None now.

Definition append_event_for_turn_once (session_id : Uuid) (type : string) (payload : Json)
    (turn : Uuid) (now : DateTime) : Call (SessionEvent * bool) :=
  lift (validate_persistence_identifier "event type" type);;
  get_session session_id;;
  check_turn (Some turn) session_id;;
  es ← reads (events_of session_id);
  set_events session_id es;;
  match find_first (fun e => bool_decide (event_turn_id e = Some turn) && String.eqb (event_type e) type) es with
  | Some existing => mret (existing, false)
  | None =>
      let event := (SessionEvent_new session_id (next_seq es) type payload now) {{ event_turn_id := Some turn }} in
      set_events session_id (es ++ [event]);;
      touch_session session_id now;;
      mret (event, true)
  end.

(** The counters of [skill_runtime_stats], a table of their own, are left out. *)
Definition record_skill_exposures_for_turn (session_id turn : Uuid) (skills : list (string * string))
    (now : DateTime) : Call (SessionEvent * bool) :=
  let payload := json_object [("skills"%string, JArray (List.map (fun '(name, digest) =>
    json_object [("name"%string, JString name); ("digest"%string, JString digest)]) skills))] in
  get_session session_id;;
  check_turn (Some turn) session_id;;
  es ← reads (events_of session_id);
  set_events session_id es;;
  match find_first (fun e => bool_decide (event_turn_id e = Some turn)
                             && String.eqb (event_type e) "skill_selected") es with
  | Some existing => mret (existing, false)
  | None =>
      let event := (SessionEvent_new session_id (next_seq es) "skill_selected" payload now)
                     {{ event_turn_id := Some turn }} in
      set_events session_id (es ++ [event]);;
      touch_session session_id now;;
      mret (event, true)
  end.

Definition events_after (session_id : Uuid) (last_event_id : option Z) : Call (list SessionEvent) :=
  get_session session_id;;
  es ← reads (events_of session_id);
  mret (List.filter (fun e => (default 0 last_event_id <? event_seq e)%Z) es).

(** ** Turns *)

Definition enqueue_turn (session_id : Uuid) (client_id content : string) (id : Uuid) (now : DateTime)
    : Call SessionTurnRecord :=
  let client_id := trim client_id in
  ensure (negb (is_empty client_id || (128 <? length (chars client_id))%nat))
    (SInvalidRequest "client message id must contain 1 to 128 characters");;
  lift (validate_persistence_identifier "client message id" client_id);;
  ensure (negb (is_empty (trim content))) (SInvalidRequest "turn content must not be empty");;
  let hash := turn_content_hash content in
  let persisted := redact_persisted_text content in
  session ← get_session session_id;
  ensure (negb (String.eqb (session_status session) "ended")) (session_has_ended session_id);;
  existing ← reads (fun i =>
    find_first (fun t => (turn_session_id t =? session_id)%N && String.eqb (client_message_id t) client_id)
      (turns i));
  match existing with
  | Some existing =>
      ensure (String.eqb (content_hash existing) hash)
        (SConflict ("client message id " +:+ client_id +:+ " was already used with different content"));;
      mret existing
  | None =>
      let turn := mkTurn id session_id client_id persisted hash "queued" now now None None None None in
      ms ← reads (messages_of session_id);
      set_messages session_id
        (ms ++ [mkMessage session_id (next_seq ms) "user" persisted (Some id) now]);;
      writes (fun i => i {{ turns ::= (fun ts => ts ++ [turn]) }});;
      touch_session session_id now;;
      mret turn
  end.

(** [self.turn(id)], and with its position in the table. *)
Definition find_turn (id : Uuid) : Call (nat * SessionTurnRecord) :=
  found ← reads (fun i => find_at (fun t => (turn_id t =? id)%N) (turns i));
  or_refuse found (turn_missing id).

Definition turn (id : Uuid) : Call SessionTurnRecord := found ← find_turn id; mret found.2.

(** [inner.turns[index] = turn]. *)
Definition set_turn (index : nat) (turn : SessionTurnRecord) : Call unit :=
  writes (fun i => i {{ turns ::= <[index := turn]> }}).

(** The order of the claims: [(turn.created_at, turn.id)]. *)
Definition turn_before (a b : SessionTurnRecord) : bool :=
  ((turn_created_at a <? turn_created_at b)
   || ((turn_created_at a =? turn_created_at b) && (turn_id a <? turn_id b)%N))%Z.

Definition session_open_for_claims (i : Inner) (session_id : Uuid) : bool :=
  match sessions i !! session_id with
  | Some session => negb (String.eqb (session_status session) "ended")
  | None => false
  end.

Definition turn_claimable (i : Inner) (t : SessionTurnRecord) : bool :=
  String.eqb (turn_status t) "queued"
  && negb (existsb (fun r => String.eqb (turn_status r) "running" && (turn_session_id r =? turn_session_id t)%N)
             (turns i))
  && session_open_for_claims i (turn_session_id t).

Definition claim_next_turn (worker_id : Uuid) (now : DateTime) : Call (option SessionTurnRecord) :=
  next ← reads (fun i => min_at turn_before (turn_claimable i) (turns i));
  match next with
  | None => mret None
  | Some (index, t) =>
      let claimed := t {{ turn_status := "running"; turn_updated_at := Z.max (turn_updated_at t) now;
                          turn_started_at := Some now; turn_completed_at := None;
                          turn_worker_id := Some worker_id; turn_error := None }} in
      set_turn index claimed;;
      mret (Some claimed)
  end.

Definition turn_is_stale (stale_before : DateTime) (t : SessionTurnRecord) : bool :=
  String.eqb (turn_status t) "running" && (turn_updated_at t <=? stale_before)%Z.

Definition turn_failed (failed_at : DateTime) (error : string) (t : SessionTurnRecord) : SessionTurnRecord :=
  t {{ turn_status := "failed"; turn_updated_at := failed_at; turn_completed_at := Some failed_at;
       turn_error := Some (redact_persisted_text error) }}.

Definition fail_stale_running_turns (stale_before failed_at : DateTime) (error : string) : Call nat :=
  count ← reads (fun i => count_where (turn_is_stale stale_before) (turns i));
  writes (fun i => i {{ turns ::= update_where (turn_is_stale stale_before) (turn_failed failed_at error) }});;
  mret count.

Definition owned_by (worker_id : Uuid) (t : SessionTurnRecord) : bool :=
  String.eqb (turn_status t) "running" && bool_decide (turn_worker_id t = Some worker_id).

Definition heartbeat_turn (id worker_id : Uuid) (now : DateTime) : Call SessionTurnRecord :=
  found ← find_turn id;
  let '(index, t) := found in
  ensure (owned_by worker_id t) (turn_not_owned id worker_id);;
  let t := t {{ turn_updated_at := Z.max (turn_updated_at t) now }} in
  set_turn index t;;
  mret t.

Definition complete_turn (id worker_id : Uuid) (assistant_content : string) (completed_at : DateTime)
    : Call SessionTurnRecord :=
  found ← find_turn id;
  let '(index, t) := found in
  if String.eqb (turn_status t) "completed" then mret t
  else
    ensure (owned_by worker_id t) (turn_not_owned id worker_id);;
    let session_id := turn_session_id t in
    ms ← reads (messages_of session_id);
    set_messages session_id ms;;
    ensure (negb (has_message id "assistant" ms))
      (SConflict ("turn " +:+ uuid_text id +:+ " already has an assistant message"));;
    set_messages session_id
      (ms ++ [mkMessage session_id (next_seq ms) "assistant" (redact_persisted_text assistant_content)
                (Some id) completed_at]);;
    let t := t {{ turn_status := "completed"; turn_updated_at := completed_at;
                  turn_completed_at := Some completed_at; turn_error := None }} in
    set_turn index t;;
    touch_session session_id completed_at;;
    mret t.

Definition fail_turn (id worker_id : Uuid) (error : string) (failed_at : DateTime) : Call SessionTurnRecord :=
  found ← find_turn id;
  let '(index, t) := found in
  if String.eqb (turn_status t) "failed" then mret t
  else
    ensure (owned_by worker_id t) (turn_not_owned id worker_id);;
    let t := turn_failed failed_at error t in
    set_turn index t;;
    mret t.
End Sessions.
