(* ===== verification/StoreQueues.v ===== *)
(** * Dreams and scheduled runs ([store/in_memory.rs], lines 279-429, 2960-3191
    and 3944-4316)

    Both tables are queues of leased work: a claim takes a record whose time has
    come, or whose lease has expired, and hands out a lease with a new epoch; the
    holder heartbeats, completes or fails the record as long as its lease is the
    record's. *)

From coqutil Require Import Datatypes.RecordSetters.
From stdpp Require Import base tactics list strings gmap sorting.
From Stdlib Require Import NArith ZArith Lia.
From S2P Require Import Prelude BTree Text Strings Value ScopedMap Vecs Redaction ServerBase Evolution StoreModel StoreSessions.
Import DoubleBraceUpdate.

Section Queues.
Context `{RegexEngine} `{JsonNumber} `{Sha256} `{UuidText} `{Chrono} `{BuildProfile}.

(** [x += 1] of an [i32] or an [i64]. *)
Definition increment (w : Z) (x : Z) : Call Z :=
  if in_signed w (x + 1) then mret (x + 1)%Z
  else if debug_assertions then crash else mret (wrap_signed w (x + 1)).

(** [now - lease_timeout]. *)
Definition before (now : DateTime) (lease_timeout : Duration) : Call DateTime :=
  unwrap (datetime_sub now lease_timeout).

(** ** Dreams *)

Definition stale_dream_lease (lease : DreamLease) : ServerError :=
  SNotFound ("active dream lease " +:+ uuid_text (dream_id (lease_dream lease)) +:+ " owner "
             +:+ uuid_text (dream_owner_id lease) +:+ " epoch " +:+ display_int (dream_epoch lease)).

Definition set_dream (index : nat) (d : DreamQueueRecord) : Call unit :=
  writes (fun i => i {{ dream_queue ::= <[index := d]> }}).

Definition push_dream (d : DreamQueueRecord) : Call unit :=
  writes (fun i => i {{ dream_queue ::= (fun q => q ++ [d]) }}).

Definition new_dream (new : NewDreamQueueRecord) (source_event_seq : option Z) (id : Uuid) (now : DateTime)
    : DreamQueueRecord :=
  mkDream id (new_session_id new) (new_subject new) (new_scope new) (new_reason new) DreamQueued
    (new_dedupe_key new) source_event_seq 0 now (new_available_at new)
    None None 0 None None None None.

Definition has_dedupe_key (key : string) (d : DreamQueueRecord) : bool := String.eqb (dream_dedupe_key d) key.

Definition enqueue_dream (new : NewDreamQueueRecord) (id : Uuid) (now : DateTime) : Call DreamQueueRecord :=
  lift (validate_persistence_identifier "dream subject" (new_subject new));;
  lift (validate_persistence_identifier "dream scope" (new_scope new));;
  lift (validate_persistence_identifier "dream dedupe key" (new_dedupe_key new));;
  get_session (new_session_id new);;
  found ← reads (fun i => find_at (has_dedupe_key (new_dedupe_key new)) (dream_queue i));
  match found with
  | Some (index, existing) =>
      let existing :=
        match dream_source_event_seq existing with
        | None => existing {{ dream_source_event_seq := new_source_event_seq new }}
        | Some _ => existing
        end in
      set_dream index existing;;
      mret existing
  | None =>
      let record := new_dream new (new_source_event_seq new) id now in
      push_dream record;;
      mret record
  end.

(** [sort_by_key] is stable. *)
Definition enqueued_le (a b : DreamQueueRecord) : Prop := (dream_enqueued_at a <= dream_enqueued_at b)%Z.
Definition enqueued_ge (a b : DreamQueueRecord) : Prop := (dream_enqueued_at b <= dream_enqueued_at a)%Z.
#[global] Instance enqueued_le_dec : RelDecision enqueued_le.
Proof. unfold enqueued_le. intros a b. apply _. Defined.
#[global] Instance enqueued_ge_dec : RelDecision enqueued_ge.
Proof. unfold enqueued_ge. intros a b. apply _. Defined.

Definition dream_queue_for_session (session_id : Uuid) : Call (list DreamQueueRecord) :=
  get_session session_id;;
  q ← reads dream_queue;
  mret (merge_sort enqueued_le (List.filter (fun d => (dream_session_id d =? session_id)%N) q)).

Definition dream_queue_in_scope (scope : string) (limit : nat) : Call (list DreamQueueRecord) :=
  q ← reads dream_queue;
  mret (take limit (merge_sort enqueued_ge (List.filter (fun d => String.eqb (dream_scope d) scope) q))).

Definition dream (id : Uuid) : Call DreamQueueRecord :=
  found ← reads (fun i => find_first (fun d => (dream_id d =? id)%N) (dream_queue i));
  or_refuse found (SNotFound ("dream " +:+ uuid_text id)).

(** A lease has expired, or a queued record's time has come. *)
Definition expired (locked_at : option DateTime) (stale_before : DateTime) : bool :=
  match locked_at with Some t => (t <=? stale_before)%Z | None => false end.

Definition dream_ready (now stale_before : DateTime) (d : DreamQueueRecord) : bool :=
  (bool_decide (dream_status d = DreamQueued) && (dream_available_at d <=? now)%Z)
  || (bool_decide (dream_status d = DreamRunning) && expired (dream_locked_at d) stale_before).

Definition dream_exhausted (now stale_before : DateTime) (max_attempts : Z) (d : DreamQueueRecord) : bool :=
  dream_ready now stale_before d && (max_attempts <=? dream_attempts d)%Z.

Definition dream_give_up (now : DateTime) (d : DreamQueueRecord) : DreamQueueRecord :=
  d {{ dream_status := DreamFailed; dream_locked_at := None; dream_lease_owner := None;
       dream_completed_at := None; dream_error_at := Some now;
       dream_last_error := Some "dream lease expired after the final permitted attempt"%string }}.

Definition dream_before (a b : DreamQueueRecord) : bool :=
  ((dream_available_at a <? dream_available_at b)
   || ((dream_available_at a =? dream_available_at b) && (dream_enqueued_at a <? dream_enqueued_at b)))%Z.

Definition claim_ready_dream_bounded (now : DateTime) (lease_timeout : Duration) (owner : Uuid)
    (max_attempts : Z) : Call (option DreamLease) :=
  ensure (0 <? max_attempts)%Z (SInvalidRequest "dream max_attempts must be positive");;
  stale_before ← before now lease_timeout;
  writes (fun i => i {{ dream_queue ::=
    update_where (dream_exhausted now stale_before max_attempts) (dream_give_up now) }});;
  next ← reads (fun i =>
    min_at dream_before (fun d => (dream_attempts d <? max_attempts)%Z && dream_ready now stale_before d)
      (dream_queue i));
  match next with
  | None => mret None
  | Some (index, d) =>
      attempts ← increment 32 (dream_attempts d);
      epoch ← increment 64 (dream_lease_epoch d);
      let d := d {{ dream_status := DreamRunning; dream_attempts := attempts; dream_locked_at := Some now;
                    dream_lease_owner := Some owner; dream_lease_epoch := epoch;
                    dream_heartbeat_at := Some now; dream_completed_at := None; dream_error_at := None;
                    dream_last_error := None }} in
      set_dream index d;;
      mret (Some (mkDreamLease d owner epoch))
  end.

Definition claim_ready_dream (now : DateTime) (lease_timeout : Duration) (owner : Uuid)
    : Call (option DreamLease) :=
  claim_ready_dream_bounded now lease_timeout owner 3.

(** The record a lease is on, as long as the lease is the record's. *)
Definition holds_dream (lease : DreamLease) (d : DreamQueueRecord) : bool :=
  (dream_id d =? dream_id (lease_dream lease))%N
  && bool_decide (dream_status d = DreamRunning)
  && bool_decide (dream_lease_owner d = Some (dream_owner_id lease))
  && (dream_lease_epoch d =? dream_epoch lease)%Z.

Definition leased_dream (lease : DreamLease) : Call (nat * DreamQueueRecord) :=
  found ← reads (fun i => find_at (holds_dream lease) (dream_queue i));
  or_refuse found (stale_dream_lease lease).

Definition heartbeat_dream (lease : DreamLease) (now : DateTime) : Call DreamLease :=
  found ← leased_dream lease;
  let '(index, d) := found in
  let d := d {{ dream_locked_at := Some now; dream_heartbeat_at := Some now }} in
  set_dream index d;;
  mret (mkDreamLease d (dream_owner_id lease) (dream_epoch lease)).

Definition complete_dream (lease : DreamLease) (now : DateTime) : Call DreamQueueRecord :=
  found ← leased_dream lease;
  let '(index, d) := found in
  let d := d {{ dream_status := DreamCompleted; dream_available_at := now; dream_locked_at := None;
                dream_lease_owner := None; dream_completed_at := Some now; dream_error_at := None;
                dream_last_error := None }} in
  set_dream index d;;
  mret d.

Definition fail_dream (lease : DreamLease) (error : string) (next_available_at : DateTime)
    (max_attempts : Z) (now : DateTime) : Call DreamQueueRecord :=
  let error := redact_persisted_text error in
  found ← leased_dream lease;
  let '(index, d) := found in
  let d := d {{ dream_status := (if (max_attempts <=? dream_attempts d)%Z then DreamFailed else DreamQueued);
                dream_available_at := next_available_at; dream_locked_at := None;
                dream_lease_owner := None; dream_completed_at := None; dream_error_at := Some now;
                dream_last_error := Some error }} in
  set_dream index d;;
  mret d.

(** ** Ending a session and queueing its dream *)

Record EndSessionDreamResult := mkEndSession {
  end_session_record : SessionRecord;
  end_dream : DreamQueueRecord;
  end_events : list SessionEvent;
  newly_ended : bool;
}.

(** The event of a call that appends to a session's log and does nothing else. *)
Definition push_event (session_id : Uuid) (type : string) (payload : Json) (now : DateTime)
    : Call SessionEvent :=
  es ← reads (events_of session_id);
  let event := SessionEvent_new session_id (next_seq es) type payload now in
  set_events session_id (es ++ [event]);;
  mret event.

Definition last_end_seq (es : list SessionEvent) : option Z :=
  event_seq <$> find_first (fun e => String.eqb (event_type e) "session_end") (List.rev es).

Definition optional_seq (seq : option Z) : Json :=
  match seq with Some z => JNumber (number_from_i64 z) | None => JNull end.

Definition dream_queued_payload (d : DreamQueueRecord) : Json :=
  json_object [("dreamId", JString (uuid_text (dream_id d)));
               ("sessionId", JString (uuid_text (dream_session_id d)));
               ("reason", JString (DreamReason_as_str (dream_reason d)));
               ("status", JString (DreamStatus_as_str (dream_status d)));
               ("subject", JString (dream_subject d));
               ("scope", JString (dream_scope d));
               ("dedupeKey", JString (dream_dedupe_key d));
               ("sourceEventSeq", optional_seq (dream_source_event_seq d));
               ("availableAt", JString (datetime_text (dream_available_at d)))]%string.

Definition session_end_payload (d : DreamQueueRecord) : Json :=
  json_object [("status", JString "ended"); ("reason", JString "user_requested");
               ("subject", JString (dream_subject d)); ("scope", JString (dream_scope d))]%string.

(** [now] is the time of the call, [available_at] that of the new dream record. *)
Definition end_session_and_enqueue_dream (session_id : Uuid) (subject scope : string) (id : Uuid)
    (now available_at : DateTime) : Call EndSessionDreamResult :=
  lift (validate_persistence_identifier "dream subject" subject);;
  lift (validate_persistence_identifier "dream scope" scope);;
  session ← get_session session_id;
  let was_ended := String.eqb (session_status session) "ended" in
  let subject := owner_subject session in
  let scope := memory_scope session in
  lift (validate_persistence_identifier "dream subject" subject);;
  lift (validate_persistence_identifier "dream scope" scope);;
  pending ← reads (session_has_pending session_id);
  ensure (negb pending) (session_busy session_id);;
  update_session session_id (fun s => s {{ session_status := "ended"; session_updated_at := now }});;
  es ← reads (events_of session_id);
  let base_seq := Z.of_nat (length es) in
  let existing_end_seq := last_end_seq es in
  let new := session_end session_id subject scope None available_at in
  found ← reads (fun i => find_at (has_dedupe_key (new_dedupe_key new)) (dream_queue i));
  let inserts_dream := match found with Some _ => false | None => true end in
  let emits_end := negb was_ended || match existing_end_seq with None => true | Some _ => false end
                   || inserts_dream in
  let source_event_seq :=
    if emits_end then Some (base_seq + (if inserts_dream then 2 else 1))%Z else existing_end_seq in
  result ← match found with
    | Some (index, existing) =>
        let existing := existing {{ dream_subject := new_subject new; dream_scope := new_scope new;
          dream_source_event_seq ::= (fun seq =>
            match seq with None => source_event_seq | Some _ => seq end) }} in
        set_dream index existing;;
        mret (existing, [])
    | None =>
        let d := new_dream new source_event_seq id now in
        push_dream d;;
        event ← push_event session_id "dream_queued" (dream_queued_payload d) now;
        mret (d, [event])
    end;
  let '(d, emitted) := result in
  ended ← (if emits_end then
             es ← reads (events_of session_id);
             let event := SessionEvent_new session_id (next_seq es) "session_end" (session_end_payload d) now in
             (if debug_assertions && negb (bool_decide (Some (event_seq event) = source_event_seq))
              then crash else mret tt);;
             set_events session_id (es ++ [event]);;
             mret [event]
           else mret []);
  session ← get_session session_id;
  mret (mkEndSession session d (emitted ++ ended) (negb was_ended)).

(** ** Scheduled jobs *)

Definition find_job (id : string) : Call (nat * CronJobRecord) :=
  found ← reads (fun i => find_at (fun j => String.eqb (job_id j) id) (cron_jobs i));
  or_refuse found (SNotFound ("cron job " +:+ id)).

Definition cron_job (id : string) : Call CronJobRecord := found ← find_job id; mret found.2.

Definition set_job (index : nat) (j : CronJobRecord) : Call unit :=
  writes (fun i => i {{ cron_jobs ::= <[index := j]> }}).

Definition upsert_cron_job (job : NewCronJobRecord) (now : DateTime) : Call CronJobRecord :=
  job ← lift (sanitize_cron_job_persistence job);
  found ← reads (fun i => find_at (fun j => String.eqb (job_id j) (new_job_id job)) (cron_jobs i));
  match found with
  | Some (index, existing) =>
      let j := existing {{ job_name := new_job_name job; job_schedule := new_job_schedule job;
        job_enabled := new_job_enabled job; job_cron_mode := new_job_cron_mode job;
        job_max_turns := new_job_max_turns job;
        job_script_timeout_seconds := new_job_script_timeout_seconds job;
        job_next_run_at ::= (fun next => match next with None => new_job_next_run_at job | Some _ => next end);
        job_updated_at := now }} in
      set_job index j;;
      mret j
  | None =>
      let j := mkCronJob (new_job_id job) (new_job_name job) (new_job_schedule job) (new_job_enabled job)
                 (new_job_cron_mode job) (new_job_max_turns job) (new_job_script_timeout_seconds job)
                 (new_job_next_run_at job) now in
      writes (fun i => i {{ cron_jobs ::= (fun js => js ++ [j]) }});;
      mret j
  end.

(** ** Runs *)

Definition stale_cron_lease (lease : CronLease) : ServerError :=
  SNotFound ("active cron lease " +:+ uuid_text (run_id (lease_run lease)) +:+ " owner "
             +:+ uuid_text (cron_owner_id lease) +:+ " epoch " +:+ display_int (cron_epoch lease)).

Definition set_run (index : nat) (r : CronRunRecord) : Call unit :=
  writes (fun i => i {{ cron_runs ::= <[index := r]> }}).

Definition push_run (r : CronRunRecord) : Call unit :=
  writes (fun i => i {{ cron_runs ::= (fun rs => rs ++ [r]) }}).

Definition same_fire (run : NewCronRunRecord) (r : CronRunRecord) : bool :=
  String.eqb (run_job_id r) (new_run_job_id run) && (run_scheduled_for r =? new_run_scheduled_for run)%Z.

Definition find_fire (run : NewCronRunRecord) : Call (option (nat * CronRunRecord)) :=
  reads (fun i => find_at (same_fire run) (cron_runs i)).

(** [now] is the clock when the cursor moves, [started] when the run is recorded. *)
Definition materialize_cron_run (run : NewCronRunRecord) (expected_next_run_at next_run_at : DateTime)
    (id : Uuid) (now started : DateTime) : Call (option CronRunRecord) :=
  run ← lift (sanitize_cron_run_persistence run);
  ensure ((new_run_scheduled_for run =? expected_next_run_at)%Z && (expected_next_run_at <? next_run_at)%Z)
    (SInvalidRequest "cron materialization must match and advance the job cursor");;
  found ← find_job (new_run_job_id run);
  let '(index, job) := found in
  if negb (job_enabled job) || negb (bool_decide (job_next_run_at job = Some expected_next_run_at))
  then mret None
  else
    set_job index (job {{ job_next_run_at := Some next_run_at; job_updated_at := now }});;
    existing ← find_fire run;
    match existing with
    | Some (_, existing) => mret (Some existing)
    | None =>
        let r := mkCronRun id (new_run_job_id run) (new_run_scheduled_for run) "queued"
                   (new_run_session_id run) started None 0 started None None 0 None
                   (new_run_result_json run) in
        push_run r;;
        mret (Some r)
    end.

Definition run_ready (now stale_before : DateTime) (r : CronRunRecord) : bool :=
  (String.eqb (run_status r) "queued" && (run_available_at r <=? now)%Z)
  || (String.eqb (run_status r) "running" && expired (run_locked_at r) stale_before).

Definition run_give_up (now : DateTime) (r : CronRunRecord) : CronRunRecord :=
  r {{ run_status := "failed"; run_completed_at := Some now; run_locked_at := None;
       run_lease_owner := None;
       run_last_error := Some "cron lease expired after the final permitted attempt"%string }}.

Definition run_exhausted (now stale_before : DateTime) (max_attempts : Z) (r : CronRunRecord) : bool :=
  run_ready now stale_before r && (max_attempts <=? run_attempts r)%Z.

(** [(run.available_at, run.scheduled_for, run.id)]. *)
Definition run_before (a b : CronRunRecord) : bool :=
  ((run_available_at a <? run_available_at b)
   || ((run_available_at a =? run_available_at b)
       && ((run_scheduled_for a <? run_scheduled_for b)
           || ((run_scheduled_for a =? run_scheduled_for b) && (run_id a <? run_id b)%N))))%Z.

(** The record as a claim leaves it. *)
Definition run_claimed (owner : Uuid) (now : DateTime) (r : CronRunRecord) : Call CronRunRecord :=
  attempts ← increment 32 (run_attempts r);
  epoch ← increment 64 (run_lease_epoch r);
  mret (r {{ run_status := "running"; run_attempts := attempts; run_available_at := now;
             run_locked_at := Some now; run_lease_owner := Some owner; run_lease_epoch := epoch;
             run_last_error := None }}).

Definition claim_ready_cron_run (owner : Uuid) (now : DateTime) (lease_timeout : Duration)
    (max_attempts : Z) : Call (option CronLease) :=
  ensure (0 <? max_attempts)%Z (SInvalidRequest "cron max_attempts must be positive");;
  stale_before ← before now lease_timeout;
  writes (fun i => i {{ cron_runs ::=
    update_where (run_exhausted now stale_before max_attempts) (run_give_up now) }});;
  next ← reads (fun i =>
    min_at run_before (fun r => (run_attempts r <? max_attempts)%Z && run_ready now stale_before r)
      (cron_runs i));
  match next with
  | None => mret None
  | Some (index, r) =>
      r ← run_claimed owner now r;
      set_run index r;;
      mret (Some (mkCronLease r owner (run_lease_epoch r)))
  end.

Definition check_session (session_id : option Uuid) : Call unit :=
  match session_id with Some id => get_session id;; mret tt | None => mret tt end.

Definition claim_cron_run (run : NewCronRunRecord) (owner : Uuid) (now : DateTime)
    (lease_timeout : Duration) (id : Uuid) : Call (CronLease * bool) :=
  run ← lift (sanitize_cron_run_persistence run);
  cron_job (new_run_job_id run);;
  check_session (new_run_session_id run);;
  found ← find_fire run;
  match found with
  | Some (index, existing) =>
      stale_before ← before now lease_timeout;
      if run_exhausted now stale_before 3 existing then
        let r := run_give_up now existing in
        set_run index r;;
        mret (mkCronLease r owner (run_lease_epoch r), false)
      else
        let claimable := run_ready now stale_before existing in
        r ← (if claimable then run_claimed owner now existing else mret existing);
        set_run index r;;
        mret (mkCronLease r (default owner (run_lease_owner r)) (run_lease_epoch r), claimable)
  | None =>
      let r := mkCronRun id (new_run_job_id run) (new_run_scheduled_for run) "running"
                 (new_run_session_id run) now None 1 now (Some now) (Some owner) 1 None
                 (new_run_result_json run) in
      push_run r;;
      mret (mkCronLease r owner 1, true)
  end.

Definition record_cron_run (run : NewCronRunRecord) (id : Uuid) (now : DateTime) : Call CronRunRecord :=
  run ← lift (sanitize_cron_run_persistence run);
  cron_job (new_run_job_id run);;
  check_session (new_run_session_id run);;
  found ← find_fire run;
  match found with
  | Some (_, existing) => mret existing
  | None =>
      let r := mkCronRun id (new_run_job_id run) (new_run_scheduled_for run) (new_run_status run)
                 (new_run_session_id run) now None 0 now None None 0 None (new_run_result_json run) in
      push_run r;;
      mret r
  end.

Definition holds_run (lease : CronLease) (r : CronRunRecord) : bool :=
  (run_id r =? run_id (lease_run lease))%N
  && String.eqb (run_status r) "running"
  && bool_decide (run_lease_owner r = Some (cron_owner_id lease))
  && (run_lease_epoch r =? cron_epoch lease)%Z.

Definition leased_run (lease : CronLease) : Call (nat * CronRunRecord) :=
  found ← reads (fun i => find_at (holds_run lease) (cron_runs i));
  or_refuse found (stale_cron_lease lease).

Definition heartbeat_cron_run (lease : CronLease) (now : DateTime) : Call CronLease :=
  found ← leased_run lease;
  let '(index, r) := found in
  let r := r {{ run_locked_at := Some now }} in
  set_run index r;;
  mret (mkCronLease r (cron_owner_id lease) (cron_epoch lease)).

Definition complete_cron_run (lease : CronLease) (status : string) (session_id : option Uuid)
    (result : Json) (now : DateTime) : Call CronRunRecord :=
  lift (validate_persistence_identifier "cron completion status" status);;
  let result := redact_persisted_json result in
  check_session session_id;;
  found ← leased_run lease;
  let '(index, r) := found in
  let r := r {{ run_status := status;
                run_session_id := match session_id with Some id => Some id | None => run_session_id r end;
                run_completed_at := Some now; run_locked_at := None; run_lease_owner := None;
                run_last_error := None; run_result_json := result }} in
  set_run index r;;
  mret r.

Definition fail_cron_run (lease : CronLease) (error : string) (next_available_at : DateTime)
    (max_attempts : Z) : Call CronRunRecord :=
  let error := redact_persisted_text error in
  found ← leased_run lease;
  let '(index, r) := found in
  let r := r {{ run_status := (if (max_attempts <=? run_attempts r)%Z then "failed" else "queued")%string;
                run_available_at := next_available_at; run_completed_at := None; run_locked_at := None;
                run_lease_owner := None; run_last_error := Some error }} in
  set_run index r;;
  mret r.

Definition started_ge (a b : CronRunRecord) : Prop := (run_started_at b <= run_started_at a)%Z.
#[global] Instance started_ge_dec : RelDecision started_ge.
Proof. unfold started_ge. intros a b. apply _. Defined.

Definition cron_runs_of (id : string) (limit : nat) : Call (list CronRunRecord) :=
  cron_job id;;
  rs ← reads cron_runs;
  mret (take limit (merge_sort started_ge (List.filter (fun r => String.eqb (run_job_id r) id) rs))).
End Queues.
