(* ===== verification/StoreApprovals.v ===== *)
(** * Approvals and their effects ([store/in_memory.rs], lines 1109-1835, and
    store/in_memory/approval_helpers.rs)

    What an approval asks for is an effect that stays blocked until the approval is
    resolved.  Then the effect is pending, is claimed with a lease like the work of
    the other queues, and is applied or fails.  Each state of an approval that
    concerns the self-evolution policy is recorded once in the audit log. *)

From coqutil Require Import Datatypes.RecordSetters.
From stdpp Require Import base tactics list strings gmap.
From Stdlib Require Import NArith ZArith Lia.
From S2P Require Import Prelude BTree Text Strings Value ScopedMap Vecs Redaction ServerBase Evolution StoreModel StoreSessions StoreQueues.
Import DoubleBraceUpdate.

Section Approvals.
Context `{RegexEngine} `{JsonNumber} `{Sha256} `{UuidText} `{Chrono} `{BuildProfile} `{!MetadataCodec}.

Definition approval_missing (id : Uuid) : ServerError := SNotFound ("approval " +:+ uuid_text id).

(** ** Helpers *)

Definition append_evolution_audit_in_memory (entry : EvolutionAuditEntry) : Call EvolutionAuditRecord :=
  existing ← reads (fun i =>
    find_first (fun e => String.eqb (idempotency_key e) (idempotency_key entry)) (evolution_audits i));
  match existing with
  | Some e => mret (audit_record e)
  | None => writes (fun i => i {{ evolution_audits ::= (fun es => es ++ [entry]) }});; mret (audit_record entry)
  end.

(** [if let Some(audit) = audit { append_evolution_audit_in_memory(..)?; }]. *)
Definition append_audit (key : string) (audit : option EvolutionAuditRecord) : Call unit :=
  match audit with
  | Some record => append_evolution_audit_in_memory (mkAuditEntry key record);; mret tt
  | None => mret tt
  end.

Definition stale_approval_effect_lease (lease : ApprovalEffectLease) : ServerError :=
  SNotFound ("active approval effect lease " +:+ uuid_text (effect_id (lease_effect lease)) +:+ " owner "
             +:+ uuid_text (effect_owner_id lease) +:+ " epoch " +:+ display_int (effect_epoch lease)).

Definition set_effect (index : nat) (e : ApprovalEffectRecord) : Call unit :=
  writes (fun i => i {{ approval_effects ::= <[index := e]> }}).
Definition push_effect (e : ApprovalEffectRecord) : Call unit :=
  writes (fun i => i {{ approval_effects ::= (fun es => es ++ [e]) }}).
Definition set_approval (index : nat) (a : ApprovalRequestRecord) : Call unit :=
  writes (fun i => i {{ approval_requests ::= <[index := a]> }}).

Definition approval_effect_is_claimable (now stale_before : DateTime) (e : ApprovalEffectRecord) : bool :=
  (String.eqb (effect_status e) "pending" && (effect_available_at e <=? now)%Z)
  || (String.eqb (effect_status e) "claimed" && expired (effect_locked_at e) stale_before).

(** The fields change in the order of the code, which matters if a counter overflows. *)
Definition claim_approval_effect_at (index : nat) (e : ApprovalEffectRecord) (owner : Uuid) (now : DateTime)
    : Call ApprovalEffectLease :=
  set_effect index (e {{ effect_status := "claimed" }});;
  attempts ← increment 32 (effect_attempts e);
  set_effect index (e {{ effect_status := "claimed"; effect_attempts := attempts;
                         effect_locked_at := Some now; effect_lease_owner := Some owner }});;
  epoch ← increment 64 (effect_lease_epoch e);
  let e := e {{ effect_status := "claimed"; effect_attempts := attempts; effect_locked_at := Some now;
                effect_lease_owner := Some owner; effect_lease_epoch := epoch; effect_updated_at := now;
                effect_error_at := None; effect_last_error := None }} in
  set_effect index e;;
  mret (mkEffectLease e owner epoch).

(** ** Requests *)

Definition is_effect_of (approval : Uuid) (e : ApprovalEffectRecord) : bool :=
  (effect_approval_id e =? approval)%N.

Definition same_request (request : NewApprovalRequest) (a : ApprovalRequestRecord) : bool :=
  (approval_session_id a =? req_session_id request)%N
  && bool_decide (approval_turn_id a = req_turn_id request)
  && (requester_id a =? req_requester_id request)%N
  && String.eqb (approval_origin a) (req_origin request)
  && String.eqb (approval_action a) (req_action request)
  && json_eqb (scope_json a) (req_scope_json request)
  && json_eqb (options_json a) (req_options_json request)
  && Bool.eqb (resumable a) (req_resumable request)
  && (approval_created_at a =? req_created_at request)%Z
  && (expires_at a =? req_expires_at request)%Z.

Definition same_effect (request : NewApprovalRequest) (e : ApprovalEffectRecord) : bool :=
  is_effect_of (req_id request) e
  && String.eqb (effect_type e) (req_effect_type request)
  && json_eqb (effect_payload e) (req_effect_payload_json request).

Definition new_approval (request : NewApprovalRequest) : ApprovalRequestRecord :=
  mkApproval (req_id request) (req_session_id request) (req_turn_id request) (req_requester_id request)
    (req_origin request) (req_action request) (req_scope_json request) (req_options_json request)
    "pending" (req_resumable request) (req_created_at request) (req_expires_at request)
    (req_created_at request) None None None None None 0.

Definition blocked_effect (request : NewApprovalRequest) : ApprovalEffectRecord :=
  mkEffect (req_id request) (req_id request) (req_session_id request) (req_effect_type request)
    (req_effect_payload_json request) "blocked" 0 (req_expires_at request) None None 0 None None None
    (req_created_at request) (req_created_at request).

(** [audit] is the identifier of the audit record. *)
Definition create_approval_request (request : NewApprovalRequest) (audit : Uuid)
    : Call ApprovalRequestRecord :=
  request ← lift (sanitize_approval_request_persistence request);
  let id := req_id request in
  audit ← lift (evolution_audit_record audit (req_effect_payload_json request) id id
                  AuditAwaitingApproval (req_created_at request) None);
  let key := "approval:" +:+ uuid_text id +:+ ":attempt" in
  get_session (req_session_id request);;
  check_turn (req_turn_id request) (req_session_id request);;
  existing ← reads (fun i => find_first (fun a => (approval_id a =? id)%N) (approval_requests i));
  match existing with
  | Some existing =>
      effect_matches ← reads (fun i => existsb (same_effect request) (approval_effects i));
      ensure (effect_matches && same_request request existing)
        (SConflict ("approval " +:+ uuid_text id +:+ " already exists with different content"));;
      append_audit key audit;;
      mret existing
  | None =>
      let record := new_approval request in
      writes (fun i => i {{ approval_requests ::= (fun l => l ++ [record]) }});;
      push_effect (blocked_effect request);;
      append_audit key audit;;
      mret record
  end.

Definition approval_request (session_id id : Uuid) : Call ApprovalRequestRecord :=
  found ← reads (fun i =>
    find_first (fun a => (approval_id a =? id)%N && (approval_session_id a =? session_id)%N)
      (approval_requests i));
  or_refuse found (approval_missing id).

Definition heartbeat_approval_request (id requester : Uuid) (now : DateTime) : Call ApprovalRequestRecord :=
  found ← reads (fun i => find_at (fun a => (approval_id a =? id)%N) (approval_requests i));
  found ← or_refuse found (approval_missing id);
  let '(index, a) := found in
  if String.eqb (approval_status a) "pending" then
    ensure (requester_id a =? requester)%N
      (SConflict ("approval " +:+ uuid_text id +:+ " belongs to a different requester"));;
    let a := a {{ heartbeat_at := now }} in
    set_approval index a;;
    mret a
  else mret a.

(** ** Resolution *)

Definition is_resolution (status : string) : bool :=
  String.eqb status "approved" || String.eqb status "denied" || String.eqb status "timed_out"
  || String.eqb status "cancelled".

(** The payload with the resolution in it. *)
Definition resolved_payload (payload resolution : Json) : Json :=
  match payload with
  | JObject fields => JObject (bm_insert "resolution" resolution fields)
  | _ => json_object [("effect"%string, payload); ("resolution"%string, resolution)]
  end.

(** [audit] is the identifier of the audit record. *)
Definition resolve_approval_in_memory (session_id id : Uuid) (resolution : NewApprovalResolution)
    (audit : Uuid) : Call ApprovalRequestRecord :=
  let json := redact_persisted_json (res_resolution_json resolution) in
  let status := res_status resolution in
  let at_ := res_resolved_at resolution in
  ensure (is_resolution status) (SInvalidRequest ("invalid terminal approval status " +:+ status));;
  found ← reads (fun i =>
    find_at (fun a => (approval_id a =? id)%N && (approval_session_id a =? session_id)%N)
      (approval_requests i));
  found ← or_refuse found (approval_missing id);
  let '(index, a) := found in
  ensure (String.eqb (approval_status a) "pending")
    (SConflict ("approval " +:+ uuid_text id +:+ " is already resolved"));;
  effect ← reads (fun i => find_at (is_effect_of id) (approval_effects i));
  audit ← match effect with
    | Some (_, e) =>
        audit_status ← lift (audit_status_from_approval status);
        lift (evolution_audit_record audit (effect_payload e) id (effect_id e) audit_status at_ None)
    | None => mret None
    end;
  version ← increment 64 (resolution_version a);
  let a := a {{ approval_status := status; resolved_at := Some at_;
                selected_option_id := res_selected_option_id resolution;
                resolution_json := Some json; resolution_version := version }} in
  set_approval index a;;
  match effect with
  | Some (effect_index, e) =>
      set_effect effect_index
        (e {{ effect_status := "pending"; effect_available_at := at_; effect_updated_at := at_;
              effect_payload ::= (fun payload => resolved_payload payload json) }})
  | None =>
      push_effect (mkEffect id id session_id "approval_resolution"
        (json_object [("resolution"%string, json)]) "pending" 0 at_ None None 0 None None None at_ at_)
  end;;
  append_audit ("approval:" +:+ uuid_text id +:+ ":resolution:" +:+ status) audit;;
  mret a.

Definition resolve_approval_with_event_in_memory (session_id id : Uuid)
    (resolution : NewApprovalResolution) (audit : Uuid) : Call (ApprovalRequestRecord * SessionEvent) :=
  let json := redact_persisted_json (res_resolution_json resolution) in
  let at_ := res_resolved_at resolution in
  ensure (bool_decide (json_get_str "approvalId" json = Some (uuid_text id)))
    (SInvalidRequest "approval resolution event payload has a different approvalId");;
  a ← resolve_approval_in_memory session_id id (resolution {{ res_resolution_json := json }}) audit;
  es ← reads (events_of session_id);
  let event := (SessionEvent_new session_id (next_seq es) "approval_resolved" json at_)
                 {{ event_turn_id := approval_turn_id a }} in
  set_events session_id (es ++ [event]);;
  stored ← reads (fun i =>
    find_at (fun r => (approval_id r =? id)%N && (approval_session_id r =? session_id)%N)
      (approval_requests i));
  stored ← unwrap stored;
  let '(index, stored) := stored in
  set_approval index (stored {{ resolution_event_seq := Some (event_seq event) }});;
  touch_session session_id at_;;
  mret (a {{ resolution_event_seq := Some (event_seq event) }}, event).

Definition resolve_approval_request := resolve_approval_in_memory.
Definition resolve_approval_request_with_event := resolve_approval_with_event_in_memory.

Definition link_approval_event (session_id id : Uuid) (type : string) (seq : Z)
    : Call ApprovalRequestRecord :=
  ensure (String.eqb type "approval" || String.eqb type "approval_resolved")
    (SInvalidRequest ("unsupported approval event type " +:+ type));;
  known ← reads (fun i =>
    existsb (fun e => (event_seq e =? seq)%Z && String.eqb (event_type e) type
                      && bool_decide (json_get_str "approvalId" (event_payload e) = Some (uuid_text id)))
      (events_of session_id i));
  ensure known (SNotFound ("approval event " +:+ uuid_text session_id +:+ ":" +:+ display_int seq));;
  found ← reads (fun i =>
    find_at (fun a => (approval_id a =? id)%N && (approval_session_id a =? session_id)%N)
      (approval_requests i));
  found ← or_refuse found (approval_missing id);
  let '(index, a) := found in
  let is_request := String.eqb type "approval" in
  let linked := if is_request then request_event_seq a else resolution_event_seq a in
  ensure (match linked with Some existing => (existing =? seq)%Z | None => true end)
    (SConflict ("approval " +:+ uuid_text id +:+ " already links a different " +:+ type +:+ " event"));;
  let a := if is_request then a {{ request_event_seq := Some seq }}
           else a {{ resolution_event_seq := Some seq }} in
  set_approval index a;;
  mret a.

(** The resolution a sweep gives: both sweeps resolve the approvals they found one by
    one, and stop at the first error. *)
Definition swept_resolution (id : Uuid) (origin status reason : string) (now : DateTime)
    : NewApprovalResolution :=
  mkResolution status None
    (json_object [("approvalId", JString (uuid_text id)); ("backend", JString origin);
                  ("status", JString status); ("outcome", JString "cancelled");
                  ("reason", JString reason)]%string) now.

Fixpoint sweep (status reason : string) (now : DateTime) (candidates : list ApprovalRequestRecord)
    (audits : nat -> Uuid) : Call (list SessionEvent) :=
  match candidates with
  | [] => mret []
  | a :: rest =>
      resolved ← resolve_approval_with_event_in_memory (approval_session_id a) (approval_id a)
                   (swept_resolution (approval_id a) (approval_origin a) status reason now) (audits O);
      events ← sweep status reason now rest (fun n => audits (S n));
      mret (resolved.2 :: events)
  end.

Definition cancel_stale_non_resumable_approvals (stale_before cancelled_at : DateTime)
    (audits : nat -> Uuid) : Call (list SessionEvent) :=
  candidates ← reads (fun i =>
    List.filter (fun a => String.eqb (approval_status a) "pending" && negb (resumable a)
                          && (heartbeat_at a <=? stale_before)%Z) (approval_requests i));
  sweep "cancelled" "stale_non_resumable" cancelled_at candidates audits.

Definition expire_pending_approvals (now : DateTime) (audits : nat -> Uuid) : Call (list SessionEvent) :=
  candidates ← reads (fun i =>
    List.filter (fun a => String.eqb (approval_status a) "pending" && (expires_at a <=? now)%Z)
      (approval_requests i));
  sweep "timed_out" "expired" now candidates audits.

(** ** Bundles

    A proposal, its approval and the events of both in one call.  The tables of
    skill proposals and of review proposals are not modelled: what they answer is an
    argument. *)

(** The references of a bundle agree. *)
Definition bundle_consistent (type : string) (proposal : Uuid) (approval : NewApprovalRequest)
    (proposal_payload approval_payload : Json) : bool :=
  String.eqb (req_effect_type approval) type
  && bool_decide (json_get_str "proposalId" (req_effect_payload_json approval) = Some (uuid_text proposal))
  && bool_decide (json_get_str "proposalId" proposal_payload = Some (uuid_text proposal))
  && bool_decide (json_get_str "approvalId" approval_payload = Some (uuid_text (req_id approval))).

(** The approval with its effect and audit record, then both events. *)
Definition persist_bundle (approval : NewApprovalRequest) (proposal_payload approval_payload : Json)
    (audit : option EvolutionAuditRecord) : Call (ApprovalRequestRecord * list SessionEvent) :=
  let session_id := req_session_id approval in
  let now := req_created_at approval in
  es ← reads (events_of session_id);
  let proposal_event := (SessionEvent_new session_id (next_seq es) "write_proposal" proposal_payload now)
                          {{ event_turn_id := req_turn_id approval }} in
  let approval_event := (SessionEvent_new session_id (next_seq es + 1) "approval" approval_payload now)
                          {{ event_turn_id := req_turn_id approval }} in
  let record := (new_approval approval) {{ request_event_seq := Some (event_seq approval_event) }} in
  writes (fun i => i {{ approval_requests ::= (fun l => l ++ [record]) }});;
  push_effect (blocked_effect approval);;
  append_audit ("approval:" +:+ uuid_text (req_id approval) +:+ ":attempt") audit;;
  set_events session_id (es ++ [proposal_event]);;
  set_events session_id ((es ++ [proposal_event]) ++ [approval_event]);;
  touch_session session_id now;;
  mret (record, [proposal_event; approval_event]).

(** Of the proposal its identifier and its session are used. *)
Record NewSkillApprovalBundle := mkSkillBundle {
  skill_proposal_id : Uuid;
  skill_source_session_id : Uuid;
  skill_approval : NewApprovalRequest;
  skill_proposal_payload : Json;
  skill_approval_payload : Json;
}.

Definition is_skill_effect (session_id proposal : Uuid) (e : ApprovalEffectRecord) : bool :=
  (effect_session_id e =? session_id)%N && String.eqb (effect_type e) "skill_write"
  && bool_decide (json_get_str "proposalId" (effect_payload e) = Some (uuid_text proposal)).

(** [unchanged]: the table of skill proposals has the very proposal; [audit] is the
    identifier of the audit record. *)
Definition create_skill_approval_bundle (bundle : NewSkillApprovalBundle) (unchanged : bool) (audit : Uuid)
    : Call (ApprovalRequestRecord * list SessionEvent) :=
  let proposal := skill_proposal_id bundle in
  approval ← lift (sanitize_approval_request_persistence (skill_approval bundle));
  let proposal_payload := redact_persisted_json (skill_proposal_payload bundle) in
  let approval_payload := redact_persisted_json (skill_approval_payload bundle) in
  let id := req_id approval in
  ensure ((req_session_id approval =? skill_source_session_id bundle)%N
          && bool_decide (req_turn_id approval = None)
          && bundle_consistent "skill_write" proposal approval proposal_payload approval_payload)
    (SInvalidRequest "skill approval bundle has inconsistent proposal, approval, or event references");;
  get_session (skill_source_session_id bundle);;
  audit ← lift (evolution_audit_record audit (req_effect_payload_json approval) id id
                  AuditAwaitingApproval (req_created_at approval) None);
  existing ← reads (fun i =>
    e ← find_first (is_skill_effect (req_session_id approval) proposal) (approval_effects i);
    find_first (fun a => (approval_id a =? effect_approval_id e)%N) (approval_requests i));
  match existing with
  | Some existing => mret (existing, [])
  | None =>
      ensure unchanged (SConflict ("skill proposal " +:+ uuid_text proposal
                                   +:+ " changed before approval persistence"));;
      persist_bundle approval proposal_payload approval_payload audit
  end.

(** Of the proposal its identifier, its session and the turn of its candidate are used. *)
Record NewAutoEvolutionReviewBundle := mkReviewBundle {
  review_proposal_id : Uuid;
  review_session_id : Uuid;
  review_source_turn : option Uuid;
  review_approval : NewApprovalRequest;
  review_proposal_payload : Json;
  review_approval_payload : Json;
}.

(** [accepted]: what the checks of the proposal itself say; [blocked]: the table of
    review proposals has one that is open or too recent; [known]: it has one with the
    same identifier. *)
Definition create_auto_evolution_review_bundle (bundle : NewAutoEvolutionReviewBundle)
    (accepted : ServerResult unit) (blocked known : bool) (audit : Uuid)
    : Call (option ApprovalRequestRecord * list SessionEvent) :=
  let proposal := review_proposal_id bundle in
  lift accepted;;
  approval ← lift (sanitize_approval_request_persistence (review_approval bundle));
  let proposal_payload := redact_persisted_json (review_proposal_payload bundle) in
  let approval_payload := redact_persisted_json (review_approval_payload bundle) in
  let id := req_id approval in
  turn ← or_refuse (review_source_turn bundle)
    (SInvalidRequest "auto evolution review proposal is missing candidate metadata");
  ensure ((req_session_id approval =? review_session_id bundle)%N
          && bool_decide (req_turn_id approval = Some turn)
          && bundle_consistent "evolution_review" proposal approval proposal_payload approval_payload)
    (SInvalidRequest
       "auto evolution review bundle has inconsistent proposal, approval, or event references");;
  get_session (review_session_id bundle);;
  found ← find_turn turn;
  let '(_, source) := found in
  ensure ((turn_session_id source =? review_session_id bundle)%N && String.eqb (turn_status source) "completed")
    (SConflict "persona auto-candidate source turn is not durably completed");;
  audit ← lift (evolution_audit_record audit (req_effect_payload_json approval) id id
                  AuditAwaitingApproval (req_created_at approval) None);
  if blocked then mret (None, [])
  else
    taken ← reads (fun i => existsb (fun a => (approval_id a =? id)%N) (approval_requests i));
    ensure (negb (known || taken)) (SConflict "auto evolution review bundle identifiers already exist");;
    created ← persist_bundle approval proposal_payload approval_payload audit;
    mret (Some created.1, created.2).

(** ** Effects *)

Definition claim_approval_effect (id owner : Uuid) (now : DateTime) (lease_timeout : Duration)
    : Call (option ApprovalEffectLease) :=
  stale_before ← before now lease_timeout;
  found ← reads (fun i =>
    find_at (fun e => is_effect_of id e && approval_effect_is_claimable now stale_before e)
      (approval_effects i));
  match found with
  | None => mret None
  | Some (index, e) => lease ← claim_approval_effect_at index e owner now; mret (Some lease)
  end.

(** [(effect.available_at, effect.created_at, effect.id)]. *)
Definition effect_before (a b : ApprovalEffectRecord) : bool :=
  ((effect_available_at a <? effect_available_at b)
   || ((effect_available_at a =? effect_available_at b)
       && ((effect_created_at a <? effect_created_at b)
           || ((effect_created_at a =? effect_created_at b) && (effect_id a <? effect_id b)%N))))%Z.

Definition claim_next_approval_effect (owner : Uuid) (now : DateTime) (lease_timeout : Duration)
    : Call (option ApprovalEffectLease) :=
  stale_before ← before now lease_timeout;
  next ← reads (fun i =>
    min_at effect_before (approval_effect_is_claimable now stale_before) (approval_effects i));
  match next with
  | None => mret None
  | Some (index, e) => lease ← claim_approval_effect_at index e owner now; mret (Some lease)
  end.

Definition holds_effect (lease : ApprovalEffectLease) (e : ApprovalEffectRecord) : bool :=
  (effect_id e =? effect_id (lease_effect lease))%N
  && String.eqb (effect_status e) "claimed"
  && bool_decide (effect_lease_owner e = Some (effect_owner_id lease))
  && (effect_lease_epoch e =? effect_epoch lease)%Z.

Definition leased_effect (lease : ApprovalEffectLease) : Call (nat * ApprovalEffectRecord) :=
  found ← reads (fun i => find_at (holds_effect lease) (approval_effects i));
  or_refuse found (stale_approval_effect_lease lease).

Definition heartbeat_approval_effect (lease : ApprovalEffectLease) (now : DateTime)
    : Call ApprovalEffectRecord :=
  found ← leased_effect lease;
  let '(index, e) := found in
  let e := e {{ effect_locked_at := Some now; effect_updated_at := now }} in
  set_effect index e;;
  mret e.

Definition effect_applied (applied_at : DateTime) (e : ApprovalEffectRecord) : ApprovalEffectRecord :=
  e {{ effect_status := "applied"; effect_locked_at := None; effect_lease_owner := None;
       effect_applied_at := Some applied_at; effect_updated_at := applied_at;
       effect_error_at := None; effect_last_error := None }}.

Definition completes_alone (type : string) : bool :=
  String.eqb type "approval_continuation" || String.eqb type "approval_resolution".

Definition is_proposal_effect (type : string) : bool :=
  existsb (String.eqb type)
    ["memory_write"; "skill_write"; "skill_rollback"; "mode_addendum_rollback";
     "persona_addendum_rollback"; "evolution_review"]%string.

Definition complete_approval_effect (lease : ApprovalEffectLease) (applied_at : DateTime)
    : Call ApprovalEffectRecord :=
  found ← leased_effect lease;
  let '(index, e) := found in
  ensure (completes_alone (effect_type e))
    (SInvalidRequest "durable proposal effects must complete with their write_proposal event");;
  let e := effect_applied applied_at e in
  set_effect index e;;
  mret e.

Definition complete_approval_effect_with_event (lease : ApprovalEffectLease) (payload : Json)
    (turn : option Uuid) (applied_at : DateTime) (audit : Uuid)
    : Call (ApprovalEffectRecord * SessionEvent) :=
  let payload := redact_persisted_json payload in
  found ← leased_effect lease;
  let '(index, e) := found in
  ensure (is_proposal_effect (effect_type e))
    (SInvalidRequest "only durable proposal effects may complete with a write_proposal event");;
  let session_id := effect_session_id e in
  get_session session_id;;
  check_turn turn session_id;;
  audit ← lift (evolution_audit_record audit (effect_payload e) (effect_approval_id e) (effect_id e)
                  AuditApplied applied_at None);
  es ← reads (events_of session_id);
  let event := (SessionEvent_new session_id (next_seq es) "write_proposal" payload applied_at)
                 {{ event_turn_id := turn }} in
  set_events session_id (es ++ [event]);;
  let e := effect_applied applied_at e in
  set_effect index e;;
  touch_session session_id applied_at;;
  append_audit ("effect:" +:+ uuid_text (effect_id (lease_effect lease)) +:+ ":applied") audit;;
  mret (e, event).

Definition fail_approval_effect (lease : ApprovalEffectLease) (error : string)
    (next_available_at : DateTime) (max_attempts : Z) (failed_at : DateTime) (audit : Uuid)
    : Call ApprovalEffectRecord :=
  let error := redact_persisted_text error in
  found ← leased_effect lease;
  let '(index, e) := found in
  audit ← lift (evolution_audit_record audit (effect_payload e) (effect_approval_id e) (effect_id e)
                  AuditFailed failed_at (evolution_policy_error_code error));
  let e := e {{ effect_status := (if (max_attempts <=? effect_attempts e)%Z then "failed" else "pending")%string;
                effect_available_at := next_available_at; effect_locked_at := None;
                effect_lease_owner := None; effect_updated_at := failed_at;
                effect_error_at := Some failed_at; effect_last_error := Some error }} in
  set_effect index e;;
  append_audit ("effect:" +:+ uuid_text (effect_id (lease_effect lease)) +:+ ":failure:"
                +:+ display_int (effect_epoch lease)) audit;;
  mret e.

Definition append_evolution_audit (entry : EvolutionAuditEntry) : Call EvolutionAuditRecord :=
  get_session (origin_session_id (audit_origin (audit_record entry)));;
  append_evolution_audit_in_memory entry.

Definition evolution_audits_of (session_id : Uuid) : Call (list EvolutionAuditRecord) :=
  entries ← reads evolution_audits;
  mret (List.filter (fun r => (origin_session_id (audit_origin r) =? session_id)%N)
          (List.map audit_record entries)).
End Approvals.
