(* ===== verification/StoreLogic.v ===== *)
(** * Reasoning about calls on the store, and its steps

    [tx_wp m Q s]: the answer of the call [m] on the tables [s] and the tables
    after it satisfy [Q].  [tx_steps] walks through a call, one subgoal per way it
    can end.  [store_step] is one call of a client, with identifiers that are not in
    use where the code asks for new ones. *)

From coqutil Require Import Datatypes.RecordSetters.
From stdpp Require Import base tactics list strings gmap relations.
From Stdlib Require Import NArith ZArith Lia.
From S2P Require Import Prelude BTree Text Strings Value ScopedMap Vecs Redaction ServerBase Evolution StoreModel StoreSessions StoreQueues StoreApprovals.
Import DoubleBraceUpdate.

Section Wp.
Context {S : Type}.

Definition tx_wp {A} (m : Tx S A) (Q : ServerResult A -> S -> Prop) (s : S) : Prop :=
  Q (m s).1 (m s).2.

Lemma tx_wp_ret {A} (a : A) Q (s : S) : Q (Ok a) s -> tx_wp (mret a) Q s.
Proof. done. Qed.

Lemma tx_wp_bind {A B} (m : Tx S A) (k : A -> Tx S B) Q (s : S) :
  tx_wp m (fun r s' =>
    match r with
    | Ok a => tx_wp (k a) Q s'
    | Err e => Q (Err e) s'
    | Panicked => Q Panicked s'
    | OutOfFuel => Q OutOfFuel s'
    end) s ->
  tx_wp (m ≫= k) Q s.
Proof. unfold tx_wp, mbind, tx_mbind, tx_bind. by destruct (m s) as [[a|e| |] s']. Qed.

Lemma tx_wp_reads {A} (f : S -> A) Q s : Q (Ok (f s)) s -> tx_wp (reads f) Q s.
Proof. done. Qed.

Lemma tx_wp_writes (f : S -> S) Q s : Q (Ok tt) (f s) -> tx_wp (writes f) Q s.
Proof. done. Qed.

Lemma tx_wp_refuse {A} e (Q : ServerResult A -> S -> Prop) s : Q (Err e) s -> tx_wp (refuse e) Q s.
Proof. done. Qed.

Lemma tx_wp_crash {A} (Q : ServerResult A -> S -> Prop) s : Q Panicked s -> tx_wp crash Q s.
Proof. done. Qed.

Lemma tx_wp_ensure b e (Q : ServerResult unit -> S -> Prop) s :
  (b = true -> Q (Ok tt) s) -> (b = false -> Q (Err e) s) -> tx_wp (ensure b e) Q s.
Proof. unfold tx_wp. destruct b; cbn; auto. Qed.

Lemma tx_wp_or_refuse {A} (o : option A) e (Q : ServerResult A -> S -> Prop) s :
  (forall a, o = Some a -> Q (Ok a) s) -> (o = None -> Q (Err e) s) -> tx_wp (or_refuse o e) Q s.
Proof. destruct o; cbn; unfold tx_wp; cbn; auto. Qed.

Lemma tx_wp_unwrap {A} (o : option A) (Q : ServerResult A -> S -> Prop) s :
  (forall a, o = Some a -> Q (Ok a) s) -> (o = None -> Q Panicked s) -> tx_wp (unwrap o) Q s.
Proof. destruct o; cbn; unfold tx_wp; cbn; auto. Qed.

Lemma tx_wp_lift {A} (r : ServerResult A) (Q : ServerResult A -> S -> Prop) s :
  Q r s -> tx_wp (lift r) Q s.
Proof. done. Qed.

Lemma tx_wp_if {A} (b : bool) (m n : Tx S A) Q s :
  (b = true -> tx_wp m Q s) -> (b = false -> tx_wp n Q s) -> tx_wp (if b then m else n) Q s.
Proof. destruct b; auto. Qed.

Lemma tx_wp_mono {A} (m : Tx S A) (Q Q' : ServerResult A -> S -> Prop) s :
  tx_wp m Q s -> (forall r s', Q r s' -> Q' r s') -> tx_wp m Q' s.
Proof. unfold tx_wp. auto. Qed.

Lemma tx_wp_and {A} (m : Tx S A) (Q Q' : ServerResult A -> S -> Prop) s :
  tx_wp m Q s -> tx_wp m Q' s -> tx_wp m (fun r s' => Q r s' /\ Q' r s') s.
Proof. unfold tx_wp. auto. Qed.

(** Reading off the answer and the tables. *)
Lemma tx_wp_eq {A} (m : Tx S A) s r s' : tx_wp m (fun r' s1 => r' = r /\ s1 = s') s -> m s = (r, s').
Proof. unfold tx_wp. destruct (m s) as [r1 s1]; cbn. by intros [<- <-]. Qed.

Lemma tx_wp_of_eq {A} (m : Tx S A) Q s r s' : tx_wp m Q s -> m s = (r, s') -> Q r s'.
Proof. unfold tx_wp. intros HQ E. by rewrite E in HQ. Qed.
End Wp.

(** One step into a call; the answers of a lifted computation are told apart. *)
Ltac tx_step :=
  match goal with
  | |- tx_wp (_ ≫= _) _ _ => apply tx_wp_bind
  | |- tx_wp (mret _) _ _ => apply tx_wp_ret
  | |- tx_wp (reads _) _ _ => apply tx_wp_reads
  | |- tx_wp (writes _) _ _ => apply tx_wp_writes
  | |- tx_wp (refuse _) _ _ => apply tx_wp_refuse
  | |- tx_wp crash _ _ => apply tx_wp_crash
  | |- tx_wp (ensure _ _) _ _ => apply tx_wp_ensure; intros ?
  | |- tx_wp (or_refuse _ _) _ _ => apply tx_wp_or_refuse; [intros ? ?|intros ?]
  | |- tx_wp (unwrap _) _ _ => apply tx_wp_unwrap; [intros ? ?|intros ?]
  | |- tx_wp (lift ?r) _ _ => apply tx_wp_lift; let E := fresh "Hlift" in destruct r eqn:E
  | |- tx_wp (if _ then _ else _) _ _ => apply tx_wp_if; intros ?
  | |- tx_wp (let '(_, _) := ?p in _) _ _ => destruct p
  | |- tx_wp (match ?x with _ => _ end) _ _ => let E := fresh "Hcase" in destruct x eqn:E
  end.
Ltac tx_steps := repeat (tx_step; cbv beta iota zeta).

(** ** Steps *)

Section Steps.
Context `{RegexEngine} `{JsonNumber} `{Sha256} `{UuidText} `{Chrono} `{BuildProfile} `{!MetadataCodec}.

(** An [i32]. *)
Definition is_i32 (z : Z) : Prop := in_signed 32 z = true.

(** The claims of approval effects are not bounded by a number of attempts; that
    the 64-bit epochs do not run out is an assumption on the number of claims. *)
Definition epochs_have_room (s : Inner) : Prop :=
  Forall (fun e => effect_lease_epoch e < 2 ^ 63 - 1)%Z (approval_effects s).

(** The tables after a call. *)
Definition after {A} (m : Call A) (s : Inner) : Inner := (m s).2.

Inductive store_step (s : Inner) : Inner -> Prop :=
| step_create_session new id now :
    sessions s !! id = None -> store_step s (after (create_session new id now) s)
| step_configure_owner_subject owner now : store_step s (after (configure_owner_subject owner now) s)
| step_set_session_memory_context sid project policy now :
    store_step s (after (set_session_memory_context sid project policy now) s)
| step_end_session sid now : store_step s (after (end_session sid now) s)
| step_end_session_and_enqueue_dream sid subject scope id now available :
    Forall (fun d => dream_id d <> id) (dream_queue s) ->
    store_step s (after (end_session_and_enqueue_dream sid subject scope id now available) s)
| step_set_mode_state sid state now : store_step s (after (set_mode_state sid state now) s)
| step_append_message sid role content turn now :
    store_step s (after (append_message_for_turn sid role content turn now) s)
| step_append_event sid type payload turn now :
    store_step s (after (append_event_for_turn sid type payload turn now) s)
| step_append_event_once sid type payload turn now :
    store_step s (after (append_event_for_turn_once sid type payload turn now) s)
| step_enqueue_turn sid client content id now :
    Forall (fun t => turn_id t <> id) (turns s) ->
    store_step s (after (enqueue_turn sid client content id now) s)
| step_claim_next_turn worker now : store_step s (after (claim_next_turn worker now) s)
| step_fail_stale_running_turns stale at_ error :
    store_step s (after (fail_stale_running_turns stale at_ error) s)
| step_heartbeat_turn id worker now : store_step s (after (heartbeat_turn id worker now) s)
| step_complete_turn id worker content at_ : store_step s (after (complete_turn id worker content at_) s)
| step_fail_turn id worker error at_ : store_step s (after (fail_turn id worker error at_) s)
| step_enqueue_dream new id now :
    Forall (fun d => dream_id d <> id) (dream_queue s) -> store_step s (after (enqueue_dream new id now) s)
| step_claim_dream now timeout owner max :
    is_i32 max -> store_step s (after (claim_ready_dream_bounded now timeout owner max) s)
| step_heartbeat_dream lease now : store_step s (after (heartbeat_dream lease now) s)
| step_complete_dream lease now : store_step s (after (complete_dream lease now) s)
| step_fail_dream lease error next max now : store_step s (after (fail_dream lease error next max now) s)
| step_upsert_cron_job job now : store_step s (after (upsert_cron_job job now) s)
| step_materialize_cron_run run expected next id now started :
    Forall (fun r => run_id r <> id) (cron_runs s) ->
    store_step s (after (materialize_cron_run run expected next id now started) s)
| step_claim_ready_cron_run owner now timeout max :
    is_i32 max -> store_step s (after (claim_ready_cron_run owner now timeout max) s)
| step_claim_cron_run run owner now timeout id :
    Forall (fun r => run_id r <> id) (cron_runs s) ->
    store_step s (after (claim_cron_run run owner now timeout id) s)
| step_record_cron_run run id now :
    Forall (fun r => run_id r <> id) (cron_runs s) -> store_step s (after (record_cron_run run id now) s)
| step_heartbeat_cron_run lease now : store_step s (after (heartbeat_cron_run lease now) s)
| step_complete_cron_run lease status sid result now :
    store_step s (after (complete_cron_run lease status sid result now) s)
| step_fail_cron_run lease error next max : store_step s (after (fail_cron_run lease error next max) s)
| step_create_approval_request request audit :
    store_step s (after (create_approval_request request audit) s)
| step_heartbeat_approval_request id requester now :
    store_step s (after (heartbeat_approval_request id requester now) s)
| step_resolve_approval_request sid id resolution audit :
    store_step s (after (resolve_approval_request sid id resolution audit) s)
| step_resolve_approval_request_with_event sid id resolution audit :
    store_step s (after (resolve_approval_request_with_event sid id resolution audit) s)
| step_link_approval_event sid id type seq : store_step s (after (link_approval_event sid id type seq) s)
| step_cancel_stale stale at_ audits :
    store_step s (after (cancel_stale_non_resumable_approvals stale at_ audits) s)
| step_expire_pending now audits : store_step s (after (expire_pending_approvals now audits) s)
| step_claim_approval_effect id owner now timeout :
    epochs_have_room s ->
    store_step s (after (claim_approval_effect id owner now timeout) s)
| step_claim_next_approval_effect owner now timeout :
    epochs_have_room s ->
    store_step s (after (claim_next_approval_effect owner now timeout) s)
| step_heartbeat_approval_effect lease now : store_step s (after (heartbeat_approval_effect lease now) s)
| step_complete_approval_effect lease at_ : store_step s (after (complete_approval_effect lease at_) s)
| step_complete_approval_effect_with_event lease payload turn at_ audit :
    store_step s (after (complete_approval_effect_with_event lease payload turn at_ audit) s)
| step_fail_approval_effect lease error next max at_ audit :
    store_step s (after (fail_approval_effect lease error next max at_ audit) s)
| step_append_evolution_audit entry : store_step s (after (append_evolution_audit entry) s)
| step_create_skill_approval_bundle bundle unchanged audit :
    Forall (fun a => approval_id a <> req_id (skill_approval bundle)) (approval_requests s) ->
    store_step s (after (create_skill_approval_bundle bundle unchanged audit) s)
| step_create_auto_evolution_review_bundle bundle accepted blocked known audit :
    store_step s (after (create_auto_evolution_review_bundle bundle accepted blocked known audit) s)
| step_record_skill_exposures sid turn skills now :
    store_step s (after (record_skill_exposures_for_turn sid turn skills now) s).

Definition reachable : Inner -> Prop := rtc store_step inner_default.

(** A property of the tables that every call keeps. *)
Definition stable (I : Inner -> Prop) : Prop := forall s s', store_step s s' -> I s -> I s'.

Lemma stable_rtc I s s' : stable I -> rtc store_step s s' -> I s -> I s'.
Proof. intros HI. induction 1; eauto. Qed.

Lemma reachable_inv I s : stable I -> I inner_default -> reachable s -> I s.
Proof. intros HI Hinit Hs. by eapply stable_rtc. Qed.
End Steps.
