(* ===== verification/TurnFacts.v ===== *)
(** * Invariants of sessions, turns, messages and events *)

From coqutil Require Import Datatypes.RecordSetters.
From stdpp Require Import base tactics list strings gmap relations.
From Stdlib Require Import NArith ZArith Lia.
From S2P Require Import Prelude BTree Text Strings Value ScopedMap Vecs Redaction ServerBase Evolution StoreModel StoreSessions StoreQueues StoreApprovals StoreLogic.
Import DoubleBraceUpdate.

Section Facts.
Context `{RegexEngine} `{JsonNumber} `{Sha256} `{UuidText} `{Chrono} `{BuildProfile} `{!MetadataCodec}.

(** ** Logs

    The entries of each session's log are numbered from one, without gaps. *)
Section Logs.
Context {A : Type} (seq : A -> Z) (owner : A -> Uuid).

Definition dense (logs : gmap Uuid (list A)) : Prop :=
  forall sid l k x, logs !! sid = Some l -> l !! k = Some x -> seq x = (Z.of_nat k + 1)%Z /\ owner x = sid.

Definition log (logs : gmap Uuid (list A)) (sid : Uuid) : list A := default [] (logs !! sid).

Lemma dense_log logs sid k x :
  dense logs -> log logs sid !! k = Some x -> seq x = (Z.of_nat k + 1)%Z /\ owner x = sid.
Proof. unfold log. intros Hd. destruct (logs !! sid) as [l|] eqn:E; [|done]. by apply Hd. Qed.

Lemma dense_touch logs sid : dense logs -> dense (<[sid := log logs sid]> logs).
Proof.
  intros Hd sid' l k x Hl Hx. destruct (decide (sid' = sid)) as [->|Hne].
  - rewrite lookup_insert_eq in Hl. simplify_eq. by eapply dense_log.
  - rewrite lookup_insert_ne in Hl by done. by eapply Hd.
Qed.

Lemma dense_push logs sid x :
  dense logs -> seq x = next_seq (log logs sid) -> owner x = sid ->
  dense (<[sid := log logs sid ++ [x]]> logs).
Proof.
  intros Hd Hs Ho sid' l k y Hl Hy. destruct (decide (sid' = sid)) as [->|Hne].
  - rewrite lookup_insert_eq in Hl. simplify_eq. apply lookup_app_Some in Hy as [Hy|[Hk Hy]]; [by eapply dense_log|].
    apply list_lookup_singleton_Some in Hy as [Hk' <-]. rewrite Hs. unfold next_seq. split; [lia|done].
  - rewrite lookup_insert_ne in Hl by done. by eapply Hd.
Qed.

Lemma log_insert_eq logs sid l : log (<[sid := l]> logs) sid = l.
Proof. unfold log. by rewrite lookup_insert_eq. Qed.

Lemma log_insert_ne logs sid sid' l : sid' <> sid -> log (<[sid := l]> logs) sid' = log logs sid'.
Proof. intros. unfold log. by rewrite lookup_insert_ne. Qed.

(** Pushing onto one log extends it, and no other. *)
Lemma log_push logs sid x sid' :
  exists l, log (<[sid := log logs sid ++ [x]]> logs) sid' = log logs sid' ++ l
    /\ ((l = [x] /\ sid' = sid) \/ (l = [] /\ sid' <> sid)).
Proof.
  destruct (decide (sid' = sid)) as [->|].
  - exists [x]. rewrite log_insert_eq. auto.
  - exists []. rewrite log_insert_ne, app_nil_r by done. auto.
Qed.

Lemma log_insert_same logs sid sid' : log (<[sid := log logs sid]> logs) sid' = log logs sid'.
Proof.
  destruct (decide (sid' = sid)) as [->|]; [by rewrite log_insert_eq|by rewrite log_insert_ne].
Qed.
End Logs.

(** ** Turns *)

(** What a step can do to a turn. *)
Definition turn_evolves (t t' : SessionTurnRecord) : Prop :=
  turn_id t' = turn_id t /\ turn_session_id t' = turn_session_id t
  /\ client_message_id t' = client_message_id t /\ turn_content t' = turn_content t
  /\ content_hash t' = content_hash t /\ turn_created_at t' = turn_created_at t
  /\ (t' = t
      \/ (turn_status t = "queued" /\ turn_status t' = "running")
      \/ (turn_status t = "running" /\ (turn_status t' = "running" \/ turn_status t' = "completed"
                                         \/ turn_status t' = "failed"))).

#[global] Instance turn_evolves_refl : Reflexive turn_evolves.
Proof. intros t. unfold turn_evolves. naive_solver. Qed.

Record turns_ok (ss : gmap Uuid SessionRecord) (ts : list SessionTurnRecord) : Prop := {
  turns_nodup : NoDup (List.map turn_id ts);
  turns_session t : t ∈ ts -> is_Some (ss !! turn_session_id t);
  turns_client i j t u :
    ts !! i = Some t -> ts !! j = Some u -> turn_session_id t = turn_session_id u ->
    client_message_id t = client_message_id u -> i = j;
  turns_one_running i j t u :
    ts !! i = Some t -> ts !! j = Some u -> turn_session_id t = turn_session_id u ->
    turn_status t = "running" -> turn_status u = "running" -> i = j;
  turns_not_ended t s :
    t ∈ ts -> is_pending (turn_status t) = true -> ss !! turn_session_id t = Some s ->
    session_status s <> "ended";
}.

(** Sessions change, but none disappears or ends while it has a pending turn. *)
Definition sessions_evolve (ts : list SessionTurnRecord) (ss ss' : gmap Uuid SessionRecord) : Prop :=
  forall sid s, ss !! sid = Some s -> exists s', ss' !! sid = Some s'
    /\ (session_status s' = "ended" -> session_status s = "ended"
        \/ Forall (fun t => turn_session_id t = sid -> is_pending (turn_status t) = false) ts).

Lemma turns_ok_sessions ss ss' ts : sessions_evolve ts ss ss' -> turns_ok ss ts -> turns_ok ss' ts.
Proof.
  intros He [? Hs ? ? Hn]. split; try done.
  - intros t Ht. destruct (Hs _ Ht) as [s Hs']. destruct (He _ _ Hs') as (s' & ? & _). by eexists.
  - intros t s' Ht Hp Hs' Hend. destruct (Hs _ Ht) as [s E]. destruct (He _ _ E) as (s'' & E' & Hstat).
    simplify_eq. destruct (Hstat Hend) as [Hs1|HF]; [by eapply Hn|].
    rewrite Forall_forall in HF. rewrite HF in Hp; done.
Qed.

Lemma sessions_evolve_alter ts ss sid f :
  (forall s, ss !! sid = Some s -> session_status (f s) = session_status s) ->
  sessions_evolve ts ss (alter f sid ss).
Proof.
  intros Hf sid' s Hs. destruct (decide (sid' = sid)) as [->|].
  - exists (f s). rewrite lookup_alter_eq, Hs. split; [done|]. rewrite Hf by done. auto.
  - exists s. rewrite lookup_alter_ne by done. auto.
Qed.

(** A new turn: its identifier and its client's identifier are not in use. *)
Lemma turns_ok_push ss ts t s :
  turns_ok ss ts -> ss !! turn_session_id t = Some s -> session_status s <> "ended" ->
  turn_status t = "queued" -> Forall (fun u => turn_id u <> turn_id t) ts ->
  Forall (fun u => turn_session_id u = turn_session_id t -> client_message_id u <> client_message_id t) ts ->
  turns_ok ss (ts ++ [t]).
Proof.
  intros [Hnd Hs Hc Hr Hn] Ht Hend Hq Hid Hcl. rewrite Forall_forall in Hid, Hcl.
  assert (Hlook : forall i u, (ts ++ [t]) !! i = Some u -> ts !! i = Some u \/ (i = length ts /\ u = t)).
  { intros i u [Hi|[Hi Hu]]%lookup_app_Some; [by left|].
    apply list_lookup_singleton_Some in Hu as [? ->]. right. split; [lia|done]. }
  split.
  - rewrite List.map_app. apply NoDup_app. split_and!; [done| |apply NoDup_singleton].
    cbn. intros id (u & -> & Hu)%list_elem_of_fmap. rewrite list_elem_of_singleton. by apply Hid.
  - intros u [Hu|Hu]%elem_of_app; [by apply Hs|]. apply list_elem_of_singleton in Hu as ->. by rewrite Ht.
  - intros i j u v [Hi|[-> ->]]%Hlook [Hj|[-> ->]]%Hlook Hss Hcc; [by eapply Hc|exfalso..|done].
    + by eapply Hcl; [eapply list_elem_of_lookup_2| |].
    + by eapply Hcl; [eapply list_elem_of_lookup_2|symmetry..].
  - intros i j u v [Hi|[-> ->]]%Hlook [Hj|[-> ->]]%Hlook Hss Hu Hv; [by eapply Hr|congruence..|done].
  - intros u s' [Hu|Hu]%elem_of_app Hp Hs'; [by eapply Hn|].
    apply list_elem_of_singleton in Hu as ->. congruence.
Qed.

(** A pointwise change of the table.  A turn starts to run only as the single
    change, and only where no turn of its session runs. *)
Definition turns_change (ts ts' : list SessionTurnRecord) : Prop :=
  Forall2 turn_evolves ts ts'
  /\ forall i t t', ts !! i = Some t -> ts' !! i = Some t' -> turn_status t' = "running" ->
       turn_status t = "running"
       \/ (Forall (fun u => turn_session_id u = turn_session_id t -> turn_status u <> "running") ts
           /\ forall j, j <> i -> ts' !! j = ts !! j).

Lemma Forall2_lookup_evolve ts ts' i t' :
  Forall2 turn_evolves ts ts' -> ts' !! i = Some t' -> exists t, ts !! i = Some t /\ turn_evolves t t'.
Proof. intros HF Ht. eapply Forall2_lookup_r in HF as (t & ? & ?); eauto. Qed.

Lemma turns_ok_change ss ts ts' : turns_change ts ts' -> turns_ok ss ts -> turns_ok ss ts'.
Proof.
  intros [HF Hnew] [Hnd Hs Hc Hr Hn].
  assert (Hpre : forall t', t' ∈ ts' -> exists t, t ∈ ts /\ turn_evolves t t').
  { intros t' [i Hi]%list_elem_of_lookup_1. destruct (Forall2_lookup_evolve _ _ _ _ HF Hi) as (t & Ht & ?).
    exists t. split; [by eapply list_elem_of_lookup_2|done]. }
  split.
  - replace (List.map turn_id ts') with (List.map turn_id ts); [done|].
    clear -HF. induction HF as [|t t' ts ts' Ht _ IH]; cbn; [done|]. destruct Ht as [-> _]. by rewrite IH.
  - intros t' (t & Ht & Hev)%Hpre. destruct Hev as (_ & -> & _). by apply Hs.
  - intros i j t' u' Hi Hj.
    destruct (Forall2_lookup_evolve _ _ _ _ HF Hi) as (t & Ht & (_ & -> & -> & _)).
    destruct (Forall2_lookup_evolve _ _ _ _ HF Hj) as (u & Hu & (_ & -> & -> & _)). by apply Hc.
  - intros i j t' u' Hi Hj.
    destruct (Forall2_lookup_evolve _ _ _ _ HF Hi) as (t & Ht & Hevt).
    destruct (Forall2_lookup_evolve _ _ _ _ HF Hj) as (u & Hu & Hevu).
    pose proof Hevt as (_ & -> & _). pose proof Hevu as (_ & -> & _). intros Hss Hrt Hru.
    destruct (decide (i = j)) as [|Hne]; [done|].
    destruct (Hnew _ _ _ Ht Hi Hrt) as [Hrt0|[HF1 Hsame]], (Hnew _ _ _ Hu Hj Hru) as [Hru0|[HF2 Hsame2]];
      [by eapply Hr|exfalso..].
    + rewrite Forall_forall in HF2. apply (HF2 t); [by eapply list_elem_of_lookup_2|done|done].
    + rewrite Forall_forall in HF1. apply (HF1 u); [by eapply list_elem_of_lookup_2|by symmetry|done].
    + rewrite Forall_forall in HF1. rewrite Hsame in Hj by done. simplify_eq.
      apply (HF1 u'); [by eapply list_elem_of_lookup_2|by symmetry|done].
  - intros t' s (t & Ht & Hev)%Hpre Hp. pose proof Hev as (_ & -> & _). intros Hss. eapply Hn; [done| |done].
    destruct Hev as (_ & _ & _ & _ & _ & _ & [->|[[-> _]|[-> _]]]); done.
Qed.

(** Setting one turn. *)
Lemma turns_change_set ts i t t' :
  ts !! i = Some t -> turn_evolves t t' ->
  (turn_status t' = "running" -> turn_status t = "running"
     \/ Forall (fun u => turn_session_id u = turn_session_id t -> turn_status u <> "running") ts) ->
  turns_change ts (<[i := t']> ts).
Proof.
  intros Ht Hev Hrun. pose proof (lookup_lt_Some _ _ _ Ht) as Hlen. split.
  - apply Forall2_same_length_lookup_2; [by rewrite length_insert|]. intros j x y Hx Hy.
    destruct (decide (j = i)) as [->|].
    + rewrite list_lookup_insert_eq in Hy by done. by simplify_eq.
    + rewrite list_lookup_insert_ne in Hy by done. by simplify_eq.
  - intros j x y Hx Hy Hr. destruct (decide (j = i)) as [->|].
    + rewrite list_lookup_insert_eq in Hy by done. simplify_eq. destruct (Hrun Hr) as [|HF]; [by left|right].
      split; [done|]. intros j Hj. by rewrite list_lookup_insert_ne.
    + rewrite list_lookup_insert_ne in Hy by done. simplify_eq. by left.
Qed.

Lemma turns_change_where ts p f :
  (forall t, p t = true -> turn_evolves t (f t) /\ turn_status (f t) <> "running") ->
  turns_change ts (update_where p f ts).
Proof.
  intros Hf. unfold update_where. split.
  - apply Forall2_same_length_lookup_2; [by rewrite length_map|]. intros j x y Hx Hy.
    rewrite list_lookup_fmap, Hx in Hy. cbn in Hy. simplify_eq. destruct (p x) eqn:E; [by apply Hf|done].
  - intros j x y Hx Hy Hr. rewrite list_lookup_fmap, Hx in Hy. cbn in Hy. simplify_eq.
    destruct (p x) eqn:E; [|by left]. by destruct (Hf _ E).
Qed.

(** ** Messages of turns

    A message that belongs to a turn is in the log of the turn's session, no turn has
    two messages of a role, each turn has its user message, and each completed turn
    has its assistant message. *)
Definition is_message (tid : Uuid) (role : string) (m : MessageRecord) : bool :=
  bool_decide (message_turn_id m = Some tid) && String.eqb (message_role m) role.

Record messages_ok (ms : gmap Uuid (list MessageRecord)) (ts : list SessionTurnRecord) : Prop := {
  messages_turn sid m tid :
    m ∈ log ms sid -> message_turn_id m = Some tid ->
    exists t, t ∈ ts /\ turn_id t = tid /\ turn_session_id t = sid;
  messages_once sid tid role : count_where (is_message tid role) (log ms sid) <= 1;
  messages_user t :
    t ∈ ts -> exists m, m ∈ log ms (turn_session_id t) /\ message_turn_id m = Some (turn_id t)
      /\ message_role m = "user" /\ message_content m = turn_content t;
  messages_assistant t :
    t ∈ ts -> turn_status t = "completed" ->
    has_message (turn_id t) "assistant" (log ms (turn_session_id t)) = true;
}.

Lemma messages_ok_ext ms ms' ts :
  (forall sid, log ms' sid = log ms sid) -> messages_ok ms ts -> messages_ok ms' ts.
Proof. intros E [Ht Ho Hu Ha]. split; intros *; rewrite E; eauto. Qed.

Lemma count_where_none {A} (p : A -> bool) l : existsb p l = false -> count_where p l = 0.
Proof.
  unfold count_where. induction l as [|x l IH]; cbn; [done|]. intros [-> ?]%orb_false_iff. by apply IH.
Qed.

Lemma count_where_app {A} (p : A -> bool) l l' : count_where p (l ++ l') = count_where p l + count_where p l'.
Proof. unfold count_where. by rewrite List.filter_app, length_app. Qed.

Lemma has_message_app tid role l l' :
  has_message tid role (l ++ l') = has_message tid role l || has_message tid role l'.
Proof. apply existsb_app. Qed.

(** A message is appended: it belongs to no turn, or to a turn of the session that
    has no message of its role. *)
Lemma messages_ok_push ms ts sid m :
  messages_ok ms ts ->
  (forall tid, message_turn_id m = Some tid ->
     has_message tid (message_role m) (log ms sid) = false
     /\ exists t, t ∈ ts /\ turn_id t = tid /\ turn_session_id t = sid) ->
  messages_ok (<[sid := log ms sid ++ [m]]> ms) ts.
Proof.
  intros [Ht Ho Hu Ha] Hm.
  pose proof (log_push ms sid m) as Hlog.
  split.
  - intros sid' m' tid Hin. destruct (Hlog sid') as (l & El & Hl). rewrite El in Hin.
    apply elem_of_app in Hin as [Hin|Hin]; [by apply Ht|].
    destruct Hl as [[-> ->]|[-> _]]; [|by apply elem_of_nil in Hin].
    apply list_elem_of_singleton in Hin as ->. intros E. by apply Hm in E as [_ ?].
  - intros sid' tid role. destruct (Hlog sid') as (l & -> & [[-> ->]|[-> _]]); [|rewrite app_nil_r; by apply Ho].
    rewrite count_where_app. unfold count_where at 2. cbn. destruct (is_message tid role m) eqn:Em;
      [|cbn; rewrite Nat.add_0_r; apply Ho].
    unfold is_message in Em. apply andb_prop in Em as [E1%bool_decide_eq_true Er%String.eqb_eq].
    destruct (Hm _ E1) as [Hno _]. subst role.
    cbn. rewrite count_where_none; [done|]. exact Hno.
  - intros t Hin. destruct (Hu _ Hin) as (m' & Hm' & ?). exists m'. split; [|done].
    destruct (Hlog (turn_session_id t)) as (l & -> & _). apply elem_of_app. by left.
  - intros t Hin Hc. destruct (Hlog (turn_session_id t)) as (l & -> & _).
    rewrite has_message_app, Ha by done. done.
Qed.

(** Turns change: those that became completed have their assistant message. *)
Lemma messages_ok_turns ms ts ts' :
  messages_ok ms ts -> Forall2 turn_evolves ts ts' ->
  (forall i t t', ts !! i = Some t -> ts' !! i = Some t' -> turn_status t' = "completed" ->
     turn_status t = "completed" \/ has_message (turn_id t) "assistant" (log ms (turn_session_id t)) = true) ->
  messages_ok ms ts'.
Proof.
  intros [Ht Ho Hu Ha] HF Hc. split; [|done| |].
  - intros sid m tid Hm E. destruct (Ht _ _ _ Hm E) as (t & [i Hi]%list_elem_of_lookup_1 & <- & <-).
    eapply Forall2_lookup_l in HF as (t' & Ht' & Hev); [|done]. exists t'.
    split; [by eapply list_elem_of_lookup_2|]. by destruct Hev as (-> & -> & _).
  - intros t' [i Hi]%list_elem_of_lookup_1. destruct (Forall2_lookup_evolve _ _ _ _ HF Hi) as (t & Hlt & Hev).
    destruct Hev as (-> & -> & _ & -> & _). apply Hu. by eapply list_elem_of_lookup_2.
  - intros t' [i Hi]%list_elem_of_lookup_1 Hs.
    destruct (Forall2_lookup_evolve _ _ _ _ HF Hi) as (t & Hlt & Hev).
    pose proof Hev as (-> & -> & _). destruct (Hc _ _ _ Hlt Hi Hs) as [Hs'|]; [|done].
    apply Ha; [by eapply list_elem_of_lookup_2|done].
Qed.

(** A new turn and its user message. *)
Lemma messages_ok_enqueue ms ts t m :
  messages_ok ms ts -> Forall (fun u => turn_id u <> turn_id t) ts -> turn_status t = "queued" ->
  message_turn_id m = Some (turn_id t) -> message_role m = "user" -> message_content m = turn_content t ->
  messages_ok (<[turn_session_id t := log ms (turn_session_id t) ++ [m]]> ms) (ts ++ [t]).
Proof.
  intros Hok Hfresh Hq Hid Hrole Hcontent. rewrite Forall_forall in Hfresh.
  assert (Hno : forall sid role, has_message (turn_id t) role (log ms sid) = false).
  { intros sid role. apply existsb_false_Forall, Forall_forall. intros m' Hm'. case_bool_decide as E; [|done].
    destruct (messages_turn _ _ Hok _ _ _ Hm' E) as (u & Hu & Hid' & _). by apply Hfresh in Hu. }
  pose proof (log_push ms (turn_session_id t) m) as Hlog. destruct Hok as [Ht Ho Hu Ha]. split.
  - intros sid' m' tid Hin E. destruct (Hlog sid') as (l & El & Hl). rewrite El in Hin.
    apply elem_of_app in Hin as [Hin|Hin].
    + destruct (Ht _ _ _ Hin E) as (u & Hu' & ?). exists u. split; [|done]. apply elem_of_app. by left.
    + destruct Hl as [[-> ->]|[-> _]]; [|by apply elem_of_nil in Hin].
      apply list_elem_of_singleton in Hin as ->. rewrite Hid in E. simplify_eq.
      exists t. split; [|done]. apply elem_of_app. right. by apply list_elem_of_singleton.
  - intros sid' tid role. destruct (Hlog sid') as (l & -> & [[-> ->]|[-> _]]); [|rewrite app_nil_r; by apply Ho].
    rewrite count_where_app. unfold count_where at 2. cbn. destruct (is_message tid role m) eqn:Em;
      [|cbn; rewrite Nat.add_0_r; apply Ho].
    unfold is_message in Em. apply andb_prop in Em as [E1%bool_decide_eq_true _].
    rewrite Hid in E1. simplify_eq. cbn. rewrite count_where_none; [done|]. apply Hno.
  - intros u [Hin|Hin]%elem_of_app.
    + destruct (Hu _ Hin) as (m' & Hm' & ?). exists m'. split; [|done].
      destruct (Hlog (turn_session_id u)) as (l & -> & _). apply elem_of_app. by left.
    + apply list_elem_of_singleton in Hin as ->. exists m. split_and!; [|done..].
      rewrite log_insert_eq. apply elem_of_app. right. by apply list_elem_of_singleton.
  - intros u [Hin|Hin]%elem_of_app Hc.
    + destruct (Hlog (turn_session_id u)) as (l & -> & _). rewrite has_message_app, Ha by done. done.
    + apply list_elem_of_singleton in Hin as ->. congruence.
Qed.

(** ** The invariant, and what a call adds *)

Record session_inv (s : Inner) : Prop := {
  inv_events : dense event_seq event_session_id (events s);
  inv_messages : dense message_seq message_session_id (messages s);
  inv_turns : turns_ok (sessions s) (turns s);
  inv_turn_messages : messages_ok (messages s) (turns s);
}.

(** Logs and the table of turns grow at the end, sessions stay and do not reopen,
    turns move along their life cycle. *)
Record advances (s s' : Inner) : Prop := {
  adv_events sid : log (events s) sid `prefix_of` log (events s') sid;
  adv_messages sid : log (messages s) sid `prefix_of` log (messages s') sid;
  adv_sessions sid r : sessions s !! sid = Some r -> exists r', sessions s' !! sid = Some r'
    /\ (session_status r = "ended" -> session_status r' = "ended");
  adv_turns i t : turns s !! i = Some t -> exists t', turns s' !! i = Some t' /\ rtc turn_evolves t t';
}.

#[global] Instance advances_refl : Reflexive advances.
Proof. intros s. split; [done|done|eauto|]. intros i t Ht. exists t. split; [done|constructor]. Qed.

#[global] Instance advances_trans : Transitive advances.
Proof.
  intros a b c [E1 M1 S1 T1] [E2 M2 S2 T2]. split.
  - intros sid. etrans; [apply E1|apply E2].
  - intros sid. etrans; [apply M1|apply M2].
  - intros sid r Hr. destruct (S1 _ _ Hr) as (r1 & Hr1 & ?). destruct (S2 _ _ Hr1) as (r2 & ? & ?). eauto.
  - intros i t Ht. destruct (T1 _ _ Ht) as (t1 & Ht1 & ?). destruct (T2 _ _ Ht1) as (t2 & ? & ?).
    exists t2. split; [done|]. by etrans.
Qed.

(** Starting from [s0] the tables [s] are in order. *)
Definition in_order (s0 s : Inner) : Prop := session_inv s /\ advances s0 s.

Lemma in_order_refl s : session_inv s -> in_order s s.
Proof. by split. Qed.

(** Tables that are not concerned. *)
Lemma in_order_owner s0 s f : in_order s0 s -> in_order s0 (s {{ configured_owner_subject ::= f }}).
Proof. intros [[] []]. split; split; assumption. Qed.
Lemma in_order_dreams s0 s f : in_order s0 s -> in_order s0 (s {{ dream_queue ::= f }}).
Proof. intros [[] []]. split; split; assumption. Qed.
Lemma in_order_jobs s0 s f : in_order s0 s -> in_order s0 (s {{ cron_jobs ::= f }}).
Proof. intros [[] []]. split; split; assumption. Qed.
Lemma in_order_runs s0 s f : in_order s0 s -> in_order s0 (s {{ cron_runs ::= f }}).
Proof. intros [[] []]. split; split; assumption. Qed.
Lemma in_order_approvals s0 s f : in_order s0 s -> in_order s0 (s {{ approval_requests ::= f }}).
Proof. intros [[] []]. split; split; assumption. Qed.
Lemma in_order_effects s0 s f : in_order s0 s -> in_order s0 (s {{ approval_effects ::= f }}).
Proof. intros [[] []]. split; split; assumption. Qed.
Lemma in_order_audits s0 s f : in_order s0 s -> in_order s0 (s {{ evolution_audits ::= f }}).
Proof. intros [[] []]. split; split; assumption. Qed.

Lemma in_order_step s0 s s' : in_order s0 s -> (session_inv s -> in_order s s') -> in_order s0 s'.
Proof. intros [Hi Ha] H'. destruct (H' Hi) as [? ?]. split; [done|]. by etrans. Qed.

(** Sessions. *)
Lemma in_order_sessions s0 s g :
  in_order s0 s -> sessions_evolve (turns s) (sessions s) (g (sessions s)) ->
  (forall sid r r', sessions s !! sid = Some r -> g (sessions s) !! sid = Some r' ->
     session_status r = "ended" -> session_status r' = "ended") ->
  in_order s0 (s {{ sessions ::= g }}).
Proof.
  intros Hs He Hend. eapply in_order_step; [exact Hs|]. intros [He' Hm Ht Htm]. split.
  - split; cbn; try done. by eapply turns_ok_sessions.
  - split; cbn; [done|done| |].
    + intros sid r Hr. destruct (He _ _ Hr) as (r' & Hr' & _). eauto.
    + intros i t Hi. exists t. split; [done|constructor].
Qed.

Lemma in_order_alter s0 s sid f :
  in_order s0 s -> (forall r, session_status (f r) = session_status r) ->
  in_order s0 (s {{ sessions ::= alter f sid }}).
Proof.
  intros Hs Hf. apply in_order_sessions; [done| |].
  - by apply sessions_evolve_alter.
  - intros sid' r r' Hr Hr'. destruct (decide (sid' = sid)) as [->|].
    + rewrite lookup_alter_eq, Hr in Hr'. cbn in Hr'. simplify_eq. by rewrite Hf.
    + rewrite lookup_alter_ne in Hr' by done. congruence.
Qed.

Lemma in_order_fmap s0 s (f : SessionRecord -> SessionRecord) :
  in_order s0 s -> (forall r, session_status (f r) = session_status r) ->
  in_order s0 (s {{ sessions ::= fmap f }}).
Proof.
  intros Hs Hf. apply in_order_sessions; [done| |].
  - intros sid r Hr. exists (f r). rewrite lookup_fmap, Hr. split; [done|]. rewrite Hf. auto.
  - intros sid r r' Hr. rewrite lookup_fmap, Hr. intros [= <-]. by rewrite Hf.
Qed.

Lemma in_order_end s0 s sid f :
  in_order s0 s -> (forall r, session_status (f r) = "ended") -> session_has_pending sid s = false ->
  in_order s0 (s {{ sessions ::= alter f sid }}).
Proof.
  intros Hs Hf Hp. apply in_order_sessions; [done| |].
  - intros sid' r Hr. destruct (decide (sid' = sid)) as [->|].
    + exists (f r). rewrite lookup_alter_eq, Hr. split; [done|]. right.
      apply existsb_false_Forall in Hp. eapply Forall_impl; [exact Hp|]. cbn. intros t Ht <-.
      by rewrite N.eqb_refl in Ht.
    + exists r. rewrite lookup_alter_ne by done. auto.
  - intros sid' r r' Hr Hr'. destruct (decide (sid' = sid)) as [->|].
    + rewrite lookup_alter_eq, Hr in Hr'. cbn in Hr'. simplify_eq. by rewrite Hf.
    + rewrite lookup_alter_ne in Hr' by done. congruence.
Qed.

(** Logs. *)
Lemma log_push_prefix {A} (logs : gmap Uuid (list A)) sid x sid' :
  log logs sid' `prefix_of` log (<[sid := log logs sid ++ [x]]> logs) sid'.
Proof. destruct (log_push logs sid x sid') as (l & -> & _). by exists l. Qed.

Lemma events_of_set sid es s : events_of sid (s {{ events ::= <[sid := es]> }}) = es.
Proof. apply (log_insert_eq (events s)). Qed.

Lemma messages_of_set sid ms s : messages_of sid (s {{ messages ::= <[sid := ms]> }}) = ms.
Proof. apply (log_insert_eq (messages s)). Qed.

Lemma in_order_push_event s0 s sid es e :
  in_order s0 s -> es = events_of sid s -> event_seq e = next_seq es -> event_session_id e = sid ->
  in_order s0 (s {{ events ::= <[sid := es ++ [e]]> }}).
Proof.
  intros Hs -> Hseq Hsid. eapply in_order_step; [exact Hs|]. intros [He' Hm Ht Htm]. split.
  - split; cbn; try done. by apply dense_push.
  - split; cbn; [|done|eauto|].
    + intros sid'. apply log_push_prefix.
    + intros i t Hi. exists t. split; [done|constructor].
Qed.

Lemma in_order_touch_events s0 s sid :
  in_order s0 s -> in_order s0 (s {{ events ::= <[sid := events_of sid s]> }}).
Proof.
  intros Hs. eapply in_order_step; [exact Hs|]. intros [He' Hm Ht Htm]. split.
  - split; cbn; try done. by apply dense_touch.
  - split; cbn; [|done|eauto|].
    + intros sid'. unfold events_of. by rewrite (log_insert_same (events s)).
    + intros i t Hi. exists t. split; [done|constructor].
Qed.

Lemma in_order_push_message s0 s sid ms m :
  in_order s0 s -> ms = messages_of sid s -> message_seq m = next_seq ms -> message_session_id m = sid ->
  (forall tid, message_turn_id m = Some tid ->
     has_message tid (message_role m) ms = false /\ turn_in_session tid sid s = true) ->
  in_order s0 (s {{ messages ::= <[sid := ms ++ [m]]> }}).
Proof.
  intros Hs -> Hseq Hsid Hturn. eapply in_order_step; [exact Hs|]. intros [He' Hm Ht Htm]. split.
  - split; cbn; try done; [by apply dense_push|]. apply messages_ok_push; [done|].
    intros tid E. destruct (Hturn _ E) as [Hno Hin]. split; [done|].
    apply existsb_elem in Hin as (t & Hin & [E1%N.eqb_eq E2%N.eqb_eq]%andb_prop). eauto.
  - split; cbn; [done| |eauto|].
    + intros sid'. apply log_push_prefix.
    + intros i t Hi. exists t. split; [done|constructor].
Qed.

Lemma in_order_touch_messages s0 s sid :
  in_order s0 s -> in_order s0 (s {{ messages ::= <[sid := messages_of sid s]> }}).
Proof.
  intros Hs. eapply in_order_step; [exact Hs|]. intros [He' Hm Ht Htm]. split.
  - split; cbn; try done; [by apply dense_touch|]. eapply messages_ok_ext; [|done].
    intros sid'. apply log_insert_same.
  - split; cbn; [done| |eauto|].
    + intros sid'. unfold messages_of. by rewrite (log_insert_same (messages s)).
    + intros i t Hi. exists t. split; [done|constructor].
Qed.

(** Turns. *)
Lemma in_order_turns s0 s g :
  in_order s0 s -> turns_change (turns s) (g (turns s)) ->
  (forall i t t', turns s !! i = Some t -> g (turns s) !! i = Some t' -> turn_status t' = "completed" ->
     turn_status t = "completed" \/ has_message (turn_id t) "assistant" (messages_of (turn_session_id t) s) = true) ->
  in_order s0 (s {{ turns ::= g }}).
Proof.
  intros Hs Hc Hmsg. eapply in_order_step; [exact Hs|]. intros [He' Hm Ht Htm]. split.
  - split; cbn; try done; [by eapply turns_ok_change|]. destruct Hc as [HF _]. by eapply messages_ok_turns.
  - split; cbn; [done|done|eauto|]. intros i t Hi. destruct Hc as [HF _].
    eapply Forall2_lookup_l in HF as (t' & ? & ?); [|done]. exists t'. split; [done|]. by apply rtc_once.
Qed.

Lemma in_order_set_turn s0 s i t t' :
  in_order s0 s -> turns s !! i = Some t -> turn_evolves t t' ->
  (turn_status t' = "running" -> turn_status t = "running"
     \/ Forall (fun u => turn_session_id u = turn_session_id t -> turn_status u <> "running") (turns s)) ->
  (turn_status t' = "completed" ->
     turn_status t = "completed" \/ has_message (turn_id t) "assistant" (messages_of (turn_session_id t) s) = true) ->
  in_order s0 (s {{ turns ::= <[i := t']> }}).
Proof.
  intros Hs Ht Hev Hrun Hdone. apply in_order_turns; [done| |].
  - by eapply turns_change_set.
  - pose proof (lookup_lt_Some _ _ _ Ht) as Hlen. intros j u u' Hu Hu' Hc.
    destruct (decide (j = i)) as [->|].
    + rewrite list_lookup_insert_eq in Hu' by done. simplify_eq. by apply Hdone.
    + rewrite list_lookup_insert_ne in Hu' by done. simplify_eq. by left.
Qed.

Lemma in_order_enqueue s0 s sid ms t m r :
  in_order s0 s -> ms = messages_of sid s -> turn_session_id t = sid ->
  sessions s !! sid = Some r -> session_status r <> "ended" ->
  turn_status t = "queued" -> Forall (fun u => turn_id u <> turn_id t) (turns s) ->
  Forall (fun u => turn_session_id u = sid -> client_message_id u <> client_message_id t) (turns s) ->
  message_seq m = next_seq ms -> message_session_id m = sid ->
  message_turn_id m = Some (turn_id t) -> message_role m = "user" -> message_content m = turn_content t ->
  in_order s0 (s {{ messages ::= <[sid := ms ++ [m]]>; turns ::= fun ts => ts ++ [t] }}).
Proof.
  intros Hs -> <- Hr Hend Hq Hid Hcl Hseq Hsid Hmt Hrole Hcontent.
  eapply in_order_step; [exact Hs|]. intros [He' Hm Ht Htm]. split.
  - split; cbn; try done; [by apply dense_push|by eapply turns_ok_push|by apply messages_ok_enqueue].
  - split; cbn; [done| |eauto|].
    + intros sid'. apply log_push_prefix.
    + intros i u Hi. exists u. split; [by apply lookup_app_l_Some|constructor].
Qed.
End Facts.
