(* ===== verification/SessionFacts.v ===== *)
(** * Every call keeps sessions, turns, messages and events in order *)

From coqutil Require Import Datatypes.RecordSetters.
From stdpp Require Import base tactics list strings gmap relations.
From Stdlib Require Import NArith ZArith Lia.
From S2P Require Import Prelude BTree Text Strings Value ScopedMap Vecs Redaction ServerBase Evolution StoreModel StoreSessions StoreQueues StoreApprovals StoreLogic TurnFacts.
Import DoubleBraceUpdate.

(** Peels the updates off the tables, one lemma each; the updates are recognised by
    the table they are of. *)
Ltac order :=
  repeat match goal with
  | H : ?P |- ?P => exact H
  | |- in_order _ (apply_update (mk_update configured_owner_subject _) _) => apply in_order_owner
  | |- in_order _ (apply_update (mk_update dream_queue _) _) => apply in_order_dreams
  | |- in_order _ (apply_update (mk_update cron_jobs _) _) => apply in_order_jobs
  | |- in_order _ (apply_update (mk_update cron_runs _) _) => apply in_order_runs
  | |- in_order _ (apply_update (mk_update approval_requests _) _) => apply in_order_approvals
  | |- in_order _ (apply_update (mk_update approval_effects _) _) => apply in_order_effects
  | |- in_order _ (apply_update (mk_update evolution_audits _) _) => apply in_order_audits
  | |- in_order _ (apply_update (mk_update events (<[_ := _ ++ [_]]>)) _) =>
      apply in_order_push_event; [|by rewrite ?events_of_set|done|done]
  | |- in_order _ (apply_update (mk_update events _) _) => apply in_order_touch_events
  | |- in_order _ (apply_update (mk_update messages (<[_ := messages_of _ _]>)) _) => apply in_order_touch_messages
  | |- in_order _ (apply_update (mk_update sessions (alter _ _)) _) => apply in_order_alter; [|by intros]
  | |- in_order _ (apply_update (mk_update sessions (alter _ _)) _) =>
      apply in_order_end; [|by intros|by apply negb_true_iff]
  end.

Section Facts.
Context `{RegexEngine} `{JsonNumber} `{Sha256} `{UuidText} `{Chrono} `{BuildProfile} `{!MetadataCodec}.

(** Goals about the tables after a call, one per way it can end. *)
Abbreviation ordered s0 := (fun _ s' => in_order s0 s').

(** ** Sessions *)

Lemma ordered_create_session new id now s :
  session_inv s -> sessions s !! id = None -> tx_wp (create_session new id now) (ordered s) s.
Proof.
  intros Hs%in_order_refl Hnone. unfold create_session. tx_steps.
  assert (Hother : forall sid r, sessions s !! sid = Some r -> sid <> id) by congruence.
  apply in_order_sessions; [done| |].
  - intros sid r Hr. exists r. rewrite lookup_insert_ne by (symmetry; eauto). auto.
  - intros sid r r' Hr. rewrite lookup_insert_ne by (symmetry; eauto). congruence.
Qed.

Lemma ordered_configure_owner_subject owner now s :
  session_inv s -> tx_wp (configure_owner_subject owner now) (ordered s) s.
Proof.
  intros Hs%in_order_refl. unfold configure_owner_subject. tx_steps; order.
  apply in_order_fmap; [order|]. intros r. by destruct (String.eqb (owner_subject r) (trim owner)).
Qed.

Lemma ordered_set_session_memory_context sid project policy now s :
  session_inv s -> tx_wp (set_session_memory_context sid project policy now) (ordered s) s.
Proof.
  intros Hs%in_order_refl. unfold set_session_memory_context, get_session, update_session. tx_steps; order.
Qed.

Lemma ordered_end_session sid now s : session_inv s -> tx_wp (end_session sid now) (ordered s) s.
Proof.
  intros Hs%in_order_refl. unfold end_session, get_session, update_session. tx_steps; order.
Qed.

Lemma ordered_set_mode_state sid state now s : session_inv s -> tx_wp (set_mode_state sid state now) (ordered s) s.
Proof. intros Hs%in_order_refl. unfold set_mode_state, get_session, update_session. tx_steps; order. Qed.

(** ** Messages and events *)

Lemma ordered_append_message sid role content turn now s :
  session_inv s -> tx_wp (append_message_for_turn sid role content turn now) (ordered s) s.
Proof.
  intros Hs%in_order_refl.
  unfold append_message_for_turn, get_session, check_turn, set_messages, touch_session, update_session.
  tx_steps; order; (apply in_order_push_message; [order|done|done|done|]); cbn; [|done].
  intros tid [= <-]. split; [by apply negb_true_iff|done].
Qed.

Lemma ordered_append_event sid type payload turn now s :
  session_inv s -> tx_wp (append_event_for_turn sid type payload turn now) (ordered s) s.
Proof.
  intros Hs%in_order_refl.
  unfold append_event_for_turn, get_session, check_turn, set_events, touch_session, update_session.
  tx_steps; order.
Qed.

Lemma ordered_append_event_once sid type payload turn now s :
  session_inv s -> tx_wp (append_event_for_turn_once sid type payload turn now) (ordered s) s.
Proof.
  intros Hs%in_order_refl.
  unfold append_event_for_turn_once, get_session, check_turn, set_events, touch_session, update_session.
  tx_steps; order.
Qed.

(** ** Turns *)

Lemma turn_in_session_lookup s i t :
  turns s !! i = Some t -> turn_in_session (turn_id t) (turn_session_id t) s = true.
Proof.
  intros Ht. apply existsb_elem. exists t. rewrite !N.eqb_refl. split; [by eapply list_elem_of_lookup_2|done].
Qed.

Lemma find_turn_Some s id i t :
  find_at (fun t => (turn_id t =? id)%N) (turns s) = Some (i, t) -> turns s !! i = Some t /\ turn_id t = id.
Proof. intros (Ht & Hid%N.eqb_eq & _)%find_at_Some. done. Qed.

Lemma owned_by_true worker t : owned_by worker t = true -> turn_status t = "running" /\ turn_worker_id t = Some worker.
Proof. unfold owned_by. by intros [?%String.eqb_eq ?%bool_decide_eq_true]%andb_prop. Qed.

Lemma ordered_enqueue_turn sid client content id now s :
  session_inv s -> Forall (fun t => turn_id t <> id) (turns s) ->
  tx_wp (enqueue_turn sid client content id now) (ordered s) s.
Proof.
  intros Hs%in_order_refl Hfresh. unfold enqueue_turn, get_session, set_messages, touch_session, update_session.
  tx_steps; order. eapply in_order_enqueue; [done|done|done|eassumption| |done|done| |done..].
  - by apply String.eqb_neq, negb_true_iff.
  - apply find_first_None in Hcase. eapply Forall_impl; [exact Hcase|]. cbn. intros u Hu Hsid Hcl.
    by rewrite Hsid, Hcl, N.eqb_refl, String.eqb_refl in Hu.
Qed.

Lemma turn_claimable_true s t :
  turn_claimable s t = true ->
  turn_status t = "queued"
  /\ Forall (fun u => turn_session_id u = turn_session_id t -> turn_status u <> "running") (turns s)
  /\ exists r, sessions s !! turn_session_id t = Some r /\ session_status r <> "ended".
Proof.
  unfold turn_claimable, session_open_for_claims.
  intros [[Hq%String.eqb_eq Hr%negb_true_iff%existsb_false_Forall]%andb_prop Ho]%andb_prop. split_and!; [done| |].
  - eapply Forall_impl; [exact Hr|]. cbn. intros u Hu Hsid Hrun. by rewrite Hsid, Hrun, N.eqb_refl in Hu.
  - destruct (sessions s !! _) as [r|]; [|done]. exists r. split; [done|]. by apply String.eqb_neq, negb_true_iff.
Qed.

Lemma ordered_claim_next_turn worker now s : session_inv s -> tx_wp (claim_next_turn worker now) (ordered s) s.
Proof.
  intros Hs%in_order_refl. unfold claim_next_turn, set_turn. tx_steps; order.
  apply min_at_lookup in Hcase as [Ht (Hq & Hrun & _)%turn_claimable_true].
  eapply in_order_set_turn; [done|done| |by right|done]. unfold turn_evolves; cbn. naive_solver.
Qed.

Lemma ordered_fail_stale stale at_ error s :
  session_inv s -> tx_wp (fail_stale_running_turns stale at_ error) (ordered s) s.
Proof.
  intros Hs%in_order_refl. unfold fail_stale_running_turns. tx_steps.
  apply in_order_turns; [done| |].
  - apply turns_change_where. intros t [Hr%String.eqb_eq _]%andb_prop. split; [|done].
    unfold turn_evolves; cbn. naive_solver.
  - intros i t t' Ht. unfold update_where. rewrite list_lookup_fmap, Ht. intros [= <-].
    destruct (turn_is_stale stale t); [done|]. by left.
Qed.

(** A change of the turn a worker owns. *)
Lemma ordered_owned s0 s id worker i t t' :
  in_order s0 s -> find_at (fun t => (turn_id t =? id)%N) (turns s) = Some (i, t) -> owned_by worker t = true ->
  turn_id t' = turn_id t -> turn_session_id t' = turn_session_id t ->
  client_message_id t' = client_message_id t -> turn_content t' = turn_content t ->
  content_hash t' = content_hash t -> turn_created_at t' = turn_created_at t ->
  turn_status t' = "running" \/ turn_status t' = "failed"
  \/ (turn_status t' = "completed" /\ has_message id "assistant" (messages_of (turn_session_id t) s) = true) ->
  in_order s0 (s {{ turns ::= <[i := t']> }}).
Proof.
  intros Hs [Ht Hid]%find_turn_Some [Hr _]%owned_by_true ? ? ? ? ? ? Hst.
  eapply in_order_set_turn; [done|done| |by left|].
  - unfold turn_evolves. split_and!; [done..|]. right; right. destruct Hst as [?|[?|[? _]]]; auto.
  - rewrite Hid. intros Hc. right. destruct Hst as [?|[?|[_ ?]]]; [congruence..|done].
Qed.

Lemma ordered_heartbeat_turn id worker now s : session_inv s -> tx_wp (heartbeat_turn id worker now) (ordered s) s.
Proof.
  intros Hs%in_order_refl. unfold heartbeat_turn, find_turn, set_turn. tx_steps; order.
  eapply ordered_owned; try done. left. by eapply owned_by_true.
Qed.

Lemma ordered_complete_turn id worker content at_ s :
  session_inv s -> tx_wp (complete_turn id worker content at_) (ordered s) s.
Proof.
  intros Hs%in_order_refl.
  unfold complete_turn, find_turn, set_turn, set_messages, touch_session, update_session. tx_steps; order.
  eapply ordered_owned; try done.
  - apply in_order_push_message; [order|by rewrite messages_of_set|done|done|]. cbn. intros tid [= <-].
    split; [by apply negb_true_iff|].
    match goal with Hf : find_at _ _ = Some _ |- _ => apply find_turn_Some in Hf as [Ht <-] end. by eapply turn_in_session_lookup.
  - right. right. split; [done|]. cbn [turn_session_id]. rewrite messages_of_set, has_message_app.
    apply orb_true_iff. right. cbn. by rewrite bool_decide_true.
Qed.

Lemma ordered_fail_turn id worker error at_ s : session_inv s -> tx_wp (fail_turn id worker error at_) (ordered s) s.
Proof.
  intros Hs%in_order_refl. unfold fail_turn, find_turn, set_turn. tx_steps; order.
  eapply ordered_owned; try done. by right; left.
Qed.

(** ** Calls on the other tables *)

(** Walks through a call that changes none of these tables, or only by [order]. *)
Ltac walk :=
  unfold push_event, touch_session, check_session, get_session, check_turn, set_events, update_session,
    set_dream, push_dream, set_job, set_run, push_run, set_effect, push_effect, set_approval, cron_job,
    find_job, find_fire, run_claimed, increment, before, leased_dream, leased_run, leased_effect,
    append_audit, append_evolution_audit_in_memory;
  tx_steps; order.

Lemma ordered_enqueue_dream new id now s0 s :
  in_order s0 s -> tx_wp (enqueue_dream new id now) (ordered s0) s.
Proof. intros. unfold enqueue_dream. walk. Qed.

Lemma ordered_claim_dream now timeout owner max s0 s :
  in_order s0 s -> tx_wp (claim_ready_dream_bounded now timeout owner max) (ordered s0) s.
Proof. intros. unfold claim_ready_dream_bounded. walk. Qed.

Lemma ordered_heartbeat_dream lease now s0 s : in_order s0 s -> tx_wp (heartbeat_dream lease now) (ordered s0) s.
Proof. intros. unfold heartbeat_dream. walk. Qed.

Lemma ordered_complete_dream lease now s0 s : in_order s0 s -> tx_wp (complete_dream lease now) (ordered s0) s.
Proof. intros. unfold complete_dream. walk. Qed.

Lemma ordered_fail_dream lease error next max now s0 s :
  in_order s0 s -> tx_wp (fail_dream lease error next max now) (ordered s0) s.
Proof. intros. unfold fail_dream. walk. Qed.

Lemma ordered_end_session_and_enqueue_dream sid subject scope id now available s0 s :
  in_order s0 s -> tx_wp (end_session_and_enqueue_dream sid subject scope id now available) (ordered s0) s.
Proof. intros. unfold end_session_and_enqueue_dream. walk. Qed.

Lemma ordered_upsert_cron_job job now s0 s : in_order s0 s -> tx_wp (upsert_cron_job job now) (ordered s0) s.
Proof. intros. unfold upsert_cron_job. walk. Qed.

Lemma ordered_materialize_cron_run run expected next id now started s0 s :
  in_order s0 s -> tx_wp (materialize_cron_run run expected next id now started) (ordered s0) s.
Proof. intros. unfold materialize_cron_run. walk. Qed.

Lemma ordered_claim_ready_cron_run owner now timeout max s0 s :
  in_order s0 s -> tx_wp (claim_ready_cron_run owner now timeout max) (ordered s0) s.
Proof. intros. unfold claim_ready_cron_run. walk. Qed.

Lemma ordered_claim_cron_run run owner now timeout id s0 s :
  in_order s0 s -> tx_wp (claim_cron_run run owner now timeout id) (ordered s0) s.
Proof. intros. unfold claim_cron_run. walk. Qed.

Lemma ordered_record_cron_run run id now s0 s : in_order s0 s -> tx_wp (record_cron_run run id now) (ordered s0) s.
Proof. intros. unfold record_cron_run. walk. Qed.

Lemma ordered_heartbeat_cron_run lease now s0 s :
  in_order s0 s -> tx_wp (heartbeat_cron_run lease now) (ordered s0) s.
Proof. intros. unfold heartbeat_cron_run. walk. Qed.

Lemma ordered_complete_cron_run lease status sid result now s0 s :
  in_order s0 s -> tx_wp (complete_cron_run lease status sid result now) (ordered s0) s.
Proof. intros. unfold complete_cron_run. walk. Qed.

Lemma ordered_fail_cron_run lease error next max s0 s :
  in_order s0 s -> tx_wp (fail_cron_run lease error next max) (ordered s0) s.
Proof. intros. unfold fail_cron_run. walk. Qed.

Lemma ordered_create_approval_request request audit s0 s :
  in_order s0 s -> tx_wp (create_approval_request request audit) (ordered s0) s.
Proof. intros. unfold create_approval_request. walk. Qed.

Lemma ordered_heartbeat_approval_request id requester now s0 s :
  in_order s0 s -> tx_wp (heartbeat_approval_request id requester now) (ordered s0) s.
Proof. intros. unfold heartbeat_approval_request. walk. Qed.

Lemma ordered_resolve sid id resolution audit s0 s :
  in_order s0 s -> tx_wp (resolve_approval_in_memory sid id resolution audit) (ordered s0) s.
Proof. intros. unfold resolve_approval_in_memory. walk. Qed.

Lemma ordered_resolve_with_event sid id resolution audit s0 s :
  in_order s0 s -> tx_wp (resolve_approval_with_event_in_memory sid id resolution audit) (ordered s0) s.
Proof.
  intros. unfold resolve_approval_with_event_in_memory. apply tx_wp_bind, tx_wp_ensure; [|done]. intros _.
  apply tx_wp_bind. eapply tx_wp_mono; [by apply ordered_resolve|]. intros [] s' Hs'; [|done..]. walk.
Qed.

Lemma ordered_sweep status reason now candidates : forall audits s0 s,
  in_order s0 s -> tx_wp (sweep status reason now candidates audits) (ordered s0) s.
Proof.
  induction candidates as [|a rest IH]; intros audits s0 s Hs; cbn [sweep]; [by tx_steps|].
  apply tx_wp_bind. eapply tx_wp_mono; [by apply ordered_resolve_with_event|]. intros [] s1 Hs1; [|done..].
  apply tx_wp_bind. eapply tx_wp_mono; [by apply IH|]. intros [] s2 Hs2; [|done..]. by tx_steps.
Qed.

Lemma ordered_link_approval_event sid id type seq s0 s :
  in_order s0 s -> tx_wp (link_approval_event sid id type seq) (ordered s0) s.
Proof. intros. unfold link_approval_event. walk. Qed.

Lemma ordered_claim_approval_effect id owner now timeout s0 s :
  in_order s0 s -> tx_wp (claim_approval_effect id owner now timeout) (ordered s0) s.
Proof. intros. unfold claim_approval_effect, claim_approval_effect_at. walk. Qed.

Lemma ordered_claim_next_approval_effect owner now timeout s0 s :
  in_order s0 s -> tx_wp (claim_next_approval_effect owner now timeout) (ordered s0) s.
Proof. intros. unfold claim_next_approval_effect, claim_approval_effect_at. walk. Qed.

Lemma ordered_heartbeat_approval_effect lease now s0 s :
  in_order s0 s -> tx_wp (heartbeat_approval_effect lease now) (ordered s0) s.
Proof. intros. unfold heartbeat_approval_effect. walk. Qed.

Lemma ordered_complete_approval_effect lease at_ s0 s :
  in_order s0 s -> tx_wp (complete_approval_effect lease at_) (ordered s0) s.
Proof. intros. unfold complete_approval_effect. walk. Qed.

Lemma ordered_complete_approval_effect_with_event lease payload turn at_ audit s0 s :
  in_order s0 s -> tx_wp (complete_approval_effect_with_event lease payload turn at_ audit) (ordered s0) s.
Proof. intros. unfold complete_approval_effect_with_event. walk. Qed.

Lemma ordered_fail_approval_effect lease error next max at_ audit s0 s :
  in_order s0 s -> tx_wp (fail_approval_effect lease error next max at_ audit) (ordered s0) s.
Proof. intros. unfold fail_approval_effect. walk. Qed.

Lemma ordered_append_evolution_audit entry s0 s :
  in_order s0 s -> tx_wp (append_evolution_audit entry) (ordered s0) s.
Proof. intros. unfold append_evolution_audit. walk. Qed.

Lemma ordered_persist_bundle approval proposal_payload approval_payload audit s0 s :
  in_order s0 s -> tx_wp (persist_bundle approval proposal_payload approval_payload audit) (ordered s0) s.
Proof.
  intros. unfold persist_bundle. walk.
  all: apply in_order_push_event; [order|by rewrite events_of_set| |done].
  all: unfold next_seq; rewrite length_app; cbn; lia.
Qed.

Lemma ordered_skill_bundle bundle unchanged audit s0 s :
  in_order s0 s -> tx_wp (create_skill_approval_bundle bundle unchanged audit) (ordered s0) s.
Proof.
  intros. unfold create_skill_approval_bundle. unfold get_session. tx_steps; order.
  all: by apply ordered_persist_bundle.
Qed.

Lemma ordered_review_bundle bundle accepted blocked known audit s0 s :
  in_order s0 s -> tx_wp (create_auto_evolution_review_bundle bundle accepted blocked known audit) (ordered s0) s.
Proof.
  intros. unfold create_auto_evolution_review_bundle. unfold get_session, find_turn. tx_steps; order.
  all: eapply tx_wp_mono; [by apply ordered_persist_bundle|]; intros [] s' Hs'; [|done..]; by tx_steps.
Qed.

Lemma ordered_skill_exposures sid turn skills now s :
  session_inv s -> tx_wp (record_skill_exposures_for_turn sid turn skills now) (ordered s) s.
Proof.
  intros Hs%in_order_refl.
  unfold record_skill_exposures_for_turn, get_session, check_turn, set_events, touch_session, update_session.
  tx_steps; order.
Qed.
End Facts.
