(* ===== verification/SessionSafety.v ===== *)
(** * What clients of the store can rely on: turns, messages and events *)

From coqutil Require Import Datatypes.RecordSetters.
From stdpp Require Import base tactics list strings gmap relations.
From Stdlib Require Import NArith ZArith Lia.
From S2P Require Import Prelude BTree Text Strings Value ScopedMap Vecs Redaction ServerBase Evolution StoreModel StoreSessions StoreQueues StoreApprovals StoreLogic TurnFacts SessionFacts.
Import DoubleBraceUpdate.

Section Safety.
Context `{RegexEngine} `{JsonNumber} `{Sha256} `{UuidText} `{Chrono} `{BuildProfile} `{!MetadataCodec}.

Lemma step_in_order s s' : store_step s s' -> session_inv s -> in_order s s'.
Proof.
  intros Hstep Hs. pose proof (in_order_refl _ Hs) as Ho. destruct Hstep.
  - by apply ordered_create_session.
  - by apply ordered_configure_owner_subject.
  - by apply ordered_set_session_memory_context.
  - by apply ordered_end_session.
  - by apply ordered_end_session_and_enqueue_dream.
  - by apply ordered_set_mode_state.
  - by apply ordered_append_message.
  - by apply ordered_append_event.
  - by apply ordered_append_event_once.
  - by apply ordered_enqueue_turn.
  - by apply ordered_claim_next_turn.
  - by apply ordered_fail_stale.
  - by apply ordered_heartbeat_turn.
  - by apply ordered_complete_turn.
  - by apply ordered_fail_turn.
  - by apply ordered_enqueue_dream.
  - by apply ordered_claim_dream.
  - by apply ordered_heartbeat_dream.
  - by apply ordered_complete_dream.
  - by apply ordered_fail_dream.
  - by apply ordered_upsert_cron_job.
  - by apply ordered_materialize_cron_run.
  - by apply ordered_claim_ready_cron_run.
  - by apply ordered_claim_cron_run.
  - by apply ordered_record_cron_run.
  - by apply ordered_heartbeat_cron_run.
  - by apply ordered_complete_cron_run.
  - by apply ordered_fail_cron_run.
  - by apply ordered_create_approval_request.
  - by apply ordered_heartbeat_approval_request.
  - by apply ordered_resolve.
  - by apply ordered_resolve_with_event.
  - by apply ordered_link_approval_event.
  - by apply ordered_sweep.
  - by apply ordered_sweep.
  - by apply ordered_claim_approval_effect.
  - by apply ordered_claim_next_approval_effect.
  - by apply ordered_heartbeat_approval_effect.
  - by apply ordered_complete_approval_effect.
  - by apply ordered_complete_approval_effect_with_event.
  - by apply ordered_fail_approval_effect.
  - by apply ordered_append_evolution_audit.
  - by apply ordered_skill_bundle.
  - by apply ordered_review_bundle.
  - by apply ordered_skill_exposures.
Qed.

Lemma steps_in_order s s' : rtc store_step s s' -> session_inv s -> in_order s s'.
Proof.
  induction 1 as [s|s s1 s2 Hstep _ IH]; intros Hs; [by apply in_order_refl|].
  eapply in_order_step; [by eapply step_in_order|done].
Qed.

Lemma session_inv_default : session_inv inner_default.
Proof.
  split; cbn.
  - intros sid l k x Hl. by rewrite lookup_empty in Hl.
  - intros sid l k x Hl. by rewrite lookup_empty in Hl.
  - split; cbn; try done; [constructor|intros t Ht; by apply elem_of_nil in Ht..].
  - split; unfold log; intros *; rewrite ?lookup_empty; cbn; try done; try lia;
      intros Hin; by apply elem_of_nil in Hin.
Qed.

Lemma reachable_session_inv s : reachable s -> session_inv s.
Proof. intros Hr. by destruct (steps_in_order _ _ Hr session_inv_default). Qed.

(** ** Turns *)

Definition is_terminal (t : SessionTurnRecord) : Prop := turn_status t = "completed" \/ turn_status t = "failed".

Lemma evolves_terminal t t' : is_terminal t -> rtc turn_evolves t t' -> t' = t.
Proof.
  intros Ht Hr. induction Hr as [t|t u v Hev _ IH]; [done|].
  destruct Hev as (_ & _ & _ & _ & _ & _ & [->|[[Hq _]|[Hq _]]]); [by apply IH|destruct Ht; congruence..].
Qed.

Lemma evolves_same t t' : rtc turn_evolves t t' ->
  turn_id t' = turn_id t /\ turn_session_id t' = turn_session_id t
  /\ client_message_id t' = client_message_id t /\ turn_content t' = turn_content t
  /\ content_hash t' = content_hash t /\ turn_created_at t' = turn_created_at t.
Proof.
  induction 1 as [t|t u v Hev _ IH]; [done|].
  destruct Hev as (-> & -> & -> & -> & -> & -> & _) in IH |- *. done.
Qed.

(** C14: In every reachable state of the store at most one turn of a session is
    running, a session that has ended has no queued and no running turn, and
    identifiers of turns and of client messages are not used twice.  Each turn has
    exactly one user message, with the turn's content, and at most one message of any
    other role; a completed turn has exactly one assistant message. *)
Theorem turn_table_sound s : reachable s ->
  NoDup (List.map turn_id (turns s))
  /\ (forall i j t u, turns s !! i = Some t -> turns s !! j = Some u ->
        turn_session_id t = turn_session_id u ->
        (client_message_id t = client_message_id u -> i = j)
        /\ (turn_status t = "running" -> turn_status u = "running" -> i = j))
  /\ (forall t, t ∈ turns s -> exists r, sessions s !! turn_session_id t = Some r
        /\ (session_status r = "ended" -> is_pending (turn_status t) = false))
  /\ (forall t role, t ∈ turns s ->
        count_where (is_message (turn_id t) role) (messages_of (turn_session_id t) s) <= 1)
  /\ (forall t, t ∈ turns s -> exists m, m ∈ messages_of (turn_session_id t) s
        /\ is_message (turn_id t) "user" m = true /\ message_content m = turn_content t)
  /\ (forall t, t ∈ turns s -> turn_status t = "completed" ->
        has_message (turn_id t) "assistant" (messages_of (turn_session_id t) s) = true).
Proof.
  intros [_ _ [Hnd Hs Hc Hr Hn] [_ Ho Hu Ha]]%reachable_session_inv. split_and!; [done| | | | |done].
  - intros i j t u Hi Hj Hss. split; intros; [by eapply Hc|by eapply Hr].
  - intros t Ht. destruct (Hs _ Ht) as [r Hr']. exists r. split; [done|]. intros Hend.
    destruct (is_pending (turn_status t)) eqn:Hp; [|done]. by destruct (Hn _ _ Ht Hp Hr').
  - intros t role _. apply Ho.
  - intros t Ht. destruct (Hu _ Ht) as (m & Hm & Hid & Hrole & Hcontent). exists m. split; [done|]. split; [|done].
    unfold is_message. by rewrite bool_decide_true, Hrole.
Qed.

(** C15: Whatever calls follow, the record of a turn stays at its place with its
    identifiers, its content and its creation time; a turn that has completed or
    failed does not change any more, and one that has started is not queued again.
    No message and no event is lost or rewritten, and a session that has ended stays
    ended. *)
Theorem history_is_kept s s' : reachable s -> rtc store_step s s' ->
  (forall i t, turns s !! i = Some t -> exists t', turns s' !! i = Some t'
     /\ turn_id t' = turn_id t /\ turn_session_id t' = turn_session_id t
     /\ client_message_id t' = client_message_id t /\ turn_content t' = turn_content t
     /\ turn_created_at t' = turn_created_at t
     /\ (is_terminal t -> t' = t) /\ (turn_status t' = "queued" -> t' = t))
  /\ (forall sid, messages_of sid s `prefix_of` messages_of sid s')
  /\ (forall sid, events_of sid s `prefix_of` events_of sid s')
  /\ (forall sid r, sessions s !! sid = Some r -> exists r', sessions s' !! sid = Some r'
        /\ (session_status r = "ended" -> session_status r' = "ended")).
Proof.
  intros Hr%reachable_session_inv Hsteps.
  destruct (steps_in_order _ _ Hsteps Hr) as [_ [He Hm Hs Ht]]. split_and!; [|done..].
  intros i t Hi. destruct (Ht _ _ Hi) as (t' & Ht' & Hev). exists t'. split; [done|].
  destruct (evolves_same _ _ Hev) as (? & ? & ? & ? & _ & ?). split_and!; [done..| |].
  - intros. by eapply evolves_terminal.
  - clear -Hev. intros Hq. induction Hev as [t|t u v Hev _ IH]; [done|]. specialize (IH Hq) as ->.
    destruct Hev as (_ & _ & _ & _ & _ & _ & [->|[[_ Hu]|[_ [Hu|[Hu|Hu]]]]]); congruence.
Qed.

(** ** Resuming a stream of events *)

Lemma dense_filter_drop (es : list SessionEvent) (base n : nat) :
  (forall k e, es !! k = Some e -> event_seq e = (Z.of_nat (base + k) + 1)%Z) ->
  List.filter (fun e => (Z.of_nat (base + n) <? event_seq e)%Z) es = drop n es.
Proof.
  revert base n. induction es as [|e es IH]; intros base n Hseq; [by rewrite drop_nil|].
  pose proof (Hseq 0 e eq_refl) as He. cbn [List.filter].
  assert (Htail : forall k e', es !! k = Some e' -> event_seq e' = (Z.of_nat (S base + k) + 1)%Z).
  { intros k e' Hk. rewrite (Hseq (S k) e' Hk). lia. }
  destruct n as [|n].
  - rewrite (proj2 (Z.ltb_lt _ _)) by lia. cbn [drop]. f_equal. rewrite <-(drop_0 es) at 2.
    rewrite <-(IH (S base) 0 Htail). apply filter_ext_in. intros e' Hin%list_elem_of_In.
    apply list_elem_of_lookup_1 in Hin as [k Hk]. rewrite (Htail _ _ Hk).
    rewrite !(proj2 (Z.ltb_lt _ _)) by lia. done.
  - rewrite (proj2 (Z.ltb_ge _ _)) by lia. cbn [drop]. rewrite <-(IH (S base) n Htail).
    apply filter_ext_in. intros e' _. f_equal. lia.
Qed.

(** C16: A client that has read all events of a session and asks later, with the
    number of the last one, for what came after it gets exactly the events that were
    appended in the meantime, in their order: nothing is missed and nothing repeated. *)
Theorem events_resume s s' sid : reachable s -> rtc store_step s s' -> is_Some (sessions s !! sid) ->
  exists new,
    events_of sid s' = events_of sid s ++ new
    /\ events_after sid (Some (Z.of_nat (length (events_of sid s)))) s' = (Ok new, s').
Proof.
  intros Hr%reachable_session_inv Hsteps [r Hsid].
  destruct (steps_in_order _ _ Hsteps Hr) as [Hs' [He _ Hss _]]. destruct (He sid) as [new Hnew].
  destruct (Hss _ _ Hsid) as (r' & Hr' & _). exists new. split; [exact Hnew|].
  assert (Hdrop : List.filter (fun e => (Z.of_nat (0 + length (events_of sid s)) <? event_seq e)%Z) (events_of sid s') = new).
  { rewrite (dense_filter_drop (events_of sid s') 0).
    - unfold events_of at 2. fold (log (events s') sid). by rewrite Hnew, drop_app_length.
    - intros k e Hk. by apply (dense_log _ _ _ _ _ _ (inv_events _ Hs')) in Hk as [-> _]. }
  unfold events_after, get_session, mbind, tx_mbind, tx_bind, reads, or_refuse. rewrite Hr'.
  by rewrite <-Hdrop.
Qed.

(** ** Retrying a message *)

Lemma turn_by_client s sid client i t :
  session_inv s -> turns s !! i = Some t -> turn_session_id t = sid -> client_message_id t = client ->
  find_first (fun t => (turn_session_id t =? sid)%N && String.eqb (client_message_id t) client) (turns s) = Some t.
Proof.
  intros Hs Hi Hsid Hcl. unfold find_first.
  destruct (find_at _ (turns s)) as [[j u]|] eqn:Hf.
  - apply find_at_Some in Hf as (Hj & [E1%N.eqb_eq E2%String.eqb_eq]%andb_prop & _). cbn. f_equal.
    assert (j = i) as ->; [|congruence].
    eapply (turns_client _ _ (inv_turns _ Hs)); [exact Hj|exact Hi|congruence..].
  - apply find_at_None in Hf. rewrite Forall_forall in Hf. apply list_elem_of_lookup_2 in Hi.
    specialize (Hf _ Hi). by rewrite Hsid, Hcl, N.eqb_refl, String.eqb_refl in Hf.
Qed.

(** What an accepted message leaves: the turn in the table. *)
Lemma enqueue_turn_ok sid client content id now s t s1 :
  enqueue_turn sid client content id now s = (Ok t, s1) ->
  t ∈ turns s1 /\ turn_session_id t = sid /\ client_message_id t = trim client
  /\ content_hash t = turn_content_hash content
  /\ (negb (is_empty (trim client) || (128 <? length (chars (trim client)))%nat)) = true
  /\ validate_persistence_identifier "client message id" (trim client) = Ok tt
  /\ negb (is_empty (trim content)) = true.
Proof.
  intros E.
  assert (W : tx_wp (enqueue_turn sid client content id now) (fun r s' => forall t, r = Ok t ->
    t ∈ turns s' /\ turn_session_id t = sid /\ client_message_id t = trim client
    /\ content_hash t = turn_content_hash content
    /\ (negb (is_empty (trim client) || (128 <? length (chars (trim client)))%nat)) = true
    /\ validate_persistence_identifier "client message id" (trim client) = Ok tt
    /\ negb (is_empty (trim content)) = true) s).
  { unfold enqueue_turn, get_session, set_messages, touch_session, update_session. tx_steps; intros ? [= <-].
    - match goal with Hf : find_first _ _ = Some _ |- _ =>
        apply find_first_Some in Hf as (? & [?%N.eqb_eq ?%String.eqb_eq]%andb_prop) end.
      split_and!; try done; [by apply String.eqb_eq|by destruct a].
    - split_and!; try done; [|by destruct a]. apply elem_of_app. right. by apply list_elem_of_singleton. }
  unfold tx_wp in W. rewrite E in W. by apply W.
Qed.

(** A message whose client identifier is in use in the session. *)
Lemma enqueue_turn_again sid client content id now s t r :
  session_inv s -> t ∈ turns s -> turn_session_id t = sid -> client_message_id t = trim client ->
  (negb (is_empty (trim client) || (128 <? length (chars (trim client)))%nat)) = true ->
  validate_persistence_identifier "client message id" (trim client) = Ok tt ->
  negb (is_empty (trim content)) = true ->
  sessions s !! sid = Some r -> session_status r <> "ended" ->
  enqueue_turn sid client content id now s =
    (if String.eqb (content_hash t) (turn_content_hash content) then Ok t
     else Err (SConflict ("client message id " +:+ trim client +:+ " was already used with different content")), s).
Proof.
  intros Hs [i Hi]%list_elem_of_lookup_1 Hsid Hcl Hlen Hval Hcontent Hr Hend.
  pose proof (turn_by_client s sid (trim client) i t Hs Hi Hsid Hcl) as Hfind.
  apply String.eqb_neq in Hend. apply tx_wp_eq. unfold enqueue_turn, get_session.
  tx_steps; try congruence; simplify_eq; rewrite ?Hend in *; try done;
    by match goal with E : String.eqb _ _ = _ |- _ => rewrite E end.
Qed.

(** Sending a message again is free.  After a message was accepted, and whatever
    happened since, sending it again under the same client identifier answers with the
    same turn and changes nothing, as long as the session has not ended; sending other
    content under that identifier is refused as a conflict and changes nothing. *)
Lemma enqueue_turn_retry sid client content id now s t s1 s2 id' now' r :
  reachable s -> Forall (fun u => turn_id u <> id) (turns s) ->
  enqueue_turn sid client content id now s = (Ok t, s1) -> rtc store_step s1 s2 ->
  sessions s2 !! sid = Some r -> session_status r <> "ended" ->
  (exists t', turn_id t' = turn_id t /\ t' ∈ turns s2
     /\ enqueue_turn sid client content id' now' s2 = (Ok t', s2))
  /\ (forall other, is_empty (trim other) = false -> turn_content_hash other <> turn_content_hash content ->
        exists message, enqueue_turn sid client other id' now' s2 = (Err (SConflict message), s2)).
Proof.
  intros Hs%reachable_session_inv Hfresh Henq Hsteps Hr Hend.
  assert (Hstep : in_order s s1).
  { pose proof (ordered_enqueue_turn sid client content id now s Hs Hfresh) as W. unfold tx_wp in W.
    by rewrite Henq in W. }
  destruct Hstep as [Hs1 _]. destruct (steps_in_order _ _ Hsteps Hs1) as [Hs2 [_ _ _ Ht]].
  apply enqueue_turn_ok in Henq as ([i Hi]%list_elem_of_lookup_1 & Hsid & Hcl & Hhash & Hlen & Hval & Hcontent).
  destruct (Ht _ _ Hi) as (t' & Ht' & Hev). apply evolves_same in Hev as (Hid' & Hsid' & Hcl' & _ & Hhash' & _).
  rewrite Hsid in Hsid'. rewrite Hcl in Hcl'. rewrite Hhash in Hhash'. apply list_elem_of_lookup_2 in Ht'. split.
  - exists t'. split_and!; [done|done|]. erewrite enqueue_turn_again; [|eassumption..].
    by rewrite Hhash', String.eqb_refl.
  - intros other Hother Hne. eexists. erewrite enqueue_turn_again; [|try eassumption..].
    + rewrite Hhash', (proj2 (String.eqb_neq _ _)); [done|congruence].
    + by apply negb_true_iff.
Qed.

(** ** The order of the claims *)

Lemma turn_before_spec a b :
  turn_before a b = true <->
  (turn_created_at a < turn_created_at b
   \/ (turn_created_at a = turn_created_at b /\ (turn_id a < turn_id b)%N))%Z.
Proof. unfold turn_before. by rewrite orb_true_iff, andb_true_iff, Z.ltb_lt, Z.eqb_eq, N.ltb_lt. Qed.

Lemma turn_before_asym a b : turn_before a b = true -> turn_before b a = false.
Proof. rewrite <-not_true_iff_false, !turn_before_spec. lia. Qed.

Lemma turn_before_trans a b c : turn_before a b = false -> turn_before b c = false -> turn_before a c = false.
Proof. rewrite <-!not_true_iff_false, !turn_before_spec. lia. Qed.

(** A worker is handed the oldest turn it may work on.  When a claim answers with
    a turn, that turn was queued in an open session without a running turn, no other
    such turn was created before it, and the claim marks exactly this one as running
    for this worker; when it answers with none, no such turn exists and nothing
    changes. *)
Lemma claim_next_turn_fifo worker now s :
  (exists i t t',
     turns s !! i = Some t /\ turn_claimable s t = true
     /\ (forall u, u ∈ turns s -> turn_claimable s u = true -> turn_before u t = false)
     /\ turn_id t' = turn_id t /\ turn_status t' = "running" /\ turn_worker_id t' = Some worker
     /\ claim_next_turn worker now s = (Ok (Some t'), s {{ turns ::= <[i := t']> }}))
  \/ (Forall (fun u => turn_claimable s u = false) (turns s)
      /\ claim_next_turn worker now s = (Ok None, s)).
Proof.
  unfold claim_next_turn, set_turn, mbind, tx_mbind, tx_bind, reads, writes.
  destruct (min_at turn_before (turn_claimable s) (turns s)) as [[i t]|] eqn:Hmin.
  - left. apply min_at_Some in Hmin as (Hi & Hc & Hleast); [|exact turn_before_trans|exact turn_before_asym].
    eexists i, t, _. split_and!; [done|done|done| | | |reflexivity]; done.
  - right. split; [by apply min_at_None in Hmin|done].
Qed.
End Safety.
