(* ===== verification/WorkFacts.v ===== *)
(** * Leased work: queues in general, dreams and scheduled runs *)

From coqutil Require Import Datatypes.RecordSetters.
From stdpp Require Import base tactics list strings gmap relations.
From Stdlib Require Import NArith ZArith Lia.
From S2P Require Import Prelude BTree Text ScopedMap Value Strings Vecs Redaction ServerBase Evolution StoreModel StoreSessions StoreQueues StoreApprovals StoreLogic.
Import DoubleBraceUpdate.

(** ** Queues of leased work

    Dreams, runs of scheduled jobs and effects of approvals are kept in three tables
    with the same discipline.  The class [Leased] says what a record of such a table
    has; [lease_evolves] is what calls may do to a record, and from it alone follows
    that a lease that was lost does not come back. *)

(** A record under a lease: whether work on it is going on, for whom, and how often
    it was handed out. *)
Class Leased (R : Type) := {
  l_id : R -> Uuid;
  l_live : R -> bool;
  l_owner : R -> option Uuid;
  l_epoch : R -> Z;
}.

(** A lease: the record it is on, its holder and its epoch. *)
Record Lease := mkLease { lease_id : Uuid; lease_owner : Uuid; lease_epoch : Z }.

Section Leases.
Context {R : Type} `{!Leased R}.

Definition held (r : R) (owner : Uuid) : Prop := l_live r = true /\ l_owner r = Some owner.

Definition holds (l : Lease) (r : R) : Prop :=
  l_id r = lease_id l /\ held r (lease_owner l) /\ l_epoch r = lease_epoch l.

(** The record is handed out anew with a later epoch, or whoever holds it afterwards
    held it before. *)
Definition lease_evolves (r r' : R) : Prop :=
  l_id r' = l_id r
  /\ ((l_epoch r < l_epoch r')%Z
      \/ (l_epoch r' = l_epoch r /\ forall owner, held r' owner -> held r owner)).

#[global] Instance lease_evolves_refl : Reflexive lease_evolves.
Proof. intros r. split; [done|]. right. auto. Qed.

#[global] Instance lease_evolves_trans : Transitive lease_evolves.
Proof.
  intros a b c [Hi1 H1] [Hi2 H2]. split; [congruence|].
  destruct H1 as [|[E1 H1]], H2 as [|[E2 H2]]; [left; lia..|]. right. split; [congruence|auto].
Qed.

(** ** Tables *)

(** [ok] is what holds of each record; from [q0] to [q] the table has advanced. *)
Record table_advances (ok : R -> Prop) (q0 q : list R) : Prop := {
  table_ok : Forall ok q;
  table_nodup : NoDup (List.map l_id q);
  table_evolves i r : q0 !! i = Some r -> exists r', q !! i = Some r' /\ lease_evolves r r';
}.

Context (ok : R -> Prop).

Lemma table_refl q : Forall ok q -> NoDup (List.map l_id q) -> table_advances ok q q.
Proof. intros. split; [done..|]. intros i r Hi. by exists r. Qed.

Lemma table_advances_trans a b c : table_advances ok a b -> table_advances ok b c -> table_advances ok a c.
Proof.
  intros [_ _ E1] [? ? E2]. split; [done..|]. intros i r Hi.
  destruct (E1 _ _ Hi) as (r1 & H1 & ?). destruct (E2 _ _ H1) as (r2 & ? & ?). exists r2. split; [done|]. by etrans.
Qed.

Lemma table_set q0 q i r r' :
  table_advances ok q0 q -> q !! i = Some r -> ok r' -> lease_evolves r r' -> table_advances ok q0 (<[i := r']> q).
Proof.
  intros [Hok Hnd Hev] Hi Hr' Hr. pose proof (lookup_lt_Some _ _ _ Hi) as Hlen. split.
  - by apply Forall_insert.
  - erewrite keys_insert; [done|done|apply Hr].
  - intros j x Hj. destruct (Hev _ _ Hj) as (y & Hy & Hxy). destruct (decide (j = i)) as [->|].
    + exists r'. rewrite list_lookup_insert_eq by done. simplify_eq. split; [done|]. by etrans.
    + exists y. by rewrite list_lookup_insert_ne.
Qed.

Lemma table_push q0 q r :
  table_advances ok q0 q -> ok r -> Forall (fun x => l_id x <> l_id r) q -> table_advances ok q0 (q ++ [r]).
Proof.
  intros [Hok Hnd Hev] Hr Hfresh. split.
  - apply Forall_app. by split; [|apply Forall_singleton].
  - by apply keys_push.
  - intros i x Hi. destruct (Hev _ _ Hi) as (y & Hy & ?). exists y. split; [by apply lookup_app_l_Some|done].
Qed.

Lemma table_where q0 q p f :
  table_advances ok q0 q -> (forall r, ok r -> p r = true -> ok (f r) /\ lease_evolves r (f r)) ->
  table_advances ok q0 (update_where p f q).
Proof.
  intros [Hok Hnd Hev] Hf.
  assert (Hpoint : forall r, ok r -> let r' := if p r then f r else r in ok r' /\ lease_evolves r r').
  { intros r Hr. cbn. destruct (p r) eqn:E; [by apply Hf|done]. }
  split.
  - unfold update_where. rewrite Forall_map. eapply Forall_impl; [exact Hok|]. intros r Hr. by apply Hpoint.
  - unfold update_where. rewrite List.map_map.
    replace (List.map _ q) with (List.map l_id q); [done|]. apply map_ext_Forall.
    eapply Forall_impl; [exact Hok|]. intros r Hr. symmetry. apply (Hpoint r Hr).
  - intros i r Hi. destruct (Hev _ _ Hi) as (y & Hy & Hry). exists (if p y then f y else y).
    unfold update_where. rewrite list_lookup_fmap, Hy. split; [done|]. etrans; [exact Hry|].
    rewrite Forall_lookup in Hok. apply Hpoint. by eapply Hok.
Qed.

(** ** Lost leases *)

(** The lease is not the one in force on its record, and cannot become it. *)
Definition revoked (l : Lease) (q : list R) : Prop :=
  exists i r, q !! i = Some r /\ l_id r = lease_id l /\ (lease_epoch l <= l_epoch r)%Z /\ ~ holds l r.

Lemma revoked_stays l q q' : table_advances ok q q' -> revoked l q -> revoked l q'.
Proof.
  intros [_ _ Hev] (i & r & Hi & Hid & Hle & Hno). destruct (Hev _ _ Hi) as (r' & Hi' & Hid' & Hr').
  exists i, r'. split_and!; [done|congruence|destruct Hr' as [|[-> _]]; lia|].
  intros (_ & Hheld & Hep). destruct Hr' as [Hlt|[Heq Hback]]; [lia|].
  apply Hno. split; [done|]. split; [by apply Hback|congruence].
Qed.

Lemma revoked_none l q : NoDup (List.map l_id q) -> revoked l q -> Forall (fun r => ~ holds l r) q.
Proof.
  intros Hnd (i & r & Hi & Hid & _ & Hno). apply Forall_lookup. intros j x Hj Hx.
  assert (j = i) as ->; [|by simplify_eq].
  eapply (keys_inj l_id); [done|done|done|]. by destruct Hx as [-> _].
Qed.

(** Handing a record out anew revokes every lease of an earlier epoch. *)
Lemma revoked_by_epoch l q i r :
  q !! i = Some r -> l_id r = lease_id l -> (lease_epoch l < l_epoch r)%Z -> revoked l q.
Proof. intros Hi Hid Hlt. exists i, r. split_and!; [done|done|lia|]. intros (_ & _ & E). lia. Qed.

(** Ending the work on a record revokes the lease it was done under. *)
Lemma revoked_by_end l q i r :
  q !! i = Some r -> l_id r = lease_id l -> l_epoch r = lease_epoch l -> l_owner r = None -> revoked l q.
Proof. intros Hi Hid He Ho. exists i, r. split_and!; [done|done|lia|]. intros (_ & [_ E] & _). congruence. Qed.
End Leases.

#[global] Instance dream_leased : Leased DreamQueueRecord := {
  l_id := dream_id;
  l_live d := bool_decide (dream_status d = DreamRunning);
  l_owner := dream_lease_owner;
  l_epoch := dream_lease_epoch;
}.

#[global] Instance run_leased `{JsonNumber} : Leased CronRunRecord := {
  l_id := run_id;
  l_live r := String.eqb (run_status r) "running";
  l_owner := run_lease_owner;
  l_epoch := run_lease_epoch;
}.

(** A record under a lease counts its claims twice, as attempts and as epochs. *)
Definition counted (attempts epoch : Z) : Prop := epoch = attempts /\ (0 <= attempts < 2 ^ 31)%Z.

Record dream_ok (d : DreamQueueRecord) : Prop := {
  dream_counted : counted (dream_attempts d) (dream_lease_epoch d);
  dream_leased_iff : dream_status d = DreamRunning <-> is_Some (dream_lease_owner d);
  dream_locked : is_Some (dream_lease_owner d) <-> is_Some (dream_locked_at d);
}.

(** A run can be recorded with any status, so that only the converse holds. *)
Record run_ok `{JsonNumber} (r : CronRunRecord) : Prop := {
  run_counted : counted (run_attempts r) (run_lease_epoch r);
  run_leased_running : is_Some (run_lease_owner r) -> run_status r = "running";
  run_locked : is_Some (run_lease_owner r) <-> is_Some (run_locked_at r);
}.

Section Facts.
Context `{RegexEngine} `{JsonNumber} `{Sha256} `{UuidText} `{Chrono} `{BuildProfile} `{!MetadataCodec}.

(** One record for each fire of a job, and one dream for each reason to dream. *)
Definition fires_unique (rs : list CronRunRecord) : Prop :=
  NoDup (List.map (fun r => (run_job_id r, run_scheduled_for r)) rs).
Definition dedupe_unique (ds : list DreamQueueRecord) : Prop := NoDup (List.map dream_dedupe_key ds).

(** The cursor of a job names the next fire, and does not go back. *)
Definition cursor_advances (j j' : CronJobRecord) : Prop :=
  job_id j' = job_id j
  /\ forall t, job_next_run_at j = Some t -> exists t', job_next_run_at j' = Some t' /\ (t <= t')%Z.

Record jobs_ordered (js0 js : list CronJobRecord) : Prop := {
  jobs_nodup : NoDup (List.map job_id js);
  jobs_advance i j : js0 !! i = Some j -> exists j', js !! i = Some j' /\ cursor_advances j j';
}.

Lemma jobs_refl js : NoDup (List.map job_id js) -> jobs_ordered js js.
Proof. intros Hnd. split; [done|]. intros i j Hi. exists j. split; [done|]. split; [done|]. intros t Ht. by exists t. Qed.

Lemma jobs_set js0 js i j j' :
  jobs_ordered js0 js -> js !! i = Some j -> cursor_advances j j' -> jobs_ordered js0 (<[i := j']> js).
Proof.
  intros [Hnd Hadv] Hi [Hid Hcur]. split; [by erewrite keys_insert|]. intros k x Hk.
  destruct (Hadv _ _ Hk) as (y & Hy & Hyid & Hycur). destruct (decide (k = i)) as [->|].
  - exists j'. rewrite list_lookup_insert_eq by (by eapply lookup_lt_Some). simplify_eq. split; [done|].
    split; [congruence|]. intros t Ht. destruct (Hycur _ Ht) as (t1 & Ht1 & ?). destruct (Hcur _ Ht1) as (t2 & ? & ?).
    exists t2. split; [done|lia].
  - exists y. by rewrite list_lookup_insert_ne.
Qed.

Lemma jobs_push js0 js j :
  jobs_ordered js0 js -> Forall (fun x => job_id x <> job_id j) js -> jobs_ordered js0 (js ++ [j]).
Proof.
  intros [Hnd Hadv] Hf. split; [by apply keys_push|]. intros k x Hk. destruct (Hadv _ _ Hk) as (y & Hy & ?).
  exists y. split; [by apply lookup_app_l_Some|done].
Qed.

Record work_ordered (s0 s : Inner) : Prop := {
  work_dreams : table_advances dream_ok (dream_queue s0) (dream_queue s);
  work_runs : table_advances run_ok (cron_runs s0) (cron_runs s);
  work_dedupe : dedupe_unique (dream_queue s);
  work_fires : fires_unique (cron_runs s);
  work_jobs : jobs_ordered (cron_jobs s0) (cron_jobs s);
}.

Definition work_inv (s : Inner) : Prop := work_ordered s s.

(** Tables that are not concerned. *)
Lemma work_owner s0 s f : work_ordered s0 s -> work_ordered s0 (s {{ configured_owner_subject ::= f }}).
Proof. intros []. split; assumption. Qed.
Lemma work_sessions s0 s f : work_ordered s0 s -> work_ordered s0 (s {{ sessions ::= f }}).
Proof. intros []. split; assumption. Qed.
Lemma work_events s0 s f : work_ordered s0 s -> work_ordered s0 (s {{ events ::= f }}).
Proof. intros []. split; assumption. Qed.
Lemma work_messages s0 s f : work_ordered s0 s -> work_ordered s0 (s {{ messages ::= f }}).
Proof. intros []. split; assumption. Qed.
Lemma work_turns s0 s f : work_ordered s0 s -> work_ordered s0 (s {{ turns ::= f }}).
Proof. intros []. split; assumption. Qed.
Lemma work_approvals s0 s f : work_ordered s0 s -> work_ordered s0 (s {{ approval_requests ::= f }}).
Proof. intros []. split; assumption. Qed.
Lemma work_effects s0 s f : work_ordered s0 s -> work_ordered s0 (s {{ approval_effects ::= f }}).
Proof. intros []. split; assumption. Qed.
Lemma work_audits s0 s f : work_ordered s0 s -> work_ordered s0 (s {{ evolution_audits ::= f }}).
Proof. intros []. split; assumption. Qed.

(** *** Dreams *)
Lemma work_set_dream s0 s i d d' :
  work_ordered s0 s -> dream_queue s !! i = Some d -> (dream_ok d -> dream_ok d') -> lease_evolves d d' ->
  dream_dedupe_key d' = dream_dedupe_key d ->
  work_ordered s0 (s {{ dream_queue ::= <[i := d']> }}).
Proof.
  intros [Hd Hr Hk Hf Hjobs] Hi Hok Hev Hkey. split; [|exact Hr| |exact Hf|exact Hjobs].
  - apply (table_set _ _ _ _ d); [done|done| |done]. apply Hok.
    pose proof (table_ok _ _ _ Hd) as HF. rewrite Forall_lookup in HF. by eapply HF.
  - unfold dedupe_unique. change (dream_queue (s {{ dream_queue ::= <[i := d']> }})) with (<[i := d']> (dream_queue s)).
    by erewrite keys_insert.
Qed.

Lemma work_push_dream s0 s d :
  work_ordered s0 s -> dream_ok d -> Forall (fun x => dream_id x <> dream_id d) (dream_queue s) ->
  Forall (fun x => dream_dedupe_key x <> dream_dedupe_key d) (dream_queue s) ->
  work_ordered s0 (s {{ dream_queue ::= fun q => q ++ [d] }}).
Proof.
  intros [Hd Hr Hk Hf Hjobs] Hok Hid Hkey. split; [|exact Hr| |exact Hf|exact Hjobs].
  - by apply table_push.
  - by apply keys_push.
Qed.

Lemma work_where_dream s0 s p f :
  work_ordered s0 s -> (forall d, dream_ok d -> p d = true -> dream_ok (f d) /\ lease_evolves d (f d)) ->
  (forall d, dream_dedupe_key (f d) = dream_dedupe_key d) ->
  work_ordered s0 (s {{ dream_queue ::= update_where p f }}).
Proof.
  intros [Hd Hr Hk Hf Hjobs] Hp Hkey. split; [|exact Hr| |exact Hf|exact Hjobs].
  - by apply table_where.
  - unfold dedupe_unique. change (dream_queue (s {{ dream_queue ::= update_where p f }})) with (update_where p f (dream_queue s)).
    by rewrite keys_where.
Qed.

(** *** Jobs *)
Lemma work_set_job s0 s p i j j' :
  work_ordered s0 s -> find_at p (cron_jobs s) = Some (i, j) -> cursor_advances j j' ->
  work_ordered s0 (s {{ cron_jobs ::= <[i := j']> }}).
Proof.
  intros [Hd Hr Hk Hf Hjobs] (Hi & _ & _)%find_at_Some Hj. split; [exact Hd|exact Hr|exact Hk|exact Hf|]. by eapply jobs_set.
Qed.

Lemma work_push_job s0 s j :
  work_ordered s0 s -> find_at (fun x => String.eqb (job_id x) (job_id j)) (cron_jobs s) = None ->
  work_ordered s0 (s {{ cron_jobs ::= fun js => js ++ [j] }}).
Proof.
  intros [Hd Hr Hk Hf Hjobs] Hnone%find_at_None. split; [exact Hd|exact Hr|exact Hk|exact Hf|].
  apply jobs_push; [done|]. eapply Forall_impl; [exact Hnone|]. intros x. apply String.eqb_neq.
Qed.

(** *** Runs *)
Lemma work_set_run s0 s i r r' :
  work_ordered s0 s -> cron_runs s !! i = Some r -> (run_ok r -> run_ok r') -> lease_evolves r r' ->
  run_job_id r' = run_job_id r -> run_scheduled_for r' = run_scheduled_for r ->
  work_ordered s0 (s {{ cron_runs ::= <[i := r']> }}).
Proof.
  intros [Hd Hr Hk Hf Hjobs] Hi Hok Hev Hj Hs. split; [exact Hd| |exact Hk| |exact Hjobs].
  - apply (table_set _ _ _ _ r); [done|done| |done]. apply Hok.
    pose proof (table_ok _ _ _ Hr) as HF. rewrite Forall_lookup in HF. by eapply HF.
  - unfold fires_unique. change (cron_runs (s {{ cron_runs ::= <[i := r']> }})) with (<[i := r']> (cron_runs s)).
    erewrite keys_insert; [done|done|]. by rewrite Hj, Hs.
Qed.

Lemma work_push_run s0 s r :
  work_ordered s0 s -> run_ok r -> Forall (fun x => run_id x <> run_id r) (cron_runs s) ->
  Forall (fun x => (run_job_id x, run_scheduled_for x) <> (run_job_id r, run_scheduled_for r)) (cron_runs s) ->
  work_ordered s0 (s {{ cron_runs ::= fun rs => rs ++ [r] }}).
Proof.
  intros [Hd Hr Hk Hf Hjobs] Hok Hid Hkey. split; [exact Hd| |exact Hk| |exact Hjobs].
  - by apply table_push.
  - by apply (keys_push (fun r => (run_job_id r, run_scheduled_for r))).
Qed.

Lemma work_where_run s0 s p f :
  work_ordered s0 s -> (forall r, run_ok r -> p r = true -> run_ok (f r) /\ lease_evolves r (f r)) ->
  (forall r, run_job_id (f r) = run_job_id r /\ run_scheduled_for (f r) = run_scheduled_for r) ->
  work_ordered s0 (s {{ cron_runs ::= update_where p f }}).
Proof.
  intros [Hd Hr Hk Hf Hjobs] Hp Hkey. split; [exact Hd| |exact Hk| |exact Hjobs].
  - by apply table_where.
  - unfold fires_unique. change (cron_runs (s {{ cron_runs ::= update_where p f }})) with (update_where p f (cron_runs s)).
    rewrite keys_where; [done|]. intros r. by destruct (Hkey r) as [-> ->].
Qed.
End Facts.

(** Peels the updates of the other tables off. *)
Ltac work :=
  repeat match goal with
  | H : ?P |- ?P => exact H
  | |- work_ordered _ (apply_update (mk_update configured_owner_subject _) _) => apply work_owner
  | |- work_ordered _ (apply_update (mk_update sessions _) _) => apply work_sessions
  | |- work_ordered _ (apply_update (mk_update events _) _) => apply work_events
  | |- work_ordered _ (apply_update (mk_update messages _) _) => apply work_messages
  | |- work_ordered _ (apply_update (mk_update turns _) _) => apply work_turns
  | |- work_ordered _ (apply_update (mk_update approval_requests _) _) => apply work_approvals
  | |- work_ordered _ (apply_update (mk_update approval_effects _) _) => apply work_effects
  | |- work_ordered _ (apply_update (mk_update evolution_audits _) _) => apply work_audits
  end.

Section Calls.
Context `{RegexEngine} `{JsonNumber} `{Sha256} `{UuidText} `{Chrono} `{BuildProfile} `{!MetadataCodec}.

Abbreviation working s0 := (fun _ s' => work_ordered s0 s').

(** ** Dreams *)

Lemma holds_dream_true lease d :
  holds_dream lease d = true <->
  dream_id d = dream_id (lease_dream lease) /\ dream_status d = DreamRunning
  /\ dream_lease_owner d = Some (dream_owner_id lease) /\ dream_lease_epoch d = dream_epoch lease.
Proof.
  unfold holds_dream. rewrite !andb_true_iff, N.eqb_eq, !bool_decide_eq_true, Z.eqb_eq. tauto.
Qed.

(** A record whose lease ends, with its counters as they are. *)
Lemma dream_released d d' :
  dream_ok d -> dream_id d' = dream_id d -> dream_attempts d' = dream_attempts d ->
  dream_lease_epoch d' = dream_lease_epoch d -> dream_status d' <> DreamRunning ->
  dream_lease_owner d' = None -> dream_locked_at d' = None -> dream_ok d' /\ lease_evolves d d'.
Proof.
  intros [Hc _ _] Hid Ha He Hs Ho Hl. split.
  - split; rewrite ?Ha, ?He, ?Ho, ?Hl; [done| |done]. split; [done|]. by intros [? ?].
  - split; [done|]. right. split; [done|]. intros owner [_ E]. cbn in E. congruence.
Qed.

Lemma working_end_dream s0 s lease i d d' :
  work_ordered s0 s -> find_at (holds_dream lease) (dream_queue s) = Some (i, d) ->
  dream_id d' = dream_id d -> dream_attempts d' = dream_attempts d ->
  dream_lease_epoch d' = dream_lease_epoch d -> dream_status d' <> DreamRunning ->
  dream_lease_owner d' = None -> dream_locked_at d' = None -> dream_dedupe_key d' = dream_dedupe_key d ->
  work_ordered s0 (s {{ dream_queue ::= <[i := d']> }}).
Proof.
  intros Hw (Hi & _ & _)%find_at_Some ? ? ? ? ? ? ?.
  pose proof (table_ok _ _ _ (work_dreams _ _ Hw)) as HF. rewrite Forall_lookup in HF.
  destruct (dream_released d d') as [? ?]; eauto using work_set_dream.
Qed.

Lemma working_complete_dream lease now s0 s : work_ordered s0 s -> tx_wp (complete_dream lease now) (working s0) s.
Proof.
  intros. unfold complete_dream, leased_dream, set_dream. tx_steps; work. eapply working_end_dream; eauto; done.
Qed.

Lemma working_fail_dream lease error next max now s0 s :
  work_ordered s0 s -> tx_wp (fail_dream lease error next max now) (working s0) s.
Proof.
  intros. unfold fail_dream, leased_dream, set_dream. tx_steps; work. eapply working_end_dream; eauto; try done.
  cbn. by case_match.
Qed.

Lemma working_heartbeat_dream lease now s0 s : work_ordered s0 s -> tx_wp (heartbeat_dream lease now) (working s0) s.
Proof.
  intros. unfold heartbeat_dream, leased_dream, set_dream. tx_steps; work.
  match goal with Hf : find_at _ _ = Some _ |- _ =>
    apply find_at_Some in Hf as (Hi & (_ & Hs & Ho & _)%holds_dream_true & _) end.
  eapply work_set_dream; [done|exact Hi| | |done].
  - intros [Hc Hl Hk]. split; [exact Hc|exact Hl|]. split; intros _; [by eexists|].
    change (is_Some (dream_lease_owner d)). by rewrite Ho.
  - split; [done|]. right. split; [done|]. intros owner. exact id.
Qed.

Lemma new_dream_ok new seq id now : dream_ok (new_dream new seq id now).
Proof.
  split; [split; [done|by cbn]|split; [done|]|split]; by intros [? ?].
Qed.

Lemma working_new_dream s0 s new seq id now :
  work_ordered s0 s -> Forall (fun d => dream_id d <> id) (dream_queue s) ->
  find_at (has_dedupe_key (new_dedupe_key new)) (dream_queue s) = None ->
  work_ordered s0 (s {{ dream_queue ::= fun q => q ++ [new_dream new seq id now] }}).
Proof.
  intros Hw Hfresh Hnone%find_at_None. apply work_push_dream; [done|apply new_dream_ok|done|].
  eapply Forall_impl; [exact Hnone|]. intros d Hd. by apply String.eqb_neq.
Qed.

(** A record that keeps its lease. *)
Lemma working_relabel_dream s0 s p i d d' :
  work_ordered s0 s -> find_at p (dream_queue s) = Some (i, d) ->
  dream_id d' = dream_id d -> dream_status d' = dream_status d -> dream_attempts d' = dream_attempts d ->
  dream_lease_owner d' = dream_lease_owner d -> dream_lease_epoch d' = dream_lease_epoch d ->
  dream_locked_at d' = dream_locked_at d -> dream_dedupe_key d' = dream_dedupe_key d ->
  work_ordered s0 (s {{ dream_queue ::= <[i := d']> }}).
Proof.
  intros Hw (Hi & _ & _)%find_at_Some Hid Hs Ha Ho He Hl Hk. eapply work_set_dream; [done|exact Hi| | |done].
  - intros [? ? ?]. split; by rewrite ?Ha, ?He, ?Ho, ?Hs, ?Hl.
  - split; [done|]. right. split; [done|]. intros owner. unfold held; cbn. by rewrite Ho, Hs.
Qed.

Lemma working_enqueue_dream new id now s0 s :
  work_ordered s0 s -> Forall (fun d => dream_id d <> id) (dream_queue s) ->
  tx_wp (enqueue_dream new id now) (working s0) s.
Proof.
  intros Hw Hfresh. unfold enqueue_dream, get_session, set_dream, push_dream. tx_steps; work.
  - by eapply working_relabel_dream; [done|done|destruct (dream_source_event_seq d)..].
  - by apply working_new_dream.
Qed.

(** A count below an [i32] has room. *)
Lemma counted_room a e max : counted a e -> (a < max)%Z -> is_i32 max ->
  in_signed 32 (a + 1) = true /\ in_signed 64 (e + 1) = true /\ counted (a + 1) (e + 1).
Proof.
  unfold counted, is_i32, in_signed. intros [-> Ha] Hmax.
  rewrite !andb_true_iff, !Z.leb_le, !Z.ltb_lt. cbn in *. lia.
Qed.

Lemma dream_claimed d d' :
  counted (dream_attempts d') (dream_lease_epoch d') -> dream_status d' = DreamRunning ->
  is_Some (dream_lease_owner d') -> is_Some (dream_locked_at d') -> dream_id d' = dream_id d ->
  (dream_lease_epoch d < dream_lease_epoch d')%Z -> dream_ok d' /\ lease_evolves d d'.
Proof. intros Hc Hs Ho Hl Hid Hlt. split; [by split|]. split; [done|]. by left. Qed.

(** After the records that ran out of attempts have been given up. *)
Lemma working_give_up_dreams s0 s now stale max :
  work_ordered s0 s ->
  work_ordered s0 (s {{ dream_queue ::= update_where (dream_exhausted now stale max) (dream_give_up now) }}).
Proof. intros Hw. apply work_where_dream; [done| |done]. intros d Hd _. by apply dream_released. Qed.

Lemma working_claim_dream now timeout owner max s0 s :
  work_ordered s0 s -> is_i32 max -> tx_wp (claim_ready_dream_bounded now timeout owner max) (working s0) s.
Proof.
  intros Hw Hmax. unfold claim_ready_dream_bounded, before, increment, set_dream. tx_steps; work;
    try (by apply working_give_up_dreams);
    match goal with Hm : min_at _ _ _ = Some _ |- _ =>
      apply min_at_lookup in Hm as [Hi [Hlt%Z.ltb_lt _]%andb_prop] end;
    pose proof (working_give_up_dreams _ _ now a max Hw) as Hw';
    pose proof (table_ok _ _ _ (work_dreams _ _ Hw')) as HF; rewrite Forall_lookup in HF;
    destruct (counted_room _ _ _ (dream_counted _ (HF _ _ Hi)) Hlt Hmax) as (H32 & H64 & Hcount); try congruence.
  assert (Hgrow : (dream_lease_epoch d < dream_lease_epoch d + 1)%Z) by lia.
  match goal with |- work_ordered _ (apply_update (mk_update dream_queue <[_ := ?d']>) _) =>
    destruct (dream_claimed d d') as [? ?]; [exact Hcount|done|by eexists|by eexists|done|exact Hgrow|] end.
  by eapply work_set_dream.
Qed.

Lemma working_end_session_and_enqueue_dream sid subject scope id now available s0 s :
  work_ordered s0 s -> Forall (fun d => dream_id d <> id) (dream_queue s) ->
  tx_wp (end_session_and_enqueue_dream sid subject scope id now available) (working s0) s.
Proof.
  intros Hw Hfresh. unfold end_session_and_enqueue_dream, push_event, get_session, update_session, set_events,
    set_dream, push_dream. tx_steps; work.
  all: first [ apply working_new_dream; [work|done|done] | eapply working_relabel_dream; [work|done|done..] ].
Qed.

(** ** Runs *)

Lemma holds_run_true lease r :
  holds_run lease r = true <->
  run_id r = run_id (lease_run lease) /\ run_status r = "running"
  /\ run_lease_owner r = Some (cron_owner_id lease) /\ run_lease_epoch r = cron_epoch lease.
Proof.
  unfold holds_run. rewrite !andb_true_iff, N.eqb_eq, String.eqb_eq, bool_decide_eq_true, Z.eqb_eq. tauto.
Qed.

Lemma run_released r r' :
  run_ok r -> run_id r' = run_id r -> run_attempts r' = run_attempts r ->
  run_lease_epoch r' = run_lease_epoch r -> run_lease_owner r' = None -> run_locked_at r' = None ->
  run_ok r' /\ lease_evolves r r'.
Proof.
  intros [Hc _ _] Hid Ha He Ho Hl. split.
  - split; rewrite ?Ha, ?He, ?Ho, ?Hl; [done| |done]. by intros [? ?].
  - split; [done|]. right. split; [done|]. intros owner [_ E]. cbn in E. congruence.
Qed.

Lemma working_end_run s0 s lease i r r' :
  work_ordered s0 s -> find_at (holds_run lease) (cron_runs s) = Some (i, r) ->
  run_id r' = run_id r -> run_attempts r' = run_attempts r -> run_lease_epoch r' = run_lease_epoch r ->
  run_lease_owner r' = None -> run_locked_at r' = None ->
  run_job_id r' = run_job_id r -> run_scheduled_for r' = run_scheduled_for r ->
  work_ordered s0 (s {{ cron_runs ::= <[i := r']> }}).
Proof.
  intros Hw (Hi & _ & _)%find_at_Some ? ? ? ? ? ? ?.
  pose proof (table_ok _ _ _ (work_runs _ _ Hw)) as HF. rewrite Forall_lookup in HF.
  destruct (run_released r r') as [? ?]; eauto using work_set_run.
Qed.

Lemma run_claimed_ok r r' :
  counted (run_attempts r') (run_lease_epoch r') -> run_status r' = "running" ->
  is_Some (run_lease_owner r') -> is_Some (run_locked_at r') -> run_id r' = run_id r ->
  (run_lease_epoch r < run_lease_epoch r')%Z -> run_ok r' /\ lease_evolves r r'.
Proof. intros Hc Hs Ho Hl Hid Hlt. split; [by split|]. split; [done|]. by left. Qed.

(** A claim of the record at [i]. *)
Lemma working_run_claimed s0 s i r r' max :
  work_ordered s0 s -> cron_runs s !! i = Some r -> (run_attempts r < max)%Z -> is_i32 max ->
  run_attempts r' = (run_attempts r + 1)%Z -> run_lease_epoch r' = (run_lease_epoch r + 1)%Z ->
  run_status r' = "running" -> is_Some (run_lease_owner r') -> is_Some (run_locked_at r') ->
  run_id r' = run_id r -> run_job_id r' = run_job_id r -> run_scheduled_for r' = run_scheduled_for r ->
  work_ordered s0 (s {{ cron_runs ::= <[i := r']> }}).
Proof.
  intros Hw Hi Hlt Hmax Ha He Hs Ho Hl Hid Hj Hf.
  pose proof (table_ok _ _ _ (work_runs _ _ Hw)) as HF. rewrite Forall_lookup in HF.
  destruct (counted_room _ _ _ (run_counted _ (HF _ _ Hi)) Hlt Hmax) as (_ & _ & Hc).
  destruct (run_claimed_ok r r') as [? ?]; [by rewrite Ha, He|done..|lia|]. by eapply work_set_run.
Qed.

Lemma working_give_up_run s0 s i r now :
  work_ordered s0 s -> cron_runs s !! i = Some r ->
  work_ordered s0 (s {{ cron_runs ::= <[i := run_give_up now r]> }}).
Proof.
  intros Hw Hi. pose proof (table_ok _ _ _ (work_runs _ _ Hw)) as HF. rewrite Forall_lookup in HF.
  destruct (run_released r (run_give_up now r)) as [? ?]; eauto using work_set_run.
Qed.

Lemma working_give_up_runs s0 s now stale max :
  work_ordered s0 s ->
  work_ordered s0 (s {{ cron_runs ::= update_where (run_exhausted now stale max) (run_give_up now) }}).
Proof. intros Hw. apply work_where_run; [done| |done]. intros r Hr _. by apply run_released. Qed.

(** The counters of a record in the table have room below [max]. *)
Lemma working_run_room s0 s i r max :
  work_ordered s0 s -> cron_runs s !! i = Some r -> (run_attempts r < max)%Z -> is_i32 max ->
  in_signed 32 (run_attempts r + 1) = true /\ in_signed 64 (run_lease_epoch r + 1) = true.
Proof.
  intros Hw Hi Hlt Hmax. pose proof (table_ok _ _ _ (work_runs _ _ Hw)) as HF. rewrite Forall_lookup in HF.
  by destruct (counted_room _ _ _ (run_counted _ (HF _ _ Hi)) Hlt Hmax) as (? & ? & _).
Qed.

Lemma working_claim_ready_cron_run owner now timeout max s0 s :
  work_ordered s0 s -> is_i32 max -> tx_wp (claim_ready_cron_run owner now timeout max) (working s0) s.
Proof.
  intros Hw Hmax. unfold claim_ready_cron_run, before, run_claimed, increment, set_run. tx_steps; work;
    try (by apply working_give_up_runs);
    pose proof (working_give_up_runs _ _ now a max Hw) as Hw';
    match goal with Hm : min_at _ _ _ = Some _ |- _ =>
      apply min_at_lookup in Hm as [Hi [Hlt%Z.ltb_lt _]%andb_prop] end;
    destruct (working_run_room _ _ _ _ _ Hw' Hi Hlt Hmax) as (H32 & H64); try congruence.
  by eapply working_run_claimed; [exact Hw'|exact Hi|exact Hlt|..].
Qed.

Lemma find_fire_none run s :
  find_at (same_fire run) (cron_runs s) = None ->
  Forall (fun x => (run_job_id x, run_scheduled_for x) <> (new_run_job_id run, new_run_scheduled_for run)) (cron_runs s).
Proof.
  intros HF%find_at_None. eapply Forall_impl; [exact HF|]. unfold same_fire. intros x Hx [= E1 E2].
  by rewrite E1, E2, String.eqb_refl, Z.eqb_refl in Hx.
Qed.

(** A new run that is not in the table. *)
Lemma working_new_run s0 s run r :
  work_ordered s0 s -> find_at (same_fire run) (cron_runs s) = None ->
  Forall (fun x => run_id x <> run_id r) (cron_runs s) -> run_ok r ->
  run_job_id r = new_run_job_id run -> run_scheduled_for r = new_run_scheduled_for run ->
  work_ordered s0 (s {{ cron_runs ::= fun rs => rs ++ [r] }}).
Proof.
  intros Hw Hnone%find_fire_none Hfresh Hok Hj Hs. apply work_push_run; [done..|]. by rewrite Hj, Hs.
Qed.

Lemma working_same_run s0 s i r :
  work_ordered s0 s -> cron_runs s !! i = Some r -> work_ordered s0 (s {{ cron_runs ::= <[i := r]> }}).
Proof. intros Hw Hi. by eapply work_set_run. Qed.

Lemma not_exhausted now stale max r :
  run_exhausted now stale max r = false -> run_ready now stale r = true -> (run_attempts r < max)%Z.
Proof. unfold run_exhausted. intros H' E. rewrite E in H'. by apply Z.leb_gt. Qed.

(** Records of new runs. *)
Lemma idle_run_ok r :
  run_attempts r = 0%Z -> run_lease_epoch r = 0%Z -> run_lease_owner r = None -> run_locked_at r = None -> run_ok r.
Proof. intros Ha He Ho Hl. split; rewrite ?Ha, ?He, ?Ho, ?Hl; [by split| |done]. by intros [? ?]. Qed.

Lemma working_claim_cron_run run owner now timeout id s0 s :
  work_ordered s0 s -> Forall (fun r => run_id r <> id) (cron_runs s) ->
  tx_wp (claim_cron_run run owner now timeout id) (working s0) s.
Proof.
  intros Hw Hfresh. unfold claim_cron_run, cron_job, check_session, get_session, find_job, find_fire, before, run_claimed,
    increment, set_run, push_run. tx_steps; work;
    lazymatch goal with
    | Hf : find_at (same_fire _) _ = None |- _ =>
        eapply working_new_run; [done|exact Hf|done| |done|done]; (split; [by split|done|by split])
    | Hf : find_at (same_fire _) _ = Some _ |- _ => apply find_at_Some in Hf as (Hi & _ & _)
    end; try (by apply working_give_up_run); try (by apply working_same_run);
    match goal with Hx : run_exhausted _ _ _ _ = false, Hr : run_ready _ _ _ = true |- _ =>
      pose proof (not_exhausted _ _ _ _ Hx Hr) as Hlt end;
    destruct (working_run_room _ _ _ _ 3 Hw Hi Hlt eq_refl) as (H32 & H64); try congruence;
    by eapply (working_run_claimed _ _ _ _ _ 3).
Qed.

Lemma working_materialize_cron_run run expected next id now started s0 s :
  work_ordered s0 s -> Forall (fun r => run_id r <> id) (cron_runs s) ->
  tx_wp (materialize_cron_run run expected next id now started) (working s0) s.
Proof.
  intros Hw Hfresh. unfold materialize_cron_run, find_job, find_fire, set_job, push_run. tx_steps; work.
  all: match goal with Hc : negb _ || negb (bool_decide (job_next_run_at _ = Some _)) = false |- _ =>
    apply orb_false_iff in Hc as [_ Hc%negb_false_iff%bool_decide_eq_true] end.
  all: match goal with Hc : _ && (_ <? _)%Z = true |- _ => apply andb_prop in Hc as [_ Hadv%Z.ltb_lt] end.
  all: match goal with Hf : find_at _ (cron_jobs _) = Some _ |- _ =>
    assert (Hjob : forall next now, (expected <= next)%Z -> work_ordered s0 (s {{ cron_jobs ::=
      <[n := c {{ job_next_run_at := Some next; job_updated_at := now }}]> }})) end.
  1, 3: intros t u Ht; eapply work_set_job; [done|eassumption|]; split; [done|]; intros x Hx; exists t; split; [done|];
    assert (x = expected) as -> by congruence; exact Ht.
  - apply Hjob. lia.
  - eapply working_new_run; [apply Hjob; lia|eassumption|done|by apply idle_run_ok|done|done].
Qed.

Lemma working_upsert_cron_job job now s0 s : work_ordered s0 s -> tx_wp (upsert_cron_job job now) (working s0) s.
Proof.
  intros Hw. unfold upsert_cron_job, set_job. tx_steps; work.
  - eapply work_set_job; [done|eassumption|]. split; [done|]. intros t Ht. exists t. destruct c.
    cbn in *. by rewrite Ht.
  - by apply work_push_job.
Qed.

Lemma working_record_cron_run run id now s0 s :
  work_ordered s0 s -> Forall (fun r => run_id r <> id) (cron_runs s) ->
  tx_wp (record_cron_run run id now) (working s0) s.
Proof.
  intros Hw Hfresh. unfold record_cron_run, cron_job, check_session, get_session, find_job, find_fire, push_run.
  tx_steps; work; (eapply working_new_run; [work|eassumption|done|by apply idle_run_ok|done|done]).
Qed.

Lemma working_heartbeat_cron_run lease now s0 s :
  work_ordered s0 s -> tx_wp (heartbeat_cron_run lease now) (working s0) s.
Proof.
  intros. unfold heartbeat_cron_run, leased_run, set_run. tx_steps; work.
  match goal with Hf : find_at _ _ = Some _ |- _ =>
    apply find_at_Some in Hf as (Hi & (_ & Hs & Ho & _)%holds_run_true & _) end.
  eapply work_set_run; [done|exact Hi| | |done|done].
  - intros [Hc Hl Hk]. split; [exact Hc|exact Hl|]. split; intros _; [by eexists|].
    change (is_Some (run_lease_owner c)). by rewrite Ho.
  - split; [done|]. right. split; [done|]. intros owner. exact id.
Qed.

Lemma working_complete_cron_run lease status sid result now s0 s :
  work_ordered s0 s -> tx_wp (complete_cron_run lease status sid result now) (working s0) s.
Proof.
  intros. unfold complete_cron_run, check_session, get_session, leased_run, set_run.
  tx_steps; work; by eapply working_end_run.
Qed.

Lemma working_fail_cron_run lease error next max s0 s :
  work_ordered s0 s -> tx_wp (fail_cron_run lease error next max) (working s0) s.
Proof. intros. unfold fail_cron_run, leased_run, set_run. tx_steps; work; by eapply working_end_run. Qed.

(** ** Calls on the other tables *)

Ltac work_walk :=
  unfold create_session, configure_owner_subject, set_session_memory_context, end_session, set_mode_state,
    append_message_for_turn, append_event_for_turn, append_event_for_turn_once, enqueue_turn, claim_next_turn,
    fail_stale_running_turns, heartbeat_turn, complete_turn, fail_turn, find_turn, set_turn, set_messages,
    upsert_cron_job, create_approval_request, heartbeat_approval_request, link_approval_event,
    claim_approval_effect, claim_next_approval_effect, claim_approval_effect_at, heartbeat_approval_effect,
    complete_approval_effect, complete_approval_effect_with_event, fail_approval_effect, append_evolution_audit,
    record_skill_exposures_for_turn, touch_session, get_session, check_turn, set_events, update_session, set_job, set_effect, push_effect,
    set_approval, increment, before, leased_effect, append_audit, append_evolution_audit_in_memory;
  tx_steps; work.

Lemma working_resolve sid id resolution audit s0 s :
  work_ordered s0 s -> tx_wp (resolve_approval_in_memory sid id resolution audit) (working s0) s.
Proof. intros. unfold resolve_approval_in_memory. work_walk. Qed.

Lemma working_resolve_with_event sid id resolution audit s0 s :
  work_ordered s0 s -> tx_wp (resolve_approval_with_event_in_memory sid id resolution audit) (working s0) s.
Proof.
  intros. unfold resolve_approval_with_event_in_memory. apply tx_wp_bind, tx_wp_ensure; [|done]. intros _.
  apply tx_wp_bind. eapply tx_wp_mono; [by apply working_resolve|]. intros [] s' Hs'; [|done..]. work_walk.
Qed.

Lemma working_sweep status reason now candidates : forall audits s0 s,
  work_ordered s0 s -> tx_wp (sweep status reason now candidates audits) (working s0) s.
Proof.
  induction candidates as [|a rest IH]; intros audits s0 s Hs; cbn [sweep]; [by tx_steps|].
  apply tx_wp_bind. eapply tx_wp_mono; [by apply working_resolve_with_event|]. intros [] s1 Hs1; [|done..].
  apply tx_wp_bind. eapply tx_wp_mono; [by apply IH|]. intros [] s2 Hs2; [|done..]. by tx_steps.
Qed.

Lemma working_persist_bundle approval proposal_payload approval_payload audit s0 s :
  work_ordered s0 s -> tx_wp (persist_bundle approval proposal_payload approval_payload audit) (working s0) s.
Proof. intros. unfold persist_bundle. work_walk. Qed.

Lemma working_skill_bundle bundle unchanged audit s0 s :
  work_ordered s0 s -> tx_wp (create_skill_approval_bundle bundle unchanged audit) (working s0) s.
Proof. intros. unfold create_skill_approval_bundle, get_session. tx_steps; work. all: by apply working_persist_bundle. Qed.

Lemma working_review_bundle bundle accepted blocked known audit s0 s :
  work_ordered s0 s -> tx_wp (create_auto_evolution_review_bundle bundle accepted blocked known audit) (working s0) s.
Proof.
  intros. unfold create_auto_evolution_review_bundle, get_session, find_turn. tx_steps; work.
  all: eapply tx_wp_mono; [by apply working_persist_bundle|]; intros [] s' Hs'; [|done..]; by tx_steps.
Qed.

Lemma step_work s s' s0 : store_step s s' -> work_ordered s0 s -> work_ordered s0 s'.
Proof.
  intros Hstep Hw.
  destruct Hstep; match goal with |- work_ordered _ (after ?m s) => change (tx_wp m (working s0) s) end;
    lazymatch goal with
    | |- tx_wp (enqueue_dream _ _ _) _ _ => by apply working_enqueue_dream
    | |- tx_wp (end_session_and_enqueue_dream _ _ _ _ _ _) _ _ => by apply working_end_session_and_enqueue_dream
    | |- tx_wp (claim_ready_dream_bounded _ _ _ _) _ _ => by apply working_claim_dream
    | |- tx_wp (heartbeat_dream _ _) _ _ => by apply working_heartbeat_dream
    | |- tx_wp (complete_dream _ _) _ _ => by apply working_complete_dream
    | |- tx_wp (fail_dream _ _ _ _ _) _ _ => by apply working_fail_dream
    | |- tx_wp (upsert_cron_job _ _) _ _ => by apply working_upsert_cron_job
    | |- tx_wp (materialize_cron_run _ _ _ _ _ _) _ _ => by apply working_materialize_cron_run
    | |- tx_wp (claim_ready_cron_run _ _ _ _) _ _ => by apply working_claim_ready_cron_run
    | |- tx_wp (claim_cron_run _ _ _ _ _) _ _ => by apply working_claim_cron_run
    | |- tx_wp (record_cron_run _ _ _) _ _ => by apply working_record_cron_run
    | |- tx_wp (heartbeat_cron_run _ _) _ _ => by apply working_heartbeat_cron_run
    | |- tx_wp (complete_cron_run _ _ _ _ _) _ _ => by apply working_complete_cron_run
    | |- tx_wp (fail_cron_run _ _ _ _) _ _ => by apply working_fail_cron_run
    | |- tx_wp (resolve_approval_request _ _ _ _) _ _ => by apply working_resolve
    | |- tx_wp (resolve_approval_request_with_event _ _ _ _) _ _ => by apply working_resolve_with_event
    | |- tx_wp (cancel_stale_non_resumable_approvals _ _ _) _ _ => by apply working_sweep
    | |- tx_wp (expire_pending_approvals _ _) _ _ => by apply working_sweep
    | |- tx_wp (create_skill_approval_bundle _ _ _) _ _ => by apply working_skill_bundle
    | |- tx_wp (create_auto_evolution_review_bundle _ _ _ _ _) _ _ => by apply working_review_bundle
    | |- _ => work_walk
    end.
Qed.

Lemma steps_work s s' s0 : rtc store_step s s' -> work_ordered s0 s -> work_ordered s0 s'.
Proof. induction 1; eauto using step_work. Qed.

Lemma work_ordered_inv s0 s : work_ordered s0 s -> work_inv s.
Proof. intros [[] [] ? ? []]. split; [by apply table_refl|by apply table_refl|done|done|by apply jobs_refl]. Qed.

Lemma reachable_work_inv s : reachable s -> work_inv s.
Proof.
  intros Hr. eapply work_ordered_inv, (steps_work _ _ inner_default Hr).
  split; [by apply table_refl; constructor|by apply table_refl; constructor|constructor|constructor|apply jobs_refl; constructor].
Qed.
End Calls.
