(* ===== verification/ApprovalFacts.v ===== *)
(** * Invariants of approvals and their effects *)

From coqutil Require Import Datatypes.RecordSetters.
From stdpp Require Import base tactics list strings gmap relations.
From Stdlib Require Import NArith ZArith Lia.
From S2P Require Import Prelude BTree Text Strings Value ScopedMap Vecs Redaction ServerBase Evolution StoreModel StoreSessions StoreQueues StoreApprovals StoreLogic WorkFacts.
Import DoubleBraceUpdate.

#[global] Instance effect_leased `{JsonNumber} : Leased ApprovalEffectRecord := {
  l_id := effect_id;
  l_live e := String.eqb (effect_status e) "claimed";
  l_owner := effect_lease_owner;
  l_epoch := effect_lease_epoch;
}.

Section Facts.
Context `{RegexEngine} `{JsonNumber} `{Sha256} `{UuidText} `{Chrono} `{BuildProfile} `{!MetadataCodec}.

(** ** Records *)

Record effect_ok (e : ApprovalEffectRecord) : Prop := {
  effect_ids : effect_id e = effect_approval_id e;
  effect_claimed : is_Some (effect_lease_owner e) -> effect_status e = "claimed";
  effect_auditable : auditable (effect_payload e);
  effect_epoch_pos : (0 <= effect_lease_epoch e)%Z;
}.

(** An approval is pending, or was resolved once. *)
Definition approval_ok (a : ApprovalRequestRecord) : Prop :=
  (approval_status a = "pending" /\ resolution_version a = 0%Z /\ resolved_at a = None)
  \/ (is_resolution (approval_status a) = true /\ resolution_version a = 1%Z /\ is_Some (resolved_at a)).

(** What a call can do to an approval: the question stays as it was asked, and an
    answer stays as it was given. *)
Definition approval_evolves (a a' : ApprovalRequestRecord) : Prop :=
  approval_id a' = approval_id a /\ approval_session_id a' = approval_session_id a
  /\ requester_id a' = requester_id a /\ approval_action a' = approval_action a
  /\ scope_json a' = scope_json a /\ options_json a' = options_json a
  /\ expires_at a' = expires_at a
  /\ (approval_status a <> "pending" ->
      approval_status a' = approval_status a /\ resolved_at a' = resolved_at a
      /\ selected_option_id a' = selected_option_id a /\ resolution_json a' = resolution_json a).

#[global] Instance approval_evolves_refl : Reflexive approval_evolves.
Proof. intros a. unfold approval_evolves. naive_solver. Qed.

#[global] Instance approval_evolves_trans : Transitive approval_evolves.
Proof.
  intros a b c (? & ? & ? & ? & ? & ? & ? & Hab) (? & ? & ? & ? & ? & ? & ? & Hbc).
  split_and!; [congruence..|]. intros Hp. destruct (Hab Hp) as (? & ? & ? & ?).
  destruct Hbc as (? & ? & ? & ?); [congruence|]. split_and!; congruence.
Qed.

(** Each approval has one effect, which is blocked exactly as long as the approval
    is pending and carries the answer afterwards. *)
Record coupled (apps : list ApprovalRequestRecord) (effs : list ApprovalEffectRecord) : Prop := {
  coupled_effect a : a ∈ apps -> exists e, e ∈ effs /\ effect_approval_id e = approval_id a;
  coupled_approval e : e ∈ effs -> exists a, a ∈ apps /\ approval_id a = effect_approval_id e;
  coupled_status a e : a ∈ apps -> e ∈ effs -> effect_approval_id e = approval_id a ->
    effect_session_id e = approval_session_id a
    /\ (approval_status a = "pending" <-> effect_status e = "blocked")
    /\ (approval_status a <> "pending" -> json_get "resolution" (effect_payload e) = resolution_json a);
}.

Record approvals_ordered (s0 s : Inner) : Prop := {
  ap_effects : table_advances effect_ok (approval_effects s0) (approval_effects s);
  ap_nodup : NoDup (List.map approval_id (approval_requests s));
  ap_ok : Forall approval_ok (approval_requests s);
  ap_evolves i a : approval_requests s0 !! i = Some a ->
    exists a', approval_requests s !! i = Some a' /\ approval_evolves a a';
  ap_coupled : coupled (approval_requests s) (approval_effects s);
}.

Definition approvals_inv (s : Inner) : Prop := approvals_ordered s s.

(** Tables that are not concerned. *)
Lemma ap_owner s0 s f : approvals_ordered s0 s -> approvals_ordered s0 (s {{ configured_owner_subject ::= f }}).
Proof. intros []. split; assumption. Qed.
Lemma ap_sessions s0 s f : approvals_ordered s0 s -> approvals_ordered s0 (s {{ sessions ::= f }}).
Proof. intros []. split; assumption. Qed.
Lemma ap_events s0 s f : approvals_ordered s0 s -> approvals_ordered s0 (s {{ events ::= f }}).
Proof. intros []. split; assumption. Qed.
Lemma ap_messages s0 s f : approvals_ordered s0 s -> approvals_ordered s0 (s {{ messages ::= f }}).
Proof. intros []. split; assumption. Qed.
Lemma ap_turns s0 s f : approvals_ordered s0 s -> approvals_ordered s0 (s {{ turns ::= f }}).
Proof. intros []. split; assumption. Qed.
Lemma ap_dreams s0 s f : approvals_ordered s0 s -> approvals_ordered s0 (s {{ dream_queue ::= f }}).
Proof. intros []. split; assumption. Qed.
Lemma ap_jobs s0 s f : approvals_ordered s0 s -> approvals_ordered s0 (s {{ cron_jobs ::= f }}).
Proof. intros []. split; assumption. Qed.
Lemma ap_runs s0 s f : approvals_ordered s0 s -> approvals_ordered s0 (s {{ cron_runs ::= f }}).
Proof. intros []. split; assumption. Qed.
Lemma ap_audits s0 s f : approvals_ordered s0 s -> approvals_ordered s0 (s {{ evolution_audits ::= f }}).
Proof. intros []. split; assumption. Qed.

(** ** Updates of the two tables *)

Lemma elem_insert {A} (l : list A) i x y z : l !! i = Some x -> z ∈ <[i := y]> l -> z = y \/ z ∈ l.
Proof.
  intros Hi [j Hj]%list_elem_of_lookup_1. destruct (decide (j = i)) as [->|].
  - rewrite list_lookup_insert_eq in Hj by (by eapply lookup_lt_Some). simplify_eq. by left.
  - rewrite list_lookup_insert_ne in Hj by done. right. by eapply list_elem_of_lookup_2.
Qed.

Lemma elem_insert_other {A} (l : list A) i x y z : l !! i = Some x -> z ∈ l -> z = x \/ z ∈ <[i := y]> l.
Proof.
  intros Hi [j Hj]%list_elem_of_lookup_1. destruct (decide (j = i)) as [->|]; [left; congruence|].
  right. eapply (list_elem_of_lookup_2 _ j). by rewrite list_lookup_insert_ne.
Qed.

Lemma elem_insert_self {A} (l : list A) i x y : l !! i = Some x -> y ∈ <[i := y]> l.
Proof.
  intros Hi. eapply (list_elem_of_lookup_2 _ i). apply list_lookup_insert_eq. by eapply lookup_lt_Some.
Qed.

(** The approval changes without being resolved. *)
Lemma coupled_set_approval apps effs i a a' :
  coupled apps effs -> apps !! i = Some a -> approval_id a' = approval_id a ->
  approval_session_id a' = approval_session_id a -> approval_status a' = approval_status a ->
  (approval_status a <> "pending" -> resolution_json a' = resolution_json a) ->
  coupled (<[i := a']> apps) effs.
Proof.
  intros [He Ha Hs] Hi Hid Hsid Hst Hres. pose proof (list_elem_of_lookup_2 _ _ _ Hi) as Hin. split.
  - intros b [->|Hb]%(elem_insert _ _ _ _ _ Hi); [|by apply He]. rewrite Hid. by apply He.
  - intros e Hin'. destruct (Ha _ Hin') as (b & Hb & Hbid).
    destruct (elem_insert_other _ _ _ a' _ Hi Hb) as [->|]; [|by exists b].
    exists a'. split; [by eapply elem_insert_self|congruence].
  - intros b e [->|Hb]%(elem_insert _ _ _ _ _ Hi) Hin' E; [|by apply Hs].
    rewrite Hid in E. rewrite Hsid, Hst. destruct (Hs _ _ Hin Hin' E) as (? & ? & Hr). split_and!; [done..|].
    intros Hp. rewrite Hres by done. by apply Hr.
Qed.

(** The effect changes without being unblocked. *)
Lemma coupled_set_effect apps effs i e e' :
  coupled apps effs -> effs !! i = Some e -> effect_approval_id e' = effect_approval_id e ->
  effect_session_id e' = effect_session_id e -> (effect_status e' = "blocked" <-> effect_status e = "blocked") ->
  effect_payload e' = effect_payload e ->
  coupled apps (<[i := e']> effs).
Proof.
  intros [He Ha Hs] Hi Hid Hsid Hst Hpay. pose proof (list_elem_of_lookup_2 _ _ _ Hi) as Hin. split.
  - intros a Hin'. destruct (He _ Hin') as (x & Hx & Hxid).
    destruct (elem_insert_other _ _ _ e' _ Hi Hx) as [->|]; [|by exists x].
    exists e'. split; [by eapply elem_insert_self|congruence].
  - intros x [->|Hx]%(elem_insert _ _ _ _ _ Hi); [|by apply Ha]. rewrite Hid. by apply Ha.
  - intros a x Hin' [->|Hx]%(elem_insert _ _ _ _ _ Hi) E; [|by apply Hs].
    rewrite Hid in E. rewrite Hsid, Hst, Hpay. by apply Hs.
Qed.

(** Both leave the waiting state together. *)
Lemma coupled_resolve apps effs i j a a' e e' :
  coupled apps effs -> NoDup (List.map approval_id apps) -> Forall effect_ok effs -> NoDup (List.map effect_id effs) ->
  apps !! i = Some a -> effs !! j = Some e -> effect_approval_id e = approval_id a ->
  approval_id a' = approval_id a -> approval_session_id a' = approval_session_id a ->
  effect_approval_id e' = effect_approval_id e -> effect_session_id e' = effect_session_id e ->
  approval_status a' <> "pending" -> effect_status e' <> "blocked" ->
  json_get "resolution" (effect_payload e') = resolution_json a' ->
  coupled (<[i := a']> apps) (<[j := e']> effs).
Proof.
  intros [He Ha Hs] Hnda Hok Hnde Hi Hj Hae Hid Hsid Heid Hesid Hst Hest Hans.
  pose proof (list_elem_of_lookup_2 _ _ _ Hi) as Hia. pose proof (list_elem_of_lookup_2 _ _ _ Hj) as Hje.
  rewrite Forall_forall in Hok.
  assert (Honly : forall x, x ∈ <[j := e']> effs -> effect_approval_id x = approval_id a -> x = e').
  { intros x [k Hk]%list_elem_of_lookup_1 Hx. destruct (decide (k = j)) as [->|Hne].
    - rewrite list_lookup_insert_eq in Hk by (by eapply lookup_lt_Some). congruence.
    - rewrite list_lookup_insert_ne in Hk by done. destruct Hne.
      eapply (keys_inj effect_id); [exact Hnde|exact Hk|exact Hj|].
      rewrite (effect_ids _ (Hok _ Hje)), (effect_ids x); [congruence|]. apply Hok. by eapply list_elem_of_lookup_2. }
  assert (Honly' : forall x, x ∈ <[i := a']> apps -> approval_id x = approval_id a -> x = a').
  { intros x [k Hk]%list_elem_of_lookup_1 Hx. destruct (decide (k = i)) as [->|Hne].
    - rewrite list_lookup_insert_eq in Hk by (by eapply lookup_lt_Some). congruence.
    - rewrite list_lookup_insert_ne in Hk by done. destruct Hne.
      by eapply (keys_inj approval_id). }
  split.
  - intros b [->|Hb]%(elem_insert _ _ _ _ _ Hi).
    + exists e'. split; [by eapply elem_insert_self|congruence].
    + destruct (He _ Hb) as (x & Hx & Hxid). destruct (elem_insert_other _ _ _ e' _ Hj Hx) as [->|]; [|by exists x].
      exists e'. split; [by eapply elem_insert_self|congruence].
  - intros x [->|Hx]%(elem_insert _ _ _ _ _ Hj).
    + exists a'. split; [by eapply elem_insert_self|congruence].
    + destruct (Ha _ Hx) as (b & Hb & Hbid). destruct (elem_insert_other _ _ _ a' _ Hi Hb) as [->|]; [|by exists b].
      exists a'. split; [by eapply elem_insert_self|congruence].
  - intros b x Hb Hx E. destruct (decide (approval_id b = approval_id a)) as [Eb|Nb].
    + rewrite (Honly' _ Hb Eb) in *. rewrite (Honly x Hx) by congruence. rewrite Hsid, Hesid.
      destruct (Hs _ _ Hia Hje Hae) as [-> _]. by split_and!.
    + apply (elem_insert _ _ _ _ _ Hi) in Hb as [->|Hb]; [congruence|].
      apply (elem_insert _ _ _ _ _ Hj) in Hx as [->|Hx]; [congruence|]. by apply Hs.
Qed.

Lemma coupled_push apps effs a e :
  coupled apps effs -> effect_approval_id e = approval_id a -> effect_session_id e = approval_session_id a ->
  approval_status a = "pending" -> effect_status e = "blocked" ->
  Forall (fun b => approval_id b <> approval_id a) apps -> coupled (apps ++ [a]) (effs ++ [e]).
Proof.
  intros [He Ha Hs] Hid Hsid Hst Hest Hfresh. rewrite Forall_forall in Hfresh.
  assert (Hfresh' : forall x, x ∈ effs -> effect_approval_id x <> approval_id a).
  { intros x Hx E. destruct (Ha _ Hx) as (b & Hb & Hbid). apply (Hfresh _ Hb). congruence. }
  split; setoid_rewrite elem_of_app; setoid_rewrite list_elem_of_singleton.
  - intros b [Hb| ->]; [destruct (He _ Hb) as (x & ? & ?)|]; eauto.
  - intros x [Hx| ->]; [destruct (Ha _ Hx) as (b & ? & ?)|]; eauto.
  - intros b x [Hb| ->] [Hx| ->] E; [by apply Hs|exfalso..|by rewrite Hst, Hest; split_and!].
    + by apply (Hfresh _ Hb); congruence.
    + by apply (Hfresh' _ Hx).
Qed.

(** ** Updates of the tables in a state *)

Lemma ap_effect_ok s0 s j e : approvals_ordered s0 s -> approval_effects s !! j = Some e -> effect_ok e.
Proof.
  intros Ho Hj. pose proof (table_ok _ _ _ (ap_effects _ _ Ho)) as HF. rewrite Forall_lookup in HF. by eapply HF.
Qed.

Lemma ap_approval_ok s0 s i a : approvals_ordered s0 s -> approval_requests s !! i = Some a -> approval_ok a.
Proof. intros Ho Hi. pose proof (ap_ok _ _ Ho) as HF. rewrite Forall_lookup in HF. by eapply HF. Qed.

Lemma evolves_insert (l0 l : list ApprovalRequestRecord) i a a' :
  (forall j b, l0 !! j = Some b -> exists b', l !! j = Some b' /\ approval_evolves b b') ->
  l !! i = Some a -> approval_evolves a a' ->
  forall j b, l0 !! j = Some b -> exists b', <[i := a']> l !! j = Some b' /\ approval_evolves b b'.
Proof.
  intros Hev Hi Ha j b Hj. destruct (Hev _ _ Hj) as (b' & Hb' & ?). destruct (decide (j = i)) as [->|].
  - exists a'. rewrite list_lookup_insert_eq by (by eapply lookup_lt_Some). simplify_eq. split; [done|]. by etrans.
  - exists b'. by rewrite list_lookup_insert_ne.
Qed.

Lemma ap_set_approval s0 s i a a' :
  approvals_ordered s0 s -> approval_requests s !! i = Some a -> approval_evolves a a' ->
  approval_status a' = approval_status a -> resolution_version a' = resolution_version a ->
  resolved_at a' = resolved_at a ->
  approvals_ordered s0 (s {{ approval_requests ::= <[i := a']> }}).
Proof.
  intros Ho Hi Hev Hst Hv Hr. pose proof (ap_approval_ok _ _ _ _ Ho Hi) as Hok. destruct Ho as [He Hn Hk Hx Hc].
  split; [exact He| | | |].
  - change (NoDup (List.map approval_id (<[i := a']> (approval_requests s)))).
    erewrite keys_insert; [done|done|apply Hev].
  - apply Forall_insert; [done|]. unfold approval_ok. by rewrite Hst, Hv, Hr.
  - by eapply evolves_insert.
  - eapply coupled_set_approval; [done|done|apply Hev|apply Hev|done|apply Hev].
Qed.

Lemma ap_set_effect s0 s j e e' :
  approvals_ordered s0 s -> approval_effects s !! j = Some e -> (effect_ok e -> effect_ok e') -> lease_evolves e e' ->
  effect_session_id e' = effect_session_id e -> (effect_status e' = "blocked" <-> effect_status e = "blocked") ->
  effect_payload e' = effect_payload e ->
  approvals_ordered s0 (s {{ approval_effects ::= <[j := e']> }}).
Proof.
  intros Ho Hj Hok Hev Hs Hst Hpay. pose proof (ap_effect_ok _ _ _ _ Ho Hj) as Hoke. destruct Ho as [He Hn Hk Hx Hc].
  split; [|exact Hn|exact Hk|exact Hx|].
  - by eapply table_set; [|done|apply Hok|].
  - eapply coupled_set_effect; [done|done| |done..].
    rewrite <-(effect_ids _ Hoke), <-(effect_ids _ (Hok Hoke)). apply Hev.
Qed.

Lemma ap_resolve s0 s i j a a' e e' :
  approvals_ordered s0 s -> approval_requests s !! i = Some a -> approval_effects s !! j = Some e ->
  effect_approval_id e = approval_id a -> approval_evolves a a' -> approval_ok a' -> approval_status a' <> "pending" ->
  (effect_ok e -> effect_ok e') -> lease_evolves e e' -> effect_session_id e' = effect_session_id e ->
  effect_status e' <> "blocked" -> json_get "resolution" (effect_payload e') = resolution_json a' ->
  approvals_ordered s0 (s {{ approval_requests ::= <[i := a']> }} {{ approval_effects ::= <[j := e']> }}).
Proof.
  intros Ho Hi Hj Hae Hev Hok' Hst Heok Heev Hs Hest Hans. pose proof (ap_effect_ok _ _ _ _ Ho Hj) as Hoke.
  destruct Ho as [He Hn Hk Hx Hc]. pose proof He as [HeF HeN _]. split.
  - change (table_advances effect_ok (approval_effects s0) (<[j := e']> (approval_effects s))).
    by eapply table_set; [|done|apply Heok|].
  - change (NoDup (List.map approval_id (<[i := a']> (approval_requests s)))).
    erewrite keys_insert; [done|done|apply Hev].
  - change (Forall approval_ok (<[i := a']> (approval_requests s))). by apply Forall_insert.
  - by eapply evolves_insert.
  - change (coupled (<[i := a']> (approval_requests s)) (<[j := e']> (approval_effects s))).
    eapply coupled_resolve; [done|done|done|done|done|done|done|apply Hev|apply Hev| |done..].
    rewrite <-(effect_ids _ Hoke), <-(effect_ids _ (Heok Hoke)). apply Heev.
Qed.

Lemma ap_push s0 s a e :
  approvals_ordered s0 s -> approval_ok a -> approval_status a = "pending" -> effect_ok e ->
  effect_status e = "blocked" -> effect_approval_id e = approval_id a ->
  effect_session_id e = approval_session_id a ->
  Forall (fun b => approval_id b <> approval_id a) (approval_requests s) ->
  approvals_ordered s0 (s {{ approval_requests ::= fun l => l ++ [a] }} {{ approval_effects ::= fun l => l ++ [e] }}).
Proof.
  intros [He Hn Hk Hx Hc] Ha Hst Heok Hest Hid Hs Hfresh. pose proof He as [HeF _ _]. split.
  - apply table_push; [done|done|].
    rewrite Forall_forall in HeF. apply Forall_forall. intros x Hin E. cbn in E.
    destruct (coupled_approval _ _ Hc _ Hin) as (b & Hb & Hbid). rewrite Forall_forall in Hfresh.
    apply (Hfresh _ Hb). rewrite (effect_ids _ (HeF _ Hin)), (effect_ids _ Heok) in E. congruence.
  - by apply keys_push.
  - apply Forall_app. by split; [|apply Forall_singleton].
  - intros i b Hi. destruct (Hx _ _ Hi) as (b' & Hb' & ?). exists b'. split; [|done]. by apply lookup_app_l_Some.
  - by apply coupled_push.
Qed.
End Facts.

(** Peels the updates of the other tables off. *)
Ltac approve :=
  repeat match goal with
  | H : ?P |- ?P => exact H
  | |- approvals_ordered _ (apply_update (mk_update configured_owner_subject _) _) => apply ap_owner
  | |- approvals_ordered _ (apply_update (mk_update sessions _) _) => apply ap_sessions
  | |- approvals_ordered _ (apply_update (mk_update events _) _) => apply ap_events
  | |- approvals_ordered _ (apply_update (mk_update messages _) _) => apply ap_messages
  | |- approvals_ordered _ (apply_update (mk_update turns _) _) => apply ap_turns
  | |- approvals_ordered _ (apply_update (mk_update dream_queue _) _) => apply ap_dreams
  | |- approvals_ordered _ (apply_update (mk_update cron_jobs _) _) => apply ap_jobs
  | |- approvals_ordered _ (apply_update (mk_update cron_runs _) _) => apply ap_runs
  | |- approvals_ordered _ (apply_update (mk_update evolution_audits _) _) => apply ap_audits
  end.

Section Calls.
Context `{RegexEngine} `{JsonNumber} `{Sha256} `{UuidText} `{Chrono} `{BuildProfile} `{!MetadataCodec}.

Abbreviation approving s0 := (fun _ s' => approvals_ordered s0 s').

Ltac approve_walk :=
  unfold create_session, configure_owner_subject, set_session_memory_context, end_session, set_mode_state,
    append_message_for_turn, append_event_for_turn, append_event_for_turn_once, enqueue_turn, claim_next_turn,
    fail_stale_running_turns, heartbeat_turn, complete_turn, fail_turn, find_turn, set_turn, set_messages,
    end_session_and_enqueue_dream, push_event, enqueue_dream, claim_ready_dream_bounded, heartbeat_dream,
    complete_dream, fail_dream, leased_dream, set_dream, push_dream,
    upsert_cron_job, materialize_cron_run, claim_ready_cron_run, claim_cron_run, record_cron_run,
    heartbeat_cron_run, complete_cron_run, fail_cron_run, cron_job, check_session, find_job, find_fire,
    run_claimed, set_run, push_run, leased_run,
    append_evolution_audit, record_skill_exposures_for_turn,
    touch_session, get_session, check_turn, set_events, update_session, set_job, set_effect, push_effect,
    set_approval, increment, before, leased_effect, append_audit, append_evolution_audit_in_memory;
  tx_steps; approve.

(** ** Approvals *)

Lemma approving_create request audit s0 s :
  approvals_ordered s0 s -> tx_wp (create_approval_request request audit) (approving s0) s.
Proof.
  intros Hs. unfold create_approval_request. approve_walk.
  all: match goal with Hf : find_first _ (approval_requests _) = None |- _ =>
    apply find_first_None in Hf; rename Hf into Hnone end.
  all: match goal with Ha : evolution_audit_record _ _ _ _ _ _ _ = Ok _ |- _ =>
    apply audit_ok_auditable in Ha; rename Ha into Haudit end.
  all: apply ap_push; [done|left; done|done|by split; [|intros [? ?]| |]|done..|].
  all: eapply Forall_impl; [exact Hnone|]; intros x; apply N.eqb_neq.
Qed.

(** A bundle whose approval is new. *)
Lemma approving_persist_bundle approval proposal_payload approval_payload audit entry s0 s :
  approvals_ordered s0 s -> Forall (fun b => approval_id b <> req_id approval) (approval_requests s) ->
  evolution_audit_record audit (req_effect_payload_json approval) (req_id approval) (req_id approval)
    AuditAwaitingApproval (req_created_at approval) None = Ok entry ->
  tx_wp (persist_bundle approval proposal_payload approval_payload entry) (approving s0) s.
Proof.
  intros Hs Hfresh Haudit%audit_ok_auditable. unfold persist_bundle. approve_walk.
  all: apply ap_push; [done|left; done|done|by split; [|intros [? ?]| |]|done..].
Qed.

Lemma sanitized_id request approval :
  sanitize_approval_request_persistence request = Ok approval -> req_id approval = req_id request.
Proof.
  unfold sanitize_approval_request_persistence.
  cbv [mbind outcome_bind]. destruct (validate_persistence_identifier _ _) as [[]| | |]; try done.
  destruct (validate_persistence_identifier _ _) as [[]| | |]; try done.
  repeat case_match; intros [=]; by subst.
Qed.

Lemma approving_skill_bundle bundle unchanged audit s0 s :
  Forall (fun a => approval_id a <> req_id (skill_approval bundle)) (approval_requests s) ->
  approvals_ordered s0 s -> tx_wp (create_skill_approval_bundle bundle unchanged audit) (approving s0) s.
Proof.
  intros Hfresh Hs. unfold create_skill_approval_bundle, get_session. tx_steps; approve.
  match goal with Hr : sanitize_approval_request_persistence _ = Ok _ |- _ => apply sanitized_id in Hr as Hid end.
  eapply approving_persist_bundle; [done| |eassumption]. by rewrite Hid.
Qed.

Lemma approving_review_bundle bundle accepted blocked known audit s0 s :
  approvals_ordered s0 s ->
  tx_wp (create_auto_evolution_review_bundle bundle accepted blocked known audit) (approving s0) s.
Proof.
  intros Hs. unfold create_auto_evolution_review_bundle, get_session, find_turn. tx_steps; approve.
  eapply tx_wp_mono; [eapply approving_persist_bundle; [done| |eassumption]|]; [|intros [] s' Hs'; [|done..]; by tx_steps].
  match goal with Hb : negb (_ || _) = true |- _ => apply negb_true_iff, orb_false_iff in Hb as [_ Hb];
    apply existsb_false_Forall in Hb; eapply Forall_impl; [exact Hb|]; intros x; apply N.eqb_neq end.
Qed.

Lemma approving_heartbeat id requester now s0 s :
  approvals_ordered s0 s -> tx_wp (heartbeat_approval_request id requester now) (approving s0) s.
Proof.
  intros Hs. unfold heartbeat_approval_request. approve_walk.
  match goal with Hf : find_at _ _ = Some _ |- _ => apply find_at_Some in Hf as (Hi & _ & _) end.
  eapply ap_set_approval; [done|exact Hi| |done..]. by split_and!.
Qed.

Lemma approving_link sid id type seq s0 s :
  approvals_ordered s0 s -> tx_wp (link_approval_event sid id type seq) (approving s0) s.
Proof.
  intros Hs. unfold link_approval_event. approve_walk.
  all: match goal with Hf : find_at _ _ = Some _ |- _ => apply find_at_Some in Hf as (Hi & _ & _) end.
  all: eapply ap_set_approval; [done|exact Hi| |by destruct (String.eqb type "approval")..].
  all: destruct (String.eqb type "approval"); by split_and!.
Qed.

Lemma resolved_payload_auditable payload resolution :
  auditable payload -> auditable (resolved_payload payload resolution).
Proof.
  unfold auditable. destruct payload; cbn [resolved_payload json_get]; try done. by rewrite bm_get_insert_ne.
Qed.

Lemma resolved_payload_answer payload resolution : json_get "resolution" (resolved_payload payload resolution) = Some resolution.
Proof. destruct payload; cbn [resolved_payload json_get]; try done. apply bm_get_insert_eq. Qed.

(** An effect that is not under a lease. *)
Lemma blocked_unheld e : effect_ok e -> effect_status e = "blocked" -> effect_lease_owner e = None.
Proof.
  intros [_ Hc _ _] Hb. destruct (effect_lease_owner e); [|done].
  rewrite Hc in Hb by (by eexists). done.
Qed.

Lemma effect_waits e e' :
  effect_id e' = effect_id e -> effect_lease_epoch e' = effect_lease_epoch e -> effect_lease_owner e' = None ->
  lease_evolves e e'.
Proof. intros Hid He Ho. split; [done|]. right. split; [done|]. intros owner [_ E]. cbn in E. congruence. Qed.

Lemma is_resolution_resolved status : is_resolution status = true -> status <> "pending".
Proof. by intros E ->. Qed.

(** What a resolution needs of a pending approval, and what it leaves. *)
Lemma approving_resolve_pair s0 s i j a a' e e' p :
  approvals_ordered s0 s -> find_at p (approval_requests s) = Some (i, a) -> approval_status a = "pending" ->
  find_at (is_effect_of (approval_id a)) (approval_effects s) = Some (j, e) ->
  approval_evolves a a' -> is_resolution (approval_status a') = true -> resolution_version a' = 1%Z ->
  is_Some (resolved_at a') ->
  effect_id e' = effect_id e -> effect_approval_id e' = effect_approval_id e ->
  effect_session_id e' = effect_session_id e -> effect_lease_epoch e' = effect_lease_epoch e ->
  effect_lease_owner e' = effect_lease_owner e -> effect_status e' = "pending" ->
  (auditable (effect_payload e) -> auditable (effect_payload e')) ->
  json_get "resolution" (effect_payload e') = resolution_json a' ->
  approvals_ordered s0 (s {{ approval_requests ::= <[i := a']> }} {{ approval_effects ::= <[j := e']> }}).
Proof.
  intros Ho (Hi & _ & _)%find_at_Some Hp (Hj & Hid%N.eqb_eq & _)%find_at_Some Hev Hst Hv Hr.
  intros Hid' Haid' Hsid' Hep' Hown' Hst' Haud Hans.
  assert (Hown : effect_lease_owner e = None).
  { apply blocked_unheld; [by eapply ap_effect_ok|]. eapply (coupled_status _ _ (ap_coupled _ _ Ho) a e); eauto using list_elem_of_lookup_2. }
  eapply ap_resolve; [done|done|done|done|done|by right|by apply is_resolution_resolved| | |done|by rewrite Hst'|done].
  - intros [E1 _ E3 E4]. split; rewrite ?Hid', ?Haid', ?Hown', ?Hown, ?Hep'; [done| |auto|done]. by intros [? ?].
  - apply effect_waits; [done|done|congruence].
Qed.

Lemma pending_version a : approval_ok a -> approval_status a = "pending" -> resolution_version a = 0%Z.
Proof. intros [(_ & Hv & _)|(Hr%is_resolution_resolved & _)] Hp; [done|congruence]. Qed.

Lemma approving_resolve sid id resolution audit s0 s :
  approvals_ordered s0 s -> tx_wp (resolve_approval_in_memory sid id resolution audit) (approving s0) s.
Proof.
  intros Hs. unfold resolve_approval_in_memory. approve_walk.
  all: match goal with Hf : find_at _ (approval_requests _) = Some _ |- _ => pose proof Hf as Hfind;
    apply find_at_Some in Hf as (Hi & [Hid%N.eqb_eq Hsid]%andb_prop & _) end.
  all: match goal with Hp : String.eqb (approval_status _) "pending" = true |- _ =>
    apply String.eqb_eq in Hp; rename Hp into Hpend end.
  all: pose proof (pending_version _ (ap_approval_ok _ _ _ _ Hs Hi) Hpend) as Hv.
  all: try (rewrite Hv in *; done).
  all: rewrite <-Hid in *.
  all: lazymatch goal with
  | He : find_at (is_effect_of _) _ = Some _ |- _ =>
      eapply approving_resolve_pair; [done|exact Hfind|exact Hpend|exact He| |done| |by eexists|done..| |];
        [by split_and!|cbn; by rewrite Hv|apply resolved_payload_auditable|apply resolved_payload_answer]
  | He : find_at (is_effect_of _) _ = None |- _ => exfalso; apply find_at_None in He; rewrite Forall_forall in He;
      destruct (coupled_effect _ _ (ap_coupled _ _ Hs) a) as (x & Hx & Hxid); [by eapply list_elem_of_lookup_2|];
      specialize (He _ Hx); unfold is_effect_of in He; by rewrite Hxid, N.eqb_refl in He
  end.
Qed.

Lemma approving_resolve_with_event sid id resolution audit s0 s :
  approvals_ordered s0 s -> tx_wp (resolve_approval_with_event_in_memory sid id resolution audit) (approving s0) s.
Proof.
  intros Hs. unfold resolve_approval_with_event_in_memory. apply tx_wp_bind, tx_wp_ensure; [|done]. intros _.
  apply tx_wp_bind. eapply tx_wp_mono; [by apply approving_resolve|]. intros [] s' Hs'; [|done..].
  approve_walk.
  all: match goal with Hf : find_at _ _ = Some (?n, ?r) |- _ =>
    assert (Hi : approval_requests s' !! n = Some r) by (apply find_at_Some in Hf as (Hi & _ & _); exact Hi) end.
  all: eapply ap_set_approval; [approve|exact Hi| |done..]; by split_and!.
Qed.

Lemma approving_sweep status reason now candidates : forall audits s0 s,
  approvals_ordered s0 s -> tx_wp (sweep status reason now candidates audits) (approving s0) s.
Proof.
  induction candidates as [|a rest IH]; intros audits s0 s Hs; cbn [sweep]; [by tx_steps|].
  apply tx_wp_bind. eapply tx_wp_mono; [by apply approving_resolve_with_event|]. intros [] s1 Hs1; [|done..].
  apply tx_wp_bind. eapply tx_wp_mono; [by apply IH|]. intros [] s2 Hs2; [|done..]. by tx_steps.
Qed.

(** ** Effects *)

Lemma holds_effect_true lease e :
  holds_effect lease e = true <->
  effect_id e = effect_id (lease_effect lease) /\ effect_status e = "claimed"
  /\ effect_lease_owner e = Some (effect_owner_id lease) /\ effect_lease_epoch e = effect_epoch lease.
Proof.
  unfold holds_effect. rewrite !andb_true_iff, N.eqb_eq, String.eqb_eq, bool_decide_eq_true, Z.eqb_eq. tauto.
Qed.

Lemma claimable_unblocked now stale e : approval_effect_is_claimable now stale e = true -> effect_status e <> "blocked".
Proof. unfold approval_effect_is_claimable. by intros E Hb; rewrite Hb in E. Qed.

Lemma room_epoch s j e : epochs_have_room s -> approval_effects s !! j = Some e -> effect_ok e ->
  in_signed 64 (effect_lease_epoch e + 1) = true.
Proof.
  intros Hroom Hj Hok. unfold epochs_have_room in Hroom. rewrite Forall_lookup in Hroom. specialize (Hroom _ _ Hj).
  pose proof (effect_epoch_pos _ Hok). unfold in_signed. rewrite andb_true_iff, Z.leb_le, Z.ltb_lt. cbn in *. lia.
Qed.

(** A claim that stops half-way, its attempts having overflown. *)
Lemma approving_half_claimed s0 s j e e' :
  approvals_ordered s0 s -> approval_effects s !! j = Some e -> effect_status e <> "blocked" ->
  e' = e {{ effect_status := "claimed" }} ->
  approvals_ordered s0 (s {{ approval_effects ::= <[j := e']> }}).
Proof.
  intros Ho Hj Hb ->. pose proof (ap_effect_ok _ _ _ _ Ho Hj) as [_ Hc _ _].
  eapply ap_set_effect; [done|done| | |done|by cbn|done].
  - intros [? ? ? ?]. by split.
  - split; [done|]. right. split; [done|]. intros owner [_ Hown]. split; [|exact Hown].
    apply String.eqb_eq, Hc. by eexists.
Qed.

Lemma approving_claimed s0 s j e e' :
  approvals_ordered s0 s -> approval_effects s !! j = Some e -> effect_status e <> "blocked" ->
  effect_id e' = effect_id e -> effect_approval_id e' = effect_approval_id e ->
  effect_session_id e' = effect_session_id e -> effect_payload e' = effect_payload e ->
  effect_lease_epoch e' = (effect_lease_epoch e + 1)%Z -> effect_status e' = "claimed" ->
  approvals_ordered s0 (s {{ approval_effects ::= <[j := e']> }}).
Proof.
  intros Ho Hj Hb Hid Haid Hsid Hp He Hst.
  eapply ap_set_effect; [done|done| | |done|by rewrite Hst|done].
  - intros [? ? ? ?]. split; rewrite ?Hid, ?Haid, ?Hp, ?He; [done..|lia].
  - split; [done|]. left. cbn. lia.
Qed.

Lemma insert_twice s j (x y : ApprovalEffectRecord) :
  s {{ approval_effects ::= <[j := x]> }} {{ approval_effects ::= <[j := y]> }} = s {{ approval_effects ::= <[j := y]> }}.
Proof.
  change (s {{ approval_effects := <[j := y]> (<[j := x]> (approval_effects s)) }} = s {{ approval_effects := <[j := y]> (approval_effects s) }}).
  by rewrite list_insert_insert_eq.
Qed.

Lemma approving_claim_at j e owner now s0 s :
  approvals_ordered s0 s -> epochs_have_room s -> approval_effects s !! j = Some e -> effect_status e <> "blocked" ->
  tx_wp (claim_approval_effect_at j e owner now) (approving s0) s.
Proof.
  intros Hs Hroom Hj Hb. pose proof (room_epoch _ _ _ Hroom Hj (ap_effect_ok _ _ _ _ Hs Hj)) as H64.
  unfold claim_approval_effect_at. approve_walk; rewrite ?insert_twice; try congruence.
  all: first [ by eapply approving_half_claimed | by eapply approving_claimed ].
Qed.

Lemma approving_claim id owner now timeout s0 s :
  approvals_ordered s0 s -> epochs_have_room s -> tx_wp (claim_approval_effect id owner now timeout) (approving s0) s.
Proof.
  intros Hs Hroom. unfold claim_approval_effect, before. tx_steps; try done.
  match goal with Hf : find_at _ _ = Some _ |- _ =>
    apply find_at_Some in Hf as (Hj & [_ Hc%claimable_unblocked]%andb_prop & _) end.
  eapply tx_wp_mono; [by apply approving_claim_at|]. intros [] s' Hs'; [by tx_steps|done..].
Qed.

Lemma approving_claim_next owner now timeout s0 s :
  approvals_ordered s0 s -> epochs_have_room s -> tx_wp (claim_next_approval_effect owner now timeout) (approving s0) s.
Proof.
  intros Hs Hroom. unfold claim_next_approval_effect, before. tx_steps; try done.
  match goal with Hf : min_at _ _ _ = Some _ |- _ => apply min_at_lookup in Hf as [Hj Hc%claimable_unblocked] end.
  eapply tx_wp_mono; [by apply approving_claim_at|]. intros [] s' Hs'; [by tx_steps|done..].
Qed.

Lemma approving_heartbeat_effect lease now s0 s :
  approvals_ordered s0 s -> tx_wp (heartbeat_approval_effect lease now) (approving s0) s.
Proof.
  intros Hs. unfold heartbeat_approval_effect. approve_walk.
  match goal with Hf : find_at _ _ = Some _ |- _ => apply find_at_Some in Hf as (Hj & _ & _) end.
  eapply ap_set_effect; [done|exact Hj| | |done..].
  - intros [? ? ? ?]. by split.
  - split; [done|]. right. split; [done|]. intros o. exact id.
Qed.

(** The effect of a lease that ends. *)
Lemma approving_end_effect s0 s lease j e e' :
  approvals_ordered s0 s -> find_at (holds_effect lease) (approval_effects s) = Some (j, e) ->
  effect_id e' = effect_id e -> effect_approval_id e' = effect_approval_id e ->
  effect_session_id e' = effect_session_id e -> effect_payload e' = effect_payload e ->
  effect_lease_epoch e' = effect_lease_epoch e -> effect_lease_owner e' = None -> effect_status e' <> "blocked" ->
  approvals_ordered s0 (s {{ approval_effects ::= <[j := e']> }}).
Proof.
  intros Ho (Hj & (_ & Hst & _)%holds_effect_true & _)%find_at_Some Hid Haid Hsid Hp He Hown Hst'.
  eapply ap_set_effect; [done|done| |by apply effect_waits|done|by rewrite Hst|done].
  intros [? ? ? ?]. split; rewrite ?Hid, ?Haid, ?Hp, ?He, ?Hown; [done| |done..]. by intros [? ?].
Qed.

Lemma approving_complete_effect lease at_ s0 s :
  approvals_ordered s0 s -> tx_wp (complete_approval_effect lease at_) (approving s0) s.
Proof. intros Hs. unfold complete_approval_effect. approve_walk. by eapply approving_end_effect. Qed.

Lemma approving_complete_effect_with_event lease payload turn at_ audit s0 s :
  approvals_ordered s0 s -> tx_wp (complete_approval_effect_with_event lease payload turn at_ audit) (approving s0) s.
Proof.
  intros Hs. unfold complete_approval_effect_with_event. approve_walk.
  all: eapply approving_end_effect; [approve|eassumption|done..].
Qed.

Lemma approving_fail_effect lease error next max at_ audit s0 s :
  approvals_ordered s0 s -> tx_wp (fail_approval_effect lease error next max at_ audit) (approving s0) s.
Proof.
  intros Hs. unfold fail_approval_effect. approve_walk.
  all: eapply approving_end_effect; [done|eassumption|done..|cbn; by case_match].
Qed.

Lemma step_approvals s s' s0 : store_step s s' -> approvals_ordered s0 s -> approvals_ordered s0 s'.
Proof.
  intros Hstep Hw.
  destruct Hstep; match goal with |- approvals_ordered _ (after ?m s) => change (tx_wp m (approving s0) s) end;
    lazymatch goal with
    | |- tx_wp (create_approval_request _ _) _ _ => by apply approving_create
    | |- tx_wp (heartbeat_approval_request _ _ _) _ _ => by apply approving_heartbeat
    | |- tx_wp (resolve_approval_request _ _ _ _) _ _ => by apply approving_resolve
    | |- tx_wp (resolve_approval_request_with_event _ _ _ _) _ _ => by apply approving_resolve_with_event
    | |- tx_wp (link_approval_event _ _ _ _) _ _ => by apply approving_link
    | |- tx_wp (cancel_stale_non_resumable_approvals _ _ _) _ _ => by apply approving_sweep
    | |- tx_wp (expire_pending_approvals _ _) _ _ => by apply approving_sweep
    | |- tx_wp (claim_approval_effect _ _ _ _) _ _ => by apply approving_claim
    | |- tx_wp (claim_next_approval_effect _ _ _) _ _ => by apply approving_claim_next
    | |- tx_wp (heartbeat_approval_effect _ _) _ _ => by apply approving_heartbeat_effect
    | |- tx_wp (complete_approval_effect _ _) _ _ => by apply approving_complete_effect
    | |- tx_wp (complete_approval_effect_with_event _ _ _ _ _) _ _ => by apply approving_complete_effect_with_event
    | |- tx_wp (fail_approval_effect _ _ _ _ _ _) _ _ => by apply approving_fail_effect
    | |- tx_wp (create_skill_approval_bundle _ _ _) _ _ => by apply approving_skill_bundle
    | |- tx_wp (create_auto_evolution_review_bundle _ _ _ _ _) _ _ => by apply approving_review_bundle
    | |- _ => approve_walk
    end.
Qed.

Lemma steps_approvals s s' s0 : rtc store_step s s' -> approvals_ordered s0 s -> approvals_ordered s0 s'.
Proof. induction 1; eauto using step_approvals. Qed.

Lemma approvals_ordered_inv s0 s : approvals_ordered s0 s -> approvals_inv s.
Proof.
  intros [[? ? ?] ? ? ? ?]. split; [by apply table_refl|done|done| |done]. intros i a Hi. by exists a.
Qed.

Lemma reachable_approvals_inv s : reachable s -> approvals_inv s.
Proof.
  intros Hr. eapply approvals_ordered_inv, (steps_approvals _ _ inner_default Hr).
  split; [by apply table_refl; constructor|constructor|constructor|done|].
  split; [intros ? Hin|intros ? Hin|intros ? ? Hin]; by apply not_elem_of_nil in Hin.
Qed.
End Calls.
