(* ===== verification/StoreSafety.v ===== *)
(** * What the queues and the approvals of the store guarantee

    Leases that were lost do not come back, one record is kept for each fire of a job
    and for each reason to dream, and an approval is resolved once, before its effect
    is handed out. *)

From coqutil Require Import Datatypes.RecordSetters.
From stdpp Require Import base tactics list strings gmap relations.
From Stdlib Require Import NArith ZArith Lia.
From S2P Require Import Prelude BTree Text Strings Value ScopedMap Vecs Redaction ServerBase Evolution StoreModel StoreSessions StoreQueues StoreApprovals StoreLogic WorkFacts ApprovalFacts.
Import DoubleBraceUpdate.

(** ** Lost leases *)

Section Fencing.
Context `{RegexEngine} `{JsonNumber} `{Sha256} `{UuidText} `{Chrono} `{BuildProfile} `{!MetadataCodec}.

(** A kind of work: [grants lease s s'], a call hands the lease out; [ends lease s s'],
    its holder completes or fails the work; [useless lease s], every call with the
    lease is refused and changes nothing. *)
Definition fenced {L} (work : L -> Uuid) (grants ends : L -> Inner -> Inner -> Prop) (useless : L -> Inner -> Prop)
    : Prop :=
  forall lease s s1 s2 s3 s4,
    reachable s -> grants lease s s1 -> rtc store_step s1 s2 ->
    (ends lease s2 s3 \/ exists lease', work lease' = work lease /\ grants lease' s2 s3) ->
    rtc store_step s3 s4 -> useless lease s4.

(** The lease is on a record of the table [tab], with an epoch that was not in use. *)
Definition granted {R} `{!Leased R} (tab : Inner -> list R) (key : Lease) (s s' : Inner) : Prop :=
  exists i r, tab s' !! i = Some r /\ holds key r
    /\ forall j r0, tab s !! j = Some r0 -> l_id r0 = lease_id key -> (l_epoch r0 < lease_epoch key)%Z.

Definition ended {R} `{!Leased R} (tab : Inner -> list R) (key : Lease) (s' : Inner) : Prop :=
  exists i r, tab s' !! i = Some r /\ l_id r = lease_id key /\ l_epoch r = lease_epoch key /\ l_owner r = None.

Section Table.
Context {R L : Type} `{!Leased R} (ok : R -> Prop) (tab : Inner -> list R) (key : L -> Lease)
  (grants ends : L -> Inner -> Inner -> Prop) (useless : L -> Inner -> Prop).

Hypothesis Hsteps : forall s s', reachable s -> rtc store_step s s' -> table_advances ok (tab s) (tab s').
Hypothesis Hgrants : forall lease s s', reachable s -> grants lease s s' -> store_step s s' /\ granted tab (key lease) s s'.
Hypothesis Hends : forall lease s s', reachable s -> ends lease s s' -> store_step s s' /\ ended tab (key lease) s'.
Hypothesis Huseless : forall lease s, Forall (fun r => ~ holds (key lease) r) (tab s) -> useless lease s.

Lemma table_fenced : fenced (fun lease => lease_id (key lease)) grants ends useless.
Proof.
  intros lease s s1 s2 s3 s4 Hs Hgrant H12 Hlost H34.
  destruct (Hgrants _ _ _ Hs Hgrant) as (Hstep & i & r1 & Hi & (Hid & _ & Hep) & _).
  assert (Hs1 : reachable s1) by (by eapply rtc_r).
  assert (Hs2 : reachable s2) by (unfold reachable in *; by etrans).
  destruct (table_evolves _ _ _ (Hsteps _ _ Hs1 H12) _ _ Hi) as (r2 & Hi2 & Hid2 & Hev).
  assert (Hle : (lease_epoch (key lease) <= l_epoch r2)%Z) by (destruct Hev as [|[-> _]]; lia).
  enough (store_step s2 s3 /\ revoked (key lease) (tab s3)) as [Hstep23 Hrev].
  - assert (Hs3 : reachable s3) by (by eapply rtc_r).
    pose proof (Hsteps _ _ Hs3 H34) as Hadv. apply Huseless, revoked_none; [apply Hadv|].
    by eapply revoked_stays.
  - destruct Hlost as [Hend|(lease' & Hwork & Hgrant')].
    + destruct (Hends _ _ _ Hs2 Hend) as (? & j & r & ? & ? & ? & ?). split; [done|]. by eapply revoked_by_end.
    + destruct (Hgrants _ _ _ Hs2 Hgrant') as (? & j & r & Hj & (Hjid & _ & Hjep) & Hnew). split; [done|].
      specialize (Hnew _ _ Hi2 ltac:(congruence)).
      eapply revoked_by_epoch; [exact Hj|congruence|lia].
Qed.
End Table.

(** *** The three kinds *)

Inductive dream_grants (lease : DreamLease) (s s' : Inner) : Prop :=
| grants_dream now timeout owner max :
    is_i32 max -> claim_ready_dream_bounded now timeout owner max s = (Ok (Some lease), s') -> dream_grants lease s s'.

Inductive dream_ends (lease : DreamLease) (s s' : Inner) : Prop :=
| completes_dream now d : complete_dream lease now s = (Ok d, s') -> dream_ends lease s s'
| fails_dream error next max now d : fail_dream lease error next max now s = (Ok d, s') -> dream_ends lease s s'.

Definition dream_useless (lease : DreamLease) (s : Inner) : Prop :=
  let stale {A} : ServerResult A * Inner := (Err (stale_dream_lease lease), s) in
  (forall now, heartbeat_dream lease now s = stale)
  /\ (forall now, complete_dream lease now s = stale)
  /\ (forall error next max now, fail_dream lease error next max now s = stale).

Inductive run_grants (lease : CronLease) (s s' : Inner) : Prop :=
| grants_ready_run owner now timeout max :
    is_i32 max -> claim_ready_cron_run owner now timeout max s = (Ok (Some lease), s') -> run_grants lease s s'
| grants_run run owner now timeout id :
    Forall (fun r => run_id r <> id) (cron_runs s) ->
    claim_cron_run run owner now timeout id s = (Ok (lease, true), s') -> run_grants lease s s'.

Inductive run_ends (lease : CronLease) (s s' : Inner) : Prop :=
| completes_run status sid result now r :
    complete_cron_run lease status sid result now s = (Ok r, s') -> run_ends lease s s'
| fails_run error next max r : fail_cron_run lease error next max s = (Ok r, s') -> run_ends lease s s'.

(** A completion can be refused for its arguments before the lease is looked at. *)
Definition run_useless (lease : CronLease) (s : Inner) : Prop :=
  let stale {A} : ServerResult A * Inner := (Err (stale_cron_lease lease), s) in
  (forall now, heartbeat_cron_run lease now s = stale)
  /\ (forall status sid result now, exists e, complete_cron_run lease status sid result now s = (Err e, s))
  /\ (forall error next max, fail_cron_run lease error next max s = stale).

Inductive effect_grants (lease : ApprovalEffectLease) (s s' : Inner) : Prop :=
| grants_effect id owner now timeout :
    epochs_have_room s -> claim_approval_effect id owner now timeout s = (Ok (Some lease), s') -> effect_grants lease s s'
| grants_next_effect owner now timeout :
    epochs_have_room s -> claim_next_approval_effect owner now timeout s = (Ok (Some lease), s') -> effect_grants lease s s'.

Inductive effect_ends (lease : ApprovalEffectLease) (s s' : Inner) : Prop :=
| completes_effect at_ e : complete_approval_effect lease at_ s = (Ok e, s') -> effect_ends lease s s'
| completes_effect_with_event payload turn at_ audit r :
    complete_approval_effect_with_event lease payload turn at_ audit s = (Ok r, s') -> effect_ends lease s s'
| fails_effect error next max at_ audit e :
    fail_approval_effect lease error next max at_ audit s = (Ok e, s') -> effect_ends lease s s'.

Definition effect_useless (lease : ApprovalEffectLease) (s : Inner) : Prop :=
  let stale {A} : ServerResult A * Inner := (Err (stale_approval_effect_lease lease), s) in
  (forall now, heartbeat_approval_effect lease now s = stale)
  /\ (forall at_, complete_approval_effect lease at_ s = stale)
  /\ (forall payload turn at_ audit, complete_approval_effect_with_event lease payload turn at_ audit s = stale)
  /\ (forall error next max at_ audit, fail_approval_effect lease error next max at_ audit s = stale).

(** *** Dreams *)

Definition dream_key (lease : DreamLease) : Lease :=
  mkLease (dream_id (lease_dream lease)) (dream_owner_id lease) (dream_epoch lease).

Lemma holds_dream_iff lease d : holds_dream lease d = true <-> holds (dream_key lease) d.
Proof.
  rewrite holds_dream_true. unfold holds, held. cbn. rewrite bool_decide_eq_true. tauto.
Qed.

Lemma unheld_none {R} `{!Leased R} (p : R -> bool) key q :
  (forall r, p r = true <-> holds key r) -> Forall (fun r => ~ holds key r) q -> find_at p q = None.
Proof.
  intros Hp Hq. apply find_at_None. eapply Forall_impl; [exact Hq|]. intros r Hr.
  apply not_true_iff_false. by rewrite Hp.
Qed.

Lemma dream_lost_useless lease s : Forall (fun d => ~ holds (dream_key lease) d) (dream_queue s) -> dream_useless lease s.
Proof.
  intros Hnone%(unheld_none (holds_dream lease)); [|apply holds_dream_iff].
  unfold dream_useless, heartbeat_dream, complete_dream, fail_dream, leased_dream.
  split_and!; intros; apply tx_wp_eq; tx_steps; by simplify_eq.
Qed.

(** A claim sets a record of the table [q], which has the records of the table before
    with their epochs. *)
Lemma granted_set {R} `{!Leased R} tab key s s' (q : list R) i r r' :
  NoDup (List.map l_id q) -> q !! i = Some r -> tab s' = <[i := r']> q -> l_id r' = l_id r ->
  l_epoch r' = (l_epoch r + 1)%Z -> holds key r' ->
  (forall j r0, tab s !! j = Some r0 -> exists r1, q !! j = Some r1 /\ l_id r1 = l_id r0 /\ l_epoch r1 = l_epoch r0) ->
  granted tab key s s'.
Proof.
  intros Hnd Hi Hs' Hid Hlt Hh Hold. exists i, r'. split_and!.
  - rewrite Hs'. apply list_lookup_insert_eq. by eapply lookup_lt_Some.
  - done.
  - intros j r0 Hj Hjid. destruct (Hold _ _ Hj) as (r1 & Hj1 & Hid1 & Hep1). destruct Hh as (Hhid & _ & Hhep).
    assert (j = i) as ->; [|simplify_eq; lia]. eapply (keys_inj l_id); [done|done|done|congruence].
Qed.

(** An answer under a lease sets the record it is on. *)
Lemma ended_set {R} `{!Leased R} tab key s' (q : list R) p i r r' :
  (forall r, p r = true <-> holds key r) -> find_at p q = Some (i, r) -> tab s' = <[i := r']> q ->
  l_id r' = l_id r -> l_epoch r' = l_epoch r -> l_owner r' = None -> ended tab key s'.
Proof.
  intros Hp (Hi & Hh%Hp & _)%find_at_Some Hs' Hid Hep Ho. exists i, r'. destruct Hh as (? & _ & ?).
  split_and!; [|congruence|congruence|done]. rewrite Hs'. apply list_lookup_insert_eq. by eapply lookup_lt_Some.
Qed.

(** The table when some records were given up. *)
Lemma given_up {R} `{!Leased R} (p : R -> bool) f q :
  (forall r, l_id (f r) = l_id r /\ l_epoch (f r) = l_epoch r) ->
  forall j r0, q !! j = Some r0 ->
    exists r1, update_where p f q !! j = Some r1 /\ l_id r1 = l_id r0 /\ l_epoch r1 = l_epoch r0.
Proof.
  intros Hf j r0 Hj. unfold update_where. rewrite list_lookup_fmap, Hj. eexists. split; [reflexivity|].
  by destruct (p r0).
Qed.

Lemma same_table {R} `{!Leased R} (q : list R) :
  forall j r0, q !! j = Some r0 -> exists r1, q !! j = Some r1 /\ l_id r1 = l_id r0 /\ l_epoch r1 = l_epoch r0.
Proof. eauto. Qed.

(** From what holds of a call to what holds of its answer. *)
Lemma call_answers {A} (m : Call A) (Q : A -> Inner -> Prop) s a s' :
  store_step s (after m s) -> tx_wp m (fun r s' => forall a, r = Ok a -> Q a s') s -> m s = (Ok a, s') ->
  store_step s s' /\ Q a s'.
Proof. unfold after, tx_wp. intros Hstep W E. rewrite E in *. split; [done|]. by apply W. Qed.

Definition if_some {A} (Q : A -> Prop) (o : option A) : Prop := match o with Some a => Q a | None => True end.

Lemma claim_dream_grants now timeout owner max s :
  work_inv s -> is_i32 max ->
  tx_wp (claim_ready_dream_bounded now timeout owner max)
    (fun r s' => forall a, r = Ok a -> if_some (fun lease => granted dream_queue (dream_key lease) s s') a) s.
Proof.
  intros Hw Hmax. unfold claim_ready_dream_bounded, before, increment, set_dream. tx_steps; intros ? [= <-]; try exact I.
  all: match goal with Hm : min_at _ _ _ = Some _ |- _ =>
    apply min_at_lookup in Hm as [Hi [Hlt%Z.ltb_lt _]%andb_prop] end.
  all: pose proof (working_give_up_dreams _ _ now a max Hw) as [Hq _ _ _ _].
  all: pose proof (table_ok _ _ _ Hq) as HF; rewrite Forall_lookup in HF.
  all: destruct (counted_room _ _ _ (dream_counted _ (HF _ _ Hi)) Hlt Hmax) as (H32 & H64 & _); try congruence.
  eapply granted_set; [apply Hq|exact Hi|reflexivity|reflexivity|reflexivity| |apply given_up; by intros []].
  by apply holds_dream_iff, holds_dream_true.
Qed.

Lemma dream_granted lease s s' : work_inv s -> dream_grants lease s s' ->
  store_step s s' /\ granted dream_queue (dream_key lease) s s'.
Proof.
  intros Hw [now timeout owner max Hmax E].
  refine (call_answers _ (fun r s' => if_some (fun lease => granted dream_queue (dream_key lease) s s') r) _ _ _ _ _ E).
  - by apply step_claim_dream.
  - by apply claim_dream_grants.
Qed.

Lemma dream_ended lease s s' : dream_ends lease s s' -> store_step s s' /\ ended dream_queue (dream_key lease) s'.
Proof.
  intros [now d E|error next max now d E].
  - refine (call_answers _ (fun _ s' => ended dream_queue (dream_key lease) s') _ _ _ _ _ E); [apply step_complete_dream|].
    unfold complete_dream, leased_dream, set_dream. tx_steps; intros ? [= <-]. eapply ended_set; [apply holds_dream_iff|eassumption|reflexivity..].
  - refine (call_answers _ (fun _ s' => ended dream_queue (dream_key lease) s') _ _ _ _ _ E); [apply step_fail_dream|].
    unfold fail_dream, leased_dream, set_dream. tx_steps; intros ? [= <-]. eapply ended_set; [apply holds_dream_iff|eassumption|reflexivity..].
Qed.

Lemma dreams_fenced : fenced (fun lease => dream_id (lease_dream lease)) dream_grants dream_ends dream_useless.
Proof.
  apply (table_fenced dream_ok dream_queue dream_key).
  - intros s s' Hs%reachable_work_inv Hsteps. by apply (steps_work _ _ s Hsteps).
  - intros lease s s' Hs%reachable_work_inv. by apply dream_granted.
  - intros lease s s' _. apply dream_ended.
  - apply dream_lost_useless.
Qed.

(** *** Runs of scheduled jobs *)

Definition run_key (lease : CronLease) : Lease :=
  mkLease (run_id (lease_run lease)) (cron_owner_id lease) (cron_epoch lease).

Lemma holds_run_iff lease r : holds_run lease r = true <-> holds (run_key lease) r.
Proof. rewrite holds_run_true. unfold holds, held. cbn. rewrite String.eqb_eq. tauto. Qed.

Lemma refused_wp {A} (m : Call A) s :
  tx_wp m (fun r s' => exists e, r = Err e /\ s' = s) s -> exists e, m s = (Err e, s).
Proof. unfold tx_wp. destruct (m s) as [r s1]. cbn. intros (e & Hr & Hs). exists e. by subst. Qed.

Lemma run_lost_useless lease s : Forall (fun r => ~ holds (run_key lease) r) (cron_runs s) -> run_useless lease s.
Proof.
  intros Hnone%(unheld_none (holds_run lease)); [|apply holds_run_iff].
  unfold run_useless, heartbeat_cron_run, complete_cron_run, fail_cron_run, leased_run, check_session, get_session.
  split_and!; intros; [apply tx_wp_eq; tx_steps; by simplify_eq| |apply tx_wp_eq; tx_steps; by simplify_eq].
  apply refused_wp. tx_steps; simplify_eq; eauto;
    unfold validate_persistence_identifier in *; cbn in *; by case_match.
Qed.

Lemma claim_ready_run_grants owner now timeout max s :
  work_inv s -> is_i32 max ->
  tx_wp (claim_ready_cron_run owner now timeout max)
    (fun r s' => forall a, r = Ok a -> if_some (fun lease => granted cron_runs (run_key lease) s s') a) s.
Proof.
  intros Hw Hmax. unfold claim_ready_cron_run, before, run_claimed, increment, set_run.
  tx_steps; intros ? [= <-]; try exact I.
  all: pose proof (working_give_up_runs _ _ now a max Hw) as Hw'.
  all: match goal with Hm : min_at _ _ _ = Some _ |- _ =>
    apply min_at_lookup in Hm as [Hi [Hlt%Z.ltb_lt _]%andb_prop] end.
  all: destruct (working_run_room _ _ _ _ _ Hw' Hi Hlt Hmax) as (H32 & H64); try congruence.
  eapply granted_set; [apply Hw'|exact Hi|reflexivity|reflexivity|reflexivity| |apply given_up; by intros []].
  by apply holds_run_iff, holds_run_true.
Qed.

Lemma granted_push {R} `{!Leased R} tab key s s' (r : R) :
  tab s' = tab s ++ [r] -> holds key r -> Forall (fun x => l_id x <> l_id r) (tab s) -> granted tab key s s'.
Proof.
  intros Hs' Hh Hfresh. exists (length (tab s)), r. rewrite Hs'. split_and!; [by apply list_lookup_middle|done|].
  intros j r0 Hj Hid. rewrite Forall_lookup in Hfresh. destruct (Hfresh _ _ Hj). destruct Hh. congruence.
Qed.

Lemma claim_run_grants run owner now timeout id s :
  work_inv s -> Forall (fun r => run_id r <> id) (cron_runs s) ->
  tx_wp (claim_cron_run run owner now timeout id)
    (fun r s' => forall a, r = Ok a -> a.2 = true -> granted cron_runs (run_key a.1) s s') s.
Proof.
  intros Hw Hfresh. unfold claim_cron_run, cron_job, check_session, get_session, find_job, find_fire, before, run_claimed,
    increment, set_run, push_run. tx_steps; intros ? [= <-] Hclaim; try done.
  all: lazymatch goal with
    | Hf : find_at (same_fire _) _ = None |- _ =>
        eapply granted_push; [reflexivity|by apply holds_run_iff, holds_run_true|exact Hfresh]
    | Hf : find_at (same_fire _) _ = Some _ |- _ => apply find_at_Some in Hf as (Hi & _ & _)
    end.
  all: try (cbn [fst snd] in Hclaim; congruence).
  all: match goal with Hx : run_exhausted _ _ _ _ = false, Hr : run_ready _ _ _ = true |- _ =>
      pose proof (not_exhausted _ _ _ _ Hx Hr) as Hlt end.
  all: destruct (working_run_room _ _ _ _ 3 Hw Hi Hlt eq_refl) as (H32 & H64); try congruence.
  all: eapply granted_set; [apply Hw|exact Hi|reflexivity|reflexivity|reflexivity| |apply same_table].
  all: by apply holds_run_iff, holds_run_true.
Qed.

Lemma run_granted lease s s' : work_inv s -> run_grants lease s s' ->
  store_step s s' /\ granted cron_runs (run_key lease) s s'.
Proof.
  intros Hw [owner now timeout max Hmax E|run owner now timeout id Hfresh E].
  - refine (call_answers _ (fun r s' => if_some (fun lease => granted cron_runs (run_key lease) s s') r) _ _ _ _ _ E).
    + by apply step_claim_ready_cron_run.
    + by apply claim_ready_run_grants.
  - destruct (call_answers _ (fun a s' => a.2 = true -> granted cron_runs (run_key a.1) s s') _ _ _
      (step_claim_cron_run _ _ _ _ _ _ Hfresh) (claim_run_grants _ _ _ _ _ _ Hw Hfresh) E) as [? Hg].
    split; [done|]. by apply Hg.
Qed.

Lemma run_ended lease s s' : run_ends lease s s' -> store_step s s' /\ ended cron_runs (run_key lease) s'.
Proof.
  intros [status sid result now r E|error next max r E].
  - refine (call_answers _ (fun _ s' => ended cron_runs (run_key lease) s') _ _ _ _ _ E); [apply step_complete_cron_run|].
    unfold complete_cron_run, check_session, get_session, leased_run, set_run.
    tx_steps; intros ? [= <-]; (eapply ended_set; [apply holds_run_iff|eassumption|reflexivity..]).
  - refine (call_answers _ (fun _ s' => ended cron_runs (run_key lease) s') _ _ _ _ _ E); [apply step_fail_cron_run|].
    unfold fail_cron_run, leased_run, set_run.
    tx_steps; intros ? [= <-]. eapply ended_set; [apply holds_run_iff|eassumption|reflexivity..].
Qed.

Lemma runs_fenced : fenced (fun lease => run_id (lease_run lease)) run_grants run_ends run_useless.
Proof.
  apply (table_fenced run_ok cron_runs run_key).
  - intros s s' Hs%reachable_work_inv Hsteps. by apply (steps_work _ _ s Hsteps).
  - intros lease s s' Hs%reachable_work_inv. by apply run_granted.
  - intros lease s s' _. apply run_ended.
  - apply run_lost_useless.
Qed.

(** *** Effects of approvals *)

Definition effect_key (lease : ApprovalEffectLease) : Lease :=
  mkLease (effect_id (lease_effect lease)) (effect_owner_id lease) (effect_epoch lease).

Lemma holds_effect_iff lease e : holds_effect lease e = true <-> holds (effect_key lease) e.
Proof. rewrite holds_effect_true. unfold holds, held. cbn. rewrite String.eqb_eq. tauto. Qed.

Lemma effect_lost_useless lease s :
  Forall (fun e => ~ holds (effect_key lease) e) (approval_effects s) -> effect_useless lease s.
Proof.
  intros Hnone%(unheld_none (holds_effect lease)); [|apply holds_effect_iff].
  unfold effect_useless, heartbeat_approval_effect, complete_approval_effect, complete_approval_effect_with_event,
    fail_approval_effect, leased_effect.
  split_and!; intros; apply tx_wp_eq; tx_steps; by simplify_eq.
Qed.

Lemma claim_at_grants j e owner now s :
  approvals_inv s -> epochs_have_room s -> approval_effects s !! j = Some e ->
  tx_wp (claim_approval_effect_at j e owner now)
    (fun r s' => forall lease, r = Ok lease -> granted approval_effects (effect_key lease) s s') s.
Proof.
  intros Hs Hroom Hj. pose proof (room_epoch _ _ _ Hroom Hj (ap_effect_ok _ _ _ _ Hs Hj)) as H64.
  unfold claim_approval_effect_at, increment, set_effect. tx_steps; intros ? [= <-]; rewrite ?insert_twice; try congruence.
  all: eapply granted_set; [apply Hs|exact Hj|reflexivity|reflexivity|reflexivity| |apply same_table].
  all: by apply holds_effect_iff, holds_effect_true.
Qed.

Lemma claim_effect_grants id owner now timeout s :
  approvals_inv s -> epochs_have_room s ->
  tx_wp (claim_approval_effect id owner now timeout)
    (fun r s' => forall a, r = Ok a -> if_some (fun lease => granted approval_effects (effect_key lease) s s') a) s.
Proof.
  intros Hs Hroom. unfold claim_approval_effect, before. tx_steps; try (intros ? [= <-]; exact I); try done.
  match goal with Hf : find_at _ _ = Some _ |- _ => apply find_at_Some in Hf as (Hj & _ & _) end.
  eapply tx_wp_mono; [by apply claim_at_grants|]. intros [lease| | |] s' Hs'; [|done..].
  tx_steps. intros ? [= <-]. by apply Hs'.
Qed.

Lemma claim_next_effect_grants owner now timeout s :
  approvals_inv s -> epochs_have_room s ->
  tx_wp (claim_next_approval_effect owner now timeout)
    (fun r s' => forall a, r = Ok a -> if_some (fun lease => granted approval_effects (effect_key lease) s s') a) s.
Proof.
  intros Hs Hroom. unfold claim_next_approval_effect, before. tx_steps; try (intros ? [= <-]; exact I); try done.
  match goal with Hf : min_at _ _ _ = Some _ |- _ => apply min_at_lookup in Hf as [Hj _] end.
  eapply tx_wp_mono; [by apply claim_at_grants|]. intros [lease| | |] s' Hs'; [|done..].
  tx_steps. intros ? [= <-]. by apply Hs'.
Qed.

Lemma effect_granted lease s s' : approvals_inv s -> effect_grants lease s s' ->
  store_step s s' /\ granted approval_effects (effect_key lease) s s'.
Proof.
  intros Hs [id owner now timeout Hroom E|owner now timeout Hroom E].
  - refine (call_answers _ (fun r s' => if_some (fun lease => granted approval_effects (effect_key lease) s s') r) _ _ _ _ _ E).
    + by apply step_claim_approval_effect.
    + by apply claim_effect_grants.
  - refine (call_answers _ (fun r s' => if_some (fun lease => granted approval_effects (effect_key lease) s s') r) _ _ _ _ _ E).
    + by apply step_claim_next_approval_effect.
    + by apply claim_next_effect_grants.
Qed.

Lemma effect_ended lease s s' : effect_ends lease s s' -> store_step s s' /\ ended approval_effects (effect_key lease) s'.
Proof.
  intros [at_ e E|payload turn at_ audit r E|error next max at_ audit e E];
    refine (call_answers _ (fun _ s' => ended approval_effects (effect_key lease) s') _ _ _ _ _ E).
  - apply step_complete_approval_effect.
  - unfold complete_approval_effect, leased_effect, set_effect. tx_steps; intros ? [= <-].
    eapply ended_set; [apply holds_effect_iff|eassumption|reflexivity..].
  - apply step_complete_approval_effect_with_event.
  - unfold complete_approval_effect_with_event, leased_effect, set_effect, get_session, check_turn, set_events,
      touch_session, update_session, append_audit, append_evolution_audit_in_memory.
    tx_steps; intros ? [= <-]; (eapply ended_set; [apply holds_effect_iff|eassumption|reflexivity..]).
  - apply step_fail_approval_effect.
  - unfold fail_approval_effect, leased_effect, set_effect, append_audit, append_evolution_audit_in_memory.
    tx_steps; intros ? [= <-]; (eapply ended_set; [apply holds_effect_iff|eassumption|reflexivity..]).
Qed.

Lemma effects_fenced : fenced (fun lease => effect_id (lease_effect lease)) effect_grants effect_ends effect_useless.
Proof.
  apply (table_fenced effect_ok approval_effects effect_key).
  - intros s s' Hs%reachable_approvals_inv Hsteps. by apply (steps_approvals _ _ s Hsteps).
  - intros lease s s' Hs%reachable_approvals_inv. by apply effect_granted.
  - intros lease s s' _. apply effect_ended.
  - apply effect_lost_useless.
Qed.

(** C11: A lease that was lost is worth nothing for good.  After a dream, a run of a
    scheduled job or an effect of an approval was handed out with a lease, and then
    handed out again or completed or failed by its holder, every later heartbeat,
    completion or failure with that lease is refused and changes nothing, whatever
    else happens in between. *)
Theorem leases_fenced :
  fenced (fun lease => dream_id (lease_dream lease)) dream_grants dream_ends dream_useless
  /\ fenced (fun lease => run_id (lease_run lease)) run_grants run_ends run_useless
  /\ fenced (fun lease => effect_id (lease_effect lease)) effect_grants effect_ends effect_useless.
Proof. split_and!; [apply dreams_fenced|apply runs_fenced|apply effects_fenced]. Qed.
End Fencing.

(** ** One record for each piece of work *)

Section Queues.
Context `{RegexEngine} `{JsonNumber} `{Sha256} `{UuidText} `{Chrono} `{BuildProfile} `{!MetadataCodec}.

(** C17: Work is recorded once, and its claims are counted.  In every state that can be
    reached there is one dream for each reason to dream and one run for each fire of a
    job; a dream is running exactly if it has a holder, and a run that has a holder is
    running; the epoch of the lease of a record is the number of its claims, which does
    not leave the range of an [i32]. *)
Theorem work_recorded_once s :
  reachable s ->
  (forall i j d d', dream_queue s !! i = Some d -> dream_queue s !! j = Some d' ->
     dream_dedupe_key d = dream_dedupe_key d' -> i = j)
  /\ (forall i j r r', cron_runs s !! i = Some r -> cron_runs s !! j = Some r' ->
        run_job_id r = run_job_id r' -> run_scheduled_for r = run_scheduled_for r' -> i = j)
  /\ (forall d, d ∈ dream_queue s ->
        (dream_status d = DreamRunning <-> is_Some (dream_lease_owner d))
        /\ dream_lease_epoch d = dream_attempts d /\ (0 <= dream_attempts d < 2 ^ 31)%Z)
  /\ (forall r, r ∈ cron_runs s ->
        (is_Some (run_lease_owner r) -> run_status r = "running")
        /\ run_lease_epoch r = run_attempts r /\ (0 <= run_attempts r < 2 ^ 31)%Z).
Proof.
  intros [[Hd _ _] [Hr _ _] Hdd Hrd _]%reachable_work_inv. rewrite Forall_forall in Hd. rewrite Forall_forall in Hr. split_and!.
  - intros. by eapply (keys_inj dream_dedupe_key).
  - intros i j r r' Hi Hj E1 E2. eapply (keys_inj (fun r => (run_job_id r, run_scheduled_for r))); [done|done|done|].
    cbn. congruence.
  - intros d Hin. destruct (Hd _ Hin) as [[-> ?] ? _]. split; [done|by split].
  - intros r Hin. destruct (Hr _ Hin) as [[-> ?] ? _]. split; [done|by split].
Qed.

(** *** The cursor of a job *)

Lemma sanitize_run_same run run' :
  sanitize_cron_run_persistence run = Ok run' ->
  new_run_job_id run' = new_run_job_id run /\ new_run_scheduled_for run' = new_run_scheduled_for run.
Proof. unfold sanitize_cron_run_persistence. cbn. repeat case_match; by intros [= <-]. Qed.

(** The cursor is past the fire. *)
Definition past_fire (job : string) (fire : DateTime) (s : Inner) : Prop :=
  exists i j t, cron_jobs s !! i = Some j /\ job_id j = job /\ job_next_run_at j = Some t /\ (fire < t)%Z.

Lemma materialize_advances run expected next id now started s :
  tx_wp (materialize_cron_run run expected next id now started)
    (fun r s' => forall a, r = Ok (Some a) ->
       past_fire (new_run_job_id run) expected s' /\ a ∈ cron_runs s'
       /\ run_job_id a = new_run_job_id run /\ run_scheduled_for a = expected) s.
Proof.
  unfold materialize_cron_run, find_job, find_fire, set_job, push_run. tx_steps; try done; intros ? [= <-].
  all: match goal with Hs : sanitize_cron_run_persistence _ = Ok _ |- _ => apply sanitize_run_same in Hs as [Hj Hf] end.
  all: match goal with Hc : _ && (_ <? _)%Z = true |- _ => apply andb_prop in Hc as [Hfire%Z.eqb_eq Hadv%Z.ltb_lt] end.
  all: match goal with Hc : find_at (fun _ => String.eqb _ _) _ = Some _ |- _ =>
    apply find_at_Some in Hc as (Hi & Hid%String.eqb_eq & _) end.
  all: split; [exists n, (c {{ job_next_run_at := Some next; job_updated_at := now }}), next; split_and!;
    [apply list_lookup_insert_eq; by eapply lookup_lt_Some|exact (eq_trans Hid Hj)|reflexivity|done]|].
  - match goal with Hf : find_at (same_fire _) _ = Some _ |- _ =>
      apply find_at_Some in Hf as (Hr & [E1%String.eqb_eq E2%Z.eqb_eq]%andb_prop & _) end.
    split_and!; [by eapply list_elem_of_lookup_2|congruence|congruence].
  - split_and!; [apply elem_of_app; right; by apply list_elem_of_singleton|done..].
Qed.

(** The next attempt does nothing. *)
Lemma materialize_past run expected next id now started s :
  NoDup (List.map job_id (cron_jobs s)) -> past_fire (new_run_job_id run) expected s ->
  tx_wp (materialize_cron_run run expected next id now started)
    (fun r s' => s' = s /\ (r = Ok None \/ exists e, r = Err e)) s.
Proof.
  intros Hnd (i & j & t & Hi & Hid & Ht & Hlt). unfold materialize_cron_run, find_job, find_fire, set_job, push_run.
  tx_steps; split; try reflexivity; eauto.
  all: match goal with Hs : sanitize_cron_run_persistence _ = _ |- _ => 
    first [ apply sanitize_run_same in Hs as [Hj Hf] | unfold sanitize_cron_run_persistence in Hs; cbn in Hs; by repeat case_match ] end.
  all: exfalso.
  all: match goal with Hc : find_at (fun _ => String.eqb _ _) _ = Some _ |- _ =>
    apply find_at_Some in Hc as (Hn & Hnid%String.eqb_eq & _) end.
  all: match goal with Hc : negb _ || negb (bool_decide (job_next_run_at _ = Some _)) = false |- _ =>
    apply orb_false_iff in Hc as [_ Hc%negb_false_iff%bool_decide_eq_true] end.
  all: match goal with Hn : cron_jobs _ !! ?n = Some ?c |- _ => 
    assert (n = i) as -> by (eapply (keys_inj job_id); [exact Hnd|exact Hn|exact Hi|congruence]) end.
  all: rewrite Hi in Hn; injection Hn as <-; rewrite Ht in *; simplify_eq; lia.
Qed.

(** A fire of a scheduled job is materialized once.  When a scheduler has advanced
    the cursor of a job past a fire and got the run for it, every later attempt, by
    any scheduler and after whatever happened in between, to materialize the same fire
    answers with none or is refused, and changes nothing. *)
Lemma fire_materialized_once run expected next id now started s r s1 s2 run' next' id' now' started' :
  reachable s -> Forall (fun x => run_id x <> id) (cron_runs s) ->
  materialize_cron_run run expected next id now started s = (Ok (Some r), s1) -> rtc store_step s1 s2 ->
  new_run_job_id run' = new_run_job_id run ->
  (r ∈ cron_runs s1 /\ run_job_id r = new_run_job_id run /\ run_scheduled_for r = expected)
  /\ (materialize_cron_run run' expected next' id' now' started' s2 = (Ok None, s2)
      \/ exists e, materialize_cron_run run' expected next' id' now' started' s2 = (Err e, s2)).
Proof.
  intros Hr Hfresh E Hsteps Hjob. pose proof (materialize_advances run expected next id now started s) as W.
  unfold tx_wp in W. rewrite E in W. destruct (W r eq_refl) as [(i & j & t & Hi & Hid & Ht & Hlt) Hrun].
  split; [exact Hrun|].
  assert (Hs1 : work_inv s1).
  { pose proof (step_materialize_cron_run s run expected next id now started Hfresh) as Hstep. unfold after in Hstep.
    rewrite E in Hstep. by eapply work_ordered_inv, (step_work _ _ s Hstep), reachable_work_inv. }
  pose proof (work_jobs _ _ (steps_work _ _ s1 Hsteps Hs1)) as [Hnd Hadv].
  destruct (Hadv _ _ Hi) as (j' & Hi' & Hid' & Hcur). destruct (Hcur _ Ht) as (t' & Ht' & Hle).
  assert (Hpast : past_fire (new_run_job_id run') expected s2).
  { exists i, j', t'. split_and!; [done|congruence|done|lia]. }
  pose proof (materialize_past run' expected next' id' now' started' s2 Hnd Hpast) as W2. unfold tx_wp in W2.
  destruct (materialize_cron_run run' expected next' id' now' started' s2) as [r2 s3]. cbn in W2.
  destruct W2 as [-> [->|[e ->]]]; [by left|right; by exists e].
Qed.
End Queues.
