(* ===== verification/ApprovalSafety.v ===== *)
(** * What approvals guarantee

    An approval is resolved once, its effect waits for that and carries the answer,
    and the sweep over expired approvals does not fail. *)

From coqutil Require Import Datatypes.RecordSetters.
From stdpp Require Import base tactics list strings gmap relations.
From Stdlib Require Import NArith ZArith Lia.
From S2P Require Import Prelude BTree Text Strings Value ScopedMap Vecs Redaction ServerBase Evolution StoreModel StoreSessions StoreQueues StoreApprovals StoreLogic WorkFacts ApprovalFacts StoreSafety.
Import DoubleBraceUpdate.

Section Safety.
Context `{RegexEngine} `{JsonNumber} `{Sha256} `{UuidText} `{Chrono} `{BuildProfile} `{!MetadataCodec}.

(** ** One answer *)

(** The one effect of an approval. *)
Definition effect_for (s : Inner) (a : ApprovalRequestRecord) (e : ApprovalEffectRecord) : Prop :=
  e ∈ approval_effects s /\ effect_approval_id e = approval_id a
  /\ forall x, x ∈ approval_effects s -> effect_approval_id x = approval_id a -> x = e.

Lemma effect_for_exists s a : approvals_inv s -> a ∈ approval_requests s -> exists e, effect_for s a e.
Proof.
  intros Hs Ha. destruct (coupled_effect _ _ (ap_coupled _ _ Hs) _ Ha) as (e & He & Hid).
  exists e. split_and!; [done|done|]. intros x Hx Hxid. destruct (ap_effects _ _ Hs) as [Hok Hnd _].
  rewrite Forall_forall in Hok. apply list_elem_of_lookup_1 in He as Hi, Hx as Hj. destruct Hi as [i Hi], Hj as [j Hj].
  assert (j = i) as ->; [|congruence]. eapply (keys_inj l_id); [done|done|done|]. cbn.
  rewrite (effect_ids _ (Hok _ He)), (effect_ids _ (Hok _ Hx)). congruence.
Qed.

(** C12: An approval is decided once.  Take an approval of a state that calls of the
    store have reached, and any further calls ([store_step]: every call that writes
    the tables of sessions, events, messages, turns, approvals, effects, audits,
    dreams or scheduled runs, the bundles of proposals included).  It keeps what it
    asks for; it is pending with no answer, or resolved with the version 1; once
    resolved it keeps its status, its time, the option that was selected and the
    answer.  There is exactly one effect for it, of the same session, which is blocked
    as long as the approval is pending and carries the answer afterwards.  The calls
    are given identifiers that are not in use where the code does not look, the
    approval of a skill bundle among them, which its caller makes with [Uuid::new_v4]. *)
Theorem approvals_decided_once s s' i a :
  reachable s -> rtc store_step s s' -> approval_requests s !! i = Some a ->
  exists a' e, approval_requests s' !! i = Some a' /\ approval_evolves a a' /\ approval_ok a'
    /\ effect_for s' a' e /\ effect_session_id e = approval_session_id a'
    /\ (approval_status a' = "pending" <-> effect_status e = "blocked")
    /\ (approval_status a' <> "pending" -> json_get "resolution" (effect_payload e) = resolution_json a').
Proof.
  intros Hr%reachable_approvals_inv Hsteps Hi. pose proof (steps_approvals _ _ s Hsteps Hr) as Hs'.
  destruct (ap_evolves _ _ Hs' _ _ Hi) as (a' & Hi' & Hev). apply approvals_ordered_inv in Hs'.
  pose proof (list_elem_of_lookup_2 _ _ _ Hi') as Ha'.
  destruct (effect_for_exists _ _ Hs' Ha') as (e & He). exists a', e.
  split_and!; [done|done|by eapply ap_approval_ok|done|..]; apply (coupled_status _ _ (ap_coupled _ _ Hs')); by try apply He.
Qed.

(** ** No effect before the answer *)

(** The record that was handed out, as it is in the table before and after. *)
Definition handed_out (lease : ApprovalEffectLease) (s s' : Inner) : Prop :=
  exists j e, approval_effects s !! j = Some e /\ approval_effects s' !! j = Some (lease_effect lease)
    /\ effect_status e <> "blocked" /\ approval_requests s' = approval_requests s
    /\ effect_approval_id (lease_effect lease) = effect_approval_id e.

Lemma claim_at_hands_out j e owner now s :
  approval_effects s !! j = Some e -> effect_status e <> "blocked" ->
  tx_wp (claim_approval_effect_at j e owner now) (fun r s' => forall lease, r = Ok lease -> handed_out lease s s') s.
Proof.
  intros Hj Hb. unfold claim_approval_effect_at, increment, set_effect. tx_steps; intros ? [= <-]; rewrite ?insert_twice.
  all: eexists j, e; split_and!; [done| |done|reflexivity|reflexivity].
  all: match goal with |- approval_effects (_ {{ approval_effects ::= <[?j := ?x]> }}) !! _ = _ =>
    change (<[j := x]> (approval_effects s) !! j = Some x) end.
  all: apply list_lookup_insert_eq; by eapply lookup_lt_Some.
Qed.

Lemma claim_hands_out lease s s' : effect_grants lease s s' -> handed_out lease s s'.
Proof.
  intros [id owner now timeout _ E|owner now timeout _ E].
  - enough (tx_wp (claim_approval_effect id owner now timeout)
      (fun r s' => forall a, r = Ok a -> if_some (fun lease => handed_out lease s s') a) s) as W
      by (unfold tx_wp in W; rewrite E in W; by apply (W _ eq_refl)).
    clear E. unfold claim_approval_effect, before. tx_steps; try (intros ? [= <-]; exact I); try done.
    match goal with Hf : find_at _ _ = Some _ |- _ =>
      apply find_at_Some in Hf as (Hj & [_ Hc%claimable_unblocked]%andb_prop & _) end.
    eapply tx_wp_mono; [by apply claim_at_hands_out|]. intros [x| | |] s1 Hs1; [|done..]. tx_steps. intros ? [= <-]. by apply Hs1.
  - enough (tx_wp (claim_next_approval_effect owner now timeout)
      (fun r s' => forall a, r = Ok a -> if_some (fun lease => handed_out lease s s') a) s) as W
      by (unfold tx_wp in W; rewrite E in W; by apply (W _ eq_refl)).
    clear E. unfold claim_next_approval_effect, before. tx_steps; try (intros ? [= <-]; exact I); try done.
    match goal with Hf : min_at _ _ _ = Some _ |- _ => apply min_at_lookup in Hf as [Hj Hc%claimable_unblocked] end.
    eapply tx_wp_mono; [by apply claim_at_hands_out|]. intros [x| | |] s1 Hs1; [|done..]. tx_steps. intros ? [= <-]. by apply Hs1.
Qed.

(** C13: No effect is handed out before its approval was decided.  Whenever a worker is
    given an effect, the approval it belongs to has been resolved, and the payload the
    worker is given carries the answer of that approval. *)
Theorem effects_wait_for_answers s lease s' :
  reachable s -> effect_grants lease s s' ->
  exists a, a ∈ approval_requests s /\ approval_id a = effect_approval_id (lease_effect lease)
    /\ is_resolution (approval_status a) = true
    /\ json_get "resolution" (effect_payload (lease_effect lease)) = resolution_json a.
Proof.
  intros Hr Hg. pose proof (reachable_approvals_inv _ Hr) as Hs.
  destruct (effect_granted _ _ _ Hs Hg) as [Hstep _]. pose proof (step_approvals _ _ s Hstep Hs) as Hs'%approvals_ordered_inv.
  destruct (claim_hands_out _ _ _ Hg) as (j & e & Hj & Hj' & Hb & Hsame & Hid).
  destruct (coupled_approval _ _ (ap_coupled _ _ Hs) e) as (a & Ha & Haid); [by eapply list_elem_of_lookup_2|].
  destruct (coupled_status _ _ (ap_coupled _ _ Hs) a e) as (_ & Hblock & _); [done|by eapply list_elem_of_lookup_2|done|].
  assert (Hp : approval_status a <> "pending") by (by rewrite Hblock).
  exists a. split_and!; [done|congruence| |].
  - pose proof (ap_ok _ _ Hs) as HF. rewrite Forall_forall in HF. destruct (HF _ Ha) as [[? _]|[? _]]; [done|done].
  - apply (coupled_status _ _ (ap_coupled _ _ Hs')); [by rewrite Hsame|by eapply list_elem_of_lookup_2|congruence|done].
Qed.

(** ** The sweeps *)

Section Sweep.
Context `{!RegexLaws}.

(** The member of a redacted payload. *)
Lemma redacted_member key (fields : list (string * Json)) :
  bm_get key (List.map (fun '(k, r) => (k, fst r))
    (List.map (fun '(k, item) => (k, redact_json_value_at_key item (Some k))) fields))
  = (fun item => fst (redact_json_value_at_key item (Some key))) <$> bm_get key fields.
Proof.
  induction fields as [|[k item] fields IH]; [done|]. cbn [List.map bm_get].
  destruct (String.eqb_spec key k) as [->|]; [done|exact IH].
Qed.

Lemma redacted_string key value text :
  is_secret_key key = false -> json_get_str key value = Some text -> contains_sensitive_data text = false ->
  json_get_str key (redact_persisted_json value) = Some text.
Proof.
  unfold json_get_str, redact_persisted_json, redact_json_value. intros Hkey Hget Hclean.
  destruct value as [| | | | |fields]; cbn [json_get] in *; try done.
  cbn [redact_json_value_at_key key_is_secret andb fst json_get]. rewrite redacted_member.
  destruct (bm_get key fields) as [item|]; [|done]. cbn in Hget. destruct item; try done. injection Hget as ->.
  cbn [fmap option_fmap option_map redact_json_value_at_key key_is_secret]. rewrite Hkey. cbn [andb fst].
  by rewrite redact_clean.
Qed.

(** A resolution of a pending approval, as the sweeps do it, succeeds. *)
Definition resolved_as (status : string) (now : DateTime) (a a' : ApprovalRequestRecord) : Prop :=
  approval_evolves a a' /\ approval_status a' = status /\ resolved_at a' = Some now.

Lemma find_approval s i a :
  approvals_inv s -> approval_requests s !! i = Some a ->
  find_at (fun r => (approval_id r =? approval_id a)%N && (approval_session_id r =? approval_session_id a)%N)
    (approval_requests s) = Some (i, a).
Proof.
  intros Hs Hi. destruct (find_at _ (approval_requests s)) as [[j b]|] eqn:Hf.
  - apply find_at_Some in Hf as (Hj & [Hid%N.eqb_eq _]%andb_prop & _).
    assert (j = i) as ->; [|congruence]. eapply (keys_inj approval_id); [apply Hs|done..].
  - apply find_at_None in Hf. rewrite Forall_lookup in Hf. specialize (Hf _ _ Hi). by rewrite !N.eqb_refl in Hf.
Qed.

(** A resolution can be audited. *)
Lemma resolution_audited status r (G : Prop) :
  is_resolution status = true -> audit_status_from_approval status = r ->
  match r with Ok _ => True | _ => G end.
Proof.
  unfold is_resolution, audit_status_from_approval. intros Hres <-.
  repeat (destruct (String.eqb status _); [done|]). done.
Qed.

Lemma payload_audited s j e p audit approval status at_ code r (G : Prop) :
  approvals_inv s -> find_at p (approval_effects s) = Some (j, e) ->
  evolution_audit_record audit (effect_payload e) approval (effect_id e) status at_ code = r ->
  match r with Ok _ => True | _ => G end.
Proof.
  intros Hs (Hj & _ & _)%find_at_Some <-.
  destruct (proj1 (audit_succeeds _) (effect_auditable _ (ap_effect_ok _ _ _ _ Hs Hj)) audit approval (effect_id e)
    status at_ code) as [entry ->]. done.
Qed.

Lemma resolve_pending sid id resolution audit s i a :
  approvals_inv s -> approval_requests s !! i = Some a -> approval_id a = id -> approval_session_id a = sid ->
  approval_status a = "pending" -> is_resolution (res_status resolution) = true ->
  tx_wp (resolve_approval_in_memory sid id resolution audit)
    (fun r s' => exists a', r = Ok a' /\ approval_requests s' = <[i := a']> (approval_requests s)
       /\ resolved_as (res_status resolution) (res_resolved_at resolution) a a') s.
Proof.
  intros Hs Hi <- <- Hp Hres. pose proof (find_approval _ _ _ Hs Hi) as Hfind.
  pose proof (pending_version _ (ap_approval_ok _ _ _ _ Hs Hi) Hp) as Hv.
  unfold resolve_approval_in_memory, increment, set_approval, set_effect, push_effect, append_audit,
    append_evolution_audit_in_memory.
  tx_steps; try congruence.
  all: match goal with Hf : find_at _ (approval_requests _) = Some _ |- _ =>
    rewrite Hfind in Hf; injection Hf as <- <- end.
  all: rewrite ?Hv, ?Hp in *; try done.
  all: try match goal with E : audit_status_from_approval _ = _ |- ?G =>
    exact (resolution_audited _ _ G Hres E) end.
  all: try match goal with E : evolution_audit_record _ _ _ _ _ _ _ = _, Hf : find_at _ (approval_effects _) = Some _ |- ?G =>
    exact (payload_audited _ _ _ _ _ _ _ _ _ _ G Hs Hf E) end.
  all: eexists; split_and!; [reflexivity|reflexivity|].
  all: split_and!; try done; split_and!; done.
Qed.

Lemma resolve_pending_with_event status reason origin now audit s i a :
  approvals_inv s -> approval_requests s !! i = Some a ->
  approval_status a = "pending" -> is_resolution status = true ->
  contains_sensitive_data (uuid_text (approval_id a)) = false ->
  tx_wp (resolve_approval_with_event_in_memory (approval_session_id a) (approval_id a)
           (swept_resolution (approval_id a) origin status reason now) audit)
    (fun r s' => exists p a', r = Ok p /\ approval_requests s' = <[i := a']> (approval_requests s)
       /\ resolved_as status now a a') s.
Proof.
  intros Hs Hi Hp Hres Hclean. pose proof (lookup_lt_Some _ _ _ Hi) as Hlen.
  unfold resolve_approval_with_event_in_memory. apply tx_wp_bind, tx_wp_ensure.
  2: { rewrite bool_decide_eq_false. intros []. by apply redacted_string. }
  intros _. apply tx_wp_bind.
  eapply tx_wp_mono; [apply tx_wp_and; [by apply resolve_pending|by apply approving_resolve]|].
  intros r s1 [(a1 & -> & Hreq & (Hid & Hsid & Hev) & Hst & Hat) Hs1%approvals_ordered_inv].
  assert (Hi1 : approval_requests s1 !! i = Some a1) by (rewrite Hreq; by apply list_lookup_insert_eq).
  pose proof (find_approval _ _ _ Hs1 Hi1) as Hfind. rewrite Hid, Hsid in Hfind.
  cbv beta iota. unfold set_events, set_approval, touch_session, update_session. tx_steps;
    match goal with Hf : find_at _ _ = _ |- _ => pose proof (eq_trans (eq_sym Hfind) Hf) as Heq end;
    [injection Heq as <- <-|done].
  eexists _, (a1 {{ resolution_event_seq := Some (next_seq (events_of (approval_session_id a) s1)) }}).
  split_and!; [reflexivity| |done..].
  match goal with |- _ = <[i := ?x]> _ =>
    change (<[i := x]> (approval_requests s1) = <[i := x]> (approval_requests s)) end.
  by rewrite Hreq, list_insert_insert_eq.
Qed.

(** What a sweep over [candidates] does to the approval [a] of the table. *)
Definition swept (status : string) (now : DateTime) (candidates : list ApprovalRequestRecord)
    (a a' : ApprovalRequestRecord) : Prop :=
  (a ∈ candidates /\ resolved_as status now a a') \/ ((a ∉ candidates) /\ a' = a).

Lemma sweep_resolves status reason now : is_resolution status = true ->
  forall candidates audits s,
  approvals_inv s -> NoDup (List.map approval_id candidates) ->
  (forall c, c ∈ candidates -> c ∈ approval_requests s /\ approval_status c = "pending"
     /\ contains_sensitive_data (uuid_text (approval_id c)) = false) ->
  tx_wp (sweep status reason now candidates audits)
    (fun r s' => exists events, r = Ok events /\ length events = length candidates
       /\ forall i a, approval_requests s !! i = Some a ->
            exists a', approval_requests s' !! i = Some a' /\ swept status now candidates a a') s.
Proof.
  intros Hres. induction candidates as [|c rest IH]; intros audits s Hs Hnd Hc; cbn [sweep].
  { tx_steps. exists []. split_and!; [done|done|]. intros i a Hi. exists a. split; [done|]. right. split; [apply not_elem_of_nil|done]. }
  destruct (Hc c) as (Hin & Hp & Hclean); [by constructor|]. apply list_elem_of_lookup_1 in Hin as [i Hi].
  pose proof (lookup_lt_Some _ _ _ Hi) as Hlen. inversion Hnd as [|? ? Hnot Hnd']; subst.
  apply tx_wp_bind. eapply tx_wp_mono;
    [apply tx_wp_and; [by apply resolve_pending_with_event|by apply approving_resolve_with_event]|].
  intros r s1 [(p & c' & -> & Hreq & Hc') Hs1%approvals_ordered_inv].
  apply tx_wp_bind. eapply tx_wp_mono; [apply IH; [exact Hs1|exact Hnd'|]|].
  - intros x Hx. destruct (Hc x) as (Hxin & ? & ?); [by constructor|]. split_and!; [|done..]. rewrite Hreq.
    destruct (elem_insert_other _ _ _ c' _ Hi Hxin) as [->|]; [|done]. destruct Hnot. apply list_elem_of_fmap. by exists c.
  - intros r s2 (events & -> & Hlen2 & Hall). tx_steps. exists (p.2 :: events). split_and!; [done|cbn; by rewrite Hlen2|].
    intros k a Hk. destruct (decide (k = i)) as [->|Hne].
    + assert (a = c) as -> by congruence. destruct (Hall i c') as (x & Hx & Hsw).
      { rewrite Hreq. by apply list_lookup_insert_eq. }
      exists x. split; [done|]. left. split; [by constructor|]. destruct Hsw as [[Hbad _]|[_ ->]]; [|done].
      destruct Hnot. apply list_elem_of_fmap. exists c'. split; [|done]. symmetry. apply Hc'.
    + destruct (Hall k a) as (x & Hx & Hsw). { by rewrite Hreq, list_lookup_insert_ne. }
      exists x. split; [done|]. destruct Hsw as [[Hin Hr]|[Hout ->]]; [left; split; [by constructor|done]|].
      right. split; [|done]. apply not_elem_of_cons. split; [|done]. intros ->. destruct Hne.
      eapply (keys_inj approval_id); [apply Hs|done..].
Qed.

(** The sweep over expired approvals ends them all.  In every state that can be
    reached, provided the detectors of secrets leave the identifiers of approvals
    alone, it succeeds; it answers with one event for each approval that was pending
    and past its time; each of these is then timed out at the time of the sweep, and
    every other approval stays as it was. *)
Lemma expiry_sweeps_all now audits s :
  (forall a, a ∈ approval_requests s -> contains_sensitive_data (uuid_text (approval_id a)) = false) ->
  reachable s ->
  let overdue a := String.eqb (approval_status a) "pending" && (expires_at a <=? now)%Z in
  exists events s', expire_pending_approvals now audits s = (Ok events, s')
    /\ length events = length (List.filter overdue (approval_requests s))
    /\ forall i a, approval_requests s !! i = Some a ->
         exists a', approval_requests s' !! i = Some a'
           /\ if overdue a then resolved_as "timed_out" now a a' else a' = a.
Proof.
  intros Hclean Hs%reachable_approvals_inv overdue.
  pose proof (sweep_resolves "timed_out" "expired" now eq_refl (List.filter overdue (approval_requests s)) audits s Hs) as W.
  assert (Hin : forall a, a ∈ List.filter overdue (approval_requests s) <-> a ∈ approval_requests s /\ overdue a = true).
  { intros a. rewrite !list_elem_of_In. apply filter_In. }
  destruct W as (events & Hok & Hlen & Hall).
  - apply keys_filter, Hs.
  - intros c [Hc [Hp _]%andb_prop]%Hin. split_and!; [done|by apply String.eqb_eq|by apply Hclean].
  - exists events, (sweep "timed_out" "expired" now (List.filter overdue (approval_requests s)) audits s).2.
    split_and!; [|done|].
    + change (sweep "timed_out" "expired" now (List.filter overdue (approval_requests s)) audits s = (Ok events,
        (sweep "timed_out" "expired" now (List.filter overdue (approval_requests s)) audits s).2)).
      rewrite <-Hok. apply surjective_pairing.
    + intros i a Hi. destruct (Hall _ _ Hi) as (a' & Hi' & Hsw). exists a'. split; [exact Hi'|].
      destruct Hsw as [[[_ ->]%Hin ?]|[Hout ->]]; [done|]. destruct (overdue a) eqn:E; [|done].
      destruct Hout. apply Hin. split; [by eapply list_elem_of_lookup_2|done].
Qed.
End Sweep.
End Safety.
