(* ===== verification/StoreSample.v ===== *)
(** * Sample runs of the store

    Parameters that can be evaluated, a run of calls on the store, and the theorems
    about the store at the states of that run. *)

From coqutil Require Import Datatypes.RecordSetters.
From stdpp Require Import base tactics list strings gmap relations pretty.
From Stdlib Require Import NArith ZArith Lia.
From S2P Require Import Prelude BTree Text Strings Value ValueFacts ScopedMap Vecs Redaction ServerBase Evolution StoreModel StoreSessions StoreQueues StoreApprovals StoreLogic SessionSafety WorkFacts ApprovalFacts StoreSafety ApprovalSafety.
Import DoubleBraceUpdate.

(** ** Parameters *)

(** Detectors that look for the text "hunter2". *)
Fixpoint contains_text (needle s : string) : bool :=
  String.prefix needle s || match s with String _ rest => contains_text needle rest | EmptyString => false end.

#[local] Instance sample_regex : RegexEngine := {
  is_match _ text := contains_text "hunter2" text;
  find_count _ text := if contains_text "hunter2" text then 1%N else 0%N;
  replace_all _ _ replacement := replacement;
}.

#[local] Instance sample_regex_laws : RegexLaws.
Proof. split. intros pattern text. cbn. by destruct (contains_text "hunter2" text). Qed.

#[local] Existing Instance sample_numbers.
#[local] Instance sample_uuids : UuidText :=
  {| uuid_text := pretty; uuid_parse _ := None; uuid_parse_error s := s |}.
#[local] Instance sample_chrono : Chrono :=
  {| datetime_sub t d := Some (t - d)%Z; seconds_since a b := (a - b)%Z; datetime_text := pretty |}.
#[local] Instance sample_sha : Sha256 := fun s => s.
#[local] Instance sample_profile : BuildProfile := true.
#[local] Instance sample_codec : MetadataCodec := fun _ => inl "no metadata"%string.

(** ** A session and a turn *)

Definition state1 : Inner := after (create_session (mkNewSession "chat" (Loaded "persona")) 1%N 0%Z) inner_default.
Definition state2 : Inner := after (enqueue_turn 1%N "m1" "hello" 10%N 5%Z) state1.
Definition state3 : Inner := after (claim_next_turn 7%N 6%Z) state2.
Definition state4 : Inner := after (complete_turn 10%N 7%N "hi" 7%Z) state3.

Lemma reachable_after {A} (m : Call A) s : reachable s -> store_step s (after m s) -> reachable (after m s).
Proof. intros Hs Hstep. by eapply rtc_r. Qed.

(** Evaluation of a call, up to what has to be shown of its answer. *)
Definition answers {A} (p : A -> bool) (m : Call A) (s : Inner) : bool :=
  match (m s).1 with Ok a => p a | _ => false end.

Lemma answers_ok {A} p (m : Call A) s : answers p m s = true -> exists a, m s = (Ok a, after m s) /\ p a = true.
Proof. unfold answers, after. destruct (m s) as [[a| | |] s']; try done. intros Hp. by exists a. Qed.

Lemma state1_reachable : reachable state1.
Proof. apply reachable_after; [apply rtc_refl|]. apply step_create_session. vm_compute. reflexivity. Qed.

Lemma step12 : store_step state1 state2.
Proof. apply step_enqueue_turn. vm_compute. constructor. Qed.

Lemma state4_reachable : reachable state4.
Proof.
  apply reachable_after; [|apply step_complete_turn]. apply reachable_after; [|apply step_claim_next_turn].
  apply reachable_after; [apply state1_reachable|apply step12].
Qed.

Lemma turn_table_sound_witness :
  reachable state4 /\ (turn_status <$> turns state4) = ["completed"%string] /\ NoDup (List.map turn_id (turns state4)).
Proof.
  split; [exact state4_reachable|]. split; [vm_compute; reflexivity|].
  apply (turn_table_sound state4), state4_reachable.
Defined.

Lemma later : rtc store_step state1 state4.
Proof.
  eapply rtc_l; [exact step12|]. eapply rtc_l; [apply (step_claim_next_turn state2 7%N 6%Z)|].
  apply rtc_once, (step_complete_turn state3).
Qed.

Lemma history_is_kept_witness :
  rtc store_step state1 state4 /\ messages_of 1%N state1 `prefix_of` messages_of 1%N state4.
Proof. split; [exact later|]. apply (history_is_kept state1 state4 state1_reachable later). Defined.

Lemma events_resume_witness :
  exists new, events_of 1%N state4 = events_of 1%N state1 ++ new
    /\ events_after 1%N (Some 0%Z) state4 = (Ok new, state4).
Proof. apply (events_resume state1 state4 1%N state1_reachable later). vm_compute. by eexists. Defined.

Lemma enqueue_turn_retry_witness :
  exists t', turn_id t' = 10%N /\ t' ∈ turns state4
    /\ enqueue_turn 1%N "m1" "hello" 11%N 9%Z state4 = (Ok t', state4).
Proof.
  destruct (answers_ok (fun t => (turn_id t =? 10)%N) (enqueue_turn 1%N "m1" "hello" 10%N 5%Z) state1)
    as (t & E & Hid%N.eqb_eq); [vm_compute; reflexivity|].
  assert (R : session_status <$> (sessions state4 !! 1%N) = Some "open"%string) by (vm_compute; reflexivity).
  destruct (sessions state4 !! 1%N) as [r|] eqn:Hr; [injection R as R|discriminate R].
  assert (Hend : session_status r <> "ended") by (rewrite R; discriminate).
  assert (Hsteps : rtc store_step state2 state4).
  { eapply rtc_l; [apply (step_claim_next_turn state2 7%N 6%Z)|]. apply rtc_once, (step_complete_turn state3). }
  rewrite <-Hid.
  apply (enqueue_turn_retry 1%N "m1" "hello" 10%N 5%Z state1 t state2 state4 11%N 9%Z r state1_reachable);
    [vm_compute; constructor|exact E|exact Hsteps|exact Hr|exact Hend].
Defined.

(** ** Approvals *)

Definition sample_request (id : Uuid) : NewApprovalRequest :=
  mkNewApproval id 1%N None 9%N "omp" "run a script" (JObject []) (JArray []) "approval_continuation"
    (JObject []) true 10%Z 20%Z.
Definition asked : Inner := after (create_approval_request (sample_request 30%N) 50%N) state4.
Definition approved : NewApprovalResolution := mkResolution "approved" None (JString "go") 15%Z.
Definition answered : Inner := after (resolve_approval_request 1%N 30%N approved 51%N) asked.
Definition claimed : Inner := after (claim_next_approval_effect 8%N 16%Z 5%Z) answered.

Lemma asked_reachable : reachable asked.
Proof. apply reachable_after; [apply state4_reachable|apply step_create_approval_request]. Qed.

Lemma answered_reachable : reachable answered.
Proof. apply reachable_after; [apply asked_reachable|apply step_resolve_approval_request]. Qed.

Lemma answered_has_room : epochs_have_room answered.
Proof.
  assert (X : forallb (fun e => (effect_lease_epoch e <? 2 ^ 63 - 1)%Z) (approval_effects answered) = true)
    by (vm_compute; reflexivity).
  apply forallb_Forall in X. eapply Forall_impl; [exact X|]. intros e. apply Z.ltb_lt.
Qed.

Lemma approvals_decided_once_witness :
  approval_status <$> (approval_requests asked !! 0) = Some "pending"%string
  /\ exists a' e, approval_requests claimed !! 0 = Some a' /\ approval_status a' = "approved"
       /\ effect_for claimed a' e /\ json_get "resolution" (effect_payload e) = resolution_json a'.
Proof.
  assert (A : approval_status <$> (approval_requests asked !! 0) = Some "pending"%string) by (vm_compute; reflexivity).
  split; [exact A|]. destruct (approval_requests asked !! 0) as [a|] eqn:Ha; [clear A|discriminate A].
  assert (Hsteps : rtc store_step asked claimed).
  { eapply rtc_l; [apply (step_resolve_approval_request asked 1%N 30%N approved 51%N)|].
    apply rtc_once, (step_claim_next_approval_effect answered), answered_has_room. }
  destruct (approvals_decided_once asked claimed 0 a asked_reachable Hsteps Ha) as (a' & e & Ha' & _ & _ & He & _ & _ & Hans).
  exists a', e. assert (E : approval_status a' = "approved").
  { assert (X : approval_status <$> (approval_requests claimed !! 0) = Some "approved"%string) by (vm_compute; reflexivity).
    rewrite Ha' in X. by injection X. }
  split; [exact Ha'|]. split; [exact E|]. split; [exact He|]. apply Hans. rewrite E. discriminate.
Defined.

Lemma effects_wait_for_answers_witness :
  exists lease a, effect_grants lease answered claimed /\ a ∈ approval_requests answered
    /\ is_resolution (approval_status a) = true.
Proof.
  destruct (answers_ok (fun o => bool_decide (is_Some o)) (claim_next_approval_effect 8%N 16%Z 5%Z) answered)
    as (o & E & Ho%bool_decide_eq_true); [vm_compute; reflexivity|]. destruct Ho as [lease ->].
  pose proof (grants_next_effect lease answered claimed 8%N 16%Z 5%Z answered_has_room E) as Hg.
  destruct (effects_wait_for_answers answered lease claimed answered_reachable Hg) as (a & Ha & _ & Hr & _).
  exists lease, a. split; [exact Hg|]. split; [exact Ha|exact Hr].
Defined.

Lemma expiry_sweeps_all_witness :
  exists events s', expire_pending_approvals 25%Z (fun n => N.of_nat (60 + n)) asked = (Ok events, s') /\ length events = 1.
Proof.
  destruct (expiry_sweeps_all 25%Z (fun n => N.of_nat (60 + n)) asked) as (events & s' & E & Hlen & _).
  - intros a Ha. assert (X : forallb (fun a => negb (contains_sensitive_data (uuid_text (approval_id a)))) (approval_requests asked) = true)
      by (vm_compute; reflexivity).
    rewrite forallb_forall in X. apply negb_true_iff, X. by apply list_elem_of_In.
  - exact asked_reachable.
  - exists events, s'. split; [exact E|]. rewrite Hlen. vm_compute. reflexivity.
Defined.

(** ** Queues *)

Definition sample_job : NewCronJobRecord := mkNewCronJob "nightly" "Nightly" "0 3 * * *" true "chat" 1%Z 60%Z (Some 100%Z).
Definition sample_fire (at_ : Z) : NewCronRunRecord := mkNewCronRun "nightly" at_ "queued" None JNull.
Definition scheduled : Inner := after (upsert_cron_job sample_job 1%Z) inner_default.
Definition fired : Inner := after (materialize_cron_run (sample_fire 100) 100%Z 200%Z 40%N 101%Z 101%Z) scheduled.
Definition running : Inner := after (claim_ready_cron_run 5%N 102%Z 10%Z 3%Z) fired.
Definition taken_over : Inner := after (claim_ready_cron_run 6%N 150%Z 10%Z 3%Z) running.

Lemma scheduled_reachable : reachable scheduled.
Proof. apply reachable_after; [apply rtc_refl|apply step_upsert_cron_job]. Qed.

(** No run of the table has the identifier. *)
Lemma fresh_run id s : forallb (fun r => negb (run_id r =? id)%N) (cron_runs s) = true -> Forall (fun r => run_id r <> id) (cron_runs s).
Proof. rewrite forallb_Forall. intros HF. eapply Forall_impl; [exact HF|]. intros r E%negb_true_iff. by apply N.eqb_neq. Qed.

Lemma fired_reachable : reachable fired.
Proof. apply reachable_after; [apply scheduled_reachable|]. apply step_materialize_cron_run, fresh_run. vm_compute. reflexivity. Qed.

Lemma taken_over_later : rtc store_step fired taken_over.
Proof.
  eapply rtc_l; [apply (step_claim_ready_cron_run fired 5%N 102%Z 10%Z 3%Z); reflexivity|].
  apply rtc_once, step_claim_ready_cron_run. reflexivity.
Qed.

Lemma work_recorded_once_witness :
  reachable taken_over
  /\ forall r, r ∈ cron_runs taken_over -> run_lease_epoch r = run_attempts r /\ (0 <= run_attempts r < 2 ^ 31)%Z.
Proof.
  assert (R : reachable taken_over) by (unfold reachable; etrans; [exact fired_reachable|exact taken_over_later]).
  split; [exact R|]. intros r Hr. apply (work_recorded_once taken_over R). exact Hr.
Defined.

Lemma fire_materialized_once_witness :
  materialize_cron_run (sample_fire 100) 100%Z 300%Z 41%N 160%Z 160%Z taken_over = (Ok None, taken_over)
  \/ exists e, materialize_cron_run (sample_fire 100) 100%Z 300%Z 41%N 160%Z 160%Z taken_over = (Err e, taken_over).
Proof.
  destruct (answers_ok (fun o => bool_decide (is_Some o)) (materialize_cron_run (sample_fire 100) 100%Z 200%Z 40%N 101%Z 101%Z) scheduled)
    as (o & E & Ho%bool_decide_eq_true); [vm_compute; reflexivity|]. destruct Ho as [r ->].
  apply (fire_materialized_once (sample_fire 100) 100%Z 200%Z 40%N 101%Z 101%Z scheduled r fired taken_over
           (sample_fire 100) 300%Z 41%N 160%Z 160%Z scheduled_reachable);
    [apply fresh_run; vm_compute; reflexivity|exact E|exact taken_over_later|reflexivity].
Defined.

(** A lease that was taken over, and what its first holder can do with it. *)
Lemma leases_fenced_witness : exists lease lease',
  run_grants lease fired running /\ run_grants lease' running taken_over /\ run_useless lease taken_over.
Proof.
  destruct (answers_ok (fun o => bool_decide (run_id ∘ lease_run <$> o = Some 40%N)) (claim_ready_cron_run 5%N 102%Z 10%Z 3%Z) fired)
    as (o & E & Ho%bool_decide_eq_true); [vm_compute; reflexivity|].
  destruct (answers_ok (fun o => bool_decide (run_id ∘ lease_run <$> o = Some 40%N)) (claim_ready_cron_run 6%N 150%Z 10%Z 3%Z) running)
    as (o' & E' & Ho'%bool_decide_eq_true); [vm_compute; reflexivity|].
  destruct o as [lease|]; [|discriminate Ho]. destruct o' as [lease'|]; [|discriminate Ho'].
  injection Ho as Ho. injection Ho' as Ho'.
  assert (G : run_grants lease fired running) by (exact (grants_ready_run _ _ _ 5%N 102%Z 10%Z 3%Z eq_refl E)).
  assert (G' : run_grants lease' running taken_over) by (exact (grants_ready_run _ _ _ 6%N 150%Z 10%Z 3%Z eq_refl E')).
  exists lease, lease'. split; [exact G|]. split; [exact G'|].
  destruct leases_fenced as (_ & Hfence & _).
  apply (Hfence lease fired running running taken_over taken_over fired_reachable G (rtc_refl _ _)); [|apply rtc_refl].
  right. exists lease'. split; [exact (eq_trans Ho' (eq_sym Ho))|exact G'].
Defined.

(** ** Redaction *)

Lemma redaction_hides_witness :
  json_get_str "password" (fst (redact_json_value (JObject [("note", JString "ok"); ("password", JString "x")]%string)))
    = Some "[REDACTED_SECRET]"%string
  /\ redact_json_value (JObject [("note", JString "ok")]%string) = (JObject [("note", JString "ok")]%string, 0%N).
Proof.
  split; [vm_compute; reflexivity|].
  apply (redaction_hides (JObject [("note", JString "ok")]%string)). vm_compute. reflexivity.
Defined.
