(* ===== verification/Net.v ===== *)
(** * Resolved addresses ([tm-egress/src/resolver.rs])

    Before a connection is made, every address the resolver answered with is vetted:
    addresses that are not public are refused, unless the destination allows private
    ones, and a few are refused in any case. *)

From stdpp Require Import base tactics list sets strings sorting.
From Stdlib Require Import NArith Lia Ascii.
From S2P Require Import Prelude Text EgressState.

Local Open Scope N_scope.

(** ** Addresses

    The octets of an IPv4 address and the segments of an IPv6 address. *)
Inductive IpAddr :=
| V4 (a b c d : N)
| V6 (s0 s1 s2 s3 s4 s5 s6 s7 : N).

#[global] Instance ip_eq_dec : EqDecision IpAddr.
Proof. solve_decision. Defined.

Definition ip_wf (ip : IpAddr) : Prop :=
  match ip with
  | V4 a b c d => a < 2 ^ 8 /\ b < 2 ^ 8 /\ c < 2 ^ 8 /\ d < 2 ^ 8
  | V6 s0 s1 s2 s3 s4 s5 s6 s7 =>
      s0 < 2 ^ 16 /\ s1 < 2 ^ 16 /\ s2 < 2 ^ 16 /\ s3 < 2 ^ 16
      /\ s4 < 2 ^ 16 /\ s5 < 2 ^ 16 /\ s6 < 2 ^ 16 /\ s7 < 2 ^ 16
  end.

Definition v4_value (a b c d : N) : N := ((a * 2 ^ 8 + b) * 2 ^ 8 + c) * 2 ^ 8 + d.

Definition v6_value (s0 s1 s2 s3 s4 s5 s6 s7 : N) : N :=
  ((((((s0 * 2 ^ 16 + s1) * 2 ^ 16 + s2) * 2 ^ 16 + s3) * 2 ^ 16 + s4) * 2 ^ 16 + s5) * 2 ^ 16 + s6) * 2 ^ 16 + s7.

Record SocketAddr := mkSocket { sock_ip : IpAddr; sock_port : N }.

#[global] Instance sock_eq_dec : EqDecision SocketAddr.
Proof. solve_decision. Defined.

(** ** The standard library's predicates *)

Definition v4_is_unspecified (a b c d : N) : bool := (a =? 0) && (b =? 0) && (c =? 0) && (d =? 0).
Definition v4_is_broadcast (a b c d : N) : bool := (a =? 255) && (b =? 255) && (c =? 255) && (d =? 255).
Definition v4_is_multicast (a b c d : N) : bool := in_range 224 239 a.
Definition v4_is_link_local (a b c d : N) : bool := (a =? 169) && (b =? 254).
Definition v4_is_loopback (a b c d : N) : bool := a =? 127.
Definition v4_is_private (a b c d : N) : bool :=
  (a =? 10) || ((a =? 172) && in_range 16 31 b) || ((a =? 192) && (b =? 168)).
Definition v4_is_documentation (a b c d : N) : bool :=
  ((a =? 192) && (b =? 0) && (c =? 2)) || ((a =? 198) && (b =? 51) && (c =? 100))
  || ((a =? 203) && (b =? 0) && (c =? 113)).

Definition v6_is_unspecified (s0 s1 s2 s3 s4 s5 s6 s7 : N) : bool :=
  (s0 =? 0) && (s1 =? 0) && (s2 =? 0) && (s3 =? 0) && (s4 =? 0) && (s5 =? 0) && (s6 =? 0) && (s7 =? 0).
Definition v6_is_loopback (s0 s1 s2 s3 s4 s5 s6 s7 : N) : bool :=
  (s0 =? 0) && (s1 =? 0) && (s2 =? 0) && (s3 =? 0) && (s4 =? 0) && (s5 =? 0) && (s6 =? 0) && (s7 =? 1).
Definition v6_is_multicast (s0 : N) : bool := N.land s0 0xff00 =? 0xff00.

(** [Ipv6Addr::to_ipv4_mapped]. *)
Definition to_ipv4_mapped (s0 s1 s2 s3 s4 s5 s6 s7 : N) : option IpAddr :=
  if (s0 =? 0) && (s1 =? 0) && (s2 =? 0) && (s3 =? 0) && (s4 =? 0) && (s5 =? 0xffff)
  then Some (V4 (N.shiftr s6 8) (N.land s6 0xff) (N.shiftr s7 8) (N.land s7 0xff))
  else None.

(** ** Reading an address

    [IpAddr::from_str]: the recursive-descent parser of the standard library. *)

Definition digit_value (radix : N) (a : ascii) : option N :=
  let n := N_of_ascii a in
  let d := if in_range 48 57 n then Some (n - 48)
           else if in_range 97 122 n then Some (n - 87)
           else if in_range 65 90 n then Some (n - 55) else None in
  match d with Some v => if v <? radix then Some v else None | None => None end.

(** The digits at the front, their number and the value they add to. *)
Fixpoint read_digits (radix : N) (count value : N) (l : list ascii) : N * N * list ascii :=
  match l with
  | [] => (count, value, [])
  | a :: l' =>
      match digit_value radix a with
      | Some d => read_digits radix (count + 1) (value * radix + d) l'
      | None => (count, value, l)
      end
  end.

(** [read_number] below [limit], with at most [max_digits] digits. *)
Definition read_number (radix max_digits limit : N) (allow_zero_prefix : bool) (l : list ascii)
    : option (N * list ascii) :=
  let '(count, value, rest) := read_digits radix 0 0 l in
  if (count =? 0) || (max_digits <? count) || (limit <=? value) then None
  else if negb allow_zero_prefix && match l with a :: _ => Ascii.eqb a "0" | [] => false end && (1 <? count)
  then None
  else Some (value, rest).

Definition read_char (c : ascii) (l : list ascii) : option (list ascii) :=
  match l with a :: l' => if Ascii.eqb a c then Some l' else None | [] => None end.

Definition read_octet (l : list ascii) : option (N * list ascii) := read_number 10 3 256 false l.

Definition read_ipv4_addr (l : list ascii) : option (N * N * N * N * list ascii) :=
  '(a, l) ← read_octet l; l ← read_char "." l;
  '(b, l) ← read_octet l; l ← read_char "." l;
  '(c, l) ← read_octet l; l ← read_char "." l;
  '(d, l) ← read_octet l; Some (a, b, c, d, l).

(** [read_separator]: a colon before every group but the first. *)
Definition read_separator (index : nat) (l : list ascii) : option (list ascii) :=
  match index with O => Some l | S _ => read_char ":" l end.

(** [read_groups] into [left] more slots: the groups read, whether they end with an
    IPv4 address, and the rest. *)
Fixpoint read_groups (left index : nat) (groups : list N) (l : list ascii) : list N * bool * list ascii :=
  match left with
  | O => (groups, false, l)
  | S left' =>
      match (if (1 <=? left')%nat then l' ← read_separator index l; read_ipv4_addr l' else None) with
      | Some (a, b, c, d, rest) => (groups ++ [a * 256 + b; c * 256 + d], true, rest)
      | None =>
          match (l' ← read_separator index l; read_number 16 4 65536 true l') with
          | Some (group, rest) => read_groups left' (S index) (groups ++ [group]) rest
          | None => (groups, false, l)
          end
      end
  end.

Definition ipv6_of (groups : list N) : option IpAddr :=
  match groups with
  | [s0; s1; s2; s3; s4; s5; s6; s7] => Some (V6 s0 s1 s2 s3 s4 s5 s6 s7)
  | _ => None
  end.

Definition read_ipv6_addr (l : list ascii) : option (IpAddr * list ascii) :=
  let '(head, head_ipv4, rest) := read_groups 8 0 [] l in
  if (length head =? 8)%nat then ip ← ipv6_of head; Some (ip, rest)
  else if head_ipv4 then None
  else
    rest ← read_char ":" rest; rest ← read_char ":" rest;
    let '(tail, _, rest) := read_groups (7 - length head) 0 [] rest in
    ip ← ipv6_of (head ++ replicate (8 - length head - length tail) 0 ++ tail);
    Some (ip, rest).

Definition parse_ip (text : string) : option IpAddr :=
  let l := String.list_ascii_of_string text in
  match read_ipv4_addr l with
  | Some (a, b, c, d, []) => Some (V4 a b c d)
  | Some _ => None
  | None => match read_ipv6_addr l with Some (ip, []) => Some ip | _ => None end
  end.

(** ** Vetting *)

Definition normalize_ip (ip : IpAddr) : IpAddr :=
  match ip with
  | V6 s0 s1 s2 s3 s4 s5 s6 s7 => default ip (to_ipv4_mapped s0 s1 s2 s3 s4 s5 s6 s7)
  | V4 _ _ _ _ => ip
  end.

Definition hard_denied (ip : IpAddr) : bool :=
  match ip with
  | V4 a b c d =>
      v4_is_unspecified a b c d || v4_is_broadcast a b c d || v4_is_multicast a b c d
      || v4_is_link_local a b c d
      || bool_decide (ip = V4 100 100 100 200) || bool_decide (ip = V4 168 63 129 16)
  | V6 s0 s1 s2 s3 s4 s5 s6 s7 =>
      v6_is_unspecified s0 s1 s2 s3 s4 s5 s6 s7 || v6_is_multicast s0
      || (N.land s0 0xffc0 =? 0xfe80)
      || bool_decide (ip = V6 0xfd00 0x0ec2 0 0 0 0 0 0x0254)
  end.

Definition ipv4_special (a b c d : N) : bool :=
  v4_is_private a b c d || v4_is_loopback a b c d || v4_is_link_local a b c d
  || v4_is_documentation a b c d || v4_is_broadcast a b c d || v4_is_multicast a b c d
  || v4_is_unspecified a b c d.

Definition ipv6_special (s0 s1 s2 s3 s4 s5 s6 s7 : N) : bool :=
  v6_is_loopback s0 s1 s2 s3 s4 s5 s6 s7 || v6_is_unspecified s0 s1 s2 s3 s4 s5 s6 s7
  || v6_is_multicast s0 || (N.land s0 0xfe00 =? 0xfc00) || (N.land s0 0xffc0 =? 0xfe80).

(** A network of the crate [ipnet]: an address and the length of the prefix.  The
    networks below are what the crate parses the texts to. *)
Record IpNet := mkNet { net_addr : IpAddr; prefix_len : N }.

Definition DENIED_NETWORKS : list IpNet := [
  mkNet (V4 0 0 0 0) 8; mkNet (V4 10 0 0 0) 8; mkNet (V4 100 64 0 0) 10; mkNet (V4 127 0 0 0) 8;
  mkNet (V4 169 254 0 0) 16; mkNet (V4 172 16 0 0) 12; mkNet (V4 192 0 0 0) 24; mkNet (V4 192 0 2 0) 24;
  mkNet (V4 192 168 0 0) 16; mkNet (V4 198 18 0 0) 15; mkNet (V4 198 51 100 0) 24;
  mkNet (V4 203 0 113 0) 24; mkNet (V4 224 0 0 0) 4; mkNet (V4 240 0 0 0) 4;
  mkNet (V6 0 0 0 0 0 0 0 0) 128; mkNet (V6 0 0 0 0 0 0 0 1) 128; mkNet (V6 0 0 0 0 0 0xffff 0 0) 96;
  mkNet (V6 0x64 0xff9b 1 0 0 0 0 0) 48; mkNet (V6 0x100 0 0 0 0 0 0 0) 64;
  mkNet (V6 0x2001 0xdb8 0 0 0 0 0 0) 32; mkNet (V6 0xfc00 0 0 0 0 0 0 0) 7;
  mkNet (V6 0xfe80 0 0 0 0 0 0 0) 10; mkNet (V6 0xff00 0 0 0 0 0 0 0) 8].

(** [IpNet::contains]. *)
Class IpNetLib := net_contains : IpNet -> IpAddr -> bool.

(** A network contains the addresses of its family that share its prefix. *)
Class IpNetLaws `{IpNetLib} := {
  net_contains_v4 a b c d len a' b' c' d' :
    net_contains (mkNet (V4 a b c d) len) (V4 a' b' c' d') = true <->
    v4_value a b c d / 2 ^ (32 - len) = v4_value a' b' c' d' / 2 ^ (32 - len);
  net_contains_v6 s0 s1 s2 s3 s4 s5 s6 s7 len t0 t1 t2 t3 t4 t5 t6 t7 :
    net_contains (mkNet (V6 s0 s1 s2 s3 s4 s5 s6 s7) len) (V6 t0 t1 t2 t3 t4 t5 t6 t7) = true <->
    v6_value s0 s1 s2 s3 s4 s5 s6 s7 / 2 ^ (128 - len) = v6_value t0 t1 t2 t3 t4 t5 t6 t7 / 2 ^ (128 - len);
}.

Section Vetting.
Context `{IpNetLib}.

Definition denied_network (ip : IpAddr) : bool :=
  existsb (fun network => net_contains network ip) DENIED_NETWORKS
  || match ip with
     | V4 a b c d => ipv4_special a b c d
     | V6 s0 s1 s2 s3 s4 s5 s6 s7 => ipv6_special s0 s1 s2 s3 s4 s5 s6 s7
     end.

(** The order of a [BTreeSet<SocketAddr>] on addresses of one port: IPv4 first. *)
Definition sock_key (s : SocketAddr) : N :=
  match sock_ip s with
  | V4 a b c d => v4_value a b c d
  | V6 s0 s1 s2 s3 s4 s5 s6 s7 => 2 ^ 32 + v6_value s0 s1 s2 s3 s4 s5 s6 s7
  end.

Fixpoint set_insert (s : SocketAddr) (l : list SocketAddr) : list SocketAddr :=
  match l with
  | [] => [s]
  | s' :: l' =>
      if sock_key s <? sock_key s' then s :: l
      else if bool_decide (s = s') then l
      else s' :: set_insert s l'
  end.

Fixpoint vet_addresses (addresses : list SocketAddr) (expected_port : N) (allow_private_ips : bool)
    (validated : list SocketAddr) : EgressResult (list SocketAddr) :=
  match addresses with
  | [] => Ok validated
  | address :: rest =>
      if negb (sock_port address =? expected_port) then Err (Denied "DNS answer changed the destination port")
      else
        let ip := normalize_ip (sock_ip address) in
        if hard_denied ip || (negb allow_private_ips && denied_network ip)
        then Err (Denied "DNS answer is private, loopback, link-local, metadata, or non-routable")
        else vet_addresses rest expected_port allow_private_ips (set_insert (mkSocket ip expected_port) validated)
  end.

Definition validate_resolved_addresses (addresses : list SocketAddr) (expected_port : N)
    (allow_private_ips : bool) : EgressResult (list SocketAddr) :=
  match addresses with
  | [] => Err Dns
  | _ => vet_addresses addresses expected_port allow_private_ips []
  end.

(** [SystemDnsResolver::resolve], with the answer of [lookup_host]. *)
Definition system_resolve (lookup : option (list SocketAddr)) (host : string) (port : N)
    : EgressResult (list SocketAddr) :=
  match parse_ip host with
  | Some ip => Ok [mkSocket ip port]
  | None =>
      match lookup with
      | None => Err Dns
      | Some resolved =>
          match foldl (fun set s => set_insert s set) [] resolved with
          | [] => Err Dns
          | addresses => Ok addresses
          end
      end
  end.
End Vetting.

(** ** What an accepted answer is

    Public addresses, by octets and segments: none of the blocks reserved for
    private, local, shared, documentation, benchmarking or future use. *)
Definition public (ip : IpAddr) : Prop :=
  match ip with
  | V4 a b c d =>
      ~ (a = 0 \/ a = 10 \/ a = 127 \/ 224 <= a
         \/ (a = 100 /\ 64 <= b <= 127) \/ (a = 169 /\ b = 254) \/ (a = 172 /\ 16 <= b <= 31)
         \/ (a = 192 /\ b = 168) \/ (a = 192 /\ b = 0 /\ (c = 0 \/ c = 2))
         \/ (a = 198 /\ 18 <= b <= 19) \/ (a = 198 /\ b = 51 /\ c = 100) \/ (a = 203 /\ b = 0 /\ c = 113))
  | V6 s0 s1 s2 s3 s4 s5 s6 s7 =>
      ~ ((s0 = 0 /\ s1 = 0 /\ s2 = 0 /\ s3 = 0 /\ s4 = 0 /\ s5 = 0 /\ s6 = 0 /\ s7 <= 1)
         \/ (s0 = 0 /\ s1 = 0 /\ s2 = 0 /\ s3 = 0 /\ s4 = 0 /\ s5 = 0xffff)
         \/ (s0 = 0x64 /\ s1 = 0xff9b /\ s2 = 1) \/ (s0 = 0x100 /\ s1 = 0 /\ s2 = 0 /\ s3 = 0)
         \/ (s0 = 0x2001 /\ s1 = 0xdb8) \/ 0xfc00 <= s0 <= 0xfdff \/ 0xfe80 <= s0 <= 0xfebf \/ 0xff00 <= s0)
  end.

(** Addresses no policy can allow: unspecified, broadcast, multicast, link-local
    and the metadata services of cloud providers. *)
Definition never_allowed (ip : IpAddr) : Prop :=
  match ip with
  | V4 a b c d =>
      ip = V4 0 0 0 0 \/ ip = V4 255 255 255 255 \/ 224 <= a <= 239 \/ (a = 169 /\ b = 254)
      \/ ip = V4 100 100 100 200 \/ ip = V4 168 63 129 16
  | V6 s0 s1 s2 s3 s4 s5 s6 s7 =>
      ip = V6 0 0 0 0 0 0 0 0 \/ 0xff00 <= s0 \/ 0xfe80 <= s0 <= 0xfebf
      \/ ip = V6 0xfd00 0x0ec2 0 0 0 0 0 0x0254
  end.

Section Facts.
Context `{IpNetLib}.

Lemma div_block x q k : q * 2 ^ k <= x < (q + 1) * 2 ^ k -> x / 2 ^ k = q.
Proof.
  intros [Hlo Hhi]. symmetry. apply (N.div_unique _ _ _ (x - q * 2 ^ k)); [|lia].
  rewrite N.mul_add_distr_r in Hhi. lia.
Qed.

(** A prefix mask of the first segment selects a block of its values. *)
Lemma land_high w k s : k <= w -> s < 2 ^ w -> N.land s (2 ^ w - 2 ^ k) = s / 2 ^ k * 2 ^ k.
Proof.
  intros Hk Hs. replace (2 ^ w - 2 ^ k) with (N.shiftl (N.ones (w - k)) k).
  2:{ rewrite N.shiftl_mul_pow2, N.ones_equiv. replace w with ((w - k) + k) at 2 by lia.
      rewrite N.pow_add_r, <- N.sub_1_r, N.mul_sub_distr_r. lia. }
  rewrite <- N.shiftl_mul_pow2, <- N.shiftr_div_pow2. apply N.bits_inj. intros i.
  rewrite N.land_spec. destruct (N.lt_ge_cases i k) as [Hi|Hi].
  - by rewrite !N.shiftl_spec_low, andb_false_r.
  - rewrite !N.shiftl_spec_high', N.shiftr_spec' by done. replace (i - k + k) with i by lia.
    destruct (N.lt_ge_cases (i - k) (w - k)) as [Hw|Hw].
    + by rewrite N.ones_spec_low, andb_true_r.
    + rewrite N.ones_spec_high, andb_false_r by done. symmetry.
      destruct (decide (s = 0)) as [->|Hz]; [apply N.bits_0|]. apply N.bits_above_log2.
      apply N.log2_lt_pow2; [lia|]. eapply N.lt_le_trans; [exact Hs|]. apply N.pow_le_mono_r; lia.
Qed.

Lemma land_block w k s q : k <= w -> s < 2 ^ w -> q * 2 ^ k <= s < (q + 1) * 2 ^ k ->
  N.land s (2 ^ w - 2 ^ k) = q * 2 ^ k.
Proof. intros Hk Hs Hq. by rewrite land_high, (div_block _ q). Qed.

Lemma existsb_here {A} (p : A -> bool) l x : In x l -> p x = true -> existsb p l = true.
Proof. intros Hx Hp. apply existsb_exists. eauto. Qed.

(** Reserved addresses are refused unless the destination allows private ones. *)
Lemma v4_denied `{!IpNetLaws} a b c d :
  ip_wf (V4 a b c d) -> denied_network (V4 a b c d) = false -> public (V4 a b c d).
Proof.
  intros (Ha & Hb & Hc & Hd) Hn. unfold denied_network in Hn. apply orb_false_elim in Hn as [Hn _].
  intros Hr. apply not_true_iff_false in Hn. apply Hn. clear Hn. unfold DENIED_NETWORKS.
  assert (Hin : forall q k a' b' c' d', In (mkNet (V4 a' b' c' d') (32 - k)) DENIED_NETWORKS ->
    k <= 32 -> v4_value a' b' c' d' = q * 2 ^ k -> q * 2 ^ k <= v4_value a b c d < (q + 1) * 2 ^ k ->
    existsb (fun network => net_contains network (V4 a b c d)) DENIED_NETWORKS = true).
  { intros q k a' b' c' d' Hl Hk Hq Hx. eapply existsb_here; [exact Hl|]. apply net_contains_v4.
    replace (32 - (32 - k)) with k by lia. rewrite !(div_block _ q); [done|exact Hx|]. rewrite Hq.
    pose proof (N.pow_nonzero 2 k). lia. }
  unfold v4_value in *.
  destruct Hr as [->|[->|[->|[Hr|[[-> Hr]|[[-> ->]|[[-> Hr]|[[-> ->]|[(-> & -> & [->| ->])|[[-> Hr]|
    [(-> & -> & ->)|(-> & -> & ->)]]]]]]]]]]].
  - apply (Hin 0 24 0 0 0 0); [by cbn; tauto|lia..].
  - apply (Hin 10 24 10 0 0 0); [by cbn; tauto|lia..].
  - apply (Hin 127 24 127 0 0 0); [by cbn; tauto|lia..].
  - destruct (N.lt_ge_cases a 240).
    + apply (Hin 14 28 224 0 0 0); [by cbn; tauto|lia..].
    + apply (Hin 15 28 240 0 0 0); [by cbn; tauto|lia..].
  - apply (Hin 401 22 100 64 0 0); [by cbn; tauto|lia..].
  - apply (Hin 43518 16 169 254 0 0); [by cbn; tauto|lia..].
  - apply (Hin 2753 20 172 16 0 0); [by cbn; tauto|lia..].
  - apply (Hin 49320 16 192 168 0 0); [by cbn; tauto|lia..].
  - apply (Hin 12582912 8 192 0 0 0); [by cbn; tauto|lia..].
  - apply (Hin 12582914 8 192 0 2 0); [by cbn; tauto|lia..].
  - apply (Hin 25353 17 198 18 0 0); [by cbn; tauto|lia..].
  - apply (Hin 12989284 8 198 51 100 0); [by cbn; tauto|lia..].
  - apply (Hin 13303921 8 203 0 113 0); [by cbn; tauto|lia..].
Qed.

Lemma v6_denied `{!IpNetLaws} s0 s1 s2 s3 s4 s5 s6 s7 :
  ip_wf (V6 s0 s1 s2 s3 s4 s5 s6 s7) -> denied_network (V6 s0 s1 s2 s3 s4 s5 s6 s7) = false ->
  public (V6 s0 s1 s2 s3 s4 s5 s6 s7).
Proof.
  intros (A0 & A1 & A2 & A3 & A4 & A5 & A6 & A7) Hn. unfold denied_network in Hn.
  apply orb_false_elim in Hn as [Hn _]. intros Hr. apply not_true_iff_false in Hn. apply Hn. clear Hn.
  assert (Hin : forall q k t0 t1 t2 t3 t4 t5 t6 t7,
    In (mkNet (V6 t0 t1 t2 t3 t4 t5 t6 t7) (128 - k)) DENIED_NETWORKS -> k <= 128 ->
    v6_value t0 t1 t2 t3 t4 t5 t6 t7 = q * 2 ^ k ->
    q * 2 ^ k <= v6_value s0 s1 s2 s3 s4 s5 s6 s7 < (q + 1) * 2 ^ k ->
    existsb (fun network => net_contains network (V6 s0 s1 s2 s3 s4 s5 s6 s7)) DENIED_NETWORKS = true).
  { intros q k t0 t1 t2 t3 t4 t5 t6 t7 Hl Hk Hq Hx. eapply existsb_here; [exact Hl|]. apply net_contains_v6.
    replace (128 - (128 - k)) with k by lia. rewrite !(div_block _ q); [done|exact Hx|]. rewrite Hq.
    pose proof (N.pow_nonzero 2 k). lia. }
  unfold v6_value in *.
  destruct Hr as [(-> & -> & -> & -> & -> & -> & -> & Hr)|[(-> & -> & -> & -> & -> & ->)|[(-> & -> & ->)|
    [(-> & -> & -> & ->)|[(-> & ->)|[Hr|[Hr|Hr]]]]]]].
  - assert (Hs : s7 = 0 \/ s7 = 1) by lia. destruct Hs as [->| ->].
    + apply (Hin 0 0 0 0 0 0 0 0 0 0); [by cbn; tauto|lia..].
    + apply (Hin 1 0 0 0 0 0 0 0 0 1); [by cbn; tauto|lia..].
  - apply (Hin 0xffff 32 0 0 0 0 0 0xffff 0 0); [by cbn; tauto|lia..].
  - apply (Hin 0x64ff9b0001 80 0x64 0xff9b 1 0 0 0 0 0); [by cbn; tauto|lia..].
  - apply (Hin 0x100000000000000 64 0x100 0 0 0 0 0 0 0); [by cbn; tauto|lia..].
  - apply (Hin 0x20010db8 96 0x2001 0xdb8 0 0 0 0 0 0); [by cbn; tauto|lia..].
  - apply (Hin 126 121 0xfc00 0 0 0 0 0 0 0); [by cbn; tauto|lia..].
  - apply (Hin 1018 118 0xfe80 0 0 0 0 0 0 0); [by cbn; tauto|lia..].
  - apply (Hin 255 120 0xff00 0 0 0 0 0 0 0); [by cbn; tauto|lia..].
Qed.

Lemma normalize_wf ip : ip_wf ip -> ip_wf (normalize_ip ip).
Proof.
  destruct ip as [a b c d|s0 s1 s2 s3 s4 s5 s6 s7]; [done|]. intros Hwf. cbn -[ip_wf]. unfold to_ipv4_mapped.
  case_match; [|exact Hwf]. destruct Hwf as (_ & _ & _ & _ & _ & _ & A6 & A7).
  change 255 with (N.ones 8). cbn. rewrite !N.shiftr_div_pow2, !N.land_ones.
  pose proof (N.mod_lt s6 (2 ^ 8)). pose proof (N.mod_lt s7 (2 ^ 8)).
  repeat split; try lia; apply N.Div0.div_lt_upper_bound; lia.
Qed.

Lemma not_hard_denied ip : ip_wf ip -> hard_denied ip = false -> ~ never_allowed ip.
Proof.
  unfold hard_denied, v4_is_unspecified, v4_is_broadcast, v4_is_multicast, v4_is_link_local, v6_is_unspecified,
    v6_is_multicast, in_range.
  destruct ip as [a b c d|s0 s1 s2 s3 s4 s5 s6 s7]; cbn [never_allowed ip_wf]; intros Hwf.
  - rewrite !orb_false_iff, !andb_false_iff, !N.eqb_neq, !N.leb_gt, !bool_decide_eq_false.
    intros H0 [[= -> -> -> ->]|[[= -> -> -> ->]|[Hr|[[-> ->]|[Hr|Hr]]]]]; naive_solver lia.
  - rewrite !orb_false_iff, !andb_false_iff, !N.eqb_neq, !bool_decide_eq_false.
    intros (((Hz & Hm) & Hl) & Hd) [[= -> -> -> -> -> -> -> ->]|[Hr|[Hr|Hr]]]; [naive_solver|..|done].
    + apply Hm. apply (land_block 16 8 s0 255); lia.
    + apply Hl. apply (land_block 16 6 s0 1018); lia.
Qed.

Lemma elem_set_insert s l x : x ∈ set_insert s l <-> x = s \/ x ∈ l.
Proof.
  induction l as [|s' l IH]; cbn; [set_solver|]. case_match; [set_solver|].
  case_bool_decide; [subst; set_solver|]. rewrite elem_of_cons, IH. set_solver.
Qed.

Lemma vet_addresses_ok addresses port allow : forall validated accepted,
  vet_addresses addresses port allow validated = Ok accepted ->
  (forall s, s ∈ accepted <->
     s ∈ validated \/ exists a, a ∈ addresses /\ s = mkSocket (normalize_ip (sock_ip a)) port)
  /\ Forall (fun a => sock_port a = port /\ hard_denied (normalize_ip (sock_ip a)) = false
       /\ (allow = false -> denied_network (normalize_ip (sock_ip a)) = false)) addresses.
Proof.
  induction addresses as [|a rest IH]; intros validated accepted; cbn.
  - intros [= <-]. split; [set_solver|constructor].
  - destruct (N.eqb_spec (sock_port a) port) as [Hp|]; [|done]. cbn.
    destruct (hard_denied _) eqn:Eh; [done|]. cbn.
    destruct (negb allow && denied_network _) eqn:Ed; [done|].
    intros [Hin Hall]%IH. split.
    + intros s. rewrite Hin, elem_set_insert. set_solver.
    + constructor; [|done]. repeat split; [done..|]. intros ->. by apply andb_false_iff in Ed as [|].
Qed.

(** C22: No connection leaves for a private network.  When the answers of the
    resolver are accepted, there is at least one, every answer kept the port that
    was asked for, the accepted addresses are exactly the answers (IPv4 addresses
    mapped into IPv6 in their IPv4 form), none is a multicast, link-local,
    unspecified or metadata address, and unless the destination allows private
    addresses each is public. *)
Theorem accepted_addresses_public `{!IpNetLaws} addresses port allow accepted :
  Forall (fun a => ip_wf (sock_ip a)) addresses ->
  validate_resolved_addresses addresses port allow = Ok accepted ->
  accepted <> []
  /\ (forall s, s ∈ accepted <-> exists a, a ∈ addresses /\ s = mkSocket (normalize_ip (sock_ip a)) port)
  /\ Forall (fun a => sock_port a = port) addresses
  /\ Forall (fun s => ~ never_allowed (sock_ip s) /\ (allow = false -> public (sock_ip s))) accepted.
Proof.
  intros Hwf. unfold validate_resolved_addresses. destruct addresses as [|a0 rest]; [done|].
  intros [Hin Hall]%vet_addresses_ok.
  assert (Hin' : forall s, s ∈ accepted <->
    exists a, a ∈ a0 :: rest /\ s = mkSocket (normalize_ip (sock_ip a)) port) by set_solver.
  repeat split.
  - intros ->. specialize (Hin' (mkSocket (normalize_ip (sock_ip a0)) port)). set_solver.
  - by apply Hin'.
  - by apply Hin'.
  - eapply Forall_impl; [exact Hall|]. naive_solver.
  - rewrite Forall_forall in Hwf, Hall |- *. intros s (a & Ha & ->)%Hin'. cbn.
    destruct (Hall a Ha) as (_ & Hh & Hd). pose proof (normalize_wf _ (Hwf a Ha)) as Hw. split.
    + by apply not_hard_denied.
    + intros Hallow. specialize (Hd Hallow). destruct (normalize_ip (sock_ip a)); [by apply v4_denied|by apply v6_denied].
Qed.
End Facts.

(** Containment of networks, by the value of the address. *)
#[local] Instance sample_nets : IpNetLib := fun net ip =>
  match net_addr net, ip with
  | V4 a b c d, V4 a' b' c' d' =>
      v4_value a b c d / 2 ^ (32 - prefix_len net) =? v4_value a' b' c' d' / 2 ^ (32 - prefix_len net)
  | V6 s0 s1 s2 s3 s4 s5 s6 s7, V6 t0 t1 t2 t3 t4 t5 t6 t7 =>
      v6_value s0 s1 s2 s3 s4 s5 s6 s7 / 2 ^ (128 - prefix_len net)
      =? v6_value t0 t1 t2 t3 t4 t5 t6 t7 / 2 ^ (128 - prefix_len net)
  | _, _ => false
  end.

#[local] Instance sample_nets_laws : IpNetLaws.
Proof. split; intros; apply N.eqb_eq. Qed.

Definition sample_answers : list SocketAddr :=
  [mkSocket (V6 0 0 0 0 0 0xffff 0x5db8 0xd822) 443; mkSocket (V4 93 184 216 34) 443;
   mkSocket (V6 0x2606 0x2800 0x220 1 0x248 0x1893 0x25c8 0x1946) 443].

(** One IPv4 answer and its mapped form are one address. *)
Lemma accepted_addresses_public_witness :
  exists accepted, length accepted = 2%nat
    /\ Forall (fun s => ~ never_allowed (sock_ip s) /\ (false = false -> public (sock_ip s))) accepted.
Proof.
  eexists. split.
  2:{ eapply (accepted_addresses_public sample_answers 443 false).
      - repeat constructor; cbn; lia.
      - vm_compute. reflexivity. }
  reflexivity.
Defined.

Example parse_ip_samples :
  parse_ip "169.254.169.254" = Some (V4 169 254 169 254) /\ parse_ip "010.0.0.1" = None
  /\ parse_ip "256.0.0.1" = None /\ parse_ip "1.2.3.4x" = None
  /\ parse_ip "fd00:ec2::254" = Some (V6 0xfd00 0xec2 0 0 0 0 0 0x254)
  /\ parse_ip "::ffff:10.0.0.1" = Some (V6 0 0 0 0 0 0xffff 0x0a00 1)
  /\ parse_ip "::" = Some (V6 0 0 0 0 0 0 0 0) /\ parse_ip "[::1]" = None /\ parse_ip "1:2:3:4:5:6:7::8" = None.
Proof. repeat split; vm_compute; reflexivity. Qed.
