(* ===== verification/EgressConfig.v ===== *)
(** * The egress policy of a host ([tm-host/src/egress.rs])

    The records of the serialized policy, its validation at startup and the grants
    it installs.  URLs are parsed by the crate [url]. *)

From stdpp Require Import base tactics list strings.
From Stdlib Require Import NArith Lia Ascii.
From S2P Require Import Prelude BTree Text Strings Host.

(** ** The crate [url] *)

Class UrlLib := {
  url : Type;
  url_parse : string -> option url;
  url_join : url -> string -> option url;
  url_as_str : url -> string;
  url_scheme_of : url -> string;
  host_str : url -> option string;
  username : url -> string;
  password : url -> option string;
  fragment : url -> option string;
  url_path : url -> string;
  url_query : url -> option string;
  query_pairs : url -> list (string * string);
  cannot_be_a_base : url -> bool;
  port_or_known_default : url -> option N;
}.

(** ** The policy *)

Record EgressSessionLimits := mkSessionLimits {
  limit_requests : N;
  limit_request_bytes : N;
  limit_response_bytes : N;
  limit_time_ms : N;
}.

Definition default_session_requests : N := 16.
Definition default_session_request_bytes : N := N.shiftl 1 20.
Definition default_session_response_bytes : N := N.shiftl 8 20.
Definition default_session_time_ms : N := 120000.

Definition session_limits_default : EgressSessionLimits :=
  mkSessionLimits default_session_requests default_session_request_bytes default_session_response_bytes
    default_session_time_ms.

Record EgressDestinationConfig := mkDestination {
  dest_id : string;
  dest_version : N;
  dest_scheme : string;
  dest_host : string;
  dest_port : N;
  path_prefixes : list string;
  methods : list string;
  redirect_to : list string;
  max_redirects : N;
  allow_private_ips : bool;
  request_timeout_ms : N;
  connect_timeout_ms : N;
  dest_max_request_bytes : N;
  dest_max_response_bytes : N;
  max_requests_per_session : N;
  max_request_bytes_per_session : N;
  max_response_bytes_per_session : N;
  max_time_ms_per_session : N;
  allowed_request_headers : list string;
}.

#[global] Instance destination_eq_dec : EqDecision EgressDestinationConfig.
Proof. solve_decision. Defined.

(** A destination of which only the required fields are written. *)
Definition destination_defaults (id scheme host : string) (port : N) : EgressDestinationConfig :=
  mkDestination id 1 scheme host port ["/"%string] ["GET"%string] [] 0 false 15000 5000
    (N.shiftl 256 10) (N.shiftl 1 20) 8 (N.shiftl 512 10) (N.shiftl 4 20) 60000 [].

Inductive EgressSecretInjection :=
| AuthorizationBearer
| InjectHeader (name prefix : string).

#[global] Instance injection_eq_dec : EqDecision EgressSecretInjection.
Proof. solve_decision. Defined.

Record EgressSecretConfig := mkSecret {
  secret_id : string;
  secret_version : N;
  secret_env : string;
  secret_destinations : list string;
  injection : EgressSecretInjection;
}.

#[global] Instance secret_eq_dec : EqDecision EgressSecretConfig.
Proof. solve_decision. Defined.

Record EgressConfig := mkEgressConfig {
  enabled : bool;
  config_limits : EgressSessionLimits;
  config_destinations : list EgressDestinationConfig;
  config_secrets : list EgressSecretConfig;
}.

(** ** Tests the policy is made of *)

(** [validate_identifier]. *)
Definition bad_identifier (value : string) : bool :=
  is_empty value || (128 <? str_len value)%N
  || negb (all_bytes (fun byte => alphanumeric byte || one_of "-_." byte) value).

(** [validate_header_name]. *)
Definition bad_header_name (value : string) : bool :=
  is_empty value || (128 <? str_len value)%N
  || negb (all_bytes (fun byte => alphanumeric byte || one_of "!#$%&'*+-.^_`|~" byte) value).

Definition bad_env_name (value : string) : bool :=
  is_empty value || (128 <? str_len value)%N
  || negb (all_bytes (fun byte => uppercase byte || digit byte || Ascii.eqb byte "_") value).

Definition FORBIDDEN_CALLER_HEADERS : list string :=
  ["authorization"; "proxy-authorization"; "cookie"; "set-cookie"; "host"; "connection"; "content-length";
   "transfer-encoding"; "te"; "trailer"; "upgrade"]%string.

Definition caller_header_forbidden (name : string) : bool :=
  existsb (eq_ignore_ascii_case name) FORBIDDEN_CALLER_HEADERS.

Definition is_dot_segment (segment : string) : bool := String.eqb segment "." || String.eqb segment "..".

Definition has_ambiguous_path_encoding (path : string) : bool :=
  any_byte (Ascii.eqb "\") path
  || existsb is_dot_segment (split_at "/" path)
  || existsb (fun needle => str_contains needle (lower path)) ["%00"; "%25"; "%2e"; "%2f"; "%5c"]%string.

Definition bad_prefix (prefix : string) : bool :=
  negb (starts_with "/" prefix)
  || any_byte (fun a => one_of "?#" a || is_line_break a) prefix
  || has_ambiguous_path_encoding prefix.

Definition bad_limits (d : EgressDestinationConfig) : bool :=
  ((request_timeout_ms d =? 0) || (120000 <? request_timeout_ms d)
   || (connect_timeout_ms d =? 0) || (request_timeout_ms d <? connect_timeout_ms d)
   || (dest_max_request_bytes d =? 0) || (dest_max_response_bytes d =? 0)
   || (max_requests_per_session d =? 0) || (max_request_bytes_per_session d =? 0)
   || (max_response_bytes_per_session d =? 0) || (max_time_ms_per_session d =? 0))%N.

Definition bad_session_limits (limits : EgressSessionLimits) : bool :=
  ((limit_requests limits =? 0) || (limit_request_bytes limits =? 0)
   || (limit_response_bytes limits =? 0) || (limit_time_ms limits =? 0))%N.

Definition bad_header_prefix (prefix : string) : bool := (256 <? str_len prefix)%N || any_byte is_line_break prefix.

(** ** Validation at startup *)

Definition ConfigResult := outcome HostError.

Definition invalid {A} (message : string) : ConfigResult A := Err (InvalidArgs message).

Definition reject_if (bad : bool) (message : string) : ConfigResult unit :=
  if bad then invalid message else Ok tt.

Definition validate_identifier (kind value : string) : ConfigResult unit :=
  reject_if (bad_identifier value) (kind ++ " must be 1-128 safe ASCII characters").

Definition validate_header_name (value : string) : ConfigResult unit :=
  reject_if (bad_header_name value) "egress HTTP header name is invalid".

(** [for x in xs { body }] of fallible bodies. *)
Fixpoint try_each {E A} (body : A -> outcome E unit) (xs : list A) : outcome E unit :=
  match xs with
  | [] => Ok tt
  | x :: xs' => body x;; try_each body xs'
  end.

Section Validate.
Context `{UrlLib}.

Definition origin_text (scheme host : string) (port : N) : string :=
  (scheme ++ "://" ++ host ++ ":" ++ display_u64 port ++ "/")%string.

(** Whether the origin of a destination is not just a host. *)
Definition bad_origin (origin : url) (host : string) : bool :=
  match host_str origin with None => true | Some _ => false end
  || negb (is_empty (username origin))
  || match password origin with Some _ => true | None => false end
  || any_byte (one_of "/@?#") host.

Definition bad_host_method (method : string) : bool :=
  is_empty method || (16 <? str_len method)%N
  || negb (all_bytes (fun byte => uppercase byte || lowercase byte || Ascii.eqb byte "-") method).

(** One round of the loop over the destinations: the ids seen so far. *)
Definition check_destination (ids : list string) (d : EgressDestinationConfig) : ConfigResult (list string) :=
  validate_identifier "egress destination id" (dest_id d);;
  reject_if (bs_contains (dest_id d) ids) "egress destination ids must be unique";;
  reject_if (dest_version d =? 0)%N "egress destination versions must be positive";;
  reject_if (negb (String.eqb (dest_scheme d) "https")) "production egress destinations must use https";;
  reject_if (dest_port d =? 0)%N "egress destination ports must be positive";;
  match url_parse (origin_text (dest_scheme d) (dest_host d) (dest_port d)) with
  | None => invalid "egress destination origin is invalid"
  | Some origin =>
      reject_if (bad_origin origin (dest_host d)) "egress destination host is invalid";;
      reject_if (match path_prefixes d with [] => true | _ => false end || existsb bad_prefix (path_prefixes d))
        "egress destinations require unambiguous absolute path prefixes";;
      reject_if (match methods d with [] => true | _ => false end || existsb bad_host_method (methods d))
        "egress destination methods are invalid";;
      reject_if (5 <? max_redirects d)%N "egress redirect cap must not exceed 5";;
      reject_if (bad_limits d) "egress destination limits are invalid";;
      try_each (fun header =>
        validate_header_name header;;
        reject_if (caller_header_forbidden header)
          "egress caller headers cannot include credentials or hop-by-hop headers")
        (allowed_request_headers d);;
      Ok (bs_insert (dest_id d) ids)
  end.

Definition check_secret (destination_ids ids : list string) (s : EgressSecretConfig)
    : ConfigResult (list string) :=
  validate_identifier "egress secret id" (secret_id s);;
  reject_if (bs_contains (secret_id s) ids) "egress secret ids must be unique";;
  reject_if (secret_version s =? 0)%N "egress secret versions must be positive";;
  reject_if (bad_env_name (secret_env s)) "egress secret env names must be 1-128 uppercase ASCII characters";;
  reject_if (match secret_destinations s with [] => true | _ => false end
             || existsb (fun id => negb (bs_contains id destination_ids)) (secret_destinations s))
    "egress secrets must name configured destinations";;
  match injection s with
  | AuthorizationBearer => Ok tt
  | InjectHeader name prefix =>
      validate_header_name name;;
      reject_if (caller_header_forbidden name || bad_header_prefix prefix)
        "egress secret header injection is invalid"
  end;;
  Ok (bs_insert (secret_id s) ids).

(** A loop that threads an accumulator. *)
Fixpoint try_fold {E A S} (body : S -> A -> outcome E S) (acc : S) (xs : list A) : outcome E S :=
  match xs with
  | [] => Ok acc
  | x :: xs' => acc' ← body acc x; try_fold body acc' xs'
  end.

Definition validate (config : EgressConfig) : ConfigResult unit :=
  reject_if (bad_session_limits (config_limits config)) "egress session limits must be positive";;
  reject_if (enabled config && match config_destinations config with [] => true | _ => false end)
    "enabled egress requires at least one destination";;
  destination_ids ← try_fold check_destination [] (config_destinations config);
  try_each (fun d =>
    reject_if (existsb (fun id => negb (bs_contains id destination_ids)) (redirect_to d))
      "egress redirect targets must name configured destinations") (config_destinations config);;
  try_fold (check_secret destination_ids) [] (config_secrets config);;
  Ok tt.
End Validate.

(** The grants of a mode with network access, sorted and without duplicates. *)
Definition turn_capabilities (config : EgressConfig) : list string :=
  if negb (enabled config) then []
  else
    bs_from
      (["http.request"%string]
       ++ List.map (fun d => "egress.destination:" ++ dest_id d)%string (config_destinations config)
       ++ match config_secrets config with
          | [] => []
          | secrets => ["secrets.use"%string] ++ List.map (fun s => "secrets.use:" ++ secret_id s)%string secrets
          end).
