(* ===== verification/EgressPolicy.v ===== *)
(** * The validated policy and what it authorizes ([tm-egress/src/policy.rs])

    The runtime normalizes and validates the policy it is given, whatever was
    checked at startup, and answers which destination a request goes to. *)

From stdpp Require Import base tactics list strings.
From Stdlib Require Import NArith Lia Ascii.
From S2P Require Import Prelude BTree Text Strings Host EgressState EgressConfig.

Definition MAX_URL_BYTES : N := 8 * 1024.
Definition MAX_HEADERS : N := 32.
Definition MAX_HEADER_BYTES : N := 16 * 1024.
Definition MAX_REDIRECTS : N := 5.
Definition MAX_SECRET_BYTES : N := 16 * 1024.

Record ValidatedConfig := mkValidated {
  valid_enabled : bool;
  valid_limits : EgressSessionLimits;
  valid_destinations : list (string * EgressDestinationConfig);
  valid_secrets : list (string * EgressSecretConfig);
}.

Definition fail_if (bad : bool) (e : EgressError) : EgressResult unit := if bad then Err e else Ok tt.

Definition about_destination (d : EgressDestinationConfig) (problem : string) : EgressError :=
  InvalidConfig ("destination " ++ dest_id d ++ problem).
Definition about_secret (s : EgressSecretConfig) (problem : string) : EgressError :=
  InvalidConfig ("secret " ++ secret_id s ++ problem).

Definition policy_identifier (kind value : string) : EgressResult unit :=
  fail_if (bad_identifier value) (InvalidConfig (kind ++ " must be 1-128 safe ASCII characters")).

Definition validate_env_name (value : string) : EgressResult unit :=
  fail_if (bad_env_name value) (InvalidConfig "secret env name must be 1-128 uppercase ASCII characters").

Definition policy_header_name (value : string) : EgressResult unit :=
  fail_if (bad_header_name value) (InvalidConfig "invalid HTTP header name").

Definition valid_method (method : string) : bool :=
  negb (is_empty method) && (str_len method <=? 16)%N
  && all_bytes (fun byte => uppercase byte || Ascii.eqb byte "-") method.

Definition validate_session_limits (limits : EgressSessionLimits) : EgressResult unit :=
  fail_if (bad_session_limits limits) (InvalidConfig "session egress limits must be positive").

Definition validate_destination_limits (d : EgressDestinationConfig) : EgressResult unit :=
  fail_if (bad_limits d) (about_destination d " has invalid limits").

Definition path_prefix_matches (prefix path : string) : bool :=
  if String.eqb prefix "/" || String.eqb prefix path then true
  else
    match strip_prefix prefix path with
    | None => false
    | Some remaining => ends_with_byte "/" prefix || starts_with "/" remaining
    end.

(** The fields that validation rewrites. *)
Definition with_origin (scheme host : string) (d : EgressDestinationConfig) : EgressDestinationConfig :=
  mkDestination (dest_id d) (dest_version d) scheme host (dest_port d) (path_prefixes d) (methods d)
    (redirect_to d) (max_redirects d) (allow_private_ips d) (request_timeout_ms d) (connect_timeout_ms d)
    (dest_max_request_bytes d) (dest_max_response_bytes d) (max_requests_per_session d)
    (max_request_bytes_per_session d) (max_response_bytes_per_session d) (max_time_ms_per_session d)
    (allowed_request_headers d).
Definition with_methods (m : list string) (d : EgressDestinationConfig) : EgressDestinationConfig :=
  mkDestination (dest_id d) (dest_version d) (dest_scheme d) (dest_host d) (dest_port d) (path_prefixes d) m
    (redirect_to d) (max_redirects d) (allow_private_ips d) (request_timeout_ms d) (connect_timeout_ms d)
    (dest_max_request_bytes d) (dest_max_response_bytes d) (max_requests_per_session d)
    (max_request_bytes_per_session d) (max_response_bytes_per_session d) (max_time_ms_per_session d)
    (allowed_request_headers d).
Definition with_headers (h : list string) (d : EgressDestinationConfig) : EgressDestinationConfig :=
  mkDestination (dest_id d) (dest_version d) (dest_scheme d) (dest_host d) (dest_port d) (path_prefixes d)
    (methods d) (redirect_to d) (max_redirects d) (allow_private_ips d) (request_timeout_ms d)
    (connect_timeout_ms d) (dest_max_request_bytes d) (dest_max_response_bytes d) (max_requests_per_session d)
    (max_request_bytes_per_session d) (max_response_bytes_per_session d) (max_time_ms_per_session d) h.
Definition with_injection (i : EgressSecretInjection) (s : EgressSecretConfig) : EgressSecretConfig :=
  mkSecret (secret_id s) (secret_version s) (secret_env s) (secret_destinations s) i.

Section Policy.
Context `{UrlLib}.

(** The body of the loop over the destinations, before the destination is inserted. *)
Definition validate_destination (allow_http : bool) (d : EgressDestinationConfig)
    : EgressResult EgressDestinationConfig :=
  policy_identifier "destination id" (dest_id d);;
  fail_if (dest_version d =? 0)%N (about_destination d " version must be positive");;
  let scheme := lower (dest_scheme d) in
  let host := lower (dest_host d) in
  fail_if (negb (String.eqb scheme "https") && negb (allow_http && String.eqb scheme "http"))
    (about_destination d " must use HTTPS");;
  match url_parse (origin_text scheme host (dest_port d)) with
  | None => Err (about_destination d " has an invalid origin")
  | Some origin =>
      fail_if (bad_origin origin host) (about_destination d " has an invalid host");;
      match host_str origin with
      | None => Panicked
      | Some parsed_host =>
          let d := with_origin scheme (lower parsed_host) d in
          fail_if (dest_port d =? 0)%N (about_destination d " port must be positive");;
          fail_if (match path_prefixes d with [] => true | _ => false end)
            (about_destination d " needs at least one path prefix");;
          try_each (fun prefix => fail_if (bad_prefix prefix) (about_destination d " has an invalid path prefix"))
            (path_prefixes d);;
          fail_if (match methods d with [] => true | _ => false end)
            (about_destination d " needs at least one method");;
          let d := with_methods (bs_from (List.map upper (methods d))) d in
          fail_if (existsb (fun method => negb (valid_method method)) (methods d))
            (about_destination d " has an invalid method");;
          fail_if (MAX_REDIRECTS <? max_redirects d)%N (about_destination d " exceeds the redirect cap");;
          validate_destination_limits d;;
          let d := with_headers (bs_from (List.map lower (allowed_request_headers d))) d in
          try_each (fun header =>
            policy_header_name header;;
            fail_if (caller_header_forbidden header)
              (about_destination d (" cannot allow caller header " ++ header))) (allowed_request_headers d);;
          Ok d
      end
  end.

Definition insert_destination (allow_http : bool) (destinations : list (string * EgressDestinationConfig))
    (d : EgressDestinationConfig) : EgressResult (list (string * EgressDestinationConfig)) :=
  d ← validate_destination allow_http d;
  if bm_contains (dest_id d) destinations then Err (InvalidConfig "duplicate destination id")
  else Ok (bm_insert (dest_id d) d destinations).

Definition check_redirects (destinations : list (string * EgressDestinationConfig)) : EgressResult unit :=
  try_each (fun d =>
    try_each (fun redirect =>
      fail_if (negb (bm_contains redirect destinations))
        (about_destination d (" redirects to unknown destination " ++ redirect))) (redirect_to d))
    destinations.*2.

Definition validate_injection (s : EgressSecretConfig) : EgressResult EgressSecretInjection :=
  match injection s with
  | AuthorizationBearer => Ok AuthorizationBearer
  | InjectHeader name prefix =>
      let name := lower name in
      policy_header_name name;;
      fail_if (caller_header_forbidden name) (about_secret s " has a forbidden injection header");;
      fail_if (bad_header_prefix prefix) (about_secret s " has an invalid header prefix");;
      Ok (InjectHeader name prefix)
  end.

Definition validate_secret (destinations : list (string * EgressDestinationConfig)) (s : EgressSecretConfig)
    : EgressResult EgressSecretConfig :=
  policy_identifier "secret id" (secret_id s);;
  fail_if (secret_version s =? 0)%N (about_secret s " version must be positive");;
  validate_env_name (secret_env s);;
  fail_if (match secret_destinations s with [] => true | _ => false end
           || existsb (fun id => negb (bm_contains id destinations)) (secret_destinations s))
    (about_secret s " must reference only configured destinations");;
  i ← validate_injection s;
  Ok (with_injection i s).

Definition insert_secret (destinations : list (string * EgressDestinationConfig))
    (secrets : list (string * EgressSecretConfig)) (s : EgressSecretConfig)
    : EgressResult (list (string * EgressSecretConfig)) :=
  s ← validate_secret destinations s;
  if bm_contains (secret_id s) secrets then Err (InvalidConfig "duplicate secret id")
  else Ok (bm_insert (secret_id s) s secrets).

Definition validate_config (config : EgressConfig) (allow_http : bool) : EgressResult ValidatedConfig :=
  validate_session_limits (config_limits config);;
  destinations ← try_fold (insert_destination allow_http) [] (config_destinations config);
  check_redirects destinations;;
  secrets ← try_fold (insert_secret destinations) [] (config_secrets config);
  fail_if (enabled config && match destinations with [] => true | _ => false end)
    (InvalidConfig "enabled egress requires a destination");;
  Ok (mkValidated (enabled config) (config_limits config) destinations secrets).

(** ** Authorization *)

Record AuthorizedDestination := mkAuthorized { auth_policy : EgressDestinationConfig; auth_url : url }.

(** A URL that may be requested at all. *)
Definition bad_url_shape (u : url) : bool :=
  cannot_be_a_base u
  || match host_str u with None => true | Some _ => false end
  || negb (is_empty (username u))
  || match password u with Some _ => true | None => false end
  || match fragment u with Some _ => true | None => false end
  || has_ambiguous_path_encoding (url_path u).

Definition destination_matches (scheme host : string) (port : N) (method path : string)
    (d : EgressDestinationConfig) : bool :=
  String.eqb (dest_scheme d) scheme && String.eqb (dest_host d) host && (dest_port d =? port)%N
  && bs_contains method (methods d) && existsb (fun prefix => path_prefix_matches prefix path) (path_prefixes d).

Definition authorize (config : ValidatedConfig) (text method : string) : EgressResult AuthorizedDestination :=
  if negb (valid_enabled config) then Err Disabled
  else if (MAX_URL_BYTES <? str_len text)%N then Err (InvalidRequest "URL exceeds 8 KiB")
  else
    match url_parse text with
    | None => Err (InvalidRequest "URL must be absolute")
    | Some u =>
        if bad_url_shape u then Err (Denied "URL shape is not allowed")
        else
          match host_str u with
          | None => Panicked
          | Some host =>
              match port_or_known_default u with
              | None => Err (Denied "URL has no effective port")
              | Some port =>
                  match List.find (destination_matches (url_scheme_of u) (lower host) port (upper method) (url_path u))
                          (valid_destinations config).*2 with
                  | None => Err (Denied "destination is not allowlisted")
                  | Some policy => Ok (mkAuthorized policy u)
                  end
              end
          end
    end.
End Policy.

(** ** Headers of the caller *)

Definition checked_size (size : option N) (more : N) : option N := s ← size; checked_add_u64 s more.

Definition check_header (policy : EgressDestinationConfig) (bytes : N) (header : string * string)
    : EgressResult N :=
  let '(name, value) := header in
  let normalized := lower name in
  fail_if (bad_header_name normalized) (InvalidRequest "invalid request header");;
  fail_if (caller_header_forbidden normalized)
    (Denied "caller-supplied credential or hop-by-hop header is forbidden");;
  fail_if (negb (bs_contains normalized (allowed_request_headers policy)))
    (Denied "caller-supplied header is not allowlisted");;
  fail_if (any_byte is_line_break value) (InvalidRequest "invalid request header value");;
  match checked_size (checked_size (checked_add_u64 bytes (str_len name)) (str_len value)) 4 with
  | Some bytes => Ok bytes
  | None => Err (InvalidRequest "request headers are too large")
  end.

Definition validate_request_headers (policy : EgressDestinationConfig) (headers : list (string * string))
    : EgressResult unit :=
  if (MAX_HEADERS <? len headers)%N then Err (InvalidRequest "too many request headers")
  else
    bytes ← try_fold (check_header policy) 0%N headers;
    fail_if (MAX_HEADER_BYTES <? bytes)%N (InvalidRequest "request headers exceed 16 KiB").
