(* ===== verification/PolicyFacts.v ===== *)
(** * What a validated policy guarantees

    The invariant of the policies the runtime holds, that every policy accepted at
    startup is accepted by the runtime, and what an authorized request satisfies. *)

From stdpp Require Import base tactics list strings.
From Stdlib Require Import NArith Lia Ascii.
From S2P Require Import Prelude BTree Text Strings Host EgressState EgressConfig EgressPolicy.

(** ** Results *)

Section Results.
Context {E : Type}.

Lemma obind_ok {A B} (m : outcome E A) (k : A -> outcome E B) b :
  (m ≫= k) = Ok b -> exists a, m = Ok a /\ k a = Ok b.
Proof. destruct m as [a|e| |]; cbn; try done. by exists a. Qed.

Lemma obind_intro {A B} (m : outcome E A) (k : A -> outcome E B) a b :
  m = Ok a -> k a = Ok b -> (m ≫= k) = Ok b.
Proof. by intros -> ?. Qed.

Lemma try_each_ok {A} (body : A -> outcome E unit) xs :
  try_each body xs = Ok tt <-> Forall (fun x => body x = Ok tt) xs.
Proof.
  induction xs as [|x xs IH]; cbn; [by split; [constructor|]|]. rewrite Forall_cons, <- IH.
  destruct (body x) as [[]|e| |]; cbn; naive_solver.
Qed.

(** The rule of a loop over a list: the invariant speaks of the items visited. *)
Lemma try_fold_ind {A S} (body : S -> A -> outcome E S) (I : S -> list A -> Prop) xs :
  forall acc acc' visited,
  (forall acc visited x acc', I acc visited -> body acc x = Ok acc' -> I acc' (visited ++ [x])) ->
  I acc visited -> try_fold body acc xs = Ok acc' -> I acc' (visited ++ xs).
Proof.
  induction xs as [|x xs IH]; intros acc acc' visited Hb HI Hrun; cbn in Hrun.
  - injection Hrun as <-. by rewrite app_nil_r.
  - apply obind_ok in Hrun as (acc1 & Hx & Hrun). rewrite (cons_middle x), app_assoc.
    eapply IH; [exact Hb| |exact Hrun]. by eapply Hb.
Qed.

(** The loop goes through when every round does, as long as an invariant is kept. *)
Lemma try_fold_runs {A S} (body : S -> A -> outcome E S) (I : S -> list A -> Prop) xs :
  forall acc, (forall acc x rest, I acc (x :: rest) -> exists acc', body acc x = Ok acc' /\ I acc' rest) ->
  I acc xs -> exists acc', try_fold body acc xs = Ok acc' /\ I acc' [].
Proof.
  induction xs as [|x xs IH]; intros acc Hb HI; cbn; [by exists acc|].
  destruct (Hb _ _ _ HI) as (acc1 & -> & HI1). cbn. by apply IH.
Qed.
End Results.

Lemma fail_if_ok bad e : fail_if bad e = Ok tt <-> bad = false.
Proof. by destruct bad. Qed.

Lemma reject_if_ok bad message : reject_if bad message = Ok tt <-> bad = false.
Proof. by destruct bad. Qed.

(** Takes a chain of checks apart. *)
Ltac checks H :=
  repeat match type of H with
  | (fail_if _ _ ≫= _) = Ok _ =>
      let a := fresh in let C := fresh "Hc" in
      apply obind_ok in H as ([] & C & H); apply fail_if_ok in C
  | (reject_if _ _ ≫= _) = Ok _ =>
      let C := fresh "Hc" in apply obind_ok in H as ([] & C & H); apply reject_if_ok in C
  | (try_each _ _ ≫= _) = Ok _ =>
      let C := fresh "Hc" in apply obind_ok in H as ([] & C & H); apply try_each_ok in C
  end.

(** Goes through a chain of checks that hold. *)
Ltac pass_checks :=
  repeat (eapply obind_intro; [first [apply fail_if_ok | apply try_each_ok]|]; cbn beta).

(** ** Case folding *)

Lemma str_map_list f s : String.list_ascii_of_string (str_map f s) = List.map f (String.list_ascii_of_string s).
Proof. induction s as [|a s IH]; cbn; [done|]. by rewrite IH. Qed.

Lemma str_len_map f s : str_len (str_map f s) = str_len s.
Proof. unfold str_len. f_equal. induction s as [|a s IH]; cbn; [done|]. by rewrite IH. Qed.

Lemma is_empty_map f s : is_empty (str_map f s) = is_empty s.
Proof. by destruct s. Qed.

Lemma any_byte_map p f s : (forall a, p (f a) = p a) -> any_byte p (str_map f s) = any_byte p s.
Proof.
  intros Hp. unfold any_byte. rewrite str_map_list. induction (String.list_ascii_of_string s) as [|a l IH]; cbn; [done|].
  by rewrite Hp, IH.
Qed.

Lemma all_bytes_map p q f s : (forall a, p (f a) = q a) -> all_bytes p (str_map f s) = all_bytes q s.
Proof.
  intros Hp. unfold all_bytes. rewrite str_map_list. induction (String.list_ascii_of_string s) as [|a l IH]; cbn; [done|].
  by rewrite Hp, IH.
Qed.

Lemma byte_lower_idem a : byte_lower (byte_lower a) = byte_lower a.
Proof. by destruct a as [[] [] [] [] [] [] [] []]. Qed.

Lemma lower_idem s : lower (lower s) = lower s.
Proof. unfold lower. induction s as [|a s IH]; cbn; [done|]. by rewrite byte_lower_idem, IH. Qed.

Lemma bad_header_name_lower s : bad_header_name (lower s) = bad_header_name s.
Proof.
  unfold bad_header_name, lower. rewrite is_empty_map, str_len_map. f_equal. f_equal. apply all_bytes_map.
  intros a. by destruct a as [[] [] [] [] [] [] [] []].
Qed.

Lemma forbidden_lower s : caller_header_forbidden (lower s) = caller_header_forbidden s.
Proof. unfold caller_header_forbidden, eq_ignore_ascii_case. by rewrite lower_idem. Qed.

Lemma bad_method_upper s : valid_method (upper s) = negb (bad_host_method s).
Proof.
  unfold valid_method, bad_host_method, upper. rewrite is_empty_map, str_len_map.
  rewrite (all_bytes_map _ (fun a => uppercase a || lowercase a || Ascii.eqb a "-")).
  2:{ intros a. by destruct a as [[] [] [] [] [] [] [] []]. }
  rewrite !negb_orb, negb_involutive. f_equal. f_equal. by rewrite N.leb_antisym.
Qed.

(** ** The invariant of a policy *)

Definition destination_ok (allow_http : bool) (d : EgressDestinationConfig) : Prop :=
  bad_identifier (dest_id d) = false
  /\ dest_version d <> 0%N
  /\ (dest_scheme d = "https" \/ allow_http = true /\ dest_scheme d = "http")%string
  /\ dest_host d = lower (dest_host d)
  /\ dest_port d <> 0%N
  /\ path_prefixes d <> [] /\ Forall (fun prefix => bad_prefix prefix = false) (path_prefixes d)
  /\ methods d <> [] /\ Forall (fun method => valid_method method = true) (methods d)
  /\ (max_redirects d <= MAX_REDIRECTS)%N
  /\ bad_limits d = false
  /\ Forall (fun h => h = lower h /\ bad_header_name h = false /\ caller_header_forbidden h = false)
       (allowed_request_headers d).

Definition secret_ok (ids : list string) (s : EgressSecretConfig) : Prop :=
  bad_identifier (secret_id s) = false
  /\ secret_version s <> 0%N
  /\ bad_env_name (secret_env s) = false
  /\ secret_destinations s <> [] /\ Forall (fun id => In id ids) (secret_destinations s)
  /\ match injection s with
     | AuthorizationBearer => True
     | InjectHeader name prefix =>
         name = lower name /\ bad_header_name name = false /\ caller_header_forbidden name = false
         /\ bad_header_prefix prefix = false
     end.

Definition policy_wf (allow_http : bool) (v : ValidatedConfig) : Prop :=
  let ids := bm_keys (valid_destinations v) in
  bm_wf (valid_destinations v) /\ bm_wf (valid_secrets v)
  /\ Forall (fun e => dest_id e.2 = e.1 /\ destination_ok allow_http e.2
               /\ Forall (fun r => In r ids) (redirect_to e.2)) (valid_destinations v)
  /\ Forall (fun e => secret_id e.2 = e.1 /\ secret_ok ids e.2) (valid_secrets v)
  /\ bad_session_limits (valid_limits v) = false
  /\ (valid_enabled v = true -> valid_destinations v <> []).

Lemma bs_from_map_In (f : string -> string) l x : In x (bs_from (List.map f l)) <-> exists y, x = f y /\ In y l.
Proof. unfold bs_from. rewrite bs_extend_In, in_map_iff. naive_solver. Qed.

Lemma bs_from_nil l : bs_from l = [] -> l = [].
Proof.
  destruct l as [|x l]; [done|]. intros Hn. assert (Hx : In x (bs_from (x :: l))) by (apply bs_extend_In; cbn; auto).
  by rewrite Hn in Hx.
Qed.

Lemma existsb_false_In {A} (p : A -> bool) l : existsb p l = false <-> Forall (fun x => p x = false) l.
Proof.
  induction l as [|x l IH]; cbn; [by split; [constructor|]|]. by rewrite orb_false_iff, Forall_cons, IH.
Qed.

Section Validation.
Context `{UrlLib}.

(** How the policy in force keeps a configured destination and a configured secret: as
    they are, but for the spelling of scheme, host, methods and header names. *)
Definition canonical_destination (d : EgressDestinationConfig) : option EgressDestinationConfig :=
  origin ← url_parse (origin_text (lower (dest_scheme d)) (lower (dest_host d)) (dest_port d));
  host ← host_str origin;
  Some (with_headers (bs_from (List.map lower (allowed_request_headers d)))
          (with_methods (bs_from (List.map upper (methods d))) (with_origin (lower (dest_scheme d)) (lower host) d))).

Definition canonical_secret (s : EgressSecretConfig) : EgressSecretConfig :=
  with_injection (match injection s with
                  | AuthorizationBearer => AuthorizationBearer
                  | InjectHeader name prefix => InjectHeader (lower name) prefix
                  end) s.

Lemma validate_destination_ok allow_http d d' :
  validate_destination allow_http d = Ok d' ->
  dest_id d' = dest_id d /\ redirect_to d' = redirect_to d /\ destination_ok allow_http d'
  /\ canonical_destination d = Some d'.
Proof.
  intros Hv. unfold validate_destination, policy_identifier, validate_destination_limits in Hv. checks Hv.
  unfold canonical_destination. destruct (url_parse _) as [origin|]; [|done]. checks Hv. cbn [mbind option_bind].
  destruct (host_str origin) as [host|]; [|done]. checks Hv. injection Hv as <-.
  split; [done|]. split; [done|]. split; [|done]. unfold destination_ok.
  cbn -[caller_header_forbidden bs_from bad_limits bad_prefix fail_if policy_header_name] in *.
  repeat match goal with Hc : (_ =? _)%N = false |- _ => apply N.eqb_neq in Hc end.
  split; [done|]. split; [done|]. split.
  { destruct (String.eqb_spec (lower (dest_scheme d)) "https"); [by left|].
    destruct allow_http; [|done]. destruct (String.eqb_spec (lower (dest_scheme d)) "http"); [by right|done]. }
  split; [by rewrite lower_idem|]. split; [done|]. split; [by intros Hn; rewrite Hn in *|].
  split. { eapply Forall_impl; [eassumption|]. intros x. cbn. by rewrite fail_if_ok. }
  split. { intros Hn. apply bs_from_nil in Hn. apply map_eq_nil in Hn. by rewrite Hn in *. }
  split. { match goal with Hc : existsb _ (bs_from _) = false |- _ => apply existsb_false_In in Hc;
             eapply Forall_impl; [exact Hc|] end. intros x. by rewrite negb_false_iff. }
  split. { match goal with Hc : (_ <? _)%N = false |- _ => by apply N.ltb_ge in Hc end. }
  split; [done|]. apply List.Forall_forall. intros h Hh.
  match goal with Hc : Forall _ (bs_from (List.map lower _)) |- _ => rewrite List.Forall_forall in Hc;
    specialize (Hc _ Hh) end.
  unfold policy_header_name in *. apply bs_from_map_In in Hh as (y & -> & _). split; [by rewrite lower_idem|].
  match goal with Hc : (fail_if _ _ ≫= _) = Ok tt |- _ => checks Hc; by apply fail_if_ok in Hc end.
Qed.

Lemma validate_secret_ok destinations s s' :
  validate_secret destinations s = Ok s' ->
  secret_id s' = secret_id s /\ secret_ok (bm_keys destinations) s' /\ canonical_secret s = s'.
Proof.
  intros Hv. unfold validate_secret, policy_identifier, validate_env_name in Hv. checks Hv.
  apply obind_ok in Hv as (i & Hi & [= <-]). split; [done|].
  split; [|unfold canonical_secret, validate_injection, policy_header_name in *; destruct (injection s) as [|name prefix];
            [|checks Hi]; by injection Hi as <-].
  unfold secret_ok. cbn.
  match goal with Hc : _ || _ = false |- _ => apply orb_false_iff in Hc as [Hne Hin] end.
  repeat match goal with Hc : (_ =? _)%N = false |- _ => apply N.eqb_neq in Hc end.
  split; [done|]. split; [done|]. split; [done|]. split; [by intros Hn; rewrite Hn in *|]. split.
  - apply existsb_false_In in Hin. eapply Forall_impl; [exact Hin|]. intros id. rewrite negb_false_iff.
    by apply bm_contains_true.
  - unfold validate_injection, policy_header_name in Hi. destruct (injection s) as [|name prefix]; [by injection Hi as <-|].
    checks Hi. injection Hi as <-. by rewrite lower_idem.
Qed.

(** A map under construction: the keys are the names of the values. *)
Lemma insert_named {V} (name : V -> string) (P : V -> Prop) v (m : list (string * V)) :
  bm_wf m -> Forall (fun e => name e.2 = e.1 /\ P e.2) m -> P v ->
  bm_wf (bm_insert (name v) v m) /\ Forall (fun e => name e.2 = e.1 /\ P e.2) (bm_insert (name v) v m).
Proof. intros Hwf Hm Hv. split; [by apply bm_wf_insert|]. by apply Forall_bm_insert. Qed.

(** A map made by inserting each item of a list under a name that is not yet taken
    holds exactly these items. *)
Lemma insert_all_exact {X V} (check : X -> EgressResult V) (name : V -> string) (label : X -> string)
    (keep : X -> option V) (duplicate : EgressError) xs m :
  (forall x v, check x = Ok v -> name v = label x /\ keep x = Some v) ->
  try_fold (fun m x => v ← check x; if bm_contains (name v) m then Err duplicate else Ok (bm_insert (name v) v m)) [] xs
    = Ok m ->
  forall id v, bm_get id m = Some v <-> exists x, In x xs /\ label x = id /\ keep x = Some v.
Proof.
  intros Hcheck Hrun. refine (try_fold_ind _ (fun m visited => forall id v,
    bm_get id m = Some v <-> exists x, In x visited /\ label x = id /\ keep x = Some v) _ _ _ [] _ _ Hrun).
  2:{ intros id v. split; [done|]. by intros (x & [] & _). }
  intros acc visited x acc' Hacc Hx. apply obind_ok in Hx as (v & Hv & Hx). destruct (Hcheck x v Hv) as [Hn Hk].
  destruct (bm_contains (name v) acc) eqn:Ec; [done|]. injection Hx as <-. intros id w. rewrite bm_get_insert.
  setoid_rewrite in_app_iff. case_decide as Hid; [subst id|rewrite Hacc]; split.
  - intros [= <-]. exists x. cbn. auto.
  - intros (y & [Hy|[->|[]]] & Hl & Hw); [|congruence]. exfalso. unfold bm_contains in Ec.
    assert (Hg : bm_get (name v) acc = Some w) by (apply Hacc; eauto). by rewrite Hg in Ec.
  - naive_solver.
  - intros (y & [Hy|[->|[]]] & Hl & Hw); [by eauto|]. congruence.
Qed.

Lemma insert_destinations_ok allow_http ds m :
  try_fold (insert_destination allow_http) [] ds = Ok m ->
  bm_wf m /\ Forall (fun e => dest_id e.2 = e.1 /\ destination_ok allow_http e.2) m
  /\ (forall id, In id (bm_keys m) <-> In id (List.map dest_id ds)).
Proof.
  intros Hrun.
  apply (try_fold_ind _ (fun m visited => bm_wf m
    /\ Forall (fun e => dest_id e.2 = e.1 /\ destination_ok allow_http e.2) m
    /\ (forall id, In id (bm_keys m) <-> In id (List.map dest_id visited))) _ _ _ []) in Hrun; [exact Hrun|..].
  2:{ split; [constructor|]. split; [constructor|]. done. }
  intros acc visited d acc' (Hwf & Hall & Hids) Hd. unfold insert_destination in Hd.
  apply obind_ok in Hd as (d' & (Hid & _ & Hok & _)%validate_destination_ok & Hd). case_match; [done|].
  injection Hd as <-. destruct (insert_named dest_id (destination_ok allow_http) d' acc) as [Hw Ha]; [done..|].
  split; [done|]. split; [done|]. intros id. rewrite bm_keys_insert_In, Hids, map_app, in_app_iff, Hid. cbn. naive_solver.
Qed.

Lemma insert_secrets_ok destinations ss m :
  try_fold (insert_secret destinations) [] ss = Ok m ->
  bm_wf m /\ Forall (fun e => secret_id e.2 = e.1 /\ secret_ok (bm_keys destinations) e.2) m.
Proof.
  intros Hrun.
  apply (try_fold_ind _ (fun m _ => bm_wf m
    /\ Forall (fun e => secret_id e.2 = e.1 /\ secret_ok (bm_keys destinations) e.2) m) _ _ _ []) in Hrun; [exact Hrun|..].
  2:{ split; constructor. }
  intros acc visited s acc' (Hwf & Hall) Hs. unfold insert_secret in Hs.
  apply obind_ok in Hs as (s' & (Hid & Hok & _)%validate_secret_ok & Hs). case_match; [done|].
  injection Hs as <-. by apply insert_named.
Qed.

(** The policy in force is the configuration: its switch and limits, and exactly the
    configured destinations and secrets. *)
Definition enforces (config : EgressConfig) (v : ValidatedConfig) : Prop :=
  valid_enabled v = enabled config /\ valid_limits v = config_limits config
  /\ (forall id d', bm_get id (valid_destinations v) = Some d' <->
        exists d, In d (config_destinations config) /\ dest_id d = id /\ canonical_destination d = Some d')
  /\ (forall id s', bm_get id (valid_secrets v) = Some s' <->
        exists s, In s (config_secrets config) /\ secret_id s = id /\ canonical_secret s = s')
  /\ (forall d, In d (config_destinations config) -> bm_contains (dest_id d) (valid_destinations v) = true).

(** A validated policy satisfies the invariant and is the configured one. *)
Lemma validate_config_ok config allow_http v :
  validate_config config allow_http = Ok v -> policy_wf allow_http v /\ enforces config v.
Proof.
  intros Hv. unfold validate_config, validate_session_limits in Hv. checks Hv.
  apply obind_ok in Hv as (ds & Hds & Hv). pose proof Hds as (Hwf & Hall & Hids)%insert_destinations_ok.
  apply obind_ok in Hv as ([] & Hr & Hv). apply obind_ok in Hv as (ss & Hsecrets & Hv).
  pose proof Hsecrets as (Hws & Hss)%insert_secrets_ok.
  checks Hv. injection Hv as <-. cbn. split.
  2:{ split; [done|]. split; [done|]. cbn. split; [|split].
      - apply (insert_all_exact (validate_destination allow_http) dest_id dest_id canonical_destination
                 (InvalidConfig "duplicate destination id")); [|exact Hds].
        by intros d d' (? & _ & _ & ?)%validate_destination_ok.
      - setoid_rewrite (insert_all_exact (validate_secret ds) secret_id secret_id (fun s => Some (canonical_secret s))
                 (InvalidConfig "duplicate secret id") _ _ _ Hsecrets); [naive_solver|].
        intros s s1 (Hid & _ & Hs)%validate_secret_ok. by rewrite Hs.
      - intros d Hd. apply bm_contains_true, Hids. by apply in_map. }
  split; [done|]. split; [done|]. cbn.
  split; [|split; [done|split; [done|]]].
  - unfold check_redirects in Hr. apply try_each_ok in Hr. rewrite List.Forall_forall in Hr, Hall |- *.
    intros e He. destruct (Hall e He) as [Hid Hok]. split; [done|]. split; [done|].
    specialize (Hr e.2 (in_map snd _ _ He)). apply try_each_ok in Hr. eapply Forall_impl; [exact Hr|].
    intros id. rewrite fail_if_ok, negb_false_iff. by apply bm_contains_true.
  - intros He Hn. rewrite He, Hn in *. done.
Qed.
End Validation.

(** ** Policies accepted at startup

    The crate [url] reads the host of an [https] URL without regard to the case of
    its ASCII letters. *)
Class UrlLaws `{UrlLib} := {
  origin_case host port origin :
    any_byte (one_of "/@?#") host = false ->
    url_parse (origin_text "https" host port) = Some origin ->
    exists origin', url_parse (origin_text "https" (lower host) port) = Some origin'
      /\ host_str origin' = host_str origin /\ username origin' = username origin
      /\ password origin' = password origin;
}.

Section Startup.
Context `{UrlLaws}.

Lemma bad_limits_rewritten scheme host m h d :
  bad_limits (with_headers h (with_methods m (with_origin scheme host d))) = bad_limits d
  /\ bad_limits (with_methods m (with_origin scheme host d)) = bad_limits d.
Proof. by destruct d. Qed.

Lemma separators_lower host : any_byte (one_of "/@?#") (lower host) = any_byte (one_of "/@?#") host.
Proof. apply any_byte_map. intros a. by destruct a as [[] [] [] [] [] [] [] []]. Qed.

Lemma bad_origin_lower host origin origin' :
  host_str origin' = host_str origin -> username origin' = username origin -> password origin' = password origin ->
  bad_origin origin' (lower host) = bad_origin origin host.
Proof. unfold bad_origin. intros -> -> ->. by rewrite separators_lower. Qed.

(** What one destination must satisfy at startup. *)
Lemma check_destination_ok ids d ids' :
  check_destination ids d = Ok ids' ->
  ids' = bs_insert (dest_id d) ids /\ bs_contains (dest_id d) ids = false
  /\ exists d', validate_destination false d = Ok d' /\ dest_id d' = dest_id d /\ redirect_to d' = redirect_to d.
Proof.
  intros Hv. unfold check_destination, validate_identifier in Hv. checks Hv.
  destruct (url_parse _) as [origin|] eqn:Ho; [|done]. checks Hv. injection Hv as <-.
  split; [done|]. split; [done|].
  match goal with Hc : negb (String.eqb _ "https") = false |- _ =>
    apply negb_false_iff, String.eqb_eq in Hc; rename Hc into Hs end.
  rewrite Hs in Ho. assert (Hsep : any_byte (one_of "/@?#") (dest_host d) = false).
  { match goal with Hc : bad_origin _ _ = false |- _ => by apply orb_false_iff in Hc as [_ Hc] end. }
  destruct (origin_case _ _ _ Hsep Ho) as (origin' & Ho' & Hh & Hu & Hp).
  match goal with Hc : bad_origin _ _ = false |- _ => rewrite <- (bad_origin_lower _ _ _ Hh Hu Hp) in Hc;
    rename Hc into Hbad end.
  destruct (host_str origin') as [parsed|] eqn:Eh.
  2:{ unfold bad_origin in Hbad. by rewrite Eh in Hbad. }
  repeat match goal with Hc : _ || _ = false |- _ => apply orb_false_iff in Hc as [? ?] end.
  eexists. split; [|split; cycle 1].
  - unfold validate_destination, policy_identifier, validate_destination_limits.
    rewrite Hs. change (lower "https") with "https"%string. rewrite Ho'. pass_checks; [done..|].
    rewrite Eh. cbn zeta. pass_checks; [..|reflexivity]; try done.
    + eapply Forall_impl; [by apply existsb_false_In|]. cbn. intros x Hx. by apply fail_if_ok.
    + apply existsb_false_In, List.Forall_forall. intros x (y & -> & Hy)%bs_from_map_In.
      rewrite bad_method_upper, negb_involutive.
      match goal with Hm : existsb bad_host_method _ = false |- _ => apply existsb_false_In in Hm;
        rewrite List.Forall_forall in Hm; by apply Hm end.
    + apply List.Forall_forall. intros x (y & -> & Hy)%bs_from_map_In. unfold policy_header_name.
      rewrite bad_header_name_lower, forbidden_lower. rewrite List.Forall_forall in Hc9. specialize (Hc9 _ Hy).
      cbn beta in Hc9. unfold validate_header_name in Hc9. checks Hc9. apply reject_if_ok in Hc9.
      pass_checks; [done|]. by apply fail_if_ok.
  - done.
  - done.
Qed.

Lemma check_secret_ok (destinations : list (string * EgressDestinationConfig)) destination_ids ids s ids' :
  (forall id, In id destination_ids -> In id (bm_keys destinations)) ->
  check_secret destination_ids ids s = Ok ids' ->
  ids' = bs_insert (secret_id s) ids /\ bs_contains (secret_id s) ids = false
  /\ exists s', validate_secret destinations s = Ok s' /\ secret_id s' = secret_id s.
Proof.
  intros Hids Hv. unfold check_secret, validate_identifier in Hv. checks Hv.
  apply obind_ok in Hv as ([] & Hi & [= <-]). split; [done|]. split; [done|].
  match goal with Hc : _ || _ = false |- _ => apply orb_false_iff in Hc as [Hne Hin] end.
  assert (Hinj : exists i, validate_injection s = Ok i).
  { unfold validate_injection, policy_header_name. destruct (injection s) as [|name prefix]; [by eexists|].
    unfold validate_header_name in Hi. checks Hi. apply reject_if_ok, orb_false_iff in Hi as [Hf Hp].
    eexists. pass_checks; [by rewrite bad_header_name_lower|by rewrite forbidden_lower|done|reflexivity]. }
  destruct Hinj as [i Hi']. exists (with_injection i s). split; [|done].
  unfold validate_secret, policy_identifier, validate_env_name. pass_checks; [done..| |].
  - rewrite Hne. apply existsb_false_In. apply existsb_false_In in Hin. eapply Forall_impl; [exact Hin|].
    intros id. rewrite !negb_false_iff, bs_contains_true, bm_contains_true. apply Hids.
  - by rewrite Hi'.
Qed.

(** The loops over the destinations at startup and in the runtime go together. *)
Lemma destinations_accepted ds : forall ids ids' m,
  (forall id, In id (bm_keys m) <-> In id ids) ->
  try_fold check_destination ids ds = Ok ids' ->
  exists m', try_fold (insert_destination false) m ds = Ok m'
    /\ (forall id, In id (bm_keys m') <-> In id ids')
    /\ (forall r, (exists e, In e m' /\ In r (redirect_to e.2)) ->
          (exists e, In e m /\ In r (redirect_to e.2)) \/ exists d, In d ds /\ In r (redirect_to d)).
Proof.
  induction ds as [|d ds IH]; intros ids ids' m Hm Hrun; cbn [try_fold] in *.
  - injection Hrun as <-. exists m. by repeat split; try apply Hm; auto.
  - apply obind_ok in Hrun as (ids1 & Hd & Hrun).
    apply check_destination_ok in Hd as (-> & Hnew & d' & Hv & Hid & Hr).
    unfold insert_destination at 2. rewrite Hv. cbn. rewrite Hid.
    destruct (bm_contains (dest_id d) m) eqn:Ec.
    { apply bm_contains_true, Hm, bs_contains_true in Ec. congruence. }
    cbn. destruct (IH (bs_insert (dest_id d) ids) ids' (bm_insert (dest_id d) d' m)) as (m' & Hm' & Hk & Hred); [|exact Hrun|].
    { intros id. by rewrite bm_keys_insert_In, bs_insert_In, Hm. }
    exists m'. split; [done|]. split; [done|]. intros r Hin. apply Hred in Hin as [(e & He & Hin)|(x & Hx & Hin)]; [|eauto].
    assert (Hcase : Forall (fun e => e = (dest_id d, d') \/ In e m) (bm_insert (dest_id d) d' m)).
    { apply Forall_bm_insert; [by left|]. apply List.Forall_forall. auto. }
    rewrite List.Forall_forall in Hcase. destruct (Hcase e He) as [->|He']; [|eauto]. right. exists d. by rewrite <- Hr; auto.
Qed.

Lemma secrets_accepted destinations destination_ids ss : forall ids ids' m,
  (forall id, In id destination_ids -> In id (bm_keys destinations)) ->
  (forall id, In id (bm_keys m) <-> In id ids) ->
  try_fold (check_secret destination_ids) ids ss = Ok ids' ->
  exists m', try_fold (insert_secret destinations) m ss = Ok m'.
Proof.
  induction ss as [|s ss IH]; intros ids ids' m Hd Hm Hrun; cbn [try_fold] in *; [by exists m|].
  apply obind_ok in Hrun as (ids1 & Hs & Hrun). eapply check_secret_ok in Hs as (-> & Hnew & s' & Hv & Hid); [|exact Hd].
  unfold insert_secret at 2. rewrite Hv. cbn. rewrite Hid. destruct (bm_contains (secret_id s) m) eqn:Ec.
  { apply bm_contains_true, Hm, bs_contains_true in Ec. congruence. }
  cbn. eapply IH; [exact Hd| |exact Hrun]. intros id. by rewrite bm_keys_insert_In, bs_insert_In, Hm.
Qed.

(** C24: The two validations of a policy agree.  A policy that passes the check at
    startup is accepted by the runtime that enforces it, which then holds exactly this
    policy: the switch and the limits of sessions, every configured destination and
    every configured secret under its own id and nothing else, each as configured up
    to the spelling of scheme, host, methods and header names.  It has the
    invariant: secure schemes, positive limits, unambiguous absolute path prefixes,
    at most five redirects that only lead to known destinations, no header that
    carries credentials; its secrets only name known destinations. *)
Theorem startup_policy_accepted config :
  validate config = Ok tt ->
  exists v, validate_config config false = Ok v /\ policy_wf false v /\ enforces config v.
Proof.
  intros Hv. unfold validate in Hv. checks Hv. apply obind_ok in Hv as (ids & Hd & Hv). checks Hv.
  apply obind_ok in Hv as (ids' & Hs & _).
  destruct (destinations_accepted _ _ _ [] (fun id => iff_refl _) Hd) as (m & Hm & Hk & Hred).
  destruct (secrets_accepted m _ _ _ _ [] (fun id => proj2 (Hk id)) (fun id => iff_refl _) Hs) as [ms Hms].
  assert (Hok : exists v, validate_config config false = Ok v).
  { eexists. unfold validate_config, validate_session_limits. pass_checks; [done|]. rewrite Hm. cbn [mbind outcome_bind].
    eapply obind_intro; [|rewrite Hms; cbn [mbind outcome_bind]; pass_checks; [|reflexivity]].
    - apply try_each_ok, List.Forall_forall. intros d Hdm. apply try_each_ok, List.Forall_forall. intros r Hr.
      apply fail_if_ok, negb_false_iff, bm_contains_true, Hk. apply in_map_iff in Hdm as (e & <- & He).
      destruct (Hred r) as [(e' & [] & _)|(d & Hin & Hrd)]; [eauto|].
      rewrite List.Forall_forall in Hc1. specialize (Hc1 _ Hin). apply reject_if_ok, existsb_false_In in Hc1.
      rewrite List.Forall_forall in Hc1. specialize (Hc1 _ Hrd). by apply negb_false_iff, bs_contains_true in Hc1.
    - destruct (enabled config); [|done]. destruct m as [|e m]; [|done]. destruct (config_destinations config) as [|d ds]; [done|].
      exfalso. apply insert_destinations_ok in Hm as (_ & _ & Hids). specialize (Hids (dest_id d)). cbn in Hids. naive_solver. }
  destruct Hok as [v Hok]. exists v. split; [done|]. by apply validate_config_ok in Hok.
Qed.
End Startup.

(** ** Path prefixes *)

Definition segments (path : string) : list string := split_at "/" path.

Definition drop_last_slash (prefix : string) : string :=
  if ends_with_byte "/" prefix then String.substring 0 (String.length prefix - 1) prefix else prefix.

(** A path lies within a prefix when the segments of the prefix begin it; a final
    slash of the prefix does not count. *)
Definition within (prefix path : string) : Prop :=
  prefix = "/"%string \/ exists rest, segments path = segments (drop_last_slash prefix) ++ rest.

Lemma split_at_nonempty sep s : split_at sep s <> [].
Proof. destruct s as [|a s]; cbn; [done|]. repeat case_match; done. Qed.

Lemma split_at_app sep p r : split_at sep (p ++ String sep r)%string = split_at sep p ++ split_at sep r.
Proof.
  induction p as [|a p IH].
  - change (split_at sep (String sep r) = "" :: split_at sep r)%string. cbn [split_at]. by rewrite Ascii.eqb_refl.
  - change (String a p ++ String sep r)%string with (String a (p ++ String sep r)). cbn [split_at].
    rewrite IH. case_match; [done|]. destruct (split_at sep p) eqn:E; [|done].
    by apply split_at_nonempty in E.
Qed.

Lemma ends_with_byte_app a s : ends_with_byte a (s ++ String a "")%string = true.
Proof.
  induction s as [|b s IH]; [apply Ascii.eqb_refl|]. destruct s; [apply Ascii.eqb_refl|exact IH].
Qed.

Lemma ends_with_byte_split a s : ends_with_byte a s = true -> exists p, s = (p ++ String a "")%string.
Proof.
  induction s as [|b s IH]; cbn; [done|]. destruct s as [|c s].
  - intros ->%Ascii.eqb_eq. by exists ""%string.
  - intros [p Hp]%IH. exists (String b p). by rewrite Hp.
Qed.

Lemma substring_whole s t : String.substring 0 (String.length s) (s ++ t) = s.
Proof.
  induction s as [|a s IH]; [by destruct t|].
  change (String a (String.substring 0 (String.length s) (s ++ t)) = String a s). by rewrite IH.
Qed.

Lemma str_app_assoc a b c : (a ++ (b ++ c) = (a ++ b) ++ c)%string.
Proof. induction a as [|x a IH]; [done|]. change (String x (a ++ (b ++ c)) = String x ((a ++ b) ++ c))%string. by rewrite IH. Qed.

Lemma str_length_app a b : String.length (a ++ b) = (String.length a + String.length b)%nat.
Proof. induction a as [|x a IH]; [done|]. change (S (String.length (a ++ b)) = S (String.length a + String.length b)). by rewrite IH. Qed.

Lemma drop_last_slash_app p : drop_last_slash (p ++ "/") = p.
Proof.
  unfold drop_last_slash. rewrite ends_with_byte_app, str_length_app. cbn.
  replace (String.length p + 1 - 1)%nat with (String.length p) by lia. apply substring_whole.
Qed.

Lemma strip_prefix_Some p s r : strip_prefix p s = Some r <-> s = (p ++ r)%string.
Proof.
  revert s. induction p as [|a p IH]; intros s; cbn [strip_prefix].
  - change ("" ++ r)%string with r. naive_solver.
  - change (String a p ++ r)%string with (String a (p ++ r)). destruct s as [|b s]; [done|].
    destruct (Ascii.eqb_spec a b) as [->|Hne]; [rewrite IH; split; congruence|]. split; [done|]. intros [= -> _]. done.
Qed.

Lemma starts_with_char a s : String.prefix (String a "") s = true <-> exists r, s = String a r.
Proof.
  destruct s as [|b s]; cbn; [naive_solver|]. destruct (ascii_dec a b) as [->|]; [|naive_solver].
  destruct s; naive_solver.
Qed.

(** No prefix matches in the middle of a segment. *)
Lemma path_prefix_within prefix path : path_prefix_matches prefix path = true -> within prefix path.
Proof.
  unfold path_prefix_matches, within. destruct (String.eqb_spec prefix "/") as [->|Hne]; [by left|].
  cbn. intros Hm. right. destruct (ends_with_byte "/" prefix) eqn:Ee.
  - apply ends_with_byte_split in Ee as [p ->]. rewrite drop_last_slash_app. unfold segments.
    assert (exists r, path = (p ++ String "/" r)%string) as [r ->].
    { destruct (String.eqb_spec (p ++ "/") path) as [<-|]; [by exists ""%string|].
      destruct (strip_prefix (p ++ "/") path) as [r|] eqn:Es; [|done]. apply strip_prefix_Some in Es as ->.
      exists r. by rewrite <- str_app_assoc. }
    rewrite split_at_app. eauto.
  - unfold drop_last_slash. rewrite Ee. destruct (String.eqb_spec prefix path) as [<-|].
    + exists []. by rewrite app_nil_r.
    + destruct (strip_prefix prefix path) as [r|] eqn:Es; [|done]. apply strip_prefix_Some in Es as ->.
      apply starts_with_char in Hm as [r' ->]. unfold segments. rewrite split_at_app. eauto.
Qed.

(** ** Authorized requests *)

Section Authorize.
Context `{UrlLib}.

(** What a destination must grant for a URL and a method. *)
Definition admits (u : url) (method : string) (d : EgressDestinationConfig) : Prop :=
  dest_scheme d = url_scheme_of u
  /\ lower <$> host_str u = Some (dest_host d)
  /\ port_or_known_default u = Some (dest_port d)
  /\ In (upper method) (methods d)
  /\ exists prefix, In prefix (path_prefixes d) /\ path_prefix_matches prefix (url_path u) = true.

Lemma destination_matches_admits u host port method d :
  host_str u = Some host -> port_or_known_default u = Some port ->
  destination_matches (url_scheme_of u) (lower host) port (upper method) (url_path u) d = true <-> admits u method d.
Proof.
  intros Hh Hp. unfold destination_matches, admits. rewrite Hh, Hp. cbn.
  rewrite !andb_true_iff, !String.eqb_eq, N.eqb_eq, bs_contains_true, existsb_exists. split.
  - intros ((((-> & ->) & ->) & Hm) & Hp'). done.
  - intros (-> & [= ->] & [= ->] & Hm & Hp'). done.
Qed.

(** The answer is the first destination that admits the request. *)
Lemma authorize_ok config text method a :
  authorize config text method = Ok a ->
  valid_enabled config = true /\ (str_len text <= MAX_URL_BYTES)%N /\ url_parse text = Some (auth_url a)
  /\ bad_url_shape (auth_url a) = false
  /\ In (auth_policy a) (valid_destinations config).*2 /\ admits (auth_url a) method (auth_policy a).
Proof.
  unfold authorize. destruct (valid_enabled config); [|done]. cbn [negb].
  destruct (N.ltb_spec MAX_URL_BYTES (str_len text)); [done|].
  destruct (url_parse text) as [u|]; [|done]. destruct (bad_url_shape u) eqn:Es; [done|].
  destruct (host_str u) as [host|] eqn:Eh; [|done]. destruct (port_or_known_default u) as [port|] eqn:Ep; [|done].
  destruct (List.find _ _) as [d|] eqn:Ef; [|done]. intros [= <-]. cbn. apply find_some in Ef as [Hin Hm].
  do 5 (split; [done|]). by apply (destination_matches_admits u host port).
Qed.

Lemma authorize_complete config text method u d :
  valid_enabled config = true -> (str_len text <= MAX_URL_BYTES)%N -> url_parse text = Some u ->
  bad_url_shape u = false -> In d (valid_destinations config).*2 -> admits u method d ->
  exists d', authorize config text method = Ok (mkAuthorized d' u) /\ admits u method d'.
Proof.
  intros He Hl Hu Hs Hd Ha. unfold authorize. rewrite He, Hu, Hs. cbn [negb].
  destruct (N.ltb_spec MAX_URL_BYTES (str_len text)); [lia|]. pose proof Ha as (_ & Hh & Hp & _).
  destruct (host_str u) as [host|] eqn:Eh; [|done]. rewrite Hp.
  destruct (List.find _ _) as [d'|] eqn:Ef.
  - exists d'. split; [done|]. apply find_some in Ef as [_ Hm]. by apply (destination_matches_admits u host (dest_port d)).
  - exfalso. apply (find_none _ _ Ef) in Hd. apply not_true_iff_false in Hd. apply Hd.
    by apply (destination_matches_admits u host (dest_port d)).
Qed.

Lemma shape_segments u : bad_url_shape u = false -> Forall (fun s => s <> "." /\ s <> "..")%string (segments (url_path u)).
Proof.
  unfold bad_url_shape. rewrite !orb_false_iff. intros (_ & Ha). unfold has_ambiguous_path_encoding in Ha.
  rewrite !orb_false_iff in Ha. destruct Ha as [[_ Hs] _]. apply existsb_false_In in Hs. eapply Forall_impl; [exact Hs|].
  intros s. unfold is_dot_segment. by rewrite orb_false_iff, !String.eqb_neq.
Qed.

(** C21: Only listed destinations are reached.  A request is authorized exactly when
    egress is enabled, the URL is short enough, has no credentials, fragment or
    ambiguous path, and some destination of the policy admits it; the answer is a
    destination of the policy with the scheme, host, port and method of the request,
    and the path, which has no dot segments, continues one of its prefixes at a
    segment boundary. *)
Theorem authorize_admits config text method :
  (forall a, authorize config text method = Ok a ->
     In (auth_policy a) (valid_destinations config).*2 /\ url_parse text = Some (auth_url a)
     /\ admits (auth_url a) method (auth_policy a)
     /\ (exists prefix, In prefix (path_prefixes (auth_policy a)) /\ within prefix (url_path (auth_url a)))
     /\ Forall (fun s => s <> "." /\ s <> "..")%string (segments (url_path (auth_url a))))
  /\ ((exists a, authorize config text method = Ok a) <->
      valid_enabled config = true /\ (str_len text <= MAX_URL_BYTES)%N
      /\ exists u d, url_parse text = Some u /\ bad_url_shape u = false
           /\ In d (valid_destinations config).*2 /\ admits u method d).
Proof.
  split.
  - intros a (_ & _ & Hu & Hs & Hin & Ha)%authorize_ok. do 3 (split; [done|]). split; [|by apply shape_segments].
    destruct Ha as (_ & _ & _ & _ & prefix & Hp & Hm). exists prefix. split; [done|]. by apply path_prefix_within.
  - split.
    + intros [a (He & Hl & Hu & Hs & Hin & Ha)%authorize_ok]. split; [done|]. split; [done|]. by exists (auth_url a), (auth_policy a).
    + intros (He & Hl & u & d & Hu & Hs & Hin & Ha).
      destruct (authorize_complete config text method u d) as (d' & -> & _); [done..|]. by eexists.
Qed.
End Authorize.

(** ** Headers of the caller *)

Lemma checked_add_Some a b r : checked_add_u64 a b = Some r -> r = (a + b)%N.
Proof. unfold checked_add_u64. case_match; congruence. Qed.

Lemma checked_size_Some o more r : checked_size o more = Some r -> exists s, o = Some s /\ r = (s + more)%N.
Proof. unfold checked_size. destruct o as [s|]; cbn; [|done]. intros ->%checked_add_Some. by exists s. Qed.

Lemma check_header_ok policy bytes header bytes' :
  check_header policy bytes header = Ok bytes' ->
  caller_header_forbidden header.1 = false /\ In (lower header.1) (allowed_request_headers policy)
  /\ bad_header_name header.1 = false /\ any_byte is_line_break header.2 = false
  /\ bytes' = (bytes + str_len header.1 + str_len header.2 + 4)%N.
Proof.
  destruct header as [name value]. unfold check_header. intros Hc. checks Hc. cbn [fst snd].
  rewrite <- bad_header_name_lower, <- forbidden_lower. rewrite negb_false_iff in *.
  destruct (checked_size _ 4) as [total|] eqn:Es; [|done]. injection Hc as <-.
  apply checked_size_Some in Es as (s1 & (s2 & ->%checked_add_Some & ->)%checked_size_Some & ->).
  split; [done|]. split; [by apply bs_contains_true|]. split; [done|]. split; [done|]. lia.
Qed.

Lemma request_headers_ok policy headers :
  validate_request_headers policy headers = Ok tt ->
  (len headers <= MAX_HEADERS)%N
  /\ Forall (fun h => caller_header_forbidden h.1 = false /\ In (lower h.1) (allowed_request_headers policy)
       /\ bad_header_name h.1 = false /\ any_byte is_line_break h.2 = false) headers
  /\ (foldr (fun h n => str_len h.1 + str_len h.2 + 4 + n) 0 headers <= MAX_HEADER_BYTES)%N.
Proof.
  unfold validate_request_headers. destruct (N.ltb_spec MAX_HEADERS (len headers)) as [|Hl]; [done|]. intros Hv.
  apply obind_ok in Hv as (bytes & Hf & Hb). apply fail_if_ok, N.ltb_ge in Hb. split; [done|].
  assert (Hgen : forall bytes0, try_fold (check_header policy) bytes0 headers = Ok bytes ->
    Forall (fun h => caller_header_forbidden h.1 = false /\ In (lower h.1) (allowed_request_headers policy)
       /\ bad_header_name h.1 = false /\ any_byte is_line_break h.2 = false) headers
    /\ bytes = (bytes0 + foldr (fun h n => str_len h.1 + str_len h.2 + 4 + n) 0 headers)%N).
  { clear. induction headers as [|h headers IH]; intros bytes0; cbn [try_fold].
    - intros [= ->]. split; [constructor|]. cbn. lia.
    - intros (bytes1 & Hh & Hrest)%obind_ok. apply check_header_ok in Hh as (? & ? & ? & ? & ->).
      apply IH in Hrest as [Hall ->]. split; [by constructor|]. cbn. lia. }
  destruct (Hgen 0%N Hf) as [Hall ->]. split; [done|]. lia.
Qed.
