(* ===== verification/EgressBroker.v ===== *)
(** * The shared state of the egress runtime ([tm-egress/src/runtime.rs])

    The policy in force with its revocations, and the opaque handles for secrets:
    what the operator and the running requests do to them while they hold the locks,
    and the invariant that this keeps. *)

From stdpp Require Import base tactics list gmap strings relations.
From Stdlib Require Import NArith ZArith Lia.
From S2P Require Import Prelude BTree Text Strings EgressState EgressConfig EgressPolicy PolicyFacts.

(** ** Data *)

Record SecretHandle := mkHandle { token : string }.

Record HttpRequest := mkHttpRequest {
  req_method : string;
  req_url : string;
  req_headers : list (string * string);
  req_body : option string;
  req_auth : option SecretHandle;
  req_timeout_ms : option N;
}.

Record HttpResponse := mkHttpResponse {
  resp_status : N;
  resp_body : string;
  resp_content_type : option string;
  resp_headers : list (string * string);
  resp_destination_id : string;
  resp_response_bytes : N;
  resp_redirects : N;
  resp_secret_redactions : N;
}.

(** A target is revoked in one version. *)
Definition TargetVersion : Type := string * N.

Record RuntimeState := mkRuntimeState {
  rt_config : ValidatedConfig;
  revoked_destinations : gset TargetVersion;
  revoked_secrets : gset TargetVersion;
  generation : N;
}.

Record HandleRecord := mkHandleRecord {
  handle_session : string;
  handle_actor : option string;
  handle_secret : string;
  handle_version : N;
  expires_at : N;
}.

#[global] Instance handle_record_eq_dec : EqDecision HandleRecord.
Proof. solve_decision. Defined.

Abbreviation Handles := (gmap string HandleRecord).

Record ResolvedSecret := mkResolved { resolved_config : EgressSecretConfig; resolved_value : string }.

Record SecretSnapshot := mkSnapshot {
  handle_digest : string;
  snapshot_secret_id : string;
  snapshot_secret_version : N;
  snapshot_expires_at : N;
}.

#[global] Instance snapshot_eq_dec : EqDecision SecretSnapshot.
Proof. solve_decision. Defined.

Definition MAX_SECRET_HANDLES_PER_SESSION : N := 64.
Definition MAX_SECRET_HANDLES_TOTAL : N := 4096.
(** In milliseconds. *)
Definition SECRET_HANDLE_TTL : N := 30 * 60 * 1000.

(** ** The shared state: policy and handles

    The policy is read and written under its lock, the handles under theirs; each
    function below is what happens while the lock is held. *)

Record Broker := mkBroker { policy_state : RuntimeState; handles : Handles }.

Section Shared.
Context `{UrlLib}.

Definition with_resolver_and_options (config : EgressConfig) (allow_http : bool) : EgressResult Broker :=
  config ← validate_config config allow_http;
  Ok (mkBroker (mkRuntimeState config ∅ ∅ 1) ∅).

Definition keeps_version {V} (version : V -> N) (m : list (string * V)) (target : TargetVersion) : bool :=
  match bm_get target.1 m with Some item => (version item =? target.2)%N | None => false end.

(** [replace], at the instant [now]. *)
Definition replace_policy (now : N) (allow_http : bool) (config : EgressConfig) (b : Broker)
    : EgressResult unit * Broker :=
  match validate_config config allow_http with
  | Ok config =>
      let state := policy_state b in
      let state := mkRuntimeState config
        (filter (fun t => keeps_version dest_version (valid_destinations config) t = true) (revoked_destinations state))
        (filter (fun t => keeps_version secret_version (valid_secrets config) t = true) (revoked_secrets state))
        (saturating_add (generation state) 1) in
      let kept := filter (fun e : string * HandleRecord =>
        (now < expires_at e.2)%N
        /\ keeps_version secret_version (valid_secrets config) (handle_secret e.2, handle_version e.2) = true)
        (handles b) in
      (Ok tt, mkBroker state kept)
  | Err e => (Err e, b)
  | Panicked => (Panicked, b)
  | OutOfFuel => (OutOfFuel, b)
  end.
End Shared.

Definition revoke_destination (id : string) (b : Broker) : EgressResult unit * Broker :=
  let state := policy_state b in
  match bm_get id (valid_destinations (rt_config state)) with
  | None => (Err (InvalidRequest "unknown destination"), b)
  | Some destination =>
      (Ok tt, mkBroker (mkRuntimeState (rt_config state) ({[(id, dest_version destination)]} ∪ revoked_destinations state)
                          (revoked_secrets state) (generation state)) (handles b))
  end.

Definition revoke_secret (id : string) (b : Broker) : EgressResult unit * Broker :=
  let state := policy_state b in
  match bm_get id (valid_secrets (rt_config state)) with
  | None => (Err (InvalidRequest "unknown secret"), b)
  | Some secret =>
      (Ok tt, mkBroker (mkRuntimeState (rt_config state) (revoked_destinations state)
                          ({[(id, secret_version secret)]} ∪ revoked_secrets state) (generation state)) (handles b))
  end.

Definition live (now : N) (hs : Handles) : Handles :=
  filter (fun e : string * HandleRecord => (now < expires_at e.2)%N) hs.

(** The handle with a token, as [resolve_secret_snapshot] looks it up. *)
Definition find_handle (now : N) (token : string) (hs : Handles) : option HandleRecord * Handles :=
  (live now hs !! token, live now hs).

Definition same_use (session : string) (actor : option string) (secret : string) (version : N) (h : HandleRecord)
    : bool :=
  String.eqb (handle_session h) session && bool_decide (handle_actor h = actor)
  && String.eqb (handle_secret h) secret && (handle_version h =? version)%N.

(** How many handles a session has. *)
Definition session_handles (session : string) (hs : Handles) : N :=
  N.of_nat (size (filter (fun e : string * HandleRecord => handle_session e.2 = session) hs)).

(** The handle of a use: the one there is, or a new one with the token [fresh] that
    the random source gave ([None] when it failed). *)
Definition issue_handle (now : N) (fresh : option string) (session : string) (actor : option string)
    (secret : string) (version : N) (hs : Handles) : EgressResult (string * bool) * Handles :=
  let hs := live now hs in
  match List.find (fun e => same_use session actor secret version e.2) (map_to_list hs) with
  | Some (token, _) => (Ok (token, true), hs)
  | None =>
      if (MAX_SECRET_HANDLES_PER_SESSION <=? session_handles session hs)%N
      then (Err (Budget "per-session secret handle cap"), hs)
      else if (MAX_SECRET_HANDLES_TOTAL <=? N.of_nat (size hs))%N
      then (Err (Budget "process secret handle cap"), hs)
      else
        match fresh with
        | None => (Err Transport, hs)
        | Some token =>
            (Ok (token, false),
             <[token := mkHandleRecord session actor secret version (now + SECRET_HANDLE_TTL)]> hs)
        end
  end.

(** The handles of [clear_session]; the store clears the session next. *)
Definition clear_handles (session : string) (hs : Handles) : Handles :=
  filter (fun e : string * HandleRecord => handle_session e.2 <> session) hs.

(** ** The invariant of the shared state

    Whatever operators and requests do, the policy in force is a validated one, the
    handles stay within their caps and a use has at most one handle; a revoked
    version stays revoked as long as it stays in the policy. *)

Section Broker.
Context `{UrlLib} (allow_http : bool).

(** What happens to the shared state while a lock is held. *)
Inductive broker_step (b : Broker) : Broker -> Prop :=
| step_replace now config : broker_step b (replace_policy now allow_http config b).2
| step_revoke_destination id : broker_step b (revoke_destination id b).2
| step_revoke_secret id : broker_step b (revoke_secret id b).2
| step_issue now fresh session actor secret version :
    broker_step b (mkBroker (policy_state b) (issue_handle now fresh session actor secret version (handles b)).2)
| step_find now token : broker_step b (mkBroker (policy_state b) (find_handle now token (handles b)).2)
| step_clear session : broker_step b (mkBroker (policy_state b) (clear_handles session (handles b))).

Definition handles_ok (hs : Handles) : Prop :=
  (forall session, (session_handles session hs <= MAX_SECRET_HANDLES_PER_SESSION)%N)
  /\ (N.of_nat (size hs) <= MAX_SECRET_HANDLES_TOTAL)%N
  /\ (forall t t' r r', hs !! t = Some r -> hs !! t' = Some r' ->
        same_use (handle_session r') (handle_actor r') (handle_secret r') (handle_version r') r = true -> t = t').

Definition broker_ok (b : Broker) : Prop := policy_wf allow_http (rt_config (policy_state b)) /\ handles_ok (handles b).

Lemma session_handles_mono session hs hs' : hs' ⊆ hs -> (session_handles session hs' <= session_handles session hs)%N.
Proof.
  intros Hsub. unfold session_handles.
  pose proof (map_subseteq_size _ _ (map_filter_subseteq_mono (fun e : string * HandleRecord => handle_session e.2 = session) _ _ Hsub)). lia.
Qed.

(** Handles only removed keep the invariant. *)
Lemma handles_subset hs hs' : hs' ⊆ hs -> handles_ok hs -> handles_ok hs'.
Proof.
  intros Hsub (Hs & Ht & Hu). split; [|split].
  - intros session. etrans; [|apply (Hs session)]. by apply session_handles_mono.
  - etrans; [|exact Ht]. apply map_subseteq_size in Hsub. lia.
  - intros t t' r r' Hr Hr'. apply Hu; by eapply lookup_weaken.
Qed.

Lemma live_subset now hs : live now hs ⊆ hs.
Proof. apply map_filter_subseteq. Qed.

Lemma size_insert_le {A} (m : gmap string A) k x : (size (<[k := x]> m) <= S (size m))%nat.
Proof. destruct (m !! k) eqn:E; [rewrite map_size_insert_Some; [lia|by eexists]|rewrite map_size_insert_None; [lia|done]]. Qed.

Lemma same_use_iff session actor secret version r :
  same_use session actor secret version r = true <->
  handle_session r = session /\ handle_actor r = actor /\ handle_secret r = secret /\ handle_version r = version.
Proof. unfold same_use. rewrite !andb_true_iff, !String.eqb_eq, N.eqb_eq, bool_decide_eq_true. tauto. Qed.

Lemma find_none_use session actor secret version (hs : Handles) :
  List.find (fun e => same_use session actor secret version e.2) (map_to_list hs) = None ->
  forall t r, hs !! t = Some r -> same_use session actor secret version r = false.
Proof.
  intros Hn t r Hr. apply elem_of_map_to_list, list_elem_of_In in Hr. exact (find_none _ _ Hn _ Hr).
Qed.

Lemma issue_ok now fresh session actor secret version hs :
  handles_ok hs -> handles_ok (issue_handle now fresh session actor secret version hs).2.
Proof.
  intros Hok. pose proof (handles_subset _ _ (live_subset now hs) Hok) as Hlive. unfold issue_handle.
  destruct (List.find _ _) as [[token r]|] eqn:Ef; [done|].
  destruct (N.leb_spec MAX_SECRET_HANDLES_PER_SESSION (session_handles session (live now hs))) as [|Hcap]; [done|].
  destruct (N.leb_spec MAX_SECRET_HANDLES_TOTAL (N.of_nat (size (live now hs)))) as [|Htot]; [done|].
  destruct fresh as [token|]; [|done]. cbn [snd]. destruct Hlive as (Hs & Ht & Hu). split; [|split].
  - intros session'. unfold session_handles. rewrite map_filter_insert. cbn [handle_session snd].
    case_decide as Hd.
    + subst session'. pose proof (size_insert_le (filter (fun e : string * HandleRecord => handle_session e.2 = session) (live now hs))
        token (mkHandleRecord session actor secret version (now + SECRET_HANDLE_TTL))) as Hsz.
      unfold session_handles in Hcap. lia.
    + etrans; [|apply (Hs session')]. apply session_handles_mono. apply delete_subseteq.
  - pose proof (size_insert_le (live now hs) token (mkHandleRecord session actor secret version (now + SECRET_HANDLE_TTL))). lia.
  - pose proof (find_none_use _ _ _ _ _ Ef) as Hnone. intros t t' r r' Hr Hr'.
    apply lookup_insert_Some in Hr as [[<- <-]|[Ht1 Hr]]; apply lookup_insert_Some in Hr' as [[<- <-]|[Ht2 Hr']].
    + done.
    + cbn. intros Hsame. apply same_use_iff in Hsame. cbn in Hsame. destruct Hsame as (E1 & E2 & E3 & E4).
      specialize (Hnone _ _ Hr'). by rewrite (proj2 (same_use_iff _ _ _ _ r')) in Hnone.
    + cbn. intros Hsame. by rewrite (Hnone _ _ Hr) in Hsame.
    + by apply Hu.
Qed.

Lemma revoke_keeps b :
  forall id, (rt_config (policy_state (revoke_destination id b).2) = rt_config (policy_state b)
              /\ handles (revoke_destination id b).2 = handles b)
          /\ (rt_config (policy_state (revoke_secret id b).2) = rt_config (policy_state b)
              /\ handles (revoke_secret id b).2 = handles b).
Proof. intros id. unfold revoke_destination, revoke_secret. by repeat case_match. Qed.

Lemma step_ok b b' : broker_step b b' -> broker_ok b -> broker_ok b'.
Proof.
  intros Hs [Hp Hh]. destruct Hs as [now config|id|id|now fresh session actor secret version|now token|session].
  - unfold replace_policy. destruct (validate_config config allow_http) as [v|e| |] eqn:Ev; [|done..].
    apply validate_config_ok in Ev as [Hwf _]. split; [done|]. eapply handles_subset; [|exact Hh]. apply map_filter_subseteq.
  - destruct (revoke_keeps b id) as [[E1 E2] _]. split; [by rewrite E1|by rewrite E2].
  - destruct (revoke_keeps b id) as [_ [E1 E2]]. split; [by rewrite E1|by rewrite E2].
  - split; [done|]. by apply issue_ok.
  - split; [done|]. eapply handles_subset; [apply live_subset|done].
  - split; [done|]. eapply handles_subset; [apply map_filter_subseteq|done].
Qed.

(** The shared state of the egress runtime.  From the policy the runtime started
    with, whatever replacements, revocations, issued handles, lookups and cleared
    sessions follow in whatever order, the policy in force satisfies its invariant,
    no session holds more than 64 handles, there are at most 4096, and a use of a
    secret by an actor of a session has at most one. *)
Lemma broker_invariant config b b' :
  with_resolver_and_options config allow_http = Ok b -> rtc broker_step b b' -> broker_ok b'.
Proof.
  intros Hstart Hsteps. assert (Hok : broker_ok b).
  { unfold with_resolver_and_options in Hstart. apply obind_ok in Hstart as (v & [Hwf _]%validate_config_ok & [= <-]).
    split; [done|]. split; [|split].
    - intros session. unfold session_handles. cbn. rewrite map_filter_empty, map_size_empty. by vm_compute.
    - cbn. by rewrite map_size_empty.
    - intros t t' r r' Hr. cbn in Hr. by rewrite lookup_empty in Hr. }
  clear Hstart. induction Hsteps as [|b1 b2 b3 Hs _ IH]; [done|]. apply IH. by eapply step_ok.
Qed.

(** ** Revocation *)

(** The policy in force has a destination in a version. *)
Definition in_force (id : string) (version : N) (b : Broker) : Prop :=
  keeps_version dest_version (valid_destinations (rt_config (policy_state b))) (id, version) = true.

Definition revoked (id : string) (version : N) (b : Broker) : Prop :=
  (id, version) ∈ revoked_destinations (policy_state b).

Lemma step_keeps_revoked b b' id version :
  broker_step b b' -> in_force id version b' -> revoked id version b -> revoked id version b'.
Proof.
  intros Hs Hf Hr. destruct Hs as [now config|id'|id'|now fresh session actor secret v|now token|session]; try done.
  - revert Hf. unfold replace_policy. destruct (validate_config config allow_http) as [v|e| |]; [|done..].
    unfold in_force, revoked. cbn. intros Hf. by apply elem_of_filter.
  - unfold revoke_destination, revoked. case_match; [|done]. cbn. set_solver.
  - unfold revoke_secret, revoked. case_match; [|done]. done.
Qed.

(** C25: A revocation holds.  Once a destination is revoked, it stays revoked through
    any later replacements of the policy, further revocations and uses, as long as
    the policies in force keep it in the version that was revoked. *)
Theorem revocation_survives b b1 b' id version :
  revoke_destination id b = (Ok tt, b1) -> in_force id version b ->
  rtc (fun x y => broker_step x y /\ in_force id version y) b1 b' ->
  revoked id version b'.
Proof.
  intros Hrev Hf Hsteps. assert (Hr : revoked id version b1).
  { unfold revoke_destination in Hrev. unfold in_force, keeps_version in Hf. cbn in Hf.
    destruct (bm_get id _) as [d|]; [|done]. injection Hrev as <-. apply N.eqb_eq in Hf as <-.
    unfold revoked. cbn. set_solver. }
  clear Hrev Hf. induction Hsteps as [|x y z [Hs Hf] _ IH]; [done|]. apply IH. by eapply step_keeps_revoked.
Qed.

(** Two replacements forget a revocation: the version that was revoked comes back
    unrevoked when another version was in force in between. *)
Lemma revocation_forgotten now1 now2 other again b b1 b2 id version v_other v_again :
  validate_config other allow_http = Ok v_other -> validate_config again allow_http = Ok v_again ->
  keeps_version dest_version (valid_destinations v_other) (id, version) = false ->
  b1 = (replace_policy now1 allow_http other b).2 -> b2 = (replace_policy now2 allow_http again b1).2 ->
  ~ revoked id version b2.
Proof.
  intros Ho Ha Hk -> ->. unfold replace_policy. rewrite Ha, Ho. unfold revoked. cbn.
  intros [_ [Hin _]%elem_of_filter]%elem_of_filter. congruence.
Qed.
End Broker.
