(* ===== verification/Io.v ===== *)
(** * Interactions with the world

    An asynchronous function asks the world around it (a lock, a store, a peer, the
    clock) and goes on with the answer.  [Io] is the tree of these interactions; it
    is inductive, so every function modelled by one ends after finitely many
    questions.  A run of a function is the history of its questions with their
    answers: between two questions anything may happen elsewhere, so the answers
    are not related unless a hypothesis says so. *)

From stdpp Require Import base tactics list.
From S2P Require Import Prelude.

Section Io.
Context {Query : Type} {Answer : Query -> Type}.

Inductive Io (A : Type) : Type :=
| Ret (a : A)
| Ask (q : Query) (k : Answer q -> Io A).

Arguments Ret {A} a.
Arguments Ask {A} q k.

Fixpoint io_bind {A B} (k : A -> Io B) (t : Io A) : Io B :=
  match t with
  | Ret a => k a
  | Ask q c => Ask q (fun r => io_bind k (c r))
  end.

Definition ask (q : Query) : Io (Answer q) := Ask q Ret.

Definition Event : Type := sigT Answer.
Definition asked (q : Query) (r : Answer q) : Event := existT q r.

(** ** Runs *)

(** [runs t h t']: asking the questions of the history [h] leads from [t] to [t']. *)
Inductive runs {A} : Io A -> list Event -> Io A -> Prop :=
| runs_here t : runs t [] t
| runs_ask q k r h t : runs (k r) h t -> runs (Ask q k) (asked q r :: h) t.

(** A world that answers questions plays a function to its end. *)
Fixpoint play {A W} (answer : W -> forall q, Answer q * W) (w : W) (t : Io A) : A * W * list Event :=
  match t with
  | Ret a => (a, w, [])
  | Ask q k =>
      let '(r, w') := answer w q in
      let '(a, w'', h) := play answer w' (k r) in
      (a, w'', asked q r :: h)
  end.

Lemma play_runs {A W} (answer : W -> forall q, Answer q * W) (t : Io A) : forall w a w' h,
  play answer w t = (a, w', h) -> runs t h (Ret a).
Proof.
  induction t as [a|q k IH]; intros w a' w' h; cbn.
  - intros [= <- <- <-]. constructor.
  - destruct (answer w q) as [r w1]. destruct (play answer w1 (k r)) as [[a1 w2] h1] eqn:Ep.
    intros [= <- <- <-]. constructor. by eapply IH.
Qed.

(** ** Assertions about runs

    [holds pre post h t]: with the history [h] so far, every question [t] asks
    satisfies [pre] and every result [post], whatever the world answers among the
    answers that [may] be given. *)
Context (may : list Event -> forall q, Answer q -> Prop).

Fixpoint holds {A} (pre : list Event -> Query -> Prop) (post : list Event -> A -> Prop) (h : list Event)
    (t : Io A) : Prop :=
  match t with
  | Ret a => post h a
  | Ask q k => pre h q /\ forall r, may h q r -> holds pre post (h ++ [asked q r]) (k r)
  end.

(** A history the world may give. *)
Definition allowed_history (h : list Event) : Prop :=
  forall h1 q r h2, h = h1 ++ asked q r :: h2 -> may h1 q r.

Lemma holds_mono {A} pre pre' (post post' : list Event -> A -> Prop) t : forall h,
  holds pre post h t -> (forall h q, pre h q -> pre' h q) ->
  (forall h' a, h `prefix_of` h' -> post h' a -> post' h' a) -> holds pre' post' h t.
Proof.
  induction t as [a|q k IH]; intros h Hh Hpre Hpost; cbn in *; [by apply Hpost|].
  destruct Hh as [Hq Hk]. split; [by apply Hpre|]. intros r Hr. apply IH; [by apply Hk|done|].
  intros h' a Hp. apply Hpost. etrans; [|exact Hp]. by apply prefix_app_r.
Qed.

Lemma holds_bind {A B} pre (post : list Event -> B -> Prop) (k : A -> Io B) t : forall h,
  holds pre (fun h' a => holds pre post h' (k a)) h t -> holds pre post h (io_bind k t).
Proof.
  induction t as [a|q c IH]; intros h Hh; cbn in *; [done|]. destruct Hh as [Hq Hc].
  split; [done|]. intros r Hr. apply IH. by apply Hc.
Qed.

Lemma holds_and {A} pre pre' (post post' : list Event -> A -> Prop) t : forall h,
  holds pre post h t -> holds pre' post' h t ->
  holds (fun h q => pre h q /\ pre' h q) (fun h a => post h a /\ post' h a) h t.
Proof.
  induction t as [a|q c IH]; intros h Hh Hh'; cbn in *; [done|].
  destruct Hh as [Hq Hc], Hh' as [Hq' Hc']. split; [done|]. intros r Hr. apply IH; auto.
Qed.

(** The questions asked on the way. *)
Lemma holds_asked {A} pre (post : list Event -> A -> Prop) (P : Query -> Prop) t : forall h,
  holds pre post h t -> (forall h q, pre h q -> P q) ->
  holds pre (fun h' a => post h' a /\ exists k, h' = h ++ k /\ Forall (fun e => P (projT1 e)) k) h t.
Proof.
  induction t as [a|q c IH]; intros h Hh HP; cbn in *.
  - split; [done|]. exists []. by rewrite app_nil_r.
  - destruct Hh as [Hq Hc]. split; [done|]. intros r Hr. eapply holds_mono; [by apply IH; [apply Hc|]|done|].
    intros h' a _ (Hpost & k & -> & Hk). split; [done|]. exists (asked q r :: k). rewrite <- app_assoc.
    split; [done|]. constructor; [|done]. cbn. by eapply HP.
Qed.

(** Assertions speak about runs. *)
Lemma runs_holds {A} pre (post : list Event -> A -> Prop) (t t' : Io A) h : forall h0,
  runs t h t' -> holds pre post h0 t ->
  (forall h1 q r h2, h = h1 ++ asked q r :: h2 -> may (h0 ++ h1) q r) ->
  holds pre post (h0 ++ h) t'
  /\ forall h1 q r h2, h = h1 ++ asked q r :: h2 -> pre (h0 ++ h1) q.
Proof.
  intros h0 Hr. revert h0. induction Hr as [t|q k r h t Hr IH]; intros h0 Hh Hmay.
  - rewrite app_nil_r. split; [done|]. intros [|] ? ? ?; done.
  - cbn in Hh. destruct Hh as [Hq Hk].
    destruct (IH (h0 ++ [asked q r])) as [Hend Hpre].
    + apply Hk. specialize (Hmay [] q r h eq_refl). by rewrite app_nil_r in Hmay.
    + intros h1 q' r' h2 ->. specialize (Hmay (asked q r :: h1) q' r' h2 eq_refl). by rewrite <- app_assoc.
    + rewrite <- app_assoc in Hend. split; [done|]. intros [|e h1] q' r' h2 He.
      * cbn in He. rewrite app_nil_r. assert (q = q') as <- by (injection He; intros; congruence). done.
      * cbn in He. injection He as <- Hh'. specialize (Hpre h1 q' r' h2 Hh'). by rewrite <- app_assoc in Hpre.
Qed.

Lemma runs_pre {A} pre (post : list Event -> A -> Prop) (t t' : Io A) h h1 q r h2 :
  holds pre post [] t -> runs t h t' -> allowed_history h -> h = h1 ++ asked q r :: h2 -> pre h1 q.
Proof. intros Hh Hr Ha. by apply (runs_holds pre post t t' h []). Qed.

Lemma runs_post {A} pre (post : list Event -> A -> Prop) (t : Io A) h a :
  holds pre post [] t -> runs t h (Ret a) -> allowed_history h -> post h a.
Proof. intros Hh Hr Ha. by apply (runs_holds pre post t (Ret a) h []) in Hr as [Hp _]. Qed.
End Io.

Arguments Io {Query} Answer A.
Arguments Ret {Query Answer A} a.
Arguments Ask {Query Answer A} q k.
Arguments Event {Query} Answer.
Arguments asked {Query Answer} q r.
Arguments holds {Query Answer} may {A} pre post h t.
Arguments allowed_history {Query Answer} may h.
