(* ===== verification/EgressRuntime.v ===== *)
(** * Requests through the egress runtime ([tm-egress/src/runtime.rs])

    A request goes out after the policy snapshot, the grants of the caller, the
    headers, the secret handle and the budget have been checked, hop by hop.  The
    functions of the runtime are asynchronous: what they ask of the shared state, of
    the stores and of the network is a [Query]. *)

From stdpp Require Import base tactics list gmap strings.
From Stdlib Require Import NArith ZArith Lia Ascii.
From S2P Require Import Prelude BTree Text Strings Value Render ServerBase Host Net EgressState EgressConfig EgressPolicy EgressBroker Io.

(** ** What the runtime asks *)

(** A request as it leaves: [out_pinned] says that the connector may only use the
    addresses that were vetted. *)
Record Outgoing `{UrlLib} := mkOutgoing {
  out_method : string;
  out_url : url;
  out_headers : list (string * string);
  out_body : option string;
  out_host : string;
  out_addresses : list SocketAddr;
  out_pinned : bool;
  out_connect_timeout_ms : N;
}.

(** The head of a response; a header value is [None] when it is not visible ASCII. *)
Record PeerResponse := mkPeer {
  peer_status : N;
  peer_headers : list (string * option string);
  peer_content_length : option N;
}.

Section Queries.
Context `{UrlLib} `{JsonNumber}.

Inductive Query : Type :=
| QEvent (event : string) (payload : Json)
| QApproval (action : string) (timeout : N)
| QEffectScope
| QSnapshot
| QNow
| QToken (bytes : N)
| QEnv (name : string)
| QFindHandle (token : string)
| QIssueHandle (now : N) (session : string) (actor : option string) (secret : string) (version : N)
| QReserve (request : EgressBudgetRequest)
| QSettle (reservation : EgressBudgetReservation) (response elapsed : N)
| QBegin (intent : EgressMutationIntent)
| QFinish (effect : string) (outcome : EgressMutationStatus) (digest : option string) (bytes : option N)
    (code err_digest : option string)
| QResolve (host : string) (port : N)
| QClient
| QSend (out : Outgoing)
| QStream
| QTimed (q : Query).

(** The chunks of a body arrive one after the other ([None]: the connection broke);
    a question asked under a deadline has no answer once the deadline has passed. *)
Fixpoint Answer (q : Query) : Type :=
  match q with
  | QEvent _ _ => HostResult unit
  | QApproval _ _ => HostResult ApprovalDecision
  | QEffectScope => option string
  | QSnapshot => RuntimeState
  | QNow => N
  | QToken _ => option string
  | QEnv _ => option string
  | QFindHandle _ => option HandleRecord
  | QIssueHandle _ _ _ _ _ => EgressResult (string * bool)
  | QReserve _ => EgressResult EgressBudgetReservation
  | QSettle _ _ _ => EgressResult unit
  | QBegin _ => EgressResult EgressMutationClaim
  | QFinish _ _ _ _ _ _ => EgressResult EgressMutationRecord
  | QResolve _ _ => EgressResult (list SocketAddr)
  | QClient => bool
  | QSend _ => option PeerResponse
  | QStream => list (option string)
  | QTimed q => option (Answer q)
  end.

(** What is awaited under a deadline, and what is not. *)
Definition awaits (q : Query) : bool :=
  match q with QResolve _ _ | QSend _ | QStream => true | _ => false end.

(** [tokio::time::timeout]. *)
Fixpoint with_deadline {A} (t : Io Answer A) : Io Answer (option A) :=
  match t with
  | Ret a => Ret (Some a)
  | Ask q k =>
      if awaits q
      then Ask (QTimed q) (fun r => match r with Some r => with_deadline (k r) | None => Ret None end)
      else Ask q (fun r => with_deadline (k r))
  end.
End Queries.

(** Sequencing, and sequencing with [?]. *)
Definition Act `{UrlLib} `{JsonNumber} (A : Type) : Type := Io Answer (EgressResult A).

Definition act_bind `{UrlLib} `{JsonNumber} {A B} (m : Act A) (k : A -> Act B) : Act B :=
  io_bind (fun r =>
    match r with
    | Ok a => k a
    | Err e => Ret (Err e)
    | Panicked => Ret Panicked
    | OutOfFuel => Ret OutOfFuel
    end) m.

Declare Scope egress_scope.
Notation "'let*' x := m 'in' k" := (io_bind (fun x => k) m)
  (at level 10, x pattern, m at level 100, k at level 200) : egress_scope.
Notation "'let?' x := m 'in' k" := (act_bind m (fun x => k))
  (at level 10, x pattern, m at level 100, k at level 200) : egress_scope.
Open Scope egress_scope.

(** The crate [http]: names of headers (folded to lower case), their values, methods. *)
Class HttpLib := {
  header_name : string -> option string;
  header_value : string -> bool;
  http_method : string -> bool;
}.

(** ** Pure parts *)

Definition require_session (ctx : InvocationCtx) : EgressResult unit :=
  fail_if (is_empty (session_id ctx) || String.eqb (session_id ctx) "default")
    (Denied "egress requires an explicit session identity").

Definition require_exact_grant (g : CapabilityGrants) (required : string) : EgressResult unit :=
  fail_if (negb (existsb (fun granted => String.eqb granted required) (allowed g)))
    (Denied ("missing exact grant " ++ required)).

Definition authorize_destination (ctx : InvocationCtx) (state : RuntimeState) (d : EgressDestinationConfig)
    : EgressResult unit :=
  require_exact_grant (ctx_grants ctx) ("egress.destination:" ++ dest_id d);;
  fail_if (bool_decide ((dest_id d, dest_version d) ∈ revoked_destinations state)) (Revoked "destination").

Definition ensure_secret_not_revoked (state : RuntimeState) (s : EgressSecretConfig) : EgressResult unit :=
  fail_if (bool_decide ((secret_id s, secret_version s) ∈ revoked_secrets state)) (Revoked "secret").

Definition authorize_secret_for_config (ctx : InvocationCtx) (s : EgressSecretConfig) (d : EgressDestinationConfig)
    : EgressResult unit :=
  require_exact_grant (ctx_grants ctx) ("secrets.use:" ++ secret_id s);;
  fail_if (negb (bs_contains (dest_id d) (secret_destinations s))) InvalidSecretHandle.

Definition authorize_secret_for_destination (ctx : InvocationCtx) (state : RuntimeState) (s : ResolvedSecret)
    (d : EgressDestinationConfig) : EgressResult unit :=
  ensure_secret_not_revoked state (resolved_config s);;
  authorize_secret_for_config ctx (resolved_config s) d.

Definition canonical_request_headers (headers : list (string * string)) : EgressResult (list (string * string)) :=
  try_fold (fun canonical header =>
    let name := lower header.1 in
    if bm_contains name canonical then Err (InvalidRequest "duplicate request header name")
    else Ok (bm_insert name header.2 canonical)) [] headers.

Definition header_sizes (size : option N) (headers : list (string * string)) : option N :=
  foldl (fun size header => checked_size (checked_size (checked_size size (str_len header.1)) (str_len header.2)) 4)
    size headers.

Definition size_or_overflow (size : option N) : EgressResult N :=
  match size with Some n => Ok n | None => Err (Budget "request size overflow") end.

Definition request_size_without_secret_value (request : HttpRequest) (current_url : string) : EgressResult N :=
  size_or_overflow
    (checked_size (header_sizes (checked_add_u64 (str_len (req_method request)) (str_len current_url))
                     (req_headers request))
       (from_option str_len 0%N (req_body request))).

Definition request_size_for_url (request : HttpRequest) (current_url : string) (secret : option ResolvedSecret)
    : EgressResult N :=
  bytes ← request_size_without_secret_value request current_url;
  match secret with
  | None => Ok bytes
  | Some s =>
      let size := checked_add_u64 bytes (str_len (resolved_value s)) in
      size_or_overflow
        match injection (resolved_config s) with
        | AuthorizationBearer => checked_size size 22
        | InjectHeader name prefix => checked_size (checked_size (checked_size size (str_len name)) (str_len prefix)) 4
        end
  end.

Definition redact_exact (text secret : string) : string * N :=
  if is_empty secret || negb (str_contains secret text) then (text, 0%N)
  else (replace secret "[REDACTED_SECRET]" text, count_matches secret text).

Definition usage_limits_of_session (l : EgressSessionLimits) : EgressUsageLimits :=
  mkUsageLimits (limit_requests l) (limit_request_bytes l) (limit_response_bytes l) (limit_time_ms l).
Definition usage_limits_of_destination (d : EgressDestinationConfig) : EgressUsageLimits :=
  mkUsageLimits (max_requests_per_session d) (max_request_bytes_per_session d) (max_response_bytes_per_session d)
    (max_time_ms_per_session d).

Section Pure.
Context `{HttpLib}.

Definition caller_headers (caller : list (string * string)) : EgressResult (list (string * string)) :=
  try_fold (fun headers header =>
    match header_name header.1 with
    | None => Err (InvalidRequest "invalid request header")
    | Some name =>
        if header_value header.2 then Ok (bm_insert name header.2 headers)
        else Err (InvalidRequest "invalid request header value")
    end) [] caller.

(** The name and the value of the header that carries a secret. *)
Definition secret_header (s : ResolvedSecret) : EgressResult (string * string) :=
  match injection (resolved_config s) with
  | AuthorizationBearer => Ok ("authorization", "Bearer " ++ resolved_value s)%string
  | InjectHeader name prefix =>
      match header_name name with
      | None => Err (InvalidConfig "invalid secret header")
      | Some name => Ok (name, prefix ++ resolved_value s)%string
      end
  end.

Definition request_headers (d : EgressDestinationConfig) (caller : list (string * string))
    (secret : option ResolvedSecret) : EgressResult (list (string * string)) :=
  validate_request_headers d caller;;
  headers ← caller_headers caller;
  match secret with
  | None => Ok headers
  | Some s =>
      '(name, value) ← secret_header s;
      if header_value value then Ok (bm_insert name value headers) else Err SecretUnavailable
  end.
End Pure.

(** ** Responses *)

Definition EXPOSED_RESPONSE_HEADERS : list string := ["mcp-session-id"%string].
Definition MAX_EXPOSED_RESPONSE_HEADER_VALUE_BYTES : N := 1024.
Definition MAX_EXPOSED_RESPONSE_HEADER_BYTES : N := 4 * 1024.

(** [HeaderMap::get], [HeaderMap::get_all]. *)
Definition header_get (name : string) (headers : list (string * option string)) : option (option string) :=
  snd <$> List.find (fun h => String.eqb h.1 name) headers.
Definition header_get_all (name : string) (headers : list (string * option string)) : list (option string) :=
  List.map snd (List.filter (fun h => String.eqb h.1 name) headers).

Definition expose_header (headers : list (string * option string)) (acc : list (string * string) * N) (name : string)
    : EgressResult (list (string * string) * N) :=
  let '(exposed, total_bytes) := acc in
  match header_get_all name headers with
  | [] => Ok acc
  | [Some value] =>
      fail_if ((MAX_EXPOSED_RESPONSE_HEADER_VALUE_BYTES <? str_len value)%N || existsb is_control_char (chars value))
        (Denied "exposed response header exceeds bounds");;
      match checked_size (checked_add_u64 total_bytes (str_len name)) (str_len value) with
      | None => Err (Denied "response header size overflow")
      | Some total_bytes =>
          fail_if (MAX_EXPOSED_RESPONSE_HEADER_BYTES <? total_bytes)%N
            (Denied "exposed response headers exceed bounds");;
          Ok (bm_insert name value exposed, total_bytes)
      end
  | [None] => Err (Denied "invalid exposed response header")
  | _ :: _ :: _ => Err (Denied "ambiguous exposed response header")
  end.

Definition exposed_response_headers (headers : list (string * option string))
    : EgressResult (list (string * string)) :=
  '(exposed, _) ← try_fold (expose_header headers) ([], 0%N) EXPOSED_RESPONSE_HEADERS;
  Ok exposed.

(** The loop over the chunks of the body. *)
Definition read_body (cap : N) (chunks : list (option string)) : EgressResult string :=
  try_fold (fun bytes chunk =>
    match chunk with
    | None => Err Transport
    | Some chunk =>
        if (cap <? saturating_add (str_len bytes) (str_len chunk))%N
        then Err (Budget "per-request response-byte cap")
        else Ok (bytes ++ chunk)%string
    end) ""%string chunks.

(** [String::from_utf8]. *)
Definition from_utf8 (bytes : string) : EgressResult string :=
  if String.eqb (valid_prefix bytes) bytes then Ok bytes else Err NonUtf8.

Inductive HopResponse :=
| HopRedirect (location : string)
| HopFinal (status : N) (body : string) (content_type : option string) (headers : list (string * string))
    (response_bytes redactions : N).

(** The values of the exposed headers without the secret, and how often it was there. *)
Definition redact_values (secret : string) (headers : list (string * string)) : list (string * string) * N :=
  foldr (fun h acc => let '(value, n) := redact_exact h.2 secret in ((h.1, value) :: acc.1, saturating_add n acc.2))
    ([], 0%N) headers.

Definition redact_response (secret : option ResolvedSecret) (body : string) (content_type : option string)
    (headers : list (string * string)) : string * option string * list (string * string) * N :=
  match secret with
  | None => (body, content_type, headers, 0%N)
  | Some s =>
      let '(body, n) := redact_exact body (resolved_value s) in
      let '(content_type, m) :=
        match content_type with
        | Some value => let '(value, m) := redact_exact value (resolved_value s) in (Some value, m)
        | None => (None, 0%N)
        end in
      let '(headers, k) := redact_values (resolved_value s) headers in
      (body, content_type, headers, saturating_add (saturating_add n m) k)
  end.

Section Runtime.
Context `{UrlLib} `{JsonNumber} `{!JsonText} `{Sha256} `{HttpLib} `{IpNetLib}.

Definition ok {A} (a : A) : Act A := Ret (Ok a).
Definition err {A} (e : EgressError) : Act A := Ret (Err e).

(** ** Digests *)

Definition sha256_domain (domain value : string) : string := sha256_hex (domain ++ String nul value).

Definition sha256_json (value : Json) : string := sha256_domain "tm.egress.canonical-json.v1" (json_text value).

Definition json_strings (l : list string) : Json := JArray (List.map JString l).
Definition json_number_option (o : option N) : Json := from_option json_usize JNull o.

Definition destination_to_json (d : EgressDestinationConfig) : Json :=
  Host.json_object
    [("id", JString (dest_id d)); ("version", json_usize (dest_version d)); ("scheme", JString (dest_scheme d));
     ("host", JString (dest_host d)); ("port", json_usize (dest_port d));
     ("path_prefixes", json_strings (path_prefixes d)); ("methods", json_strings (methods d));
     ("redirect_to", json_strings (redirect_to d)); ("max_redirects", json_usize (max_redirects d));
     ("allow_private_ips", JBool (allow_private_ips d)); ("request_timeout_ms", json_usize (request_timeout_ms d));
     ("connect_timeout_ms", json_usize (connect_timeout_ms d));
     ("max_request_bytes", json_usize (dest_max_request_bytes d));
     ("max_response_bytes", json_usize (dest_max_response_bytes d));
     ("max_requests_per_session", json_usize (max_requests_per_session d));
     ("max_request_bytes_per_session", json_usize (max_request_bytes_per_session d));
     ("max_response_bytes_per_session", json_usize (max_response_bytes_per_session d));
     ("max_time_ms_per_session", json_usize (max_time_ms_per_session d));
     ("allowed_request_headers", json_strings (allowed_request_headers d))]%string.

Definition injection_to_json (i : EgressSecretInjection) : Json :=
  match i with
  | AuthorizationBearer => Host.json_object [("kind", JString "authorization_bearer")]
  | InjectHeader name prefix =>
      Host.json_object [("kind", JString "header"); ("name", JString name); ("prefix", JString prefix)]
  end%string.

Definition secret_to_json (s : EgressSecretConfig) : Json :=
  Host.json_object
    [("id", JString (secret_id s)); ("version", json_usize (secret_version s)); ("env", JString (secret_env s));
     ("destinations", json_strings (secret_destinations s)); ("injection", injection_to_json (injection s))]%string.

(** ** Events, tokens and time *)

Definition emit_event (event : string) (payload : list (string * Json)) : Act unit :=
  let* r := ask (QEvent event (Host.json_object payload)) in
  match r with inl _ => ok tt | inr _ => err Audit end.

Definition emit_denial (audit_id method : string) (destination_id : option string) (policy_generation : N)
    (e : EgressError) : Act unit :=
  emit_event "egress_denied"
    [("auditId", JString audit_id); ("destinationId", json_option destination_id);
     ("policyGeneration", json_usize policy_generation); ("method", JString method);
     ("errorCode", JString (error_code e))]%string.

Definition random_token (bytes : N) : Act string :=
  let* r := ask (QToken bytes) in
  match r with Some token => ok token | None => err Transport end.

(** The milliseconds since an instant, as [u64]. *)
Definition elapsed_since (started : N) : Io Answer N :=
  let* now := ask QNow in Ret (N.min (saturating_sub now started) usize_max).

(** ** Secrets *)

Definition issue_secret_handle (ctx : InvocationCtx) (id : string) : Act SecretHandle :=
  let? _ := Ret (require_session ctx) in
  let* state := ask QSnapshot in
  if negb (valid_enabled (rt_config state)) then err Disabled
  else
    let? _ := Ret (require_exact_grant (ctx_grants ctx) ("secrets.use:" ++ id)) in
    match bm_get id (valid_secrets (rt_config state)) with
    | None => err SecretUnavailable
    | Some secret =>
        let? _ := Ret (ensure_secret_not_revoked state secret) in
        let* now := ask QNow in
        let* issued := ask (QIssueHandle now (session_id ctx) (actor_id ctx) (secret_id secret) (secret_version secret)) in
        let? (token, reused) := Ret issued in
        let? _ := emit_event "secret_handle_issued"
          [("secretId", JString (secret_id secret)); ("secretVersion", json_usize (secret_version secret));
           ("destinationCount", json_usize (len (secret_destinations secret))); ("opaque", JBool true);
           ("reused", JBool reused)]%string in
        ok (mkHandle token)
    end.

Definition resolve_secret_snapshot (ctx : InvocationCtx) (state : RuntimeState) (handle : SecretHandle)
    (d : EgressDestinationConfig) : Act (SecretSnapshot * EgressSecretConfig) :=
  let* found := ask (QFindHandle (token handle)) in
  match found with
  | None => err InvalidSecretHandle
  | Some record =>
      if negb (String.eqb (handle_session record) (session_id ctx))
         || negb (bool_decide (handle_actor record = actor_id ctx))
      then err InvalidSecretHandle
      else
        match bm_get (handle_secret record) (valid_secrets (rt_config state)) with
        | None => err InvalidSecretHandle
        | Some secret =>
            if negb (secret_version secret =? handle_version record)%N then err InvalidSecretHandle
            else
              let? _ := Ret (ensure_secret_not_revoked state secret) in
              let? _ := Ret (authorize_secret_for_config ctx secret d) in
              ok (mkSnapshot (sha256_domain "tm.egress.secret-handle.v1" (token handle)) (secret_id secret)
                    (secret_version secret) (expires_at record), secret)
        end
  end.

Definition resolve_secret (ctx : InvocationCtx) (state : RuntimeState) (handle : SecretHandle)
    (d : EgressDestinationConfig) : Act ResolvedSecret :=
  let? (_, secret) := resolve_secret_snapshot ctx state handle d in
  let* value := ask (QEnv (secret_env secret)) in
  match value with
  | None => err SecretUnavailable
  | Some value =>
      if is_empty value || (MAX_SECRET_BYTES <? str_len value)%N
         || any_byte (fun a => is_line_break a || Ascii.eqb a nul) value
      then err SecretUnavailable
      else ok (mkResolved secret value)
  end.

(** ** One hop *)

(** [StatusCode::is_redirection]. *)
Definition is_redirection (status : N) : bool := in_range 300 399 status.

(** From the head of the response to the answer of the hop. *)
Definition receive (destination : AuthorizedDestination) (secret : option ResolvedSecret) (response : PeerResponse)
    : Act HopResponse :=
  let policy := auth_policy destination in
  if is_redirection (peer_status response) then
    match header_get "location" (peer_headers response) with
    | Some (Some location) => ok (HopRedirect location)
    | _ => err (Denied "redirect omitted a valid Location")
    end
  else if match peer_content_length response with
          | Some length => (dest_max_response_bytes policy <? length)%N
          | None => false
          end
  then err (Budget "per-request response-byte cap")
  else
    let content_type := take_chars 256 <$> mjoin (header_get "content-type" (peer_headers response)) in
    let? exposed := Ret (exposed_response_headers (peer_headers response)) in
    let* chunks := ask QStream in
    let? bytes := Ret (read_body (dest_max_response_bytes policy) chunks) in
    let? body := Ret (from_utf8 bytes) in
    let '(body, content_type, exposed, redactions) := redact_response secret body content_type exposed in
    ok (HopFinal (peer_status response) body content_type exposed (str_len bytes) redactions).

Definition perform_hop (destination : AuthorizedDestination) (method : string) (request : HttpRequest)
    (secret : option ResolvedSecret) : Act HopResponse :=
  let policy := auth_policy destination in
  let* answers := ask (QResolve (dest_host policy) (dest_port policy)) in
  let? addresses := Ret answers in
  let? addresses := Ret (validate_resolved_addresses addresses (dest_port policy) (allow_private_ips policy)) in
  let* built := ask QClient in
  if negb built then err Transport
  else
    let? headers := Ret (request_headers policy (req_headers request) secret) in
    let pinned := match parse_ip (dest_host policy) with Some _ => false | None => true end in
    let* sent := ask (QSend (mkOutgoing _ method (auth_url destination) headers (req_body request) (dest_host policy)
                               addresses pinned (connect_timeout_ms policy))) in
    match sent with
    | None => err Transport
    | Some response => receive destination secret response
    end.

(** ** Hops *)

Definition budget_request (ctx : InvocationCtx) (limits : EgressSessionLimits) (d : EgressDestinationConfig)
    (request_bytes timeout_ms : N) : Act EgressBudgetRequest :=
  let? id := random_token 16 in
  ok (mkBudgetRequest id (session_id ctx) (dest_id d) request_bytes (dest_max_response_bytes d) timeout_ms
        (usage_limits_of_session limits) (usage_limits_of_destination d)).

(** What may follow a redirect: [inl] is the next destination. *)
Definition next_hop (state : RuntimeState) (expected : option string) (method : string) (redirects redirect_cap : N)
    (destination : AuthorizedDestination) (location : string) : EgressResult AuthorizedDestination :=
  fail_if (negb (String.eqb method "GET") && negb (String.eqb method "HEAD"))
    (Denied "non-GET redirects are forbidden");;
  fail_if (redirect_cap <=? redirects)%N (Denied "redirect cap exceeded");;
  match url_join (auth_url destination) location with
  | None => Err (Denied "invalid redirect location")
  | Some next_url =>
      next ← authorize (rt_config state) (url_as_str next_url) method;
      fail_if match expected with Some id => negb (String.eqb (dest_id (auth_policy next)) id) | None => false end
        (Denied "redirect escaped the scoped destination");;
      fail_if (negb (String.eqb (dest_id (auth_policy next)) (dest_id (auth_policy destination)))
               && negb (bs_contains (dest_id (auth_policy next)) (redirect_to (auth_policy destination))))
        (Denied "redirect destination is not allowlisted by the current hop");;
      Ok next
  end.

(** The checks before a hop: the size of the request and its deadline. *)
Definition admit_hop (ctx : InvocationCtx) (state : RuntimeState) (request : HttpRequest)
    (secret : option ResolvedSecret) (destination : AuthorizedDestination) : EgressResult (N * N) :=
  let policy := auth_policy destination in
  authorize_destination ctx state policy;;
  match secret with Some s => authorize_secret_for_destination ctx state s policy | None => Ok tt end;;
  request_bytes ← request_size_for_url request (url_as_str (auth_url destination)) secret;
  fail_if (dest_max_request_bytes policy <? request_bytes)%N (Budget "request byte cap");;
  let timeout_ms := default (request_timeout_ms policy) (req_timeout_ms request) in
  fail_if ((timeout_ms =? 0)%N || (request_timeout_ms policy <? timeout_ms)%N) (Budget "request timeout cap");;
  Ok (request_bytes, timeout_ms).

Fixpoint hop_loop (fuel : nat) (ctx : InvocationCtx) (state : RuntimeState) (expected : option string)
    (request : HttpRequest) (method : string) (secret : option ResolvedSecret) (redirect_cap redirects : N)
    (destination : AuthorizedDestination) : Act HttpResponse :=
  match fuel with
  | O => Ret OutOfFuel
  | S fuel' =>
      let policy := auth_policy destination in
      let? (request_bytes, timeout_ms) := Ret (admit_hop ctx state request secret destination) in
      let? budget := budget_request ctx (valid_limits (rt_config state)) policy request_bytes timeout_ms in
      let* reserved := ask (QReserve budget) in
      let? reservation := Ret reserved in
      let* hop_started := ask QNow in
      let* hop := with_deadline (perform_hop destination method request secret) in
      let* elapsed_ms := elapsed_since hop_started in
      match default (Err Timeout) hop with
      | Ok (HopRedirect location) =>
          let* settled := ask (QSettle reservation 0 elapsed_ms) in
          let? _ := Ret settled in
          let? next := Ret (next_hop state expected method redirects redirect_cap destination location) in
          hop_loop fuel' ctx state expected request method secret redirect_cap (N.min (redirects + 1) 255) next
      | Ok (HopFinal status body content_type headers response_bytes redactions) =>
          let* settled := ask (QSettle reservation response_bytes elapsed_ms) in
          let? _ := Ret settled in
          ok (mkHttpResponse status body content_type headers (dest_id policy) response_bytes redirects redactions)
      | Err e =>
          let* settled := ask (QSettle reservation 0 elapsed_ms) in
          let? _ := Ret settled in
          err e
      | Panicked => Ret Panicked
      | OutOfFuel => Ret OutOfFuel
      end
  end.

Definition execute_hops (ctx : InvocationCtx) (state : RuntimeState) (expected : option string)
    (request : HttpRequest) (destination : AuthorizedDestination) (secret : option ResolvedSecret)
    : Act HttpResponse :=
  let method := upper (req_method request) in
  if negb (http_method method) then err (InvalidRequest "invalid HTTP method")
  else
    let redirect_cap := max_redirects (auth_policy destination) in
    hop_loop (S (N.to_nat redirect_cap)) ctx state expected request method secret redirect_cap 0 destination.

(** ** A request without an effect record *)

(** [if let Err(error) = r { emit_denial(..).await?; return Err(error); }]. *)
Definition or_deny {A B} (audit_id method : string) (destination_id : option string) (generation : N)
    (r : EgressResult A) (k : A -> Act B) : Act B :=
  match r with
  | Ok a => k a
  | Err e => let? _ := emit_denial audit_id method destination_id generation e in err e
  | Panicked => Ret Panicked
  | OutOfFuel => Ret OutOfFuel
  end.

Definition execute_scoped (ctx : InvocationCtx) (expected : option string) (request : HttpRequest)
    : Act HttpResponse :=
  let? audit_id := random_token 16 in
  let* started := ask QNow in
  let method := upper (req_method request) in
  or_deny audit_id method None 0 (require_session ctx) (fun _ =>
  let* state := ask QSnapshot in
  let generation := generation state in
  or_deny audit_id method None generation (authorize (rt_config state) (req_url request) method) (fun initial =>
  let policy := auth_policy initial in
  let id := dest_id policy in
  let or_deny {A B} := @or_deny A B audit_id method (Some id) generation in
  or_deny
    (fail_if match expected with Some expected => negb (String.eqb id expected) | None => false end
       (Denied "unexpected destination for scoped request")) (fun _ =>
  or_deny (authorize_destination ctx state policy) (fun _ =>
  or_deny (validate_request_headers policy (req_headers request)) (fun _ =>
  or_deny
    (fail_if (String.eqb method "GET" && from_option (fun body => negb (is_empty body)) false (req_body request))
       (InvalidRequest "GET requests cannot carry a body")) (fun _ =>
  let* resolved := match req_auth request with
                   | Some handle => let? s := resolve_secret ctx state handle policy in ok (Some s)
                   | None => ok None
                   end in
  or_deny resolved (fun secret =>
  or_deny (request_size_for_url request (url_as_str (auth_url initial)) secret) (fun request_bytes =>
  let? _ := emit_event "egress_started"
    [("auditId", JString audit_id); ("destinationId", JString id);
     ("destinationVersion", json_usize (dest_version policy)); ("policyGeneration", json_usize generation);
     ("method", JString method); ("requestBytes", json_usize request_bytes);
     ("usesSecret", JBool match secret with Some _ => true | None => false end)]%string in
  let* result := execute_hops ctx state expected request initial secret in
  let* elapsed_ms := elapsed_since started in
  match result with
  | Ok response =>
      let? _ := emit_event "egress_completed"
        [("auditId", JString audit_id); ("destinationId", JString (resp_destination_id response));
         ("policyGeneration", json_usize generation); ("method", JString method);
         ("status", json_usize (resp_status response)); ("responseBytes", json_usize (resp_response_bytes response));
         ("redirects", json_usize (resp_redirects response));
         ("secretRedactions", json_usize (resp_secret_redactions response)); ("elapsedMs", json_usize elapsed_ms)]%string in
      ok response
  | Err e =>
      let? _ := emit_event "egress_failed"
        [("auditId", JString audit_id); ("destinationId", JString id); ("policyGeneration", json_usize generation);
         ("method", JString method); ("errorCode", JString (error_code e)); ("elapsedMs", json_usize elapsed_ms)]%string in
      err e
  | Panicked => Ret Panicked
  | OutOfFuel => Ret OutOfFuel
  end)))))))).

Definition execute (ctx : InvocationCtx) (request : HttpRequest) : Act HttpResponse :=
  execute_scoped ctx None request.
Definition execute_for_destination (ctx : InvocationCtx) (destination_id : string) (request : HttpRequest)
    : Act HttpResponse :=
  execute_scoped ctx (Some destination_id) request.

(** ** Mutations *)

Record PreparedMutation := mkPrepared {
  prepared_state : RuntimeState;
  prepared_destination : AuthorizedDestination;
  policy_generation : N;
  prepared_destination_id : string;
  prepared_destination_version : N;
  canonical_url : string;
  prepared_target_digest : string;
  prepared_request_digest : string;
  query_digest : string;
  prepared_request_bytes : N;
  prepared_secret : option SecretSnapshot;
}.

(** [PartialEq]: all but the policy snapshot and the destination itself. *)
Definition prepared_eqb (a b : PreparedMutation) : bool :=
  (policy_generation a =? policy_generation b)%N
  && String.eqb (prepared_destination_id a) (prepared_destination_id b)
  && (prepared_destination_version a =? prepared_destination_version b)%N
  && String.eqb (canonical_url a) (canonical_url b)
  && String.eqb (prepared_target_digest a) (prepared_target_digest b)
  && String.eqb (prepared_request_digest a) (prepared_request_digest b)
  && String.eqb (query_digest a) (query_digest b)
  && (prepared_request_bytes a =? prepared_request_bytes b)%N
  && bool_decide (prepared_secret a = prepared_secret b).

Definition target_digest_of (d : EgressDestinationConfig) (secret : option EgressSecretConfig) : string :=
  sha256_json (Host.json_object
    [("destination", destination_to_json d); ("secret", from_option secret_to_json JNull secret)]%string).

Definition request_digest_of (method url : string) (headers : list (string * string)) (body : string)
    (timeout_ms : option N) (secret : option SecretSnapshot) (target_digest : string) : string :=
  sha256_json (Host.json_object
    [("version", json_usize 1); ("method", JString method); ("url", JString url);
     ("headers", JObject (List.map (fun h => (h.1, JString h.2)) headers)); ("bodyBytes", json_usize (str_len body));
     ("bodyDigest", JString (sha256_domain "tm.egress.body.v1" body)); ("timeoutMs", json_number_option timeout_ms);
     ("secretId", json_option (snapshot_secret_id <$> secret));
     ("secretVersion", json_number_option (snapshot_secret_version <$> secret));
     ("secretHandleDigest", json_option (handle_digest <$> secret));
     ("targetDigest", JString target_digest)]%string).

Definition prepare_mutation_snapshot (ctx : InvocationCtx) (request : HttpRequest) : Act PreparedMutation :=
  let? _ := Ret (require_session ctx) in
  let method := upper (req_method request) in
  if String.eqb method "GET" then err (InvalidRequest "GET does not use the mutation boundary")
  else
    let* state := ask QSnapshot in
    let? destination := Ret (authorize (rt_config state) (req_url request) method) in
    let policy := auth_policy destination in
    let? _ := Ret (authorize_destination ctx state policy) in
    let? _ := Ret (validate_request_headers policy (req_headers request)) in
    let? canonical_headers := Ret (canonical_request_headers (req_headers request)) in
    let? secret_config := match req_auth request with
                          | Some handle =>
                              let? snapshot := resolve_secret_snapshot ctx state handle policy in
                              ok (Some snapshot)
                          | None => ok None
                          end in
    let secret := fst <$> secret_config in
    let target_digest := target_digest_of policy (snd <$> secret_config) in
    let canonical_url := url_as_str (auth_url destination) in
    let query_digest := sha256_domain "tm.egress.query.v1" (default ""%string (url_query (auth_url destination))) in
    let request_digest :=
      request_digest_of method canonical_url canonical_headers (default ""%string (req_body request))
        (req_timeout_ms request) secret target_digest in
    let? request_bytes := Ret (request_size_without_secret_value request canonical_url) in
    ok (mkPrepared state destination (generation state) (dest_id policy) (dest_version policy) canonical_url
          target_digest request_digest query_digest request_bytes secret).

Definition prepare_mutation (ctx : InvocationCtx) (request : HttpRequest) : Act PreparedMutation :=
  let* result := prepare_mutation_snapshot ctx request in
  match result with
  | Err e =>
      let? audit_id := random_token 16 in
      let* state := ask QSnapshot in
      let? _ := emit_denial audit_id (upper (req_method request)) None (generation state) e in
      err e
  | _ => Ret result
  end.

Inductive MutationExecution :=
| MExecute (effect : EgressMutationRecord)
| MReplay (effect : EgressMutationRecord).

Definition finish (effect : EgressMutationRecord) (outcome : EgressMutationStatus) (digest : option string)
    (bytes : option N) (code err_digest : option string) : Act EgressMutationRecord :=
  ask (QFinish (effect_id (intent effect)) outcome digest bytes code err_digest).

Definition intent_of (ctx : InvocationCtx) (effect_scope : string) (prepared : PreparedMutation)
    : EgressMutationIntent :=
  let session_digest := sha256_domain "tm.egress.session.v1" (session_id ctx) in
  let actor_digest := sha256_domain "tm.egress.actor.v1" (default "root"%string (actor_id ctx)) in
  let effect_id := sha256_json (Host.json_object
    [("version", json_usize 1); ("effectScopeId", JString effect_scope); ("sessionDigest", JString session_digest);
     ("actorDigest", JString actor_digest); ("destinationId", JString (prepared_destination_id prepared));
     ("destinationVersion", json_usize (prepared_destination_version prepared));
     ("targetDigest", JString (prepared_target_digest prepared));
     ("requestDigest", JString (prepared_request_digest prepared))]%string) in
  mkIntent effect_id (session_id ctx) effect_scope session_digest actor_digest (prepared_destination_id prepared)
    (prepared_destination_version prepared) (prepared_target_digest prepared) (prepared_request_digest prepared)
    (prepared_request_bytes prepared).

Definition begin_mutation (ctx : InvocationCtx) (prepared : PreparedMutation) : Act MutationExecution :=
  let* effect_scope := ask QEffectScope in
  match effect_scope with
  | None => err (Durability "HTTP mutation requires a host-owned durable effect scope")
  | Some effect_scope =>
      let* claimed := ask (QBegin (intent_of ctx effect_scope prepared)) in
      let? claim := Ret claimed in
      if created claim then ok (MExecute (claim_record claim))
      else
        match status (claim_record claim) with
        | Started =>
            let? record := finish (claim_record claim) Uncertain None None
              (Some "interrupted_before_terminal_persistence"%string) None in
            ok (MReplay record)
        | _ => ok (MReplay (claim_record claim))
        end
  end.

Definition finish_mutation_error (effect : EgressMutationRecord) (e : EgressError) : Act unit :=
  let outcome := match e with
                 | Transport | Timeout | Audit | Durability _ => Uncertain
                 | _ => MutationFailed
                 end in
  let? _ := finish effect outcome None None (Some (error_code e))
    (Some (sha256_domain "tm.egress.error.v1" (error_code e))) in
  ok tt.

Definition result_digest_of (response : HttpResponse) : string :=
  sha256_json (Host.json_object
    [("status", json_usize (resp_status response));
     ("bodyDigest", JString (sha256_domain "tm.egress.response-body.v1" (resp_body response)));
     ("contentType", json_option (resp_content_type response));
     ("destinationId", JString (resp_destination_id response));
     ("responseBytes", json_usize (resp_response_bytes response));
     ("redirects", json_usize (resp_redirects response));
     ("secretRedactions", json_usize (resp_secret_redactions response))]%string).

Definition finish_mutation_response (effect : EgressMutationRecord) (response : HttpResponse) : Act unit :=
  let digest := result_digest_of response in
  let bytes := Some (resp_response_bytes response) in
  let? _ := if (resp_status response <? 400)%N
            then finish effect Succeeded (Some digest) bytes None None
            else finish effect MutationFailed (Some digest) bytes (Some "http_error_status"%string)
                   (Some (sha256_domain "tm.egress.http-status.v1" (display_u64 (resp_status response)))) in
  ok tt.

(** [if let Err(error) = r { self.finish_mutation_error(effect, &error).await?; return Err(error); }]. *)
Definition or_finish {A B} (effect : EgressMutationRecord) (r : EgressResult A) (k : A -> Act B) : Act B :=
  match r with
  | Ok a => k a
  | Err e => let? _ := finish_mutation_error effect e in err e
  | Panicked => Ret Panicked
  | OutOfFuel => Ret OutOfFuel
  end.

(** The secret of an approved mutation: the handle must still be the one approved. *)
Definition resolve_prepared_secret (ctx : InvocationCtx) (request : HttpRequest) (prepared : PreparedMutation)
    : Act (option ResolvedSecret) :=
  match req_auth request, prepared_secret prepared with
  | Some handle, Some expected =>
      let state := prepared_state prepared in
      let policy := auth_policy (prepared_destination prepared) in
      let? (current, _) := resolve_secret_snapshot ctx state handle policy in
      if negb (bool_decide (current = expected)) then err InvalidSecretHandle
      else let? secret := resolve_secret ctx state handle policy in ok (Some secret)
  | None, None => ok None
  | _, _ => err InvalidSecretHandle
  end.

Definition execute_prepared_mutation (ctx : InvocationCtx) (request : HttpRequest) (prepared : PreparedMutation)
    (effect : EgressMutationRecord) : Act HttpResponse :=
  let audit_id := take_chars 32 (effect_id (intent effect)) in
  let id := JString (effect_id (intent effect)) in
  let generation := json_usize (policy_generation prepared) in
  let* started := ask QNow in
  let method := upper (req_method request) in
  let* resolved := resolve_prepared_secret ctx request prepared in
  or_finish effect resolved (fun secret =>
  or_finish effect (request_size_for_url request (url_as_str (auth_url (prepared_destination prepared))) secret)
    (fun request_bytes =>
  let* emitted := emit_event "egress_started"
    [("auditId", JString audit_id); ("effectId", id); ("destinationId", JString (prepared_destination_id prepared));
     ("destinationVersion", json_usize (prepared_destination_version prepared)); ("policyGeneration", generation);
     ("method", JString method); ("requestBytes", json_usize request_bytes);
     ("usesSecret", JBool match secret with Some _ => true | None => false end)]%string in
  or_finish effect emitted (fun _ =>
  let* result := execute_hops ctx (prepared_state prepared) (Some (prepared_destination_id prepared)) request
                   (prepared_destination prepared) secret in
  let* elapsed_ms := elapsed_since started in
  match result with
  | Ok response =>
      let? _ := finish_mutation_response effect response in
      let? _ := emit_event "egress_completed"
        [("auditId", JString audit_id); ("effectId", id); ("destinationId", JString (resp_destination_id response));
         ("policyGeneration", generation); ("method", JString method); ("status", json_usize (resp_status response));
         ("responseBytes", json_usize (resp_response_bytes response)); ("redirects", json_usize (resp_redirects response));
         ("secretRedactions", json_usize (resp_secret_redactions response)); ("elapsedMs", json_usize elapsed_ms)]%string in
      ok response
  | Err e =>
      let? _ := finish_mutation_error effect e in
      let? _ := emit_event "egress_failed"
        [("auditId", JString audit_id); ("effectId", id); ("destinationId", JString (prepared_destination_id prepared));
         ("policyGeneration", generation); ("method", JString method); ("errorCode", JString (error_code e));
         ("elapsedMs", json_usize elapsed_ms)]%string in
      err e
  | Panicked => Ret Panicked
  | OutOfFuel => Ret OutOfFuel
  end))).
End Runtime.
