(* ===== verification/EgressHost.v ===== *)
(** * The egress functions of the host ([tm-egress/src/host.rs], [EgressError::into_host])

    [secrets.use] issues a handle, [http.request] sends a request.  A request that
    is not a GET is shown to a person first: the preview of the approval is bounded
    and hides what looks like a credential. *)

From stdpp Require Import base tactics list gmap strings.
From Stdlib Require Import NArith ZArith Lia Ascii.
From S2P Require Import Prelude BTree Text Strings Value Render ServerBase Host Net EgressState EgressConfig EgressPolicy EgressBroker Io EgressRuntime.

(** ** Errors *)

(** The derived [Display]. *)
Definition display_egress_error (e : EgressError) : string :=
  match e with
  | Disabled => "egress is disabled"
  | InvalidConfig m => "invalid egress configuration: " ++ m
  | InvalidRequest m => "invalid egress request: " ++ m
  | Denied m => "egress policy denied: " ++ m
  | Revoked m => "egress target is revoked: " ++ m
  | Budget m => "egress budget exceeded: " ++ m
  | Timeout => "egress request timed out"
  | Dns => "egress DNS resolution failed"
  | Transport => "egress transport failed"
  | NonUtf8 => "egress response was not UTF-8 text"
  | InvalidSecretHandle => "secret handle is invalid for this session or destination"
  | SecretUnavailable => "configured secret is unavailable"
  | Audit => "egress audit persistence failed"
  | Durability m => "egress durable state failed: " ++ m
  end.

Definition into_host (e : EgressError) : HostError :=
  match e with
  | InvalidConfig message | InvalidRequest message => InvalidArgs message
  | Budget message => QuotaExceeded message
  | Timeout => Timeout_ "http request"
  | Transport | Dns | NonUtf8 => HostCall (display_egress_error e)
  | Audit => HostCall "egress audit persistence failed"
  | Durability _ => HostCall "egress durable state failed"
  | Disabled | Denied _ | Revoked _ | InvalidSecretHandle | SecretUnavailable =>
      CapabilityDenied (display_egress_error e)
  end.

(** ** The preview of a request *)

Definition MAX_APPROVAL_HEADERS : N := 32.
Definition MAX_APPROVAL_HEADER_NAME_CHARS : N := 64.
Definition MAX_APPROVAL_PATH_CHARS : N := 512.
Definition MAX_APPROVAL_PATH_SEGMENT_CHARS : N := 96.
Definition MAX_APPROVAL_QUERY_PAIRS : N := 32.
Definition MAX_APPROVAL_QUERY_KEY_CHARS : N := 64.
Definition MAX_APPROVAL_QUERY_VALUE_CHARS : N := 128.
Definition MAX_APPROVAL_JSON_BYTES : N := 64 * 1024.
Definition MAX_APPROVAL_JSON_DEPTH : N := 4.
Definition MAX_APPROVAL_JSON_NODES : N := 64.
Definition MAX_APPROVAL_JSON_TEXT_BYTES : N := 1024.
Definition MAX_APPROVAL_JSON_KEY_CHARS : N := 64.
Definition MAX_APPROVAL_JSON_STRING_CHARS : N := 128.

Definition printable (c : char) : char := if is_control_char c then 0xFFFD%N else c.

Definition bounded_text (value : string) (max_chars : N) : string :=
  let cs := chars value in
  let bounded := of_chars (List.map printable (take_n max_chars cs)) in
  if (max_chars <? len cs)%N then (bounded ++ of_chars [0x2026%N])%string else bounded.

Definition sensitive_key (key : string) : bool :=
  let normalized := lower (of_chars (List.filter is_ascii_alphanumeric (chars key))) in
  existsb (fun sensitive => str_contains sensitive normalized)
    ["authorization"; "password"; "passwd"; "credential"; "cookie"; "secret"; "token"]%string
  || existsb (String.eqb normalized) ["key"; "apikey"; "privatekey"; "accesskey"]%string.

Definition looks_like_secret (value : string) : bool :=
  let trimmed := trim value in
  let lowered := lower trimmed in
  existsb (fun prefix => starts_with prefix lowered)
    ["bearer "; "basic "; "sk-"; "ghp_"; "github_pat_"; "xox"; "akia"; "-----begin "]%string
  || (starts_with "eyj" lowered && (count_matches "." lowered =? 2)%N)
  || existsb (fun needle => str_contains needle lowered)
       ["token="; "secret="; "api_key="; "password="; "secret"]%string
  || ((32 <=? str_len trimmed)%N && negb (existsb is_whitespace (chars trimmed))
      && existsb is_ascii_digit (chars trimmed)
      && existsb (fun c => is_ascii_upper c || is_ascii_lower c) (chars trimmed)).

(** The segments of a path: the one after a sensitive name is hidden. *)
Fixpoint preview_segments (previous_sensitive : bool) (parts : list string) : list string :=
  match parts with
  | [] => []
  | segment :: rest =>
      (if previous_sensitive || looks_like_secret segment then "[REDACTED]"%string
       else bounded_text segment MAX_APPROVAL_PATH_SEGMENT_CHARS)
      :: preview_segments (sensitive_key (lower segment)) rest
  end.

Definition redacted_path_preview (path : string) : string := join "/" (preview_segments false (split_at "/" path)).

Record JsonPreviewBudget := mkPreviewBudget { nodes : N; text_bytes : N }.

Definition bounded_budget_text (value : string) (max_chars : N) (b : JsonPreviewBudget)
    : string * JsonPreviewBudget :=
  let bounded := bounded_text value (N.min max_chars (text_bytes b)) in
  (bounded, mkPreviewBudget (nodes b) (saturating_sub (text_bytes b) (str_len bounded))).

Definition spend (b : JsonPreviewBudget) : JsonPreviewBudget := mkPreviewBudget (nodes b - 1) (text_bytes b).

Section Preview.
Context `{UrlLib} `{JsonNumber}.

Definition truncated : Json := JString "[TRUNCATED]".
Definition redacted : Json := JString "[REDACTED]".

(** The loops over the values of an array and the members of an object. *)
Section Loops.
Variable preview_of : Json -> JsonPreviewBudget -> Json * JsonPreviewBudget.

Fixpoint preview_values (values : list Json) (preview : list Json) (b : JsonPreviewBudget)
    : list Json * JsonPreviewBudget :=
  match values with
  | [] => (preview, b)
  | value :: rest =>
      if (nodes b =? 0)%N then (preview ++ [truncated], b)
      else let '(p, b) := preview_of value b in preview_values rest (preview ++ [p]) b
  end.

Fixpoint preview_members (members : list (string * Json)) (preview : list (string * Json)) (b : JsonPreviewBudget)
    : list (string * Json) * JsonPreviewBudget :=
  match members with
  | [] => (preview, b)
  | (key, value) :: rest =>
      if (nodes b =? 0)%N then (bm_insert "[TRUNCATED]" (JBool true) preview, b)
      else
        let '(key_preview, b) := bounded_budget_text key MAX_APPROVAL_JSON_KEY_CHARS b in
        let '(p, b) := if sensitive_key key then (redacted, spend b) else preview_of value b in
        preview_members rest (bm_insert key_preview p preview) b
  end.
End Loops.

Fixpoint redacted_json_preview (value : Json) (depth : N) (b : JsonPreviewBudget) : Json * JsonPreviewBudget :=
  if (nodes b =? 0)%N || (MAX_APPROVAL_JSON_DEPTH <? depth)%N then (truncated, b)
  else
    let b := spend b in
    match value with
    | JNull | JBool _ | JNumber _ => (value, b)
    | JString text =>
        if looks_like_secret text then (redacted, b)
        else let '(bounded, b) := bounded_budget_text text MAX_APPROVAL_JSON_STRING_CHARS b in (JString bounded, b)
    | JArray values =>
        let '(preview, b) := preview_values (fun v b => redacted_json_preview v (depth + 1) b) values [] b in
        (JArray preview, b)
    | JObject members =>
        let '(preview, b) := preview_members (fun v b => redacted_json_preview v (depth + 1) b) members [] b in
        (JObject preview, b)
    end.

(** [serde_json::from_str]. *)
Class JsonParse := json_parse : string -> option Json.

Definition json_body_preview `{JsonParse} (body : string) : option Json :=
  if (MAX_APPROVAL_JSON_BYTES <? str_len body)%N
  then Some (Host.json_object [("truncated", JBool true); ("reason", JString "json_body_exceeds_preview_cap")]%string)
  else
    value ← json_parse body;
    Some (fst (redacted_json_preview value 0 (mkPreviewBudget MAX_APPROVAL_JSON_NODES MAX_APPROVAL_JSON_TEXT_BYTES))).

Definition query_pair_preview (pair : string * string) : Json :=
  let key := bounded_text pair.1 MAX_APPROVAL_QUERY_KEY_CHARS in
  let value := if sensitive_key key || looks_like_secret pair.2 then "[REDACTED]"%string
               else bounded_text pair.2 MAX_APPROVAL_QUERY_VALUE_CHARS in
  Host.json_object [("name", JString key); ("value", JString value)]%string.

Definition redacted_query_preview (u : url) : Json :=
  let pairs := query_pairs u in
  Host.json_object
    [("pairs", JArray (List.map query_pair_preview (take_n MAX_APPROVAL_QUERY_PAIRS pairs)));
     ("truncated", JBool (MAX_APPROVAL_QUERY_PAIRS <? len pairs)%N)]%string.

(** The text a person approves. *)
Definition approval_action `{!JsonText} `{Sha256} `{JsonParse} (request : HttpRequest) (prepared : PreparedMutation)
    : HostResult string :=
  match url_parse (req_url request) with
  | None => inr (InvalidArgs "http.request URL must be absolute")
  | Some u =>
      match host_str u with
      | None => inr (InvalidArgs "http.request URL must have a host")
      | Some host =>
          let header_names := List.map (fun h => bounded_text (lower h.1) MAX_APPROVAL_HEADER_NAME_CHARS)
                                (take_n MAX_APPROVAL_HEADERS (req_headers request)) in
          let path := bounded_text (redacted_path_preview (url_path u)) MAX_APPROVAL_PATH_CHARS in
          inl (json_text (Host.json_object
            [("operation", JString "http.request");
             ("method", JString (bounded_text (upper (req_method request)) 32));
             ("scheme", JString (url_scheme_of u)); ("host", JString host);
             ("port", json_number_option (port_or_known_default u)); ("path", JString path);
             ("pathBytes", json_usize (str_len (url_path u)));
             ("queryBytes", json_usize (from_option str_len 0%N (url_query u)));
             ("queryPreview", redacted_query_preview u); ("queryDigest", JString (query_digest prepared));
             ("bodyBytes", json_usize (from_option str_len 0%N (req_body request)));
             ("bodySha256", json_option (sha256_hex <$> req_body request));
             ("bodyPreview", default JNull (req_body request ≫= json_body_preview));
             ("headerNames", json_strings header_names);
             ("headerNamesTruncated", JBool (MAX_APPROVAL_HEADERS <? len (req_headers request))%N);
             ("usesSecretHandle", JBool match req_auth request with Some _ => true | None => false end);
             ("destinationId", JString (prepared_destination_id prepared));
             ("destinationVersion", json_usize (prepared_destination_version prepared));
             ("secretId", json_option (snapshot_secret_id <$> prepared_secret prepared));
             ("secretVersion", json_number_option (snapshot_secret_version <$> prepared_secret prepared));
             ("targetDigest", JString (prepared_target_digest prepared));
             ("requestDigest", JString (prepared_request_digest prepared))]%string))
      end
  end.
End Preview.

(** ** The functions *)

Section Functions.
Context `{UrlLib} `{JsonNumber} `{!JsonText} `{!JsonParse} `{Sha256} `{HttpLib} `{IpNetLib}.

(** The arguments are read by the derived [Deserialize] of the records. *)
Class ArgsCodec := {
  request_from_value : Json -> string + HttpRequest;
  name_from_value : Json -> string + string;
}.
Context `{!ArgsCodec}.

Definition response_to_json (r : HttpResponse) : Json :=
  Host.json_object
    [("status", json_usize (resp_status r)); ("body", JString (resp_body r));
     ("contentType", json_option (resp_content_type r)); ("destinationId", JString (resp_destination_id r));
     ("responseBytes", json_usize (resp_response_bytes r)); ("redirects", json_usize (resp_redirects r));
     ("secretRedactions", json_usize (resp_secret_redactions r))]%string.

Definition status_to_json (s : EgressMutationStatus) : Json :=
  JString match s with
          | Started => "started"
          | Succeeded => "succeeded"
          | MutationFailed => "failed"
          | Uncertain => "uncertain"
          end.

Definition mutation_replay_receipt (effect : EgressMutationRecord) : Json :=
  let i := intent effect in
  Host.json_object
    [("replayed", JBool true); ("effectId", JString (effect_id i)); ("status", status_to_json (status effect));
     ("destinationId", JString (intent_destination_id i)); ("destinationVersion", json_usize (destination_version i));
     ("targetDigest", JString (target_digest i)); ("requestDigest", JString (request_digest i));
     ("resultDigest", json_option (result_digest effect)); ("resultBytes", json_number_option (result_bytes effect));
     ("errorCode", json_option (record_error_code effect)); ("errorDigest", json_option (error_digest effect))]%string.

(** Results of host functions, sequenced with [?]. *)
Definition HostAct (A : Type) : Type := Io Answer (outcome HostError A).

Definition host_bind {A B} (m : HostAct A) (k : A -> HostAct B) : HostAct B :=
  io_bind (fun r =>
    match r with
    | Ok a => k a
    | Err e => Ret (Err e)
    | Panicked => Ret Panicked
    | OutOfFuel => Ret OutOfFuel
    end) m.

(** [.map_err(|error| error.into_host())]. *)
Definition to_host {A} (m : Act A) : HostAct A :=
  io_bind (fun r =>
    Ret match r with
        | Ok a => Ok a
        | Err e => Err (into_host e)
        | Panicked => Panicked
        | OutOfFuel => OutOfFuel
        end) m.

Definition of_host {A} (r : HostResult A) : HostAct A :=
  Ret match r with inl a => Ok a | inr e => Err e end.

Definition decode_args {A} (r : string + A) : HostAct A :=
  Ret match r with inl message => Err (InvalidArgs message) | inr a => Ok a end.

(** [InvocationCtx::require_approval]. *)
Definition request_approval (ctx : InvocationCtx) (action : string) : HostAct unit :=
  let* decision := ask (QApproval action (approval_timeout ctx)) in
  Ret match decision with
      | inl Approved => Ok tt
      | inl Host.Denied => Err (ApprovalDenied action)
      | inr e => Err e
      end.

(** [SecretsUseFn::call]. *)
Definition secrets_use (args : Json) (ctx : InvocationCtx) : HostAct Json :=
  host_bind (decode_args (name_from_value args)) (fun name =>
  host_bind (to_host (issue_secret_handle ctx name)) (fun handle =>
  Ret (Ok (Host.json_object [("token", JString (token handle))]%string)))).

Definition execute_and_encode (ctx : InvocationCtx) (request : HttpRequest) : HostAct Json :=
  host_bind (to_host (execute ctx request)) (fun response => Ret (Ok (response_to_json response))).

(** A request that is not a GET. *)
Definition mutate (ctx : InvocationCtx) (request : HttpRequest) : HostAct Json :=
  host_bind (to_host (prepare_mutation ctx request)) (fun before =>
  host_bind (of_host (approval_action request before)) (fun action =>
  host_bind (request_approval ctx action) (fun _ =>
  host_bind (to_host (prepare_mutation ctx request)) (fun after =>
  if negb (prepared_eqb before after)
  then Ret (Err (CapabilityDenied "egress policy or secret handle changed during approval"))
  else
    host_bind (to_host (begin_mutation ctx after)) (fun execution =>
    match execution with
    | MExecute effect =>
        host_bind (to_host (execute_prepared_mutation ctx request after effect)) (fun response =>
        Ret (Ok (response_to_json response)))
    | MReplay effect => Ret (Ok (mutation_replay_receipt effect))
    end))))).

(** [HttpRequestFn::call]. *)
Definition http_request (args : Json) (ctx : InvocationCtx) : HostAct Json :=
  host_bind (decode_args (request_from_value args)) (fun request =>
  if eq_ignore_ascii_case (req_method request) "GET" then execute_and_encode ctx request
  else mutate ctx request).
End Functions.
