(* ===== verification/EgressSafety.v ===== *)
(** * What leaves the host

    Every request that [http.request] sends was authorized by the policy it read,
    granted to its caller, vetted, budgeted and, unless it is a GET, approved.  First
    the rules for reasoning about requests. *)

From stdpp Require Import base tactics list gmap strings.
From Stdlib Require Import NArith ZArith Lia Ascii.
From S2P Require Import Prelude BTree Text Value Strings Host Render EgressState ServerBase Net EgressConfig EgressPolicy PolicyFacts EgressBroker Io EgressRuntime EgressHost.

(** ** Reasoning about requests

    Rules for the assertions of [Io] at the operations of the runtime, and what the
    parts of a request establish: facts about questions already answered stay true
    as the history grows. *)

Section Logic.
Context `{UrlLib} `{JsonNumber}.

Abbreviation History := (list (Event Answer)).

(** ** Rules *)

Context (may : History -> forall q, Answer q -> Prop).

Lemma holds_ask {A} pre (post : History -> A -> Prop) h q (k : Answer q -> Io Answer A) :
  pre h q -> (forall r, may h q r -> holds may pre post (h ++ [asked q r]) (k r)) ->
  holds may pre post h (io_bind k (ask q)).
Proof. intros Hq Hk. split; [exact Hq|exact Hk]. Qed.

(** A result that is a value with a property, or an error: no panic, and the fuel
    was enough. *)
Definition yields {E A} (spec : History -> A -> Prop) (h : History) (r : outcome E A) : Prop :=
  returns r /\ forall a, r = Ok a -> spec h a.

Lemma holds_act {A B} pre (spec : History -> A -> Prop) (post : History -> EgressResult B -> Prop) h
    (m : Act A) (k : A -> Act B) :
  holds may pre (yields spec) h m ->
  (forall h' a, h `prefix_of` h' -> spec h' a -> holds may pre post h' (k a)) ->
  (forall h' e, h `prefix_of` h' -> post h' (Err e)) ->
  holds may pre post h (act_bind m k).
Proof.
  intros Hm Hk He. apply holds_bind. eapply holds_mono; [exact Hm|done|].
  intros h' [a|e| |] Hp [Hr Ha]; cbn; try done; auto.
Qed.

Lemma holds_pure {A B} pre (post : History -> EgressResult B -> Prop) h (r : EgressResult A) (k : A -> Act B) :
  returns r -> (forall a, r = Ok a -> holds may pre post h (k a)) -> (forall e, r = Err e -> post h (Err e)) ->
  holds may pre post h (act_bind (Ret r) k).
Proof. destruct r as [a|e| |]; cbn; intros Hr Hk He; try done; auto. Qed.

(** An act of which something is known also when it fails. *)
Lemma holds_act_known {A B} pre (Q : History -> Prop) (post : History -> EgressResult B -> Prop) h
    (m : Act A) (k : A -> Act B) :
  holds may pre (fun h' r => returns r /\ Q h') h m ->
  (forall h' a, h `prefix_of` h' -> Q h' -> holds may pre post h' (k a)) ->
  (forall h' e, h `prefix_of` h' -> Q h' -> post h' (Err e)) ->
  holds may pre post h (act_bind m k).
Proof.
  intros Hm Hk He. apply holds_bind. eapply holds_mono; [exact Hm|done|].
  intros h' [a|e| |] Hp [Hr HQ]; cbn; try done; auto.
Qed.

(** A part whose result is matched on. *)
Lemma holds_then {A B} pre (spec : History -> A -> Prop) (post : History -> B -> Prop) h (t : Io Answer A)
    (k : A -> Io Answer B) :
  holds may pre spec h t -> (forall h' a, h `prefix_of` h' -> spec h' a -> holds may pre post h' (k a)) ->
  holds may pre post h (io_bind k t).
Proof. intros Ht Hk. apply holds_bind. eapply holds_mono; [exact Ht|done|]. auto. Qed.

Lemma yields_mono {E A} (spec spec' : History -> A -> Prop) h (r : outcome E A) :
  yields spec h r -> (forall a, spec h a -> spec' h a) -> yields spec' h r.
Proof. intros [Hr Ha] Hs. split; [done|]. auto. Qed.

Lemma yields_ok {E A} (spec : History -> A -> Prop) h a : spec h a -> yields (E := E) spec h (Ok a).
Proof. intros Hs. split; [done|]. by intros a' [= <-]. Qed.

Lemma yields_err {E A} (spec : History -> A -> Prop) h (e : E) : yields spec h (Err e).
Proof. by split. Qed.

(** ** Questions already answered *)

Definition saw (q : Query) (r : Answer q) (h : History) : Prop := In (asked q r) h.

Lemma saw_mono q r h h' : h `prefix_of` h' -> saw q r h -> saw q r h'.
Proof. intros [k ->] Hs. apply in_or_app. by left. Qed.

Lemma saw_last q r h : saw q r (h ++ [asked q r]).
Proof. apply in_or_app. right. by left. Qed.

Lemma prefix_snoc (h : History) e : h `prefix_of` h ++ [e].
Proof. by exists [e]. Qed.
End Logic.

(** ** Pure parts that end *)

Lemma returns_bind {E A B} (m : outcome E A) (k : A -> outcome E B) :
  returns m -> (forall a, m = Ok a -> returns (k a)) -> returns (m ≫= k).
Proof. destruct m; cbn; auto. Qed.

Lemma returns_fail_if b e : returns (fail_if b e).
Proof. by destruct b. Qed.

Lemma returns_try_fold {E A S} (body : S -> A -> outcome E S) xs : forall acc,
  (forall acc x, returns (body acc x)) -> returns (try_fold body acc xs).
Proof.
  induction xs as [|x xs IH]; intros acc Hb; cbn [try_fold]; [done|]. apply returns_bind; [apply Hb|]. intros a _. by apply IH.
Qed.

Create HintDb egress.
#[export] Hint Resolve saw_last prefix_snoc returns_fail_if returns_try_fold yields_ok yields_err : egress.

(** Shows that a chain of checks ends. *)
Ltac ends :=
  repeat first
    [ apply returns_fail_if | apply returns_try_fold; intros | apply returns_bind; [|intros]
    | progress cbv beta zeta | case_match | done ].

(** The crate [http] folds the names of headers to lower case. *)
Class HttpLaws `{HttpLib} := {
  header_name_lower name folded : header_name name = Some folded -> folded = lower name;
}.

Section Safety.
Context `{UrlLib} `{JsonNumber} `{!JsonText} `{!JsonParse} `{Sha256} `{HttpLib} `{IpNetLib} `{!ArgsCodec}.
Context (ctx : InvocationCtx).

Abbreviation History := (list (Event Answer)).

Definition granted (name : string) : Prop := In name (allowed (ctx_grants ctx)).

(** A secret of the policy whose handle belongs to the caller. *)
Definition held (st : RuntimeState) (s : EgressSecretConfig) (h : History) : Prop :=
  In s (valid_secrets (rt_config st)).*2
  /\ exists token record, saw (QFindHandle token) (Some record) h
       /\ handle_session record = session_id ctx /\ handle_actor record = actor_id ctx
       /\ bm_get (handle_secret record) (valid_secrets (rt_config st)) = Some s
       /\ handle_version record = secret_version s.

(** A secret that may go to a destination. *)
Definition may_go_to (st : RuntimeState) (s : EgressSecretConfig) (d : EgressDestinationConfig) : Prop :=
  ((secret_id s, secret_version s) ∉ revoked_secrets st)
  /\ granted ("secrets.use:" ++ secret_id s) /\ In (dest_id d) (secret_destinations s).

Definition usable (st : RuntimeState) (s : ResolvedSecret) (h : History) : Prop :=
  held st (resolved_config s) h /\ saw (QEnv (secret_env (resolved_config s))) (Some (resolved_value s)) h.

(** The headers that leave: those the destination allows, and the one that carries
    the secret. *)
Definition headers_ok (st : RuntimeState) (d : EgressDestinationConfig) (headers : list (string * string))
    (h : History) : Prop :=
  exists secret, match secret with
                 | None => True
                 | Some s => usable st s h /\ may_go_to st (resolved_config s) d
                 end
    /\ Forall (fun header => In header.1 (allowed_request_headers d) /\ caller_header_forbidden header.1 = false
         \/ exists s, secret = Some s /\ secret_header s = Ok header) headers.

Definition send_ok (permission : History -> Outgoing -> Prop) (h : History) (out : Outgoing) : Prop :=
  session_id ctx <> ""%string /\ session_id ctx <> "default"%string /\ permission h out
  /\ exists st d,
    saw QSnapshot st h /\ valid_enabled (rt_config st) = true
    /\ In d (valid_destinations (rt_config st)).*2
    /\ bad_url_shape (out_url out) = false /\ admits (out_url out) (out_method out) d
    /\ granted ("egress.destination:" ++ dest_id d)
    /\ ((dest_id d, dest_version d) ∉ revoked_destinations st)
    /\ headers_ok st d (out_headers out) h
    /\ (exists answers, saw (QTimed (QResolve (dest_host d) (dest_port d))) (Some (Ok answers)) h
          /\ validate_resolved_addresses answers (dest_port d) (allow_private_ips d) = Ok (out_addresses out))
    /\ out_host out = dest_host d /\ (out_pinned out = true <-> parse_ip (dest_host d) = None)
    /\ (exists budget reservation, saw (QReserve budget) (Ok reservation) h
          /\ req_session_id budget = session_id ctx /\ req_destination_id budget = dest_id d
          /\ (req_request_bytes budget <= dest_max_request_bytes d)%N
          /\ req_response_reserved budget = dest_max_response_bytes d).

Definition send_pre (permission : History -> Outgoing -> Prop) (h : History) (q : Query) : Prop :=
  match q with
  | QSend out | QTimed (QSend out) => send_ok permission h out
  | QBegin _ => False
  | _ => True
  end.

(** The answers of the stores and of the resolver are results: no call panics.  The
    policy in force is a validated one. *)
Fixpoint proper (q : Query) : Answer q -> Prop :=
  match q with
  | QIssueHandle _ _ _ _ _ | QReserve _ | QSettle _ _ _ | QBegin _ | QFinish _ _ _ _ _ _ | QResolve _ _ => returns
  | QTimed q => from_option (proper q) True
  | QSnapshot => fun st => exists allow_http, policy_wf allow_http (rt_config st)
  | _ => fun _ => True
  end.

Definition any_answer (h : History) (q : Query) (r : Answer q) : Prop := proper q r.

(** ** Secrets *)

Lemma held_mono st s h h' : h `prefix_of` h' -> held st s h -> held st s h'.
Proof. intros Hp (Hin & tok & record & Hs & Hrest). split; [done|]. exists tok, record. split; [|done]. by eapply saw_mono. Qed.

Lemma usable_mono st s h h' : h `prefix_of` h' -> usable st s h -> usable st s h'.
Proof. intros Hp [Hh Hs]. split; [by eapply held_mono|by eapply saw_mono]. Qed.

Lemma grant_ok name : require_exact_grant (ctx_grants ctx) name = Ok tt -> granted name.
Proof.
  unfold require_exact_grant. rewrite fail_if_ok, negb_false_iff, existsb_exists.
  intros (x & Hx & ->%String.eqb_eq). done.
Qed.

Lemma secret_for_config_ok st s d :
  ensure_secret_not_revoked st s = Ok tt -> authorize_secret_for_config ctx s d = Ok tt -> may_go_to st s d.
Proof.
  unfold ensure_secret_not_revoked, authorize_secret_for_config. rewrite fail_if_ok, bool_decide_eq_false.
  intros Hr Ha. apply obind_ok in Ha as ([] & Hg & Ha). apply fail_if_ok, negb_false_iff, bs_contains_true in Ha.
  split; [done|]. split; [by apply grant_ok|done].
Qed.

Lemma snd_In {V} k (v : V) m : bm_get k m = Some v -> In v m.*2.
Proof. intros Hg%bm_get_In. by apply (in_map snd) in Hg. Qed.

Lemma returns_authorize_secret s d : returns (authorize_secret_for_config ctx s d).
Proof. unfold authorize_secret_for_config, require_exact_grant. ends. Qed.

Lemma snapshot_spec pre st handle d h :
  (forall h token, pre h (QFindHandle token)) ->
  holds any_answer pre (yields (fun h' (r : SecretSnapshot * EgressSecretConfig) =>
    held st r.2 h' /\ may_go_to st r.2 d)) h (resolve_secret_snapshot ctx st handle d).
Proof.
  intros Hpre. apply holds_ask; [apply Hpre|]. intros [record|] _; [|apply yields_err].
  destruct (String.eqb_spec (handle_session record) (session_id ctx)) as [Es|]; [|apply yields_err].
  destruct (bool_decide_reflect (handle_actor record = actor_id ctx)) as [Ea|]; [|apply yields_err]. cbn [negb orb].
  destruct (bm_get _ _) as [s|] eqn:Eg; [|apply yields_err].
  destruct (N.eqb_spec (secret_version s) (handle_version record)) as [Ev|]; [|apply yields_err]. cbn [negb].
  apply holds_pure; [unfold ensure_secret_not_revoked; ends|intros [] Hr|intros; apply yields_err].
  apply holds_pure; [apply returns_authorize_secret|intros [] Ha|intros; apply yields_err].
  apply yields_ok. split; [|by apply secret_for_config_ok]. split; [by eapply snd_In|]. exists (token handle), record.
  split; [apply saw_last|]. by rewrite <- Ev.
Qed.

Lemma resolve_spec pre st handle d h :
  (forall h token, pre h (QFindHandle token)) -> (forall h name, pre h (QEnv name)) ->
  holds any_answer pre (yields (fun h' s => usable st s h' /\ may_go_to st (resolved_config s) d)) h
    (resolve_secret ctx st handle d).
Proof.
  intros Hf He. eapply holds_act; [by apply snapshot_spec| |intros; apply yields_err].
  intros h' [snapshot s] Hp [Hheld Hgo]. cbn in Hheld, Hgo.
  apply holds_ask; [apply He|]. intros [value|] _; [|apply yields_err].
  case_match; [apply yields_err|]. apply yields_ok. split; [|done]. split; [|apply saw_last].
  eapply held_mono; [apply prefix_snoc|done].
Qed.

(** ** Headers *)

Lemma returns_caller_headers caller : returns (caller_headers caller).
Proof. unfold caller_headers. ends. Qed.

Lemma returns_validate_headers d caller : returns (validate_request_headers d caller).
Proof.
  unfold validate_request_headers. case_match; [done|]. apply returns_bind; [|intros; apply returns_fail_if].
  apply returns_try_fold. intros acc [name value]. unfold check_header. ends.
Qed.

Lemma returns_request_headers d caller secret : returns (request_headers d caller secret).
Proof.
  unfold request_headers. apply returns_bind; [apply returns_validate_headers|intros _ _].
  apply returns_bind; [apply returns_caller_headers|intros headers _]. destruct secret as [s|]; [|done].
  apply returns_bind; [|intros [name value] _; by case_match]. unfold secret_header. by repeat case_match.
Qed.

Lemma caller_headers_ok `{!HttpLaws} d caller headers :
  validate_request_headers d caller = Ok tt -> caller_headers caller = Ok headers ->
  Forall (fun h => In h.1 (allowed_request_headers d) /\ caller_header_forbidden h.1 = false) headers.
Proof.
  intros (_ & Hall & _)%request_headers_ok Hrun. rewrite List.Forall_forall in Hall.
  assert (Hgen : forall xs acc, (forall x, In x xs -> In x caller) ->
    Forall (fun h => In h.1 (allowed_request_headers d) /\ caller_header_forbidden h.1 = false) acc ->
    try_fold (fun headers header =>
      match header_name header.1 with
      | None => Err (InvalidRequest "invalid request header")
      | Some name =>
          if header_value header.2 then Ok (bm_insert name header.2 headers)
          else Err (InvalidRequest "invalid request header value")
      end) acc xs = Ok headers ->
    Forall (fun h => In h.1 (allowed_request_headers d) /\ caller_header_forbidden h.1 = false) headers).
  { clear Hrun. induction xs as [|x xs IH]; intros acc Hin Hacc; cbn [try_fold]; [by intros [= <-]|].
    intros (acc' & Hx & Hrest)%obind_ok. destruct (header_name x.1) as [name|] eqn:En; [|done].
    destruct (header_value x.2); [|done]. injection Hx as <-. apply header_name_lower in En as ->.
    eapply IH; [|apply Forall_bm_insert; [|exact Hacc]|exact Hrest]; [intros y Hy; apply Hin; by right|].
    cbn [fst]. destruct (Hall x) as (Hf & Ha & _); [apply Hin; by left|]. split; [done|]. by rewrite forbidden_lower. }
  by eapply (Hgen caller []).
Qed.

Lemma request_headers_allowed `{!HttpLaws} st d caller secret headers h :
  request_headers d caller secret = Ok headers ->
  match secret with None => True | Some s => usable st s h /\ may_go_to st (resolved_config s) d end ->
  headers_ok st d headers h.
Proof.
  intros Hr Hs. exists secret. split; [done|]. unfold request_headers in Hr.
  apply obind_ok in Hr as ([] & Hv & Hr). apply obind_ok in Hr as (hs & Hc & Hr).
  pose proof (caller_headers_ok _ _ _ Hv Hc) as Hall. destruct secret as [s|].
  - apply obind_ok in Hr as ([name value] & Hsh & Hr). destruct (header_value value); [|done]. injection Hr as <-.
    apply Forall_bm_insert; [right; by exists s|]. eapply Forall_impl; [exact Hall|]. by left.
  - injection Hr as <-. eapply Forall_impl; [exact Hall|]. by left.
Qed.

(** ** One hop *)

(** A destination that the policy [st] authorized for a method. *)
Definition authorized (st : RuntimeState) (method : string) (a : AuthorizedDestination) : Prop :=
  exists text, authorize (rt_config st) text method = Ok a.

(** What the caller holds before a hop. *)
Definition hop_ready (st : RuntimeState) (method : string)
    (secret : option ResolvedSecret) (a : AuthorizedDestination) (h : History) : Prop :=
  session_id ctx <> ""%string /\ session_id ctx <> "default"%string
  /\ saw QSnapshot st h /\ authorized st method a
  /\ granted ("egress.destination:" ++ dest_id (auth_policy a))
  /\ ((dest_id (auth_policy a), dest_version (auth_policy a)) ∉ revoked_destinations st)
  /\ match secret with
     | None => True
     | Some s => usable st s h /\ may_go_to st (resolved_config s) (auth_policy a)
     end
  /\ (exists budget reservation, saw (QReserve budget) (Ok reservation) h
        /\ req_session_id budget = session_id ctx /\ req_destination_id budget = dest_id (auth_policy a)
        /\ (req_request_bytes budget <= dest_max_request_bytes (auth_policy a))%N
        /\ req_response_reserved budget = dest_max_response_bytes (auth_policy a)).

Definition keeps (P : History -> Prop) : Prop := forall h h', h `prefix_of` h' -> P h -> P h'.

(** A permission that requests with a method have, and keep. *)
Definition permits (permission : History -> Outgoing -> Prop) (method : string) (h : History) : Prop :=
  forall out h', h `prefix_of` h' -> out_method out = method -> permission h' out.

Lemma permits_mono permission method : keeps (permits permission method).
Proof. intros h h' Hp Hh out h2 Hp2. apply Hh. by etrans. Qed.

Lemma hop_ready_mono st method secret a : keeps (hop_ready st method secret a).
Proof.
  intros h h' Hp (? & ? & Hs & ? & ? & ? & Hsec & budget & res & Hres & Hrest).
  do 2 (split; [done|]). split; [by eapply saw_mono|]. do 3 (split; [done|]). split.
  - destruct secret as [s|]; [|done]. destruct Hsec. split; [by eapply usable_mono|done].
  - exists budget, res. split; [by eapply saw_mono|done].
Qed.

(** What a response that is not a redirect came from. *)
Definition hop_result (a : AuthorizedDestination) (h : History) (r : HopResponse) : Prop :=
  match r with
  | HopRedirect _ => True
  | HopFinal status body content_type headers response_bytes redactions =>
      (exists out peer, saw (QTimed (QSend out)) (Some (Some peer)) h /\ peer_status peer = status)
      /\ ((dest_max_response_bytes (auth_policy a) < usize_max)%N ->
          (response_bytes <= dest_max_response_bytes (auth_policy a))%N)
  end.

Lemma read_body_bound cap chunks body :
  (cap < usize_max)%N -> read_body cap chunks = Ok body -> (str_len body <= cap)%N.
Proof.
  unfold read_body. intros Hcap Hrun.
  apply (try_fold_ind _ (fun body _ => (str_len body <= cap)%N) _ _ _ []) in Hrun; [done| |apply N.le_0_l].
  intros acc visited [chunk|] acc' Hacc; [|done]. destruct (N.ltb_spec cap (saturating_add (str_len acc) (str_len chunk))); [done|].
  intros [= <-]. unfold str_len, saturating_add in *. rewrite str_length_app. lia.
Qed.

Lemma returns_vet addresses port allow : forall validated, returns (vet_addresses addresses port allow validated).
Proof. induction addresses as [|a rest IH]; intros validated; cbn; [done|]. by repeat case_match. Qed.

Lemma returns_validate_resolved addresses port allow : returns (validate_resolved_addresses addresses port allow).
Proof. destruct addresses as [|a rest]; [done|]. apply returns_vet. Qed.

Lemma returns_exposed headers : returns (exposed_response_headers headers).
Proof.
  unfold exposed_response_headers. apply returns_bind; [|by intros [] _]. apply returns_try_fold.
  intros [exposed total] name. unfold expose_header. ends.
Qed.

Lemma returns_read_body cap chunks : returns (read_body cap chunks).
Proof. unfold read_body. ends. Qed.

Lemma receive_spec pre a secret out peer h :
  (forall h, pre h (QTimed QStream)) -> saw (QTimed (QSend out)) (Some (Some peer)) h ->
  holds any_answer pre (fun h' r => from_option (yields (hop_result a) h') True r) h
    (with_deadline (receive a secret peer)).
Proof.
  intros Hpre Hsaw. unfold receive. destruct (is_redirection _).
  { repeat case_match; cbn; auto using yields_ok, yields_err. by apply yields_ok. }
  case_match; [apply yields_err|].
  pose proof (returns_exposed (peer_headers peer)) as Hx.
  destruct (exposed_response_headers (peer_headers peer)) as [exposed|e| |]; [|apply yields_err|done..].
  cbn. split; [apply Hpre|]. intros [chunks|] _; [|done].
  destruct (read_body _ chunks) as [bytes|e| |] eqn:Eb; [|apply yields_err|..].
  - cbn. unfold from_utf8. destruct (String.eqb (valid_prefix bytes) bytes); [|apply yields_err].
    cbn. destruct (redact_response _ _ _ _) as [[[body ct] hs] n].
    apply yields_ok. split; [|intros Hc; by eapply read_body_bound]. exists out, peer. split; [|done].
    eapply saw_mono; [apply prefix_snoc|done].
  - by pose proof (returns_read_body (dest_max_response_bytes (auth_policy a)) chunks) as Hr; rewrite Eb in Hr.
  - by pose proof (returns_read_body (dest_max_response_bytes (auth_policy a)) chunks) as Hr; rewrite Eb in Hr.
Qed.

Lemma hop_spec `{!HttpLaws} permission st method request secret a h :
  permits permission method h -> hop_ready st method secret a h ->
  holds any_answer (send_pre permission) (fun h' r => from_option (yields (hop_result a) h') True r) h
    (with_deadline (perform_hop a method request secret)).
Proof.
  intros Hperm Hready. unfold perform_hop. cbn. split; [done|].
  intros [[answers|e| |]|] Hans; [|apply yields_err|done..]. cbn.
  destruct (validate_resolved_addresses _ _ _) as [addresses|e| |] eqn:Ev; [|apply yields_err|..].
  2,3: by pose proof (returns_validate_resolved answers (dest_port (auth_policy a)) (allow_private_ips (auth_policy a))) as Hr;
    rewrite Ev in Hr.
  cbn. split; [done|]. intros [] _; [|apply yields_err]. cbn.
  pose proof (returns_request_headers (auth_policy a) (req_headers request) secret) as Hrh.
  destruct (request_headers _ _ _) as [headers|e| |] eqn:Eh; [|apply yields_err|done..]. cbn. split.
  - set (h2 := (_ ++ _) ++ _). assert (Hp : h `prefix_of` h2) by (unfold h2; rewrite <- app_assoc; by eexists).
    pose proof (hop_ready_mono _ _ _ _ _ _ Hp Hready) as (Hs1 & Hs2 & Hsnap & (text & Hauth) & Hg & Hrev & Hsec & Hres).
    apply authorize_ok in Hauth as (Hen & _ & _ & Hshape & Hin & Hadm).
    split; [done|]. split; [done|]. split; [by apply Hperm|]. exists st, (auth_policy a). cbn.
    do 7 (split; [done|]). split; [by eapply request_headers_allowed|]. split; [|split; [done|split; [|done]]].
    + exists answers. split; [|done]. unfold h2. eapply saw_mono; [apply prefix_snoc|]. apply saw_last.
    + by destruct (parse_ip _).
  - intros [[peer|]|] _; [|apply yields_err|done]. eapply receive_spec; [done|]. apply saw_last.
Qed.

(** ** Hops *)

Definition hop_start (st : RuntimeState) (method : string) (secret : option ResolvedSecret)
    (a : AuthorizedDestination) (h : History) : Prop :=
  session_id ctx <> ""%string /\ session_id ctx <> "default"%string /\ saw QSnapshot st h /\ authorized st method a
  /\ match secret with None => True | Some s => usable st s h end.

Lemma hop_start_mono st method secret a : keeps (hop_start st method secret a).
Proof.
  intros h h' Hp (? & ? & Hs & ? & Hsec). do 2 (split; [done|]). split; [by eapply saw_mono|]. split; [done|].
  destruct secret; [by eapply usable_mono|done].
Qed.

(** A response that a peer gave, within the bounds of the destination. *)
Definition responded (h : History) (r : HttpResponse) : Prop :=
  exists out peer, saw (QTimed (QSend out)) (Some (Some peer)) h /\ peer_status peer = resp_status r.

Lemma returns_size_or_overflow o : returns (size_or_overflow o).
Proof. by destruct o. Qed.

Lemma returns_request_size request u secret : returns (request_size_for_url request u secret).
Proof.
  unfold request_size_for_url, request_size_without_secret_value.
  apply returns_bind; [apply returns_size_or_overflow|intros bytes _]. destruct secret as [s|]; [|done].
  apply returns_size_or_overflow.
Qed.

Lemma returns_authorize_destination st d : returns (authorize_destination ctx st d).
Proof. unfold authorize_destination, require_exact_grant. ends. Qed.

Lemma returns_admit_hop st request secret a : returns (admit_hop ctx st request secret a).
Proof.
  unfold admit_hop. apply returns_bind; [apply returns_authorize_destination|intros _ _].
  apply returns_bind.
  { destruct secret; [|done]. unfold authorize_secret_for_destination, ensure_secret_not_revoked.
    apply returns_bind; [apply returns_fail_if|intros _ _; apply returns_authorize_secret]. }
  intros _ _. apply returns_bind; [apply returns_request_size|intros bytes _]. ends.
Qed.

Lemma returns_authorize config text method : returns (authorize config text method).
Proof.
  unfold authorize. do 2 (case_match; [done|]). destruct (url_parse text) as [u|]; [|done].
  destruct (bad_url_shape u) eqn:Es; [done|]. destruct (host_str u) eqn:Eh; [by repeat case_match|].
  exfalso. revert Es. unfold bad_url_shape. rewrite Eh. by destruct (cannot_be_a_base u).
Qed.

Lemma returns_next_hop st expected method redirects cap a location :
  returns (next_hop st expected method redirects cap a location).
Proof.
  unfold next_hop. do 2 (apply returns_bind; [apply returns_fail_if|intros _ _]).
  destruct (url_join _ _) as [u|]; [|done]. apply returns_bind; [apply returns_authorize|intros next _]. ends.
Qed.

Lemma admit_hop_ok st request secret a bytes timeout :
  admit_hop ctx st request secret a = Ok (bytes, timeout) ->
  granted ("egress.destination:" ++ dest_id (auth_policy a))
  /\ ((dest_id (auth_policy a), dest_version (auth_policy a)) ∉ revoked_destinations st)
  /\ match secret with None => True | Some s => may_go_to st (resolved_config s) (auth_policy a) end
  /\ (bytes <= dest_max_request_bytes (auth_policy a))%N
  /\ (0 < timeout <= request_timeout_ms (auth_policy a))%N.
Proof.
  unfold admit_hop. intros Ha. apply obind_ok in Ha as ([] & Hd & Ha). apply obind_ok in Ha as ([] & Hs & Ha).
  apply obind_ok in Ha as (n & _ & Ha). checks Ha. injection Ha as <- <-.
  unfold authorize_destination in Hd. apply obind_ok in Hd as ([] & Hg%grant_ok & Hr).
  apply fail_if_ok in Hr. rewrite bool_decide_eq_false in Hr. split; [done|]. split; [done|]. split.
  { destruct secret as [s|]; [|done]. unfold authorize_secret_for_destination in Hs.
    apply obind_ok in Hs as ([] & He & Hconf). by apply secret_for_config_ok. }
  apply orb_false_iff in Hc0 as [Hz Hle]. apply N.ltb_ge in Hc, Hle. apply N.eqb_neq in Hz. lia.
Qed.

Lemma next_hop_ok st expected method redirects cap a location next :
  next_hop st expected method redirects cap a location = Ok next ->
  authorized st method next /\ (redirects < cap)%N /\ (method = "GET" \/ method = "HEAD")%string
  /\ (dest_id (auth_policy next) = dest_id (auth_policy a)
      \/ In (dest_id (auth_policy next)) (redirect_to (auth_policy a)))
  /\ match expected with Some id => dest_id (auth_policy next) = id | None => True end.
Proof.
  unfold next_hop. intros Hn. checks Hn. destruct (url_join _ _) as [u|]; [|done].
  apply obind_ok in Hn as (n & Ha & Hn). checks Hn. injection Hn as <-. split; [by eexists|].
  split; [by apply N.leb_gt|]. split.
  { destruct (String.eqb_spec method "GET"); [by left|]. destruct (String.eqb_spec method "HEAD"); [by right|done]. }
  split.
  - apply andb_false_iff in Hc2 as [Hc2|Hc2]; apply negb_false_iff in Hc2; [left; by apply String.eqb_eq|right].
    by apply bs_contains_true.
  - destruct expected; [|done]. by apply negb_false_iff, String.eqb_eq in Hc1.
Qed.

Lemma token_spec pre n h : (forall h, pre h (QToken n)) ->
  holds any_answer pre (yields (fun _ _ => True)) h (random_token n).
Proof. intros Hp. split; [apply Hp|]. intros [token|] _; [by apply yields_ok|apply yields_err]. Qed.

Lemma elapsed_spec pre started h : (forall h, pre h QNow) -> holds any_answer pre (fun _ _ => True) h (elapsed_since started).
Proof. intros Hp. split; [apply Hp|]. done. Qed.

Lemma event_spec pre event payload h : (forall h payload, pre h (QEvent event payload)) ->
  holds any_answer pre (yields (fun _ _ => True)) h (emit_event event payload).
Proof. intros Hp. split; [apply Hp|]. intros [[]|] _; [by apply yields_ok|apply yields_err]. Qed.

(** The request for the budget of a hop. *)
Definition budgeted (d : EgressDestinationConfig) (bytes : N) (h : History) (b : EgressBudgetRequest) : Prop :=
  req_session_id b = session_id ctx /\ req_destination_id b = dest_id d /\ req_request_bytes b = bytes
  /\ req_response_reserved b = dest_max_response_bytes d.

Lemma budget_spec pre limits d bytes timeout h : (forall h n, pre h (QToken n)) ->
  holds any_answer pre (yields (budgeted d bytes)) h (budget_request ctx limits d bytes timeout).
Proof.
  intros Hp. eapply holds_act; [by apply token_spec| |intros; apply yields_err].
  intros h' id _ _. by apply yields_ok.
Qed.

(** The end of a hop: the reservation is settled, whatever came of it. *)
Lemma settle_spec {A} pre (post : History -> EgressResult A -> Prop) reservation n elapsed (k : Act A) h :
  (forall h q, match q with QSettle _ _ _ => True | _ => False end -> pre h q) ->
  (forall h' e, post h' (Err e)) -> (forall h', h `prefix_of` h' -> holds any_answer pre post h' k) ->
  holds any_answer pre post h
    (io_bind (fun settled => act_bind (Ret settled) (fun _ : unit => k)) (ask (QSettle reservation n elapsed))).
Proof.
  intros Hp He Hk. apply holds_ask; [by apply Hp|]. intros r Hr.
  apply holds_pure; [exact Hr| |by intros]. intros _ _. apply Hk. apply prefix_snoc.
Qed.

Lemma hop_loop_spec `{!HttpLaws} permission st expected request method secret cap :
  forall fuel redirects a h, permits permission method h -> hop_start st method secret a h -> (redirects <= cap <= 255)%N ->
  (N.to_nat (cap - redirects) < fuel)%nat ->
  holds any_answer (send_pre permission) (yields responded) h
    (hop_loop fuel ctx st expected request method secret cap redirects a).
Proof.
  induction fuel as [|fuel IH]; intros redirects a h Hperm Hstart Hcap Hfuel; [lia|].
  cbn [hop_loop]. apply holds_pure; [apply returns_admit_hop| |intros; apply yields_err].
  intros [bytes timeout] (Hg & Hrev & Hgo & Hbytes & Htime)%admit_hop_ok.
  eapply holds_act; [by apply budget_spec| |intros; apply yields_err].
  intros h0 budget Hp0 (Hb1 & Hb2 & Hb3 & Hb4). apply holds_ask; [done|]. intros reserved Hres.
  apply holds_pure; [exact Hres| |intros; apply yields_err]. intros reservation ->.
  apply holds_ask; [done|]. intros started _. set (h1 := (h0 ++ _) ++ _).
  assert (Hp : h `prefix_of` h1) by (etrans; [exact Hp0|]; unfold h1; rewrite <- app_assoc; by eexists).
  assert (Hready : hop_ready st method secret a h1).
  { pose proof (hop_start_mono _ _ _ _ _ _ Hp Hstart) as (? & ? & ? & ? & Hsec).
    do 6 (split; [done|]). split; [by destruct secret|]. exists budget, reservation. rewrite Hb3.
    split; [unfold h1; eapply saw_mono; [apply prefix_snoc|]; apply saw_last|]. done. }
  eapply holds_then; [eapply hop_spec; [by eapply permits_mono|exact Hready]|].
  intros h2 hop Hp2 Hhop. eapply holds_then; [by apply elapsed_spec|]. intros h3 elapsed Hp3 _.
  assert (Hp4 : h `prefix_of` h3) by (etrans; [exact Hp|]; by etrans). clear Hp Hp0.
  destruct hop as [[[location|status body ct hs n redactions]|e| |]|]; cbn [default from_option id] in *.
  - apply settle_spec; [by intros ? []|intros; apply yields_err|]. intros h4 Hp5.
    apply holds_pure; [apply returns_next_hop| |intros; apply yields_err].
    intros next (Hnext & Hlt & _)%next_hop_ok. apply IH; [| |lia|lia].
    + eapply permits_mono; [|exact Hperm]. by etrans.
    + eapply hop_start_mono in Hstart as (? & ? & ? & _ & Hsec); [|by etrans]. done.
  - apply settle_spec; [by intros ? []|intros; apply yields_err|]. intros h4 Hp5. apply yields_ok.
    destruct Hhop as [_ Hr]. destruct (Hr _ eq_refl) as [(out & peer & Hs & He) _]. exists out, peer.
    split; [|done]. eapply saw_mono; [|exact Hs]. by etrans.
  - apply settle_spec; [by intros ? []|intros; apply yields_err|]. intros h4 Hp5. apply yields_err.
  - by destruct Hhop.
  - by destruct Hhop.
  - apply settle_spec; [by intros ? []|intros; apply yields_err|]. intros h4 Hp5. apply yields_err.
Qed.

Lemma authorized_redirects st allow_http method a :
  policy_wf allow_http (rt_config st) -> authorized st method a -> (max_redirects (auth_policy a) <= MAX_REDIRECTS)%N.
Proof.
  intros (_ & _ & Hall & _) (text & (_ & _ & _ & _ & Hin & _)%authorize_ok).
  apply in_map_iff in Hin as ([id d] & Hd & Hin). rewrite List.Forall_forall in Hall.
  destruct (Hall _ Hin) as (_ & Hok & _). cbn in Hd, Hok. subst d. apply Hok.
Qed.

Lemma execute_hops_spec `{!HttpLaws} permission st allow_http expected request secret a h :
  policy_wf allow_http (rt_config st) -> permits permission (upper (req_method request)) h ->
  hop_start st (upper (req_method request)) secret a h ->
  holds any_answer (send_pre permission) (yields responded) h (execute_hops ctx st expected request a secret).
Proof.
  intros Hwf Hperm Hstart. unfold execute_hops. destruct (http_method _); [|apply yields_err]. cbn [negb].
  pose proof Hstart as (_ & _ & _ & Ha & _). pose proof (authorized_redirects _ _ _ _ Hwf Ha) as Hcap.
  unfold MAX_REDIRECTS in Hcap. apply hop_loop_spec; [done|done|lia|lia].
Qed.

(** ** A request that is not recorded *)

Lemma session_ok : require_session ctx = Ok tt -> session_id ctx <> ""%string /\ session_id ctx <> "default"%string.
Proof.
  unfold require_session, is_empty. rewrite fail_if_ok, orb_false_iff, !String.eqb_neq. done.
Qed.

Lemma holds_deny {A B} pre (post : History -> EgressResult B -> Prop) audit method id n (r : EgressResult A) k h :
  (forall h payload, pre h (QEvent "egress_denied" payload)) -> returns r ->
  (forall a, r = Ok a -> holds any_answer pre post h (k a)) -> (forall h' e, post h' (Err e)) ->
  holds any_answer pre post h (or_deny audit method id n r k).
Proof.
  intros Hp Hr Hk He. unfold or_deny. destruct r as [a|e| |]; [by apply Hk| |done..].
  eapply holds_act; [by apply event_spec| |by intros]. intros. apply He.
Qed.

Lemma execute_scoped_spec `{!HttpLaws} permission expected request h :
  permits permission (upper (req_method request)) h ->
  holds any_answer (send_pre permission) (yields responded) h (execute_scoped ctx expected request).
Proof.
  intros Hperm. unfold execute_scoped. eapply holds_act; [by apply token_spec| |intros; apply yields_err].
  intros h1 audit Hp1 _. apply holds_ask; [done|]. intros started _.
  apply holds_deny; [done|unfold require_session; ends| |intros; apply yields_err]. intros [] (Hs1 & Hs2)%session_ok.
  apply holds_ask; [done|]. intros st [allow_http Hwf].
  apply holds_deny; [done|apply returns_authorize| |intros; apply yields_err]. intros initial Hauth.
  cbv zeta. do 3 (apply holds_deny; [done|try apply returns_authorize_destination; try apply returns_validate_headers; ends| |intros; apply yields_err]; intros [] _).
  apply holds_deny; [done|ends| |intros; apply yields_err]. intros [] _.
  set (h2 := (h1 ++ _) ++ _).
  assert (Hp2 : h `prefix_of` h2) by (etrans; [exact Hp1|]; unfold h2; rewrite <- app_assoc; by eexists).
  assert (Hsnap : saw QSnapshot st h2) by apply saw_last.
  eapply (holds_then _ _ (yields (fun h' secret => match secret with None => True | Some s => usable st s h' end))).
  { destruct (req_auth request) as [handle|]; [|by apply yields_ok].
    eapply holds_act; [by apply resolve_spec| |intros; apply yields_err]. intros h' s Hp [Hu _]. by apply yields_ok. }
  intros h3 resolved Hp3 [Hret Hsec].
  apply holds_deny; [done|exact Hret| |intros; apply yields_err]. intros secret ->.
  apply holds_deny; [done|apply returns_request_size| |intros; apply yields_err]. intros bytes _.
  eapply holds_act; [by apply event_spec| |intros; apply yields_err]. intros h4 _ Hp4 _.
  eapply holds_then.
  { eapply execute_hops_spec; [exact Hwf|eapply permits_mono; [|exact Hperm]; etrans; [exact Hp2|]; by etrans|].
    do 2 (split; [done|]). split; [eapply saw_mono; [|exact Hsnap]; by etrans|]. split; [by eexists|].
    specialize (Hsec _ eq_refl). destruct secret; [by eapply usable_mono|done]. }
  intros h5 result Hp5 [Hret5 Hresp]. eapply holds_then; [by apply elapsed_spec|]. intros h6 elapsed Hp6 _.
  destruct result as [response|e| |]; [..|done|done].
  - eapply holds_act; [by apply event_spec| |intros; apply yields_err]. intros h7 _ Hp7 _. apply yields_ok.
    destruct (Hresp _ eq_refl) as (out & peer & Hs & He). exists out, peer. split; [|done].
    eapply saw_mono; [|exact Hs]. by etrans.
  - eapply holds_act; [by apply event_spec| |intros; apply yields_err]. intros. apply yields_err.
Qed.

(** ** Mutations *)

Definition prepared_ok (request : HttpRequest) (h : History) (p : PreparedMutation) : Prop :=
  session_id ctx <> ""%string /\ session_id ctx <> "default"%string
  /\ (exists allow_http, policy_wf allow_http (rt_config (prepared_state p)))
  /\ saw QSnapshot (prepared_state p) h
  /\ authorized (prepared_state p) (upper (req_method request)) (prepared_destination p).

Lemma returns_canonical headers : returns (canonical_request_headers headers).
Proof. unfold canonical_request_headers. ends. Qed.

Lemma prepare_snapshot_spec pre request h :
  (forall h q, match q with QSnapshot | QFindHandle _ => True | _ => False end -> pre h q) ->
  holds any_answer pre (yields (prepared_ok request)) h (prepare_mutation_snapshot ctx request).
Proof.
  intros Hp. unfold prepare_mutation_snapshot.
  apply holds_pure; [unfold require_session; ends| |intros; apply yields_err]. intros [] (Hs1 & Hs2)%session_ok.
  case_match; [apply yields_err|]. apply holds_ask; [by apply Hp|]. intros st Hwf.
  apply holds_pure; [apply returns_authorize| |intros; apply yields_err]. intros a Ha.
  apply holds_pure; [apply returns_authorize_destination| |intros; apply yields_err]. intros _ _.
  apply holds_pure; [apply returns_validate_headers| |intros; apply yields_err]. intros _ _.
  apply holds_pure; [apply returns_canonical| |intros; apply yields_err]. intros headers _.
  eapply (holds_act _ _ (fun _ _ => True)).
  { destruct (req_auth request) as [handle|]; [|by apply yields_ok].
    eapply holds_act; [apply snapshot_spec; intros; by apply Hp| |intros; apply yields_err]. intros. by apply yields_ok. }
  2:{ intros. apply yields_err. }
  intros h' secret Hp' _. apply holds_pure; [apply returns_size_or_overflow| |intros; apply yields_err]. intros bytes _.
  apply yields_ok. do 3 (split; [done|]). split; [|by eexists]. eapply saw_mono; [exact Hp'|]. apply saw_last.
Qed.

Lemma prepare_spec pre request h :
  (forall h q, match q with QSnapshot | QFindHandle _ | QToken _ | QEvent _ _ => True | _ => False end -> pre h q) ->
  holds any_answer pre (yields (prepared_ok request)) h (prepare_mutation ctx request).
Proof.
  intros Hp. eapply holds_then; [apply prepare_snapshot_spec; intros h' q Hq; apply Hp; by destruct q|].
  intros h1 r _ Hr. destruct r as [p|e| |]; [exact Hr| |by destruct Hr..].
  eapply holds_act; [apply token_spec; intros; by apply Hp| |intros; apply yields_err]. intros h2 audit _ _.
  apply holds_ask; [by apply Hp|]. intros st _.
  eapply holds_act; [apply event_spec; intros; by apply Hp| |intros; apply yields_err]. intros. apply yields_err.
Qed.

(** A record that this call claimed. *)
Definition claimed (p : PreparedMutation) (effect : EgressMutationRecord) (h : History) : Prop :=
  exists scope claim, saw (QBegin (intent_of ctx scope p)) (Ok claim) h /\ created claim = true
    /\ claim_record claim = effect.

Lemma begin_spec pre p h :
  (forall h q, match q with QEffectScope | QBegin _ | QFinish _ _ _ _ _ _ => True | _ => False end -> pre h q) ->
  holds any_answer pre (yields (fun h' execution => match execution with
    | MExecute effect => claimed p effect h'
    | MReplay _ => True end)) h (begin_mutation ctx p).
Proof.
  intros Hp. apply holds_ask; [by apply Hp|]. intros [scope|] _; [|apply yields_err].
  apply holds_ask; [by apply Hp|]. intros r Hr. apply holds_pure; [exact Hr| |intros; apply yields_err].
  intros claim ->. destruct (created claim) eqn:Ec.
  - apply yields_ok. exists scope, claim. split; [apply saw_last|done].
  - destruct (status (claim_record claim)); try by apply yields_ok. apply holds_ask; [by apply Hp|].
    intros [record|e| |] Hrec; [by apply yields_ok|apply yields_err|done..].
Qed.

(** The store was asked to finish a record. *)
Definition finished (effect : EgressMutationRecord) (h : History) : Prop :=
  exists outcome digest bytes code err_digest r,
    saw (QFinish (effect_id (intent effect)) outcome digest bytes code err_digest) r h.

Lemma finished_mono effect : keeps (finished effect).
Proof. intros h h' Hp (o & dg & b & c & ed & r & Hs). exists o, dg, b, c, ed, r. by eapply saw_mono. Qed.

Lemma finish_spec pre effect o dg b c ed h :
  (forall h q, match q with QFinish _ _ _ _ _ _ => True | _ => False end -> pre h q) ->
  holds any_answer pre (fun h' r => returns r /\ finished effect h') h (let? _ := finish effect o dg b c ed in ok tt).
Proof.
  intros Hp. unfold finish, act_bind. apply holds_ask; [by apply Hp|]. intros r Hr.
  assert (Hf : finished effect (h ++ [asked _ r])) by (eexists _, _, _, _, _, _; apply saw_last).
  destruct r as [record|e'| |]; try done; by split.
Qed.

Lemma finish_error_spec pre effect e h :
  (forall h q, match q with QFinish _ _ _ _ _ _ => True | _ => False end -> pre h q) ->
  holds any_answer pre (fun h' r => returns r /\ finished effect h') h (finish_mutation_error effect e).
Proof. intros Hp. by apply finish_spec. Qed.

Lemma finish_response_spec pre effect response h :
  (forall h q, match q with QFinish _ _ _ _ _ _ => True | _ => False end -> pre h q) ->
  holds any_answer pre (fun h' r => returns r /\ finished effect h') h (finish_mutation_response effect response).
Proof. intros Hp. unfold finish_mutation_response. destruct (resp_status response <? 400)%N; by apply finish_spec. Qed.

Lemma holds_finish {A B} pre effect (r : EgressResult A) (k : A -> Act B) h :
  (forall h q, match q with QFinish _ _ _ _ _ _ => True | _ => False end -> pre h q) -> returns r ->
  (forall a, r = Ok a -> holds any_answer pre (fun h' r => returns r /\ finished effect h') h (k a)) ->
  holds any_answer pre (fun h' r => returns r /\ finished effect h') h (or_finish effect r k).
Proof.
  intros Hp Hr Hk. unfold or_finish. destruct r as [a|e| |]; [by apply Hk| |done..].
  eapply holds_act_known; [by apply finish_error_spec|by intros|by intros].
Qed.

Lemma execute_prepared_spec `{!HttpLaws} permission request p effect h :
  permits permission (upper (req_method request)) h -> prepared_ok request h p ->
  holds any_answer (send_pre permission) (fun h' r => returns r /\ finished effect h') h
    (execute_prepared_mutation ctx request p effect).
Proof.
  intros Hperm (Hs1 & Hs2 & (allow_http & Hwf) & Hsnap & Ha). unfold execute_prepared_mutation.
  apply holds_ask; [done|]. intros started _.
  eapply (holds_then _ _ (yields (fun h' secret => match secret with None => True
                                    | Some s => usable (prepared_state p) s h' end))).
  { unfold resolve_prepared_secret. destruct (req_auth request) as [handle|], (prepared_secret p) as [expected|];
      [|apply yields_err|apply yields_err|by apply yields_ok].
    eapply holds_act; [by apply snapshot_spec| |intros; apply yields_err]. intros h1 [current s] Hp1 _.
    case_match; [apply yields_err|].
    eapply holds_act; [by apply resolve_spec| |intros; apply yields_err]. intros h2 s' Hp2 [Hu _]. by apply yields_ok. }
  intros h1 resolved Hp1 [Hret Hsec]. apply holds_finish; [by intros ? []|exact Hret|]. intros secret ->.
  apply holds_finish; [by intros ? []|apply returns_request_size|]. intros bytes _.
  eapply holds_then; [by apply event_spec|]. intros h2 emitted Hp2 [Hret2 _].
  apply holds_finish; [by intros ? []|exact Hret2|]. intros _ _.
  assert (Hp : h `prefix_of` h2) by (etrans; [|exact Hp2]; etrans; [|exact Hp1]; apply prefix_snoc).
  eapply holds_then.
  { eapply execute_hops_spec; [exact Hwf|by eapply permits_mono|].
    do 2 (split; [done|]). split; [by eapply saw_mono|]. split; [done|].
    specialize (Hsec _ eq_refl). destruct secret; [|done]. eapply usable_mono; [exact Hp2|exact Hsec]. }
  intros h3 result Hp3 [Hret3 Hresp]. eapply holds_then; [by apply elapsed_spec|]. intros h4 elapsed Hp4 _.
  destruct result as [response|e| |]; [..|done|done].
  - eapply holds_act_known; [apply finish_response_spec; by intros ? []| |by intros].
    intros h5 _ Hp5 Hf. eapply holds_act; [by apply event_spec| |]; intros h6 x Hp6.
    + intros _. split; [done|]. by eapply finished_mono.
    + split; [done|]. by eapply finished_mono.
  - eapply holds_act_known; [apply finish_error_spec; by intros ? []| |by intros].
    intros h5 _ Hp5 Hf. eapply holds_act; [by apply event_spec| |]; intros h6 x Hp6.
    + intros _. split; [done|]. by eapply finished_mono.
    + split; [done|]. by eapply finished_mono.
Qed.

(** ** The functions of the host *)

Definition outer_pre (permission : History -> Outgoing -> Prop) (h : History) (q : Query) : Prop :=
  match q with
  | QSend out | QTimed (QSend out) => send_ok permission h out
  | _ => True
  end.

Lemma outer_of_send permission h q : send_pre permission h q -> outer_pre permission h q.
Proof. by destruct q. Qed.

(** Every record this call claimed was finished. *)
Definition claims_finished (h : History) : Prop :=
  forall i claim, saw (QBegin i) (Ok claim) h -> created claim = true -> finished (claim_record claim) h.

Lemma claims_frame h k :
  claims_finished h -> Forall (fun e => match projT1 e with QBegin _ => False | _ => True end) k ->
  claims_finished (h ++ k).
Proof.
  intros Hc Hk i claim [Hin|Hin]%in_app_or Hcr.
  - eapply finished_mono; [|by eapply Hc]. by eexists.
  - rewrite List.Forall_forall in Hk. by apply Hk in Hin.
Qed.

(** Parts that claim nothing. *)
Lemma holds_no_claim {A} permission (spec : History -> A -> Prop) (t : Io Answer A) h :
  holds any_answer (send_pre permission) spec h t ->
  holds any_answer (outer_pre permission)
    (fun h' a => spec h' a /\ (claims_finished h -> claims_finished h')) h t.
Proof.
  intros Ht. apply (holds_asked _ _ _ (fun q => match q with QBegin _ => False | _ => True end)) in Ht.
  2:{ intros h' q Hq. by destruct q. }
  eapply holds_mono; [exact Ht|intros; by apply outer_of_send|].
  intros h' a _ (Hs & k & -> & Hk). split; [done|]. intros Hc. by apply claims_frame.
Qed.

Lemma begin_claims permission p h :
  holds any_answer (outer_pre permission) (fun h' r => returns r /\ h `prefix_of` h' /\
    forall i claim, saw (QBegin i) (Ok claim) h' -> created claim = true ->
      saw (QBegin i) (Ok claim) h \/ r = Ok (MExecute (claim_record claim))) h (begin_mutation ctx p).
Proof.
  apply holds_ask; [done|]. intros scope _.
  assert (Hold : forall (h1 : History) e i claim, saw (QBegin i) (Ok claim) (h1 ++ [e]) ->
    match projT1 e with QBegin _ => False | _ => True end -> saw (QBegin i) (Ok claim) h1).
  { intros h1 e i claim [Hin|[->|[]]]%in_app_or He; [done|]. done. }
  destruct scope as [scope|].
  2:{ split; [done|]. split; [apply prefix_snoc|]. intros i claim Hs%Hold _; [by left|done]. }
  apply holds_ask; [done|]. intros r Hr.
  assert (Hnew : forall i claim, saw (QBegin i) (Ok claim) ((h ++ [asked QEffectScope (Some scope)])
      ++ [asked (QBegin (intent_of ctx scope p)) r]) -> saw (QBegin i) (Ok claim) h \/ r = Ok claim).
  { intros i claim [Hin|[Heq|[]]]%in_app_or; [left; by eapply Hold|]. right.
    pose proof (f_equal (fun e : Event Answer => match e with existT (QBegin _) a => Some a | _ => None end) Heq) as He.
    cbn in He. congruence. }
  assert (Hpre : h `prefix_of` (h ++ [asked QEffectScope (Some scope)]) ++ [asked (QBegin (intent_of ctx scope p)) r])
    by (rewrite <- app_assoc; by eexists).
  destruct r as [claim|e| |]; [|..|done|done].
  - cbn [act_bind io_bind]. destruct (created claim) eqn:Ec.
    + split; [done|]. split; [done|]. intros i c Hs Hc. destruct (Hnew _ _ Hs) as [|[= <-]]; [by left|by right].
    + assert (Hnone : forall i c, saw (QBegin i) (Ok c) ((h ++ [asked QEffectScope (Some scope)])
          ++ [asked (QBegin (intent_of ctx scope p)) (Ok claim)]) -> created c = true -> saw (QBegin i) (Ok c) h).
      { intros i c Hs Hc. destruct (Hnew _ _ Hs) as [|[= <-]]; [done|congruence]. }
      destruct (status (claim_record claim)); [|split; [done|]; split; [done|]; intros i c Hs Hc; left; by eapply Hnone..].
      apply holds_ask; [done|]. intros record Hrec.
      assert (Hend : forall (x : EgressResult MutationExecution), returns x -> returns x
        /\ h `prefix_of` ((h ++ [asked QEffectScope (Some scope)]) ++ [asked (QBegin (intent_of ctx scope p)) (Ok claim)])
              ++ [asked _ record]
        /\ forall i c, saw (QBegin i) (Ok c) (((h ++ [asked QEffectScope (Some scope)])
              ++ [asked (QBegin (intent_of ctx scope p)) (Ok claim)]) ++ [asked _ record]) -> created c = true ->
            saw (QBegin i) (Ok c) h \/ x = Ok (MExecute (claim_record c))).
      { intros x Hx. split; [done|]. split; [etrans; [exact Hpre|apply prefix_snoc]|]. intros i c Hs%Hold Hc; [|done].
        left. by eapply Hnone. }
      destruct record as [record|e| |]; [by apply Hend|by apply Hend|done|done].
  - split; [done|]. split; [done|]. intros i c Hs Hc. destruct (Hnew _ _ Hs) as [|[=]]. by left.
Qed.

(** Sequencing of host functions, keeping what is known when a part fails. *)
Lemma holds_host {A B} pre (Q : History -> Prop) (spec : History -> A -> Prop)
    (post : History -> outcome HostError B -> Prop) h (m : Act A) (k : A -> HostAct B) :
  holds any_answer pre (fun h' r => yields spec h' r /\ Q h') h m ->
  (forall h' a, h `prefix_of` h' -> spec h' a -> Q h' -> holds any_answer pre post h' (k a)) ->
  (forall h' e, h `prefix_of` h' -> Q h' -> post h' (Err e)) ->
  holds any_answer pre post h (host_bind (to_host m) k).
Proof.
  intros Hm Hk He. apply holds_bind, holds_bind. eapply holds_mono; [exact Hm|done|].
  intros h' [a|e| |] Hp [[Hr Ha] HQ]; cbn; try done; auto.
Qed.

Lemma holds_host_pure {A B} pre (post : History -> outcome HostError B -> Prop) h (r : HostResult A) (k : A -> HostAct B) :
  (forall a, r = inl a -> holds any_answer pre post h (k a)) -> (forall e, post h (Err e)) ->
  holds any_answer pre post h (host_bind (of_host r) k).
Proof. destruct r as [a|e]; cbn; auto. Qed.

Lemma holds_approval {B} pre (post : History -> outcome HostError B -> Prop) h action (k : unit -> HostAct B) :
  pre h (QApproval action (approval_timeout ctx)) ->
  (forall r e, post (h ++ [asked (QApproval action (approval_timeout ctx)) r]) (Err e)) ->
  holds any_answer pre post (h ++ [asked (QApproval action (approval_timeout ctx)) (inl Approved)]) (k tt) ->
  holds any_answer pre post h (host_bind (request_approval ctx action) k).
Proof. intros Hp He Hk. split; [exact Hp|]. intros [[|]|e] _; [exact Hk|apply He..]. Qed.

(** The permission of a request that is not a GET: a person approved the text made of
    this request, the policy and the handle are as they were then, and the record of
    the effect was created by this call. *)
Definition approved (request : HttpRequest) (h : History) : Prop :=
  exists before after action timeout scope claim,
    approval_action request before = inl action
    /\ saw (QApproval action timeout) (inl Approved) h
    /\ prepared_eqb before after = true
    /\ saw (QBegin (intent_of ctx scope after)) (Ok claim) h /\ created claim = true.

Lemma approved_mono request : keeps (approved request).
Proof.
  intros h h' Hp (b & a & act & tm & sc & cl & H1' & H2' & H3' & H4' & H5'). exists b, a, act, tm, sc, cl.
  split; [done|]. split; [by eapply saw_mono|]. split; [done|]. split; [by eapply saw_mono|done].
Qed.

(** What may be sent for a request. *)
Definition permission (request : HttpRequest) (h : History) (out : Outgoing) : Prop :=
  out_method out = upper (req_method request) /\ (out_method out = "GET"%string \/ approved request h).

(** After the claim: what is left to finish is the record just created. *)
Lemma begin_rest request p h :
  claims_finished h ->
  holds any_answer (outer_pre (permission request)) (fun h' r => returns r /\
    match r with
    | Ok (MExecute effect) => claimed p effect h'
        /\ forall h2, h' `prefix_of` h2 -> Forall (fun e => match projT1 e with QBegin _ => False | _ => True end) (drop (length h') h2) ->
            finished effect h2 -> claims_finished h2
    | _ => claims_finished h'
    end) h (begin_mutation ctx p).
Proof.
  intros Hc. eapply holds_mono.
  - apply holds_and; [apply (begin_spec (outer_pre (permission request)) p); by intros ? []|apply begin_claims].
  - by intros h' q [].
  - intros h' r _ ((Hret & Hspec) & _ & Hp & Hnew). split; [done|].
    assert (Hold : (forall i claim, saw (QBegin i) (Ok claim) h' -> created claim = true -> saw (QBegin i) (Ok claim) h) ->
      claims_finished h').
    { intros Hsame i claim Hs Hcr. eapply finished_mono; [exact Hp|]. eapply Hc; [by eapply Hsame|done]. }
    destruct r as [[effect|effect]|e| |]; [|apply Hold; intros i claim Hs Hcr; by destruct (Hnew i claim Hs Hcr)..].
    split; [by apply (Hspec (MExecute effect))|]. intros h2 [k ->] Hk Hf i claim Hs Hcr. rewrite drop_app_length in Hk.
    apply in_app_or in Hs as [Hs|Hs]; [|by rewrite List.Forall_forall in Hk; apply Hk in Hs].
    destruct (Hnew i claim Hs Hcr) as [Ho|[= <-]]; [|done].
    eapply finished_mono; [|by eapply Hc]. etrans; [exact Hp|]. by eexists.
Qed.

Lemma mutate_spec `{!HttpLaws} request h :
  claims_finished h ->
  holds any_answer (outer_pre (permission request)) (fun h' r => returns r /\ claims_finished h') h (mutate ctx request).
Proof.
  intros Hc. unfold mutate. eapply holds_host; [apply holds_no_claim, prepare_spec; by intros ? []| |by split; auto].
  intros h1 before Hp1 _ Hc1. apply holds_host_pure; [|by split; auto]. intros action Ha.
  assert (Hc2 : forall r, claims_finished (h1 ++ [asked (QApproval action (approval_timeout ctx)) r])).
  { intros r. apply claims_frame; [by apply Hc1|]. by repeat constructor. }
  apply holds_approval; [done|by intros; split|].
  eapply holds_host; [apply holds_no_claim, prepare_spec; by intros ? []| |by split; auto].
  intros h2 after Hp2 Hafter Hc3. specialize (Hc3 (Hc2 _)).
  destruct (prepared_eqb before after) eqn:Eq; [|by split]. cbn [negb].
  apply holds_bind, holds_bind. eapply holds_mono; [by apply begin_rest|done|].
  intros h3 r Hp3 [Hret Hr]. destruct r as [[effect|effect]|e| |]; [|by split..|done|done].
  destruct Hr as [(scope & claim & Hs & Hcr & Hrec) Hfin]. cbn [holds].
  eapply (holds_host _ (fun h4 => finished effect h4 /\ claims_finished h4) (fun _ _ => True)); [|by split; [|tauto]..].
  assert (Happ : permits (permission request) (upper (req_method request)) h3).
  { intros out h4 Hp4 Hm. split; [done|]. right. exists before, after, action, (approval_timeout ctx), scope, claim.
    split; [done|]. split; [|split; [done|split; [by eapply saw_mono|done]]].
    eapply saw_mono; [|apply saw_last]. etrans; [exact Hp2|]. by etrans. }
  assert (Hprep : prepared_ok request h3 after).
  { destruct Hafter as (? & ? & ? & Hsn & ?). do 3 (split; [done|]). split; [by eapply saw_mono|done]. }
  pose proof (execute_prepared_spec _ _ _ effect _ Happ Hprep) as He.
  apply (holds_asked _ _ _ (fun q => match q with QBegin _ => False | _ => True end)) in He; [|by intros ? []].
  eapply holds_mono; [exact He|intros; by apply outer_of_send|].
  intros h4 x _ ((Hx & Hf) & k & -> & Hk). split; [split; [done|done]|]. split; [done|].
  apply Hfin; [by eexists|by rewrite drop_app_length|done].
Qed.

Lemma upper_lower s : upper (lower s) = upper s.
Proof.
  unfold upper, lower. induction s as [|a s IH]; [done|].
  change (String (byte_upper (byte_lower a)) (str_map byte_upper (str_map byte_lower s))
          = String (byte_upper a) (str_map byte_upper s)). rewrite IH. f_equal. by destruct a as [[] [] [] [] [] [] [] []].
Qed.

Lemma is_get method : eq_ignore_ascii_case method "GET" = true -> upper method = "GET"%string.
Proof. intros He%String.eqb_eq. by rewrite <- upper_lower, He. Qed.

Lemma http_request_spec `{!HttpLaws} args request :
  request_from_value args = inr request ->
  holds any_answer (outer_pre (permission request)) (fun h' r => returns r /\ claims_finished h') []
    (http_request args ctx).
Proof.
  intros Hargs. unfold http_request, decode_args. rewrite Hargs. cbn [host_bind io_bind].
  assert (Hnil : claims_finished []) by (by intros i claim []). destruct (eq_ignore_ascii_case _ _) eqn:Eg; [|by apply mutate_spec].
  eapply (holds_host _ claims_finished (fun _ _ => True)); [|by split..].
  eapply holds_mono; [apply holds_no_claim, (execute_scoped_spec (permission request) None)|done|].
  - intros out h' _ Hm. split; [done|]. left. rewrite Hm. by apply is_get.
  - intros h' r _ ((Hr & _) & Hc). split; [done|by apply Hc].
Qed.
End Safety.

Section Claims.
Context `{UrlLib} `{JsonNumber} `{!JsonText} `{!JsonParse} `{Sha256} `{HttpLib} `{IpNetLib} `{!ArgsCodec} `{!HttpLaws}.

(** C18: What [http.request] sends.  Whatever the world answers, a request that goes
    out was authorized by an enabled policy that the call had read: its scheme, host,
    port, method and path are those of a destination of that policy, the caller
    holds the exact grant for it and it is not revoked; the connector was given only
    addresses that were vetted for it; the headers are ones the destination allows,
    but for one that carries a secret, whose handle belongs to the session and actor
    of the caller, which is granted, not revoked and meant for this destination; a
    reservation of the budget of the session and the destination was granted before;
    and unless the method is GET, a person approved this very request and the call
    itself created the record of the effect. *)
Theorem sends_authorized args ctx request h t h1 out answer h2 :
  request_from_value args = inr request ->
  runs (http_request args ctx) h t -> allowed_history any_answer h ->
  h = h1 ++ asked (QTimed (QSend out)) answer :: h2 ->
  send_ok ctx (permission ctx request) h1 out.
Proof.
  intros Hargs Hruns Hallowed Hh.
  exact (runs_pre any_answer _ _ _ _ _ _ _ _ _ (http_request_spec ctx args request Hargs) Hruns Hallowed Hh).
Qed.

Lemma request_ends args ctx h result :
  runs (http_request args ctx) h (Ret result) -> allowed_history any_answer h ->
  returns result /\ claims_finished h.
Proof.
  intros Hruns Hallowed. destruct (request_from_value args) as [message|request] eqn:Ea.
  - unfold http_request, decode_args in Hruns. rewrite Ea in Hruns. inversion Hruns. by split; [|intros i claim []].
  - exact (runs_post any_answer _ _ _ _ _ (http_request_spec ctx args request Ea) Hruns Hallowed).
Qed.
End Claims.
