(* ===== verification/EgressBounds.v ===== *)
(** * How much leaves the host, and what is recorded of it

    Monitors follow the questions of a call.  The meter counts the requests and
    watches the budget: a request is only sent while a reservation is open, one
    reservation at a time, and every reservation is settled.  The account watches the
    effect records: with which outcome the store is asked to finish them. *)

From stdpp Require Import base tactics list gmap strings.
From Stdlib Require Import NArith ZArith Lia Ascii.
From S2P Require Import Prelude BTree Text Strings Value Render ServerBase Host Net EgressState EgressConfig EgressPolicy PolicyFacts EgressBroker Io EgressRuntime EgressHost EgressSafety.

(** ** Monitors

    A monitor follows the questions of a call: which ones it allows in its state, and
    what it remembers of the answers. *)

Class Monitor `{UrlLib} `{JsonNumber} (S : Type) := {
  allows : S -> Query -> Prop;
  tracks : S -> forall q, Answer q -> S;
}.

Section Monitor.
Context `{UrlLib} `{JsonNumber} {S : Type} `{!Monitor S}.

(** [follows s t K]: along every run of [t] the monitor allows the questions, and at
    the end [K] holds. *)
Fixpoint follows {A} (s : S) (t : Io Answer A) (K : S -> A -> Prop) : Prop :=
  match t with
  | Ret a => K s a
  | Ask q k => allows s q /\ forall r, proper q r -> follows (tracks s q r) (k r) K
  end.

(** What the monitor remembers of a history. *)
Definition watch (s : S) (h : list (Event Answer)) : S :=
  fold_left (fun s (e : Event Answer) => tracks s (projT1 e) (projT2 e)) h s.

(** Questions that leave the monitor as it is. *)
Definition unseen (s : S) (q : Query) : Prop := allows s q /\ forall r, tracks s q r = s.

(** The questions that a monitor looks at in a state are among [seen]. *)
Class Overlooks (s : S) (seen : Query -> bool) := overlooks : forall q, seen q = false -> unseen s q.

Lemma follows_mono {A} (t : Io Answer A) : forall s (K K' : S -> A -> Prop),
  follows s t K -> (forall s' a, K s' a -> K' s' a) -> follows s t K'.
Proof. induction t as [a|q c IH]; intros s K K'; cbn; [auto|]. intros [Hq Hc] HK. split; [done|]. intros r Hr. eapply IH; eauto. Qed.

Lemma follows_bind {A B} (k : A -> Io Answer B) t : forall s (K : S -> B -> Prop),
  follows s t (fun s' a => follows s' (k a) K) -> follows s (io_bind k t) K.
Proof. induction t as [a|q c IH]; intros s K; cbn; [done|]. intros [Hq Hc]. split; [done|]. auto. Qed.

Lemma follows_pure {A B} s (K : S -> EgressResult B -> Prop) (r : EgressResult A) (k : A -> Act B) :
  (forall x, r = Ok x -> follows s (k x) K) -> (forall x, (forall b, x <> Ok b) -> K s x) ->
  follows s (act_bind (Ret r) k) K.
Proof. destruct r as [a|e| |]; cbn; auto. Qed.

(** Part of which something is known. *)
Lemma follows_of_holds {A} (seen : Query -> bool) (post : list (Event Answer) -> A -> Prop) (t : Io Answer A) s (K : S -> A -> Prop) `{Hs : !Overlooks s seen} :
  forall h, holds any_answer (fun _ q => seen q = false) post h t -> (forall h' a, post h' a -> K s a) -> follows s t K.
Proof.
  induction t as [a|q c IH]; intros h; cbn; [eauto|]. intros [Hq Hc] HK. destruct (Hs q Hq) as [Ha Ht].
  split; [done|]. intros r Hr. rewrite Ht. eapply IH; [by apply Hc|done].
Qed.

(** Sequencing of host functions. *)
Lemma follows_host {A B} s (K : S -> outcome HostError B -> Prop) (a : Act A) (k : A -> HostAct B) :
  follows s a (fun s' r => match r with
    | Ok x => follows s' (k x) K | Err e => K s' (Err (into_host e)) | Panicked => K s' Panicked
    | OutOfFuel => K s' OutOfFuel end) ->
  follows s (host_bind (to_host a) k) K.
Proof.
  intros Ha. apply follows_bind, follows_bind. eapply follows_mono; [exact Ha|]. by intros s' [x|e| |].
Qed.

(** A run of a tree that is followed: what is asked is allowed, and the rest is
    followed from what the monitor remembers. *)
Lemma watch_run {A} (t t' : Io Answer A) h : runs t h t' -> forall s K,
  follows s t K -> allowed_history any_answer h -> follows (watch s h) t' K.
Proof.
  induction 1 as [t|q k r h t' Hr IH]; intros s K Hf Hp; [done|]. destruct Hf as [Hq Hk].
  apply IH; [apply Hk, (Hp [] q r h eq_refl)|]. intros h1 q' r' h2 ->. by apply (Hp (asked q r :: h1) q' r' h2).
Qed.

Lemma runs_question {A} (t t' : Io Answer A) e h : runs t (e :: h) t' -> exists k, t = Ask (projT1 e) k.
Proof. inversion 1. by eexists. Qed.

Lemma runs_split {A} (t' : Io Answer A) h1 : forall h2 t0,
  runs t0 (h1 ++ h2) t' -> exists t1, runs t0 h1 t1 /\ runs t1 h2 t'.
Proof.
  induction h1 as [|e h1 IH]; intros h2 t0 Hr; [by eexists; split; [apply runs_here|]|].
  inversion Hr as [|q k r h t1 Hr1]; subst. destruct (IH _ _ Hr1) as (t2 & H1' & H2'). exists t2. split; [by apply runs_ask|done].
Qed.

Lemma watch_allows {A} (t t' : Io Answer A) s K h1 q r h2 :
  runs t (h1 ++ asked q r :: h2) t' -> follows s t K -> allowed_history any_answer (h1 ++ asked q r :: h2) ->
  allows (watch s h1) q.
Proof.
  intros Hr Hf Ha. destruct (runs_split t' h1 _ _ Hr) as (t1 & H1' & H2').
  assert (Hf1 : follows (watch s h1) t1 K).
  { eapply watch_run; [exact H1'|done|]. intros g1 q' r' g2 ->. apply (Ha g1 q' r' (g2 ++ asked q r :: h2)).
    by rewrite <- app_assoc. }
  destruct (runs_question _ _ _ _ H2') as [k ->]. by destruct Hf1.
Qed.
End Monitor.

(** ** Parts that ask only some questions *)

Section Asks.
Context `{UrlLib} `{JsonNumber}.

Fixpoint asks_none {A} (seen : Query -> bool) (t : Io Answer A) : Prop :=
  match t with
  | Ret _ => True
  | Ask q k => seen q = false /\ forall r, asks_none seen (k r)
  end.

Context (seen : Query -> bool).

Lemma quiet_bind {A B} (k : A -> Io Answer B) t :
  asks_none seen t -> (forall a, asks_none seen (k a)) -> asks_none seen (io_bind k t).
Proof. induction t as [a|q c IH]; cbn; [auto|]. intros [Hq Hc] Hk. split; [done|]. auto. Qed.

Lemma quiet_act {A B} (m : Act A) (k : A -> Act B) :
  asks_none seen m -> (forall a, asks_none seen (k a)) -> asks_none seen (act_bind m k).
Proof. intros Hm Hk. apply quiet_bind; [done|]. intros [a|e| |]; cbn; auto. Qed.

Lemma quiet_ask q : seen q = false -> asks_none seen (ask q).
Proof. by split. Qed.

Context {S : Type} `{!Monitor S} (s : S) `{!Overlooks s seen}.

Lemma follows_quiet {A} (t : Io Answer A) (K : S -> A -> Prop) : asks_none seen t -> (forall a, K s a) -> follows s t K.
Proof.
  induction t as [a|q c IH]; cbn; [auto|]. intros [Hq Hc] HK. destruct (overlooks q Hq) as [Ha Ht]. split; [done|].
  intros r _. rewrite Ht. by apply IH.
Qed.

(** A quiet act, then the rest. *)
Lemma follows_act {A B} (K : S -> EgressResult B -> Prop) (a : Act A) (k : A -> Act B) :
  asks_none seen a -> (forall x, follows s (k x) K) -> (forall x, (forall b, x <> Ok b) -> K s x) ->
  follows s (act_bind a k) K.
Proof. intros Ha Hk HK. apply follows_bind, follows_quiet; [done|]. intros [x|e| |]; cbn; auto. Qed.

Lemma follows_then {A B} (K : S -> B -> Prop) (a : Io Answer A) (k : A -> Io Answer B) :
  asks_none seen a -> (forall x, follows s (k x) K) -> follows s (io_bind k a) K.
Proof. intros Ha Hk. by apply follows_bind, follows_quiet. Qed.
End Asks.

(** ** The monitor of the budget *)

Record Meter := mkMeter { sends_left : nat; open_reservation : option EgressBudgetReservation }.

Section Meter.
Context `{UrlLib} `{JsonNumber}.

Definition metered (m : Meter) (q : Query) : Prop :=
  match q with
  | QTimed (QSend _) => (0 < sends_left m)%nat /\ open_reservation m <> None
  | QSend _ => False
  | QReserve _ => open_reservation m = None
  | QSettle reservation _ _ => open_reservation m = Some reservation
  | _ => True
  end.

Definition advance (m : Meter) (q : Query) : Answer q -> Meter :=
  match q with
  | QTimed (QSend _) => fun _ => mkMeter (sends_left m - 1) (open_reservation m)
  | QReserve _ => fun r => mkMeter (sends_left m) (match r with Ok res => Some res | _ => None end)
  | QSettle _ _ _ => fun _ => mkMeter (sends_left m) None
  | _ => fun _ => m
  end.

#[export] Instance meter_monitor : Monitor Meter := { allows := metered; tracks := advance }.

Definition spends (q : Query) : bool :=
  match q with QTimed (QSend _) | QSend _ | QReserve _ | QSettle _ _ _ => true | _ => false end.

#[export] Instance meter_overlooks (m : Meter) : Overlooks m spends.
Proof. intros q Hq. by destruct q as [| | | | | | | | | | | | | | | | |[]]. Qed.

(** ** What the meter says of a run *)

Definition is_send (e : Event Answer) : bool := match projT1 e with QTimed (QSend _) | QSend _ => true | _ => false end.

(** Reservations granted, and reservations settled. *)
Definition granted_in (h : list (Event Answer)) : list EgressBudgetReservation :=
  omap (fun e : Event Answer => match e with existT (QReserve _) (Ok res) => Some res | _ => None end) h.
Definition settled_in (h : list (Event Answer)) : list EgressBudgetReservation :=
  omap (fun e : Event Answer => match projT1 e with QSettle res _ _ => Some res | _ => None end) h.

(** The reservation that is open is the last one granted, and it is not settled. *)
Lemma meter_run {A} (t t' : Io Answer A) h : runs t h t' -> forall (m : Meter) K,
  follows m t K -> allowed_history any_answer h ->
  (length (List.filter is_send h) <= sends_left m)%nat
  /\ option_list (open_reservation m) ++ granted_in h = settled_in h ++ option_list (open_reservation (watch m h)).
Proof.
  induction 1 as [t|q k r h t' Hr IH]; intros m K Hf Hp.
  - cbn. split; [lia|]. by rewrite app_nil_r.
  - destruct Hf as [Hq Hk]. specialize (Hk r (Hp [] q r h eq_refl)).
    destruct (IH _ _ Hk) as (Hn & Hbal).
    { intros h1 q' r' h2 ->. by apply (Hp (asked q r :: h1) q' r' h2). }
    change (watch m (asked q r :: h)) with (watch (advance m q r) h).
    assert (Hquiet : spends q = false -> (length (List.filter is_send (asked q r :: h)) <= sends_left m)%nat
      /\ option_list (open_reservation m) ++ granted_in (asked q r :: h)
           = settled_in (asked q r :: h) ++ option_list (open_reservation (watch (advance m q r) h))).
    { intros Hquiet. destruct (meter_overlooks m q Hquiet) as [_ Ht]. cbn in Ht, Hn, Hbal. rewrite Ht in Hn, Hbal |- *.
      assert (Hs : is_send (asked q r) = false) by (by destruct q as [| | | | | | | | | | | | | | | | |[]]).
      cbn [List.filter]. rewrite Hs. split; [done|].
      replace (granted_in (asked q r :: h)) with (granted_in h) by (by destruct q).
      replace (settled_in (asked q r :: h)) with (settled_in h) by (by destruct q). done. }
    destruct q as [| | | | | | | | |budget|reservation n e| | | | |out| |[| | | | | | | | | | | | | | |out| |]];
      try (by apply Hquiet); try done.
    + cbn in Hq. split; [exact Hn|]. rewrite Hq. destruct r as [res|e| |]; exact Hbal.
    + cbn in Hq. split; [exact Hn|]. rewrite Hq. exact (f_equal (cons reservation) Hbal).
    + destruct Hq as [Hpos _]. split; [|done]. cbn in Hn.
      change (S (length (List.filter is_send h)) <= sends_left m)%nat. lia.
Qed.
End Meter.

(** Questions that one of the monitors of this file looks at. *)
Definition noted `{UrlLib} `{JsonNumber} (q : Query) : bool :=
  match q with QFinish _ _ _ _ _ _ | QTimed QStream => true | _ => spends q end.

Lemma quiet_of `{UrlLib} `{JsonNumber} {A} (t : Io Answer A) : asks_none noted t -> asks_none spends t.
Proof.
  induction t as [a|q c IH]; cbn; [done|]. intros [Hq Hc]. split; [|auto].
  by destruct q as [| | | | | | | | | | | | | | | | |[]].
Qed.

Ltac quiets :=
  repeat first
    [ apply quiet_ask; reflexivity | apply quiet_bind; [|intros] | apply quiet_act; [|intros] | exact I
    | progress cbv beta zeta | case_match ].

Section Calls.
Context `{UrlLib} `{JsonNumber} `{!JsonText} `{!JsonParse} `{Sha256} `{HttpLib} `{IpNetLib} `{!ArgsCodec}.

Lemma quiet_event event payload : asks_none noted (emit_event event payload).
Proof. unfold emit_event. quiets. Qed.

Lemma quiet_denial audit method id n e : asks_none noted (emit_denial audit method id n e).
Proof. apply quiet_event. Qed.

Lemma quiet_token n : asks_none noted (random_token n).
Proof. unfold random_token. quiets. Qed.

Lemma quiet_budget ctx limits d bytes timeout : asks_none noted (budget_request ctx limits d bytes timeout).
Proof. apply quiet_act; [apply quiet_token|done]. Qed.

Lemma quiet_elapsed n : asks_none noted (elapsed_since n).
Proof. unfold elapsed_since. quiets. Qed.

Lemma quiet_snapshot ctx st handle d : asks_none noted (resolve_secret_snapshot ctx st handle d).
Proof. unfold resolve_secret_snapshot. quiets. Qed.

Lemma quiet_resolve ctx st handle d : asks_none noted (resolve_secret ctx st handle d).
Proof. unfold resolve_secret. apply quiet_act; [apply quiet_snapshot|]. intros [? secret]. quiets. Qed.

Lemma quiet_prepared_secret ctx request p : asks_none noted (resolve_prepared_secret ctx request p).
Proof.
  unfold resolve_prepared_secret. repeat case_match; try exact I.
  apply quiet_act; [apply quiet_snapshot|intros [current ?]]. case_match; [exact I|].
  apply quiet_act; [apply quiet_resolve|done].
Qed.

Lemma quiet_prepare ctx request : asks_none noted (prepare_mutation ctx request).
Proof.
  unfold prepare_mutation, prepare_mutation_snapshot. apply quiet_bind.
  - quiets.
  - intros [p|e| |]; try exact I. apply quiet_act; [apply quiet_token|intros audit]. apply quiet_bind; [quiets|intros st].
    apply quiet_act; [apply quiet_denial|done].
Qed.

Lemma quiet_finish effect o d b c e : asks_none spends (finish effect o d b c e).
Proof. by apply quiet_ask. Qed.

Lemma quiet_finish_error effect e : asks_none spends (finish_mutation_error effect e).
Proof. apply quiet_act; [apply quiet_finish|done]. Qed.

Lemma quiet_finish_response effect r : asks_none spends (finish_mutation_response effect r).
Proof. apply quiet_act; [case_match; apply quiet_finish|done]. Qed.

Lemma quiet_begin ctx p : asks_none spends (begin_mutation ctx p).
Proof.
  unfold begin_mutation. apply quiet_bind; [by apply quiet_ask|intros [scope|]; [|done]].
  apply quiet_bind; [by apply quiet_ask|intros claimed]. apply quiet_act; [done|intros claim].
  case_match; [done|]. case_match; try done. apply quiet_act; [apply quiet_finish|done].
Qed.

(** The rules for parts that the meter does not see. *)
Abbreviation meter_quiet := (follows_quiet spends _ (Overlooks0 := meter_overlooks _)).
Abbreviation meter_act := (follows_act spends _ (Overlooks0 := meter_overlooks _)).
Abbreviation meter_then := (follows_then spends _ (Overlooks0 := meter_overlooks _)).
Abbreviation meter_of_holds := (follows_of_holds spends _ _ _ _ (Hs := meter_overlooks _)).

(** ** Hops *)

(** After a hop the reservation is still open and at most one request went out. *)
Definition hop_done (left : nat) (reservation : EgressBudgetReservation) (m : Meter) : Prop :=
  open_reservation m = Some reservation /\ (left <= sends_left m)%nat.

Lemma hop_follows {A} left reservation a method request secret (K : Meter -> A -> Prop)
    (k : option (EgressResult HopResponse) -> Io Answer A) :
  (forall m r, hop_done left reservation m -> from_option returns True r -> follows m (k r) K) ->
  follows (mkMeter (S left) (Some reservation)) (io_bind k (with_deadline (perform_hop a method request secret))) K.
Proof.
  intros Hk. apply follows_bind.
  assert (Hstart : hop_done left reservation (mkMeter (S left) (Some reservation))) by (split; cbn; [done|lia]).
  unfold perform_hop. cbn. split; [done|]. intros [[answers|e| |]|] Hans; [|by apply Hk|done|done|by apply Hk]. cbn.
  pose proof (returns_validate_resolved answers (dest_port (auth_policy a)) (allow_private_ips (auth_policy a))) as Hv.
  destruct (validate_resolved_addresses _ _ _); [|by apply Hk|done|done]. cbn.
  split; [done|]. intros [] _; [|by apply Hk]. cbn.
  pose proof (returns_request_headers (auth_policy a) (req_headers request) secret) as Hh.
  destruct (request_headers _ _ _); [|by apply Hk|done|done]. cbn. split; [split; [lia|done]|].
  assert (Hend : hop_done left reservation (mkMeter (S left - 1) (Some reservation))) by (split; cbn; [done|lia]).
  intros [[peer|]|] _; [|by apply Hk..].
  set (out := mkOutgoing _ method (auth_url a) [] None "" [] true 0).
  eapply meter_of_holds;
    [apply (receive_spec _ a secret out peer [asked (QTimed (QSend out)) (Some (Some peer))]); [done|by left]|].
  intros h' [r|] Hr; apply Hk; try done. apply Hr.
Qed.

(** Whether a method may be redirected. *)
Definition redirectable (method : string) : bool := String.eqb method "GET" || String.eqb method "HEAD".

Definition idle (m : Meter) : Prop := open_reservation m = None.

Lemma settle_follows {A} left reservation m n elapsed (k : Act A) K :
  hop_done left reservation m -> (forall m', idle m' -> (left <= sends_left m')%nat -> follows m' k K) ->
  (forall m' x, idle m' -> K m' x) ->
  follows m (io_bind (fun settled => act_bind (Ret settled) (fun _ : unit => k)) (ask (QSettle reservation n elapsed))) K.
Proof.
  intros [Ho Hl] Hk HK. cbn. split; [done|]. intros r _. destruct r as [[]|e| |]; cbn; [by apply Hk|by apply HK..].
Qed.

Lemma hop_loop_follows ctx st expected request method secret cap : forall fuel redirects a m,
  idle m -> ((if redirectable method then fuel else Nat.min fuel 1) <= sends_left m)%nat ->
  follows m (hop_loop fuel ctx st expected request method secret cap redirects a) (fun m' _ => idle m').
Proof.
  induction fuel as [|fuel IH]; intros redirects a [sends res] Hidle Hn; unfold idle in Hidle; cbn in Hidle, Hn; subst res; [done|].
  destruct sends as [|left]; [by destruct (redirectable method); lia|].
  cbn [hop_loop]. apply follows_pure; [|done]. intros [bytes timeout] _.
  apply meter_act; [apply quiet_of, quiet_budget| |done]. intros budget.
  apply follows_bind. cbn [follows ask]. split; [done|]. intros [reservation|e| |] Hres; [|done..].
  cbn [act_bind io_bind].
  apply meter_then; [by apply quiet_ask|]. intros started. apply hop_follows. intros m hop Hdone Hret.
  apply meter_then; [apply quiet_of, quiet_elapsed|]. intros elapsed.
  destruct hop as [[[location|status body ct hs n redactions]|e| |]|]; cbn [default from_option id].
  - eapply settle_follows; [exact Hdone| |done]. intros m' Hi Hl. apply follows_pure; [|done].
    intros next (_ & _ & Hm & _)%next_hop_ok. apply IH; [done|].
    assert (Hr : redirectable method = true) by (by unfold redirectable; destruct Hm as [->| ->]).
    rewrite Hr in *. lia.
  - eapply settle_follows; [exact Hdone|by intros|done].
  - eapply settle_follows; [exact Hdone|by intros|done].
  - done.
  - done.
  - eapply settle_follows; [exact Hdone|by intros|done].
Qed.

(** The requests that a call with a method may send. *)
Definition send_limit (method : string) : nat := if redirectable method then 6 else 1.

Definition ready (request : HttpRequest) (m : Meter) : Prop :=
  idle m /\ (send_limit (upper (req_method request)) <= sends_left m)%nat.

Lemma execute_hops_follows ctx st allow_http expected request a secret m :
  policy_wf allow_http (rt_config st) -> authorized st (upper (req_method request)) a -> ready request m ->
  follows m (execute_hops ctx st expected request a secret) (fun m' _ => idle m').
Proof.
  intros Hwf Ha [Hi Hn]. unfold execute_hops. case_match; [done|]. apply hop_loop_follows; [done|].
  pose proof (authorized_redirects _ _ _ _ Hwf Ha) as Hcap. unfold MAX_REDIRECTS in Hcap. unfold send_limit in Hn.
  destruct (redirectable _); lia.
Qed.

Lemma follows_deny {A B} m (K : Meter -> EgressResult B -> Prop) audit method id n (r : EgressResult A) k :
  (forall a, r = Ok a -> follows m (k a) K) -> (forall x, K m x) -> follows m (or_deny audit method id n r k) K.
Proof.
  intros Hk HK. unfold or_deny. destruct r as [a|e| |]; cbn [follows]; auto.
  apply meter_act; [apply quiet_of, quiet_denial| |done]. cbn. auto.
Qed.

Lemma execute_scoped_follows ctx expected request m :
  ready request m -> follows m (execute_scoped ctx expected request) (fun m' _ => idle m').
Proof.
  intros Hready. pose proof Hready as [Hi _]. unfold execute_scoped. apply meter_act; [apply quiet_of, quiet_token| |done]. intros audit.
  apply meter_then; [by apply quiet_ask|]. intros started. apply follows_deny; [|done]. intros [] _.
  apply follows_bind. split; [done|]. intros st [allow_http Hwf]. cbn [follows]. change (advance m QSnapshot st) with m.
  apply follows_deny; [|done]. intros initial Ha. cbv zeta.
  do 4 (apply follows_deny; [|done]; intros [] _).
  apply meter_then. { case_match; [apply quiet_act; [apply quiet_of, quiet_resolve|done]|done]. } intros resolved.
  apply follows_deny; [|done]. intros secret _. apply follows_deny; [|done]. intros bytes _.
  apply meter_act; [apply quiet_of, quiet_event| |done]. intros _.
  apply follows_bind. eapply follows_mono; [eapply execute_hops_follows; [exact Hwf|by eexists|done]|].
  intros m' result Hi'. apply meter_then; [apply quiet_of, quiet_elapsed|]. intros elapsed.
  destruct result; [apply meter_act; [apply quiet_of, quiet_event|done|done]..|done|done].
Qed.

Lemma follows_finish {A B} m (K : Meter -> EgressResult B -> Prop) effect (r : EgressResult A) k :
  (forall a, r = Ok a -> follows m (k a) K) -> (forall x, K m x) -> follows m (or_finish effect r k) K.
Proof.
  intros Hk HK. unfold or_finish. destruct r as [a|e| |]; cbn [follows]; auto.
  apply meter_act; [apply quiet_finish_error| |done]. cbn. auto.
Qed.

Lemma execute_prepared_follows ctx request p effect h m :
  prepared_ok ctx request h p -> ready request m ->
  follows m (execute_prepared_mutation ctx request p effect) (fun m' _ => idle m').
Proof.
  intros (_ & _ & (allow_http & Hwf) & _ & Ha) Hready. pose proof Hready as [Hi _]. unfold execute_prepared_mutation.
  apply meter_then; [by apply quiet_ask|]. intros started. apply meter_then.
  { apply quiet_of, quiet_prepared_secret. }
  intros resolved. apply follows_finish; [|done]. intros secret _. apply follows_finish; [|done]. intros bytes _.
  apply meter_then; [apply quiet_of, quiet_event|]. intros emitted. apply follows_finish; [|done]. intros _ _.
  apply follows_bind. eapply follows_mono; [eapply execute_hops_follows; [exact Hwf|exact Ha|done]|].
  intros m' result Hi'. apply meter_then; [apply quiet_of, quiet_elapsed|]. intros elapsed.
  destruct result; [..|done|done].
  - apply meter_act; [apply quiet_finish_response|intros _|done]. apply meter_act; [apply quiet_of, quiet_event|done|done].
  - apply meter_act; [apply quiet_finish_error|intros _|done]. apply meter_act; [apply quiet_of, quiet_event|done|done].
Qed.

Lemma mutate_follows ctx request m : ready request m -> follows m (mutate ctx request) (fun m' _ => idle m').
Proof.
  intros Hready. pose proof Hready as [Hi _]. unfold mutate.
  apply follows_host, meter_quiet; [apply quiet_of, quiet_prepare|]. intros [before|e| |]; try done.
  unfold of_host, host_bind at 1. cbn [io_bind]. destruct (approval_action request before) as [action|]; [|done].
  unfold host_bind at 1, request_approval. cbn [io_bind ask]. split; [done|]. intros [[|]|e] _; [|done..].
  change (tracks m (QApproval action (approval_timeout ctx)) (inl Approved)) with m.
  cbn beta iota. apply follows_host.
  eapply (meter_of_holds []); [apply (prepare_spec ctx _ request); by intros ? []|].
  intros h' [after|e| |] [_ Hr]; try done. specialize (Hr _ eq_refl). case_match; [done|].
  apply follows_host, meter_quiet; [apply quiet_begin|]. intros [[effect|effect]|e| |]; try done.
  apply follows_host. eapply follows_mono; [by eapply execute_prepared_follows|]. by intros m' [x|e| |] Hi'.
Qed.

Lemma http_request_follows args ctx request :
  request_from_value args = inr request ->
  follows (mkMeter (send_limit (upper (req_method request))) None) (http_request args ctx) (fun m' _ => idle m').
Proof.
  intros Hargs. unfold http_request, decode_args. rewrite Hargs. cbn [host_bind io_bind].
  assert (Hr : ready request (mkMeter (send_limit (upper (req_method request))) None)) by done.
  case_match; [|by apply mutate_follows]. apply follows_host. eapply follows_mono; [by apply execute_scoped_follows|].
  by intros m' [x|e| |] Hi.
Qed.

Lemma allowed_prefix (h1 h2 : list (Event Answer)) : allowed_history any_answer (h1 ++ h2) -> allowed_history any_answer h1.
Proof. intros Ha g1 q r g2 ->. apply (Ha g1 q r (g2 ++ h2)). by rewrite <- app_assoc. Qed.

(** C20: A call stays within its budget.  Whatever the world answers, a call of
    [http.request] sends at most six requests, and at most one when its method is
    not GET or HEAD; each of them is sent under an open reservation: at that moment
    the reservations granted so far are those settled so far and one more.  The
    reservations of budget that the call was granted are settled in the order they
    were granted, all but possibly the last one while the call runs, and all of them
    when it came to its end. *)
Theorem budget_settled args ctx request h t :
  request_from_value args = inr request ->
  runs (http_request args ctx) h t -> allowed_history any_answer h ->
  (length (List.filter is_send h) <= send_limit (upper (req_method request)))%nat
  /\ (forall h1 q answer h2, h = h1 ++ asked q answer :: h2 -> is_send (asked q answer) = true ->
       exists reservation, granted_in h1 = settled_in h1 ++ [reservation])
  /\ (exists pending, granted_in h = settled_in h ++ option_list pending)
  /\ forall result, t = Ret result -> granted_in h = settled_in h.
Proof.
  intros Hargs Hruns Hallowed. pose proof (http_request_follows args ctx request Hargs) as Hf.
  set (m := mkMeter _ None) in Hf. destruct (meter_run _ _ _ Hruns _ _ Hf Hallowed) as [Hn Hbal].
  split; [exact Hn|]. split; [|split; [by eexists|]].
  - intros h1 q answer h2 -> Hsend. pose proof (watch_allows _ _ _ _ _ _ _ _ Hruns Hf Hallowed) as Hq.
    destruct (runs_split _ h1 _ _ Hruns) as (t1 & Hr1 & _).
    destruct (meter_run _ _ _ Hr1 _ _ Hf (allowed_prefix _ _ Hallowed)) as [_ Hbal1].
    destruct (open_reservation (watch m h1)) as [reservation|] eqn:Eo; [by exists reservation|].
    destruct q as [| | | | | | | | | | | | | | | | |[]]; try done. by destruct Hq.
  - intros result ->. pose proof (watch_run _ _ _ Hruns _ _ Hf Hallowed) as Hi. cbn in Hi. unfold idle in Hi.
    rewrite Hi in Hbal. cbn in Hbal. by rewrite app_nil_r in Hbal.
Qed.
End Calls.

(** ** The monitor of the effects

    What the call saw of the peer: whether a peer answered with a status below 400,
    whether a request went out without an answer in time, and the refusal of the
    store to finish a record. *)

Definition uncertain_error (e : EgressError) : bool :=
  match e with Transport | Timeout | Audit | Durability _ => true | _ => false end.

Record Account := mkAccount { lost : bool; welcomed : bool; refused : option EgressError }.

Section Account.
Context `{UrlLib} `{JsonNumber}.

(** The request went out and no answer, or no body, came back in time. *)
Definition unanswered (e : Event Answer) : bool :=
  match e with
  | existT (QTimed (QSend _)) (None | Some None) | existT (QTimed QStream) None => true
  | _ => false
  end.

(** A peer answered with a status below 400. *)
Definition welcome (e : Event Answer) : bool :=
  match e with existT (QTimed (QSend _)) (Some (Some peer)) => (peer_status peer <? 400)%N | _ => false end.

(** A settlement of the budget that did not fail, or failed as the stores fail. *)
Definition settles_durably (e : Event Answer) : bool :=
  match e with existT (QSettle _ _ _) (Err e) => uncertain_error e | _ => true end.

Definition accountable (s : Account) (q : Query) : Prop :=
  refused s = None
  /\ match q with
     | QFinish _ outcome _ _ _ _ =>
         status_is_terminal outcome = true /\ (outcome = Succeeded -> welcomed s = true)
         /\ (lost s = true -> outcome = Uncertain)
     | QSend _ => False
     | _ => True
     end.

Definition note_event (s : Account) (q : Query) (r : Answer q) : Account :=
  mkAccount ((lost s || unanswered (asked q r)) && settles_durably (asked q r))
    (welcomed s || welcome (asked q r))
    (match q return Answer q -> option EgressError with
     | QFinish _ _ _ _ _ _ => fun r => match r with Err e => Some e | _ => None end
     | _ => fun _ => refused s
     end r).

#[export] Instance account_monitor : Monitor Account := { allows := accountable; tracks := note_event }.

#[export] Instance account_overlooks l w : Overlooks (mkAccount l w None) noted.
Proof.
  intros q Hq. split; [by destruct q as [| | | | | | | | | | | | | | | | |[]]|]. intros r. unfold tracks. cbn. unfold note_event.
  assert (Hu : unanswered (asked q r) = false) by (by destruct q as [| | | | | | | | | | | | | | | | |[]]).
  assert (Hw : welcome (asked q r) = false) by (by destruct q as [| | | | | | | | | | | | | | | | |[]]).
  assert (Hd : settles_durably (asked q r) = true) by (by destruct q).
  rewrite Hu, Hw, Hd. cbn. rewrite !orb_false_r, andb_true_r. by destruct q.
Qed.
End Account.

Section Effects.
Context `{UrlLib} `{JsonNumber} `{!JsonText} `{!JsonParse} `{Sha256} `{HttpLib} `{IpNetLib} `{!ArgsCodec}.

(** The rules for parts that the account does not see. *)
Abbreviation account_quiet := (follows_quiet noted _ (Overlooks0 := account_overlooks _ _)).
Abbreviation account_act := (follows_act noted _ (Overlooks0 := account_overlooks _ _)).
Abbreviation account_then := (follows_then noted _ (Overlooks0 := account_overlooks _ _)).

(** What is known when the request is over: a response means that nothing was lost and
    its status is the one of a peer; the error of a lost request is an uncertain one. *)
Definition explained {A} (status_of : A -> option N) (s : Account) (r : EgressResult A) : Prop :=
  refused s = None
  /\ match r with
     | Ok a => lost s = false /\ (forall status, status_of a = Some status -> (status < 400)%N -> welcomed s = true)
     | Err e => lost s = true -> uncertain_error e = true
     | _ => True
     end.


Lemma explained_failure {A B} (f : A -> option N) (g : B -> option N) s e : explained f s (Err e) -> explained g s (Err e).
Proof. done. Qed.



















(** ** What the account says of a run *)







End Effects.
