(* ===== verification/PreviewFacts.v ===== *)
(** * What an approval shows and what a response hides

    The preview of a request body is bounded and shows no text under a sensitive
    name and none that looks like a credential; the response of a request that
    carried a secret is made of pieces that do not contain it. *)

From stdpp Require Import base tactics list gmap strings.
From Stdlib Require Import NArith ZArith Lia Ascii.
From S2P Require Import Prelude BTree Text Strings Value ValueFacts Render ServerBase Host Net EgressState EgressConfig EgressPolicy PolicyFacts EgressBroker Io EgressRuntime EgressHost.

Section Preview.
Context `{JsonNumber}.

(** The texts among the values of a JSON value. *)
Fixpoint texts (j : Json) : list string :=
  match j with
  | JString s => [s]
  | JArray js => concat (List.map texts js)
  | JObject fs => concat (List.map (fun f => texts f.2) fs)
  | JNull | JBool _ | JNumber _ => []
  end.

(** The texts that may be shown: not under a sensitive name, and not like a secret. *)
Fixpoint showable (j : Json) : list string :=
  match j with
  | JString s => if looks_like_secret s then [] else [s]
  | JArray js => concat (List.map showable js)
  | JObject fs => concat (List.map (fun f => if sensitive_key f.1 then [] else showable f.2) fs)
  | JNull | JBool _ | JNumber _ => []
  end.

Definition marker (s : string) : Prop := s = "[TRUNCATED]"%string \/ s = "[REDACTED]"%string.

Definition shown (from : list string) (s : string) : Prop :=
  marker s \/ exists t n, In t from /\ (n <= MAX_APPROVAL_JSON_STRING_CHARS)%N /\ s = bounded_text t n.

Lemma shown_incl from from' s : incl from from' -> shown from s -> shown from' s.
Proof. intros Hi [Hm|(t & n & Ht & Hn & ->)]; [by left|]. right. exists t, n. split; [by apply Hi|done]. Qed.

Lemma texts_object (Q : string -> Prop) fs :
  Forall Q (texts (JObject fs)) <-> Forall (fun f : string * Json => Forall Q (texts f.2)) fs.
Proof.
  cbn. induction fs as [|f fs IH]; cbn; [by split; constructor|]. by rewrite Forall_app, Forall_cons, IH.
Qed.

Lemma texts_array (Q : string -> Prop) js : Forall Q (texts (JArray js)) <-> Forall (fun j => Forall Q (texts j)) js.
Proof. cbn. induction js as [|j js IH]; cbn; [by split; constructor|]. by rewrite Forall_app, Forall_cons, IH. Qed.

Lemma in_concat_map {A B} (f : A -> list B) x l : In x l -> incl (f x) (concat (List.map f l)).
Proof. intros Hx y Hy. apply in_concat. exists (f x). split; [by apply in_map|done]. Qed.

Lemma bounded_budget_shown from text b :
  In text from -> shown from (bounded_budget_text text MAX_APPROVAL_JSON_STRING_CHARS b).1.
Proof. intros Ht. right. eexists _, _. split; [exact Ht|]. split; [|reflexivity]. apply N.le_min_l. Qed.

(** The loops keep a property of what they show. *)
Section Loops.
Variable preview_of : Json -> JsonPreviewBudget -> Json * JsonPreviewBudget.
Variable Q : Json -> Prop.
Hypothesis Qmarkers : Q truncated /\ Q redacted /\ Q (JBool true).

Lemma values_keep values :
  Forall (fun v => forall b, Q (preview_of v b).1) values ->
  forall preview b, Forall Q preview -> Forall Q (preview_values preview_of values preview b).1.
Proof.
  induction 1 as [|v rest Hv Hrest IH]; intros preview b Hp; [done|]. cbn [preview_values].
  destruct (nodes b =? 0)%N; [apply Forall_app; split; [done|]; repeat constructor; tauto|].
  specialize (Hv b). destruct (preview_of v b) as [p b']. apply IH. apply Forall_app. split; [done|]. by constructor.
Qed.

Lemma members_keep members :
  Forall (fun m => sensitive_key m.1 = false -> forall b, Q (preview_of m.2 b).1) members ->
  forall preview b, Forall (fun m => Q m.2) preview ->
  Forall (fun m => Q m.2) (preview_members preview_of members preview b).1.
Proof.
  induction 1 as [|[key v] rest Hv Hrest IH]; intros preview b Hp; [done|]. cbn [preview_members].
  destruct (nodes b =? 0)%N; [by apply Forall_bm_insert; [apply Qmarkers|]|].
  destruct (bounded_budget_text key _ b) as [key_preview b1]. destruct (sensitive_key key) eqn:Es.
  - apply IH, Forall_bm_insert; [apply Qmarkers|done].
  - specialize (Hv Es b1). cbn in Hv. destruct (preview_of v b1) as [p b2]. by apply IH, Forall_bm_insert.
Qed.
End Loops.

Lemma preview_shows value : forall depth b, Forall (shown (showable value)) (texts (redacted_json_preview value depth b).1).
Proof.
  induction value as [|x|n|s|js IH|fs IH] using json_induction; intros depth b; cbn [redacted_json_preview];
    (destruct (_ || _); [cbn; repeat constructor; by left|]); try (by constructor).
  - destruct (looks_like_secret s) eqn:El; [cbn; repeat constructor; by right|].
    pose proof (bounded_budget_shown (showable (JString s)) s (spend b)) as Hb.
    destruct (bounded_budget_text s _ (spend b)) as [bounded b']. cbn [fst texts] in *. constructor; [|constructor]. apply Hb.
    cbn. rewrite El. by left.
  - destruct (preview_values _ _ _ _) as [preview b'] eqn:Ep. cbn [fst]. apply texts_array.
    replace preview with (preview, b').1 by done. rewrite <- Ep.
    apply (values_keep _ (fun p => Forall (shown (showable (JArray js))) (texts p))); [|..|constructor].
    { split; [|split]; cbn; repeat constructor; by (left || right). }
    rewrite List.Forall_forall in IH |- *. intros v Hv b0. eapply Forall_impl; [by apply IH|].
    intros s. apply shown_incl. by apply (in_concat_map showable).
  - destruct (preview_members _ _ _ _) as [preview b'] eqn:Ep. cbn [fst]. apply texts_object.
    replace preview with (preview, b').1 by done. rewrite <- Ep.
    apply (members_keep _ (fun p => Forall (shown (showable (JObject fs))) (texts p))); [|..|constructor].
    { split; [|split]; cbn; repeat constructor; by (left || right). }
    rewrite List.Forall_forall in IH |- *. intros m Hm Hs b0. eapply Forall_impl; [by apply IH|].
    intros s. apply shown_incl. intros t Ht.
    apply (in_concat_map (fun f => if sensitive_key f.1 then [] else showable f.2) m fs Hm). by rewrite Hs.
Qed.

(** ** The size of a preview *)

(** The nodes of a preview that are not markers of something left out. *)
Fixpoint expanded (p : Json) : N :=
  match p with
  | JString s => if String.eqb s "[TRUNCATED]" then 0 else 1
  | JArray js => fold_right (fun j n => expanded j + n) 1 js
  | JObject fs => fold_right (fun f n => (if String.eqb f.1 "[TRUNCATED]" then 0 else expanded f.2) + n) 1 fs
  | JNull | JBool _ | JNumber _ => 1
  end%N.

(** All the nodes. *)
Fixpoint all_nodes (p : Json) : N :=
  match p with
  | JArray js => fold_right (fun j n => all_nodes j + n) 1 js
  | JObject fs => fold_right (fun f n => all_nodes f.2 + n) 1 fs
  | JNull | JBool _ | JNumber _ | JString _ => 1
  end%N.

Definition weight (m : string * Json) : N := if String.eqb m.1 "[TRUNCATED]" then 0 else expanded m.2.
Definition total {A} (f : A -> N) (l : list A) : N := foldr (fun x n => f x + n)%N 0%N l.

Lemma total_app {A} (f : A -> N) l k : total f (l ++ k) = (total f l + total f k)%N.
Proof. unfold total. induction l as [|x l IH]; cbn; [done|]. rewrite IH. lia. Qed.

Lemma expanded_array js : expanded (JArray js) = (total expanded js + 1)%N.
Proof. unfold total. cbn. induction js as [|j js IH]; cbn; [done|]. rewrite IH. lia. Qed.

Lemma expanded_object fs : expanded (JObject fs) = (total weight fs + 1)%N.
Proof. unfold total. cbn. induction fs as [|f fs IH]; cbn; [done|]. rewrite IH. unfold weight. lia. Qed.

Lemma total_insert k v fs : (total weight (bm_insert k v fs) <= total weight fs + weight (k, v))%N.
Proof.
  unfold total. induction fs as [|[k' v'] fs IH]; cbn -[weight]; [lia|].
  destruct (String.compare k k'); cbn -[weight]; lia.
Qed.

Section Spending.
Variable preview_of : Json -> JsonPreviewBudget -> Json * JsonPreviewBudget.

Definition spends (p : Json * JsonPreviewBudget) (b : JsonPreviewBudget) : Prop :=
  (expanded p.1 + nodes p.2 <= nodes b)%N.

Lemma values_spend values : Forall (fun v => forall b, spends (preview_of v b) b) values -> forall preview b,
  let r := preview_values preview_of values preview b in
  (total expanded r.1 + nodes r.2 <= total expanded preview + nodes b)%N.
Proof.
  induction 1 as [|v rest Hv Hrest IH]; intros preview b; cbn [preview_values]; [cbn [fst snd]; lia|].
  destruct (nodes b =? 0)%N; [cbn [fst snd]; rewrite total_app; change (total expanded [truncated]) with 0%N; lia|].
  specialize (Hv b). unfold spends in Hv. destruct (preview_of v b) as [p b']. cbn [fst snd] in Hv.
  specialize (IH (preview ++ [p]) b'). cbn zeta in IH |- *. rewrite total_app in IH. change (total expanded [p]) with (expanded p + 0)%N in IH. lia.
Qed.

Lemma budget_text_nodes s n b : nodes (bounded_budget_text s n b).2 = nodes b.
Proof. done. Qed.

Lemma weight_le k v : (weight (k, v) <= expanded v)%N.
Proof. unfold weight. cbn. case_match; lia. Qed.

Lemma members_spend members : Forall (fun m : string * Json => forall b, spends (preview_of m.2 b) b) members ->
  forall preview b, let r := preview_members preview_of members preview b in
  (total weight r.1 + nodes r.2 <= total weight preview + nodes b)%N.
Proof.
  induction 1 as [|[key v] rest Hv Hrest IH]; intros preview b; cbn [preview_members]; [cbn [fst snd]; lia|].
  destruct (N.eqb_spec (nodes b) 0) as [Hz|Hz].
  { pose proof (total_insert "[TRUNCATED]" (JBool true) preview) as Hi. cbn [fst snd]. change (weight _) with 0%N in Hi. lia. }
  pose proof (budget_text_nodes key MAX_APPROVAL_JSON_KEY_CHARS b) as Hk.
  destruct (bounded_budget_text key _ b) as [key_preview b1]. cbn [snd] in Hk.
  assert (Hstep : forall p b2, (expanded p + nodes b2 <= nodes b1)%N ->
    let r := preview_members preview_of rest (bm_insert key_preview p preview) b2 in
    (total weight r.1 + nodes r.2 <= total weight preview + nodes b)%N).
  { intros p b2 Hp. specialize (IH (bm_insert key_preview p preview) b2). cbn zeta in IH |- *.
    pose proof (total_insert key_preview p preview). pose proof (weight_le key_preview p). lia. }
  destruct (sensitive_key key); [apply Hstep; cbn; lia|].
  specialize (Hv b1). unfold spends in Hv. cbn [snd] in Hv. destruct (preview_of v b1) as [p b2]. by apply Hstep.
Qed.
End Spending.

Lemma preview_spends value : forall depth b, spends (redacted_json_preview value depth b) b.
Proof.
  unfold spends. induction value as [|x|n|s|js IH|fs IH] using json_induction; intros depth b; cbn [redacted_json_preview];
    (destruct (N.eqb_spec (nodes b) 0); [cbn; lia|]); (destruct (_ <? _)%N; [cbn; lia|]); cbn [orb]; try (cbn; lia).
  - destruct (looks_like_secret s); [cbn; lia|]. pose proof (budget_text_nodes s MAX_APPROVAL_JSON_STRING_CHARS (spend b)) as Hk.
    destruct (bounded_budget_text s _ _) as [text b']. cbn [fst snd expanded] in *. cbn in Hk. case_match; lia.
  - pose proof (values_spend (fun v b => redacted_json_preview v (depth + 1) b) js) as Hv.
    specialize (Hv (Forall_impl _ _ _ IH (fun v Hv => Hv _)) [] (spend b)). cbn zeta in Hv.
    destruct (preview_values _ _ _ _) as [preview b']. cbn [fst snd] in *. rewrite expanded_array. cbn in Hv. lia.
  - pose proof (members_spend (fun v b => redacted_json_preview v (depth + 1) b) fs) as Hv.
    specialize (Hv (Forall_impl _ _ _ IH (fun v Hv => Hv _)) [] (spend b)). cbn zeta in Hv.
    destruct (preview_members _ _ _ _) as [preview b']. cbn [fst snd] in *. rewrite expanded_object. cbn in Hv. lia.
Qed.

(** What a person is shown of a request body.  The preview of a JSON body shows,
    among its values, only markers and the beginnings of texts of the body that are
    neither under a sensitive name nor look like a credential, and expands at most 64
    nodes of the body. *)
Lemma approval_preview_hides `{!JsonParse} body value preview :
  (str_len body <= MAX_APPROVAL_JSON_BYTES)%N -> json_parse body = Some value ->
  json_body_preview body = Some preview ->
  Forall (shown (showable value)) (texts preview) /\ (expanded preview <= MAX_APPROVAL_JSON_NODES)%N.
Proof.
  intros Hlen Hparse. unfold json_body_preview. rewrite Hparse. destruct (N.ltb_spec MAX_APPROVAL_JSON_BYTES (str_len body)); [lia|].
  intros [= <-]. split; [apply preview_shows|].
  pose proof (preview_spends value 0 (mkPreviewBudget MAX_APPROVAL_JSON_NODES MAX_APPROVAL_JSON_TEXT_BYTES)) as Hs.
  unfold spends in Hs. cbn [nodes] in Hs. lia.
Qed.

Lemma values_truncated depth n : forall preview b, nodes b <> 0%N -> (MAX_APPROVAL_JSON_DEPTH < depth)%N ->
  preview_values (fun v b => redacted_json_preview v depth b) (replicate n JNull) preview b
  = (preview ++ replicate n truncated, b).
Proof.
  induction n as [|n IH]; intros preview b Hb Hd; cbn [replicate preview_values]; [by rewrite app_nil_r|].
  rewrite (proj2 (N.eqb_neq _ _) Hb). cbn [redacted_json_preview]. rewrite (proj2 (N.eqb_neq _ _) Hb).
  rewrite (proj2 (N.ltb_lt _ _) Hd). cbn [orb]. rewrite IH by done. by rewrite <- app_assoc.
Qed.

Lemma preview_array depth b values : nodes b <> 0%N -> (depth <= MAX_APPROVAL_JSON_DEPTH)%N ->
  redacted_json_preview (JArray values) depth b =
  let '(preview, b) := preview_values (fun v b => redacted_json_preview v (depth + 1) b) values [] (spend b) in
  (JArray preview, b).
Proof.
  intros Hb Hd. cbn [redacted_json_preview]. by rewrite (proj2 (N.eqb_neq _ _) Hb), (proj2 (N.ltb_ge _ _) Hd).
Qed.

Lemma preview_single depth b v p b' : (2 <= nodes b)%N -> (depth <= MAX_APPROVAL_JSON_DEPTH)%N ->
  redacted_json_preview v (depth + 1) (spend b) = (p, b') ->
  redacted_json_preview (JArray [v]) depth b = (JArray [p], b').
Proof.
  intros Hb Hd Hv. rewrite preview_array by (done || lia). cbn [preview_values].
  rewrite (proj2 (N.eqb_neq (nodes (spend b)) 0)) by (cbn; lia). by rewrite Hv.
Qed.

(** The markers are not counted: an array below the depth limit shows one for each of
    its values. *)
Lemma markers_unbounded n :
  all_nodes (redacted_json_preview (JArray [JArray [JArray [JArray [JArray (replicate n JNull)]]]]) 0
    (mkPreviewBudget MAX_APPROVAL_JSON_NODES MAX_APPROVAL_JSON_TEXT_BYTES)).1 = (N.of_nat n + 5)%N.
Proof.
  erewrite preview_single; [|done|done|]. 2:{ do 3 (apply preview_single; [done|done|]).
    rewrite preview_array by done. by rewrite values_truncated. }
  cbn [fst app]. assert (Hn : all_nodes (JArray (replicate n truncated)) = (N.of_nat n + 1)%N).
  { cbn [all_nodes]. induction n as [|n IH]; [done|]. cbn [replicate fold_right]. rewrite IH. cbn [all_nodes truncated]. lia. }
  cbn [all_nodes fold_right] in *. lia.
Qed.
End Preview.

(** ** Secrets in responses *)

(** One list within another. *)
Definition infix {A} (p l : list A) : Prop := exists a b, l = a ++ p ++ b.

(** A separator outside of [p] splits its occurrences. *)
Lemma infix_separated {A} (p a b : list A) c : p <> [] -> ~ In c p -> infix p (a ++ c :: b) -> infix p a \/ infix p b.
Proof.
  intros Hne Hc (x & y & He). revert x He. induction a as [|a0 a IH]; intros x He; cbn in He.
  - destruct x as [|x0 x]; cbn in He.
    + destruct p as [|p0 p]; [done|]. injection He as -> _. exfalso. apply Hc. by left.
    + injection He as -> ->. right. by exists x, y.
  - destruct x as [|x0 x]; cbn in He.
    + left. exists [], (drop (length p) (a0 :: a)). cbn [app].
      assert (Hl : (length p <= length (a0 :: a))%nat).
      { destruct (Nat.le_gt_cases (length p) (length (a0 :: a))) as [|Hgt]; [done|]. exfalso. apply Hc.
        assert (Hn : nth_error p (length (a0 :: a)) = Some c).
        { rewrite <- (nth_error_app1 p y) by lia. change (p ++ y) with ([] ++ p ++ y). rewrite <- He.
          change (a0 :: a ++ c :: b) with ((a0 :: a) ++ c :: b). rewrite (nth_error_app2 (a0 :: a) (c :: b)) by reflexivity.
          by rewrite Nat.sub_diag. }
        by eapply nth_error_In. }
      apply (f_equal (take (length p))) in He. rewrite take_app_length in He.
      change (a0 :: a ++ c :: b) with ((a0 :: a) ++ c :: b) in He. rewrite take_app_le in He by done.
      rewrite <- He at 1. by rewrite take_drop.
    + injection He as -> He. destruct (IH x He) as [(u & v & ->)|Hb]; [left; by exists (x0 :: u), v|by right].
Qed.

Lemma is_prefix_true pat l : is_prefix pat l = true <-> exists rest, l = pat ++ rest.
Proof.
  revert l. induction pat as [|a pat IH]; intros l; cbn [is_prefix].
  - split; [|done]. intros _. by exists l.
  - destruct l as [|b l]; [split; [done|by intros [rest [=]]]|]. rewrite andb_true_iff, Ascii.eqb_eq, IH. split.
    + intros [-> [rest ->]]. by exists rest.
    + intros [rest [= -> ->]]. split; [done|]. by exists rest.
Qed.

Section Replace.
Variable pat mid : list ascii.
Variable opening closing : ascii.
Hypothesis pat_nonempty : pat <> [].
Hypothesis no_opening : ~ In opening pat.
Hypothesis no_closing : ~ In closing pat.
Hypothesis not_mid : ~ infix pat mid.

Let by_ : list ascii := opening :: mid ++ [closing].

(** What begins a replaced text without a marker began the text. *)
Lemma replaced_prefix q : ~ In opening q -> forall l, (exists rest, replace_all pat by_ 0 l = q ++ rest) ->
  exists rest, l = q ++ rest.
Proof.
  induction q as [|c q IH]; intros Hq l [rest Hr]; [by exists l|].
  destruct l as [|a l]; [done|]. cbn [replace_all] in Hr. destruct (is_prefix pat (a :: l)).
  - injection Hr as Hc _. exfalso. apply Hq. by left.
  - injection Hr as -> Hr. destruct (IH (fun Hin => Hq (or_intror Hin)) l) as [r ->]; [by exists rest|]. by exists r.
Qed.

Lemma replaced_free l : forall skip, ~ infix pat (replace_all pat by_ skip l).
Proof.
  induction l as [|a l IH]; intros skip; cbn [replace_all].
  - intros (x & y & He). destruct x; [|done]. destruct pat; done.
  - destruct skip as [|skip]; [|apply IH]. destruct (is_prefix pat (a :: l)) eqn:Ep.
    + unfold by_ at 1. intros Hi. change ((opening :: mid ++ [closing]) ++ replace_all pat by_ (length pat - 1) l)
        with ([] ++ opening :: (mid ++ [closing]) ++ replace_all pat by_ (length pat - 1) l) in Hi.
      rewrite <- app_assoc in Hi. apply infix_separated in Hi as [(x & y & He)|Hi]; [|..|done|done].
      * destruct x; [|done]. destruct pat; done.
      * change ([closing] ++ ?r) with (closing :: r) in Hi. apply infix_separated in Hi as [Hi|Hi]; [done| |done|done].
        by apply IH in Hi.
    + intros (x & y & He). destruct x as [|x0 x]; cbn in He.
      * apply not_true_iff_false in Ep. apply Ep. destruct pat as [|p0 p] eqn:Epat; [done|]. injection He as -> He.
        rewrite <- Epat in *. destruct (replaced_prefix p) with (l := l) as [r ->].
        -- intros Hin. apply no_opening. rewrite Epat. by right.
        -- by exists y.
        -- apply is_prefix_true. exists r. by rewrite Epat.
      * injection He as -> He. apply (IH 0%nat). by exists x, y.
Qed.
End Replace.

(** Whatever the pattern: a replaced text is made of pieces of the text that are free of
    the pattern, joined by what replaces it. *)
Definition joined (sep : list ascii) (first : list ascii) (rest : list (list ascii)) : list ascii :=
  first ++ mjoin (List.map (app sep) rest).

Lemma replace_skip pat by_ n : forall l, replace_all pat by_ n l = replace_all pat by_ 0 (drop n l).
Proof. induction n as [|n IH]; intros l; [done|]. destruct l as [|a l]; [done|]. apply IH. Qed.

Lemma replaced_pieces pat by_ : pat <> [] -> forall n l, (length l <= n)%nat ->
  exists first rest, l = joined pat first rest /\ replace_all pat by_ 0 l = joined by_ first rest
    /\ Forall (fun p => ~ infix pat p) (first :: rest).
Proof.
  intros Hne. assert (Hnil : ~ infix pat []).
  { intros (x & y & He). destruct x; [|done]. by destruct pat. }
  induction n as [|n IH]; intros l Hl.
  { destruct l; [|cbn in Hl; lia]. exists [], []. by repeat constructor. }
  destruct l as [|a l]; [exists [], []; by repeat constructor|]. cbn [replace_all]. cbn in Hl.
  destruct (is_prefix pat (a :: l)) eqn:Ep.
  - rewrite replace_skip. apply is_prefix_true in Ep as [rest Hp].
    assert (Hd : drop (length pat - 1) l = rest).
    { destruct pat as [|p0 p]; [done|]. injection Hp as -> ->. cbn [length]. rewrite Nat.sub_succ, Nat.sub_0_r. apply drop_app_length. }
    destruct (IH rest) as (f & r & Hf & Hr & Hfree).
    { apply (f_equal length) in Hp. cbn in Hp. rewrite length_app in Hp. destruct pat; [done|cbn in Hp; lia]. }
    exists [], (f :: r). rewrite Hd, Hp. split; [by rewrite Hf at 1; cbn; rewrite <- app_assoc|].
    split; [by rewrite Hr; cbn; rewrite <- app_assoc|]. by constructor.
  - destruct (IH l) as (f & r & Hf & Hr & Hfree); [lia|]. exists (a :: f), r.
    split; [by rewrite Hf at 1|]. split; [by rewrite Hr|]. apply Forall_cons in Hfree as [H1 H2].
    constructor; [|done]. intros (x & y & He). destruct x as [|x0 x]; cbn in He.
    + apply not_true_iff_false in Ep. apply Ep, is_prefix_true. exists (y ++ mjoin (List.map (app pat) r)).
      rewrite Hf. unfold joined. by rewrite app_comm_cons, He, app_assoc.
    + injection He as -> He. apply H1. by exists x, y.
Qed.

(** A text occurs in another. *)
Definition occurs (needle text : string) : Prop :=
  infix (String.list_ascii_of_string needle) (String.list_ascii_of_string text).

(** Secrets that cannot be mistaken for the marker: without brackets, and not a part
    of its word. *)
Definition plain_secret (value : string) : Prop :=
  value <> ""%string /\ ~ In "["%char (String.list_ascii_of_string value)
  /\ ~ In "]"%char (String.list_ascii_of_string value) /\ ~ occurs value "REDACTED_SECRET".

Lemma str_append_list s t :
  String.list_ascii_of_string (s ++ t) = String.list_ascii_of_string s ++ String.list_ascii_of_string t.
Proof.
  induction s as [|a s IH]; [done|].
  change (a :: String.list_ascii_of_string (s ++ t) = a :: String.list_ascii_of_string s ++ String.list_ascii_of_string t).
  by rewrite IH.
Qed.

Lemma substring_app a s b : String.substring (String.length a) (String.length s) (a ++ s ++ b) = s.
Proof.
  induction a as [|x a IH]; [exact (substring_whole s b)|].
  change (String.substring (String.length a) (String.length s) (a ++ s ++ b) = s). exact IH.
Qed.

Lemma occurs_contains needle text : needle <> ""%string -> occurs needle text -> str_contains needle text = true.
Proof.
  intros Hne (a & b & He). unfold str_contains. destruct (String.index 0 needle text) as [n|] eqn:Ei; [done|]. exfalso.
  assert (Ht : text = (String.string_of_list_ascii a ++ needle ++ String.string_of_list_ascii b)%string).
  { rewrite <- (String.string_of_list_ascii_of_string text), He.
    rewrite <- (String.string_of_list_ascii_of_string (String.string_of_list_ascii a ++ _)). f_equal.
    by rewrite !str_append_list, !String.list_ascii_of_string_of_list_ascii. }
  subst text. eapply (String.index_correct3 _ (String.length (String.string_of_list_ascii a))); [exact Ei|done|lia|].
  apply substring_app.
Qed.

Lemma redact_exact_hides text secret : plain_secret secret -> ~ occurs secret (redact_exact text secret).1.
Proof.
  intros (Hne & Ho & Hc & Hm). unfold redact_exact, is_empty. destruct (String.eqb_spec secret ""); [done|]. cbn [orb].
  destruct (str_contains secret text) eqn:Es; cbn [negb fst].
  - unfold occurs, replace. rewrite String.list_ascii_of_string_of_list_ascii.
    apply (replaced_free _ (String.list_ascii_of_string "REDACTED_SECRET") "[" "]"); [|done|done|done].
    intros Hn. apply Hne. rewrite <- (String.string_of_list_ascii_of_string secret), Hn. done.
  - intros Hocc%occurs_contains; [congruence|done].
Qed.

(** A text of pieces without the secret, joined by the marker. *)
Definition marked (secret text : string) : Prop :=
  exists pieces, text = String.concat "[REDACTED_SECRET]" pieces /\ Forall (fun p => ~ occurs secret p) pieces.

Lemma concat_joined sep first rest :
  String.concat sep (List.map String.string_of_list_ascii (first :: rest))
    = String.string_of_list_ascii (joined (String.list_ascii_of_string sep) first rest).
Proof.
  revert first. induction rest as [|p rest IH]; intros first; unfold joined.
  { cbn. by rewrite app_nil_r. }
  change (String.concat sep (List.map String.string_of_list_ascii (first :: p :: rest)))
    with (String.string_of_list_ascii first ++ sep ++ String.concat sep (List.map String.string_of_list_ascii (p :: rest)))%string.
  rewrite IH. unfold joined. rewrite <- (String.string_of_list_ascii_of_string (_ ++ sep ++ _)). f_equal.
  by rewrite !str_append_list, !String.list_ascii_of_string_of_list_ascii; cbn; rewrite <- !app_assoc.
Qed.

Lemma redact_exact_marks text secret : secret <> ""%string -> marked secret (redact_exact text secret).1.
Proof.
  intros Hne. unfold redact_exact, is_empty. destruct (String.eqb_spec secret ""); [done|]. cbn [orb].
  destruct (str_contains secret text) eqn:Es; cbn [negb fst].
  - unfold replace. assert (Hp : String.list_ascii_of_string secret <> []) by (by destruct secret).
    destruct (replaced_pieces _ (String.list_ascii_of_string "[REDACTED_SECRET]") Hp _ (String.list_ascii_of_string text) (le_n _))
      as (first & rest & _ & Hr & Hfree).
    exists (List.map String.string_of_list_ascii (first :: rest)). split; [by rewrite concat_joined, Hr|].
    apply Forall_map. eapply Forall_impl; [exact Hfree|]. intros p. unfold occurs. cbn.
    by rewrite String.list_ascii_of_string_of_list_ascii.
  - exists [text]. split; [done|]. constructor; [|done]. intros Hocc%occurs_contains; [congruence|done].
Qed.

(** The texts of a response that are handed on. *)
Definition response_texts (P : string -> Prop) (r : HopResponse) : Prop :=
  match r with
  | HopRedirect _ => True
  | HopFinal _ body content_type headers _ _ =>
      P body /\ from_option P True content_type /\ Forall (fun h : string * string => P h.2) headers
  end.

Section Responses.
Context `{UrlLib} `{JsonNumber} `{HttpLib} `{IpNetLib}.
Context (P : string -> Prop) (s : ResolvedSecret).
Hypothesis redacted : forall text, P (redact_exact text (resolved_value s)).1.

Lemma redact_values_texts headers :
  Forall (fun h : string * string => P h.2) (redact_values (resolved_value s) headers).1.
Proof.
  set (secret := resolved_value s) in *. induction headers as [|h headers IH]; [constructor|].
  change (redact_values secret (h :: headers)) with
    (let '(value, n) := redact_exact h.2 secret in
     ((h.1, value) :: (redact_values secret headers).1, saturating_add n (redact_values secret headers).2)).
  pose proof (redacted h.2) as Hh. destruct (redact_exact h.2 secret) as [value n]. by constructor.
Qed.

Lemma redact_response_texts body content_type headers :
  let '(body, content_type, headers, _) := redact_response (Some s) body content_type headers in
  P body /\ from_option P True content_type /\ Forall (fun h : string * string => P h.2) headers.
Proof.
  unfold redact_response. pose proof (redacted body) as Hb.
  destruct (redact_exact body _) as [body' n]. pose proof (redact_values_texts headers) as Hh.
  destruct (redact_values _ headers) as [headers' k]. destruct content_type as [value|]; [|done].
  pose proof (redacted value) as Hc. by destruct (redact_exact value _) as [value' m].
Qed.

Lemma hop_texts a method request h r :
  runs (perform_hop a method request (Some s)) h (Ret (Ok r)) -> response_texts P r.
Proof.
  intros Hruns.
  enough (Hh : holds (fun _ _ _ => True) (fun _ _ => True)
    (fun _ x => forall r, x = Ok r -> response_texts P r) [] (perform_hop a method request (Some s))).
  { eapply (runs_post _ _ _ _ _ _ Hh Hruns); [by intros ? ? ? ? _|done]. }
  unfold perform_hop. cbn. split; [done|]. intros [answers|e| |] _; [|done..]. cbn.
  destruct (validate_resolved_addresses _ _ _); [|done..]. cbn. split; [done|]. intros [] _; [|done]. cbn.
  destruct (request_headers _ _ _); [|done..]. cbn. split; [done|]. intros [peer|] _; [|done].
  unfold receive. destruct (is_redirection _). { by repeat case_match; cbn; try done; intros ? [= <-]. }
  match goal with |- context [if ?b then err _ else _] => destruct b; [done|] end.
  destruct (exposed_response_headers _) as [exposed|e| |]; [|done..]. cbn -[redact_response]. split; [done|].
  intros chunks _. destruct (read_body _ _) as [bytes|e| |]; [|done..]. cbn -[redact_response]. destruct (from_utf8 bytes) as [body|e| |]; [|done..].
  cbn -[redact_response]. pose proof (redact_response_texts body
    (take_chars 256 <$> mjoin (header_get "content-type" (peer_headers peer))) exposed) as Hr.
  destruct (redact_response _ _ _ _) as [[[body' ct'] hs'] n]. cbn. intros ? [= <-]. exact Hr.
Qed.
End Responses.

(** C23: A response does not give a secret away.  When a request that carried a
    (non-empty) secret is answered, the body, the content type and the headers that are
    handed on consist of pieces that do not contain the value of the secret, joined by
    the marker that replaces it, whatever the peer sent.  When moreover the value has
    no brackets and is not a part of the word of the marker, the texts as a whole do
    not contain it; a value that overlaps the marker may come back across it. *)
Theorem response_hides_secret `{UrlLib} `{JsonNumber} `{HttpLib} `{IpNetLib} a method request s h r :
  resolved_value s <> ""%string ->
  runs (perform_hop a method request (Some s)) h (Ret (Ok r)) ->
  response_texts (marked (resolved_value s)) r
  /\ (plain_secret (resolved_value s) -> response_texts (fun text => ~ occurs (resolved_value s) text) r).
Proof.
  intros Hne Hruns. split.
  - eapply (hop_texts _ s); [|exact Hruns]. intros text. by apply redact_exact_marks.
  - intros Hp. eapply (hop_texts _ s); [|exact Hruns]. intros text. by apply redact_exact_hides.
Qed.

(** A secret that overlaps the marker can come back. *)
Example overlapping_secret_survives :
  (redact_exact "xx[" "x[").1 = "x[REDACTED_SECRET]"%string /\ str_contains "x[" (redact_exact "xx[" "x[").1 = true.
Proof. by vm_compute. Qed.
