(* ===== verification/EgressSample.v ===== *)
(** * Sample requests

    Parameters that can be evaluated, a world that answers the questions of the
    runtime and one whose peer is silent, and the theorems about the egress boundary
    at requests played in them. *)

From stdpp Require Import base tactics list gmap strings relations.
From Stdlib Require Import NArith ZArith Lia Ascii.
From S2P Require Import Prelude BTree Text Strings Value ValueFacts Render ServerBase Host Net EgressState EgressConfig EgressPolicy PolicyFacts EgressBroker Io EgressRuntime EgressHost EgressSafety EgressBounds PreviewFacts.

(** ** Parameters *)

(** URLs [https://host:port/path] of which the host is read without regard to case. *)
Record SampleUrl := mkSampleUrl { sample_text : string; sample_rest : string }.

Definition first_part (sep : ascii) (s : string) : string := default ""%string (head (split_at sep s)).

Definition sample_path (rest : string) : string :=
  ("/" ++ String.concat "/" (tail (split_at "/" rest)))%string.

Definition sample_parse (text : string) : option SampleUrl :=
  rest ← strip_prefix "https://" text; Some (mkSampleUrl text rest).

#[local] Instance sample_urls : UrlLib := {|
  url := SampleUrl;
  url_parse := sample_parse;
  url_join _ location := sample_parse location;
  url_as_str := sample_text;
  url_scheme_of _ := "https"%string;
  host_str u := Some (lower (first_part "/" (first_part ":" (sample_rest u))));
  username _ := ""%string;
  password _ := None;
  fragment _ := None;
  url_path u := sample_path (sample_rest u);
  url_query _ := None;
  query_pairs _ := [];
  cannot_be_a_base _ := false;
  port_or_known_default _ := Some 443%N;
|}.

Lemma split_at_lower sep s :
  (forall a, Ascii.eqb (byte_lower a) sep = Ascii.eqb a sep) -> split_at sep (lower s) = List.map lower (split_at sep s).
Proof.
  intros Hsep. induction s as [|a s IH]; [done|]. unfold lower in *. cbn [str_map split_at]. rewrite Hsep.
  destruct (Ascii.eqb a sep); [by rewrite IH|]. rewrite IH. by destruct (split_at sep s).
Qed.

Lemma first_part_lower sep s :
  (forall a, Ascii.eqb (byte_lower a) sep = Ascii.eqb a sep) -> first_part sep (lower s) = lower (first_part sep s).
Proof. intros Hsep. unfold first_part. rewrite split_at_lower by done. by destruct (split_at sep s). Qed.

Lemma first_part_app sep s t : first_part sep (s ++ String sep t) = first_part sep s.
Proof.
  unfold first_part. rewrite split_at_app. destruct (split_at sep s) eqn:E; [by apply split_at_nonempty in E|done].
Qed.

Lemma sample_origin host port (rest := (host ++ String ":" (display_u64 port ++ "/"))%string) :
  url_parse (origin_text "https" host port) = Some (mkSampleUrl (origin_text "https" host port) rest).
Proof.
  change (sample_parse (origin_text "https" host port) = Some (mkSampleUrl (origin_text "https" host port) rest)).
  unfold sample_parse. by rewrite (proj2 (strip_prefix_Some "https://" _ rest)).
Qed.

#[local] Instance sample_urls_laws : UrlLaws.
Proof.
  split. intros host port origin _. rewrite !sample_origin. intros [= <-]. eexists. split; [reflexivity|]. split; [|done].
  change (Some (lower (first_part "/" (first_part ":" (lower host ++ String ":" (display_u64 port ++ "/")))))
          = Some (lower (first_part "/" (first_part ":" (host ++ String ":" (display_u64 port ++ "/")))))).
  rewrite !first_part_app.
  rewrite first_part_lower by (intros a; by destruct a as [[] [] [] [] [] [] [] []]).
  rewrite first_part_lower by (intros a; by destruct a as [[] [] [] [] [] [] [] []]). by rewrite lower_idem.
Qed.

#[local] Existing Instances sample_numbers sample_nets.
#[local] Instance sample_json : JsonText := {| json_text _ := "{}"%string |}.
#[local] Instance sample_sha : Sha256 := fun s => s.
#[local] Instance sample_http : HttpLib :=
  {| header_name n := Some (lower n); header_value _ := true; http_method m := negb (is_empty m) |}.
#[local] Instance sample_http_laws : HttpLaws.
Proof. split. by intros name folded [= <-]. Qed.

(** A parser that makes an object of any body. *)
#[local] Instance sample_bodies : JsonParse := fun body =>
  Some (JObject [("note", JString body); ("password", JString body)]%string).

(** ** A policy *)

Definition research : EgressDestinationConfig :=
  mkDestination "research" 3 "https" "API.example.com" 443 ["/v1"%string] ["get"; "POST"]%string ["research"%string] 2 false
    15000 5000 4096 65536 8 65536 262144 60000 ["Accept"%string].

Definition research_api : EgressSecretConfig :=
  mkSecret "research_api" 1 "RESEARCH_API_TOKEN" ["research"%string] AuthorizationBearer.

Definition sample_config : EgressConfig := mkEgressConfig true session_limits_default [research] [research_api].

Lemma startup_policy_accepted_witness :
  exists v, validate_config sample_config false = Ok v /\ policy_wf false v
    /\ enforces sample_config v
    /\ bm_keys (valid_destinations v) = ["research"%string] /\ bm_keys (valid_secrets v) = ["research_api"%string].
Proof.
  destruct (startup_policy_accepted sample_config) as (v & Hv & Hwf & Hin); [vm_compute; reflexivity|].
  exists v. split; [exact Hv|]. split; [exact Hwf|]. split; [exact Hin|]. vm_compute in Hv. injection Hv as <-.
  split; reflexivity.
Defined.

Definition sample_policy : ValidatedConfig :=
  match validate_config sample_config false with Ok v => v | _ => mkValidated false session_limits_default [] [] end.

Definition sample_broker : Broker := mkBroker (mkRuntimeState sample_policy ∅ ∅ 1) ∅.

Definition used_broker : Broker :=
  mkBroker (policy_state sample_broker)
    (issue_handle 10 (Some "handle"%string) "session" None "research_api" 1 (handles sample_broker)).2.

Lemma broker_invariant_witness : broker_ok false used_broker /\ session_handles "session" (handles used_broker) = 1%N.
Proof.
  split; [|vm_compute; reflexivity].
  apply (broker_invariant false sample_config sample_broker).
  - vm_compute. reflexivity.
  - apply rtc_once. apply step_issue.
Defined.

Definition revoked_broker : Broker := (revoke_destination "research" sample_broker).2.

Lemma revocation_survives_witness : revoked "research" 3 (replace_policy 20 false sample_config revoked_broker).2.
Proof.
  apply (revocation_survives false sample_broker revoked_broker).
  - vm_compute. reflexivity.
  - vm_compute. reflexivity.
  - apply rtc_once. split; [apply step_replace|]. vm_compute. reflexivity.
Defined.

(** ** A world *)

Definition sample_get : HttpRequest :=
  mkHttpRequest "get" "https://api.example.com/v1/notes" [("accept", "text/plain")]%string None
    (Some (mkHandle "handle")) None.

Definition sample_post : HttpRequest :=
  mkHttpRequest "POST" "https://api.example.com/v1/notes" [] (Some "a note"%string) None None.

(** The argument [true] is the GET, any other the POST. *)
#[local] Instance sample_args : ArgsCodec := {|
  request_from_value v := match v with JBool true => inr sample_get | _ => inr sample_post end;
  name_from_value _ := inr "research_api"%string;
|}.

Definition sample_ctx : InvocationCtx :=
  mkCtx (mkGrants ["egress.destination:research"; "secrets.use:research_api"]%string) 60 "session" None None None.

Definition sample_peer : PeerResponse := mkPeer 200 [("content-type", Some "text/plain")]%string None.

(** A world in which everything works out. *)
Fixpoint sample_answer (q : Query) : Answer q :=
  match q with
  | QEvent _ _ => inl tt
  | QApproval _ _ => inl Approved
  | QEffectScope => Some "effect"%string
  | QSnapshot => policy_state sample_broker
  | QNow => 20%N
  | QToken _ => Some "fresh"%string
  | QEnv _ => Some "s3cr3t"%string
  | QFindHandle token => (find_handle 20 token (handles used_broker)).1
  | QIssueHandle _ _ _ _ _ => Ok ("handle"%string, true)
  | QReserve r =>
      Ok (mkReservation (req_reservation_id r) (req_session_id r) (req_destination_id r) (req_response_reserved r)
            (req_time_reserved_ms r))
  | QSettle _ _ _ => Ok tt
  | QBegin i => Ok (mkClaim (mutation_started i) true)
  | QFinish effect outcome digest bytes code err_digest =>
      Ok (mkMutation (mkIntent effect "session" "effect" "" "" "research" 3 "" "" 6) outcome digest bytes code err_digest)
  | QResolve _ port => Ok [mkSocket (V4 93 184 216 34) port]
  | QClient => true
  | QSend _ => Some sample_peer
  | QStream => [Some "the s3cr3t "; Some "notes"]%string
  | QTimed q => Some (sample_answer q)
  end.


Definition world_of (answer : forall q, Answer q) (w : unit) (q : Query) : Answer q * unit := (answer q, w).
Definition sample_world := world_of sample_answer.

Lemma sample_policy_wf : policy_wf false sample_policy.
Proof.
  destruct (startup_policy_accepted_witness) as (v & Hv & Hwf & _). unfold sample_policy. by rewrite Hv.
Qed.

Lemma sample_answer_proper q : proper q (sample_answer q).
Proof.
  induction q as [| | | | | | | | | | | | | | | | |q IHq]; cbn [proper sample_answer]; [exact I|exact I|exact I| |exact I..|exact IHq].
  exists false. exact sample_policy_wf.
Qed.


Lemma play_allowed {A} answer (t : Io Answer A) :
  (forall q, proper q (answer q)) -> allowed_history any_answer (play (world_of answer) tt t).2.
Proof.
  intros Hproper h1 q r h2. revert h1. induction t as [a|q' k IH]; intros h1.
  - by destruct h1.
  - cbn [play world_of]. specialize (IH (answer q')).
    destruct (play (world_of answer) tt (k (answer q'))) as [[a w] h]. cbn [snd] in *.
    destruct h1 as [|e h1]; cbn.
    + intros Heq. assert (He : asked q' (answer q') = asked q r) by congruence.
      pose proof (Hproper q') as Hp. change (proper (projT1 (asked q r)) (projT2 (asked q r))). by rewrite <- He.
    + intros [= _ Heq]. by apply (IH h1).
Qed.

Lemma play_end {A W} world (w : W) (t : Io Answer A) : runs t (play world w t).2 (Ret (play world w t).1.1).
Proof. destruct (play world w t) as [[a w'] h] eqn:E. by eapply play_runs. Qed.

Definition sent (o : option (list (Event Answer) * Outgoing * option (option PeerResponse) * list (Event Answer))) : string :=
  match o with Some (_, out, _, _) => out_method out | None => "" end.

(** The first request that leaves. *)
Fixpoint split_send (h : list (Event Answer))
    : option (list (Event Answer) * Outgoing * option (option PeerResponse) * list (Event Answer)) :=
  match h with
  | [] => None
  | existT (QTimed (QSend out)) answer :: rest => Some ([], out, answer, rest)
  | e :: rest =>
      match split_send rest with
      | Some (h1, out, answer, h2) => Some (e :: h1, out, answer, h2)
      | None => None
      end
  end.

Lemma split_send_spec h : forall h1 out answer h2,
  split_send h = Some (h1, out, answer, h2) -> h = h1 ++ asked (QTimed (QSend out)) answer :: h2.
Proof.
  induction h as [|[q r] h IH]; intros h1 out answer h2; [done|].
  assert (Hrest : match split_send h with
                  | Some (h1, out, answer, h2) => Some (existT q r :: h1, out, answer, h2) | None => None end
                = Some (h1, out, answer, h2) -> existT q r :: h = h1 ++ asked (QTimed (QSend out)) answer :: h2).
  { destruct (split_send h) as [[[[g1 o] a] g2]|]; [|done]. intros [= <- <- <- <-]. cbn. f_equal. by apply IH. }
  destruct q as [| | | | | | | | | | | | | | | | |[]]; try exact Hrest. cbn. by intros [= <- <- <- <-].
Qed.

(** ** Witnesses *)

Definition get_history : list (Event Answer) := (play sample_world tt (http_request (JBool true) sample_ctx)).2.
Definition post_history : list (Event Answer) := (play sample_world tt (http_request (JBool false) sample_ctx)).2.

(** The POST was approved before it left. *)
Lemma sends_authorized_witness :
  match split_send post_history with
  | Some (h1, out, _, _) => send_ok sample_ctx (permission sample_ctx sample_post) h1 out /\ out_method out = "POST"%string
  | None => False
  end.
Proof.
  assert (Hm : sent (split_send post_history) = "POST"%string) by (vm_compute; reflexivity).
  destruct (split_send post_history) as [[[[h1 out] answer] h2]|] eqn:E; [|discriminate Hm].
  split; [|exact Hm].
  exact (sends_authorized (JBool false) sample_ctx sample_post post_history _ h1 out answer h2 eq_refl
           (play_end _ _ _) (play_allowed _ _ sample_answer_proper) (split_send_spec _ _ _ _ _ E)).
Defined.





(** One reservation, settled, open when the one request left of the six a GET may
    make. *)
Lemma budget_settled_witness :
  granted_in get_history = settled_in get_history /\ length (granted_in get_history) = 1
  /\ (length (List.filter is_send get_history) <= 6)%nat
  /\ match split_send get_history with
     | Some (h1, _, _, _) => exists reservation, granted_in h1 = settled_in h1 ++ [reservation]
     | None => False
     end.
Proof.
  edestruct (budget_settled (JBool true) sample_ctx sample_get get_history) as (Hn & Hopen & _ & Hend);
    [reflexivity|apply play_end|apply (play_allowed _ _ sample_answer_proper)|].
  split; [exact (Hend _ eq_refl)|]. split; [vm_compute; reflexivity|]. split; [exact Hn|].
  assert (Hm : sent (split_send get_history) = "GET"%string) by (vm_compute; reflexivity).
  destruct (split_send get_history) as [[[[h1 out] answer] h2]|] eqn:E; [|discriminate Hm].
  apply (Hopen _ _ _ _ (split_send_spec _ _ _ _ _ E)). reflexivity.
Defined.

Definition note_body : Json := JObject [("note", JString "a note"); ("password", JString "a note")]%string.
Definition note_preview : Json := JObject [("note", JString "a note"); ("password", JString "[REDACTED]")]%string.

Lemma approval_preview_hides_witness :
  json_body_preview "a note" = Some note_preview
  /\ Forall (shown (showable note_body)) (texts note_preview).
Proof.
  assert (E : json_body_preview "a note" = Some note_preview) by vm_cast_no_check (eq_refl (Some note_preview)).
  split; [exact E|]. refine (proj1 (approval_preview_hides "a note" note_body note_preview _ _ E)).
  - vm_compute. discriminate.
  - reflexivity.
Defined.

Definition token_secret : ResolvedSecret := mkResolved research_api "s3cr3t".
Definition research_notes : AuthorizedDestination := mkAuthorized (default research (bm_get "research" (valid_destinations sample_policy))) (mkSampleUrl "" "").
Definition hop_result : EgressResult HopResponse :=
  (play sample_world tt (perform_hop research_notes "GET" sample_get (Some token_secret))).1.1.

(** The peer echoed the token; the caller does not see it. *)
Lemma response_hides_secret_witness :
  let r := HopFinal 200 "the [REDACTED_SECRET] notes" (Some "text/plain"%string) [] 16 1 in
  response_texts (marked "s3cr3t") r /\ response_texts (fun text => ~ occurs "s3cr3t" text) r.
Proof.
  destruct (response_hides_secret research_notes "GET" sample_get token_secret
              (play sample_world tt (perform_hop research_notes "GET" sample_get (Some token_secret))).2
              (HopFinal 200 "the [REDACTED_SECRET] notes" (Some "text/plain"%string) [] 16 1)) as [Hm Hf].
  - discriminate.
  - assert (E : hop_result = Ok (HopFinal 200 "the [REDACTED_SECRET] notes" (Some "text/plain"%string) [] 16 1))
      by (vm_compute; reflexivity).
    rewrite <- E. apply play_end.
  - split; [exact Hm|]. apply Hf. repeat split; [discriminate|vm_compute; intuition discriminate..|].
    intros Ho%occurs_contains; [vm_compute in Ho; discriminate Ho|discriminate].
Defined.
