(* ===== verification/Batch.v ===== *)
(** * Bindings of batch cells ([batch.rs], and [batch_dependencies] of [sandbox/session.rs])

    Which names a cell reads from outside and which it writes for later cells, found
    by a walk over its tree with a set of bound names that scopes undo, and from it
    which earlier cells of a batch a cell depends on. *)

From stdpp Require Import base tactics list strings.
From Stdlib Require Import NArith Lia.
From S2P Require Import Prelude BTree Text Syntax Lexer LexerFacts Parser ParserFacts ScopedMap Checker.

Record BindingUsage := mkBindingUsage { usage_reads : list string; usage_writes : list string }.

Definition no_usage : BindingUsage := mkBindingUsage [] [].

(** ** The set of bound names *)

Record ScopedBoundSet := mkBoundSet {
  bound_names : list string;
  bound_undo : list string;
  bound_scopes : list nat;
}.

Definition no_bound : ScopedBoundSet := mkBoundSet [] [] [].

Section Bound.
Context `{BuildProfile}.

Definition bound_begin (b : ScopedBoundSet) : nat * ScopedBoundSet :=
  let checkpoint := length (bound_undo b) in
  (checkpoint, mkBoundSet (bound_names b) (bound_undo b) (checkpoint :: bound_scopes b)).

(** [while self.undo.len() > checkpoint { pop and remove }]. *)
Fixpoint unwind_names (checkpoint : nat) (log names : list string) : list string * list string :=
  match log with
  | [] => ([], names)
  | name :: log' =>
      if (checkpoint <? length log)%nat then unwind_names checkpoint log' (bs_retain (fun n => negb (String.eqb n name)) names)
      else (log, names)
  end.

(** [rollback_scope]; [None] when the debug assertion, which pops the stack, fails. *)
Definition bound_rollback (checkpoint : nat) (b : ScopedBoundSet) : option ScopedBoundSet :=
  popped ← (if debug_assertions then
              match bound_scopes b with
              | c :: cs => if (c =? checkpoint)%nat then Some cs else None
              | [] => None
              end
            else Some (bound_scopes b));
  let '(log, names) := unwind_names checkpoint (bound_undo b) (bound_names b) in
  Some (mkBoundSet names log popped).

Definition bound_insert (name : string) (b : ScopedBoundSet) : ScopedBoundSet :=
  let fresh := negb (bs_contains name (bound_names b)) in
  let names := bs_insert name (bound_names b) in
  match bound_scopes b with
  | [] => mkBoundSet names (bound_undo b) []
  | _ => mkBoundSet names (if fresh then name :: bound_undo b else bound_undo b) (bound_scopes b)
  end.
End Bound.

(** ** Patterns *)

Fixpoint pattern_size (k : PatternKind) : nat :=
  match k with
  | PConstructor _ (Some p) => S (pattern_size (node p))
  | PList ps => S (sum_list (List.map (fun p => pattern_size (node p)) ps))
  | PCons h t => S (pattern_size (node h) + pattern_size (node t))
  | PRecord fs _ => S (sum_list (List.map (fun f => pattern_size (node f.2)) fs))
  | _ => 1
  end.

(** [while let Some(pattern) = pending.pop()], with the top of the stack first. *)
Fixpoint visit_pending {S} (insert : string -> S -> S) (fuel : nat) (pending : list Pattern) (s : S) : S :=
  match fuel, pending with
  | O, _ | _, [] => s
  | Datatypes.S fuel, p :: pending =>
      match node p with
      | PBind name => visit_pending insert fuel pending (insert name s)
      | PConstructor _ (Some payload) => visit_pending insert fuel (payload :: pending) s
      | PList values => visit_pending insert fuel (rev values ++ pending) s
      | PCons head tail => visit_pending insert fuel (tail :: head :: pending) s
      | PRecord fields _ => visit_pending insert fuel (rev (List.map snd fields) ++ pending) s
      | _ => visit_pending insert fuel pending s
      end
  end.

Definition bind_pattern (p : Pattern) (b : ScopedBoundSet) : ScopedBoundSet :=
  visit_pending bound_insert (pattern_size (node p)) [p] b.

Definition record_pattern_names (p : Pattern) (names : list string) : list string :=
  visit_pending bs_insert (pattern_size (node p)) [p] names.

(** ** The walk *)

Record Analyzer := mkAnalyzer {
  usage : BindingUsage;
  bound : ScopedBoundSet;
  fragment_bytes : N;
  fragment_tokens : N;
  analysis_depth : N;
}.

Definition set_usage (u : BindingUsage) (a : Analyzer) : Analyzer :=
  mkAnalyzer u (bound a) (fragment_bytes a) (fragment_tokens a) (analysis_depth a).
Definition set_bound (b : ScopedBoundSet) (a : Analyzer) : Analyzer :=
  mkAnalyzer (usage a) b (fragment_bytes a) (fragment_tokens a) (analysis_depth a).
Definition set_fragments (bytes tokens : N) (a : Analyzer) : Analyzer :=
  mkAnalyzer (usage a) (bound a) bytes tokens (analysis_depth a).
Definition set_analysis_depth (d : N) (a : Analyzer) : Analyzer :=
  mkAnalyzer (usage a) (bound a) (fragment_bytes a) (fragment_tokens a) d.

Definition AM : Type -> Type := M Diagnostic Analyzer.

Definition try_ {A} (r : outcome Diagnostic A) : AM A := fun s =>
  match r with
  | Ok a => Ok (a, s)
  | Err d => Err d
  | Panicked => Panicked
  | OutOfFuel => OutOfFuel
  end.

Definition bind_name (name : string) : AM unit := modify (fun s => set_bound (bound_insert name (bound s)) s).
Definition bind_ (p : Pattern) : AM unit := modify (fun s => set_bound (bind_pattern p (bound s)) s).

Definition read_name (name : string) : AM unit :=
  modify (fun s =>
    if bs_contains name (bound_names (bound s)) then s
    else set_usage (mkBindingUsage (bs_insert name (usage_reads (usage s))) (usage_writes (usage s))) s).

Definition write_names (f : list string -> list string) : AM unit :=
  modify (fun s => set_usage (mkBindingUsage (usage_reads (usage s)) (f (usage_writes (usage s)))) s).

Fixpoint each {X} (body : X -> AM unit) (xs : list X) : AM unit :=
  match xs with
  | [] => mret tt
  | x :: xs' => body x;; each body xs'
  end.

Section Analyzer.
Context `{UnicodeTables} `{JsonStr} `{BuildProfile}.
Variable root_source : list char.
Variables (max_fragment_tokens max_parse_depth : N).

(** An error ends the analysis and its analyzer is dropped: the rollback that the
    code also runs then is not observable. *)
Definition analyzer_scope (body : AM unit) : AM unit :=
  s ← get;
  let '(checkpoint, b) := bound_begin (bound s) in
  modify (set_bound b);;
  body;;
  s ← get;
  match bound_rollback checkpoint (bound s) with
  | Some b => modify (set_bound b)
  | None => panic
  end.

Section Recursion.
Variable expr : Expr -> AM unit.

Definition analyze_form (persistent : bool) (f : Form) : AM unit :=
  match node f with
  | FType _ => mret tt
  | FLet pattern value =>
      expr value;;
      (if persistent then write_names (record_pattern_names pattern) else mret tt);;
      bind_ pattern
  | FFun name params body =>
      analyzer_scope (bind_name name;; each bind_ params;; expr body);;
      (if persistent then write_names (bs_insert name) else mret tt);;
      bind_name name
  | FExpr e => expr e
  end.

Definition analyze_cell (persistent : bool) (c : Cell) : AM unit := each (analyze_form persistent) (forms c).

Definition interpolation_expression (source : list char) : AM unit :=
  s ← get;
  if (fragment_bytes s <? bytes_len source)%N then
    raise source "TM2019" "interpolation analysis source budget exceeded" (mkSpan 0 (bytes_len source))
  else if (max_parse_depth <=? analysis_depth s)%N then
    raise source "TM2021" "interpolation analysis nesting budget exceeded" (mkSpan 0 (bytes_len source))
  else
    tokens ← try_ (lex_bounded source (N.min max_fragment_tokens (fragment_tokens s)));
    let token_count := len tokens in
    if (fragment_tokens s <? token_count)%N then panic
    else
      modify (set_fragments (fragment_bytes s - bytes_len source) (fragment_tokens s - token_count));;
      cell ← try_ (parse_bounded source (bytes_len source) token_count (max_parse_depth - analysis_depth s));
      analyzer_scope (analyze_cell false cell).

(** The rest of the text, from [index] on. *)
Fixpoint scan (fuel : nat) (cs : list char) : AM unit :=
  match fuel, cs with
  | O, _ :: _ => out_of_fuel
  | _, [] => mret tt
  | S fuel', c :: cs' =>
      if c =c "\" then scan fuel' (drop 1 cs')
      else if negb (c =c "#") then scan fuel' cs'
      else
        match cs' with
        | d :: body =>
            if d =c "{" then
              match until_close 1 body with
              | Some (fragment, after) => interpolation_expression fragment;; scan fuel' after
              | None => mret tt
              end
            else
              match until (fun c => negb (name_char c)) cs' with
              | [] => scan fuel' cs'
              | name => read_name (of_chars name);; scan fuel' (drop (length name) cs')
              end
        | [] => scan fuel' cs'
        end
  end.

Definition analyze_interpolations (source : string) : AM unit := scan (length (chars source)) (chars source).

Definition analyze_arm (arm : MatchArm) : AM unit :=
  analyzer_scope (bind_ (arm_pattern arm);; expr (arm_value arm)).

Definition analyze_inner (e : Expr) : AM unit :=
  match node e with
  | EString value => analyze_interpolations value
  | EName name => read_name name
  | EList values => each expr values
  | ERecord fields => each (fun f => expr f.2) fields
  | ELambda params body => analyzer_scope (each bind_ params;; expr body)
  | EApply function argument => expr function;; expr argument
  | EField target _ | EUnary _ target => expr target
  | EBinary _ l r => expr l;; expr r
  | EPipe value target => expr value;; expr target
  | EIf condition then_value else_value => expr condition;; expr then_value;; expr else_value
  | EMatch value arms | EHandle value arms => expr value;; each analyze_arm arms
  | EBlock fs => analyzer_scope (each (analyze_form false) fs)
  | EInt _ | EDecimal _ | EBool _ | ENull | EUri _ | EConstructor _ | ECapability _ => mret tt
  end.
End Recursion.

Fixpoint analyze_expr (fuel : nat) (e : Expr) : AM unit := fun s =>
  match fuel with
  | O => OutOfFuel
  | S fuel' =>
      if (max_parse_depth <=? analysis_depth s)%N then
        raise root_source "TM2021" "batch analysis nesting budget exceeded" (span e) s
      else
        (modify (set_analysis_depth (analysis_depth s + 1));;
         analyze_inner (analyze_expr fuel') e;;
         s ← get;
         if (analysis_depth s =? 0)%N then panic else modify (set_analysis_depth (analysis_depth s - 1))) s
  end.
End Analyzer.

Definition new_analyzer (max_source_bytes : N) : Analyzer :=
  mkAnalyzer no_usage no_bound max_source_bytes (saturating_mul max_source_bytes 2) 0.

Definition binding_usage_bounded `{UnicodeTables} `{JsonStr} `{BuildProfile} (source : list char)
    (max_source_bytes max_syntax_nodes max_parse_depth : N) : outcome Diagnostic BindingUsage :=
  cell ← parse_bounded source max_source_bytes max_syntax_nodes max_parse_depth;
  '(_, a) ← analyze_cell (analyze_expr source max_syntax_nodes max_parse_depth (S (N.to_nat max_parse_depth))) true cell
              (new_analyzer max_source_bytes);
  Ok (usage a).

(** ** Dependencies between the cells of a batch

    A map from the index of a cell to the names it provides. *)

Abbreviation Dependencies := (list (nat * list string)).

(** [cell.entry(writer).or_default().insert(name)] of a [BTreeMap<usize, BTreeSet<String>>]. *)
Fixpoint depend (writer : nat) (name : string) (cell : Dependencies) : Dependencies :=
  match cell with
  | [] => [(writer, bs_insert name [])]
  | (w, names) :: rest =>
      if (writer =? w)%nat then (w, bs_insert name names) :: rest
      else if (writer <? w)%nat then (writer, bs_insert name []) :: cell
      else (w, names) :: depend writer name rest
  end.

Record BatchScan := mkBatchScan {
  writers : list (string * nat);
  unknown_writers : list nat;
  dependencies : list Dependencies;
}.

Definition unknown_bindings : string := "<unknown bindings>".

Definition batch_step (st : BatchScan) (index : nat) (usage : option BindingUsage) : BatchScan :=
  let cell := foldl (fun cell writer => depend writer unknown_bindings cell) [] (unknown_writers st) in
  match usage with
  | Some usage =>
      let cell := foldl (fun cell name =>
        match bm_get name (writers st) with Some writer => depend writer name cell | None => cell end)
        cell (usage_reads usage) in
      mkBatchScan (foldl (fun ws name => bm_insert name index ws) (writers st) (usage_writes usage))
        (unknown_writers st) (dependencies st ++ [cell])
  | None => mkBatchScan (writers st) (unknown_writers st ++ [index]) (dependencies st ++ [cell])
  end.

Fixpoint batch_scan (st : BatchScan) (index : nat) (usages : list (option BindingUsage)) : BatchScan :=
  match usages with
  | [] => st
  | usage :: rest => batch_scan (batch_step st index usage) (S index) rest
  end.

Definition batch_dependencies (usages : list (option BindingUsage)) : list Dependencies :=
  dependencies (batch_scan (mkBatchScan [] [] []) 0 usages).

(** ** What the analysis of batch cells finds

    The walk with its undo log finds exactly the names that occur free in the cell,
    by a definition that passes scopes down the tree, and exactly the names its
    forms bind; a cell of a batch depends on the last earlier writer of each name
    it reads. *)

(** ** The specification *)

Fixpoint pattern_binds (k : PatternKind) : list string :=
  match k with
  | PBind name => [name]
  | PConstructor _ (Some p) => pattern_binds (node p)
  | PList ps => concat (List.map (fun p => pattern_binds (node p)) ps)
  | PCons h t => pattern_binds (node h) ++ pattern_binds (node t)
  | PRecord fs _ => concat (List.map (fun f => pattern_binds (node f.2)) fs)
  | _ => []
  end.

Definition binds (p : Pattern) : list string := pattern_binds (node p).
Definition params_bind (ps : list Pattern) : list string := concat (List.map binds ps).

Definition form_binds (f : Form) : list string :=
  match node f with
  | FLet p _ => binds p
  | FFun name _ _ => [name]
  | FType _ | FExpr _ => []
  end.

Definition forms_bind (fs : list Form) : list string := concat (List.map form_binds fs).

(** The expressions of a sequence of forms, each with the names it can see of the
    forms before it. *)
Fixpoint forms_parts (B : list string) (fs : list Form) : list (list string * Expr) :=
  match fs with
  | [] => []
  | f :: fs' =>
      match node f with
      | FType _ => []
      | FLet _ v => [(B, v)]
      | FFun name ps b => [(name :: params_bind ps ++ B, b)]
      | FExpr e => [(B, e)]
      end ++ forms_parts (form_binds f ++ B) fs'
  end.

(** The direct parts of an expression, each with the names bound around it. *)
Definition parts (k : ExprKind) : list (list string * Expr) :=
  match k with
  | EList vs => List.map (pair []) vs
  | ERecord fs => List.map (fun f => ([], f.2)) fs
  | ELambda ps b => [(params_bind ps, b)]
  | EApply a b | EBinary _ a b | EPipe a b => [([], a); ([], b)]
  | EField e _ | EUnary _ e => [([], e)]
  | EIf a b c => [([], a); ([], b); ([], c)]
  | EMatch v arms | EHandle v arms => ([], v) :: List.map (fun a => (binds (arm_pattern a), arm_value a)) arms
  | EBlock fs => forms_parts [] fs
  | _ => []
  end.

Definition free_name (B : list string) (name : string) : list string :=
  if bs_contains name B then [] else [name].

Definition has_parts (k : ExprKind) : Prop := match k with EName _ | EString _ => False | _ => True end.

(** [reads B k R]: with the names [B] bound, the expression reads the names [R] from
    outside. *)
Inductive reads `{UnicodeTables} `{JsonStr} : list string -> ExprKind -> list string -> Prop :=
| reads_name B name : reads B (EName name) (free_name B name)
| reads_string B value Rs : Forall2 (piece_reads B) (interpolations value) Rs -> reads B (EString value) (concat Rs)
| reads_parts B k Rs :
    has_parts k -> Forall2 (fun part R => reads (part.1 ++ B) (node part.2) R) (parts k) Rs -> reads B k (concat Rs)
with piece_reads `{UnicodeTables} `{JsonStr} : list string -> Interpolation -> list string -> Prop :=
| piece_name B name : piece_reads B (IName name) (free_name B name)
| piece_expression B fragment bytes nodes depth cell Rs :
    parse_bounded fragment bytes nodes depth = Ok cell ->
    Forall2 (fun part R => reads (part.1 ++ B) (node part.2) R) (forms_parts [] (forms cell)) Rs ->
    piece_reads B (IExpression fragment) (concat Rs).

(** ** Patterns *)

Lemma visit_pending_names {S} (insert : string -> S -> S) fuel : forall pending s,
  (sum_list (List.map (fun p => pattern_size (node p)) pending) <= fuel)%nat ->
  exists names, (forall n, In n names <-> In n (params_bind pending))
    /\ visit_pending insert fuel pending s = foldl (fun s n => insert n s) s names.
Proof.
  induction fuel as [|fuel IH]; intros [|p pending] s Hf; cbn [visit_pending]; try (exists []; by split).
  - exfalso. cbn in Hf. assert (1 <= pattern_size (node p))%nat by (destruct (node p) as [| | | | | |? [?|]| | |]; cbn; lia). lia.
  - cbn [List.map sum_list sum_list_with] in Hf.
    assert (Hgo : forall more, (forall n, In n (params_bind more) <-> In n (binds p)) ->
      (sum_list (List.map (fun p => pattern_size (node p)) more) < pattern_size (node p))%nat ->
      exists names, (forall n, In n names <-> In n (params_bind (p :: pending)))
        /\ visit_pending insert fuel (more ++ pending) s = foldl (fun s n => insert n s) s names).
    { intros more Hb Hlt. destruct (IH (more ++ pending) s) as (names & Hn & Hv).
      - rewrite List.map_app. rewrite sum_list_with_app. cbn in Hf. lia.
      - exists names. split; [|done]. intros n. rewrite Hn. unfold params_bind. rewrite List.map_app, concat_app. cbn.
        rewrite !in_app_iff. by rewrite (Hb n). }
    assert (Hrev : forall ps, (forall n, In n (params_bind (rev ps)) <-> In n (params_bind ps))
      /\ sum_list (List.map (fun p => pattern_size (node p)) (rev ps)) = sum_list (List.map (fun p => pattern_size (node p)) ps)).
    { clear. intros ps. split.
      - intros n. unfold params_bind. rewrite !in_concat. setoid_rewrite in_map_iff. setoid_rewrite <- in_rev. done.
      - induction ps as [|p ps IH]; [done|]. cbn [rev]. rewrite List.map_app, sum_list_with_app. cbn in *. lia. }
    unfold binds in Hgo. cbn in Hf. destruct (node p) as [|name|v|v|v| |c [q|]|ps|h t|fs r] eqn:Ek; cbn [pattern_binds pattern_size] in *;
      try (apply (Hgo []); [done|cbn; lia]).
    + destruct (IH pending (insert name s)) as (names & Hn & Hv); [lia|]. exists (name :: names). split; [|done].
      intros n. unfold params_bind in *. cbn. unfold binds at 1. rewrite Ek. cbn. by rewrite Hn.
    + apply (Hgo [q]); [|cbn; lia]. intros n. unfold params_bind. cbn. by rewrite app_nil_r.
    + destruct (Hrev ps) as [Hb Hs]. apply (Hgo (rev ps)); [exact Hb|]. rewrite Hs. lia.
    + apply (Hgo [t; h]); [|cbn; lia]. intros n. unfold params_bind. cbn. unfold binds. rewrite app_nil_r, !in_app_iff. tauto.
    + destruct (Hrev (List.map snd fs)) as [Hb Hs]. apply (Hgo (rev (List.map snd fs))).
      * intros n. rewrite Hb. unfold params_bind. by rewrite List.map_map.
      * rewrite Hs, List.map_map. lia.
Qed.

(** ** The undo log *)

Section Bound.
Context `{BuildProfile}.

(** The stack of scopes: release builds never pop it. *)
Definition scopes_grew (b b' : ScopedBoundSet) : Prop :=
  exists extra, bound_scopes b' = extra ++ bound_scopes b /\ (debug_assertions = true -> extra = []).

Definition names_of (b : ScopedBoundSet) (B : list string) : Prop := forall n, In n (bound_names b) <-> In n B.

(** What is left of a scope that was entered and left. *)
Definition same_bound (b b' : ScopedBoundSet) : Prop :=
  names_of b' (bound_names b) /\ bound_undo b' = bound_undo b /\ scopes_grew b b'.

(** Names were added; inside a scope the log has those that are new. *)
Definition adds (ns : list string) (b b' : ScopedBoundSet) : Prop :=
  names_of b' (ns ++ bound_names b) /\ scopes_grew b b'
  /\ (bound_scopes b <> [] -> exists added, bound_undo b' = added ++ bound_undo b
       /\ names_of b' (added ++ bound_names b) /\ forall n, In n added -> ~ In n (bound_names b)).

Lemma scopes_grew_refl b : scopes_grew b b.
Proof. by exists []. Qed.

Lemma scopes_grew_trans b b1 b2 : scopes_grew b b1 -> scopes_grew b1 b2 -> scopes_grew b b2.
Proof.
  intros (e1 & E1 & D1) (e2 & E2 & D2). exists (e2 ++ e1). rewrite E2, E1, app_assoc. split; [done|].
  intros Hd. by rewrite D1, D2.
Qed.

Lemma same_bound_refl b : same_bound b b.
Proof. split; [done|]. split; [done|apply scopes_grew_refl]. Qed.

Lemma same_bound_trans b b1 b2 : same_bound b b1 -> same_bound b1 b2 -> same_bound b b2.
Proof.
  intros (N1 & U1 & G1) (N2 & U2 & G2). split; [intros n; by rewrite (N2 n), (N1 n)|]. split; [congruence|].
  by eapply scopes_grew_trans.
Qed.

Lemma names_same b b' B : same_bound b b' -> names_of b B -> names_of b' B.
Proof. intros (Hn & _) HB n. by rewrite (Hn n). Qed.

Lemma names_adds ns b b' B : adds ns b b' -> names_of b B -> names_of b' (ns ++ B).
Proof. intros (Hn & _) HB n. rewrite (Hn n), !in_app_iff. by rewrite (HB n). Qed.

Lemma same_adds b b' : same_bound b b' -> adds [] b b'.
Proof.
  intros (Hn & Hu & Hg). split; [done|]. split; [done|]. intros _. exists []. split; [done|]. by split; [|intros ? []].
Qed.

Lemma adds_trans ns ms b b1 b2 : adds ns b b1 -> adds ms b1 b2 -> adds (ms ++ ns) b b2.
Proof.
  intros (N1 & G1 & L1) (N2 & G2 & L2). split; [intros n; rewrite (N2 n), !in_app_iff, (N1 n), in_app_iff; tauto|].
  split; [by eapply scopes_grew_trans|]. intros Hs. destruct (L1 Hs) as (a1 & U1 & A1 & D1).
  destruct L2 as (a2 & U2 & A2 & D2). { destruct G1 as (e & -> & _). destruct e; [by rewrite app_nil_l|done]. }
  exists (a2 ++ a1). rewrite U2, U1, app_assoc. split; [done|]. split.
  - intros n. rewrite (A2 n), !in_app_iff, (A1 n), in_app_iff. tauto.
  - intros n [Hn|Hn]%in_app_or; [|by apply D1]. intros Hb. apply (D2 n Hn). apply A1, in_or_app. by right.
Qed.

Lemma adds_perm ns ms b b' : (forall n, In n ns <-> In n ms) -> adds ns b b' -> adds ms b b'.
Proof. intros Hp (Hn & Hr). split; [|done]. intros n. by rewrite (Hn n), !in_app_iff, Hp. Qed.

Lemma insert_adds name b : adds [name] b (bound_insert name b).
Proof.
  assert (Hn : names_of (bound_insert name b) ([name] ++ bound_names b)).
  { intros n. assert (bound_names (bound_insert name b) = bs_insert name (bound_names b)) as ->
      by (unfold bound_insert; by destruct (bound_scopes b)).
    rewrite bs_insert_In. cbn. intuition congruence. }
  split; [done|]. unfold bound_insert in *. destruct (bound_scopes b) as [|c cs] eqn:Es; cbn.
  - split; [exists []; by rewrite Es|done].
  - split; [exists []; by rewrite Es|]. intros _.
    destruct (bs_contains name (bound_names b)) eqn:Ec; cbn; [exists []|exists [name]].
    + split; [done|]. split; [|by intros ? []]. intros n. rewrite (Hn n). cbn. apply bs_contains_true in Ec. intuition congruence.
    + split; [done|]. split; [exact Hn|]. intros n [<-|[]] Hin. apply bs_contains_true in Hin. congruence.
Qed.

Lemma insert_all_adds names b : adds names b (foldl (fun b n => bound_insert n b) b names).
Proof.
  revert b. induction names as [|name names IH]; intros b; [apply same_adds, same_bound_refl|].
  eapply (adds_perm (names ++ [name])); [intros n; rewrite in_app_iff; cbn; tauto|]. cbn [foldl].
  by eapply adds_trans; [apply insert_adds|].
Qed.

Lemma bind_pattern_adds p b : adds (binds p) b (bind_pattern p b).
Proof.
  destruct (visit_pending_names bound_insert (pattern_size (node p)) [p] b) as (names & Hn & Hv); [cbn; lia|].
  unfold bind_pattern. rewrite Hv. eapply adds_perm; [|apply insert_all_adds].
  intros n. rewrite Hn. unfold params_bind. cbn. by rewrite app_nil_r.
Qed.

Lemma record_pattern_In p names n : In n (record_pattern_names p names) <-> In n (binds p) \/ In n names.
Proof.
  destruct (visit_pending_names bs_insert (pattern_size (node p)) [p] names) as (ns & Hn & Hv); [cbn; lia|].
  unfold record_pattern_names. rewrite Hv. transitivity (In n ns \/ In n names); [|rewrite Hn; unfold params_bind; cbn; by rewrite app_nil_r].
  clear. revert names. induction ns as [|m ns IH]; intros names; cbn; [tauto|]. rewrite IH, bs_insert_In. intuition congruence.
Qed.

Lemma unwind_names_spec added base : forall names n,
  (unwind_names (length base) (added ++ base) names).1 = base
  /\ (In n (unwind_names (length base) (added ++ base) names).2 <-> In n names /\ ~ In n added).
Proof.
  induction added as [|a added IH]; intros names n; cbn [app].
  - assert (Hu : unwind_names (length base) base names = (base, names)).
    { destruct base as [|x base]; [done|]. cbn [unwind_names]. by rewrite Nat.ltb_irrefl. }
    rewrite Hu. cbn. tauto.
  - cbn [unwind_names]. rewrite (proj2 (Nat.ltb_lt _ _)) by (cbn; rewrite length_app; lia).
    destruct (IH (bs_retain (fun n => negb (String.eqb n a)) names) n) as [H1 H2]. split; [done|].
    rewrite H2, bs_retain_In, negb_true_iff, String.eqb_neq. cbn. intuition congruence.
Qed.

(** Leaving a scope restores what was there when it was entered. *)
Lemma rollback_same b checkpoint b1 b2 ns :
  bound_begin b = (checkpoint, b1) -> adds ns b1 b2 ->
  exists b3, bound_rollback checkpoint b2 = Some b3 /\ same_bound b b3.
Proof.
  intros [= <- <-] (Hn & (extra & Es & Hd) & Hl). cbn in *. destruct Hl as (added & Hu & Ha & Hf); [done|].
  unfold bound_rollback. rewrite Hu.
  pose proof (unwind_names_spec added (bound_undo b) (bound_names b2)) as Hw.
  destruct (unwind_names _ _ _) as [log names] eqn:Ew. cbn in Hw.
  assert (Hsame : forall popped, (exists e, popped = e ++ bound_scopes b /\ (debug_assertions = true -> e = [])) ->
    same_bound b (mkBoundSet names log popped)).
  { intros popped Hp. split; [|split; [by destruct (Hw ""%string)|exact Hp]]. intros n. destruct (Hw n) as [_ Hin]. cbn.
    rewrite Hin, (Ha n), in_app_iff. specialize (Hf n). tauto. }
  destruct debug_assertions eqn:Ed.
  - rewrite (Hd eq_refl) in Es. rewrite Es. cbn. rewrite Nat.eqb_refl. cbn. eexists. split; [done|]. apply Hsame. by exists [].
  - cbn. eexists. split; [done|]. apply Hsame. exists (extra ++ [length (bound_undo b)]). rewrite Es, <- app_assoc. done.
Qed.
End Bound.

(** ** The walk *)

Definition sees (a : Analyzer) (B : list string) : Prop := names_of (bound a) B.

Definition notes (R : list string) (s s' : Analyzer) : Prop :=
  (forall n, In n (usage_reads (usage s')) <-> In n R \/ In n (usage_reads (usage s)))
  /\ analysis_depth s' = analysis_depth s.

(** What the items of a list read was noted. *)
Definition found {X} (rd : X -> list string -> Prop) (xs : list X) (s s' : Analyzer) : Prop :=
  exists Rs, Forall2 rd xs Rs /\ notes (concat Rs) s s'.

Lemma notes_trans R R' s s1 s2 : notes R s s1 -> notes R' s1 s2 -> notes (R ++ R') s s2.
Proof.
  intros [H1 D1] [H2 D2]. split; [|congruence]. intros n. rewrite (H2 n), (H1 n), in_app_iff. tauto.
Qed.

Lemma found_nil {X} (rd : X -> list string -> Prop) s s' :
  usage s' = usage s -> analysis_depth s' = analysis_depth s -> found rd [] s s'.
Proof. intros Hu Hd. exists []. split; [constructor|]. split; [|done]. rewrite Hu. cbn. tauto. Qed.

Lemma found_one {X} (rd : X -> list string -> Prop) x R s s' : rd x R -> notes R s s' -> found rd [x] s s'.
Proof. intros Hr Hn. exists [R]. split; [by repeat constructor|]. cbn. by rewrite app_nil_r. Qed.

Lemma found_app {X} (rd : X -> list string -> Prop) xs ys s s1 s2 :
  found rd xs s s1 -> found rd ys s1 s2 -> found rd (xs ++ ys) s s2.
Proof.
  intros (R1 & F1 & N1) (R2 & F2 & N2). exists (R1 ++ R2). split; [by apply Forall2_app|]. rewrite concat_app.
  by eapply notes_trans.
Qed.

(** Bookkeeping that neither reads nor writes. *)
Lemma found_moved {X} (rd : X -> list string -> Prop) xs s s1 s2 s3 :
  found rd xs s1 s2 -> usage s1 = usage s -> analysis_depth s1 = analysis_depth s ->
  usage s3 = usage s2 -> analysis_depth s3 = analysis_depth s2 -> found rd xs s s3.
Proof.
  intros (Rs & F & Hn & Hd) U1 D1 U2 D2. exists Rs. split; [done|]. split; [|congruence]. intros n. rewrite U2, Hn, U1. done.
Qed.

Section Walk.
Context `{UnicodeTables} `{JsonStr} `{BuildProfile}.
Variable root_source : list char.
Variables (max_fragment_tokens max_parse_depth : N).
Hypothesis depth_small : (max_parse_depth < usize_max)%N.

Definition part_reads (B : list string) (part : list string * Expr) (R : list string) : Prop :=
  reads (part.1 ++ B) (node part.2) R.

(** After an expression: what it read was noted, the bound names are as before. *)
Definition settled {X} (rd : X -> list string -> Prop) (xs : list X) (s s' : Analyzer) : Prop :=
  found rd xs s s' /\ usage_writes (usage s') = usage_writes (usage s) /\ same_bound (bound s) (bound s').

Lemma settled_app {X} (rd : X -> list string -> Prop) xs ys s s1 s2 :
  settled rd xs s s1 -> settled rd ys s1 s2 -> settled rd (xs ++ ys) s s2.
Proof.
  intros (F1 & W1 & B1) (F2 & W2 & B2). split; [by eapply found_app|]. split; [congruence|by eapply same_bound_trans].
Qed.

Lemma settled_nil {X} (rd : X -> list string -> Prop) s : settled rd [] s s.
Proof. split; [by apply found_nil|]. split; [done|apply same_bound_refl]. Qed.

Lemma settled_sees {X} (rd : X -> list string -> Prop) xs s s' B : settled rd xs s s' -> sees s B -> sees s' B.
Proof. intros (_ & _ & Hb). by apply names_same. Qed.

Lemma settled_depth {X} (rd : X -> list string -> Prop) xs s s' :
  settled rd xs s s' -> analysis_depth s' = analysis_depth s.
Proof. by intros ((Rs & _ & _ & Hd) & _). Qed.

Abbreviation run m Q s := (wp m Q (fun _ => True) s).

Section Recursion.
Variable expr : Expr -> AM unit.
Variable D : N.
Hypothesis expr_ok : forall B bs e s,
  sees s (bs ++ B) -> analysis_depth s = D -> (expr_height e + D <= max_parse_depth)%N ->
  run (expr e) (fun _ s' => settled (part_reads B) [(bs, e)] s s') s.

Definition fits (ps : list (list string * Expr)) : Prop :=
  Forall (fun part => (expr_height part.2 + D <= max_parse_depth)%N) ps.

Lemma wp_each {X} (rd : X -> list string -> Prop) (body : X -> AM unit) B xs : forall s,
  sees s B -> analysis_depth s = D ->
  (forall x s, In x xs -> sees s B -> analysis_depth s = D -> run (body x) (fun _ s' => settled rd [x] s s') s) ->
  run (each body xs) (fun _ s' => settled rd xs s s') s.
Proof.
  induction xs as [|x xs IH]; intros s Hs Hd Hb; cbn [each]; [apply wp_ret, settled_nil|].
  apply wp_bind. eapply wp_mono; [apply Hb; [by left|done..]| |done]. intros [] s1 Hset.
  eapply wp_mono; [apply IH| |done].
  - by eapply settled_sees.
  - by rewrite (settled_depth _ _ _ _ Hset).
  - intros y s' Hy. apply Hb. by right.
  - intros [] s2 Hset2. by apply (settled_app rd [x] xs s s1 s2).
Qed.

Lemma wp_each_parts {X} (part : X -> list string * Expr) (body : X -> AM unit) B xs s :
  sees s B -> analysis_depth s = D ->
  (forall x s, In x xs -> sees s B -> analysis_depth s = D ->
     run (body x) (fun _ s' => settled (part_reads B) [part x] s s') s) ->
  run (each body xs) (fun _ s' => settled (part_reads B) (List.map part xs) s s') s.
Proof.
  intros Hs Hd Hb. eapply wp_mono.
  - apply (wp_each (fun x => part_reads B (part x)) body B xs s Hs Hd). intros x s1 Hx Hs1 D1.
    eapply wp_mono; [by apply Hb| |done]. intros [] s2 ((Rs & F & N) & W & S). split; [|done].
    exists Rs. split; [|done]. inversion F as [|? R ? ? Hr Hn]; subst. inversion Hn; subst. by repeat constructor.
  - intros [] s' ((Rs & F & N) & W & S). split; [|done]. exists Rs. split; [|done]. by rewrite Forall2_fmap_l.
  - done.
Qed.

Lemma wp_one B e s : sees s B -> analysis_depth s = D -> (expr_height e + D <= max_parse_depth)%N ->
  run (expr e) (fun _ s' => settled (part_reads B) [([], e)] s s') s.
Proof. intros Hs Hd He. by apply expr_ok. Qed.

(** A scope: what its body binds is gone afterwards. *)
Lemma wp_scope (body : AM unit) ns B ps s :
  sees s B -> analysis_depth s = D ->
  (forall s1, sees s1 B -> bound_scopes (bound s1) <> [] -> analysis_depth s1 = D ->
     run body (fun _ s2 => found (part_reads B) ps s1 s2 /\ usage_writes (usage s2) = usage_writes (usage s1)
       /\ adds ns (bound s1) (bound s2)) s1) ->
  run (analyzer_scope body) (fun _ s' => settled (part_reads B) ps s s') s.
Proof.
  intros Hs Hd Hbody. unfold analyzer_scope. wp_step. wp_step.
  destruct (bound_begin (bound s)) as [checkpoint b1] eqn:Eb. wp_step. wp_step. wp_step.
  eapply wp_mono; [apply Hbody|cbn beta|done].
  - injection Eb as <- <-. exact Hs.
  - by injection Eb as <- <-.
  - done.
  - intros [] s2 (Hf & Hw & Ha). wp_steps.
    destruct (rollback_same _ _ _ _ _ Eb Ha) as (b3 & -> & Hsame). wp_step.
    split; [|by split]. by eapply found_moved.
Qed.

Lemma wp_bind_params ps s :
  run (each bind_ ps) (fun _ s' => usage s' = usage s /\ analysis_depth s' = analysis_depth s
    /\ adds (params_bind ps) (bound s) (bound s')) s.
Proof.
  revert s. induction ps as [|p ps IH]; intros s; cbn [each].
  - apply wp_ret. split; [done|]. split; [done|]. apply same_adds, same_bound_refl.
  - apply wp_bind. unfold bind_ at 1. wp_step. eapply wp_mono; [apply IH| |done]. intros [] s' (U & Dp & A). cbn in *.
    split; [done|]. split; [done|]. unfold params_bind. cbn.
    eapply (adds_perm (params_bind ps ++ binds p)); [intros n; rewrite !in_app_iff; tauto|].
    eapply adds_trans; [apply bind_pattern_adds|exact A].
Qed.

(** What forms write. *)
Definition writes_grow (persistent : bool) (ns : list string) (s s' : Analyzer) : Prop :=
  if persistent then forall n, In n (usage_writes (usage s')) <-> In n ns \/ In n (usage_writes (usage s))
  else usage_writes (usage s') = usage_writes (usage s).

Definition form_after (persistent : bool) (B ns : list string) (ps : list (list string * Expr)) (s s' : Analyzer) : Prop :=
  found (part_reads B) ps s s' /\ writes_grow persistent ns s s' /\ adds ns (bound s) (bound s').

Lemma settled_form B persistent ps s s' : settled (part_reads B) ps s s' -> form_after persistent B [] ps s s'.
Proof.
  intros (F & W & Sb). split; [done|]. split; [destruct persistent; [intros n; rewrite W; cbn; tauto|done]|by apply same_adds].
Qed.

Lemma analyze_form_exact persistent B bs f s :
  sees s (bs ++ B) -> analysis_depth s = D -> (form_height f + D <= max_parse_depth)%N ->
  run (analyze_form expr persistent f)
    (fun _ s' => form_after persistent B (form_binds f) (forms_parts bs [f]) s s') s.
Proof.
  intros Hs Hd Hf. unfold analyze_form, form_after, form_binds. cbn [forms_parts].
  rewrite app_nil_r. unfold form_height in Hf. destruct (node f) as [d|p v|name ps b|e]; cbn [form_kind_height] in Hf.
  - apply wp_ret. apply settled_form, settled_nil.
  - apply wp_bind. eapply wp_mono; [by apply expr_ok| |done]. intros [] s1 (F & W & Sb).
    apply wp_bind. eapply (wp_mono _ (fun _ s2 => writes_grow persistent (binds p) s s2 /\ found (part_reads B) [(bs, v)] s s2
      /\ bound s2 = bound s1) _ (fun _ => True)); [|intros [] s2 (Wg & F2 & Eb); unfold bind_; wp_step|done].
    + destruct persistent; [unfold write_names; wp_step|wp_step].
      * split; [intros n; cbn; rewrite record_pattern_In, W; tauto|]. split; [|done].
        destruct F as (Rs & Fr & Hn & Hdp). exists Rs. split; [done|]. by split.
      * by split; [|split].
    + split; [by eapply found_moved|]. split; [done|]. cbn. rewrite Eb.
      eapply (adds_perm (binds p ++ [])); [intros n; by rewrite app_nil_r|].
      eapply adds_trans; [by apply same_adds|apply bind_pattern_adds].
  - apply wp_bind. eapply wp_mono.
    + apply (wp_scope _ (name :: params_bind ps) (bs ++ B) [(name :: params_bind ps, b)]); [done..|].
      intros s1 Hs1 Hne Hd1. apply wp_bind. unfold bind_name at 1. wp_step. apply wp_bind.
      eapply wp_mono; [apply wp_bind_params| |done]. intros [] s2 (U2 & D2 & A2). cbn in *.
      assert (Ha : adds (name :: params_bind ps) (bound s1) (bound s2)).
      { eapply (adds_perm (params_bind ps ++ [name])); [intros n; rewrite in_app_iff; cbn; tauto|].
        eapply adds_trans; [apply insert_adds|exact A2]. }
      eapply wp_mono; [apply (expr_ok (bs ++ B) (name :: params_bind ps))| |done].
      * by eapply names_adds.
      * congruence.
      * done.
      * intros [] s3 (F & W & Sb). split; [by eapply found_moved|]. split; [by rewrite W, U2|].
        eapply (adds_perm ([] ++ name :: params_bind ps)); [done|]. eapply adds_trans; [exact Ha|by apply same_adds].
    + intros [] s1 (F & W & Sb).
      assert (F' : found (part_reads B) [(name :: params_bind ps ++ bs, b)] s s1).
      { destruct F as (Rs & Fr & Hn). exists Rs. split; [|done]. inversion Fr as [|? R ? ? Hr Hnil]; subst. inversion Hnil; subst.
        constructor; [|constructor]. unfold part_reads in *. cbn in *. by rewrite <- app_assoc. }
      apply wp_bind. eapply (wp_mono _ (fun _ s2 => writes_grow persistent [name] s s2
        /\ found (part_reads B) [(name :: params_bind ps ++ bs, b)] s s2 /\ bound s2 = bound s1) _ (fun _ => True));
        [|intros [] s2 (Wg & F2 & Eb); unfold bind_name; wp_step|done].
      * destruct persistent; [unfold write_names; wp_step|wp_step].
        -- split; [intros n; cbn; rewrite bs_insert_In, W; intuition congruence|]. split; [|done].
           destruct F' as (Rs & Fr & Hn & Hdp). exists Rs. split; [done|]. by split.
        -- by split; [|split].
      * split; [by eapply found_moved|]. split; [done|]. cbn. rewrite Eb.
        eapply (adds_perm ([name] ++ [])); [done|]. eapply adds_trans; [by apply same_adds|apply insert_adds].
    + done.
  - eapply wp_mono; [by apply expr_ok| |done]. intros [] s1 Hset. by apply settled_form.
Qed.

Lemma wp_forms persistent B fs : forall bs s,
  sees s (bs ++ B) -> analysis_depth s = D -> Forall (fun f => (form_height f + D <= max_parse_depth)%N) fs ->
  run (each (analyze_form expr persistent) fs)
    (fun _ s' => form_after persistent B (forms_bind fs) (forms_parts bs fs) s s') s.
Proof.
  induction fs as [|f fs IH]; intros bs s Hs Hd Hf; cbn [each].
  - apply wp_ret. apply settled_form, settled_nil.
  - apply Forall_cons in Hf as [Hf1 Hfs]. apply wp_bind. eapply wp_mono; [by apply analyze_form_exact| |done].
    intros [] s1 (F1 & W1 & A1). eapply wp_mono; [apply (IH (form_binds f ++ bs))| |done].
    + rewrite <- app_assoc. by eapply names_adds.
    + by destruct F1 as (Rs & _ & _ & ->).
    + done.
    + intros [] s2 (F2 & W2 & A2). split; [|split].
      * assert (Hp : forms_parts bs (f :: fs) = forms_parts bs [f] ++ forms_parts (form_binds f ++ bs) fs)
          by (cbn [forms_parts]; by rewrite app_nil_r). rewrite Hp. by eapply found_app.
      * destruct persistent; [|cbn in *; congruence]. intros n. unfold forms_bind. cbn.
        rewrite (W2 n), (W1 n), in_app_iff. unfold forms_bind. tauto.
      * unfold forms_bind. cbn. eapply (adds_perm (forms_bind fs ++ form_binds f)); [intros n; rewrite !in_app_iff; unfold forms_bind; tauto|].
        by eapply adds_trans.
Qed.

(** ** Strings *)

Lemma wp_try {A} (r : outcome Diagnostic A) (Q : A -> Analyzer -> Prop) s :
  match r with Ok a => Q a s | Err _ => True | Panicked | OutOfFuel => False end -> run (try_ r) Q s.
Proof. unfold wp, try_. by destruct r. Qed.

Lemma wp_read_name B name s : sees s B ->
  run (read_name name) (fun _ s' => notes (free_name B name) s s' /\ usage_writes (usage s') = usage_writes (usage s)
    /\ same_bound (bound s) (bound s')) s.
Proof.
  intros Hs. unfold read_name. wp_step. unfold free_name.
  assert (Hc : bs_contains name (bound_names (bound s)) = bs_contains name B).
  { apply eq_iff_eq_true. rewrite !bs_contains_true. apply Hs. }
  rewrite Hc. destruct (bs_contains name B).
  - split; [split; [cbn; tauto|done]|]. split; [done|apply same_bound_refl].
  - split; [split; [|done]|by split; [|apply same_bound_refl]]. intros n. cbn. rewrite bs_insert_In. intuition congruence.
Qed.

Lemma wp_fragment B fragment s : sees s B -> analysis_depth s = D ->
  run (interpolation_expression max_fragment_tokens max_parse_depth expr fragment)
    (fun _ s' => settled (piece_reads B) [IExpression fragment] s s') s.
Proof.
  intros Hs Hd. unfold interpolation_expression. wp_steps. pose proof (boundary_zero fragment).
  case_match; [by apply wp_raise|].
  destruct (N.leb_spec max_parse_depth (analysis_depth s)) as [Hle|Hlt]; [by apply wp_raise|].
  wp_step. apply wp_try. pose proof (lex_bounded_total fragment (N.min max_fragment_tokens (fragment_tokens s))) as Ht.
  destruct (lex_bounded fragment _) as [tokens|d| |] eqn:El; try done.
  apply lex_bounded_ok in El as (_ & _ & _ & Hlen).
  destruct (N.ltb_spec (fragment_tokens s) (len tokens)); [lia|]. wp_steps. apply wp_try.
  pose proof (parse_bounded_spec fragment (bytes_len fragment) (len tokens) (max_parse_depth - analysis_depth s) ltac:(lia)) as Hp.
  destruct (parse_bounded _ _ _ _) as [c|d| |] eqn:Ep; try done. destruct Hp as [Hfs _].
  eapply wp_mono.
  - apply (wp_scope _ (forms_bind (forms c)) B (forms_parts [] (forms c))); [done..|].
    intros s1 Hs1 _ Hd1. eapply wp_mono; [apply (wp_forms false B (forms c) [] s1 Hs1 Hd1)| |done].
    + eapply Forall_impl; [exact Hfs|]. intros f [Hh _]. lia.
    + by intros [] s2 (F & W & A).
  - intros [] s' ((Rs & F & N) & W & Sb). split; [|done]. eapply found_one; [|exact N].
    eapply piece_expression; [exact Ep|exact F].
  - done.
Qed.

(** What is done with a piece of a string. *)
Definition piece_act (i : Interpolation) : AM unit :=
  match i with
  | IName name => read_name name
  | IExpression fragment => interpolation_expression max_fragment_tokens max_parse_depth expr fragment
  end.

Lemma until_close_length depth cs : forall inside after,
  until_close depth cs = Some (inside, after) -> (length after < length cs)%nat.
Proof.
  revert depth. induction cs as [|c cs IH]; intros depth inside after; cbn [until_close]; [done|].
  destruct (if c =c "{" then _ else _) as [|d]; [intros [= <- <-]; cbn; lia|].
  destruct (until_close (S d) cs) as [[i a]|] eqn:E; [|done]. cbn. intros [= <- <-]. apply IH in E. lia.
Qed.

(** The scanner of the analysis and the checker find the same pieces. *)
Lemma scan_pieces fuel : forall cs s, (length cs <= fuel)%nat ->
  scan max_fragment_tokens max_parse_depth expr fuel cs s = each piece_act (interpolations_from fuel cs) s.
Proof.
  assert (Hbind : forall (m k k' : AM unit) s, (forall s, k s = k' s) -> (m;; k) s = (m;; k') s).
  { intros m k k' s Hk. unfold mbind, M_bind. destruct (m s) as [[u s1]|e| |]; [|done..]. by rewrite Hk. }
  induction fuel as [|fuel IH]; intros [|c cs] s Hf; cbn [length] in Hf; try done; [lia|].
  cbn [scan interpolations_from]. destruct (c =c "\"); [apply IH; rewrite length_drop; lia|].
  destruct (negb (c =c "#")); [apply IH; lia|]. destruct cs as [|d body]; [by destruct fuel|].
  destruct (d =c "{").
  - destruct (until_close 1 body) as [[inside after]|] eqn:Eu; [|done]. cbn [each piece_act]. apply Hbind. intros s'.
    apply IH. apply until_close_length in Eu. cbn in Hf. lia.
  - destruct (until _ (d :: body)) as [|x name] eqn:En; [apply IH; lia|]. cbn [each piece_act]. apply Hbind. intros s'.
    apply IH. rewrite length_drop. lia.
Qed.

Lemma wp_interpolations B value s : sees s B -> analysis_depth s = D ->
  run (analyze_interpolations max_fragment_tokens max_parse_depth expr value)
    (fun _ s' => settled (piece_reads B) (interpolations value) s s') s.
Proof.
  intros Hs Hd. unfold analyze_interpolations, wp. rewrite scan_pieces by done.
  change (run (each piece_act (interpolations value)) (fun _ s' => settled (piece_reads B) (interpolations value) s s') s).
  apply (wp_each _ _ B); [done..|]. intros [name|fragment] s1 _ Hs1 Hd1; cbn [piece_act]; [|by apply wp_fragment].
  eapply wp_mono; [by apply wp_read_name| |done]. intros [] s2 (N & W & Sb). split; [|done].
  eapply found_one; [apply piece_name|done].
Qed.

(** ** Expressions *)

Definition expr_after (B : list string) (e : Expr) (s s' : Analyzer) : Prop :=
  exists R, reads B (node e) R /\ notes R s s' /\ usage_writes (usage s') = usage_writes (usage s)
    /\ same_bound (bound s) (bound s').

Lemma settled_expr B e s s' : has_parts (node e) -> settled (part_reads B) (parts (node e)) s s' -> expr_after B e s s'.
Proof. intros Hp ((Rs & F & N) & W & Sb). exists (concat Rs). split; [by apply reads_parts|done]. Qed.

Lemma wp_seq B xs ys (m k : AM unit) s :
  sees s B -> analysis_depth s = D ->
  run m (fun _ s' => settled (part_reads B) xs s s') s ->
  (forall s1, sees s1 B -> analysis_depth s1 = D -> run k (fun _ s' => settled (part_reads B) ys s1 s') s1) ->
  run (m;; k) (fun _ s' => settled (part_reads B) (xs ++ ys) s s') s.
Proof.
  intros Hs Hd Hm Hk. apply wp_bind. eapply wp_mono; [exact Hm| |done]. intros [] s1 Hset.
  eapply wp_mono; [apply Hk| |done].
  - by eapply settled_sees.
  - by rewrite (settled_depth _ _ _ _ Hset).
  - intros [] s2 Hset2. by eapply settled_app.
Qed.

(** A scope of binders around one expression. *)
Lemma wp_under B (binders : AM unit) ns e s :
  sees s B -> analysis_depth s = D -> (expr_height e + D <= max_parse_depth)%N ->
  (forall s, run binders (fun _ s' => usage s' = usage s /\ analysis_depth s' = analysis_depth s
     /\ adds ns (bound s) (bound s')) s) ->
  run (analyzer_scope (binders;; expr e)) (fun _ s' => settled (part_reads B) [(ns, e)] s s') s.
Proof.
  intros Hs Hd He Hb. apply (wp_scope _ ns); [done..|]. intros s1 Hs1 _ Hd1. apply wp_bind.
  eapply wp_mono; [apply Hb| |done]. intros [] s2 (U2 & D2 & A2).
  eapply wp_mono; [apply (expr_ok B ns)| |done].
  - by eapply names_adds.
  - congruence.
  - done.
  - intros [] s3 (F & W & Sb). split; [by eapply found_moved|]. split; [by rewrite W, U2|].
    eapply (adds_trans ns []); [exact A2|by apply same_adds].
Qed.

Lemma wp_arms B v arms s :
  sees s B -> analysis_depth s = D -> (expr_height v + D <= max_parse_depth)%N ->
  Forall (fun a => (arm_height a + D <= max_parse_depth)%N) arms ->
  run (expr v;; each (analyze_arm expr) arms)
    (fun _ s' => settled (part_reads B) (([], v) :: List.map (fun a => (binds (arm_pattern a), arm_value a)) arms) s s') s.
Proof.
  intros Hs Hd Hv Ha. apply (wp_seq B [([], v)]); [done..|by apply wp_one|]. intros s1 Hs1 Hd1.
  apply wp_each_parts; [done..|]. intros a s2 Hin Hs2 Hd2. apply (wp_under B (bind_ (arm_pattern a))); [done..| |].
  - rewrite Forall_forall in Ha. apply list_elem_of_In in Hin. apply Ha in Hin. by destruct a.
  - intros s3. unfold bind_. wp_step. split; [done|]. split; [done|apply bind_pattern_adds].
Qed.

Lemma list_heights {A} (h : A -> N) (l : list A) :
  (max_list (List.map h l) + 1 + D <= max_parse_depth + 1)%N -> Forall (fun x => (h x + D <= max_parse_depth)%N) l.
Proof.
  intros Hm. assert (Hl : (max_list (List.map h l) <= max_parse_depth - D)%N) by lia. apply max_list_le in Hl.
  rewrite Forall_map in Hl. eapply Forall_impl; [exact Hl|]. cbn. intros x Hx. lia.
Qed.

Lemma wp_inner B e s : sees s B -> analysis_depth s = D -> (expr_height e + D <= max_parse_depth + 1)%N ->
  run (analyze_inner max_fragment_tokens max_parse_depth expr e) (fun _ s' => expr_after B e s s') s.
Proof.
  intros Hs Hd Hh. unfold expr_height in Hh. unfold analyze_inner.
  assert (Hparts : forall m : AM unit, has_parts (node e) -> run m (fun _ s' => settled (part_reads B) (parts (node e)) s s') s ->
    run m (fun _ s' => expr_after B e s s') s).
  { intros m Hp Hm. eapply wp_mono; [exact Hm| |done]. intros [] s'. by apply settled_expr. }
  destruct (node e) as [v|z|x|b| |u|name|c|c|vs|fs|ps b|f a|t f|op v|op l r|v t|c t f|v arms|v arms|fs] eqn:Ek;
    cbn [kind_height] in Hh;
    try (apply Hparts; [done|]; cbn [parts]; apply wp_ret, settled_nil).
  - eapply wp_mono; [by apply (wp_interpolations B)| |done]. intros [] s' ((Rs & F & N) & W & Sb). exists (concat Rs).
    rewrite Ek. split; [by apply reads_string|done].
  - eapply wp_mono; [by apply (wp_read_name B)| |done]. intros [] s' (N & W & Sb). exists (free_name B name).
    rewrite Ek. split; [apply reads_name|done].
  - apply Hparts; [done|]. apply wp_each_parts; [done..|]. intros x s1 Hin Hs1 Hd1. apply wp_one; [done..|].
    apply list_heights in Hh. rewrite Forall_forall in Hh. by apply Hh, list_elem_of_In.
  - apply Hparts; [done|]. apply (wp_each_parts (fun f : string * Expr => ([], f.2))); [done..|].
    intros x s1 Hin Hs1 Hd1. apply wp_one; [done..|]. apply list_heights in Hh. rewrite Forall_forall in Hh.
    by apply (Hh x), list_elem_of_In.
  - apply Hparts; [done|]. apply wp_under; [done..|unfold expr_height; lia|]. intros s1. apply wp_bind_params.
  - apply Hparts; [done|]. apply (wp_seq B [([], f)] [([], a)]); [done..|apply wp_one|intros; apply wp_one]; try done; unfold expr_height; lia.
  - apply Hparts; [done|]. apply wp_one; try done. unfold expr_height. lia.
  - apply Hparts; [done|]. apply wp_one; try done. unfold expr_height. lia.
  - apply Hparts; [done|]. apply (wp_seq B [([], l)] [([], r)]); [done..|apply wp_one|intros; apply wp_one]; try done; unfold expr_height; lia.
  - apply Hparts; [done|]. apply (wp_seq B [([], v)] [([], t)]); [done..|apply wp_one|intros; apply wp_one]; try done; unfold expr_height; lia.
  - apply Hparts; [done|]. apply (wp_seq B [([], c)] [([], t); ([], f)]); [done..|apply wp_one; try done; unfold expr_height; lia|].
    intros s1 Hs1 Hd1. apply (wp_seq B [([], t)] [([], f)]); [done..|apply wp_one|intros; apply wp_one]; try done; unfold expr_height; lia.
  - apply Hparts; [done|]. apply wp_arms; [done..|unfold expr_height; lia|]. apply list_heights. lia.
  - apply Hparts; [done|]. apply wp_arms; [done..|unfold expr_height; lia|]. apply list_heights. lia.
  - apply Hparts; [done|]. apply (wp_scope _ (forms_bind fs)); [done..|]. intros s1 Hs1 _ Hd1.
    eapply wp_mono; [apply (wp_forms false B fs [] s1 Hs1 Hd1)| |done].
    + apply (list_heights (fun f => form_kind_height (node f))). lia.
    + by intros [] s2 (F & W & A).
Qed.
End Recursion.

Lemma wp_analyze_expr fuel : forall B bs e s,
  sees s (bs ++ B) -> (expr_height e + analysis_depth s <= max_parse_depth)%N ->
  (N.to_nat (max_parse_depth - analysis_depth s) < fuel)%nat ->
  run (analyze_expr root_source max_fragment_tokens max_parse_depth fuel e)
    (fun _ s' => settled (part_reads B) [(bs, e)] s s') s.
Proof.
  induction fuel as [|fuel IH]; intros B bs e s Hs Hh Hf; [lia|].
  assert (Hpos : (1 <= expr_height e)%N) by (unfold expr_height; destruct (node e); cbn; lia).
  unfold wp. cbn [analyze_expr]. rewrite (proj2 (N.leb_gt _ _)) by lia.
  change (run (modify (set_analysis_depth (analysis_depth s + 1));;
    analyze_inner max_fragment_tokens max_parse_depth (analyze_expr root_source max_fragment_tokens max_parse_depth fuel) e;;
    s ← get; if (analysis_depth s =? 0)%N then panic else modify (set_analysis_depth (analysis_depth s - 1)))
    (fun _ s' => settled (part_reads B) [(bs, e)] s s') s).
  wp_step. wp_step. apply wp_bind. eapply wp_mono.
  - apply (wp_inner _ (analysis_depth s + 1)%N) with (B := bs ++ B); [|done|done|lia].
    intros B' bs' e' s' Hs' Hd' Hh'. apply IH; [done|lia|lia].
  - intros [] s1 (R & Hr & (Hn & Hd) & W & Sb). wp_steps. cbn in Hd. rewrite (proj2 (N.eqb_neq _ _)) by lia. wp_step.
    split; [|done]. eapply found_one; [exact Hr|]. split; [done|]. cbn. lia.
  - done.
Qed.
End Walk.

(** ** The bindings of a cell *)

Section Usage.
Context `{UnicodeTables} `{JsonStr} `{BuildProfile}.

(** C39: What a batch cell reads and writes.  The analysis always ends with a usage
    or a diagnostic, in debug and release builds; for an accepted cell the reads are
    exactly the names that occur in it, fragments of strings included, outside the
    scope of a pattern, parameter or earlier form that binds them, and the writes are
    exactly the names its top-level forms bind. *)
Theorem batch_usage_exact source max_source_bytes max_syntax_nodes max_parse_depth :
  (max_parse_depth < usize_max)%N ->
  returns (binding_usage_bounded source max_source_bytes max_syntax_nodes max_parse_depth)
  /\ forall u, binding_usage_bounded source max_source_bytes max_syntax_nodes max_parse_depth = Ok u ->
     exists cell Rs,
       parse_bounded source max_source_bytes max_syntax_nodes max_parse_depth = Ok cell
       /\ Forall2 (fun part R => reads part.1 (node part.2) R) (forms_parts [] (forms cell)) Rs
       /\ (forall n, In n (usage_reads u) <-> In n (concat Rs))
       /\ forall n, In n (usage_writes u) <-> In n (forms_bind (forms cell)).
Proof.
  intros Hmax. unfold binding_usage_bounded.
  pose proof (parse_bounded_spec source max_source_bytes max_syntax_nodes max_parse_depth Hmax) as Hp.
  destruct (parse_bounded _ _ _ _) as [cell|d| |]; [|by split|done..]. destruct Hp as [Hfs _]. cbn [mbind outcome_bind].
  pose proof (wp_forms _ _ 0%N (fun B bs e s Hs Hd Hh =>
    wp_analyze_expr source max_syntax_nodes max_parse_depth Hmax (S (N.to_nat max_parse_depth)) B bs e s Hs
      ltac:(by rewrite Hd) ltac:(rewrite Hd; lia)) true [] (forms cell) [] (new_analyzer max_source_bytes)) as Hw.
  unfold wp, analyze_cell in *. specialize (Hw ltac:(done) eq_refl).
  assert (Hh : Forall (fun f => (form_height f + 0 <= max_parse_depth)%N) (forms cell))
    by (eapply Forall_impl; [exact Hfs|]; intros f [Hh _]; lia).
  specialize (Hw Hh). destruct (each _ _ _) as [[u a]|d| |]; [|by split|done..]. cbn.
  destruct Hw as ((Rs & F & N & _) & W & _). split; [done|]. intros u' [= <-]. exists cell, Rs. split; [done|]. split.
  - eapply Forall2_impl; [exact F|]. intros part R Hr. unfold part_reads in Hr. by rewrite app_nil_r in Hr.
  - split; intros n; [rewrite (N n)|rewrite (W n)]; cbn; tauto.
Qed.
End Usage.

(** ** Dependencies *)

Definition depends (cell : Dependencies) (j : nat) (n : string) : Prop := exists names, In (j, names) cell /\ In n names.

Definition writes_at (usages : list (option BindingUsage)) (j : nat) (n : string) : Prop :=
  exists u, usages !! j = Some (Some u) /\ In n (usage_writes u).

(** The last cell before [i] that writes [n]. *)
Definition last_writer (usages : list (option BindingUsage)) (i j : nat) (n : string) : Prop :=
  (j < i)%nat /\ writes_at usages j n /\ forall k, (j < k < i)%nat -> ~ writes_at usages k n.

Lemma depend_spec writer name cell j n :
  depends (depend writer name cell) j n <-> j = writer /\ n = name \/ depends cell j n.
Proof.
  assert (Hcons : forall w names rest, depends ((w, names) :: rest) j n <-> j = w /\ In n names \/ depends rest j n).
  { intros w names rest. unfold depends. split.
    - intros (ns & [[= -> ->]|Hin] & Hn); [by left|right; by exists ns].
    - intros [[-> Hn]|(ns & Hin & Hn)]; [exists names|exists ns]; split; cbn; auto. }
  induction cell as [|[w names] rest IH]; cbn [depend].
  - rewrite Hcons, bs_insert_In. cbn. tauto.
  - destruct (Nat.eqb_spec writer w) as [<-|Hne]; [rewrite !Hcons, bs_insert_In; tauto|].
    destruct (writer <? w)%nat; rewrite !Hcons; [rewrite bs_insert_In; cbn; tauto|]. rewrite IH. tauto.
Qed.

Lemma depend_unknown ws cell j n :
  depends (foldl (fun cell w => depend w unknown_bindings cell) cell ws) j n
  <-> In j ws /\ n = unknown_bindings \/ depends cell j n.
Proof.
  revert cell. induction ws as [|w ws IH]; intros cell; cbn [foldl]; [cbn; tauto|]. rewrite IH, depend_spec. cbn. intuition congruence.
Qed.

Lemma depend_reads ws names cell j n :
  depends (foldl (fun cell name => match bm_get name ws with Some w => depend w name cell | None => cell end) cell names) j n
  <-> In n names /\ bm_get n ws = Some j \/ depends cell j n.
Proof.
  revert cell. induction names as [|m names IH]; intros cell; cbn [foldl]; [cbn; tauto|]. rewrite IH. cbn.
  destruct (bm_get m ws) as [w|] eqn:Eg; [rewrite depend_spec|]; intuition congruence.
Qed.

Lemma insert_writers (index : nat) names ws n j :
  bm_get n (foldl (fun ws name => bm_insert name index ws) ws names) = Some j
  <-> In n names /\ j = index \/ ~ In n names /\ bm_get n ws = Some j.
Proof.
  revert ws. induction names as [|m names IH]; intros ws; cbn [foldl]; [cbn; tauto|].
  rewrite IH, bm_get_insert. cbn. destruct (decide (n = m)) as [->|Hne]; [|intuition congruence].
  destruct (in_dec String.string_dec m names); intuition congruence.
Qed.

Section Dependencies.
Variable usages : list (option BindingUsage).

Definition cell_spec (i : nat) (cell : Dependencies) : Prop := forall j n,
  depends cell j n <->
  (j < i)%nat /\ usages !! j = Some None /\ n = unknown_bindings
  \/ exists u, usages !! i = Some (Some u) /\ In n (usage_reads u) /\ last_writer usages i j n.

Definition scanned (k : nat) (st : BatchScan) : Prop :=
  (forall n j, bm_get n (writers st) = Some j <-> last_writer usages k j n)
  /\ (forall j, In j (unknown_writers st) <-> (j < k)%nat /\ usages !! j = Some None)
  /\ length (dependencies st) = k
  /\ forall i cell, dependencies st !! i = Some cell -> cell_spec i cell.

Lemma last_writer_step k j n :
  last_writer usages (S k) j n <-> writes_at usages k n /\ j = k \/ ~ writes_at usages k n /\ last_writer usages k j n.
Proof.
  split.
  - intros (Hlt & Hw & Hn). destruct (decide (j = k)) as [->|]; [by left|]. right. split; [apply Hn; lia|].
    split; [lia|]. split; [done|]. intros m Hm. apply Hn. lia.
  - intros [[Hw ->]|[Hw (Hlt & Hwj & Hn)]]; (split; [lia|]; split; [done|]); intros m Hm; [lia|].
    destruct (decide (m = k)) as [->|]; [done|]. apply Hn. lia.
Qed.

Lemma batch_step_scanned k usage st :
  usages !! k = Some usage -> scanned k st -> scanned (S k) (batch_step st k usage).
Proof.
  intros Hk (Hw & Hu & Hlen & Hd).
  assert (Hdeps : forall cell, cell_spec k cell -> forall i c, (dependencies st ++ [cell]) !! i = Some c -> cell_spec i c).
  { intros cell Hc i c Hi. apply lookup_app_Some in Hi as [Hi|[Hge Hi]]; [by apply Hd|].
    apply list_lookup_singleton_Some in Hi as [Hz <-]. by replace i with k by lia. }
  unfold batch_step. destruct usage as [u|]; split; cbn.
  - intros n j. rewrite insert_writers, last_writer_step, Hw. unfold writes_at at 1 2. rewrite Hk.
    split; intros [[Hn Hj]|[Hn Hj]]; [left|right|left|right]; (split; [|done]); naive_solver.
  - split; [intros j; rewrite Hu; split; intros [Hj Hl]; (split; [|done]); [lia|]|].
    { destruct (decide (j = k)) as [->|]; [congruence|lia]. }
    rewrite length_app. cbn. split; [lia|]. apply Hdeps. intros j n.
    rewrite depend_reads, depend_unknown, Hu, Hw. split.
    + intros [[Hn Hj]|[[[Hj Hl] Hn]|(? & [] & _)]]; [right; by exists u|by left].
    + intros [(Hj & Hl & Hn)|(u' & Hu' & Hn & Hj)]; [by right; left|]. left. split; [|done]. congruence.
  - intros n j. rewrite last_writer_step, Hw. unfold writes_at at 1 2. rewrite Hk. naive_solver.
  - split; [intros j; rewrite in_app_iff, Hu; cbn; split; [intros [[Hj Hl]|[<-|[]]]; (split; [lia|done])|]|].
    { intros [Hj Hl]. destruct (decide (j = k)) as [->|]; [by right; left|]. left. split; [lia|done]. }
    rewrite length_app. cbn. split; [lia|]. apply Hdeps. intros j n.
    rewrite depend_unknown, Hu. split.
    + intros [[[Hj Hl] Hn]|(? & [] & _)]. by left.
    + intros [(Hj & Hl & Hn)|(u' & Hu' & _)]; [by left|]. congruence.
Qed.

Lemma batch_scan_scanned rest : forall k st,
  drop k usages = rest -> scanned k st -> scanned (k + length rest) (batch_scan st k rest).
Proof.
  induction rest as [|u rest IH]; intros k st Hdrop Hst; cbn [batch_scan length]; [by rewrite Nat.add_0_r|].
  assert (Hk : usages !! k = Some u) by (rewrite <- (Nat.add_0_r k), <- lookup_drop, Hdrop; done).
  rewrite <- Nat.add_succ_comm. apply IH; [|by apply batch_step_scanned].
  rewrite <- Nat.add_1_r, <- drop_drop, Hdrop. done.
Qed.
End Dependencies.

(** Dependencies of a batch.  There is one entry per cell; a cell depends, for
    each name it reads, on exactly the last earlier cell that writes the name, and
    besides on every earlier cell that could not be analyzed, so that no dependency
    points forward. *)
Lemma batch_dependencies_exact usages :
  length (batch_dependencies usages) = length usages
  /\ forall i cell, batch_dependencies usages !! i = Some cell -> cell_spec usages i cell.
Proof.
  destruct (batch_scan_scanned usages usages 0 (mkBatchScan [] [] []) eq_refl) as (_ & _ & Hlen & Hd).
  - split; [|split; [|split]]; cbn; [|intros j; split; [done|lia]|done|by intros i cell].
    intros n j. split; [done|]. intros (Hj & _). lia.
  - by split.
Qed.

(** ** A cell *)

Definition sample_cell : list char := chars "let a = b; f (fun x -> x + a) c".

Definition sample_usage : BindingUsage := mkBindingUsage ["b"; "c"; "f"]%string ["a"%string].

Lemma batch_usage_exact_witness :
  let _ := ascii_tables in let _ := plain_json in let _ : BuildProfile := false in
  binding_usage_bounded sample_cell 100 100 20 = Ok sample_usage
  /\ exists cell Rs,
       Forall2 (fun part R => reads part.1 (node part.2) R) (forms_parts [] (forms cell)) Rs
       /\ (forall n, In n (usage_reads sample_usage) <-> In n (concat Rs))
       /\ forall n, In n (usage_writes sample_usage) <-> In n (forms_bind (forms cell)).
Proof.
  intros ? ? ?.
  assert (E : binding_usage_bounded sample_cell 100 100 20 = Ok sample_usage) by (vm_compute; reflexivity).
  split; [exact E|].
  destruct (proj2 (batch_usage_exact sample_cell 100 100 20 eq_refl) sample_usage E) as (cell & Rs & _ & Hs).
  exists cell, Rs. exact Hs.
Defined.

Example sample_dependencies :
  batch_dependencies [Some (mkBindingUsage [] ["a"%string]); None; Some (mkBindingUsage ["a"%string] ["a"%string]);
    Some (mkBindingUsage ["a"; "b"]%string [])]
  = [[]; []; [(0, ["a"]); (1, ["<unknown bindings>"])]; [(1, ["<unknown bindings>"]); (2, ["a"])]]%string.
Proof. reflexivity. Qed.
