(* ===== verification/Actors.v ===== *)
(** * The registry of actors ([tm-agents]: actor.rs, executor.rs, mailbox.rs,
    mailbox/roster.rs, lifecycle.rs, cancellation.rs, restart.rs, messages.rs)

    Sessions share one registry of locked maps.  A [Section_] is one critical section
    or one atomic operation on it; a method of the registry is the tree of the
    sections it enters ([Io]), so that other calls may come in between.  Cancel
    tokens and inboxes are shared through [Arc]s: the maps hold addresses, and a
    token that was replaced lives on with those who hold it.  Times are numbers of
    nanoseconds; an [ActorId] is its string. *)

From coqutil Require Import Datatypes.RecordSetters.
From stdpp Require Import base tactics list gmap strings sorting.
From Stdlib Require Import NArith ZArith Lia Ascii.
From S2P Require Import Prelude BTree Text Strings Supervise Inbox Redaction Host Io.
Import DoubleBraceUpdate.

(** Upper-casing beyond ASCII, [{:?}] of a string, and the hash of a group name are
    the standard library's; [to_rfc3339] is the crate [chrono]. *)
Class ActorText := {
  to_uppercase_table : char -> list char;
  debug_string : string -> string;
  group_hash : option string -> string -> N;
  to_rfc3339 : Z -> string;
}.

(** ** Actors ([actor.rs]) *)

Definition MAX_ACTOR_ROLE_BYTES : N := 128.
Definition MAX_ACTOR_TASK_BYTES : N := 8 * 1024.
Definition MAX_ACTOR_SUMMARY_BYTES : N := 4 * 1024.
Definition MAX_ACTOR_TRANSCRIPT_BYTES : N := 64 * 1024.
Definition ACTOR_TEXT_TRUNCATED_MARKER : string := String "010" "[actor output truncated]".

(** The address of a token's flag. *)
Abbreviation ActorCancelToken := nat (only parsing).

Inductive ActorIdError := TooLong (length : N) | InvalidFormat (id : string).

Definition is_camel_case `{UnicodeTables} (s : string) : bool :=
  match chars s with
  | [] => false
  | first :: _ => is_uppercase first && forallb is_alphanumeric (chars s)
  end.

(** [ActorId::new]. *)
Definition actor_id_new `{UnicodeTables} (id : string) : ActorIdError + ActorId :=
  if (32 <? str_len id)%N then inl (TooLong (str_len id))
  else if negb (is_camel_case id) then inl (InvalidFormat id)
  else inr id.

Definition display_actor_id_error `{ActorText} (e : ActorIdError) : string :=
  match e with
  | TooLong n => "actor id must be ≤32 characters, got " ++ display_u64 n
  | InvalidFormat id =>
      "actor id must be CamelCase (start uppercase, alphanumeric only), got " ++ debug_string id
  end.

Inductive ActorStatus := Running | Idle | Parked | Terminated.

#[global] Instance actor_status_eq_dec : EqDecision ActorStatus.
Proof. solve_decision. Defined.

Record ActorBudget := mkActorBudget { wall_ms : N; max_depth : N }.

Definition actor_budget_default : ActorBudget := mkActorBudget 120000 4.

Record ActorSpec := mkSpec {
  spec_id : ActorId;
  spec_session_id : string;
  spec_project_id : option string;
  spec_role : string;
  spec_task : string;
  spec_mode : option string;
  spec_grants : CapabilityGrants;
  spec_budget : ActorBudget;
  spec_parent : option ActorId;
  spec_depth : N;
  spec_cancellation : ActorCancelToken;
}.

Definition validate_text_bytes (field text : string) (max_bytes : N) : string + unit :=
  if (max_bytes <? str_len text)%N
  then inl (field ++ " must be at most " ++ display_u64 max_bytes ++ " UTF-8 bytes, got "
            ++ display_u64 (str_len text))%string
  else inr tt.

(** A first failure, or success. *)
Definition and_check (a b : string + unit) : string + unit :=
  match a with inl e => inl e | inr _ => b end.

Definition validate_text_limits (s : ActorSpec) : string + unit :=
  and_check (validate_text_bytes "role" (spec_role s) MAX_ACTOR_ROLE_BYTES)
    (and_check (validate_text_bytes "task" (spec_task s) MAX_ACTOR_TASK_BYTES)
       match spec_mode s with
       | Some mode => validate_text_bytes "mode" mode MAX_ACTOR_ROLE_BYTES
       | None => inr tt
       end).

Record ActorRecord := mkRecord {
  rec_id : ActorId;
  rec_parent : option ActorId;
  rec_status : ActorStatus;
  rec_mode : option string;
  rec_budget : ActorBudget;
  rec_spawned_at : Z;
  rec_completed_at : option Z;
  rec_cancelled : bool;
  rec_failure_reason : option FailureReason;
  rec_artifact_uri : option string;
  rec_history_uri : option string;
}.

Record ActorDigest := mkDigest {
  digest_actor_id : ActorId;
  digest_summary : string;
  digest_artifact_uri : option string;
  digest_history_uri : option string;
  digest_history_content : option string;
}.

Definition truncate_utf8_with_marker (value : string) (max_bytes : N) : string :=
  let marker := ACTOR_TEXT_TRUNCATED_MARKER in
  if (str_len value <=? max_bytes)%N then value
  else if (max_bytes <=? str_len marker)%N then str_take max_bytes marker
  else
    let content_limit := N.min (max_bytes - str_len marker) (str_len value) in
    (str_take (floor_char_boundary value content_limit) value ++ marker)%string.

Definition enforce_text_limits (d : ActorDigest) : ActorDigest :=
  mkDigest (digest_actor_id d) (truncate_utf8_with_marker (digest_summary d) MAX_ACTOR_SUMMARY_BYTES)
    (digest_artifact_uri d) (digest_history_uri d)
    ((fun content => truncate_utf8_with_marker content MAX_ACTOR_TRANSCRIPT_BYTES) <$> digest_history_content d).

Inductive ActorLifecycleEvent :=
| EvSpawned (actor : ActorId) (parent : option ActorId) (role task : string) (depth : N) (budget : ActorBudget)
    (spawned_at : Z)
| EvStatusChanged (actor : ActorId) (status : ActorStatus) (at_ : Z)
| EvMessageSent (sender receiver : ActorId) (reply : option ActorId) (sent_at : Z)
| EvCompleted (actor : ActorId) (completed_at : Z) (summary artifact_uri history_uri : option string)
| EvFailed (actor : ActorId) (failed_at : Z) (reason : FailureReason)
| EvSupervision (supervisor failed : ActorId) (decision : SupervisionDecision) (decided_at : Z)
| EvCancelled (actor : ActorId) (cancelled_at : Z).

Definition event_type (e : ActorLifecycleEvent) : string :=
  match e with
  | EvSpawned _ _ _ _ _ _ _ => "actor_spawned"
  | EvStatusChanged _ _ _ => "actor_status"
  | EvMessageSent _ _ _ _ => "actor_message"
  | EvCompleted _ _ _ _ _ => "actor_completed"
  | EvFailed _ _ _ => "actor_failed"
  | EvSupervision _ _ _ _ => "actor_supervision"
  | EvCancelled _ _ => "actor_cancelled"
  end.

Record ActorOutputLink := mkLink {
  link_actor_id : ActorId;
  link_artifact_uri : option string;
  link_history_uri : option string;
}.

Definition output_link (e : ActorLifecycleEvent) : option ActorOutputLink :=
  match e with
  | EvCompleted actor _ _ None None => None
  | EvCompleted actor _ _ artifact history => Some (mkLink actor artifact history)
  | _ => None
  end.

(** ** Errors of the executor ([executor.rs]) *)

Inductive ActorError :=
| Execution (message : string)
| InvalidSpec (message : string)
| ActorDepthExceeded (limit : N)
| ActorTimeout
| ActorCancelled.

Definition display_actor_error (e : ActorError) : string :=
  match e with
  | Execution m => "actor execution failed: " ++ m
  | InvalidSpec m => "actor spec invalid: " ++ m
  | ActorDepthExceeded n => "actor depth limit " ++ display_u64 n ++ " exceeded"
  | ActorTimeout => "actor wall-clock budget exceeded"
  | ActorCancelled => "actor cancelled"
  end.

Definition failure_reason_for_error (e : ActorError) : FailureReason :=
  match e with
  | Execution m | InvalidSpec m => Crash m
  | ActorDepthExceeded _ => DepthExceeded
  | ActorTimeout => TimedOut
  | ActorCancelled => ReasonCancelled
  end.

(** ** The registry ([mailbox.rs]) *)

Definition MAX_ACTORS_PER_SESSION : nat := 64.

(** A session and an actor of it. *)
Definition ActorKey : Type := string * ActorId.

Inductive RegistryError := SessionActorLimit (limit : nat) | InvalidText (message : string).

Definition display_registry_error (e : RegistryError) : string :=
  match e with
  | SessionActorLimit n => "session actor limit of " ++ display_u64 (N.of_nat n) ++ " reached"
  | InvalidText m => "actor text invalid: " ++ m
  end.

Inductive CancelActorResult := CancelDone | AlreadyCancelled | AlreadyTerminated | CancelNotFound.

Definition cancel_result_as_str (r : CancelActorResult) : string :=
  match r with
  | CancelDone => "cancelled"
  | AlreadyCancelled => "already_cancelled"
  | AlreadyTerminated => "already_terminated"
  | CancelNotFound => "not_found"
  end.

Record ActorRestartTemplate := mkTemplate {
  tpl_id : ActorId;
  tpl_session_id : string;
  tpl_project_id : option string;
  tpl_role : string;
  tpl_task : string;
  tpl_mode : option string;
  tpl_grants : CapabilityGrants;
  tpl_budget : ActorBudget;
  tpl_parent : option ActorId;
  tpl_supervisor_id : ActorId;
  tpl_depth : N;
}.

Definition template_from_spec (s : ActorSpec) (supervisor_id : ActorId) : ActorRestartTemplate :=
  mkTemplate (spec_id s) (spec_session_id s) (spec_project_id s) (spec_role s) (spec_task s) (spec_mode s)
    (spec_grants s) (spec_budget s) (spec_parent s) supervisor_id (spec_depth s).

Definition template_to_spec (t : ActorRestartTemplate) (cancellation : ActorCancelToken) : ActorSpec :=
  mkSpec (tpl_id t) (tpl_session_id t) (tpl_project_id t) (tpl_role t) (tpl_task t) (tpl_mode t) (tpl_grants t)
    (tpl_budget t) (tpl_parent t) (tpl_depth t) cancellation.

(** [token_flags] and [boxes] are what the shared tokens and inboxes hold, by address;
    [lifecycle_events] has the calls of the lifecycle hook, the latest last. *)
Record MailboxRegistry := mkMailbox {
  actors : gmap ActorKey ActorRecord;
  inboxes : gmap ActorKey nat;
  cancel_tokens : gmap ActorKey nat;
  next_seq : N;
  next_supervisor_seq : N;
  message_log : MessageLog;
  transcripts : gmap ActorKey string;
  restart_templates : gmap ActorKey ActorRestartTemplate;
  actor_supervisors : gmap ActorKey ActorId;
  supervisors : gmap ActorKey Supervisor;
  token_flags : list bool;
  boxes : list ActorInbox;
  lifecycle_events : list (string * ActorLifecycleEvent);
}.

Definition mailbox_new : MailboxRegistry :=
  mkMailbox ∅ ∅ ∅ 0 0 (mkLog [] 0) ∅ ∅ ∅ ∅ [] [] [].

Definition root_supervisor_actor_id : ActorId := "Root".

Definition is_live_status (s : ActorStatus) : bool := bool_decide (s ≠ Terminated).

(** ** Shared cells *)

(** [ActorCancelToken::default()] and [ActorInbox::new()] allocate. *)
Definition new_token (r : MailboxRegistry) : nat * MailboxRegistry :=
  (length (token_flags r), r {{ token_flags ::= (fun l => l ++ [false]) }}).
Definition new_box (r : MailboxRegistry) : nat * MailboxRegistry :=
  (length (boxes r), r {{ boxes ::= (fun l => l ++ [inbox_new]) }}).

(** [entry(key).or_default()] and [entry(key).or_insert_with(ActorInbox::new)]. *)
Definition entry_token (key : ActorKey) (r : MailboxRegistry) : nat * MailboxRegistry :=
  match cancel_tokens r !! key with
  | Some token => (token, r)
  | None => let '(token, r) := new_token r in (token, r {{ cancel_tokens ::= <[key := token]> }})
  end.
Definition entry_inbox (key : ActorKey) (r : MailboxRegistry) : nat * MailboxRegistry :=
  match inboxes r !! key with
  | Some box => (box, r)
  | None => let '(box, r) := new_box r in (box, r {{ inboxes ::= <[key := box]> }})
  end.

(** [supervisors.entry(key).or_default()], changed by [f]. *)
Definition on_supervisor {A} (key : ActorKey) (f : Supervisor -> A * Supervisor) (r : MailboxRegistry)
    : A * MailboxRegistry :=
  let '(a, s) := f (default (supervisor_new policy_default) (supervisors r !! key)) in
  (a, r {{ supervisors ::= <[key := s]> }}).

Definition on_box {A} (box : nat) (f : ActorInbox -> A * ActorInbox) (r : MailboxRegistry) : A * MailboxRegistry :=
  let '(a, b) := f (default inbox_new (boxes r !! box)) in
  (a, r {{ boxes ::= <[box := b]> }}).

(** ** The roster ([mailbox/roster.rs]) *)

Definition session_records (session : string) (r : MailboxRegistry) : list ActorRecord :=
  (filter (fun p => p.1.1 = session) (map_to_list (actors r))).*2.

Definition live_count (session : string) (r : MailboxRegistry) : nat :=
  length (filter (fun record => is_live_status (rec_status record) = true) (session_records session r)).

(** One round of the loop that commits a wave. *)
Definition track_one (session : string) (entry : ActorRecord * ActorId) (r : MailboxRegistry) : MailboxRegistry :=
  let '(record, supervisor_id) := entry in
  let key := (session, rec_id record) in
  let r := r {{ actors ::= <[key := record]> }} in
  let r := (entry_inbox key r).2 in
  let r := (entry_token key r).2 in
  let r := r {{ actor_supervisors ::= <[key := supervisor_id]> }} in
  (on_supervisor (session, supervisor_id) (fun s => (tt, track (rec_id record) s)) r).2.

Definition new_live_count (session : string) (records : list (ActorRecord * ActorId)) (r : MailboxRegistry) : nat :=
  length (filter (fun e : ActorRecord * ActorId =>
    is_live_status (rec_status e.1) = true /\ actors r !! (session, rec_id e.1) = None) records).

Definition track_batch_locked (session : string) (records : list (ActorRecord * ActorId)) (r : MailboxRegistry)
    : (RegistryError + unit) * MailboxRegistry :=
  if (MAX_ACTORS_PER_SESSION <? live_count session r + new_live_count session records r)%nat
  then (inl (SessionActorLimit MAX_ACTORS_PER_SESSION), r)
  else (inr tt, foldl (fun r e => track_one session e r) r records).

Definition update_status_locked (key : ActorKey) (status : ActorStatus) (r : MailboxRegistry) : MailboxRegistry :=
  r {{ actors ::= alter (fun rec => rec {{ rec_status := status }}) key }}.

(** A child of the actor; those without a parent are the children of [Root]. *)
Definition is_direct_child (parent_id : ActorId) (record : ActorRecord) : bool :=
  match rec_parent record with
  | Some parent => String.eqb parent parent_id
  | None => String.eqb parent_id "Root"
  end.

Definition live_direct_children (session : string) (parent_id : ActorId) (r : MailboxRegistry) : list ActorRecord :=
  filter (fun record => is_live_status (rec_status record) = true /\ is_direct_child parent_id record = true)
    (session_records session r).

(** ** The life cycle ([mailbox/lifecycle.rs]) *)

Definition set_policy_locked (key : ActorKey) (p : SupervisionPolicy) (r : MailboxRegistry) : MailboxRegistry :=
  let s := default (supervisor_new p) (supervisors r !! key) in
  r {{ supervisors ::= <[key := mkSupervisor p (children s) (attempts s)]> }}.

(** The parent of the record, when it was marked. *)
Definition complete_locked (key : ActorKey) (resources : option (option string * option string)) (now : Z)
    (r : MailboxRegistry) : option (option ActorId) * MailboxRegistry :=
  match actors r !! key with
  | None => (None, r)
  | Some rec =>
      if rec_cancelled rec || bool_decide (is_Some (rec_failure_reason rec)) then (None, r)
      else
        let rec := rec {{ rec_status := Terminated; rec_completed_at := Some now }} in
        let rec := match resources with
                   | Some (artifact, history) => rec {{ rec_artifact_uri := artifact; rec_history_uri := history }}
                   | None => rec
                   end in
        (Some (rec_parent rec), r {{ actors ::= <[key := rec]> }})
  end.

Definition is_cancelled_reason (reason : FailureReason) : bool :=
  match reason with ReasonCancelled => true | _ => false end.

Definition fail_locked (key : ActorKey) (reason : FailureReason) (now : Z) (r : MailboxRegistry)
    : option (option ActorId * bool) * MailboxRegistry :=
  match actors r !! key with
  | None => (None, r)
  | Some rec =>
      if rec_cancelled rec then (None, r)
      else
        let rec := rec {{ rec_status := Terminated; rec_completed_at := Some now;
                          rec_cancelled := is_cancelled_reason reason; rec_failure_reason := Some reason }} in
        (Some (rec_parent rec, rec_cancelled rec), r {{ actors ::= <[key := rec]> }})
  end.

(** [record_failure] indexes the children at the position it found: it does not panic. *)
Definition decide_failure (id : ActorId) (reason : FailureReason) (s : Supervisor) : SupervisionDecision * Supervisor :=
  default (mkDecision id reason (strategy (policy s)) None [], s) (record_failure id reason s).

(** ** Cancellation ([mailbox/cancellation.rs]) *)

Definition cancel_locked (key : ActorKey) (now : Z) (r : MailboxRegistry) : CancelActorResult * MailboxRegistry :=
  match actors r !! key with
  | None => (CancelNotFound, r)
  | Some rec =>
      if rec_cancelled rec then (AlreadyCancelled, r)
      else if bool_decide (rec_status rec = Terminated) then (AlreadyTerminated, r)
      else (CancelDone, r {{ actors ::= <[key := rec {{ rec_status := Terminated; rec_completed_at := Some now;
                               rec_cancelled := true; rec_failure_reason := Some ReasonCancelled }}]> }})
  end.

Definition trip_token (token : nat) (r : MailboxRegistry) : MailboxRegistry :=
  r {{ token_flags ::= <[token := true]> }}.

Definition token_tripped (r : MailboxRegistry) (token : nat) : bool := default false (token_flags r !! token).

Definition is_cancelled_locked (key : ActorKey) (r : MailboxRegistry) : bool :=
  match cancel_tokens r !! key with Some token => token_tripped r token | None => false end.

(** The loop along the parents; [seen] has the actors visited, and a round more than
    there are actors is never needed. *)
Fixpoint ancestor_loop (fuel : nat) (r : MailboxRegistry) (session : string) (ancestor current : ActorId)
    (seen : list ActorId) : bool :=
  match fuel with
  | O => false
  | S fuel =>
      if bool_decide (current ∈ seen) then false
      else
        match actors r !! (session, current) with
        | None => false
        | Some record =>
            match rec_parent record with
            | None => false
            | Some parent =>
                if String.eqb parent ancestor then true
                else ancestor_loop fuel r session ancestor parent (current :: seen)
            end
        end
  end.

Definition is_descendant_of (session : string) (actor ancestor : ActorId) (r : MailboxRegistry) : bool :=
  ancestor_loop (S (S (size (actors r)))) r session ancestor actor [].

(** The order of siblings: by the time they were spawned, then by name. *)
Definition child_le (a b : Z * ActorId) : Prop :=
  (a.1 < b.1)%Z \/ a.1 = b.1 /\ String.compare a.2 b.2 ≠ Gt.

#[global] Instance child_le_dec : RelDecision child_le.
Proof. unfold RelDecision, child_le. solve_decision. Defined.

Definition sorted_children (session : string) (parent : ActorId) (r : MailboxRegistry) : list ActorId :=
  (merge_sort child_le ((fun record => (rec_spawned_at record, rec_id record)) <$>
    filter (fun record => rec_parent record = Some parent) (session_records session r))).*2.

(** [while let Some(current) = pending.pop_front()]. *)
Fixpoint subtree_loop (fuel : nat) (session : string) (r : MailboxRegistry) (pending ordered : list ActorId)
    : list ActorId :=
  match fuel, pending with
  | O, _ | _, [] => ordered
  | S fuel, current :: pending =>
      if bool_decide (current ∈ ordered) then subtree_loop fuel session r pending ordered
      else subtree_loop fuel session r (pending ++ sorted_children session current r) (ordered ++ [current])
  end.

(** Every actor is queued once as the root or as a child of its parent. *)
Definition actor_subtree_ids_locked (session : string) (root : ActorId) (r : MailboxRegistry) : list ActorId :=
  match actors r !! (session, root) with
  | None => [root]
  | Some _ => subtree_loop (S (size (actors r))) session r [root] []
  end.

(** ** Restarts ([mailbox/restart.rs]) *)

Definition reset_record (id : ActorId) (t : ActorRestartTemplate) (spawned_at : Z) (r : MailboxRegistry)
    (key : ActorKey) : MailboxRegistry :=
  let fresh := mkRecord id (tpl_parent t) Running (Some (tpl_role t)) (tpl_budget t) spawned_at None false None None None in
  let rec := default fresh (actors r !! key) in
  r {{ actors ::= <[key := rec {{ rec_parent := tpl_parent t; rec_status := Running;
          rec_mode := Some (tpl_role t); rec_budget := tpl_budget t; rec_spawned_at := spawned_at;
          rec_completed_at := None; rec_cancelled := false; rec_failure_reason := None;
          rec_artifact_uri := None; rec_history_uri := None }}]> }}.

(** ** Critical sections *)

Inductive Section_ :=
| TrackBatch (session : string) (records : list (ActorRecord * ActorId))
| GetActor (key : ActorKey)
| UpdateStatus (key : ActorKey) (status : ActorStatus)
| ListActors (session : string)
| LiveChildren (session : string) (parent : ActorId)
| SupervisorOf (key : ActorKey)
| SetPolicy (key : ActorKey) (p : SupervisionPolicy)
| CompleteRecord (key : ActorKey) (resources : option (option string * option string)) (now : Z)
| FailRecord (key : ActorKey) (reason : FailureReason) (now : Z)
| RecordFailure (supervisor : ActorKey) (id : ActorId) (reason : FailureReason)
| RecordSuccess (supervisor : ActorKey) (id : ActorId)
| EmitLifecycle (session : string) (event : ActorLifecycleEvent)
| CancelRecord (key : ActorKey) (now : Z)
| ReadToken (key : ActorKey)
| EntryToken (key : ActorKey)
| TripToken (token : nat)
| IsCancelled (key : ActorKey)
| IsDescendant (session : string) (actor ancestor : ActorId)
| SubtreeIds (session : string) (root : ActorId)
| PutTemplate (key : ActorKey) (t : ActorRestartTemplate)
| GetTemplate (key : ActorKey)
| ReplaceToken (key : ActorKey)
| PutSupervisor (key : ActorKey) (supervisor : ActorId)
| ReplaceInbox (key : ActorKey)
| ResetRecord (key : ActorKey) (id : ActorId) (t : ActorRestartTemplate) (spawned_at : Z)
| TrackChild (supervisor : ActorKey) (id : ActorId)
| PutTranscript (key : ActorKey) (text : string)
| GetTranscript (key : ActorKey)
| RecordMessage (session : string) (m : ActorMessage)
| Messages (session : string)
| ReadInbox (key : ActorKey)
| EntryInbox (key : ActorKey)
| Reserve (box : nat) (bytes : N)
| Release (box : nat) (bytes : N)
| TrySend (box : nat) (m : ActorMessage)
| MarkDelivered (box : nat)
| Touch (box : nat) (at_ : Z)
| Drain (box : nat) (sender : option ActorId)
| Wait (box : nat) (sender : option ActorId) (ticks : nat)
| Unread (box : nat)
| LastActivity (box : nat)
| NextSeq
| NextSupervisorSeq.

Definition section_answer (s : Section_) : Type :=
  match s with
  | TrackBatch _ _ => RegistryError + unit
  | GetActor _ => option ActorRecord
  | ListActors _ | LiveChildren _ _ => list ActorRecord
  | SupervisorOf _ => option ActorId
  | CompleteRecord _ _ _ => option (option ActorId)
  | FailRecord _ _ _ => option (option ActorId * bool)
  | RecordFailure _ _ _ => SupervisionDecision
  | CancelRecord _ _ => CancelActorResult
  | ReadToken _ | ReadInbox _ => option nat
  | EntryToken _ | EntryInbox _ | ReplaceToken _ => nat
  | IsCancelled _ | IsDescendant _ _ _ | Reserve _ _ | TrySend _ _ => bool
  | SubtreeIds _ _ => list ActorId
  | GetTemplate _ => option ActorRestartTemplate
  | GetTranscript _ => option string
  | RecordMessage _ _ => outcome string unit
  | Messages _ | Drain _ _ => list ActorMessage
  | Wait _ _ _ => option ActorMessage
  | Unread _ | NextSeq | NextSupervisorSeq => N
  | LastActivity _ => option Z
  | _ => unit
  end.

(** [fetch_add(1)] of an [AtomicU64]. *)
Definition bump_sequence (n : N) : N := ((n + 1) mod 2 ^ 64)%N.

Definition run_section (s : Section_) (r : MailboxRegistry) : section_answer s * MailboxRegistry :=
  match s with
  | TrackBatch session records => track_batch_locked session records r
  | GetActor key => (actors r !! key, r)
  | UpdateStatus key status => (tt, update_status_locked key status r)
  | ListActors session => (session_records session r, r)
  | LiveChildren session parent => (live_direct_children session parent r, r)
  | SupervisorOf key => (actor_supervisors r !! key, r)
  | SetPolicy key p => (tt, set_policy_locked key p r)
  | CompleteRecord key resources now => complete_locked key resources now r
  | FailRecord key reason now => fail_locked key reason now r
  | RecordFailure key id reason => on_supervisor key (decide_failure id reason) r
  | RecordSuccess key id => (tt, r {{ supervisors ::= alter (record_success id) key }})
  | EmitLifecycle session event => (tt, r {{ lifecycle_events ::= (fun l => l ++ [(session, event)]) }})
  | CancelRecord key now => cancel_locked key now r
  | ReadToken key => (cancel_tokens r !! key, r)
  | EntryToken key => entry_token key r
  | TripToken token => (tt, trip_token token r)
  | IsCancelled key => (is_cancelled_locked key r, r)
  | IsDescendant session actor ancestor => (is_descendant_of session actor ancestor r, r)
  | SubtreeIds session root => (actor_subtree_ids_locked session root r, r)
  | PutTemplate key t => (tt, r {{ restart_templates ::= <[key := t]> }})
  | GetTemplate key => (restart_templates r !! key, r)
  | ReplaceToken key => let '(token, r) := new_token r in (token, r {{ cancel_tokens ::= <[key := token]> }})
  | PutSupervisor key supervisor => (tt, r {{ actor_supervisors ::= <[key := supervisor]> }})
  | ReplaceInbox key => let '(box, r) := new_box r in (tt, r {{ inboxes ::= <[key := box]> }})
  | ResetRecord key id t spawned_at => (tt, reset_record id t spawned_at r key)
  | TrackChild key id => on_supervisor key (fun s => (tt, track id s)) r
  | PutTranscript key text => (tt, r {{ transcripts ::= <[key := text]> }})
  | GetTranscript key => (transcripts r !! key, r)
  | RecordMessage session m =>
      let '(result, log) := record_message session m (message_log r) in (result, r {{ message_log := log }})
  | Messages session =>
      (logged_message <$> filter (fun e => logged_session_id e = session) (entries (message_log r)), r)
  | ReadInbox key => (inboxes r !! key, r)
  | EntryInbox key => entry_inbox key r
  | Reserve box bytes => on_box box (try_reserve bytes) r
  | Release box bytes => on_box box (fun b => (tt, release bytes b)) r
  | TrySend box m =>
      on_box box (fun b => match try_send m b with Some b => (true, b) | None => (false, b) end) r
  | MarkDelivered box => on_box box (fun b => (tt, mark_delivered_to_inbox b)) r
  | Touch box at_ => on_box box (fun b => (tt, touch at_ b)) r
  | Drain box sender => on_box box (drain sender) r
  | Wait box sender ticks => on_box box (wait ticks sender) r
  | Unread box => (unread (default inbox_new (boxes r !! box)), r)
  | LastActivity box => (last_activity (default inbox_new (boxes r !! box)), r)
  | NextSeq => (next_seq r, r {{ next_seq ::= bump_sequence }})
  | NextSupervisorSeq => (next_supervisor_seq r, r {{ next_supervisor_seq ::= bump_sequence }})
  end.

(** ** Questions *)

(** How an actor run under its deadline ended: the executor returned, in time or only
    after the deadline, or the timer fired first. *)
Inductive RunEnd := RunFinished (result : ActorError + ActorDigest) (late : bool) | RunTimedOut.

(** Besides its sections a call reads the clock, runs an actor, starts a thread that
    runs one, runs several side by side and collects their results, and waits a
    while for a message. *)
Inductive Query :=
| Locked (s : Section_)
| Now
| RunActor (spec : ActorSpec)
| SpawnThread (id : ActorId) (spec : ActorSpec)
| RunWave (specs : list ActorSpec)
| WaitTicks (slice_ms : N).

Definition Answer (q : Query) : Type :=
  match q with
  | Locked s => section_answer s
  | Now => Z
  | RunActor _ => RunEnd
  | SpawnThread _ _ => unit
  | RunWave specs => list (HostError + ActorDigest)
  | WaitTicks _ => nat
  end.

Definition Prog (A : Type) : Type := Io Answer A.

#[global] Instance prog_ret : MRet Prog := fun A a => Ret a.
#[global] Instance prog_bind : MBind Prog := fun A B k m => io_bind k m.

Definition locked (s : Section_) : Prog (section_answer s) := Ask (Locked s) Ret.
Definition now_ : Prog Z := Ask Now Ret.
Definition wait_ticks (slice_ms : N) : Prog nat := Ask (WaitTicks slice_ms) Ret.
Definition run_actor (spec : ActorSpec) : Prog RunEnd := Ask (RunActor spec) Ret.
Definition spawn_thread (id : ActorId) (spec : ActorSpec) : Prog unit := Ask (SpawnThread id spec) Ret.
Definition run_wave (specs : list ActorSpec) : Prog (list (HostError + ActorDigest)) := Ask (RunWave specs) Ret.

Fixpoint for_each_ {X} (body : X -> Prog unit) (xs : list X) : Prog unit :=
  match xs with
  | [] => mret tt
  | x :: xs => body x;; for_each_ body xs
  end.

Fixpoint map_each {X Y} (body : X -> Prog Y) (xs : list X) : Prog (list Y) :=
  match xs with
  | [] => mret []
  | x :: xs => y ← body x; ys ← map_each body xs; mret (y :: ys)
  end.

(** ** Names ([mailbox.rs]) *)

Section Names.
Context `{UnicodeTables} `{ActorText}.

(** [char::to_uppercase]. *)
Definition char_to_uppercase (c : char) : list char :=
  if (c <? 0x80)%N then [if is_ascii_lower c then (c - 32)%N else c] else to_uppercase_table c.

(** The name for a number: letters of the role, the first in upper case, and the number. *)
Definition actor_name (role : string) (seq : N) : ActorId :=
  let seq_str := display_u64 seq in
  let letters := List.filter is_alphabetic (chars role) in
  let first := match letters with c :: _ => char_to_uppercase c | [] => [chr "A"] end in
  let rest := take 15 (drop 1 letters) in
  let max_prefix := (32 - String.length seq_str)%nat in
  let prefix := take max_prefix (chars (of_chars first ++ of_chars rest)) in
  match actor_id_new (of_chars prefix ++ seq_str) with
  | inr id => id
  | inl _ => ("A" ++ seq_str)%string
  end.

Definition next_actor_id (role : string) : Prog ActorId :=
  seq ← locked NextSeq; mret (actor_name role seq).

Definition supervisor_name (label : string) (seq : N) : ActorId :=
  let letters := List.filter is_alphanumeric (chars label) in
  let first := match letters with c :: _ => of_chars (char_to_uppercase c) | [] => "Supervisor"%string end in
  let rest := take 15 (drop 1 letters) in
  match actor_id_new (first ++ of_chars rest ++ display_u64 seq) with
  | inr id => id
  | inl _ => ("Supervisor" ++ display_u64 seq)%string
  end.

Definition next_supervisor_id (label : string) : Prog ActorId :=
  seq ← locked NextSupervisorSeq; mret (supervisor_name label seq).
End Names.

(** ** Methods of the roster *)

Definition emit_lifecycle (session : string) (event : ActorLifecycleEvent) : Prog unit :=
  locked (EmitLifecycle session event).

(** The first mode that is too long. *)
Fixpoint check_modes (records : list (ActorRecord * ActorId)) : string + unit :=
  match records with
  | [] => inr tt
  | (record, _) :: rest =>
      and_check match rec_mode record with
                | Some mode => validate_text_bytes "mode" mode MAX_ACTOR_ROLE_BYTES
                | None => inr tt
                end (check_modes rest)
  end.

Definition track_batch_for_session (session : string) (records : list (ActorRecord * ActorId))
    : Prog (RegistryError + unit) :=
  match check_modes records with
  | inl e => mret (inl (InvalidText e))
  | inr _ => locked (TrackBatch session records)
  end.

Definition track_with_supervisor_for_session (session : string) (record : ActorRecord) (supervisor_id : ActorId)
    : Prog (RegistryError + unit) :=
  track_batch_for_session session [(record, supervisor_id)].

Definition track_for_session (session : string) (record : ActorRecord) : Prog (RegistryError + unit) :=
  track_with_supervisor_for_session session record (default root_supervisor_actor_id (rec_parent record)).

Definition get_for_session (session : string) (id : ActorId) : Prog (option ActorRecord) :=
  locked (GetActor (session, id)).
Definition update_status_for_session (session : string) (id : ActorId) (status : ActorStatus) : Prog unit :=
  locked (UpdateStatus (session, id) status).
Definition list_for_session (session : string) : Prog (list ActorRecord) := locked (ListActors session).
Definition live_direct_children_for_session (session : string) (parent : ActorId) : Prog (list ActorRecord) :=
  locked (LiveChildren session parent).

Definition supervisor_id_for_actor (session : string) (id : ActorId) (fallback_parent : option ActorId)
    : Prog ActorId :=
  found ← locked (SupervisorOf (session, id));
  mret match found with
       | Some supervisor => supervisor
       | None => default root_supervisor_actor_id fallback_parent
       end.

(** ** Methods of cancellation *)

Definition ensure_cancel_token (session : string) (id : ActorId) : Prog nat :=
  found ← locked (ReadToken (session, id));
  match found with
  | Some token => mret token
  | None => locked (EntryToken (session, id))
  end.

Definition cancel_token_for_session : string -> ActorId -> Prog nat := ensure_cancel_token.

Definition is_cancelled_for_session (session : string) (id : ActorId) : Prog bool :=
  locked (IsCancelled (session, id)).

Definition cancel_actor (session : string) (id : ActorId) : Prog CancelActorResult :=
  cancelled_at ← now_;
  result ← locked (CancelRecord (session, id) cancelled_at);
  match result with
  | CancelDone | AlreadyCancelled => token ← cancel_token_for_session session id; locked (TripToken token)
  | _ => mret tt
  end;;
  match result with
  | CancelDone =>
      emit_lifecycle session (EvStatusChanged id Terminated cancelled_at);;
      emit_lifecycle session (EvCancelled id cancelled_at)
  | _ => mret tt
  end;;
  mret result.

Definition cancel_actor_subtree (session : string) (root : ActorId) : Prog (list (ActorId * CancelActorResult)) :=
  ids ← locked (SubtreeIds session root);
  map_each (fun id => result ← cancel_actor session id; mret (id, result)) ids.

Definition is_descendant_of_for_session (session : string) (actor ancestor : ActorId) : Prog bool :=
  locked (IsDescendant session actor ancestor).

Definition would_wait_on_descendant_for_session (session : string) (waiter target : ActorId) : Prog bool :=
  if String.eqb waiter "Root" then mret false
  else if String.eqb waiter target then mret true
  else is_descendant_of_for_session session target waiter.

(** ** Methods of the life cycle *)

Definition set_supervision_policy_for_session (session : string) (supervisor : ActorId) (p : SupervisionPolicy)
    : Prog unit := locked (SetPolicy (session, supervisor) p).

Definition mark_complete_record (session : string) (id : ActorId)
    (resources : option (option string * option string)) : Prog (option ActorId) :=
  now ← now_;
  marked ← locked (CompleteRecord (session, id) resources now);
  match marked with
  | None => mret None
  | Some fallback => supervisor ← supervisor_id_for_actor session id fallback; mret (Some supervisor)
  end.

Definition record_supervised_success (session : string) (supervisor id : ActorId) : Prog unit :=
  locked (RecordSuccess (session, supervisor) id).

Definition mark_complete_with (session : string) (id : ActorId)
    (resources : option (option string * option string)) : Prog bool :=
  marked ← mark_complete_record session id resources;
  match marked with
  | None => mret false
  | Some supervisor => record_supervised_success session supervisor id;; mret true
  end.

Definition mark_complete_for_session (session : string) (id : ActorId) : Prog bool :=
  mark_complete_with session id None.

Definition mark_complete_with_resources_for_session (session : string) (id : ActorId)
    (artifact_uri history_uri : option string) : Prog bool :=
  mark_complete_with session id (Some (artifact_uri, history_uri)).

Definition mark_failed_record (session : string) (id : ActorId) (reason : FailureReason) : Prog (option ActorId) :=
  now ← now_;
  marked ← locked (FailRecord (session, id) reason now);
  match marked : option (option ActorId * bool) with
  | None => mret None
  | Some (fallback, should_cancel_token) =>
      (if should_cancel_token then token ← cancel_token_for_session session id; locked (TripToken token)
       else mret tt);;
      supervisor ← supervisor_id_for_actor session id fallback;
      mret (Some supervisor)
  end.

Definition mark_failed_for_session (session : string) (id : ActorId) (reason : FailureReason) : Prog bool :=
  marked ← mark_failed_record session id reason; mret (bool_decide (is_Some marked)).

Definition mark_failed_with_supervision_for_session (session : string) (id : ActorId) (reason : FailureReason)
    : Prog (option (ActorId * SupervisionDecision)) :=
  marked ← mark_failed_record session id reason;
  match marked with
  | None => mret None
  | Some supervisor =>
      decision ← locked (RecordFailure (session, supervisor) id reason);
      mret (Some (supervisor, decision))
  end.

Definition apply_supervision_actions (session : string) (decision : SupervisionDecision) : Prog unit :=
  for_each_ (fun action =>
    match action with
    | Cancel id => cancel_actor_subtree session id;; mret tt
    | _ => mret tt
    end) (actions decision).

Definition emit_and_apply_supervision_decision (session : string) (supervisor : ActorId)
    (decision : SupervisionDecision) : Prog unit :=
  match actions decision with
  | [] => mret tt
  | _ =>
      decided_at ← now_;
      emit_lifecycle session (EvSupervision supervisor (failed_actor_id decision) decision decided_at);;
      apply_supervision_actions session decision
  end.

Definition record_actor_error (session : string) (id : ActorId) (reason : FailureReason)
    : Prog (option SupervisionDecision) :=
  marked ← mark_failed_with_supervision_for_session session id reason;
  match marked with
  | None => mret None
  | Some (supervisor, decision) =>
      at_ ← now_;
      emit_lifecycle session (EvStatusChanged id Terminated at_);;
      ended_at ← now_;
      emit_lifecycle session
        match reason with
        | ReasonCancelled => EvCancelled id ended_at
        | reason => EvFailed id ended_at reason
        end;;
      emit_and_apply_supervision_decision session supervisor decision;;
      mret (Some decision)
  end.

(** ** Methods of restarts *)

Definition remember_restart_spec (spec : ActorSpec) : Prog unit :=
  supervisor ← supervisor_id_for_actor (spec_session_id spec) (spec_id spec) (spec_parent spec);
  locked (PutTemplate (spec_session_id spec, spec_id spec) (template_from_spec spec supervisor)).

Definition prepare_actor_restart_for_session (session : string) (id : ActorId) : Prog (option ActorSpec) :=
  let key := (session, id) in
  found ← locked (GetTemplate key);
  match found with
  | None => mret None
  | Some t =>
      cancellation ← locked (ReplaceToken key);
      locked (PutSupervisor key (tpl_supervisor_id t));;
      locked (ReplaceInbox key);;
      spawned_at ← now_;
      locked (ResetRecord key id t spawned_at);;
      locked (TrackChild (session, tpl_supervisor_id t) id);;
      emit_lifecycle (tpl_session_id t) (EvStatusChanged id Running spawned_at);;
      emit_lifecycle (tpl_session_id t)
        (EvSpawned id (tpl_parent t) (tpl_role t) (tpl_task t) (tpl_depth t) (tpl_budget t) spawned_at);;
      mret (Some (template_to_spec t cancellation))
  end.

(** ** Methods of messages *)

Definition store_transcript_for_session `{RegexEngine} (session : string) (id : ActorId) (content : string)
    : Prog unit := locked (PutTranscript (session, id) (report_text (redact_dream_text content))).

Definition get_transcript_for_session (session : string) (id : ActorId) : Prog (option string) :=
  locked (GetTranscript (session, id)).

Definition is_reachable (session : string) (id : ActorId) : Prog bool :=
  if String.eqb id "Root" then mret true
  else
    found ← get_for_session session id;
    mret match found with Some record => is_live_status (rec_status record) | None => false end.

Definition ensure_inbox (session : string) (id : ActorId) : Prog nat :=
  found ← locked (ReadInbox (session, id));
  match found with
  | Some box => mret box
  | None => locked (EntryInbox (session, id))
  end.

Definition send_message_for_session (session : string) (m : ActorMessage) : Prog (RegistryError + Receipt) :=
  match validate_text_bytes "message text" (text m) MAX_ACTOR_MESSAGE_BYTES with
  | inl e => mret (inl (InvalidText e))
  | inr _ =>
      reachable ← is_reachable session (to m);
      if negb reachable then mret (inr Unreachable)
      else
        box ← ensure_inbox session (to m);
        reserved ← locked (Reserve box (message_bytes m));
        if negb reserved then mret (inr Backpressured)
        else
          sent ← locked (TrySend box m);
          if (sent : bool) then
            locked (MarkDelivered box);;
            locked (Touch box (sent_at m));;
            locked (RecordMessage session m);;
            mret (inr Delivered)
          else
            locked (Release box (message_bytes m));;
            mret (inr Backpressured)
  end.

Definition drain_inbox_for_session (session : string) (id : ActorId) (sender : option ActorId)
    : Prog (list ActorMessage) :=
  box ← ensure_inbox session id; locked (Drain box sender).

Definition wait_for_message_for_session (session : string) (id : ActorId) (sender : option ActorId) (timeout_ms : N)
    : Prog (option ActorMessage) :=
  box ← ensure_inbox session id;
  ticks ← wait_ticks timeout_ms;
  locked (Wait box sender ticks).

Definition unread_count_for_session (session : string) (id : ActorId) : Prog N :=
  found ← locked (ReadInbox (session, id));
  match found with Some box => locked (Unread box) | None => mret 0%N end.

Definition last_activity_for_session (session : string) (id : ActorId) : Prog (option Z) :=
  found ← locked (ReadInbox (session, id));
  match found with Some box => locked (LastActivity box) | None => mret None end.

Definition messages_for_session (session : string) : Prog (list ActorMessage) := locked (Messages session).
