(* ===== verification/Agents.v ===== *)
(** * The functions [agents.*] ([tm-agents]: executor.rs, orchestrate/, resources.rs)

    The host functions with which a cell starts actors, lets them exchange messages
    and cancels them, as programs over the sections of the registry; a failure that
    the code unwraps is a panic.  The documentation texts of the functions and the log
    lines are not modelled. *)

From stdpp Require Import base tactics list gmap strings sorting.
From Stdlib Require Import NArith ZArith Lia Ascii.
From S2P Require Import Prelude BTree Text Strings Value Render ServerBase Catalog Host Supervise Inbox Redaction Io Actors.

(** [serde_json]: [Number::as_u64]. *)
Class JsonUnsigned `{JsonNumber} := number_as_u64 : num -> option N.

(** The result of a host function, and what [?] does with it. *)
Abbreviation HostOutcome := (outcome HostError).

Definition try_bind {A B} (m : Prog (HostOutcome A)) (k : A -> Prog (HostOutcome B)) : Prog (HostOutcome B) :=
  r ← m;
  match r with
  | Ok a => k a
  | Err e => mret (Err e)
  | Panicked => mret Panicked
  | OutOfFuel => mret OutOfFuel
  end.

Declare Scope agents_scope.
Notation "'let?' x := m 'in' k" := (try_bind m (fun x => k))
  (at level 10, x pattern, m at level 100, k at level 200) : agents_scope.
Notation "'have?' x := r 'in' k" := (try_bind (mret r) (fun x => k))
  (at level 10, x pattern, r at level 100, k at level 200) : agents_scope.
Open Scope agents_scope.

(** ** Limits *)

Definition MAX_ACTORS_PER_CALL : N := 8.
Definition MAX_CONCURRENT_ACTORS : nat := 4.
Definition MAX_PIPELINE_STAGES : N := 4.
Definition MAX_ACTOR_BATCH_TEXT_BYTES : N := 32 * 1024.
Definition MAX_PIPELINE_INPUT_BYTES : N := 32 * 1024.
Definition MAX_CHILD_CAPABILITIES : N := 32.
Definition MAX_CHILD_CAPABILITY_BYTES : N := 128.
Definition MAX_CHILD_CAPABILITY_TOTAL_BYTES : N := 2 * 1024.

Section Agents.
Context `{UnicodeTables} `{ActorText} `{JsonNumber} `{!JsonUnsigned} `{!TextJson} `{!JsonText} `{RegexEngine}.
Variable executor_set : bool.

(** ** JSON *)

Definition json_index (key : string) (value : Json) : Json := default JNull (json_get key value).
Definition json_as_array (value : Json) : option (list Json) :=
  match value with JArray items => Some items | _ => None end.
Definition json_as_object (value : Json) : option (list (string * Json)) :=
  match value with JObject fields => Some fields | _ => None end.
Definition json_as_bool (value : Json) : option bool := match value with JBool b => Some b | _ => None end.
Definition json_as_u64 (value : Json) : option N := match value with JNumber n => number_as_u64 n | _ => None end.
Definition not_null (value : option Json) : option Json :=
  value ≫= fun v => match v with JNull => None | v => Some v end.

Definition invalid_args {A} (message : string) : HostOutcome A := Err (InvalidArgs message).
Definition ok_or {A} (o : option A) (e : HostError) : HostOutcome A :=
  match o with Some a => Ok a | None => Err e end.

Fixpoint collect_indexed {X Y} (f : nat -> X -> HostOutcome Y) (index : nat) (xs : list X) : HostOutcome (list Y) :=
  match xs with
  | [] => Ok []
  | x :: xs => y ← f index x; ys ← collect_indexed f (S index) xs; Ok (y :: ys)
  end.

(** ** Arguments *)

Definition check_grant (ctx : InvocationCtx) (cap : string) : HostOutcome unit :=
  if host_permits (ctx_grants ctx) cap then Ok tt else Err (CapabilityDenied cap).

Definition root_actor_id : ActorId := "Root".

Definition parse_id (field id : string) : HostOutcome ActorId :=
  match actor_id_new id with
  | inr id => Ok id
  | inl e => invalid_args (field ++ " invalid: " ++ display_actor_id_error e)
  end.

Definition caller_actor_id (ctx : InvocationCtx) : HostOutcome ActorId :=
  match actor_id ctx with Some id => parse_id "actor_id" id | None => Ok root_actor_id end.

Definition caller_parent_id (ctx : InvocationCtx) : HostOutcome (option ActorId) :=
  match actor_id ctx with Some id => id ← parse_id "actor_id" id; Ok (Some id) | None => Ok None end.

Definition parse_actor_ref (value : Json) (field : string) : HostOutcome ActorId :=
  let id := match json_as_str value with Some id => Some id | None => json_get_str "id" value end in
  id ← ok_or id (InvalidArgs (field ++ " must be an actor id string or handle"));
  parse_id field id.

Definition agents_validate_bounded_text (text field : string) (max_bytes : N) : HostOutcome unit :=
  match validate_text_bytes field text max_bytes with inl e => invalid_args e | inr _ => Ok tt end.

Definition validate_plain_prose_text (text field : string) : HostOutcome unit :=
  let trimmed := trim text in
  if is_empty trimmed then invalid_args (field ++ " must be non-empty plain prose")
  else
    match json_of_text trimmed with
    | Some (JObject _) | Some (JArray _) =>
        invalid_args (field ++ " must be plain prose, not a JSON control payload")
    | _ => Ok tt
    end.

Definition parse_plain_prose_text (args : Json) (field : string) : HostOutcome string :=
  text ← ok_or (json_get_str field args) (InvalidArgs (field ++ " must be a string"));
  validate_plain_prose_text text field ;;
  agents_validate_bounded_text text field MAX_ACTOR_MESSAGE_BYTES ;;
  Ok text.

(** [parse_actor_role] and [parse_actor_task]. *)
Definition parse_actor_text (max_bytes : N) (value : Json) (field : string) : HostOutcome string :=
  text ← ok_or (json_as_str value) (InvalidArgs (field ++ " must be a string"));
  if is_empty (trim text) then invalid_args (field ++ " must not be empty")
  else agents_validate_bounded_text text field max_bytes ;; Ok text.

Definition parse_actor_role : Json -> string -> HostOutcome string := parse_actor_text MAX_ACTOR_ROLE_BYTES.
Definition parse_actor_task : Json -> string -> HostOutcome string := parse_actor_text MAX_ACTOR_TASK_BYTES.

(** [try_fold] with [checked_add]. *)
Fixpoint sum_bytes (field : string) (values : list string) (total : N) : HostOutcome N :=
  match values with
  | [] => Ok total
  | value :: values =>
      total ← ok_or (checked_add_u64 total (str_len value)) (InvalidArgs (field ++ " is too large"));
      sum_bytes field values total
  end.

Definition validate_aggregate_text_bytes (values : list string) (field : string) : HostOutcome unit :=
  total ← sum_bytes field values 0;
  if (MAX_ACTOR_BATCH_TEXT_BYTES <? total)%N
  then invalid_args (field ++ " must total at most " ++ display_u64 MAX_ACTOR_BATCH_TEXT_BYTES
                     ++ " UTF-8 bytes, got " ++ display_u64 total)
  else Ok tt.

Definition registry_error (e : RegistryError) : HostError := InvalidArgs (display_registry_error e).

Definition parse_timeout_ms (args : Json) (default_ms : N) : HostOutcome N :=
  let value := match json_get "timeoutMs" args with
               | Some v => Some v
               | None => json_get "opts" args ≫= json_get "timeoutMs"
               end in
  match value with
  | Some v => ok_or (json_as_u64 v) (InvalidArgs "timeoutMs must be a non-negative integer")
  | None => Ok default_ms
  end.

(** ** Supervision options *)

Definition parse_restart_strategy (value : string) : HostOutcome RestartStrategy :=
  if String.eqb value "one_for_one" then Ok OneForOne
  else if String.eqb value "one_for_all" then Ok OneForAll
  else if String.eqb value "rest_for_one" then Ok RestForOne
  else invalid_args ("unknown supervision strategy: " ++ value).

Definition parse_u32_value (value : Json) : HostOutcome N :=
  raw ← ok_or (json_as_u64 value) (InvalidArgs "maxRestarts must be a non-negative integer");
  if (raw <? 2 ^ 32)%N then Ok raw else invalid_args "maxRestarts is too large".

Definition hex_digit (n : N) : ascii := ascii_of_N (if (n <? 10)%N then 48 + n else 87 + n)%N.

(** [{:016x}] of an [u64]. *)
Fixpoint hex_digits (count : nat) (n : N) (tail : string) : string :=
  match count with
  | O => tail
  | S count => hex_digits count (n / 16) (String (hex_digit (n mod 16)) tail)
  end.

Definition spawn_group_supervisor_id (parent : option ActorId) (group : string) : HostOutcome ActorId :=
  if is_empty (trim group) then invalid_args "opts.supervision.group must not be empty"
  else
    match actor_id_new ("Supervisor" ++ hex_digits 16 (group_hash parent group) "") with
    | inr id => Ok id
    | inl e => invalid_args ("invalid supervision group: " ++ display_actor_id_error e)
    end.

Definition parse_supervision (parent : option ActorId) (supervision : Json)
    : HostOutcome (ActorId * SupervisionPolicy) :=
  object ← ok_or (json_as_object supervision) (InvalidArgs "opts.supervision must be an object");
  let group : option string := bm_get "group" object ≫= json_as_str in
  strategy ← match bm_get "strategy" object ≫= json_as_str with
             | Some value => parse_restart_strategy value
             | None => Ok (if group is Some _ then OneForAll else OneForOne)
             end;
  max_restarts ← match bm_get "maxRestarts" object with
                 | Some value => parse_u32_value value
                 | None => Ok (if group is Some _ then 0%N else 3%N)
                 end;
  supervisor ← match group with
               | Some group => spawn_group_supervisor_id parent group
               | None => Ok (default root_actor_id parent)
               end;
  Ok (supervisor, mkPolicy strategy max_restarts).

Definition configure_supervision_from_opts (session : string) (parent : option ActorId) (opts : option Json)
    : Prog (HostOutcome (option ActorId)) :=
  match opts ≫= json_get "supervision" with
  | None => mret (Ok None)
  | Some supervision =>
      have? (supervisor, p) := parse_supervision parent supervision in
      set_supervision_policy_for_session session supervisor p;;
      mret (Ok (Some supervisor))
  end.

(** ** Delegated capabilities *)

Definition validate_child_capability_name (capability : string) (index : nat) : HostOutcome unit :=
  let valid_chars := all_bytes (fun b => alphanumeric b || one_of ".:_-*" b) capability in
  let wildcard_count := length (List.filter (Ascii.eqb "*") (String.list_ascii_of_string capability)) in
  let valid_wildcard :=
    (wildcard_count =? 0)%nat
    || ((wildcard_count =? 1)%nat && bool_decide (is_Some (strip_suffix ".*" capability)) && (2 <? str_len capability)%N) in
  let first_ok := match capability with String b _ => alphanumeric b | EmptyString => false end in
  if is_empty capability || (MAX_CHILD_CAPABILITY_BYTES <? str_len capability)%N || negb first_ok || negb valid_chars
     || negb valid_wildcard
  then invalid_args ("opts.capabilities[" ++ display_u64 (N.of_nat index) ++ "] must be a safe capability name of at most "
                     ++ display_u64 MAX_CHILD_CAPABILITY_BYTES ++ " ASCII bytes")
  else Ok tt.

Definition is_child_delegable (capability : string) : bool :=
  negb (starts_with "modes." capability) && negb (starts_with "backend." capability).

(** The loop over the requested names; [total] bytes so far. *)
Fixpoint delegate (ctx : InvocationCtx) (index : nat) (capabilities : list Json) (total : N) (requested : list string)
    : HostOutcome (list string) :=
  match capabilities with
  | [] => Ok requested
  | capability :: rest =>
      name ← ok_or (json_as_str capability)
               (InvalidArgs ("opts.capabilities[" ++ display_u64 (N.of_nat index) ++ "] must be a string"));
      validate_child_capability_name name index ;;
      total ← ok_or (checked_add_u64 total (str_len name)) (InvalidArgs "opts.capabilities is too large");
      if (MAX_CHILD_CAPABILITY_TOTAL_BYTES <? total)%N
      then invalid_args ("opts.capabilities must total at most " ++ display_u64 MAX_CHILD_CAPABILITY_TOTAL_BYTES
                         ++ " UTF-8 bytes")
      else if negb (is_child_delegable name)
      then Err (CapabilityDenied ("child capability " ++ name ++ " is not delegable"))
      else if negb (host_permits (ctx_grants ctx) name)
      then Err (CapabilityDenied ("child capability " ++ name ++ " is not held by the parent"))
      else delegate ctx (S index) rest total (bs_insert name requested)
  end.

Definition child_agent_grants (ctx : InvocationCtx) (opts : option Json) : HostOutcome CapabilityGrants :=
  match opts with
  | None => Ok grants_default
  | Some opts =>
      opts ← ok_or (json_as_object opts) (InvalidArgs "opts must be an object");
      match bm_get "capabilities" opts with
      | None => Ok grants_default
      | Some capabilities =>
          capabilities ← ok_or (json_as_array capabilities) (InvalidArgs "opts.capabilities must be an array");
          if (MAX_CHILD_CAPABILITIES <? len capabilities)%N
          then invalid_args ("opts.capabilities must contain at most " ++ display_u64 MAX_CHILD_CAPABILITIES ++ " entries")
          else
            requested ← delegate ctx 0 capabilities 0 [];
            Ok (allow_many requested grants_default)
      end
  end.

(** ** Running actors *)

Definition run_to_digest_with_budget (spec : ActorSpec) : Prog (ActorError + ActorDigest) :=
  match validate_text_limits spec with
  | inl e => mret (inl (InvalidSpec e))
  | inr _ =>
      ended ← run_actor spec;
      match ended with
      | RunFinished (inr digest) false => mret (inr (enforce_text_limits digest))
      | RunFinished (inl e) _ => mret (inl e)
      | RunFinished (inr _) true | RunTimedOut =>
          locked (TripToken (spec_cancellation spec));; mret (inl ActorTimeout)
      end
  end.

Definition redact_text (text : string) : string := report_text (redact_dream_text text).

Definition redact_actor_diagnostic (e : ActorError) : string := redact_text (display_actor_error e).

Definition mark_actor_completed (session : string) (id : ActorId) (digest : ActorDigest) : Prog bool :=
  let digest := enforce_text_limits digest in
  let summary := redact_text (digest_summary digest) in
  let history_content := redact_text <$> digest_history_content digest in
  match history_content with
  | Some content => store_transcript_for_session session id content
  | None => mret tt
  end;;
  completed ← mark_complete_with_resources_for_session session id (digest_artifact_uri digest)
                (digest_history_uri digest);
  if (completed : bool) then
    at_ ← now_;
    emit_lifecycle session (EvStatusChanged id Terminated at_);;
    completed_at ← now_;
    emit_lifecycle session
      (EvCompleted id completed_at (Some summary) (digest_artifact_uri digest) (digest_history_uri digest));;
    mret true
  else mret false.

Definition spawn_restarted_actor (session : string) (id : ActorId) : Prog unit :=
  if negb executor_set then mret tt
  else
    found ← prepare_actor_restart_for_session session id;
    match found with
    | None => mret tt
    | Some spec => spawn_thread id spec
    end.

Definition spawn_restart_actions (session : string) (decision : SupervisionDecision) : Prog unit :=
  for_each_ (fun action =>
    match action with RestartActor id => spawn_restarted_actor session id | _ => mret tt end) (actions decision).

Definition mark_actor_error (session : string) (id : ActorId) (reason : FailureReason) : Prog unit :=
  decision ← record_actor_error session id reason;
  match decision with
  | None => mret tt
  | Some decision => spawn_restart_actions session decision
  end.

(** Runs the actor and reports how it ended to the registry. *)
Definition run_and_report (session : string) (id : ActorId) (spec : ActorSpec) : Prog (ActorError + ActorDigest) :=
  result ← run_to_digest_with_budget spec;
  match result with
  | inr digest => mark_actor_completed session id digest;; mret tt
  | inl e => mark_actor_error session id (failure_reason_for_error e)
  end;;
  mret result.

(** What a thread started by [agents.spawn] or by a restart does. *)
Definition worker (id : ActorId) (spec : ActorSpec) : Prog unit :=
  run_and_report (spec_session_id spec) id spec;; mret tt.

(** A child of [agents.parallel] or of a wave of [agents.pipeline]. *)
Definition wave_child (spec : ActorSpec) : Prog (HostError + ActorDigest) :=
  result ← run_and_report (spec_session_id spec) (spec_id spec) spec;
  mret match result with
       | inr digest => inr digest
       | inl e => inl (HostCall ("actor " ++ spec_id spec ++ " failed: " ++ redact_actor_diagnostic e))
       end.

Definition digest_json (id : ActorId) (digest : ActorDigest) : Json :=
  Host.json_object
    [("actorId", JString id); ("summary", JString (digest_summary digest));
     ("artifactUri", json_option (digest_artifact_uri digest));
     ("historyUri", json_option (digest_history_uri digest))]%string.

(** ** [agents.run] and [agents.spawn] *)

Definition new_record (id : ActorId) (parent : option ActorId) (role : string) (budget : ActorBudget) (spawned_at : Z)
    : ActorRecord :=
  mkRecord id parent Running (Some role) budget spawned_at None false None None None.

Definition registered (r : RegistryError + unit) : HostOutcome unit :=
  match r with inr _ => Ok tt | inl e => Err (registry_error e) end.

(** Announces an actor that was tracked, and remembers how to restart it. *)
Definition launch (ctx : InvocationCtx) (parent : option ActorId) (grants : CapabilityGrants) (id : ActorId)
    (role task : string) (budget : ActorBudget) (spawned_at : Z) : Prog ActorSpec :=
  let session := session_id ctx in
  emit_lifecycle session (EvSpawned id parent role task 0 budget spawned_at);;
  cancellation ← cancel_token_for_session session id;
  let spec := mkSpec id session (project_id ctx) role task None grants budget parent 0 cancellation in
  remember_restart_spec spec;;
  mret spec.

Definition need_executor (name : string) : HostOutcome unit :=
  if executor_set then Ok tt else Err (NotImplemented (name ++ " — executor not configured")).

Definition agents_run (args : Json) (ctx : InvocationCtx) : Prog (HostOutcome Json) :=
  have? _ := check_grant ctx "agents.run" in
  have? role := parse_actor_role (json_index "role" args) "role" in
  have? task := parse_actor_task (json_index "task" args) "task" in
  have? grants := child_agent_grants ctx (json_get "opts" args) in
  have? _ := need_executor "agents.run" in
  let session := session_id ctx in
  id ← next_actor_id role;
  have? parent := caller_parent_id ctx in
  spawned_at ← now_;
  tracked ← track_for_session session (new_record id parent role actor_budget_default spawned_at);
  have? _ := registered tracked in
  spec ← launch ctx parent grants id role task actor_budget_default spawned_at;
  result ← run_and_report session id spec;
  mret match result with
       | inr digest => Ok (digest_json id digest)
       | inl e => Err (HostCall (redact_actor_diagnostic e))
       end.

Definition agents_spawn (args : Json) (ctx : InvocationCtx) : Prog (HostOutcome Json) :=
  have? _ := check_grant ctx "agents.spawn" in
  have? role := parse_actor_role (json_index "role" args) "role" in
  have? task := parse_actor_task (json_index "task" args) "task" in
  let opts := json_get "opts" args in
  have? grants := child_agent_grants ctx opts in
  have? _ := need_executor "agents.spawn" in
  let session := session_id ctx in
  id ← next_actor_id role;
  have? parent := caller_parent_id ctx in
  let? supervisor := configure_supervision_from_opts session parent opts in
  spawned_at ← now_;
  let record := new_record id parent role actor_budget_default spawned_at in
  tracked ← match supervisor with
            | Some supervisor => track_with_supervisor_for_session session record supervisor
            | None => track_for_session session record
            end;
  have? _ := registered tracked in
  spec ← launch ctx parent grants id role task actor_budget_default spawned_at;
  spawn_thread id spec;;
  mret (Ok (Host.json_object [("id", JString id)]%string)).

(** ** Waves: [agents.parallel] and [agents.pipeline] *)

Record ParsedParallelTask := mkParallelTask { pt_role : string; pt_task : string; pt_budget : ActorBudget }.

Definition parse_parallel_budget (item : Json) (index : nat) : HostOutcome ActorBudget :=
  let at_index := ("tasks[" ++ display_u64 (N.of_nat index) ++ "].")%string in
  let budget_value := json_get "budget" item in
  match budget_value with
  | Some value => ok_or (json_as_object value) (InvalidArgs (at_index ++ "budget must be an object")) ;; Ok tt
  | None => Ok tt
  end ;;
  let wall := match json_get "timeoutMs" item with
              | Some v => Some v
              | None => budget_value ≫= json_get "wallMs"
              end in
  wall_ms ← match wall with
            | Some v => ok_or (json_as_u64 v) (InvalidArgs (at_index ++ "timeoutMs must be a non-negative integer"))
            | None => Ok (wall_ms actor_budget_default)
            end;
  max_depth ← match budget_value ≫= json_get "maxDepth" with
              | Some v =>
                  depth ← ok_or (json_as_u64 v)
                            (InvalidArgs (at_index ++ "budget.maxDepth must be a non-negative integer"));
                  if (depth <? 2 ^ 32)%N then Ok depth else invalid_args (at_index ++ "budget.maxDepth is too large")
              | None => Ok (max_depth actor_budget_default)
              end;
  Ok (mkActorBudget wall_ms max_depth).

Definition parse_parallel_task (index : nat) (item : Json) : HostOutcome ParsedParallelTask :=
  let at_index := ("tasks[" ++ display_u64 (N.of_nat index) ++ "].")%string in
  role ← parse_actor_role (json_index "role" item) (at_index ++ "role");
  task ← parse_actor_task (json_index "task" item) (at_index ++ "task");
  budget ← parse_parallel_budget item index;
  Ok (mkParallelTask role task budget).

(** The digests of a wave in order, or its first failure. *)
Fixpoint wave_digests (specs : list ActorSpec) (results : list (HostError + ActorDigest)) : HostOutcome (list Json) :=
  match specs, results with
  | spec :: specs, inr digest :: results =>
      rest ← wave_digests specs results; Ok (digest_json (spec_id spec) digest :: rest)
  | _, inl e :: _ => Err e
  | _, _ => Ok []
  end.

(** Registers a wave under a supervisor of its own, announces the actors and runs
    them, at most [MAX_CONCURRENT_ACTORS] at a time. *)
Definition run_group (label : string) (ctx : InvocationCtx) (parent : option ActorId) (grants : CapabilityGrants)
    (tasks : list ParsedParallelTask) : Prog (HostOutcome (list Json)) :=
  let session := session_id ctx in
  supervisor ← next_supervisor_id label;
  set_supervision_policy_for_session session supervisor (mkPolicy OneForAll 0);;
  planned ← map_each (fun task => id ← next_actor_id (pt_role task); at_ ← now_; mret (id, task, at_)) tasks;
  tracked ← track_batch_for_session session
    ((fun '(id, task, at_) => (new_record id parent (pt_role task) (pt_budget task) at_, supervisor)) <$> planned);
  have? _ := registered tracked in
  specs ← map_each (fun '(id, task, at_) =>
    launch ctx parent grants id (pt_role task) (pt_task task) (pt_budget task) at_) planned;
  results ← run_wave specs;
  mret (wave_digests specs results).

Definition agents_parallel (args : Json) (ctx : InvocationCtx) : Prog (HostOutcome Json) :=
  have? _ := check_grant ctx "agents.parallel" in
  have? grants := child_agent_grants ctx (json_get "opts" args) in
  have? tasks := ok_or (json_as_array (json_index "tasks" args)) (InvalidArgs "tasks must be an array") in
  match tasks with
  | [] => mret (Ok (JArray []))
  | _ =>
      if (MAX_ACTORS_PER_CALL <? len tasks)%N
      then mret (invalid_args ("tasks must contain at most " ++ display_u64 MAX_ACTORS_PER_CALL ++ " items"))
      else
        have? parsed := collect_indexed parse_parallel_task 0 tasks in
        have? _ := validate_aggregate_text_bytes (parsed ≫= (fun t => [pt_role t; pt_task t])) "tasks role/task text" in
        have? _ := need_executor "agents.parallel" in
        have? parent := caller_parent_id ctx in
        let? digests := run_group "ParallelGroup" ctx parent grants parsed in
        mret (Ok (JArray digests))
  end.

Record PipelineStage := mkStage { stage_role : string; stage_task : option string; stage_tasks : option (list string) }.

Definition parse_stage (index : nat) (stage : Json) : HostOutcome PipelineStage :=
  let at_index := ("stages[" ++ display_u64 (N.of_nat index) ++ "]")%string in
  role ← parse_actor_role (json_index "role" stage) (at_index ++ ".role");
  task ← match not_null (json_get "task" stage) with
         | Some value => task ← parse_actor_task value (at_index ++ ".task"); Ok (Some task)
         | None => Ok None
         end;
  tasks ← match not_null (json_get "tasks" stage) with
          | Some value =>
              items ← ok_or (json_as_array value) (InvalidArgs (at_index ++ ".tasks must be an array"));
              if (MAX_ACTORS_PER_CALL <? len items)%N
              then invalid_args (at_index ++ ".tasks must contain at most " ++ display_u64 MAX_ACTORS_PER_CALL ++ " entries")
              else
                tasks ← collect_indexed (fun i item =>
                  parse_actor_task item (at_index ++ ".tasks[" ++ display_u64 (N.of_nat i) ++ "]")) 0 items;
                Ok (Some tasks)
          | None => Ok None
          end;
  match task, tasks with
  | None, None => invalid_args (at_index ++ " must include task or tasks")
  | _, _ => Ok (mkStage role task tasks)
  end.

Definition stage_texts (stage : PipelineStage) : list string :=
  stage_role stage :: match stage_task stage with Some task => [task] | None => [] end
    ++ default [] (stage_tasks stage).

Definition parse_pipeline_stages (args : Json) : HostOutcome (list PipelineStage) :=
  stages ← ok_or (json_as_array (json_index "stages" args)) (InvalidArgs "stages must be an array");
  match stages with
  | [] => invalid_args "stages must contain at least one stage"
  | _ =>
      if (MAX_PIPELINE_STAGES <? len stages)%N
      then invalid_args ("stages must contain at most " ++ display_u64 MAX_PIPELINE_STAGES ++ " entries")
      else
        parsed ← collect_indexed parse_stage 0 stages;
        validate_aggregate_text_bytes (parsed ≫= stage_texts) "pipeline role/task text" ;;
        Ok parsed
  end.

Definition compact_optional_string (value : option Json) : string :=
  default "null"%string (value ≫= json_as_str).

Definition compact_pipeline_digest_reference (input : Json) (id : string) : string :=
  "digest actorId=" ++ id ++ "; agentUri=agent://" ++ id
  ++ "; historyUri=" ++ compact_optional_string (json_get "historyUri" input)
  ++ "; artifactUri=" ++ compact_optional_string (json_get "artifactUri" input)
  ++ "; summary=" ++ default "" (json_get_str "summary" input).

Definition compact_pipeline_input (input : Json) : string :=
  match json_get_str "actorId" input with
  | Some id => compact_pipeline_digest_reference input id
  | None => match json_as_str input with Some text => text | None => json_text input end
  end.

Definition newline : string := String "010" "".

Definition pipeline_wave_tasks (stage_index : nat) (stage : PipelineStage) (inputs : list Json)
    : HostOutcome (list ParsedParallelTask) :=
  let at_index := ("stages[" ++ display_u64 (N.of_nat stage_index) ++ "]")%string in
  match stage_tasks stage with
  | Some tasks =>
      if negb (length tasks =? length inputs)%nat
      then invalid_args (at_index ++ ".tasks length must match current item count")
      else Ok ((fun task => mkParallelTask (stage_role stage) task actor_budget_default) <$> tasks)
  | None =>
      match stage_task stage with
      | None => Panicked
      | Some task =>
          collect_indexed (fun _ input =>
            let composed := (task ++ newline ++ newline ++ "Pipeline input: " ++ compact_pipeline_input input)%string in
            agents_validate_bounded_text composed (at_index ++ ".task") MAX_ACTOR_TASK_BYTES ;;
            Ok (mkParallelTask (stage_role stage) composed actor_budget_default)) 0 inputs
      end
  end.

Definition run_pipeline_wave (ctx : InvocationCtx) (parent : option ActorId) (grants : CapabilityGrants)
    (tasks : list ParsedParallelTask) : Prog (HostOutcome (list Json)) :=
  if (MAX_ACTORS_PER_CALL <? len tasks)%N
  then mret (invalid_args ("pipeline wave must contain at most " ++ display_u64 MAX_ACTORS_PER_CALL ++ " actors"))
  else run_group "PipelineWave" ctx parent grants tasks.

Fixpoint run_stages (ctx : InvocationCtx) (parent : option ActorId) (grants : CapabilityGrants) (index : nat)
    (stages : list PipelineStage) (inputs : list Json) (outputs : list Json) : Prog (HostOutcome Json) :=
  match stages with
  | [] => mret (Ok (JArray outputs))
  | stage :: stages =>
      have? tasks := pipeline_wave_tasks index stage inputs in
      let? digests := run_pipeline_wave ctx parent grants tasks in
      run_stages ctx parent grants (S index) stages digests (outputs ++ [JArray digests])
  end.

Definition agents_pipeline (args : Json) (ctx : InvocationCtx) : Prog (HostOutcome Json) :=
  have? _ := check_grant ctx "agents.pipeline" in
  have? grants := child_agent_grants ctx (json_get "opts" args) in
  have? inputs := ok_or (json_as_array (json_index "items" args)) (InvalidArgs "items must be an array") in
  if (MAX_ACTORS_PER_CALL <? len inputs)%N
  then mret (invalid_args ("items must contain at most " ++ display_u64 MAX_ACTORS_PER_CALL ++ " entries"))
  else
    let input_bytes := str_len (json_text (JArray inputs)) in
    if (MAX_PIPELINE_INPUT_BYTES <? input_bytes)%N
    then mret (invalid_args ("items must total at most " ++ display_u64 MAX_PIPELINE_INPUT_BYTES
                             ++ " serialized bytes, got " ++ display_u64 input_bytes))
    else
      have? stages := parse_pipeline_stages args in
      have? _ := need_executor "agents.pipeline" in
      have? parent := caller_parent_id ctx in
      run_stages ctx parent grants 0 stages inputs [].

(** ** Messages *)

Definition message_json (m : ActorMessage) : Json :=
  Host.json_object
    [("from", JString (from m)); ("to", JString (to m)); ("text", JString (text m));
     ("replyTo", json_option (reply_to m)); ("sentAt", JString (to_rfc3339 (sent_at m)))]%string.

Definition is_delivered (r : Receipt) : bool := match r with Delivered => true | _ => false end.

Definition receipt_fields (r : Receipt) : list (string * Json) :=
  match r with
  | Delivered => [("status", JString "delivered")]
  | Unreachable => [("status", JString "failed"); ("reason", JString "unreachable")]
  | Backpressured => [("status", JString "failed"); ("reason", JString "backpressured")]
  end%string.

Definition receipt_json (r : Receipt) : Json := Host.json_object (receipt_fields r).

Definition maybe_emit_message (session : string) (m : ActorMessage) (r : Receipt) : Prog unit :=
  if is_delivered r then emit_lifecycle session (EvMessageSent (from m) (to m) (reply_to m) (sent_at m)) else mret tt.

Definition reject_descendant_wait (session : string) (waiter target : ActorId) (field : string)
    : Prog (HostOutcome unit) :=
  waits ← would_wait_on_descendant_for_session session waiter target;
  mret (if (waits : bool)
        then invalid_args (field ++ " would make actor " ++ waiter ++ " wait on itself or its own descendant " ++ target)
        else Ok tt).

Definition ms : Z := 1000000.

(** The loop of [wait_for_actor_message_or_cancel]; a wait that found nothing took its
    slice of 50 ms, or ended at the deadline. *)
Fixpoint wait_rounds (fuel : nat) (session : string) (id : ActorId) (sender : option ActorId) (deadline : Z)
    : Prog (HostOutcome (option ActorMessage)) :=
  match fuel with
  | O => mret OutOfFuel
  | S fuel =>
      cancelled ← is_cancelled_for_session session id;
      if (cancelled : bool) then mret (Err (HostCall "actor cancelled"))
      else
        now ← now_;
        if (deadline <=? now)%Z then mret (Ok None)
        else
          let remaining := Z.to_N ((deadline - now) / ms)%Z in
          found ← wait_for_message_for_session session id sender (N.min remaining 50);
          match found with
          | Some m => mret (Ok (Some m))
          | None => wait_rounds fuel session id sender deadline
          end
  end.

Definition wait_for_actor_message_or_cancel (session : string) (id : ActorId) (sender : option ActorId)
    (timeout_ms : N) : Prog (HostOutcome (option ActorMessage)) :=
  start ← now_;
  wait_rounds (S (S (N.to_nat (timeout_ms / 50)))) session id sender (start + Z.of_N timeout_ms * ms).

Definition waited_json (found : option ActorMessage) : Json :=
  match found with Some m => message_json m | None => JNull end.

Definition send_checked (session : string) (m : ActorMessage) : Prog (HostOutcome Receipt) :=
  sent ← send_message_for_session session m;
  match sent with
  | inl e => mret (Err (registry_error e))
  | inr receipt => maybe_emit_message session m receipt;; mret (Ok receipt)
  end.

Fixpoint broadcast_to (session : string) (sender : ActorId) (text : string) (targets : list ActorRecord)
    (receipts : list Json) : Prog (HostOutcome Json) :=
  match targets with
  | [] => mret (Ok (JArray receipts))
  | target :: targets =>
      at_ ← now_;
      let? receipt := send_checked session (mkMessage sender (rec_id target) text None at_) in
      broadcast_to session sender text targets
        (receipts ++ [Host.json_object (receipt_fields receipt ++ [("actorId", JString (rec_id target))]%string)])
  end.

Definition record_le (a b : ActorRecord) : Prop := String.compare (rec_id a) (rec_id b) ≠ Gt.

#[local] Instance record_le_dec : RelDecision record_le.
Proof. unfold RelDecision, record_le. solve_decision. Defined.

Definition agents_broadcast (args : Json) (ctx : InvocationCtx) : Prog (HostOutcome Json) :=
  have? _ := check_grant ctx "agents.broadcast" in
  have? text := parse_plain_prose_text args "text" in
  have? sender := caller_actor_id ctx in
  targets ← live_direct_children_for_session (session_id ctx) sender;
  let targets := merge_sort record_le targets in
  if (MAX_ACTORS_PER_CALL <? len targets)%N
  then mret (invalid_args ("broadcast has more than " ++ display_u64 MAX_ACTORS_PER_CALL ++ " direct live children"))
  else broadcast_to (session_id ctx) sender text targets [].

Definition agents_cancel (args : Json) (ctx : InvocationCtx) : Prog (HostOutcome Json) :=
  have? _ := check_grant ctx "agents.cancel" in
  have? value := ok_or (json_get "target" args) (InvalidArgs "target is required") in
  have? target := parse_actor_ref value "target" in
  let receipt status := Host.json_object [("actorId", JString target); ("status", JString status)]%string in
  found ← get_for_session (session_id ctx) target;
  match found with
  | None => mret (Ok (receipt "not_found"%string))
  | Some record =>
      have? caller := caller_actor_id ctx in
      if negb (is_direct_child caller record)
      then mret (invalid_args "target must be a direct child of the caller")
      else
        result ← cancel_actor (session_id ctx) target;
        mret (Ok (receipt (cancel_result_as_str result)))
  end.

Definition agents_send (args : Json) (ctx : InvocationCtx) : Prog (HostOutcome Json) :=
  have? _ := check_grant ctx "agents.send" in
  have? value := ok_or (json_get "to" args) (InvalidArgs "to is required") in
  have? target := parse_actor_ref value "to" in
  have? text := parse_plain_prose_text args "text" in
  let do_await := default false (json_as_bool (json_index "await" (json_index "opts" args))) in
  have? sender := caller_actor_id ctx in
  let? _ := (if do_await then reject_descendant_wait (session_id ctx) sender target "to" else mret (Ok tt)) in
  at_ ← now_;
  let? receipt := send_checked (session_id ctx)
                    (mkMessage sender target text (if do_await then Some sender else None) at_) in
  if negb do_await || negb (is_delivered receipt) then mret (Ok (receipt_json receipt))
  else
    have? timeout_ms := parse_timeout_ms args 30000 in
    let? found := wait_for_actor_message_or_cancel (session_id ctx) sender (Some target) timeout_ms in
    mret (Ok (waited_json found)).

Definition agents_wait (args : Json) (ctx : InvocationCtx) : Prog (HostOutcome Json) :=
  have? _ := check_grant ctx "agents.wait" in
  have? id := caller_actor_id ctx in
  have? sender := match not_null (json_get "from" args) with
                  | Some value => sender ← parse_actor_ref value "from"; Ok (Some sender)
                  | None => Ok None
                  end in
  let? _ := match sender with
            | Some sender => reject_descendant_wait (session_id ctx) id sender "from"
            | None => mret (Ok tt)
            end in
  have? timeout_ms := parse_timeout_ms args 30000 in
  let? found := wait_for_actor_message_or_cancel (session_id ctx) id sender timeout_ms in
  mret (Ok (waited_json found)).

Definition agents_inbox (args : Json) (ctx : InvocationCtx) : Prog (HostOutcome Json) :=
  have? _ := check_grant ctx "agents.inbox" in
  have? id := caller_actor_id ctx in
  messages ← drain_inbox_for_session (session_id ctx) id None;
  mret (Ok (JArray (message_json <$> messages))).

Definition status_json (s : ActorStatus) : Json :=
  JString match s with Running => "running" | Idle => "idle" | Parked => "parked" | Terminated => "terminated" end.

Definition agents_list (args : Json) (ctx : InvocationCtx) : Prog (HostOutcome Json) :=
  have? _ := check_grant ctx "agents.list" in
  records ← list_for_session (session_id ctx);
  entries ← map_each (fun record =>
    unread ← unread_count_for_session (session_id ctx) (rec_id record);
    activity ← last_activity_for_session (session_id ctx) (rec_id record);
    mret (Host.json_object
      [("id", JString (rec_id record)); ("parentId", json_option (rec_parent record));
       ("status", status_json (rec_status record)); ("mode", json_option (rec_mode record));
       ("unread", json_usize unread); ("lastActivity", json_option (to_rfc3339 <$> activity));
       ("artifactUri", json_option (rec_artifact_uri record));
       ("historyUri", json_option (rec_history_uri record))]%string)) records;
  mret (Ok (JArray entries)).

(** ** The functions by name ([register]) *)

Definition agents_functions : list (string * (Json -> InvocationCtx -> Prog (HostOutcome Json))) :=
  [("agents.run", agents_run); ("agents.spawn", agents_spawn); ("agents.parallel", agents_parallel);
   ("agents.pipeline", agents_pipeline); ("agents.send", agents_send); ("agents.broadcast", agents_broadcast);
   ("agents.cancel", agents_cancel); ("agents.wait", agents_wait); ("agents.inbox", agents_inbox);
   ("agents.list", agents_list)]%string.

(** ** Transcripts as resources ([resources.rs]) *)

(** [str::parse::<usize>]. *)
Fixpoint parse_digits (s : string) (n : N) : option N :=
  match s with
  | EmptyString => Some n
  | String b s' =>
      if digit b then
        let n := (n * 10 + (N_of_ascii b - 48))%N in
        if (n <=? usize_max)%N then parse_digits s' n else None
      else None
  end.

Definition parse_usize (s : string) : option N :=
  let s := match s with String b s' => if Ascii.eqb b "+" then s' else s | EmptyString => s end in
  if is_empty s then None else parse_digits s 0.

(** [split_once('-')]. *)
Fixpoint split_dash (s : string) : option (string * string) :=
  match s with
  | EmptyString => None
  | String b s' =>
      if Ascii.eqb b "-" then Some (EmptyString, s')
      else '(before, after) ← split_dash s'; Some (String b before, after)
  end.

Definition parse_selector (selector : option string) (total_lines : N) : N * N :=
  let end_default := N.min total_lines 50 in
  match selector ≫= split_dash with
  | None => (0%N, end_default)
  | Some (a, b) =>
      let start := saturating_sub (default 1%N (parse_usize a)) 1 in
      let end_ := N.min (default 50%N (parse_usize b)) total_lines in
      (N.min start total_lines, N.min (N.max end_ start) total_lines)
  end.
End Agents.
