(* ===== verification/AgentsPool.v ===== *)
(** * Agents running side by side

    A system is the registry and the threads that work on it: host calls that were
    started, and the workers and waves they started in turn.  A step lets one thread
    ask its next question; a section of the registry is answered by the registry,
    the clock, the executor and the timers answer anything.  [may_drop] also lets
    the future of a host call be dropped where it waits.  The second half is a logic
    for the programs of threads. *)

From stdpp Require Import base tactics list gmap strings.
From Stdlib Require Import NArith ZArith Lia.
From S2P Require Import Prelude BTree Text Catalog Value Strings Host Render Supervise Inbox Redaction ServerBase Io Actors Agents.

Definition WaveResult : Type := HostError + ActorDigest.

(** A thread runs a program, or awaits a wave: the results so far, the futures in the
    window of [buffered], the actors not yet started, and what follows. *)
Inductive Thread :=
| Runs (p : Prog unit)
| Awaits (all : list ActorSpec) (done : list WaveResult) (window : list (Prog WaveResult)) (waiting : list ActorSpec)
    (k : list WaveResult -> Prog unit).

Record System := mkSystem {
  registry : MailboxRegistry;
  host_calls : list Thread;
  workers : list (Prog unit);
  started : list InvocationCtx;
}.

Section Pool.
Context `{UnicodeTables} `{ActorText} `{JsonNumber} `{!JsonUnsigned} `{!TextJson} `{!JsonText} `{RegexEngine}.
Variable executor_set : bool.

(** The answer to a question, with the registry and the workers after it; what a wave
    returns is not an answer of the world. *)
Inductive answers : forall q : Query, MailboxRegistry -> Answer q -> MailboxRegistry -> list (Prog unit) -> Prop :=
| answers_locked s r : answers (Locked s) r (run_section s r).1 (run_section s r).2 []
| answers_now r t : answers Now r t r []
| answers_run spec r ended : answers (RunActor spec) r ended r []
| answers_spawn id spec r : answers (SpawnThread id spec) r tt r [worker executor_set id spec]
| answers_ticks slice r n : answers (WaitTicks slice) r n r [].

Inductive prog_step {A} : Prog A -> MailboxRegistry -> Prog A -> MailboxRegistry -> list (Prog unit) -> Prop :=
| prog_asks q (k : Answer q -> Prog A) r a r' spawned :
    answers q r a r' spawned -> prog_step (Ask q k) r (k a) r' spawned.

(** The window of [buffered(MAX_CONCURRENT_ACTORS)] is filled in order. *)
Definition fill (window : list (Prog WaveResult)) (waiting : list ActorSpec)
    : list (Prog WaveResult) * list ActorSpec :=
  let room := (MAX_CONCURRENT_ACTORS - length window)%nat in
  (window ++ (wave_child executor_set <$> take room waiting), drop room waiting).

Inductive thread_step : Thread -> MailboxRegistry -> Thread -> MailboxRegistry -> list (Prog unit) -> Prop :=
| thread_runs p r p' r' spawned : prog_step p r p' r' spawned -> thread_step (Runs p) r (Runs p') r' spawned
| thread_wave specs k r :
    thread_step (Runs (Ask (RunWave specs) k)) r
      (Awaits specs [] (fill [] specs).1 (fill [] specs).2 k) r []
| thread_child all done pre p p' post waiting k r r' spawned :
    prog_step p r p' r' spawned ->
    thread_step (Awaits all done (pre ++ p :: post) waiting k) r (Awaits all done (pre ++ p' :: post) waiting k) r' spawned
| thread_yield all done result window waiting k r :
    thread_step (Awaits all done (Ret result :: window) waiting k) r
      (Awaits all (done ++ [result]) (fill window waiting).1 (fill window waiting).2 k) r []
| thread_joined all done k r : thread_step (Awaits all done [] [] k) r (Runs (k done)) r [].

Inductive system_step : System -> System -> Prop :=
| step_start name f args ctx r ts ws cs :
    In (name, f) (agents_functions executor_set) ->
    system_step (mkSystem r ts ws cs) (mkSystem r (ts ++ [Runs (f args ctx;; mret tt)]) ws (ctx :: cs))
| step_call pre t t' post r r' ws spawned cs :
    thread_step t r t' r' spawned ->
    system_step (mkSystem r (pre ++ t :: post) ws cs) (mkSystem r' (pre ++ t' :: post) (ws ++ spawned) cs)
| step_worker pre p p' post r r' ts spawned cs :
    prog_step p r p' r' spawned ->
    system_step (mkSystem r ts (pre ++ p :: post) cs) (mkSystem r' ts (pre ++ p' :: post ++ spawned) cs).

(** [CancelActorsOnDrop]: the tokens of a wave are tripped when its call is dropped. *)
Definition drop_thread (t : Thread) (r : MailboxRegistry) : MailboxRegistry :=
  match t with
  | Runs _ => r
  | Awaits all _ _ _ _ => foldl (fun r spec => trip_token (spec_cancellation spec) r) r all
  end.

Inductive may_drop : System -> System -> Prop :=
| drop_call pre t post r ws cs :
    may_drop (mkSystem r (pre ++ t :: post) ws cs) (mkSystem (drop_thread t r) (pre ++ post) ws cs).

Definition system_new : System := mkSystem mailbox_new [] [] [].

Inductive reachable (moves : System -> System -> Prop) : System -> Prop :=
| reachable_new : reachable moves system_new
| reachable_step s s' : reachable moves s -> moves s s' -> reachable moves s'.

Definition step_or_drop (s s' : System) : Prop := system_step s s' \/ may_drop s s'.
End Pool.

(** ** Reasoning about agents

    [obeys pre may post d p]: the questions of the program [p] satisfy [pre] as long as
    the answers satisfy [may], and its result satisfies [post].  Along the way the
    debts [d] of the thread are kept: a thread that marked an actor as cancelled owes
    tripping its token, one that replaced a token owes resetting the record. *)

(** ** Debts *)

Inductive Debt :=
| OwesTrip (key : ActorKey)
| OwesToken (key : ActorKey) (token : nat)
| OwesReset (key : ActorKey).

#[global] Instance debt_eq_dec : EqDecision Debt.
Proof. solve_decision. Defined.

Definition owes (d : Debt) (ds : list Debt) : list Debt := d :: ds.
Definition settle_debts (P : Debt -> bool) (ds : list Debt) : list Debt := List.filter (fun d => negb (P d)) ds.

(** Looking up the token of an actor whose token is owed. *)
Definition learn (key : ActorKey) (token : nat) (ds : list Debt) : list Debt :=
  (fun d => if decide (d = OwesTrip key) then OwesToken key token else d) <$> ds.

Definition debts_after (q : Query) : Answer q -> list Debt -> list Debt :=
  match q with
  | Locked s =>
      match s return section_answer s -> list Debt -> list Debt with
      | CancelRecord key _ => fun r ds =>
          match r with CancelDone | AlreadyCancelled => owes (OwesTrip key) ds | _ => ds end
      | FailRecord key _ _ => fun r ds =>
          match r with Some (_, true) => owes (OwesTrip key) ds | _ => ds end
      | ReadToken key => fun r ds => match r with Some token => learn key token ds | None => ds end
      | EntryToken key => fun token ds => learn key token ds
      | TripToken token => fun _ ds =>
          settle_debts (fun d => match d with OwesToken _ t => (t =? token)%nat | _ => false end) ds
      | ReplaceToken key => fun _ ds => owes (OwesReset key) ds
      | ResetRecord key _ _ _ => fun _ ds =>
          settle_debts (fun d => bool_decide (d = OwesReset key)) ds
      | _ => fun _ ds => ds
      end
  | _ => fun _ ds => ds
  end.

(** ** Assertions *)

Section Obeys.
Context (pre : list Debt -> Query -> Prop) (may : forall q, Answer q -> Prop).

Fixpoint obeys {A} (post : list Debt -> A -> Prop) (d : list Debt) (p : Prog A) : Prop :=
  match p with
  | Ret a => post d a
  | Ask q k => pre d q /\ forall r, may q r -> obeys post (debts_after q r d) (k r)
  end.

Lemma obeys_mono {A} (post post' : list Debt -> A -> Prop) p : forall d,
  obeys post d p -> (forall d a, post d a -> post' d a) -> obeys post' d p.
Proof.
  induction p as [a|q k IH]; intros d Hp Hpost; cbn in *; [by apply Hpost|].
  destruct Hp as [Hq Hk]. split; [done|]. intros r Hr. by apply IH; [apply Hk|].
Qed.

Lemma obeys_bind {A B} (post : list Debt -> B -> Prop) (k : A -> Prog B) m : forall d,
  obeys (fun d' a => obeys post d' (k a)) d m -> obeys post d (m ≫= k).
Proof.
  induction m as [a|q c IH]; intros d Hm; cbn in *; [done|]. destruct Hm as [Hq Hc].
  split; [done|]. intros r Hr. apply IH. by apply Hc.
Qed.

Lemma obeys_ret {A} (post : list Debt -> A -> Prop) d a : post d a -> obeys post d (mret a).
Proof. done. Qed.

Lemma obeys_ask (q : Query) {A} (k : Answer q -> Prog A) post d :
  pre d q -> (forall r, may q r -> obeys post (debts_after q r d) (k r)) -> obeys post d (Ask q k).
Proof. done. Qed.

Lemma obeys_for {X} (body : X -> Prog unit) xs : forall d,
  (forall x, In x xs -> obeys (fun d' _ => d' = d) d (body x)) -> obeys (fun d' _ => d' = d) d (for_each_ body xs).
Proof.
  induction xs as [|x xs IH]; intros d Hb; cbn; [done|]. apply obeys_bind.
  eapply obeys_mono; [apply Hb; by left|]. intros d' [] ->. apply IH. intros y Hy. apply Hb. by right.
Qed.

Lemma obeys_map {X Y} (P : Y -> Prop) (body : X -> Prog Y) xs : forall d,
  (forall x, In x xs -> obeys (fun d' y => d' = d /\ P y) d (body x)) ->
  obeys (fun d' ys => d' = d /\ Forall P ys) d (map_each body xs).
Proof.
  induction xs as [|x xs IH]; intros d Hb; cbn; [by split|]. apply obeys_bind.
  eapply obeys_mono; [apply Hb; by left|]. intros d' y [-> Hy]. apply obeys_bind.
  eapply obeys_mono; [apply IH; intros z Hz; apply Hb; by right|]. intros d' ys [-> Hys]. split; [done|by constructor].
Qed.
End Obeys.

(** ** What the threads of agents keep to *)

(** No grant is a pattern of a pattern. *)
Definition plain_grants (g : CapabilityGrants) : Prop :=
  Forall (fun granted => forall p, strip_suffix ".*" granted = Some p -> strip_suffix ".*" p = None) (allowed g).

Definition server_control (name : string) : bool := starts_with "modes." name || starts_with "backend." name.

(** The actor acts for the call: in its session and project, as its child, and with
    grants that the call holds itself and that reach no control plane. *)
Definition authorized (ctx : InvocationCtx) (spec : ActorSpec) : Prop :=
  spec_session_id spec = session_id ctx /\ spec_project_id spec = project_id ctx /\ spec_parent spec = actor_id ctx
  /\ plain_grants (spec_grants spec)
  /\ (forall grant, In grant (allowed (spec_grants spec)) -> host_permits (ctx_grants ctx) grant = true)
  /\ forall name, host_permits (spec_grants spec) name = true -> server_control name = false.

Definition covered (cs : list InvocationCtx) (spec : ActorSpec) : Prop := exists ctx, In ctx cs /\ authorized ctx spec.

Definition asks_well (cs : list InvocationCtx) (d : list Debt) (q : Query) : Prop :=
  match q with
  | Locked (TrackBatch _ records) => Forall (fun e => rec_cancelled e.1 = false) records
  | Locked (PutTemplate key t) => covered cs (template_to_spec t 0)
  | Locked (ResetRecord key id _ _) => key.2 = id
  | RunActor spec | SpawnThread _ spec => d = [] /\ covered cs spec
  | RunWave specs => d = [] /\ Forall (covered cs) specs
  | WaitTicks _ => d = []
  | _ => True
  end.

Definition may_answer (cs : list InvocationCtx) (q : Query) : Answer q -> Prop :=
  match q with
  | Locked s =>
      match s return section_answer s -> Prop with
      | GetTemplate _ => fun r => match r with Some t => covered cs (template_to_spec t 0) | None => True end
      | _ => fun _ => True
      end
  | _ => fun _ => True
  end.

Lemma covered_token cs t c c' : covered cs (template_to_spec t c) -> covered cs (template_to_spec t c').
Proof. intros (ctx & Hin & Ha). by exists ctx. Qed.

Lemma covered_more cs cs' spec : covered cs spec -> incl cs cs' -> covered cs' spec.
Proof. intros (ctx & Hin & Ha) Hi. exists ctx. split; [by apply Hi|done]. Qed.

Abbreviation sound cs := (obeys (asks_well cs) (may_answer cs)).

(** A program that leaves the debts as they were. *)
Definition even {A} (cs : list InvocationCtx) (d : list Debt) (P : A -> Prop) (p : Prog A) : Prop :=
  sound cs (fun d' a => d' = d /\ P a) d p.

Lemma even_bind {A B} cs d (P : A -> Prop) (Q : B -> Prop) (m : Prog A) (k : A -> Prog B) :
  even cs d P m -> (forall a, P a -> even cs d Q (k a)) -> even cs d Q (m ≫= k).
Proof. intros Hm Hk. apply obeys_bind. eapply obeys_mono; [exact Hm|]. intros d' a [-> Ha]. by apply Hk. Qed.

(** The usual case: nothing is to be known about the first result. *)
Lemma even_then {A B} cs d (Q : B -> Prop) (m : Prog A) (k : A -> Prog B) :
  even cs d (fun _ => True) m -> (forall a, even cs d Q (k a)) -> even cs d Q (m ≫= k).
Proof. intros Hm Hk. eapply even_bind; [exact Hm|]. intros a _. apply Hk. Qed.

Lemma even_ret {A} cs d (P : A -> Prop) a : P a -> even cs d P (mret a).
Proof. by split. Qed.

(** Sections that do not touch debts. *)
Definition quiet (s : Section_) : Prop := forall r d, debts_after (Locked s) r d = d.

Lemma even_locked cs d s (P : section_answer s -> Prop) :
  quiet s -> asks_well cs d (Locked s) -> (forall r, may_answer cs (Locked s) r -> P r) -> even cs d P (locked s).
Proof. intros Hs Hq HP. split; [done|]. intros r Hr. cbn. split; [by apply Hs|by apply HP]. Qed.

Lemma even_now cs d : even cs d (fun _ => True) now_.
Proof. done. Qed.

Lemma even_ticks cs n : even cs [] (fun _ => True) (wait_ticks n).
Proof. done. Qed.

Lemma even_mono {A} cs d (P Q : A -> Prop) p : even cs d P p -> (forall a, P a -> Q a) -> even cs d Q p.
Proof. intros Hp HPQ. eapply obeys_mono; [exact Hp|]. intros d' a [-> Ha]. split; auto. Qed.

Lemma even_for {X} cs d (body : X -> Prog unit) xs :
  (forall x, In x xs -> even cs d (fun _ => True) (body x)) -> even cs d (fun _ => True) (for_each_ body xs).
Proof.
  intros Hb. unfold even. eapply obeys_mono; [apply (obeys_for _ _ _ _ d)|by intros ? ? ->].
  intros x Hx. eapply obeys_mono; [by apply Hb|]. by intros ? ? [-> _].
Qed.

Lemma even_map {X Y} cs d (P : Y -> Prop) (body : X -> Prog Y) xs :
  (forall x, In x xs -> even cs d P (body x)) -> even cs d (Forall P) (map_each body xs).
Proof. intros Hb. apply obeys_map. intros x Hx. by apply Hb. Qed.

Create HintDb agents discriminated.
#[export] Hint Resolve even_ret even_now even_ticks I : agents.
#[export] Hint Extern 1 (quiet _) => (intros ? ?; reflexivity) : agents.
#[export] Hint Extern 1 (asks_well _ _ (Locked _)) => exact I : agents.

(** Walks through a program along its binds and cases. *)
Ltac even_step :=
  lazymatch goal with
  | |- even _ _ _ (mbind _ _) => apply even_then
  | |- even _ _ _ (mret _) => apply even_ret
  | |- even _ _ _ (locked _) => apply even_locked; [intros ? ?; reflexivity|try exact I|intros ? _; exact I]
  | |- even _ _ _ now_ => apply even_now
  | |- even _ _ _ (emit_lifecycle _ _) => unfold emit_lifecycle
  | |- even _ _ _ (match ?x with _ => _ end) => destruct x
  | |- forall _, _ => intros ?
  end.
Ltac evens := repeat even_step; try done; auto with agents.

(** ** The methods of the registry *)

Section Methods.
Variables (cs : list InvocationCtx).

Lemma even_supervisor_id d session id fallback : even cs d (fun _ => True) (supervisor_id_for_actor session id fallback).
Proof. unfold supervisor_id_for_actor. evens. Qed.

Lemma even_ensure_token_free session id :
  even cs [] (fun _ => True) (ensure_cancel_token session id).
Proof.
  unfold ensure_cancel_token. apply obeys_bind. split; [done|]. intros [token|] _; cbn.
  - done.
  - split; [done|]. intros r _. done.
Qed.

(** Tripping the token of an actor settles the debt. *)
Lemma sound_trip session id :
  sound cs (fun d _ => d = []) [OwesTrip (session, id)]
    (token ← cancel_token_for_session session id; locked (TripToken token)).
Proof.
  apply obeys_bind. apply obeys_bind. split; [done|]. intros [token|] _; cbn.
  - rewrite decide_True by done. cbn. split; [done|]. intros _ _. by rewrite Nat.eqb_refl.
  - split; [done|]. intros token _. rewrite decide_True by done. cbn. split; [done|]. intros _ _.
    by rewrite Nat.eqb_refl.
Qed.
Lemma even_cancel_actor session id : even cs [] (fun _ => True) (cancel_actor session id).
Proof.
  unfold cancel_actor. eapply even_bind; [apply even_now|]. intros at_ _.
  apply obeys_bind. split; [done|]. intros result _. cbn [debts_after locked].
  apply obeys_bind. destruct result; cbn [obeys mret prog_ret owes].
  1,2: eapply obeys_mono; [apply sound_trip|]; intros d [] ->.
  all: evens.
Qed.

Lemma even_cancel_subtree session root : even cs [] (fun _ => True) (cancel_actor_subtree session root).
Proof.
  unfold cancel_actor_subtree. evens.
  eapply even_mono; [apply (even_map _ _ (fun _ => True))|done]. intros x _.
  eapply even_bind; [apply even_cancel_actor|]. evens.
Qed.

Lemma even_mark_complete session id resources : even cs [] (fun _ => True) (mark_complete_with session id resources).
Proof.
  unfold mark_complete_with, mark_complete_record, record_supervised_success.
  evens.
Qed.

Lemma even_mark_failed session id reason : even cs [] (fun _ => True) (mark_failed_record session id reason).
Proof.
  unfold mark_failed_record. eapply even_bind; [apply even_now|]. intros now _.
  apply obeys_bind. split; [done|]. intros [[fallback []]|] _; cbn [debts_after locked obeys]; [| |by split].
  - apply obeys_bind. eapply obeys_mono; [apply sound_trip|]. intros d [] ->.
    apply even_then; [apply even_supervisor_id|]. evens.
  - apply even_then; [by apply even_ret|]. intros _. apply even_then; [apply even_supervisor_id|]. evens.
Qed.

Lemma even_record_actor_error session id reason : even cs [] (fun _ => True) (record_actor_error session id reason).
Proof.
  unfold record_actor_error, mark_failed_with_supervision_for_session.
  apply even_then; [apply even_then; [apply even_mark_failed|]; evens|].
  intros [[supervisor decision]|]; [|evens]. evens.
  unfold emit_and_apply_supervision_decision. destruct (actions decision); [evens|]. evens.
  unfold apply_supervision_actions. apply even_for. intros [] _; evens. apply even_cancel_subtree.
Qed.

Lemma even_remember spec : covered cs spec -> even cs [] (fun _ => True) (remember_restart_spec spec).
Proof.
  intros Hc. unfold remember_restart_spec. eapply even_bind; [apply even_supervisor_id|]. intros supervisor _.
  apply even_locked; [by intros ? ?| |done]. destruct Hc as (ctx & Hin & Ha). by exists ctx.
Qed.

(** The spec of a restart is one that was remembered. *)
Lemma even_prepare_restart session id :
  even cs [] (fun found => forall spec, found = Some spec -> covered cs spec)
    (prepare_actor_restart_for_session session id).
Proof.
  unfold prepare_actor_restart_for_session. apply obeys_bind. split; [done|].
  intros [t|] Ht; cbn in Ht |- *; [|by split].
  split; [done|]. intros token _. split; [done|]. intros _ _. split; [done|]. intros _ _. split; [done|].
  intros now _. split; [done|]. intros _ _. rewrite bool_decide_true by done. cbn.
  split; [done|]. intros _ _. split; [done|]. intros _ _. split; [done|]. intros _ _.
  split; [done|]. intros spec [= <-]. by eapply covered_token.
Qed.

Lemma even_spawn_restarted executor_set session id :
  even cs [] (fun _ => True) (spawn_restarted_actor executor_set session id).
Proof.
  unfold spawn_restarted_actor. destruct executor_set; cbn [negb]; [|evens].
  eapply even_bind; [apply even_prepare_restart|]. intros [spec|] Hs; [|evens].
  split; [by split; [|apply Hs]|]. intros [] _. done.
Qed.

Lemma even_mark_error executor_set session id reason :
  even cs [] (fun _ => True) (mark_actor_error executor_set session id reason).
Proof.
  unfold mark_actor_error. eapply even_bind; [apply even_record_actor_error|]. intros [decision|] _; [|evens].
  unfold spawn_restart_actions. apply even_for. intros [] _; evens. apply even_spawn_restarted.
Qed.
End Methods.
