(* ===== verification/AgentsFacts.v ===== *)
(** * The functions [agents.*] keep to the rules

    Every function, every worker and every child of a wave only starts actors that act
    for a call, and settles what it owes before it waits for an actor or ends.  First
    what a caller can delegate. *)

From stdpp Require Import base tactics list gmap strings.
From Stdlib Require Import NArith ZArith Lia Ascii.
From S2P Require Import Prelude BTree Text Catalog Value Limits Strings Host Render Supervise Inbox Redaction ServerBase Io Actors Agents AgentsPool.

(** ** Delegated capabilities

    What [child_agent_grants] lets a parent hand on: only names the parent holds, and
    never those of the server's control planes. *)

(** ** Strings *)

Lemma app_split (a b c d : string) :
  (a ++ b = c ++ d)%string -> (String.length c <= String.length a)%nat ->
  exists e, a = (c ++ e)%string /\ d = (e ++ b)%string.
Proof.
  revert a. induction c as [|x c IH]; intros a E Hl; cbn in *; [by exists a|].
  destruct a as [|y a]; cbn in *; [lia|]. injection E as -> E. destruct (IH a E) as (e & -> & ->); [lia|]. by exists e.
Qed.

Lemma dotless_split k p e : existsb (Ascii.eqb ".") (String.list_ascii_of_string k) = false ->
  (p ++ "." ++ e = k ++ ".")%string -> p = k.
Proof.
  revert p. induction k as [|x k IH]; intros [|y p]; cbn; try done.
  - intros _ [= -> E]. by destruct p.
  - intros Hd [= <- E]. by cbn in Hd.
  - intros Hd [= -> E]. apply orb_false_iff in Hd as [_ Hd]. f_equal. by apply IH.
Qed.

(** ** What a grant of the host covers *)

Definition held_by (granted name : string) : Prop :=
  match strip_suffix ".*" granted with
  | Some p => name = p \/ exists rest, name = (p ++ "." ++ rest)%string
  | None => granted = name
  end.

Lemma host_permits_held g name : host_permits g name = true <-> exists granted, In granted (allowed g) /\ held_by granted name.
Proof.
  unfold host_permits, held_by. rewrite existsb_exists. apply exist_proper. intros granted. apply and_iff_compat_l.
  destruct (strip_suffix ".*" granted) as [p|]; [|by rewrite String.eqb_eq].
  rewrite orb_true_iff, String.eqb_eq, prefix_spec. by setoid_rewrite string_app_assoc.
Qed.

(** A grant that covers a pattern covers what the pattern covers. *)
Lemma held_pattern granted c name :
  (forall p, strip_suffix ".*" granted = Some p -> strip_suffix ".*" p = None) ->
  held_by granted c -> held_by c name -> held_by granted name.
Proof.
  unfold held_by at 2 3. intros Hplain Hc. destruct (strip_suffix ".*" c) as [p|] eqn:Ec; [|by intros ->].
  intros Hname. revert Hc. unfold held_by in *. destruct (strip_suffix ".*" granted) as [q|] eqn:Eg.
  2: { intros ->. congruence. }
  specialize (Hplain q eq_refl). apply strip_suffix_spec in Ec as ->.
  intros [Hq|[rest Hq]].
  { exfalso. rewrite <- Hq in Hplain. assert (strip_suffix ".*" (p ++ ".*") = Some p) by by apply strip_suffix_spec.
    congruence. }
  assert (Hp : p = q \/ exists e, p = (q ++ "." ++ e)%string).
  { rewrite <- string_app_assoc in Hq. destruct (decide (String.length (q ++ ".") <= String.length p)) as [Hl|Hl].
    - apply app_split in Hq as (e & -> & _); [|done]. right. exists e. by rewrite string_app_assoc.
    - left. symmetry in Hq. apply app_split in Hq as (e & He & Hr); [|lia].
      destruct e as [|x e]; [rewrite string_app_nil_r in He; rewrite He in Hl; lia|].
      cbn in Hr. injection Hr as <- Hr. destruct e as [|y e].
      + pose proof (f_equal String.length He) as HL. rewrite !string_length_app in HL. cbn in HL.
        apply app_split in He as (e & -> & He); [|lia].
        destruct e; [by rewrite string_app_nil_r|]. cbn in He. injection He as _ He. by destruct e.
      + cbn in Hr. injection Hr as <- Hr. destruct e; [|done].
        exfalso. replace (p ++ String "." (String "*" ""))%string with ((p ++ ".") ++ "*")%string in He
          by (rewrite string_app_assoc; done).
        pose proof (f_equal String.length He) as HL. rewrite !string_length_app in HL. cbn in HL.
        apply app_split in He as (e & -> & He); [|rewrite string_length_app; cbn; lia].
        by destruct e as [|? []]. }
  destruct Hp as [->|[e ->]]; [done|]. right. destruct Hname as [->|[r ->]]; [by exists e|].
  exists (e ++ "." ++ r)%string. by rewrite !string_app_assoc.
Qed.

(** A delegable pattern covers no name of a control plane. *)
Lemma held_control k c name :
  existsb (Ascii.eqb ".") (String.list_ascii_of_string k) = false ->
  starts_with (k ++ ".") c = false -> held_by c name -> starts_with (k ++ ".") name = false.
Proof.
  intros Hk Hc Hn. apply not_true_iff_false. intros [s Hs]%prefix_spec. apply not_true_iff_false in Hc. apply Hc.
  apply prefix_spec. unfold held_by in Hn. destruct (strip_suffix ".*" c) as [p|] eqn:Ec; [|subst; by eexists].
  apply strip_suffix_spec in Ec as ->. destruct Hn as [->|[r ->]].
  { exists (s ++ ".*")%string. by rewrite Hs, string_app_assoc. }
  destruct (decide (String.length (k ++ ".") <= String.length p)) as [Hl|Hl].
  - apply app_split in Hs as (e & -> & _); [|done]. exists (e ++ ".*")%string. by rewrite string_app_assoc.
  - symmetry in Hs. apply app_split in Hs as (e & He & Hr); [|lia].
    destruct e as [|x e]; [rewrite string_app_nil_r in He; rewrite He in Hl; lia|].
    cbn in Hr. injection Hr as <- _. symmetry in He. apply dotless_split in He as ->; [|done].
    exists "*"%string. by rewrite string_app_assoc.
Qed.

(** ** The loop over the requested names *)

Definition stars (s : string) : nat := length (List.filter (Ascii.eqb "*") (String.list_ascii_of_string s)).

Lemma stars_app a b : stars (a ++ b) = (stars a + stars b)%nat.
Proof.
  induction a as [|x a IH]; [done|]. unfold stars in *. cbn [String.app String.list_ascii_of_string List.filter].
  rewrite string_app_cons. cbn [String.list_ascii_of_string List.filter]. destruct (Ascii.eqb "*" x); cbn; by rewrite IH.
Qed.

Section Delegate.
Context `{UnicodeTables} `{ActorText} `{JsonNumber} `{!JsonUnsigned} `{!TextJson} `{!JsonText} `{RegexEngine}.
Implicit Types (ctx : InvocationCtx).

(** A requested name that was accepted. *)
Definition delegable ctx (name : string) : Prop :=
  (stars name <= 1)%nat /\ is_child_delegable name = true /\ host_permits (ctx_grants ctx) name = true.

Lemma validate_name_stars name index : validate_child_capability_name name index = Ok tt -> (stars name <= 1)%nat.
Proof.
  unfold validate_child_capability_name. fold (stars name).
  destruct (stars name =? 0)%nat eqn:E0; [intros _; apply Nat.eqb_eq in E0; lia|].
  destruct (stars name =? 1)%nat eqn:E1; [intros _; apply Nat.eqb_eq in E1; lia|].
  cbn [orb andb negb]. by rewrite !orb_true_r.
Qed.

Lemma delegate_names ctx capabilities : forall index total requested names,
  delegate ctx index capabilities total requested = Ok names ->
  (forall n, In n requested -> delegable ctx n) -> forall n, In n names -> delegable ctx n.
Proof.
  induction capabilities as [|c rest IH]; intros index total requested names Hd Hr; cbn [delegate] in Hd.
  { by injection Hd as <-. }
  destruct (json_as_str c) as [name|]; [|done]. 
  cbn -[validate_child_capability_name checked_add_u64 is_child_delegable host_permits] in Hd.
  destruct (validate_child_capability_name name index) as [[]|e| |] eqn:Ev; try done.
  cbn -[checked_add_u64 is_child_delegable host_permits] in Hd. destruct (checked_add_u64 total (str_len name)) as [total'|]; [|done].
  cbn -[is_child_delegable host_permits] in Hd.
  destruct (_ <? total')%N; [done|]. destruct (is_child_delegable name) eqn:Ec; [|done].
  destruct (host_permits (ctx_grants ctx) name) eqn:Ep; [|done]. cbn in Hd.
  eapply IH; [exact Hd|]. intros n [->|Hn]%bs_insert_In; [|by apply Hr].
  split; [by eapply validate_name_stars|done].
Qed.

(** Grants that are held one by one permit no more, unless one of those that hold them
    is a pattern of a pattern. *)
Lemma grants_within g g' : plain_grants g' ->
  (forall grant, In grant (allowed g) -> host_permits g' grant = true) ->
  forall name, host_permits g name = true -> host_permits g' name = true.
Proof.
  intros Hplain Hall name (c & Hin & Hc)%host_permits_held.
  apply (Hall c), host_permits_held in Hin as (granted & Hg' & Hh). apply host_permits_held. exists granted. split; [done|].
  eapply held_pattern; [|exact Hh|exact Hc]. by apply (proj1 (List.Forall_forall _ _) Hplain).
Qed.

(** What a child is given, its parent holds; control planes are never handed on. *)
Lemma child_grants_within ctx opts g :
  child_agent_grants ctx opts = Ok g ->
  plain_grants g
  /\ (forall grant, In grant (allowed g) -> host_permits (ctx_grants ctx) grant = true)
  /\ forall name, host_permits g name = true -> server_control name = false.
Proof.
  intros Hg. assert (Hall : forall n, In n (allowed g) -> delegable ctx n).
  { unfold child_agent_grants in Hg. destruct opts as [opts|]; [|injection Hg as <-; by intros n []].
    destruct (json_as_object opts) as [fields|]; [|done]. cbn in Hg.
    destruct (bm_get "capabilities" fields) as [cs|]; [|injection Hg as <-; by intros n []].
    destruct (json_as_array cs) as [items|]; [|done]. cbn in Hg. destruct (_ <? _)%N; [done|].
    destruct (delegate ctx 0 items 0 []) as [names|e| |] eqn:Ed; try done. injection Hg as <-.
    intros n Hn. cbn in Hn. apply bs_extend_In in Hn as [[]|Hn]. by eapply delegate_names in Hn; [|exact Ed|]. }
  split; [|split].
  - apply List.Forall_forall. intros granted Hin p Hp. destruct (strip_suffix ".*" p) as [q|] eqn:Eq; [|done].
    apply strip_suffix_spec in Hp, Eq. destruct (Hall granted Hin) as [Hs _].
    rewrite Hp, Eq, !stars_app in Hs. cbn in Hs. lia.
  - intros c Hin. by destruct (Hall c Hin) as (_ & _ & Hp).
  - intros name (c & Hin & Hc)%host_permits_held. destruct (Hall c Hin) as (_ & Hd & _).
    unfold is_child_delegable in Hd. apply andb_true_iff in Hd as [Hm%negb_true_iff Hb%negb_true_iff].
    unfold server_control. by rewrite (held_control "modes" c), (held_control "backend" c).
Qed.
End Delegate.

Section Functions.
Context `{UnicodeTables} `{ActorText} `{JsonNumber} `{!JsonUnsigned} `{!TextJson} `{!JsonText} `{RegexEngine}.
Variables (executor_set : bool) (cs : list InvocationCtx).

Abbreviation fine := (even cs [] (fun _ => True)).

(** [?] on a value and on a program. *)
Lemma even_have {A B} d (r : HostOutcome A) (k : A -> Prog (HostOutcome B)) :
  (forall a, r = Ok a -> even cs d (fun _ => True) (k a)) ->
  even cs d (fun _ => True) (try_bind (mret r) k).
Proof. intros Hk. unfold try_bind. destruct r; [by apply Hk|done..]. Qed.

Lemma even_try {A B} d (Q : A -> Prop) (m : Prog (HostOutcome A)) (k : A -> Prog (HostOutcome B)) :
  even cs d (fun r => forall a, r = Ok a -> Q a) m -> (forall a, Q a -> even cs d (fun _ => True) (k a)) ->
  even cs d (fun _ => True) (try_bind m k).
Proof.
  intros Hm Hk. unfold try_bind. eapply even_bind; [exact Hm|]. intros [a|e| |] Ha; try done. by apply Hk, Ha.
Qed.

Lemma fine_try {A B} (m : Prog (HostOutcome A)) (k : A -> Prog (HostOutcome B)) :
  fine m -> (forall a, fine (k a)) -> fine (try_bind m k).
Proof. intros Hm Hk. apply (even_try [] (fun _ => True)); [eapply even_mono; [exact Hm|done]|auto]. Qed.

(** ** Running actors *)

Lemma fine_run_to_digest spec : covered cs spec -> fine (run_to_digest_with_budget spec).
Proof.
  intros Hc. unfold run_to_digest_with_budget. destruct (validate_text_limits spec); [done|].
  apply obeys_bind. split; [by split|]. intros [[e|digest] []|] _; cbn; done.
Qed.

Lemma fine_mark_completed session id digest : fine (mark_actor_completed session id digest).
Proof.
  unfold mark_actor_completed, store_transcript_for_session, mark_complete_with_resources_for_session.
  apply even_then; [destruct (_ <$> _); evens|]. intros _.
  apply even_then; [apply even_mark_complete|]. evens.
Qed.

Lemma fine_run_and_report session id spec : covered cs spec -> fine (run_and_report executor_set session id spec).
Proof.
  intros Hc. unfold run_and_report. apply even_then; [by apply fine_run_to_digest|]. intros [e|digest].
  - apply even_then; [apply even_mark_error|]. evens.
  - apply even_then; [|evens]. apply even_then; [apply fine_mark_completed|]. evens.
Qed.

Lemma fine_worker id spec : covered cs spec -> fine (worker executor_set id spec).
Proof. intros Hc. unfold worker. apply even_then; [by apply fine_run_and_report|]. evens. Qed.

Lemma fine_wave_child spec : covered cs spec -> fine (wave_child executor_set spec).
Proof. intros Hc. unfold wave_child. apply even_then; [by apply fine_run_and_report|]. evens. Qed.

(** ** Starting actors *)

Variables (ctx : InvocationCtx).
Hypothesis Hctx : In ctx cs.

Lemma caller_parent_actor parent : caller_parent_id ctx = Ok parent -> parent = actor_id ctx.
Proof.
  unfold caller_parent_id, parse_id, actor_id_new. destruct (actor_id ctx) as [id|]; [|by intros [= <-]].
  destruct (_ <? _)%N; [done|]. destruct (negb _); [done|]. cbn. by intros [= <-].
Qed.

Lemma fine_track session records :
  Forall (fun e => rec_cancelled e.1 = false) records -> fine (track_batch_for_session session records).
Proof. intros Hr. unfold track_batch_for_session. destruct (check_modes records); [evens|]. by apply even_locked. Qed.

Lemma fine_launch opts parent grants id role task budget at_ :
  child_agent_grants ctx opts = Ok grants -> parent = actor_id ctx ->
  even cs [] (covered cs) (launch ctx parent grants id role task budget at_).
Proof.
  intros Hg ->. unfold launch. apply even_then; [evens|]. intros _.
  apply even_then; [apply even_ensure_token_free|]. intros token. cbv zeta.
  assert (Hc : covered cs (mkSpec id (session_id ctx) (project_id ctx) role task None grants budget (actor_id ctx) 0 token)).
  { exists ctx. split; [done|]. destruct (child_grants_within _ _ _ Hg) as (Hp & Hw & Hs). by split_and!. }
  apply even_then; [by apply even_remember|]. intros _. by apply even_ret.
Qed.

(** Walks through a function along [?], binds and cases. *)
Ltac fine_step :=
  lazymatch goal with
  | |- even _ _ _ (mbind _ (launch _ _ _ _ _ _ _ _)) => fail
  | |- even _ _ _ (try_bind (mret _) _) => apply even_have; intros ? ?
  | |- even _ _ _ (try_bind _ _) => apply fine_try
  | |- even _ _ _ (track_for_session _ _) => apply fine_track; by repeat constructor
  | |- even _ _ _ (track_with_supervisor_for_session _ _ _) => apply fine_track; by repeat constructor
  | |- even _ _ _ (next_actor_id _) => unfold next_actor_id
  | |- even _ _ _ (next_supervisor_id _) => unfold next_supervisor_id
  | _ => even_step
  end.
Ltac fines := repeat fine_step; try done.

Lemma fine_agents_run args : fine (agents_run executor_set args ctx).
Proof.
  unfold agents_run. fines. eapply even_bind; [by eapply fine_launch; [|by apply caller_parent_actor]|].
  intros spec Hs. apply even_then; [by apply fine_run_and_report|]. fines.
Qed.

Lemma fine_configure session parent opts : fine (configure_supervision_from_opts session parent opts).
Proof. unfold configure_supervision_from_opts, set_supervision_policy_for_session. fines. Qed.

Lemma fine_agents_spawn args : fine (agents_spawn executor_set args ctx).
Proof.
  unfold agents_spawn. fines; [apply fine_configure|].
  eapply even_bind; [by eapply fine_launch; [|by apply caller_parent_actor]|].
  intros spec Hs. split; [by split|]. intros [] _. done.
Qed.

Lemma fine_run_group label opts parent grants tasks :
  child_agent_grants ctx opts = Ok grants -> parent = actor_id ctx -> fine (run_group label ctx parent grants tasks).
Proof.
  intros Hg Hp. unfold run_group. cbv zeta. apply even_then; [fines|]. intros supervisor.
  apply even_then; [unfold set_supervision_policy_for_session; fines|]. intros _.
  apply even_then; [eapply even_mono; [apply (even_map _ _ (fun _ => True))|done]; intros task _; fines|].
  intros planned. apply even_then.
  { apply fine_track. apply Forall_fmap, Forall_true. by intros [[id task] at_]. }
  intros tracked. apply even_have. intros _ _. eapply even_bind; [apply (even_map _ _ (covered cs))|].
  - intros [[id task] at_] _. by eapply fine_launch.
  - intros specs Hs. split; [by split|]. intros results _. done.
Qed.

Lemma fine_agents_parallel args : fine (agents_parallel executor_set args ctx).
Proof.
  unfold agents_parallel. do 3 (apply even_have; intros ? ?). destruct a1 as [|t ts]; [fines|].
  destruct (_ <? _)%N; [fines|]. fines. eapply fine_run_group; [done|by apply caller_parent_actor].
Qed.

Lemma fine_run_stages opts parent grants stages : forall index inputs outputs,
  child_agent_grants ctx opts = Ok grants -> parent = actor_id ctx ->
  fine (run_stages ctx parent grants index stages inputs outputs).
Proof.
  induction stages as [|stage stages IH]; intros index inputs outputs Hg Hp; cbn [run_stages]; [fines|].
  apply even_have. intros tasks _. apply fine_try; [|intros digests; by apply IH].
  unfold run_pipeline_wave. destruct (_ <? _)%N; [fines|]. by eapply fine_run_group.
Qed.

Lemma fine_agents_pipeline args : fine (agents_pipeline executor_set args ctx).
Proof.
  unfold agents_pipeline. do 3 (apply even_have; intros ? ?). destruct (_ <? _)%N; [fines|]. cbv zeta.
  destruct (_ <? _)%N; [fines|]. fines. eapply fine_run_stages; [done|by apply caller_parent_actor].
Qed.

(** ** Messages *)

Lemma fine_ensure_inbox session id : fine (ensure_inbox session id).
Proof. unfold ensure_inbox. fines. Qed.

Lemma fine_send_checked session m : fine (send_checked session m).
Proof.
  unfold send_checked, send_message_for_session, is_reachable, get_for_session, maybe_emit_message. fines.
  apply fine_ensure_inbox.
Qed.

Lemma fine_broadcast_to session sender text targets : forall receipts,
  fine (broadcast_to session sender text targets receipts).
Proof.
  induction targets as [|target targets IH]; intros receipts; cbn [broadcast_to]; [fines|].
  apply even_then; [fines|]. intros at_. apply fine_try; [apply fine_send_checked|]. intros receipt. apply IH.
Qed.

Lemma fine_agents_broadcast args : fine (agents_broadcast args ctx).
Proof.
  unfold agents_broadcast, live_direct_children_for_session. fines. apply fine_broadcast_to.
Qed.

Lemma fine_agents_cancel args : fine (agents_cancel args ctx).
Proof.
  unfold agents_cancel, get_for_session. cbv zeta. fines. apply even_cancel_actor.
Qed.

Lemma fine_reject session waiter target field : fine (reject_descendant_wait session waiter target field).
Proof. unfold reject_descendant_wait, would_wait_on_descendant_for_session, is_descendant_of_for_session. fines. Qed.

Lemma fine_wait_rounds session id sender deadline : forall fuel, fine (wait_rounds fuel session id sender deadline).
Proof.
  induction fuel as [|fuel IH]; cbn [wait_rounds]; [fines|]. unfold is_cancelled_for_session. cbv zeta. fines.
  unfold wait_for_message_for_session.
  apply even_then; [apply fine_ensure_inbox|]. intros box. apply even_then; [apply even_ticks|]. fines.
Qed.

Lemma fine_wait session id sender timeout : fine (wait_for_actor_message_or_cancel session id sender timeout).
Proof. unfold wait_for_actor_message_or_cancel. fines. apply fine_wait_rounds. Qed.

Lemma fine_agents_send args : fine (agents_send args ctx).
Proof.
  unfold agents_send. cbv zeta. fines; [apply fine_reject|apply fine_send_checked|apply fine_wait].
Qed.

Lemma fine_agents_wait args : fine (agents_wait args ctx).
Proof. unfold agents_wait. fines; [apply fine_reject|apply fine_wait]. Qed.

Lemma fine_agents_inbox args : fine (agents_inbox args ctx).
Proof.
  unfold agents_inbox, drain_inbox_for_session. fines. apply fine_ensure_inbox.
Qed.

Lemma fine_agents_list args : fine (agents_list args ctx).
Proof.
  unfold agents_list, list_for_session. fines. eapply even_mono; [apply (even_map _ _ (fun _ => True))|done].
  intros record _. unfold unread_count_for_session, last_activity_for_session. fines.
Qed.

(** Every function of the registry of host functions. *)
Lemma fine_function name f args : In (name, f) (agents_functions executor_set) -> fine (f args ctx;; mret tt).
Proof.
  intros Hin. apply even_then; [|fines]. unfold agents_functions in Hin.
  repeat (destruct Hin as [[= <- <-]|Hin]; [|]); [..|done].
  - apply fine_agents_run.
  - apply fine_agents_spawn.
  - apply fine_agents_parallel.
  - apply fine_agents_pipeline.
  - apply fine_agents_send.
  - apply fine_agents_broadcast.
  - apply fine_agents_cancel.
  - apply fine_agents_wait.
  - apply fine_agents_inbox.
  - apply fine_agents_list.
Qed.
End Functions.
