(* ===== verification/AgentsSafety.v ===== *)
(** * Actors act for calls, and cancellations arrive

    The theorems about systems of agents, for every interleaving of calls, workers
    and waves and every answer of executors and clocks, from the invariant of the
    registry. *)

From coqutil Require Import Datatypes.RecordSetters.
From stdpp Require Import base tactics list gmap strings.
From Stdlib Require Import NArith ZArith Lia.
From S2P Require Import Prelude BTree Text Catalog Value Strings Host Render Supervise Inbox Redaction ServerBase Io Actors Agents AgentsPool AgentsFacts.
Import DoubleBraceUpdate.

(** ** Invariants of the registry of actors

    Every section keeps the addresses of tokens valid, the records under their own
    names, the templates covered by calls that were made, and what is owed: an actor
    that is marked as cancelled has its current token tripped, or some thread still
    owes that. *)

Definition is_marked (r : MailboxRegistry) (key : ActorKey) : Prop :=
  exists rec, actors r !! key = Some rec /\ rec_cancelled rec = true.

Definition is_tripped (r : MailboxRegistry) (key : ActorKey) : Prop :=
  exists token, cancel_tokens r !! key = Some token /\ token_flags r !! token = Some true.

(** Someone owes the cancellation of the actor's current token, or its next record. *)
Definition owed (r : MailboxRegistry) (ds : list Debt) (key : ActorKey) : Prop :=
  In (OwesTrip key) ds \/ In (OwesReset key) ds
  \/ exists token, In (OwesToken key token) ds /\ cancel_tokens r !! key = Some token.

Definition settled (ds : list Debt) (r : MailboxRegistry) : Prop :=
  forall key, is_marked r key -> is_tripped r key \/ owed r ds key.

Definition tokens_ok (r : MailboxRegistry) : Prop :=
  forall key token, cancel_tokens r !! key = Some token -> (token < length (token_flags r))%nat.

Definition keyed (r : MailboxRegistry) : Prop :=
  forall key rec, actors r !! key = Some rec -> rec_id rec = key.2.

Definition templates_covered (cs : list InvocationCtx) (r : MailboxRegistry) : Prop :=
  forall key t, restart_templates r !! key = Some t -> covered cs (template_to_spec t 0).

(** Where calls may be dropped nothing is known about what is owed. *)
Definition registry_inv (strict : bool) (cs : list InvocationCtx) (ds : list Debt) (r : MailboxRegistry) : Prop :=
  tokens_ok r /\ keyed r /\ templates_covered cs r /\ (strict = true -> settled ds r).

(** ** Frames *)

Definition same_cells (r r' : MailboxRegistry) : Prop :=
  actors r' = actors r /\ cancel_tokens r' = cancel_tokens r /\ token_flags r' = token_flags r
  /\ restart_templates r' = restart_templates r.

Lemma same_cells_inv strict cs ds r r' : same_cells r r' -> registry_inv strict cs ds r -> registry_inv strict cs ds r'.
Proof.
  intros (E1 & E2 & E3 & E4) (Ht & Hk & Hc & Hs).
  unfold registry_inv, tokens_ok, keyed, templates_covered, settled, is_marked, is_tripped, owed.
  rewrite E1, E2, E3, E4. done.
Qed.

Lemma owed_more r ds ds' key : owed r ds key -> incl ds ds' -> owed r ds' key.
Proof. intros [Ho|[Ho|(token & Ho & Ht)]] Hi; [left|right; left|right; right; exists token]; auto. Qed.

Lemma settled_more r ds ds' : settled ds r -> incl ds ds' -> settled ds' r.
Proof. intros Hs Hi key Hm. destruct (Hs key Hm); [by left|right; by eapply owed_more]. Qed.

(** ** Changes of one record *)

(** A record is replaced by one that is marked only if the old one was, or if a trip
    is owed now. *)
Lemma put_record_inv strict cs ds r key rec :
  registry_inv strict cs ds r -> rec_id rec = key.2 ->
  (rec_cancelled rec = true -> is_marked r key \/ In (OwesTrip key) ds) ->
  registry_inv strict cs ds (r {{ actors ::= <[key := rec]> }}).
Proof.
  intros (Ht & Hk & Hc & Hs) Hid Hm. split_and!; [done| |done|].
  - intros key' rec' Hl. cbn in Hl. destruct (decide (key = key')) as [<-|Hne].
    + by rewrite lookup_insert_eq in Hl; simplify_eq.
    + rewrite lookup_insert_ne in Hl by done. by apply Hk.
  - intros Hst key' (rec' & Hl & Hr'). cbn in Hl. destruct (decide (key = key')) as [<-|Hne].
    + rewrite lookup_insert_eq in Hl. injection Hl as <-. destruct (Hm Hr') as [Hm'|Ho]; [by apply Hs|right; by left].
    + rewrite lookup_insert_ne in Hl by done. apply (Hs Hst). by exists rec'.
Qed.

Lemma new_token_inv strict cs ds r : registry_inv strict cs ds r -> registry_inv strict cs ds (new_token r).2.
Proof.
  intros (Ht & Hk & Hc & Hs). split_and!; [|done|done|].
  - intros key token Hl. change (cancel_tokens r !! key = Some token) in Hl. specialize (Ht _ _ Hl).
    change (token < length (token_flags r ++ [false]))%nat. rewrite length_app. lia.
  - intros Hst key Hm. destruct (Hs Hst key Hm) as [(token & Hl & Hf)|Ho]; [left|by right].
    exists token. split; [done|]. cbn. rewrite lookup_app_l; [done|]. by apply Ht in Hl.
Qed.

(** A new token for an actor that had none, or whose record will be reset. *)
Lemma put_token_inv strict cs ds r key token :
  registry_inv strict cs ds r -> (token < length (token_flags r))%nat ->
  cancel_tokens r !! key = None \/ In (OwesReset key) ds ->
  registry_inv strict cs ds (r {{ cancel_tokens ::= <[key := token]> }}).
Proof.
  intros (Ht & Hk & Hc & Hs) Hlen Hfree. split_and!; [|done|done|].
  - intros key' token' Hl. cbn in Hl. destruct (decide (key = key')) as [<-|Hne].
    + rewrite lookup_insert_eq in Hl. by injection Hl as <-.
    + rewrite lookup_insert_ne in Hl by done. by eapply Ht.
  - intros Hst key' Hm. destruct (decide (key = key')) as [<-|Hne].
    + destruct Hfree as [Hnone|Ho]; [|right; right; by left].
      destruct (Hs Hst key Hm) as [(t & Hl & _)|[Ho|[Ho|(t & _ & Hl)]]]; [congruence| | |congruence].
      * right. by left.
      * right. right. by left.
    + destruct (Hs Hst key' Hm) as [(t & Hl & Hf)|[Ho|[Ho|(t & Ho & Hl)]]].
      * left. exists t. split; [|done]. cbn. by rewrite lookup_insert_ne.
      * right. by left.
      * right. right. by left.
      * right. right. right. exists t. split; [done|]. cbn. by rewrite lookup_insert_ne.
Qed.

Lemma entry_token_inv strict cs ds r key :
  registry_inv strict cs ds r -> registry_inv strict cs ds (entry_token key r).2.
Proof.
  intros Hi. unfold entry_token. destruct (cancel_tokens r !! key) as [token|] eqn:E; [done|].
  apply (put_token_inv strict cs ds (new_token r).2).
  - by apply new_token_inv.
  - change (length (token_flags r) < length (token_flags r ++ [false]))%nat. rewrite length_app. cbn. lia.
  - by left.
Qed.

Lemma entry_token_current key r : cancel_tokens (entry_token key r).2 !! key = Some (entry_token key r).1.
Proof.
  unfold entry_token. destruct (cancel_tokens r !! key) as [token|] eqn:E; [done|]. cbn. by rewrite lookup_insert_eq.
Qed.

Lemma on_supervisor_cells {A} key (f : Supervisor -> A * Supervisor) r : same_cells r (on_supervisor key f r).2.
Proof. unfold on_supervisor. by destruct (f _). Qed.

Lemma on_box_cells {A} box (f : ActorInbox -> A * ActorInbox) r : same_cells r (on_box box f r).2.
Proof. unfold on_box. by destruct (f _). Qed.

Lemma entry_inbox_cells key r : same_cells r (entry_inbox key r).2.
Proof. unfold entry_inbox. by destruct (inboxes r !! key). Qed.

Lemma track_one_inv strict cs ds r session entry :
  registry_inv strict cs ds r -> rec_cancelled entry.1 = false ->
  registry_inv strict cs ds (track_one session entry r).
Proof.
  destruct entry as [record supervisor]. intros Hi Hc. unfold track_one.
  eapply same_cells_inv; [apply on_supervisor_cells|]. eapply same_cells_inv; [by split_and!|].
  apply entry_token_inv. eapply same_cells_inv; [apply entry_inbox_cells|].
  apply put_record_inv; [done|done|]. cbn in Hc. congruence.
Qed.

Lemma track_batch_inv strict cs ds r session records :
  registry_inv strict cs ds r -> Forall (fun e => rec_cancelled e.1 = false) records ->
  registry_inv strict cs ds (track_batch_locked session records r).2.
Proof.
  intros Hi Hr. unfold track_batch_locked. destruct (_ <? _)%nat; [done|]. cbn. revert r Hi.
  induction Hr as [|e records He _ IH]; intros r Hi; [done|]. cbn. apply IH. by apply track_one_inv.
Qed.

(** ** Every section *)

Lemma in_learn key token ds d : In d (learn key token ds) <-> (In d ds /\ d <> OwesTrip key) \/ (d = OwesToken key token /\ In (OwesTrip key) ds).
Proof.
  unfold learn. change (In d (List.map (fun d => if decide (d = OwesTrip key) then OwesToken key token else d) ds)
    <-> (In d ds /\ d <> OwesTrip key) \/ (d = OwesToken key token /\ In (OwesTrip key) ds)).
  rewrite in_map_iff. split.
  - intros (d' & <- & Hd'). case_decide as Hd; [right; by rewrite <- Hd|left; by split].
  - intros [[Hd Hne]|[-> Ht]]; [exists d|exists (OwesTrip key)]; (split; [|done]).
    + by rewrite decide_False.
    + by rewrite decide_True.
Qed.

Lemma in_settle P ds d : In d (settle_debts P ds) <-> In d ds /\ P d = false.
Proof. unfold settle_debts. rewrite filter_In. by rewrite negb_true_iff. Qed.

(** Debts after a look at the token of an actor. *)
Lemma learn_inv strict cs d rest r key token :
  registry_inv strict cs (d ++ rest) r -> cancel_tokens r !! key = Some token ->
  registry_inv strict cs (learn key token d ++ rest) r.
Proof.
  intros (Ht & Hk & Hc & Hs) Hl. split_and!; [done..|]. intros Hst key' Hm.
  destruct (Hs Hst key' Hm) as [?|Ho]; [by left|right].
  destruct Ho as [Ho|[Ho|(t & Ho & Ht')]]; rewrite in_app_iff in Ho; destruct Ho as [Ho|Ho].
  - destruct (decide (key' = key)) as [->|Hne].
    + right. right. exists token. split; [|done]. apply in_app_iff. left. apply in_learn. by right.
    + left. apply in_app_iff. left. apply in_learn. left. split; [done|]. congruence.
  - left. apply in_app_iff. by right.
  - right. left. apply in_app_iff. left. apply in_learn. by left.
  - right. left. apply in_app_iff. by right.
  - right. right. exists t. split; [|done]. apply in_app_iff. left. apply in_learn. by left.
  - right. right. exists t. split; [|done]. apply in_app_iff. by right.
Qed.

Lemma trip_inv strict cs d rest r token :
  registry_inv strict cs (d ++ rest) r ->
  registry_inv strict cs
    (settle_debts (fun d => match d with OwesToken _ t => (t =? token)%nat | _ => false end) d ++ rest) (trip_token token r).
Proof.
  intros (Ht & Hk & Hc & Hs). split_and!; [|done|done|].
  - intros key t Hl. specialize (Ht key t Hl). change (t < length (<[token := true]> (token_flags r)))%nat.
    by rewrite length_insert.
  - intros Hst key Hm. specialize (Hs Hst key Hm).
    assert (Hkeep : forall t, cancel_tokens r !! key = Some t ->
      token_flags r !! t = Some true \/ t = token -> is_tripped (trip_token token r) key).
    { intros t Hl Hf. exists t. split; [done|]. change (<[token := true]> (token_flags r) !! t = Some true).
      destruct (decide (token = t)) as [<-|Hne]; [apply list_lookup_insert_eq; by apply Ht in Hl|].
      rewrite list_lookup_insert_ne by done. by destruct Hf. }
    destruct Hs as [(t & Hl & Hf)|Ho]; [left; eauto|].
    destruct Ho as [Ho|[Ho|(t & Ho & Hl)]].
    + right. left. rewrite in_app_iff in *. destruct Ho; [left; by apply in_settle|by right].
    + right. right. left. rewrite in_app_iff in *. destruct Ho; [left; by apply in_settle|by right].
    + destruct (decide (t = token)) as [->|Hne]; [left; eauto|right; right; right]. exists t. split; [|done].
      rewrite in_app_iff in *. destruct Ho; [left|by right]. apply in_settle. split; [done|]. by apply Nat.eqb_neq.
Qed.

Lemma reset_inv strict cs d rest r (key : ActorKey) id t at_ :
  registry_inv strict cs (d ++ rest) r -> key.2 = id ->
  registry_inv strict cs (settle_debts (fun d => bool_decide (d = OwesReset key)) d ++ rest) (reset_record id t at_ r key).
Proof.
  intros Hi Hid. assert (Hput : registry_inv strict cs (d ++ rest) (reset_record id t at_ r key)).
  { unfold reset_record. destruct (actors r !! key) as [rec|] eqn:E; (apply put_record_inv; [done| |done]); [|by symmetry].
    destruct Hi as (_ & Hk & _). apply Hk in E. exact E. }
  destruct Hput as (Ht & Hk & Hc & Hs). split_and!; [done..|]. intros Hst key' Hm.
  destruct (Hs Hst key' Hm) as [?|Ho]; [by left|right].
  assert (Hne : key' <> key).
  { intros ->. destruct Hm as (rec & Hl & Hr). unfold reset_record in Hl. cbn in Hl. rewrite lookup_insert_eq in Hl.
    by injection Hl as <-. }
  destruct Ho as [Ho|[Ho|(tok & Ho & Hl)]]; rewrite in_app_iff in Ho.
  - left. rewrite in_app_iff. destruct Ho; [left; apply in_settle; by rewrite bool_decide_false|by right].
  - right. left. rewrite in_app_iff. destruct Ho; [left; apply in_settle; rewrite bool_decide_false by congruence|by right].
    done.
  - right. right. exists tok. split; [|done]. rewrite in_app_iff.
    destruct Ho; [left; apply in_settle; by rewrite bool_decide_false|by right].
Qed.

Lemma owe_inv strict cs d rest r debt :
  registry_inv strict cs (d ++ rest) r -> registry_inv strict cs (owes debt d ++ rest) r.
Proof.
  intros (Ht & Hk & Hc & Hs). split_and!; [done..|]. intros Hst. eapply settled_more; [by apply Hs|]. apply incl_tl, incl_refl.
Qed.

Lemma section_inv strict cs d rest s r :
  registry_inv strict cs (d ++ rest) r -> asks_well cs d (Locked s) ->
  may_answer cs (Locked s) (run_section s r).1
  /\ registry_inv strict cs (debts_after (Locked s) (run_section s r).1 d ++ rest) (run_section s r).2.
Proof.
  intros Hi Hq. assert (Hsame : forall r', same_cells r r' -> registry_inv strict cs (d ++ rest) r')
    by (intros; by eapply same_cells_inv).
  destruct s; cbn [run_section fst snd debts_after may_answer]; try (split; [exact I|]);
    try (apply Hsame; first [by split_and!|apply on_supervisor_cells|apply on_box_cells|apply entry_inbox_cells]).
  - by apply track_batch_inv.
  - destruct Hi as (Ht & Hk & Hc & Hs). split_and!; [done| |done|].
    + intros key' rec Hl. cbn in Hl. rewrite lookup_alter_Some in Hl.
      destruct Hl as [(<- & rec' & Hl & ->)|[_ Hl]]; [by apply Hk in Hl|by apply Hk].
    + intros Hst key' (rec & Hl & Hr). apply (Hs Hst). cbn in Hl. rewrite lookup_alter_Some in Hl.
      destruct Hl as [(<- & rec' & Hl & ->)|[_ Hl]]; [by exists rec'|by exists rec].
  - unfold complete_locked. destruct (actors r !! key) as [rec|] eqn:E; [|done].
    destruct (rec_cancelled rec || _) eqn:Ec; [done|]. apply orb_false_iff in Ec as [Ec _].
    apply put_record_inv; [done| |].
    + destruct Hi as (_ & Hk & _). apply Hk in E. by destruct resources as [[]|].
    + intros Hr. exfalso. destruct resources as [[]|]; change (rec_cancelled rec = true) in Hr; congruence.
  - unfold fail_locked. destruct (actors r !! key) as [rec|] eqn:E; [|done].
    destruct (rec_cancelled rec) eqn:Ec; [done|]. cbn.
    assert (Hid : rec_id rec = key.2) by (by destruct Hi as (_ & Hk & _); apply Hk in E).
    destruct reason; cbn; (apply put_record_inv; [try done; by apply owe_inv|done|]); cbn; try done.
    intros _. right. by left.
  - unfold cancel_locked. destruct (actors r !! key) as [rec|] eqn:E; [|done].
    destruct (rec_cancelled rec) eqn:Ec; cbn; [by apply owe_inv|]. case_bool_decide; cbn; [done|].
    apply put_record_inv; [by apply owe_inv| |by intros _; right; left].
    destruct Hi as (_ & Hk & _). by apply Hk in E.
  - destruct (cancel_tokens r !! key) as [token|] eqn:E; [|done]. by apply learn_inv.
  - apply learn_inv; [by apply entry_token_inv|apply entry_token_current].
  - by apply trip_inv.
  - destruct Hi as (Ht & Hk & Hc & Hs). split_and!; [done..| |done].
    intros key' t' Hl. cbn in Hl. destruct (decide (key = key')) as [<-|Hne].
    + rewrite lookup_insert_eq in Hl. by injection Hl as <-.
    + rewrite lookup_insert_ne in Hl by done. by eapply Hc.
  - destruct Hi as (Ht & Hk & Hc & Hs). split; [|done].
    destruct (restart_templates r !! key) as [t|] eqn:E; [by eapply Hc|done].
  - apply (put_token_inv strict cs _ (new_token r).2).
    + apply owe_inv. by apply new_token_inv.
    + change (length (token_flags r) < length (token_flags r ++ [false]))%nat. rewrite length_app. cbn. lia.
    + right. by left.
  - by apply reset_inv.
  - destruct (record_message session m (message_log r)) as [result log]. by apply Hsame.
Qed.

(** A part of the system that is about to ask. *)
Inductive asking (s : System) (q : Query) : Prop :=
| asking_call k : In (Runs (Ask q k)) (host_calls s) -> asking s q
| asking_child all done window waiting k c :
    In (Awaits all done window waiting k) (host_calls s) -> In (Ask q c) window -> asking s q
| asking_worker k : In (Ask q k) (workers s) -> asking s q.

Section Safety.
Context `{UnicodeTables} `{ActorText} `{JsonNumber} `{!JsonUnsigned} `{!TextJson} `{!JsonText} `{RegexEngine}.
Variable executor_set : bool.

(** ** The invariant *)

Definition part_ok {A} (cs : list InvocationCtx) (d : list Debt) (p : Prog A) : Prop :=
  forall cs', incl cs cs' -> obeys (asks_well cs') (may_answer cs') (fun d' _ => d' = []) d p.

Definition thread_ok (cs : list InvocationCtx) (t : Thread) (ds : list (list Debt)) : Prop :=
  match t with
  | Runs p => exists d, ds = [d] /\ part_ok cs d p
  | Awaits all done window waiting k =>
      Forall2 (fun p d => part_ok cs d p) window ds /\ Forall (covered cs) waiting
      /\ forall results, part_ok cs [] (k results)
  end.

Definition system_ok (strict : bool) (s : System) : Prop :=
  exists dts dws,
    Forall2 (thread_ok (started s)) (host_calls s) dts
    /\ Forall2 (fun p d => part_ok (started s) d p) (workers s) dws
    /\ registry_inv strict (started s) (concat (concat dts) ++ concat dws) (registry s).

Lemma part_ok_more {A} cs cs' d (p : Prog A) : part_ok cs d p -> incl cs cs' -> part_ok cs' d p.
Proof. intros Hp Hi cs'' Hi'. apply Hp. exact (incl_tran Hi Hi'). Qed.

Lemma thread_ok_more cs cs' t ds : thread_ok cs t ds -> incl cs cs' -> thread_ok cs' t ds.
Proof.
  intros Ht Hi. destruct t as [p|all done window waiting k]; cbn in *.
  - destruct Ht as (d & -> & Hp). exists d. split; [done|]. exact (part_ok_more _ _ _ _ Hp Hi).
  - destruct Ht as (Hw & Hc & Hk). split_and!.
    + eapply Forall2_impl; [exact Hw|]. intros p d Hp. exact (part_ok_more _ _ _ _ Hp Hi).
    + eapply Forall_impl; [exact Hc|]. intros spec Hs. by eapply covered_more.
    + intros results. exact (part_ok_more _ _ _ _ (Hk results) Hi).
Qed.

Lemma registry_inv_debts strict cs ds ds' r :
  registry_inv strict cs ds r -> incl ds ds' -> registry_inv strict cs ds' r.
Proof.
  intros (Ht & Hk & Hc & Hs) Hi. split_and!; [done..|]. intros Hst. eapply settled_more; [by apply Hs|done].
Qed.

Lemma fine_part {A} cs (p : Prog A) : (forall cs', incl cs cs' -> even cs' [] (fun _ => True) p) -> part_ok cs [] p.
Proof. intros Hp cs' Hi. eapply obeys_mono; [by apply Hp|]. by intros d a [-> _]. Qed.

(** One question of one part. *)
Lemma prog_step_ok {A} strict cs d rest (p p' : Prog A) r r' spawned :
  prog_step executor_set p r p' r' spawned -> part_ok cs d p -> registry_inv strict cs (d ++ rest) r ->
  exists d', part_ok cs d' p' /\ registry_inv strict cs (d' ++ rest) r' /\ Forall (part_ok cs []) spawned.
Proof.
  intros [q k r0 a r1 ws Ha] Hp Hi. destruct (Hp cs (incl_refl _)) as [Hq _].
  exists (debts_after q a d).
  assert (Hnext : (forall cs', incl cs cs' -> may_answer cs' q a) -> part_ok cs (debts_after q a d) (k a)).
  { intros Hm cs' Hi'. destruct (Hp cs' Hi') as [_ Hk]. by apply Hk, Hm. }
  destruct Ha as [s r0|r0 t|spec r0 ended|id spec r0|slice r0 n].
  - destruct (section_inv strict cs d rest s r0 Hi Hq) as [Hm Hr]. split_and!; [|done|done].
    apply Hnext. intros cs' Hi'. destruct s; cbn in Hm |- *; try done.
    destruct (restart_templates r0 !! key); [|done]. by eapply covered_more.
  - split_and!; [by apply Hnext|done|done].
  - split_and!; [by apply Hnext|done|done].
  - split_and!; [by apply Hnext|done|]. constructor; [|done]. apply fine_part. intros cs' Hi'. apply fine_worker.
    destruct Hq as [_ Hc]. by eapply covered_more.
  - split_and!; [by apply Hnext|done|done].
Qed.

Lemma concat_replace {A} (pre post : list (list A)) (d : list A) :
  forall x, In x (concat (pre ++ d :: post)) <-> In x (d ++ concat (pre ++ post)).
Proof. intros x. rewrite !concat_app. cbn. rewrite !in_app_iff. tauto. Qed.

Lemma children_ok cs l :
  Forall (covered cs) l -> Forall2 (fun p d => part_ok cs d p) (wave_child executor_set <$> l) (replicate (length l) []).
Proof.
  induction 1 as [|spec l Hs _ IH]; cbn; [constructor|]. constructor; [|done].
  apply fine_part. intros cs' Hi. apply fine_wave_child. by eapply covered_more.
Qed.

Lemma fill_ok cs window waiting ds :
  Forall2 (fun p d => part_ok cs d p) window ds -> Forall (covered cs) waiting ->
  exists n, Forall2 (fun p d => part_ok cs d p) (fill executor_set window waiting).1 (ds ++ replicate n [])
  /\ Forall (covered cs) (fill executor_set window waiting).2.
Proof.
  intros Hw Hc. unfold fill. cbv zeta. eexists. split; [|by apply Forall_drop].
  apply Forall2_app; [done|]. by apply children_ok, Forall_take.
Qed.

Lemma concat_empty {A} n : concat (replicate n (@nil A)) = [].
Proof. by induction n. Qed.

(** One step of one host call. *)
Lemma thread_step_ok strict cs ds rest t t' r r' spawned :
  thread_step executor_set t r t' r' spawned -> thread_ok cs t ds ->
  registry_inv strict cs (concat ds ++ rest) r ->
  exists ds', thread_ok cs t' ds' /\ registry_inv strict cs (concat ds' ++ rest) r' /\ Forall (part_ok cs []) spawned.
Proof.
  intros Hs Ht Hi. destruct Hs as [p r p' r' spawned Hs|specs k r|all done pre p p' post waiting k r r' spawned Hs
    |all done result window waiting k r|all done k r].
  - destruct Ht as (d & -> & Hp). cbn in Hi. rewrite app_nil_r in Hi.
    destruct (prog_step_ok _ _ _ _ _ _ _ _ _ Hs Hp Hi) as (d' & Hp' & Hr & Hw). exists [d'].
    split_and!; [by exists d'| |done]. cbn. by rewrite app_nil_r.
  - destruct Ht as (d & -> & Hp). destruct (Hp cs (incl_refl _)) as [[-> Hc] _].
    destruct (fill_ok cs [] specs [] (List.Forall2_nil _) Hc) as (n & Hw & Hrest). exists (replicate n []).
    split_and!; [split_and!; [done|done|]| |done].
    + intros results cs' Hi'. destruct (Hp cs' Hi') as [_ Hk]. by apply (Hk results).
    + by rewrite concat_empty.
  - destruct Ht as (Hw & Hc & Hk). apply Forall2_app_inv_l in Hw as (dpre & dl & Hpre & Hpost & ->).
    inversion Hpost as [|? d ? dpost Hp Hpost' E1 E2]; subst.
    assert (Hi' : registry_inv strict cs (d ++ concat (dpre ++ dpost) ++ rest) r).
    { eapply registry_inv_debts; [exact Hi|]. intros x. rewrite !in_app_iff, concat_replace, in_app_iff. tauto. }
    destruct (prog_step_ok _ _ _ _ _ _ _ _ _ Hs Hp Hi') as (d' & Hp' & Hr & Hsp). exists (dpre ++ d' :: dpost).
    split_and!; [split_and!; [|done|done]| |done].
    + apply Forall2_app; [done|]. by constructor.
    + eapply registry_inv_debts; [exact Hr|]. intros x. rewrite !in_app_iff, concat_replace, in_app_iff. tauto.
  - destruct Ht as (Hw & Hc & Hk). inversion Hw as [|? d ? ds' Hp Hw' E1 E2]; subst.
    destruct (fill_ok cs window waiting ds' Hw' Hc) as (n & Hf & Hrest). exists (ds' ++ replicate n []).
    split_and!; [by split_and!| |done]. rewrite concat_app, concat_empty, app_nil_r.
    assert (d = []) as -> by exact (Hp cs (incl_refl _)). done.
  - destruct Ht as (Hw & _ & Hk). inversion Hw; subst. exists [[]]. split_and!; [by exists []|done|done].
Qed.

Lemma spawned_ok cs (ws : list (Prog unit)) dws spawned :
  Forall2 (fun p d => part_ok cs d p) ws dws -> Forall (part_ok cs []) spawned ->
  Forall2 (fun p d => part_ok cs d p) (ws ++ spawned) (dws ++ replicate (length spawned) []).
Proof.
  intros Hw Hs. apply Forall2_app; [done|]. induction Hs as [|p l Hp _ IH]; cbn; [constructor|by constructor].
Qed.

Lemma system_step_ok strict s s' : system_step executor_set s s' -> system_ok strict s -> system_ok strict s'.
Proof.
  intros Hs (dts & dws & Ht & Hw & Hi).
  destruct Hs as [name f args ctx r ts ws cs Hf|pre t t' post r r' ws spawned cs Hs|pre p p' post r r' ts spawned cs Hs]; cbn in *.
  - assert (Hmore : incl cs (ctx :: cs)) by apply incl_tl, incl_refl.
    exists (dts ++ [[[]]]), dws. cbn. split_and!.
    + apply Forall2_app; [eapply Forall2_impl; [exact Ht|]; intros; by eapply thread_ok_more|].
      constructor; [|constructor]. exists []. split; [done|]. apply fine_part. intros cs' Hi'.
      eapply fine_function; [apply Hi'; by left|exact Hf].
    + eapply Forall2_impl; [exact Hw|]. intros p d Hp. exact (part_ok_more _ _ _ _ Hp Hmore).
    + rewrite !concat_app. cbn. rewrite !app_nil_r. destruct Hi as (Htok & Hk & Hc & Hst).
      split_and!; [done|done| |done]. intros key t Hl. eapply covered_more; [by eapply Hc|done].
  - apply Forall2_app_inv_l in Ht as (dpre & dl & Hpre & Hpost & ->).
    inversion Hpost as [|? ds ? dpost Hp Hpost' E1 E2]; subst.
    assert (Hi' : registry_inv strict cs (concat ds ++ concat (concat (dpre ++ dpost)) ++ concat dws) r).
    { eapply registry_inv_debts; [exact Hi|]. intros x. rewrite !concat_app. cbn. rewrite !concat_app, !in_app_iff. tauto. }
    destruct (thread_step_ok _ _ _ _ _ _ _ _ _ Hs Hp Hi') as (ds' & Hp' & Hr & Hsp).
    exists (dpre ++ ds' :: dpost), (dws ++ replicate (length spawned) []). cbn. split_and!.
    + apply Forall2_app; [done|]. by constructor.
    + by apply spawned_ok.
    + eapply registry_inv_debts; [exact Hr|]. intros x. rewrite !concat_app. cbn.
      rewrite !concat_app, concat_empty, !in_app_iff. tauto.
  - apply Forall2_app_inv_l in Hw as (dpre & dl & Hpre & Hpost & ->).
    inversion Hpost as [|? d ? dpost Hp Hpost' E1 E2]; subst.
    assert (Hi' : registry_inv strict cs (d ++ concat (concat dts) ++ concat (dpre ++ dpost)) r).
    { eapply registry_inv_debts; [exact Hi|]. intros x. rewrite !in_app_iff, concat_replace, in_app_iff. tauto. }
    destruct (prog_step_ok _ _ _ _ _ _ _ _ _ Hs Hp Hi') as (d' & Hp' & Hr & Hsp).
    exists dts, (dpre ++ d' :: dpost ++ replicate (length spawned) []). cbn. split_and!; [done| |].
    + apply Forall2_app; [done|]. constructor; [done|]. by apply spawned_ok.
    + eapply registry_inv_debts; [exact Hr|]. intros x. rewrite !concat_app. cbn.
      rewrite !concat_app, concat_empty, !in_app_iff. tauto.
Qed.

Lemma drop_thread_inv strict cs ds t r : registry_inv strict cs ds r -> registry_inv strict cs ds (drop_thread t r).
Proof.
  destruct t as [|all results window waiting k]; [done|]. cbn. revert r.
  induction all as [|spec all IH]; intros r Hi; cbn; [done|]. apply IH.
  exact (trip_inv strict cs [] ds r (spec_cancellation spec) Hi).
Qed.

Lemma system_drop_ok s s' : may_drop s s' -> system_ok false s -> system_ok false s'.
Proof.
  intros [pre t post r ws cs] (dts & dws & Ht & Hw & Hi). cbn in *.
  apply Forall2_app_inv_l in Ht as (dpre & dl & Hpre & Hpost & ->).
  inversion Hpost as [|? ds ? dpost Hp Hpost' E1 E2]; subst. exists (dpre ++ dpost), dws. cbn.
  split_and!; [by apply Forall2_app|done|]. apply drop_thread_inv.
  destruct Hi as (Htok & Hk & Hc & _). by split_and!.
Qed.

Lemma system_new_ok strict : system_ok strict system_new.
Proof.
  exists [], []. split_and!; [constructor..|].
  assert (Hempty : forall (A : Type) (key : ActorKey) (a : A), (∅ : gmap ActorKey A) !! key = Some a -> False).
  { intros A key a. by rewrite lookup_empty. }
  split_and!.
  - intros key token Hl. by apply Hempty in Hl.
  - intros key rec Hl. by apply Hempty in Hl.
  - intros key t Hl. by apply Hempty in Hl.
  - intros _ key (rec & Hl & _). by apply Hempty in Hl.
Qed.

Lemma reachable_drop_ok s : reachable (step_or_drop executor_set) s -> system_ok false s.
Proof.
  induction 1 as [|s s' _ IH [Hs|Hs]]; [apply system_new_ok|by eapply system_step_ok|by eapply system_drop_ok].
Qed.

(** The questions of a system satisfy what its parts keep to. *)
Lemma asking_well strict s q : system_ok strict s -> asking s q -> exists d, asks_well (started s) d q.
Proof.
  intros (dts & dws & Ht & Hw & _) [k Hin|all done window waiting k c Hin Hc|k Hin].
  - apply list_elem_of_In, list_elem_of_lookup_1 in Hin as [i Hi].
    destruct (Forall2_lookup_l _ _ _ _ _ Ht Hi) as (ds & _ & d & -> & Hp).
    destruct (Hp _ (incl_refl _)) as [Hq _]. by exists d.
  - apply list_elem_of_In, list_elem_of_lookup_1 in Hin as [i Hi].
    destruct (Forall2_lookup_l _ _ _ _ _ Ht Hi) as (ds & _ & Hwin & _).
    apply list_elem_of_In, list_elem_of_lookup_1 in Hc as [j Hj].
    destruct (Forall2_lookup_l _ _ _ _ _ Hwin Hj) as (d & _ & Hp). destruct (Hp _ (incl_refl _)) as [Hq _]. by exists d.
  - apply list_elem_of_In, list_elem_of_lookup_1 in Hin as [i Hi].
    destruct (Forall2_lookup_l _ _ _ _ _ Hw Hi) as (d & _ & Hp). destruct (Hp _ (incl_refl _)) as [Hq _]. by exists d.
Qed.

(** ** Theorems *)

(** C26: Actors act for calls.  Whatever happens side by side, calls that are dropped
    included, every actor that is handed to the executor, be it started by
    [agents.run], [agents.spawn], a wave or a restart, acts for a call that was made: in
    the session and the project of the call, as a child of its caller, with grants
    each of which the call holds itself, and which permit nothing of the server's
    control planes.  Provided that no grant of the call is a pattern of a pattern (as
    a.*.* is), the actor's grants permit nothing the call was not granted.  The grants
    of an actor are never such patterns, so this holds for every call that an actor
    makes with its own grants. *)
Theorem actors_authorized s spec :
  reachable (step_or_drop executor_set) s -> asking s (RunActor spec) ->
  exists ctx, In ctx (started s) /\ authorized ctx spec
    /\ (plain_grants (ctx_grants ctx) -> forall name,
         host_permits (spec_grants spec) name = true -> host_permits (ctx_grants ctx) name = true).
Proof.
  intros Hr Ha. destruct (asking_well false s _ (reachable_drop_ok s Hr) Ha) as (d & _ & ctx & Hin & Hc).
  exists ctx. split; [done|]. split; [done|]. intros Hp. apply grants_within; [done|apply Hc].
Qed.

(** Waiting for an actor or for a message. *)
Definition waits (q : Query) : bool := match q with RunActor _ | WaitTicks _ => true | _ => false end.

Lemma resting_part {A} cs d (p : Prog A) :
  part_ok cs d p -> (forall q k, p = Ask q k -> waits q = true) -> d = [].
Proof.
  intros Hp Hw. specialize (Hp cs (incl_refl _)). destruct p as [a|q k]; [exact Hp|].
  destruct Hp as [Hq _]. specialize (Hw q k eq_refl). destruct q; try done. by destruct Hq.
Qed.

Lemma resting_parts {A} cs (ps : list (Prog A)) ds :
  Forall2 (fun p d => part_ok cs d p) ps ds -> (forall q k, In (Ask q k) ps -> waits q = true) -> concat ds = [].
Proof.
  induction 1 as [|p d ps ds Hp _ IH]; intros Hw; [done|]. cbn.
  rewrite (resting_part cs d p Hp), IH; [done| |].
  - intros q k Hin. eapply Hw. by right.
  - intros q k ->. eapply Hw. by left.
Qed.

Lemma resting_threads cs ts dts :
  Forall2 (thread_ok cs) ts dts ->
  (forall q k, In (Runs (Ask q k)) ts -> waits q = true) ->
  (forall q k results all window waiting c, In (Awaits all results window waiting c) ts -> In (Ask q k) window -> waits q = true) ->
  concat (concat dts) = [].
Proof.
  induction 1 as [|t ds ts dts Ht _ IH]; intros Hr Hw; [done|]. cbn. rewrite concat_app, IH.
  - rewrite app_nil_r. destruct t as [p|all results window waiting c]; cbn in Ht.
    + destruct Ht as (d & -> & Hp). cbn. rewrite app_nil_r. eapply resting_part; [exact Hp|].
      intros q k ->. eapply Hr. by left.
    + destruct Ht as (Hp & _). eapply resting_parts; [exact Hp|]. intros q k Hin. eapply Hw; [by left|exact Hin].
  - intros q k Hin. eapply Hr. by right.
  - intros q k results all window waiting c Hin. eapply Hw. by right.
Qed.

(** A call that waits for an actor or for a message, in all its parts. *)
Definition part_waits {A} (p : Prog A) : Prop := match p with Ret _ => True | Ask q _ => waits q = true end.

Definition thread_waits (t : Thread) : Prop :=
  match t with Runs p => part_waits p | Awaits _ _ window _ _ => Forall part_waits window end.

(** Steps of the system, and calls that are dropped while they wait. *)
Inductive step_or_leave : System -> System -> Prop :=
| leave_step s s' : system_step executor_set s s' -> step_or_leave s s'
| leave_waiting pre t post r ws cs :
    thread_waits t ->
    step_or_leave (mkSystem r (pre ++ t :: post) ws cs) (mkSystem (drop_thread t r) (pre ++ post) ws cs).

Lemma waiting_parts {A} cs (ps : list (Prog A)) ds :
  Forall2 (fun p d => part_ok cs d p) ps ds -> Forall part_waits ps -> concat ds = [].
Proof.
  intros Hp Hw. eapply resting_parts; [exact Hp|]. rewrite List.Forall_forall in Hw. intros q k Hin. exact (Hw _ Hin).
Qed.

Lemma waiting_thread cs t ds : thread_ok cs t ds -> thread_waits t -> concat ds = [].
Proof.
  destruct t as [p|all results window waiting c]; cbn.
  - intros (d & -> & Hp) Hw. cbn. rewrite app_nil_r. eapply resting_part; [exact Hp|]. by intros q k ->.
  - intros (Hp & _) Hw. by eapply waiting_parts.
Qed.

Lemma reachable_leave_ok s : reachable step_or_leave s -> system_ok true s.
Proof.
  induction 1 as [|s s' _ IH Hs]; [apply system_new_ok|]. destruct Hs as [s s' Hs|pre t post r ws cs Hwait]; [by eapply system_step_ok|].
  destruct IH as (dts & dws & Ht & Hw & Hi). cbn in *. apply Forall2_app_inv_l in Ht as (dpre & dl & Hpre & Hpost & ->).
  inversion Hpost as [|? ds ? dpost Hp Hpost' E1 E2]; subst. exists (dpre ++ dpost), dws. cbn.
  split_and!; [by apply Forall2_app|done|]. apply drop_thread_inv. eapply registry_inv_debts; [exact Hi|].
  intros x. rewrite !concat_app. cbn. rewrite !concat_app, (waiting_thread cs t ds Hp Hwait). done.
Qed.

(** C27: Cancellations arrive.  However cancellations, failures and restarts of actors
    interleave, and whichever calls are dropped while they wait for an actor or for a
    message, whenever every thread has ended or waits for an actor or a message, each
    actor that is recorded as cancelled has its current cancel token tripped: no
    cancelled actor goes on with a token that nobody trips.  (A call that is dropped
    elsewhere, between the two locks of a cancellation, leaves the token as it is.) *)
Theorem cancellation_arrives s key :
  reachable step_or_leave s -> is_marked (registry s) key ->
  (forall q, asking s q -> waits q = true) -> is_tripped (registry s) key.
Proof.
  intros Hr Hm Hq. destruct (reachable_leave_ok s Hr) as (dts & dws & Ht & Hw & _ & _ & _ & Hs).
  destruct (Hs eq_refl key Hm) as [Htrip|Ho]; [done|]. exfalso.
  rewrite (resting_threads (started s) (host_calls s) dts Ht), (resting_parts (started s) (workers s) dws Hw) in Ho.
  - destruct Ho as [[]|[[]|(token & [] & _)]].
  - intros q k Hin. apply Hq. by eapply asking_worker.
  - intros q k Hin. apply Hq. by eapply asking_call.
  - intros q k results all window waiting c Hin Hc. apply Hq. by eapply asking_child.
Qed.
End Safety.
