(* ===== verification/Subtree.v ===== *)
(** * Families of actors

    The parents recorded in the registry; the loops that follow them and the subtree
    that is cancelled together agree with the plain notion of a descendant, also when
    the recorded parents form a cycle. *)

From stdpp Require Import base tactics list gmap strings sorting.
From Stdlib Require Import NArith ZArith Lia.
From S2P Require Import Prelude BTree Text Strings Value Render ServerBase Catalog Host Supervise Inbox Redaction Io Actors Agents AgentsPool AgentsSafety.

Section Family.
Variables (r : MailboxRegistry) (session : string).

Definition parent_of (a p : ActorId) : Prop :=
  exists rec, actors r !! (session, a) = Some rec /\ rec_parent rec = Some p.

(** The actor has [root] among its parents, their parents, and so on. *)
Inductive descends (root : ActorId) : ActorId -> Prop :=
| descends_child a : parent_of a root -> descends root a
| descends_further a p : parent_of a p -> descends root p -> descends root a.

Lemma parent_unique a p q : parent_of a p -> parent_of a q -> p = q.
Proof. intros (rec & Hl & Hp) (rec' & Hl' & Hp'). congruence. Qed.

(** ** Following the parents *)

(** The actors seen have parents that were looked at. *)
Definition trail (ancestor current : ActorId) (seen : list ActorId) : Prop :=
  forall x, x ∈ seen -> exists p, parent_of x p /\ p <> ancestor /\ (p ∈ seen \/ p = current).

Lemma trail_closed ancestor current seen a :
  trail ancestor current seen -> current ∈ seen -> descends ancestor a -> a ∈ seen -> False.
Proof.
  intros Ht Hc. induction 1 as [a Hp|a p Hp Hd IH]; intros Ha; destruct (Ht a Ha) as (q & Hq & Hne & Hs);
    pose proof (parent_unique _ _ _ Hp Hq) as ->; [done|]. apply IH. destruct Hs as [Hs| ->]; done.
Qed.

Lemma seen_bound (seen : list ActorId) :
  NoDup seen -> (forall x, x ∈ seen -> is_Some (actors r !! (session, x))) -> (length seen <= size (actors r))%nat.
Proof.
  intros Hn Hs. rewrite <- (size_dom (D := gset ActorKey) (actors r)).
  rewrite <- (length_fmap (fun x => (session, x) : ActorKey) seen).
  rewrite <- (size_list_to_set (C := gset ActorKey)) by by apply NoDup_fmap_2; [intros ?? [=]|].
  apply subseteq_size. intros key Hk. apply elem_of_list_to_set, list_elem_of_fmap in Hk as (x & -> & Hx).
  by apply elem_of_dom, Hs.
Qed.

Lemma ancestor_loop_spec ancestor : forall fuel current seen,
  NoDup seen -> trail ancestor current seen -> (S (S (size (actors r))) <= fuel + length seen)%nat ->
  ancestor_loop fuel r session ancestor current seen = true <-> descends ancestor current.
Proof.
  induction fuel as [|fuel IH]; intros current seen Hn Ht Hf; cbn [ancestor_loop].
  { exfalso. assert (length seen <= size (actors r))%nat; [|lia]. apply seen_bound; [done|].
    intros x Hx. destruct (Ht x Hx) as (p & (rec & Hl & _) & _). by exists rec. }
  case_bool_decide as Hc.
  { split; [done|]. intros Hd. exfalso. by eapply trail_closed. }
  destruct (actors r !! (session, current)) as [rec|] eqn:Hl.
  2: { split; [done|]. destruct 1 as [a (rec & Hl' & _)|a p (rec & Hl' & _)]; congruence. }
  destruct (rec_parent rec) as [parent|] eqn:Hp.
  2: { split; [done|]. destruct 1 as [a (rec' & Hl' & Hp')|a p (rec' & Hl' & Hp')]; congruence. }
  assert (Hpar : parent_of current parent) by by exists rec.
  destruct (String.eqb_spec parent ancestor) as [->|Hne]; [split; [by constructor|done]|].
  rewrite IH.
  - split; [by eapply descends_further|]. destruct 1 as [a Hq|a q Hq Hd];
      pose proof (parent_unique _ _ _ Hq Hpar) as ->; done.
  - by constructor.
  - intros x [->|Hx]%elem_of_cons; [exists parent; split_and!; [done|done|by right]|].
    destruct (Ht x Hx) as (q & Hq & Hqne & Hs). exists q. split_and!; [done|done|left].
    apply elem_of_cons. destruct Hs; [by right|by left].
  - cbn. lia.
Qed.

Lemma is_descendant_descends a ancestor : is_descendant_of session a ancestor r = true <-> descends ancestor a.
Proof.
  apply ancestor_loop_spec; [constructor| |cbn; lia]. intros x Hx. by apply not_elem_of_nil in Hx.
Qed.

(** ** Children *)

Hypothesis Hkeyed : keyed r.

Lemma session_record rec :
  rec ∈ session_records session r <-> actors r !! (session, rec_id rec) = Some rec.
Proof.
  unfold session_records. rewrite list_elem_of_fmap. split.
  - intros ([[s id] rec'] & -> & Hin). apply list_elem_of_filter in Hin as [Hs Hin]. cbn in Hs. subst s.
    apply elem_of_map_to_list in Hin. cbn. pose proof (Hkeyed _ _ Hin) as Hid. cbn in Hid. by rewrite Hid.
  - intros Hl. exists ((session, rec_id rec), rec). split; [done|]. apply list_elem_of_filter. split; [done|].
    by apply elem_of_map_to_list.
Qed.

Definition children_of (p : ActorId) : list ActorRecord :=
  filter (fun record => rec_parent record = Some p) (session_records session r).

Lemma sorted_children_perm p : sorted_children session p r ≡ₚ rec_id <$> children_of p.
Proof.
  unfold sorted_children, children_of. rewrite merge_sort_Permutation, <- list_fmap_compose. done.
Qed.

Lemma in_children a p : a ∈ sorted_children session p r <-> parent_of a p.
Proof.
  rewrite sorted_children_perm, list_elem_of_fmap. unfold children_of. split.
  - intros (rec & -> & [Hp Hin]%list_elem_of_filter). exists rec. split; [|done]. by apply session_record.
  - intros (rec & Hl & Hp). exists rec. assert (rec_id rec = a) as Hid by by apply Hkeyed in Hl.
    split; [done|]. apply list_elem_of_filter. split; [done|]. apply session_record. by rewrite Hid.
Qed.

(** ** The loop over the family *)

(** The actors whose parent was not visited yet. *)
Definition unvisited (ordered : list ActorId) : list ActorRecord :=
  List.filter (fun record => match rec_parent record with Some p => bool_decide (p ∉ ordered) | None => false end)
    (session_records session r).

Lemma unvisited_visit ordered current : current ∉ ordered ->
  (length (unvisited (ordered ++ [current])) + length (sorted_children session current r) = length (unvisited ordered))%nat.
Proof.
  intros Hc. rewrite sorted_children_perm, length_fmap. unfold unvisited, children_of.
  induction (session_records session r) as [|rec l IH]; [done|]. rewrite filter_cons. cbn [List.filter].
  destruct (rec_parent rec) as [p|] eqn:Hp.
  2: { rewrite decide_False by done. exact IH. }
  destruct (decide (p = current)) as [->|Hne].
  - rewrite decide_True by done. rewrite (bool_decide_true (current ∉ ordered)) by done.
    rewrite bool_decide_false; [cbn; lia|]. intros Hn. apply Hn, elem_of_app. right. by apply list_elem_of_singleton.
  - rewrite decide_False by congruence. destruct (decide (p ∈ ordered)) as [Hin|Hin].
    + rewrite !bool_decide_false; [exact IH|by intros Hn|]. intros Hn. apply Hn, elem_of_app. by left.
    + rewrite !bool_decide_true; [cbn; lia|done|]. intros [?| ->%list_elem_of_singleton]%elem_of_app; done.
Qed.

Variable root : ActorId.

Definition of_family (a : ActorId) : Prop := a = root \/ descends root a.

Record family_walk (pending ordered : list ActorId) : Prop := mkWalk {
  walk_family : forall a, a ∈ pending \/ a ∈ ordered -> of_family a;
  walk_root : root ∈ pending \/ root ∈ ordered;
  walk_closed : forall a p, p ∈ ordered -> parent_of a p -> a ∈ pending \/ a ∈ ordered;
  walk_once : NoDup ordered;
  walk_order : forall l1 a l2, ordered = l1 ++ a :: l2 -> a = root \/ exists p, p ∈ l1 /\ parent_of a p;
  walk_pending : forall a, a ∈ pending -> a = root \/ exists p, p ∈ ordered /\ parent_of a p;
}.

Lemma family_child a p : of_family p -> parent_of a p -> of_family a.
Proof. intros [->|Hd] Hp; right; [by constructor|by eapply descends_further]. Qed.

Lemma walk_skip current pending ordered : family_walk (current :: pending) ordered -> current ∈ ordered -> family_walk pending ordered.
Proof.
  intros [Hf Hr Hc Hn Ho Hp] Hin. split; try done.
  - intros a [Ha|Ha]; apply Hf; [left; by apply elem_of_cons; right|by right].
  - destruct Hr as [[->|Hr]%elem_of_cons|Hr]; auto.
  - intros a p Hpo Hpar. destruct (Hc a p Hpo Hpar) as [[->|Ha]%elem_of_cons|Ha]; auto.
  - intros a Ha. apply Hp. by apply elem_of_cons; right.
Qed.

Lemma walk_visit current pending ordered :
  family_walk (current :: pending) ordered -> current ∉ ordered ->
  family_walk (pending ++ sorted_children session current r) (ordered ++ [current]).
Proof.
  intros [Hf Hr Hc Hn Ho Hp] Hin.
  assert (Hcur : of_family current) by (apply Hf; left; by apply elem_of_cons; left).
  split.
  - intros a [Ha|Ha]; apply elem_of_app in Ha as [Ha|Ha].
    + apply Hf. left. by apply elem_of_cons; right.
    + apply in_children in Ha. by eapply family_child.
    + apply Hf. by right.
    + by apply list_elem_of_singleton in Ha as ->.
  - destruct Hr as [[->|Hr]%elem_of_cons|Hr]; [right|left|right]; apply elem_of_app;
      [right; by apply list_elem_of_singleton|by left|by left].
  - intros a p Hpo Hpar. apply elem_of_app in Hpo as [Hpo| ->%list_elem_of_singleton].
    + destruct (Hc a p Hpo Hpar) as [[->|Ha]%elem_of_cons|Ha]; [right|left|right]; apply elem_of_app;
        [right; by apply list_elem_of_singleton|by left|by left].
    + left. apply elem_of_app. right. by apply in_children.
  - apply NoDup_app. split_and!; [done| |apply NoDup_singleton]. intros a Ha ->%list_elem_of_singleton. done.
  - intros l1 a l2 E. destruct l2 as [|b l2 _] using rev_ind.
    + apply app_inj_tail in E as [<- <-]. apply Hp. by apply elem_of_cons; left.
    + rewrite app_comm_cons, app_assoc in E. apply app_inj_tail in E as [E _]. by eapply Ho.
  - intros a Ha. apply elem_of_app in Ha as [Ha|Ha].
    + destruct (Hp a) as [->|(p & Hpo & Hpar)]; [by apply elem_of_cons; right|by left|right].
      exists p. split; [|done]. apply elem_of_app. by left.
    + right. exists current. split; [apply elem_of_app; right; by apply list_elem_of_singleton|by apply in_children].
Qed.

Lemma subtree_walk : forall fuel pending ordered,
  family_walk pending ordered -> (length pending + length (unvisited ordered) <= fuel)%nat ->
  family_walk [] (subtree_loop fuel session r pending ordered).
Proof.
  induction fuel as [|fuel IH]; intros pending ordered Hw Hf; cbn [subtree_loop].
  { destruct pending; [done|cbn in Hf; lia]. }
  destruct pending as [|current pending]; [done|]. case_bool_decide as Hin.
  - apply IH; [by eapply walk_skip|]. cbn in Hf. lia.
  - apply IH; [by apply walk_visit|]. pose proof (unvisited_visit ordered current Hin). rewrite length_app. cbn in Hf. lia.
Qed.

Lemma subtree_ids_walk rec :
  actors r !! (session, root) = Some rec -> family_walk [] (actor_subtree_ids_locked session root r).
Proof.
  intros Hl. unfold actor_subtree_ids_locked. rewrite Hl. apply subtree_walk.
  - split.
    + intros a [->%list_elem_of_singleton|Ha]; [by left|by apply not_elem_of_nil in Ha].
    + left. by apply list_elem_of_singleton.
    + intros a p Hp. by apply not_elem_of_nil in Hp.
    + constructor.
    + intros [|] ? ? ?; done.
    + intros a ->%list_elem_of_singleton. by left.
  - cbn. apply le_n_S. unfold unvisited. etrans; [apply List.filter_length_le|].
    unfold session_records. rewrite length_fmap. etrans; [apply length_filter|]. by rewrite length_map_to_list.
Qed.

(** Descendants are found by the walk. *)
Lemma walk_complete ordered : family_walk [] ordered -> forall a, a ∈ ordered <-> of_family a.
Proof.
  intros [Hf Hr Hc _ _ _] a. split; [intros Ha; apply Hf; by right|].
  assert (Hroot : root ∈ ordered) by (destruct Hr as [Hr|]; [by apply not_elem_of_nil in Hr|done]).
  intros [->|Hd]; [done|]. induction Hd as [a Hp|a p Hp _ IH];
    [destruct (Hc a root Hroot Hp) as [Ha|Ha]|destruct (Hc a p IH Hp) as [Ha|Ha]]; try done; by apply not_elem_of_nil in Ha.
Qed.
End Family.

(** ** Cancelling a family *)

(** A program that only enters sections and reads the clock, run without others. *)
Fixpoint run_alone {A} (now : Z) (p : Prog A) (r : MailboxRegistry) : option (A * MailboxRegistry) :=
  match p with
  | Ret a => Some (a, r)
  | Ask q k =>
      match q return (Answer q -> Prog A) -> (Answer q -> MailboxRegistry -> option (A * MailboxRegistry)) -> _ with
      | Locked s => fun _ go => let '(a, r) := run_section s r in go a r
      | Now => fun _ go => go now r
      | _ => fun _ _ => None
      end k (fun a r => run_alone now (k a) r)
  end.

Lemma run_alone_bind {A B} now (m : Prog A) (k : A -> Prog B) : forall r,
  run_alone now (m ≫= k) r = '(a, r') ← run_alone now m r; run_alone now (k a) r'.
Proof.
  induction m as [a|q c IH]; intros r; [done|]. cbn. destruct q; try done; [|apply IH].
  destruct (run_section s r) as [a r']. apply IH.
Qed.

(** What cancelling does to a record. *)
Definition cancel_record (now : Z) (rec : ActorRecord) : ActorRecord :=
  if rec_cancelled rec || bool_decide (rec_status rec = Terminated) then rec
  else mkRecord (rec_id rec) (rec_parent rec) Terminated (rec_mode rec) (rec_budget rec) (rec_spawned_at rec) (Some now)
         true (Some ReasonCancelled) (rec_artifact_uri rec) (rec_history_uri rec).

(** What a cancellation leaves alone and what it brings about. *)
Record cancels (now : Z) (key : ActorKey) (r r' : MailboxRegistry) : Prop := mkCancels {
  cancels_record : actors r' !! key = cancel_record now <$> actors r !! key;
  cancels_others : forall key', key' <> key -> actors r' !! key' = actors r !! key';
  cancels_trips : is_marked r' key -> is_tripped r' key;
  cancels_keeps : forall key', is_tripped r key' -> is_tripped r' key';
  cancels_tokens : tokens_ok r';
}.

Lemma trip_keeps token r key : is_tripped r key -> is_tripped (trip_token token r) key.
Proof.
  intros (t & Hl & Hf). exists t. split; [done|]. change (<[token := true]> (token_flags r) !! t = Some true).
  destruct (decide (token = t)) as [<-|Hne]; [|by rewrite list_lookup_insert_ne].
  apply list_lookup_insert_eq. by eapply lookup_lt_Some.
Qed.

Lemma entry_keeps key r key' : tokens_ok r -> is_tripped r key' -> is_tripped (entry_token key r).2 key'.
Proof.
  intros Ht (t & Hl & Hf). unfold entry_token. destruct (cancel_tokens r !! key) as [token|] eqn:E; [by exists t|].
  exists t. split.
  - change (<[key := length (token_flags r)]> (cancel_tokens r) !! key' = Some t). rewrite lookup_insert_ne; [done|congruence].
  - change ((token_flags r ++ [false]) !! t = Some true). by rewrite lookup_app_l by by eapply lookup_lt_Some.
Qed.

(** Looking up the token and tripping it. *)
Lemma trip_alone now session id r :
  tokens_ok r ->
  exists r', run_alone now (token ← cancel_token_for_session session id; locked (TripToken token)) r = Some (tt, r')
  /\ actors r' = actors r /\ is_tripped r' (session, id) /\ tokens_ok r'
  /\ forall key, is_tripped r key -> is_tripped r' key.
Proof.
  intros Ht. assert (Hent : forall r0, tokens_ok r0 -> actors r0 = actors r ->
    (forall key, is_tripped r key -> is_tripped r0 key) -> forall token, cancel_tokens r0 !! (session, id) = Some token ->
    exists r', Some (tt, trip_token token r0) = Some (tt, r') /\ actors r' = actors r /\ is_tripped r' (session, id)
      /\ tokens_ok r' /\ forall key, is_tripped r key -> is_tripped r' key).
  { intros r0 Ht0 Ha Hk token Hl. exists (trip_token token r0). split_and!; [done|done| | |].
    - exists token. split; [done|]. change (<[token := true]> (token_flags r0) !! token = Some true).
      apply list_lookup_insert_eq. by apply Ht0 in Hl.
    - intros key t Hl'. change (t < length (<[token := true]> (token_flags r0)))%nat. rewrite length_insert. by eapply Ht0.
    - intros key Hkey. by apply trip_keeps, Hk. }
  rewrite run_alone_bind. unfold cancel_token_for_session, ensure_cancel_token. rewrite run_alone_bind. cbn [run_alone locked run_section].
  cbn [mbind option_bind]. destruct (cancel_tokens r !! _) as [token|] eqn:E.
  - cbn [run_alone mret prog_ret]. cbn [mbind option_bind]. by apply (Hent r).
  - cbn [run_alone locked run_section]. pose proof (entry_token_current (session, id) r) as Hcur.
    assert (Hinv : tokens_ok (entry_token (session, id) r).2).
    { unfold entry_token. rewrite E. intros key t Hl.
      change (<[(session, id) := length (token_flags r)]> (cancel_tokens r) !! key = Some t) in Hl.
      change (t < length (token_flags r ++ [false]))%nat. rewrite length_app. cbn.
      destruct (decide ((session, id) = key)) as [<-|Hne].
      - rewrite lookup_insert_eq in Hl. injection Hl as <-. lia.
      - rewrite lookup_insert_ne in Hl by done. apply Ht in Hl. lia. }
    assert (Hact : actors (entry_token (session, id) r).2 = actors r) by (unfold entry_token; by rewrite E).
    assert (Hkeep : forall key, is_tripped r key -> is_tripped (entry_token (session, id) r).2 key)
      by (intros key Hk; by apply entry_keeps).
    destruct (entry_token (session, id) r) as [token r1]. cbn in *. by apply (Hent r1).
Qed.

(** Emitting events changes no record and no token. *)
Lemma emit_alone now session event r :
  exists r', run_alone now (emit_lifecycle session event) r = Some (tt, r') /\ same_cells r r'.
Proof. by eexists. Qed.

Lemma cancels_cells now key r r1 r2 : cancels now key r r1 -> same_cells r1 r2 -> cancels now key r r2.
Proof.
  intros [H1 H2 H3 H4 H5] (E1 & E2 & E3 & _). split; unfold is_marked, is_tripped, tokens_ok in *;
    rewrite ?E1, ?E2, ?E3; done.
Qed.

Lemma cancel_actor_alone now session id r :
  tokens_ok r -> exists result r', run_alone now (cancel_actor session id) r = Some (result, r') /\ cancels now (session, id) r r'.
Proof.
  intros Ht. unfold cancel_actor. rewrite run_alone_bind. cbn [run_alone now_ mbind option_bind].
  rewrite run_alone_bind. cbn [run_alone locked run_section].
  set (key := (session, id) : ActorKey). unfold cancel_locked.
  destruct (actors r !! key) as [rec|] eqn:E.
  2: { do 2 eexists. split; [reflexivity|]. split; try done; [by rewrite E|]. intros (rec & Hl & _). congruence. }
  destruct (rec_cancelled rec) eqn:Ec; [|case_bool_decide as Et].
  - cbn [mbind option_bind]. rewrite run_alone_bind.
    destruct (trip_alone now session id r Ht) as (r1 & -> & Ha & Htrip & Hok & Hkeep). do 2 eexists. split; [reflexivity|].
    split; try done.
    + rewrite Ha, E. cbn. unfold cancel_record. by rewrite Ec.
    + intros key' _. by rewrite Ha.
  - do 2 eexists. split; [reflexivity|]. split; try done.
    + rewrite E. cbn. unfold cancel_record. by rewrite bool_decide_true, orb_true_r.
    + intros (rec' & Hl & Hr). congruence.
  - cbn [mbind option_bind]. rewrite run_alone_bind.
    match goal with |- context [run_alone now _ ?r0] => set (r0' := r0) end.
    destruct (trip_alone now session id r0') as (r1 & -> & Ha & Htrip & Hok & Hkeep); [exact Ht|].
    cbn [mbind option_bind]. rewrite run_alone_bind. cbn [run_alone locked emit_lifecycle run_section mbind option_bind].
    do 2 eexists. split; [reflexivity|]. apply (cancels_cells now key r r1); [|by split_and!].
    assert (Hrec : actors r1 = <[key := cancel_record now rec]> (actors r)).
    { rewrite Ha. unfold cancel_record. rewrite Ec, bool_decide_false by done. done. }
    split; try done.
    + by rewrite Hrec, lookup_insert_eq, E.
    + intros key' Hne. by rewrite Hrec, lookup_insert_ne.
Qed.

(** Cancelling one actor after the other. *)
Lemma cancel_each_alone now session ids : NoDup ids -> forall r, tokens_ok r ->
  exists results r',
    run_alone now (map_each (fun id => result ← cancel_actor session id; mret (id, result)) ids) r = Some (results, r')
    /\ results.*1 = ids /\ tokens_ok r'
    /\ (forall id, id ∈ ids -> actors r' !! (session, id) = cancel_record now <$> actors r !! (session, id)
          /\ (is_marked r' (session, id) -> is_tripped r' (session, id)))
    /\ (forall key, (forall id, id ∈ ids -> key <> (session, id)) -> actors r' !! key = actors r !! key)
    /\ (forall key, is_tripped r key -> is_tripped r' key).
Proof.
  induction 1 as [|id ids Hni _ IH]; intros r Ht.
  { exists [], r. split_and!; try done. intros id Hid. by apply not_elem_of_nil in Hid. }
  cbn [map_each]. rewrite !run_alone_bind.
  destruct (cancel_actor_alone now session id r Ht) as (result & r1 & -> & [Hrec Hoth Htrip Hkeep Hok]).
  cbn [mbind option_bind run_alone mret prog_ret]. rewrite run_alone_bind.
  destruct (IH r1 Hok) as (results & r2 & -> & Hids & Hok2 & Hin & Hout & Hkeep2).
  exists ((id, result) :: results), r2. split_and!; [done|cbn; by rewrite Hids|done| | |auto].
  - intros id' [->|Hid']%elem_of_cons.
    + assert (E : actors r2 !! (session, id) = actors r1 !! (session, id)).
      { apply Hout. intros x Hx [= ->]. done. }
      split; [exact (eq_trans E Hrec)|]. intros (rec & Hl & Hr). apply Hkeep2, Htrip. exists rec.
      split; [exact (eq_trans (eq_sym E) Hl)|done].
    + destruct (Hin id' Hid') as [Hl Hm]. split; [|done].
      refine (eq_trans Hl _). f_equal. apply Hoth. intros [= ->]. done.
  - intros key Hk. rewrite Hout, Hoth; [done| |].
    + apply Hk. by left.
    + intros x Hx. apply Hk. by right.
Qed.

(** ** Theorems *)

Section Theorems.
Context `{UnicodeTables} `{ActorText} `{JsonNumber} `{!JsonUnsigned} `{!TextJson} `{!JsonText} `{RegexEngine}.
Variable executor_set : bool.

Lemma reachable_registry s : reachable (step_or_drop executor_set) s -> keyed (registry s) /\ tokens_ok (registry s).
Proof. intros Hr. destruct (reachable_drop_ok executor_set s Hr) as (? & ? & _ & _ & Ht & Hk & _). done. Qed.

(** C28: Families of actors.  In every reachable state the two loops over recorded
    parents end with what the plain definition says: an actor is found to be a
    descendant of another exactly when it is one, and the subtree of an actor lists the
    actor and all its descendants, each once and after its parent. *)
Theorem families_exact s session :
  reachable (step_or_drop executor_set) s ->
  (forall a ancestor, is_descendant_of session a ancestor (registry s) = true <-> descends (registry s) session ancestor a)
  /\ forall root, is_Some (actors (registry s) !! (session, root)) ->
     let ids := actor_subtree_ids_locked session root (registry s) in
     NoDup ids
     /\ (forall a, a ∈ ids <-> a = root \/ descends (registry s) session root a)
     /\ forall l1 a l2, ids = l1 ++ a :: l2 -> a = root \/ exists p, p ∈ l1 /\ parent_of (registry s) session a p.
Proof.
  intros Hr. destruct (reachable_registry s Hr) as [Hk _]. split; [intros; apply is_descendant_descends|].
  intros root [rec Hl]. pose proof (subtree_ids_walk _ _ Hk root rec Hl) as Hw.
  split_and!; [apply Hw|by apply walk_complete|apply Hw].
Qed.

(** C29: Cancelling a family.  Run without others from any reachable state, the
    cancellation of a subtree ends, cancels the root and every descendant that was
    still live, with its token tripped, leaves those that had ended as they were, and
    changes the record of no other actor. *)
Theorem cancel_subtree_exact s session root now :
  reachable (step_or_drop executor_set) s -> is_Some (actors (registry s) !! (session, root)) ->
  exists results r',
    run_alone now (cancel_actor_subtree session root) (registry s) = Some (results, r')
    /\ (forall a, a = root \/ descends (registry s) session root a ->
          actors r' !! (session, a) = cancel_record now <$> actors (registry s) !! (session, a)
          /\ (is_marked r' (session, a) -> is_tripped r' (session, a)))
    /\ forall key, (key.1 = session -> ~ (key.2 = root \/ descends (registry s) session root key.2)) ->
         actors r' !! key = actors (registry s) !! key.
Proof.
  intros Hr [rec Hl]. destruct (reachable_registry s Hr) as [Hk Ht].
  pose proof (subtree_ids_walk _ _ Hk root rec Hl) as Hw.
  destruct (cancel_each_alone now session _ (walk_once _ _ _ _ _ Hw) (registry s) Ht)
    as (results & r' & Hrun & _ & _ & Hin & Hout & _).
  exists results, r'. split_and!.
  - unfold cancel_actor_subtree. rewrite run_alone_bind. exact Hrun.
  - intros a Ha. apply Hin. by apply (walk_complete _ _ _ _ Hw).
  - intros [s' a] Ha. apply Hout. intros id Hid [= -> ->]. apply (Ha eq_refl). by apply (walk_complete _ _ _ _ Hw).
Qed.
End Theorems.
