(* ===== verification/AgentResources.v ===== *)
(** * Actors and transcripts as resources ([tm-agents/src/resources.rs])

    [agent://<id>] shows the record of an actor, [history://<id>] pages through its
    transcript; only the actors of the caller's session are found. *)

From stdpp Require Import base tactics list gmap strings.
From Stdlib Require Import NArith ZArith Lia Ascii.
From S2P Require Import Prelude BTree Text Strings Value Render ServerBase Catalog Host Supervise Inbox Redaction Io Actors Agents AgentsPool AgentsFacts.

(** The derived serialization of a record, pretty-printed. *)
Class RecordText := record_text : ActorRecord -> string.

Record ResourceContent := mkContent {
  content_uri : string;
  content_kind : string;
  content_mime : string;
  content_title : option string;
  content_size_bytes : N;
  content_selector : option string;
  content_has_more : bool;
  content_text : string;
  content_preview : string;
}.

Section Resources.
Context `{UnicodeTables} `{ActorText} `{RecordText}.

(** The actor of a URI with the given scheme. *)
Definition actor_of_uri (scheme uri : string) : HostOutcome (string * ActorId) :=
  match strip_prefix (scheme ++ "://") uri with
  | None | Some EmptyString => invalid_args ("invalid " ++ scheme ++ ":// URI: " ++ uri)
  | Some id =>
      match actor_id_new id with
      | inl e => Err (NotFound ("invalid actor id " ++ debug_string id ++ ": " ++ display_actor_id_error e))
      | inr actor => Ok (id, actor)
      end
  end.

Definition require_record (found : option ActorRecord) (id : string) : HostOutcome ActorRecord :=
  ok_or found (NotFound ("actor " ++ id ++ " not found")).

Definition agent_read (uri : string) (ctx : InvocationCtx) : Prog (HostOutcome ResourceContent) :=
  have? (id, actor) := actor_of_uri "agent" uri in
  found ← get_for_session (session_id ctx) actor;
  have? record := require_record found id in
  let content := record_text record in
  mret (Ok (mkContent uri "actor" "application/json" (Some ("Actor " ++ id)%string) (str_len content) None false content "")).

Definition entry_of (scheme : string) (r : ActorRecord) : ResourceEntry :=
  mkEntry (scheme ++ "://" ++ rec_id r) (rec_id r) (if String.eqb scheme "agent" then "actor" else "history")
    (rec_mode r) None (to_rfc3339 <$> rec_completed_at r).

Definition agent_list (ctx : InvocationCtx) : Prog (HostOutcome (list ResourceEntry)) :=
  records ← list_for_session (session_id ctx);
  mret (Ok (entry_of "agent" <$> records)).

Definition status_debug (s : ActorStatus) : string :=
  match s with Running => "Running" | Idle => "Idle" | Parked => "Parked" | Terminated => "Terminated" end.

(** [lines[start..end]], which panics when the range is not one of the lines. *)
Definition slice_lines (start end_ : N) (ls : list string) : outcome HostError (list string) :=
  if (start <=? end_)%N && (end_ <=? len ls)%N
  then Ok (take (N.to_nat (end_ - start)) (drop (N.to_nat start) ls)) else Panicked.

Fixpoint join_lines (ls : list string) : string :=
  match ls with
  | [] => ""
  | [l] => l
  | l :: ls => l ++ newline ++ join_lines ls
  end.

Definition PREVIEW_BYTES : N := 1024.

Definition history_page (uri : string) (selector : option string) (record : ActorRecord) (full : string)
    : HostOutcome ResourceContent :=
  let ls := Strings.lines full in
  let '(start, end_) := parse_selector selector (len ls) in
  selected ← slice_lines start end_ ls;
  Ok (mkContent uri "history" "text/plain" ((fun m => (m ++ " transcript")%string) <$> rec_mode record) (str_len full)
        selector (end_ <? len ls)%N (join_lines selected) (take_chars PREVIEW_BYTES full)).

Definition history_read (uri : string) (selector : option string) (ctx : InvocationCtx)
    : Prog (HostOutcome ResourceContent) :=
  have? (id, actor) := actor_of_uri "history" uri in
  found ← get_for_session (session_id ctx) actor;
  have? record := require_record found id in
  transcript ← get_transcript_for_session (session_id ctx) actor;
  let full := match transcript with
              | Some text => text
              | None => ("Actor " ++ rec_id record ++ " (" ++ status_debug (rec_status record)
                         ++ ") — no transcript captured yet.")%string
              end in
  mret (history_page uri selector record full).

Definition history_list (ctx : InvocationCtx) : Prog (HostOutcome (list ResourceEntry)) :=
  records ← list_for_session (session_id ctx);
  mret (Ok (entry_of "history" <$> List.filter (fun r => bool_decide (is_Some (rec_history_uri r))) records)).

(** The selected range is always one of the lines: a page never panics. *)
Lemma selector_in_range selector total :
  let '(start, end_) := parse_selector selector total in (start <= end_ <= total)%N.
Proof.
  unfold parse_selector. destruct (selector ≫= split_dash) as [[a b]|]; cbn -[N.min N.max]; [|lia].
  destruct (default 50%N (parse_usize b)); lia.
Qed.

Lemma history_page_returns uri selector record full : returns (history_page uri selector record full).
Proof.
  unfold history_page. pose proof (selector_in_range selector (len (Strings.lines full))) as Hr.
  destruct (parse_selector selector _) as [start end_]. unfold slice_lines.
  rewrite (proj2 (N.leb_le _ _) (proj1 Hr)), (proj2 (N.leb_le _ _) (proj2 Hr)). done.
Qed.

(** Reading changes nothing. *)
Lemma history_read_fine cs uri selector ctx : even cs [] (fun _ => True) (history_read uri selector ctx).
Proof.
  unfold history_read, get_for_session, get_transcript_for_session. apply even_have. intros [id actor] _.
  apply even_then; [evens|]. intros found. apply even_have. intros record _. apply even_then; evens.
Qed.
End Resources.

(** ** Bounds on texts *)

Lemma str_take_len n s : (str_len (str_take n s) <= n)%N.
Proof.
  unfold str_take, str_len. enough (String.length (String.substring 0 (N.to_nat n) s) <= N.to_nat n)%nat by lia.
  generalize (N.to_nat n) as k. induction s as [|a s IH]; intros [|k]; cbn; try lia. specialize (IH k). lia.
Qed.

Lemma truncated_within value max_bytes : (str_len (truncate_utf8_with_marker value max_bytes) <= max_bytes)%N.
Proof.
  unfold truncate_utf8_with_marker. destruct (str_len value <=? max_bytes)%N eqn:E; [by apply N.leb_le|].
  destruct (max_bytes <=? str_len ACTOR_TEXT_TRUNCATED_MARKER)%N eqn:E2; [apply str_take_len|]. apply N.leb_gt in E2.
  set (n := floor_char_boundary value _).
  assert (Hn : (n <= max_bytes - str_len ACTOR_TEXT_TRUNCATED_MARKER)%N).
  { subst n. etrans; [apply floor_char_boundary_le|]. rewrite N.min_comm. lia. }
  assert (Happ : forall a b, str_len (a ++ b) = (str_len a + str_len b)%N).
  { intros a b. unfold str_len. rewrite string_length_app. lia. }
  rewrite Happ. pose proof (str_take_len n value). lia.
Qed.
