(* ===== verification/AgentsSample.v ===== *)
(** * Sample runs of agents

    A driver that lets one call run until it waits, concrete systems the theorems
    apply to, and runs that show where the registry does not do what is meant. *)

From coqutil Require Import Datatypes.RecordSetters.
From stdpp Require Import base tactics list gmap strings.
From Stdlib Require Import NArith ZArith Lia.
From S2P Require Import Prelude BTree Text Strings Value ValueFacts Lexer Render ServerBase Catalog Host Supervise Inbox Redaction Io Actors Agents AgentsPool AgentsSafety Subtree.
Import DoubleBraceUpdate.

(** ** The driver *)

Section Drive.
Context `{UnicodeTables} `{ActorText} `{JsonNumber} `{!JsonUnsigned} `{!TextJson} `{!JsonText} `{RegexEngine}.
Variable executor_set : bool.

(** Runs a program until it waits, for a number of questions at most, with the clock
    standing still. *)
Fixpoint drive {A} (limit : nat) (p : Prog A) (r : MailboxRegistry) : Prog A * MailboxRegistry * list (Prog unit) :=
  match p, limit with
  | Ret a, _ => (Ret a, r, [])
  | Ask q k, O => (Ask q k, r, [])
  | Ask q k, S limit =>
      match q return (Answer q -> Prog A) -> (Answer q -> MailboxRegistry -> Prog A * MailboxRegistry * list (Prog unit))
                     -> Prog A * MailboxRegistry * list (Prog unit) with
      | Locked s => fun _ go => let '(a, r) := run_section s r in go a r
      | Now => fun _ go => go 0%Z r
      | SpawnThread id spec => fun _ go =>
          let '(p, r, ws) := go tt r in (p, r, worker executor_set id spec :: ws)
      | q => fun k _ => (Ask q k, r, [])
      end k (fun a r => drive limit (k a) r)
  end.

Inductive thread_steps : Prog unit -> MailboxRegistry -> Prog unit -> MailboxRegistry -> list (Prog unit) -> Prop :=
| thread_here p r : thread_steps p r p r []
| thread_next p r p1 r1 ws p2 r2 ws' :
    prog_step executor_set p r p1 r1 ws -> thread_steps p1 r1 p2 r2 ws' -> thread_steps p r p2 r2 (ws ++ ws').

Lemma drive_steps (p : Prog unit) : forall limit r p' r' ws, drive limit p r = (p', r', ws) -> thread_steps p r p' r' ws.
Proof.
  induction p as [a|q k IH]; intros [|limit] r p' r' ws Hd; cbn in Hd; try (injection Hd as <- <- <-; constructor).
  destruct q as [s| |spec|id spec|specs|slice]; try (injection Hd as <- <- <-; constructor).
  - destruct (run_section s r) as [a r1] eqn:Es. change ws with ([] ++ ws). econstructor; [|by eapply IH].
    pose proof (answers_locked executor_set s r) as Ha. rewrite Es in Ha. by constructor.
  - change ws with ([] ++ ws). econstructor; [|by eapply IH]. constructor. constructor.
  - destruct (drive limit (k tt) r) as [[p1 r1] ws1] eqn:E. injection Hd as <- <- <-.
    change (worker executor_set id spec :: ws1) with ([worker executor_set id spec] ++ ws1).
    econstructor; [|by eapply IH]. constructor. constructor.
Qed.

(** Starts a function and runs it. *)
Definition call_for (limit : nat) (f : Json -> InvocationCtx -> Prog (HostOutcome Json)) (args : Json)
    (ctx : InvocationCtx) (s : System) : System :=
  let '(p, r, ws) := drive limit (f args ctx;; mret tt) (registry s) in
  mkSystem r (host_calls s ++ [Runs p]) (workers s ++ ws) (ctx :: started s).

Definition call_ := call_for 1000.

Section Reach.
Context (moves : System -> System -> Prop) (Hmoves : forall s s', system_step executor_set s s' -> moves s s').

Lemma call_steps p r p' r' ws : thread_steps p r p' r' ws -> forall ts ws0 cs,
  reachable moves (mkSystem r (ts ++ [Runs p]) ws0 cs) ->
  reachable moves (mkSystem r' (ts ++ [Runs p']) (ws0 ++ ws) cs).
Proof.
  induction 1 as [p r|p r p1 r1 ws p2 r2 ws' Hs _ IH]; intros ts ws0 cs Hr; [by rewrite app_nil_r|].
  rewrite app_assoc. apply IH. eapply reachable_step; [exact Hr|]. apply Hmoves, step_call. by constructor.
Qed.

Lemma call_reachable limit name f args ctx s :
  In (name, f) (agents_functions executor_set) -> reachable moves s -> reachable moves (call_for limit f args ctx s).
Proof.
  intros Hf Hr. destruct s as [r ts ws cs]. unfold call_for. cbn [registry host_calls workers started].
  destruct (drive limit (f args ctx;; mret tt) r) as [[p r'] sp] eqn:E. eapply call_steps; [by eapply drive_steps|].
  eapply reachable_step; [exact Hr|]. apply Hmoves. by econstructor.
Qed.
End Reach.

Lemma reachable_mono (moves moves' : System -> System -> Prop) s :
  (forall s s', moves s s' -> moves' s s') -> reachable moves s -> reachable moves' s.
Proof. intros Hm. induction 1 as [|s s' _ IH Hs]; [constructor|]. econstructor; [exact IH|]. by apply Hm. Qed.

Lemma reachable_or_drop s : reachable (system_step executor_set) s -> reachable (step_or_drop executor_set) s.
Proof. apply reachable_mono. by left. Qed.
End Drive.

(** The next question of a program. *)
Definition question {A} (p : Prog A) : option Query := match p with Ret _ => None | Ask q _ => Some q end.

Lemma question_asks {A} (p : Prog A) q : question p = Some q -> exists k, p = Ask q k.
Proof. destruct p as [a|q' k]; [done|]. intros [= ->]. by exists k. Qed.

Lemma worker_asks s i q : question <$> workers s !! i = Some (Some q) -> asking s q.
Proof.
  destruct (workers s !! i) as [p|] eqn:E; [|done]. intros [= Hq]. apply question_asks in Hq as [k ->].
  apply (asking_worker _ _ k). apply list_elem_of_In. by eapply list_elem_of_lookup_2.
Qed.

(** Every part of a system without waves has ended or waits. *)
Definition rests (s : System) : bool :=
  forallb (fun t => match t with Runs p => match question p with Some q => waits q | None => true end | _ => false end)
    (host_calls s)
  && forallb (fun p => match question p with Some q => waits q | None => true end) (workers s).

Lemma rests_waits s : rests s = true -> forall q, asking s q -> waits q = true.
Proof.
  intros [Hc Hw]%andb_true_iff q Ha. rewrite forallb_forall in Hc, Hw. destruct Ha as [k Hin|all fin win wait k c Hin _|k Hin].
  - by specialize (Hc _ Hin).
  - by specialize (Hc _ Hin).
  - by specialize (Hw _ Hin).
Qed.

(** ** Systems *)

#[local] Existing Instances ascii_tables sample_numbers.
#[local] Instance sample_actor_text : ActorText := {|
  to_uppercase_table c := [c]; debug_string s := s; group_hash _ _ := 7%N; to_rfc3339 _ := "t"%string |}.
#[local] Instance sample_unsigned : JsonUnsigned := fun _ => None.
#[local] Instance sample_text_json : TextJson := fun _ => None.
#[local] Instance sample_json_text : JsonText := {| json_text _ := "{}"%string |}.
#[local] Instance sample_engine : RegexEngine := {| is_match _ _ := false; find_count _ _ := 0%N; replace_all _ text _ := text |}.

Definition root_ctx : InvocationCtx := with_session_id "s" (ctx_new (mkGrants ["agents.*"]%string)).
Definition worker_ctx : InvocationCtx := with_actor_id (Some "Worker0"%string) root_ctx.

Definition spawn_args (role : string) : Json :=
  JObject [("opts", JObject [("capabilities", JArray [JString "agents.*"])]); ("role", JString role);
           ("task", JString "look around")]%string.

Definition sys1 : System := call_ true (agents_spawn true) (spawn_args "worker") root_ctx system_new.
Definition sys2 : System := call_ true (agents_spawn true) (spawn_args "helper") worker_ctx sys1.
Definition sys3 : System :=
  call_ true agents_cancel (JObject [("target", JString "Worker0")]%string) root_ctx sys2.

Lemma sys1_reachable : reachable (system_step true) sys1.
Proof. eapply call_reachable; [done|right; left; reflexivity|constructor]. Qed.

Lemma sys2_reachable : reachable (system_step true) sys2.
Proof. eapply call_reachable; [done|right; left; reflexivity|apply sys1_reachable]. Qed.

Lemma sys3_reachable : reachable (system_step true) sys3.
Proof. eapply call_reachable; [done|do 6 right; left; reflexivity|apply sys2_reachable]. Qed.

(** The helper is a child of the worker, with the grant it was given. *)
Definition helper_spec : ActorSpec :=
  mkSpec "Helper1" "s" None "helper" "look around" None (mkGrants ["agents.*"]%string) actor_budget_default
    (Some "Worker0"%string) 0 1.

Example helper_runs : question <$> workers sys2 !! 1%nat = Some (Some (RunActor helper_spec)).
Proof. vm_compute. reflexivity. Qed.

(** The helper acts for one of the calls, which holds what the helper may do. *)
Lemma actors_authorized_witness : exists ctx, In ctx (started sys2) /\ authorized ctx helper_spec
  /\ host_permits (spec_grants helper_spec) "agents.run" = true /\ host_permits (ctx_grants ctx) "agents.run" = true.
Proof.
  destruct (actors_authorized true sys2 helper_spec) as (ctx & Hin & Ha & Hg).
  - apply reachable_or_drop, sys2_reachable.
  - exact (worker_asks sys2 1 _ helper_runs).
  - exists ctx. split; [exact Hin|]. split; [exact Ha|]. split; [reflexivity|]. apply Hg; [|reflexivity].
    assert (Hs : started sys2 = [worker_ctx; root_ctx]) by (vm_compute; reflexivity). rewrite Hs in Hin.
    assert (Hp : plain_grants (ctx_grants root_ctx)) by (constructor; [by intros p [= <-]|constructor]).
    destruct Hin as [<-|[<-|[]]]; exact Hp.
Defined.

(** A call of [agents.run] that waits for its actor is dropped; then the actor is
    cancelled. *)
Definition run_args : Json := JObject [("role", JString "worker"); ("task", JString "look around")]%string.
Definition before_drop : System := call_ true (agents_run true) run_args root_ctx system_new.
Definition after_drop : System := mkSystem (registry before_drop) [] [] (started before_drop).
Definition cancel_args : Json := JObject [("target", JString "Worker0")]%string.
Definition dropped_cancelled : System := call_ true agents_cancel cancel_args root_ctx after_drop.

Definition awaited_call : Thread := default (Runs (Ret tt)) (host_calls before_drop !! 0%nat).

Lemma dropped_cancelled_reachable : reachable (step_or_leave true) dropped_cancelled.
Proof.
  eapply call_reachable; [by constructor|do 6 right; left; reflexivity|].
  eapply reachable_step; [|exact (leave_waiting true [] awaited_call [] (registry before_drop) [] (started before_drop) eq_refl)].
  change (reachable (step_or_leave true) before_drop).
  eapply call_reachable; [by constructor|left; reflexivity|constructor].
Qed.

Lemma cancellation_arrives_witness :
  is_tripped (registry dropped_cancelled) ("s", "Worker0")%string /\ is_tripped (registry sys3) ("s", "Worker0")%string.
Proof.
  split.
  - apply (cancellation_arrives true dropped_cancelled).
    + apply dropped_cancelled_reachable.
    + exists (default (new_record "" None "" actor_budget_default 0) (actors (registry dropped_cancelled) !! ("s", "Worker0")%string)).
      split; vm_compute; reflexivity.
    + apply rests_waits. vm_compute. reflexivity.
  - apply (cancellation_arrives true sys3).
    + eapply reachable_mono; [|apply sys3_reachable]. by constructor.
    + exists (default (new_record "" None "" actor_budget_default 0) (actors (registry sys3) !! ("s", "Worker0")%string)).
      split; vm_compute; reflexivity.
    + apply rests_waits. vm_compute. reflexivity.
Defined.

(** A cancellation that is dropped between its two locks: the record of the actor says
    that it was cancelled, and nobody trips its token. *)
Definition half_cancelled : System := call_for true 4 agents_cancel cancel_args root_ctx sys2.
Definition lost_cancellation : System :=
  mkSystem (registry half_cancelled) (host_calls sys2) (workers half_cancelled) (started half_cancelled).

Definition shown_cancelled (s : System) (key : ActorKey) : option bool * bool :=
  (rec_cancelled <$> actors (registry s) !! key, is_cancelled_locked key (registry s)).

Lemma call_dropped limit f args ctx s :
  let s' := call_for true limit f args ctx s in
  may_drop s' (mkSystem (registry s') (host_calls s) (workers s') (started s')).
Proof.
  unfold call_for. destruct (drive true limit _ _) as [[p r] ws]. cbn [registry host_calls workers started].
  pose proof (drop_call (host_calls s) (Runs p) [] r (workers s ++ ws) (ctx :: started s)) as Hd.
  by rewrite app_nil_r in Hd.
Qed.

Lemma dropped_cancellation_is_lost :
  reachable (step_or_drop true) lost_cancellation
  /\ shown_cancelled lost_cancellation ("s", "Worker0")%string = (Some true, false) /\ rests lost_cancellation = true.
Proof.
  split; [|split; vm_compute; reflexivity].
  assert (Hh : reachable (step_or_drop true) half_cancelled).
  { eapply call_reachable; [by left|do 6 right; left; reflexivity|]. apply reachable_or_drop, sys2_reachable. }
  eapply reachable_step; [exact Hh|]. right. apply call_dropped.
Qed.

Lemma families_exact_witness :
  NoDup (actor_subtree_ids_locked "s" "Worker0" (registry sys2))
  /\ descends (registry sys2) "s" "Worker0" "Helper1".
Proof.
  destruct (families_exact true sys2 "s" (reachable_or_drop _ _ sys2_reachable)) as [Hd Hs]. split.
  - apply (Hs "Worker0"%string). eexists. vm_compute. reflexivity.
  - apply Hd. vm_compute. reflexivity.
Defined.

Lemma cancel_subtree_exact_witness :
  exists results r', run_alone 5 (cancel_actor_subtree "s" "Worker0") (registry sys2) = Some (results, r')
  /\ is_tripped r' ("s", "Helper1")%string.
Proof.
  destruct (cancel_subtree_exact true sys2 "s" "Worker0" 5 (reachable_or_drop _ _ sys2_reachable))
    as (results & r' & Hrun & Hin & _); [eexists; vm_compute; reflexivity|].
  exists results, r'. split; [exact Hrun|]. destruct (Hin "Helper1"%string) as [Hl Hm].
  - right. apply is_descendant_descends. vm_compute. reflexivity.
  - apply Hm. eexists. split; [refine (eq_trans Hl _); vm_compute; reflexivity|reflexivity].
Defined.

(** ** Runs that show a deviation *)

Definition on_registry {A} (p : Prog A) (r : MailboxRegistry) : MailboxRegistry :=
  match run_alone 0 p r with Some (_, r) => r | None => r end.

Definition sample_actor (id : ActorId) : ActorRecord := new_record id None "worker" actor_budget_default 0.
Definition sample_spec (id : ActorId) (token : nat) : ActorSpec :=
  mkSpec id "s" None "worker" "look around" None grants_default actor_budget_default None 0 token.

(** Two actors under a supervisor that restarts all of them when one fails. *)
Definition pair_ : MailboxRegistry :=
  on_registry (
    set_supervision_policy_for_session "s" "Group" (mkPolicy OneForAll 3);;
    track_batch_for_session "s" [(sample_actor "First", "Group"); (sample_actor "Second", "Group")]%string;;
    remember_restart_spec (sample_spec "First" 0);;
    remember_restart_spec (sample_spec "Second" 1)) mailbox_new.

(** The first one crashes: the second is cancelled, and both are prepared to run again. *)
Definition restarted : MailboxRegistry :=
  on_registry (
    record_actor_error "s" "First" (Crash "boom");;
    prepare_actor_restart_for_session "s" "First";;
    prepare_actor_restart_for_session "s" "Second") pair_.

(** The run of the second that was cancelled reports that it ended. *)
Definition reported : MailboxRegistry :=
  on_registry (record_actor_error "s" "Second" ReasonCancelled) restarted.

Definition standing (r : MailboxRegistry) (key : ActorKey) : option (ActorStatus * bool) :=
  (fun rec => (rec_status rec, is_cancelled_locked key r)) <$> actors r !! key.

(** A late report is taken for the new run: the restarted actor is marked as cancelled
    and its new token is tripped. *)
Lemma late_report_cancels_restart :
  standing restarted ("s", "Second")%string = Some (Running, false)
  /\ standing reported ("s", "Second")%string = Some (Terminated, true).
Proof. vm_compute. done. Qed.

(** Restarts are not counted: 64 live actors and one that is restarted. *)
Definition crowd : list (ActorRecord * ActorId) :=
  (fun i => (sample_actor (actor_name "worker" (N.of_nat i)), "Root"%string)) <$> seq 0 64.

Definition crowded : MailboxRegistry :=
  on_registry (
    track_batch_for_session "s" crowd;;
    remember_restart_spec (sample_spec "Worker0" 0);;
    mark_complete_for_session "s" "Worker0";;
    track_for_session "s" (sample_actor "Worker64");;
    prepare_actor_restart_for_session "s" "Worker0") mailbox_new.

Lemma restart_exceeds_cap : live_count "s" crowded = 65%nat.
Proof. vm_compute. reflexivity. Qed.

(** A call of [agents.run] whose future is dropped leaves its actor live. *)
Lemma dropped_run_stays_live :
  may_drop before_drop (mkSystem (registry before_drop) [] [] (started before_drop))
  /\ live_count "s" (registry before_drop) = 1%nat.
Proof. split; [|vm_compute; reflexivity]. exact (drop_call [] (Runs _) [] _ _ _). Qed.

(** A caller with a pattern of a pattern may hand on a pattern that reaches more. *)
Lemma nested_pattern_escalates :
  let caller := mkGrants ["a.*.*"]%string in
  let child := mkGrants ["a.*"]%string in
  host_permits caller "a.*" = true /\ host_permits child "a.b" = true /\ host_permits caller "a.b" = false.
Proof. vm_compute. done. Qed.
