(* ===== verification/Core.v ===== *)
(** * The agent loop ([tm-core]: agent.rs, stream.rs, shape.rs, message.rs, llm.rs,
    prompt.rs, sandbox.rs, error.rs)

    An agent sends the conversation to a language model, streams its answer to a sink,
    runs the code the model asks for in a sandbox session, and feeds the results back,
    until the model answers without code.  The model, the sandbox session, the inbox,
    the sink and the cancellation token are asked by questions ([Io]).  The items of a
    stream are the answer to the question that opens it; awaiting the next of them is
    a question of its own, in which the token may win.  An [f32] is its bits. *)

From stdpp Require Import base tactics list strings.
From Stdlib Require Import NArith Lia Ascii.
From S2P Require Import Prelude BTree Text Strings Value Render ServerBase Io.

(** [serde_json::to_string_pretty]. *)
Class JsonPretty `{JsonNumber} := json_pretty : Json -> string.

(** ** Errors ([error.rs]) *)

Inductive CoreError :=
| Llm (message : string)
| Sandbox (message : string)
| Protocol_ (message : string)
| TurnBudget (turns : N)
| RunCancelled
| EventSinkError (message : string)
| JsonError (message : string).

Definition display_core_error (e : CoreError) : string :=
  match e with
  | Llm m => "llm transport error: " ++ m
  | Sandbox m => "sandbox error: " ++ m
  | Protocol_ m => "protocol error: " ++ m
  | TurnBudget n => "turn budget exhausted after " ++ display_u64 n ++ " turns"
  | RunCancelled => "run cancelled"
  | EventSinkError m => "event sink error: " ++ m
  | JsonError m => "json error: " ++ m
  end.

Abbreviation CoreOutcome := (outcome CoreError).

Definition protocol_error {A} (message : string) : CoreOutcome A := Err (Protocol_ message).

(** A [Result] that came from outside. *)
Definition of_sum {A} (r : CoreError + A) : CoreOutcome A := match r with inr a => Ok a | inl e => Err e end.

(** ** Prompts ([prompt.rs], [agent.rs]) *)

Definition DEFAULT_SYSTEM_PROMPT : string := "You are TempestMiku, an agent whose primary interface is a single tool: `execute(code)`.

You operate a persistent code REPL. Instead of many narrow tools, you write code that gathers data, processes it, and decides what to surface back to yourself.

Environment rules:
- Only what your code `display(...)`s or returns reaches your context. Everything else stays in the sandbox. Compute, filter, and reduce in code; return only the distilled result.
- Park large data as an artifact rather than pasting it back; re-read slices on demand.
- Use capabilities named by the active instructions directly. When you need an unlisted capability or its exact schema, discover it with `@tools.search {query}` and `help @capability`; do not spend turns rediscovering a capability that is already named. If a broad query returns empty, retry with exact namespace/name fragments such as `agents`, `parallel`, or `agents.parallel`.
- There is no shell. Use the provided capabilities, never an escape to another language.

When you have the final answer, reply in prose with no tool call.".

Definition TM_RUNTIME_BOOT_CONTRACT : string := "## Immutable tm runtime contract
- `execute(code)` runs tm-conformance-v2, not JavaScript, TypeScript, Python, or shell.
- The REPL is persistent. Bind with `let`; separate top-level forms with `;`; call host effects with `@capability`.
- Only displayed values and the final cell value return to model context.
- One assistant response may issue at most 16 `execute` calls. Independent cells run in parallel. A later call may reference bindings declared by an earlier call in the same response when ordered left-to-right. The runtime schedules those dependencies without retrying effects. Backward dependencies and side-effect ordering are not supported.
- This contract always applies, including under custom persona, mode, and actor prompts.".

Definition FENCED_INSTRUCTIONS : string := "

This endpoint has no function-calling. To run code, emit EXACTLY ONE fenced block:
```run
<your code>
```
The runtime executes it and returns the result as the next message. Emit no fenced block when you have the final answer.".

(** ** Messages ([message.rs], [llm.rs], [sandbox.rs]) *)

Inductive Role := System_ | User | Assistant | Tool.
#[global] Instance role_eq_dec : EqDecision Role.
Proof. solve_decision. Defined.

Definition role_as_str (r : Role) : string :=
  match r with System_ => "system" | User => "user" | Assistant => "assistant" | Tool => "tool" end.

Inductive ToolChoice := ChoiceAuto | ChoiceNone | ChoiceRequired.

Definition tool_choice_as_str (c : ToolChoice) : string :=
  match c with ChoiceAuto => "auto" | ChoiceNone => "none" | ChoiceRequired => "required" end.

Record Usage := mkUsage { prompt_tokens : N; completion_tokens : N; total_tokens : N }.

Record CellBudget := mkCellBudget { cell_wall_ms : N; output_bytes : N }.
Definition cell_budget_default : CellBudget := mkCellBudget 30000 (8 * 1024).

Record ExecuteCall := mkExecute { exec_id : string; exec_code : string }.

Section Data.
Context `{JsonNumber}.

Record ToolCall := mkToolCall { call_id : string; call_name : string; call_arguments : Json }.

Record Message := mkChatMessage {
  role : Role;
  content : string;
  tool_calls : list ToolCall;
  tool_call_id : option string;
}.

Definition bare (r : Role) (text : string) : Message := mkChatMessage r text [] None.
Definition system : string -> Message := bare System_.
Definition user : string -> Message := bare User.
Definition assistant : string -> Message := bare Assistant.
Definition tool_result (id text : string) : Message := mkChatMessage Tool text [] (Some id).

Record FunctionSpec := mkFunctionSpec { fn_name : string; fn_description : string; fn_parameters : Json }.
Record ToolSpec := mkToolSpec { tool_kind : string; tool_function : FunctionSpec }.

Definition execute_tool : ToolSpec :=
  mkToolSpec "function" (mkFunctionSpec "execute"
    "Run tm-conformance-v2 code in the persistent tm-lang sandbox. Top-level forms use semicolon separators, host effects use @capability, and pipelines are data-last. Only display/final results reach you; discover granted effects with @tools.search and help @capability."
    (json_object
      [("type", JString "object"); ("additionalProperties", JBool false);
       ("properties", json_object
         [("code", json_object
           [("type", JString "string");
            ("description", JString "tm-conformance-v2 source to evaluate in the session.")])]);
       ("required", JArray [JString "code"])]%string)).

Record ChatRequest := mkChatRequest {
  req_model : string;
  req_messages : list Message;
  req_tools : list ToolSpec;
  req_tool_choice : ToolChoice;
  req_temperature : option N;
  req_max_tokens : option N;
}.

Record EvalOutput := mkEvalOutput { out_stdout : string; out_result : option Json; out_error : option string }.
End Data.

(** ** Streamed turns ([stream.rs]) *)

Inductive StreamEvent :=
| Reasoning (delta : string)
| TextDelta (delta : string)
| ToolCallDelta (index : N) (id name arguments : option string)
| Finish (reason : option string)
| UsageReport (u : Usage).

Record PartialToolCall := mkPartial { part_id : string; part_name : string; part_arguments : string }.
Definition partial_default : PartialToolCall := mkPartial "" "" "".

(** [BTreeMap<usize, PartialToolCall>]: by increasing index. *)
Abbreviation Slots := (list (N * PartialToolCall)).

(** [*calls.entry(index).or_default()], changed by [f]. *)
Fixpoint on_slot (index : N) (f : PartialToolCall -> PartialToolCall) (calls : Slots) : Slots :=
  match calls with
  | [] => [(index, f partial_default)]
  | (i, c) :: rest =>
      match (index ?= i)%N with
      | Lt => (index, f partial_default) :: calls
      | Eq => (i, f c) :: rest
      | Gt => (i, c) :: on_slot index f rest
      end
  end.

Record Accumulator := mkAccumulator {
  acc_text : string;
  acc_reasoning : string;
  acc_calls : Slots;
  acc_finish_reason : option string;
  acc_usage : option Usage;
}.

Definition acc_new : Accumulator := mkAccumulator "" "" [] None None.

(** A value that is there and not empty replaces the old one. *)
Definition replace_text (new : option string) (old : string) : string :=
  match new with Some s => if is_empty s then old else s | None => old end.

Definition add_fragment (id name arguments : option string) (slot : PartialToolCall) : PartialToolCall :=
  mkPartial (replace_text id (part_id slot)) (replace_text name (part_name slot))
    (part_arguments slot ++ default ""%string arguments).

Definition acc_push (ev : StreamEvent) (a : Accumulator) : Accumulator :=
  match a with
  | mkAccumulator text reasoning calls finish usage =>
      match ev with
      | Reasoning r => mkAccumulator text (reasoning ++ r) calls finish usage
      | TextDelta t => mkAccumulator (text ++ t) reasoning calls finish usage
      | ToolCallDelta index id name arguments =>
          mkAccumulator text reasoning (on_slot index (add_fragment id name arguments) calls) finish usage
      | Finish reason => mkAccumulator text reasoning calls reason usage
      | UsageReport u => mkAccumulator text reasoning calls finish (Some u)
      end
  end.

Section Turns.
Context `{JsonNumber} `{!TextJson}.

Record AssistantTurn := mkTurn {
  turn_text : string;
  turn_reasoning : string;
  turn_tool_calls : list ToolCall;
  turn_finish_reason : option string;
  turn_usage : option Usage;
}.

(** Arguments that are no JSON are kept as a JSON string. *)
Definition finish_call (c : PartialToolCall) : ToolCall :=
  mkToolCall (part_id c) (part_name c)
    (if is_empty (trim (part_arguments c)) then JObject []
     else default (JString (part_arguments c)) (json_of_text (part_arguments c))).

Definition into_turn (a : Accumulator) : AssistantTurn :=
  mkTurn (acc_text a) (acc_reasoning a) (finish_call <$> (acc_calls a).*2) (acc_finish_reason a) (acc_usage a).

Definition to_message (t : AssistantTurn) : Message :=
  mkChatMessage Assistant (turn_text t) (turn_tool_calls t) None.

Definition execute_call (t : AssistantTurn) : option ExecuteCall :=
  c ← List.find (fun c => String.eqb (call_name c) "execute") (turn_tool_calls t);
  Some (mkExecute (call_id c) (default ""%string (json_get "code" (call_arguments c) ≫= json_as_str))).
End Turns.

(** ** Shaped results ([shape.rs]) *)

Definition nl : string := String "010" "".

Definition DEFAULT_CAP : N := 8 * 1024.

(** [&s[start..end]]: panics unless both are char boundaries, in order. *)
Definition str_slice (start end_ : N) (s : string) : CoreOutcome string :=
  if (start <=? end_)%N && (end_ <=? str_len s)%N && is_char_boundary s start && is_char_boundary s end_
  then Ok (String.substring (N.to_nat start) (N.to_nat (end_ - start)) s) else Panicked.
Definition str_from (start : N) (s : string) : CoreOutcome string := str_slice start (str_len s) s.

Definition is_artifact_uri_boundary (c : char) : bool :=
  is_whitespace c || existsb (N.eqb c) (N_of_ascii <$> ["034"; "'"; "`"; ","; ";"; "."; "!"; ")"; "]"; "}"; ">"]%char).

Fixpoint count_digits (s : string) : N :=
  match s with
  | EmptyString => 0
  | String a s' => if digit a then (1 + count_digits s')%N else 0
  end.

Fixpoint id_value (s : string) (value : N) : N :=
  match s with
  | EmptyString => value
  | String a s' => id_value s' (10 * value + (N_of_ascii a - 48))
  end.

(** [id.parse::<u64>().ok().is_some_and(|parsed| parsed.to_string() == id)] of digits. *)
Definition canonical_id (id : string) : bool :=
  negb (is_empty id) && (id_value id 0 <? 2 ^ 64)%N && String.eqb (display_u64 (id_value id 0)) id.

Definition ARTIFACT : string := "artifact://".

(** A round of the loop goes past the scheme and at least one more byte. *)
Fixpoint artifact_uris_loop (fuel : nat) (input : string) (offset : N) (found : list string)
    : CoreOutcome (list string) :=
  match fuel with
  | O => OutOfFuel
  | S fuel =>
      rest ← str_from offset input;
      match String.index 0 ARTIFACT rest with
      | None => Ok found
      | Some relative =>
          let start := (offset + N.of_nat relative)%N in
          let digits_start := (start + str_len ARTIFACT)%N in
          after ← str_from digits_start input;
          let digits := count_digits after in
          let end_ := (digits_start + digits)%N in
          id ← str_slice digits_start end_ input;
          following ← str_from end_ input;
          let has_token_boundary := match chars following with [] => true | c :: _ => is_artifact_uri_boundary c end in
          found ← (if canonical_id id && has_token_boundary then
                     uri ← str_slice start end_ input;
                     Ok (if bool_decide (uri ∈ found) then found else found ++ [uri])
                   else Ok found);
          let offset := (digits_start + N.max digits 1)%N in
          if (str_len input <=? offset)%N then Ok found else artifact_uris_loop fuel input offset found
      end
  end.

Definition artifact_uris (input : string) : CoreOutcome (list string) :=
  artifact_uris_loop (S (String.length input)) input 0 [].

Definition floor_boundary (s : string) (idx : N) : N :=
  if (str_len s <=? idx)%N then str_len s else floor_char_boundary s idx.

(** [while idx < s.len() && !s.is_char_boundary(idx) { idx += 1; }]. *)
Fixpoint ceil_from (fuel : nat) (s : string) (idx : N) : N :=
  match fuel with
  | O => idx
  | S fuel => if (idx <? str_len s)%N && negb (is_char_boundary s idx) then ceil_from fuel s (idx + 1) else idx
  end.
Definition ceil_boundary (s : string) (idx : N) : N :=
  if (str_len s <=? idx)%N then str_len s else ceil_from (N.to_nat (str_len s - idx)) s idx.

(** References that the cut removed are appended. *)
Definition keep_reference (shaped uri : string) : string :=
  if str_contains uri shaped then shaped else shaped ++ nl ++ "full output: " ++ uri.

Definition saturating_double (n : N) : N := N.min (2 * n) (2 ^ 64 - 1).

Definition cap_text (s : string) (cap : N) : CoreOutcome string :=
  if (str_len s <=? cap)%N then Ok s
  else
    uris ← artifact_uris s;
    match uris with
    | [] =>
        Ok ("error: ResultLimitError: backend returned " ++ display_u64 (str_len s) ++ " bytes for a "
            ++ display_u64 cap ++ "-byte result budget without a readable artifact reference")%string
    | _ =>
        let head_budget := (saturating_double cap / 3)%N in
        let head := floor_boundary s head_budget in
        let tail := ceil_boundary s (str_len s - (cap - head_budget)) in
        let omitted := (tail - head)%N in
        first ← str_slice 0 head s;
        last ← str_from tail s;
        Ok (foldl keep_reference
              (first ++ nl ++ "…[" ++ display_u64 omitted ++ " bytes elided]…" ++ nl ++ last)%string
              (take 8 uris))
    end.

Section Shape.
Context `{JsonNumber} `{!JsonPretty}.

Definition result_text (result : Json) : string :=
  match result with JString s => s | other => json_pretty other end.

Definition result_parts (out : EvalOutput) : list string :=
  match out_error out with Some e => [("error: " ++ e)%string] | None => [] end
  ++ (if is_empty (out_stdout out) then [] else [("stdout:" ++ nl ++ out_stdout out)%string])
  ++ match out_result out with Some r => [("result:" ++ nl ++ result_text r)%string] | None => [] end.

Definition shape_result_capped (out : EvalOutput) (cap : N) : CoreOutcome string :=
  match result_parts out with
  | [] => Ok "(no output)"%string
  | parts => cap_text (join (nl ++ nl) parts) cap
  end.

Definition shape_result (out : EvalOutput) : CoreOutcome string := shape_result_capped out DEFAULT_CAP.
End Shape.

(** ** What a turn asks for ([agent.rs]) *)

Inductive Protocol := NativeTool | FencedBlock.
#[global] Instance protocol_eq_dec : EqDecision Protocol.
Proof. solve_decision. Defined.

Record AgentConfig := mkAgentConfig {
  model : string;
  system_prompt : string;
  max_turns : N;
  temperature : option N;
  max_tokens : option N;
  protocol : Protocol;
  cell_budget : CellBudget;
}.

Definition agent_config_default : AgentConfig :=
  mkAgentConfig "" DEFAULT_SYSTEM_PROMPT 12 None None NativeTool cell_budget_default.

Inductive TurnAction := Execute (calls : list ExecuteCall) | Final.

Definition MAX_NATIVE_EXECUTE_CALLS_PER_TURN : N := 16.

(** The blocks so far, and the label and the lines of the block that is open. *)
Definition FenceState : Type := list (string * string) * option (string * list string).

Definition FENCE : string := "```".

Definition fence_line (st : FenceState) (line : string) : CoreOutcome FenceState :=
  let '(blocks, current) := st in
  let marker := trim line in
  match current with
  | Some (label, body) =>
      if String.eqb marker FENCE then
        let code := trim (join nl body) in
        if is_empty code then protocol_error "fenced block contains no content"
        else Ok (blocks ++ [(label, code)], None)
      else if starts_with FENCE marker then protocol_error "fenced block has a malformed closing marker"
      else Ok (blocks, Some (label, body ++ [line]))
  | None => if starts_with FENCE marker then Ok (blocks, Some (str_drop 3 marker, [])) else Ok (blocks, None)
  end.

Fixpoint fence_lines (st : FenceState) (ls : list string) : CoreOutcome FenceState :=
  match ls with
  | [] => Ok st
  | line :: ls => st ← fence_line st line; fence_lines st ls
  end.

Definition parse_fenced (text : string) : CoreOutcome (option string) :=
  '(blocks, current) ← fence_lines ([], None) (Strings.lines text);
  match current with
  | Some _ => protocol_error "unterminated fenced block"
  | None =>
      match blocks with
      | [] => Ok None
      | [(label, code)] => if String.eqb label "run" then Ok (Some code) else Ok None
      | _ => protocol_error ("expected at most one fenced block, received " ++ display_u64 (len blocks))
      end
  end.

Section Actions.
Context `{JsonNumber} `{!TextJson}.

Definition is_reason (reason : string) (t : AssistantTurn) : bool :=
  match turn_finish_reason t with Some r => String.eqb r reason | None => false end.

Definition validate_completion_state (t : AssistantTurn) : CoreOutcome unit :=
  if is_reason "length" t then protocol_error "completion ended at the token limit"
  else if is_reason "content_filter" t then protocol_error "completion was stopped by a content filter"
  else
    match turn_tool_calls t, turn_finish_reason t with
    | [], None =>
        if is_empty (turn_text t)
        then protocol_error "completion stream ended without content, tool calls, or a finish reason"
        else Ok tt
    | _, _ => Ok tt
    end.

Definition validate_call (ids : list string) (call : ToolCall) : CoreOutcome ExecuteCall :=
  if is_empty (trim (call_id call)) then protocol_error ("tool " ++ call_name call ++ " is missing a call id")
  else if bool_decide (call_id call ∈ ids) then protocol_error ("duplicate tool call id " ++ call_id call)
  else if negb (String.eqb (call_name call) "execute")
  then protocol_error ("model returned non-execute tool " ++ call_name call)
  else
    match call_arguments call with
    | JObject arguments =>
        if negb (length arguments =? 1)%nat || negb (bm_contains "code" arguments)
        then protocol_error "execute accepts exactly one code argument"
        else
          match bm_get "code" arguments ≫= json_as_str with
          | None => protocol_error "execute requires a string code argument"
          | Some code =>
              if is_empty (trim code) then protocol_error "execute requires non-empty code"
              else Ok (mkExecute (call_id call) code)
          end
    | _ => protocol_error ("tool " ++ call_name call ++ " arguments are not a JSON object")
    end.

Fixpoint validate_calls (ids : list string) (calls : list ToolCall) : CoreOutcome (list ExecuteCall) :=
  match calls with
  | [] => Ok []
  | call :: calls =>
      c ← validate_call ids call;
      rest ← validate_calls (ids ++ [call_id call]) calls;
      Ok (c :: rest)
  end.

Definition validate_native_turn (t : AssistantTurn) : CoreOutcome TurnAction :=
  validate_completion_state t;;
  let calls := turn_tool_calls t in
  if (MAX_NATIVE_EXECUTE_CALLS_PER_TURN <? len calls)%N
  then protocol_error ("expected at most " ++ display_u64 MAX_NATIVE_EXECUTE_CALLS_PER_TURN
                       ++ " execute tool calls, received " ++ display_u64 (len calls))
  else
    match calls with
    | [] =>
        if is_reason "tool_calls" t
        then protocol_error "completion reported tool_calls without a complete tool call"
        else Ok Final
    | _ => calls ← validate_calls [] calls; Ok (Execute calls)
    end.

Definition turn_action (p : Protocol) (t : AssistantTurn) : CoreOutcome TurnAction :=
  match p with
  | NativeTool => validate_native_turn t
  | FencedBlock =>
      validate_completion_state t;;
      match turn_tool_calls t with
      | _ :: _ => protocol_error "fenced-block endpoint returned native tool calls"
      | [] =>
          found ← parse_fenced (turn_text t);
          Ok match found with Some code => Execute [mkExecute "" code] | None => Final end
      end
  end.
End Actions.

(** ** Questions *)

Section Loop.
Context `{JsonNumber} `{!TextJson} `{!JsonPretty}.

(** What the loop awaits. *)
Inductive Future :=
| OpenSession
| DrainInbox
| ChatStream (request : ChatRequest)
| NextEvent
| EvalBatch (codes : list string) (budget : CellBudget).

Definition future_output (f : Future) : Type :=
  match f with
  | OpenSession => CoreError + unit
  | DrainInbox => CoreError + list string
  | ChatStream _ => CoreError + list (CoreError + StreamEvent)
  | NextEvent => unit
  | EvalBatch _ _ => CoreError + list EvalOutput
  end.

Inductive SinkCall :=
| OnReasoning (delta : string)
| OnText (delta : string)
| OnToolCall (name : string)
| OnTurnEnd
| OnCellStart (code : string)
| OnCellResult (shaped : string)
| OnFinal (text : string).

(** [Select f] awaits [f] and the token at once; without an answer the token won. *)
Inductive CoreQuery :=
| TokenCancelled
| Await (f : Future)
| Select (f : Future)
| Notify (c : SinkCall)
| HandlesCancellation.

Definition CoreAnswer (q : CoreQuery) : Type :=
  match q with
  | TokenCancelled => bool
  | Await f => future_output f
  | Select f => option (future_output f)
  | Notify _ => CoreError + unit
  | HandlesCancellation => bool
  end.

Definition CoreProg (A : Type) : Type := Io CoreAnswer A.

#[global] Instance core_ret : MRet CoreProg := fun A a => Ret a.
#[global] Instance core_bind : MBind CoreProg := fun A B k m => io_bind k m.

(** [?] after an [await]. *)
Definition core_try {A B} (m : CoreProg (CoreOutcome A)) (k : A -> CoreProg (CoreOutcome B)) : CoreProg (CoreOutcome B) :=
  r ← m;
  match r with
  | Ok a => k a
  | Err e => mret (Err e)
  | Panicked => mret Panicked
  | OutOfFuel => mret OutOfFuel
  end.

Declare Scope core_scope.
Notation "'let!' x := m 'in' k" := (core_try m (fun x => k))
  (at level 10, x pattern, m at level 100, k at level 200) : core_scope.
Notation "'have!' x := r 'in' k" := (core_try (mret r) (fun x => k))
  (at level 10, x pattern, r at level 100, k at level 200) : core_scope.
Open Scope core_scope.

Definition notify (c : SinkCall) : CoreProg (CoreOutcome unit) :=
  r ← (Ask (Notify c) Ret : CoreProg (CoreError + unit)); mret (of_sum r).

(** ** The loop ([agent.rs])

    [token] and [inbox] say whether the caller gave a cancellation token and an inbox. *)
Variables (cfg : AgentConfig) (token inbox : bool).

Definition check_cancelled : CoreProg (CoreOutcome unit) :=
  if token then
    cancelled ← (Ask TokenCancelled Ret : CoreProg bool);
    mret (if (cancelled : bool) then Err RunCancelled else Ok tt)
  else mret (Ok tt).

Definition await_cancellable (f : Future) : CoreProg (CoreOutcome (future_output f)) :=
  if token then
    let! _ := check_cancelled in
    r ← (Ask (Select f) Ret : CoreProg (option (future_output f)));
    mret match r with Some o => Ok o | None => Err RunCancelled end
  else
    o ← (Ask (Await f) Ret : CoreProg (future_output f));
    mret (Ok o).

Definition system_message : Message :=
  system (TM_RUNTIME_BOOT_CONTRACT
          ++ (if is_empty (trim (system_prompt cfg)) then "" else nl ++ nl ++ system_prompt cfg)
          ++ match protocol cfg with FencedBlock => FENCED_INSTRUCTIONS | NativeTool => "" end)%string.

Definition build_request (messages : list Message) : ChatRequest :=
  let '(tools, choice) := match protocol cfg with
                          | NativeTool => ([execute_tool], ChoiceAuto)
                          | FencedBlock => ([], ChoiceNone)
                          end in
  mkChatRequest (model cfg) messages tools choice (temperature cfg) (max_tokens cfg).

Definition inbox_message (text : string) : Message := user ("[actor inbox]" ++ nl ++ text).

Fixpoint push_pending (pending : list string) (messages : list Message) : CoreProg (CoreOutcome (list Message)) :=
  match pending with
  | [] => mret (Ok messages)
  | text :: pending =>
      let! _ := check_cancelled in
      push_pending pending (messages ++ [inbox_message text])
  end.

Definition drain_inbox (messages : list Message) : CoreProg (CoreOutcome (list Message)) :=
  if inbox then
    let! drained := await_cancellable DrainInbox in
    have! pending := of_sum drained in
    push_pending pending messages
  else mret (Ok messages).

Definition announce (ev : StreamEvent) : CoreProg (CoreOutcome unit) :=
  match ev with
  | Reasoning r => notify (OnReasoning r)
  | TextDelta t => notify (OnText t)
  | ToolCallDelta _ _ (Some name) _ => if is_empty name then mret (Ok tt) else notify (OnToolCall name)
  | _ => mret (Ok tt)
  end.

Fixpoint stream_turn (items : list (CoreError + StreamEvent)) (acc : Accumulator) : CoreProg (CoreOutcome Accumulator) :=
  let! _ := await_cancellable NextEvent in
  match items with
  | [] => mret (Ok acc)
  | item :: items =>
      let! _ := check_cancelled in
      have! ev := of_sum item in
      let! _ := announce ev in
      stream_turn items (acc_push ev acc)
  end.

Fixpoint announce_cells (calls : list ExecuteCall) : CoreProg (CoreOutcome unit) :=
  match calls with
  | [] => mret (Ok tt)
  | call :: calls =>
      let! _ := check_cancelled in
      let! _ := notify (OnCellStart (exec_code call)) in
      announce_cells calls
  end.

(** A session that handles cancellation itself is not raced against the token. *)
Definition eval_calls (calls : list ExecuteCall) : CoreProg (CoreOutcome (list EvalOutput)) :=
  let eval := EvalBatch (exec_code <$> calls) (cell_budget cfg) in
  handles ← (Ask HandlesCancellation Ret : CoreProg bool);
  let! outputs := (if (handles : bool)
                   then o ← (Ask (Await eval) Ret : CoreProg (future_output eval)); mret (Ok o)
                   else await_cancellable eval) in
  mret (of_sum (outputs : future_output eval)).

Definition result_message (call : ExecuteCall) (shaped : string) : Message :=
  match protocol cfg with
  | NativeTool => tool_result (exec_id call) shaped
  | FencedBlock => user ("[execution result]" ++ nl ++ shaped)
  end.

Fixpoint feed_back (pairs : list (ExecuteCall * EvalOutput)) (messages : list Message)
    : CoreProg (CoreOutcome (list Message)) :=
  match pairs with
  | [] => mret (Ok messages)
  | (call, out) :: pairs =>
      let! _ := check_cancelled in
      have! shaped := shape_result_capped out (output_bytes (cell_budget cfg)) in
      let! _ := notify (OnCellResult shaped) in
      feed_back pairs (messages ++ [result_message call shaped])
  end.

(** [for _ in 0..max_turns]. *)
Fixpoint run_turns (turns : nat) (messages : list Message) : CoreProg (CoreOutcome string) :=
  match turns with
  | O => mret (Err (TurnBudget (max_turns cfg)))
  | S turns =>
      let! _ := check_cancelled in
      let! messages := drain_inbox messages in
      let! opened := await_cancellable (ChatStream (build_request messages)) in
      have! items := of_sum opened in
      let! acc := stream_turn items acc_new in
      let! _ := notify OnTurnEnd in
      let turn := into_turn acc in
      have! action := turn_action (protocol cfg) turn in
      let messages := messages ++ [to_message turn] in
      match action with
      | Final =>
          let! _ := notify (OnFinal (turn_text turn)) in
          mret (Ok (turn_text turn))
      | Execute calls =>
          let! _ := announce_cells calls in
          let! outputs := eval_calls calls in
          if negb (length outputs =? length calls)%nat
          then mret (Err (Sandbox ("session returned " ++ display_u64 (len outputs) ++ " results for "
                                   ++ display_u64 (len calls) ++ " execute calls")))
          else
            let! messages := feed_back (zip calls outputs) messages in
            run_turns turns messages
      end
  end.

Definition run_with_session_and_controls (question : string) (prior : list Message) : CoreProg (CoreOutcome string) :=
  run_turns (N.to_nat (max_turns cfg)) (system_message :: prior ++ [user question]).

Definition run_with_prior_messages_and_controls (question : string) (prior : list Message)
    : CoreProg (CoreOutcome string) :=
  let! _ := check_cancelled in
  let! opened := await_cancellable OpenSession in
  have! _ := of_sum opened in
  run_with_session_and_controls question prior.

Definition run_with_controls (question : string) : CoreProg (CoreOutcome string) :=
  run_with_prior_messages_and_controls question [].
End Loop.

(** ** Entry points and defaults of the traits *)

Section Entries.
Context `{JsonNumber} `{!TextJson} `{!JsonPretty}.
Variable cfg : AgentConfig.

Definition run_with_inbox (inbox : bool) (question : string) : CoreProg (CoreOutcome string) :=
  run_with_controls cfg false inbox question.

Definition agent_run (question : string) : CoreProg (CoreOutcome string) := run_with_inbox false question.

Definition run_with_session (question : string) (prior : list Message) : CoreProg (CoreOutcome string) :=
  run_with_session_and_controls cfg false false question prior.

Fixpoint drain_stream (items : list (CoreError + StreamEvent)) (acc : Accumulator) : CoreOutcome Accumulator :=
  match items with
  | [] => Ok acc
  | item :: items => ev ← of_sum item; drain_stream items (acc_push ev acc)
  end.

(** [LlmClient::chat]. *)
Definition chat (request : ChatRequest) : CoreProg (CoreOutcome AssistantTurn) :=
  opened ← (Ask (Await (ChatStream request)) Ret : CoreProg (future_output (ChatStream request)));
  mret (items ← of_sum (opened : CoreError + list (CoreError + StreamEvent));
        acc ← drain_stream items acc_new; Ok (into_turn acc)).

(** [Session::eval_batch] over [Session::eval]. *)
Fixpoint eval_batch_default (eval : string -> CellBudget -> CoreProg (CoreOutcome EvalOutput)) (budget : CellBudget)
    (codes : list string) : CoreProg (CoreOutcome (list EvalOutput)) :=
  match codes with
  | [] => mret (Ok [])
  | code :: codes =>
      core_try (eval code budget) (fun out =>
      core_try (eval_batch_default eval budget codes) (fun outs => mret (Ok (out :: outs))))
  end.
End Entries.
