(* ===== verification/CoreFacts.v ===== *)
(** * Facts about the agent loop

    Streams are put together independently of how their fragments interleave; code in
    a fenced block runs only when it is the sole block; requests keep to the contract
    of the chat interface, code runs only when the model asked for it in the turn just
    streamed, nothing happens after a cancellation was seen, and a run ends within its
    turns. *)

From stdpp Require Import base tactics list sets strings sorting.
From Stdlib Require Import NArith Lia Ascii Sorted.
From S2P Require Import Prelude BTree Text Strings Catalog Value Limits Render ServerBase Io Core ValueFacts.

(** ** Streams *)

Fixpoint streamed_text (evs : list StreamEvent) : string :=
  match evs with
  | [] => ""
  | TextDelta t :: evs => t ++ streamed_text evs
  | _ :: evs => streamed_text evs
  end.

(** The fragments of the tool call at an index. *)
Fixpoint fragments (index : N) (evs : list StreamEvent) : list (option string * option string * option string) :=
  match evs with
  | [] => []
  | ToolCallDelta i id name arguments :: evs =>
      if (i =? index)%N then (id, name, arguments) :: fragments index evs else fragments index evs
  | _ :: evs => fragments index evs
  end.

Fixpoint indexes (evs : list StreamEvent) : list N :=
  match evs with
  | [] => []
  | ToolCallDelta i _ _ _ :: evs => i :: indexes evs
  | _ :: evs => indexes evs
  end.

(** The last text that is there and not empty. *)
Definition last_text (values : list (option string)) : string := foldl (fun old new => replace_text new old) "" values.

Definition assembled (fs : list (option string * option string * option string)) : PartialToolCall :=
  mkPartial (last_text (fs.*1.*1)) (last_text (fs.*1.*2)) (foldr (fun f s => default "" f.2 ++ s) "" fs)%string.

Definition accumulate (evs : list StreamEvent) : Accumulator := foldl (fun a ev => acc_push ev a) acc_new evs.

Lemma streamed_text_app evs evs' : streamed_text (evs ++ evs') = (streamed_text evs ++ streamed_text evs')%string.
Proof. induction evs as [|[] evs IH]; cbn; rewrite ?IH, ?string_app_assoc; done. Qed.

Lemma fragments_app i evs evs' : fragments i (evs ++ evs') = fragments i evs ++ fragments i evs'.
Proof. induction evs as [|[] evs IH]; cbn; rewrite ?IH; try done. by destruct (_ =? _)%N. Qed.

Lemma indexes_app evs evs' : indexes (evs ++ evs') = indexes evs ++ indexes evs'.
Proof. induction evs as [|[] evs IH]; cbn; rewrite ?IH; done. Qed.

Lemma arguments_app fs fs' :
  foldr (fun f s => default "" f.2 ++ s)%string "" (fs ++ fs')
  = (foldr (fun f s => default "" f.2 ++ s) "" fs
     ++ foldr (fun f s => default "" f.2 ++ s) "" (fs' : list (option string * option string * option string)))%string.
Proof. induction fs as [|f fs IH]; cbn; [done|]. by rewrite IH, string_app_assoc. Qed.

Lemma assembled_snoc fs id name arguments :
  assembled (fs ++ [(id, name, arguments)]) = add_fragment id name arguments (assembled fs).
Proof.
  unfold assembled, add_fragment, last_text. rewrite !fmap_app, !foldl_app, arguments_app. cbn.
  by rewrite string_app_nil_r.
Qed.

Lemma on_slot_keys index f calls :
  StronglySorted N.lt calls.*1 ->
  StronglySorted N.lt (on_slot index f calls).*1
  /\ (forall i, i ∈ (on_slot index f calls).*1 <-> i = index \/ i ∈ calls.*1).
Proof.
  induction calls as [|[i c] calls IH]; cbn [on_slot]; intros Hs.
  - split; [repeat constructor|]. intros j. cbn. set_solver.
  - inversion Hs as [|? ? Hs' Hf]; subst. destruct (N.compare_spec index i) as [->|Hlt|Hgt]; cbn.
    + split; [done|]. intros j. rewrite !elem_of_cons. tauto.
    + split; [|intros j; rewrite !elem_of_cons; tauto]. constructor; [done|]. constructor; [done|].
      eapply Forall_impl; [exact Hf|]. intros j Hj. lia.
    + destruct (IH Hs') as [IH1 IH2]. split; [|intros j; rewrite !elem_of_cons, IH2; tauto]. constructor; [done|]. apply Forall_forall. intros j Hj.
      apply IH2 in Hj as [->|Hj]; [done|]. rewrite Forall_forall in Hf. by apply Hf.
Qed.

Lemma on_slot_entries index f calls i c :
  StronglySorted N.lt calls.*1 -> (i, c) ∈ on_slot index f calls ->
  (i <> index /\ (i, c) ∈ calls)
  \/ (i = index /\ ((index ∉ calls.*1 /\ c = f partial_default) \/ exists c0, (index, c0) ∈ calls /\ c = f c0)).
Proof.
  induction calls as [|[j d] calls IH]; cbn [on_slot]; intros Hs Hin.
  - apply list_elem_of_singleton in Hin as [= -> ->]. right. split; [done|]. left. split; [set_solver|done].
  - inversion Hs as [|? ? Hs' Hf]; subst. rewrite Forall_forall in Hf. destruct (N.compare_spec index j) as [->|Hlt|Hgt].
    + apply elem_of_cons in Hin as [[= -> ->]|Hin].
      * right. split; [done|]. right. exists d. split; [set_solver|done].
      * left. split; [|by apply elem_of_cons; right]. intros ->. apply (list_elem_of_fmap_2 fst) in Hin. cbn in Hin.
        specialize (Hf _ Hin). lia.
    + apply elem_of_cons in Hin as [[= -> ->]|Hin].
      * right. split; [done|]. left. split; [|done]. cbn. intros [->|Hj]%elem_of_cons; [lia|]. specialize (Hf _ Hj). cbn in Hf. lia.
      * left. split; [|done]. intros ->. apply (list_elem_of_fmap_2 fst) in Hin. cbn in Hin.
        apply elem_of_cons in Hin as [->|Hin]; [lia|]. specialize (Hf _ Hin). cbn in Hf. lia.
    + apply elem_of_cons in Hin as [[= -> ->]|Hin].
      * left. split; [lia|set_solver].
      * destruct (IH Hs' Hin) as [[Hn Hi]|[-> [[Hn ->]|(c0 & Hi & ->)]]].
        -- left. set_solver.
        -- right. split; [done|]. left. split; [|done]. cbn. intros [->|Hj]%elem_of_cons; [lia|done].
        -- right. split; [done|]. right. exists c0. set_solver.
Qed.

Lemma accumulate_snoc evs ev : accumulate (evs ++ [ev]) = acc_push ev (accumulate evs).
Proof. unfold accumulate. by rewrite foldl_app. Qed.

Lemma accumulate_text evs : acc_text (accumulate evs) = streamed_text evs.
Proof.
  induction evs as [|ev evs IH] using rev_ind; [done|]. rewrite accumulate_snoc, streamed_text_app.
  destruct (accumulate evs), ev; cbn in *; rewrite ?string_app_nil_r; congruence.
Qed.

Definition slots_ok (evs : list StreamEvent) (calls : Slots) : Prop :=
  StronglySorted N.lt calls.*1
  /\ (forall i, i ∈ calls.*1 <-> i ∈ indexes evs)
  /\ forall i c, (i, c) ∈ calls -> c = assembled (fragments i evs).

Lemma fragments_nil i evs : i ∉ indexes evs -> fragments i evs = [].
Proof.
  induction evs as [|[] evs IH]; cbn; auto. intros Hi. apply not_elem_of_cons in Hi as [Hn Hi].
  rewrite (proj2 (N.eqb_neq _ _)) by congruence. auto.
Qed.

Lemma accumulate_slots evs : slots_ok evs (acc_calls (accumulate evs)).
Proof.
  induction evs as [|ev evs (Hs & Hk & Hc)] using rev_ind.
  { split_and!; [constructor|done|]. intros i c Hin. by apply elem_of_nil in Hin. }
  rewrite accumulate_snoc. destruct (accumulate evs) as [text reasoning calls finish usage]. cbn in Hs, Hk, Hc.
  unfold slots_ok. destruct ev as [d|d|index id name arguments|r|u]; cbn [acc_push acc_calls].
  3: {
    destruct (on_slot_keys index (add_fragment id name arguments) calls Hs) as [Hs' Hk']. split_and!; [done| |].
    - intros i. rewrite Hk', indexes_app, elem_of_app, Hk. cbn. set_solver.
    - intros i c Hin. rewrite fragments_app. cbn [fragments].
      destruct (on_slot_entries _ _ _ _ _ Hs Hin) as [[Hn Hi]|[-> [[Hn ->]|(c0 & Hi & ->)]]].
      + rewrite (proj2 (N.eqb_neq _ _)) by congruence. rewrite app_nil_r. by apply Hc.
      + rewrite N.eqb_refl, assembled_snoc, fragments_nil; [done|]. by rewrite <- Hk.
      + rewrite N.eqb_refl, assembled_snoc. by rewrite <- (Hc _ _ Hi). }
  all: split_and!; [done| |intros i c Hin; rewrite fragments_app; cbn [fragments]; rewrite app_nil_r; by apply Hc].
  all: intros i; rewrite indexes_app, elem_of_app, Hk; cbn; set_solver.
Qed.

(** The indexes that occur, in increasing order. *)
Definition ordered_indexes (evs : list StreamEvent) : list N := merge_sort N.le (remove_dups (indexes evs)).

Lemma sorted_lt_le (l : list N) : StronglySorted N.lt l -> StronglySorted N.le l.
Proof.
  induction 1 as [|i l Hs IH Hf]; constructor; [done|]. eapply Forall_impl; [exact Hf|]. cbn. lia.
Qed.

Lemma sorted_lt_nodup (l : list N) : StronglySorted N.lt l -> NoDup l.
Proof.
  induction 1 as [|i l Hs IH Hf]; constructor; [|done]. intros Hi. rewrite Forall_forall in Hf. specialize (Hf _ Hi). lia.
Qed.

Lemma slots_are evs calls :
  slots_ok evs calls -> calls = (fun i => (i, assembled (fragments i evs))) <$> ordered_indexes evs.
Proof.
  intros (Hs & Hk & Hc). assert (Hkeys : calls.*1 = ordered_indexes evs).
  { apply (StronglySorted_unique N.le); [by apply sorted_lt_le|apply StronglySorted_merge_sort; apply _|].
    unfold ordered_indexes. rewrite merge_sort_Permutation. apply NoDup_Permutation; [by apply sorted_lt_nodup|apply NoDup_remove_dups|].
    intros i. by rewrite elem_of_remove_dups, Hk. }
  rewrite <- Hkeys. rewrite <- list_fmap_compose. clear Hkeys Hk Hs. induction calls as [|[i c] calls IH]; [done|]. cbn.
  f_equal; [|apply IH; set_solver]. f_equal. apply Hc. set_solver.
Qed.

Section Streams.
Context `{JsonNumber} `{!TextJson}.

(** C30: Streams are put together.  The turn made of a stream of events has the
    fragments of text in order as its text, and one tool call per index that occurs,
    by increasing index: its arguments are the fragments of that index in order, its
    id and name the last ones that were not empty.  How fragments of different calls
    and streamed_text interleave in the stream makes no difference. *)
Theorem turn_assembled evs :
  turn_text (into_turn (accumulate evs)) = streamed_text evs
  /\ turn_tool_calls (into_turn (accumulate evs))
     = (fun i => finish_call (assembled (fragments i evs))) <$> ordered_indexes evs.
Proof.
  split; [apply accumulate_text|]. cbn. rewrite (slots_are evs _ (accumulate_slots evs)).
  by rewrite <- !list_fmap_compose.
Qed.
End Streams.

(** ** Fenced blocks *)

Definition plain_line (line : string) : Prop := starts_with FENCE (trim line) = false.

Lemma plain_not_fence line : plain_line line -> String.eqb (trim line) FENCE = false.
Proof. unfold plain_line. intros Hp. apply String.eqb_neq. intros E. by rewrite E in Hp. Qed.

Lemma fence_plain blocks pre rest :
  Forall plain_line pre -> fence_lines (blocks, None) (pre ++ rest) = fence_lines (blocks, None) rest.
Proof. induction 1 as [|l pre Hl Hp IH]; [done|]. cbn. unfold plain_line in Hl. by rewrite Hl. Qed.

Lemma fence_body blocks label body rest : forall before,
  Forall plain_line body ->
  fence_lines (blocks, Some (label, before)) (body ++ rest) = fence_lines (blocks, Some (label, before ++ body)) rest.
Proof.
  induction body as [|l body IH]; intros before Hb; cbn [app]; [by rewrite app_nil_r|].
  inversion Hb as [|? ? Hl Hb']; subst. cbn [fence_lines fence_line]. rewrite (plain_not_fence l Hl).
  unfold plain_line in Hl. rewrite Hl. cbn. rewrite IH by done. by rewrite <- app_assoc.
Qed.

(** How an open block goes on: it is closed, or it stays open. *)
Lemma fence_open blocks label ls st : forall before,
  fence_lines (blocks, Some (label, before)) ls = Ok st ->
  (Forall plain_line ls /\ st = (blocks, Some (label, before ++ ls)))
  \/ exists body closer post,
       ls = body ++ closer :: post /\ Forall plain_line body /\ trim closer = FENCE
       /\ is_empty (trim (join nl (before ++ body))) = false
       /\ fence_lines (blocks ++ [(label, trim (join nl (before ++ body)))], None) post = Ok st.
Proof.
  induction ls as [|l ls IH]; intros before Hok.
  - left. split; [done|]. injection Hok as <-. by rewrite app_nil_r.
  - cbn [fence_lines fence_line] in Hok. destruct (String.eqb (trim l) FENCE) eqn:Ef.
    + apply String.eqb_eq in Ef. destruct (is_empty (trim (join nl before))) eqn:Ee; [done|].
      right. exists [], l, ls. rewrite app_nil_r. by split_and!.
    + destruct (starts_with FENCE (trim l)) eqn:Es; [done|]. cbn in Hok.
      destruct (IH _ Hok) as [[Hp ->]|(body & closer & post & -> & Hb & Hc & He & Hr)].
      * left. split; [by constructor|]. by rewrite <- app_assoc.
      * right. exists (l :: body), closer, post. rewrite <- app_assoc in He, Hr. split_and!; try done. by constructor.
Qed.

(** Outside a block: all lines are plain_line, or the first that is not opens a block. *)
Lemma fence_closed blocks ls :
  Forall plain_line ls
  \/ exists pre opener rest,
       ls = pre ++ opener :: rest /\ Forall plain_line pre /\ starts_with FENCE (trim opener) = true
       /\ fence_lines (blocks, None) ls = fence_lines (blocks, Some (str_drop 3 (trim opener), [])) rest.
Proof.
  induction ls as [|l ls IH]; [left; constructor|]. destruct (starts_with FENCE (trim l)) eqn:Es.
  - right. exists [], l, ls. split_and!; try done. cbn. by rewrite Es.
  - destruct IH as [Hp|(pre & opener & rest & -> & Hp & Ho & Hr)]; [left; by constructor|].
    right. exists (l :: pre), opener, rest. split_and!; try done; [by constructor|]. cbn [app fence_lines fence_line].
    rewrite Es. exact Hr.
Qed.

Lemma fence_grows ls : forall blocks blocks',
  fence_lines (blocks, None) ls = Ok (blocks', None) ->
  (Forall plain_line ls /\ blocks' = blocks) \/ (length blocks < length blocks')%nat.
Proof.
  induction ls as [ls IH] using (induction_ltof1 _ (@length string)). unfold ltof in IH. intros blocks blocks' Hok.
  destruct (fence_closed blocks ls) as [Hp|(pre & opener & rest & -> & Hp & Ho & Hr)].
  - left. split; [done|]. rewrite <- (app_nil_r ls), (fence_plain blocks ls [] Hp) in Hok. by injection Hok.
  - right. rewrite Hr in Hok. destruct (fence_open _ _ _ _ _ Hok) as [[_ E]|(body & closer & post & -> & _ & _ & _ & Hok')]; [done|].
    assert (Hlen : (length post < length (pre ++ opener :: body ++ closer :: post))%nat).
    { rewrite !length_app. cbn. rewrite length_app. cbn. lia. }
    destruct (IH post Hlen _ _ Hok') as [[_ ->]|Hl]; [rewrite length_app; cbn; lia|]. rewrite length_app in Hl. cbn in Hl. lia.
Qed.

Lemma fence_label marker : starts_with FENCE marker = true -> marker = (FENCE ++ str_drop 3 marker)%string.
Proof.
  unfold starts_with, FENCE. destruct marker as [|a [|b [|c m]]]; cbn [String.prefix]; intros Hp;
    repeat (case_match; [|discriminate Hp]); try discriminate Hp.
  subst. change (str_drop 3 _) with (String.substring 0 (String.length m - 0) m). by rewrite Nat.sub_0_r, substring_all.
Qed.

(** C31: The code of a fenced block.  An answer in the fenced protocol leads to the
    execution of code exactly when its lines are one block that is opened by the marker
    with the label run and closed by the bare marker, with no other marker before, in
    or after it, and a content that is not blank; the code is that content, trimmed. *)
Theorem fenced_code_exact text code :
  parse_fenced text = Ok (Some code) <->
  exists pre opener body closer post,
    Strings.lines text = pre ++ opener :: body ++ closer :: post
    /\ Forall plain_line (pre ++ body ++ post)
    /\ trim opener = (FENCE ++ "run")%string /\ trim closer = FENCE
    /\ code = trim (join nl body) /\ code <> ""%string.
Proof.
  unfold parse_fenced. set (ls := Strings.lines text). split.
  - destruct (fence_lines ([], None) ls) as [[blocks current]|e| |] eqn:Hok; try done. cbn.
    destruct current as [|]; [done|]. destruct blocks as [|[label c] [|]]; try done.
    destruct (String.eqb label "run") eqn:El; [|done]. apply String.eqb_eq in El as ->. intros [= <-].
    destruct (fence_closed [] ls) as [Hp|(pre & opener & rest & E & Hp & Ho & Hr)].
    { rewrite <- (app_nil_r ls), (fence_plain [] ls [] Hp) in Hok. done. }
    rewrite Hr in Hok. destruct (fence_open _ _ _ _ _ Hok) as [[_ Ef]|(body & closer & post & -> & Hb & Hc & He & Hok')]; [done|].
    cbn [app] in *. destruct (fence_grows _ _ _ Hok') as [[Hpost [= El Ec]]|Hl]; [|cbn in Hl; lia].
    exists pre, opener, body, closer, post. split_and!; try done.
    + by rewrite !Forall_app.
    + rewrite (fence_label _ Ho). by rewrite <- El.
    + intros ->. by rewrite <- Ec in He.
  - intros (pre & opener & body & closer & post & -> & Hpl & Ho & Hc & -> & Hne).
    apply Forall_app in Hpl as [Hp Hpl]. apply Forall_app in Hpl as [Hb Hpost].
    rewrite fence_plain by done. cbn [fence_lines fence_line]. rewrite Ho. cbn [starts_with String.prefix].
    change (starts_with FENCE (FENCE ++ "run")) with true. cbn [mbind outcome_bind].
    change (str_drop 3 (FENCE ++ "run")) with "run"%string.
    rewrite fence_body by done. cbn [app fence_lines fence_line]. rewrite Hc, String.eqb_refl.
    rewrite (proj2 (String.eqb_neq _ _ : is_empty _ = false <-> _) Hne). cbn [mbind outcome_bind app].
    rewrite <- (app_nil_r post), fence_plain by done. done.
Qed.

(** ** What a validated turn has *)

Section Validated.
Context `{JsonNumber} `{!TextJson}.

Definition call_sound (call : ToolCall) (c : ExecuteCall) : Prop :=
  exec_id c = call_id call /\ call_name call = "execute"%string
  /\ is_empty (trim (call_id call)) = false /\ is_empty (trim (exec_code c)) = false
  /\ json_get "code" (call_arguments call) = Some (JString (exec_code c)).

Lemma validate_call_sound ids call c : validate_call ids call = Ok c -> call_sound call c /\ call_id call ∉ ids.
Proof.
  unfold validate_call. destruct (is_empty (trim (call_id call))) eqn:Ei; [done|]. case_bool_decide as Hin; [done|].
  destruct (String.eqb (call_name call) "execute") eqn:En; [|done]. cbn [negb]. apply String.eqb_eq in En.
  destruct (call_arguments call) as [| | | | |arguments] eqn:Ea; try done.
  destruct (_ || _); [done|]. destruct (bm_get "code" arguments) as [j|] eqn:Eg; [|done]. cbn [mbind option_bind].
  destruct j as [| | |code| |]; cbn; try done. destruct (is_empty (trim code)) eqn:Ec; [done|]. intros [= <-].
  unfold call_sound. rewrite Ea. cbn. by rewrite Eg.
Qed.

Lemma validate_calls_sound calls : forall ids cs,
  validate_calls ids calls = Ok cs ->
  Forall2 call_sound calls cs /\ NoDup (call_id <$> calls) /\ Forall (fun id => id ∉ ids) (call_id <$> calls).
Proof.
  induction calls as [|call calls IH]; intros ids cs; cbn [validate_calls].
  - intros [= <-]. split_and!; constructor.
  - destruct (validate_call ids call) as [c| | |] eqn:Ec; try done. cbn [mbind outcome_bind].
    destruct (validate_calls _ calls) as [rest| | |] eqn:Er; try done. intros [= <-].
    apply validate_call_sound in Ec as [Hs Hn]. destruct (IH _ _ Er) as (Hf & Hd & Ha). split_and!.
    + by constructor.
    + cbn. constructor; [|done]. intros Hin. rewrite Forall_forall in Ha. specialize (Ha _ Hin). set_solver.
    + cbn. constructor; [done|]. eapply Forall_impl; [exact Ha|]. cbn. set_solver.
Qed.

(** Native calls: each tool call of the turn once, in order. *)
Lemma native_sound t calls :
  validate_native_turn t = Ok (Execute calls) ->
  Forall2 call_sound (turn_tool_calls t) calls /\ NoDup (call_id <$> turn_tool_calls t)
  /\ (0 < length calls <= 16)%nat.
Proof.
  unfold validate_native_turn. destruct (validate_completion_state t) as [u| | |]; try done. cbn [mbind outcome_bind].
  destruct (_ <? _)%N eqn:El; [done|]. destruct (turn_tool_calls t) as [|c0 rest] eqn:Et; [by destruct (is_reason _ _)|].
  destruct (validate_calls [] _) as [cs| | |] eqn:Ev; try done. cbn. intros [= <-].
  destruct (validate_calls_sound _ _ _ Ev) as (Hf & Hd & _). split_and!; try done.
  - rewrite <- (Forall2_length _ _ _ Hf). cbn. lia.
  - rewrite <- (Forall2_length _ _ _ Hf). apply N.ltb_ge in El. unfold len, MAX_NATIVE_EXECUTE_CALLS_PER_TURN in El. lia.
Qed.

Lemma fenced_sound t calls :
  turn_action FencedBlock t = Ok (Execute calls) ->
  turn_tool_calls t = [] /\ exists code, parse_fenced (turn_text t) = Ok (Some code) /\ calls = [mkExecute "" code].
Proof.
  cbn [turn_action]. destruct (validate_completion_state t) as [u| | |]; try done. cbn [mbind outcome_bind].
  destruct (turn_tool_calls t); [|done]. destruct (parse_fenced (turn_text t)) as [[code|]| | |]; try done.
  intros [= <-]. split; [done|]. by exists code.
Qed.
End Validated.

(** ** Runs of the loop *)

Section Runs.
Context `{JsonNumber} `{!TextJson} `{!JsonPretty}.

Abbreviation CoreHistory := (list (Event CoreAnswer)).

(** The answers that tell the loop it is cancelled. *)
Definition stops (e : Event CoreAnswer) : bool :=
  match e with
  | existT TokenCancelled cancelled => cancelled
  | existT (Select f) None => true
  | _ => false
  end.

Definition uncancelled (h : CoreHistory) : Prop := Forall (fun e => stops e = false) h.

Definition chat_of (q : CoreQuery) : option ChatRequest :=
  match q with Await (ChatStream r) | Select (ChatStream r) => Some r | _ => None end.

Definition eval_of (q : CoreQuery) : option (list string * CellBudget) :=
  match q with Await (EvalBatch codes b) | Select (EvalBatch codes b) => Some (codes, b) | _ => None end.

Definition final_of (q : CoreQuery) : option string := match q with Notify (OnFinal text) => Some text | _ => None end.

(** The items of the stream an event opened. *)
Definition streamed (e : Event CoreAnswer) : option (list (CoreError + StreamEvent)) :=
  match e with
  | existT (Await (ChatStream _)) (inr items) => Some items
  | existT (Select (ChatStream _)) (Some (inr items)) => Some items
  | _ => None
  end.

Definition is_chat (e : Event CoreAnswer) : bool := bool_decide (is_Some (chat_of (projT1 e))).
Definition chats (h : CoreHistory) : nat := length (List.filter is_chat h).
Definition last_stream (h : CoreHistory) : option (list (CoreError + StreamEvent)) := last (omap streamed h).

(** The model's answer in the stream opened last: a stream without errors. *)
Definition answered_with (h : CoreHistory) (t : AssistantTurn) : Prop :=
  exists evs, last_stream h = Some (inr <$> evs) /\ t = into_turn (accumulate evs).

(** The contract of the chat interface: a message with tool calls is followed by one
    result for each of them, in order, and there are no other results.  [open_calls]
    are the calls still open after the messages. *)
Fixpoint open_calls (pending : list string) (ms : list Message) : option (list string) :=
  match ms with
  | [] => Some pending
  | m :: ms =>
      match role m, pending with
      | Tool, id :: rest => if bool_decide (tool_call_id m = Some id) then open_calls rest ms else None
      | Tool, [] | _, _ :: _ => None
      | Assistant, [] => open_calls (call_id <$> tool_calls m) ms
      | _, [] => open_calls [] ms
      end
  end.

Definition well_answered (ms : list Message) : Prop := open_calls [] ms = Some [].

Lemma open_calls_app ms ms' : forall pending, open_calls pending (ms ++ ms') = open_calls pending ms ≫= fun p => open_calls p ms'.
Proof.
  induction ms as [|m ms IH]; intros pending; [done|]. cbn.
  destruct (role m), pending; try done; try apply IH. case_bool_decide; [apply IH|done].
Qed.

Lemma open_results ids : forall results,
  length results = length ids -> open_calls ids (zip_with tool_result ids results) = Some [].
Proof.
  induction ids as [|id ids IH]; intros [|x results]; cbn; try done. intros [= Hl]. rewrite bool_decide_true by done. by apply IH.
Qed.

Section Loop.
Variables (cfg : AgentConfig) (token inbox : bool) (question : string) (prior : list Message).

(** The conversation that is sent: the rules, the caller's history and question, and
    what was added since. *)
Definition conversation (ms : list Message) : Prop :=
  (exists rest, ms = system_message cfg :: prior ++ user question :: rest)
  /\ (well_answered prior -> well_answered ms).

Definition announced (code : string) : Event CoreAnswer := asked (Notify (OnCellStart code)) (inr tt : CoreError + unit).
Definition delivered (text : string) : Event CoreAnswer := asked (Notify (OnFinal text)) (inr tt : CoreError + unit).

(** Code to run was asked for by the turn streamed last, and was announced. *)
Definition requested (h : CoreHistory) (codes : list string) : Prop :=
  exists t calls,
    answered_with h t /\ turn_action (protocol cfg) t = Ok (Execute calls)
    /\ codes = exec_code <$> calls
    /\ Forall (fun code => announced code ∈ h) codes.

Definition core_pre (h : CoreHistory) (q : CoreQuery) : Prop :=
  uncancelled h
  /\ (forall r, chat_of q = Some r ->
        r = build_request cfg (req_messages r) /\ conversation (req_messages r) /\ (chats h < N.to_nat (max_turns cfg))%nat)
  /\ (forall codes b, eval_of q = Some (codes, b) -> b = cell_budget cfg /\ requested h codes)
  /\ forall text, final_of q = Some text ->
       exists t, answered_with h t /\ turn_action (protocol cfg) t = Ok Final /\ text = turn_text t.

(** How an operation ends: with a result that satisfies [Q], with an error, or with
    the error that tells that it saw the cancellation. *)
Definition ends_well {A} (Q : CoreHistory -> A -> Prop) (h : CoreHistory) (r : CoreOutcome A) : Prop :=
  match r with
  | Ok a => uncancelled h /\ Q h a
  | Err RunCancelled => True
  | _ => uncancelled h
  end.

Definition any_reply (_ : CoreHistory) (q : CoreQuery) (_ : CoreAnswer q) : Prop := True.

Definition steps {A} (Q : CoreHistory -> A -> Prop) (h : CoreHistory) (m : CoreProg (CoreOutcome A)) : Prop :=
  holds any_reply core_pre (ends_well Q) h m.

Lemma steps_try {A B} (P : CoreHistory -> A -> Prop) (Q : CoreHistory -> B -> Prop) h m k :
  steps P h m -> (forall h' a, h `prefix_of` h' -> uncancelled h' -> P h' a -> steps Q h' (k a)) ->
  steps Q h (core_try m k).
Proof.
  intros Hm Hk. unfold steps, core_try. apply holds_bind. eapply holds_mono; [exact Hm|done|].
  intros h' [a|e| |] Hp Hr; cbn in *; try done. destruct Hr. by apply Hk.
Qed.

Lemma steps_ask {A} (Q : CoreHistory -> A -> Prop) h q (k : CoreAnswer q -> CoreProg (CoreOutcome A)) :
  core_pre h q -> (forall a, steps Q (h ++ [asked q a]) (k a)) -> steps Q h (mbind k (Ask q Ret : CoreProg (CoreAnswer q))).
Proof. intros Hp Hk. split; [exact Hp|]. intros a _. exact (Hk a). Qed.

Lemma steps_have {A B} (Q : CoreHistory -> B -> Prop) h (r : CoreOutcome A) k :
  uncancelled h -> (forall a, r = Ok a -> steps Q h (k a)) -> steps Q h (core_try (mret r) k).
Proof. intros Hu Hk. destruct r as [a|[]| |]; cbn; auto. by apply Hk. Qed.

Lemma steps_ret {A} (Q : CoreHistory -> A -> Prop) h (a : A) : uncancelled h -> Q h a -> steps Q h (mret (Ok a)).
Proof. done. Qed.

Lemma steps_mono {A} (P Q : CoreHistory -> A -> Prop) h m :
  steps P h m -> (forall h' a, h `prefix_of` h' -> P h' a -> Q h' a) -> steps Q h m.
Proof.
  intros Hm Hi. eapply holds_mono; [exact Hm|done|]. intros h' [a|e| |] Hp Hr; cbn in *; try done.
  destruct Hr. split; [done|]. by apply Hi.
Qed.

(** Questions that are neither to the model nor to the sandbox. *)
Definition harmless (q : CoreQuery) : Prop := chat_of q = None /\ eval_of q = None /\ final_of q = None.

Lemma pre_harmless h q : uncancelled h -> harmless q -> core_pre h q.
Proof. intros Hu (Hc & He & Hf). unfold core_pre. rewrite Hc, He, Hf. split_and!; try done; by intros. Qed.

(** Nothing was asked of the model in between. *)
Definition hushed (h h' : CoreHistory) : Prop := exists k, h' = h ++ k /\ Forall (fun e => is_chat e = false) k.

Lemma hushed_refl h : hushed h h.
Proof. exists []. by rewrite app_nil_r. Qed.

Lemma hushed_trans h1 h2 h3 : hushed h1 h2 -> hushed h2 h3 -> hushed h1 h3.
Proof. intros (k & -> & Hk) (k' & -> & Hk'). exists (k ++ k'). rewrite app_assoc. split; [done|]. by apply Forall_app. Qed.

Lemma hushed_ask h q a : chat_of q = None -> hushed h (h ++ [asked q a]).
Proof.
  intros Hc. exists [asked q a]. split; [done|]. repeat constructor. unfold is_chat. cbn. rewrite Hc.
  apply bool_decide_false. by intros [].
Qed.

Lemma hushed_prefix h h' : hushed h h' -> h `prefix_of` h'.
Proof. intros (k & -> & _). by exists k. Qed.

Lemma hushed_chats h h' : hushed h h' -> chats h' = chats h.
Proof.
  intros (k & -> & Hk). unfold chats. rewrite List.filter_app, length_app.
  enough (List.filter is_chat k = []) as -> by (cbn; lia). induction Hk as [|e k He Hk IH]; [done|]. cbn. by rewrite He.
Qed.

Lemma streamed_chat e items : streamed e = Some items -> is_chat e = true.
Proof.
  destruct e as [q a]. unfold is_chat. intros Hs. apply bool_decide_true.
  destruct q as [|[]|[]| |]; cbn in *; try done; eauto.
Qed.

Lemma hushed_stream h h' : hushed h h' -> last_stream h' = last_stream h.
Proof.
  intros (k & -> & Hk). unfold last_stream. rewrite omap_app.
  enough (omap streamed k = []) as -> by by rewrite app_nil_r. induction Hk as [|e k He Hk IH]; [done|]. cbn.
  destruct (streamed e) eqn:Es; [|done]. apply streamed_chat in Es. congruence.
Qed.

Lemma hushed_answered h h' t : hushed h h' -> answered_with h t -> answered_with h' t.
Proof. intros Hq (evs & Hl & ->). exists evs. by rewrite (hushed_stream _ _ Hq). Qed.

Lemma uncancelled_snoc h q a : uncancelled h -> stops (asked q a) = false -> uncancelled (h ++ [asked q a]).
Proof. intros Hu Hs. apply Forall_app. split; [done|]. by repeat constructor. Qed.

(** *** The operations *)

Ltac hushed_chain :=
  cbn beta in *;
  first [ eassumption | apply hushed_refl | by apply hushed_ask
        | match goal with Hq : hushed ?h _ |- hushed ?h _ => apply (hushed_trans _ _ _ Hq); hushed_chain end ].

Lemma check_steps h : uncancelled h -> steps (fun h' _ => hushed h h') h (check_cancelled token).
Proof.
  intros Hu. unfold check_cancelled. destruct token; [|apply steps_ret; [done|apply hushed_refl]].
  split; [by apply pre_harmless|]. intros [|] _; cbn; [done|].
  split; [by apply uncancelled_snoc|by apply hushed_ask].
Qed.

(** Awaiting something other than the model: [pre] has to hold also after the check. *)
Lemma await_steps h f :
  uncancelled h -> chat_of (Await f) = None ->
  (forall h', hushed h h' -> uncancelled h' -> core_pre h' (Await f) /\ core_pre h' (Select f)) ->
  steps (fun h' _ => hushed h h') h (await_cancellable token f).
Proof.
  intros Hu Hc Hpre. unfold await_cancellable. destruct token eqn:Et.
  - rewrite <- Et. eapply steps_try; [by apply check_steps|]. intros h1 [] _ Hu1 Hq1. split; [by apply Hpre|].
    assert (Hc' : chat_of (Select f) = None) by (destruct f; done).
    intros [o|] _; cbn; [|done]. split; [by apply uncancelled_snoc|].
    hushed_chain.
  - split; [apply Hpre; [apply hushed_refl|done]|]. intros o _. cbn.
    split; [by apply uncancelled_snoc|by apply hushed_ask].
Qed.

Lemma await_harmless h f :
  uncancelled h -> harmless (Await f) -> harmless (Select f) -> steps (fun h' _ => hushed h h') h (await_cancellable token f).
Proof. intros Hu Ha Hs. apply await_steps; [done|apply Ha|]. intros h' _ Hu'. split; by apply pre_harmless. Qed.

Lemma notify_steps h c :
  uncancelled h -> core_pre h (Notify c) ->
  steps (fun h' _ => h' = h ++ [asked (Notify c) (inr tt : CoreError + unit)]) h (notify c).
Proof.
  intros Hu Hp. split; [exact Hp|]. intros [e|[]] _; cbn.
  - assert (uncancelled (h ++ [asked (Notify c) (inl e : CoreError + unit)])) by by apply uncancelled_snoc. by destruct e.
  - split; [by apply uncancelled_snoc|done].
Qed.

Lemma notify_quiet h c :
  uncancelled h -> harmless (Notify c) -> steps (fun h' _ => hushed h h') h (notify c).
Proof.
  intros Hu Hc. eapply steps_mono; [by apply notify_steps, pre_harmless|]. intros h' [] _ ->. by apply hushed_ask.
Qed.

Lemma pending_steps pending : forall h ms,
  uncancelled h -> conversation ms ->
  steps (fun h' ms' => hushed h h' /\ conversation ms') h (push_pending token pending ms).
Proof.
  induction pending as [|text pending IH]; intros h ms Hu Hc; cbn [push_pending].
  - apply steps_ret; [done|]. split; [apply hushed_refl|done].
  - eapply steps_try; [by apply check_steps|]. intros h1 [] _ Hu1 Hq1. eapply steps_mono; [apply IH; [done|]|].
    + destruct Hc as [[rest ->] Hw]. split.
      * exists (rest ++ [inbox_message text]). cbn. by rewrite <- app_assoc.
      * intros Hp. unfold well_answered in *. by rewrite open_calls_app, Hw.
    + intros h' ms' _ [Hq Hms]. split; [hushed_chain|done].
Qed.

Lemma drain_steps h ms :
  uncancelled h -> conversation ms -> steps (fun h' ms' => hushed h h' /\ conversation ms') h (drain_inbox token inbox ms).
Proof.
  intros Hu Hc. unfold drain_inbox. destruct inbox; [|apply steps_ret; [done|]; split; [apply hushed_refl|done]].
  eapply steps_try; [by apply await_harmless|]. intros h1 drained _ Hu1 Hq1. apply steps_have; [done|]. intros pending _.
  eapply steps_mono; [by apply pending_steps|]. intros h' ms' _ [Hq Hms]. split; [hushed_chain|done].
Qed.

Lemma announce_steps h ev : uncancelled h -> steps (fun h' _ => hushed h h') h (announce ev).
Proof.
  intros Hu. assert (Hret : steps (fun h' _ => hushed h h') h (mret (Ok tt))) by (apply steps_ret; [done|apply hushed_refl]).
  destruct ev as [d|d|i id [name|] args|r|u]; cbn; try done; try (by apply notify_quiet).
  destruct (is_empty name); [done|]. by apply notify_quiet.
Qed.

Lemma stream_steps items : forall h acc,
  uncancelled h ->
  steps (fun h' acc' => hushed h h' /\ exists evs, items = inr <$> evs /\ acc' = foldl (fun a ev => acc_push ev a) acc evs) h
    (stream_turn token items acc).
Proof.
  induction items as [|item items IH]; intros h acc Hu; cbn [stream_turn].
  - eapply steps_try; [by apply await_harmless|]. intros h1 [] _ Hu1 Hq1. apply steps_ret; [done|]. split; [done|]. by exists [].
  - eapply steps_try; [by apply await_harmless|]. intros h1 [] _ Hu1 Hq1.
    eapply steps_try; [by apply check_steps|]. intros h2 [] _ Hu2 Hq2.
    apply steps_have; [done|]. intros ev Hev. destruct item as [|ev']; [done|]. injection Hev as ->.
    eapply steps_try; [by apply announce_steps|]. intros h3 [] _ Hu3 Hq3.
    eapply steps_mono; [by apply IH|]. intros h' acc' _ [Hq (evs & -> & ->)].
    split; [hushed_chain|]. by exists (ev :: evs).
Qed.

Lemma cells_steps calls : forall h,
  uncancelled h ->
  steps (fun h' _ => hushed h h' /\ Forall (fun code => announced code ∈ h') (exec_code <$> calls)) h
    (announce_cells token calls).
Proof.
  induction calls as [|call calls IH]; intros h Hu; cbn [announce_cells].
  - apply steps_ret; [done|]. split; [apply hushed_refl|constructor].
  - eapply steps_try; [by apply check_steps|]. intros h1 [] _ Hu1 Hq1.
    eapply steps_try; [by apply notify_steps, pre_harmless|]. intros h2 [] _ Hu2 ->.
    eapply steps_mono; [by apply IH|]. intros h' [] _ [Hq Hf].
    split.
    + apply (hushed_trans _ _ _ Hq1). refine (hushed_trans _ _ _ _ Hq). by apply hushed_ask.
    + cbn. constructor; [|done]. apply hushed_prefix in Hq as [k ->]. set_solver.
Qed.

Lemma eval_steps h calls :
  uncancelled h -> requested h (exec_code <$> calls) ->
  steps (fun h' _ => hushed h h') h (eval_calls cfg token calls).
Proof.
  intros Hu Hr. assert (Hpre : forall h' q, hushed h h' -> uncancelled h' -> chat_of q = None -> final_of q = None ->
      eval_of q = Some (exec_code <$> calls, cell_budget cfg) -> core_pre h' q).
  { intros h' q Hq Hu' Hc Hf He. unfold core_pre. rewrite Hc, He, Hf. split_and!; try done.
    intros codes b [= <- <-]. split; [done|]. destruct Hr as (t & cs & Ha & Hact & Hcodes & Hann). exists t, cs.
    split_and!; try done; [by eapply hushed_answered|]. eapply Forall_impl; [exact Hann|]. intros code Hin.
    apply hushed_prefix in Hq as [k ->]. set_solver. }
  unfold eval_calls. apply (steps_ask _ h HandlesCancellation); [by apply pre_harmless|]. intros handles. cbn beta zeta.
  set (h1 := h ++ _). assert (Hu1 : uncancelled h1) by by apply uncancelled_snoc.
  assert (Hq1 : hushed h h1) by by apply hushed_ask.
  eapply (steps_try (fun h' _ => hushed h h')).
  - destruct handles.
    + split; [by apply Hpre|]. intros o _. cbn. split; [by apply uncancelled_snoc|].
      hushed_chain.
    + eapply steps_mono; [apply await_steps; [done|done|]|].
      * intros h' Hq' Hu'. split; apply Hpre; try done; hushed_chain.
      * intros h' o _ Hq'. hushed_chain.
  - intros h' [e|outputs] _ Hu' Hq'; cbn; [by destruct e|done].
Qed.

Lemma feed_steps pairs : forall h ms,
  uncancelled h ->
  steps (fun h' ms' => hushed h h' /\ exists results,
           length results = length pairs /\ ms' = ms ++ zip_with (result_message cfg) pairs.*1 results) h
    (feed_back cfg token pairs ms).
Proof.
  induction pairs as [|[call out] pairs IH]; intros h ms Hu; cbn [feed_back].
  - apply steps_ret; [done|]. split; [apply hushed_refl|]. exists []. by rewrite app_nil_r.
  - eapply steps_try; [by apply check_steps|]. intros h1 [] _ Hu1 Hq1. apply steps_have; [done|]. intros shaped _.
    eapply steps_try; [by apply notify_quiet|]. intros h2 [] _ Hu2 Hq2.
    eapply steps_mono; [by apply IH|]. intros h' ms' _ [Hq (results & Hl & ->)].
    split; [hushed_chain|]. exists (shaped :: results).
    split; [by cbn; f_equal|]. cbn. by rewrite <- app_assoc.
Qed.

(** *** Turns *)

Lemma request_messages ms : req_messages (build_request cfg ms) = ms.
Proof. unfold build_request. by destruct (protocol cfg). Qed.

Lemma chats_snoc h e : is_chat e = true -> chats (h ++ [e]) = S (chats h).
Proof. intros He. unfold chats. rewrite List.filter_app, length_app. cbn. rewrite He. cbn. lia. Qed.

Lemma last_stream_snoc h e items : streamed e = Some items -> last_stream (h ++ [e]) = Some items.
Proof. intros He. unfold last_stream. rewrite omap_app. cbn. rewrite He. apply last_snoc. Qed.

Lemma chat_pre h q ms :
  uncancelled h -> conversation ms -> (chats h < N.to_nat (max_turns cfg))%nat ->
  chat_of q = Some (build_request cfg ms) -> eval_of q = None -> final_of q = None -> core_pre h q.
Proof.
  intros Hu Hc Hl Hq He Hf. unfold core_pre. rewrite Hq, He, Hf. split_and!; try done.
  intros r [= <-]. by rewrite request_messages.
Qed.

(** Opening a stream is one more question to the model. *)
Definition opened_stream (h h' : CoreHistory) (opened : CoreError + list (CoreError + StreamEvent)) : Prop :=
  chats h' = S (chats h) /\ forall items, opened = inr items -> last_stream h' = Some items.

Lemma opened_snoc h h1 q a opened :
  hushed h h1 -> is_chat (asked q a) = true -> (forall items, opened = inr items -> streamed (asked q a) = Some items) ->
  opened_stream h (h1 ++ [asked q a]) opened.
Proof.
  intros Hq Hc Hs. split; [rewrite chats_snoc by done; by rewrite (hushed_chats _ _ Hq)|].
  intros items Hi. apply last_stream_snoc. by apply Hs.
Qed.

Lemma chat_steps h ms :
  uncancelled h -> conversation ms -> (chats h < N.to_nat (max_turns cfg))%nat ->
  steps (fun h' opened => opened_stream h h' opened) h (await_cancellable token (ChatStream (build_request cfg ms))).
Proof.
  intros Hu Hc Hl. unfold await_cancellable. destruct token eqn:Et.
  - rewrite <- Et. eapply steps_try; [by apply check_steps|]. intros h1 [] _ Hu1 Hq1. cbn beta in Hq1.
    apply (steps_ask _ h1 (Select _)).
    { apply chat_pre with ms; try done. by rewrite (hushed_chats _ _ Hq1). }
    intros [opened|]; [|done]. apply steps_ret; [by apply uncancelled_snoc|].
    apply opened_snoc; [done|done|]. by intros items ->.
  - apply (steps_ask _ h (Await _)); [by apply chat_pre with ms|]. intros opened.
    apply steps_ret; [by apply uncancelled_snoc|]. apply opened_snoc; [apply hushed_refl|done|]. by intros items ->.
Qed.

Lemma results_native calls results :
  zip_with (result_message cfg) calls results
  = match protocol cfg with
    | NativeTool => zip_with tool_result (exec_id <$> calls) results
    | FencedBlock => zip_with (fun _ shaped => user ("[execution result]" ++ nl ++ shaped)%string) calls results
    end.
Proof.
  unfold result_message. destruct (protocol cfg); [|done]. revert results.
  induction calls as [|c calls IH]; intros [|r results]; try done. cbn. by f_equal.
Qed.

Lemma conversation_turn ms t calls results :
  conversation ms -> turn_action (protocol cfg) t = Ok (Execute calls) -> length results = length calls ->
  conversation ((ms ++ [to_message t]) ++ zip_with (result_message cfg) calls results).
Proof.
  intros [[rest ->] Hw] Hact Hl. split.
  { eexists. cbn. rewrite <- !app_assoc. cbn. reflexivity. }
  intros Hp. specialize (Hw Hp). unfold well_answered in *. rewrite <- app_assoc, open_calls_app, Hw. cbn [mbind option_bind].
  rewrite results_native. destruct (protocol cfg).
  - destruct (native_sound _ _ Hact) as (Hf & _ & _). cbn [app open_calls to_message role tool_calls].
    assert (Hids : call_id <$> turn_tool_calls t = exec_id <$> calls).
    { clear -Hf. induction Hf as [|x y l k Hxy Hf IH]; [done|]. cbn. destruct Hxy as [-> _]. by f_equal. }
    rewrite Hids. apply open_results. by rewrite length_fmap.
  - destruct (fenced_sound _ _ Hact) as (Ht & code & _ & ->). cbn [app open_calls to_message role tool_calls]. rewrite Ht.
    destruct results as [|r [|]]; done.
Qed.

(** The text is the model's answer, and the sink has it. *)
Definition final_answer (h : CoreHistory) (text : string) : Prop :=
  (exists h0, h = h0 ++ [delivered text])
  /\ exists t, answered_with h t /\ turn_action (protocol cfg) t = Ok Final /\ text = turn_text t.

Lemma final_steps h t :
  uncancelled h -> answered_with h t -> turn_action (protocol cfg) t = Ok Final ->
  steps final_answer h (core_try (notify (OnFinal (turn_text t))) (fun _ => mret (Ok (turn_text t)))).
Proof.
  intros Hu Ha Hact. eapply steps_try; [apply notify_steps; [done|]|].
  - split_and!; try done. intros text [= <-]. by exists t.
  - intros h' [] _ Hu' ->. apply steps_ret; [done|]. split; [by exists h|]. exists t.
    split_and!; try done. by apply hushed_answered with h; [apply hushed_ask|].
Qed.

Lemma turns_steps turns : forall h ms,
  uncancelled h -> conversation ms -> (chats h + turns <= N.to_nat (max_turns cfg))%nat ->
  steps final_answer h (run_turns cfg token inbox turns ms).
Proof.
  induction turns as [|turns IH]; intros h ms Hu Hc Hn; cbn [run_turns]; [exact Hu|].
  eapply steps_try; [by apply check_steps|]. intros h1 [] _ Hu1 Hq1.
  eapply steps_try; [by apply drain_steps|]. intros h2 ms2 _ Hu2 [Hq2 Hc2]. cbn beta in Hq1.
  eapply steps_try; [apply chat_steps; [done|done|]|].
  { rewrite (hushed_chats _ _ Hq2), (hushed_chats _ _ Hq1). lia. }
  intros h3 opened _ Hu3 [Hn3 Hs3]. rewrite (hushed_chats _ _ Hq2), (hushed_chats _ _ Hq1) in Hn3.
  apply steps_have; [done|]. intros items Hi. destruct opened as [|items']; [done|]. injection Hi as ->.
  specialize (Hs3 items eq_refl).
  eapply steps_try; [by apply stream_steps|]. intros h4 acc _ Hu4 [Hq4 (evs & -> & ->)].
  eapply steps_try; [by apply notify_quiet|]. intros h5 [] _ Hu5 Hq5. cbn beta in Hq5. cbv zeta.
  set (t := into_turn _). assert (Ha : answered_with h5 t).
  { exists evs. split; [|done]. by rewrite (hushed_stream _ _ Hq5), (hushed_stream _ _ Hq4). }
  apply steps_have; [done|]. intros [calls|] Hact; [|by apply final_steps].
  eapply steps_try; [by apply cells_steps|]. intros h6 [] _ Hu6 [Hq6 Hann].
  eapply steps_try; [apply eval_steps; [done|]|].
  { exists t, calls. split_and!; try done. by eapply hushed_answered. }
  intros h7 outputs _ Hu7 Hq7. cbn beta in Hq7. destruct (length outputs =? length calls)%nat eqn:El; cbn [negb]; [|exact Hu7].
  apply Nat.eqb_eq in El. eapply steps_try; [by apply feed_steps|]. intros h8 ms8 _ Hu8 [Hq8 (results & Hr & ->)].
  apply IH; [done| |].
  - rewrite length_zip_with in Hr. rewrite fst_zip by lia. apply conversation_turn; [done|done|]. lia.
  - rewrite (hushed_chats _ _ Hq8), (hushed_chats _ _ Hq7), (hushed_chats _ _ Hq6), (hushed_chats _ _ Hq5), (hushed_chats _ _ Hq4).
    lia.
Qed.

(** *** Runs *)

(** A run opens a session of its own or uses one of the caller. *)
Definition agent_entry (opens : bool) : CoreProg (CoreOutcome string) :=
  if opens then run_with_prior_messages_and_controls cfg token inbox question prior
  else run_with_session_and_controls cfg token inbox question prior.

Lemma entry_steps opens : steps final_answer [] (agent_entry opens).
Proof.
  assert (Hstart : conversation (system_message cfg :: prior ++ [user question])).
  { split; [by exists []|]. intros Hp. unfold well_answered. cbn. by rewrite open_calls_app, Hp. }
  assert (Hloop : forall h, uncancelled h -> hushed [] h -> steps final_answer h (run_with_session_and_controls cfg token inbox question prior)).
  { intros h Hu Hq. apply turns_steps; [done|done|]. by rewrite (hushed_chats _ _ Hq). }
  destruct opens; [|apply Hloop; [constructor|apply hushed_refl]].
  assert (Hu : uncancelled []) by constructor. unfold agent_entry, run_with_prior_messages_and_controls.
  eapply steps_try; [by apply check_steps|]. intros h1 [] _ Hu1 Hq1.
  eapply steps_try; [by apply await_harmless|]. intros h2 opened _ Hu2 Hq2. apply steps_have; [done|]. intros [] _.
  apply Hloop; [done|hushed_chain].
Qed.

Lemma any_allowed h : allowed_history any_reply h.
Proof. by intros h1 q r h2 _. Qed.

Lemma entry_pre opens h t h1 q r h2 :
  runs (agent_entry opens) h t -> h = h1 ++ asked q r :: h2 -> core_pre h1 q.
Proof. intros Hr. eapply runs_pre; [apply entry_steps|exact Hr|apply any_allowed]. Qed.
End Loop.

(** C8: Requests keep to the contract.  Whatever the model, the sandbox and the
    others answer, every request to the model starts with the rules of the runtime and
    has the caller's history and question unchanged; it offers the single tool of the
    protocol, and every tool call in it is followed by its one result, in order, with
    no other results, provided the history was so.  At most as many requests are made
    as the agent has turns. *)
Theorem requests_well_formed cfg token inbox question prior opens h t h1 q r h2 request :
  well_answered prior ->
  runs (agent_entry cfg token inbox question prior opens) h t -> h = h1 ++ asked q r :: h2 -> chat_of q = Some request ->
  (exists rest, req_messages request = system_message cfg :: prior ++ user question :: rest)
  /\ starts_with TM_RUNTIME_BOOT_CONTRACT (content (system_message cfg)) = true
  /\ well_answered (req_messages request)
  /\ request = build_request cfg (req_messages request)
  /\ (S (chats h1) <= N.to_nat (max_turns cfg))%nat.
Proof.
  intros Hp Hr Hh Hq. destruct (entry_pre _ _ _ _ _ _ _ _ _ _ _ _ Hr Hh) as (_ & Hc & _).
  destruct (Hc _ Hq) as (Hb & [Hm Hw] & Hl). split_and!; try done; [|by apply Hw].
  apply prefix_spec. by eexists.
Qed.

(** C9: Code runs on request.  Every batch of code that is handed to the sandbox, under
    the budget of the agent, is the code of the execute calls, or of the one fenced
    block, of the turn the model has just streamed without an error; each cell was
    announced to the sink before, and no cancellation had been seen. *)
Theorem evaluation_requested cfg token inbox question prior opens h t h1 q r h2 codes budget :
  runs (agent_entry cfg token inbox question prior opens) h t -> h = h1 ++ asked q r :: h2 ->
  eval_of q = Some (codes, budget) ->
  budget = cell_budget cfg /\ uncancelled h1 /\ Forall (fun code => announced code ∈ h1) codes
  /\ exists evs, last_stream h1 = Some (inr <$> evs)
     /\ match protocol cfg with
        | NativeTool =>
            exists calls, codes = exec_code <$> calls /\ (0 < length calls <= 16)%nat
            /\ Forall2 call_sound (turn_tool_calls (into_turn (accumulate evs))) calls
        | FencedBlock => exists code, codes = [code] /\ parse_fenced (streamed_text evs) = Ok (Some code)
        end.
Proof.
  intros Hr Hh Hq. destruct (entry_pre _ _ _ _ _ _ _ _ _ _ _ _ Hr Hh) as (Hu & _ & He & _).
  destruct (He _ _ Hq) as (-> & tn & calls & (evs & Hl & ->) & Hact & -> & Hann). split_and!; try done.
  exists evs. split; [done|]. destruct (protocol cfg).
  - exists calls. destruct (native_sound _ _ Hact) as (Hf & _ & Hn). done.
  - destruct (fenced_sound _ _ Hact) as (_ & code & Hp & ->). exists code. split; [done|].
    rewrite <- accumulate_text. exact Hp.
Qed.

(** C10: A cancellation stops the run.  Once the token answered that it is cancelled,
    or won against something that was awaited, nothing more is asked of anyone and
    the run has ended with the error for it; a run that ends with a text delivered it
    to the sink last, and it is the text of the turn streamed last, which asked for no
    code. *)
Theorem cancellation_stops cfg token inbox question prior opens h t :
  runs (agent_entry cfg token inbox question prior opens) h t ->
  (forall h1 e h2, h = h1 ++ e :: h2 -> stops e = true -> h2 = [] /\ t = Ret (Err RunCancelled))
  /\ forall text, t = Ret (Ok text) -> exists h0 evs,
       h = h0 ++ [delivered text] /\ last_stream h = Some (inr <$> evs) /\ text = streamed_text evs
       /\ turn_action (protocol cfg) (into_turn (accumulate evs)) = Ok Final.
Proof.
  intros Hr. pose proof (entry_steps cfg token inbox question prior opens) as Hs.
  destruct (runs_holds _ _ _ _ _ _ [] Hr Hs ltac:(done)) as [Hend Hpre]. cbn [app] in Hend, Hpre. split.
  - intros h1 e h2 -> He.
    assert (Hn : forall l, ~ uncancelled (h1 ++ e :: l)).
    { intros l Hu. apply Forall_app in Hu as [_ Hu]. inversion Hu as [|? ? Hne _]; subst. cbn in Hne. congruence. }
    destruct h2 as [|[q a] h2].
    + split; [done|]. destruct t as [r|q k]; [|destruct Hend as [[Hu _] _]; by apply Hn in Hu].
      destruct r as [a|er| |]; cbn in Hend; try (by apply Hn in Hend); [destruct Hend as [Hu _]; by apply Hn in Hu|].
      destruct er; first [done|by apply Hn in Hend].
    + destruct (Hpre (h1 ++ [e]) q a h2) as [Hu _]; [by rewrite <- app_assoc|]. by apply Hn in Hu.
  - intros text ->. destruct Hend as [_ [[h0 Hh] (tn & (evs & Hl & ->) & Hact & Htext)]].
    exists h0, evs. split_and!; try done. rewrite Htext. cbn. apply accumulate_text.
Qed.
End Runs.

(** ** Shaped results *)

Lemma index_prefix needle s : String.prefix needle s = true -> String.index 0 needle s = Some 0%nat.
Proof. intros Hp. destruct s as [|a s]; [by destruct needle|]. cbn [String.index]. by rewrite Hp. Qed.

Lemma index_app needle s t n : String.index 0 needle s = Some n -> exists m, String.index 0 needle (s ++ t) = Some m.
Proof.
  revert n. induction s as [|a s IH]; intros n Hi.
  - exists 0%nat. apply index_prefix. destruct needle; [apply prefix_spec; by exists t|discriminate Hi].
  - destruct (String.prefix needle (String a s)) eqn:Ep.
    + exists 0%nat. apply index_prefix, prefix_spec. apply prefix_spec in Ep as [r ->].
      rewrite string_app_assoc. by eexists.
    + cbn [String.index] in Hi. rewrite Ep in Hi. destruct (String.index 0 needle s) as [m|] eqn:Em; [|done].
      destruct (IH _ eq_refl) as [k Hk]. change (String a s ++ t)%string with (String a (s ++ t)). cbn [String.index].
      rewrite Hk. destruct (String.prefix needle (String a (s ++ t))); eexists; reflexivity.
Qed.

Lemma contains_app needle s t : str_contains needle s = true -> str_contains needle (s ++ t) = true.
Proof.
  unfold str_contains. destruct (String.index 0 needle s) as [n|] eqn:E; [|done]. intros _.
  by destruct (index_app _ _ t _ E) as [m ->].
Qed.

Lemma contains_end needle s : str_contains needle (s ++ needle) = true.
Proof.
  unfold str_contains. induction s as [|a s IH].
  - rewrite index_prefix; [done|]. apply prefix_spec. exists ""%string. by rewrite string_app_nil_r.
  - change (String a s ++ needle)%string with (String a (s ++ needle)). cbn [String.index].
    destruct (String.prefix _ _); [done|]. by destruct (String.index 0 needle (s ++ needle)).
Qed.

Lemma keep_keeps shaped uri uri' : str_contains uri' shaped = true -> str_contains uri' (keep_reference shaped uri) = true.
Proof. intros Hc. unfold keep_reference. destruct (str_contains uri shaped); [done|]. by apply contains_app. Qed.

Lemma keep_adds shaped uri : str_contains uri (keep_reference shaped uri) = true.
Proof.
  unfold keep_reference. destruct (str_contains uri shaped) eqn:E; [done|].
  rewrite <- !string_app_assoc. apply contains_end.
Qed.

Lemma keep_all uris : forall shaped uri,
  uri ∈ uris \/ str_contains uri shaped = true -> str_contains uri (foldl keep_reference shaped uris) = true.
Proof.
  induction uris as [|u uris IH]; intros shaped uri Hu; cbn.
  - by destruct Hu as [Hu%elem_of_nil|].
  - apply IH. destruct Hu as [[->|Hu]%elem_of_cons|Hu]; [right; apply keep_adds|by left|right; by apply keep_keeps].
Qed.

Lemma ceil_from_is s fuel : forall idx,
  (str_len s <= idx + N.of_nat fuel)%N -> (idx <= str_len s)%N ->
  is_char_boundary s (ceil_from fuel s idx) = true /\ (ceil_from fuel s idx <= str_len s)%N.
Proof.
  induction fuel as [|fuel IH]; intros idx Hf Hi; cbn [ceil_from].
  - assert (idx = str_len s) as -> by lia. unfold is_char_boundary. rewrite N.eqb_refl. by rewrite orb_true_r.
  - destruct (idx <? str_len s)%N eqn:El; cbn [andb].
    + apply N.ltb_lt in El. destruct (is_char_boundary s idx) eqn:Eb; cbn [negb]; [done|]. apply IH; lia.
    + apply N.ltb_ge in El. assert (idx = str_len s) as -> by lia. unfold is_char_boundary. rewrite N.eqb_refl.
      by rewrite orb_true_r.
Qed.

Lemma ceil_is s idx : is_char_boundary s (ceil_boundary s idx) = true /\ (ceil_boundary s idx <= str_len s)%N.
Proof.
  unfold ceil_boundary. destruct (str_len s <=? idx)%N eqn:E.
  - unfold is_char_boundary. rewrite N.eqb_refl, orb_true_r. done.
  - apply N.leb_gt in E. apply ceil_from_is; lia.
Qed.

Lemma floor_is s idx : is_char_boundary s (floor_boundary s idx) = true /\ (floor_boundary s idx <= str_len s)%N.
Proof.
  unfold floor_boundary. destruct (str_len s <=? idx)%N eqn:E.
  - unfold is_char_boundary. rewrite N.eqb_refl, orb_true_r. done.
  - split; [apply floor_char_boundary_is|]. pose proof (floor_char_boundary_le s idx). lia.
Qed.

Lemma slice_ok start end_ s :
  (start <= end_)%N -> (end_ <= str_len s)%N -> is_char_boundary s start = true -> is_char_boundary s end_ = true ->
  str_slice start end_ s = Ok (String.substring (N.to_nat start) (N.to_nat (end_ - start)) s).
Proof.
  intros H1 H2 H3 H4. unfold str_slice. rewrite (proj2 (N.leb_le _ _) H1), (proj2 (N.leb_le _ _) H2), H3, H4. done.
Qed.

Lemma end_boundary s : is_char_boundary s (str_len s) = true.
Proof. unfold is_char_boundary. by rewrite N.eqb_refl, orb_true_r. Qed.

(** A text over its cap is cut between chars, and the references it had, eight at
    most, are still in it. *)
Lemma cap_keeps_references s cap uris :
  artifact_uris s = Ok uris -> (cap < str_len s)%N ->
  exists shaped, cap_text s cap = Ok shaped /\ Forall (fun uri => str_contains uri shaped = true) (take 8 uris).
Proof.
  intros Hu Hc. unfold cap_text. rewrite (proj2 (N.leb_gt _ _) Hc), Hu. cbn [mbind outcome_bind].
  destruct uris as [|u uris]; [eexists; split; [done|constructor]|].
  set (head := floor_boundary s _). set (tail := ceil_boundary s _).
  assert (is_char_boundary s head = true /\ (head <= str_len s)%N) as [Hh1 Hh2] by apply floor_is.
  assert (is_char_boundary s tail = true /\ (tail <= str_len s)%N) as [Ht1 Ht2] by apply ceil_is.
  rewrite (slice_ok 0 head s) by (done || lia). unfold str_from. cbn [mbind outcome_bind].
  rewrite (slice_ok tail (str_len s) s) by (done || lia || apply end_boundary). cbn [mbind outcome_bind].
  eexists. split; [reflexivity|]. apply Forall_forall. intros uri Hin. apply keep_all. by left.
Qed.

(** The search for references steps one byte past a scheme without digits, which may
    be inside a char: the loop panics on the output of a cell. *)
Lemma artifact_search_panics :
  artifact_uris "artifact://é" = Panicked /\ cap_text "artifact://é" 4 = Panicked.
Proof. split; vm_compute; reflexivity. Qed.

(** ** A run: the model runs one cell and answers *)

Section Sample.
#[local] Existing Instance sample_numbers.
#[local] Instance sample_arguments : TextJson := fun _ => Some (JObject [("code", JString "1 + 1")]%string).
#[local] Instance sample_pretty : JsonPretty := fun _ => "{}"%string.

Definition sample_agent : AgentConfig := mkAgentConfig "m" "" 2 None None NativeTool cell_budget_default.

(** The number of turns streamed so far is the state of the world. *)
Definition sample_turn (n : nat) : list (CoreError + StreamEvent) :=
  match n with
  | O => [inr (ToolCallDelta 0 (Some "c1") (Some "execute") None); inr (ToolCallDelta 0 None None (Some "{}"));
          inr (Finish (Some "tool_calls"))]
  | _ => [inr (TextDelta "tw"); inr (TextDelta "o")]
  end%string.

Definition sample_future (n : nat) (f : Future) : future_output f * nat :=
  match f with
  | OpenSession => (inr tt, n)
  | DrainInbox => (inr [], n)
  | ChatStream _ => (inr (sample_turn n), S n)
  | NextEvent => (tt, n)
  | EvalBatch _ _ => (inr [mkEvalOutput "" (Some (JString "2")) None], n)
  end.

Definition core_answer (n : nat) (q : CoreQuery) : CoreAnswer q * nat :=
  match q with
  | TokenCancelled => (false, n)
  | Await f => sample_future n f
  | Select f => let '(o, n) := sample_future n f in (Some o, n)
  | Notify _ => (inr tt, n)
  | HandlesCancellation => (false, n)
  end.

Definition core_run := play core_answer 0%nat (agent_entry sample_agent true true "sum?" [] true).
Definition sample_history : list (Event CoreAnswer) := core_run.2.

Lemma sample_runs : runs (agent_entry sample_agent true true "sum?" [] true) sample_history (Ret (Ok "two"%string)).
Proof.
  apply (play_runs core_answer _ 0%nat _ 2%nat). unfold sample_history, core_run.
  destruct (play _ _ _) as [[a w] h] eqn:E. cut ((a, w) = (Ok "two"%string, 2%nat)); [by intros [= -> ->]|].
  change (a, w) with ((a, w, h).1). rewrite <- E. vm_compute. reflexivity.
Qed.

(** The last of the requests of the run, and the batch that was evaluated. *)
Definition core_request : option ChatRequest := sample_history !! 32%nat ≫= fun e => chat_of (projT1 e).
Definition sample_batch : option (list string * CellBudget) := sample_history !! 25%nat ≫= fun e => eval_of (projT1 e).

Lemma requests_well_formed_witness :
  exists request, core_request = Some request /\ length (req_messages request) = 4%nat
    /\ well_answered (req_messages request).
Proof.
  assert (Hn : (default 0%nat ((fun r => length (req_messages r)) <$> core_request)) = 4%nat) by (vm_compute; reflexivity).
  unfold core_request in *. destruct (sample_history !! 32%nat) as [[q r]|] eqn:E; [|discriminate Hn].
  cbn [mbind option_bind projT1] in *. destruct (chat_of q) as [request|] eqn:Eq; [|discriminate Hn].
  exists request. split; [reflexivity|]. split; [exact Hn|].
  apply (requests_well_formed sample_agent true true "sum?" [] true sample_history (Ret (Ok "two"%string))
           (take 32 sample_history) q r (drop 33 sample_history) request).
  - reflexivity.
  - exact sample_runs.
  - symmetry. apply take_drop_middle. exact E.
  - exact Eq.
Defined.

Lemma evaluation_requested_witness :
  exists budget, sample_batch = Some (["1 + 1"%string], budget)
    /\ Forall (fun code => announced code ∈ take 25 sample_history) ["1 + 1"%string].
Proof.
  assert (Hn : fst <$> sample_batch = Some ["1 + 1"%string]) by (vm_compute; reflexivity).
  unfold sample_batch in *. destruct (sample_history !! 25%nat) as [[q r]|] eqn:E; [|discriminate Hn].
  cbn [mbind option_bind projT1] in *. destruct (eval_of q) as [[codes budget]|] eqn:Eq; [|discriminate Hn].
  injection Hn as ->. exists budget. split; [reflexivity|].
  apply (evaluation_requested sample_agent true true "sum?" [] true sample_history (Ret (Ok "two"%string))
           (take 25 sample_history) q r (drop 26 sample_history) ["1 + 1"%string] budget).
  - exact sample_runs.
  - symmetry. apply take_drop_middle. exact E.
  - exact Eq.
Defined.

Lemma cancellation_stops_witness :
  exists h0 evs, sample_history = h0 ++ [delivered "two"] /\ last_stream sample_history = Some (inr <$> evs)
    /\ "two"%string = streamed_text evs.
Proof.
  destruct (cancellation_stops sample_agent true true "sum?" [] true sample_history _ sample_runs) as [_ Hf].
  destruct (Hf "two"%string eq_refl) as (h0 & evs & Hh & Hl & Ht & _). exists h0, evs. split; [exact Hh|]. split; [exact Hl|exact Ht].
Defined.
End Sample.
